(* ===== verification/_CoqProject ===== *)
-Q . S2P
Prelude.v
JsText.v
JsValue.v
Regex.v
Redaction.v
Url.v
Calendar.v
RunState.v
Approvals.v
RunEvents.v
EventReducer.v
EventOrder.v
EventInvariants.v
RunLiveness.v
MemoryRules.v
MemoryStore.v
Compaction.v
PromptComposition.v
RunContext.v
Files.v
Messaging.v
RoutineSchedule.v
EgressPolicy.v
DangerousActions.v
Statements.v
Threads.v
RunTables.v
RunLeases.v
Json.v
ToolCallLedger.v
ApprovalStore.v
RunInterleaving.v
RunFencing.v
RunOnce.v
RunRecovery.v
ToolDispatcher.v
ToolExecution.v
ApprovalGate.v
DangerGuard.v
Addresses.v
UrlSafety.v
Transactions.v
Conversations.v
MessageStore.v
RunCreation.v
RoutineStore.v
ConversationSteps.v
ConversationCommands.v
ConversationInvariants.v
ConversationSystem.v
ConversationAnswers.v
ConversationExamples.v
EventSink.v
RoutineScheduler.v
ThreadsService.v
Bytes.v
JsonText.v
SignedTokens.v
Cursors.v
Capabilities.v
WebhookSignature.v
CredentialCipher.v
LimitsConfig.v
RateLimits.v
RequestLimits.v
BackupPolicy.v
BackupCipher.v
BackupRuns.v
PiEvents.v
WebhookIngress.v
ThreadEvents.v
Fanout.v
ComputerLeases.v
ComputerCommands.v
Workspace.v
WorkspaceInvariants.v
WorkspaceIsolation.v
WorkspaceAnswers.v
ThreadPages.v
CorePolicies.v
