(* ===== verification/Prelude.v ===== *)
(** * A verification library for PorkBot's domain core

    PorkBot runs durable agents: a worker executes a run, appends run events to
    a log, and clients fold the log into the thread they render; an operator
    answers approvals, keeps a bot's memory and its routines.  The decisions
    behind all of this live in packages/core/src as pure functions; the database
    package applies them in transactions; packages/effect runs the tools of a run
    behind its ledger, its gates and its leases; the API, the worker and the backup
    program call the three.  This library models that code definition by definition,
    under the source's names, and proves what each part promises to the others.

    ** Files and the code they model

    - Prelude: results ([{ ok: true; .. } | { ok: false; error }]), lists keyed
      by a projection, automation ([dm], [dms], [bools]).
    - JsText, JsValue: JavaScript strings as lists of UTF-16 code units with the
      string methods the sources call, and the values an [unknown] may hold, with
      Number as what [Number.isSafeInteger] and comparisons can tell apart.
    - Url: the WHATWG URL parser, a class ([UrlPlatform], laws [UrlLaws]) with one
      executable instance.
    - RunState: run-state.ts.  Approvals: approvals.ts.  RunEvents: run-events.ts,
      every parser from an untrusted value to an event and back from a stored row.
    - EventReducer: event-reducer.ts, the fold into [ThreadSnapshot], one
      definition per handler, with the cursor, the pending buffer and the drain
      loop.  EventOrder: the abstract specification (apply the set of events in
      [seq] order up to the first gap) and the refinement by the buffered fold.
      EventInvariants: what a fold keeps, and the run machine labelled by events
      that every fold follows.
    - RunLiveness: run-liveness.ts (the progress tracker as a state machine, the
      assessment) and run-recovery.ts.
    - Statements: the programs a caller runs over the database ([Query]/[Done]) and
      their interleaving; a statement is one atomic function of the clock and the
      tables, and any two may run between two statements of another caller.
    - RunTables: the rows of packages/db/src/schema for runs, attempts, external
      effects and approvals, as finite maps keyed by the tables' unique keys.
    - RunLeases: packages/db/src/run-leases.ts, run-liveness.ts, the insert of
      run-creation.ts and the stop request of repositories.ts.
    - Regex: the backtracking matcher of JavaScript's regular expressions with its
      derivations.  Redaction: packages/logging/src/redact.ts, secret names, secret
      shapes and the deep conversion of a value.
    - Json: [JSON.stringify] as what it keeps of a value, and what a jsonb column
      rejects.  ToolCallLedger: tool-call-ledger.ts.  ApprovalStore:
      approval-store.ts, the gate's row.
    - RunInterleaving: the relation of every statement above on one database, its
      well-formedness invariant and the preorder any interleaving stays inside.
      RunFencing, RunOnce: the theorems on leases, and on calls and gates.
    - Threads: programs one after the other, cut off by an interruption, or run in a
      pool by any scheduler; the token argument by which one of them wins.
    - ToolDispatcher: packages/effect/src/tool-dispatcher.ts, the registry and one
      call's admission, heartbeat, handler and settlement, over the ledger interface
      ([ToolCallLedger]).  ToolExecution: its theorems over the ledger of the database.
    - ApprovalGate: packages/effect/src/approval-gate.ts, the gate and its wait over
      the store interface.  DangerGuard: danger-guard.ts, the register's answer for a
      call and the gate behind it.
    - RunRecovery: the worker's settlement patches (run-execution.ts), the watchdog's
      candidate (jobs/lease-watchdog.ts) and the delivery handler
      (jobs/run-execute.ts), as programs over those statements.
    - MemoryRules: memory-rules.ts.  MemoryStore: packages/db/src/memory-store.ts,
      the two tables, every writing statement, and calls that decide on arbitrarily
      stale reads as a step relation.
    - Compaction: compaction-policy.ts.  PromptComposition: prompt-composition.ts.
      RunContext: recall-policy.ts, ingestion.ts and run-context.ts, the one prompt of
      a run built from those policies and MemoryRules' documents.
    - Files: files.ts.  Messaging: messaging-policy.ts and message-blocks.ts.
    - Calendar, RoutineSchedule: routine-schedule.ts over the proleptic Gregorian
      calendar; time zones are a class ([Timezones]).
    - EgressPolicy: egress-policy.ts.  DangerousActions: dangerous-actions.ts,
      the register that puts the path, host and name rules in one decision.
    - Addresses, UrlSafety: packages/effect/src/url-safety.ts, the refused addresses,
      then the pre-flight, the guarded lookup and the redirect loop.
    - Transactions: packages/db/src/transaction.ts, READ COMMITTED with row locks and
      commits whose answer may be lost.  Conversations: the tables of a conversation
      and their writes.  MessageStore: messages.ts and run-event-sink.ts.  RunCreation:
      run-creation.ts.  RoutineStore: routines.ts.
    - ConversationSteps, ConversationCommands, ConversationInvariants,
      ConversationSystem: one commit rule per command, the commands as refinements of
      the rules under any interleaving, and what every commit keeps.
      ConversationAnswers, ConversationExamples: what the answers promise.
    - EventSink: the log between its writer and its reader.  RoutineScheduler:
      apps/worker/src/jobs/routine-schedule.ts.  ThreadsService: the send of
      apps/api/src/services/threads.ts.
    - Bytes, JsonText: encodings and JSON as text.  SignedTokens, with Cursors
      (apps/api/src/cursors.ts), Capabilities (proxy-capability.ts and
      screen-capability.ts) and WebhookSignature (webhook-signature.ts) over it.
    - CredentialCipher: credential-cipher.ts over AES-GCM, HKDF and scrypt, the classes
      of Bytes.
    - LimitsConfig, RateLimits: apps/api/src/limits.ts.  RequestLimits: how gate.ts and
      app.ts spend the limits.
    - BackupPolicy: backup-policy.ts.  BackupCipher: apps/backup/src/cipher.ts.
      BackupRuns: backup-store.ts, run.ts, drill.ts and the backup watchdog.
    - PiEvents: packages/adapters/src/pi-events.ts, from the agent loop's records to
      the events of the wire.  WebhookIngress: apps/api/src/webhooks.ts over
      packages/db/src/ingress.ts.  ThreadEvents: services/thread-events.ts and the
      client of contracts/src/stream.ts.  Fanout: packages/adapters/src/realtime.ts.
    - ComputerLeases: computer-leases.ts and its sweep.  ComputerCommands:
      computer-commands.ts and the budget of computer-tools.ts.
    - Workspace: repositories.ts over bots, sections, threads, model connections and
      membership, every command a program of statements of its actor.
      WorkspaceInvariants: what every statement keeps.  WorkspaceIsolation: one space
      and another.  WorkspaceAnswers: what the commands answer.  ThreadPages: the
      pages of the threads service.
    - CorePolicies: computer-network.ts, bot-secrets.ts with the header check of
      packages/adapters/src/credential-proxy.ts, and tool-results.ts.

    ** How the parts interact

    RunEvents feeds EventReducer; EventReducer uses RunState's [transition] for
    every status change and Approvals for its gates; RunLiveness consumes the same
    events.  MemoryStore applies MemoryRules; Compaction carries MemoryRules'
    documents through; RunContext selects them and hands the selection and the
    labelled external content to PromptComposition.  DangerousActions asks
    Files where a path resolves and EgressPolicy what a destination is.
    RunLeases, ToolCallLedger and ApprovalStore share the tables of RunTables and
    meet only there; a heartbeat is stamped with RunLiveness' snapshot, and
    RunRecovery decides with [decideReclaim].  The ledger and the gate store what
    Redaction leaves of a call's arguments; ToolDispatcher runs a handler behind the
    ledger's admission, DangerGuard puts ApprovalGate behind DangerousActions.
    ThreadsService decides with Messaging over RunCreation's transaction; RoutineScheduler
    settles RoutineStore's slots; MessageStore appends what EventReducer later folds, and
    PiEvents frames what MessageStore appends.  ThreadEvents reads that log behind
    Cursors' positions and RequestLimits' stream slots and waits on Fanout.
    WebhookIngress checks WebhookSignature before it claims a delivery.  BackupRuns acts
    on BackupPolicy's decisions and writes BackupCipher's objects.  ComputerCommands
    takes a ToolCallLedger claim and a ComputerLeases hold around every command.
    UrlSafety judges the addresses a redirect resolves to with Addresses.

    ** What the theorems show

    - Event stream: folding is independent of arrival order and replays and
      implements the ordered specification; every run moves through its own events, one
      move of the labelled run machine each; identities stay unique; a parked run has a pending gate; a call
      behind a gate cannot resolve early; transcripts only grow; runs do not
      interfere; the drain loop is its unbounded source loop; parsing round trips.
    - Runs in the database: under any interleaving of every caller's statements a
      row moves along the run state machine and its fence only grows; an acquisition
      fences out every lease before it; a tool call starts and settles once; a gate
      opens and resolves once; a settled run is closed to every writer; a delivery
      executes once and the watchdog hands on or fails what it reclaims.
    - Tool calls: in any pool of dispatchers over any handlers a call's handler is
      entered at most once, the outcome a dispatch answers with is the row's and
      replays; a dangerous call goes ahead only on a final and timely approval that
      names its operator; a wait ends at its deadline.
    - Secrets: a name that ends in a secret word is secret, what redaction hides
      cannot be told from the result, the scanner ends on every string.
    - Memory: decisions are attributable, bounded and consecutive; under any
      interleaving histories are gapless and append-only, every revision stays
      restorable and an agent can neither delete nor revive.
    - Prompt and context: composition is order-independent, framed by identity and
      memory, and external content never reaches the instruction channel; recall
      is bounded; compaction cuts exactly the oldest messages and never memory.
    - Boundaries: paths stay in the home, attachments become plain names, egress
      opens exactly what the operator wrote, dangerous calls are gated in a fixed
      order, sends are idempotent under their nonce.
    - Schedules: the cron grammar denotes its sets, the next fire is the least one
      after an instant, clock transitions resolve to the documented instants.
    - Conversations: every command of every caller refines its commit rule, so
      transcripts have no gaps, a submission creates one run however often it is sent,
      a slot is settled once and a steer is claimed once.
    - Streams: a subscriber is given every event of the log once and in order across
      reconnections; a signal reaches every live subscription; a stream ends when its
      membership does.
    - Tokens and secrets at rest: what is signed or sealed reads back, under another
      binding it does not, and an accepted forgery is a collision of the primitive.
    - Limits: the limiter is a fixed-window counter per bucket and key of its log; an actor spends a
      budget per family; a slot taken is freed.
    - Ingress: a handler is invoked for the records that claim a delivery and for nothing
      else, a failed delivery again; a state is consumed
      once.
    - Backups: the stream round trips and a cut one is refused; a run settles its row unless the ledger fails; retention keeps the floor.
    - Computers: a machine has one holder; a command is handed to the provider once and
      recorded only after the run was seen to hold its lease again; a sweep alone frees what is over.
    - Workspace: references stay inside a space, unique keys hold and a space has at
      most one default under any interleaving; a command of one space neither sees nor
      touches another's rows; a spawn key names one bot; a walk over the pages of a
      bot's threads ends with every thread, but for those of a millisecond its cursor cut.
    - Small policies: a computer's network is isolated and shared only on equal hashes; an
      accepted secret's header is one the tool layer allows and nearly always one the
      proxy does; a stored tool result is bounded and says when it is a preview.

    ** Bounds and fuel

    [drainLoop] runs one step per buffered event plus one: each step removes one,
    and [drainPending_step] shows that this satisfies the source loop's equation.
    [countUp] counts over a finite range with fuel its length.  [walkClock] keeps
    the source's own bound of two days of minutes and [searchDays] its horizon of
    2928 days.  [scanAssignments] takes one step more than the string is long: each
    match moves the scan forward ([redactAssignments_terminates]); a match of a
    regular expression is bounded by the rest of the subject.  JSON is parsed with fuel
    the text's length, one unit per character read; the backup stream's buffers are
    filled and read with fuel the bytes still to come.  A hold makes the source's two
    attempts and a swap of the default its three; a client's walk over pages is given
    one page more than there are threads, which [thread_walk] shows to be enough.  A
    wait on a gate is a loop without a bound: it is given the host clock's readings, one
    per poll.  Every other recursion is structural.  Numbers the code keeps below
    [Number.MAX_SAFE_INTEGER] are integers with that guard written out, the record
    counter of a backup stream stops at 2^32, and the database's integer column is
    bounded where a statement writes it.

    ** Parameters and what is not modelled

    The URL parser, the time zone database, the lenient base64 decoder, HMAC, SHA-256,
    AES-GCM, HKDF, scrypt, [Date.parse] and the HTTP router's patterns are classes or
    arguments with the laws the code relies on, each with a concrete instance used by
    the witnesses.  A tool's handler, the run's heartbeat, the computer provider, the
    queue, the credential store and the session reader are arguments of the definitions
    that call them, as they are in the code; so are the ids the database draws, the bot
    of a run, and the host's clock.  The statements a handler gets through before its
    budget is over are a number the theorems quantify.  The database clock of a statement
    is an argument no theorem constrains unless it says so.  Error values carry their
    typed fields, not the rendered sentence.

    Deleting a bot is a statement of Workspace; what its cascade, or a space's or a user's, takes
    from the tables of a conversation, of the runs and of the computers is not a step of
    [commits], [dbStep] and [machineStep].  The theorems over those relations are about
    histories without such a deletion, which frees what the deleted rows held: the nonce
    of a run, the key of a tool call, a machine.  A patch of a claimed run is one its
    columns store.

    Not modelled: the container adapters and shells, which are I/O against other
    processes; the deployment harness and the emulators of the test kit; the schemas of
    the HTTP contracts and their routers, which validate and call the services; the
    stores that only scope a read or a write (usage, snapshots, notifications, secrets);
    the policies for quotas, signup and notifications, a few
    comparisons each; migrations and roles, executed by the database; the user interface and the desktop
    program; process wiring, logging and metrics; and the backoff, whose arithmetic is
    floating point over a random source. *)

From stdpp Require Export prelude list gmap sorting.
From Stdlib Require Export ZArith Lia.

#[global] Set Default Goal Selector "!".

(** ** Results: the [{ ok: true; ... } | { ok: false; error }] unions *)

Inductive result (E A : Type) : Type :=
| Ok (a : A)
| Err (e : E).

Arguments Ok {E A} a.
Arguments Err {E A} e.

#[export] Instance result_ret E : MRet (result E) := λ A a, Ok a.
#[export] Instance result_bind E : MBind (result E) := λ A B k r,
  match r with
  | Ok a => k a
  | Err e => Err e
  end.
#[export] Instance result_fmap E : FMap (result E) := λ A B f r,
  match r with
  | Ok a => Ok (f a)
  | Err e => Err e
  end.

#[export] Instance result_eq_dec `{EqDecision E, EqDecision A} :
  EqDecision (result E A).
Proof. solve_decision. Defined.

Definition is_ok {E A} (r : result E A) : bool :=
  match r with Ok _ => true | Err _ => false end.

(** [a ?? b] on the error unions the validators return: the first error wins. *)
Definition orElse {E} (a b : option E) : option E :=
  match a with Some e => Some e | None => b end.

Definition result_map_err {E F A} (f : E → F) (r : result E A) : result F A :=
  match r with
  | Ok a => Ok a
  | Err e => Err (f e)
  end.

(** ** Automation *)

(** [dm] case-splits on the scrutinee of some [match] of the goal or of a
    hypothesis, keeping the equation; [dms] repeats it and closes the trivial
    branches. *)
Ltac dm :=
  match goal with
  | |- context [match ?x with _ => _ end] =>
      lazymatch x with context [match _ with _ => _ end] => fail | _ => destruct x eqn:? end
  | H : context [match ?x with _ => _ end] |- _ =>
      lazymatch x with context [match _ with _ => _ end] => fail | _ => destruct x eqn:? end
  end.

Ltac dms := repeat (dm; simplify_eq/=; try done).

(** Only hypotheses, for goals whose own [match]es must stay folded. *)
Ltac dmh :=
  match goal with
  | H : context [match ?x with _ => _ end] |- _ =>
      lazymatch x with context [match _ with _ => _ end] => fail | _ => destruct x eqn:? end
  end.

(** Booleans as propositions. *)
Ltac bools :=
  repeat match goal with
  | H : (_ && _) = true |- _ => apply andb_true_iff in H as [??]
  | H : (_ || _) = false |- _ => apply orb_false_iff in H as [??]
  | H : (_ || _) = true |- _ => apply orb_true_iff in H
  | H : (_ && _) = false |- _ => apply andb_false_iff in H
  | H : negb _ = true |- _ => apply negb_true_iff in H
  | H : negb _ = false |- _ => apply negb_false_iff in H
  | H : bool_decide _ = true |- _ => apply bool_decide_eq_true in H
  | H : bool_decide _ = false |- _ => apply bool_decide_eq_false in H
  | H : (_ <? _)%Z = true |- _ => apply Z.ltb_lt in H
  | H : (_ <? _)%Z = false |- _ => apply Z.ltb_ge in H
  | H : (_ <=? _)%Z = true |- _ => apply Z.leb_le in H
  | H : (_ <=? _)%Z = false |- _ => apply Z.leb_gt in H
  | H : (_ =? _)%Z = true |- _ => apply Z.eqb_eq in H
  | H : (_ =? _)%Z = false |- _ => apply Z.eqb_neq in H
  end.

Create HintDb porkbot.

(** ** Lists *)

(** [Array.prototype.find], [some], [every] are Stdlib's [List.find],
    [existsb] and [forallb]; the lemmas below relate them to membership. *)

Lemma find_app {A} (p : A → bool) (l k : list A) :
  List.find p (l ++ k) =
  match List.find p l with Some x => Some x | None => List.find p k end.
Proof. induction l as [|x l IH]; simpl; [done|]. by destruct (p x). Qed.

Lemma find_none_existsb {A} (p : A → bool) (l : list A) :
  List.find p l = None ↔ existsb p l = false.
Proof. induction l as [|x l IH]; simpl; [done|]. by destruct (p x). Qed.

Lemma existsb_false {A} (p : A → bool) (l : list A) :
  existsb p l = false ↔ ∀ x, x ∈ l → p x = false.
Proof.
  induction l as [|x l IH]; simpl.
  - split; [intros _ y Hy; by apply elem_of_nil in Hy | done].
  - rewrite orb_false_iff, IH. setoid_rewrite elem_of_cons. firstorder subst; eauto.
Qed.

Lemma existsb_true {A} (p : A → bool) (l : list A) :
  existsb p l = true ↔ ∃ x, x ∈ l ∧ p x = true.
Proof.
  rewrite existsb_exists. by setoid_rewrite list_elem_of_In.
Qed.

Lemma find_some_elem {A} (p : A → bool) (l : list A) x :
  List.find p l = Some x → x ∈ l ∧ p x = true.
Proof. intros H. apply List.find_some in H. by rewrite list_elem_of_In. Qed.

(** Updating the first-match element in place, as [xs.map(x => p(x) ? y : x)]. *)
Definition replaceWhere {A} (p : A → bool) (y : A) (l : list A) : list A :=
  (λ x, if p x then y else x) <$> l.

(** [exists ? xs.map(...) : [...xs, y]], the upsert of [withRun] and
    [withMessage]. *)
Definition upsert {A} (p : A → bool) (y : A) (l : list A) : list A :=
  if existsb p l then replaceWhere p y l else l ++ [y].

Section keyed.
  Context {A K : Type} `{!EqDecision K} (key : A → K).

  (** A list keyed by [key]: [find] by key is a partial function. *)
Definition keyIs (k : K) (x : A) : bool := bool_decide (key x = k).

Definition lookupKey (k : K) (l : list A) : option A := List.find (keyIs k) l.

Lemma lookupKey_some k l x : lookupKey k l = Some x → x ∈ l ∧ key x = k.
Proof. intros [? ?%bool_decide_eq_true]%find_some_elem. done. Qed.

Lemma lookupKey_none k l : lookupKey k l = None ↔ k ∉ key <$> l.
Proof.
  unfold lookupKey. rewrite find_none_existsb, existsb_false, list_elem_of_fmap.
  unfold keyIs. split.
  - intros H (x & -> & Hx). specialize (H x Hx). by bools.
  - intros H x Hx. apply bool_decide_eq_false. naive_solver.
Qed.

Lemma lookupKey_elem k l x :
  NoDup (key <$> l) → x ∈ l → key x = k → lookupKey k l = Some x.
Proof.
  intros Hnd Hx Hk. destruct (lookupKey k l) as [y|] eqn:E.
  - apply lookupKey_some in E as [Hy Hyk]. f_equal.
    apply list_elem_of_lookup in Hx as [i Hi], Hy as [j Hj].
    assert (i = j) as ->; [|congruence].
    eapply NoDup_lookup; [done|..]; rewrite list_lookup_fmap;
      [by rewrite Hi | by rewrite Hj; simpl; f_equal; congruence].
  - apply lookupKey_none in E. destruct E. apply list_elem_of_fmap. eauto.
Qed.

Lemma lookupKey_replace k k' y l :
  key y = k →
  lookupKey k' (replaceWhere (keyIs k) y l) =
  if decide (k' = k) then match lookupKey k l with Some _ => Some y | None => None end
  else lookupKey k' l.
Proof.
  intros Hy. unfold lookupKey, replaceWhere, keyIs.
  induction l as [|x l IH]; [by destruct (decide _)|].
  rewrite fmap_cons; cbn [List.find].
  destruct (decide (key x = k)) as [Hx|Hx];
    [rewrite (bool_decide_true _ Hx) | rewrite (bool_decide_false _ Hx)].
  - rewrite Hy. destruct (decide (k' = k)) as [->|].
    + by rewrite bool_decide_true.
    + rewrite !bool_decide_false by congruence. rewrite IH. done.
  - destruct (decide (k' = k)) as [->|].
    + rewrite (bool_decide_false _ Hx). apply IH.
    + by rewrite IH.
Qed.

Lemma lookupKey_upsert k k' y l :
  key y = k →
  lookupKey k' (upsert (keyIs k) y l) =
  if decide (k' = k) then Some y else lookupKey k' l.
Proof.
  intros Hy. unfold upsert. destruct (existsb _ l) eqn:E.
  - rewrite lookupKey_replace by done. case_decide; [|done].
    destruct (lookupKey k l) eqn:F; [done|].
    unfold lookupKey in F. apply find_none_existsb in F. congruence.
  - apply find_none_existsb in E. unfold lookupKey in *. rewrite find_app. simpl.
    case_decide as Hk.
    + subst k'. rewrite E. unfold keyIs. by rewrite bool_decide_true.
    + replace (keyIs k' y) with false; [by destruct (List.find (keyIs k') l)|].
      symmetry. apply bool_decide_eq_false. congruence.
Qed.

Lemma fmap_key_replace k y l :
  key y = k → key <$> replaceWhere (keyIs k) y l = key <$> l.
Proof.
  intros Hy. unfold replaceWhere. rewrite <- list_fmap_compose. apply list_fmap_ext.
  intros i x _. simpl. unfold keyIs. by case_bool_decide; subst.
Qed.

Lemma NoDup_upsert k y l :
  key y = k → NoDup (key <$> l) → NoDup (key <$> upsert (keyIs k) y l).
Proof.
  intros Hy Hnd. unfold upsert. destruct (existsb _ l) eqn:E.
  - by rewrite fmap_key_replace.
  - apply find_none_existsb in E. apply lookupKey_none in E.
    rewrite fmap_app. apply NoDup_app. split_and!; [done| |apply NoDup_singleton].
    intros k' Hk' Hin. cbn in Hin. apply list_elem_of_singleton in Hin. congruence.
Qed.

Lemma Forall_upsert (P : A → Prop) k y l :
  P y → Forall P l → Forall P (upsert (keyIs k) y l).
Proof.
  intros Hy Hl. unfold upsert, replaceWhere. destruct (existsb _ l).
  - apply Forall_fmap. eapply Forall_impl; [done|]. intros x Hx. simpl.
    by destruct (keyIs k x).
  - apply Forall_app. auto.
Qed.
End keyed.

(** ** Histories *)

(** Every entry of a history is as [P] has it after the entries before it. *)
Definition atEvery {A} (P : list A → A → Prop) (hist : list A) : Prop :=
  ∀ i x, hist !! i = Some x → P (take i hist) x.

Lemma atEvery_nil {A} (P : list A → A → Prop) : atEvery P [].
Proof. done. Qed.

Lemma atEvery_snoc {A} (P : list A → A → Prop) hist x : atEvery P hist → P hist x → atEvery P (hist ++ [x]).
Proof.
  intros Hh Hx i y Hi. destruct (decide (i < length hist)) as [Hlt|Hge].
  - rewrite lookup_app_l in Hi by done. rewrite take_app_le by lia. by apply Hh.
  - rewrite lookup_app_r in Hi by lia. apply list_lookup_singleton_Some in Hi as [Hi <-].
    rewrite take_app_ge by lia. replace (i - length hist) with 0 by lia. by rewrite app_nil_r.
Qed.

Lemma atEvery_take {A} (P : list A → A → Prop) hist n : atEvery P hist → atEvery P (take n hist).
Proof.
  intros Hh i x Hi. apply lookup_take_Some in Hi as [Hi Hlt]. rewrite take_take, Nat.min_l by lia. by apply Hh.
Qed.
