(* ===== verification/JsText.v ===== *)
(** JavaScript strings as the program uses them: sequences of UTF-16 code
    units, with the standard-library operations the sources call ([trim],
    [split], [join], [startsWith], [endsWith], [includes], [slice]). *)

From S2P Require Import Prelude.
From Stdlib Require Export Ascii.
From stdpp Require Export strings.

Abbreviation jstr := (list N).

(** A source literal (ASCII) as code units. *)
Definition u (s : string) : jstr := N_of_ascii <$> String.list_ascii_of_string s.
Arguments u s%_string : simpl never.

(** A text between double quotation marks. *)
Definition quoted (s : jstr) : jstr := [34%N] ++ s ++ [34%N].

(** [s.length]. *)
Definition strlen (s : jstr) : Z := Z.of_nat (length s).

(** White space and line terminators: the set [trim] removes and [\s] matches. *)
Definition isSpace (c : N) : bool :=
  bool_decide (c ∈ [9; 10; 11; 12; 13; 32; 160; 5760; 8232; 8233; 8239; 8287; 12288; 65279]%N)
  || ((8192 <=? c) && (c <=? 8202))%N.

Definition isDigit (c : N) : bool := ((48 <=? c) && (c <=? 57))%N.
Definition isUpperAscii (c : N) : bool := ((65 <=? c) && (c <=? 90))%N.
Definition isLowerAscii (c : N) : bool := ((97 <=? c) && (c <=? 122))%N.

Fixpoint dropSpaces (s : jstr) : jstr :=
  match s with
  | c :: s' => if isSpace c then dropSpaces s' else s
  | [] => []
  end.

(** [s.trim()]. *)
Definition trim (s : jstr) : jstr := rev (dropSpaces (rev (dropSpaces s))).

(** [s.trim().length === 0], also spelled [s.trim() === ""]. *)
Definition isBlank (s : jstr) : bool := (strlen (trim s) =? 0)%Z.

(** [s.startsWith(p)], [s.endsWith(p)], [s.includes(p)]. *)
Fixpoint startsWith (p s : jstr) : bool :=
  match p, s with
  | [], _ => true
  | a :: p', b :: s' => (a =? b)%N && startsWith p' s'
  | _ :: _, [] => false
  end.

Definition endsWith (p s : jstr) : bool := startsWith (rev p) (rev s).

Fixpoint includes (p s : jstr) : bool :=
  startsWith p s || match s with [] => false | _ :: s' => includes p s' end.

(** [s.split(c)] for a separator of one code unit; never empty. *)
Fixpoint splitOn (sep : N → bool) (s : jstr) : list jstr :=
  match s with
  | [] => [[]]
  | c :: s' =>
      if sep c then [] :: splitOn sep s'
      else match splitOn sep s' with
           | w :: ws => (c :: w) :: ws
           | [] => [[c]]
           end
  end.

Definition split (c : N) (s : jstr) : list jstr := splitOn (N.eqb c) s.

(** [words.join(sep)]. *)
Fixpoint join (sep : jstr) (ws : list jstr) : jstr :=
  match ws with
  | [] => []
  | [w] => w
  | w :: ws' => w ++ sep ++ join sep ws'
  end.

(** [s.indexOf(c)], [None] standing for [-1]. *)
Fixpoint indexOf (c : N) (s : jstr) : option nat :=
  match s with
  | [] => None
  | d :: s' => if (c =? d)%N then Some 0 else S <$> indexOf c s'
  end.

(** [s.indexOf(p)] for a text, [None] standing for [-1]. *)
Fixpoint indexOfText (p s : jstr) : option nat :=
  if startsWith p s then Some 0
  else match s with [] => None | _ :: s' => S <$> indexOfText p s' end.

(** [ls.includes(s)] over a vocabulary of literals. *)
Definition isMember (s : jstr) (ls : list jstr) : bool := bool_decide (s ∈ ls).

(** [left <= right] on strings: by code unit. *)
Fixpoint leString (l r : jstr) : bool :=
  match l, r with
  | [], _ => true
  | _ :: _, [] => false
  | a :: l', b :: r' => (a <? b)%N || ((a =? b)%N && leString l' r')
  end.

(** ** Lemmas *)

Lemma startsWith_spec p s : startsWith p s = true ↔ ∃ t, s = p ++ t.
Proof.
  revert s. induction p as [|a p IH]; intros s; simpl.
  - split; [intros _; by exists s | done].
  - destruct s as [|b s]; [split; [done | by intros (? & ?)]|].
    rewrite andb_true_iff, N.eqb_eq, IH. split.
    + intros [-> [t ->]]. by exists t.
    + intros [t [= -> ->]]. eauto.
Qed.

Lemma endsWith_spec p s : endsWith p s = true ↔ ∃ t, s = t ++ p.
Proof.
  unfold endsWith. rewrite startsWith_spec. split; intros [t H].
  - exists (rev t). apply (f_equal (@rev N)) in H.
    by rewrite rev_involutive, rev_app_distr, rev_involutive in H.
  - exists (rev t). subst. by rewrite rev_app_distr.
Qed.

Lemma strlen_app s t : strlen (s ++ t) = (strlen s + strlen t)%Z.
Proof. unfold strlen. rewrite length_app. lia. Qed.

Lemma strlen_nonneg s : (0 ≤ strlen s)%Z.
Proof. unfold strlen. lia. Qed.

Lemma splitOn_nonempty sep s : splitOn sep s ≠ [].
Proof.
  induction s as [|c s IH]; simpl; [done|].
  destruct (sep c); [done|]. by destruct (splitOn sep s).
Qed.

Lemma splitOn_no_sep sep s : Forall (Forall (λ c, sep c = false)) (splitOn sep s).
Proof.
  induction s as [|c s IH]; simpl; [repeat constructor|].
  destruct (sep c) eqn:E; [by constructor|].
  destruct (splitOn sep s) as [|w ws]; [repeat constructor; done|].
  apply Forall_cons in IH as [??]. by repeat constructor.
Qed.

Lemma splitOn_cons sep c s :
  splitOn sep (c :: s) =
  if sep c then [] :: splitOn sep s
  else match splitOn sep s with w :: ws => (c :: w) :: ws | [] => [[c]] end.
Proof. done. Qed.

(** A separator-free word splits to itself, and [split] undoes [join]. *)
Lemma splitOn_word sep w : Forall (λ c, sep c = false) w → splitOn sep w = [w].
Proof.
  induction 1 as [|c w Hc _ IH]; simpl; [done|]. by rewrite Hc, IH.
Qed.

Lemma splitOn_app_sep sep w c s :
  Forall (λ c, sep c = false) w → sep c = true →
  splitOn sep (w ++ c :: s) = w :: splitOn sep s.
Proof.
  induction 1 as [|d w Hd _ IH]; intros Hc; simpl.
  - by rewrite Hc.
  - by rewrite Hd, IH.
Qed.

Lemma split_join c ws :
  ws ≠ [] → Forall (Forall (λ d, (c =? d)%N = false)) ws →
  split c (join [c] ws) = ws.
Proof.
  intros Hne Hws. unfold split. induction ws as [|w ws IH]; [done|].
  apply Forall_cons in Hws as [Hw Hws]. destruct ws as [|w' ws].
  - by apply splitOn_word.
  - change (join [c] (w :: w' :: ws)) with (w ++ c :: join [c] (w' :: ws)).
    rewrite splitOn_app_sep; [|done|apply N.eqb_refl]. f_equal. by apply IH.
Qed.

Lemma dropSpaces_nil s : dropSpaces s = [] ↔ Forall (λ c, isSpace c = true) s.
Proof.
  induction s as [|c s IH]; simpl; [done|].
  rewrite Forall_cons. destruct (isSpace c); naive_solver.
Qed.

Lemma dropSpaces_suffix s : ∃ p, s = p ++ dropSpaces s ∧ Forall (λ c, isSpace c = true) p.
Proof.
  induction s as [|c s (p & Hp & Hs)]; simpl; [by exists []|].
  destruct (isSpace c) eqn:E.
  - exists (c :: p). simpl. split; [by f_equal | by constructor].
  - by exists [].
Qed.

Lemma trim_decompose s :
  ∃ p q, s = p ++ trim s ++ q ∧
    Forall (λ c, isSpace c = true) p ∧ Forall (λ c, isSpace c = true) q.
Proof.
  unfold trim. destruct (dropSpaces_suffix s) as (p & Hp & Hsp).
  destruct (dropSpaces_suffix (rev (dropSpaces s))) as (q & Hq & Hsq).
  exists p, (rev q). split_and!; [|done|by apply Forall_rev].
  rewrite Hp at 1. f_equal.
  rewrite <- rev_app_distr, <- Hq. by rewrite rev_involutive.
Qed.

Lemma trim_nil_iff s : trim s = [] ↔ Forall (λ c, isSpace c = true) s.
Proof.
  split.
  - intros H. destruct (trim_decompose s) as (p & q & Hs & Hp & Hq).
    rewrite Hs, H. simpl. by apply Forall_app.
  - intros H. unfold trim. by rewrite (proj2 (dropSpaces_nil s) H).
Qed.

Lemma isBlank_true s : isBlank s = true ↔ trim s = [].
Proof.
  unfold isBlank, strlen. rewrite Z.eqb_eq. split; [|by intros ->].
  intros H. apply length_zero_iff_nil. lia.
Qed.

Lemma isBlank_false s : isBlank s = false ↔ trim s ≠ [].
Proof. rewrite <- not_true_iff_false, isBlank_true. done. Qed.

Lemma isBlank_nonempty s : isBlank s = false → s ≠ [].
Proof. by intros H ->. Qed.

Lemma isMember_true s ls : isMember s ls = true ↔ s ∈ ls.
Proof. apply bool_decide_eq_true. Qed.

(** A text that starts in a visible code unit, or is empty. *)
Definition startsVisible (s : jstr) : Prop :=
  match s with [] => True | c :: _ => isSpace c = false end.

Lemma dropSpaces_visible s : startsVisible (dropSpaces s).
Proof. induction s as [|c s IH]; simpl; [done|]. by destruct (isSpace c) eqn:E. Qed.

Lemma dropSpaces_id s : startsVisible s → dropSpaces s = s.
Proof. destruct s as [|c s]; simpl; [done|]. by intros ->. Qed.

Lemma trim_visible s : startsVisible (trim s) ∧ startsVisible (rev (trim s)).
Proof.
  unfold trim. rewrite rev_involutive. split; [|apply dropSpaces_visible].
  pose proof (dropSpaces_visible s) as Hv.
  destruct (dropSpaces_suffix (rev (dropSpaces s))) as (p & Hp & _).
  apply (f_equal (@rev N)) in Hp. rewrite rev_involutive, rev_app_distr in Hp.
  rewrite Hp in Hv. by destruct (rev (dropSpaces (rev (dropSpaces s)))).
Qed.

Lemma trim_trim s : trim (trim s) = trim s.
Proof.
  destruct (trim_visible s) as [H1 H2]. unfold trim at 1.
  by rewrite (dropSpaces_id _ H1), (dropSpaces_id _ H2), rev_involutive.
Qed.

(** [s.toLowerCase()] where the caller compares the result with ASCII text only:
    exact on every code unit whose lower-case form contains an ASCII letter
    (U+0130 maps to an i and a combining dot, U+212A to a k); other letters keep
    their case here and equal no ASCII text either way. *)
Definition toLowerCase (s : jstr) : jstr :=
  s ≫= λ c, if isUpperAscii c then [(c + 32)%N]
            else if (c =? 304)%N then [105; 775]%N
            else if (c =? 8490)%N then [107%N]
            else [c].

(** [s.slice(s.lastIndexOf(c) + 1)] and the index itself. *)
Definition lastIndexOf (c : N) (s : jstr) : option nat :=
  match indexOf c (rev s) with
  | Some i => Some (length s - 1 - i)
  | None => None
  end.

Lemma splitOn_app_join c ws t :
  ws ≠ [] → Forall (Forall (λ d, (c =? d)%N = false)) ws →
  split c (join [c] ws ++ c :: t) = ws ++ split c t.
Proof.
  intros Hne Hws. unfold split. induction ws as [|w ws IH]; [done|].
  apply Forall_cons in Hws as [Hw Hws]. destruct ws as [|w' ws].
  - cbn [join]. by rewrite splitOn_app_sep; [|done|apply N.eqb_refl].
  - change (join [c] (w :: w' :: ws)) with (w ++ c :: join [c] (w' :: ws)).
    rewrite <- (assoc_L (++)). cbn [app]. rewrite splitOn_app_sep; [|done|apply N.eqb_refl].
    f_equal. by apply IH.
Qed.

Lemma join_app sep ws vs :
  ws ≠ [] → vs ≠ [] → join sep (ws ++ vs) = join sep ws ++ sep ++ join sep vs.
Proof.
  intros Hw Hv. induction ws as [|w ws IH]; [done|]. destruct ws as [|w' ws].
  - cbn. by destruct vs.
  - change (join sep ((w :: w' :: ws) ++ vs)) with (w ++ sep ++ join sep ((w' :: ws) ++ vs)).
    rewrite IH by done. cbn [join]. by rewrite !(assoc_L (++)).
Qed.

Lemma includes_unit c s : includes [c] s = true ↔ c ∈ s.
Proof.
  induction s as [|d s IH]; simpl; [set_solver|].
  rewrite orb_true_iff, IH, elem_of_cons, andb_true_iff, N.eqb_eq. naive_solver.
Qed.

Lemma splitOn_Forall (P : N → Prop) sep s : Forall P s → Forall (Forall P) (splitOn sep s).
Proof.
  induction 1 as [|c s Hc _ IH]; simpl; [repeat constructor|].
  destruct (sep c); [by constructor|].
  destruct (splitOn sep s) as [|w ws]; [by repeat constructor|].
  apply Forall_cons in IH as [??]. by repeat constructor.
Qed.

Lemma trim_Forall (P : N → Prop) s : Forall P s → Forall P (trim s).
Proof.
  intros H. destruct (trim_decompose s) as (p & q & Hs & _ & _). rewrite Hs in H.
  apply Forall_app in H as [_ H]. by apply Forall_app in H as [? _].
Qed.

(** [/^\d+$/.test(text)], and the number it writes. *)
Definition isDigits (text : jstr) : bool := (0 <? strlen text)%Z && forallb isDigit text.

Definition numberOf (text : jstr) : Z :=
  foldl (λ n c, (n * 10 + (Z.of_N c - 48))%Z) 0%Z text.

(** Every code unit is the separator or in a word. *)
Lemma split_elem sep s c : c ∈ s → c = sep ∨ ∃ w, w ∈ split sep s ∧ c ∈ w.
Proof.
  unfold split. induction s as [|d s IH]; [by intros ?%elem_of_nil|].
  intros [->|Hc]%elem_of_cons; cbn [splitOn].
  - destruct (N.eqb_spec sep d) as [->|Hne]; [by left|]. right.
    pose proof (splitOn_nonempty (N.eqb sep) s) as Hn.
    destruct (splitOn (N.eqb sep) s) as [|w ws]; [done|]. exists (d :: w). split; left.
  - destruct (IH Hc) as [->|(w & Hw & Hcw)]; [by left|]. right.
    destruct (N.eqb sep d); [exists w; split; [by right|done]|].
    destruct (splitOn (N.eqb sep) s) as [|w' ws]; [by apply elem_of_nil in Hw|].
    apply elem_of_cons in Hw as [->|Hw]; [exists (d :: w'); split; [left|by right]|].
    exists w. split; [by right|done].
Qed.

Lemma leString_cons a l b r :
  leString (a :: l) (b :: r) = true ↔ (a < b)%N ∨ (a = b ∧ leString l r = true).
Proof. simpl. rewrite orb_true_iff, andb_true_iff, N.ltb_lt, N.eqb_eq. done. Qed.

(** ** Camel-case names *)

Definition isWordChar (c : N) : bool := isLowerAscii c || isDigit c.

(** [value.replace(/([a-z0-9])([A-Z])/g, "$1 $2")]: a match ends in a capital and
    starts in a lower-case letter or digit, so no two matches overlap. *)
Fixpoint spaceCamel (value : jstr) : jstr :=
  match value with
  | a :: (b :: _) as rest =>
      if isWordChar a && isUpperAscii b then a :: 32%N :: spaceCamel rest else a :: spaceCamel rest
  | _ => value
  end.

Lemma isWordChar_not_upper c : isWordChar c = true → isUpperAscii c = false.
Proof.
  unfold isWordChar, isLowerAscii, isDigit, isUpperAscii.
  destruct (N.leb_spec 65 c), (N.leb_spec c 90), (N.leb_spec 97 c), (N.leb_spec c 122),
    (N.leb_spec 48 c), (N.leb_spec c 57); done || (cbn; lia).
Qed.

Lemma toLowerCase_app s t : toLowerCase (s ++ t) = toLowerCase s ++ toLowerCase t.
Proof. unfold toLowerCase. by rewrite bind_app. Qed.

Lemma toLowerCase_cons c t : toLowerCase (c :: t) = toLowerCase [c] ++ toLowerCase t.
Proof. apply (toLowerCase_app [c]). Qed.

Lemma spaceCamel_no_capital s : Forall (λ c, isUpperAscii c = false) s → spaceCamel s = s.
Proof.
  induction 1 as [|a [|b s] Ha Hs IH]; [done..|].
  apply Forall_cons in Hs as [Hb _].
  change (spaceCamel (a :: b :: s)) with
    (if isWordChar a && isUpperAscii b then a :: 32%N :: spaceCamel (b :: s)
     else a :: spaceCamel (b :: s)). by rewrite Hb, andb_false_r, IH.
Qed.

Lemma join_cons c w ws : ws ≠ [] → join [c] (w :: ws) = w ++ c :: join [c] ws.
Proof. by destruct ws. Qed.

Lemma join_split c s : join [c] (split c s) = s.
Proof.
  unfold split. induction s as [|d s IH]; [done|]. cbn [splitOn].
  pose proof (splitOn_nonempty (N.eqb c) s) as Hne.
  destruct (N.eqb_spec c d) as [->|_]; [rewrite join_cons by done; by rewrite IH|].
  destruct (splitOn (N.eqb c) s) as [|w ws]; [done|]. destruct ws; cbn in *; by rewrite <- IH.
Qed.

(** The words of a [split] hold no separator. *)
Lemma split_words c s : Forall (Forall (λ d, (c =? d)%N = false)) (split c s).
Proof. apply splitOn_no_sep. Qed.

Lemma indexOfText_here p s t : s = p ++ t → indexOfText p s = Some 0.
Proof. intros ->. destruct (p ++ t) eqn:E; cbn [indexOfText]; rewrite <- E, (proj2 (startsWith_spec _ _)); eauto. Qed.
