(* ===== verification/JsValue.v ===== *)
(** The values an [unknown] may hold: the JavaScript value universe the
    validators inspect with [typeof], [Array.isArray], [Number.isSafeInteger]
    and own-property reads. *)

From S2P Require Import Prelude JsText.

(** ** Numbers *)

(** A Number by what the guards of the sources can tell apart: an integral
    value, a finite non-integral value [m / 2^k], NaN, or an infinity.  Zero has
    one representation: no guard here distinguishes [-0] from [0]. *)
Inductive jsnum :=
| NInt (z : Z)
| NFrac (m : Z) (k : positive)
| NNaN
| NInfinity (negative : bool).

#[export] Instance jsnum_eq_dec : EqDecision jsnum.
Proof. solve_decision. Defined.

Definition MAX_SAFE_INTEGER : Z := 9007199254740991.

(** [Number.isSafeInteger] on an integral value. *)
Definition isSafeZ (z : Z) : bool := (Z.abs z <=? MAX_SAFE_INTEGER)%Z.

(** [Number.isSafeInteger(n)], returning the integer it is. *)
Definition safeInteger (n : jsnum) : option Z :=
  match n with
  | NInt z => if isSafeZ z then Some z else None
  | _ => None
  end.

(** [Number.isInteger(n)], returning the integer it is. *)
Definition integerOf (n : jsnum) : option Z :=
  match n with NInt z => Some z | _ => None end.

(** ** Values *)

Inductive jsval :=
| JUndefined
| JNull
| JBool (b : bool)
| JNumber (n : jsnum)
| JBigInt (z : Z)
| JString (s : jstr)
| JSymbol
| JFunction
| JArray (items : list jsval)
| JObject (fields : list (jstr * jsval)).

(** Own properties of an object, in insertion order. *)
Abbreviation jobject := (list (jstr * jsval)).

(** [record[field]]: [undefined] for an absent property. *)
Definition getField (field : jstr) (record : jobject) : jsval :=
  match lookupKey fst field record with
  | Some (_, v) => v
  | None => JUndefined
  end.

(** [Object.hasOwn(record, field)]. *)
Definition hasOwn (field : jstr) (record : jobject) : bool :=
  existsb (keyIs fst field) record.

(** [{ ...record, field: value }]: an own property keeps its place. *)
Definition setField (field : jstr) (v : jsval) (record : jobject) : jobject :=
  upsert (keyIs fst field) (field, v) record.

(** [...(value === undefined ? {} : { field: value })]. *)
Definition optField (field : jstr) (v : option jsval) : jobject :=
  match v with Some v => [(field, v)] | None => [] end.

(** [typeof value === "object" && value !== null && !Array.isArray(value)]. *)
Definition asRecord (v : jsval) : option jobject :=
  match v with JObject fields => Some fields | _ => None end.

Definition asString (v : jsval) : option jstr :=
  match v with JString s => Some s | _ => None end.

Definition asNumber (v : jsval) : option jsnum :=
  match v with JNumber n => Some n | _ => None end.

(** [typeof v === "string" && vocabulary.includes(v)]. *)
Definition isOneOf (vocabulary : list jstr) (v : jsval) : bool :=
  match v with JString s => isMember s vocabulary | _ => false end.

(** ** Lemmas *)

Lemma getField_setField f g v r :
  getField f (setField g v r) = if decide (f = g) then v else getField f r.
Proof.
  unfold getField, setField. rewrite lookupKey_upsert by done. by case_decide.
Qed.

Lemma getField_set_eq f v r : getField f (setField f v r) = v.
Proof. rewrite getField_setField. by case_decide. Qed.

Lemma getField_set_ne f g v r : f ≠ g → getField f (setField g v r) = getField f r.
Proof. intros H. rewrite getField_setField. by case_decide. Qed.

Lemma getField_cons f g v r :
  getField f ((g, v) :: r) = if decide (g = f) then v else getField f r.
Proof.
  unfold getField, lookupKey, keyIs. simpl.
  destruct (decide (g = f)); [by rewrite bool_decide_true | by rewrite bool_decide_false].
Qed.

Lemma getField_app f r1 r2 :
  getField f (r1 ++ r2) =
  match lookupKey fst f r1 with Some (_, v) => v | None => getField f r2 end.
Proof.
  unfold getField, lookupKey. rewrite find_app. by destruct (List.find _ r1) as [[]|].
Qed.

Lemma getField_nil f : getField f [] = JUndefined.
Proof. done. Qed.

Lemma isOneOf_string vs s : isOneOf vs (JString s) = isMember s vs.
Proof. done. Qed.

Lemma safeInteger_some n z :
  safeInteger n = Some z ↔ n = NInt z ∧ (Z.abs z ≤ MAX_SAFE_INTEGER)%Z.
Proof.
  unfold safeInteger, isSafeZ. destruct n; try naive_solver.
  case_match eqn:E; bools; naive_solver lia.
Qed.

(** Induction through the elements of arrays and the fields of objects. *)
Section jsval_rect.
Context (P : jsval → Prop)
  (Hitems : ∀ items, Forall P items → P (JArray items))
  (Hfields : ∀ fields : jobject, Forall (λ kv, P kv.2) fields → P (JObject fields))
  (Hrest : ∀ v, (∀ items, v ≠ JArray items) → (∀ fields, v ≠ JObject fields) → P v).

Fixpoint jsval_nested_ind (v : jsval) : P v.
Proof.
  destruct v as [| | | | | | | |items|fields]; try (apply Hrest; discriminate).
  - apply Hitems. induction items as [|x items IH]; constructor; [apply jsval_nested_ind|exact IH].
  - apply Hfields. induction fields as [|[k x] fields IH]; constructor;
      [apply jsval_nested_ind|exact IH].
Qed.
End jsval_rect.
