(* ===== verification/Regex.v ===== *)
(** JavaScript's backtracking regular expressions, for the constructs the sources
    write: classes, alternation, optional and repeated parts, [\b] and capture
    groups, with [exec] from an index and [replace] under the global flag. *)

From S2P Require Import Prelude JsText.

Inductive regex :=
| Eps
| Unit (c : N → bool)
| Cat (r1 r2 : regex)
| Alt (r1 r2 : regex)
| Opt (r : regex)                                        (* [r?] *)
| Many (greedy : bool) (lo : nat) (c : N → bool)          (* [[c]{lo,}], lazy: [?] after it *)
| WordBoundary                                           (* [\b] *)
| Group (i : nat) (r : regex).

Abbreviation captures := (list (nat * jstr)).

(** The text of a group; an unset one reads as the empty text. *)
Definition group (i : nat) (g : captures) : jstr :=
  match lookupKey fst i g with Some (_, s) => s | None => [] end.

(** [\w], without the unicode flag. *)
Definition isWord (c : N) : bool :=
  isUpperAscii c || isLowerAscii c || isDigit c || (c =? 95)%N.

Definition wordAt (s : jstr) : bool := match s with c :: _ => isWord c | [] => false end.

(** ** Matching *)

(** [before] is the text to the left, nearest unit first.  The continuation is
    what the rest of the pattern makes of a way to match; [None] backtracks. *)
Section matcher.
Context {A : Type}.

Fixpoint many (greedy : bool) (lo : nat) (c : N → bool) (after before : jstr)
    (k : jstr → jstr → option A) : option A :=
  let more := match after with
              | ch :: after' =>
                  if c ch then many greedy (pred lo) c after' (ch :: before) k else None
              | [] => None
              end in
  match lo with
  | S _ => more
  | O => if greedy then match more with Some v => Some v | None => k before after end
         else match k before after with Some v => Some v | None => more end
  end.

Fixpoint tryMatch (r : regex) (g : captures) (before after : jstr)
    (k : captures → jstr → jstr → option A) : option A :=
  match r with
  | Eps => k g before after
  | Unit c =>
      match after with
      | ch :: after' => if c ch then k g (ch :: before) after' else None
      | [] => None
      end
  | Cat r1 r2 => tryMatch r1 g before after (λ g' b a, tryMatch r2 g' b a k)
  | Alt r1 r2 =>
      match tryMatch r1 g before after k with Some v => Some v | None => tryMatch r2 g before after k end
  | Opt r =>
      match tryMatch r g before after
              (λ g' b a, if (length a =? length after)%nat then None else k g' b a) with
      | Some v => Some v
      | None => k g before after
      end
  | Many greedy lo c => many greedy lo c after before (k g)
  | WordBoundary => if Bool.eqb (wordAt before) (wordAt after) then None else k g before after
  | Group i r =>
      tryMatch r g before after (λ g' b a, k ((i, take (length after - length a) after) :: g') b a)
  end.
End matcher.

(** A match at the current position: its groups and its text. *)
Definition matchAt (r : regex) (before after : jstr) : option (captures * jstr) :=
  tryMatch r [] before after (λ g _ a, Some (g, take (length after - length a) after)).

(** The leftmost match at or after the position [index], with its own. *)
Fixpoint search (r : regex) (before after : jstr) (index : nat) : option (nat * captures * jstr) :=
  match matchAt r before after with
  | Some (g, text) => Some (index, g, text)
  | None =>
      match after with
      | ch :: after' => search r (ch :: before) after' (S index)
      | [] => None
      end
  end.

(** [pattern.exec(value)] of a global pattern at [lastIndex]. *)
Definition exec (r : regex) (value : jstr) (lastIndex : nat) : option (nat * captures * jstr) :=
  if (length value <? lastIndex)%nat then None
  else search r (rev (take lastIndex value)) (drop lastIndex value) lastIndex.

(** [value.replace(pattern, replacement)] of a global pattern; [skip] units still
    belong to the match replaced last. *)
Fixpoint replaceFrom (r : regex) (replacement : captures → jstr) (skip : nat) (before after : jstr) :
    jstr :=
  match skip, after with
  | S skip', ch :: after' => replaceFrom r replacement skip' (ch :: before) after'
  | S _, [] => []
  | O, _ =>
      match matchAt r before after, after with
      | Some (g, []), ch :: after' =>
          replacement g ++ ch :: replaceFrom r replacement O (ch :: before) after'
      | Some (g, _ :: text), ch :: after' =>
          replacement g ++ replaceFrom r replacement (length text) (ch :: before) after'
      | Some (g, _), [] => replacement g
      | None, ch :: after' => ch :: replaceFrom r replacement O (ch :: before) after'
      | None, [] => []
      end
  end.

Definition replaceAll (r : regex) (replacement : captures → jstr) (value : jstr) : jstr :=
  replaceFrom r replacement O [] value.

(** ** Writing patterns *)

Definition isUnit (s : jstr) (c : N) : bool := existsb (N.eqb c) s.
Definition noneOf (s : jstr) (c : N) : bool := negb (isUnit s c).
Definition anyUnit (c : N) : bool := true.
Definition anyOf (cs : list (N → bool)) (c : N) : bool := existsb (λ p, p c) cs.

(** Another case of the same letter, under the [i] flag: the case folding of the
    flag never takes a unit outside ASCII to one inside it. *)
Definition anyCase (p : N → bool) (c : N) : bool :=
  p c || (isUpperAscii c && p (c + 32)%N) || (isLowerAscii c && p (c - 32)%N).

Definition lit (s : jstr) : regex := foldr (λ c r, Cat (Unit (N.eqb c)) r) Eps s.
Definition litAnyCase (s : jstr) : regex := foldr (λ c r, Cat (Unit (anyCase (N.eqb c))) r) Eps s.
Definition cats (rs : list regex) : regex := foldr Cat Eps rs.
Definition alts (r : regex) (rs : list regex) : regex := foldl Alt r rs.
Definition oneOrMore (c : N → bool) : regex := Many true 1 c.
Definition zeroOrMore (c : N → bool) : regex := Many true 0 c.
Definition times (n : nat) (c : N → bool) : regex := cats (replicate n (Unit c)).

(** ** What a match is *)

(** [derives r g before text after g']: the pattern can match [text] between
    [before] and [after], taking the groups [g] to [g']. *)
Fixpoint derives (r : regex) (g : captures) (before text after : jstr) (g' : captures) : Prop :=
  match r with
  | Eps => text = [] ∧ g' = g
  | Unit c => ∃ ch, text = [ch] ∧ c ch = true ∧ g' = g
  | Cat r1 r2 =>
      ∃ t1 t2 g1, text = t1 ++ t2 ∧ derives r1 g before t1 (t2 ++ after) g1 ∧
                  derives r2 g1 (rev t1 ++ before) t2 after g'
  | Alt r1 r2 => derives r1 g before text after g' ∨ derives r2 g before text after g'
  | Opt r => (text ≠ [] ∧ derives r g before text after g') ∨ (text = [] ∧ g' = g)
  | Many _ lo c => lo ≤ length text ∧ Forall (λ ch, c ch = true) text ∧ g' = g
  | WordBoundary => text = [] ∧ g' = g ∧ wordAt before ≠ wordAt after
  | Group i r => ∃ g1, derives r g before text after g1 ∧ g' = (i, text) :: g1
  end.

Lemma many_spec {A} greedy lo c after before (k : jstr → jstr → option A) v :
  many greedy lo c after before k = Some v →
  ∃ text after', after = text ++ after' ∧ lo ≤ length text ∧ Forall (λ ch, c ch = true) text ∧
    k (rev text ++ before) after' = Some v.
Proof.
  revert lo before. induction after as [|ch after IH]; intros lo before H.
  - exists [], []. destruct lo as [|lo]; [|done]. cbn in *.
    destruct greedy; [by split_and!|]. split_and!; [done..|]. by destruct (k before []).
  - assert (Hmore : ∀ lo', (if c ch then many greedy lo' c after (ch :: before) k else None) = Some v →
      ∃ text after', ch :: after = text ++ after' ∧ S lo' ≤ length text ∧
        Forall (λ ch, c ch = true) text ∧ k (rev text ++ before) after' = Some v).
    { intros lo' Hm. destruct (c ch) eqn:Hc; [|done].
      apply IH in Hm as (text & after' & -> & Hl & Hf & Hk). exists (ch :: text), after'.
      cbn. rewrite <- (assoc_L (++)). split_and!; [done|lia|by constructor|done]. }
    assert (Hstop : k before (ch :: after) = Some v → lo = O → ∃ text after',
      ch :: after = text ++ after' ∧ lo ≤ length text ∧
      Forall (λ ch, c ch = true) text ∧ k (rev text ++ before) after' = Some v).
    { intros Hk ->. exists [], (ch :: after). by split_and!. }
    cbn in H. destruct lo as [|lo]; cbn [pred] in H; [|by apply Hmore].
    destruct greedy.
    + destruct (if c ch then _ else None) eqn:E; simplify_eq; [|by apply Hstop].
      apply Hmore in E as (t & a & ? & ? & ? & ?). exists t, a. split_and!; [done|lia|done..].
    + destruct (k before (ch :: after)) eqn:E; simplify_eq; [by apply Hstop|].
      apply Hmore in H as (t & a & ? & ? & ? & ?). exists t, a. split_and!; [done|lia|done..].
Qed.

Lemma take_consumed (text after : jstr) :
  take (length (text ++ after) - length after) (text ++ after) = text.
Proof. rewrite length_app. replace (_ + _ - _) with (length text) by lia. apply take_app_length. Qed.

(** Whatever the matcher hands to the continuation is a derivation. *)
Lemma tryMatch_spec {A} r g before after (k : captures → jstr → jstr → option A) v :
  tryMatch r g before after k = Some v →
  ∃ text after' g', after = text ++ after' ∧ derives r g before text after' g' ∧
    k g' (rev text ++ before) after' = Some v.
Proof.
  revert g before after k v.
  induction r as [|c|r1 IH1 r2 IH2|r1 IH1 r2 IH2|r IH|greedy lo c| |i r IH];
    intros g before after k v H; cbn [tryMatch derives] in *.
  - by exists [], after, g.
  - destruct after as [|ch after]; [done|]. destruct (c ch) eqn:Hc; [|done].
    exists [ch], after, g. split_and!; [done| |done]. by exists ch.
  - apply IH1 in H as (t1 & a1 & g1 & -> & Hd1 & H). apply IH2 in H as (t2 & a2 & g2 & -> & Hd2 & H).
    exists (t1 ++ t2), a2, g2. rewrite rev_app_distr, <- !(assoc_L (++)). split_and!; [done| |done].
    by exists t1, t2, g1.
  - destruct (tryMatch r1 g before after k) eqn:E; simplify_eq.
    + apply IH1 in E as (t & a & g' & ? & ? & ?). exists t, a, g'. naive_solver.
    + apply IH2 in H as (t & a & g' & ? & ? & ?). exists t, a, g'. naive_solver.
  - destruct (tryMatch r g before after _) eqn:E; simplify_eq.
    + apply IH in E as (t & a & g' & -> & ? & Hk). exists t, a, g'.
      destruct (Nat.eqb_spec (length a) (length (t ++ a))) as [|Hl]; [done|].
      rewrite length_app in Hl. split_and!; [done| |done]. left. split; [|done]. by intros ->.
    + exists [], after, g. split_and!; [done|by right|done].
  - apply many_spec in H as (t & a & -> & ? & ? & ?). by exists t, a, g.
  - destruct (Bool.eqb _ _) eqn:E; [done|]. apply eqb_false_iff in E. by exists [], after, g.
  - apply IH in H as (t & a & g' & -> & ? & Hk). rewrite take_consumed in Hk.
    exists t, a, ((i, t) :: g'). split_and!; [done| |done]. by exists g'.
Qed.

Lemma matchAt_spec r before after g text :
  matchAt r before after = Some (g, text) →
  ∃ after', after = text ++ after' ∧ derives r [] before text after' g.
Proof.
  intros (t & a & g' & -> & Hd & [= <- <-])%tryMatch_spec. rewrite take_consumed. by exists a.
Qed.

Lemma search_spec r before after index i g text :
  search r before after index = Some (i, g, text) →
  ∃ skipped after', after = skipped ++ text ++ after' ∧ i = index + length skipped ∧
    derives r [] (rev skipped ++ before) text after' g.
Proof.
  revert before index. induction after as [|ch after IH]; intros before index; cbn [search];
    destruct (matchAt r before _) as [[g0 t0]|] eqn:E; intros H; simplify_eq.
  - apply matchAt_spec in E as (a & -> & Hd). exists [], a. split_and!; [done|cbn; lia|done].
  - apply matchAt_spec in E as (a & -> & Hd). exists [], a. split_and!; [done|cbn; lia|done].
  - apply IH in H as (s & a & -> & -> & Hd). exists (ch :: s), a. cbn. rewrite <- (assoc_L (++)).
    split_and!; [done|lia|done].
Qed.

(** A match of [exec] lies in the text, at or after [lastIndex]. *)
Lemma exec_spec r value lastIndex i g text :
  exec r value lastIndex = Some (i, g, text) →
  lastIndex ≤ i ∧ i + length text ≤ length value ∧ text = take (length text) (drop i value) ∧
  ∃ before after, derives r [] before text after g.
Proof.
  unfold exec. destruct (Nat.ltb_spec (length value) lastIndex); [done|].
  intros (s & a & Hs & -> & Hd)%search_spec.
  pose proof (take_drop lastIndex value) as Hv. rewrite Hs in Hv.
  assert (Hl : length (take lastIndex value) = lastIndex) by (rewrite length_take; lia).
  split_and!; [lia| | |by do 2 eexists].
  - rewrite <- Hv. rewrite !length_app, Hl. lia.
  - rewrite <- Hv, (assoc_L (++)).
    replace (lastIndex + length s) with (length (take lastIndex value ++ s))
      by (rewrite length_app; lia).
    by rewrite drop_app_length, take_app_length.
Qed.

(** A pattern without groups takes no capture. *)
Fixpoint groupless (r : regex) : bool :=
  match r with
  | Eps | Unit _ | Many _ _ _ | WordBoundary => true
  | Cat r1 r2 | Alt r1 r2 => groupless r1 && groupless r2
  | Opt r => groupless r
  | Group _ _ => false
  end.

Lemma groupless_captures r g before text after g' :
  groupless r = true → derives r g before text after g' → g' = g.
Proof.
  revert g before text after g'.
  induction r as [|c|r1 IH1 r2 IH2|r1 IH1 r2 IH2|r IH|greedy lo c| |i r IH];
    intros g before text after g' Hr Hd; cbn in *; bools.
  - naive_solver.
  - naive_solver.
  - destruct Hd as (t1 & t2 & g1 & -> & H1 & H2). apply IH1 in H1; [|done].
    apply IH2 in H2; [|done]. congruence.
  - destruct Hd; naive_solver.
  - destruct Hd as [[_ Hd]|[_ ->]]; naive_solver.
  - naive_solver.
  - naive_solver.
  - done.
Qed.
