(* ===== verification/Redaction.v ===== *)
(** Redaction (packages/logging/src/redact.ts): names that are secret by name, the
    secret shapes inside a string, and the deep conversion of a value.  A value is
    a [jsval], a tree: instances of [Date], [URL], [Error], [Map] and [Set], cycles
    and the [unredacted] marker are not values of it, so their branches of
    [convert] have no counterpart. *)

From S2P Require Import Prelude JsText JsValue Regex.
From stdpp Require Import pretty.

Definition redactedPlaceholder : jstr := u "[redacted]".
Definition truncatedPlaceholder : jstr := u "[truncated]".
Definition maxRedactDepth : nat := 8.

(** ** Names *)

Definition sensitiveFieldNames : list jstr := [u "key"; u "token"; u "secret"; u "password"].
Definition credentialFieldNames : list jstr := [u "authorization"; u "cookie"; u "credential"].
Definition sensitiveWords : list jstr := sensitiveFieldNames ++ credentialFieldNames.

Definition isAlphanumeric (c : N) : bool := isUpperAscii c || isLowerAscii c || isDigit c.

(** Splitting at every separator instead of at every run of them only adds empty
    words, which the filter drops. *)
Definition fieldWords (name : jstr) : list jstr :=
  toLowerCase <$>
    List.filter (λ word, negb (bool_decide (word = [])))
      (splitOn (λ c, negb (isAlphanumeric c)) (spaceCamel name)).

Definition ordinaryWordsEndingInSensitive : list jstr := [u "monkey"; u "turkey"; u "donkey"].

Definition isSensitiveFieldName (name : jstr) : bool :=
  match last (fieldWords name) with
  | None => false
  | Some last =>
      if isMember last sensitiveWords then true
      else if endsWith (u "s") last && isMember (take (length last - 1) last) sensitiveWords then true
      else if isMember last ordinaryWordsEndingInSensitive then false
      else existsb (λ sensitive, endsWith sensitive last) sensitiveWords
  end.

(** ** Secret shapes *)

Record SecretPattern := { pattern : regex; replacement : captures → jstr }.

Definition isHex36 (c : N) : bool := isUpperAscii c || isDigit c.
Definition isBase64Url (c : N) : bool := isAlphanumeric c || isUnit (u "_-") c.
Definition isBlankUnit (c : N) : bool := (c =? 32)%N || (c =? 9)%N.
Definition wholly (g : captures) : jstr := redactedPlaceholder.

(** A dash rule of a PEM block: [-----BEGIN [A-Z0-9 ]*PRIVATE KEY-----]. *)
Definition pemRule (word : jstr) : regex :=
  cats [lit (u "-----" ++ word ++ u " "); zeroOrMore (anyOf [isHex36; N.eqb 32]);
        lit (u "PRIVATE KEY-----")].

Definition schemes : regex :=
  alts (Cat (litAnyCase (u "postgres")) (Opt (litAnyCase (u "ql"))))
    [litAnyCase (u "mysql"); Cat (litAnyCase (u "mongodb")) (Opt (litAnyCase (u "+srv")));
     litAnyCase (u "redis"); litAnyCase (u "rediss"); litAnyCase (u "amqp"); litAnyCase (u "amqps");
     Cat (litAnyCase (u "http")) (Opt (Unit (anyCase (N.eqb 115))));
     Cat (litAnyCase (u "ftp")) (Opt (Unit (anyCase (N.eqb 115))))].

Definition secretPatterns : list SecretPattern :=
  [ {| pattern := cats [WordBoundary; Group 1 (Cat (litAnyCase (u "Bearer")) (oneOrMore isBlankUnit));
                        oneOrMore (anyCase (anyOf [isAlphanumeric; isUnit (u "._~+/=-")]))];
       replacement := λ g, group 1 g ++ redactedPlaceholder |};
    {| pattern := cats [WordBoundary; Group 1 (Cat (litAnyCase (u "Basic")) (oneOrMore isBlankUnit));
                        oneOrMore (anyCase (anyOf [isAlphanumeric; isUnit (u "+/=")]))];
       replacement := λ g, group 1 g ++ redactedPlaceholder |};
    {| pattern := cats [WordBoundary; lit (u "sk-"); Many true 8 isBase64Url];
       replacement := wholly |};
    {| pattern := cats [WordBoundary; lit (u "gh"); Unit (isUnit (u "pousr")); lit (u "_");
                        Many true 20 isAlphanumeric];
       replacement := wholly |};
    {| pattern := cats [WordBoundary; lit (u "github_pat_");
                        Many true 20 (anyOf [isAlphanumeric; N.eqb 95])];
       replacement := wholly |};
    {| pattern := cats [WordBoundary; Alt (lit (u "AKIA")) (lit (u "ASIA")); times 16 isHex36;
                        WordBoundary];
       replacement := wholly |};
    {| pattern := cats [WordBoundary; lit (u "xox"); Unit (isUnit (u "baprs")); lit (u "-");
                        Many true 10 (anyOf [isAlphanumeric; N.eqb 45])];
       replacement := wholly |};
    {| pattern := cats [WordBoundary; lit (u "eyJ"); Many true 5 isBase64Url; lit (u ".");
                        Many true 5 isBase64Url; lit (u "."); Many true 5 isBase64Url];
       replacement := wholly |};
    {| pattern := cats [WordBoundary; Group 1 (Cat schemes (lit (u "://")));
                        zeroOrMore (λ c, noneOf (u "/:@") c && negb (isSpace c)); lit (u ":");
                        oneOrMore (λ c, noneOf (u "/:@") c && negb (isSpace c)); lit (u "@")];
       replacement := λ g, group 1 g ++ redactedPlaceholder ++ u "@" |};
    {| pattern := cats [pemRule (u "BEGIN"); Many false 0 anyUnit; pemRule (u "END")];
       replacement := wholly |} ].

(** ** Assignments *)

Definition isNameUnit (c : N) : bool := isAlphanumeric c || isUnit (u "_.-") c.
Definition isQuote (c : N) : bool := (c =? 34)%N || (c =? 39)%N.

Definition quotedValue (quote : N) : regex :=
  cats [Unit (N.eqb quote); zeroOrMore (λ c, negb (c =? quote)%N); Unit (N.eqb quote)].

Definition separatorPattern : regex :=
  cats [zeroOrMore isSpace; Opt (Unit isQuote); zeroOrMore isSpace; Unit (isUnit (u ":="));
        zeroOrMore isSpace].

Definition schemePattern : regex :=
  Alt (Cat (lit (u "Bearer")) (oneOrMore isBlankUnit)) (Cat (lit (u "Basic")) (oneOrMore isBlankUnit)).

Definition valuePattern : regex :=
  alts (quotedValue 34)
    [quotedValue 39; oneOrMore (λ c, noneOf (u "&,;") c && negb (isSpace c))].

Definition assignmentPattern : regex :=
  cats [Group 1 (oneOrMore isNameUnit); Group 2 separatorPattern;
        Group 3 (Cat (Opt schemePattern) (Group 4 valuePattern))].

(** [value.slice(from, to)] for [from <= to]. *)
Definition slice (value : jstr) (from to : nat) : jstr := take (to - from) (drop from value).

(** The [while] loop, one iteration for each unit of fuel. *)
Fixpoint scanAssignments (fuel : nat) (value result : jstr) (copiedUpTo lastIndex : nat) : jstr :=
  match fuel with
  | O => result ++ drop copiedUpTo value
  | S fuel' =>
      match exec assignmentPattern value lastIndex with
      | None => result ++ drop copiedUpTo value
      | Some (index, g, text) =>
          let name := group 1 g in
          let separator := group 2 g in
          if isSensitiveFieldName name then
            scanAssignments fuel' value
              (result ++ slice value copiedUpTo index ++ name ++ separator ++ redactedPlaceholder)
              (index + length text) (index + length text)
          else
            scanAssignments fuel' value result copiedUpTo
              (index + length name + length separator)
      end
  end.

(** A match is never empty, so an iteration for each unit is enough. *)
Definition redactAssignments (value : jstr) : jstr :=
  scanAssignments (S (length value)) value [] 0 0.

Definition maxLoggedStringLength : Z := 4096.

Definition redactString (value : jstr) : jstr :=
  if (maxLoggedStringLength <? strlen value)%Z then truncatedPlaceholder
  else foldl (λ result p, replaceAll (pattern p) (replacement p) result)
         (redactAssignments value) secretPatterns.

(** ** Values *)

(** [record[key] = value] on an object literal: the setter of [__proto__] makes
    no property. *)
Definition assign (record : jobject) (kv : jstr * jsval) : jobject :=
  if bool_decide (kv.1 = u "__proto__") then record else setField kv.1 kv.2 record.

Fixpoint convert (depth : nat) (value : jsval) : jsval :=
  match value with
  | JNull | JUndefined => value
  | JString s => JString (redactString s)
  | JNumber _ | JBool _ => value
  | JBigInt z => JString (u (pretty z))
  | JFunction | JSymbol => JUndefined
  | JArray items =>
      if (maxRedactDepth <=? depth)%nat then JString truncatedPlaceholder
      else JArray (convert (S depth) <$> items)
  | JObject fields =>
      if (maxRedactDepth <=? depth)%nat then JString truncatedPlaceholder
      else JObject (foldl assign []
        ((λ kv, (kv.1, if isSensitiveFieldName kv.1 then JString redactedPlaceholder
                       else convert (S depth) kv.2)) <$> fields))
  end.

Definition redact (value : jsval) : jsval := convert 0 value.

Definition redactRecord (record : jobject) : jobject :=
  match redact (JObject record) with JObject result => result | _ => [] end.

(** ** The scanner *)

(** The loop without fuel: its runs from a state to the string returned. *)
Inductive scans (value : jstr) : jstr → nat → nat → jstr → Prop :=
| scans_end result copied lastIndex :
    exec assignmentPattern value lastIndex = None →
    scans value result copied lastIndex (result ++ drop copied value)
| scans_redact result copied lastIndex index g text out :
    exec assignmentPattern value lastIndex = Some (index, g, text) →
    isSensitiveFieldName (group 1 g) = true →
    scans value (result ++ slice value copied index ++ group 1 g ++ group 2 g ++ redactedPlaceholder)
      (index + length text) (index + length text) out →
    scans value result copied lastIndex out
| scans_keep result copied lastIndex index g text out :
    exec assignmentPattern value lastIndex = Some (index, g, text) →
    isSensitiveFieldName (group 1 g) = false →
    scans value result copied (index + length (group 1 g) + length (group 2 g)) out →
    scans value result copied lastIndex out.

(** An assignment is its name, its separator and its value, the name not empty. *)
Lemma assignment_shape before text after g :
  derives assignmentPattern [] before text after g →
  ∃ rest, text = group 1 g ++ group 2 g ++ rest ∧ group 1 g ≠ [].
Proof.
  unfold assignmentPattern, cats. cbn [foldr derives].
  intros (name & t & g1 & -> & (g0 & Hname & ->) & sep & t2 & g2 & -> & (g3 & Hsep & ->) &
          t3 & t4 & g4 & -> & (g5 & (pre & v & g6 & -> & Hpre & (g7 & Hv & ->)) & ->) & -> & ->).
  destruct Hname as (Hl & _ & ->). apply groupless_captures in Hsep as ->; [|done].
  assert (g6 = (2, sep) :: (1, name) :: []) as ->.
  { destruct Hpre as [[_ Hpre]|[_ ->]]; [|done]. by apply groupless_captures in Hpre. }
  apply groupless_captures in Hv as ->; [|done].
  exists (pre ++ v). change (name ++ sep ++ (pre ++ v) ++ [] = name ++ sep ++ pre ++ v ∧ name ≠ []).
  rewrite app_nil_r. split; [done|]. intros ->. cbn in Hl. lia.
Qed.

Lemma scan_progress value lastIndex index g text :
  exec assignmentPattern value lastIndex = Some (index, g, text) →
  lastIndex < index + length (group 1 g) + length (group 2 g) ≤ length value ∧
  lastIndex < index + length text ≤ length value.
Proof.
  intros H. apply exec_spec in H as (Hi & Hle & _ & b & a & Hd).
  apply assignment_shape in Hd as (rest & -> & Hne). rewrite !length_app in *.
  assert (0 < length (group 1 g)) by (destruct (group 1 g); [done|cbn; lia]). lia.
Qed.

Lemma scanAssignments_scans fuel value result copied lastIndex :
  lastIndex ≤ length value → length value - lastIndex < fuel →
  scans value result copied lastIndex (scanAssignments fuel value result copied lastIndex).
Proof.
  revert result copied lastIndex. induction fuel as [|fuel IH]; intros result copied lastIndex Hl Hf; [lia|].
  cbn [scanAssignments]. destruct (exec assignmentPattern value lastIndex) as [[[index g] text]|] eqn:E;
    [|by apply scans_end].
  pose proof (scan_progress _ _ _ _ _ E).
  destruct (isSensitiveFieldName (group 1 g)) eqn:Hs.
  - eapply scans_redact; [done..|]. apply IH; lia.
  - eapply scans_keep; [done..|]. apply IH; lia.
Qed.

Lemma scans_fun value result copied lastIndex out out' :
  scans value result copied lastIndex out → scans value result copied lastIndex out' → out = out'.
Proof.
  intros H. revert out'. induction H; intros out' H'; inversion H'; subst; try done;
    repeat match goal with
    | H1 : exec _ _ _ = _, H2 : exec _ _ _ = _ |- _ => rewrite H1 in H2; clear H1; simplify_eq
    end; eauto; congruence.
Qed.

(** The scanner's loop ends on every string, and the fuel is enough for it: the
    string returned is the one every run of the unbounded loop returns. *)
Theorem redactAssignments_terminates value out :
  scans value [] 0 0 out ↔ redactAssignments value = out.
Proof.
  assert (H : scans value [] 0 0 (redactAssignments value))
    by (apply scanAssignments_scans; lia).
  split; [|by intros <-]. intros Ho. by eapply scans_fun.
Qed.

(** ** Names that end in a secret *)

Lemma spaceCamel_suffix p w :
  spaceCamel w = w → ∃ q, spaceCamel (p ++ w) = q ++ w.
Proof.
  intros Hw. induction p as [|a p [q IH]]; [by exists []|].
  cbn [app]. destruct (p ++ w) as [|b rest] eqn:E.
  - apply app_eq_nil in E as [-> ->]. exists [a]. done.
  - change (spaceCamel (a :: b :: rest)) with
      (if isWordChar a && isUpperAscii b then a :: 32%N :: spaceCamel (b :: rest)
       else a :: spaceCamel (b :: rest)). rewrite IH.
    destruct (_ && _); [by exists (a :: 32%N :: q)|by exists (a :: q)].
Qed.

Lemma splitOn_last sep q w :
  Forall (λ c, sep c = false) w → ∃ x ws, splitOn sep (q ++ w) = ws ++ [x ++ w].
Proof.
  intros Hw. induction q as [|c q (x & ws & IH)]; cbn [app splitOn].
  - exists [], []. cbn. induction Hw as [|c w Hc _ IH]; [done|]. cbn. by rewrite Hc, IH.
  - rewrite IH. destruct (sep c); [by exists x, ([] :: ws)|].
    destruct ws as [|v ws]; [by exists (c :: x), []|by exists x, ((c :: v) :: ws)].
Qed.

(** A name whose end is a word of letters and digits has a last word that ends in
    it. *)
Lemma fieldWords_last p w :
  w ≠ [] → spaceCamel w = w → Forall (λ c, isAlphanumeric c = true) w →
  ∃ x, last (fieldWords (p ++ w)) = Some (toLowerCase x ++ toLowerCase w).
Proof.
  intros Hne Hc Hw. destruct (spaceCamel_suffix p w Hc) as [q Hq].
  destruct (splitOn_last (λ c, negb (isAlphanumeric c)) q w) as (x & ws & Hs).
  { eapply Forall_impl; [exact Hw|]. intros c. cbn. by intros ->. }
  exists x. unfold fieldWords. rewrite Hq, Hs, List.filter_app. cbn [List.filter].
  rewrite bool_decide_false by (intros [_ ->]%app_eq_nil; done).
  cbn [negb]. by rewrite fmap_app, fmap_cons, fmap_nil, last_snoc, toLowerCase_app.
Qed.

Lemma endsWith_app s t : endsWith t (s ++ t) = true.
Proof. unfold endsWith. rewrite rev_app_distr. induction (rev t) as [|a r IH]; [done|]. cbn. by rewrite N.eqb_refl. Qed.

Lemma ordinary_not_sensitive l :
  l ∈ ordinaryWordsEndingInSensitive →
  isMember l sensitiveWords = false ∧ endsWith (u "s") l = false.
Proof.
  unfold ordinaryWordsEndingInSensitive. rewrite !elem_of_cons, elem_of_nil.
  intros [-> | [-> | [-> | []]]]; split; vm_compute; reflexivity.
Qed.

(** Names fail closed: whatever stands before it, in front of a camel-case
    capital, a separator or nothing at all, a name that ends in a secret word, all
    small, capitalised or all capitals, is sensitive, unless its last word is one
    of the three listed ordinary words. *)
Theorem sensitive_suffix_fails_closed p w :
  spaceCamel w = w → Forall (λ c, isAlphanumeric c = true) w →
  isMember (toLowerCase w) sensitiveWords = true →
  ∃ x, last (fieldWords (p ++ w)) = Some (x ++ toLowerCase w) ∧
       isSensitiveFieldName (p ++ w) =
         negb (isMember (x ++ toLowerCase w) ordinaryWordsEndingInSensitive).
Proof.
  intros Hc Hw Hs%bool_decide_eq_true. assert (Hne : w ≠ []) by (intros ->; revert Hs; vm_compute; set_solver).
  destruct (fieldWords_last p w Hne Hc Hw) as [x Hx]. exists (toLowerCase x). split; [done|].
  unfold isSensitiveFieldName. rewrite Hx. set (l := toLowerCase x ++ toLowerCase w).
  assert (Hend : existsb (λ s, endsWith s l) sensitiveWords = true).
  { apply existsb_true. exists (toLowerCase w). split; [done|apply endsWith_app]. }
  rewrite Hend. destruct (isMember l ordinaryWordsEndingInSensitive) eqn:Ho.
  - destruct (ordinary_not_sensitive l) as [-> ->]; [|done]. by apply bool_decide_eq_true in Ho.
  - by destruct (isMember l sensitiveWords), (endsWith (u "s") l && isMember (take (length l - 1) l) sensitiveWords).
Qed.

(** ** Secrets leave no trace *)

Definition isContainer (v : jsval) : bool :=
  match v with JArray _ | JObject _ => true | _ => false end.

(** Two values that differ only where redaction hides: under a sensitive name,
    below the depth limit, in strings too long to scan. *)
Inductive indistinguishable : nat → jsval → jsval → Prop :=
| indist_same depth v : indistinguishable depth v v
| indist_long depth s t :
    (maxLoggedStringLength < strlen s)%Z → (maxLoggedStringLength < strlen t)%Z →
    indistinguishable depth (JString s) (JString t)
| indist_deep depth v w :
    maxRedactDepth ≤ depth → isContainer v = true → isContainer w = true →
    indistinguishable depth v w
| indist_array depth xs ys :
    Forall2 (indistinguishable (S depth)) xs ys →
    indistinguishable depth (JArray xs) (JArray ys)
| indist_object depth (fs gs : jobject) :
    Forall2 (λ kv kw, kv.1 = kw.1 ∧
      (isSensitiveFieldName kv.1 = true ∨ indistinguishable (S depth) kv.2 kw.2)) fs gs →
    indistinguishable depth (JObject fs) (JObject gs).

Lemma convert_deep depth v :
  maxRedactDepth ≤ depth → isContainer v = true → convert depth v = JString truncatedPlaceholder.
Proof. intros H%Nat.leb_le Hv. by destruct v; cbn [convert]; rewrite ?H. Qed.

Lemma redactString_long s :
  (maxLoggedStringLength < strlen s)%Z → redactString s = truncatedPlaceholder.
Proof. intros H%Z.ltb_lt. unfold redactString. by rewrite H. Qed.

Lemma convert_indistinguishable depth v w :
  indistinguishable depth v w → convert depth v = convert depth w.
Proof.
  revert depth w. induction v as [items IH|fields IH|v Hi Hf] using jsval_nested_ind; intros depth w H;
    inversion H; subst; clear H; try done; try (rewrite !convert_deep by done; done).
  - cbn [convert]. destruct (maxRedactDepth <=? depth)%nat; [done|]. f_equal.
    match goal with Hl : Forall2 _ _ _ |- _ => revert IH; induction Hl as [|x y xs ys Hx _ IHl] end;
      [done|].
    intros [Hhd Htl]%Forall_cons. rewrite !fmap_cons, IHl by done. f_equal. by apply Hhd.
  - cbn [convert]. destruct (maxRedactDepth <=? depth)%nat; [done|]. do 2 f_equal.
    match goal with Hl : Forall2 _ _ _ |- _ =>
      revert IH; induction Hl as [|[k x] [k' y] xs ys [Hk Hx] _ IHl] end; [done|].
    intros [Hhd Htl]%Forall_cons. cbn in Hk, Hx, Hhd. subst k'.
    rewrite !fmap_cons, IHl by done. f_equal. cbn.
    destruct Hx as [->|Hx]; [done|]. by rewrite (Hhd _ _ Hx).
  - cbn [convert]. by rewrite !redactString_long by done.
  - by destruct (Hi xs).
  - by destruct (Hf fs).
Qed.

(** Two values that differ only under sensitive names, below the depth limit or in
    strings too long to scan become the same value. *)
Theorem redact_hides_secrets v w : indistinguishable 0 v w → redact v = redact w.
Proof. apply convert_indistinguishable. Qed.

(** ** What redaction returns *)

(** Nothing [JSON.stringify] throws on, and no key twice. *)
Fixpoint clean (v : jsval) : bool :=
  match v with
  | JBigInt _ => false
  | JArray items => forallb clean items
  | JObject fields => bool_decide (NoDup fields.*1) && forallb (λ kv, clean kv.2) fields
  | _ => true
  end.

Definition cleanFields (fields : jobject) : Prop :=
  NoDup fields.*1 ∧ Forall (λ kv, clean kv.2 = true) fields.

Lemma assign_clean record kv :
  cleanFields record → clean kv.2 = true → cleanFields (assign record kv).
Proof.
  intros [Hn Hf] Hv. unfold assign. case_bool_decide; [done|].
  split; [by apply NoDup_upsert|by apply Forall_upsert].
Qed.

Lemma foldl_assign_clean entries record :
  cleanFields record → Forall (λ kv, clean kv.2 = true) entries →
  cleanFields (foldl assign record entries).
Proof.
  intros Hr He. revert record Hr. induction He as [|kv entries Hv _ IH]; intros record Hr; [done|].
  apply IH. by apply assign_clean.
Qed.

Lemma convert_clean depth v : clean (convert depth v) = true.
Proof.
  revert depth. induction v as [items IH|fields IH|v Hi Hf] using jsval_nested_ind; intros depth.
  - cbn [convert]. destruct (_ <=? _)%nat; [done|]. cbn [clean]. apply forallb_forall.
    intros x Hx%list_elem_of_In. apply list_elem_of_fmap in Hx as (y & -> & Hy).
    rewrite Forall_forall in IH. by apply IH.
  - cbn [convert]. destruct (_ <=? _)%nat; [done|]. cbn [clean].
    destruct (foldl_assign_clean ((λ kv, (kv.1, if isSensitiveFieldName kv.1
      then JString redactedPlaceholder else convert (S depth) kv.2)) <$> fields) []) as [Hn Hc].
    { split; [constructor|constructor]. }
    { apply Forall_fmap. eapply Forall_impl; [exact IH|]. intros kv Hkv. cbn.
      destruct (isSensitiveFieldName kv.1); [done|apply Hkv]. }
    rewrite bool_decide_true by done. cbn [andb]. apply forallb_forall. intros kv Hkv%list_elem_of_In.
    rewrite Forall_forall in Hc. by apply Hc.
  - destruct v; try done; [by destruct (Hi items)|by destruct (Hf fields)].
Qed.

(** Two requests that differ in a nested api key only. *)
Definition sampleSecret (key : jstr) : jsval :=
  JObject [(u "url", JString (u "https://x"));
           (u "headers", JObject [(u "X-Api-Key", JString key)])].

Lemma sampleSecret_indistinguishable k k' : indistinguishable 0 (sampleSecret k) (sampleSecret k').
Proof.
  apply indist_object. constructor; [split; [done|right; apply indist_same]|].
  constructor; [|constructor]. split; [done|right]. apply indist_object.
  constructor; [|constructor]. split; [done|left; vm_compute; reflexivity].
Qed.

Example redact_sample : redact (sampleSecret (u "abc")) = sampleSecret redactedPlaceholder.
Proof. vm_compute. reflexivity. Qed.

Example redact_shapes :
  redactString (u "dbPassword=hunter2 monkey=banana refresh: token=abc postgres://user:pw@host/db")
  = u "dbPassword=[redacted] monkey=banana refresh: token=[redacted] postgres://[redacted]@host/db".
Proof. vm_compute. reflexivity. Qed.

Lemma sensitive_suffix_fails_closed_witness :
  isSensitiveFieldName (u "dbKey") = true ∧ isSensitiveFieldName (u "X-API-KEY") = true.
Proof.
  destruct (sensitive_suffix_fails_closed (u "db") (u "Key")) as (x & Hx & H).
  - vm_compute; reflexivity.
  - unfold u; repeat constructor.
  - vm_compute; reflexivity.
  - destruct (sensitive_suffix_fails_closed (u "X-API-") (u "KEY")) as (y & Hy & H').
    + vm_compute; reflexivity.
    + unfold u; repeat constructor.
    + vm_compute; reflexivity.
    + split; vm_compute; reflexivity.
Defined.
