(* ===== verification/Calendar.v ===== *)
(** The proleptic Gregorian calendar of [Date]: a day number (days since
    1970-01-01) to year, month and day and back, and the weekday.  [Date.UTC] and
    the [getUTC] accessors are the two directions, and every day makes the round
    trip. *)

From S2P Require Import Prelude JsText.
From stdpp Require Import pretty.
#[local] Open Scope Z_scope.

Definition MINUTE_MS : Z := 60000.
Definition HOUR_MS : Z := 3600000.
Definition DAY_MS : Z := 86400000.

(** Days in an era of 400 years. *)
Definition ERA_DAYS : Z := 146097.

(** Year of era and day of year (from March 1st) of a day of era. *)
Definition yearOfEra (doe : Z) : Z := (doe - doe / 1460 + doe / 36524 - doe / 146096) / 365.

Definition dayOfYear (doe : Z) : Z :=
  let yoe := yearOfEra doe in doe - (365 * yoe + yoe / 4 - yoe / 100).

(** [getUTCFullYear], [getUTCMonth() + 1] and [getUTCDate] of a day number. *)
Definition civilOfDay (n : Z) : Z * Z * Z :=
  let z := n + 719468 in
  let era := z / ERA_DAYS in
  let doe := z mod ERA_DAYS in
  let doy := dayOfYear doe in
  let mp := (5 * doy + 2) / 153 in
  let d := doy - (153 * mp + 2) / 5 + 1 in
  let m := if (mp <? 10)%Z then mp + 3 else mp - 9 in
  (yearOfEra doe + era * 400 + (if (m <=? 2)%Z then 1 else 0), m, d).

(** The day number of a civil date. *)
Definition dayOfCivil (y m d : Z) : Z :=
  let y' := if (m <=? 2)%Z then y - 1 else y in
  let era := y' / 400 in
  let yoe := y' mod 400 in
  let mp := if (2 <? m)%Z then m - 3 else m + 9 in
  let doy := (153 * mp + 2) / 5 + d - 1 in
  let doe := yoe * 365 + yoe / 4 - yoe / 100 + doy in
  era * ERA_DAYS + doe - 719468.

(** [Date.UTC(year, month - 1, day, hour, minute)], in milliseconds. *)
Definition dateUTC (y m d hour minute : Z) : Z :=
  dayOfCivil y m d * DAY_MS + hour * HOUR_MS + minute * MINUTE_MS.

(** [new Date(day * DAY_MS).getUTCDay()]: Sunday is 0, and day 0 was a Thursday. *)
Definition weekdayOfDay (n : Z) : Z := (n + 4) mod 7.

(** [new Date(ms).toISOString()], for an instant in the range of [Date]. *)
Definition padStart (width : nat) (s : jstr) : jstr := replicate (width - length s)%nat 48%N ++ s.

Definition isoYear (y : Z) : jstr :=
  if (0 <=? y) && (y <=? 9999) then padStart 4 (u (pretty y))
  else (if y <? 0 then u "-" else u "+") ++ padStart 6 (u (pretty (Z.abs y))).

Definition toISOString (ms : Z) : jstr :=
  let '(y, m, d) := civilOfDay (ms / DAY_MS) in
  let t := ms mod DAY_MS in
  let two n := padStart 2 (u (pretty n)) in
  isoYear y ++ u "-" ++ two m ++ u "-" ++ two d ++ u "T" ++ two (t / HOUR_MS) ++ u ":" ++
  two (t mod HOUR_MS / MINUTE_MS) ++ u ":" ++ two (t mod MINUTE_MS / 1000) ++ u "." ++
  padStart 3 (u (pretty (t mod 1000))) ++ u "Z".

Example toISOString_sample : toISOString 1789732800000 = u "2026-09-18T12:00:00.000Z".
Proof. vm_compute. reflexivity. Qed.

Example toISOString_negative : toISOString (-62198755200001) = u "-000002-12-31T23:59:59.999Z".
Proof. vm_compute. reflexivity. Qed.

(** ** The round trip *)

(** [lia] with division and remainder by constants. *)
Ltac div_lia := Z.to_euclidean_division_equations; lia.

Lemma yearOfEra_bounds doe : 0 ≤ doe < ERA_DAYS → 0 ≤ yearOfEra doe < 400.
Proof. unfold ERA_DAYS, yearOfEra. intros H. div_lia. Qed.

Lemma dayOfYear_bounds doe : 0 ≤ doe < ERA_DAYS → 0 ≤ dayOfYear doe ≤ 365.
Proof. unfold ERA_DAYS, dayOfYear, yearOfEra. intros H. div_lia. Qed.

Lemma monthPart_bounds doy :
  0 ≤ doy ≤ 365 →
  0 ≤ (5 * doy + 2) / 153 < 12 ∧
  1 ≤ doy - (153 * ((5 * doy + 2) / 153) + 2) / 5 + 1 ≤ 31.
Proof. intros H. div_lia. Qed.

Lemma civilOfDay_roundtrip n :
  let '(y, m, d) := civilOfDay n in
  dayOfCivil y m d = n ∧ (1 ≤ m ≤ 12)%Z ∧ (1 ≤ d ≤ 31)%Z.
Proof.
  unfold civilOfDay. set (z := (n + 719468)%Z). set (doe := (z mod ERA_DAYS)%Z).
  set (era := (z / ERA_DAYS)%Z).
  assert (0 ≤ doe < ERA_DAYS)%Z as Hdoe by (apply Z.mod_pos_bound; done).
  pose proof (yearOfEra_bounds doe Hdoe) as Hyoe.
  destruct (monthPart_bounds _ (dayOfYear_bounds doe Hdoe)) as [Hmpb Hd].
  assert (dayOfYear doe = doe - (365 * yearOfEra doe + yearOfEra doe / 4 - yearOfEra doe / 100))
    as Hdoy by done.
  set (yoe := yearOfEra doe) in *. set (doy := dayOfYear doe) in *.
  set (mp := ((5 * doy + 2) / 153)%Z) in *. set (q := ((153 * mp + 2) / 5)%Z) in *.
  assert (z = era * ERA_DAYS + doe)%Z as Hz.
  { unfold era, doe. pose proof (Z.div_mod z ERA_DAYS ltac:(done)). lia. }
  set (m := if (mp <? 10)%Z then (mp + 3)%Z else (mp - 9)%Z).
  assert ((1 ≤ m ≤ 12)%Z ∧ (m <=? 2)%Z = negb (mp <? 10)%Z ∧
          (if (2 <? m)%Z then (m - 3)%Z else (m + 9)%Z) = mp) as (Hm & Hm2 & Hmp).
  { unfold m. destruct (Z.ltb_spec mp 10).
    - split_and!; [lia|lia|apply Z.leb_gt; lia|]. rewrite (proj2 (Z.ltb_lt _ _)) by lia. lia.
    - split_and!; [lia|lia|apply Z.leb_le; lia|]. rewrite (proj2 (Z.ltb_ge _ _)) by lia. lia. }
  split_and!; try lia.
  unfold dayOfCivil. rewrite Hmp. fold q.
  replace (if (m <=? 2)%Z
           then (yoe + era * 400 + (if (m <=? 2)%Z then 1 else 0) - 1)%Z
           else (yoe + era * 400 + (if (m <=? 2)%Z then 1 else 0))%Z)
    with (yoe + era * 400)%Z by (destruct (m <=? 2)%Z; lia).
  rewrite Z.div_add, Z.mod_add, Z.div_small, Z.mod_small by lia. lia.
Qed.

Lemma dateUTC_civil n h mi :
  let '(y, m, d) := civilOfDay n in
  dateUTC y m d h mi = (n * DAY_MS + h * HOUR_MS + mi * MINUTE_MS)%Z.
Proof.
  pose proof (civilOfDay_roundtrip n) as H. destruct (civilOfDay n) as [[y m] d].
  unfold dateUTC. destruct H as [-> _]. done.
Qed.
