(* ===== verification/RunState.v ===== *)
(** The run state machine of packages/core/src/run-state.ts. *)

From S2P Require Import Prelude JsText JsValue.

Inductive RunStatus :=
| queued
| running
| waiting_approval
| completed
| failed
| cancelled.

#[export] Instance RunStatus_eq_dec : EqDecision RunStatus.
Proof. solve_decision. Defined.

Definition RUN_STATUSES : list RunStatus :=
  [queued; running; waiting_approval; completed; failed; cancelled].

Definition runStatusName (s : RunStatus) : jstr :=
  match s with
  | queued => u "queued"
  | running => u "running"
  | waiting_approval => u "waiting_approval"
  | completed => u "completed"
  | failed => u "failed"
  | cancelled => u "cancelled"
  end.

Definition INITIAL_RUN_STATUS : RunStatus := queued.

Definition RUN_TRANSITIONS (s : RunStatus) : list RunStatus :=
  match s with
  | queued => [running; failed; cancelled]
  | running => [waiting_approval; completed; failed; cancelled]
  | waiting_approval => [running; failed; cancelled]
  | completed => []
  | failed => []
  | cancelled => []
  end.

Record IllegalTransition := { from : RunStatus; to : RunStatus }.

Definition canTransition (from to : RunStatus) : bool :=
  bool_decide (to ∈ RUN_TRANSITIONS from).

Definition transition (from to : RunStatus) : result IllegalTransition RunStatus :=
  if negb (canTransition from to) then Err {| from := from; to := to |}
  else Ok to.

(** [assertTransition] throws the error [transition] returns. *)
Definition assertTransition (from to : RunStatus) : result IllegalTransition RunStatus :=
  match transition from to with
  | Err e => Err e
  | Ok status => Ok status
  end.

Definition isTerminalStatus (s : RunStatus) : bool :=
  (length (RUN_TRANSITIONS s) =? 0)%nat.

Definition isActiveStatus (s : RunStatus) : bool := negb (isTerminalStatus s).

Definition isRunStatus (v : jsval) : bool := isOneOf (runStatusName <$> RUN_STATUSES) v.

Definition ACTIVE_RUN_STATUSES : list RunStatus :=
  List.filter isActiveStatus RUN_STATUSES.

(** ** The machine as a relation *)

Definition run_step (s t : RunStatus) : Prop := transition s t = Ok t.

(** ** Lemmas *)

Lemma transition_ok s t t' : transition s t = Ok t' ↔ t' = t ∧ t ∈ RUN_TRANSITIONS s.
Proof.
  unfold transition, canTransition. case_bool_decide; simpl; naive_solver.
Qed.

Lemma transition_err s t e :
  transition s t = Err e ↔ e = {| from := s; to := t |} ∧ t ∉ RUN_TRANSITIONS s.
Proof.
  unfold transition, canTransition. case_bool_decide; simpl; naive_solver.
Qed.

Lemma run_step_iff s t : run_step s t ↔ t ∈ RUN_TRANSITIONS s.
Proof. unfold run_step. rewrite transition_ok. naive_solver. Qed.

Lemma terminal_no_step s t : isTerminalStatus s = true → ¬ run_step s t.
Proof. intros Hs H%run_step_iff. destruct s; try done; by apply elem_of_nil in H. Qed.

Lemma terminal_rtc s t : isTerminalStatus s = true → rtc run_step s t → t = s.
Proof. intros Hs H. inversion H; subst; [done|]. by edestruct terminal_no_step. Qed.

Lemma run_step_elem s t : t ∈ RUN_TRANSITIONS s → run_step s t.
Proof. apply run_step_iff. Qed.

Lemma elem_RUN_STATUSES s : s ∈ RUN_STATUSES.
Proof. destruct s; compute_done. Qed.

(** ** Properties *)

(** Run-state contract: from any status, [transition] either moves to exactly
    the requested status, and then it is one the table lists, or returns the
    error naming both ends; the terminal statuses are absorbing along every
    sequence of legal transitions; and a terminal status is reachable in one
    step from every active one. *)
Theorem run_state_machine s t :
  (transition s t = Ok t ↔ t ∈ RUN_TRANSITIONS s) ∧
  (transition s t = Err {| from := s; to := t |} ↔ t ∉ RUN_TRANSITIONS s) ∧
  (isTerminalStatus s = true → rtc run_step s t → t = s) ∧
  (isActiveStatus s = true ↔ s ∈ ACTIVE_RUN_STATUSES) ∧
  (isActiveStatus s = true → run_step s failed ∧ run_step s cancelled).
Proof.
  split_and!.
  - rewrite transition_ok. naive_solver.
  - rewrite transition_err. naive_solver.
  - apply terminal_rtc.
  - unfold ACTIVE_RUN_STATUSES. rewrite list_elem_of_In, List.filter_In, <- list_elem_of_In.
    pose proof (elem_RUN_STATUSES s). tauto.
  - destruct s; try done; intros _; split; apply run_step_elem; compute_done.
Qed.

(** Every legal history of a run starts at [queued]; each status is reachable. *)
Theorem run_status_reachable s : rtc run_step INITIAL_RUN_STATUS s.
Proof.
  assert (run_step queued running) as Hq by (apply run_step_elem; compute_done).
  destruct s.
  - apply rtc_refl.
  - by apply rtc_once.
  - eapply rtc_l; [exact Hq|]. apply rtc_once, run_step_elem. compute_done.
  - eapply rtc_l; [exact Hq|]. apply rtc_once, run_step_elem. compute_done.
  - apply rtc_once, run_step_elem. compute_done.
  - apply rtc_once, run_step_elem. compute_done.
Qed.
