(* ===== verification/Approvals.v ===== *)
(** The approval vocabulary of packages/core/src/approvals.ts. *)

From S2P Require Import Prelude JsText JsValue.

(** [APPROVAL_DECISIONS]: the resolved half of the status vocabulary. *)
Inductive ApprovalDecision := approved | denied | timed_out.

(** [APPROVAL_STATUSES]. *)
Inductive ApprovalStatus := pending | resolved (d : ApprovalDecision).

Inductive ApprovalVote := approve | deny.

#[export] Instance ApprovalDecision_eq_dec : EqDecision ApprovalDecision.
Proof. solve_decision. Defined.
#[export] Instance ApprovalStatus_eq_dec : EqDecision ApprovalStatus.
Proof. solve_decision. Defined.

Definition APPROVAL_DECISIONS : list ApprovalDecision := [approved; denied; timed_out].

Definition APPROVAL_STATUSES : list ApprovalStatus :=
  [pending; resolved approved; resolved denied; resolved timed_out].

Definition APPROVAL_VOTES : list ApprovalVote := [approve; deny].

Definition approvalDecisionName (d : ApprovalDecision) : jstr :=
  match d with
  | approved => u "approved"
  | denied => u "denied"
  | timed_out => u "timed_out"
  end.

Definition approvalStatusName (s : ApprovalStatus) : jstr :=
  match s with
  | pending => u "pending"
  | resolved d => approvalDecisionName d
  end.

Definition isApprovalStatus (v : jsval) : bool :=
  isOneOf (approvalStatusName <$> APPROVAL_STATUSES) v.

Definition isApprovalDecision (v : jsval) : bool :=
  isOneOf (approvalDecisionName <$> APPROVAL_DECISIONS) v.

(** The decision [isApprovalDecision] narrows its argument to. *)
Definition asApprovalDecision (v : jsval) : option ApprovalDecision :=
  match v with
  | JString s => List.find (λ d, bool_decide (approvalDecisionName d = s)) APPROVAL_DECISIONS
  | _ => None
  end.

Definition isPendingApproval (s : ApprovalStatus) : bool := bool_decide (s = pending).

Definition DEFAULT_APPROVAL_TIMEOUT_MS : Z := 10 * 60000.
Definition APPROVAL_POLL_INTERVAL_MS : Z := 1000.

Lemma asApprovalDecision_name d : asApprovalDecision (JString (approvalDecisionName d)) = Some d.
Proof. by destruct d. Qed.

Lemma asApprovalDecision_some v d :
  asApprovalDecision v = Some d → v = JString (approvalDecisionName d).
Proof.
  destruct v; simpl; try done. repeat case_bool_decide; naive_solver.
Qed.

Lemma asApprovalDecision_is v : is_Some (asApprovalDecision v) ↔ isApprovalDecision v = true.
Proof.
  split.
  - intros [d ->%asApprovalDecision_some]. by destruct d.
  - destruct v; try done. unfold isApprovalDecision, isOneOf. rewrite isMember_true.
    intros (d & -> & _)%list_elem_of_fmap. rewrite asApprovalDecision_name. eauto.
Qed.
