(* ===== verification/RunEvents.v ===== *)
(** The wire vocabulary of a run, packages/core/src/run-events.ts: the event
    types, the typed parse errors, [parseRunEvent] and [storedRunEvent]. *)

From S2P Require Import Prelude JsText JsValue Approvals.

Definition RUN_EVENT_SCHEMA_VERSION : Z := 1.

Inductive RunEventType :=
| run_started
| token_delta
| tool_requested
| approval_requested
| approval_resolved
| tool_completed
| tool_failed
| run_completed
| run_failed
| run_cancelled
| run_steered.

#[export] Instance RunEventType_eq_dec : EqDecision RunEventType.
Proof. solve_decision. Defined.

Definition RUN_EVENT_TYPES : list RunEventType :=
  [run_started; token_delta; tool_requested; approval_requested; approval_resolved;
   tool_completed; tool_failed; run_completed; run_failed; run_cancelled; run_steered].

Definition eventTypeName (t : RunEventType) : jstr :=
  match t with
  | run_started => u "run.started"
  | token_delta => u "token.delta"
  | tool_requested => u "tool.requested"
  | approval_requested => u "approval.requested"
  | approval_resolved => u "approval.resolved"
  | tool_completed => u "tool.completed"
  | tool_failed => u "tool.failed"
  | run_completed => u "run.completed"
  | run_failed => u "run.failed"
  | run_cancelled => u "run.cancelled"
  | run_steered => u "run.steered"
  end.

Record RunEventBase := { seq : Z; threadId : jstr; runId : jstr }.

(** [kind] is always ["tool_call"]. *)
Record ToolResultArtifact := { artifactCallId : jstr; artifactBytes : Z }.

(** The discriminated part of a [RunEvent]; an optional field is an option. *)
Inductive RunEventBody :=
| RunStarted
| TokenDelta (messageId delta : jstr)
| ToolRequested (callId tool : jstr) (arguments : jsval)
| ApprovalRequested (callId expiresAt : jstr)
| ApprovalResolved (callId : jstr) (decision : ApprovalDecision) (reason : option jstr)
| ToolCompleted (callId : jstr) (res : jsval)
    (resultArtifact : option ToolResultArtifact) (durationMs : option Z)
| ToolFailed (callId error : jstr) (durationMs : option Z)
| RunCompleted (messageId : option jstr)
| RunFailed (error : jstr) (code : option jstr)
| RunCancelled (reason : option jstr)
| RunSteered (messageId text : jstr).

Record RunEvent := { base : RunEventBase; body : RunEventBody }.

Definition eventType (e : RunEventBody) : RunEventType :=
  match e with
  | RunStarted => run_started
  | TokenDelta _ _ => token_delta
  | ToolRequested _ _ _ => tool_requested
  | ApprovalRequested _ _ => approval_requested
  | ApprovalResolved _ _ _ => approval_resolved
  | ToolCompleted _ _ _ _ => tool_completed
  | ToolFailed _ _ _ => tool_failed
  | RunCompleted _ => run_completed
  | RunFailed _ _ => run_failed
  | RunCancelled _ => run_cancelled
  | RunSteered _ _ => run_steered
  end.

(** The type a value names, when [isRunEventType] holds of it. *)
Definition asRunEventType (v : jsval) : option RunEventType :=
  match v with
  | JString s => List.find (λ t, bool_decide (eventTypeName t = s)) RUN_EVENT_TYPES
  | _ => None
  end.

Definition isRunEventType (v : jsval) : bool :=
  isOneOf (eventTypeName <$> RUN_EVENT_TYPES) v.

(** ** Errors *)

(** The typed fields of the error classes; the human sentence of each class is
    a function of them. *)
Inductive RunEventError :=
| UnknownSchemaVersion (received : jsval)
| UnknownEventType (received : jsval)
| MalformedRunEvent (reason : jstr) (received : jsval).

Abbreviation Field := (result RunEventError).

Definition malformed {A} (reason : jstr) (received : jsval) : Field A :=
  Err (MalformedRunEvent reason received).

(** ** Field readers *)

Definition requireString (record : jobject) (field : jstr) (allowEmpty : bool) : Field jstr :=
  let value := getField field record in
  let expected := if allowEmpty then u "a string" else u "a non-empty string" in
  match value with
  | JString s =>
      if allowEmpty || (0 <? strlen s)%Z then Ok s
      else malformed (field ++ u " must be " ++ expected) value
  | _ => malformed (field ++ u " must be " ++ expected) value
  end.

Definition optionalString (record : jobject) (field : jstr) : Field (option jstr) :=
  match getField field record with
  | JUndefined => Ok None
  | _ => Some <$> requireString record field false
  end.

Definition requireNonNegativeInteger (record : jobject) (field : jstr) : Field Z :=
  let value := getField field record in
  match asNumber value ≫= safeInteger with
  | Some z =>
      if (z <? 0)%Z then malformed (field ++ u " must be a non-negative integer") value
      else Ok z
  | None => malformed (field ++ u " must be a non-negative integer") value
  end.

Definition optionalNonNegativeInteger (record : jobject) (field : jstr) : Field (option Z) :=
  match getField field record with
  | JUndefined => Ok None
  | _ => Some <$> requireNonNegativeInteger record field
  end.

Definition optionalResultArtifact (record : jobject) : Field (option ToolResultArtifact) :=
  let value := getField (u "resultArtifact") record in
  match value with
  | JUndefined => Ok None
  | _ =>
      match asRecord value with
      | None => malformed (u "resultArtifact must be an object") value
      | Some r =>
          match getField (u "kind") r with
          | JString k =>
              if bool_decide (k = u "tool_call") then
                callId ← requireString r (u "callId") false;
                bytes ← requireNonNegativeInteger r (u "bytes");
                Ok (Some {| artifactCallId := callId; artifactBytes := bytes |})
              else malformed (u "resultArtifact.kind must be " ++ quoted (u "tool_call")) (JString k)
          | v => malformed (u "resultArtifact.kind must be " ++ quoted (u "tool_call")) v
          end
      end
  end.

Definition requirePresent (record : jobject) (field : jstr) : Field jsval :=
  if negb (hasOwn field record) then malformed (field ++ u " must be present") JUndefined
  else Ok (getField field record).

Definition parseBase (record : jobject) : Field RunEventBase :=
  let seq := getField (u "seq") record in
  match asNumber seq ≫= safeInteger with
  | Some z =>
      if (z <? 1)%Z then malformed (u "seq must be a positive integer") seq
      else
        threadId ← requireString record (u "threadId") false;
        runId ← requireString record (u "runId") false;
        Ok {| seq := z; threadId := threadId; runId := runId |}
  | None => malformed (u "seq must be a positive integer") seq
  end.

(** ** Timestamps *)

Definition digitValue (c : N) : Z := Z.of_N c - 48.

(** [\d{n}]: the value of exactly [n] digits and the rest of the string. *)
Fixpoint takeDigits (n : nat) (acc : Z) (s : jstr) : option (Z * jstr) :=
  match n with
  | O => Some (acc, s)
  | S n' =>
      match s with
      | c :: s' => if isDigit c then takeDigits n' (acc * 10 + digitValue c) s' else None
      | [] => None
      end
  end.

Definition takeChar (c : N) (s : jstr) : option jstr :=
  match s with d :: s' => if (c =? d)%N then Some s' else None | [] => None end.

(** [\d*] greedily: the digits and the rest. *)
Fixpoint spanDigits (s : jstr) : list Z * jstr :=
  match s with
  | c :: s' =>
      if isDigit c then let '(ds, r) := spanDigits s' in (digitValue c :: ds, r) else ([], s)
  | [] => ([], [])
  end.

Record IsoTimestamp := {
  isoYear : Z; isoMonth : Z; isoDay : Z; isoHour : Z; isoMinute : Z; isoSecond : Z;
  isoFraction : list Z }.

(** [ISO_TIMESTAMP]: a UTC instant with optional fractional seconds. *)
Definition matchIsoTimestamp (s : jstr) : option IsoTimestamp :=
  '(y, s) ← takeDigits 4 0 s; s ← takeChar 45%N s;
  '(mo, s) ← takeDigits 2 0 s; s ← takeChar 45%N s;
  '(d, s) ← takeDigits 2 0 s; s ← takeChar 84%N s;
  '(h, s) ← takeDigits 2 0 s; s ← takeChar 58%N s;
  '(mi, s) ← takeDigits 2 0 s; s ← takeChar 58%N s;
  '(se, s) ← takeDigits 2 0 s;
  '(fr, s) ←
    match s with
    | 46%N :: s' =>
        let '(ds, r) := spanDigits s' in
        match ds with [] => None | _ => Some (ds, r) end
    | _ => Some ([], s)
    end;
  s ← takeChar 90%N s;
  match s with
  | [] => Some {| isoYear := y; isoMonth := mo; isoDay := d; isoHour := h;
                  isoMinute := mi; isoSecond := se; isoFraction := fr |}
  | _ => None
  end.

(** The milliseconds [Date.parse] reads off the fraction: its first three
    digits, padded with zeros. *)
Definition isoMillis (t : IsoTimestamp) : Z :=
  match isoFraction t with
  | [] => 0
  | [a] => 100 * a
  | [a; b] => 100 * a + 10 * b
  | a :: b :: c :: _ => 100 * a + 10 * b + c
  end.

(** [!Number.isNaN(Date.parse(s))] for a string of that form: each element in
    its range, with [24:00:00.000] the one spelling of hour 24. *)
Definition dateParses (t : IsoTimestamp) : bool :=
  ((1 <=? isoMonth t) && (isoMonth t <=? 12) && (1 <=? isoDay t) && (isoDay t <=? 31) &&
   (((isoHour t <=? 23) && (isoMinute t <=? 59) && (isoSecond t <=? 59)) ||
    ((isoHour t =? 24) && (isoMinute t =? 0) && (isoSecond t =? 0) && (isoMillis t =? 0))))%Z.

Definition isTimestamp (s : jstr) : bool :=
  match matchIsoTimestamp s with Some t => dateParses t | None => false end.

Definition requireTimestamp (record : jobject) (field : jstr) : Field jstr :=
  let value := getField field record in
  match value with
  | JString s =>
      if isTimestamp s then Ok s
      else malformed (field ++ u " must be an ISO 8601 UTC timestamp") value
  | _ => malformed (field ++ u " must be an ISO 8601 UTC timestamp") value
  end.

(** ** One parser per event type *)

Definition parseRunStarted (b : RunEventBase) : Field RunEvent :=
  Ok {| base := b; body := RunStarted |}.

Definition parseTokenDelta (b : RunEventBase) (record : jobject) : Field RunEvent :=
  messageId ← requireString record (u "messageId") false;
  delta ← requireString record (u "delta") true;
  Ok {| base := b; body := TokenDelta messageId delta |}.

Definition parseToolRequested (b : RunEventBase) (record : jobject) : Field RunEvent :=
  callId ← requireString record (u "callId") false;
  tool ← requireString record (u "tool") false;
  arguments ← requirePresent record (u "arguments");
  Ok {| base := b; body := ToolRequested callId tool arguments |}.

Definition parseApprovalRequested (b : RunEventBase) (record : jobject) : Field RunEvent :=
  callId ← requireString record (u "callId") false;
  expiresAt ← requireTimestamp record (u "expiresAt");
  Ok {| base := b; body := ApprovalRequested callId expiresAt |}.

Definition parseApprovalResolved (b : RunEventBase) (record : jobject) : Field RunEvent :=
  callId ← requireString record (u "callId") false;
  let decision := getField (u "decision") record in
  match asApprovalDecision decision with
  | None =>
      malformed
        (u "decision must be one of " ++ join (u ", ") (approvalDecisionName <$> APPROVAL_DECISIONS))
        decision
  | Some d =>
      reason ← optionalString record (u "reason");
      Ok {| base := b; body := ApprovalResolved callId d reason |}
  end.

Definition parseToolCompleted (b : RunEventBase) (record : jobject) : Field RunEvent :=
  callId ← requireString record (u "callId") false;
  res ← requirePresent record (u "result");
  resultArtifact ← optionalResultArtifact record;
  durationMs ← optionalNonNegativeInteger record (u "durationMs");
  Ok {| base := b; body := ToolCompleted callId res resultArtifact durationMs |}.

Definition parseToolFailed (b : RunEventBase) (record : jobject) : Field RunEvent :=
  callId ← requireString record (u "callId") false;
  error ← requireString record (u "error") true;
  durationMs ← optionalNonNegativeInteger record (u "durationMs");
  Ok {| base := b; body := ToolFailed callId error durationMs |}.

Definition parseRunCompleted (b : RunEventBase) (record : jobject) : Field RunEvent :=
  messageId ← optionalString record (u "messageId");
  Ok {| base := b; body := RunCompleted messageId |}.

Definition parseRunFailed (b : RunEventBase) (record : jobject) : Field RunEvent :=
  error ← requireString record (u "error") true;
  code ← optionalString record (u "code");
  Ok {| base := b; body := RunFailed error code |}.

Definition parseRunCancelled (b : RunEventBase) (record : jobject) : Field RunEvent :=
  reason ← optionalString record (u "reason");
  Ok {| base := b; body := RunCancelled reason |}.

Definition parseRunSteered (b : RunEventBase) (record : jobject) : Field RunEvent :=
  messageId ← requireString record (u "messageId") false;
  text ← requireString record (u "text") true;
  Ok {| base := b; body := RunSteered messageId text |}.

(** The [switch] over the narrowed type. *)
Definition parseBody (t : RunEventType) (b : RunEventBase) (record : jobject) : Field RunEvent :=
  match t with
  | run_started => parseRunStarted b
  | token_delta => parseTokenDelta b record
  | tool_requested => parseToolRequested b record
  | approval_requested => parseApprovalRequested b record
  | approval_resolved => parseApprovalResolved b record
  | tool_completed => parseToolCompleted b record
  | tool_failed => parseToolFailed b record
  | run_completed => parseRunCompleted b record
  | run_failed => parseRunFailed b record
  | run_cancelled => parseRunCancelled b record
  | run_steered => parseRunSteered b record
  end.

(** [value["schemaVersion"] === RUN_EVENT_SCHEMA_VERSION]. *)
Definition isSupportedVersion (v : jsval) : bool :=
  match v with JNumber n => bool_decide (n = NInt RUN_EVENT_SCHEMA_VERSION) | _ => false end.

Definition parseRunEvent (value : jsval) : Field RunEvent :=
  match asRecord value with
  | None => Err (MalformedRunEvent (u "event must be an object") value)
  | Some record =>
      if negb (isSupportedVersion (getField (u "schemaVersion") record))
      then Err (UnknownSchemaVersion (getField (u "schemaVersion") record))
      else
        match asRunEventType (getField (u "type") record) with
        | None => Err (UnknownEventType (getField (u "type") record))
        | Some t => b ← parseBase record; parseBody t b record
        end
  end.

(** ** Stored rows *)

Record StoredEventRow := {
  payload : jsval; rowSeq : jsnum; rowThreadId : jstr; rowRunId : option jstr;
  rowType : jstr }.

(** What [...payload] contributes to the literal: the own properties of an
    object, the indexed elements of an array.  Array indices are never the name
    of an event field, so an array contributes nothing the parser reads. *)
Definition payloadFields (v : jsval) : jobject :=
  match v with JObject fields => fields | _ => [] end.

Definition storedRunEvent (record : StoredEventRow) : Field RunEvent :=
  match rowRunId record with
  | None => Err (MalformedRunEvent (u "the row carries no run id") JNull)
  | Some runId =>
      parseRunEvent (JObject
        (setField (u "type") (JString (rowType record))
        (setField (u "runId") (JString runId)
        (setField (u "threadId") (JString (rowThreadId record))
        (setField (u "seq") (JNumber (rowSeq record))
        (setField (u "schemaVersion") (JNumber (NInt RUN_EVENT_SCHEMA_VERSION))
        (payloadFields (payload record))))))))
  end.

(** ** Events as the objects they are *)

Definition artifactObject (a : ToolResultArtifact) : jsval :=
  JObject [(u "kind", JString (u "tool_call")); (u "callId", JString (artifactCallId a));
           (u "bytes", JNumber (NInt (artifactBytes a)))].

Definition bodyFields (e : RunEventBody) : jobject :=
  match e with
  | RunStarted => []
  | TokenDelta messageId delta =>
      [(u "messageId", JString messageId); (u "delta", JString delta)]
  | ToolRequested callId tool arguments =>
      [(u "callId", JString callId); (u "tool", JString tool); (u "arguments", arguments)]
  | ApprovalRequested callId expiresAt =>
      [(u "callId", JString callId); (u "expiresAt", JString expiresAt)]
  | ApprovalResolved callId d reason =>
      [(u "callId", JString callId); (u "decision", JString (approvalDecisionName d))]
      ++ optField (u "reason") (JString <$> reason)
  | ToolCompleted callId res artifact durationMs =>
      [(u "callId", JString callId); (u "result", res)]
      ++ optField (u "resultArtifact") (artifactObject <$> artifact)
      ++ optField (u "durationMs") ((JNumber ∘ NInt) <$> durationMs)
  | ToolFailed callId error durationMs =>
      [(u "callId", JString callId); (u "error", JString error)]
      ++ optField (u "durationMs") ((JNumber ∘ NInt) <$> durationMs)
  | RunCompleted messageId => optField (u "messageId") (JString <$> messageId)
  | RunFailed error code =>
      (u "error", JString error) :: optField (u "code") (JString <$> code)
  | RunCancelled reason => optField (u "reason") (JString <$> reason)
  | RunSteered messageId text =>
      [(u "messageId", JString messageId); (u "text", JString text)]
  end.

(** The object literal a successful parse returns, and the one a producer sends. *)
Definition eventObject (e : RunEvent) : jsval :=
  JObject ([(u "schemaVersion", JNumber (NInt RUN_EVENT_SCHEMA_VERSION));
            (u "seq", JNumber (NInt (seq (base e))));
            (u "threadId", JString (threadId (base e)));
            (u "runId", JString (runId (base e)));
            (u "type", JString (eventTypeName (eventType (body e))))]
           ++ bodyFields (body e)).

(** ** Well-formed events: what the vocabulary requires of each field *)

Definition nonEmpty (s : jstr) : bool := (0 <? strlen s)%Z.
Definition optAll {A} (p : A → bool) (o : option A) : bool :=
  match o with Some a => p a | None => true end.
Definition naturalSafe (z : Z) : bool := (0 <=? z)%Z && isSafeZ z.

Definition wfBase (b : RunEventBase) : bool :=
  (1 <=? seq b)%Z && isSafeZ (seq b) && nonEmpty (threadId b) && nonEmpty (runId b).

Definition wfArtifact (a : ToolResultArtifact) : bool :=
  nonEmpty (artifactCallId a) && naturalSafe (artifactBytes a).

Definition wfBody (e : RunEventBody) : bool :=
  match e with
  | RunStarted => true
  | TokenDelta messageId _ => nonEmpty messageId
  | ToolRequested callId tool _ => nonEmpty callId && nonEmpty tool
  | ApprovalRequested callId expiresAt => nonEmpty callId && isTimestamp expiresAt
  | ApprovalResolved callId _ reason => nonEmpty callId && optAll nonEmpty reason
  | ToolCompleted callId _ artifact durationMs =>
      nonEmpty callId && optAll wfArtifact artifact && optAll naturalSafe durationMs
  | ToolFailed callId _ durationMs => nonEmpty callId && optAll naturalSafe durationMs
  | RunCompleted messageId => optAll nonEmpty messageId
  | RunFailed _ code => optAll nonEmpty code
  | RunCancelled reason => optAll nonEmpty reason
  | RunSteered messageId _ => nonEmpty messageId
  end.

Definition wfEvent (e : RunEvent) : bool := wfBase (base e) && wfBody (body e).

(** ** Lemmas: the readers *)

Lemma requireString_ok r f allow s :
  requireString r f allow = Ok s →
  getField f r = JString s ∧ (allow || nonEmpty s) = true.
Proof. unfold requireString, malformed, nonEmpty. intros H. dms. Qed.

Lemma optionalString_ok r f o :
  optionalString r f = Ok o →
  getField f r = match o with Some s => JString s | None => JUndefined end ∧
  optAll nonEmpty o = true.
Proof.
  unfold optionalString. intros H.
  destruct (getField f r) eqn:E; simplify_eq/=; try done;
    destruct (requireString r f false) eqn:F; simplify_eq/=;
    apply requireString_ok in F as [F ?]; rewrite E in F; by simplify_eq.
Qed.

Lemma requireNonNegativeInteger_ok r f z :
  requireNonNegativeInteger r f = Ok z →
  getField f r = JNumber (NInt z) ∧ naturalSafe z = true.
Proof.
  unfold requireNonNegativeInteger, malformed, naturalSafe. intros H.
  destruct (getField f r) as [| | |n| | | | | |] eqn:E; simplify_eq/=; try done.
  destruct (safeInteger n) as [z'|] eqn:F; simplify_eq/=.
  apply safeInteger_some in F as [-> F]. case_match eqn:G; simplify_eq. bools.
  split; [done|]. unfold isSafeZ. apply andb_true_iff. split; apply Z.leb_le; lia.
Qed.

Lemma optionalNonNegativeInteger_ok r f o :
  optionalNonNegativeInteger r f = Ok o →
  getField f r = match o with Some z => JNumber (NInt z) | None => JUndefined end ∧
  optAll naturalSafe o = true.
Proof.
  unfold optionalNonNegativeInteger. intros H.
  destruct (getField f r) eqn:E; simplify_eq/=; try done;
    destruct (requireNonNegativeInteger r f) eqn:F; simplify_eq/=;
    apply requireNonNegativeInteger_ok in F as [F ?]; rewrite E in F; by simplify_eq.
Qed.

Lemma optionalResultArtifact_ok r o :
  optionalResultArtifact r = Ok o → optAll wfArtifact o = true.
Proof.
  unfold optionalResultArtifact, malformed. intros H.
  destruct (getField (u "resultArtifact") r) as [| | | | | | | | |fs]; simplify_eq/=; try done.
  destruct (getField (u "kind") fs); simplify_eq/=; case_bool_decide; simplify_eq/=.
  destruct (requireString fs _ _) eqn:E; simplify_eq/=.
  destruct (requireNonNegativeInteger fs _) eqn:F; simplify_eq/=.
  apply requireString_ok in E as [_ E]. apply requireNonNegativeInteger_ok in F as [_ F].
  unfold wfArtifact. simpl in *. by rewrite E, F.
Qed.

Lemma requireTimestamp_ok r f s :
  requireTimestamp r f = Ok s → getField f r = JString s ∧ isTimestamp s = true.
Proof. unfold requireTimestamp, malformed. intros H. dms. Qed.

Lemma parseBase_ok r b : parseBase r = Ok b → wfBase b = true.
Proof.
  unfold parseBase, malformed, wfBase. intros H.
  destruct (asNumber _ ≫= safeInteger) as [z|] eqn:E; simplify_eq/=.
  case_match eqn:G; simplify_eq/=.
  destruct (requireString r (u "threadId") false) eqn:E1; simplify_eq/=.
  destruct (requireString r (u "runId") false) eqn:E2; simplify_eq/=.
  apply requireString_ok in E1 as [_ E1], E2 as [_ E2]. simpl in *.
  destruct (asNumber _) as [n|]; simplify_eq/=. apply safeInteger_some in E as [_ E].
  rewrite E1, E2, !andb_true_r. bools. unfold isSafeZ.
  apply andb_true_iff. split; apply Z.leb_le; lia.
Qed.

(** Reading back the fields of an event object. *)

Lemma requireString_get r f allow s :
  getField f r = JString s → (allow || nonEmpty s) = true → requireString r f allow = Ok s.
Proof. unfold requireString, nonEmpty. by intros -> ->. Qed.

Lemma optionalString_get r f o :
  getField f r = match o with Some s => JString s | None => JUndefined end →
  optAll nonEmpty o = true → optionalString r f = Ok o.
Proof.
  unfold optionalString. destruct o as [s|]; intros Hg Hs; rewrite Hg; [|done].
  by rewrite (requireString_get _ _ false _ Hg Hs).
Qed.

Lemma natural_get z : naturalSafe z = true → safeInteger (NInt z) = Some z ∧ (z <? 0)%Z = false.
Proof.
  unfold naturalSafe, safeInteger. intros [Hz ->]%andb_true_iff. split; [done|].
  bools. apply Z.ltb_ge. lia.
Qed.

Lemma requireNonNegativeInteger_get r f z :
  getField f r = JNumber (NInt z) → naturalSafe z = true →
  requireNonNegativeInteger r f = Ok z.
Proof.
  unfold requireNonNegativeInteger. intros -> [Hs Hz]%natural_get. cbn [asNumber mbind option_bind].
  by rewrite Hs, Hz.
Qed.

Lemma optionalNonNegativeInteger_get r f o :
  getField f r = match o with Some z => JNumber (NInt z) | None => JUndefined end →
  optAll naturalSafe o = true → optionalNonNegativeInteger r f = Ok o.
Proof.
  unfold optionalNonNegativeInteger. destruct o as [z|]; intros Hg Hz; rewrite Hg; [|done].
  by rewrite (requireNonNegativeInteger_get _ _ _ Hg Hz).
Qed.

Lemma requirePresent_get r f v :
  lookupKey fst f r = Some (f, v) → requirePresent r f = Ok v.
Proof.
  unfold requirePresent, hasOwn, getField. intros H. rewrite H.
  destruct (existsb (keyIs fst f) r) eqn:E; [done|].
  apply find_none_existsb in E. unfold lookupKey in H. congruence.
Qed.

Lemma optionalResultArtifact_get r o :
  getField (u "resultArtifact") r =
    match o with Some a => artifactObject a | None => JUndefined end →
  optAll wfArtifact o = true → optionalResultArtifact r = Ok o.
Proof.
  unfold optionalResultArtifact, artifactObject.
  destruct o as [[c n]|]; intros Hg Ha; rewrite Hg; [|done]. simpl in Ha.
  unfold wfArtifact in Ha. apply andb_true_iff in Ha as [Hc Hn]. simpl in *.
  rewrite (requireString_get _ (u "callId") false c); [|done|done]. simpl.
  by rewrite (requireNonNegativeInteger_get _ (u "bytes") n).
Qed.

Lemma requireTimestamp_get r f s :
  getField f r = JString s → isTimestamp s = true → requireTimestamp r f = Ok s.
Proof. unfold requireTimestamp. by intros -> ->. Qed.

Lemma asRunEventType_name t : asRunEventType (JString (eventTypeName t)) = Some t.
Proof. by destruct t. Qed.

Lemma asRunEventType_some v t :
  asRunEventType v = Some t → v = JString (eventTypeName t).
Proof.
  destruct v; simpl; try done. intros H. repeat case_bool_decide; naive_solver.
Qed.

(** The fields of an event object, by name. *)
Ltac readField :=
  lazymatch goal with
  | |- requireString _ _ _ = Ok _ => apply requireString_get
  | |- optionalString _ _ = Ok _ => apply optionalString_get
  | |- requirePresent _ _ = Ok _ => apply requirePresent_get
  | |- requireTimestamp _ _ = Ok _ => apply requireTimestamp_get
  | |- optionalNonNegativeInteger _ _ = Ok _ => apply optionalNonNegativeInteger_get
  | |- optionalResultArtifact _ = Ok _ => apply optionalResultArtifact_get
  end.

Lemma parseBase_object e :
  wfBase (base e) = true →
  parseBase ([(u "schemaVersion", JNumber (NInt RUN_EVENT_SCHEMA_VERSION));
            (u "seq", JNumber (NInt (seq (base e))));
            (u "threadId", JString (threadId (base e)));
            (u "runId", JString (runId (base e)));
            (u "type", JString (eventTypeName (eventType (body e))))]
           ++ bodyFields (body e)) = Ok (base e).
Proof.
  unfold wfBase. intros H. bools. destruct e as [[q t r] b]. cbn [base seq threadId runId] in *.
  unfold parseBase. change (getField (u "seq") _) with (JNumber (NInt q)). cbn [asNumber mbind option_bind].
  assert (safeInteger (NInt q) = Some q) as -> by (simpl; by case_match).
  case_match eqn:G; bools; [lia|].
  rewrite (requireString_get _ (u "threadId") false t); [|done..]. simpl.
  by rewrite (requireString_get _ (u "runId") false r).
Qed.

Ltac readBody :=
  repeat (first
    [ erewrite requireString_get by (first [reflexivity | assumption])
    | erewrite (optionalString_get _ _ None) by reflexivity
    | erewrite (optionalString_get _ _ (Some _)) by (first [reflexivity | assumption])
    | erewrite requirePresent_get by reflexivity
    | erewrite requireTimestamp_get by (first [reflexivity | assumption])
    | erewrite (optionalNonNegativeInteger_get _ _ None) by reflexivity
    | erewrite (optionalNonNegativeInteger_get _ _ (Some _)) by (first [reflexivity | assumption])
    | erewrite (optionalResultArtifact_get _ None) by reflexivity
    | erewrite (optionalResultArtifact_get _ (Some _)) by (first [reflexivity | assumption]) ]; cbn [mbind result_bind]).

Lemma parseBody_object hdr b :
  hdr = [(u "schemaVersion", JNumber (NInt RUN_EVENT_SCHEMA_VERSION));
            (u "seq", JNumber (NInt (seq (base b))));
            (u "threadId", JString (threadId (base b)));
            (u "runId", JString (runId (base b)));
            (u "type", JString (eventTypeName (eventType (body b))))] →
  wfBody (body b) = true →
  parseBody (eventType (body b)) (base b) (hdr ++ bodyFields (body b)) = Ok b.
Proof.
  intros -> H. destruct b as [bb e]. cbn [base body] in *.
  destruct e as [|m d|c t a|c ex|c d r|c res a dur|c er dur|m|er co|r|m t]; simpl in H; bools;
    cbn [eventType parseBody].
  - done.
  - unfold parseTokenDelta. by readBody.
  - unfold parseToolRequested. by readBody.
  - unfold parseApprovalRequested. by readBody.
  - unfold parseApprovalResolved.
    destruct r; readBody;
      change (getField (u "decision") _) with (JString (approvalDecisionName d));
      rewrite asApprovalDecision_name; by readBody.
  - unfold parseToolCompleted. destruct a, dur; by readBody.
  - unfold parseToolFailed. destruct dur; by readBody.
  - unfold parseRunCompleted. destruct m; by readBody.
  - unfold parseRunFailed. destruct co; by readBody.
  - unfold parseRunCancelled. destruct r; by readBody.
  - unfold parseRunSteered. by readBody.
Qed.

Lemma parseRunEvent_object e : wfEvent e = true → parseRunEvent (eventObject e) = Ok e.
Proof.
  unfold wfEvent, eventObject. intros [Hb Hbody]%andb_true_iff.
  unfold parseRunEvent. cbn [asRecord].
  change (getField (u "schemaVersion") _) with (JNumber (NInt RUN_EVENT_SCHEMA_VERSION)).
  change (getField (u "type") _) with (JString (eventTypeName (eventType (body e)))).
  rewrite asRunEventType_name. cbn [isSupportedVersion negb].
  rewrite bool_decide_true by done. cbn [negb].
  rewrite parseBase_object by done. cbn [mbind result_bind].
  by apply parseBody_object.
Qed.

(** Every success is a well-formed event whose type and position are the ones
    the object carries. *)
Lemma parseBody_ok t b r e :
  parseBody t b r = Ok e → base e = b ∧ eventType (body e) = t ∧ wfBody (body e) = true.
Proof.
  destruct t; cbn [parseBody];
    unfold parseRunStarted, parseTokenDelta, parseToolRequested, parseApprovalRequested,
      parseApprovalResolved, parseToolCompleted, parseToolFailed, parseRunCompleted,
      parseRunFailed, parseRunCancelled, parseRunSteered; intros H;
    repeat match goal with
    | H : context [mbind _ ?r] |- _ =>
        let E := fresh "E" in destruct r eqn:E; cbn [mbind result_bind] in H; [|done]
    | H : context [asApprovalDecision ?v] |- _ => destruct (asApprovalDecision v); [|done]
    end; simplify_eq; cbn [base body eventType wfBody];
    repeat match goal with
    | H : requireString _ _ false = Ok _ |- _ => apply requireString_ok in H as [_ H]; simpl in H
    | H : requireString _ _ true = Ok _ |- _ => clear H
    | H : requirePresent _ _ = Ok _ |- _ => clear H
    | H : optionalString _ _ = Ok _ |- _ => apply optionalString_ok in H as [_ H]
    | H : optionalNonNegativeInteger _ _ = Ok _ |- _ =>
        apply optionalNonNegativeInteger_ok in H as [_ H]
    | H : optionalResultArtifact _ = Ok _ |- _ => apply optionalResultArtifact_ok in H
    | H : requireTimestamp _ _ = Ok _ |- _ => apply requireTimestamp_ok in H as [_ H]
    end; split_and!; try done; repeat (apply andb_true_iff; split); done.
Qed.

Lemma parseBase_fields r b :
  parseBase r = Ok b →
  getField (u "seq") r = JNumber (NInt (seq b)) ∧
  getField (u "threadId") r = JString (threadId b) ∧
  getField (u "runId") r = JString (runId b).
Proof.
  unfold parseBase, malformed. intros H.
  destruct (asNumber (getField (u "seq") r)) as [n|] eqn:En; simplify_eq/=.
  destruct (safeInteger n) as [z|] eqn:E; simplify_eq/=. case_match; simplify_eq.
  apply safeInteger_some in E as [-> _].
  destruct (requireString r (u "threadId") false) eqn:E1; simplify_eq/=.
  destruct (requireString r (u "runId") false) eqn:E2; simplify_eq/=.
  apply requireString_ok in E1 as [E1 _], E2 as [E2 _]. split_and!; [|done..].
  destruct (getField (u "seq") r); by simplify_eq/=.
Qed.

Lemma parseRunEvent_ok v e :
  parseRunEvent v = Ok e →
  wfEvent e = true ∧
  ∃ r, v = JObject r ∧ getField (u "type") r = JString (eventTypeName (eventType (body e))) ∧
    getField (u "seq") r = JNumber (NInt (seq (base e))) ∧
    getField (u "threadId") r = JString (threadId (base e)) ∧
    getField (u "runId") r = JString (runId (base e)).
Proof.
  unfold parseRunEvent. intros H. destruct v as [| | | | | | | | |r]; try done.
  cbn [asRecord] in H. case_match; [done|].
  destruct (asRunEventType _) as [t|] eqn:Et; [|done].
  destruct (parseBase r) as [b|] eqn:Eb; [|done]. cbn [mbind result_bind] in H.
  apply asRunEventType_some in Et. apply parseBody_ok in H as (<- & <- & Hwf).
  split.
  - unfold wfEvent. by rewrite (parseBase_ok _ _ Eb), Hwf.
  - exists r. split; [done|]. split; [done|]. by apply parseBase_fields.
Qed.

Definition storedRow (e : RunEvent) : StoredEventRow :=
  {| payload := eventObject e; rowSeq := NInt (seq (base e)); rowThreadId := threadId (base e);
     rowRunId := Some (runId (base e)); rowType := eventTypeName (eventType (body e)) |}.

Lemma storedRow_object e : storedRunEvent (storedRow e) = parseRunEvent (eventObject e).
Proof.
  unfold storedRunEvent, storedRow, eventObject. cbn [rowRunId]. f_equal. f_equal.
  destruct e as [[q t r] b]. cbn [base body seq threadId runId payload payloadFields rowSeq
    rowThreadId rowRunId rowType].
  destruct b as [|m d|c tl a|c ex|c d rs|c res a dur|c er dur|m|er co|rs|m tx];
    try destruct rs; try destruct a; try destruct dur; try destruct m; try destruct co;
    reflexivity.
Qed.

(** ** Properties *)

(** C39. Wire round trip: the object of an event parses back to that event exactly
    when the event is well formed (positive safe [seq], non-blank ids, a real
    deadline, non-negative sizes and durations), and whatever value a parse
    accepted, the event it returns is such a fixed point of the parser. *)
Theorem parseRunEvent_roundtrip e :
  (parseRunEvent (eventObject e) = Ok e ↔ wfEvent e = true) ∧
  (∀ v, parseRunEvent v = Ok e → parseRunEvent (eventObject e) = Ok e).
Proof.
  assert (∀ v, parseRunEvent v = Ok e → wfEvent e = true) as Hwf.
  { intros v H. by apply parseRunEvent_ok in H as [H _]. }
  split; [split|].
  - apply Hwf.
  - apply parseRunEvent_object.
  - intros v H. apply parseRunEvent_object. by eapply Hwf.
Qed.

(** A stored row's columns decide the event: whatever the payload claims, the
    event delivered carries the row's own seq, thread, run and type; and a row
    written from a well-formed event is read back as that event. *)
Theorem storedRunEvent_columns row e :
  storedRunEvent row = Ok e →
  rowSeq row = NInt (seq (base e)) ∧ rowThreadId row = threadId (base e) ∧
  rowRunId row = Some (runId (base e)) ∧ rowType row = eventTypeName (eventType (body e)) ∧
  storedRunEvent (storedRow e) = Ok e.
Proof.
  intros H. assert (wfEvent e = true) as Hwf.
  { unfold storedRunEvent in H. destruct (rowRunId row); [|done].
    by apply parseRunEvent_ok in H as [H _]. }
  unfold storedRunEvent in H. destruct (rowRunId row) as [rid|]; [|done].
  apply parseRunEvent_ok in H as (_ & r & Hr & Ht & Hs & Hth & Hru). injection Hr as <-.
  rewrite getField_set_eq in Ht.
  rewrite !getField_set_ne, getField_set_eq in Hs by discriminate.
  rewrite !getField_set_ne, getField_set_eq in Hth by discriminate.
  rewrite !getField_set_ne, getField_set_eq in Hru by discriminate.
  split_and!; try congruence.
  rewrite storedRow_object. by apply parseRunEvent_object.
Qed.

(** ** Witnesses *)

Definition sampleBase (n : Z) : RunEventBase :=
  {| seq := n; threadId := u "thread-1"; runId := u "run-1" |}.

Definition sampleResolved : RunEvent :=
  {| base := sampleBase 4; body := ApprovalResolved (u "call-1") denied (Some (u "no")) |}.

(** A row whose payload claims another thread, run, seq and type. *)
Definition hostileRow : StoredEventRow :=
  {| payload := JObject
       [(u "seq", JNumber (NInt 99)); (u "threadId", JString (u "other"));
        (u "type", JString (u "run.completed")); (u "callId", JString (u "call-1"));
        (u "decision", JString (u "denied")); (u "reason", JString (u "no"))];
     rowSeq := NInt 4; rowThreadId := u "thread-1"; rowRunId := Some (u "run-1");
     rowType := u "approval.resolved" |}.

Lemma parseRunEvent_roundtrip_witness :
  parseRunEvent (eventObject sampleResolved) = Ok sampleResolved ∧
  wfEvent sampleResolved = true.
Proof.
  split; [|reflexivity].
  apply (proj1 (parseRunEvent_roundtrip sampleResolved)). reflexivity.
Defined.

Lemma storedRunEvent_columns_witness :
  storedRunEvent hostileRow = Ok sampleResolved ∧
  rowThreadId hostileRow = threadId (base sampleResolved).
Proof.
  split; [vm_compute; reflexivity|].
  apply (storedRunEvent_columns hostileRow sampleResolved). vm_compute. reflexivity.
Defined.
