(* ===== verification/EventReducer.v ===== *)
(** The fold of run events into the thread snapshot a client renders:
    packages/core/src/event-reducer.ts, one definition per function. *)

From S2P Require Import Prelude JsText JsValue RunState Approvals RunEvents.

(** ** Snapshots *)

Inductive MessageRole := assistant | user.

#[export] Instance MessageRole_eq_dec : EqDecision MessageRole.
Proof. solve_decision. Defined.

Record MessageSnapshot := {
  msgId : jstr; msgRunId : jstr; msgRole : MessageRole; msgText : jstr; msgComplete : bool }.

Record ApprovalSnapshot := {
  apStatus : ApprovalStatus; apExpiresAt : jstr; apReason : option jstr }.

Inductive ToolCallStatus := tc_requested | tc_completed | tc_failed.

#[export] Instance ToolCallStatus_eq_dec : EqDecision ToolCallStatus.
Proof. solve_decision. Defined.

Record ToolCallSnapshot := {
  tcCallId : jstr; tcTool : jstr; tcArguments : jsval; tcStatus : ToolCallStatus;
  tcResult : option jsval; tcResultArtifact : option ToolResultArtifact;
  tcError : option jstr; tcDurationMs : option Z; tcApproval : option ApprovalSnapshot }.

Record RunFailureSnapshot := { failMessage : jstr; failCode : option jstr }.

Record RunSnapshot := {
  rsRunId : jstr; rsStatus : RunStatus; rsToolCalls : list ToolCallSnapshot;
  rsFailure : option RunFailureSnapshot; rsCancelReason : option jstr }.

Record ThreadSnapshot := {
  tsThreadId : jstr; tsRuns : list RunSnapshot; tsMessages : list MessageSnapshot;
  tsLastSeq : Z; tsPendingEvents : list RunEvent }.

(** Object spreads [{ ...x, field: v }]. *)
Definition withStatus (r : RunSnapshot) (s : RunStatus) : RunSnapshot :=
  {| rsRunId := rsRunId r; rsStatus := s; rsToolCalls := rsToolCalls r;
     rsFailure := rsFailure r; rsCancelReason := rsCancelReason r |}.

Definition withToolCalls (r : RunSnapshot) (tcs : list ToolCallSnapshot) : RunSnapshot :=
  {| rsRunId := rsRunId r; rsStatus := rsStatus r; rsToolCalls := tcs;
     rsFailure := rsFailure r; rsCancelReason := rsCancelReason r |}.

Definition withApproval (c : ToolCallSnapshot) (a : ApprovalSnapshot) : ToolCallSnapshot :=
  {| tcCallId := tcCallId c; tcTool := tcTool c; tcArguments := tcArguments c;
     tcStatus := tcStatus c; tcResult := tcResult c; tcResultArtifact := tcResultArtifact c;
     tcError := tcError c; tcDurationMs := tcDurationMs c; tcApproval := Some a |}.

Definition withRuns (s : ThreadSnapshot) (rs : list RunSnapshot) : ThreadSnapshot :=
  {| tsThreadId := tsThreadId s; tsRuns := rs; tsMessages := tsMessages s;
     tsLastSeq := tsLastSeq s; tsPendingEvents := tsPendingEvents s |}.

Definition withMessages (s : ThreadSnapshot) (ms : list MessageSnapshot) : ThreadSnapshot :=
  {| tsThreadId := tsThreadId s; tsRuns := tsRuns s; tsMessages := ms;
     tsLastSeq := tsLastSeq s; tsPendingEvents := tsPendingEvents s |}.

Definition withCursor (s : ThreadSnapshot) (n : Z) (es : list RunEvent) : ThreadSnapshot :=
  {| tsThreadId := tsThreadId s; tsRuns := tsRuns s; tsMessages := tsMessages s;
     tsLastSeq := n; tsPendingEvents := es |}.

(** ** Errors *)

Inductive ToolCallConflictReason :=
| tc_duplicate_request | tc_already_resolved | tc_awaiting_approval | tc_denied.
Inductive ApprovalConflictReason :=
| ap_duplicate_request | ap_unknown_approval | ap_already_resolved.
Inductive MessageConflictReason := not_assistant | already_exists.

Inductive ReduceError :=
| ParseError (e : RunEventError)
| ThreadMismatch (expectedThreadId receivedThreadId : jstr)
| IllegalEventTransition (from to : RunStatus)
| UnknownToolCall (callId : jstr)
| ToolCallConflict (callId : jstr) (reason : ToolCallConflictReason)
| ApprovalConflict (callId : jstr) (reason : ApprovalConflictReason)
| MessageConflict (messageId : jstr) (reason : MessageConflictReason).

Abbreviation ReduceRunEventResult := (result ReduceError ThreadSnapshot).

(** [createThreadSnapshot] throws a [RangeError] naming a bad cursor. *)
Definition createThreadSnapshot (threadId : jstr) (lastSeq : option jsnum) :
    result jsnum ThreadSnapshot :=
  let n := default (NInt 0) lastSeq in
  match safeInteger n with
  | Some z =>
      if (z <? 0)%Z then Err n
      else Ok {| tsThreadId := threadId; tsRuns := []; tsMessages := [];
                 tsLastSeq := z; tsPendingEvents := [] |}
  | None => Err n
  end.

(** ** Lookups and upserts *)

Definition findRun (s : ThreadSnapshot) (rid : jstr) : option RunSnapshot :=
  List.find (keyIs rsRunId rid) (tsRuns s).

(** A message's identity is [(runId, id)]. *)
Definition msgKey (m : MessageSnapshot) : jstr * jstr := (msgRunId m, msgId m).

Definition findMessage (s : ThreadSnapshot) (rid messageId : jstr) : option MessageSnapshot :=
  List.find (keyIs msgKey (rid, messageId)) (tsMessages s).

Definition findCall (callId : jstr) (tcs : list ToolCallSnapshot) : option ToolCallSnapshot :=
  List.find (keyIs tcCallId callId) tcs.

Definition withRun (s : ThreadSnapshot) (r : RunSnapshot) : ThreadSnapshot :=
  withRuns s (upsert (keyIs rsRunId (rsRunId r)) r (tsRuns s)).

Definition withMessage (s : ThreadSnapshot) (m : MessageSnapshot) : ThreadSnapshot :=
  withMessages s (upsert (keyIs msgKey (msgKey m)) m (tsMessages s)).

(** [existing ?? { runId, status: INITIAL_RUN_STATUS, toolCalls: [] }]. *)
Definition runOrNew (existing : option RunSnapshot) (rid : jstr) : RunSnapshot :=
  match existing with
  | Some r => r
  | None => {| rsRunId := rid; rsStatus := INITIAL_RUN_STATUS; rsToolCalls := [];
               rsFailure := None; rsCancelReason := None |}
  end.

Definition approvalIs (st : ApprovalStatus) (c : ToolCallSnapshot) : bool :=
  match tcApproval c with Some a => bool_decide (apStatus a = st) | None => false end.

Definition hasPendingApproval (r : RunSnapshot) : bool :=
  existsb (approvalIs pending) (rsToolCalls r).

(** ** Status steps *)

Definition asRunning (s : ThreadSnapshot) (rid : jstr) :
    result ReduceError (ThreadSnapshot * RunSnapshot) :=
  let existing := findRun s rid in
  let run := runOrNew existing rid in
  if bool_decide (rsStatus run = running) then
    Ok (match existing with None => withRun s run | Some _ => s end, run)
  else if bool_decide (rsStatus run = waiting_approval) && hasPendingApproval run then
    Ok (s, run)
  else
    match transition (rsStatus run) running with
    | Err _ => Err (IllegalEventTransition (rsStatus run) running)
    | Ok st => let next := withStatus run st in Ok (withRun s next, next)
    end.

Definition asTerminal (s : ThreadSnapshot) (rid : jstr) (status : RunStatus) :
    result ReduceError (ThreadSnapshot * RunSnapshot) :=
  let run := runOrNew (findRun s rid) rid in
  match transition (rsStatus run) status with
  | Err _ => Err (IllegalEventTransition (rsStatus run) status)
  | Ok st => let next := withStatus run st in Ok (withRun s next, next)
  end.

(** [message.runId === runId && message.role === "assistant" ?
    { ...message, complete: true } : message]. *)
Definition completeMessage (rid : jstr) (m : MessageSnapshot) : MessageSnapshot :=
  if bool_decide (msgRunId m = rid) && bool_decide (msgRole m = assistant) then
    {| msgId := msgId m; msgRunId := msgRunId m; msgRole := msgRole m;
       msgText := msgText m; msgComplete := true |}
  else m.

Definition completeRunMessages (s : ThreadSnapshot) (rid : jstr) (messageId : option jstr) :
    ReduceRunEventResult :=
  current ←
    match messageId with
    | None => Ok s
    | Some mid =>
        match findMessage s rid mid with
        | None => Ok (withMessage s {| msgId := mid; msgRunId := rid; msgRole := assistant;
                                       msgText := []; msgComplete := true |})
        | Some m =>
            if bool_decide (msgRole m ≠ assistant) then Err (MessageConflict mid not_assistant)
            else Ok s
        end
    end;
  Ok (withMessages current (completeMessage rid <$> tsMessages current)).

(** ** One handler per event type *)

Definition reduceRunStarted (s : ThreadSnapshot) (rid : jstr) : ReduceRunEventResult :=
  let run := runOrNew (findRun s rid) rid in
  match transition (rsStatus run) running with
  | Err _ => Err (IllegalEventTransition (rsStatus run) running)
  | Ok st => Ok (withRun s (withStatus run st))
  end.

Definition reduceTokenDelta (s : ThreadSnapshot) (rid messageId delta : jstr) :
    ReduceRunEventResult :=
  '(s, _) ← asRunning s rid;
  match findMessage s rid messageId with
  | None => Ok (withMessage s {| msgId := messageId; msgRunId := rid; msgRole := assistant;
                                 msgText := delta; msgComplete := false |})
  | Some m =>
      if bool_decide (msgRole m ≠ assistant) then Err (MessageConflict messageId not_assistant)
      else Ok (withMessage s {| msgId := msgId m; msgRunId := msgRunId m; msgRole := msgRole m;
                                msgText := msgText m ++ delta; msgComplete := msgComplete m |})
  end.

Definition reduceToolRequested (s : ThreadSnapshot) (rid callId tool : jstr) (arguments : jsval) :
    ReduceRunEventResult :=
  '(s, run) ← asRunning s rid;
  if existsb (keyIs tcCallId callId) (rsToolCalls run) then
    Err (ToolCallConflict callId tc_duplicate_request)
  else
    let call := {| tcCallId := callId; tcTool := tool; tcArguments := arguments;
                   tcStatus := tc_requested; tcResult := None; tcResultArtifact := None;
                   tcError := None; tcDurationMs := None; tcApproval := None |} in
    Ok (withRun s (withToolCalls run (rsToolCalls run ++ [call]))).

(** [toolCalls.map(c => c.callId === callId ? { ...c, approval } : c)]. *)
Definition setApproval (callId : jstr) (a : ApprovalSnapshot) (tcs : list ToolCallSnapshot) :
    list ToolCallSnapshot :=
  (λ c, if keyIs tcCallId callId c then withApproval c a else c) <$> tcs.

Definition reduceApprovalRequested (s : ThreadSnapshot) (rid callId expiresAt : jstr) :
    ReduceRunEventResult :=
  '(s, run) ← asRunning s rid;
  match findCall callId (rsToolCalls run) with
  | None => Err (UnknownToolCall callId)
  | Some call =>
      match tcApproval call with
      | Some _ => Err (ApprovalConflict callId ap_duplicate_request)
      | None =>
          let a := {| apStatus := pending; apExpiresAt := expiresAt; apReason := None |} in
          let run := withToolCalls run (setApproval callId a (rsToolCalls run)) in
          if bool_decide (rsStatus run ≠ waiting_approval) then
            match transition (rsStatus run) waiting_approval with
            | Err _ => Err (IllegalEventTransition (rsStatus run) waiting_approval)
            | Ok st => Ok (withRun s (withStatus run st))
            end
          else Ok (withRun s run)
      end
  end.

Definition reduceApprovalResolved (s : ThreadSnapshot) (rid callId : jstr)
    (decision : ApprovalDecision) (reason : option jstr) : ReduceRunEventResult :=
  match findRun s rid with
  | None => Err (UnknownToolCall callId)
  | Some run =>
      match findCall callId (rsToolCalls run) with
      | None => Err (UnknownToolCall callId)
      | Some call =>
          match tcApproval call with
          | None => Err (ApprovalConflict callId ap_unknown_approval)
          | Some ap =>
              if bool_decide (apStatus ap ≠ pending) then
                Err (ApprovalConflict callId ap_already_resolved)
              else
                let a := {| apStatus := resolved decision; apExpiresAt := apExpiresAt ap;
                            apReason := match reason with None => apReason ap | r => r end |} in
                let res := withToolCalls run (setApproval callId a (rsToolCalls run)) in
                if bool_decide (rsStatus res = waiting_approval) && negb (hasPendingApproval res)
                then
                  match transition waiting_approval running with
                  | Err _ => Err (IllegalEventTransition waiting_approval running)
                  | Ok st => Ok (withRun s (withStatus res st))
                  end
                else Ok (withRun s res)
          end
      end
  end.

(** [ToolCompletedEvent | ToolFailedEvent]. *)
Inductive ToolResolution :=
| ResolveCompleted (res : jsval) (artifact : option ToolResultArtifact) (durationMs : option Z)
| ResolveFailed (error : jstr) (durationMs : option Z).

Definition isCompletion (r : ToolResolution) : bool :=
  match r with ResolveCompleted _ _ _ => true | ResolveFailed _ _ => false end.

(** An absent optional field leaves the call's own value. *)
Definition resolveCall (c : ToolCallSnapshot) (r : ToolResolution) : ToolCallSnapshot :=
  match r with
  | ResolveCompleted res artifact dur =>
      {| tcCallId := tcCallId c; tcTool := tcTool c; tcArguments := tcArguments c;
         tcStatus := tc_completed; tcResult := Some res;
         tcResultArtifact := match artifact with None => tcResultArtifact c | a => a end;
         tcError := tcError c;
         tcDurationMs := match dur with None => tcDurationMs c | d => d end;
         tcApproval := tcApproval c |}
  | ResolveFailed error dur =>
      {| tcCallId := tcCallId c; tcTool := tcTool c; tcArguments := tcArguments c;
         tcStatus := tc_failed; tcResult := tcResult c; tcResultArtifact := tcResultArtifact c;
         tcError := Some error;
         tcDurationMs := match dur with None => tcDurationMs c | d => d end;
         tcApproval := tcApproval c |}
  end.

Definition reduceToolResolution (s : ThreadSnapshot) (rid callId : jstr) (r : ToolResolution) :
    ReduceRunEventResult :=
  match findRun s rid with
  | None => Err (UnknownToolCall callId)
  | Some run =>
      match findCall callId (rsToolCalls run) with
      | None => Err (UnknownToolCall callId)
      | Some call =>
          if bool_decide (tcStatus call ≠ tc_requested) then
            Err (ToolCallConflict callId tc_already_resolved)
          else if approvalIs pending call then
            Err (ToolCallConflict callId tc_awaiting_approval)
          else if isCompletion r &&
                  (approvalIs (resolved denied) call || approvalIs (resolved timed_out) call) then
            Err (ToolCallConflict callId tc_denied)
          else
            Ok (withRun s (withToolCalls run
                  (replaceWhere (keyIs tcCallId callId) (resolveCall call r) (rsToolCalls run))))
      end
  end.

Definition reduceRunCompleted (s : ThreadSnapshot) (rid : jstr) (messageId : option jstr) :
    ReduceRunEventResult :=
  '(s, _) ← asTerminal s rid completed;
  completeRunMessages s rid messageId.

Definition reduceRunFailed (s : ThreadSnapshot) (rid error : jstr) (code : option jstr) :
    ReduceRunEventResult :=
  '(s, run) ← asTerminal s rid failed;
  let run := {| rsRunId := rsRunId run; rsStatus := rsStatus run; rsToolCalls := rsToolCalls run;
                rsFailure := Some {| failMessage := error; failCode := code |};
                rsCancelReason := rsCancelReason run |} in
  completeRunMessages (withRun s run) rid None.

Definition reduceRunCancelled (s : ThreadSnapshot) (rid : jstr) (reason : option jstr) :
    ReduceRunEventResult :=
  '(s, run) ← asTerminal s rid cancelled;
  let run := {| rsRunId := rsRunId run; rsStatus := rsStatus run; rsToolCalls := rsToolCalls run;
                rsFailure := rsFailure run;
                rsCancelReason := match reason with None => rsCancelReason run | r => r end |} in
  completeRunMessages (withRun s run) rid None.

Definition reduceRunSteered (s : ThreadSnapshot) (rid messageId text : jstr) :
    ReduceRunEventResult :=
  '(s, _) ← asRunning s rid;
  match findMessage s rid messageId with
  | Some _ => Err (MessageConflict messageId already_exists)
  | None => Ok (withMessage s {| msgId := messageId; msgRunId := rid; msgRole := user;
                                 msgText := text; msgComplete := true |})
  end.

Definition applyEvent (s : ThreadSnapshot) (e : RunEvent) : ReduceRunEventResult :=
  let rid := runId (base e) in
  match body e with
  | RunStarted => reduceRunStarted s rid
  | TokenDelta messageId delta => reduceTokenDelta s rid messageId delta
  | ToolRequested callId tool arguments => reduceToolRequested s rid callId tool arguments
  | ApprovalRequested callId expiresAt => reduceApprovalRequested s rid callId expiresAt
  | ApprovalResolved callId d reason => reduceApprovalResolved s rid callId d reason
  | ToolCompleted callId res artifact dur =>
      reduceToolResolution s rid callId (ResolveCompleted res artifact dur)
  | ToolFailed callId error dur => reduceToolResolution s rid callId (ResolveFailed error dur)
  | RunCompleted messageId => reduceRunCompleted s rid messageId
  | RunFailed error code => reduceRunFailed s rid error code
  | RunCancelled reason => reduceRunCancelled s rid reason
  | RunSteered messageId text => reduceRunSteered s rid messageId text
  end.

(** ** The cursor *)

Definition eventSeq (e : RunEvent) : Z := seq (base e).

Definition applyAtCursor (s : ThreadSnapshot) (e : RunEvent) : ReduceRunEventResult :=
  applied ← applyEvent s e;
  Ok (withCursor applied (eventSeq e)
        (List.filter (λ p, negb (eventSeq p =? eventSeq e)%Z) (tsPendingEvents s))).

(** [sort((left, right) => left.seq - right.seq)] of a list whose prefix is
    sorted: a stable insertion sort. *)
Fixpoint insertBySeq (e : RunEvent) (es : list RunEvent) : list RunEvent :=
  match es with
  | [] => [e]
  | x :: es' => if (eventSeq e <? eventSeq x)%Z then e :: es else x :: insertBySeq e es'
  end.

Definition sortBySeq (es : list RunEvent) : list RunEvent :=
  foldl (λ acc e, insertBySeq e acc) [] es.

Definition withPending (s : ThreadSnapshot) (e : RunEvent) : ThreadSnapshot :=
  withCursor s (tsLastSeq s) (sortBySeq (tsPendingEvents s ++ [e])).

(** [current.pendingEvents.find(event => event.seq === current.lastSeq + 1)]. *)
Definition nextPending (s : ThreadSnapshot) : option RunEvent :=
  List.find (keyIs eventSeq (tsLastSeq s + 1)%Z) (tsPendingEvents s).

(** The [for (;;)] loop; an iteration removes the event it applied, so the
    buffer's length bounds the iterations ([drainPending_step]). *)
Fixpoint drainLoop (fuel : nat) (current : ThreadSnapshot) : ReduceRunEventResult :=
  match fuel with
  | O => Ok current
  | S fuel' =>
      match nextPending current with
      | None => Ok current
      | Some next => applied ← applyAtCursor current next; drainLoop fuel' applied
      end
  end.

Definition drainPending (s : ThreadSnapshot) : ReduceRunEventResult :=
  drainLoop (length (tsPendingEvents s)) s.

(** [reduceRunEvent] once the event has parsed. *)
Definition reduceParsed (s : ThreadSnapshot) (e : RunEvent) : ReduceRunEventResult :=
  if bool_decide (threadId (base e) ≠ tsThreadId s) then
    Err (ThreadMismatch (tsThreadId s) (threadId (base e)))
  else if (eventSeq e <=? tsLastSeq s)%Z then Ok s
  else if existsb (keyIs eventSeq (eventSeq e)) (tsPendingEvents s) then Ok s
  else if (tsLastSeq s + 1 <? eventSeq e)%Z then Ok (withPending s e)
  else applied ← applyAtCursor s e; drainPending applied.

Definition reduceRunEvent (s : ThreadSnapshot) (value : jsval) : ReduceRunEventResult :=
  match parseRunEvent value with
  | Err e => Err (ParseError e)
  | Ok e => reduceParsed s e
  end.

Fixpoint reduceRunEvents (s : ThreadSnapshot) (values : list jsval) : ReduceRunEventResult :=
  match values with
  | [] => Ok s
  | v :: vs => s' ← reduceRunEvent s v; reduceRunEvents s' vs
  end.
