(* ===== verification/EventOrder.v ===== *)
(** The order in which events arrive does not matter: the cursor, the pending
    buffer and the drain loop of [reduceRunEvent], related to an abstract
    specification that applies a set of events in the order of their [seq]. *)

From S2P Require Import Prelude JsText JsValue RunState Approvals RunEvents EventReducer.

(** ** Events read nothing of the cursor *)

Lemma withRun_cursor s n es r : withRun (withCursor s n es) r = withCursor (withRun s r) n es.
Proof. done. Qed.

Definition onCursor (n : Z) (es : list RunEvent) (r : ReduceRunEventResult) :
    ReduceRunEventResult := (λ t, withCursor t n es) <$> r.

Lemma asRunning_cursor s rid n es :
  asRunning (withCursor s n es) rid =
  (λ p, (withCursor p.1 n es, p.2)) <$> asRunning s rid.
Proof.
  unfold asRunning. change (findRun (withCursor s n es) rid) with (findRun s rid).
  destruct (findRun s rid); repeat case_match; done.
Qed.

Lemma asTerminal_cursor s rid st n es :
  asTerminal (withCursor s n es) rid st =
  (λ p, (withCursor p.1 n es, p.2)) <$> asTerminal s rid st.
Proof.
  unfold asTerminal. change (findRun (withCursor s n es) rid) with (findRun s rid).
  by case_match.
Qed.

Lemma completeRunMessages_cursor s rid mid n es :
  completeRunMessages (withCursor s n es) rid mid = onCursor n es (completeRunMessages s rid mid).
Proof.
  unfold completeRunMessages. destruct mid as [mid|]; [|done].
  change (findMessage (withCursor s n es) rid mid) with (findMessage s rid mid).
  by repeat case_match.
Qed.

Lemma applyEvent_cursor s e n es :
  applyEvent (withCursor s n es) e = onCursor n es (applyEvent s e).
Proof.
  unfold applyEvent. generalize (runId (base e)) as rid. intros rid.
  destruct (body e); unfold reduceRunStarted, reduceTokenDelta, reduceToolRequested,
    reduceApprovalRequested, reduceApprovalResolved, reduceToolResolution, reduceRunCompleted,
    reduceRunFailed, reduceRunCancelled, reduceRunSteered;
    rewrite ?asRunning_cursor, ?asTerminal_cursor;
    change (findRun (withCursor s n es) rid) with (findRun s rid);
    try (destruct (asRunning s rid) as [[s' run]|]; [|done]);
    try (destruct (asTerminal s rid _) as [[s' run]|]; [|done]);
    cbn [mbind result_bind fmap result_fmap fst snd];
    rewrite ?withRun_cursor, ?completeRunMessages_cursor; try done.
  - by case_match.
  - change (findMessage (withCursor s' n es)) with (findMessage s'). by repeat case_match.
  - by case_match.
  - by repeat case_match.
  - by repeat case_match.
  - by repeat case_match.
  - by repeat case_match.
  - change (findMessage (withCursor s' n es)) with (findMessage s'). by repeat case_match.
Qed.

Lemma withCursor_own s : withCursor s (tsLastSeq s) (tsPendingEvents s) = s.
Proof. by destruct s. Qed.

Lemma applyEvent_frame s e t :
  applyEvent s e = Ok t → tsLastSeq t = tsLastSeq s ∧ tsPendingEvents t = tsPendingEvents s.
Proof.
  intros H. pose proof (applyEvent_cursor s e (tsLastSeq s) (tsPendingEvents s)) as Hc.
  rewrite withCursor_own, H in Hc. unfold onCursor in Hc. cbn in Hc. injection Hc as Hc.
  rewrite Hc. done.
Qed.

Lemma applyEvent_thread s e t : applyEvent s e = Ok t → tsThreadId t = tsThreadId s.
Proof.
  assert (∀ s rid s' r, asRunning s rid = Ok (s', r) → tsThreadId s' = tsThreadId s) as Hr.
  { unfold asRunning. intros ???? H. by repeat case_match; simplify_eq. }
  assert (∀ s rid st s' r, asTerminal s rid st = Ok (s', r) → tsThreadId s' = tsThreadId s) as Ht.
  { unfold asTerminal. intros ????? H. by repeat case_match; simplify_eq. }
  assert (∀ s rid m t, completeRunMessages s rid m = Ok t → tsThreadId t = tsThreadId s) as Hc.
  { unfold completeRunMessages. intros ? ? [m|] ? H; [|by simplify_eq/=].
    repeat case_match; by simplify_eq/=. }
  unfold applyEvent. generalize (runId (base e)) as rid. intros rid.
  destruct (body e); unfold reduceRunStarted, reduceTokenDelta, reduceToolRequested,
    reduceApprovalRequested, reduceApprovalResolved, reduceToolResolution, reduceRunCompleted,
    reduceRunFailed, reduceRunCancelled, reduceRunSteered; intros H;
    try (destruct (asRunning s rid) as [[s' run]|] eqn:E; [apply Hr in E|done]);
    try (destruct (asTerminal s rid _) as [[s' run]|] eqn:E; [apply Ht in E|done]);
    cbn [mbind result_bind] in H; try (apply Hc in H; simpl in H; congruence);
    repeat case_match; by simplify_eq/=.
Qed.

(** ** The drain loop terminates by emptying the buffer *)

Lemma filter_length_lt {A} (p : A → bool) l x :
  x ∈ l → p x = false → (length (List.filter p l) < length l)%nat.
Proof.
  intros Hx Hp. induction l as [|y l IH]; [by apply elem_of_nil in Hx|].
  pose proof (List.filter_length_le p l). simpl.
  apply elem_of_cons in Hx as [->|Hx]; [rewrite Hp; lia|].
  apply IH in Hx. destruct (p y); simpl; lia.
Qed.

Lemma applyAtCursor_pending s e t :
  applyAtCursor s e = Ok t →
  ∃ s', applyEvent s e = Ok s' ∧
    t = withCursor s' (eventSeq e)
          (List.filter (λ p, negb (eventSeq p =? eventSeq e)%Z) (tsPendingEvents s)).
Proof.
  unfold applyAtCursor. intros H. destruct (applyEvent s e) as [s'|]; [|done].
  cbn [mbind result_bind] in H. injection H as <-. by exists s'.
Qed.

Lemma nextPending_some s e :
  nextPending s = Some e → e ∈ tsPendingEvents s ∧ eventSeq e = (tsLastSeq s + 1)%Z.
Proof. apply (lookupKey_some eventSeq). Qed.

Lemma applyAtCursor_shrinks s e t :
  nextPending s = Some e → applyAtCursor s e = Ok t →
  (length (tsPendingEvents t) < length (tsPendingEvents s))%nat.
Proof.
  intros [Hin _]%nextPending_some (s' & _ & ->)%applyAtCursor_pending. simpl.
  eapply filter_length_lt; [done|]. by rewrite Z.eqb_refl.
Qed.

Lemma nextPending_nil s : tsPendingEvents s = [] → nextPending s = None.
Proof. unfold nextPending. by intros ->. Qed.

Lemma drainLoop_fuel fuel s :
  (length (tsPendingEvents s) ≤ fuel)%nat → drainLoop fuel s = drainPending s.
Proof.
  unfold drainPending. remember (length (tsPendingEvents s)) as n eqn:Hn.
  revert fuel s Hn. induction (lt_wf n) as [n _ IH]. intros fuel s Hn Hle.
  destruct fuel as [|fuel].
  { assert (n = 0%nat) as -> by lia. done. }
  destruct n as [|n].
  { simpl. rewrite nextPending_nil; [done|]. by apply length_zero_iff_nil. }
  simpl. destruct (nextPending s) as [e|] eqn:He; [|done].
  destruct (applyAtCursor s e) as [t|] eqn:Ht; [|done]. cbn [mbind result_bind].
  pose proof (applyAtCursor_shrinks _ _ _ He Ht).
  rewrite (IH (length (tsPendingEvents t))) by lia.
  symmetry. apply (IH (length (tsPendingEvents t))); lia.
Qed.

(** ** Sorting *)

Definition seqLt (e e' : RunEvent) : Prop := (eventSeq e < eventSeq e')%Z.

Lemma insertBySeq_elem e x es : x ∈ insertBySeq e es ↔ x = e ∨ x ∈ es.
Proof.
  induction es as [|y es IH]; simpl.
  - by rewrite list_elem_of_singleton, elem_of_nil; tauto.
  - case_match; rewrite !elem_of_cons; [tauto|]. rewrite IH. tauto.
Qed.

Lemma insertBySeq_sorted e es :
  StronglySorted seqLt es → (∀ x, x ∈ es → eventSeq x ≠ eventSeq e) →
  StronglySorted seqLt (insertBySeq e es).
Proof.
  induction 1 as [|y es Hes IH Hy]; intros Hne; simpl; [by repeat constructor|].
  case_match eqn:E; bools.
  - constructor; [by constructor|]. constructor; [done|].
    eapply Forall_impl; [done|]. unfold seqLt. intros; lia.
  - constructor; [apply IH; intros x Hx; apply Hne; by right|].
    apply Forall_forall. intros x [->|Hx]%insertBySeq_elem.
    + assert (eventSeq y ≠ eventSeq e) by (apply Hne; by left). unfold seqLt. lia.
    + by eapply Forall_forall in Hy.
Qed.

Lemma sortBySeq_snoc es e : sortBySeq (es ++ [e]) = insertBySeq e (sortBySeq es).
Proof. unfold sortBySeq. by rewrite foldl_app. Qed.

(** Sorting an already sorted buffer changes nothing. *)
Lemma insertBySeq_last e es :
  (∀ x, x ∈ es → seqLt x e) → insertBySeq e es = es ++ [e].
Proof.
  induction es as [|y es IH]; intros H; simpl; [done|].
  assert (seqLt y e) as Hy by (apply H; by left). unfold seqLt in Hy.
  destruct (eventSeq e <? eventSeq y)%Z eqn:E; bools; [lia|]. f_equal. apply IH.
  intros x Hx. apply H. by right.
Qed.

Lemma StronglySorted_snoc_inv es e :
  StronglySorted seqLt (es ++ [e]) → StronglySorted seqLt es ∧ ∀ x, x ∈ es → seqLt x e.
Proof.
  induction es as [|y es IH]; intros H; simpl in *.
  - split; [constructor|]. intros x Hx. by apply elem_of_nil in Hx.
  - inversion H as [|? ? Hs Hf]; subst. apply IH in Hs as [Hs Hl].
    apply Forall_app in Hf as [Hf1 Hf2]. split; [by constructor|].
    intros x [->|Hx]%elem_of_cons; [|by apply Hl]. by rewrite Forall_singleton in Hf2.
Qed.

Lemma sortBySeq_sorted_id es : StronglySorted seqLt es → sortBySeq es = es.
Proof.
  induction es as [|e es IH] using rev_ind; [done|]. intros [Hs Hl]%StronglySorted_snoc_inv.
  rewrite sortBySeq_snoc, IH by done. by apply insertBySeq_last.
Qed.

Lemma StronglySorted_filter p es :
  StronglySorted seqLt es → StronglySorted seqLt (List.filter p es).
Proof.
  induction 1 as [|e es Hes IH He]; simpl; [constructor|]. destruct (p e); [|done].
  constructor; [done|]. apply Forall_forall. intros x Hx.
  apply list_elem_of_In, List.filter_In in Hx as [Hx _]. apply list_elem_of_In in Hx.
  by eapply Forall_forall in He.
Qed.

Lemma StronglySorted_unique es es' :
  StronglySorted seqLt es → StronglySorted seqLt es' → (∀ e, e ∈ es ↔ e ∈ es') → es = es'.
Proof.
  intros H. revert es'. induction H as [|e es Hes IH He]; intros es' H' Hiff.
  - destruct es' as [|e' es']; [done|]. exfalso. apply (not_elem_of_nil e'), Hiff. by left.
  - inversion H' as [|e' es'' Hes' He']; subst.
    { exfalso. apply (not_elem_of_nil e), Hiff. by left. }
    assert (e' = e) as ->.
    { assert (e ∈ e' :: es'') as [?|H1]%elem_of_cons by (apply Hiff; by left); [done|].
      assert (e' ∈ e :: es) as [?|H2]%elem_of_cons by (apply Hiff; by left); [done|].
      eapply Forall_forall in H1; [|done]. eapply Forall_forall in H2; [|done].
      unfold seqLt in *. lia. }
    f_equal. apply IH; [done|]. intros x. specialize (Hiff x). rewrite !elem_of_cons in Hiff.
    split; intros Hx.
    + destruct Hiff as [[->|?] _]; [by right| |done].
      eapply Forall_forall in Hx; [|done]. unfold seqLt in Hx. lia.
    + destruct Hiff as [_ [->|?]]; [by right| |done].
      eapply Forall_forall in Hx; [|done]. unfold seqLt in Hx. lia.
Qed.

(** ** The specification: apply a set of events in [seq] order *)

(** A set of events, at most one per position. *)
Definition functional (P : RunEvent → Prop) : Prop :=
  ∀ e e', P e → P e' → eventSeq e = eventSeq e' → e = e'.

(** [settles P s r]: from [s], applying the events of [P] at the cursor, one
    position after the other until a gap or a failure, ends in [r]. *)
Inductive settles (P : RunEvent → Prop) : ThreadSnapshot → ReduceRunEventResult → Prop :=
| settle_gap s :
    (∀ e, P e → eventSeq e ≠ tsLastSeq s + 1)%Z → settles P s (Ok s)
| settle_fail s e x :
    P e → eventSeq e = (tsLastSeq s + 1)%Z → applyEvent s e = Err x → settles P s (Err x)
| settle_step s e t r :
    P e → eventSeq e = (tsLastSeq s + 1)%Z → applyEvent s e = Ok t →
    settles P (withCursor t (eventSeq e) []) r → settles P s r.

(** The buffer beyond the cursor: the events of [P] past [n], ascending. *)
Definition buffered (P : RunEvent → Prop) (n : Z) (es : list RunEvent) : Prop :=
  StronglySorted seqLt es ∧ ∀ e, e ∈ es ↔ P e ∧ (n < eventSeq e)%Z.

(** What a fold over the events of [P] must return: the settled snapshot with
    the rest of [P] buffered, or the failure. *)
Inductive represents (P : RunEvent → Prop) (s : ThreadSnapshot) : ReduceRunEventResult → Prop :=
| represents_ok c es :
    settles P s (Ok c) → buffered P (tsLastSeq c) es →
    represents P s (Ok (withCursor c (tsLastSeq c) es))
| represents_err x : settles P s (Err x) → represents P s (Err x).

Definition insertEvent (P : RunEvent → Prop) (e : RunEvent) : RunEvent → Prop :=
  λ x, x = e ∨ P x.

Lemma settles_ext P Q s r : (∀ e, P e ↔ Q e) → settles P s r → settles Q s r.
Proof.
  intros HPQ. induction 1 as [s H|s e x|s e t r].
  - apply settle_gap. intros e He. apply H. by apply HPQ.
  - eapply settle_fail; [by apply HPQ|done..].
  - eapply settle_step; [by apply HPQ|done..].
Qed.

Lemma settles_det P s r r' : functional P → settles P s r → settles P s r' → r = r'.
Proof.
  intros HP H. revert r'. induction H as [s H|s e x He Hs Ha|s e t r He Hs Ha H IH]; intros r' H'.
  - inversion H'; subst; [done|naive_solver..].
  - inversion H' as [? Hg|? e' x' He' Hs' Ha'|? e' t' ? He' Hs' Ha' Hr]; subst.
    + by apply Hg in He.
    + assert (e' = e) as -> by (apply HP; [done..|congruence]). congruence.
    + assert (e' = e) as -> by (apply HP; [done..|congruence]). congruence.
  - inversion H' as [? Hg|? e' x' He' Hs' Ha'|? e' t' ? He' Hs' Ha' Hr]; subst.
    + by apply Hg in He.
    + assert (e' = e) as -> by (apply HP; [done..|congruence]). congruence.
    + assert (e' = e) as -> by (apply HP; [done..|congruence]).
      assert (t' = t) as -> by congruence. by apply IH.
Qed.

(** A failure is not cured by more events; a settled state is only moved on by
    the event its cursor waits for. *)
Lemma settles_err_mono P Q s x :
  (∀ e, P e → Q e) → settles P s (Err x) → settles Q s (Err x).
Proof.
  intros HPQ H. remember (Err x) as r eqn:Hr. induction H; simplify_eq.
  - eapply settle_fail; [by apply HPQ|done..].
  - eapply settle_step; [by apply HPQ|done..|auto].
Qed.

Lemma settles_continue P e s c r :
  functional (insertEvent P e) →
  settles P s (Ok c) → settles (insertEvent P e) c r → settles (insertEvent P e) s r.
Proof.
  intros HP H. remember (Ok c) as rc eqn:Hr. induction H; simplify_eq; [done|].
  intros Hc. eapply settle_step; [by right|done..|auto].
Qed.

Lemma settles_stays P e s c :
  settles P s (Ok c) → functional (insertEvent P e) →
  eventSeq e ≠ (tsLastSeq c + 1)%Z → settles (insertEvent P e) s (Ok c).
Proof.
  intros H HP Hne. eapply settles_continue; [done..|]. apply settle_gap.
  remember (Ok c) as rc eqn:Hr. induction H as [s H| |]; simplify_eq; [|auto].
  intros x [->|Hx]; [done|auto].
Qed.

Lemma settled_gap P s c : settles P s (Ok c) → ∀ e, P e → (eventSeq e ≠ tsLastSeq c + 1)%Z.
Proof. intros H. remember (Ok c) as r eqn:Hr. induction H; simplify_eq; auto. Qed.

Lemma settles_thread P s c : settles P s (Ok c) → tsThreadId c = tsThreadId s.
Proof.
  intros H. remember (Ok c) as r eqn:Hr. induction H; simplify_eq; [done|].
  rewrite (IHsettles eq_refl). simpl. by eapply applyEvent_thread.
Qed.

Lemma settles_pending P s c :
  settles P s (Ok c) → tsPendingEvents s = [] → tsPendingEvents c = [].
Proof. intros H. remember (Ok c) as r eqn:Hr. induction H; simplify_eq; auto. Qed.

Lemma buffered_unique P n es es' : buffered P n es → buffered P n es' → es = es'.
Proof.
  intros [Hs H] [Hs' H']. apply StronglySorted_unique; [done..|].
  intros e. by rewrite H, H'.
Qed.

Lemma buffered_ext P Q n es : (∀ e, P e ↔ Q e) → buffered P n es → buffered Q n es.
Proof. intros HPQ [Hs H]. split; [done|]. intros e. by rewrite H, HPQ. Qed.

Lemma represents_ext P Q s r : (∀ e, P e ↔ Q e) → represents P s r → represents Q s r.
Proof.
  intros HPQ [c es Hc Hb|x Hx].
  - constructor; [by eapply settles_ext|by eapply buffered_ext].
  - constructor. by eapply settles_ext.
Qed.

Lemma represents_det P s r r' : functional P → represents P s r → represents P s r' → r = r'.
Proof.
  intros HP [c es Hc Hb|x Hx] [c' es' Hc' Hb'|x' Hx'];
    pose proof (settles_det P s) as Hdet.
  - assert (c' = c) as -> by (eapply (Hdet (Ok c') (Ok c)) in HP; [congruence|done..]).
    by rewrite (buffered_unique _ _ _ _ Hb Hb').
  - by eapply (Hdet (Ok c) (Err x')) in HP.
  - by eapply (Hdet (Err x) (Ok c')) in HP.
  - by eapply (Hdet (Err x) (Err x')) in HP.
Qed.

(** ** The implementation meets the specification *)

Lemma represents_step P s e t r :
  P e → eventSeq e = (tsLastSeq s + 1)%Z → applyEvent s e = Ok t →
  represents P (withCursor t (eventSeq e) []) r → represents P s r.
Proof.
  intros He Hs Ha [c es Hc Hb|x Hx]; constructor; try done; eapply (settle_step _ _ _ _ _ He Hs Ha); done.
Qed.

Lemma represents_continue P e s c r :
  functional (insertEvent P e) → settles P s (Ok c) →
  represents (insertEvent P e) c r → represents (insertEvent P e) s r.
Proof.
  intros HP Hc [c' es Hc' Hb|x Hx]; constructor; try done; by eapply settles_continue.
Qed.

Lemma applyAtCursor_cursor c n es e :
  applyAtCursor (withCursor c n es) e =
  (λ t, withCursor t (eventSeq e) (List.filter (λ p, negb (eventSeq p =? eventSeq e)%Z) es))
    <$> applyEvent c e.
Proof. unfold applyAtCursor. rewrite applyEvent_cursor. by destruct (applyEvent c e). Qed.

Lemma buffered_advance P n es :
  buffered P n es →
  buffered P (n + 1) (List.filter (λ p, negb (eventSeq p =? n + 1)%Z) es).
Proof.
  intros [Hs H]. split; [by apply StronglySorted_filter|]. intros e.
  rewrite list_elem_of_In, List.filter_In, <- list_elem_of_In, H, negb_true_iff, Z.eqb_neq.
  split; [intros [[??]?]|intros [??]]; split_and!; try done; lia.
Qed.

Lemma nextPending_buffered P c es :
  buffered P (tsLastSeq c) es →
  match nextPending (withCursor c (tsLastSeq c) es) with
  | Some e => P e ∧ eventSeq e = (tsLastSeq c + 1)%Z
  | None => ∀ e, P e → (eventSeq e ≠ tsLastSeq c + 1)%Z
  end.
Proof.
  intros [_ H]. destruct (nextPending _) as [e|] eqn:E.
  - apply nextPending_some in E as [Hin He]. by apply H in Hin as [? _].
  - intros e He Hs. apply (lookupKey_none eventSeq) in E. apply E.
    apply list_elem_of_fmap. exists e. split; [by simpl|]. apply H. split; [done|lia].
Qed.

Lemma drainLoop_represents P fuel c es :
  tsPendingEvents c = [] → buffered P (tsLastSeq c) es → (length es ≤ fuel)%nat →
  represents P c (drainLoop fuel (withCursor c (tsLastSeq c) es)).
Proof.
  revert c es. induction fuel as [|fuel IH]; intros c es Hc Hb Hlen;
    pose proof (nextPending_buffered P c es Hb) as Hn; simpl.
  - constructor; [|done]. apply settle_gap. destruct es; [exact Hn|simpl in Hlen; lia].
  - destruct (nextPending _) as [e|] eqn:E; [|constructor; [by apply settle_gap|done]].
    pose proof (nextPending_some _ _ E) as [Hin _]. simpl in Hin. destruct Hn as [He Hs].
    rewrite applyAtCursor_cursor. destruct (applyEvent c e) as [t|x] eqn:Ha;
      [|by constructor; eapply settle_fail].
    cbn [fmap result_fmap mbind result_bind]. eapply represents_step; [done..|].
    apply (IH (withCursor t (eventSeq e) [])); [done| |].
    + simpl. rewrite Hs. by apply buffered_advance.
    + enough (length (List.filter (λ p, negb (eventSeq p =? eventSeq e)%Z) es) < length es)%nat
        by lia.
      eapply filter_length_lt; [done|]. by rewrite Z.eqb_refl.
Qed.

Lemma buffered_insert P n es e :
  functional (insertEvent P e) → buffered P n es → (n < eventSeq e)%Z →
  (∀ x, x ∈ es → eventSeq x ≠ eventSeq e) →
  buffered (insertEvent P e) n (sortBySeq (es ++ [e])).
Proof.
  intros HP [Hs H] Hn Hne. rewrite sortBySeq_snoc, sortBySeq_sorted_id by done. split.
  - by apply insertBySeq_sorted.
  - intros x. rewrite insertBySeq_elem, H. unfold insertEvent. split; [|naive_solver].
    intros [->|[??]]; auto.
Qed.

Lemma buffered_same P n es e :
  buffered P n es → (eventSeq e ≤ n)%Z → buffered (insertEvent P e) n es.
Proof.
  intros [Hs H] Hn. split; [done|]. intros x. rewrite H. unfold insertEvent.
  split; [tauto|]. intros [[->|?] ?]; [lia|done].
Qed.

Lemma reduceParsed_represents P s t e :
  functional (insertEvent P e) → tsPendingEvents s = [] →
  threadId (base e) = tsThreadId s → represents P s (Ok t) →
  represents (insertEvent P e) s (reduceParsed t e).
Proof.
  intros HP Hs Hth H. inversion H as [c es Hc Hb|]; subst.
  pose proof (settles_pending _ _ _ Hc Hs) as Hcp.
  unfold reduceParsed. cbn [tsThreadId tsLastSeq tsPendingEvents withCursor].
  rewrite (settles_thread _ _ _ Hc), bool_decide_false by tauto.
  destruct (eventSeq e <=? tsLastSeq c)%Z eqn:E1; bools.
  { constructor; [|by apply buffered_same]. apply settles_stays; [done..|lia]. }
  destruct (existsb _ es) eqn:E2.
  { apply existsb_true in E2 as (p & Hp & Hk). unfold keyIs in Hk. bools.
    apply Hb in Hp as [Hp _]. assert (p = e) as -> by (apply HP; [by right|by left|done]).
    apply (represents_ext P); [|done]. unfold insertEvent. naive_solver. }
  assert (∀ x, x ∈ es → eventSeq x ≠ eventSeq e) as Hne.
  { intros x Hx Heq. pose proof (proj1 (existsb_false _ _) E2 x Hx) as Hk. unfold keyIs in Hk. by bools. }
  destruct (tsLastSeq c + 1 <? eventSeq e)%Z eqn:E3; bools.
  { unfold withPending. cbn [tsLastSeq tsPendingEvents withCursor].
    apply (represents_ok _ _ c).
    - apply settles_stays; [done..|lia].
    - apply buffered_insert; [done..|lia|done]. }
  assert (eventSeq e = tsLastSeq c + 1)%Z as Heq by lia.
  eapply represents_continue; [done..|].
  rewrite applyAtCursor_cursor. destruct (applyEvent c e) as [t|x] eqn:Ha.
  2:{ constructor. eapply settle_fail; [by left|done..]. }
  cbn [fmap result_fmap mbind result_bind]. eapply represents_step; [by left|done..|].
  unfold drainPending. eapply (drainLoop_represents _ _ (withCursor t (eventSeq e) [])); [done| |done].
  simpl. rewrite Heq. destruct (buffered_advance _ _ _ Hb) as [Hs1 Hb1]. split; [done|].
  intros x. rewrite Hb1. unfold insertEvent. split; [tauto|]. intros [[->|?] ?]; [lia|done].
Qed.

(** The events a list of wire values carries. *)
Definition eventsOf (vs : list jsval) (e : RunEvent) : Prop :=
  ∃ v, v ∈ vs ∧ parseRunEvent v = Ok e.

(** Every value is an event of the thread. *)
Definition addressed (threadId' : jstr) (vs : list jsval) : Prop :=
  ∀ v, v ∈ vs → ∃ e, parseRunEvent v = Ok e ∧ threadId (base e) = threadId'.

Lemma eventsOf_cons v vs e x :
  parseRunEvent v = Ok e → eventsOf (v :: vs) x ↔ x = e ∨ eventsOf vs x.
Proof.
  intros Hv. unfold eventsOf. setoid_rewrite elem_of_cons. split.
  - intros (w & [->|Hw] & Hx); [left; congruence|right; eauto].
  - intros [->|(w & Hw & Hx)]; eauto.
Qed.

Lemma fold_represents_from P s t vs :
  functional (λ e, P e ∨ eventsOf vs e) → tsPendingEvents s = [] →
  addressed (tsThreadId s) vs → represents P s (Ok t) →
  represents (λ e, P e ∨ eventsOf vs e) s (reduceRunEvents t vs).
Proof.
  revert P t. induction vs as [|v vs IH]; intros P t HP Hs Had Ht; simpl.
  { eapply represents_ext; [|done]. intros e. split; [by left|].
    intros [?|(v & Hv & _)]; [done|by apply elem_of_nil in Hv]. }
  destruct (Had v) as (e & Hv & He); [by left|].
  assert (∀ x, insertEvent P e x ∨ eventsOf vs x ↔ P x ∨ eventsOf (v :: vs) x) as Hext.
  { intros x. rewrite (eventsOf_cons v vs e x Hv). unfold insertEvent. tauto. }
  assert (functional (λ x, insertEvent P e x ∨ eventsOf vs x)) as HP'.
  { intros x y Hx%Hext Hy%Hext. by apply HP. }
  assert (functional (insertEvent P e)) as HPe by (intros x y Hx Hy; apply HP'; by left).
  pose proof (reduceParsed_represents P s t e HPe Hs He Ht) as Hr.
  unfold reduceRunEvent. rewrite Hv.
  destruct (reduceParsed t e) as [t'|x] eqn:E; cbn [mbind result_bind].
  - eapply represents_ext; [exact Hext|]. apply IH; [done..| |done].
    intros w Hw. apply Had. by right.
  - inversion Hr as [|? Hx]; subst. constructor. eapply settles_err_mono; [|exact Hx].
    intros y Hy. apply Hext. by left.
Qed.

Lemma represents_start s : tsPendingEvents s = [] → represents (λ _, False) s (Ok s).
Proof.
  intros Hs. rewrite <- (withCursor_own s) at 2. rewrite Hs.
  apply represents_ok; [by apply settle_gap|]. split; [constructor|].
  intros e. split; [by intros ?%elem_of_nil|tauto].
Qed.

(** ** Properties *)

(** The drain loop is the source's [for (;;)]: it stops exactly when no buffered
    event sits at the cursor, so the iteration bound is never what ends it. *)
Theorem drainPending_step s :
  drainPending s =
  match nextPending s with
  | None => Ok s
  | Some next => applied ← applyAtCursor s next; drainPending applied
  end.
Proof.
  rewrite <- (drainLoop_fuel (S (length (tsPendingEvents s))) s) by lia. simpl.
  destruct (nextPending s) as [e|] eqn:He; [|done].
  destruct (applyAtCursor s e) as [t|] eqn:Ht; [|done]. cbn [mbind result_bind].
  pose proof (applyAtCursor_shrinks _ _ _ He Ht). apply drainLoop_fuel. lia.
Qed.

Lemma fold_represents s vs :
  tsPendingEvents s = [] → addressed (tsThreadId s) vs → functional (eventsOf vs) →
  represents (eventsOf vs) s (reduceRunEvents s vs).
Proof.
  intros Hs Had Hf. eapply represents_ext; [|apply (fold_represents_from (λ _, False))];
    [tauto| |done..|by apply represents_start].
  intros e e' [[]|?] [[]|?]. by apply Hf.
Qed.

(** C2. Refinement: folding wire events through the cursor, the buffer and the drain
    loop returns what the abstract specification does with their set — the
    events applied in [seq] order up to the first gap, the rest buffered in
    order, or the first failure in [seq] order. *)
Theorem reduceRunEvents_refines s vs :
  tsPendingEvents s = [] → addressed (tsThreadId s) vs → functional (eventsOf vs) →
  represents (eventsOf vs) s (reduceRunEvents s vs).
Proof. apply fold_represents. Qed.

(** C16. The fold is a function of the set of events: whatever order they arrive in
    and however often one is replayed, the result — snapshot or error — is the
    same. *)
Theorem reduceRunEvents_order_independent s vs vs' :
  tsPendingEvents s = [] → addressed (tsThreadId s) vs → functional (eventsOf vs) →
  (∀ v, v ∈ vs ↔ v ∈ vs') →
  reduceRunEvents s vs = reduceRunEvents s vs'.
Proof.
  intros Hs Had Hf Hvs.
  assert (∀ e, eventsOf vs' e ↔ eventsOf vs e) as Hev.
  { intros e. unfold eventsOf. by setoid_rewrite Hvs. }
  apply (represents_det (eventsOf vs) s); [done|by apply fold_represents|].
  eapply represents_ext; [exact Hev|]. apply fold_represents; [done| |].
  - intros v Hv%Hvs. by apply Had.
  - intros e e' He%Hev He'%Hev. by apply Hf.
Qed.

(** ** Witnesses *)

Lemma eventsOf_objects es :
  Forall (λ e, wfEvent e = true) es → ∀ e, eventsOf (eventObject <$> es) e ↔ e ∈ es.
Proof.
  intros Hes e. unfold eventsOf. split.
  - intros (v & (e' & -> & He')%list_elem_of_fmap & Hp).
    rewrite parseRunEvent_object in Hp; [congruence|]. by eapply Forall_forall in Hes.
  - intros He. exists (eventObject e). split; [by apply list_elem_of_fmap_2|].
    apply parseRunEvent_object. by eapply Forall_forall in Hes.
Qed.

Lemma functional_nodup es :
  Forall (λ e, wfEvent e = true) es → NoDup (eventSeq <$> es) →
  functional (eventsOf (eventObject <$> es)).
Proof.
  intros Hes Hnd e e' He He' Hs. rewrite eventsOf_objects in He, He' by done.
  assert (lookupKey eventSeq (eventSeq e') es = Some e) as E1 by (by apply lookupKey_elem).
  assert (lookupKey eventSeq (eventSeq e') es = Some e') as E2 by (by apply lookupKey_elem).
  congruence.
Qed.

Lemma addressed_objects t es :
  Forall (λ e, wfEvent e = true ∧ threadId (base e) = t) es →
  addressed t (eventObject <$> es).
Proof.
  intros Hes v (e & -> & He)%list_elem_of_fmap. exists e.
  eapply Forall_forall in Hes as [Hw Ht]; [|done]. by rewrite parseRunEvent_object.
Qed.

Definition streamEvent (n : Z) (b : RunEventBody) : RunEvent :=
  {| base := {| seq := n; threadId := u "thread-1"; runId := u "run-1" |}; body := b |}.

Definition orderedStream : list RunEvent :=
  [ streamEvent 1 RunStarted; streamEvent 2 (TokenDelta (u "m") (u "Hello"));
    streamEvent 3 (TokenDelta (u "m") (u " world")); streamEvent 5 (RunCompleted None) ].

(** The same events late, shuffled and replayed. *)
Definition shuffledStream : list RunEvent :=
  [ streamEvent 5 (RunCompleted None); streamEvent 3 (TokenDelta (u "m") (u " world"));
    streamEvent 1 RunStarted; streamEvent 3 (TokenDelta (u "m") (u " world"));
    streamEvent 2 (TokenDelta (u "m") (u "Hello")); streamEvent 1 RunStarted ].

Definition freshThread : ThreadSnapshot :=
  {| tsThreadId := u "thread-1"; tsRuns := []; tsMessages := []; tsLastSeq := 0;
     tsPendingEvents := [] |}.

Lemma orderedStream_wf :
  Forall (λ e, wfEvent e = true ∧ threadId (base e) = u "thread-1") orderedStream.
Proof. repeat constructor. Qed.

Lemma orderedStream_functional : functional (eventsOf (eventObject <$> orderedStream)).
Proof. apply functional_nodup; [repeat constructor|compute_done]. Qed.

Lemma reduceRunEvents_refines_witness :
  represents (eventsOf (eventObject <$> orderedStream)) freshThread
    (reduceRunEvents freshThread (eventObject <$> orderedStream)).
Proof.
  apply (reduceRunEvents_refines freshThread (eventObject <$> orderedStream)).
  - reflexivity.
  - apply addressed_objects, orderedStream_wf.
  - apply orderedStream_functional.
Defined.

Lemma streams_same v :
  v ∈ eventObject <$> orderedStream ↔ v ∈ eventObject <$> shuffledStream.
Proof.
  rewrite !list_elem_of_fmap. split; intros (e & -> & He); exists e; (split; [done|]);
    revert e He; apply Forall_forall; repeat (apply Forall_cons; split; [set_solver|]);
    apply Forall_nil_2.
Qed.

Lemma reduceRunEvents_order_independent_witness :
  is_ok (reduceRunEvents freshThread (eventObject <$> orderedStream)) = true ∧
  reduceRunEvents freshThread (eventObject <$> orderedStream) =
  reduceRunEvents freshThread (eventObject <$> shuffledStream).
Proof.
  split; [vm_compute; reflexivity|].
  apply (reduceRunEvents_order_independent freshThread).
  - reflexivity.
  - apply addressed_objects, orderedStream_wf.
  - apply orderedStream_functional.
  - apply streams_same.
Defined.
