(* ===== verification/EventInvariants.v ===== *)
(** What one folded event may do to a snapshot: it touches its own run only,
    moves it along the run state machine, keeps identities unique and keeps the
    approval gate. *)

From S2P Require Import Prelude JsText JsValue RunState Approvals RunEvents EventReducer EventOrder.

(** ** The run machine, labelled by the events that drive it *)

(** The statuses of a run that has not ended. *)
Definition unfinished (st : RunStatus) : Prop :=
  st = queued ∨ st = running ∨ st = waiting_approval.

(** What an agent at work reports, and what answers one of its calls. *)
Definition isWork (b : RunEventBody) : Prop :=
  match b with TokenDelta _ _ | ToolRequested _ _ _ | RunSteered _ _ => True | _ => False end.

Definition isResolution (b : RunEventBody) : Prop :=
  match b with
  | ApprovalResolved _ _ _ | ToolCompleted _ _ _ _ | ToolFailed _ _ _ => True
  | _ => False
  end.

(** [event_move b st st']: the event [b] of a run may take it from [st] to [st'].
    Only a running run completes; a run fails or is cancelled from any status
    that has not ended; work starts or resumes a run, or leaves it parked behind
    a gate; an answer resumes a parked run or changes nothing. *)
Inductive event_move : RunEventBody → relation RunStatus :=
| move_start st : st = queued ∨ st = waiting_approval → event_move RunStarted st running
| move_work b st : isWork b → unfinished st → event_move b st running
| move_parked b : isWork b → event_move b waiting_approval waiting_approval
| move_gate c ex st : unfinished st → event_move (ApprovalRequested c ex) st waiting_approval
| move_resume c d rs : event_move (ApprovalResolved c d rs) waiting_approval running
| move_keep b st : isResolution b → event_move b st st
| move_complete mid : event_move (RunCompleted mid) running completed
| move_fail er co st : unfinished st → event_move (RunFailed er co) st failed
| move_cancel rs st : unfinished st → event_move (RunCancelled rs) st cancelled.

Fixpoint event_path (bs : list RunEventBody) (st st' : RunStatus) : Prop :=
  match bs with
  | [] => st' = st
  | b :: bs => ∃ mid, event_move b st mid ∧ event_path bs mid st'
  end.

(** The events of [es] that the run [rid] emitted, in order. *)
Definition eventsOf (rid : jstr) (es : list RunEvent) : list RunEventBody :=
  body <$> List.filter (λ e, bool_decide (runId (base e) = rid)) es.

(** The status a snapshot gives a run; a run it has not seen is about to start. *)
Definition runStatus (s : ThreadSnapshot) (rid : jstr) : RunStatus :=
  rsStatus (runOrNew (findRun s rid) rid).

(** [t] is [s] after the events [es], which sit one per position after the
    cursor: every run moved through its own events among them. *)
Record movesThrough (s : ThreadSnapshot) (es : list RunEvent) (t : ThreadSnapshot) : Prop := {
  mt_positions : eventSeq <$> es = seqZ (tsLastSeq s + 1) (Z.of_nat (length es));
  mt_cursor : tsLastSeq t = (tsLastSeq s + Z.of_nat (length es))%Z;
  mt_status : ∀ rid, event_path (eventsOf rid es) (runStatus s rid) (runStatus t rid) }.

(** ** How one run may evolve *)

(** A run parked in [waiting_approval] has a gate an operator can still answer. *)
Definition gated (r : RunSnapshot) : Prop :=
  rsStatus r = waiting_approval → hasPendingApproval r = true.

(** Tool-call identities are unique within a run, and the run is gated. *)
Definition runOk (r : RunSnapshot) : Prop :=
  NoDup (tcCallId <$> rsToolCalls r) ∧ gated r.

Record evolves (r r' : RunSnapshot) : Prop := {
  ev_id : rsRunId r' = rsRunId r;
  ev_status : rtc run_step (rsStatus r) (rsStatus r');
  ev_ok : runOk r → runOk r' }.

(** [t] differs from [s] at most in the run [rid], which is [r'] there. *)
Record touches (s : ThreadSnapshot) (rid : jstr) (r' : RunSnapshot) (t : ThreadSnapshot) :
    Prop := {
  touch_run : findRun t rid = Some r';
  touch_other : ∀ rid', rid' ≠ rid → findRun t rid' = findRun s rid';
  touch_unique : NoDup (rsRunId <$> tsRuns s) → NoDup (rsRunId <$> tsRuns t) }.

(** The messages of a snapshot: those of other runs stay, an identity is never
    doubled, a text is only ever extended and a role never changes. *)
Definition extends (m m' : MessageSnapshot) : Prop :=
  msgKey m' = msgKey m ∧ msgRole m' = msgRole m ∧ msgText m `prefix_of` msgText m' ∧
  (msgComplete m = true → msgComplete m' = true).

Record transcribes (s : ThreadSnapshot) (rid : jstr) (t : ThreadSnapshot) : Prop := {
  tr_other : ∀ rid' mid, rid' ≠ rid → findMessage t rid' mid = findMessage s rid' mid;
  tr_own : ∀ mid m, findMessage s rid mid = Some m →
    ∃ m', findMessage t rid mid = Some m' ∧ extends m m';
  tr_unique : NoDup (msgKey <$> tsMessages s) → NoDup (msgKey <$> tsMessages t) }.

(** ** Lemmas: evolution *)

#[export] Instance evolves_preorder : PreOrder evolves.
Proof.
  split.
  - intros r. by split.
  - intros r1 r2 r3 [] []. split; [congruence|by etrans|auto].
Qed.

#[export] Instance extends_preorder : PreOrder extends.
Proof.
  split.
  - intros m. by split_and!.
  - intros m1 m2 m3 (H1&H2&H3&H4) (H5&H6&H7&H8).
    split; [congruence|]. split; [congruence|]. split; [by etrans|auto].
Qed.

Lemma findRun_id s rid r : findRun s rid = Some r → rsRunId r = rid.
Proof. intros H. by apply (lookupKey_some rsRunId) in H as [_ ?]. Qed.

Lemma runOrNew_id s rid : rsRunId (runOrNew (findRun s rid) rid) = rid.
Proof. destruct (findRun s rid) eqn:E; [|done]. by apply findRun_id in E. Qed.

Lemma findRun_withRun s r rid :
  findRun (withRun s r) rid = if decide (rid = rsRunId r) then Some r else findRun s rid.
Proof. by apply (lookupKey_upsert rsRunId). Qed.

Lemma findMessage_withMessage s m rid mid :
  findMessage (withMessage s m) rid mid =
  if decide ((rid, mid) = msgKey m) then Some m else findMessage s rid mid.
Proof. by apply (lookupKey_upsert msgKey). Qed.

Lemma touches_refl s rid r : findRun s rid = Some r → touches s rid r s.
Proof. by split. Qed.

Lemma touches_withRun s rid r' : rsRunId r' = rid → touches s rid r' (withRun s r').
Proof.
  intros Hid. split.
  - rewrite findRun_withRun. by rewrite decide_True.
  - intros rid' Hne. rewrite findRun_withRun. rewrite decide_False; [done|congruence].
  - intros Hnd. by apply (NoDup_upsert rsRunId).
Qed.

Lemma touches_trans s t w rid r r' :
  touches s rid r t → touches t rid r' w → touches s rid r' w.
Proof. intros [] []. split; [done| |auto]. intros rid' H. by rewrite touch_other1, touch_other0. Qed.

Lemma touches_messages s t rid r ms : touches s rid r t → touches s rid r (withMessages t ms).
Proof. by intros []. Qed.

Lemma evolves_status r st :
  run_step (rsStatus r) st → st ≠ waiting_approval → evolves r (withStatus r st).
Proof.
  intros H Hst. split; simpl; [done|by apply rtc_once|].
  intros [Hnd _]. split; [done|]. intros Hw. simpl in Hw. done.
Qed.

Lemma asRunning_ok s rid s' run :
  asRunning s rid = Ok (s', run) →
  touches s rid run s' ∧ evolves (runOrNew (findRun s rid) rid) run ∧ rsRunId run = rid ∧
  (rsStatus run = running ∨ rsStatus run = waiting_approval ∧ hasPendingApproval run = true) ∧
  tsMessages s' = tsMessages s.
Proof.
  unfold asRunning. intros H. pose proof (runOrNew_id s rid) as Hid.
  case_bool_decide as Hr; [|case_match eqn:Hp; [|case_match eqn:Ht]]; simplify_eq.
  - destruct (findRun _ rid) as [r|] eqn:E; simpl in *; simplify_eq.
    split_and!; first [done | by left | by apply touches_refl].
  - bools. destruct (findRun _ rid) as [r|] eqn:E; simpl in *; [|done].
    split_and!; first [done | by right | by apply touches_refl].
  - apply transition_ok in Ht as [-> Ht].
    split_and!; try first [done | by left | by apply touches_withRun].
    apply evolves_status; [by apply run_step_elem|done].
Qed.

Lemma asTerminal_ok s rid st s' run :
  st ≠ waiting_approval →
  asTerminal s rid st = Ok (s', run) →
  touches s rid run s' ∧ evolves (runOrNew (findRun s rid) rid) run ∧ rsRunId run = rid ∧
  rsStatus run = st ∧ tsMessages s' = tsMessages s.
Proof.
  unfold asTerminal. intros Hst H. pose proof (runOrNew_id s rid) as Hid.
  case_match eqn:Ht; simplify_eq. apply transition_ok in Ht as [-> Ht].
  split_and!; try first [done | by apply touches_withRun].
  apply evolves_status; [by apply run_step_elem|done].
Qed.

Lemma runOrNew_evolves s rid r' :
  (∀ r, findRun s rid = Some r → evolves r r') →
  is_Some (findRun s rid) → evolves (runOrNew (findRun s rid) rid) r'.
Proof. intros H [r Hr]. rewrite Hr. by apply H. Qed.

Lemma elem_findCall c tcs call : findCall c tcs = Some call → call ∈ tcs ∧ tcCallId call = c.
Proof. apply (lookupKey_some tcCallId). Qed.

Lemma hasPending_elem r : hasPendingApproval r = true ↔
  ∃ c, c ∈ rsToolCalls r ∧ approvalIs pending c = true.
Proof. apply existsb_true. Qed.

Lemma setApproval_ids c a tcs : tcCallId <$> setApproval c a tcs = tcCallId <$> tcs.
Proof.
  unfold setApproval. rewrite <- list_fmap_compose. apply list_fmap_ext.
  intros i x _. simpl. by destruct (keyIs _ c x).
Qed.

Lemma setApproval_pending c a tcs call :
  findCall c tcs = Some call → apStatus a = pending →
  existsb (approvalIs pending) (setApproval c a tcs) = true.
Proof.
  intros [Hin Hid]%elem_findCall Ha. apply existsb_true. exists (withApproval call a). split.
  - unfold setApproval. apply list_elem_of_fmap. exists call. split; [|done].
    unfold keyIs. by rewrite bool_decide_true.
  - unfold approvalIs. simpl. by rewrite bool_decide_true.
Qed.

Lemma evolves_calls r tcs :
  (NoDup (tcCallId <$> rsToolCalls r) → NoDup (tcCallId <$> tcs)) →
  (runOk r → rsStatus r = waiting_approval → existsb (approvalIs pending) tcs = true) →
  evolves r (withToolCalls r tcs).
Proof.
  intros Hnd Hg. split; [done|apply rtc_refl|].
  intros Hok. pose proof Hok as [??]. split; simpl; [auto|]. intros Hw. simpl in Hw. by apply Hg.
Qed.

Lemma reduceRunStarted_ok s rid t :
  reduceRunStarted s rid = Ok t →
  ∃ r', touches s rid r' t ∧ evolves (runOrNew (findRun s rid) rid) r'.
Proof.
  unfold reduceRunStarted. intros H. case_match eqn:Ht; simplify_eq.
  apply transition_ok in Ht as [-> Ht]. eexists. split.
  - apply touches_withRun. apply runOrNew_id.
  - apply evolves_status; [by apply run_step_elem|done].
Qed.

(** Handlers that first bring the run to [running] and then change it further. *)
Lemma after_running s rid s' run t r' :
  asRunning s rid = Ok (s', run) → touches s' rid r' t → evolves run r' →
  ∃ r', touches s rid r' t ∧ evolves (runOrNew (findRun s rid) rid) r'.
Proof.
  intros (Ht & He & _)%asRunning_ok Ht' He'. exists r'.
  split; [by eapply touches_trans | by etrans].
Qed.

Lemma reduceTokenDelta_ok s rid mid d t :
  reduceTokenDelta s rid mid d = Ok t →
  ∃ r', touches s rid r' t ∧ evolves (runOrNew (findRun s rid) rid) r'.
Proof.
  unfold reduceTokenDelta. intros H.
  destruct (asRunning s rid) as [[s' run]|] eqn:E; cbn [mbind result_bind] in H; [|done].
  eapply after_running; [done| |reflexivity].
  apply asRunning_ok in E as (Hto & _). pose proof (touch_run _ _ _ _ Hto) as Hf.
  repeat case_match; simplify_eq; by apply touches_messages, touches_refl.
Qed.

Lemma reduceRunSteered_ok s rid mid x t :
  reduceRunSteered s rid mid x = Ok t →
  ∃ r', touches s rid r' t ∧ evolves (runOrNew (findRun s rid) rid) r'.
Proof.
  unfold reduceRunSteered. intros H.
  destruct (asRunning s rid) as [[s' run]|] eqn:E; cbn [mbind result_bind] in H; [|done].
  eapply after_running; [done| |reflexivity].
  apply asRunning_ok in E as (Hto & _). pose proof (touch_run _ _ _ _ Hto) as Hf.
  case_match; simplify_eq; by apply touches_messages, touches_refl.
Qed.

Lemma reduceToolRequested_ok s rid c tl a t :
  reduceToolRequested s rid c tl a = Ok t →
  ∃ r', touches s rid r' t ∧ evolves (runOrNew (findRun s rid) rid) r'.
Proof.
  unfold reduceToolRequested. intros H.
  destruct (asRunning s rid) as [[s' run]|] eqn:E; cbn [mbind result_bind] in H; [|done].
  case_match eqn:Hdup; simplify_eq. pose proof (asRunning_ok _ _ _ _ E) as (_&_&Hid&Hst&_).
  eapply after_running; [done|by apply touches_withRun|]. apply evolves_calls.
  - intros Hnd. apply find_none_existsb in Hdup. apply (lookupKey_none tcCallId) in Hdup.
    rewrite fmap_app. apply NoDup_app. split_and!; [done| |apply NoDup_singleton].
    intros x Hx Hin. cbn in Hin. apply list_elem_of_singleton in Hin. congruence.
  - intros _ Hw. rewrite existsb_app. destruct Hst as [|[_ Hp]]; [congruence|].
    unfold hasPendingApproval in Hp. by rewrite Hp.
Qed.

Lemma reduceApprovalRequested_ok s rid c ex t :
  reduceApprovalRequested s rid c ex = Ok t →
  ∃ r', touches s rid r' t ∧ evolves (runOrNew (findRun s rid) rid) r'.
Proof.
  unfold reduceApprovalRequested. intros H.
  destruct (asRunning s rid) as [[s' run]|] eqn:E; cbn [mbind result_bind] in H; [|done].
  pose proof (asRunning_ok _ _ _ _ E) as (_&_&Hid&Hst&_).
  destruct (findCall c _) as [call|] eqn:Hc; [|done]. destruct (tcApproval call); [done|].
  set (a := {| apStatus := pending; apExpiresAt := ex; apReason := None |}) in *.
  assert (evolves run (withToolCalls run (setApproval c a (rsToolCalls run)))) as He.
  { apply evolves_calls; [by rewrite setApproval_ids|]. intros _ _. by eapply setApproval_pending. }
  case_bool_decide as Hw; [case_match eqn:Ht|]; simplify_eq;
    (eapply after_running; [done|by apply touches_withRun|]); [|done].
  apply transition_ok in Ht as [-> Ht]. etrans; [exact He|].
  split; simpl; [done|by apply rtc_once, run_step_elem|].
  intros [Hnd _]. split; [done|]. intros _. by eapply setApproval_pending.
Qed.

Lemma reduceApprovalResolved_ok s rid c d rs t :
  reduceApprovalResolved s rid c d rs = Ok t →
  ∃ r', touches s rid r' t ∧ evolves (runOrNew (findRun s rid) rid) r'.
Proof.
  unfold reduceApprovalResolved. intros H.
  destruct (findRun s rid) as [run|] eqn:Hf; [|done]. cbn [runOrNew].
  destruct (findCall c _) as [call|] eqn:Hc; [|done].
  destruct (tcApproval call) as [ap|]; [|done]. case_bool_decide; [done|].
  match type of H with context [setApproval c ?x _] => set (a := x) in * end.
  set (res := withToolCalls run (setApproval c a (rsToolCalls run))) in *.
  assert (rsRunId run = rid) as Hid by (by eapply findRun_id).
  case_match eqn:Hg; simplify_eq.
  - bools. case_match eqn:Ht; simplify_eq. apply transition_ok in Ht as [-> Ht].
    eexists. split; [by apply touches_withRun|].
    split; simpl; [done| |].
    + replace (rsStatus run) with waiting_approval by done. by apply rtc_once, run_step_elem.
    + intros [Hnd _]. split; [by simpl; rewrite setApproval_ids|]. by intros ?.
  - eexists. split; [by apply touches_withRun|]. apply evolves_calls; [by rewrite setApproval_ids|].
    intros _ Hw. bools. destruct Hg as [Hg|Hg]; bools; [done|].
    done.
Qed.

Lemma resolveCall_id c r : tcCallId (resolveCall c r) = tcCallId c.
Proof. by destruct r. Qed.

Lemma resolveCall_approval c r st : approvalIs st (resolveCall c r) = approvalIs st c.
Proof. by destruct r. Qed.

Lemma reduceToolResolution_ok s rid c r t :
  reduceToolResolution s rid c r = Ok t →
  ∃ r', touches s rid r' t ∧ evolves (runOrNew (findRun s rid) rid) r'.
Proof.
  unfold reduceToolResolution. intros H.
  destruct (findRun s rid) as [run|] eqn:Hf; [|done]. cbn [runOrNew].
  destruct (findCall c _) as [call|] eqn:Hc; [|done].
  apply elem_findCall in Hc as [Hin Hid].
  repeat (case_match; [done|]). simplify_eq.
  eexists. split; [apply touches_withRun; simpl; by eapply findRun_id|].
  assert (tcCallId (resolveCall call r) = tcCallId call) as Hid' by apply resolveCall_id.
  apply evolves_calls.
  - by rewrite (fmap_key_replace tcCallId).
  - intros [Hnd Hg] Hw. apply Hg, hasPending_elem in Hw as (x & Hx & Hp).
    apply existsb_true. exists x. split; [|done]. unfold replaceWhere.
    apply list_elem_of_fmap. exists x. split; [|done]. unfold keyIs.
    destruct (decide (tcCallId x = tcCallId call)) as [Hxc|Hxc]; [|by rewrite bool_decide_false].
    exfalso. assert (x = call) as ->; [|congruence].
    pose proof (lookupKey_elem tcCallId _ _ _ Hnd Hx Hxc) as E1.
    pose proof (lookupKey_elem tcCallId _ _ _ Hnd Hin eq_refl) as E2. congruence.
Qed.

Lemma completeRunMessages_ok s rid mid t :
  completeRunMessages s rid mid = Ok t →
  tsRuns t = tsRuns s ∧ tsThreadId t = tsThreadId s.
Proof.
  unfold completeRunMessages. intros H.
  destruct mid as [mid|]; cbn [mbind result_bind] in H; [|by simplify_eq].
  repeat case_match; simplify_eq/=; done.
Qed.

Lemma touches_runs s rid r t t' : tsRuns t' = tsRuns t → touches s rid r t → touches s rid r t'.
Proof.
  intros Hr []. split; unfold findRun in *; rewrite ?Hr; auto.
Qed.

(** A terminal event: the run reaches [st], then the row is decorated by [f],
    then messages are closed. *)
Lemma terminal_event s rid st f mid t :
  st ≠ waiting_approval →
  (∀ r, rsRunId (f r) = rsRunId r ∧ rsStatus (f r) = rsStatus r ∧
        rsToolCalls (f r) = rsToolCalls r) →
  ('(s, run) ← asTerminal s rid st; completeRunMessages (withRun s (f run)) rid mid) = Ok t →
  ∃ r', touches s rid r' t ∧ evolves (runOrNew (findRun s rid) rid) r'.
Proof.
  intros Hst Hf H. destruct (asTerminal s rid st) as [[s' run]|] eqn:E; [|done].
  cbn [mbind result_bind] in H. apply completeRunMessages_ok in H as [Hr _].
  apply asTerminal_ok in E as (Hto & He & Hid & Hs & _); [|done].
  destruct (Hf run) as (Hf1 & Hf2 & Hf3). exists (f run). split.
  - eapply touches_runs; [done|]. eapply touches_trans; [done|]. apply touches_withRun. congruence.
  - etrans; [exact He|]. split; [done|rewrite Hf2; apply rtc_refl|].
    unfold runOk, gated, hasPendingApproval. by rewrite Hf2, Hf3.
Qed.

Lemma reduceRunCompleted_ok s rid mid t :
  reduceRunCompleted s rid mid = Ok t →
  ∃ r', touches s rid r' t ∧ evolves (runOrNew (findRun s rid) rid) r'.
Proof.
  unfold reduceRunCompleted. intros H.
  destruct (asTerminal s rid completed) as [[s' run]|] eqn:E; [|done]. cbn [mbind result_bind] in H.
  apply completeRunMessages_ok in H as [Hr _].
  apply asTerminal_ok in E as (Hto & He & _); [|done]. exists run.
  split; [by eapply touches_runs|done].
Qed.

(** Every event evolves its own run and leaves the others as they were. *)
Lemma applyEvent_run s e t :
  applyEvent s e = Ok t →
  ∃ r', touches s (runId (base e)) r' t ∧
    evolves (runOrNew (findRun s (runId (base e))) (runId (base e))) r'.
Proof.
  unfold applyEvent. intros H. destruct (body e).
  - by apply reduceRunStarted_ok.
  - by eapply reduceTokenDelta_ok.
  - by eapply reduceToolRequested_ok.
  - by eapply reduceApprovalRequested_ok.
  - by eapply reduceApprovalResolved_ok.
  - by eapply reduceToolResolution_ok.
  - by eapply reduceToolResolution_ok.
  - by eapply reduceRunCompleted_ok.
  - revert H. unfold reduceRunFailed.
    apply (terminal_event _ _ _ (λ run, {| rsRunId := rsRunId run; rsStatus := rsStatus run;
      rsToolCalls := rsToolCalls run;
      rsFailure := Some {| failMessage := error; failCode := code |};
      rsCancelReason := rsCancelReason run |})); done.
  - revert H. unfold reduceRunCancelled.
    apply (terminal_event _ _ _ (λ run, {| rsRunId := rsRunId run; rsStatus := rsStatus run;
      rsToolCalls := rsToolCalls run; rsFailure := rsFailure run;
      rsCancelReason := match reason with None => rsCancelReason run | r => r end |})); done.
  - by eapply reduceRunSteered_ok.
Qed.

(** ** Lemmas: messages *)

Lemma transcribes_refl s t rid : tsMessages t = tsMessages s → transcribes s rid t.
Proof.
  intros Hm. split; [intros ?? _| |by rewrite Hm].
  - unfold findMessage. by rewrite Hm.
  - intros mid m H. exists m. split; [|reflexivity]. unfold findMessage in *. by rewrite Hm.
Qed.

Lemma transcribes_trans s t w rid :
  transcribes s rid t → transcribes t rid w → transcribes s rid w.
Proof.
  intros [A1 A2 A3] [B1 B2 B3]. split; [|intros mid m H|auto].
  - intros rid' mid H. by rewrite B1, A1.
  - apply A2 in H as (m1 & H1 & He1). apply B2 in H1 as (m2 & H2 & He2).
    exists m2. split; [done|by etrans].
Qed.

Lemma transcribes_withMessage s rid m :
  msgRunId m = rid →
  (∀ m0, findMessage s rid (msgId m) = Some m0 → extends m0 m) →
  transcribes s rid (withMessage s m).
Proof.
  intros Hrid Hext. split.
  - intros rid' mid Hne. rewrite findMessage_withMessage. unfold msgKey.
    rewrite decide_False; [done|congruence].
  - intros mid m0 H. rewrite findMessage_withMessage. unfold msgKey. case_decide as Hk.
    + exists m. split; [done|]. apply Hext. congruence.
    + exists m0. split; [done|reflexivity].
  - intros Hnd. by apply (NoDup_upsert msgKey).
Qed.

Lemma completeMessage_key rid m : msgKey (completeMessage rid m) = msgKey m.
Proof. unfold completeMessage. by destruct (_ && _). Qed.

Lemma findMessage_complete s rid rid' mid :
  findMessage (withMessages s (completeMessage rid <$> tsMessages s)) rid' mid =
  completeMessage rid <$> findMessage s rid' mid.
Proof.
  unfold findMessage. cbn [tsMessages withMessages]. induction (tsMessages s) as [|m ms IH]; [done|].
  rewrite fmap_cons. cbn [List.find]. unfold keyIs in *. rewrite completeMessage_key.
  by case_bool_decide.
Qed.

Lemma findMessage_key s rid mid m : findMessage s rid mid = Some m → msgKey m = (rid, mid).
Proof. intros H. by apply (lookupKey_some msgKey) in H as [_ ?]. Qed.

Lemma transcribes_complete s rid :
  transcribes s rid (withMessages s (completeMessage rid <$> tsMessages s)).
Proof.
  split.
  - intros rid' mid Hne. rewrite findMessage_complete.
    destruct (findMessage s rid' mid) as [m|] eqn:E; [|done]. apply findMessage_key in E.
    simpl. f_equal. unfold completeMessage, msgKey in *. simplify_eq.
    by rewrite bool_decide_false.
  - intros mid m H. rewrite findMessage_complete, H. eexists. split; [done|].
    unfold completeMessage. destruct (_ && _); [|reflexivity]. by split_and!.
  - intros Hnd. cbn [tsMessages withMessages]. rewrite <- list_fmap_compose.
    rewrite (list_fmap_ext _ msgKey (tsMessages s)); [done|].
    intros i m _. apply completeMessage_key.
Qed.

Lemma transcribes_completeRun s rid mid t :
  completeRunMessages s rid mid = Ok t → transcribes s rid t.
Proof.
  unfold completeRunMessages. intros H.
  assert (∃ s', transcribes s rid s' ∧
    t = withMessages s' (completeMessage rid <$> tsMessages s')) as (s' & Hs & ->).
  { destruct mid as [mid|]; cbn [mbind result_bind] in H;
      [|exists s; split; [by apply transcribes_refl|congruence]].
    destruct (findMessage s rid mid) as [m|] eqn:E.
    - case_bool_decide; [done|]. cbn [mbind result_bind] in H. exists s.
      split; [by apply transcribes_refl|congruence].
    - cbn [mbind result_bind] in H. injection H as <-.
      exists (withMessage s {| msgId := mid; msgRunId := rid; msgRole := assistant;
                               msgText := []; msgComplete := true |}).
      split; [|reflexivity]. apply transcribes_withMessage; [done|].
      intros m0 Hm0. simpl in Hm0. congruence. }
  eapply transcribes_trans; [done|]. apply transcribes_complete.
Qed.

Lemma asTerminal_messages s rid st s' run :
  asTerminal s rid st = Ok (s', run) → tsMessages s' = tsMessages s.
Proof. unfold asTerminal. intros H. case_match; by simplify_eq. Qed.

(** Every event extends the transcript of its own run only. *)
Lemma applyEvent_messages s e t :
  applyEvent s e = Ok t → transcribes s (runId (base e)) t.
Proof.
  unfold applyEvent. generalize (runId (base e)) as rid. intros rid H.
  destruct (body e) as [|m d|c tl a|c ex|c d rs|c res a dur|c er dur|m|er co|rs|m tx].
  - unfold reduceRunStarted in H. case_match; simplify_eq. by apply transcribes_refl.
  - unfold reduceTokenDelta in H.
    destruct (asRunning s rid) as [[s' run]|] eqn:E; cbn [mbind result_bind] in H; [|done].
    apply asRunning_ok in E as (_&_&_&_&Hm).
    eapply transcribes_trans; [by apply transcribes_refl|].
    destruct (findMessage s' rid m) as [m0|] eqn:Hf; [case_bool_decide; [done|]|];
      injection H as <-; apply transcribes_withMessage; try done.
    + apply findMessage_key in Hf. unfold msgKey in Hf. simpl. congruence.
    + intros m1 Hm1. pose proof (findMessage_key _ _ _ _ Hf) as Hk. unfold msgKey in Hk.
      simpl in Hm1. assert (m1 = m0) as -> by congruence.
      split_and!; try done. simpl. by apply prefix_app_r.
    + intros m0 Hm0. simpl in Hm0. congruence.
  - unfold reduceToolRequested in H.
    destruct (asRunning s rid) as [[s' run]|] eqn:E; cbn [mbind result_bind] in H; [|done].
    apply asRunning_ok in E as (_&_&_&_&Hm). case_match; simplify_eq. by apply transcribes_refl.
  - unfold reduceApprovalRequested in H.
    destruct (asRunning s rid) as [[s' run]|] eqn:E; cbn [mbind result_bind] in H; [|done].
    apply asRunning_ok in E as (_&_&_&_&Hm). apply transcribes_refl.
    repeat case_match; by simplify_eq.
  - unfold reduceApprovalResolved in H. apply transcribes_refl. repeat case_match; by simplify_eq.
  - unfold reduceToolResolution in H. apply transcribes_refl. repeat case_match; by simplify_eq.
  - unfold reduceToolResolution in H. apply transcribes_refl. repeat case_match; by simplify_eq.
  - unfold reduceRunCompleted in H. destruct (asTerminal s rid completed) as [[s' run]|] eqn:E; [|done].
    apply asTerminal_messages in E. cbn [mbind result_bind] in H.
    eapply transcribes_trans; [by apply transcribes_refl|]. by eapply transcribes_completeRun.
  - unfold reduceRunFailed in H. destruct (asTerminal s rid failed) as [[s' run]|] eqn:E; [|done].
    apply asTerminal_messages in E. cbn [mbind result_bind] in H.
    apply transcribes_completeRun in H. eapply transcribes_trans; [|exact H]. by apply transcribes_refl.
  - unfold reduceRunCancelled in H. destruct (asTerminal s rid cancelled) as [[s' run]|] eqn:E; [|done].
    apply asTerminal_messages in E. cbn [mbind result_bind] in H.
    apply transcribes_completeRun in H. eapply transcribes_trans; [|exact H]. by apply transcribes_refl.
  - unfold reduceRunSteered in H.
    destruct (asRunning s rid) as [[s' run]|] eqn:E; cbn [mbind result_bind] in H; [|done].
    apply asRunning_ok in E as (_&_&_&_&Hm).
    eapply transcribes_trans; [by apply transcribes_refl|].
    case_match eqn:Hf; simplify_eq. apply transcribes_withMessage; [done|].
    intros m0 Hm0. simpl in Hm0. congruence.
Qed.

(** ** From one event to the fold *)

Section fold.
  Context (R : relation ThreadSnapshot) `{!PreOrder R}.
  Hypothesis R_cursor : ∀ s n es, R s (withCursor s n es).
  Hypothesis R_apply : ∀ s e t, applyEvent s e = Ok t → R s t.

Lemma applyAtCursor_R s e t : applyAtCursor s e = Ok t → R s t.
Proof using All.
  unfold applyAtCursor. intros H. destruct (applyEvent s e) as [s'|] eqn:E; [|done].
  cbn [mbind result_bind] in H. injection H as <-. etrans; [by eapply R_apply|apply R_cursor].
Qed.

Lemma drainLoop_R fuel s t : drainLoop fuel s = Ok t → R s t.
Proof using All.
  revert s. induction fuel as [|fuel IH]; intros s H; simpl in H; [by simplify_eq|].
  case_match; [|by simplify_eq]. destruct (applyAtCursor _ _) as [s'|] eqn:E; [|done].
  cbn [mbind result_bind] in H. etrans; [by eapply applyAtCursor_R|]. by apply IH.
Qed.

Lemma reduceRunEvent_R s v t : reduceRunEvent s v = Ok t → R s t.
Proof using All.
  unfold reduceRunEvent, reduceParsed. intros H. case_match; [|done].
  repeat case_match; simplify_eq; [done|done|apply R_cursor|].
  destruct (applyAtCursor _ _) as [s'|] eqn:E; [|done]. cbn [mbind result_bind] in H.
  etrans; [by eapply applyAtCursor_R|]. by eapply drainLoop_R.
Qed.

Lemma reduceRunEvents_R s vs t : reduceRunEvents s vs = Ok t → R s t.
Proof using All.
  revert s. induction vs as [|v vs IH]; intros s H; simpl in H; [by simplify_eq|].
  destruct (reduceRunEvent _ _) as [s'|] eqn:E; [|done]. cbn [mbind result_bind] in H.
  etrans; [by eapply reduceRunEvent_R|]. by apply IH.
Qed.
End fold.

(** ** Lemmas: every event makes a labelled move *)

Lemma event_path_app bs bs' st st' st'' :
  event_path bs st st' → event_path bs' st' st'' → event_path (bs ++ bs') st st''.
Proof.
  revert st. induction bs as [|b bs IH]; simpl; intros st; [by intros ->|].
  intros (mid & Hm & Hp) H. exists mid. split; [done|by apply IH].
Qed.

Lemma unfinished_transition st st' :
  st' = failed ∨ st' = cancelled → unfinished st → run_step st st'.
Proof. intros [->| ->] [->|[->| ->]]; apply run_step_elem; compute_done. Qed.

(** A move is made of edges of the transition table. *)
Lemma event_move_edges b st st' : event_move b st st' → rtc run_step st st'.
Proof.
  assert (run_step queued running) by (apply run_step_elem; compute_done).
  assert (run_step waiting_approval running) by (apply run_step_elem; compute_done).
  assert (run_step running waiting_approval) by (apply run_step_elem; compute_done).
  assert (run_step running completed) by (apply run_step_elem; compute_done).
  destruct 1 as [st [->| ->]|b st _ [->|[->| ->]]| |c ex st [->|[->| ->]]| | | | |];
    try first [apply rtc_refl | by apply rtc_once
              | eapply (rtc_l _ _ running); [done|by apply rtc_once]].
  - apply rtc_once, unfinished_transition; [by left|done].
  - apply rtc_once, unfinished_transition; [by right|done].
Qed.

Lemma event_path_edges bs st st' : event_path bs st st' → rtc run_step st st'.
Proof.
  revert st. induction bs as [|b bs IH]; simpl; intros st; [by intros ->|].
  intros (mid & Hm%event_move_edges & Hp%IH). by etrans.
Qed.

Lemma findRun_runStatus s rid r : findRun s rid = Some r → runStatus s rid = rsStatus r.
Proof. unfold runStatus. by intros ->. Qed.

Lemma runStatus_withRun s r rid : rsRunId r = rid → runStatus (withRun s r) rid = rsStatus r.
Proof.
  intros <-. apply findRun_runStatus. rewrite findRun_withRun. by rewrite decide_True.
Qed.

Lemma runStatus_runs s t rid : tsRuns t = tsRuns s → runStatus t rid = runStatus s rid.
Proof. unfold runStatus, findRun. by intros ->. Qed.

Lemma run_step_unfinished st st' : run_step st st' → unfinished st.
Proof. intros H%run_step_iff. unfold unfinished. destruct st; set_solver. Qed.

Lemma run_step_completed st : run_step st completed → st = running.
Proof. intros H%run_step_iff. destruct st; set_solver. Qed.

(** Where [asRunning] found the run and where it left it. *)
Lemma asRunning_move s rid s' run :
  asRunning s rid = Ok (s', run) →
  runStatus s' rid = rsStatus run ∧ rsRunId run = rid ∧
  (unfinished (runStatus s rid) ∧ rsStatus run = running ∨
   runStatus s rid = waiting_approval ∧ rsStatus run = waiting_approval).
Proof.
  intros H. pose proof (asRunning_ok _ _ _ _ H) as (Hto & _ & Hid & _).
  split; [by apply findRun_runStatus, (touch_run _ _ _ _ Hto)|]. split; [done|].
  revert H. unfold asRunning. fold (runStatus s rid).
  case_bool_decide as Hr; [|case_match eqn:Hp; [|case_match eqn:Ht]]; intros; simplify_eq.
  - left. split; [by right; left|]. unfold runStatus in Hr. congruence.
  - right. bools. unfold runStatus in *. split; congruence.
  - left. apply transition_ok in Ht as [-> Ht]. split; [|by rewrite <- H0].
    by eapply run_step_unfinished, run_step_elem.
Qed.

Lemma asTerminal_move s rid st s' run :
  asTerminal s rid st = Ok (s', run) →
  run_step (runStatus s rid) st ∧ rsStatus run = st ∧ rsRunId run = rid.
Proof.
  unfold asTerminal. fold (runStatus s rid). intros H.
  case_match eqn:Ht; simplify_eq. apply transition_ok in Ht as [-> Ht].
  split; [by apply run_step_elem|]. split; [done|apply runOrNew_id].
Qed.

(** The handlers that first bring the run to [running], or find it parked. *)
Lemma running_move s rid s' run t b :
  asRunning s rid = Ok (s', run) → isWork b → runStatus t rid = rsStatus run →
  event_move b (runStatus s rid) (runStatus t rid).
Proof.
  intros (_ & _ & Hst)%asRunning_move Hb ->. destruct Hst as [[Hu ->]|[-> ->]].
  - by apply move_work.
  - by apply move_parked.
Qed.

(** The handlers that end the run and close its messages. *)
Lemma terminal_status s rid st (f : RunSnapshot → RunSnapshot) mid t :
  (∀ r, rsRunId (f r) = rsRunId r ∧ rsStatus (f r) = rsStatus r) →
  ('(s, run) ← asTerminal s rid st; completeRunMessages (withRun s (f run)) rid mid) = Ok t →
  run_step (runStatus s rid) st ∧ runStatus t rid = st.
Proof.
  intros Hf H. destruct (asTerminal s rid st) as [[s' run]|] eqn:E; [|done].
  cbn [mbind result_bind] in H. apply completeRunMessages_ok in H as [Hr _].
  apply asTerminal_move in E as (Hstep & Hs & Hid). split; [done|].
  destruct (Hf run) as [Hf1 Hf2]. rewrite (runStatus_runs _ _ _ Hr).
  rewrite runStatus_withRun by congruence. congruence.
Qed.

Lemma approval_move s rid c ex t :
  reduceApprovalRequested s rid c ex = Ok t →
  unfinished (runStatus s rid) ∧ runStatus t rid = waiting_approval.
Proof.
  unfold reduceApprovalRequested. intros H.
  destruct (asRunning s rid) as [[s' run]|] eqn:E; cbn [mbind result_bind] in H; [|done].
  apply asRunning_move in E as (_ & Hid & Hst).
  split. { destruct Hst as [[? _]|[-> _]]; [done|by right; right]. }
  destruct (findCall c _) as [call|]; [|done]. destruct (tcApproval call); [done|].
  case_bool_decide as Hw; [case_match eqn:Ht|]; simplify_eq; rewrite runStatus_withRun; try done.
  by apply transition_ok in Ht as [-> _].
Qed.

Lemma answer_move s rid c d rs t :
  reduceApprovalResolved s rid c d rs = Ok t →
  event_move (ApprovalResolved c d rs) (runStatus s rid) (runStatus t rid).
Proof.
  unfold reduceApprovalResolved. intros H.
  destruct (findRun s rid) as [run|] eqn:Hf; [|done].
  assert (rsRunId run = rid) as Hid by (by eapply findRun_id).
  rewrite (findRun_runStatus _ _ _ Hf).
  destruct (findCall c _) as [call|]; [|done]. destruct (tcApproval call) as [ap|]; [|done].
  case_bool_decide; [done|]. case_match eqn:Hg; [case_match eqn:Ht|]; simplify_eq;
    rewrite runStatus_withRun by done; [|by apply move_keep].
  apply transition_ok in Ht as [-> _]. bools. simpl in *.
  replace (rsStatus run) with waiting_approval by done. apply move_resume.
Qed.

Lemma resolution_move s rid c r t :
  reduceToolResolution s rid c r = Ok t → runStatus t rid = runStatus s rid.
Proof.
  unfold reduceToolResolution. intros H.
  destruct (findRun s rid) as [run|] eqn:Hf; [|done].
  assert (rsRunId run = rid) as Hid by (by eapply findRun_id).
  rewrite (findRun_runStatus _ _ _ Hf).
  destruct (findCall c _) as [call|]; [|done]. repeat (case_match; [done|]). simplify_eq.
  by rewrite runStatus_withRun.
Qed.

(** What an accepted event did to its run is a move of the labelled machine. *)
Lemma applyEvent_move s e t :
  applyEvent s e = Ok t →
  event_move (body e) (runStatus s (runId (base e))) (runStatus t (runId (base e))).
Proof.
  unfold applyEvent. generalize (runId (base e)) as rid. intros rid H.
  destruct (body e) as [|m d|c tl a|c ex|c d rs|c res a dur|c er dur|m|er co|rs|m tx].
  - unfold reduceRunStarted in H. fold (runStatus s rid) in H. case_match eqn:Ht; simplify_eq.
    rewrite runStatus_withRun by apply runOrNew_id. apply transition_ok in Ht as [-> Ht].
    simpl. apply move_start. unfold runStatus in *. destruct (rsStatus _); set_solver.
  - unfold reduceTokenDelta in H.
    destruct (asRunning s rid) as [[s' run]|] eqn:E; cbn [mbind result_bind] in H; [|done].
    eapply running_move; [done..|]. apply asRunning_move in E as [<- _].
    repeat case_match; simplify_eq; by apply runStatus_runs.
  - unfold reduceToolRequested in H.
    destruct (asRunning s rid) as [[s' run]|] eqn:E; cbn [mbind result_bind] in H; [|done].
    eapply running_move; [done..|]. apply asRunning_move in E as (_ & Hid & _).
    case_match; simplify_eq. by rewrite runStatus_withRun.
  - apply approval_move in H as [Hu ->]. by apply move_gate.
  - by apply answer_move.
  - apply resolution_move in H as ->. by apply move_keep.
  - apply resolution_move in H as ->. by apply move_keep.
  - assert (reduceRunCompleted s rid m =
      ('(s, run) ← asTerminal s rid completed; completeRunMessages s rid m)) as Hu by done.
    rewrite Hu in H. destruct (asTerminal s rid completed) as [[s' run]|] eqn:E; [|done].
    cbn [mbind result_bind] in H. apply completeRunMessages_ok in H as [Hr _].
    assert (completed ≠ waiting_approval) as Hne by discriminate.
    pose proof (asTerminal_ok _ _ _ _ _ Hne E) as (Hto & _ & _ & Hs & _).
    apply asTerminal_move in E as [Hstep%run_step_completed _]. rewrite Hstep.
    rewrite (runStatus_runs _ _ _ Hr), (findRun_runStatus _ _ _ (touch_run _ _ _ _ Hto)), Hs.
    apply move_complete.
  - revert H. unfold reduceRunFailed. intros H.
    apply (terminal_status _ _ _ (λ run, {| rsRunId := rsRunId run; rsStatus := rsStatus run;
      rsToolCalls := rsToolCalls run;
      rsFailure := Some {| failMessage := er; failCode := co |};
      rsCancelReason := rsCancelReason run |})) in H as [Hs%run_step_unfinished ->]; [|done].
    by apply move_fail.
  - revert H. unfold reduceRunCancelled. intros H.
    apply (terminal_status _ _ _ (λ run, {| rsRunId := rsRunId run; rsStatus := rsStatus run;
      rsToolCalls := rsToolCalls run; rsFailure := rsFailure run;
      rsCancelReason := match rs with None => rsCancelReason run | r => r end |}))
      in H as [Hs%run_step_unfinished ->]; [|done].
    by apply move_cancel.
  - unfold reduceRunSteered in H.
    destruct (asRunning s rid) as [[s' run]|] eqn:E; cbn [mbind result_bind] in H; [|done].
    eapply running_move; [done..|]. apply asRunning_move in E as [<- _].
    case_match; simplify_eq; by apply runStatus_runs.
Qed.

(** ** From one event to the fold: the labelled path *)

Lemma movesThrough_idle s t :
  tsRuns t = tsRuns s → tsLastSeq t = tsLastSeq s → movesThrough s [] t.
Proof.
  intros Hr Hl. split; simpl; [done|lia|]. intros rid. by apply runStatus_runs.
Qed.

Lemma movesThrough_app s t w es es' :
  movesThrough s es t → movesThrough t es' w → movesThrough s (es ++ es') w.
Proof.
  intros [P1 C1 S1] [P2 C2 S2]. split.
  - rewrite fmap_app, P1, P2, C1, length_app, Nat2Z.inj_add, seqZ_app by lia.
    do 2 f_equal. lia.
  - rewrite C2, C1, length_app. lia.
  - intros rid. unfold eventsOf. rewrite List.filter_app, fmap_app.
    eapply event_path_app; [apply S1|apply S2].
Qed.

Lemma applyAtCursor_moves s e t :
  applyAtCursor s e = Ok t → eventSeq e = (tsLastSeq s + 1)%Z → movesThrough s [e] t.
Proof.
  intros (s' & Ha & ->)%applyAtCursor_pending Hseq. split; simpl; [by rewrite Hseq|lia|].
  intros rid. unfold eventsOf. simpl. change (runStatus (withCursor s' _ _) rid) with (runStatus s' rid).
  case_bool_decide as Hr; simpl.
  - exists (runStatus s' rid). split; [|reflexivity]. subst rid. by apply applyEvent_move.
  - apply applyEvent_run in Ha as (r' & Ht & _). unfold runStatus.
    by rewrite (touch_other _ _ _ _ Ht).
Qed.

(** The events a snapshot waits with, or was just given. *)
Definition offered (s : ThreadSnapshot) (new : list RunEvent) (e : RunEvent) : Prop :=
  e ∈ tsPendingEvents s ∨ e ∈ new.

Lemma sortBySeq_elem x es : x ∈ sortBySeq es → x ∈ es.
Proof.
  induction es as [|e es IH] using rev_ind; [done|]. rewrite sortBySeq_snoc.
  intros [->|Hx]%insertBySeq_elem; apply elem_of_app; [right; by left|left; auto].
Qed.

Lemma applyAtCursor_offered s e t x :
  applyAtCursor s e = Ok t → x ∈ tsPendingEvents t → x ∈ tsPendingEvents s.
Proof.
  intros (s' & _ & ->)%applyAtCursor_pending Hx. simpl in Hx.
  by apply list_elem_of_In, List.filter_In in Hx as [Hx%list_elem_of_In _].
Qed.

Lemma drainLoop_moves fuel s t :
  drainLoop fuel s = Ok t →
  ∃ es, movesThrough s es t ∧ Forall (offered s []) es ∧
    ∀ x, x ∈ tsPendingEvents t → x ∈ tsPendingEvents s.
Proof.
  revert s. induction fuel as [|fuel IH]; intros s H; simpl in H.
  { simplify_eq. exists []. split; [by apply movesThrough_idle|done]. }
  destruct (nextPending s) as [e|] eqn:He.
  2:{ simplify_eq. exists []. split; [by apply movesThrough_idle|done]. }
  destruct (applyAtCursor s e) as [s'|] eqn:Ha; [|done]. cbn [mbind result_bind] in H.
  apply nextPending_some in He as [Hin Hseq].
  destruct (IH _ H) as (es & Hm & Hf & Hp). exists (e :: es). split_and!.
  - eapply (movesThrough_app _ _ _ [e]); [by apply applyAtCursor_moves|done].
  - constructor; [by left|]. eapply Forall_impl; [done|].
    intros x [Hx|[]%elem_of_nil]. left. by eapply applyAtCursor_offered.
  - intros x Hx%Hp. by eapply applyAtCursor_offered.
Qed.

Lemma reduceParsed_moves s e t :
  reduceParsed s e = Ok t →
  ∃ es, movesThrough s es t ∧ Forall (offered s [e]) es ∧
    ∀ x, x ∈ tsPendingEvents t → offered s [e] x.
Proof.
  unfold reduceParsed. intros H. case_bool_decide; [done|].
  destruct (eventSeq e <=? tsLastSeq s)%Z eqn:Hle.
  { simplify_eq. exists []. split; [by apply movesThrough_idle|]. split; [done|by left]. }
  case_match. { simplify_eq. exists []. split; [by apply movesThrough_idle|]. split; [done|by left]. }
  destruct (tsLastSeq s + 1 <? eventSeq e)%Z eqn:Hlt; bools.
  { simplify_eq. exists []. split; [by apply movesThrough_idle|]. split; [done|].
    intros x [Hx|Hx]%sortBySeq_elem%elem_of_app; [by left|by right]. }
  destruct (applyAtCursor s e) as [s'|] eqn:Ha; [|done]. cbn [mbind result_bind] in H.
  apply drainLoop_moves in H as (es & Hm & Hf & Hp). exists (e :: es). split_and!.
  - eapply (movesThrough_app _ _ _ [e]); [|done]. apply applyAtCursor_moves; [done|lia].
  - constructor; [right; by left|]. eapply Forall_impl; [done|].
    intros x [Hx|[]%elem_of_nil]. left. by eapply applyAtCursor_offered.
  - intros x Hx%Hp. left. by eapply applyAtCursor_offered.
Qed.

Lemma reduceRunEvents_moves s vs t :
  reduceRunEvents s vs = Ok t →
  ∃ es, movesThrough s es t ∧
    ∀ e, e ∈ es → e ∈ tsPendingEvents s ∨ ∃ v, v ∈ vs ∧ parseRunEvent v = Ok e.
Proof.
  revert s. induction vs as [|v vs IH]; intros s H; simpl in H.
  { simplify_eq. exists []. split; [by apply movesThrough_idle|]. by intros e He%elem_of_nil. }
  unfold reduceRunEvent in H. destruct (parseRunEvent v) as [e|] eqn:Hv; [|done].
  destruct (reduceParsed s e) as [s'|] eqn:Hr; [|done]. cbn [mbind result_bind] in H.
  apply reduceParsed_moves in Hr as (es & Hm & Hf & Hp).
  apply IH in H as (es' & Hm' & Hf').
  assert (∀ x, offered s [e] x →
    x ∈ tsPendingEvents s ∨ ∃ v', v' ∈ v :: vs ∧ parseRunEvent v' = Ok x) as Hoff.
  { intros x [Hx|Hx%list_elem_of_singleton]; [by left|]. subst. right. exists v. by split; [left|]. }
  exists (es ++ es'). split; [by eapply movesThrough_app|].
  intros x [Hx|Hx]%elem_of_app; [apply Hoff; by eapply Forall_forall in Hf|].
  destruct (Hf' x Hx) as [Hx'%Hp%Hoff|(v' & Hin & Hpv)]; [done|].
  right. exists v'. by split; [right|].
Qed.

(** ** The snapshot invariant *)

Record wfSnapshot (s : ThreadSnapshot) : Prop := {
  wf_runs : NoDup (rsRunId <$> tsRuns s);
  wf_messages : NoDup (msgKey <$> tsMessages s);
  wf_runOk : ∀ rid r, findRun s rid = Some r → runOk r }.

Lemma runOk_new rid : runOk (runOrNew None rid).
Proof. split; [apply NoDup_nil_2|done]. Qed.

Lemma applyEvent_wf s e t : applyEvent s e = Ok t → wfSnapshot s → wfSnapshot t.
Proof.
  intros H [H1 H2 H3]. pose proof (applyEvent_messages _ _ _ H) as [_ _ Hm].
  apply applyEvent_run in H as (r' & Ht & He). split; [by apply Ht|by apply Hm|].
  intros rid r Hr. destruct (decide (rid = runId (base e))) as [->|Hne].
  - rewrite (touch_run _ _ _ _ Ht) in Hr. simplify_eq. apply (ev_ok _ _ He).
    destruct (findRun s (runId (base e))) as [r0|] eqn:E; [by eapply H3|apply runOk_new].
  - rewrite (touch_other _ _ _ _ Ht) in Hr by done. by eapply H3.
Qed.

Lemma wfSnapshot_cursor s n es : wfSnapshot s → wfSnapshot (withCursor s n es).
Proof. intros []. by split. Qed.

(** The relation the fold inherits. *)
Definition transcript (s t : ThreadSnapshot) : Prop :=
  ∀ rid mid m, findMessage s rid mid = Some m → ∃ m', findMessage t rid mid = Some m' ∧ extends m m'.

#[export] Instance transcript_preorder : PreOrder transcript.
Proof.
  split.
  - intros s rid mid m H. by exists m.
  - intros s t w H1 H2 rid mid m (m1 & (m2 & ? & ?)%H2 & ?)%H1. exists m2. split; [done|by etrans].
Qed.

Lemma applyEvent_transcript s e t : applyEvent s e = Ok t → transcript s t.
Proof.
  intros H%applyEvent_messages rid mid m Hm. destruct H as [Ho Hown _].
  destruct (decide (rid = runId (base e))) as [->|Hne]; [by apply Hown|].
  exists m. split; [by rewrite Ho|reflexivity].
Qed.

(** ** Properties *)

(** C22. Refinement of the run state machine: a fold that succeeds applied a
    list of events, each one buffered in the snapshot or parsed from the input,
    that sit one per position after the cursor and end at the new cursor; and
    every run moved through exactly its own events among them, each event
    making one move of the labelled machine [event_move]: a run completes only
    from [running], a queued run only starts, is parked, fails or is cancelled, and what has
    ended keeps its status for ever. Every move is made of edges of the
    transition table. *)
Theorem fold_refines_run_state s vs t :
  reduceRunEvents s vs = Ok t →
  ∃ es,
    (∀ e, e ∈ es → e ∈ tsPendingEvents s ∨ ∃ v, v ∈ vs ∧ parseRunEvent v = Ok e) ∧
    eventSeq <$> es = seqZ (tsLastSeq s + 1) (Z.of_nat (length es)) ∧
    tsLastSeq t = (tsLastSeq s + Z.of_nat (length es))%Z ∧
    ∀ rid, event_path (eventsOf rid es) (runStatus s rid) (runStatus t rid) ∧
      rtc run_step (runStatus s rid) (runStatus t rid) ∧
      (isTerminalStatus (runStatus s rid) = true → runStatus t rid = runStatus s rid).
Proof.
  intros (es & [Hpos Hcur Hst] & Hin)%reduceRunEvents_moves. exists es.
  split_and!; [done..|]. intros rid. pose proof (event_path_edges _ _ _ (Hst rid)) as Hr.
  split_and!; [done..|]. intros Ht. by apply terminal_rtc.
Qed.

(** Snapshot invariant: from a fresh snapshot, every fold that succeeds yields
    unique runs, unique messages, unique tool calls per run, and a run parked in
    [waiting_approval] always has a pending gate. *)
Theorem fold_preserves_wf s vs t :
  reduceRunEvents s vs = Ok t → wfSnapshot s → wfSnapshot t.
Proof.
  intros H. change ((λ s t, wfSnapshot s → wfSnapshot t) s t). revert H.
  apply reduceRunEvents_R.
  - split; [by intros ?|]. intros ??? H1 H2 ?. auto.
  - intros ???. apply wfSnapshot_cursor.
  - intros ???. apply applyEvent_wf.
Qed.

Theorem createThreadSnapshot_wf threadId lastSeq s :
  createThreadSnapshot threadId lastSeq = Ok s → wfSnapshot s.
Proof.
  unfold createThreadSnapshot. intros H. repeat case_match; simplify_eq.
  split; [apply NoDup_nil_2|apply NoDup_nil_2|done].
Qed.

(** Append-only transcript: a message once in the snapshot stays there under the
    same identity and role, its text is only ever extended, and once complete it
    stays complete. *)
Theorem fold_transcript_append_only s vs t rid mid m :
  reduceRunEvents s vs = Ok t → findMessage s rid mid = Some m →
  ∃ m', findMessage t rid mid = Some m' ∧ msgRole m' = msgRole m ∧
    msgText m `prefix_of` msgText m' ∧ (msgComplete m = true → msgComplete m' = true).
Proof.
  intros H Hm. assert (transcript s t) as Ht.
  { eapply reduceRunEvents_R; [apply _| | |done].
    - intros ??? rid' mid' m' ?. by exists m'.
    - intros ??? Ha. by eapply applyEvent_transcript. }
  apply Ht in Hm as (m' & ? & _ & ?). eauto.
Qed.

(** Isolation: an event never changes the run or the messages of another run. *)
Theorem applyEvent_isolated s e t rid mid :
  applyEvent s e = Ok t → rid ≠ runId (base e) →
  findRun t rid = findRun s rid ∧ findMessage t rid mid = findMessage s rid mid.
Proof.
  intros H Hne. split.
  - apply applyEvent_run in H as (r' & Ht & _). by apply (touch_other _ _ _ _ Ht).
  - apply applyEvent_messages in H. by apply (tr_other _ _ _ H).
Qed.

(** The approval gate is a barrier: [tool.completed] is accepted exactly for a
    call that is still open and whose gate is absent or approved; a pending,
    denied or timed-out gate refuses it, and [tool.failed] is refused only by a
    pending one. *)
Theorem tool_resolution_gate s rid c run call r :
  findRun s rid = Some run → findCall c (rsToolCalls run) = Some call →
  is_ok (reduceToolResolution s rid c r) = true ↔
  tcStatus call = tc_requested ∧
  match tcApproval call with
  | None => True
  | Some a => apStatus a ≠ pending ∧ (isCompletion r = true → apStatus a = resolved approved)
  end.
Proof.
  intros Hr Hc. unfold reduceToolResolution. rewrite Hr, Hc.
  unfold approvalIs. destruct (tcStatus call); simpl; try naive_solver.
  destruct (tcApproval call) as [[[|[]] ex re]|]; simpl; destruct (isCompletion r); simpl;
    naive_solver.
Qed.

(** ** Witnesses *)

Definition ev (n : Z) (rid : jstr) (b : RunEventBody) : RunEvent :=
  {| base := {| seq := n; threadId := u "thread-1"; runId := rid |}; body := b |}.

(** A gated call: requested, gated, denied, answered with a failure, ended. *)
Definition gatedStream : list RunEvent :=
  [ ev 1 (u "run-1") RunStarted;
    ev 2 (u "run-1") (TokenDelta (u "msg-1") (u "Looking"));
    ev 3 (u "run-1") (ToolRequested (u "call-1") (u "shell") JNull);
    ev 4 (u "run-1") (ApprovalRequested (u "call-1") (u "2026-01-02T03:04:05Z"));
    ev 5 (u "run-1") (ApprovalResolved (u "call-1") denied None);
    ev 6 (u "run-1") (ToolFailed (u "call-1") (u "denied") None);
    ev 7 (u "run-1") (TokenDelta (u "msg-1") (u " again"));
    ev 8 (u "run-1") (RunCompleted (Some (u "msg-1"))) ].

Definition emptyThread : ThreadSnapshot :=
  {| tsThreadId := u "thread-1"; tsRuns := []; tsMessages := []; tsLastSeq := 0;
     tsPendingEvents := [] |}.

Definition okOr {E A} (d : A) (r : result E A) : A := match r with Ok a => a | Err _ => d end.

(** The snapshot after the first [n] events. *)
Definition after (n : nat) : ThreadSnapshot :=
  okOr emptyThread (reduceRunEvents emptyThread (eventObject <$> take n gatedStream)).

Lemma fold_refines_run_state_witness :
  runStatus (after 4) (u "run-1") = waiting_approval ∧
  runStatus (after 8) (u "run-1") = completed ∧
  ∃ es, tsLastSeq (after 8) = (tsLastSeq (after 4) + Z.of_nat (length es))%Z ∧
    event_path (eventsOf (u "run-1") es) (runStatus (after 4) (u "run-1"))
      (runStatus (after 8) (u "run-1")).
Proof.
  split; [vm_compute; reflexivity|]. split; [vm_compute; reflexivity|].
  destruct (fold_refines_run_state (after 4) (eventObject <$> drop 4 gatedStream) (after 8))
    as (es & _ & _ & Hn & Hst).
  - vm_compute. reflexivity.
  - exists es. split; [exact Hn|apply Hst].
Defined.

Lemma emptyThread_wf : wfSnapshot emptyThread.
Proof. split; [apply NoDup_nil_2|apply NoDup_nil_2|done]. Qed.

Lemma fold_preserves_wf_witness :
  reduceRunEvents emptyThread (eventObject <$> gatedStream) = Ok (after 8) ∧
  wfSnapshot (after 8).
Proof.
  split; [vm_compute; reflexivity|].
  apply (fold_preserves_wf emptyThread (eventObject <$> gatedStream)).
  - vm_compute. reflexivity.
  - apply emptyThread_wf.
Defined.

Lemma fold_transcript_append_only_witness :
  ∃ m', findMessage (after 8) (u "run-1") (u "msg-1") = Some m' ∧
    msgRole m' = assistant ∧ u "Looking" `prefix_of` msgText m' ∧ (false = true → msgComplete m' = true).
Proof.
  apply (fold_transcript_append_only (after 4) (eventObject <$> drop 4 gatedStream) (after 8)
    (u "run-1") (u "msg-1")
    {| msgId := u "msg-1"; msgRunId := u "run-1"; msgRole := assistant;
       msgText := u "Looking"; msgComplete := false |}); vm_compute; reflexivity.
Defined.

Lemma applyEvent_isolated_witness :
  u "run-1" ≠ u "run-2" ∧
  findRun (okOr emptyThread (applyEvent (after 4) (ev 5 (u "run-2") RunStarted))) (u "run-1") =
  findRun (after 4) (u "run-1").
Proof.
  split; [discriminate|].
  apply (applyEvent_isolated (after 4) (ev 5 (u "run-2") RunStarted) _ (u "run-1") []).
  - vm_compute. reflexivity.
  - discriminate.
Defined.

Definition gatedCall (st : ApprovalStatus) : ToolCallSnapshot :=
  {| tcCallId := u "call-1"; tcTool := u "shell"; tcArguments := JNull;
     tcStatus := tc_requested; tcResult := None; tcResultArtifact := None; tcError := None;
     tcDurationMs := None;
     tcApproval := Some {| apStatus := st; apExpiresAt := u "2026-01-02T03:04:05Z";
                           apReason := None |} |}.

Lemma tool_resolution_gate_witness :
  is_ok (reduceToolResolution (after 5) (u "run-1") (u "call-1") (ResolveFailed [] None)) = true.
Proof.
  apply (tool_resolution_gate (after 5) (u "run-1") (u "call-1")
    {| rsRunId := u "run-1"; rsStatus := running; rsToolCalls := [gatedCall (resolved denied)];
       rsFailure := None; rsCancelReason := None |} (gatedCall (resolved denied))).
  - vm_compute. reflexivity.
  - vm_compute. reflexivity.
  - split; [reflexivity|]. split; [discriminate|intros H; discriminate H].
Defined.
