(* ===== verification/RunLiveness.v ===== *)
(** Run liveness, packages/core/src/run-liveness.ts: the progress tracker a
    worker feeds with events, and the assessment every reader of the row runs.
    The reclaim decision of packages/core/src/run-recovery.ts is here too.
    Instants are milliseconds; the injected clock is the instant each call is
    given. *)

From S2P Require Import Prelude JsText JsValue RunState Approvals RunEvents.

Inductive RunStepKind := starting | thinking | working | waiting.

#[export] Instance RunStepKind_eq_dec : EqDecision RunStepKind.
Proof. solve_decision. Defined.

Definition RUN_STEP_KINDS : list RunStepKind := [starting; thinking; working; waiting].

Definition runStepKindName (k : RunStepKind) : jstr :=
  match k with
  | starting => u "starting"
  | thinking => u "thinking"
  | working => u "working"
  | waiting => u "waiting"
  end.

(** [RUN_LIVENESS_STATES]: the step kinds and the two assessed states. *)
Inductive RunLivenessState := step_state (k : RunStepKind) | stopping | stuck.

#[export] Instance RunLivenessState_eq_dec : EqDecision RunLivenessState.
Proof. solve_decision. Defined.

Definition RUN_LIVENESS_STATES : list RunLivenessState :=
  (step_state <$> RUN_STEP_KINDS) ++ [stopping; stuck].

Definition RUN_STALL_THRESHOLD_SECONDS : Z := 180.

Definition isRunStepKind (v : jsval) : bool := isOneOf (runStepKindName <$> RUN_STEP_KINDS) v.

Record RunStep := { stepKind : RunStepKind; stepTool : option jstr }.

Record RunProgressSnapshot := {
  snapProgressed : bool; snapIdleSeconds : Z; snapStep : option RunStep }.

(** ** The tracker: the variables [createRunProgress] closes over *)

Record InFlight := { ifCallId : jstr; ifTool : jstr }.

Record RunProgress := {
  lastProgressAt : Z; progressed : bool; step : option RunStep; inFlight : option InFlight }.

Definition createRunProgress (now : Z) : RunProgress :=
  {| lastProgressAt := now; progressed := false;
     step := Some {| stepKind := starting; stepTool := None |}; inFlight := None |}.

(** [inFlight?.callId === event.callId ? inFlight.tool : undefined]. *)
Definition inFlightTool (p : RunProgress) (callId : jstr) : option jstr :=
  match inFlight p with
  | Some f => if bool_decide (ifCallId f = callId) then Some (ifTool f) else None
  | None => None
  end.

(** The shared tail: [lastProgressAt = clock().getTime(); progressed = true]. *)
Definition advance (now : Z) (k : RunStepKind) (tool : option jstr) (f : option InFlight) :
    RunProgress :=
  {| lastProgressAt := now; progressed := true;
     step := Some {| stepKind := k; stepTool := tool |}; inFlight := f |}.

Definition note (p : RunProgress) (e : RunEventBody) (now : Z) : RunProgress :=
  match e with
  | RunCompleted _ | RunFailed _ _ | RunCancelled _ =>
      {| lastProgressAt := lastProgressAt p; progressed := progressed p;
         step := None; inFlight := None |}
  | RunStarted => advance now starting None (inFlight p)
  | TokenDelta _ _ | RunSteered _ _ => advance now thinking None (inFlight p)
  | ToolRequested callId tool _ =>
      advance now working (Some tool) (Some {| ifCallId := callId; ifTool := tool |})
  | ToolCompleted callId _ _ _ | ToolFailed callId _ _ =>
      advance now thinking None
        (match inFlightTool p callId with Some _ => None | None => inFlight p end)
  | ApprovalRequested callId _ => advance now waiting (inFlightTool p callId) (inFlight p)
  | ApprovalResolved callId d _ =>
      match d, inFlightTool p callId with
      | approved, Some tool => advance now working (Some tool) (inFlight p)
      | _, _ => advance now thinking None (inFlight p)
      end
  end.

Definition snapshot (p : RunProgress) (now : Z) : RunProgressSnapshot * RunProgress :=
  ({| snapProgressed := progressed p;
      snapIdleSeconds := Z.max 0 ((now - lastProgressAt p) / 1000);
      snapStep := step p |},
   {| lastProgressAt := lastProgressAt p; progressed := false;
      step := step p; inFlight := inFlight p |}).

(** ** The assessment *)

Record RunLivenessSnapshot := {
  rowStatus : RunStatus; leaseOwner : option jstr; stopRequestedAt : option Z;
  lastHeartbeatAt : option Z; rowLastProgressAt : option Z;
  currentStep : option RunStepKind; currentStepTool : option jstr }.

Record RunLiveness := {
  livenessState : RunLivenessState; livenessTool : option jstr;
  heartbeatLagMs : Z; sinceProgressMs : Z }.

Definition elapsedMs (from now : Z) : Z := Z.max 0 (now - from).

Definition assessRunLiveness (s : RunLivenessSnapshot) (now : Z) (stallThresholdSeconds : Z) :
    option RunLiveness :=
  if bool_decide (rowStatus s ≠ running) && bool_decide (rowStatus s ≠ waiting_approval) then None
  else
    match leaseOwner s, lastHeartbeatAt s, rowLastProgressAt s with
    | Some _, Some beat, Some progress =>
        let lag := elapsedMs beat now in
        let since := elapsedMs progress now in
        let tool := currentStepTool s in
        if bool_decide (stopRequestedAt s ≠ None) then
          Some {| livenessState := stopping; livenessTool := None;
                  heartbeatLagMs := lag; sinceProgressMs := since |}
        else if bool_decide (rowStatus s = waiting_approval)
                || bool_decide (currentStep s = Some waiting) then
          Some {| livenessState := step_state waiting; livenessTool := tool;
                  heartbeatLagMs := lag; sinceProgressMs := since |}
        else if (stallThresholdSeconds * 1000 <? since)%Z then
          Some {| livenessState := stuck; livenessTool := tool;
                  heartbeatLagMs := lag; sinceProgressMs := since |}
        else
          Some {| livenessState := step_state (default starting (currentStep s));
                  livenessTool := if bool_decide (currentStep s = Some working) then tool else None;
                  heartbeatLagMs := lag; sinceProgressMs := since |}
    | _, _, _ => None
    end.

(** ** Reclaim (run-recovery.ts) *)

Inductive RunReclaimFailure := checkpoint_absent | checkpoint_unreadable.

Inductive ReclaimDecision := Resume | FailReclaim (reason : RunReclaimFailure).

(** [Object.keys(checkpoint).length > 0] of a plain object. *)
Definition isResumableCheckpoint (checkpoint : jsval) : bool :=
  match asRecord checkpoint with
  | None => false
  | Some fields => (0 <? length fields)%nat
  end.

Definition decideReclaim (checkpoint : jsval) : ReclaimDecision :=
  if isResumableCheckpoint checkpoint then Resume
  else match asRecord checkpoint with
       | Some _ => FailReclaim checkpoint_absent
       | None => FailReclaim checkpoint_unreadable
       end.

Definition reclaimFailureMessage (reason : RunReclaimFailure) : jstr :=
  match reason with
  | checkpoint_absent =>
      u "The worker stopped before the run stored a checkpoint, so there was nothing to resume."
  | checkpoint_unreadable =>
      u "The run's checkpoint is not a session state object, so there was nothing a resume could trust."
  end.

(** ** The tracker as a machine *)

Inductive TrackerOp := Note (e : RunEventBody) (now : Z) | Beat (now : Z).

Definition trackerStep (p : RunProgress) (op : TrackerOp) : RunProgress :=
  match op with
  | Note e now => note p e now
  | Beat now => (snapshot p now).2
  end.

Definition track (start : Z) (ops : list TrackerOp) : RunProgress :=
  foldl trackerStep (createRunProgress start) ops.

(** An event that counts as progress: every one but the three endings. *)
Definition isProgress (e : RunEventBody) : bool :=
  match e with RunCompleted _ | RunFailed _ _ | RunCancelled _ => false | _ => true end.

(** What a history says: the instant of its last progress event, and whether one
    happened after its last beat. *)
Fixpoint lastProgress (start : Z) (ops : list TrackerOp) : Z :=
  match ops with
  | [] => start
  | Note e now :: ops' => lastProgress (if isProgress e then now else start) ops'
  | Beat _ :: ops' => lastProgress start ops'
  end.

Fixpoint progressSinceBeat (acc : bool) (ops : list TrackerOp) : bool :=
  match ops with
  | [] => acc
  | Note e _ :: ops' => progressSinceBeat (acc || isProgress e) ops'
  | Beat _ :: ops' => progressSinceBeat false ops'
  end.

(** A reported tool is the one in flight, and only gated or working steps name one. *)
Definition stepInv (p : RunProgress) : Prop :=
  match step p with
  | None => inFlight p = None
  | Some s =>
      match stepKind s with
      | working => stepTool s ≠ None ∧ stepTool s = ifTool <$> inFlight p
      | waiting => stepTool s = None ∨ stepTool s = ifTool <$> inFlight p
      | starting | thinking => stepTool s = None
      end
  end.

(** ** Lemmas *)

Lemma inFlightTool_some p c t : inFlightTool p c = Some t → Some t = ifTool <$> inFlight p.
Proof. unfold inFlightTool. intros H. dms. Qed.

Lemma note_stepInv p e now : stepInv p → stepInv (note p e now).
Proof.
  intros H. destruct e as [| | |c ex|c d r| | | | | |]; try done.
  - unfold stepInv, note, advance. cbn [step stepKind stepTool inFlight].
    destruct (inFlightTool p c) as [t|] eqn:E; [right; by apply inFlightTool_some in E|by left].
  - unfold stepInv, note. destruct d; [|done..].
    destruct (inFlightTool p c) as [t|] eqn:E; [|done].
    cbn. split; [done|by apply inFlightTool_some in E].
Qed.

Lemma track_stepInv_from p ops : stepInv p → stepInv (foldl trackerStep p ops).
Proof.
  revert p. induction ops as [|[e now|now] ops IH]; intros p H; [done| |]; apply IH; simpl.
  - by apply note_stepInv.
  - done.
Qed.

Lemma note_progress p e now :
  lastProgressAt (note p e now) = (if isProgress e then now else lastProgressAt p) ∧
  progressed (note p e now) = progressed p || isProgress e.
Proof.
  destruct e as [| | |c ex|c d r| | | | | |]; simpl; rewrite ?orb_true_r, ?orb_false_r; try done.
  destruct d; try done. by destruct (inFlightTool p c).
Qed.

Lemma track_progress p ops :
  lastProgressAt (foldl trackerStep p ops) = lastProgress (lastProgressAt p) ops ∧
  progressed (foldl trackerStep p ops) = progressSinceBeat (progressed p) ops.
Proof.
  revert p. induction ops as [|op ops IH]; intros p; [done|]. simpl.
  destruct (IH (trackerStep p op)) as [-> ->]. destruct op as [e now|now]; simpl; [|done].
  by destruct (note_progress p e now) as [-> ->].
Qed.

(** ** Properties *)

(** Heartbeat contract: after any interleaving of events and beats, the snapshot
    a beat takes says whether a progress event arrived since the previous beat
    and how many whole seconds ago the last one was; a reported tool is the call
    in flight, and an ended run reports no step. *)
Theorem tracker_reports_history start ops now :
  let '(snap, p) := snapshot (track start ops) now in
  snapProgressed snap = progressSinceBeat false ops ∧
  snapIdleSeconds snap = Z.max 0 ((now - lastProgress start ops) / 1000) ∧
  progressed p = false ∧ stepInv p.
Proof.
  unfold track. destruct (track_progress (createRunProgress start) ops) as [Hl Hp].
  simpl in *. rewrite Hl, Hp. split_and!; try done.
  pose proof (track_stepInv_from (createRunProgress start) ops) as Hs. by apply Hs.
Qed.

(** A stall is exactly an unexplained silence: a claimed, running run with no
    stop request that is not waiting and has produced nothing for longer than the
    threshold.  A run without a live lease, or one that ended, has no liveness. *)
Theorem assess_stuck_iff s now threshold :
  (livenessState <$> assessRunLiveness s now threshold = Some stuck ↔
   rowStatus s = running ∧ leaseOwner s ≠ None ∧ lastHeartbeatAt s ≠ None ∧
   stopRequestedAt s = None ∧ currentStep s ≠ Some waiting ∧
   ∃ p, rowLastProgressAt s = Some p ∧ (threshold * 1000 < elapsedMs p now)%Z) ∧
  (assessRunLiveness s now threshold = None ↔
   isTerminalStatus (rowStatus s) = true ∨ rowStatus s = queued ∨
   leaseOwner s = None ∨ lastHeartbeatAt s = None ∨ rowLastProgressAt s = None).
Proof.
  destruct s as [st lo stop hb lp cs ct]. unfold assessRunLiveness. cbn [rowStatus leaseOwner
    stopRequestedAt lastHeartbeatAt rowLastProgressAt currentStep currentStepTool].
  destruct (bool_decide (st ≠ running) && bool_decide (st ≠ waiting_approval)) eqn:Est.
  { bools. split; [naive_solver|]. destruct st; naive_solver. }
  assert (st = running ∨ st = waiting_approval) as Hst.
  { bools. destruct Est as [H|H]; bools; destruct st; naive_solver. }
  clear Est. destruct lo as [lo|], hb as [hb|], lp as [lp|]; try (split; naive_solver).
  split.
  - case_bool_decide as H1; [split; [by intros ?; simplify_eq/=|]; intros (?&_&_&?&_); congruence|].
    case_match eqn:H2.
    { split; [by intros ?; simplify_eq/=|]. intros (?&_&_&_&?&_). bools. destruct H2 as [H2|H2]; bools; congruence. }
    bools. case_match eqn:H3; bools; simpl.
    + split; [|done]. intros _. split_and!; try done; [by destruct Hst|by exists lp].
    + split; [by intros ?; simplify_eq/=|]. intros (_ & _ & _ & _ & _ & p & [= ->] & Hp). lia.
  - split; [|destruct Hst; naive_solver].
    intros H. exfalso. repeat case_match; done.
Qed.
