(* ===== verification/MemoryRules.v ===== *)
(** Durable memory rules, packages/core/src/memory-rules.ts: the validators,
    [decideMemoryWrite] and [decideMemoryRestore]. *)

From S2P Require Import Prelude JsText JsValue.

(** [MEMORY_KINDS] and [MEMORY_WRITE_ORIGINS]; a [kind] or an [origin] arrives
    as a string the rules check against its vocabulary. *)
Definition MEMORY_KINDS : list jstr := [u "fact"; u "preference"; u "decision"].
Definition deliberate : jstr := u "deliberate".
Definition agent_proposed : jstr := u "agent_proposed".
Definition MEMORY_WRITE_ORIGINS : list jstr := [deliberate; agent_proposed].

Definition MAX_MEMORY_TITLE_LENGTH : Z := 200.
Definition MAX_MEMORY_CONTENT_LENGTH : Z := 8000.
Definition MAX_MEMORY_REASON_LENGTH : Z := 500.
Definition MAX_MEMORY_DOCUMENT_ID_LENGTH : Z := 200.
Definition MAX_MEMORY_DOCUMENTS_PER_BOT : Z := 200.

Record MemoryDocument := {
  docId : jstr; docKind : jstr; docTitle : jstr; docContent : jstr; docRevision : Z }.

Record MemoryRevision := {
  revDocumentId : jstr; revRevision : Z; revOrigin : jstr; revAuthor : jstr; revReason : jstr;
  revKind : jstr; revTitle : jstr; revContent : jstr; revDeleted : bool }.

(** [WriteOther] is a value whose [action] the switch does not know. *)
Inductive MemoryWrite :=
| WriteCreate (documentId kind title content : jstr)
| WriteUpdate (documentId title content : jstr)
| WriteDelete (documentId : jstr)
| WriteOther (action documentId : jstr).

Definition writeId (w : MemoryWrite) : jstr :=
  match w with
  | WriteCreate d _ _ _ | WriteUpdate d _ _ | WriteDelete d | WriteOther _ d => d
  end.

Record MemoryWriteRequest := {
  reqOrigin : jstr; reqAuthor : jstr; reqReason : jstr; reqWrite : MemoryWrite }.

Record MemoryWriteContext := { ctxDocument : option MemoryDocument; ctxDocumentCount : jsnum }.

Inductive MemoryRuleError :=
| EmptyMemoryTitle
| MemoryTitleTooLong (length : Z)
| EmptyMemoryContent
| MemoryContentTooLong (length : Z)
| MissingMemoryDocumentId
| MemoryDocumentIdTooLong (length : Z)
| MemoryDocumentExists (documentId : jstr)
| MissingMemoryAuthor
| MissingMemoryReason
| MemoryReasonTooLong (length : Z)
| UnknownMemoryKind (value : jstr)
| UnknownMemoryOrigin (value : jstr)
| UnknownMemoryAction (value : jstr)
| UnknownMemoryDocument (documentId : jstr)
| AgentCannotDeleteMemory (documentId : jstr)
| UnknownMemoryRevision (documentId : jstr) (revision : jsnum)
| AgentCannotRestoreMemory (documentId : jstr)
| MemoryDocumentLimitReached (count : Z).

Inductive WriteAction := act_create | act_update | act_delete.

Inductive MemoryWriteDecision :=
| WriteOk (action : WriteAction) (revision : MemoryRevision)
| WriteNoChange
| WriteRefused (error : MemoryRuleError).

Record MemoryRestoreTarget := {
  tgtDocumentId : jstr; tgtKind : jstr; tgtTitle : jstr; tgtContent : jstr;
  tgtRevision : Z; tgtDeleted : bool }.

Record MemoryRestoreRequest := {
  rrOrigin : jstr; rrAuthor : jstr; rrReason : jstr; rrDocumentId : jstr; rrRevision : jsnum }.

Record MemoryRestoreContext := {
  rcDocument : option MemoryRestoreTarget; rcRevision : option MemoryRevision }.

Inductive MemoryRestoreDecision :=
| RestoreOk (revision : MemoryRevision)
| RestoreNoChange
| RestoreRefused (error : MemoryRuleError).

Definition isMemoryKind (v : jstr) : bool := isMember v MEMORY_KINDS.
Definition isMemoryWriteOrigin (v : jstr) : bool := isMember v MEMORY_WRITE_ORIGINS.

(** ** Validators: the first broken rule, or [None] *)

Definition validateCommon (origin author reason : jstr) : option MemoryRuleError :=
  if negb (isMemoryWriteOrigin origin) then Some (UnknownMemoryOrigin origin)
  else if isBlank author then Some MissingMemoryAuthor
  else if isBlank reason then Some MissingMemoryReason
  else if (MAX_MEMORY_REASON_LENGTH <? strlen reason)%Z
       then Some (MemoryReasonTooLong (strlen reason))
  else None.

Definition validateDocumentId (documentId : jstr) : option MemoryRuleError :=
  if isBlank documentId then Some MissingMemoryDocumentId
  else if (MAX_MEMORY_DOCUMENT_ID_LENGTH <? strlen documentId)%Z
       then Some (MemoryDocumentIdTooLong (strlen documentId))
  else None.

Definition validateContent (title content : jstr) : option MemoryRuleError :=
  if isBlank title then Some EmptyMemoryTitle
  else if (MAX_MEMORY_TITLE_LENGTH <? strlen title)%Z
       then Some (MemoryTitleTooLong (strlen title))
  else if isBlank content then Some EmptyMemoryContent
  else if (MAX_MEMORY_CONTENT_LENGTH <? strlen content)%Z
       then Some (MemoryContentTooLong (strlen content))
  else None.

Definition validateWrite (w : MemoryWrite) : option MemoryRuleError :=
  match w with
  | WriteCreate documentId kind title content =>
      if negb (isMemoryKind kind) then Some (UnknownMemoryKind kind)
      else orElse (validateDocumentId documentId) (validateContent title content)
  | WriteUpdate documentId title content =>
      orElse (validateDocumentId documentId) (validateContent title content)
  | WriteDelete documentId => validateDocumentId documentId
  | WriteOther action _ => Some (UnknownMemoryAction action)
  end.

Definition buildRevision (documentId : jstr) (revision : Z) (origin author reason : jstr)
    (kind title content : jstr) (deleted : bool) : MemoryRevision :=
  {| revDocumentId := documentId; revRevision := revision; revOrigin := origin;
     revAuthor := author; revReason := reason; revKind := kind; revTitle := title;
     revContent := content; revDeleted := deleted |}.

(** ** The decisions *)

(** The part of [decideMemoryWrite] after validation, for a count that is a
    non-negative safe integer. *)
Definition decideValidWrite (r : MemoryWriteRequest) (document : option MemoryDocument)
    (documentCount : Z) : MemoryWriteDecision :=
  let build id n := buildRevision id n (reqOrigin r) (reqAuthor r) (reqReason r) in
  match reqWrite r with
  | WriteCreate documentId kind title content =>
      match document with
      | Some _ => WriteRefused (MemoryDocumentExists documentId)
      | None =>
          if (MAX_MEMORY_DOCUMENTS_PER_BOT <=? documentCount)%Z
          then WriteRefused (MemoryDocumentLimitReached documentCount)
          else WriteOk act_create (build documentId 1%Z kind title content false)
      end
  | WriteDelete documentId =>
      if bool_decide (reqOrigin r = agent_proposed)
      then WriteRefused (AgentCannotDeleteMemory documentId)
      else match document with
           | None => WriteRefused (UnknownMemoryDocument documentId)
           | Some d =>
               WriteOk act_delete
                 (build documentId (docRevision d + 1)%Z (docKind d) (docTitle d) (docContent d) true)
           end
  | WriteUpdate documentId title content =>
      match document with
      | None => WriteRefused (UnknownMemoryDocument documentId)
      | Some d =>
          if bool_decide (docTitle d = title) && bool_decide (docContent d = content)
          then WriteNoChange
          else WriteOk act_update
                 (build documentId (docRevision d + 1)%Z (docKind d) title content false)
      end
  | WriteOther action _ => WriteRefused (UnknownMemoryAction action)
  end.

(** [Err n] is the [RangeError] thrown for a bad [documentCount]. *)
Definition decideMemoryWrite (r : MemoryWriteRequest) (ctx : MemoryWriteContext) :
    result jsnum MemoryWriteDecision :=
  match safeInteger (ctxDocumentCount ctx) with
  | None => Err (ctxDocumentCount ctx)
  | Some count =>
      if (count <? 0)%Z then Err (ctxDocumentCount ctx)
      else
        Ok match orElse (validateCommon (reqOrigin r) (reqAuthor r) (reqReason r))
                        (validateWrite (reqWrite r)) with
           | Some invalid => WriteRefused invalid
           | None => decideValidWrite r (ctxDocument ctx) count
           end
  end.

(** The revision a valid restore request names. *)
Definition restoreNumber (n : jsnum) : option Z :=
  z ← safeInteger n; if (z <? 1)%Z then None else Some z.

Definition validateRestore (r : MemoryRestoreRequest) : option MemoryRuleError :=
  match orElse (validateCommon (rrOrigin r) (rrAuthor r) (rrReason r))
               (validateDocumentId (rrDocumentId r)) with
  | Some invalid => Some invalid
  | None =>
      if bool_decide (rrOrigin r = agent_proposed)
      then Some (AgentCannotRestoreMemory (rrDocumentId r))
      else match restoreNumber (rrRevision r) with
           | None => Some (UnknownMemoryRevision (rrDocumentId r) (rrRevision r))
           | Some _ => None
           end
  end.

Definition decideMemoryRestore (r : MemoryRestoreRequest) (ctx : MemoryRestoreContext) :
    MemoryRestoreDecision :=
  match validateRestore r with
  | Some invalid => RestoreRefused invalid
  | None =>
      match rcDocument ctx with
      | None => RestoreRefused (UnknownMemoryDocument (rrDocumentId r))
      | Some d =>
          match rcRevision ctx with
          | None => RestoreRefused (UnknownMemoryRevision (rrDocumentId r) (rrRevision r))
          | Some v =>
              if bool_decide (revDocumentId v ≠ rrDocumentId r)
                 || bool_decide (NInt (revRevision v) ≠ rrRevision r)
              then RestoreRefused (UnknownMemoryRevision (rrDocumentId r) (rrRevision r))
              else if negb (tgtDeleted d) && bool_decide (tgtKind d = revKind v)
                      && bool_decide (tgtTitle d = revTitle v)
                      && bool_decide (tgtContent d = revContent v)
              then RestoreNoChange
              else RestoreOk
                     (buildRevision (rrDocumentId r) (tgtRevision d + 1) (rrOrigin r) (rrAuthor r)
                        (rrReason r) (revKind v) (revTitle v) (revContent v) false)
          end
      end
  end.

(** ** Lemmas *)

(** Within the limits: what every persisted title, content, id and reason obeys. *)
Definition withinLimits (v : MemoryRevision) : Prop :=
  isBlank (revDocumentId v) = false ∧ (strlen (revDocumentId v) ≤ MAX_MEMORY_DOCUMENT_ID_LENGTH)%Z ∧
  isBlank (revAuthor v) = false ∧ isBlank (revReason v) = false ∧
  (strlen (revReason v) ≤ MAX_MEMORY_REASON_LENGTH)%Z ∧
  revOrigin v ∈ MEMORY_WRITE_ORIGINS.

Definition contentWithinLimits (title content : jstr) : Prop :=
  isBlank title = false ∧ (strlen title ≤ MAX_MEMORY_TITLE_LENGTH)%Z ∧
  isBlank content = false ∧ (strlen content ≤ MAX_MEMORY_CONTENT_LENGTH)%Z.

Lemma orElse_none {E} (a b : option E) : orElse a b = None ↔ a = None ∧ b = None.
Proof. destruct a; naive_solver. Qed.

Lemma validateCommon_none o a r :
  validateCommon o a r = None ↔
  o ∈ MEMORY_WRITE_ORIGINS ∧ isBlank a = false ∧ isBlank r = false ∧
  (strlen r ≤ MAX_MEMORY_REASON_LENGTH)%Z.
Proof.
  unfold validateCommon, isMemoryWriteOrigin. rewrite <- isMember_true.
  destruct (isMember o _); simpl; [|naive_solver].
  destruct (isBlank a); [naive_solver|]. destruct (isBlank r); [naive_solver|].
  destruct (Z.ltb_spec MAX_MEMORY_REASON_LENGTH (strlen r)); naive_solver lia.
Qed.

Lemma validateDocumentId_none d :
  validateDocumentId d = None ↔
  isBlank d = false ∧ (strlen d ≤ MAX_MEMORY_DOCUMENT_ID_LENGTH)%Z.
Proof.
  unfold validateDocumentId. destruct (isBlank d); [naive_solver|].
  destruct (Z.ltb_spec MAX_MEMORY_DOCUMENT_ID_LENGTH (strlen d)); naive_solver lia.
Qed.

Lemma validateContent_none t c : validateContent t c = None ↔ contentWithinLimits t c.
Proof.
  unfold validateContent, contentWithinLimits. destruct (isBlank t); [naive_solver|].
  destruct (Z.ltb_spec MAX_MEMORY_TITLE_LENGTH (strlen t)); [naive_solver lia|].
  destruct (isBlank c); [naive_solver|].
  destruct (Z.ltb_spec MAX_MEMORY_CONTENT_LENGTH (strlen c)); naive_solver lia.
Qed.

Lemma restoreNumber_some n z : restoreNumber n = Some z → n = NInt z ∧ (1 ≤ z)%Z.
Proof.
  unfold restoreNumber. destruct (safeInteger n) as [z'|] eqn:E; [|done].
  apply safeInteger_some in E as [-> _]. cbn [mbind option_bind]. case_match eqn:F; [done|].
  intros [= <-]. by bools.
Qed.

(** The path comes before the target: no context makes an agent deletion pass. *)
Lemma agent_delete_refused r d ctx a v :
  reqOrigin r = agent_proposed → reqWrite r = WriteDelete d →
  decideMemoryWrite r ctx ≠ Ok (WriteOk a v).
Proof.
  intros Ho Hw.
  unfold decideMemoryWrite. destruct (safeInteger _); [|done]. case_match; [done|].
  destruct (orElse _ _); [done|]. unfold decideValidWrite. by rewrite Hw, bool_decide_true.
Qed.

(** The revision a decision carries, field by field. *)
Lemma decideMemoryWrite_ok r ctx a v :
  decideMemoryWrite r ctx = Ok (WriteOk a v) →
  match reqWrite r with
  | WriteCreate d k t c =>
      a = act_create ∧ ctxDocument ctx = None ∧
      v = buildRevision d 1 (reqOrigin r) (reqAuthor r) (reqReason r) k t c false
  | WriteUpdate d t c =>
      a = act_update ∧ ∃ x, ctxDocument ctx = Some x ∧
      v = buildRevision d (docRevision x + 1) (reqOrigin r) (reqAuthor r) (reqReason r)
            (docKind x) t c false
  | WriteDelete d =>
      a = act_delete ∧ ∃ x, ctxDocument ctx = Some x ∧
      v = buildRevision d (docRevision x + 1) (reqOrigin r) (reqAuthor r) (reqReason r)
            (docKind x) (docTitle x) (docContent x) true
  | WriteOther _ _ => False
  end.
Proof.
  unfold decideMemoryWrite. destruct (safeInteger _); [|done]. case_match; [done|].
  destruct (orElse _ _); [done|]. unfold decideValidWrite.
  destruct (reqWrite r), (ctxDocument ctx); try done; repeat case_match; try done;
    intros ?; simplify_eq; eauto.
Qed.

(** A create passes only below the cap. *)
Lemma create_below_cap r ctx a v d k t c :
  decideMemoryWrite r ctx = Ok (WriteOk a v) → reqWrite r = WriteCreate d k t c →
  ∃ n, ctxDocumentCount ctx = NInt n ∧ (0 ≤ n < MAX_MEMORY_DOCUMENTS_PER_BOT)%Z.
Proof.
  unfold decideMemoryWrite. intros H Hw.
  destruct (safeInteger _) as [n|] eqn:En; [|done]. apply safeInteger_some in En as [En _].
  case_match eqn:Hn; [done|]. destruct (orElse _ _); [done|].
  unfold decideValidWrite in H. rewrite Hw in H. destruct (ctxDocument ctx); [done|].
  case_match eqn:Hcap; [done|]. bools. eauto.
Qed.

(** A restore that passes is not an agent's. *)
Lemma restore_operator_only r ctx v :
  decideMemoryRestore r ctx = RestoreOk v → rrOrigin r ≠ agent_proposed.
Proof.
  unfold decideMemoryRestore, validateRestore. destruct (orElse _ _); [done|].
  by case_bool_decide.
Qed.

(** [no_change] answers only for a live document. *)
Lemma restore_no_change r ctx :
  decideMemoryRestore r ctx = RestoreNoChange →
  ∃ d, rcDocument ctx = Some d ∧ tgtDeleted d = false.
Proof.
  unfold decideMemoryRestore. destruct (validateRestore r); [done|].
  destruct (rcDocument ctx) as [d|]; [|done]. destruct (rcRevision ctx); [|done].
  case_match; [done|]. case_match eqn:Hsame; [|done]. bools. eauto.
Qed.

(** A well-formed operator request about rows that are there is not refused. *)
Lemma restore_refused_spec r d v e z :
  decideMemoryRestore r {| rcDocument := Some d; rcRevision := Some v |} = RestoreRefused e →
  validateCommon (rrOrigin r) (rrAuthor r) (rrReason r) = None →
  validateDocumentId (rrDocumentId r) = None → rrOrigin r ≠ agent_proposed →
  restoreNumber (rrRevision r) = Some z →
  revDocumentId v = rrDocumentId r → rrRevision r = NInt (revRevision v) → False.
Proof.
  unfold decideMemoryRestore, validateRestore. intros H Hc Hd Ha Hn Hid Hrev.
  rewrite Hc, Hd in H. cbn [orElse] in H. rewrite bool_decide_false, Hn in H by done.
  cbn [rcDocument rcRevision] in H.
  rewrite !bool_decide_false in H by (intros Hne; apply Hne; congruence).
  cbn [orb] in H. by case_match.
Qed.

(** ** Properties *)

(** Every revision a write yields is attributable and bounded: it names the
    request's target, origin, author and reason within their limits; a create is
    revision 1 of a known kind below the per-bot cap, any other write is the
    successor of the document it found; rewritten text obeys the content limits;
    a rewrite changes something; and an agent proposal never deletes. *)
Theorem memory_write_sound r ctx action v :
  decideMemoryWrite r ctx = Ok (WriteOk action v) →
  withinLimits v ∧
  revDocumentId v = writeId (reqWrite r) ∧ revOrigin v = reqOrigin r ∧
  revAuthor v = reqAuthor r ∧ revReason v = reqReason r ∧
  match action with
  | act_create =>
      ctxDocument ctx = None ∧ revRevision v = 1%Z ∧ revDeleted v = false ∧
      revKind v ∈ MEMORY_KINDS ∧ contentWithinLimits (revTitle v) (revContent v) ∧
      ∃ n, ctxDocumentCount ctx = NInt n ∧ (0 ≤ n < MAX_MEMORY_DOCUMENTS_PER_BOT)%Z
  | act_update =>
      revDeleted v = false ∧ contentWithinLimits (revTitle v) (revContent v) ∧
      ∃ d, ctxDocument ctx = Some d ∧ revRevision v = (docRevision d + 1)%Z ∧
        revKind v = docKind d ∧ (revTitle v, revContent v) ≠ (docTitle d, docContent d)
  | act_delete =>
      revDeleted v = true ∧ reqOrigin r ≠ agent_proposed ∧
      ∃ d, ctxDocument ctx = Some d ∧ revRevision v = (docRevision d + 1)%Z ∧
        (revKind v, revTitle v, revContent v) = (docKind d, docTitle d, docContent d)
  end.
Proof.
  unfold decideMemoryWrite. intros H.
  destruct (safeInteger _) as [n|] eqn:En; [|done]. apply safeInteger_some in En as [En _].
  case_match eqn:Hn; [done|]. bools. injection H as H.
  destruct (orElse _ _) eqn:Hv; [done|]. apply orElse_none in Hv as [Hc Hw].
  apply validateCommon_none in Hc as (Ho & Ha & Hr & Hlen).
  unfold decideValidWrite, validateWrite in *.
  destruct (reqWrite r) as [d k t c|d t c|d|a d] eqn:Ew; [| | |done].
  - destruct (isMemoryKind k) eqn:Hk; [|done]. apply orElse_none in Hw as [Hd Ht].
    apply validateDocumentId_none in Hd as [??]. apply validateContent_none in Ht.
    apply isMember_true in Hk. destruct (ctxDocument ctx); [done|].
    case_match eqn:Hcap; [done|]. bools. simplify_eq. split_and!; try done. by exists n.
  - apply orElse_none in Hw as [Hd Ht].
    apply validateDocumentId_none in Hd as [??]. apply validateContent_none in Ht.
    destruct (ctxDocument ctx) as [x|]; [|done]. case_match eqn:Hsame; [done|].
    simplify_eq. split_and!; try done. exists x. split_and!; try done.
    intros [= E1 E2]. simpl in E1, E2. bools. destruct Hsame; bools; congruence.
  - apply validateDocumentId_none in Hw as [??].
    case_bool_decide; [done|]. destruct (ctxDocument ctx) as [x|]; [|done].
    simplify_eq. split_and!; try done. by exists x.
Qed.

(** A restore that is accepted is the operator's: it reapplies exactly the named
    revision of that document as its next revision, live again, and it changes
    the document. *)
Theorem memory_restore_sound r ctx v :
  decideMemoryRestore r ctx = RestoreOk v →
  rrOrigin r ≠ agent_proposed ∧ withinLimits v ∧ revDeleted v = false ∧
  ∃ d w, rcDocument ctx = Some d ∧ rcRevision ctx = Some w ∧
    revDocumentId w = rrDocumentId r ∧ rrRevision r = NInt (revRevision w) ∧
    (1 ≤ revRevision w)%Z ∧ revRevision v = (tgtRevision d + 1)%Z ∧
    (revKind v, revTitle v, revContent v) = (revKind w, revTitle w, revContent w) ∧
    (tgtDeleted d = true ∨
     (tgtKind d, tgtTitle d, tgtContent d) ≠ (revKind w, revTitle w, revContent w)).
Proof.
  intros H. pose proof (restore_operator_only _ _ _ H) as Hop. revert H.
  unfold decideMemoryRestore, validateRestore. intros H.
  destruct (orElse _ _) eqn:Hv; [done|]. apply orElse_none in Hv as [Hc Hd].
  apply validateCommon_none in Hc as (Ho & Ha & Hr & Hlen).
  apply validateDocumentId_none in Hd as [??].
  case_bool_decide as Hag; [done|].
  destruct (restoreNumber _) as [z|] eqn:Ez; [|done]. apply restoreNumber_some in Ez as [Ez ?].
  destruct (rcDocument ctx) as [d|]; [|done]. destruct (rcRevision ctx) as [w|]; [|done].
  case_match eqn:Hid; [done|]. apply orb_false_iff in Hid as [Hi1 Hi2]. bools.
  apply dec_stable in Hi1, Hi2. case_match eqn:Hsame; [done|]. simplify_eq.
  split_and!; try done. exists d, w.
  assert (revRevision w = z) as Hz by congruence.
  split_and!; try done; [by rewrite Hz|].
  destruct (tgtDeleted d); [by left|right]. intros [= E1 E2 E3].
  rewrite !bool_decide_true in Hsame by done. done.
Qed.

(** ** Witnesses *)

Definition sampleDocument : MemoryDocument :=
  {| docId := u "doc-1"; docKind := u "fact"; docTitle := u "Port"; docContent := u "5432";
     docRevision := 3 |}.

Definition sampleUpdate : MemoryWriteRequest :=
  {| reqOrigin := agent_proposed; reqAuthor := u "bot-1"; reqReason := u "moved";
     reqWrite := WriteUpdate (u "doc-1") (u "Port") (u "6432") |}.

Definition sampleUpdateRevision : MemoryRevision :=
  buildRevision (u "doc-1") 4 agent_proposed (u "bot-1") (u "moved") (u "fact") (u "Port")
    (u "6432") false.

Lemma memory_write_sound_witness :
  withinLimits sampleUpdateRevision ∧ revRevision sampleUpdateRevision = 4%Z.
Proof.
  split; [|reflexivity].
  apply (memory_write_sound sampleUpdate
    {| ctxDocument := Some sampleDocument; ctxDocumentCount := NInt 7 |} act_update).
  vm_compute. reflexivity.
Defined.

Definition sampleRestore : MemoryRestoreRequest :=
  {| rrOrigin := deliberate; rrAuthor := u "user-1"; rrReason := u "undo";
     rrDocumentId := u "doc-1"; rrRevision := NInt 4 |}.

Definition sampleTombstone : MemoryRestoreTarget :=
  {| tgtDocumentId := u "doc-1"; tgtKind := u "fact"; tgtTitle := u "Port";
     tgtContent := u "6432"; tgtRevision := 5; tgtDeleted := true |}.

Lemma memory_restore_sound_witness :
  rrOrigin sampleRestore ≠ agent_proposed ∧
  revDeleted (buildRevision (u "doc-1") 6 deliberate (u "user-1") (u "undo") (u "fact")
    (u "Port") (u "6432") false) = false.
Proof.
  destruct (memory_restore_sound sampleRestore
    {| rcDocument := Some sampleTombstone; rcRevision := Some sampleUpdateRevision |}
    (buildRevision (u "doc-1") 6 deliberate (u "user-1") (u "undo") (u "fact") (u "Port")
      (u "6432") false)) as (H1 & _ & H3 & _);
    [vm_compute; reflexivity | split; assumption].
Defined.
