(* ===== verification/MemoryStore.v ===== *)
(** Durable memory rows, packages/db/src/memory-store.ts: the two tables, the
    four single-statement writes, the operator's and the run's half of the
    store, and the invariant every interleaving of them keeps.

    A write reads its context first and writes with one statement later, and the
    read is not a lock.  [applyWrite] and [restoreRevision] therefore take two
    databases: [pre], the rows the context was read from, and [db], the rows the
    statement runs on.  The safety theorems hold for every [pre]; the sequential
    case is [pre = db].  Instants are milliseconds, and a text is stored as the
    code units it is given. *)

From S2P Require Import Prelude JsText JsValue MemoryRules.

(** ** Rows (packages/db/src/schema/memory.ts) *)

(** A [memory_document] row, keyed by [(bot_id, document_id)]. *)
Record DocumentRow := {
  dSpace : jstr; dKind : jstr; dTitle : jstr; dContent : jstr; dRevision : Z;
  dDeletedAt : option Z }.

(** A [memory_revision] row. *)
Record RevisionRow := {
  rSpace : jstr; rBot : jstr; rRevision : MemoryRevision; rCreatedAt : Z }.

(** [bots] is the [bot] table's id and space columns; [revisions] is in insert
    order. *)
Record Database := {
  bots : gmap jstr jstr;
  documents : gmap (jstr * jstr) DocumentRow;
  revisions : list RevisionRow }.

(** The [integer] column's range. *)
Definition PG_INTEGER_MAX : Z := 2147483647.

Definition isLive (row : DocumentRow) : bool := bool_decide (dDeletedAt row = None).

Definition toDocument (documentId : jstr) (row : DocumentRow) : MemoryDocument :=
  {| docId := documentId; docKind := dKind row; docTitle := dTitle row;
     docContent := dContent row; docRevision := dRevision row |}.

(** ** Reads *)

Definition findDocumentRow (db : Database) (spaceId botId documentId : jstr) :
    option DocumentRow :=
  match documents db !! (botId, documentId) with
  | Some row => if bool_decide (dSpace row = spaceId) then Some row else None
  | None => None
  end.

Definition findLiveDocument (db : Database) (spaceId botId documentId : jstr) :
    option DocumentRow :=
  match findDocumentRow db spaceId botId documentId with
  | Some row => if isLive row then Some row else None
  | None => None
  end.

(** The rows one document's history holds, in insert order. *)
Definition ofDocument (botId documentId : jstr) (r : RevisionRow) : bool :=
  bool_decide (rBot r = botId) && bool_decide (revDocumentId (rRevision r) = documentId).

Definition historyOf (db : Database) (botId documentId : jstr) : list RevisionRow :=
  List.filter (ofDocument botId documentId) (revisions db).

Definition matchesRevision (spaceId botId documentId : jstr) (revision : Z) (r : RevisionRow) :
    bool :=
  bool_decide (rSpace r = spaceId) && ofDocument botId documentId r
  && (revRevision (rRevision r) =? revision)%Z.

(** [None] when the driver rejects the parameter: the column is an integer. *)
Definition findRevision (db : Database) (spaceId botId documentId : jstr) (revision : jsnum) :
    option (option RevisionRow) :=
  match integerOf revision with
  | Some z =>
      if (Z.abs z <=? PG_INTEGER_MAX)%Z
      then Some (List.find (matchesRevision spaceId botId documentId z) (revisions db))
      else None
  | None => None
  end.

Definition liveIn (spaceId botId : jstr) (e : (jstr * jstr) * DocumentRow) : Prop :=
  e.1.1 = botId ∧ dSpace e.2 = spaceId ∧ dDeletedAt e.2 = None.

#[export] Instance liveIn_dec spaceId botId e : Decision (liveIn spaceId botId e).
Proof. unfold liveIn. apply _. Defined.

Definition liveDocumentCount (db : Database) (spaceId botId : jstr) : Z :=
  Z.of_nat (size (filter (liveIn spaceId botId) (documents db))).

Definition botInScope (db : Database) (spaceId botId : jstr) : bool :=
  bool_decide (bots db !! botId = Some spaceId).

(** ** Outcomes *)

Inductive StoreAction := st_create | st_update | st_delete | st_restore.

Inductive MemoryWriteOutcome :=
| Persisted (action : StoreAction) (revision : RevisionRow)
| NoChange
| Refused (error : MemoryRuleError).

(** What a call throws. *)
Inductive StoreFailure := NotFoundBot (botId : jstr) | InvalidCount (n : jsnum) | DatabaseError.

Abbreviation StoreResult := (result StoreFailure MemoryWriteOutcome * Database)%type.

(** ** Statements *)

(** Who writes, in which scope and why: the fields every statement binds. *)
Record WriteMeta := {
  wSpace : jstr; wBot : jstr; wOrigin : jstr; wAuthor : jstr; wReason : jstr; wNow : Z }.

(** The revision the insert takes from the document row the update returned. *)
Definition revisionFrom (m : WriteMeta) (documentId : jstr) (row : DocumentRow) (deleted : bool) :
    RevisionRow :=
  {| rSpace := wSpace m; rBot := wBot m; rCreatedAt := wNow m;
     rRevision := buildRevision documentId (dRevision row) (wOrigin m) (wAuthor m) (wReason m)
                    (dKind row) (dTitle row) (dContent row) deleted |}.

Definition sameKey (r r' : RevisionRow) : bool :=
  ofDocument (rBot r) (revDocumentId (rRevision r)) r'
  && (revRevision (rRevision r') =? revRevision (rRevision r))%Z.

(** One statement's writes: the row and its revision together, or neither when
    the number leaves the column's range or the unique index refuses it. *)
Definition commit (db : Database) (action : StoreAction) (m : WriteMeta) (documentId : jstr)
    (row : DocumentRow) (deleted : bool) : StoreResult :=
  let r := revisionFrom m documentId row deleted in
  if (PG_INTEGER_MAX <? dRevision row)%Z then (Err DatabaseError, db)
  else if existsb (sameKey r) (revisions db) then (Err DatabaseError, db)
  else (Ok (Persisted action r),
        {| bots := bots db; documents := <[(wBot m, documentId) := row]> (documents db);
           revisions := revisions db ++ [r] |}).

Definition createDocument (db : Database) (m : WriteMeta) (documentId kind title content : jstr) :
    StoreResult :=
  if botInScope db (wSpace m) (wBot m) then
    match documents db !! (wBot m, documentId) with
    | Some _ => (Ok (Refused (MemoryDocumentExists documentId)), db)
    | None =>
        commit db st_create m documentId
          {| dSpace := wSpace m; dKind := kind; dTitle := title; dContent := content;
             dRevision := 1; dDeletedAt := None |} false
    end
  else (Err (NotFoundBot (wBot m)), db).

Definition reviseDocument (db : Database) (m : WriteMeta) (documentId title content : jstr) :
    StoreResult :=
  match findLiveDocument db (wSpace m) (wBot m) documentId with
  | None => (Ok (Refused (UnknownMemoryDocument documentId)), db)
  | Some row =>
      commit db st_update m documentId
        {| dSpace := dSpace row; dKind := dKind row; dTitle := title; dContent := content;
           dRevision := dRevision row + 1; dDeletedAt := dDeletedAt row |} false
  end.

Definition tombstoneDocument (db : Database) (m : WriteMeta) (documentId : jstr) : StoreResult :=
  match findLiveDocument db (wSpace m) (wBot m) documentId with
  | None => (Ok (Refused (UnknownMemoryDocument documentId)), db)
  | Some row =>
      commit db st_delete m documentId
        {| dSpace := dSpace row; dKind := dKind row; dTitle := dTitle row;
           dContent := dContent row; dRevision := dRevision row + 1;
           dDeletedAt := Some (wNow m) |} true
  end.

(** ** The write path *)

Definition applyWrite (pre db : Database) (m : WriteMeta) (write : MemoryWrite) : StoreResult :=
  let existing := findLiveDocument pre (wSpace m) (wBot m) (writeId write) in
  let documentCount := liveDocumentCount pre (wSpace m) (wBot m) in
  match decideMemoryWrite
          {| reqOrigin := wOrigin m; reqAuthor := wAuthor m; reqReason := wReason m;
             reqWrite := write |}
          {| ctxDocument := toDocument (writeId write) <$> existing;
             ctxDocumentCount := NInt documentCount |} with
  | Err n => (Err (InvalidCount n), db)
  | Ok (WriteRefused e) => (Ok (Refused e), db)
  | Ok WriteNoChange => (Ok NoChange, db)
  | Ok (WriteOk _ _) =>
      match write with
      | WriteCreate documentId kind title content =>
          createDocument db m documentId kind title content
      | WriteDelete documentId => tombstoneDocument db m documentId
      | WriteUpdate documentId title content => reviseDocument db m documentId title content
      | WriteOther action _ => (Ok (Refused (UnknownMemoryAction action)), db)
      end
  end.

(** ** The restore path *)

Definition restoreTarget (documentId : jstr) (row : DocumentRow) : MemoryRestoreTarget :=
  {| tgtDocumentId := documentId; tgtKind := dKind row; tgtTitle := dTitle row;
     tgtContent := dContent row; tgtRevision := dRevision row; tgtDeleted := negb (isLive row) |}.

Definition restoreStatement (db : Database) (m : WriteMeta) (documentId : jstr)
    (revision : jsnum) : StoreResult :=
  let missing := (Ok (Refused (UnknownMemoryRevision documentId revision)), db) in
  match findRevision db (wSpace m) (wBot m) documentId revision with
  | None => (Err DatabaseError, db)
  | Some None => missing
  | Some (Some t) =>
      match findDocumentRow db (wSpace m) (wBot m) documentId with
      | None => missing
      | Some row =>
          commit db st_restore m documentId
            {| dSpace := dSpace row; dKind := revKind (rRevision t);
               dTitle := revTitle (rRevision t); dContent := revContent (rRevision t);
               dRevision := dRevision row + 1; dDeletedAt := None |} false
      end
  end.

Definition restoreRevision (pre db : Database) (m : WriteMeta) (documentId : jstr)
    (revision : jsnum) : StoreResult :=
  match findRevision pre (wSpace m) (wBot m) documentId revision with
  | None => (Err DatabaseError, db)
  | Some target =>
      match decideMemoryRestore
              {| rrOrigin := wOrigin m; rrAuthor := wAuthor m; rrReason := wReason m;
                 rrDocumentId := documentId; rrRevision := revision |}
              {| rcDocument := restoreTarget documentId <$>
                   findDocumentRow pre (wSpace m) (wBot m) documentId;
                 rcRevision := rRevision <$> target |} with
      | RestoreRefused e => (Ok (Refused e), db)
      | RestoreNoChange => (Ok NoChange, db)
      | RestoreOk _ => restoreStatement db m documentId revision
      end
  end.

(** ** The store: which operations an actor holds *)

Inductive Actor := SystemActor (spaceId : jstr) | UserActor (spaceId userId : jstr).

Definition actorSpace (a : Actor) : jstr :=
  match a with SystemActor s | UserActor s _ => s end.

Inductive MemoryOp :=
| OpWrite (botId reason : jstr) (write : MemoryWrite)
| OpRestore (botId documentId : jstr) (revision : jsnum) (reason : jstr).

Definition opBot (op : MemoryOp) : jstr :=
  match op with OpWrite b _ _ | OpRestore b _ _ _ => b end.

(** [None] where the actor's half of the store has no such method: the run's
    half proposes, the operator's half writes and restores. *)
Definition createMemoryStore (actor : Actor) (pre db : Database) (now : Z) (op : MemoryOp) :
    option StoreResult :=
  match actor, op with
  | SystemActor spaceId, OpWrite botId reason write =>
      Some (applyWrite pre db
              {| wSpace := spaceId; wBot := botId; wOrigin := agent_proposed; wAuthor := botId;
                 wReason := reason; wNow := now |} write)
  | SystemActor _, OpRestore _ _ _ _ => None
  | UserActor spaceId userId, OpWrite botId reason write =>
      Some (applyWrite pre db
              {| wSpace := spaceId; wBot := botId; wOrigin := deliberate; wAuthor := userId;
                 wReason := reason; wNow := now |} write)
  | UserActor spaceId userId, OpRestore botId documentId revision reason =>
      Some (restoreRevision pre db
              {| wSpace := spaceId; wBot := botId; wOrigin := deliberate; wAuthor := userId;
                 wReason := reason; wNow := now |} documentId revision)
  end.

(** One call against rows other callers may have changed since it read them. *)
Inductive storeStep : Database → Database → Prop :=
| store_step actor pre db now op res db' :
    createMemoryStore actor pre db now op = Some (res, db') → storeStep db db'.

(** ** The invariant *)

(** What a history ends in is what the row holds. *)
Definition rowState (row : DocumentRow) : jstr * jstr * jstr * bool :=
  (dKind row, dTitle row, dContent row, negb (isLive row)).

Definition revisionState (v : MemoryRevision) : jstr * jstr * jstr * bool :=
  (revKind v, revTitle v, revContent v, revDeleted v).

(** The numbers of a history are 1, 2, ..., n with n the row's own number. *)
Definition gapless (h : list RevisionRow) (n : Z) : Prop :=
  (λ r, revRevision (rRevision r)) <$> h = seqZ 1 n.

Definition historyOk (h : list RevisionRow) (row : DocumentRow) : Prop :=
  (1 ≤ dRevision row ≤ PG_INTEGER_MAX)%Z ∧ gapless h (dRevision row) ∧
  (λ r, revisionState (rRevision r)) <$> last h = Some (rowState row) ∧
  Forall (λ r, rSpace r = dSpace row) h.

Definition storeInv (db : Database) : Prop :=
  ∀ b d, match documents db !! (b, d) with
         | Some row => bots db !! b = Some (dSpace row) ∧ historyOk (historyOf db b d) row
         | None => historyOf db b d = []
         end.

(** ** Lemmas *)

Lemma historyOf_app db b d r :
  List.filter (ofDocument b d) (revisions db ++ [r]) =
  historyOf db b d ++ if ofDocument b d r then [r] else [].
Proof. rewrite List.filter_app. simpl. by destruct (ofDocument b d r). Qed.

Lemma ofDocument_revisionFrom m d row del b d' :
  ofDocument b d' (revisionFrom m d row del) = bool_decide (wBot m = b ∧ d = d').
Proof. unfold ofDocument. simpl. by rewrite bool_decide_and. Qed.

Lemma elem_historyOf db b d r : r ∈ historyOf db b d ↔ r ∈ revisions db ∧ ofDocument b d r = true.
Proof. unfold historyOf. rewrite !list_elem_of_In. apply filter_In. Qed.

Lemma findDocumentRow_some db s b d row :
  findDocumentRow db s b d = Some row ↔ documents db !! (b, d) = Some row ∧ dSpace row = s.
Proof. unfold findDocumentRow. destruct (documents db !! (b, d)); [case_bool_decide|]; naive_solver. Qed.

Lemma findLiveDocument_some db s b d row :
  findLiveDocument db s b d = Some row ↔
  documents db !! (b, d) = Some row ∧ dSpace row = s ∧ dDeletedAt row = None.
Proof.
  unfold findLiveDocument, isLive. destruct (findDocumentRow db s b d) as [row'|] eqn:E.
  - apply findDocumentRow_some in E as [? <-]. case_bool_decide; naive_solver.
  - split; [done|]. intros (? & ? & ?). 
    assert (findDocumentRow db s b d = Some row); [by apply findDocumentRow_some|congruence].
Qed.

Lemma findRevision_some db s b d n r :
  findRevision db s b d n = Some (Some r) →
  r ∈ historyOf db b d ∧ n = NInt (revRevision (rRevision r)) ∧ rSpace r = s.
Proof.
  unfold findRevision. destruct (integerOf n) as [z|] eqn:Ez; [|done].
  case_match eqn:Ef; [|done].
  intros [= [Hin Hm]%find_some_elem]. unfold matchesRevision in Hm. bools.
  rewrite elem_historyOf. destruct n; simplify_eq/=. auto.
Qed.

(** A unique-index collision names a number the history already holds. *)
Lemma sameKey_history db m d row del n :
  gapless (historyOf db (wBot m) d) n → (n < dRevision row)%Z →
  existsb (sameKey (revisionFrom m d row del)) (revisions db) = false.
Proof.
  intros Hg Hn. apply existsb_false. intros r' Hr. unfold sameKey. cbn.
  destruct (ofDocument (wBot m) d r') eqn:Ho; [|done]. simpl. apply Z.eqb_neq.
  assert (revRevision (rRevision r') ∈ seqZ 1 n) as Hin.
  { rewrite <- Hg. apply list_elem_of_fmap. exists r'. split; [done|]. by apply elem_historyOf. }
  apply elem_of_seqZ in Hin. lia.
Qed.

(** What a commit does, when it does something. *)
Lemma commit_inv db a m d row del res db' :
  commit db a m d row del = (res, db') →
  (res = Err DatabaseError ∧ db' = db) ∨
  (res = Ok (Persisted a (revisionFrom m d row del)) ∧ bots db' = bots db ∧
   documents db' = <[(wBot m, d) := row]> (documents db) ∧
   revisions db' = revisions db ++ [revisionFrom m d row del] ∧
   (dRevision row ≤ PG_INTEGER_MAX)%Z).
Proof.
  unfold commit. intros H. case_match eqn:Hmax; [left; naive_solver|].
  case_match; [left; naive_solver|]. right. bools. simplify_eq. by split_and!.
Qed.

(** The row a statement writes next, given the row it found. *)
Definition advances (db : Database) (m : WriteMeta) (d : jstr) (row : DocumentRow) : Prop :=
  bots db !! wBot m = Some (dSpace row) ∧ dSpace row = wSpace m ∧
  match documents db !! (wBot m, d) with
  | Some old => dRevision row = (dRevision old + 1)%Z ∧ dSpace row = dSpace old
  | None => dRevision row = 1%Z
  end.

Lemma gapless_snoc h n r :
  (0 ≤ n)%Z → gapless h n → revRevision (rRevision r) = (n + 1)%Z → gapless (h ++ [r]) (n + 1).
Proof.
  unfold gapless. intros ? Hg Hr. rewrite fmap_app, Hg. simpl.
  rewrite Hr, seqZ_app by lia. f_equal.
  change (seqZ (1 + n) 1) with [(0 + (1 + n))%Z]. f_equal. lia.
Qed.

Lemma advances_history db m d row :
  storeInv db → advances db m d row →
  ∃ n, (0 ≤ n)%Z ∧ dRevision row = (n + 1)%Z ∧ gapless (historyOf db (wBot m) d) n ∧
    Forall (λ r, rSpace r = dSpace row) (historyOf db (wBot m) d).
Proof.
  intros Hinv (_ & _ & Ha). specialize (Hinv (wBot m) d).
  destruct (documents db !! (wBot m, d)) as [old|].
  - destruct Hinv as (_ & H1 & Hg & _ & Hf), Ha as [Hr Hs].
    exists (dRevision old). split_and!; [lia|done|done|]. by rewrite Hs.
  - cbn in Ha. exists 0%Z. rewrite Hinv. split_and!; [lia|by rewrite Ha|done|constructor].
Qed.

Lemma commit_keeps db a m d row del res db' :
  storeInv db → advances db m d row → del = negb (isLive row) →
  commit db a m d row del = (res, db') → storeInv db'.
Proof.
  intros Hinv Hadv Hdel [[_ ->]|(-> & Hb & Hd & Hr & Hmax)]%commit_inv; [done|].
  destruct (advances_history _ _ _ _ Hinv Hadv) as (n & Hn & Hrow & Hg & Hf).
  destruct Hadv as (Hbot & Hsp & _).
  intros b d'. unfold historyOf. rewrite Hd, Hr, Hb, historyOf_app, ofDocument_revisionFrom.
  destruct (decide ((wBot m, d) = (b, d'))) as [[= <- <-]|Hne].
  - rewrite lookup_insert_eq, bool_decide_true by done. split; [done|].
    split_and!; [lia|done| | |].
    + rewrite Hrow. by apply gapless_snoc.
    + rewrite last_snoc. simpl. unfold revisionState, rowState. simpl. by rewrite Hdel.
    + apply Forall_app. split; [done|]. by repeat constructor.
  - rewrite lookup_insert_ne by done. rewrite bool_decide_false by naive_solver.
    rewrite app_nil_r. apply Hinv.
Qed.

(** Every statement leaves the rows alone or commits a row that advances them. *)
Inductive Effect (db : Database) (m : WriteMeta) : StoreResult → Prop :=
| eff_none res : (∀ a r, res ≠ Ok (Persisted a r)) → Effect db m (res, db)
| eff_commit a d row del :
    advances db m d row → del = negb (isLive row) → Effect db m (commit db a m d row del).

Lemma advances_next db m d old row :
  storeInv db → documents db !! (wBot m, d) = Some old → dSpace old = wSpace m →
  dSpace row = dSpace old → dRevision row = (dRevision old + 1)%Z → advances db m d row.
Proof.
  intros Hinv Hold Hs Hs' Hr. specialize (Hinv (wBot m) d). rewrite Hold in Hinv.
  unfold advances. rewrite Hold. split_and!; try congruence. by rewrite Hs', (proj1 Hinv).
Qed.

Lemma createDocument_effect db m d k t c : Effect db m (createDocument db m d k t c).
Proof.
  unfold createDocument, botInScope. case_bool_decide as Hb; [|by constructor].
  destruct (documents db !! (wBot m, d)) eqn:E; [by constructor|].
  constructor; [|done]. unfold advances. by rewrite E.
Qed.

Lemma reviseDocument_effect db m d t c :
  storeInv db → Effect db m (reviseDocument db m d t c).
Proof.
  intros Hinv. unfold reviseDocument.
  destruct (findLiveDocument db _ _ d) as [row|] eqn:E; [|by constructor].
  apply findLiveDocument_some in E as (E & Hs & Hl).
  constructor; [by eapply advances_next|]. unfold isLive. simpl. by rewrite Hl.
Qed.

Lemma tombstoneDocument_effect db m d :
  storeInv db → Effect db m (tombstoneDocument db m d).
Proof.
  intros Hinv. unfold tombstoneDocument.
  destruct (findLiveDocument db _ _ d) as [row|] eqn:E; [|by constructor].
  apply findLiveDocument_some in E as (E & Hs & Hl).
  constructor; [by eapply advances_next|done].
Qed.

Lemma restoreStatement_effect db m d n :
  storeInv db → Effect db m (restoreStatement db m d n).
Proof.
  intros Hinv. unfold restoreStatement.
  destruct (findRevision _ _ _ _ _) as [[t|]|]; try by constructor.
  destruct (findDocumentRow db _ _ d) as [row|] eqn:E; [|by constructor].
  apply findDocumentRow_some in E as [E Hs].
  constructor; [by eapply advances_next|done].
Qed.

Lemma applyWrite_effect pre db m w : storeInv db → Effect db m (applyWrite pre db m w).
Proof.
  intros Hinv. unfold applyWrite.
  destruct (decideMemoryWrite _ _) as [[| |]|]; try by constructor.
  destruct w; [by apply createDocument_effect | by apply reviseDocument_effect
              | by apply tombstoneDocument_effect | by constructor].
Qed.

Lemma restoreRevision_effect pre db m d n :
  storeInv db → Effect db m (restoreRevision pre db m d n).
Proof.
  intros Hinv. unfold restoreRevision. destruct (findRevision pre _ _ _ _); [|by constructor].
  destruct (decideMemoryRestore _ _); [by apply restoreStatement_effect|by constructor..].
Qed.

Lemma createMemoryStore_effect actor pre db now op out :
  storeInv db → createMemoryStore actor pre db now op = Some out →
  ∃ m, wSpace m = actorSpace actor ∧ wBot m = opBot op ∧ Effect db m out.
Proof.
  intros Hinv H. destruct actor, op; simplify_eq/=;
    eexists (Build_WriteMeta _ _ _ _ _ _); (split_and!; [reflexivity..|]);
    first [by apply applyWrite_effect | by apply restoreRevision_effect].
Qed.

Lemma effect_inv db m res db' :
  Effect db m (res, db') →
  (db' = db ∧ ∀ a r, res ≠ Ok (Persisted a r)) ∨
  ∃ a d row del, advances db m d row ∧ del = negb (isLive row) ∧
    commit db a m d row del = (res, db').
Proof.
  intros H. inversion H as [res0 Hne Heq|a d row del Ha Hd Heq].
  - left. by simplify_eq.
  - right. by exists a, d, row, del.
Qed.

Lemma effect_keeps db m res db' : storeInv db → Effect db m (res, db') → storeInv db'.
Proof.
  intros Hinv [[-> _]|(a & d & row & del & Ha & Hd & Hc)]%effect_inv; [done|].
  by eapply commit_keeps.
Qed.

Lemma storeStep_effect db db' :
  storeInv db → storeStep db db' → ∃ m res, Effect db m (res, db').
Proof.
  intros Hinv Hstep. inversion Hstep as [actor pre db0 now op res db0' Hc]; subst.
  destruct (createMemoryStore_effect _ _ _ _ _ _ Hinv Hc) as (m & _ & _ & He). eauto.
Qed.

Lemma effect_frame db m res db' :
  Effect db m (res, db') → bots db' = bots db ∧ revisions db `prefix_of` revisions db'.
Proof.
  intros [[-> _]|(a & d & row & del & _ & _ & Hc)]%effect_inv; [done|].
  apply commit_inv in Hc as [[_ ->]|(_ & Hb & _ & Hr & _)]; [done|].
  rewrite Hr. split; [done|]. by eexists.
Qed.

(** C14. Whatever calls interleave, and however stale the rows they decided on, every
    document keeps a gapless history: its revisions are numbered 1 to the number
    its row holds, the last of them is the row's state, and nothing already
    recorded is changed or removed. *)
Theorem memory_history_gapless db db' :
  storeInv db → rtc storeStep db db' →
  storeInv db' ∧ bots db' = bots db ∧ revisions db `prefix_of` revisions db'.
Proof.
  intros Hinv Hsteps. induction Hsteps as [db|db db1 db' Hstep _ IH]; [done|].
  destruct (storeStep_effect _ _ Hinv Hstep) as (m & res & He).
  destruct (IH (effect_keeps _ _ _ _ Hinv He)) as (Hinv' & Hb & Hp).
  destruct (effect_frame _ _ _ _ He) as [Hb1 Hp1].
  split_and!; [done|congruence|]. by etrans.
Qed.

(** A call that persists nothing changes nothing. *)
Lemma commit_quiet db a m d row del res db' :
  commit db a m d row del = (res, db') → (∀ a r, res ≠ Ok (Persisted a r)) → db' = db.
Proof. intros [[_ ->]|[-> _]]%commit_inv Hq; [done|]. by destruct (Hq a _ eq_refl). Qed.

Lemma applyWrite_quiet pre db m w res db' :
  applyWrite pre db m w = (res, db') → (∀ a r, res ≠ Ok (Persisted a r)) → db' = db.
Proof.
  unfold applyWrite, createDocument, reviseDocument, tombstoneDocument. intros H Hq.
  repeat dmh; simplify_eq; try done; by eapply commit_quiet.
Qed.

(** What an agent proposal can persist: a live row over nothing or over a live row. *)
Lemma proposal_commit pre db m w a r db' :
  wOrigin m = agent_proposed →
  applyWrite pre db m w = (Ok (Persisted a r), db') →
  (a = st_create ∨ a = st_update) ∧
  ∃ row, r = revisionFrom m (writeId w) row false ∧ dDeletedAt row = None ∧
    documents db' = <[(wBot m, writeId w) := row]> (documents db) ∧
    revisions db' = revisions db ++ [r] ∧
    match documents db !! (wBot m, writeId w) with
    | Some old => dDeletedAt old = None ∧ dSpace old = wSpace m
    | None => bots db !! wBot m = Some (wSpace m)
    end.
Proof.
  intros Ho. unfold applyWrite.
  destruct (decideMemoryWrite _ _) as [[act v| |]|] eqn:Hdec; try done.
  destruct w as [d k t c|d t c|d|act' d]; cbn [writeId] in *; [| | |done].
  - unfold createDocument, botInScope. case_bool_decide as Hb; [|done].
    destruct (documents db !! (wBot m, d)) eqn:E; [done|].
    intros [[? _]|(Hr & _ & Hd & Hv & _)]%commit_inv; [done|].
    injection Hr as -> ->. split; [by left|]. by eexists.
  - unfold reviseDocument. destruct (findLiveDocument db _ _ d) as [old|] eqn:E; [|done].
    apply findLiveDocument_some in E as (E & Hs & Hl). rewrite E.
    intros [[? _]|(Hr & _ & Hd & Hv & _)]%commit_inv; [done|].
    injection Hr as -> ->. split; [by right|]. by eexists.
  - by eapply agent_delete_refused in Hdec.
Qed.

(** The run's half of the store cannot remove or revive a fact: whatever it reads
    and whenever, a system actor's call leaves every live document live and every
    tombstone as it is, touches no document but the one it names in its own
    space's bot, and appends at most one revision, attributed to that bot as an
    agent proposal. *)
Theorem proposal_keeps_memory space pre db now op res db' :
  createMemoryStore (SystemActor space) pre db now op = Some (res, db') →
  (∀ b d row, documents db !! (b, d) = Some row →
     ((b ≠ opBot op ∨ dSpace row ≠ space ∨ dDeletedAt row ≠ None) →
        documents db' !! (b, d) = Some row) ∧
     (dDeletedAt row = None → ∃ row', documents db' !! (b, d) = Some row' ∧ dDeletedAt row' = None)) ∧
  (bots db !! opBot op ≠ Some space → dom (documents db') = dom (documents db)) ∧
  ∃ new, revisions db' = revisions db ++ new ∧ (length new ≤ 1)%nat ∧
    Forall (λ r, rSpace r = space ∧ rBot r = opBot op ∧ revOrigin (rRevision r) = agent_proposed ∧
                 revAuthor (rRevision r) = opBot op ∧ revDeleted (rRevision r) = false) new.
Proof.
  destruct op as [bot reason w|]; [|done]. cbn [createMemoryStore opBot]. intros [= H].
  set (m := Build_WriteMeta _ _ _ _ _ _) in H.
  destruct res as [[a r| |]|].
  2-4: assert (db' = db) as -> by (eapply applyWrite_quiet; [exact H|done]);
       (split_and!; [intros ??? ->; eauto|done|]); exists []; rewrite app_nil_r;
       (split_and!; [done|simpl; lia|constructor]).
  apply proposal_commit in H as (_ & row & -> & Hl & Hd & Hv & Hold); [|done].
  change (wBot m) with bot in *. change (wSpace m) with space in *.
  split_and!.
  - intros b d old Hlk. rewrite Hd.
    destruct (decide ((bot, writeId w) = (b, d))) as [[= <- <-]|Hne].
    + rewrite Hlk in Hold. rewrite lookup_insert_eq. split; [naive_solver|eauto].
    + rewrite lookup_insert_ne by done. eauto.
  - intros Hb. rewrite Hd, dom_insert_L.
    destruct (documents db !! (bot, writeId w)) eqn:E; [|done].
    apply elem_of_dom_2 in E. set_solver.
  - eexists. split_and!; [exact Hv|simpl; lia|]. by repeat constructor.
Qed.

(** [applyWrite]'s decision, on the rows it read. *)
Definition writeDecision (pre : Database) (m : WriteMeta) (w : MemoryWrite) :
    result jsnum MemoryWriteDecision :=
  decideMemoryWrite
    {| reqOrigin := wOrigin m; reqAuthor := wAuthor m; reqReason := wReason m; reqWrite := w |}
    {| ctxDocument := toDocument (writeId w) <$>
         findLiveDocument pre (wSpace m) (wBot m) (writeId w);
       ctxDocumentCount := NInt (liveDocumentCount pre (wSpace m) (wBot m)) |}.

Definition storeAction (a : WriteAction) : StoreAction :=
  match a with act_create => st_create | act_update => st_update | act_delete => st_delete end.

(** Under the invariant only the column's range can stop a commit. *)
Lemma commit_spec db a m d row del :
  storeInv db → advances db m d row →
  commit db a m d row del =
  if (PG_INTEGER_MAX <? dRevision row)%Z then (Err DatabaseError, db)
  else (Ok (Persisted a (revisionFrom m d row del)),
        {| bots := bots db; documents := <[(wBot m, d) := row]> (documents db);
           revisions := revisions db ++ [revisionFrom m d row del] |}).
Proof.
  intros Hinv Ha. unfold commit. case_match; [done|].
  destruct (advances_history _ _ _ _ Hinv Ha) as (n & _ & Hn & Hg & _).
  by rewrite (sameKey_history _ _ _ _ _ n) by (done || lia).
Qed.

Lemma revision_at_max db b d row :
  storeInv db → documents db !! (b, d) = Some row →
  (PG_INTEGER_MAX <? dRevision row + 1)%Z = true → (dRevision row + 1 = PG_INTEGER_MAX + 1)%Z.
Proof.
  intros Hinv E Hm%Z.ltb_lt. specialize (Hinv b d). rewrite E in Hinv.
  destruct Hinv as (_ & ? & _). lia.
Qed.

(** Without interference the store does what the rules decided: a refusal and a
    no-op come back as they are and touch nothing, and an accepted write persists
    exactly the revision the decision carries.  The only other answers are a bot
    that is not in the actor's space, the spent id of a tombstone, and a revision
    number the column cannot hold; in particular the unique index never refuses
    the number the update allocated. *)
Theorem applyWrite_refines_rules db m w res db' :
  storeInv db → applyWrite db db m w = (res, db') →
  match writeDecision db m w with
  | Err n => res = Err (InvalidCount n) ∧ db' = db
  | Ok (WriteRefused e) => res = Ok (Refused e) ∧ db' = db
  | Ok WriteNoChange => res = Ok NoChange ∧ db' = db
  | Ok (WriteOk a v) =>
      (∃ r, res = Ok (Persisted (storeAction a) r) ∧ rRevision r = v ∧
            revisions db' = revisions db ++ [r]) ∨
      (a = act_create ∧ res = Err (NotFoundBot (wBot m)) ∧ db' = db ∧
       bots db !! wBot m ≠ Some (wSpace m)) ∨
      (a = act_create ∧ res = Ok (Refused (MemoryDocumentExists (writeId w))) ∧ db' = db ∧
       ∃ row, documents db !! (wBot m, writeId w) = Some row ∧
         (dSpace row = wSpace m → dDeletedAt row ≠ None)) ∨
      (a ≠ act_create ∧ res = Err DatabaseError ∧ db' = db ∧ revRevision v = (PG_INTEGER_MAX + 1)%Z)
  end.
Proof.
  intros Hinv. unfold applyWrite. fold (writeDecision db m w).
  destruct (writeDecision db m w) as [[a v| |]|] eqn:Hdec; try by intros [= <- <-].
  apply decideMemoryWrite_ok in Hdec. destruct w as [d k t c|d t c|d|]; cbn in Hdec |- *; [| | |done].
  - destruct Hdec as (-> & Hnone & ->). rewrite fmap_None in Hnone. intros H.
    unfold createDocument, botInScope in H. case_bool_decide as Hb; [|injection H as <- <-; eauto 10].
    destruct (documents db !! (wBot m, d)) as [row|] eqn:E.
    + injection H as <- <-. right; right; left. split_and!; [done..|].
      exists row. split; [done|]. intros Hs Hl.
      assert (findLiveDocument db (wSpace m) (wBot m) d = Some row);
        [by apply findLiveDocument_some|congruence].
    + rewrite commit_spec in H; [|done|unfold advances; by rewrite E].
      simpl in H. injection H as <- <-. left. by eexists.
  - destruct Hdec as (-> & x & Hx & ->). apply fmap_Some in Hx as (row & Hrow & ->).
    unfold reviseDocument. rewrite Hrow. apply findLiveDocument_some in Hrow as (E & Hs & Hl).
    rewrite commit_spec; [|done|by eapply advances_next]. cbn. intros H.
    case_match eqn:Hm; injection H as <- H; subst db'; [|left; by eexists].
    do 3 right. split_and!; [done..|]. by eapply revision_at_max.
  - destruct Hdec as (-> & x & Hx & ->). apply fmap_Some in Hx as (row & Hrow & ->).
    unfold tombstoneDocument. rewrite Hrow. apply findLiveDocument_some in Hrow as (E & Hs & Hl).
    rewrite commit_spec; [|done|by eapply advances_next]. cbn. intros H.
    case_match eqn:Hm; injection H as <- H; subst db'; [|left; by eexists].
    do 3 right. split_and!; [done..|]. by eapply revision_at_max.
Qed.

(** What a restore persists is history itself, however stale the rows it decided
    on: only an operator's call persists anything, and then the row's state is
    exactly the state the named revision of that document recorded, live, under
    the next number; any other answer touches nothing. *)
Theorem restore_reapplies_history pre db m d n res db' :
  restoreRevision pre db m d n = (res, db') →
  match res with
  | Ok (Persisted a r) =>
      a = st_restore ∧ wOrigin m ≠ agent_proposed ∧
      ∃ t old row, t ∈ historyOf db (wBot m) d ∧ n = NInt (revRevision (rRevision t)) ∧
        documents db !! (wBot m, d) = Some old ∧ dSpace old = wSpace m ∧
        documents db' = <[(wBot m, d) := row]> (documents db) ∧
        rowState row = (revKind (rRevision t), revTitle (rRevision t),
                        revContent (rRevision t), false) ∧
        dRevision row = (dRevision old + 1)%Z ∧
        r = revisionFrom m d row false ∧ revisions db' = revisions db ++ [r]
  | _ => db' = db
  end.
Proof.
  unfold restoreRevision. intros H.
  destruct (findRevision pre _ _ _ _) as [target|]; [|by injection H as <- <-].
  destruct (decideMemoryRestore _ _) eqn:Hdec; try by injection H as <- <-.
  apply restore_operator_only in Hdec as Horig. cbn in Horig.
  unfold restoreStatement in H.
  destruct (findRevision db _ _ _ _) as [[t|]|] eqn:Ht; try by injection H as <- <-.
  destruct (findDocumentRow db _ _ d) as [old|] eqn:E; [|by injection H as <- <-].
  apply findRevision_some in Ht as (Hin & -> & _). apply findDocumentRow_some in E as [E Hs].
  apply commit_inv in H as [[-> ->]|(-> & _ & Hd & Hr & _)]; [done|].
  split_and!; [done..|]. eexists t, old, _. by split_and!.
Qed.

Lemma gapless_lookup h n z :
  gapless h n → (1 ≤ z ≤ n)%Z → ∃ r, r ∈ h ∧ revRevision (rRevision r) = z.
Proof.
  intros Hg Hz. assert (z ∈ (λ r, revRevision (rRevision r)) <$> h) as Hin.
  { rewrite Hg. apply elem_of_seqZ. lia. }
  apply list_elem_of_fmap in Hin as (r & -> & Hr). eauto.
Qed.

Lemma findRevision_present db b d row z :
  storeInv db → documents db !! (b, d) = Some row → (1 ≤ z ≤ dRevision row)%Z →
  ∃ t, findRevision db (dSpace row) b d (NInt z) = Some (Some t) ∧
       revDocumentId (rRevision t) = d ∧ revRevision (rRevision t) = z.
Proof.
  intros Hinv E Hz. specialize (Hinv b d). rewrite E in Hinv.
  destruct Hinv as (_ & Hmax & Hg & _ & Hf).
  destruct (gapless_lookup _ _ z Hg Hz) as (r & Hr & Hrz).
  assert (rSpace r = dSpace row) as Hs by (rewrite Forall_forall in Hf; by apply Hf).
  apply elem_historyOf in Hr as [Hr Ho].
  unfold findRevision. cbn [integerOf]. rewrite (proj2 (Z.leb_le _ _)) by lia.
  destruct (List.find _ _) as [t|] eqn:Ef.
  - apply find_some_elem in Ef as [_ Ht]. unfold matchesRevision, ofDocument in Ht. bools. eauto.
  - exfalso. apply find_none_existsb in Ef. rewrite existsb_false in Ef.
    specialize (Ef r Hr). unfold matchesRevision in Ef.
    rewrite Ho, Hrz, Z.eqb_refl, bool_decide_true in Ef; done.
Qed.

(** A history never outgrows what it can give back: an operator who names any
    number a document's history holds, with an attributable reason, gets that
    state back, or is told it already is the live state.  Only a row at the last
    number its column holds refuses. *)
Theorem every_revision_restorable db m d row z :
  storeInv db → documents db !! (wBot m, d) = Some row → dSpace row = wSpace m →
  (1 ≤ z ≤ dRevision row)%Z → (dRevision row < PG_INTEGER_MAX)%Z →
  wOrigin m = deliberate → validateCommon (wOrigin m) (wAuthor m) (wReason m) = None →
  validateDocumentId d = None →
  (restoreRevision db db m d (NInt z) = (Ok NoChange, db) ∧ isLive row = true) ∨
  ∃ r db', restoreRevision db db m d (NInt z) = (Ok (Persisted st_restore r), db') ∧
    storeInv db'.
Proof.
  intros Hinv E Hs Hz Hmax Ho Hc Hd.
  destruct (findRevision_present _ _ _ _ z Hinv E Hz) as (t & Ht & Htd & Htz).
  assert (findDocumentRow db (wSpace m) (wBot m) d = Some row) as Hrow
    by by apply findDocumentRow_some.
  destruct (restoreRevision db db m d (NInt z)) as [res db'] eqn:Hres.
  pose proof (effect_keeps db m res db' Hinv) as Hkeep.
  rewrite <- Hres in Hkeep. specialize (Hkeep (restoreRevision_effect _ _ _ _ _ Hinv)).
  unfold restoreRevision in Hres. rewrite Hs in Ht. rewrite Ht in Hres.
  destruct (decideMemoryRestore _ _) as [v| |e] eqn:Hdec.
  - right. unfold restoreStatement in Hres. rewrite Ht, Hrow in Hres.
    rewrite commit_spec in Hres; [|done|by eapply advances_next]. cbn in Hres.
    rewrite (proj2 (Z.ltb_ge _ _)) in Hres by lia. injection Hres as <- <-. eauto.
  - left. injection Hres as <- <-. split; [done|].
    rewrite Hrow in Hdec. by apply restore_no_change in Hdec as (x & [= <-] & ?%negb_false_iff).
  - exfalso. rewrite Hrow in Hdec. eapply restore_refused_spec; [exact Hdec|..]; try done.
    + by rewrite Ho.
    + unfold restoreNumber, safeInteger, isSafeZ. cbn.
      rewrite (proj2 (Z.leb_le _ _)) by (unfold MAX_SAFE_INTEGER, PG_INTEGER_MAX in *; lia).
      cbn. by rewrite (proj2 (Z.ltb_ge _ _)) by lia.
    + by rewrite Htz.
Qed.

(** ** The per-bot cap *)

Definition bit (P : Prop) `{Decision P} : Z := if decide P then 1 else 0.

Lemma size_filter_delete (s b : jstr) (k : jstr * jstr) (M : gmap (jstr * jstr) DocumentRow) :
  Z.of_nat (size (filter (liveIn s b) M)) =
  (Z.of_nat (size (filter (liveIn s b) (delete k M))) +
   match M !! k with Some x => bit (liveIn s b (k, x)) | None => 0 end)%Z.
Proof.
  rewrite map_filter_delete. destruct (M !! k) as [x|] eqn:E; unfold bit.
  - destruct (decide (liveIn s b (k, x))) as [Hl|Hl].
    + assert (is_Some (filter (liveIn s b) M !! k)) as Hs
        by (exists x; by apply map_lookup_filter_Some).
      rewrite (map_size_delete_Some k _ Hs).
      assert (size (filter (liveIn s b) M) ≠ 0); [|lia].
      intros Hz. apply map_size_empty_inv in Hz. rewrite Hz, lookup_empty in Hs. by destruct Hs.
    + rewrite map_size_delete_None; [lia|]. apply map_lookup_filter_None. right. naive_solver.
  - rewrite map_size_delete_None; [lia|]. apply map_lookup_filter_None. by left.
Qed.

Lemma size_filter_insert (s b : jstr) (k : jstr * jstr) (x : DocumentRow) (M : gmap (jstr * jstr) DocumentRow) :
  Z.of_nat (size (filter (liveIn s b) (<[k := x]> M))) =
  (Z.of_nat (size (filter (liveIn s b) M))
   - match M !! k with Some y => bit (liveIn s b (k, y)) | None => 0 end
   + bit (liveIn s b (k, x)))%Z.
Proof.
  pose proof (size_filter_delete s b k M) as H1.
  pose proof (size_filter_delete s b k (<[k := x]> M)) as H2.
  rewrite lookup_insert_eq, delete_insert_eq in H2. lia.
Qed.

Lemma bit_bounds P `{Decision P} : (0 ≤ bit P ≤ 1)%Z.
Proof. unfold bit. case_decide; lia. Qed.

(** Without interference no write takes a bot over the cap. *)
Theorem write_respects_cap db m w res db' :
  applyWrite db db m w = (res, db') →
  (liveDocumentCount db (wSpace m) (wBot m) ≤ MAX_MEMORY_DOCUMENTS_PER_BOT)%Z →
  (liveDocumentCount db' (wSpace m) (wBot m) ≤ MAX_MEMORY_DOCUMENTS_PER_BOT)%Z.
Proof.
  intros H Hle. unfold applyWrite in H. fold (writeDecision db m w) in H.
  destruct (writeDecision db m w) as [[a v| |]|] eqn:Hdec; try by injection H as <- <-.
  pose proof (decideMemoryWrite_ok _ _ _ _ Hdec) as Hok.
  destruct w as [d k t c|d t c|d|]; cbn in Hok, H; [| | |done].
  - destruct (create_below_cap _ _ _ _ _ _ _ _ Hdec eq_refl) as (n & [= Hn] & Hlt).
    unfold createDocument in H. destruct (botInScope _ _ _); [|by injection H as <- <-].
    destruct (documents db !! _) eqn:E; [by injection H as <- <-|].
    apply commit_inv in H as [[_ ->]|(_ & _ & Hd & _)]; [done|].
    unfold liveDocumentCount in *. rewrite Hd, size_filter_insert, E. revert Hn Hlt.
    repeat match goal with |- context [bit ?P] => generalize (bit_bounds P); generalize (bit P) end. lia.
  - unfold reviseDocument in H.
    destruct (findLiveDocument db _ _ d) as [row|] eqn:E; [|by injection H as <- <-].
    apply findLiveDocument_some in E as (E & Hs & Hl).
    apply commit_inv in H as [[_ ->]|(_ & _ & Hd & _)]; [done|].
    unfold liveDocumentCount in *. rewrite Hd, size_filter_insert, E.
    unfold bit at 1. rewrite decide_True by done.
    match goal with |- context [bit ?P] => pose proof (bit_bounds P) end. lia.
  - unfold tombstoneDocument in H.
    destruct (findLiveDocument db _ _ d) as [row|] eqn:E; [|by injection H as <- <-].
    apply commit_inv in H as [[_ ->]|(_ & _ & Hd & _)]; [done|].
    unfold liveDocumentCount in *. rewrite Hd, size_filter_insert.
    unfold bit at 2. rewrite decide_False by by intros (_ & _ & ?).
    match goal with |- context [bit ?P] => pose proof (bit_bounds P) | _ => idtac end.
    destruct (documents db !! _) as [y|]; [|lia].
    pose proof (bit_bounds (liveIn (wSpace m) (wBot m) ((wBot m, d), y))). lia.
Qed.

(** ** Witnesses *)

Section sample.
Definition sampleBots : Database :=
  {| bots := {[u "bot" := u "space"]}; documents := ∅; revisions := [] |}.

Definition operator (reason : jstr) (now : Z) : WriteMeta :=
  {| wSpace := u "space"; wBot := u "bot"; wOrigin := deliberate; wAuthor := u "user";
     wReason := reason; wNow := now |}.

Definition createPort : MemoryWrite :=
  WriteCreate (u "d1") (u "fact") (u "Port") (u "5432").

Definition updatePort : MemoryWrite := WriteUpdate (u "d1") (u "Port") (u "6432").

(** An operator creates a document, and an agent rewrites it. *)
Definition created : Database := (applyWrite sampleBots sampleBots (operator (u "r") 1) createPort).2.

Definition rewritten : StoreResult :=
  applyWrite created created
    {| wSpace := u "space"; wBot := u "bot"; wOrigin := agent_proposed; wAuthor := u "bot";
       wReason := u "moved"; wNow := 2 |} updatePort.
End sample.

Lemma sampleBots_inv : storeInv sampleBots.
Proof. intros b d. reflexivity. Qed.

Lemma created_inv : storeInv created.
Proof.
  apply (effect_keeps sampleBots (operator (u "r") 1)
           (applyWrite sampleBots sampleBots (operator (u "r") 1) createPort).1);
    [apply sampleBots_inv|].
  unfold created. rewrite <- surjective_pairing. apply applyWrite_effect, sampleBots_inv.
Qed.

Lemma memory_history_gapless_witness :
  storeInv sampleBots ∧ storeInv rewritten.2 ∧ length (revisions rewritten.2) = 2.
Proof.
  split; [apply sampleBots_inv|]. split; [|vm_compute; reflexivity].
  apply (memory_history_gapless sampleBots rewritten.2); [apply sampleBots_inv|].
  apply (rtc_l _ _ created).
  - apply (store_step (UserActor (u "space") (u "user")) sampleBots sampleBots 1
             (OpWrite (u "bot") (u "r") createPort)
             (applyWrite sampleBots sampleBots (operator (u "r") 1) createPort).1).
    unfold created. rewrite <- surjective_pairing. reflexivity.
  - apply rtc_once.
    apply (store_step (SystemActor (u "space")) created created 2
             (OpWrite (u "bot") (u "moved") updatePort) rewritten.1).
    rewrite <- surjective_pairing. reflexivity.
Defined.

Lemma proposal_keeps_memory_witness :
  bots created !! u "bot" = Some (u "space") ∧
  ∃ row', documents rewritten.2 !! (u "bot", u "d1") = Some row' ∧ dDeletedAt row' = None.
Proof.
  split; [vm_compute; reflexivity|].
  destruct (proposal_keeps_memory (u "space") created created 2
    (OpWrite (u "bot") (u "moved") updatePort) rewritten.1 rewritten.2) as [H _];
    [rewrite <- surjective_pairing; reflexivity|].
  destruct (H (u "bot") (u "d1")
    {| dSpace := u "space"; dKind := u "fact"; dTitle := u "Port"; dContent := u "5432";
       dRevision := 1; dDeletedAt := None |}) as [_ Hlive]; [vm_compute; reflexivity|].
  apply Hlive. reflexivity.
Defined.

Lemma applyWrite_refines_rules_witness :
  storeInv created ∧
  ∃ r, rewritten.1 = Ok (Persisted st_update r) ∧ revRevision (rRevision r) = 2%Z.
Proof.
  split; [apply created_inv|].
  pose proof (applyWrite_refines_rules created
    {| wSpace := u "space"; wBot := u "bot"; wOrigin := agent_proposed; wAuthor := u "bot";
       wReason := u "moved"; wNow := 2 |} updatePort rewritten.1 rewritten.2
    created_inv ltac:(rewrite <- surjective_pairing; reflexivity)) as H.
  replace (writeDecision _ _ _) with (Ok (E := jsnum) (WriteOk act_update
    (buildRevision (u "d1") 2 agent_proposed (u "bot") (u "moved") (u "fact") (u "Port")
       (u "6432") false))) in H by (vm_compute; reflexivity).
  destruct H as [(r & H1 & H2 & _)|[[? _]|[[? _]|(_ & _ & _ & Hm)]]]; [|done|done|].
  - exists r. split; [exact H1|]. by rewrite H2.
  - exfalso. revert Hm. vm_compute. discriminate.
Defined.

Definition undone : StoreResult :=
  restoreRevision rewritten.2 rewritten.2 (operator (u "undo") 3) (u "d1") (NInt 1).

Lemma restore_reapplies_history_witness :
  is_ok undone.1 = true ∧
  ∃ t, t ∈ historyOf rewritten.2 (u "bot") (u "d1") ∧ NInt 1 = NInt (revRevision (rRevision t)).
Proof.
  split; [vm_compute; reflexivity|].
  destruct (restore_reapplies_history rewritten.2 rewritten.2 (operator (u "undo") 3) (u "d1")
    (NInt 1)
    (Ok (Persisted st_restore (revisionFrom (operator (u "undo") 3) (u "d1")
      {| dSpace := u "space"; dKind := u "fact"; dTitle := u "Port"; dContent := u "5432";
         dRevision := 3; dDeletedAt := None |} false))) undone.2)
    as (_ & _ & t & _ & _ & Hin & Hn & _); [|by exists t].
  transitivity undone; [reflexivity|]. rewrite (surjective_pairing undone) at 1.
  apply (f_equal (λ r, (r, undone.2))). vm_compute. reflexivity.
Defined.

Lemma every_revision_restorable_witness :
  storeInv created ∧
  restoreRevision created created (operator (u "undo") 3) (u "d1") (NInt 1) = (Ok NoChange, created).
Proof.
  split; [apply created_inv|].
  destruct (every_revision_restorable created (operator (u "undo") 3) (u "d1")
    {| dSpace := u "space"; dKind := u "fact"; dTitle := u "Port"; dContent := u "5432";
       dRevision := 1; dDeletedAt := None |} 1 created_inv) as [[H _]|(r & db' & H & _)];
    [vm_compute; reflexivity | reflexivity | done | done | reflexivity
    | vm_compute; reflexivity | vm_compute; reflexivity | exact H |].
  exfalso. revert H. vm_compute. discriminate.
Defined.

Lemma write_respects_cap_witness :
  (liveDocumentCount created (u "space") (u "bot") = 1)%Z ∧
  (liveDocumentCount rewritten.2 (u "space") (u "bot") ≤ MAX_MEMORY_DOCUMENTS_PER_BOT)%Z.
Proof.
  split; [vm_compute; reflexivity|].
  apply (write_respects_cap created
    {| wSpace := u "space"; wBot := u "bot"; wOrigin := agent_proposed; wAuthor := u "bot";
       wReason := u "moved"; wNow := 2 |} updatePort rewritten.1 rewritten.2);
    [rewrite <- surjective_pairing; reflexivity | vm_compute; discriminate].
Defined.

(** ** The cap and restores *)

(** [n] live documents under distinct ids. *)
Fixpoint withDocuments (n : nat) (db : Database) : Database :=
  match n with
  | 0 => db
  | S n' =>
      let db' := withDocuments n' db in
      (createDocument db' (operator (u "r") 1) [N.of_nat (100 + n)] (u "fact") (u "t") (u "c")).2
  end.

(** A document is written and removed, the bot then fills up to the cap, and the
    operator restores the removed one: the restore is accepted and the bot holds
    one document more than the cap allows. *)
Definition atCap : Database :=
  let db := (tombstoneDocument created (operator (u "gone") 2) (u "d1")).2 in
  withDocuments (Z.to_nat MAX_MEMORY_DOCUMENTS_PER_BOT) db.

Example restore_exceeds_cap :
  let out := restoreRevision atCap atCap (operator (u "undo") 3) (u "d1") (NInt 1) in
  liveDocumentCount atCap (u "space") (u "bot") = MAX_MEMORY_DOCUMENTS_PER_BOT ∧
  is_ok out.1 = true ∧
  liveDocumentCount out.2 (u "space") (u "bot") = (MAX_MEMORY_DOCUMENTS_PER_BOT + 1)%Z.
Proof. vm_compute. auto. Qed.
