(* ===== verification/Files.v ===== *)
(** The file vocabulary, packages/core/src/files.ts: where a path points, what an
    attachment is called, and the type its name suggests. *)

From S2P Require Import Prelude JsText.

(** The code units of the separators: a slash, a backslash, a dot. *)
Abbreviation slash := 47%N.
Abbreviation backslash := 92%N.
Abbreviation dot := 46%N.

Definition COMPUTER_HOME_DIRECTORY : jstr := u "/home/agent".
Definition MESSAGE_ATTACHMENTS_DIRECTORY : jstr := u "attachments".
Definition MAX_ATTACHMENT_BYTES : Z := 8 * 1024 * 1024.
Definition MAX_ATTACHMENTS_PER_MESSAGE : Z := 8.
Definition MAX_ATTACHMENT_FILE_NAME_LENGTH : nat := 200.

Inductive HomePathRefusal := invalid_path | outside_home.

Record HomePath := { hpPath : jstr; hpRelative : jstr }.

Record ResolvedComputerPath := { path : jstr; relative : jstr; outside : bool }.

Definition homePathRefusalMessage (reason : HomePathRefusal) (p : jstr) : jstr :=
  match reason with
  | outside_home =>
      quoted p ++ u " is outside this bot's home directory, so it cannot be read or written"
  | invalid_path => quoted p ++ u " is not a usable filesystem path"
  end.

(** ** Resolution *)

(** One turn of the segment loop; the stack grows at its end. *)
Definition pushSegment (segments : list jstr) (segment : jstr) : list jstr :=
  if bool_decide (segment = []) || bool_decide (segment = [dot]) then segments
  else if bool_decide (segment = [dot; dot]) then removelast segments
  else segments ++ [segment].

Definition absolutePath (segments : list jstr) : jstr := slash :: join [slash] segments.

(** [home] refused as a wiring defect, the path refused, or the path resolved. *)
Inductive ComputerPathResolution :=
| HomeRangeError
| PathRefused (reason : HomePathRefusal) (message : jstr)
| PathResolved (value : ResolvedComputerPath).

Definition resolveComputerPath (home input : jstr) : ComputerPathResolution :=
  if negb (startsWith [slash] home) || bool_decide (home = [slash]) then HomeRangeError
  else if bool_decide (input = []) || includes [0%N] input then
    PathRefused invalid_path (homePathRefusalMessage invalid_path input)
  else
    let source :=
      if startsWith [slash] input then drop 1 input else drop 1 home ++ [slash] ++ input in
    let segments := foldl pushSegment [] (split slash source) in
    let path := absolutePath segments in
    let homeSegments := split slash (drop 1 home) in
    let outside := bool_decide (path ≠ home) && negb (startsWith (home ++ [slash]) path) in
    PathResolved
      {| path := path;
         relative := if outside then [] else join [slash] (drop (length homeSegments) segments);
         outside := outside |}.

Inductive HomePathResolution :=
| ConfineRangeError
| Refusal (reason : HomePathRefusal) (message : jstr)
| Confined (value : HomePath).

Definition confineToHome (home input : jstr) : HomePathResolution :=
  match resolveComputerPath home input with
  | HomeRangeError => ConfineRangeError
  | PathRefused reason message => Refusal reason message
  | PathResolved value =>
      if outside value then Refusal outside_home (homePathRefusalMessage outside_home input)
      else Confined {| hpPath := path value; hpRelative := relative value |}
  end.

(** ** Attachment names *)

Definition withoutControlCharacters (value : jstr) : jstr :=
  List.filter (λ code, (32 <=? code)%N && negb (code =? 127)%N) value.

Definition isPathSeparator (c : N) : bool := (c =? backslash)%N || (c =? slash)%N.

Definition attachmentFileName (input : jstr) : jstr :=
  let base := default [] (last (splitOn isPathSeparator input)) in
  let cleaned := trim (withoutControlCharacters base) in
  if isMember cleaned [[]; [dot]; [dot; dot]] then u "file"
  else take MAX_ATTACHMENT_FILE_NAME_LENGTH cleaned.

Definition attachmentWorkspacePath (attachmentId fileName : jstr) : jstr :=
  MESSAGE_ATTACHMENTS_DIRECTORY ++ [slash] ++ attachmentId ++ [slash] ++ attachmentFileName fileName.

(** The switch over extensions, as its table. *)
Definition contentTypes : list (list jstr * jstr) :=
  [([u "txt"; u "log"], u "text/plain"); ([u "md"], u "text/markdown"); ([u "csv"], u "text/csv");
   ([u "json"], u "application/json"); ([u "html"; u "htm"], u "text/html");
   ([u "pdf"], u "application/pdf"); ([u "png"], u "image/png");
   ([u "jpg"; u "jpeg"], u "image/jpeg"); ([u "gif"], u "image/gif");
   ([u "webp"], u "image/webp"); ([u "svg"], u "image/svg+xml"); ([u "zip"], u "application/zip");
   ([u "gz"], u "application/gzip"); ([u "tar"], u "application/x-tar");
   ([u "mp3"], u "audio/mpeg"); ([u "wav"], u "audio/wav"); ([u "mp4"], u "video/mp4");
   ([u "webm"], u "video/webm")].

Definition contentTypeForFileName (fileName : jstr) : jstr :=
  let extension :=
    match lastIndexOf dot fileName with
    | Some (S i) => toLowerCase (drop (S (S i)) fileName)
    | _ => []
    end in
  match List.find (λ row, isMember extension row.1) contentTypes with
  | Some row => row.2
  | None => u "application/octet-stream"
  end.

(** ** What a confined path is *)

(** A code unit a segment may hold: neither a slash nor NUL. *)
Definition fileChar (c : N) : Prop := (slash =? c)%N = false ∧ c ≠ 0%N.

#[export] Instance fileChar_dec c : Decision (fileChar c).
Proof. unfold fileChar. apply _. Defined.

(** A segment that names an entry of its directory. *)
Definition plainSegment (s : jstr) : Prop :=
  s ≠ [] ∧ s ≠ [dot] ∧ s ≠ [dot; dot] ∧ Forall fileChar s.

#[export] Instance plainSegment_dec s : Decision (plainSegment s).
Proof. unfold plainSegment. apply _. Defined.

(** An absolute path below the root with nothing left to resolve. *)
Definition canonicalHome (home : jstr) : Prop :=
  ∃ hs, hs ≠ [] ∧ Forall plainSegment hs ∧ home = absolutePath hs.

(** ** Lemmas *)

Lemma plainSegment_no_slash ss :
  Forall plainSegment ss → Forall (Forall (λ d, (slash =? d)%N = false)) ss.
Proof.
  intros H. eapply Forall_impl; [exact H|]. intros s (_ & _ & _ & Hs).
  eapply Forall_impl; [exact Hs|]. by intros c [? _].
Qed.

Lemma foldl_pushSegment_plain acc ss :
  Forall plainSegment ss → foldl pushSegment acc ss = acc ++ ss.
Proof.
  intros H. revert acc. induction H as [|s ss (H1 & H2 & H3 & _) _ IH]; intros acc; simpl.
  - by rewrite app_nil_r.
  - unfold pushSegment at 2. rewrite !bool_decide_false by done. simpl. rewrite IH.
    by rewrite <- (assoc_L (++)).
Qed.

Lemma pushSegment_plain acc s :
  Forall plainSegment acc → Forall fileChar s →
  Forall plainSegment (pushSegment acc s).
Proof.
  intros Hacc Hs. unfold pushSegment.
  destruct (bool_decide (s = [])) eqn:E1; [done|]. destruct (bool_decide (s = [dot])) eqn:E2; [done|].
  cbn [orb]. destruct (bool_decide (s = [dot; dot])) eqn:E3; bools.
  - destruct acc as [|x acc] using rev_ind; [done|]. rewrite removelast_last.
    by apply Forall_app in Hacc as [? _].
  - apply Forall_app. split; [done|]. by apply Forall_singleton.
Qed.

Lemma resolved_segments_plain acc ss :
  Forall plainSegment acc → Forall (Forall fileChar) ss →
  Forall plainSegment (foldl pushSegment acc ss).
Proof.
  intros Hacc H. revert acc Hacc. induction H as [|s ss Hs _ IH]; intros acc Hacc; [done|].
  apply IH. by apply pushSegment_plain.
Qed.

Lemma split_segments s :
  Forall (λ c, c ≠ 0%N) s → Forall (Forall fileChar) (split slash s).
Proof.
  intros H. apply (splitOn_Forall _ (N.eqb slash)) in H.
  pose proof (splitOn_no_sep (N.eqb slash) s) as Hs. unfold split.
  apply Forall_forall. intros w Hw. rewrite Forall_forall in H, Hs.
  specialize (H w Hw). specialize (Hs w Hw). by apply Forall_and.
Qed.

Lemma absolutePath_inj ss ts :
  Forall plainSegment ss → Forall plainSegment ts → absolutePath ss = absolutePath ts → ss = ts.
Proof.
  intros Hs Ht [= H].
  assert (∀ l, Forall plainSegment l → l ≠ [] → join [slash] l ≠ []) as Hne.
  { intros [|x [|y l]] Hl Hl'; [done| |].
    - by apply Forall_cons in Hl as [(? & _) _].
    - apply Forall_cons in Hl as [(? & _) _]. cbn. by destruct x. }
  destruct (decide (ss = [])) as [->|Hs'], (decide (ts = [])) as [->|Ht']; [done|..].
  - symmetry in H. by apply Hne in H.
  - by apply Hne in H.
  - transitivity (split slash (join [slash] ss)).
    + symmetry. apply split_join; [done|by apply plainSegment_no_slash].
    + rewrite H. apply split_join; [done|by apply plainSegment_no_slash].
Qed.

(** Staying inside is having the home's segments as a prefix. *)
Lemma inside_prefix hs ss :
  hs ≠ [] → Forall plainSegment hs → Forall plainSegment ss →
  (bool_decide (absolutePath ss ≠ absolutePath hs) &&
     negb (startsWith (absolutePath hs ++ [slash]) (absolutePath ss))) = false ↔
  hs `prefix_of` ss.
Proof.
  intros Hne Hhs Hss. rewrite andb_false_iff, bool_decide_eq_false, negb_false_iff, startsWith_spec.
  split.
  - intros [H|[t Ht]].
    + apply dec_stable in H. apply absolutePath_inj in H as ->; done.
    + unfold absolutePath in Ht. cbn in Ht. injection Ht as Ht.
      rewrite <- (assoc_L (++)) in Ht. cbn in Ht.
      destruct (decide (ss = [])) as [->|Hs']; [by destruct (join [slash] hs)|].
      exists (split slash t). rewrite <- (splitOn_app_join slash hs t), <- Ht;
        [|done|by apply plainSegment_no_slash].
      symmetry. apply split_join; [done|by apply plainSegment_no_slash].
  - intros [[|r rs] ->]; [left; rewrite app_nil_r; tauto|]. right.
    exists (join [slash] (r :: rs)). unfold absolutePath. rewrite join_app by done.
    cbn [app]. by rewrite <- (assoc_L (++)).
Qed.

Lemma absolute_home hs : hs ≠ [] → Forall plainSegment hs →
  startsWith [slash] (absolutePath hs) = true ∧ absolutePath hs ≠ [slash] ∧
  split slash (drop 1 (absolutePath hs)) = hs.
Proof.
  intros Hne Hhs. split_and!; [done| |].
  - intros H. assert (hs = []) as ->; [|done].
    by apply absolutePath_inj; [done|constructor|rewrite H].
  - cbn [absolutePath drop]. apply split_join; [done|]. by apply plainSegment_no_slash.
Qed.

(** The segments an input resolves to, and what resolution returns for them. *)
Definition inputSegments (hs : list jstr) (input : jstr) : list jstr :=
  if startsWith [slash] input then foldl pushSegment [] (split slash (drop 1 input))
  else foldl pushSegment hs (split slash input).

Definition usablePath (input : jstr) : bool :=
  negb (bool_decide (input = []) || includes [0%N] input).

Lemma usablePath_true input :
  usablePath input = true ↔ input ≠ [] ∧ Forall (λ c, c ≠ 0%N) input.
Proof.
  unfold usablePath. rewrite negb_true_iff, orb_false_iff, bool_decide_eq_false.
  rewrite <- not_true_iff_false, includes_unit, Forall_forall. naive_solver.
Qed.

Lemma inputSegments_plain hs input :
  Forall plainSegment hs → usablePath input = true → Forall plainSegment (inputSegments hs input).
Proof.
  intros Hhs [_ Hn]%usablePath_true. unfold inputSegments. destruct (startsWith _ _);
    apply resolved_segments_plain; try (done || constructor); apply split_segments; [|done].
  by apply Forall_drop.
Qed.

Lemma resolveComputerPath_segments hs input :
  hs ≠ [] → Forall plainSegment hs → usablePath input = true →
  ∃ out : bool, resolveComputerPath (absolutePath hs) input =
    PathResolved {| path := absolutePath (inputSegments hs input);
                    relative := if out then []
                                else join [slash] (drop (length hs) (inputSegments hs input));
                    outside := out |} ∧
    (out = false ↔ hs `prefix_of` inputSegments hs input).
Proof.
  intros Hne Hhs Hu. unfold resolveComputerPath.
  destruct (absolute_home hs Hne Hhs) as (-> & Hroot & Hsplit). cbn [negb orb].
  rewrite (bool_decide_false _ Hroot). pose proof Hu as Hu'.
  unfold usablePath in Hu'. apply negb_true_iff in Hu'. rewrite Hu', Hsplit.
  assert (foldl pushSegment [] (split slash (if startsWith [slash] input then drop 1 input
            else drop 1 (absolutePath hs) ++ [slash] ++ input)) = inputSegments hs input) as ->.
  { unfold inputSegments. destruct (startsWith [slash] input); [done|].
    change (drop 1 (absolutePath hs) ++ [slash] ++ input) with (join [slash] hs ++ slash :: input).
    rewrite splitOn_app_join, foldl_app; [|done|by apply plainSegment_no_slash].
    by rewrite (foldl_pushSegment_plain [] hs Hhs). }
  eexists. split; [reflexivity|].
  apply inside_prefix; [done|done|by apply inputSegments_plain].
Qed.

Lemma inputSegments_absolute hs ss :
  Forall plainSegment ss → inputSegments hs (absolutePath ss) = ss.
Proof.
  intros Hss. unfold inputSegments.
  assert (startsWith [slash] (absolutePath ss) = true) as -> by done.
  change (drop 1 (absolutePath ss)) with (join [slash] ss).
  destruct (decide (ss = [])) as [->|Hne]; [done|].
  rewrite split_join by (done || by apply plainSegment_no_slash).
  by rewrite foldl_pushSegment_plain.
Qed.

Lemma inputSegments_relative hs rs :
  rs ≠ [] → Forall plainSegment hs → Forall plainSegment rs →
  inputSegments hs (join [slash] rs) = hs ++ rs.
Proof.
  intros Hne Hhs Hrs. unfold inputSegments.
  assert (startsWith [slash] (join [slash] rs) = false) as ->.
  { destruct rs as [|r rs]; [done|]. apply Forall_cons in Hrs as [(Hr & _ & _ & Hc) _].
    destruct r as [|c r]; [done|]. apply Forall_cons in Hc as [[Hc _] _].
    apply not_true_iff_false. intros [t Ht]%startsWith_spec.
    destruct rs; cbn in Ht; injection Ht as -> _; done. }
  rewrite split_join by (done || by apply plainSegment_no_slash).
  by apply foldl_pushSegment_plain.
Qed.

Lemma join_usable rs : rs ≠ [] → Forall plainSegment rs → usablePath (join [slash] rs) = true.
Proof.
  intros Hne Hrs. apply usablePath_true. induction Hrs as [|r rs Hr Hrs IH]; [done|].
  destruct Hr as (Hr & _ & _ & Hc).
  assert (Forall (λ c, c ≠ 0%N) r) as Hr0 by (eapply Forall_impl; [exact Hc|]; by intros c [_ ?]).
  destruct rs as [|r' rs]; [done|]. destruct IH as [_ IH]; [done|].
  change (join [slash] (r :: r' :: rs)) with (r ++ [slash] ++ join [slash] (r' :: rs)).
  split; [by destruct r|]. apply Forall_app. split; [done|]. by constructor.
Qed.

Lemma absolute_usable ss : Forall plainSegment ss → usablePath (absolutePath ss) = true.
Proof.
  intros Hss. apply usablePath_true. split; [done|]. constructor; [done|].
  destruct (decide (ss = [])) as [->|Hne]; [constructor|].
  by apply usablePath_true, join_usable.
Qed.

Lemma confineToHome_segments hs input :
  hs ≠ [] → Forall plainSegment hs → usablePath input = true →
  (∃ rs, inputSegments hs input = hs ++ rs ∧ Forall plainSegment rs ∧
     confineToHome (absolutePath hs) input =
     Confined {| hpPath := absolutePath (hs ++ rs); hpRelative := join [slash] rs |}) ∨
  (¬ hs `prefix_of` inputSegments hs input ∧
   confineToHome (absolutePath hs) input =
   Refusal outside_home (homePathRefusalMessage outside_home input)).
Proof.
  intros Hne Hhs Hu. pose proof (inputSegments_plain hs input Hhs Hu) as Hp.
  destruct (resolveComputerPath_segments hs input Hne Hhs Hu) as (out & Hr & Hout).
  unfold confineToHome. rewrite Hr. destruct out; [right|left].
  - split; [|done]. intros H. by apply Hout in H.
  - destruct (proj1 Hout eq_refl) as [rs Hrs]. rewrite Hrs in Hp |- *.
    apply Forall_app in Hp as [_ Hp]. exists rs. split_and!; [done..|].
    cbn [outside path relative]. by rewrite drop_app_length.
Qed.

(** An attachment's name is one plain segment, whatever it was called. *)
Lemma attachmentFileName_plain name :
  plainSegment (attachmentFileName name) ∧
  (length (attachmentFileName name) ≤ MAX_ATTACHMENT_FILE_NAME_LENGTH)%nat.
Proof.
  unfold attachmentFileName.
  set (cleaned := trim (withoutControlCharacters (default [] (last (splitOn isPathSeparator name))))).
  assert (Forall fileChar cleaned) as Hc.
  { apply trim_Forall. unfold withoutControlCharacters. apply Forall_forall.
    intros c [Hc Hr]%list_elem_of_In%filter_In. apply list_elem_of_In in Hc.
    apply andb_true_iff in Hr as [Hr _]. apply N.leb_le in Hr. split; [|lia].
    destruct (last (splitOn isPathSeparator name)) as [base|] eqn:Hl; [|by apply elem_of_nil in Hc].
    pose proof (splitOn_no_sep isPathSeparator name) as Hs. rewrite Forall_forall in Hs.
    specialize (Hs base (last_Some_elem_of _ _ Hl)). rewrite Forall_forall in Hs.
    specialize (Hs c Hc). unfold isPathSeparator in Hs. bools. by rewrite N.eqb_sym. }
  clearbody cleaned. destruct (isMember cleaned _) eqn:Hm.
  { split; [by apply (bool_decide_unpack _); vm_compute|by apply Nat.leb_le]. }
  assert (cleaned ∉ [[]; [dot]; [dot; dot]]) as Hn by (intros H%isMember_true; congruence).
  split; [|rewrite length_take; lia].
  destruct (Nat.le_gt_cases (length cleaned) MAX_ATTACHMENT_FILE_NAME_LENGTH) as [Hle|Hgt].
  - rewrite take_ge by done. split_and!; [set_solver..|done].
  - assert (∀ x, (length x < MAX_ATTACHMENT_FILE_NAME_LENGTH)%nat →
              take MAX_ATTACHMENT_FILE_NAME_LENGTH cleaned ≠ x) as Hne.
    { intros x Hx Heq. apply (f_equal length) in Heq. rewrite length_take in Heq. lia. }
    split_and!; [apply Hne; simpl; unfold MAX_ATTACHMENT_FILE_NAME_LENGTH; lia..|by apply Forall_take].
Qed.

(** ** Properties *)

(** Nothing a caller spells leaves the home: a confined path is the home followed
    by plain segments only, with no dot segment left to resolve, its relative
    form is exactly those segments, and confining either form again gives the
    same answer; what is refused is exactly what resolves outside. *)
Theorem confineToHome_confines home input :
  canonicalHome home → usablePath input = true →
  match confineToHome home input with
  | Confined v =>
      ∃ hs rs, home = absolutePath hs ∧ Forall plainSegment hs ∧ Forall plainSegment rs ∧
        hpPath v = absolutePath (hs ++ rs) ∧ hpRelative v = join [slash] rs ∧
        confineToHome home (hpPath v) = Confined v ∧
        (rs ≠ [] → confineToHome home (hpRelative v) = Confined v)
  | Refusal reason _ =>
      reason = outside_home ∧
      ∀ hs, hs ≠ [] → Forall plainSegment hs → home = absolutePath hs →
        ¬ hs `prefix_of` inputSegments hs input
  | ConfineRangeError => False
  end.
Proof.
  intros (hs & Hne & Hhs & ->) Hu.
  destruct (confineToHome_segments hs input Hne Hhs Hu) as [(rs & _ & Hrs & ->)|[Hout ->]].
  - exists hs, rs. cbn [hpPath hpRelative].
    assert (Forall plainSegment (hs ++ rs)) as Hall by by apply Forall_app.
    split_and!; try done.
    + destruct (confineToHome_segments hs (absolutePath (hs ++ rs)) Hne Hhs
        (absolute_usable _ Hall)) as [(rs' & Heq & _ & ->)|[Hn _]];
        rewrite inputSegments_absolute in * by done.
      * apply app_inv_head in Heq as ->. done.
      * destruct Hn. by eexists.
    + intros Hrne. destruct (confineToHome_segments hs (join [slash] rs) Hne Hhs
        (join_usable _ Hrne Hrs)) as [(rs' & Heq & _ & ->)|[Hn _]];
        rewrite inputSegments_relative in * by done.
      * apply app_inv_head in Heq as ->. done.
      * destruct Hn. by eexists.
  - split; [done|]. intros hs' Hne' Hhs' Heq. by apply absolutePath_inj in Heq as <-.
Qed.

(** Whatever an attachment was called, it is materialized at one path inside the
    home: home, attachments directory, attachment id, a plain bounded name. *)
Theorem attachment_path_confined home attachmentId fileName :
  canonicalHome home → plainSegment attachmentId →
  plainSegment (attachmentFileName fileName) ∧
  (length (attachmentFileName fileName) ≤ MAX_ATTACHMENT_FILE_NAME_LENGTH)%nat ∧
  confineToHome home (attachmentWorkspacePath attachmentId fileName) =
  Confined {| hpPath := home ++ [slash] ++ attachmentWorkspacePath attachmentId fileName;
              hpRelative := attachmentWorkspacePath attachmentId fileName |}.
Proof.
  intros (hs & Hne & Hhs & ->) Hid. destruct (attachmentFileName_plain fileName) as [Hname Hlen].
  split_and!; [done..|].
  set (rs := [MESSAGE_ATTACHMENTS_DIRECTORY; attachmentId; attachmentFileName fileName]).
  assert (Forall plainSegment rs) as Hrs.
  { unfold rs. rewrite !Forall_cons.
    split_and!; [by apply (bool_decide_unpack _); vm_compute|done|done|constructor]. }
  change (attachmentWorkspacePath attachmentId fileName) with (join [slash] rs).
  destruct (confineToHome_segments hs (join [slash] rs) Hne Hhs
    (join_usable rs ltac:(done) Hrs)) as [(rs' & Heq & _ & ->)|[Hn _]];
    rewrite inputSegments_relative in * by done.
  - apply app_inv_head in Heq as <-. unfold absolutePath. rewrite join_app by done. done.
  - destruct Hn. by eexists.
Qed.

(** ** Witnesses *)

Lemma computerHome_canonical : canonicalHome COMPUTER_HOME_DIRECTORY.
Proof.
  exists [u "home"; u "agent"]. split_and!; [done| |reflexivity].
  apply (bool_decide_unpack _). vm_compute. done.
Qed.

Lemma confineToHome_confines_witness :
  confineToHome COMPUTER_HOME_DIRECTORY (u "notes/../todo.md") =
    Confined {| hpPath := u "/home/agent/todo.md"; hpRelative := u "todo.md" |} ∧
  confineToHome COMPUTER_HOME_DIRECTORY (u "../etc/passwd") =
    Refusal outside_home (homePathRefusalMessage outside_home (u "../etc/passwd")) ∧
  ¬ [u "home"; u "agent"] `prefix_of` inputSegments [u "home"; u "agent"] (u "../etc/passwd").
Proof.
  split; [vm_compute; reflexivity|].
  pose proof (confineToHome_confines COMPUTER_HOME_DIRECTORY (u "../etc/passwd")
    computerHome_canonical eq_refl) as H.
  replace (confineToHome COMPUTER_HOME_DIRECTORY (u "../etc/passwd")) with
    (Refusal outside_home (homePathRefusalMessage outside_home (u "../etc/passwd"))) in H |- *
    by (vm_compute; reflexivity).
  split; [reflexivity|]. destruct H as [_ H]. apply H; [done| |reflexivity].
  apply (bool_decide_unpack _). vm_compute. done.
Defined.

Lemma attachment_path_confined_witness :
  attachmentFileName (u "../../etc/passwd") = u "passwd" ∧
  confineToHome COMPUTER_HOME_DIRECTORY (attachmentWorkspacePath (u "a1") (u "../../etc/passwd")) =
  Confined {| hpPath := u "/home/agent/attachments/a1/passwd";
              hpRelative := u "attachments/a1/passwd" |}.
Proof.
  split; [vm_compute; reflexivity|].
  apply (attachment_path_confined COMPUTER_HOME_DIRECTORY (u "a1") (u "../../etc/passwd")
           computerHome_canonical).
  apply (bool_decide_unpack _). vm_compute. done.
Defined.
