(* ===== verification/Messaging.v ===== *)
(** Sending a message: the send decision of packages/core/src/messaging-policy.ts
    and the stored blocks of packages/core/src/message-blocks.ts. *)

From stdpp Require Import pretty.
From S2P Require Import Prelude JsText JsValue RunState Files.

Definition MAX_MESSAGE_TEXT_LENGTH : Z := 32000.
Definition MAX_CLIENT_NONCE_LENGTH : Z := 200.

Record SendMessageRequest := {
  sendText : jstr; clientNonce : jstr; attachmentIds : option (list jstr) }.

(** A status arrives as the string the row holds. *)
Record ActiveRun := { arRunId : jstr; arStatus : jstr }.

Record ExistingSend := {
  exMessageId : jstr; exRunId : option jstr; exRequest : SendMessageRequest }.

Record MessageContext := { activeRun : option ActiveRun; existingSend : option ExistingSend }.

Inductive MessageAction :=
| start_run
| steer (runId : jstr)
| replay (messageId : jstr) (runId : option jstr).

Inductive ReuseReason := different_text | different_attachments.

Inductive MessageRuleError :=
| EmptyMessage
| MessageTooLong (length : Z)
| MissingClientNonce
| ClientNonceTooLong (length : Z)
| ClientNonceReused (messageId : jstr) (reason : ReuseReason)
| TooManyAttachments (count : Z).

Definition attachmentCount (r : SendMessageRequest) : Z :=
  Z.of_nat (length (default [] (attachmentIds r))).

Definition validateRequest (r : SendMessageRequest) : option MessageRuleError :=
  if isBlank (sendText r) then Some EmptyMessage
  else if (MAX_MESSAGE_TEXT_LENGTH <? strlen (sendText r))%Z
  then Some (MessageTooLong (strlen (sendText r)))
  else if isBlank (clientNonce r) then Some MissingClientNonce
  else if (MAX_CLIENT_NONCE_LENGTH <? strlen (clientNonce r))%Z
  then Some (ClientNonceTooLong (strlen (clientNonce r)))
  else if (MAX_ATTACHMENTS_PER_MESSAGE <? attachmentCount r)%Z
  then Some (TooManyAttachments (attachmentCount r))
  else None.

Definition sameAttachmentIds (left right : option (list jstr)) : bool :=
  let leftIds := default [] left in
  let rightIds := default [] right in
  (length leftIds =? length rightIds)%nat
  && forallb (λ p, bool_decide (p.1 = p.2)) (zip leftIds rightIds).

(** The run status a row's string names. *)
Definition statusNamed (v : jstr) : option RunStatus :=
  List.find (λ s, bool_decide (runStatusName s = v)) RUN_STATUSES.

(** [!isRunStatus(s) || isActiveStatus(s)]. *)
Definition holdsThread (status : jstr) : bool :=
  match statusNamed status with None => true | Some s => isActiveStatus s end.

Definition decideMessageSend (r : SendMessageRequest) (ctx : MessageContext) :
    result MessageRuleError MessageAction :=
  match validateRequest r with
  | Some invalid => Err invalid
  | None =>
      match existingSend ctx with
      | Some existing =>
          if negb (bool_decide (sendText (exRequest existing) = sendText r))
          then Err (ClientNonceReused (exMessageId existing) different_text)
          else if negb (sameAttachmentIds (attachmentIds (exRequest existing)) (attachmentIds r))
          then Err (ClientNonceReused (exMessageId existing) different_attachments)
          else Ok (replay (exMessageId existing) (exRunId existing))
      | None =>
          match activeRun ctx with
          | Some active => if holdsThread (arStatus active) then Ok (steer (arRunId active))
                           else Ok start_run
          | None => Ok start_run
          end
      end
  end.

(** ** Blocks *)

Record FileMessageBlock := {
  fmAttachmentId : jstr; fmFilename : jstr; fmContentType : jstr; fmSizeBytes : Z }.

Inductive MessageBlock :=
| TextBlock (text : jstr)
| FileBlock (file : FileMessageBlock).

Definition textMessageBlocks (text : jstr) : list MessageBlock := [TextBlock text].

Definition messageBlocksForSend (text : jstr) (files : list FileMessageBlock) : list MessageBlock :=
  TextBlock text :: (FileBlock <$> files).

(** The object of a block, and the jsonb array of blocks. *)
Definition blockValue (b : MessageBlock) : jsval :=
  match b with
  | TextBlock text => JObject [(u "type", JString (u "text")); (u "text", JString text)]
  | FileBlock f =>
      JObject [(u "type", JString (u "file")); (u "attachmentId", JString (fmAttachmentId f));
               (u "filename", JString (fmFilename f)); (u "contentType", JString (fmContentType f));
               (u "sizeBytes", JNumber (NInt (fmSizeBytes f)))]
  end.

Definition blocksValue (bs : list MessageBlock) : jsval := JArray (blockValue <$> bs).

(** The text of a text block, when the value is one. *)
Definition isTextMessageBlock (value : jsval) : option jstr :=
  match asRecord value with
  | None => None
  | Some record =>
      if isOneOf [u "text"] (getField (u "type") record)
      then asString (getField (u "text") record) else None
  end.

Definition nonEmptyString (v : jsval) : option jstr :=
  match v with JString (c :: s) => Some (c :: s) | _ => None end.

(** The file block a value is, when it is one. *)
Definition isFileMessageBlock (value : jsval) : option FileMessageBlock :=
  match asRecord value with
  | None => None
  | Some record =>
      if isOneOf [u "file"] (getField (u "type") record) then
        attachmentId ← nonEmptyString (getField (u "attachmentId") record);
        filename ← nonEmptyString (getField (u "filename") record);
        contentType ← nonEmptyString (getField (u "contentType") record);
        size ← asNumber (getField (u "sizeBytes") record);
        sizeBytes ← safeInteger size;
        if (0 <=? sizeBytes)%Z
        then Some {| fmAttachmentId := attachmentId; fmFilename := filename;
                     fmContentType := contentType; fmSizeBytes := sizeBytes |}
        else None
      else None
  end.

Definition isMessageBlock (value : jsval) : bool :=
  bool_decide (isTextMessageBlock value ≠ None) ||
  match isFileMessageBlock value with Some _ => true | None => false end.

Fixpoint messageTexts (blocks : list jsval) : option (list jstr) :=
  match blocks with
  | [] => Some []
  | b :: blocks' =>
      match isTextMessageBlock b with
      | Some text => ts ← messageTexts blocks'; Some (text :: ts)
      | None => match isFileMessageBlock b with
                | Some _ => messageTexts blocks'
                | None => None
                end
      end
  end.

Definition messageText (blocks : jsval) : option jstr :=
  match blocks with
  | JArray (b :: bs) => (λ ts, concat ts) <$> messageTexts (b :: bs)
  | _ => None
  end.

Fixpoint messageFileBlocks (blocks : list jsval) : option (list FileMessageBlock) :=
  match blocks with
  | [] => Some []
  | b :: blocks' =>
      match isTextMessageBlock b with
      | Some _ => messageFileBlocks blocks'
      | None => match isFileMessageBlock b with
                | Some f => fs ← messageFileBlocks blocks'; Some (f :: fs)
                | None => None
                end
      end
  end.

Definition messageFiles (blocks : jsval) : option (list FileMessageBlock) :=
  match blocks with JArray bs => messageFileBlocks bs | _ => None end.

Definition messagePromptWithAttachments (text : jstr) (blocks : jsval) : jstr :=
  match messageFiles blocks with
  | None | Some [] => text
  | Some files =>
      text ++ [10; 10]%N ++ u "Files attached to this message are in the computer's home directory:"
      ++ [10%N]
      ++ join [10%N]
           ((λ f, u "- " ++ attachmentWorkspacePath (fmAttachmentId f) (fmFilename f)
                  ++ u " (" ++ fmContentType f ++ u ", " ++ u (pretty (fmSizeBytes f)) ++ u " bytes)")
            <$> files)
  end.

(** ** Lemmas *)

Lemma sameAttachmentIds_true l r :
  sameAttachmentIds l r = true ↔ default [] l = default [] r.
Proof.
  unfold sameAttachmentIds. generalize (default [] l) (default [] r). clear.
  intros xs. induction xs as [|x xs IH]; intros [|y ys]; try done.
  specialize (IH ys). cbn. rewrite !andb_true_iff in *. rewrite bool_decide_eq_true.
  rewrite Nat.eqb_eq in *. naive_solver.
Qed.

Lemma statusNamed_some v s : statusNamed v = Some s → v = runStatusName s.
Proof. intros [_ H]%find_some_elem. by bools. Qed.

(** A file block the wire rules accept. *)
Definition wfFile (f : FileMessageBlock) : Prop :=
  fmAttachmentId f ≠ [] ∧ fmFilename f ≠ [] ∧ fmContentType f ≠ [] ∧
  (0 ≤ fmSizeBytes f ≤ MAX_SAFE_INTEGER)%Z.

Lemma fileBlock_reads f :
  wfFile f → isTextMessageBlock (blockValue (FileBlock f)) = None ∧
             isFileMessageBlock (blockValue (FileBlock f)) = Some f.
Proof.
  intros (H1 & H2 & H3 & H4). split; [reflexivity|].
  destruct f as [a n t z]. cbn [fmAttachmentId fmFilename fmContentType fmSizeBytes] in *.
  destruct a as [|c1 a], n as [|c2 n], t as [|c3 t]; try done.
  assert (safeInteger (NInt z) = Some z) as Hz by (apply safeInteger_some; split; [done|lia]).
  transitivity (sizeBytes ← safeInteger (NInt z);
    if (0 <=? sizeBytes)%Z
    then Some {| fmAttachmentId := c1 :: a; fmFilename := c2 :: n; fmContentType := c3 :: t;
                 fmSizeBytes := sizeBytes |} else None); [reflexivity|].
  rewrite Hz. cbn [mbind option_bind]. by rewrite (proj2 (Z.leb_le 0 z)) by lia.
Qed.

Lemma textBlock_reads t : isTextMessageBlock (blockValue (TextBlock t)) = Some t.
Proof. reflexivity. Qed.

Lemma fileBlocks_read files :
  Forall wfFile files →
  messageTexts (blockValue <$> (FileBlock <$> files)) = Some [] ∧
  messageFileBlocks (blockValue <$> (FileBlock <$> files)) = Some files.
Proof.
  induction 1 as [|f files Hf _ [IH1 IH2]]; [done|]. destruct (fileBlock_reads f Hf) as [H1 H2].
  rewrite !fmap_cons. cbn [messageTexts messageFileBlocks]. by rewrite H1, H2, IH1, IH2.
Qed.

(** The request a stored message answers a nonce with. *)
Definition storedRequest (nonce : jstr) (blocks : jsval) : option SendMessageRequest :=
  match messageText blocks, messageFiles blocks with
  | Some t, Some fs =>
      Some {| sendText := t; clientNonce := nonce; attachmentIds := Some (fmAttachmentId <$> fs) |}
  | _, _ => None
  end.

(** ** Properties *)

(** The decision, exactly: a malformed request is refused before anything else; a
    nonce that was already answered replays that answer exactly when text and
    attachments are the same, and conflicts otherwise, whatever run is live; a
    new send steers the thread's run unless its status is a known terminal one,
    and starts a run only then, so it never starts a second concurrent run. *)
Theorem decideMessageSend_exact r ctx :
  match decideMessageSend r ctx with
  | Err e =>
      validateRequest r = Some e ∨
      (validateRequest r = None ∧ ∃ x reason, existingSend ctx = Some x ∧
         e = ClientNonceReused (exMessageId x) reason ∧
         match reason with
         | different_text => sendText (exRequest x) ≠ sendText r
         | different_attachments =>
             sendText (exRequest x) = sendText r ∧
             default [] (attachmentIds (exRequest x)) ≠ default [] (attachmentIds r)
         end)
  | Ok (replay m run) =>
      validateRequest r = None ∧ ∃ x, existingSend ctx = Some x ∧ m = exMessageId x ∧
        run = exRunId x ∧ sendText (exRequest x) = sendText r ∧
        default [] (attachmentIds (exRequest x)) = default [] (attachmentIds r)
  | Ok (steer run) =>
      validateRequest r = None ∧ existingSend ctx = None ∧
      ∃ a, activeRun ctx = Some a ∧ run = arRunId a ∧
        ∀ s, arStatus a = runStatusName s → isActiveStatus s = true
  | Ok start_run =>
      validateRequest r = None ∧ existingSend ctx = None ∧
      ∀ a, activeRun ctx = Some a →
        ∃ s, arStatus a = runStatusName s ∧ isTerminalStatus s = true
  end.
Proof.
  unfold decideMessageSend. destruct (validateRequest r) as [e|]; [by left|].
  destruct (existingSend ctx) as [x|].
  - destruct (bool_decide (_ = _)) eqn:Et; bools; cbn [negb].
    + destruct (sameAttachmentIds _ _) eqn:Ea; cbn [negb].
      * apply sameAttachmentIds_true in Ea. eauto 10.
      * right. split; [done|]. exists x, different_attachments. split_and!; try done.
        intros Heq%sameAttachmentIds_true. congruence.
    + right. split; [done|]. by exists x, different_text.
  - destruct (activeRun ctx) as [a|]; [|by split_and!].
    unfold holdsThread. destruct (statusNamed (arStatus a)) as [s|] eqn:Es.
    + apply statusNamed_some in Es. destruct (isActiveStatus s) eqn:Ha.
      * split_and!; [done..|]. exists a. split_and!; [done..|]. intros s' Hs'.
        assert (s = s') as <-; [|done]. rewrite Es in Hs'. clear -Hs'. by destruct s, s'.
      * split_and!; [done..|]. intros a' [= <-]. exists s. split; [done|].
        unfold isActiveStatus in Ha. by apply negb_false_iff.
    + split_and!; [done..|]. exists a. split_and!; [done..|]. intros s Hs. exfalso.
      revert Es. rewrite Hs. clear. by destruct s.
Qed.

(** What a send stores reads back as the send: its blocks carry exactly its text
    and its files, in order, so resubmitting it under its nonce replays the first
    answer whatever the thread's run is doing, and a block of an unknown kind
    makes neither read succeed. *)
Theorem stored_send_replays text files nonce m run active :
  Forall wfFile files →
  let r := {| sendText := text; clientNonce := nonce;
              attachmentIds := Some (fmAttachmentId <$> files) |} in
  let blocks := blocksValue (messageBlocksForSend text files) in
  messageText blocks = Some text ∧ messageFiles blocks = Some files ∧
  storedRequest nonce blocks = Some r ∧
  (validateRequest r = None →
   decideMessageSend r {| activeRun := active;
     existingSend := Some {| exMessageId := m; exRunId := run; exRequest := r |} |}
   = Ok (replay m run)) ∧
  (∀ v pre post, isMessageBlock v = false →
     let bs := JArray ((blockValue <$> pre) ++ v :: (blockValue <$> post)) in
     messageText bs = None ∧ messageFiles bs = None).
Proof.
  intros Hf r blocks. destruct (fileBlocks_read files Hf) as [H1 H2].
  assert (messageText blocks = Some text) as Ht.
  { unfold blocks, blocksValue, messageBlocksForSend. rewrite fmap_cons.
    cbn [messageText messageTexts]. rewrite textBlock_reads, H1. cbn. by rewrite app_nil_r. }
  assert (messageFiles blocks = Some files) as Hfs.
  { unfold blocks, blocksValue, messageBlocksForSend. rewrite fmap_cons.
    cbn [messageFiles messageFileBlocks]. by rewrite textBlock_reads, H2. }
  split_and!; [done|done| | |].
  - unfold storedRequest. by rewrite Ht, Hfs.
  - intros Hv. unfold decideMessageSend. rewrite Hv. cbn [existingSend exRequest].
    rewrite bool_decide_true by done. rewrite (proj2 (sameAttachmentIds_true _ _)) by done. done.
  - intros v pre post Hv.
    assert (isTextMessageBlock v = None ∧ isFileMessageBlock v = None) as [Hv1 Hv2].
    { unfold isMessageBlock in Hv. apply orb_false_iff in Hv as [Hv1 Hv2]. bools.
      apply dec_stable in Hv1. by destruct (isFileMessageBlock v). }
    assert (messageTexts ((blockValue <$> pre) ++ v :: (blockValue <$> post)) = None ∧
            messageFileBlocks ((blockValue <$> pre) ++ v :: (blockValue <$> post)) = None) as [E1 E2].
    { induction pre as [|b pre [IH1 IH2]]; cbn [fmap list_fmap app messageTexts messageFileBlocks].
      - by rewrite Hv1, Hv2.
      - destruct (isTextMessageBlock (blockValue b)), (isFileMessageBlock (blockValue b));
          rewrite ?IH1, ?IH2; done. }
    split; [|exact E2]. cbn [messageText].
    destruct ((blockValue <$> pre) ++ v :: (blockValue <$> post)) eqn:E; [done|]. by rewrite E1.
Qed.

(** ** Witnesses *)

Definition sampleFile : FileMessageBlock :=
  {| fmAttachmentId := u "a1"; fmFilename := u "notes.txt"; fmContentType := u "text/plain";
     fmSizeBytes := 12 |}.

Lemma stored_send_replays_witness :
  wfFile sampleFile ∧
  messageFiles (blocksValue (messageBlocksForSend (u "hi") [sampleFile])) = Some [sampleFile].
Proof.
  assert (wfFile sampleFile) as Hw by (split_and!; done).
  split; [exact Hw|].
  destruct (stored_send_replays (u "hi") [sampleFile] (u "n") (u "m1") None None
    ltac:(by apply Forall_singleton)) as (_ & H & _). exact H.
Defined.
