(* ===== verification/RoutineSchedule.v ===== *)
(** Routine schedules, packages/core/src/routine-schedule.ts: the cron parser, the
    search for the next fire, the resolution of a local time and the decision for
    a due slot.

    Instants and local wall clocks are milliseconds, a wall clock encoded as the
    UTC instant a calendar would show it at.  The time zone database behind
    [Intl.DateTimeFormat] is not part of the repository: it is a class. *)

From S2P Require Import Prelude JsText Calendar.
#[local] Open Scope Z_scope.

Definition ROUTINE_MISS_GRACE_MS : Z := 5 * 60 * 1000.

Inductive CronField := minute_field | hour_field | dayOfMonth_field | month_field | dayOfWeek_field.

Definition ROUTINE_CRON_FIELDS : list CronField :=
  [minute_field; hour_field; dayOfMonth_field; month_field; dayOfWeek_field].

Definition MAX_FIRE_HORIZON_DAYS : Z := 366 * 8.
Definition MAX_WALL_CLOCK_SHIFT_MINUTES : Z := 2 * 24 * 60.

Record RoutineCron := {
  expression : jstr; minutes : list Z; hours : list Z; daysOfMonth : list Z; months : list Z;
  daysOfWeek : list Z; dayOfMonthUnrestricted : bool; dayOfWeekUnrestricted : bool }.

(** Why an expression was refused, and the schedule's other errors. *)
Inductive CronDetail :=
| FieldCount (found : Z)
| EmptyListElement (field : CronField)
| MatchesNoValue (field : CronField)
| StartsAboveEnd (field : CronField) (base : jstr)
| StepNeedsRange (field : CronField) (part : jstr)
| StepNotANumber (field : CronField) (text : jstr)
| StepBelowOne (field : CronField)
| NotAValue (field : CronField) (text : jstr)
| OutsideRange (field : CronField) (text : jstr).

Inductive RoutineScheduleError :=
| InvalidRoutineCron (expression : jstr) (detail : CronDetail)
| InvalidRoutineTimezone (timezone : jstr)
| UnreachableRoutineSchedule (expression timezone : jstr)
| InvalidSearchDate
| ClockMovedTooFar (timezone : jstr).

(** ** Parsing *)

(** [text.toUpperCase()] where the result is looked up among ASCII names: exact
    on every code unit whose upper-case form is one ASCII letter (U+0131 is a
    dotless i, U+017F a long s). *)
Definition toUpperName (s : jstr) : jstr :=
  (λ c, if isLowerAscii c then (c - 32)%N else if (c =? 305)%N then 73%N
        else if (c =? 383)%N then 83%N else c) <$> s.

Definition MONTH_NAMES : list (jstr * Z) :=
  [(u "JAN", 1); (u "FEB", 2); (u "MAR", 3); (u "APR", 4); (u "MAY", 5); (u "JUN", 6);
   (u "JUL", 7); (u "AUG", 8); (u "SEP", 9); (u "OCT", 10); (u "NOV", 11); (u "DEC", 12)].

Definition WEEKDAY_NAMES : list (jstr * Z) :=
  [(u "SUN", 0); (u "MON", 1); (u "TUE", 2); (u "WED", 3); (u "THU", 4); (u "FRI", 5); (u "SAT", 6)].

(** What [parseField] passes down: the field, its bounds and its names. *)
Record FieldSpec := { fsField : CronField; fsMin : Z; fsMax : Z; fsNames : list (jstr * Z) }.

Definition parseStep (f : FieldSpec) (text : jstr) : result CronDetail Z :=
  if negb (isDigits text) then Err (StepNotANumber (fsField f) text)
  else if numberOf text <? 1 then Err (StepBelowOne (fsField f)) else Ok (numberOf text).

Definition parseValue (f : FieldSpec) (text : jstr) : result CronDetail Z :=
  match lookupKey fst (toUpperName text) (fsNames f) with
  | Some (_, value) =>
      if (value <? fsMin f) || (fsMax f <? value) then Err (OutsideRange (fsField f) text)
      else Ok value
  | None =>
      if isDigits text then
        if (numberOf text <? fsMin f) || (fsMax f <? numberOf text)
        then Err (OutsideRange (fsField f) text) else Ok (numberOf text)
      else Err (NotAValue (fsField f) text)
  end.

(** [for (let value = start; value <= stop; value += step)]; the step is at least
    one, so [stop - start + 1] turns are enough. *)
Fixpoint countUp (fuel : nat) (value stop step : Z) : list Z :=
  match fuel with
  | O => []
  | S fuel' => if value <=? stop then value :: countUp fuel' (value + step) stop step else []
  end.

Definition countRange (start stop step : Z) : list Z :=
  countUp (Z.to_nat (stop - start + 1)) start stop step.

(** [part.slice(0, i)] and [part.slice(i + 1)] around the first occurrence. *)
Definition cutAt (c : N) (s : jstr) : option (jstr * jstr) :=
  match indexOf c s with
  | Some i => Some (take i s, drop (S i) s)
  | None => None
  end.

(** The values one list element adds. *)
Definition parsePart (f : FieldSpec) (part : jstr) : result CronDetail (list Z) :=
  let '(base, stepText) := match cutAt 47 part with
                           | Some (b, t) => (b, Some t)
                           | None => (part, None)
                           end in
  step ← match stepText with Some t => parseStep f t | None => Ok 1 end;
  if bool_decide (base = u "*") then Ok (countRange (fsMin f) (fsMax f) step)
  else match cutAt 45 base with
       | Some (startText, endText) =>
           start ← parseValue f startText;
           stop ← parseValue f endText;
           if stop <? start then Err (StartsAboveEnd (fsField f) base)
           else Ok (countRange start stop step)
       | None =>
           value ← parseValue f base;
           match stepText with
           | Some _ => Err (StepNeedsRange (fsField f) part)
           | None => Ok [value]
           end
       end.

Fixpoint parseParts (f : FieldSpec) (parts : list jstr) : result CronDetail (list Z) :=
  match parts with
  | [] => Ok []
  | part :: parts' =>
      match part with
      | [] => Err (EmptyListElement (fsField f))
      | _ => vs ← parsePart f part; ws ← parseParts f parts'; Ok (vs ++ ws)
      end
  end.

(** [[...new Set(vs)].sort((l, r) => l - r)]. *)
Definition sortedSet (vs : list Z) : list Z := merge_sort Z.le (remove_dups vs).

Definition parseField (f : FieldSpec) (text : jstr) : result CronDetail (list Z) :=
  vs ← parseParts f (split 44 text);
  match vs with [] => Err (MatchesNoValue (fsField f)) | _ => Ok (sortedSet vs) end.

(** [expression.trim().split(/\s+/)]. *)
Definition cronFields (e : jstr) : list jstr :=
  match List.filter (λ w, negb (bool_decide (w = []))) (splitOn isSpace (trim e)) with
  | [] => [[]]
  | ws => ws
  end.

Definition minuteSpec := {| fsField := minute_field; fsMin := 0; fsMax := 59; fsNames := [] |}.
Definition hourSpec := {| fsField := hour_field; fsMin := 0; fsMax := 23; fsNames := [] |}.
Definition dayOfMonthSpec :=
  {| fsField := dayOfMonth_field; fsMin := 1; fsMax := 31; fsNames := [] |}.
Definition monthSpec :=
  {| fsField := month_field; fsMin := 1; fsMax := 12; fsNames := MONTH_NAMES |}.
Definition dayOfWeekSpec :=
  {| fsField := dayOfWeek_field; fsMin := 0; fsMax := 7; fsNames := WEEKDAY_NAMES |}.

(** 7 and 0 are both Sunday. *)
Definition foldSunday (value : Z) : Z := if value =? 7 then 0 else value.

Definition parseCronFields (e : jstr) : result CronDetail RoutineCron :=
  match cronFields e with
  | [minuteText; hourText; dayOfMonthText; monthText; dayOfWeekText] =>
      minutes ← parseField minuteSpec minuteText;
      hours ← parseField hourSpec hourText;
      daysOfMonth ← parseField dayOfMonthSpec dayOfMonthText;
      months ← parseField monthSpec monthText;
      parsedDaysOfWeek ← parseField dayOfWeekSpec dayOfWeekText;
      let daysOfWeek := sortedSet (foldSunday <$> parsedDaysOfWeek) in
      Ok {| expression := e; minutes := minutes; hours := hours; daysOfMonth := daysOfMonth;
            months := months; daysOfWeek := daysOfWeek;
            dayOfMonthUnrestricted := (length daysOfMonth =? 31)%nat;
            dayOfWeekUnrestricted := (length daysOfWeek =? 7)%nat |}
  | ws => Err (FieldCount (Z.of_nat (length ws)))
  end.

Definition parseRoutineCron (e : jstr) : result RoutineScheduleError RoutineCron :=
  result_map_err (InvalidRoutineCron e) (parseCronFields e).

(** ** The clock of a zone *)

(** What [formatterFor] and [formatToParts] answer: whether a zone is known, and
    the wall clock an instant shows in it. *)
Class Timezones := {
  knownZone : jstr → bool;
  zoneClock : jstr → Z → Z }.

Section zones.
Context `{Timezones}.

Definition isRoutineTimezone (timezone : jstr) : bool := knownZone timezone.

Definition wallClockAt (instantMs : Z) (timezone : jstr) : Z := zoneClock timezone instantMs.

Definition offsetAt (instantMs : Z) (timezone : jstr) : Z :=
  wallClockAt instantMs timezone - instantMs.

(** The walk of [resolveWallClock]: [steps] is the number of turns it has left. *)
Fixpoint walkClock (steps : nat) (candidate wall : Z) (timezone : jstr) : option Z :=
  match steps with
  | O => None
  | S steps' =>
      if wall <=? wallClockAt candidate timezone then Some candidate
      else walkClock steps' (candidate + MINUTE_MS) wall timezone
  end.

Definition resolveWallClock (wall : Z) (timezone : jstr) : result RoutineScheduleError Z :=
  let before := wall - offsetAt (wall - DAY_MS) timezone in
  let after := wall - offsetAt (wall + DAY_MS) timezone in
  match walkClock (Z.to_nat (MAX_WALL_CLOCK_SHIFT_MINUTES + 1)) (Z.min before after) wall timezone with
  | Some instant => Ok instant
  | None => Err (ClockMovedTooFar timezone)
  end.

(** ** The search *)

Definition contains (v : Z) (vs : list Z) : bool := existsb (Z.eqb v) vs.

Definition dayMatches (cron : RoutineCron) (dayNumber day : Z) : bool :=
  let dayOfMonth := contains day (daysOfMonth cron) in
  let dayOfWeek := contains (weekdayOfDay dayNumber) (daysOfWeek cron) in
  if dayOfMonthUnrestricted cron && dayOfWeekUnrestricted cron then true
  else if dayOfMonthUnrestricted cron then dayOfWeek
  else if dayOfWeekUnrestricted cron then dayOfMonth
  else dayOfMonth || dayOfWeek.

(** The local times one calendar day offers, in the order of the two loops. *)
Definition dayCandidates (cron : RoutineCron) (dayNumber : Z) : list Z :=
  let '(year, month, day) := civilOfDay dayNumber in
  if contains month (months cron) && dayMatches cron (dayOfCivil year month day) day then
    concat ((λ hour, (λ minute, dateUTC year month day hour minute) <$> minutes cron) <$> hours cron)
  else [].

(** The body of the loops: the first candidate that resolves after [afterMs]. *)
Fixpoint firstFire (startWall afterMs : Z) (timezone : jstr) (candidates : list Z) :
    result RoutineScheduleError (option Z) :=
  match candidates with
  | [] => Ok None
  | wall :: candidates' =>
      if wall <? startWall then firstFire startWall afterMs timezone candidates'
      else
        instant ← resolveWallClock wall timezone;
        if afterMs <? instant then Ok (Some instant)
        else firstFire startWall afterMs timezone candidates'
  end.

Fixpoint searchDays (days : nat) (dayNumber : Z) (cron : RoutineCron)
    (startWall afterMs : Z) (timezone : jstr) : result RoutineScheduleError (option Z) :=
  match days with
  | O => Ok None
  | S days' =>
      found ← firstFire startWall afterMs timezone (dayCandidates cron dayNumber);
      match found with
      | Some instant => Ok (Some instant)
      | None => searchDays days' (dayNumber + 1) cron startWall afterMs timezone
      end
  end.

(** The first whole local minute after an instant. *)
Definition startWallOf (afterMs : Z) (timezone : jstr) : Z :=
  wallClockAt afterMs timezone / MINUTE_MS * MINUTE_MS + MINUTE_MS.

(** [None] is an invalid [Date]. *)
Definition nextRoutineFire (cron : RoutineCron) (timezone : jstr) (after : option Z) :
    result RoutineScheduleError Z :=
  match after with
  | None => Err InvalidSearchDate
  | Some afterMs =>
      if negb (isRoutineTimezone timezone) then Err (InvalidRoutineTimezone timezone)
      else
        let startWall := startWallOf afterMs timezone in
        found ← searchDays (Z.to_nat (MAX_FIRE_HORIZON_DAYS + 1)) (startWall / DAY_MS) cron
                  startWall afterMs timezone;
        match found with
        | Some instant => Ok instant
        | None => Err (UnreachableRoutineSchedule (expression cron) timezone)
        end
  end.

(** ** A due slot *)

Inductive RoutineDueDecision :=
| Fire (scheduledFor nextRunAt lateByMs : Z)
| Miss (scheduledFor nextRunAt lateByMs : Z)
| Wait (nextRunAt : Z).

Definition decideRoutineDue (cron : RoutineCron) (timezone : jstr) (nextRunAt now : Z) :
    result RoutineScheduleError RoutineDueDecision :=
  let lateByMs := now - nextRunAt in
  if lateByMs <? 0 then Ok (Wait nextRunAt)
  else if lateByMs <=? ROUTINE_MISS_GRACE_MS then
    next ← nextRoutineFire cron timezone (Some nextRunAt);
    Ok (Fire nextRunAt next lateByMs)
  else
    next ← nextRoutineFire cron timezone (Some now);
    Ok (Miss nextRunAt next lateByMs).
End zones.

(** ** What the fields denote *)

(** [element] is one list element [base] or [base/step]; its step is 1 without one. *)
Definition stepDenotes (element base : jstr) (step : Z) : Prop :=
  (element = base ∧ (47%N ∉ base) ∧ step = 1) ∨
  (∃ t, element = base ++ [47%N] ++ t ∧ (47%N ∉ base) ∧ isDigits t = true ∧ step = numberOf t ∧ 1 ≤ step).

(** What one list element of a field stands for: a single value, or every
    [step]-th value of the whole range or of a range [a-b]. *)
Definition denotes (f : FieldSpec) (element : jstr) (v : Z) : Prop :=
  (47%N ∉ element ∧ 45%N ∉ element ∧ element ≠ u "*" ∧ parseValue f element = Ok v) ∨
  ∃ base step k, stepDenotes element base step ∧ 0 ≤ k ∧
    ((base = u "*" ∧ v = fsMin f + k * step ∧ v ≤ fsMax f) ∨
     ∃ a b lo hi, base ≠ u "*" ∧ base = a ++ [45%N] ++ b ∧ (45%N ∉ a) ∧
       parseValue f a = Ok lo ∧ parseValue f b = Ok hi ∧ v = lo + k * step ∧ v ≤ hi).

(** A parsed field: not empty, ascending, inside the bounds, and exactly what its
    list elements stand for. *)
Definition fieldDenotes (f : FieldSpec) (text : jstr) (vs : list Z) : Prop :=
  vs ≠ [] ∧ StronglySorted Z.lt vs ∧ Forall (λ v, fsMin f ≤ v ≤ fsMax f) vs ∧
  ∀ v, v ∈ vs ↔ ∃ element, element ∈ split 44 text ∧ denotes f element v.

(** ** Lemmas: parsing *)

Lemma indexOf_cut c s i :
  indexOf c s = Some i → s = take i s ++ [c] ++ drop (S i) s ∧ c ∉ take i s.
Proof.
  revert i. induction s as [|d s IH]; intros i; simpl; [done|].
  destruct (N.eqb_spec c d) as [->|Hne].
  - intros [= <-]. split; [done|]. apply not_elem_of_nil.
  - destruct (indexOf c s) as [j|] eqn:E; [|done]. intros [= <-].
    destruct (IH j eq_refl) as [H1 H2]. split; [cbn; f_equal; exact H1|]. cbn. set_solver.
Qed.

Lemma indexOf_none c s : indexOf c s = None ↔ c ∉ s.
Proof.
  induction s as [|d s IH]; simpl; [set_solver|].
  destruct (N.eqb_spec c d) as [->|Hne]; [set_solver|].
  rewrite not_elem_of_cons. destruct (indexOf c s); naive_solver.
Qed.

Lemma cutAt_some c s a b : cutAt c s = Some (a, b) ↔ s = a ++ [c] ++ b ∧ c ∉ a.
Proof.
  unfold cutAt. split.
  - destruct (indexOf c s) as [i|] eqn:E; [|done]. intros [= <- <-]. by apply indexOf_cut.
  - intros [-> Ha]. assert (indexOf c (a ++ [c] ++ b) = Some (length a)) as ->.
    { induction a as [|d a IH]; simpl; [by rewrite N.eqb_refl|].
      apply not_elem_of_cons in Ha as [Hd Ha]. rewrite (proj2 (N.eqb_neq _ _)) by congruence.
      simpl in IH. by rewrite (IH Ha). }
    rewrite take_app_length. do 2 f_equal. rewrite (assoc_L (++)).
    replace (S (length a)) with (length (a ++ [c])) by (rewrite length_app; simpl; lia).
    by rewrite drop_app_length.
Qed.

Lemma cutAt_none c s : cutAt c s = None ↔ c ∉ s.
Proof. unfold cutAt. rewrite <- indexOf_none. by destruct (indexOf c s). Qed.

Lemma elem_countUp fuel value stop step v :
  1 ≤ step → stop - value + 1 ≤ Z.of_nat fuel →
  v ∈ countUp fuel value stop step ↔ ∃ k, 0 ≤ k ∧ v = value + k * step ∧ v ≤ stop.
Proof.
  intros Hstep. revert value. induction fuel as [|fuel IH]; intros value Hf; simpl.
  - split; [by intros ?%elem_of_nil|]. intros (k & ? & -> & ?). nia.
  - destruct (Z.leb_spec value stop) as [Hle|Hgt].
    + rewrite elem_of_cons, IH by lia. split.
      * intros [->|(k & ? & -> & ?)]; [exists 0; lia|exists (k + 1); lia].
      * intros (k & ? & -> & ?). destruct (decide (k = 0)) as [->|]; [left; lia|].
        right. exists (k - 1). lia.
    + split; [by intros ?%elem_of_nil|]. intros (k & ? & -> & ?). nia.
Qed.

Lemma elem_countRange start stop step v :
  1 ≤ step →
  v ∈ countRange start stop step ↔ ∃ k, 0 ≤ k ∧ v = start + k * step ∧ v ≤ stop.
Proof.
  intros Hs. unfold countRange. destruct (Z.le_gt_cases (stop - start + 1) 0).
  - replace (Z.to_nat _) with O by lia. simpl. split; [by intros ?%elem_of_nil|].
    intros (k & ? & -> & ?). nia.
  - apply elem_countUp; lia.
Qed.

Lemma parseStep_ok f t s : parseStep f t = Ok s ↔ isDigits t = true ∧ s = numberOf t ∧ 1 ≤ s.
Proof.
  unfold parseStep. destruct (isDigits t); simpl; [|naive_solver].
  destruct (Z.ltb_spec (numberOf t) 1); naive_solver lia.
Qed.

Lemma parseValue_bounds f t v : parseValue f t = Ok v → fsMin f ≤ v ≤ fsMax f.
Proof.
  unfold parseValue. intros H. repeat (dmh; try done); simplify_eq; bools; lia.
Qed.

Lemma parsePart_step f part base stepText step :
  (match cutAt 47 part with Some (b, t) => (b, Some t) | None => (part, None) end) = (base, stepText) →
  (match stepText with Some t => parseStep f t | None => Ok 1 end) = Ok step →
  stepDenotes part base step ∧ 1 ≤ step ∧ (stepText = None ↔ (part = base ∧ 47%N ∉ part)).
Proof.
  destruct (cutAt 47 part) as [[b t]|] eqn:E; intros [= <- <-].
  - apply cutAt_some in E as [-> Hb]. intros (Hd & -> & Hs)%parseStep_ok. split_and!; [|done|].
    + right. by exists t.
    + split; [done|]. intros [_ Hn]. destruct Hn. set_solver.
  - apply cutAt_none in E. intros [= <-]. split_and!; [by left|done|done].
Qed.

Lemma stepDenotes_fun part base step base' step' :
  stepDenotes part base step → stepDenotes part base' step' → base = base' ∧ step = step'.
Proof.
  intros [(-> & Hb & ->)|(t & -> & Hb & _ & -> & _)] [(<- & Hb' & ->)|(t' & Heq & Hb' & _ & -> & _)].
  - done.
  - destruct Hb. rewrite Heq. set_solver.
  - destruct Hb'. set_solver.
  - assert (cutAt 47 (base ++ [47%N] ++ t) = Some (base', t')) as H1 by by apply cutAt_some.
    assert (cutAt 47 (base ++ [47%N] ++ t) = Some (base, t)) as H2 by by apply cutAt_some.
    rewrite H1 in H2. by injection H2 as -> ->.
Qed.

Lemma parsePart_denotes f part vs v :
  parsePart f part = Ok vs → v ∈ vs ↔ denotes f part v.
Proof.
  unfold parsePart. destruct (match cutAt 47 part with Some (b, t) => _ | None => _ end)
    as [base stepText] eqn:Ecut.
  destruct (match stepText with Some t => parseStep f t | None => Ok 1 end) as [step|] eqn:Es; [|done].
  cbn [mbind result_bind]. destruct (parsePart_step f _ _ _ _ Ecut Es) as (Hst & Hs1 & Hnone).
  destruct (bool_decide (base = u "*")) eqn:Estar; bools.
  - intros [= <-]. rewrite elem_countRange by done. unfold denotes. split.
    + intros (k & ? & ? & ?). right. exists base, step, k. split_and!; [done|done|]. left. done.
    + intros [(Hsl & _ & Hne & _)|(b & s & k & Hst' & ? & Hd)].
      * exfalso. destruct Hst as [(-> & _)|(t & -> & _)]; [done|]. set_solver.
      * destruct (stepDenotes_fun _ _ _ _ _ Hst Hst') as [<- <-].
        destruct Hd as [(_ & -> & ?)|(a & b & lo & hi & Hne & _)]; [by exists k|done].
  - destruct (cutAt 45 base) as [[a b]|] eqn:Edash.
    + apply cutAt_some in Edash as [Hbase Ha].
      destruct (parseValue f a) as [lo|] eqn:Ea; [|done]. cbn [mbind result_bind].
      destruct (parseValue f b) as [hi|] eqn:Eb; [|done]. cbn [mbind result_bind].
      destruct (hi <? lo); [done|]. intros [= <-]. rewrite elem_countRange by done.
      unfold denotes. split.
      * intros (k & ? & ? & ?). right. exists base, step, k. split_and!; [done|done|].
        right. exists a, b, lo, hi. done.
      * intros [(Hsl & Hda & _ & _)|(b' & s & k & Hst' & ? & Hd)].
        -- exfalso. destruct Hst as [(-> & _)|(t & -> & _)]; set_solver.
        -- destruct (stepDenotes_fun _ _ _ _ _ Hst Hst') as [<- <-].
           destruct Hd as [(? & _)|(a' & b'' & lo' & hi' & _ & Hb' & Ha' & Hlo & Hhi & -> & ?)]; [done|].
           assert (cutAt 45 base = Some (a', b'')) as H1 by by apply cutAt_some.
           assert (cutAt 45 base = Some (a, b)) as H2 by by apply cutAt_some.
           exists k. rewrite H1 in H2. injection H2 as -> ->. split_and!; congruence.
    + apply cutAt_none in Edash. destruct (parseValue f base) as [w|] eqn:Ew; [|done].
      cbn [mbind result_bind]. destruct stepText as [t|]; [done|].
      destruct (proj1 Hnone eq_refl) as [-> Hsl]. intros [= <-].
      rewrite list_elem_of_singleton. unfold denotes. split; [intros ->; by left|].
      intros [(_ & _ & _ & ?)|(b' & s & k & Hst' & ? & Hd)]; [congruence|].
      destruct (stepDenotes_fun _ _ _ _ _ Hst Hst') as [<- <-].
      destruct Hd as [(? & _)|(a' & b'' & lo' & hi' & _ & -> & _)]; [done|]. set_solver.
Qed.

Lemma parseParts_denotes f parts vs v :
  parseParts f parts = Ok vs → v ∈ vs ↔ ∃ part, part ∈ parts ∧ denotes f part v.
Proof.
  revert vs. induction parts as [|part parts IH]; intros vs; simpl; [intros [= <-]; set_solver|].
  destruct part as [|c part]; [done|].
  destruct (parsePart f (c :: part)) as [ws|] eqn:E; [|done]. cbn [mbind result_bind].
  destruct (parseParts f parts) as [ws'|]; [|done]. intros [= <-].
  rewrite elem_of_app, (parsePart_denotes _ _ _ v E), (IH ws' eq_refl).
  setoid_rewrite elem_of_cons. naive_solver.
Qed.

Lemma denotes_bounds f part v : denotes f part v → fsMin f ≤ v ≤ fsMax f.
Proof.
  intros [(_ & _ & _ & H)|(base & step & k & Hst & Hk & Hd)]; [by apply parseValue_bounds in H|].
  assert (1 ≤ step) by (destruct Hst as [(_ & _ & ->)|(t & _ & _ & _ & _ & ?)]; lia).
  destruct Hd as [(_ & -> & ?)|(a & b & lo & hi & _ & _ & _ & Hlo & Hhi & -> & ?)].
  - nia.
  - apply parseValue_bounds in Hlo, Hhi. nia.
Qed.

Lemma sortedSet_spec vs : StronglySorted Z.lt (sortedSet vs) ∧ ∀ v, v ∈ sortedSet vs ↔ v ∈ vs.
Proof.
  unfold sortedSet. split.
  - assert (NoDup (merge_sort Z.le (remove_dups vs))) as Hnd
      by (rewrite merge_sort_Permutation; apply NoDup_remove_dups).
    pose proof (StronglySorted_merge_sort Z.le (remove_dups vs)) as Hs.
    induction Hs as [|x l Hs IH Hx]; [constructor|]. apply NoDup_cons in Hnd as [Hnot Hnd].
    constructor; [by apply IH|]. rewrite Forall_forall in Hx |- *. intros y Hy.
    specialize (Hx y Hy). assert (x ≠ y) by congruence. lia.
  - intros v. by rewrite merge_sort_Permutation, elem_of_remove_dups.
Qed.

Lemma parseField_denotes f text vs : parseField f text = Ok vs → fieldDenotes f text vs.
Proof.
  unfold parseField. destruct (parseParts f (split 44 text)) as [ws|] eqn:E; [|done].
  cbn [mbind result_bind]. destruct ws as [|w ws]; [done|].
  intros [= <-]. destruct (sortedSet_spec (w :: ws)) as [Hs Hv].
  assert (∀ v, v ∈ sortedSet (w :: ws) ↔ ∃ part, part ∈ split 44 text ∧ denotes f part v) as Hd
    by (intros v; rewrite Hv; by apply parseParts_denotes).
  split_and!; [|done| |done].
  - intros Hnil. assert (w ∈ sortedSet (w :: ws)) as Hw by (apply Hv; left).
    rewrite Hnil in Hw. by apply elem_of_nil in Hw.
  - apply Forall_forall. intros v (part & _ & Hp)%Hd. by eapply denotes_bounds.
Qed.

(** An ascending list of [n] values out of [n] holds them all. *)
Lemma full_range lo n vs :
  StronglySorted Z.lt vs → Forall (λ v, lo ≤ v < lo + n) vs → 0 ≤ n →
  Z.of_nat (length vs) = n ↔ ∀ v, lo ≤ v < lo + n → v ∈ vs.
Proof.
  intros Hs Hf Hn.
  assert (NoDup vs) as Hnd.
  { clear Hf. induction Hs as [|x l _ IH Hx]; constructor; [|done].
    rewrite Forall_forall in Hx. intros Hin. specialize (Hx x Hin). lia. }
  assert (vs ⊆+ seqZ lo n) as Hsub.
  { apply NoDup_submseteq; [done|]. intros v Hv. rewrite Forall_forall in Hf.
    apply elem_of_seqZ. by apply Hf. }
  split.
  - intros Hlen v Hv. assert (vs ≡ₚ seqZ lo n) as ->; [|by apply elem_of_seqZ].
    apply submseteq_length_Permutation; [done|]. rewrite length_seqZ. lia.
  - intros Hall. apply Z.le_antisymm.
    + apply submseteq_length in Hsub. rewrite length_seqZ in Hsub. lia.
    + assert (seqZ lo n ⊆+ vs) as Hsub'.
      { apply NoDup_submseteq; [apply NoDup_seqZ|]. intros v Hv%elem_of_seqZ. by apply Hall. }
      apply submseteq_length in Hsub'. rewrite length_seqZ in Hsub'. lia.
Qed.

Lemma foldSunday_range vs :
  Forall (λ v, 0 ≤ v ≤ 7) vs → Forall (λ v, 0 ≤ v < 0 + 7) (sortedSet (foldSunday <$> vs)).
Proof.
  rewrite !Forall_forall. intros H v Hv.
  apply sortedSet_spec, list_elem_of_fmap in Hv as (x & -> & Hx). apply H in Hx.
  unfold foldSunday. destruct (Z.eqb_spec x 7); lia.
Qed.

(** ** What a schedule asks for *)

(** The fields of a schedule as lists the search can walk. *)
Definition cronWf (c : RoutineCron) : Prop :=
  StronglySorted Z.lt (minutes c) ∧ Forall (λ v, 0 ≤ v < 60) (minutes c) ∧
  StronglySorted Z.lt (hours c) ∧ Forall (λ v, 0 ≤ v < 24) (hours c).

(** A local time, in whole minutes, that the schedule names. *)
Definition scheduled (c : RoutineCron) (w : Z) : Prop :=
  let '(_, month, day) := civilOfDay (w / DAY_MS) in
  month ∈ months c ∧ dayMatches c (w / DAY_MS) day = true ∧ w mod MINUTE_MS = 0 ∧
  w mod DAY_MS / HOUR_MS ∈ hours c ∧ w mod HOUR_MS / MINUTE_MS ∈ minutes c.

(** ** Lemmas: the search *)

Lemma contains_true v vs : contains v vs = true ↔ v ∈ vs.
Proof.
  unfold contains. rewrite existsb_true. split.
  - by intros (x & Hx & ->%Z.eqb_eq).
  - intros H. exists v. by rewrite Z.eqb_refl.
Qed.

Lemma elem_dayCandidates c d w :
  cronWf c → w ∈ dayCandidates c d ↔ w / DAY_MS = d ∧ scheduled c w.
Proof.
  intros (_ & Hm & _ & Hh). rewrite Forall_forall in Hm, Hh.
  pose proof (civilOfDay_roundtrip d) as Hrt. unfold dayCandidates, scheduled.
  pose proof (dateUTC_civil d) as Hd.
  destruct (civilOfDay d) as [[y m] dd] eqn:Ed. destruct Hrt as [-> _].
  assert (∀ h mi, h ∈ hours c → mi ∈ minutes c → ∀ w', w' = dateUTC y m dd h mi ↔
    w' / DAY_MS = d ∧ w' mod MINUTE_MS = 0 ∧ w' mod DAY_MS / HOUR_MS = h ∧
    w' mod HOUR_MS / MINUTE_MS = mi) as Hiff.
  { intros h mi Hhin Hmin w'. specialize (Hd h mi). simpl in Hd. rewrite Hd.
    specialize (Hh h Hhin). specialize (Hm mi Hmin).
    unfold DAY_MS, HOUR_MS, MINUTE_MS. split; [intros ->|intros (<- & ? & <- & <-)]; div_lia. }
  split.
  - destruct (contains m (months c) && _) eqn:Emd; [|by intros ?%elem_of_nil].
    apply andb_true_iff in Emd as [Hmo Hday]. apply contains_true in Hmo.
    intros Hin. apply list_elem_of_In, in_concat in Hin as (l & Hl & Hw).
    apply list_elem_of_In in Hl, Hw. apply list_elem_of_fmap in Hl as (h & -> & Hhin).
    apply list_elem_of_fmap in Hw as (mi & Hw & Hmin).
    apply (Hiff h mi Hhin Hmin) in Hw as (Hwd & Hw0 & Hwh & Hwm).
    split; [done|]. rewrite Hwd, Ed, Hwh, Hwm. done.
  - intros [Hwd Hs]. rewrite Hwd, Ed in Hs. destruct Hs as (Hmo & Hday & Hw0 & Hwh & Hwm).
    rewrite (proj2 (contains_true _ _) Hmo), Hday. cbn [andb].
    apply list_elem_of_In, in_concat.
    exists ((λ minute, dateUTC y m dd (w mod DAY_MS / HOUR_MS) minute) <$> minutes c).
    split; apply list_elem_of_In, list_elem_of_fmap; [by eexists|].
    exists (w mod HOUR_MS / MINUTE_MS). split; [|done]. by apply Hiff.
Qed.

Lemma sorted_concat {A} (ls : list (list A)) (R : A → A → Prop) :
  Forall (StronglySorted R) ls →
  StronglySorted (λ l k, ∀ x y, x ∈ l → y ∈ k → R x y) ls → StronglySorted R (concat ls).
Proof.
  intros Hf Hs. induction Hs as [|l ls Hs IH Hl]; [constructor|].
  apply Forall_cons in Hf as [H1 H2]. specialize (IH H2). cbn.
  clear -H1 IH Hl. induction H1 as [|x l Hl' IHl Hx]; [done|]. cbn. constructor.
  - apply IHl. eapply Forall_impl; [exact Hl|]. intros k Hk y z Hy. apply Hk. by right.
  - apply Forall_app. split; [done|]. apply Forall_forall. intros y Hy.
    apply list_elem_of_In, in_concat in Hy as (k & Hk & Hy). apply list_elem_of_In in Hk, Hy.
    rewrite Forall_forall in Hl. apply (Hl k Hk); [left|done].
Qed.

Lemma StronglySorted_fmap {A B} (f : A → B) (R : A → A → Prop) (S : B → B → Prop) l :
  (∀ x y, x ∈ l → y ∈ l → R x y → S (f x) (f y)) → StronglySorted R l → StronglySorted S (f <$> l).
Proof.
  intros H Hs. induction Hs as [|x l Hs IH Hx]; [constructor|]. cbn. constructor.
  - apply IH. intros y z Hy Hz. apply H; by right.
  - apply Forall_fmap, Forall_forall. intros y Hy. rewrite Forall_forall in Hx.
    apply H; [left|by right|by apply Hx].
Qed.

Lemma dayCandidates_sorted c d : cronWf c → StronglySorted Z.lt (dayCandidates c d).
Proof.
  intros (Hms & Hm & Hhs & Hh). rewrite Forall_forall in Hm. unfold dayCandidates.
  pose proof (dateUTC_civil d) as Hd. destruct (civilOfDay d) as [[y m] dd].
  destruct (_ && _); [|constructor]. apply sorted_concat.
  - apply Forall_fmap, Forall_forall. intros h _. cbn.
    eapply StronglySorted_fmap; [|exact Hms]. intros a b _ _ Hab. rewrite !Hd.
    unfold MINUTE_MS. lia.
  - eapply StronglySorted_fmap; [|exact Hhs]. intros a b _ _ Hab x z Hx Hz.
    apply list_elem_of_fmap in Hx as (i & -> & Hi), Hz as (j & -> & Hj). rewrite !Hd.
    apply Hm in Hi, Hj. unfold HOUR_MS, MINUTE_MS. lia.
Qed.

(** Every candidate the day loop offers, as one list. *)
Fixpoint allCandidates (days : nat) (d : Z) (c : RoutineCron) : list Z :=
  match days with
  | O => []
  | S days' => dayCandidates c d ++ allCandidates days' (d + 1) c
  end.

Lemma elem_allCandidates days d c w :
  cronWf c →
  w ∈ allCandidates days d c ↔ d ≤ w / DAY_MS < d + Z.of_nat days ∧ scheduled c w.
Proof.
  intros Hc. revert d. induction days as [|days IH]; intros d; cbn [allCandidates].
  - split; [by intros ?%elem_of_nil|lia].
  - rewrite elem_of_app, elem_dayCandidates, IH by done. split; [naive_solver lia|].
    intros [Hb Hs]. destruct (decide (w / DAY_MS = d)); [by left|right]. split; [lia|done].
Qed.

Lemma allCandidates_sorted days d c : cronWf c → StronglySorted Z.lt (allCandidates days d c).
Proof.
  intros Hc. revert d. induction days as [|days IH]; intros d; cbn [allCandidates]; [constructor|].
  assert (concat [dayCandidates c d; allCandidates days (d + 1) c] =
          dayCandidates c d ++ allCandidates days (d + 1) c) as <- by (cbn; by rewrite app_nil_r).
  apply sorted_concat.
  - repeat constructor; [by apply dayCandidates_sorted|apply IH].
  - repeat constructor. intros x y Hx Hy. apply elem_dayCandidates in Hx as [Hx _]; [|done].
    apply elem_allCandidates in Hy as [Hy _]; [|done].
    destruct (Z.lt_ge_cases x y) as [?|Hge]; [done|]. exfalso.
    pose proof (Z.div_le_mono y x DAY_MS ltac:(done) Hge). lia.
Qed.

Section search.
Context `{Timezones}.

Lemma firstFire_app sw a tz l k :
  firstFire sw a tz (l ++ k) =
  (r ← firstFire sw a tz l; match r with Some t => Ok (Some t) | None => firstFire sw a tz k end).
Proof.
  induction l as [|w l IH]; [done|]. cbn. destruct (w <? sw); [done|].
  destruct (resolveWallClock w tz); [|done]. cbn. by destruct (a <? _).
Qed.

Lemma searchDays_flat days d c sw a tz :
  searchDays days d c sw a tz = firstFire sw a tz (allCandidates days d c).
Proof.
  revert d. induction days as [|days IH]; intros d; [done|]. cbn [searchDays allCandidates].
  rewrite firstFire_app. destruct (firstFire sw a tz (dayCandidates c d)) as [[t|]|]; try done.
  cbn [mbind result_bind]. apply IH.
Qed.

(** What the loop answers on an ascending list of candidates. *)
Lemma firstFire_spec sw a tz l r :
  StronglySorted Z.lt l → firstFire sw a tz l = Ok r →
  match r with
  | Some t => ∃ w, w ∈ l ∧ sw ≤ w ∧ resolveWallClock w tz = Ok t ∧ a < t ∧
      ∀ w', w' ∈ l → sw ≤ w' < w → ∃ t', resolveWallClock w' tz = Ok t' ∧ t' ≤ a
  | None => ∀ w', w' ∈ l → sw ≤ w' → ∃ t', resolveWallClock w' tz = Ok t' ∧ t' ≤ a
  end.
Proof.
  intros Hs. induction Hs as [|w l Hs IH Hw]; cbn [firstFire].
  - intros [= <-] w' Hw'. by apply elem_of_nil in Hw'.
  - rewrite Forall_forall in Hw. destruct (Z.ltb_spec w sw) as [Hlt|Hge].
    + intros Hr. specialize (IH Hr). destruct r as [t|].
      * destruct IH as (w1 & Hin & H1 & H2 & H3 & H4). exists w1.
        split_and!; [by right|done|done|done|].
        intros w' [->|Hw']%elem_of_cons ?; [lia|by apply H4].
      * intros w' [->|Hw']%elem_of_cons ?; [lia|by apply IH].
    + destruct (resolveWallClock w tz) as [t0|] eqn:Et; [|done]. cbn [mbind result_bind].
      destruct (Z.ltb_spec a t0) as [Hat|Hat].
      * intros [= <-]. exists w. split_and!; [left|done|done|done|].
        intros w' [->|Hw']%elem_of_cons Hb; [lia|]. specialize (Hw w' Hw'). lia.
      * intros Hr. specialize (IH Hr). destruct r as [t|].
        -- destruct IH as (w1 & Hin & H1 & H2 & H3 & H4). exists w1.
           split_and!; [by right|done|done|done|].
           intros w' [->|Hw']%elem_of_cons ?; [by exists t0|by apply H4].
        -- intros w' [->|Hw']%elem_of_cons ?; [by exists t0|by apply IH].
Qed.

Lemma nextRoutineFire_search c tz a :
  knownZone tz = true →
  nextRoutineFire c tz (Some a) =
  (found ← firstFire (startWallOf a tz) a tz
     (allCandidates (Z.to_nat (MAX_FIRE_HORIZON_DAYS + 1)) (startWallOf a tz / DAY_MS) c);
   match found with
   | Some t => Ok t
   | None => Err (UnreachableRoutineSchedule (expression c) tz)
   end).
Proof.
  intros Hk. unfold nextRoutineFire, isRoutineTimezone. rewrite Hk. cbn [negb].
  by rewrite searchDays_flat.
Qed.

(** A fire is strictly after the instant it was asked from. *)
Lemma nextRoutineFire_after c tz a t :
  nextRoutineFire c tz (Some a) = Ok t → a < t.
Proof.
  unfold nextRoutineFire. destruct (isRoutineTimezone tz) eqn:Hk; [|done]. cbn [negb].
  rewrite searchDays_flat. intros H1.
  assert (∀ l t0, firstFire (startWallOf a tz) a tz l = Ok (Some t0) → a < t0) as Hgen.
  { induction l as [|w l IH]; intros t0; cbn [firstFire]; [done|].
    destruct (w <? _); [apply IH|]. destruct (resolveWallClock w tz) as [t1|]; [|done].
    cbn [mbind result_bind]. destruct (Z.ltb_spec a t1); [by intros [= <-]|apply IH]. }
  destruct (firstFire _ _ _ _) as [[t0|]|] eqn:E; try done. injection H1 as <-. by eapply Hgen.
Qed.
End search.

(** ** Lemmas: resolving a local time *)

(** A zone with one transition, at instant [T], from offset [o1] to [o2]; the
    clock shows whole seconds. *)
Record oneTransition `{Timezones} (tz : jstr) (T o1 o2 : Z) : Prop := {
  ot_clock t : zoneClock tz t = t / 1000 * 1000 + (if t <? T then o1 else o2);
  ot_o1 : - DAY_MS < o1 < DAY_MS;
  ot_o2 : - DAY_MS < o2 < DAY_MS;
  ot_T_minute : T mod MINUTE_MS = 0;
  ot_o1_minute : o1 mod MINUTE_MS = 0;
  ot_o2_minute : o2 mod MINUTE_MS = 0 }.

(** The first instant whose local clock has reached [wall]. *)
Definition firstInstant (T o1 o2 wall : Z) : Z :=
  if wall <? T + o1 then wall - o1 else if wall <? T + o2 then T else wall - o2.

Section walk.
Context `{Timezones}.

Lemma walkClock_reaches steps candidate wall tz t :
  (t - candidate) mod MINUTE_MS = 0 → candidate ≤ t → (t - candidate) / MINUTE_MS < Z.of_nat steps →
  wall ≤ zoneClock tz t →
  (∀ t', candidate ≤ t' < t → (t' - candidate) mod MINUTE_MS = 0 → zoneClock tz t' < wall) →
  walkClock steps candidate wall tz = Some t.
Proof.
  revert candidate. induction steps as [|steps IH]; intros c Hmod Hle Hsteps Hreach Hbelow.
  - exfalso. unfold MINUTE_MS in *. pose proof (Z.div_pos (t - c) 60000). lia.
  - cbn [walkClock]. unfold wallClockAt. destruct (decide (c = t)) as [->|Hne].
    { by rewrite (proj2 (Z.leb_le _ _)). }
    assert (c + MINUTE_MS ≤ t) as Hnext by (unfold MINUTE_MS in *; div_lia).
    rewrite (proj2 (Z.leb_gt _ _)) by (apply Hbelow; [lia|by rewrite Z.sub_diag]).
    apply IH; [unfold MINUTE_MS in *; div_lia|done|unfold MINUTE_MS in *; div_lia|done|].
    intros t' Ht' Hm. apply Hbelow; [unfold MINUTE_MS in *; lia|unfold MINUTE_MS in *; div_lia].
Qed.

Lemma resolve_one_transition tz T o1 o2 wall :
  oneTransition tz T o1 o2 → wall mod MINUTE_MS = 0 →
  resolveWallClock wall tz = Ok (firstInstant T o1 o2 wall).
Proof.
  intros [Hc Ho1 Ho2 HT Hm1 Hm2] Hw. unfold resolveWallClock, offsetAt, wallClockAt.
  rewrite !Hc.
  assert ((wall - DAY_MS) / 1000 * 1000 = wall - DAY_MS) as ->
    by (unfold DAY_MS, MINUTE_MS in *; div_lia).
  assert ((wall + DAY_MS) / 1000 * 1000 = wall + DAY_MS) as ->
    by (unfold DAY_MS, MINUTE_MS in *; div_lia).
  rewrite (walkClock_reaches _ _ _ _ (firstInstant T o1 o2 wall)); [done|..].
  all: unfold firstInstant, DAY_MS, MINUTE_MS, MAX_WALL_CLOCK_SHIFT_MINUTES in *.
  all: repeat match goal with
       | |- context [?x <? ?y] => destruct (Z.ltb_spec x y)
       | |- ∀ _, _ => intros ?
       end; try rewrite Hc.
  all: repeat match goal with |- context [?x <? ?y] => destruct (Z.ltb_spec x y) end.
  all: try div_lia.
Qed.
End walk.

Lemma parseRoutineCron_fields e c :
  parseRoutineCron e = Ok c →
  ∃ mi h dm mo dw parsed,
    cronFields e = [mi; h; dm; mo; dw] ∧ expression c = e ∧
    fieldDenotes minuteSpec mi (minutes c) ∧ fieldDenotes hourSpec h (hours c) ∧
    fieldDenotes dayOfMonthSpec dm (daysOfMonth c) ∧ fieldDenotes monthSpec mo (months c) ∧
    fieldDenotes dayOfWeekSpec dw parsed ∧
    daysOfWeek c = sortedSet (foldSunday <$> parsed) ∧
    dayOfMonthUnrestricted c = (length (daysOfMonth c) =? 31)%nat ∧
    dayOfWeekUnrestricted c = (length (daysOfWeek c) =? 7)%nat.
Proof.
  unfold parseRoutineCron, parseCronFields.
  destruct (cronFields e) as [|mi [|h [|dm [|mo [|dw [|]]]]]] eqn:Ef; try done.
  intros Hp.
  destruct (parseField minuteSpec mi) as [v1|] eqn:E1; [|done].
  destruct (parseField hourSpec h) as [v2|] eqn:E2; [|done].
  destruct (parseField dayOfMonthSpec dm) as [v3|] eqn:E3; [|done].
  destruct (parseField monthSpec mo) as [v4|] eqn:E4; [|done].
  destruct (parseField dayOfWeekSpec dw) as [v5|] eqn:E5; [|done].
  cbn [mbind result_bind result_map_err] in Hp. injection Hp as <-.
  exists mi, h, dm, mo, dw, v5. cbn [expression minutes hours daysOfMonth months daysOfWeek
    dayOfMonthUnrestricted dayOfWeekUnrestricted].
  split_and!; try done; by apply parseField_denotes.
Qed.

Lemma parseRoutineCron_wf e c : parseRoutineCron e = Ok c → cronWf c.
Proof.
  intros (mi & h & dm & mo & dw & parsed & _ & _ & (_ & H1 & H2 & _) & (_ & H3 & H4 & _) & _)
    %parseRoutineCron_fields.
  split_and!; [done| |done|]; (eapply Forall_impl; [eassumption|]); cbn; lia.
Qed.

(** ** Properties *)

(** A parsed schedule means what its five fields say: each set is ascending,
    inside its field's bounds and holds exactly the values its list elements
    stand for (with 7 read as Sunday), and a day field imposes no constraint
    exactly when it covers its whole range. *)
Theorem parseRoutineCron_denotes e c :
  parseRoutineCron e = Ok c →
  ∃ mi h dm mo dw, cronFields e = [mi; h; dm; mo; dw] ∧ expression c = e ∧
    fieldDenotes minuteSpec mi (minutes c) ∧ fieldDenotes hourSpec h (hours c) ∧
    fieldDenotes dayOfMonthSpec dm (daysOfMonth c) ∧ fieldDenotes monthSpec mo (months c) ∧
    StronglySorted Z.lt (daysOfWeek c) ∧
    (∀ v, v ∈ daysOfWeek c ↔
       ∃ element x, element ∈ split 44 dw ∧ denotes dayOfWeekSpec element x ∧ v = foldSunday x) ∧
    (dayOfMonthUnrestricted c = true ↔ ∀ v, 1 ≤ v ≤ 31 → v ∈ daysOfMonth c) ∧
    (dayOfWeekUnrestricted c = true ↔ ∀ v, 0 ≤ v ≤ 6 → v ∈ daysOfWeek c).
Proof.
  intros (mi & h & dm & mo & dw & parsed & Hf & He & H1 & H2 & H3 & H4 & H5 & Hdw & Hu1 & Hu2)
    %parseRoutineCron_fields.
  exists mi, h, dm, mo, dw.
  destruct (sortedSet_spec (foldSunday <$> parsed)) as [Hs Hv]. rewrite <- Hdw in Hs, Hv.
  split_and!; try done.
  - intros v. rewrite Hv, list_elem_of_fmap. destruct H5 as (_ & _ & _ & H5).
    setoid_rewrite H5. naive_solver.
  - destruct H3 as (_ & Hs3 & Hb3 & _). rewrite Hu1, Nat.eqb_eq.
    rewrite <- (Nat2Z.inj_iff _ 31). rewrite (full_range 1 31 (daysOfMonth c)); [|done| |done].
    + split; intros Ha v Hvr; apply Ha; lia.
    + eapply Forall_impl; [exact Hb3|]. cbn. lia.
  - rewrite Hu2, Nat.eqb_eq, <- (Nat2Z.inj_iff _ 7). destruct H5 as (_ & _ & Hb5 & _).
    rewrite (full_range 0 7 (daysOfWeek c)); [|done| |done].
    + split; intros Ha v Hvr; apply Ha; lia.
    + rewrite Hdw. by apply foldSunday_range.
Qed.

(** The search over its own candidates: the fire it returns is the instant of the
    first candidate that resolves after the caller's, every earlier one having
    resolved at or before it; and it gives up only when none within the horizon does. *)
Lemma nextRoutineFire_candidates `{Timezones} e c tz a :
  parseRoutineCron e = Ok c → knownZone tz = true →
  match nextRoutineFire c tz (Some a) with
  | Ok t =>
      a < t ∧ ∃ w, scheduled c w ∧ startWallOf a tz ≤ w ∧ resolveWallClock w tz = Ok t ∧
      ∀ w', scheduled c w' → startWallOf a tz ≤ w' < w →
        ∃ t', resolveWallClock w' tz = Ok t' ∧ t' ≤ a
  | Err (UnreachableRoutineSchedule e' tz') =>
      e' = expression c ∧ tz' = tz ∧
      ∀ w', scheduled c w' → startWallOf a tz ≤ w' →
        w' / DAY_MS ≤ startWallOf a tz / DAY_MS + MAX_FIRE_HORIZON_DAYS →
        ∃ t', resolveWallClock w' tz = Ok t' ∧ t' ≤ a
  | Err err =>
      ∃ w', scheduled c w' ∧ resolveWallClock w' tz = Err err
  end.
Proof.
  intros Hc%parseRoutineCron_wf Hk. rewrite nextRoutineFire_search by done.
  set (n := Z.to_nat (MAX_FIRE_HORIZON_DAYS + 1)).
  assert (Z.of_nat n = MAX_FIRE_HORIZON_DAYS + 1) as Hn by (unfold n; by rewrite Z2Nat.id).
  set (sw := startWallOf a tz).
  destruct (firstFire sw a tz (allCandidates n (sw / DAY_MS) c)) as [r|err] eqn:E.
  - pose proof (firstFire_spec _ _ _ _ _ (allCandidates_sorted n (sw / DAY_MS) c Hc) E) as Hr.
    destruct r as [t|]; cbn [mbind result_bind].
    + destruct Hr as (w & Hin & Hsw & Ht & Hat & Hall). split; [done|]. exists w.
      apply elem_allCandidates in Hin as [[_ Hhi] Hs]; [|done]. split_and!; try done.
      intros w' Hs' Hw'. apply Hall; [|done]. apply elem_allCandidates; [done|]. split; [|done].
      pose proof (Z.div_le_mono sw w' DAY_MS ltac:(done) ltac:(lia)).
      pose proof (Z.div_le_mono w' w DAY_MS ltac:(done) ltac:(lia)). lia.
    + split_and!; [done..|]. intros w' Hs' Hw' Hb. apply Hr; [|done]. apply elem_allCandidates; [done|].
      split; [|done]. pose proof (Z.div_le_mono sw w' DAY_MS ltac:(done) Hw'). lia.
  - cbn [mbind result_bind].
    assert (∀ l, firstFire sw a tz l = Err err → ∃ w, w ∈ l ∧ resolveWallClock w tz = Err err) as Herr.
    { induction l as [|w l IH]; cbn [firstFire]; [done|]. destruct (w <? sw).
      { intros (w0 & Hin & Hw)%IH. exists w0. by split; [right|]. }
      destruct (resolveWallClock w tz) as [t|e'] eqn:Er; cbn [mbind result_bind].
      - destruct (a <? t); [done|]. intros (w0 & Hin & Hw)%IH. exists w0. by split; [right|].
      - intros [= ->]. exists w. by split; [left|]. }
    apply Herr in E as (w & Hin & Hw). apply elem_allCandidates in Hin as [_ Hs]; [|done].
    assert (err = ClockMovedTooFar tz) as ->; [|by exists w].
    unfold resolveWallClock in Hw. destruct (walkClock _ _ _ _); [done|]. congruence.
Qed.

(** ** The fires of a schedule, from the calendar and the zone's clock alone *)

(** A day field is restricted when it leaves a value of its range out. *)
Definition restricted (lo hi : Z) (vs : list Z) : Prop := ¬ ∀ v, lo ≤ v ≤ hi → v ∈ vs.

(** The local minutes a schedule names: the calendar shows a month, hour and minute
    of its sets on a day of either day field when both are restricted, and
    of both otherwise. *)
Definition localFire (c : RoutineCron) (wall : Z) : Prop :=
  let '(_, month, day) := civilOfDay (wall / 86400000) in
  let weekday := weekdayOfDay (wall / 86400000) in
  wall mod 60000 = 0 ∧ month ∈ months c ∧
  wall / 3600000 mod 24 ∈ hours c ∧ wall / 60000 mod 60 ∈ minutes c ∧
  (restricted 1 31 (daysOfMonth c) ∧ restricted 0 6 (daysOfWeek c) ∧
     (day ∈ daysOfMonth c ∨ weekday ∈ daysOfWeek c) ∨
   ¬ (restricted 1 31 (daysOfMonth c) ∧ restricted 0 6 (daysOfWeek c)) ∧
     day ∈ daysOfMonth c ∧ weekday ∈ daysOfWeek c).

(** A local minute happens at the first whole minute whose clock has reached it. *)
Definition happensAt `{Timezones} (tz : jstr) (wall t : Z) : Prop :=
  t mod 60000 = 0 ∧ wall ≤ zoneClock tz t ∧
  ∀ t', t' mod 60000 = 0 → t' < t → zoneClock tz t' < wall.

(** The instants a schedule fires at in a zone. *)
Definition firesAt `{Timezones} (c : RoutineCron) (tz : jstr) (t : Z) : Prop :=
  ∃ wall, localFire c wall ∧ happensAt tz wall t.

Lemma not_restricted lo hi n vs :
  StronglySorted Z.lt vs → Forall (λ v, lo ≤ v ≤ hi) vs → hi + 1 - lo = Z.of_nat n →
  (length vs =? n)%nat = true ↔ ∀ v, lo ≤ v ≤ hi → v ∈ vs.
Proof.
  intros Hs Hf Hn. rewrite Nat.eqb_eq, <- Nat2Z.inj_iff, <- Hn.
  rewrite (full_range lo (hi + 1 - lo) vs); [|done| |lia].
  - split; intros Ha v Hv; apply Ha; lia.
  - eapply Forall_impl; [exact Hf|]. cbn. lia.
Qed.

Lemma parsed_days e c :
  parseRoutineCron e = Ok c →
  (dayOfMonthUnrestricted c = true ↔ ∀ v, 1 ≤ v ≤ 31 → v ∈ daysOfMonth c) ∧
  (dayOfWeekUnrestricted c = true ↔ ∀ v, 0 ≤ v ≤ 6 → v ∈ daysOfWeek c).
Proof.
  intros (mi & h & dm & mo & dw & parsed & _ & _ & _ & _ & (_ & Hs & Hb & _) & _ & (_ & _ & Hb' & _) & Hdw & -> & ->)
    %parseRoutineCron_fields.
  split; (apply not_restricted; [| |done]); [done|done|by rewrite Hdw; apply sortedSet_spec|].
  eapply Forall_impl; [rewrite Hdw; by apply foldSunday_range|]. cbn. lia.
Qed.

Lemma weekdayOfDay_range d : 0 ≤ weekdayOfDay d ≤ 6.
Proof. unfold weekdayOfDay. pose proof (Z.mod_pos_bound (d + 4) 7 ltac:(lia)). lia. Qed.

(** The code's day rule is the one above. *)
Lemma dayMatches_rule e c n day :
  parseRoutineCron e = Ok c → 1 ≤ day ≤ 31 →
  dayMatches c n day = true ↔
  (restricted 1 31 (daysOfMonth c) ∧ restricted 0 6 (daysOfWeek c) ∧
     (day ∈ daysOfMonth c ∨ weekdayOfDay n ∈ daysOfWeek c) ∨
   ¬ (restricted 1 31 (daysOfMonth c) ∧ restricted 0 6 (daysOfWeek c)) ∧
     day ∈ daysOfMonth c ∧ weekdayOfDay n ∈ daysOfWeek c).
Proof.
  intros [Hm Hw]%parsed_days Hd. pose proof (weekdayOfDay_range n) as Hn. unfold restricted.
  rewrite <- Hm, <- Hw. unfold dayMatches.
  destruct (dayOfMonthUnrestricted c) eqn:Em, (dayOfWeekUnrestricted c) eqn:Ew; cbn [andb].
  - pose proof (proj1 Hm eq_refl day Hd). pose proof (proj1 Hw eq_refl _ Hn). naive_solver.
  - rewrite contains_true. pose proof (proj1 Hm eq_refl day Hd). naive_solver.
  - rewrite contains_true. pose proof (proj1 Hw eq_refl _ Hn). naive_solver.
  - rewrite orb_true_iff, !contains_true. naive_solver.
Qed.

Lemma localFire_scheduled e c w : parseRoutineCron e = Ok c → localFire c w ↔ scheduled c w.
Proof.
  intros Hc. unfold localFire, scheduled, DAY_MS, HOUR_MS, MINUTE_MS.
  pose proof (civilOfDay_roundtrip (w / 86400000)) as Hr.
  destruct (civilOfDay (w / 86400000)) as [[y m] d]. destruct Hr as (_ & _ & Hd).
  rewrite (dayMatches_rule e c _ d Hc Hd).
  replace (w mod 86400000 / 3600000) with (w / 3600000 mod 24) by div_lia.
  replace (w mod 3600000 / 60000) with (w / 60000 mod 60) by div_lia. tauto.
Qed.

Section next_fire.
Context `{Timezones} (tz : jstr) (T o1 o2 : Z) (Hzone : oneTransition tz T o1 o2).

Lemma happensAt_first w t : w mod MINUTE_MS = 0 → happensAt tz w t ↔ t = firstInstant T o1 o2 w.
Proof using Hzone.
  destruct Hzone as [Hc _ _ HT Hm1 Hm2]. intros Hw.
  assert (happensAt tz w (firstInstant T o1 o2 w)) as (H1 & H2 & H3).
  { unfold happensAt, firstInstant, MINUTE_MS in *.
    destruct (Z.ltb_spec w (T + o1)); [|destruct (Z.ltb_spec w (T + o2))].
    all: split_and!; intros; rewrite ?Hc;
      repeat match goal with |- context [?x <? ?y] => destruct (Z.ltb_spec x y) end; div_lia. }
  split; [|by intros ->]. intros (H1' & H2' & H3').
  destruct (Z.lt_trichotomy t (firstInstant T o1 o2 w)) as [Hlt|[->|Hgt]]; [|done|].
  - specialize (H3 t H1' Hlt). lia.
  - specialize (H3' _ H1 Hgt). lia.
Qed.

Lemma firstInstant_mono w w' : w ≤ w' → firstInstant T o1 o2 w ≤ firstInstant T o1 o2 w'.
Proof.
  unfold firstInstant. intros Hw.
  repeat match goal with |- context [?x <? ?y] => destruct (Z.ltb_spec x y) end; lia.
Qed.

(** A local minute the clock shows no more happened already. *)
Lemma before_start a w : w mod MINUTE_MS = 0 → w < startWallOf a tz → firstInstant T o1 o2 w ≤ a.
Proof using Hzone.
  destruct Hzone as [Hc _ _ HT Hm1 Hm2]. unfold startWallOf, wallClockAt, firstInstant, MINUTE_MS in *.
  rewrite Hc. intros Hw. repeat match goal with |- context [?x <? ?y] => destruct (Z.ltb_spec x y) end; div_lia.
Qed.

Lemma scheduled_minute c w : scheduled c w → w mod MINUTE_MS = 0.
Proof. unfold scheduled. destruct (civilOfDay _) as [[y m] d]. tauto. Qed.
End next_fire.

(** C28. The next fire is the first one. In any zone that keeps its offset or moves
    it once, by whole minutes, the instant [nextRoutineFire] answers is a fire of
    the schedule strictly after the caller's and the least such: a fire is
    the first whole minute at which the zone's clock has reached a local minute
    whose calendar month, hour, minute and day the schedule names, a day by
    either day field when both are restricted and by both otherwise.  It gives up
    only as unreachable, and only when no local minute of the schedule on a day
    within the eight-year horizon happens after the caller's instant. *)
Theorem nextRoutineFire_first `{Timezones} e c tz T o1 o2 a :
  parseRoutineCron e = Ok c → knownZone tz = true → oneTransition tz T o1 o2 →
  match nextRoutineFire c tz (Some a) with
  | Ok t => firesAt c tz t ∧ a < t ∧ ∀ t', firesAt c tz t' → a < t' → t ≤ t'
  | Err err =>
      err = UnreachableRoutineSchedule (expression c) tz ∧
      ∀ wall t', localFire c wall → happensAt tz wall t' → a < t' →
        zoneClock tz a / 86400000 + 366 * 8 < wall / 86400000
  end.
Proof.
  intros Hc Hk Hz. pose proof (nextRoutineFire_candidates e c tz a Hc Hk) as Hn.
  assert (Hres : ∀ w, scheduled c w → resolveWallClock w tz = Ok (firstInstant T o1 o2 w))
    by (intros w Hw%scheduled_minute; by apply resolve_one_transition).
  assert (Hat : ∀ w t, localFire c w → happensAt tz w t → scheduled c w ∧ t = firstInstant T o1 o2 w).
  { intros w t Hw%(localFire_scheduled e c w Hc) Ht. split; [done|].
    by apply (happensAt_first tz T o1 o2 Hz); [eapply scheduled_minute|]. }
  assert (Hstart : ∀ w, scheduled c w → a < firstInstant T o1 o2 w → startWallOf a tz ≤ w).
  { intros w Hw%scheduled_minute Ha. destruct (decide (w < startWallOf a tz)) as [Hlt|]; [|lia].
    pose proof (before_start tz T o1 o2 Hz a w Hw Hlt). lia. }
  destruct (nextRoutineFire c tz (Some a)) as [t|err].
  - destruct Hn as (Hat' & w & Hs & Hsw & Hr & Hall). rewrite (Hres w Hs) in Hr. injection Hr as <-.
    split_and!; [|done|].
    + exists w. split; [by apply (localFire_scheduled e)|].
      apply (happensAt_first tz T o1 o2 Hz); [by eapply scheduled_minute|done].
    + intros t' (w' & Hw' & Ht') Ha. destruct (Hat _ _ Hw' Ht') as [Hs' ->].
      pose proof (Hstart w' Hs' Ha) as Hsw'. destruct (decide (w' < w)) as [Hlt|]; [|apply firstInstant_mono; lia].
      destruct (Hall w' Hs' ltac:(lia)) as (t1 & Ht1 & Hle). rewrite (Hres w' Hs') in Ht1. injection Ht1 as <-. lia.
  - destruct err as [| |e' tz'| |];
      try (destruct Hn as (w' & Hs' & Hr'); rewrite (Hres w' Hs') in Hr'; discriminate).
    destruct Hn as (-> & -> & Hnone). split; [done|]. intros w t' Hw Ht' Ha. destruct (Hat _ _ Hw Ht') as [Hs ->].
    pose proof (Hstart w Hs Ha) as Hsw.
    assert (zoneClock tz a / 86400000 ≤ startWallOf a tz / 86400000) as Hd
      by (apply Z.div_le_mono; [lia|]; unfold startWallOf, wallClockAt, MINUTE_MS; div_lia).
    destruct (decide (w / DAY_MS ≤ startWallOf a tz / DAY_MS + MAX_FIRE_HORIZON_DAYS)) as [Hb|Hb].
    + destruct (Hnone w Hs Hsw Hb) as (t1 & Ht1 & Hle). rewrite (Hres w Hs) in Ht1. injection Ht1 as <-. lia.
    + unfold DAY_MS, MAX_FIRE_HORIZON_DAYS in *. lia.
Qed.

(** Daylight saving, exactly: around a transition every local time resolves to the
    first instant at which the zone's clock has reached it.  A time that exists
    once is that instant, a time the clock skips is the transition itself, and a
    time that happens twice is its first occurrence. *)
Theorem resolveWallClock_dst `{Timezones} tz T o1 o2 wall :
  oneTransition tz T o1 o2 → wall mod MINUTE_MS = 0 →
  ∃ t, resolveWallClock wall tz = Ok t ∧ t mod MINUTE_MS = 0 ∧ wall ≤ zoneClock tz t ∧
    (∀ t', t' < t → t' mod MINUTE_MS = 0 → zoneClock tz t' < wall) ∧
    (T + o1 ≤ wall < T + o2 → t = T) ∧
    (T + o2 ≤ wall < T + o1 → t = wall - o1 ∧ zoneClock tz (wall - o2) = wall ∧ t < wall - o2) ∧
    (wall < T + o1 ∨ T + o2 ≤ wall → zoneClock tz t = wall).
Proof.
  intros Hot Hw. exists (firstInstant T o1 o2 wall).
  split; [by apply resolve_one_transition|]. destruct Hot as [Hc _ _ HT Hm1 Hm2].
  unfold firstInstant, MINUTE_MS in *.
  destruct (Z.ltb_spec wall (T + o1)); [|destruct (Z.ltb_spec wall (T + o2))].
  all: split_and!; try (intros; split_and!); intros; rewrite ?Hc;
    repeat match goal with |- context [?x <? ?y] => destruct (Z.ltb_spec x y) end; div_lia.
Qed.

(** A due slot moves the schedule forward and never twice: a slot still ahead
    waits; one late by at most the grace fires and the schedule advances past
    that slot; an older one is recorded missed and the schedule jumps past the
    present, so a downtime is never replayed. *)
Theorem decideRoutineDue_advances `{Timezones} c tz slot now :
  match decideRoutineDue c tz slot now with
  | Ok (Wait n) => n = slot ∧ now < slot
  | Ok (Fire s n late) =>
      s = slot ∧ late = now - slot ∧ 0 ≤ late ≤ ROUTINE_MISS_GRACE_MS ∧ slot < n ∧
      nextRoutineFire c tz (Some slot) = Ok n
  | Ok (Miss s n late) =>
      s = slot ∧ late = now - slot ∧ ROUTINE_MISS_GRACE_MS < late ∧ now < n ∧
      nextRoutineFire c tz (Some now) = Ok n
  | Err err =>
      slot ≤ now ∧
      nextRoutineFire c tz (Some (if now - slot <=? ROUTINE_MISS_GRACE_MS then slot else now)) =
        Err err
  end.
Proof.
  unfold decideRoutineDue. destruct (Z.ltb_spec (now - slot) 0) as [Hlt|Hge]; [split; [done|lia]|].
  destruct (Z.leb_spec (now - slot) ROUTINE_MISS_GRACE_MS) as [Hle|Hgt].
  - destruct (nextRoutineFire c tz (Some slot)) as [n|] eqn:E; cbn [mbind result_bind];
      [|split; [lia|done]].
    apply nextRoutineFire_after in E as Ha. split_and!; (done || lia).
  - destruct (nextRoutineFire c tz (Some now)) as [n|] eqn:E; cbn [mbind result_bind];
      [|split; [lia|done]].
    apply nextRoutineFire_after in E as Ha. split_and!; (done || lia).
Qed.

(** ** Witnesses *)

(** New York in the spring of 2026: from UTC-5 to UTC-4 on March 8th, 07:00 UTC. *)
Definition springT : Z := dateUTC 2026 3 8 7 0.

Definition newYork : Timezones :=
  {| knownZone := λ _, true;
     zoneClock := λ _ t, t / 1000 * 1000 + (if t <? springT then -5 * HOUR_MS else -4 * HOUR_MS) |}.

Lemma newYork_transition tz : @oneTransition newYork tz springT (-5 * HOUR_MS) (-4 * HOUR_MS).
Proof. split; try done. Qed.

Lemma parseRoutineCron_denotes_witness :
  ∃ c, parseRoutineCron (u "*/20 9-17 * JAN,mar mon-fri") = Ok c ∧
    minutes c = [0; 20; 40] ∧ months c = [1; 3] ∧ daysOfWeek c = [1; 2; 3; 4; 5] ∧
    (dayOfWeekUnrestricted c = true ↔ ∀ v, 0 ≤ v ≤ 6 → v ∈ daysOfWeek c).
Proof.
  eexists. split; [vm_compute; reflexivity|]. split; [reflexivity|]. split; [reflexivity|].
  split; [reflexivity|].
  edestruct (parseRoutineCron_denotes (u "*/20 9-17 * JAN,mar mon-fri")) as
    (mi & h & dm & mo & dw & _ & _ & _ & _ & _ & _ & _ & _ & _ & H);
    [vm_compute; reflexivity|exact H].
Defined.

(** 02:30 does not exist on that day: the routine fires at the transition.  In a zone
    that keeps its offset, "the 13th or a Friday" is next a Friday. *)
Definition kolkata : Timezones :=
  {| knownZone := λ _, true; zoneClock := λ _ t, t / 1000 * 1000 + 330 * MINUTE_MS |}.

Lemma kolkata_offset tz : @oneTransition kolkata tz 0 (330 * MINUTE_MS) (330 * MINUTE_MS).
Proof. split; try done. intros t. cbn. by destruct (t <? 0). Qed.

Lemma nextRoutineFire_first_witness :
  (∃ c, parseRoutineCron (u "30 2 * * *") = Ok c ∧
    @nextRoutineFire newYork c (u "America/New_York") (Some (springT - 60 * MINUTE_MS)) = Ok springT ∧
    @firesAt newYork c (u "America/New_York") springT) ∧
  ∃ c, parseRoutineCron (u "0 9 13 * fri") = Ok c ∧
    @nextRoutineFire kolkata c (u "Asia/Kolkata") (Some (dateUTC 2026 3 4 0 0)) = Ok (dateUTC 2026 3 6 3 30) ∧
    @firesAt kolkata c (u "Asia/Kolkata") (dateUTC 2026 3 6 3 30).
Proof.
  split; (eexists; split; [vm_compute; reflexivity|]);
    match goal with |- ?P ∧ _ => assert P as Hn by (vm_compute; reflexivity) end;
    (split; [exact Hn|]).
  - pose proof (@nextRoutineFire_first newYork (u "30 2 * * *") _ (u "America/New_York") _ _ _
      (springT - 60 * MINUTE_MS) ltac:(vm_compute; reflexivity) eq_refl (newYork_transition _)) as H.
    rewrite Hn in H. exact (proj1 H).
  - pose proof (@nextRoutineFire_first kolkata (u "0 9 13 * fri") _ (u "Asia/Kolkata") _ _ _
      (dateUTC 2026 3 4 0 0) ltac:(vm_compute; reflexivity) eq_refl (kolkata_offset _)) as H.
    rewrite Hn in H. exact (proj1 H).
Defined.

Lemma resolveWallClock_dst_witness :
  ∃ t, @resolveWallClock newYork (dateUTC 2026 3 8 2 30) (u "America/New_York") = Ok t ∧ t = springT.
Proof.
  destruct (@resolveWallClock_dst newYork (u "America/New_York") springT (-5 * HOUR_MS)
    (-4 * HOUR_MS) (dateUTC 2026 3 8 2 30) (newYork_transition _) eq_refl)
    as (t & Ht & _ & _ & _ & Hgap & _).
  exists t. split; [exact Ht|]. apply Hgap. split; [|reflexivity]. vm_compute. discriminate.
Defined.
