(* ===== verification/EgressPolicy.v ===== *)
(** The run's egress allowlist, packages/core/src/egress-policy.ts: parsing the
    operator's entries, matching a host and deciding one destination. *)

From stdpp Require Import pretty.
From S2P Require Import Prelude JsText Url.

Inductive EgressHostRule := HostRule (host : jstr) | SubdomainsRule (domain : jstr).

#[export] Instance EgressHostRule_eq_dec : EqDecision EgressHostRule.
Proof. solve_decision. Defined.

Record EgressAllowlist := { rules : list EgressHostRule }.

Definition EMPTY_EGRESS_ALLOWLIST : EgressAllowlist := {| rules := [] |}.

Inductive EgressDecision :=
| Allowed (host : jstr)
| NeedsApproval (host url : jstr)
| RefusedInvalidUrl.

Inductive EgressHostRejection :=
| rej_blank | rej_scheme | rej_credentials | rej_port | rej_path | rej_wildcard | rej_malformed
| rej_duplicate.

Definition rejectionDetail (reason : EgressHostRejection) : jstr :=
  match reason with
  | rej_blank => u "a blank entry names no host"
  | rej_scheme => u "write the host alone; the scheme is decided by the URL-safety rules"
  | rej_credentials => u "remove the credentials; the allowlist names hosts, not logins"
  | rej_port => u "write the host without a port; the allowlist names hosts"
  | rej_path => u "write the host without a path, query or fragment"
  | rej_wildcard => u "a wildcard may only open a hostname (for example *.example.com)"
  | rej_malformed => u "expected a hostname or IPv4 literal, for example example.com"
  | rej_duplicate => u "the entry is already in the list"
  end.

Record InvalidEgressHost := { badEntry : jstr; badReason : EgressHostRejection }.

(** ** Hosts *)

Definition isLabelChar (c : N) : bool := isLowerAscii c || isDigit c.

(** [HOSTNAME_LABEL]: one to 63 of [a-z0-9-], with no hyphen at either end. *)
Definition isHostnameLabel (label : jstr) : bool :=
  match label, last label with
  | first :: _, Some final =>
      isLabelChar first && isLabelChar final && (length label <=? 63)%nat
      && forallb (λ c, isLabelChar c || (c =? 45)%N) label
  | _, _ => false
  end.

Definition isOctet (part : jstr) : bool :=
  isDigits part && (length part <=? 3)%nat && (numberOf part <=? 255)%Z
  && bool_decide (u (pretty (numberOf part)) = part).

Definition isIpv4 (host : jstr) : bool :=
  let parts := split 46 host in (length parts =? 4)%nat && forallb isOctet parts.

Definition isHostname (host : jstr) : bool :=
  negb ((length host =? 0)%nat || (253 <? length host)%nat) && forallb isHostnameLabel (split 46 host).

(** [host.replace(/\.$/, EMPTY)]. *)
Definition dropTrailingDot (host : jstr) : jstr :=
  match last host with
  | Some c => if (c =? 46)%N then removelast host else host
  | None => host
  end.

Definition wildcardPrefix : jstr := u "*.".

Definition isWildcard (trimmed : jstr) : bool := startsWith wildcardPrefix trimmed.

Definition normalizeHostEntry (entry : jstr) : result EgressHostRejection jstr :=
  let trimmed := trim entry in
  if (length trimmed =? 0)%nat then Err rej_blank
  else if includes (u "://") trimmed then Err rej_scheme
  else if includes (u "@") trimmed then Err rej_credentials
  else
    let wildcard := isWildcard trimmed in
    let rawHost := if wildcard then drop 2 trimmed else trimmed in
    if wildcard && (length rawHost =? 0)%nat then Err rej_wildcard
    else if includes (u "*") rawHost then Err rej_wildcard
    else if includes (u ":") rawHost then Err rej_port
    else if existsb (λ c, bool_decide (c ∈ u "/?#")) rawHost then Err rej_path
    else
      let host := dropTrailingDot (toLowerCase rawHost) in
      if (0 <? length host)%nat && forallb (λ c, isDigit c || (c =? 46)%N) host then
        if negb (isIpv4 host) then Err rej_malformed
        else if wildcard then Err rej_wildcard
        else Ok host
      else if negb (isHostname host) then Err rej_malformed
      else Ok host.

(** The rule an entry becomes; [seen] holds the rules before it. *)
Fixpoint parseEntries (seen : list EgressHostRule) (entries : list jstr) :
    result InvalidEgressHost (list EgressHostRule) :=
  match entries with
  | [] => Ok []
  | entry :: entries' =>
      match normalizeHostEntry entry with
      | Err reason => Err {| badEntry := entry; badReason := reason |}
      | Ok host =>
          let rule := if isWildcard (trim entry) then SubdomainsRule host else HostRule host in
          if bool_decide (rule ∈ seen)
          then Err {| badEntry := entry; badReason := rej_duplicate |}
          else rs ← parseEntries (rule :: seen) entries'; Ok (rule :: rs)
      end
  end.

Definition parseEgressAllowlist (entries : list jstr) : result InvalidEgressHost EgressAllowlist :=
  rs ← parseEntries [] entries; Ok {| rules := rs |}.

Definition normalizeHost (host : jstr) : jstr := dropTrailingDot (toLowerCase (trim host)).

Definition ruleMatches (rule : EgressHostRule) (host : jstr) : bool :=
  match rule with
  | HostRule h => bool_decide (host = h)
  | SubdomainsRule domain => endsWith ([46%N] ++ domain) host
  end.

Definition isHostAllowed (allowlist : EgressAllowlist) (host : jstr) : bool :=
  let normalized := normalizeHost host in
  if (length normalized =? 0)%nat then false
  else existsb (λ rule, ruleMatches rule normalized) (rules allowlist).

Section platform.
Context `{UrlPlatform}.

Definition parseUrl (url : jstr) : option URL := if isBlank url then None else parseURL url.

Definition decideEgress (allowlist : EgressAllowlist) (url : jstr) : EgressDecision :=
  match parseUrl url with
  | None => RefusedInvalidUrl
  | Some parsed =>
      let host := normalizeHost (hostname parsed) in
      if (length host =? 0)%nat then RefusedInvalidUrl
      else if isHostAllowed allowlist host then Allowed host
      else NeedsApproval host url
  end.
End platform.

(** ** What an entry opens *)

(** The operator's entry, read on its own: a bare name opens that host, and
    [*.domain] opens the hosts strictly below the domain. *)
Definition entryOpens (entry host : jstr) : Prop :=
  if isWildcard (trim entry) then
    ∃ sub, host = sub ++ [46%N] ++ dropTrailingDot (toLowerCase (drop 2 (trim entry)))
  else host = dropTrailingDot (toLowerCase (trim entry)).

(** ** Lemmas *)

Lemma normalizeHostEntry_host entry host :
  normalizeHostEntry entry = Ok host →
  host = dropTrailingDot (toLowerCase (if isWildcard (trim entry) then drop 2 (trim entry)
                                       else trim entry)) ∧
  (if isWildcard (trim entry) then isHostname host = true ∧ isIpv4 host = false
   else isHostname host = true ∨ isIpv4 host = true).
Proof.
  unfold normalizeHostEntry. intros H.
  destruct (length (trim entry) =? 0)%nat; [done|].
  destruct (includes (u "://") _); [done|]. destruct (includes (u "@") _); [done|].
  destruct (isWildcard (trim entry) && _); [done|].
  destruct (includes (u "*") _); [done|]. destruct (includes (u ":") _); [done|].
  destruct (existsb _ _); [done|].
  destruct ((0 <? _)%nat && _) eqn:Hd.
  - destruct (isIpv4 _) eqn:Hip; [|done]. cbn [negb] in H.
    destruct (isWildcard (trim entry)); [done|]. injection H as <-. auto.
  - destruct (isHostname _) eqn:Hh; [|done]. injection H as <-. split; [done|].
    destruct (isWildcard (trim entry)); [|by left]. split; [done|].
    apply not_true_iff_false. intros Hip. apply not_true_iff_false in Hd. apply Hd.
    apply andb_true_iff. revert Hip. clear. intros Hip.
    set (host := dropTrailingDot _) in *. clearbody host. unfold isIpv4 in Hip.
    apply andb_true_iff in Hip as [Hlen Hoct]. split.
    + destruct host; [by vm_compute in Hlen|done].
    + apply forallb_forall. intros c Hc.
      destruct (split_elem 46 host c ltac:(by apply list_elem_of_In)) as [->|(w & Hw & Hcw)];
        [reflexivity|].
      rewrite forallb_forall in Hoct. apply list_elem_of_In, Hoct in Hw.
      unfold isOctet, isDigits in Hw. bools. rewrite forallb_forall in *.
      match goal with Hdig : ∀ x, In x w → _ |- _ => rewrite (Hdig c) end;
        [done|by apply list_elem_of_In].
Qed.

Lemma parseEntries_opens seen entries rs host :
  parseEntries seen entries = Ok rs →
  (∃ rule, rule ∈ rs ∧ ruleMatches rule host = true) ↔ (∃ entry, entry ∈ entries ∧ entryOpens entry host).
Proof.
  revert seen rs. induction entries as [|entry entries IH]; intros seen rs; cbn [parseEntries].
  - intros [= <-]. set_solver.
  - destruct (normalizeHostEntry entry) as [h|] eqn:En; [|done].
    set (rule := if isWildcard (trim entry) then SubdomainsRule h else HostRule h).
    destruct (bool_decide (rule ∈ seen)); [done|].
    destruct (parseEntries (rule :: seen) entries) as [rs'|] eqn:E; [|done]. intros [= <-].
    specialize (IH _ _ E). apply normalizeHostEntry_host in En as [Hh _].
    assert (ruleMatches rule host = true ↔ entryOpens entry host) as Hr.
    { unfold rule, entryOpens. destruct (isWildcard (trim entry)); subst h; cbn [ruleMatches].
      - rewrite endsWith_spec. done.
      - by rewrite bool_decide_eq_true. }
    setoid_rewrite elem_of_cons. naive_solver.
Qed.

Lemma parseEntries_NoDup seen entries rs :
  parseEntries seen entries = Ok rs → NoDup rs ∧ (∀ r, r ∈ rs → r ∉ seen) ∧
  length rs = length entries.
Proof.
  revert seen rs. induction entries as [|entry entries IH]; intros seen rs; cbn [parseEntries].
  - intros [= <-]. split_and!; [constructor|set_solver|done].
  - destruct (normalizeHostEntry entry) as [h|]; [|done].
    set (rule := if isWildcard (trim entry) then SubdomainsRule h else HostRule h).
    destruct (bool_decide (rule ∈ seen)) eqn:Hs; [done|]. bools.
    destruct (parseEntries (rule :: seen) entries) as [rs'|] eqn:E; [|done]. intros [= <-].
    destruct (IH _ _ E) as (Hnd & Hn & Hlen). split_and!; [|set_solver|simpl; lia].
    constructor; [|done]. intros Hin. apply (Hn rule Hin). left.
Qed.

Lemma normalizeHostEntry_nonempty entry : normalizeHostEntry entry ≠ Ok [].
Proof.
  intros [_ H]%normalizeHostEntry_host. destruct (isWildcard (trim entry)); [by destruct H|].
  by destruct H.
Qed.

(** Nothing opens the empty host, so the early return for it changes nothing. *)
Lemma parseEntries_not_empty seen entries rs r :
  parseEntries seen entries = Ok rs → r ∈ rs → ruleMatches r [] = false.
Proof.
  revert seen rs. induction entries as [|entry entries IH]; intros seen rs; cbn [parseEntries].
  - intros [= <-] Hr. by apply elem_of_nil in Hr.
  - destruct (normalizeHostEntry entry) as [h|] eqn:En; [|done].
    set (rule := if isWildcard (trim entry) then SubdomainsRule h else HostRule h).
    destruct (bool_decide (rule ∈ seen)); [done|].
    destruct (parseEntries (rule :: seen) entries) as [rs'|] eqn:E; [|done]. intros [= <-].
    intros [->|Hr]%elem_of_cons; [|by eapply IH].
    unfold rule. destruct (isWildcard (trim entry)); cbn [ruleMatches].
    + apply not_true_iff_false. intros [t Ht]%endsWith_spec. by destruct t.
    + apply bool_decide_false. intros <-. by apply normalizeHostEntry_nonempty in En.
Qed.

Lemma isHostAllowed_iff entries rs host :
  parseEntries [] entries = Ok rs →
  isHostAllowed {| rules := rs |} host = true ↔
  ∃ entry, entry ∈ entries ∧ entryOpens entry (normalizeHost host).
Proof.
  intros E. rewrite <- (parseEntries_opens _ _ _ _ E). unfold isHostAllowed. cbn [rules].
  destruct (Nat.eqb_spec (length (normalizeHost host)) 0) as [H0|Hne].
  - apply length_zero_iff_nil in H0 as ->. split; [done|]. intros (r & Hr & Hm).
    by rewrite (parseEntries_not_empty _ _ _ _ E Hr) in Hm.
  - apply existsb_true.
Qed.

(** ** Properties *)

(** An allowlist opens what its operator wrote and nothing else: a destination is
    allowed exactly when some entry opens its normalised host — a name by
    equality, a wildcard strictly below its domain, so never the apex and never a
    host that merely ends in the same letters — every other attributable host asks
    for approval, and a destination without a host is refused. *)
Theorem decideEgress_exact `{UrlPlatform} entries allowlist url :
  parseEgressAllowlist entries = Ok allowlist →
  length (rules allowlist) = length entries ∧ NoDup (rules allowlist) ∧
  match decideEgress allowlist url with
  | Allowed host =>
      (∃ x, parseURL url = Some x ∧ host = normalizeHost (hostname x) ∧ host ≠ []) ∧
      ∃ entry, entry ∈ entries ∧ entryOpens entry (normalizeHost host)
  | NeedsApproval host url' =>
      url' = url ∧ (∃ x, parseURL url = Some x ∧ host = normalizeHost (hostname x) ∧ host ≠ []) ∧
      ∀ entry, entry ∈ entries → ¬ entryOpens entry (normalizeHost host)
  | RefusedInvalidUrl =>
      isBlank url = true ∨ parseURL url = None ∨
      ∃ x, parseURL url = Some x ∧ normalizeHost (hostname x) = []
  end.
Proof.
  unfold parseEgressAllowlist. destruct (parseEntries [] entries) as [rs|] eqn:E; [|done].
  intros [= <-]. destruct (parseEntries_NoDup _ _ _ E) as (Hnd & _ & Hlen).
  split; [done|]. split; [done|]. unfold decideEgress, parseUrl.
  destruct (isBlank url); [by left|]. destruct (parseURL url) as [x|]; [|right; by left].
  remember (normalizeHost (hostname x)) as host eqn:Hhost.
  destruct (Nat.eqb_spec (length host) 0) as [H0|Hne].
  { right; right. exists x. split; [done|]. rewrite <- Hhost. by apply length_zero_iff_nil. }
  assert (host ≠ []) as Hnil by (by intros ->).
  pose proof (isHostAllowed_iff _ _ host E) as Hiff.
  destruct (isHostAllowed _ host).
  - split; [by exists x|]. by apply Hiff.
  - split; [done|]. split; [by exists x|]. intros entry Hin Ho.
    assert (false = true) as ?; [|done]. apply Hiff. eauto.
Qed.

(** ** Witnesses *)

Definition sampleEntries : list jstr := [u "api.example.com"; u " *.Example.org. "].

Definition sampleAllowlist : EgressAllowlist :=
  {| rules := [HostRule (u "api.example.com"); SubdomainsRule (u "example.org")] |}.

Lemma decideEgress_exact_witness :
  parseEgressAllowlist sampleEntries = Ok sampleAllowlist ∧
  decideEgress sampleAllowlist (u "https://a.example.org/") = Allowed (u "a.example.org") ∧
  decideEgress sampleAllowlist (u "https://example.org/") =
    NeedsApproval (u "example.org") (u "https://example.org/") ∧
  ∃ entry, entry ∈ sampleEntries ∧ entryOpens entry (u "a.example.org").
Proof.
  assert (parseEgressAllowlist sampleEntries = Ok sampleAllowlist) as Hp by (vm_compute; reflexivity).
  assert (decideEgress sampleAllowlist (u "https://a.example.org/") = Allowed (u "a.example.org"))
    as Hd by (vm_compute; reflexivity).
  split; [exact Hp|]. split; [exact Hd|]. split; [vm_compute; reflexivity|].
  destruct (decideEgress_exact sampleEntries sampleAllowlist (u "https://a.example.org/") Hp)
    as (_ & _ & H). rewrite Hd in H. exact (proj2 H).
Defined.
