(* ===== verification/DangerousActions.v ===== *)
(** The register of dangerous actions, packages/core/src/dangerous-actions.ts:
    the classes, the connector names that declare them, the credential-store
    paths, the rules and the classification of one call. *)

From S2P Require Import Prelude JsText JsValue Url Files EgressPolicy.

Inductive DangerousActionClass :=
| credential_access | credential_request | write_outside_home | egress_unlisted | send | delete.

#[export] Instance DangerousActionClass_eq_dec : EqDecision DangerousActionClass.
Proof. solve_decision. Defined.

Definition DANGEROUS_ACTION_CLASSES : list DangerousActionClass :=
  [credential_access; credential_request; write_outside_home; egress_unlisted; send; delete].

Definition classText (c : DangerousActionClass) : jstr :=
  match c with
  | credential_access => u "credential_access"
  | credential_request => u "credential_request"
  | write_outside_home => u "write_outside_home"
  | egress_unlisted => u "egress_unlisted"
  | send => u "send"
  | delete => u "delete"
  end.

Definition isDangerousActionClass (value : jsval) : bool :=
  isOneOf (classText <$> DANGEROUS_ACTION_CLASSES) value.

Definition CREDENTIAL_STORE_DIRECTORIES : list jstr :=
  [u ".ssh"; u ".aws"; u ".gnupg"; u ".kube"; u ".docker"; u ".password-store"; u ".secrets";
   u "gcloud"].

Definition CREDENTIAL_STORE_FILES : list jstr :=
  [u ".netrc"; u ".npmrc"; u ".pypirc"; u ".git-credentials"; u ".pgpass"; u ".env";
   u "credentials"; u "id_rsa"; u "id_ed25519"; u "id_ecdsa"; u "id_dsa"].

Definition CONNECTOR_SEND_VERBS : list jstr :=
  [u "send"; u "post"; u "publish"; u "reply"; u "forward"; u "share"; u "upload"; u "submit"].

Definition CONNECTOR_DELETE_VERBS : list jstr :=
  [u "delete"; u "remove"; u "destroy"; u "drop"; u "purge"; u "revoke"; u "unlink"; u "archive";
   u "trash"; u "forget"].

Record DangerousAction := { action_class : DangerousActionClass; summary : jstr }.

(** [request_declared] is [None] for an absent [declared]. *)
Record DangerousActionRequest := {
  tool : jstr;
  arguments : jsval;
  home : jstr;
  allowlist : EgressAllowlist;
  declared : option (list DangerousActionClass) }.

Inductive DangerousActionClassification :=
| Safe
| RefusedCall
| Dangerous (action : DangerousAction).

(** ** Connector names *)

Definition nonEmpty (token : jstr) : bool := negb (bool_decide (token = [])).

(** Splitting at every separator instead of at every run of them only adds empty
    tokens, which the filter drops; a [Set] is read through its elements. *)
Definition tokenize (value : jstr) : list jstr :=
  List.filter nonEmpty (splitOn (λ c, negb (isWordChar c)) (toLowerCase (spaceCamel value))).

Definition connectorDangerousActions (toolName : jstr) : list DangerousActionClass :=
  let tokens := tokenize toolName in
  (if existsb (λ verb, isMember verb tokens) CONNECTOR_DELETE_VERBS then [delete] else []) ++
  (if existsb (λ verb, isMember verb tokens) CONNECTOR_SEND_VERBS then [send] else []).

Definition credentialSegments (path : jstr) : list jstr :=
  List.filter nonEmpty ((λ segment, toLowerCase (trim segment)) <$> splitOn isPathSeparator path).

Definition isCredentialStorePath (path : jstr) : bool :=
  existsb (λ segment, isMember segment CREDENTIAL_STORE_DIRECTORIES ||
                      isMember segment CREDENTIAL_STORE_FILES) (credentialSegments path).

(** ** The rules *)

Definition declaredIncludes (request : DangerousActionRequest) (action : DangerousActionClass) : bool :=
  match declared request with Some classes => bool_decide (action ∈ classes) | None => false end.

Definition readString (record : jobject) (field : jstr) : option jstr :=
  match getField field record with
  | JString value => if isBlank value then None else Some value
  | _ => None
  end.

Definition credentialAccess (request : DangerousActionRequest) (record : jobject) :
    option DangerousAction :=
  if negb (declaredIncludes request credential_access) then None
  else match readString record (u "path") with
       | None => None
       | Some path =>
           if negb (isCredentialStorePath path) then None
           else Some {| action_class := credential_access;
                        summary := u "access the credential store " ++ quoted path |}
       end.

Definition credentialRequest (request : DangerousActionRequest) (record : jobject) :
    option DangerousAction :=
  if negb (declaredIncludes request credential_request) then None
  else match readString record (u "name") with
       | None => None
       | Some name => Some {| action_class := credential_request;
                              summary := u "use the stored credential " ++ quoted name |}
       end.

(** The [RangeError] resolution throws for a home that is not absolute. *)
Inductive ClassifyError := HomeIsNotAbsolute.

Definition writeOutsideHome (request : DangerousActionRequest) (record : jobject) :
    result ClassifyError (option DangerousAction) :=
  if negb (declaredIncludes request write_outside_home) then Ok None
  else match readString record (u "path") with
       | None => Ok None
       | Some p =>
           match resolveComputerPath (home request) p with
           | HomeRangeError => Err HomeIsNotAbsolute
           | PathRefused _ _ => Ok None
           | PathResolved value =>
               if negb (outside value) then Ok None
               else Ok (Some {| action_class := write_outside_home;
                                summary := u "write outside the home to " ++ quoted (path value) |})
           end
       end.

Definition connectorAction (request : DangerousActionRequest) (action : DangerousActionClass) :
    option DangerousAction :=
  if negb (declaredIncludes request action) then None
  else Some {| action_class := action;
               summary :=
                 (if bool_decide (action = send) then u "send through the "
                  else u "delete through the ") ++ quoted (tool request) ++ u " tool" |}.

Section platform.
Context `{UrlPlatform}.

Definition egressUnlisted (request : DangerousActionRequest) (record : jobject) :
    option DangerousActionClassification :=
  if negb (declaredIncludes request egress_unlisted) then None
  else match readString record (u "url") with
       | None => None
       | Some url =>
           Some match decideEgress (allowlist request) url with
                | RefusedInvalidUrl => RefusedCall
                | Allowed _ => Safe
                | NeedsApproval host _ =>
                    Dangerous
                      {| action_class := egress_unlisted;
                         summary := u "reach " ++ quoted host ++
                                    u ", which is not on this run's egress allowlist" |}
                end
       end.

Definition classifyDangerousAction (request : DangerousActionRequest) :
    result ClassifyError DangerousActionClassification :=
  let record := default [] (asRecord (arguments request)) in
  match credentialAccess request record with
  | Some credential => Ok (Dangerous credential)
  | None =>
  match credentialRequest request record with
  | Some request_ => Ok (Dangerous request_)
  | None =>
  match connectorAction request delete with
  | Some deletion => Ok (Dangerous deletion)
  | None =>
  match connectorAction request send with
  | Some sending => Ok (Dangerous sending)
  | None =>
  match egressUnlisted request record with
  | Some egress => Ok egress
  | None =>
      escape ← writeOutsideHome request record;
      Ok match escape with Some escape => Dangerous escape | None => Safe end
  end end end end end.
End platform.

(** ** What a call does *)

Section reach.
Context `{UrlPlatform}.
Implicit Types (r : DangerousActionRequest) (c : DangerousActionClass).

(** The argument object has a string that is not blank under [field]. *)
Definition names r (field value : jstr) : Prop :=
  ∃ fields, arguments r = JObject fields ∧ getField field fields = JString value ∧
            isBlank value = false.

(** The call's own arguments support the class. *)
Definition reaches r c : Prop :=
  match c with
  | credential_access => ∃ p, names r (u "path") p ∧ isCredentialStorePath p = true
  | credential_request => ∃ n, names r (u "name") n
  | write_outside_home =>
      ∃ p x, names r (u "path") p ∧ resolveComputerPath (home r) p = PathResolved x ∧
             outside x = true
  | egress_unlisted =>
      ∃ url host, names r (u "url") url ∧
                  decideEgress (allowlist r) url = NeedsApproval host url
  | send | delete => True
  end.

(** The tool declares the class and the call supports it. *)
Definition gated r c : Prop := declaredIncludes r c = true ∧ reaches r c.

(** The order in which the code asks. *)
Definition rank c : nat :=
  match c with
  | credential_access => 0 | credential_request => 1 | delete => 2 | send => 3
  | egress_unlisted => 4 | write_outside_home => 5
  end.

(** The call's destination is on the allowlist, or names no host. *)
Definition destination r (d : EgressDecision) : Prop :=
  declaredIncludes r egress_unlisted = true ∧
  ∃ url, names r (u "url") url ∧ decideEgress (allowlist r) url = d.

Abbreviation argsOf r := (default [] (asRecord (arguments r))).

Lemma readString_names r field v : readString (argsOf r) field = Some v ↔ names r field v.
Proof.
  unfold readString, names. destruct (arguments r) as [| | | | | | | |items|fields]; cbn;
    try (split; [done|by intros (? & ? & _)]).
  split.
  - destruct (getField field fields) as [| | | | |s| | | |] eqn:E; try done.
    destruct (isBlank s) eqn:Hb; [done|]. intros [= <-]. eauto.
  - intros (f & [= <-] & -> & ->). done.
Qed.

Lemma readString_none r field v : readString (argsOf r) field = None → ¬ names r field v.
Proof. intros Hn H0%readString_names. congruence. Qed.

Lemma names_inj r field v w : names r field v → names r field w → v = w.
Proof. intros H1%readString_names H2%readString_names. congruence. Qed.

Lemma credentialAccess_spec r :
  match credentialAccess r (argsOf r) with
  | Some a => action_class a = credential_access ∧ gated r credential_access
  | None => ¬ gated r credential_access
  end.
Proof.
  unfold gated. cbn [reaches]. unfold credentialAccess.
  destruct (declaredIncludes r credential_access); [cbn [negb]|by intros []].
  destruct (readString _ _) as [v|] eqn:Hv.
  - apply readString_names in Hv. destruct (isCredentialStorePath v) eqn:Hs; cbn [negb]; [by eauto|].
    intros (_ & w & Hw & Hc). rewrite (names_inj _ _ _ _ Hw Hv) in Hc. congruence.
  - intros (_ & w & Hw & _). by eapply readString_none.
Qed.

Lemma credentialRequest_spec r :
  match credentialRequest r (argsOf r) with
  | Some a => action_class a = credential_request ∧ gated r credential_request
  | None => ¬ gated r credential_request
  end.
Proof.
  unfold gated. cbn [reaches]. unfold credentialRequest.
  destruct (declaredIncludes r credential_request); [cbn [negb]|by intros []].
  destruct (readString _ _) as [v|] eqn:Hv.
  - apply readString_names in Hv. by eauto.
  - intros (_ & w & Hw). by eapply readString_none.
Qed.

Lemma connectorAction_spec r c :
  c = send ∨ c = delete →
  match connectorAction r c with
  | Some a => action_class a = c ∧ gated r c
  | None => ¬ gated r c
  end.
Proof.
  unfold gated, connectorAction. intros Hc.
  destruct (declaredIncludes r c); cbn [negb]; [|by intros []].
  split; [done|]. split; [done|]. by destruct Hc as [-> | ->].
Qed.

Lemma decideEgress_url a url h w : decideEgress a url = NeedsApproval h w → w = url.
Proof.
  unfold decideEgress. destruct (parseUrl url) as [x|]; [|done].
  destruct (length _ =? 0)%nat; [done|]. destruct (isHostAllowed _ _); [done|]. by intros [= _ ->].
Qed.

Lemma egressUnlisted_spec r :
  match egressUnlisted r (argsOf r) with
  | Some (Dangerous a) => action_class a = egress_unlisted ∧ gated r egress_unlisted
  | Some RefusedCall => destination r RefusedInvalidUrl ∧ ¬ gated r egress_unlisted
  | Some Safe => (∃ host, destination r (Allowed host)) ∧ ¬ gated r egress_unlisted
  | None => ¬ gated r egress_unlisted
  end.
Proof.
  unfold gated, destination. cbn [reaches]. unfold egressUnlisted.
  destruct (declaredIncludes r egress_unlisted); cbn [negb]; [|by intros []].
  destruct (readString _ _) as [v|] eqn:Hv; [|intros (_ & w & h & Hw & _); by eapply readString_none].
  apply readString_names in Hv.
  assert (∀ d, decideEgress (allowlist r) v = d → (∀ h, d ≠ NeedsApproval h v) →
    ¬ (true = true ∧ ∃ url host, names r (u "url") url ∧
         decideEgress (allowlist r) url = NeedsApproval host url)) as Hno.
  { intros d Hd Hne (_ & w & h & Hw & Hdw). rewrite (names_inj _ _ _ _ Hw Hv) in Hdw.
    apply (Hne h). congruence. }
  destruct (decideEgress (allowlist r) v) as [h|h url|] eqn:Hd.
  - split; [by eauto|]. by apply (Hno (Allowed h)).
  - split; [done|]. split; [done|]. exists v, h. split; [done|]. by rewrite Hd, (decideEgress_url _ _ _ _ Hd).
  - split; [by eauto|]. by apply (Hno RefusedInvalidUrl).
Qed.

Lemma writeOutsideHome_spec r :
  match writeOutsideHome r (argsOf r) with
  | Ok (Some a) => action_class a = write_outside_home ∧ gated r write_outside_home
  | Ok None => ¬ gated r write_outside_home
  | Err _ =>
      ¬ gated r write_outside_home ∧ (startsWith [slash] (home r) = false ∨ home r = [slash])
  end.
Proof.
  unfold gated. cbn [reaches]. unfold writeOutsideHome.
  destruct (declaredIncludes r write_outside_home); cbn [negb]; [|by intros []].
  destruct (readString _ _) as [v|] eqn:Hv; [|intros (_ & w & x & Hw & _); by eapply readString_none].
  apply readString_names in Hv.
  assert (∀ w x, names r (u "path") w ∧ resolveComputerPath (home r) w = PathResolved x ∧
    outside x = true → resolveComputerPath (home r) v = PathResolved x ∧ outside x = true) as Hw.
  { intros w x (Hw & Hr). by rewrite (names_inj _ _ _ _ Hw Hv) in Hr. }
  destruct (resolveComputerPath (home r) v) as [|reason m|x] eqn:Hr.
  - split; [intros (_ & w & x & [? _]%Hw); done|].
    unfold resolveComputerPath in Hr. destruct (negb _ || _) eqn:Eh.
    + apply orb_true_iff in Eh as [Eh|Eh]; bools; auto.
    + by destruct (bool_decide _ || _).
  - by intros (_ & w & x & [? _]%Hw).
  - destruct (outside x) eqn:Ho; cbn [negb].
    + split; [done|]. split; [done|]. by exists v, x.
    + intros (_ & w & y & [[= <-] ?]%Hw). congruence.
Qed.
End reach.

(** ** Connector names and their words *)

(** A word of a tool's name: a lower-case letter, then lower-case letters and
    digits, at least one. *)
Definition nameWord (w : jstr) : bool :=
  match w with
  | c :: rest => isLowerAscii c && negb (bool_decide (rest = [])) && forallb isWordChar rest
  | [] => false
  end.

Definition capitalize (w : jstr) : jstr := match w with c :: rest => (c - 32)%N :: rest | [] => [] end.

Definition camelCase (ws : list jstr) : jstr :=
  match ws with [] => [] | w :: ws => w ++ mjoin (capitalize <$> ws) end.

(** The characters tool names separate words with. *)
Definition nameSeparators : jstr := u "_-./: ".



Lemma nameWord_cons w :
  nameWord w = true →
  ∃ c d rest, w = c :: d :: rest ∧ isLowerAscii c = true ∧ Forall (λ x, isWordChar x = true) w.
Proof.
  destruct w as [|c [|d rest]]; [done| |]; cbn [nameWord].
  - by rewrite bool_decide_true, andb_false_r.
  - rewrite bool_decide_false by done. cbn [negb]. rewrite andb_true_r. intros H. bools.
    exists c, d, rest. split_and!; [done..|]. constructor; [by unfold isWordChar; apply orb_true_iff; left|].
    apply Forall_forall. intros x Hx%list_elem_of_In. by eapply forallb_forall.
Qed.

Lemma spaceCamel_word w c t :
  w ≠ [] → Forall (λ x, isWordChar x = true) w → isUpperAscii c = true →
  spaceCamel (w ++ c :: t) = w ++ 32%N :: spaceCamel (c :: t).
Proof.
  intros Hne Hw Hc. induction Hw as [|a w Ha Hw IH]; [done|].
  destruct w as [|b w].
  - cbn [app]. change (spaceCamel (a :: c :: t)) with
      (if isWordChar a && isUpperAscii c then a :: 32%N :: spaceCamel (c :: t)
       else a :: spaceCamel (c :: t)). by rewrite Ha, Hc.
  - specialize (IH ltac:(done)). cbn [app] in *.
    change (spaceCamel (a :: b :: w ++ c :: t)) with
      (if isWordChar a && isUpperAscii b then a :: 32%N :: spaceCamel (b :: w ++ c :: t)
       else a :: spaceCamel (b :: w ++ c :: t)).
    apply Forall_cons in Hw as [Hb _]. by rewrite (isWordChar_not_upper b Hb), andb_false_r, IH.
Qed.

Lemma toLowerCase_wordChar c : isWordChar c = true → toLowerCase [c] = [c].
Proof.
  intros Hc. unfold toLowerCase. cbn. rewrite (isWordChar_not_upper c Hc).
  unfold isWordChar, isLowerAscii, isDigit in Hc.
  destruct (N.eqb_spec c 304) as [->|]; [done|]. by destruct (N.eqb_spec c 8490) as [->|].
Qed.

Lemma toLowerCase_word w : Forall (λ x, isWordChar x = true) w → toLowerCase w = w.
Proof.
  induction 1 as [|c w Hc _ IH]; [done|]. by rewrite toLowerCase_cons, toLowerCase_wordChar, IH.
Qed.

Lemma toLowerCase_capitalize w : nameWord w = true → toLowerCase (capitalize w) = w.
Proof.
  intros (c & d & rest & -> & Hc & Hw)%nameWord_cons. apply Forall_cons in Hw as [_ Hw].
  cbn [capitalize]. rewrite toLowerCase_cons, (toLowerCase_word _ Hw).
  unfold isLowerAscii in Hc. apply andb_true_iff in Hc as [?%N.leb_le ?%N.leb_le].
  unfold toLowerCase. cbn. unfold isUpperAscii.
  rewrite (proj2 (N.leb_le _ _)), (proj2 (N.leb_le _ _)) by lia. cbn. f_equal. lia.
Qed.

Lemma capital_of_word w :
  nameWord w = true →
  ∃ c rest, capitalize w = c :: rest ∧ isUpperAscii c = true ∧ rest ≠ [] ∧
            Forall (λ x, isWordChar x = true) rest.
Proof.
  intros (c & d & rest & -> & Hc & Hw)%nameWord_cons. apply Forall_cons in Hw as [_ Hw].
  eexists _, _. split_and!; [done| |done|done].
  unfold isLowerAscii in Hc. apply andb_true_iff in Hc as [?%N.leb_le ?%N.leb_le].
  unfold isUpperAscii. rewrite andb_true_iff, !N.leb_le. lia.
Qed.

Lemma spaceCamel_capital c t : isUpperAscii c = true → spaceCamel (c :: t) = c :: spaceCamel t.
Proof.
  intros Hc. destruct t as [|d t]; [done|].
  change (spaceCamel (c :: d :: t)) with
    (if isWordChar c && isUpperAscii d then c :: 32%N :: spaceCamel (d :: t)
     else c :: spaceCamel (d :: t)).
  destruct (isWordChar c) eqn:E; [|done]. apply isWordChar_not_upper in E. congruence.
Qed.

(** Spacing and lowering a camel-case tail spells its words apart. *)
Lemma camel_tail w ws :
  w ≠ [] → Forall (λ x, isWordChar x = true) w → Forall (λ v, nameWord v = true) ws →
  toLowerCase (spaceCamel (w ++ mjoin (capitalize <$> ws))) = join [32%N] (w :: ws).
Proof.
  intros Hne Hw Hws. revert w Hne Hw. induction Hws as [|v ws Hv Hws IH]; intros w Hne Hw.
  - cbn. rewrite app_nil_r, spaceCamel_no_capital, toLowerCase_word; [done..|].
    eapply Forall_impl; [exact Hw|]. intros x. apply isWordChar_not_upper.
  - change (mjoin (capitalize <$> v :: ws)) with (capitalize v ++ mjoin (capitalize <$> ws)).
    pose proof (toLowerCase_capitalize v Hv) as Hlow.
    destruct (capital_of_word v Hv) as (c & rest & Hcap & Hc & Hrest & Hrw).
    rewrite Hcap in *. cbn [app]. rewrite (spaceCamel_word _ _ _ Hne Hw Hc), spaceCamel_capital by done.
    rewrite toLowerCase_app, (toLowerCase_word w) by done.
    rewrite toLowerCase_cons. rewrite (toLowerCase_cons c), (IH rest Hrest Hrw).
    rewrite toLowerCase_cons, (toLowerCase_word rest Hrw) in Hlow.
    change (toLowerCase [32%N]) with [32%N].
    change (join [32%N] (w :: v :: ws)) with (w ++ [32%N] ++ join [32%N] (v :: ws)). do 2 f_equal.
    rewrite <- Hlow. destruct ws as [|v' ws]; [done|]. cbn [join]. by rewrite <- (assoc_L (++)).
Qed.

Lemma tokenize_words sep ws :
  isWordChar sep = false → ws ≠ [] → Forall (λ v, nameWord v = true) ws →
  List.filter nonEmpty (splitOn (λ c, negb (isWordChar c)) (join [sep] ws)) = ws.
Proof.
  intros Hsep Hne Hws.
  assert (splitOn (λ c, negb (isWordChar c)) (join [sep] ws) = ws) as ->.
  { induction Hws as [|w ws Hw Hws IH]; [done|].
    destruct (nameWord_cons w Hw) as (_ & _ & _ & _ & _ & Hc).
    assert (Forall (λ c, negb (isWordChar c) = false) w) as Hc'
      by (eapply Forall_impl; [exact Hc|]; by intros x ->).
    destruct ws as [|v ws]; [by apply splitOn_word|].
    change (join [sep] (w :: v :: ws)) with (w ++ sep :: join [sep] (v :: ws)).
    rewrite splitOn_app_sep; [|done|by rewrite Hsep]. by rewrite IH. }
  clear Hne. induction Hws as [|w ws Hw _ IH]; [done|]. cbn [List.filter].
  destruct (nameWord_cons w Hw) as (c & d & rest & -> & _). unfold nonEmpty at 1.
  rewrite bool_decide_false by done. cbn [negb]. by rewrite IH.
Qed.

Lemma toLowerCase_join sep ws :
  toLowerCase [sep] = [sep] → Forall (λ v, nameWord v = true) ws →
  toLowerCase (join [sep] ws) = join [sep] ws.
Proof.
  intros Hsep. induction 1 as [|w ws Hw Hws IH]; [done|].
  destruct (nameWord_cons w Hw) as (_ & _ & _ & _ & _ & Hc).
  destruct ws as [|v ws]; [by apply toLowerCase_word|].
  change (join [sep] (w :: v :: ws)) with (w ++ [sep] ++ join [sep] (v :: ws)).
  by rewrite !toLowerCase_app, Hsep, IH, (toLowerCase_word w).
Qed.

Lemma join_no_capital sep ws :
  isUpperAscii sep = false → Forall (λ v, nameWord v = true) ws →
  Forall (λ c, isUpperAscii c = false) (join [sep] ws).
Proof.
  intros Hsep. induction 1 as [|w ws Hw Hws IH]; [constructor|].
  destruct (nameWord_cons w Hw) as (_ & _ & _ & _ & _ & Hc).
  assert (Forall (λ c, isUpperAscii c = false) w) as Hc'
    by (eapply Forall_impl; [exact Hc|]; apply isWordChar_not_upper).
  destruct ws as [|v ws]; [done|].
  change (join [sep] (w :: v :: ws)) with (w ++ [sep] ++ join [sep] (v :: ws)).
  apply Forall_app. split; [done|]. by apply Forall_app; split; [constructor|].
Qed.

Lemma tokenize_join sep ws :
  sep ∈ nameSeparators → ws ≠ [] → Forall (λ v, nameWord v = true) ws →
  tokenize (join [sep] ws) = ws.
Proof.
  intros Hsep Hne Hws. unfold tokenize.
  assert (isWordChar sep = false ∧ isUpperAscii sep = false ∧ toLowerCase [sep] = [sep])
    as (H1 & H2 & H3).
  { revert Hsep. apply (Forall_forall (λ sep,
      isWordChar sep = false ∧ isUpperAscii sep = false ∧ toLowerCase [sep] = [sep])).
    apply (bool_decide_unpack _). vm_compute. done. }
  rewrite spaceCamel_no_capital by (by apply join_no_capital).
  rewrite toLowerCase_join by done. by apply tokenize_words.
Qed.

Lemma tokenize_camelCase ws :
  ws ≠ [] → Forall (λ v, nameWord v = true) ws → tokenize (camelCase ws) = ws.
Proof.
  destruct ws as [|w ws]; [done|]. intros _ Hws. pose proof Hws as Hall.
  apply Forall_cons in Hws as [Hw Hws]. unfold tokenize, camelCase.
  destruct (nameWord_cons w Hw) as (c & d & rest & Heq & _ & Hc).
  rewrite camel_tail; [|by rewrite Heq|done|done]. by apply tokenize_words.
Qed.

Lemma existsb_verbs verbs tokens :
  existsb (λ verb, isMember verb tokens) verbs = true ↔ ∃ w, w ∈ tokens ∧ w ∈ verbs.
Proof. rewrite existsb_true. setoid_rewrite isMember_true. naive_solver. Qed.

Lemma connectorDangerousActions_elem name c :
  c ∈ connectorDangerousActions name ↔
  (c = delete ∧ ∃ w, w ∈ tokenize name ∧ w ∈ CONNECTOR_DELETE_VERBS) ∨
  (c = send ∧ ∃ w, w ∈ tokenize name ∧ w ∈ CONNECTOR_SEND_VERBS).
Proof.
  unfold connectorDangerousActions. rewrite elem_of_app, <- !existsb_verbs.
  destruct (existsb _ CONNECTOR_DELETE_VERBS), (existsb _ CONNECTOR_SEND_VERBS); set_solver.
Qed.

(** ** Properties *)

(** Classification, exactly. A dangerous verdict names a class the tool declares
    and the call's own arguments support, and the first such class in the order
    credential access, credential request, delete, send, unlisted egress, write
    outside the home. A refusal is a declared destination that names no host, with
    nothing asked earlier. A safe verdict leaves no declared and supported class
    ungated — except a write outside the home by a call whose declared destination
    is on the allowlist, because that rule answers before it. Classification throws
    only for a home that is not an absolute directory, and then no class applied. *)
Theorem classifyDangerousAction_exact `{UrlPlatform} request :
  match classifyDangerousAction request with
  | Ok (Dangerous a) =>
      gated request (action_class a) ∧
      ∀ c, gated request c → (rank (action_class a) ≤ rank c)%nat
  | Ok RefusedCall =>
      destination request RefusedInvalidUrl ∧ ∀ c, gated request c → c = write_outside_home
  | Ok Safe =>
      ∀ c, gated request c → c = write_outside_home ∧ ∃ host, destination request (Allowed host)
  | Err HomeIsNotAbsolute =>
      (startsWith [slash] (home request) = false ∨ home request = [slash]) ∧
      ∀ c, ¬ gated request c
  end.
Proof.
  pose proof (credentialAccess_spec request) as H1.
  pose proof (credentialRequest_spec request) as H2.
  pose proof (connectorAction_spec request delete (or_intror eq_refl)) as H3.
  pose proof (connectorAction_spec request send (or_introl eq_refl)) as H4.
  pose proof (egressUnlisted_spec request) as H5.
  pose proof (writeOutsideHome_spec request) as H6.
  unfold classifyDangerousAction.
  destruct (credentialAccess _ _) as [a|]; [destruct H1 as [-> ?]; split; [done|]; cbn; lia|].
  destruct (credentialRequest _ _) as [a|];
    [destruct H2 as [-> ?]; split; [done|]; intros []; cbn; (done || lia)|].
  destruct (connectorAction _ delete) as [a|];
    [destruct H3 as [-> ?]; split; [done|]; intros []; cbn; (done || lia)|].
  destruct (connectorAction _ send) as [a|];
    [destruct H4 as [-> ?]; split; [done|]; intros []; cbn; (done || lia)|].
  destruct (egressUnlisted _ _) as [[| |a]|].
  - destruct H5 as [? H5]. intros [] Hg; (done || by split).
  - destruct H5 as [? H5]. split; [done|]. intros [] Hg; done.
  - destruct H5 as [-> ?]. split; [done|]. intros []; cbn; (done || lia).
  - destruct (writeOutsideHome _ _) as [[a|]|[]]; cbn.
    + destruct H6 as [-> ?]. split; [done|]. intros []; cbn; (done || lia).
    + intros [] Hg; done.
    + destruct H6 as [? ?]. split; [done|]. intros []; done.
Qed.

(** A connector tool is gated by the verbs of its name however the name is
    spelled: the same words joined by an underscore, a hyphen, a dot, a slash, a
    colon or a space, or in camel case, declare the same classes; a name with a
    delete verb is always a dangerous delete, one with a send verb alone always a
    dangerous send, and one with neither is safe. *)
Theorem connector_name_gated `{UrlPlatform} sep ws arguments home allowlist :
  sep ∈ nameSeparators → ws ≠ [] → Forall (λ w, nameWord w = true) ws →
  connectorDangerousActions (camelCase ws) = connectorDangerousActions (join [sep] ws) ∧
  let request := {| tool := camelCase ws; arguments := arguments; home := home;
                    allowlist := allowlist;
                    declared := Some (connectorDangerousActions (camelCase ws)) |} in
  if decide (Exists (λ w, w ∈ CONNECTOR_DELETE_VERBS) ws) then
    ∃ a, classifyDangerousAction request = Ok (Dangerous a) ∧ action_class a = delete
  else if decide (Exists (λ w, w ∈ CONNECTOR_SEND_VERBS) ws) then
    ∃ a, classifyDangerousAction request = Ok (Dangerous a) ∧ action_class a = send
  else classifyDangerousAction request = Ok Safe.
Proof.
  intros Hsep Hne Hws. pose proof (tokenize_camelCase ws Hne Hws) as Hc. split.
  { unfold connectorDangerousActions. by rewrite Hc, tokenize_join. }
  intros request.
  assert (∀ c, declaredIncludes request c = true ↔ c ∈ connectorDangerousActions (camelCase ws))
    as Hdec by (intros c; apply bool_decide_eq_true).
  setoid_rewrite connectorDangerousActions_elem in Hdec. rewrite Hc in Hdec.
  assert (∀ c, c ≠ delete → c ≠ send → declaredIncludes request c = false) as Hno.
  { intros c H1 H2. apply not_true_iff_false. rewrite Hdec. naive_solver. }
  assert (declaredIncludes request delete = true ↔ Exists (λ w, w ∈ CONNECTOR_DELETE_VERBS) ws)
    as Hdel by (rewrite Hdec, Exists_exists; naive_solver).
  assert (declaredIncludes request send = true ↔ Exists (λ w, w ∈ CONNECTOR_SEND_VERBS) ws)
    as Hsend by (rewrite Hdec, Exists_exists; naive_solver).
  clearbody request. clear - Hno Hdel Hsend.
  unfold classifyDangerousAction, credentialAccess, credentialRequest, egressUnlisted,
    writeOutsideHome, connectorAction.
  rewrite !(Hno credential_access), !(Hno credential_request), !(Hno egress_unlisted),
    !(Hno write_outside_home) by done. cbn [negb mbind result_bind].
  destruct (decide (Exists (λ w, w ∈ CONNECTOR_DELETE_VERBS) ws)) as [Hd|Hd].
  { rewrite (proj2 Hdel Hd). cbn. by eexists. }
  rewrite <- Hdel, not_true_iff_false in Hd. rewrite Hd. cbn [negb].
  destruct (decide (Exists (λ w, w ∈ CONNECTOR_SEND_VERBS) ws)) as [Hs|Hs].
  { rewrite (proj2 Hsend Hs). cbn. by eexists. }
  rewrite <- Hsend, not_true_iff_false in Hs. by rewrite Hs.
Qed.

(** ** Witnesses *)

Lemma connector_name_gated_witness :
  let ws := [u "email"; u "send"; u "v2"] in
  ∃ a, camelCase ws = u "emailSendV2" ∧ join (u "_") ws = u "email_send_v2" ∧
    classifyDangerousAction
      {| tool := camelCase ws; arguments := JUndefined; home := u "/home/agent";
         allowlist := EMPTY_EGRESS_ALLOWLIST;
         declared := Some (connectorDangerousActions (camelCase ws)) |} = Ok (Dangerous a) ∧
    action_class a = send.
Proof.
  intros ws.
  assert (95%N ∈ nameSeparators ∧ ws ≠ [] ∧ Forall (λ w, nameWord w = true) ws) as (H1 & H2 & H3)
    by (apply (bool_decide_unpack _); vm_compute; done).
  destruct (connector_name_gated 95%N ws JUndefined (u "/home/agent") EMPTY_EGRESS_ALLOWLIST H1 H2 H3)
    as (_ & H).
  destruct (decide _) as [Hd|_] in H.
  { exfalso. apply (bool_decide_pack _) in Hd. vm_compute in Hd. done. }
  destruct (decide _) as [_|Hd] in H; [|exfalso; apply Hd; apply (bool_decide_unpack _); vm_compute; done].
  destruct H as (a & Ha & Hc). exists a. split; [vm_compute; reflexivity|].
  split; [vm_compute; reflexivity|]. split; [exact Ha|exact Hc].
Defined.

(** An allowlisted destination hides the write the same call makes outside the home. *)
Example allowed_egress_masks_escape :
  let request :=
    {| tool := u "download"; home := u "/home/agent"; allowlist := sampleAllowlist;
       arguments := JObject [(u "url", JString (u "https://api.example.com/"));
                             (u "path", JString (u "/etc/passwd"))];
       declared := Some [egress_unlisted; write_outside_home] |} in
  classifyDangerousAction request = Ok Safe ∧ gated request write_outside_home.
Proof.
  split; [vm_compute; reflexivity|]. split; [vm_compute; reflexivity|]. cbn [reaches].
  exists (u "/etc/passwd"). eexists. split; [by eexists|]. split; [vm_compute; reflexivity|done].
Qed.
