(* ===== verification/Statements.v ===== *)
(** Database statements and the programs that issue them one at a time
    (packages/db/src/queryable.ts): a statement is atomic and reads the clock of
    its own start; between two statements of one caller any statements of the
    others may run. *)

From S2P Require Import Prelude.

(** A statement, under the instant [now()] answers for it. *)
Definition statement (St X : Type) : Type := Z → St → X * St.

(** What an [async] function over a [Queryable] does: statements in order, each
    chosen from the answers so far, then a result. *)
Inductive program (St A : Type) : Type :=
| Done (a : A)
| Query (X : Type) (stmt : statement St X) (k : X → program St A).

Arguments Done {St A} a.
Arguments Query {St A X} stmt k.

Section programs.
Context {St A : Type}.

(** Every statement the program may issue has the property [P]. *)
Fixpoint issues (P : ∀ X, statement St X → Prop) (p : program St A) : Prop :=
  match p with
  | Done _ => True
  | @Query _ _ X stmt k => P X stmt ∧ ∀ x, issues P (k x)
  end.

(** The program alone, every statement at the same instant. *)
Fixpoint runAlone (p : program St A) (now : Z) (s : St) : A * St :=
  match p with
  | Done a => (a, s)
  | Query stmt k => let '(x, s') := stmt now s in runAlone (k x) now s'
  end.

Context (step : St → St → Prop).

(** [runs p now s a s']: started at [now] in the state [s], [p] ends with the
    answer [a] in [s'], other callers' steps interleaved before each of its
    statements; its own statements see a clock that does not run backwards. *)
Fixpoint runs (p : program St A) (now : Z) (s : St) (a : A) (s' : St) : Prop :=
  match p with
  | Done a' => a = a' ∧ s' = s
  | Query stmt k =>
      ∃ now' s1, (now ≤ now')%Z ∧ rtc step s s1 ∧
        runs (k (stmt now' s1).1) now' (stmt now' s1).2 a s'
  end.

(** The statement's effect is made of steps. *)
Definition isStep (X : Type) (stmt : statement St X) : Prop := ∀ now s, rtc step s (stmt now s).2.

Lemma runs_steps p now s a s' : issues isStep p → runs p now s a s' → rtc step s s'.
Proof.
  revert now s. induction p as [a'|X stmt k IH]; intros now s Hp; cbn [issues runs] in *.
  - by intros [_ ->].
  - destruct Hp as [Hs Hk]. intros (now' & s1 & _ & H1 & Hr).
    etrans; [exact H1|]. etrans; [apply (Hs now' s1)|]. by eapply IH.
Qed.

Lemma runAlone_runs p now s : runs p now s (runAlone p now s).1 (runAlone p now s).2.
Proof.
  revert s. induction p as [a|X stmt k IH]; intros s; cbn [runs runAlone]; [done|].
  exists now, s. split; [done|]. split; [done|]. destruct (stmt now s) as [x s']. apply IH.
Qed.
End programs.
