(* ===== verification/Threads.v ===== *)
(** Programs in sequence, on a state with a ghost log, and in a pool of threads.
    A program whose thread may enter a section of code at most once per claim is
    [disciplined]: it holds a token only after one of its statements took the
    claim, and gives it up when it enters.  The pool theorem turns that thread-local
    property into exclusion under every interleaving. *)

From S2P Require Import Prelude Statements.

(** ** Sequencing *)

Fixpoint andThen {St A B} (p : program St A) (k : A → program St B) : program St B :=
  match p with
  | Done a => k a
  | Query stmt k' => Query stmt (λ x, andThen (k' x) k)
  end.

Lemma runs_andThen {St A B} (step : St → St → Prop) (p : program St A) (k : A → program St B) now s b s2 :
  runs step (andThen p k) now s b s2 →
  ∃ a now1 s1, (now ≤ now1)%Z ∧ runs step p now s a s1 ∧ runs step (k a) now1 s1 b s2.
Proof.
  revert now s. induction p as [a|X stmt k' IH]; intros now s H; cbn [andThen runs] in *.
  - exists a, now, s. by split_and!.
  - destruct H as (n1 & s1 & Hn & Hs & H). apply IH in H as (a & n2 & s' & Hn2 & Hp & Hk).
    exists a, n2, s'. split_and!; [lia| |done]. by exists n1, s1.
Qed.

Lemma issues_andThen {St A B} P (p : program St A) (k : A → program St B) :
  issues P p → (∀ a, issues P (k a)) → issues P (andThen p k).
Proof. intros Hp Hk. induction p as [a|X stmt k' IH]; cbn in *; naive_solver. Qed.

(** The first statements of [p] only: past [n] of them, the answer is [late]. *)
Fixpoint cutAfter {St A} (n : nat) (late : A) (p : program St A) : program St A :=
  match p, n with
  | Done a, _ => Done a
  | Query _ _, O => Done late
  | Query stmt k, S n' => Query stmt (λ x, cutAfter n' late (k x))
  end.

Lemma issues_cutAfter {St A} P n (late : A) (p : program St A) :
  issues P p → issues P (cutAfter n late p).
Proof.
  revert n. induction p as [a|X stmt k IH]; intros n Hp; destruct n; cbn in *; naive_solver.
Qed.

(** ** A state with a log of the entries made so far, the last one first *)

Record logged (St L : Type) := { real : St; entries : list L }.
Arguments real {St L} _.
Arguments entries {St L} _.

Section logged.
Context {St L : Type}.

Definition onReal {X} (stmt : statement St X) : statement (logged St L) X :=
  λ now w, let '(x, s) := stmt now (real w) in (x, {| real := s; entries := entries w |}).

Fixpoint onRealProgram {A} (p : program St A) : program (logged St L) A :=
  match p with
  | Done a => Done a
  | Query stmt k => Query (onReal stmt) (λ x, onRealProgram (k x))
  end.

(** Somebody's statement on the state; the log may grow with it. *)
Definition loggedStep (step : St → St → Prop) (w w' : logged St L) : Prop := step (real w) (real w').

Lemma loggedSteps_real (step : St → St → Prop) w w' :
  rtc (loggedStep step) w w' → rtc step (real w) (real w').
Proof. induction 1; [done|]. by eapply rtc_l. Qed.

Lemma runs_onReal {A} (step : St → St → Prop) (p : program St A) now w a w' :
  runs (loggedStep step) (onRealProgram p) now w a w' → runs step p now (real w) a (real w').
Proof.
  revert now w. induction p as [a'|X stmt k IH]; intros now w; cbn [onRealProgram runs].
  - by intros [-> ->].
  - intros (n1 & w1 & Hn & Hs & Hr). exists n1, (real w1). split_and!; [done|by apply loggedSteps_real|].
    unfold onReal in Hr. destruct (stmt n1 (real w1)) as [x s1]. by apply IH in Hr.
Qed.

(** Somebody's statement that makes no entry. *)
Definition othersStep (step : St → St → Prop) (w w' : logged St L) : Prop :=
  step (real w) (real w') ∧ entries w' = entries w.

Lemma runs_weaken {X A} (step step' : X → X → Prop) (p : program X A) now s a s' :
  (∀ s s', step s s' → step' s s') → runs step p now s a s' → runs step' p now s a s'.
Proof.
  intros Hstep. revert now s. induction p as [a'|Y stmt k IH]; intros now s; cbn [runs]; [done|].
  intros (n1 & s1 & Hn & Hs & Hr). exists n1, s1. split_and!; [done| |by apply IH].
  clear -Hs Hstep. induction Hs; [done|]. eapply rtc_l; eauto.
Qed.

Lemma othersSteps_entries (step : St → St → Prop) w w' :
  rtc (othersStep step) w w' → entries w' = entries w.
Proof. induction 1 as [|x y z [_ Hxy] _ IH]; [done|]. congruence. Qed.

Lemma runs_onReal_entries {A} (step : St → St → Prop) (p : program St A) now w a w' :
  runs (othersStep step) (onRealProgram p) now w a w' → entries w' = entries w.
Proof.
  revert now w. induction p as [a'|X stmt k IH]; intros now w; cbn [onRealProgram runs].
  - by intros [_ ->].
  - intros (n1 & w1 & _ & Hs & Hr). apply IH in Hr. rewrite Hr. unfold onReal.
    destruct (stmt n1 (real w1)) as [x s1]. cbn. by eapply othersSteps_entries.
Qed.

(** Entering the section [key] guards. *)
Definition enter (key : L) : statement (logged St L) unit :=
  λ _ w, (tt, {| real := real w; entries := key :: entries w |}).
End logged.

(** ** Discipline *)

Section discipline.
Context {St L : Type} (step : St → St → Prop) (taken : St → L → Prop)
  (taken_kept : ∀ s s' key, step s s' → taken s key → taken s' key).

(** What one statement may do with the claim on [key], and whether its thread
    holds the token afterwards. *)
Inductive tokenMove (key : L) : bool → logged St L → logged St L → bool → Prop :=
| move_quiet h w w' :
    rtc step (real w) (real w') → entries w' = entries w → tokenMove key h w w' h
| move_take w w' :
    rtc step (real w) (real w') → ¬ taken (real w) key → taken (real w') key →
    entries w' = entries w → tokenMove key false w w' true
| move_enter w w' :
    rtc step (real w) (real w') → entries w' = key :: entries w → tokenMove key true w w' false.

Fixpoint disciplined {A} (key : L) (h : bool) (p : program (logged St L) A) (Q : bool → A → Prop) :
    Prop :=
  match p with
  | Done a => Q h a
  | Query stmt k =>
      ∀ now w, ∃ h', tokenMove key h w (stmt now w).2 h' ∧
                     disciplined key h' (k (stmt now w).1) Q
  end.

Lemma disciplined_mono {A} key h (p : program (logged St L) A) (Q Q' : bool → A → Prop) :
  disciplined key h p Q → (∀ h a, Q h a → Q' h a) → disciplined key h p Q'.
Proof.
  intros Hp HQ. revert h Hp. induction p as [a|X stmt k IH]; intros h Hp; cbn in *; [by apply HQ|].
  intros now w. destruct (Hp now w) as (h' & Hm & Hk). exists h'. split; [done|by apply IH].
Qed.

Lemma disciplined_andThen {A B} key h (p : program (logged St L) A) (k : A → program (logged St L) B) Q :
  disciplined key h p (λ h' a, disciplined key h' (k a) Q) → disciplined key h (andThen p k) Q.
Proof.
  revert h. induction p as [a|X stmt k' IH]; intros h Hp; cbn in *; [done|].
  intros now w. destruct (Hp now w) as (h' & Hm & Hk). exists h'. split; [done|by apply IH].
Qed.

(** A statement that makes no entry. *)
Definition quiet (X : Type) (stmt : statement (logged St L) X) : Prop :=
  ∀ now w, rtc step (real w) (real (stmt now w).2) ∧ entries (stmt now w).2 = entries w.

Lemma quiet_disciplined {A} key h (p : program (logged St L) A) :
  issues quiet p → disciplined key h p (λ h' _, h' = h).
Proof.
  induction p as [a|X stmt k IH]; intros Hp; cbn in *; [done|]. destruct Hp as [Hs Hk].
  intros now w. exists h. destruct (Hs now w). split; [by apply move_quiet|by apply IH].
Qed.

(** A program over the state alone is quiet. *)
Lemma onRealProgram_quiet {A} (p : program St A) :
  issues (isStep step) p → issues quiet (onRealProgram p).
Proof.
  induction p as [a|X stmt k IH]; intros Hp; cbn in *; [done|]. destruct Hp as [Hs Hk].
  split; [|intros x; by apply IH]. intros now w. unfold onReal. specialize (Hs now (real w)).
  by destruct (stmt now (real w)) as [x s].
Qed.

(** ** The pool *)

Section pool.
Context {A : Type}.

Abbreviation thread := (L * program (logged St L) A)%type.
Abbreviation owner := (L * bool * program (logged St L) A)%type.

(** The threads that may start: each under the key of its claim. *)
Context (starts : L → program (logged St L) A → Prop).

(** A pool and its state: a thread starts, a thread's next statement runs at some
    instant, or somebody else's statement does.  A thread that never runs again has
    crashed. *)
Inductive poolStep : list thread * logged St L → list thread * logged St L → Prop :=
| pool_start ps w key p : starts key p → poolStep (ps, w) ((key, p) :: ps, w)
| pool_run ps qs w key X (stmt : statement (logged St L) X) k now :
    poolStep (ps ++ (key, Query stmt k) :: qs, w)
             (ps ++ (key, k (stmt now w).1) :: qs, (stmt now w).2)
| pool_others ps w s :
    step (real w) s → poolStep (ps, w) (ps, {| real := s; entries := entries w |}).

Context `{!EqDecision L}
  (starts_disciplined : ∀ key p, starts key p → disciplined key false p (λ _ _, True)).

(** One scheduled run of a pool: each number is the thread that runs next. *)
Fixpoint runPool (schedule : list nat) (now : Z) (ps : list thread) (w : logged St L) :
    list thread * logged St L :=
  match schedule with
  | [] => (ps, w)
  | i :: schedule' =>
      match ps !! i with
      | Some (key, Query stmt k) =>
          let '(x, w') := stmt now w in runPool schedule' now (<[i := (key, k x)]> ps) w'
      | _ => runPool schedule' now ps w
      end
  end.

Lemma runPool_steps schedule now ps w :
  rtc poolStep (ps, w) (runPool schedule now ps w).
Proof.
  revert ps w. induction schedule as [|i schedule IH]; intros ps w; [done|]. cbn [runPool].
  destruct (ps !! i) as [[key [a|X stmt k]]|] eqn:E; try apply IH.
  destruct (stmt now w) as [x w'] eqn:Es. etrans; [|apply IH]. apply rtc_once.
  rewrite <- (take_drop_middle _ _ _ E) at 1. rewrite insert_take_drop by (by eapply lookup_lt_Some).
  pose proof (pool_run (take i ps) (drop (S i) ps) w key X stmt k now) as H. by rewrite Es in H.
Qed.

(** The tokens out for a key, and the entries made under it. *)
Definition tokens (key : L) (os : list owner) : nat :=
  length (filter (λ o, o.1.1 = key ∧ o.1.2 = true) os).

Definition entered (key : L) (w : logged St L) : nat := length (filter (λ l, l = key) (entries w)).

Record poolOk (ps : list thread) (w : logged St L) (os : list owner) : Prop := {
  po_threads : ps = (λ o, (o.1.1, o.2)) <$> os;
  po_disciplined : Forall (λ o, disciplined o.1.1 o.1.2 o.2 (λ _ _, True)) os;
  po_once : ∀ key, tokens key os + entered key w ≤ 1;
  po_taken : ∀ key, 0 < tokens key os + entered key w → taken (real w) key }.

Lemma taken_steps s s' key : rtc step s s' → taken s key → taken s' key.
Proof. induction 1; eauto. Qed.

Lemma tokens_split key os k h p os' :
  tokens key (os ++ (k, h, p) :: os') =
  tokens key (os ++ os') + (if decide (k = key ∧ h = true) then 1 else 0).
Proof.
  unfold tokens. rewrite !filter_app, filter_cons. cbn [fst snd].
  case_decide; cbn; rewrite !length_app; cbn; lia.
Qed.

(** One move of one thread keeps the count. *)
Lemma tokenMove_counts key k h w w' h' :
  tokenMove k h w w' h' →
  (if decide (k = key ∧ h' = true) then 1 else 0) + entered key w' =
    (if decide (k = key ∧ h = true) then 1 else 0) + entered key w ∨
  (k = key ∧ ¬ taken (real w) key ∧ taken (real w') key ∧ h = false ∧
   (if decide (k = key ∧ h' = true) then 1 else 0) + entered key w' = 1 + entered key w).
Proof.
  unfold entered. destruct 1 as [h w w' _ ->|w w' _ Hn Ht ->|w w' _ ->]; [by left| |].
  - destruct (decide (k = key)) as [->|Hne].
    + right. rewrite decide_True by done. by split_and!.
    + left. rewrite !decide_False by naive_solver. done.
  - left. rewrite filter_cons. destruct (decide (k = key)) as [->|Hne].
    + rewrite decide_False by naive_solver. rewrite decide_True by done. cbn. lia.
    + rewrite !decide_False by naive_solver. done.
Qed.

Lemma tokenMove_steps k h w w' h' : tokenMove k h w w' h' → rtc step (real w) (real w').
Proof. by destruct 1. Qed.

Lemma poolOk_step ps w os ps' w' :
  poolOk ps w os → poolStep (ps, w) (ps', w') → ∃ os', poolOk ps' w' os'.
Proof.
  intros [Hps Hd Ho Ht] Hstep. inversion Hstep; subst; clear Hstep.
  - exists ((key, false, p) :: os). split; [done|constructor; [by apply starts_disciplined|done]|..];
      intros key'; specialize (Ho key'); specialize (Ht key'); unfold tokens in *;
      rewrite filter_cons, decide_False by naive_solver; done.
  - match goal with H : _ ++ _ :: _ = _ <$> os |- _ =>
      symmetry in H; apply fmap_app_inv in H as (o1 & o2 & -> & Hq & ->);
      symmetry in Hq; apply fmap_cons_inv in Hq as ([[k' h] p'] & o2' & Hk & -> & ->) end.
    cbn in Hk. injection Hk as -> <-.
    apply Forall_app in Hd as [Hd1 Hd2]. apply Forall_cons in Hd2 as [Hp Hd2].
    cbn [fst snd disciplined] in Hp. destruct (Hp now w) as (h' & Hm & Hk). exists (o1 ++ (k', h', k (stmt now w).1) :: o2').
    split.
    + by rewrite fmap_app, fmap_cons.
    + apply Forall_app. split; [done|by constructor].
    + intros key'. specialize (Ho key'). specialize (Ht key'). rewrite tokens_split in *.
      destruct (tokenMove_counts key' _ _ _ _ _ Hm) as [Hc|(-> & Hn & _ & -> & Hc)]; [lia|].
      rewrite decide_False in Ho, Ht by naive_solver. destruct (decide (0 < tokens key' (o1 ++ o2') + 0 + entered key' w)) as [Hlt|]; [|lia].
      by destruct Hn; apply Ht.
    + intros key'. specialize (Ho key'). specialize (Ht key'). rewrite tokens_split in *.
      destruct (tokenMove_counts key' _ _ _ _ _ Hm) as [Hc|(-> & _ & Hn & _ & _)]; [|done].
      intros Hlt. eapply taken_steps; [by eapply tokenMove_steps|]. apply Ht. lia.
  - exists os. split; [done..|]. intros key' Hlt. eapply taken_kept; [done|]. by apply Ht.
Qed.

(** However the threads and everybody else interleave, no key is entered twice. *)
Lemma pool_enters_once s ps w :
  rtc poolStep ([], {| real := s; entries := [] |}) (ps, w) →
  NoDup (entries w) ∧ ∀ key, key ∈ entries w → taken (real w) key.
Proof.
  assert (poolOk [] {| real := s; entries := [] |} []) as H0
    by (split; [done|by apply List.Forall_nil|intros key; unfold tokens, entered; cbn; lia..]).
  intros Hs. assert (∃ os, poolOk ps w os) as [os [_ _ Ho Ht]].
  { revert H0. generalize ([] : list owner). intros os0 H0.
    remember ([], {| real := s; entries := [] |}) as c eqn:Hc.
    assert (poolOk c.1 c.2 os0) as H1 by by subst. clear H0 Hc.
    remember (ps, w) as c' eqn:Hc'. replace ps with c'.1 by by subst. replace w with c'.2 by by subst.
    clear Hc'. revert os0 H1. induction Hs as [c|[p1 w1] [p2 w2] c' Hstep _ IH]; intros os0 H1; [by eexists|].
    destruct (poolOk_step _ _ _ _ _ H1 Hstep) as [os' H2]. by eapply IH. }
  clear Hs H0. split.
  2: { intros key Hin. apply Ht. clear - Hin. unfold entered.
    assert (key ∈ filter (λ l, l = key) (entries w)) as Hf by by apply list_elem_of_filter.
    destruct (filter _ (entries w)); [by apply elem_of_nil in Hf|cbn; lia]. }
  clear Ht. apply NoDup_alt. intros i j key Hi Hj. specialize (Ho key).
  destruct (decide (i = j)) as [|Hne]; [done|exfalso].
  assert (2 ≤ entered key w); [|lia]. clear Ho. unfold entered. revert i j Hi Hj Hne.
  induction (entries w) as [|l ls IH]; intros i j Hi Hj Hne; [by rewrite lookup_nil in Hi|].
  assert (Hone : ∀ i, ls !! i = Some key → 1 ≤ length (filter (λ l, l = key) ls)).
  { intros n Hn. apply list_elem_of_lookup_2 in Hn.
    assert (key ∈ filter (λ l, l = key) ls) as Hin by by apply list_elem_of_filter.
    destruct (filter _ ls); [by apply elem_of_nil in Hin|cbn; lia]. }
  rewrite filter_cons. destruct i as [|i], j as [|j]; cbn in Hi, Hj; [done|..].
  - injection Hi as ->. rewrite decide_True by done. cbn. specialize (Hone _ Hj). lia.
  - injection Hj as ->. rewrite decide_True by done. cbn. specialize (Hone _ Hi). lia.
  - assert (2 ≤ length (filter (λ l, l = key) ls)) by (apply (IH i j); [done..|congruence]).
    case_decide; cbn; lia.
Qed.
End pool.
End discipline.
