(* ===== verification/RunTables.v ===== *)
(** The rows the run statements share: packages/db/src/schema/runs.ts,
    external-effects.ts and approvals.ts.  A table is a map under its unique index;
    columns no modelled statement reads or writes are left out.  Instants are
    microseconds, the resolution of the [timestamptz] columns. *)

From S2P Require Import Prelude JsText JsValue RunState Approvals RunLiveness.

Definition SECOND : Z := 1000000.

(** The [Date] the driver makes of a column: its whole milliseconds. *)
Definition columnDate (at_ : Z) : Z := at_ / 1000.

(** [lease_owner], [lease_fence], [lease_expires_at]. *)
Record LeaseColumns := { lcOwner : option jstr; lcFence : Z; lcExpiresAt : option Z }.

(** [last_heartbeat_at] .. [stalled_at]. *)
Record LivenessColumns := {
  lvHeartbeatAt : option Z; lvProgressAt : option Z; lvStep : option RunStepKind;
  lvStepTool : option jstr; lvStalledAt : option Z }.

(** [error], [error_code], [checkpoint], [started_at], [completed_at]. *)
Record OutcomeColumns := {
  ocError : option jstr; ocErrorCode : option jstr; ocCheckpoint : jsval;
  ocStartedAt : option Z; ocCompletedAt : option Z }.

Record RunRow := {
  rwSpace : jstr; rwThread : jstr; rwStatus : RunStatus; rwLease : LeaseColumns;
  rwLiveness : LivenessColumns; rwOutcome : OutcomeColumns; rwStopRequestedAt : option Z;
  rwNotifiedAt : option Z; rwUpdatedAt : Z }.

Inductive AttemptStatus := at_running | at_completed | at_failed | at_cancelled | at_abandoned.

#[export] Instance AttemptStatus_eq_dec : EqDecision AttemptStatus.
Proof. solve_decision. Defined.

Record AttemptRow := {
  atStatus : AttemptStatus; atError : option jstr; atStartedAt : Z; atFinishedAt : option Z }.

Inductive EffectStatus := ef_pending | ef_running | ef_completed | ef_failed | ef_cancelled.

#[export] Instance EffectStatus_eq_dec : EqDecision EffectStatus.
Proof. solve_decision. Defined.

Record EffectRow := {
  efSpace : jstr; efKind : jstr; efStatus : EffectStatus; efRequest : jsval;
  efResult : option jsval }.

Record ApprovalRow := {
  arSpace : jstr; arTool : jstr; arArguments : jsval; arStatus : ApprovalStatus;
  arExpiresAt : Z; arDecidedBy : option jstr; arDecidedAt : option Z; arReason : option jstr }.

(** The tables, under their unique indexes: the run id, [(run_id, fence)],
    [(run_id, idempotency_key)] and [(run_id, call_id)]. *)
Record Database := {
  runRows : gmap jstr RunRow;
  attemptRows : gmap (jstr * Z) AttemptRow;
  effectRows : gmap (jstr * jstr) EffectRow;
  approvalRows : gmap (jstr * jstr) ApprovalRow }.

Definition withRunRow (db : Database) (runId : jstr) (row : RunRow) : Database :=
  {| runRows := <[runId := row]> (runRows db); attemptRows := attemptRows db;
     effectRows := effectRows db; approvalRows := approvalRows db |}.

Definition withAttempts (db : Database) (m : gmap (jstr * Z) AttemptRow) : Database :=
  {| runRows := runRows db; attemptRows := m; effectRows := effectRows db;
     approvalRows := approvalRows db |}.

Definition withEffects (db : Database) (m : gmap (jstr * jstr) EffectRow) : Database :=
  {| runRows := runRows db; attemptRows := attemptRows db; effectRows := m;
     approvalRows := approvalRows db |}.

Definition withApprovals (db : Database) (m : gmap (jstr * jstr) ApprovalRow) : Database :=
  {| runRows := runRows db; attemptRows := attemptRows db; effectRows := effectRows db;
     approvalRows := m |}.

(** The range of an [integer] column. *)
Definition INTEGER_MAX : Z := 2147483647.

(** What a statement or a call throws. *)
Inductive StoreError :=
| DatabaseFailure
| LeaseLostError (runId : jstr)
| NotFoundError (what id : jstr)
| ClaimLostError.

(** A run as the insert of run-creation.ts leaves it. *)
Definition createdRun (spaceId threadId : jstr) (now : Z) : RunRow :=
  {| rwSpace := spaceId; rwThread := threadId; rwStatus := INITIAL_RUN_STATUS;
     rwLease := {| lcOwner := None; lcFence := 0; lcExpiresAt := None |};
     rwLiveness := {| lvHeartbeatAt := None; lvProgressAt := None; lvStep := None;
                      lvStepTool := None; lvStalledAt := None |};
     rwOutcome := {| ocError := None; ocErrorCode := None; ocCheckpoint := JObject [];
                     ocStartedAt := None; ocCompletedAt := None |};
     rwStopRequestedAt := None; rwNotifiedAt := None; rwUpdatedAt := now |}.

(** [status in ('running', 'waiting_approval')]. *)
Definition isExecuting (s : RunStatus) : bool :=
  bool_decide (s = running) || bool_decide (s = waiting_approval).

(** [lease_expires_at > now()] and [lease_expires_at <= now()]: neither holds of a null. *)
Definition leaseLive (l : LeaseColumns) (now : Z) : bool :=
  match lcExpiresAt l with Some e => (now <? e)%Z | None => false end.

Definition leaseExpired (l : LeaseColumns) (now : Z) : bool :=
  match lcExpiresAt l with Some e => (e <=? now)%Z | None => false end.

(** The [run_current_step_tool_check] constraint. *)
Definition stepToolAllowed (step : option RunStepKind) (tool : option jstr) : bool :=
  match tool with
  | None => true
  | Some _ => bool_decide (step = Some working) || bool_decide (step = Some waiting)
  end.

(** [status in ('pending', 'running')] of an effect. *)
Definition isInFlight (s : EffectStatus) : bool :=
  bool_decide (s = ef_pending) || bool_decide (s = ef_running).

Definition errorResult (reason : jstr) : jsval := JObject [(u "error", JString reason)].

(** Every effect of the run still in flight, settled as failed for the reason. *)
Definition settleEffects (spaceId runId reason : jstr) (m : gmap (jstr * jstr) EffectRow) :
    gmap (jstr * jstr) EffectRow :=
  map_imap (λ key e,
    Some (if bool_decide (key.1 = runId) && bool_decide (efSpace e = spaceId)
             && isInFlight (efStatus e)
          then {| efSpace := efSpace e; efKind := efKind e; efStatus := ef_failed;
                  efRequest := efRequest e; efResult := Some (errorResult reason) |}
          else e)) m.

(** An attempt still running, closed; any other is left alone. *)
Definition closeAttempt (runId : jstr) (fence : Z) (status : AttemptStatus) (error : option jstr)
    (now : Z) (m : gmap (jstr * Z) AttemptRow) : gmap (jstr * Z) AttemptRow :=
  match m !! (runId, fence) with
  | Some a =>
      if bool_decide (atStatus a = at_running)
      then <[(runId, fence) := {| atStatus := status; atError := error;
                                  atStartedAt := atStartedAt a; atFinishedAt := Some now |}]> m
      else m
  | None => m
  end.

(** ** Lemmas *)

Lemma lookup_settleEffects spaceId runId reason m key :
  settleEffects spaceId runId reason m !! key =
  (λ e, if bool_decide (key.1 = runId) && bool_decide (efSpace e = spaceId)
             && isInFlight (efStatus e)
        then {| efSpace := efSpace e; efKind := efKind e; efStatus := ef_failed;
                efRequest := efRequest e; efResult := Some (errorResult reason) |}
        else e) <$> m !! key.
Proof. unfold settleEffects. rewrite map_lookup_imap. by destruct (m !! key). Qed.

Lemma lookup_closeAttempt runId fence status error now m key :
  closeAttempt runId fence status error now m !! key =
  match m !! key with
  | Some a =>
      if bool_decide (key = (runId, fence)) && bool_decide (atStatus a = at_running)
      then Some {| atStatus := status; atError := error; atStartedAt := atStartedAt a;
                   atFinishedAt := Some now |}
      else Some a
  | None => None
  end.
Proof.
  unfold closeAttempt. destruct (m !! (runId, fence)) as [a|] eqn:E.
  - destruct (decide (key = (runId, fence))) as [->|Hne].
    + rewrite E, (bool_decide_true ((runId, fence) = (runId, fence))) by done. cbn [andb].
      destruct (bool_decide (atStatus a = at_running)); [by rewrite lookup_insert_eq|done].
    + rewrite (bool_decide_false (key = (runId, fence))) by done. cbn [andb].
      destruct (bool_decide (atStatus a = at_running)); rewrite ?lookup_insert_ne by congruence;
        by destruct (m !! key).
  - destruct (m !! key) as [a|] eqn:E'; [|done].
    rewrite bool_decide_false; [done|]. intros ->. congruence.
Qed.

Lemma isExecuting_iff s : isExecuting s = true ↔ s = running ∨ s = waiting_approval.
Proof. destruct s; vm_compute; naive_solver. Qed.
