(* ===== verification/RunLeases.v ===== *)
(** The run's lease and fence, packages/db/src/run-leases.ts: claim, reclaim,
    adoption, heartbeat and the fenced write, with the stall and notification
    claims of packages/db/src/run-liveness.ts and the stop request of
    packages/db/src/repositories.ts.  One statement of the source is one function
    of the tables. *)

From S2P Require Import Prelude JsText JsValue Calendar RunState RunLiveness Statements RunTables.

Definition RUN_HEARTBEAT_INTERVAL_SECONDS : Z := 60.
Definition RUN_HEARTBEAT_GRACE_SECONDS : Z := 60.
Definition RUN_LEASE_TTL_SECONDS : Z :=
  RUN_HEARTBEAT_INTERVAL_SECONDS + RUN_HEARTBEAT_GRACE_SECONDS.
Definition RUN_WATCHDOG_BATCH_LIMIT : nat := 50.

Record RunLease := { rlOwner : jstr; rlFence : Z }.

Record RunProgressStamp := {
  psProgressed : bool; psIdleSeconds : Z; psStep : option RunStep }.

(** An absent field is [None]; [error] and [errorCode] may also be null.  A patch is one
    the columns store: jsonb holds its checkpoint and its texts hold no NUL.  The source
    throws on any other, whatever row it would match, and writes nothing. *)
Record FencedRunPatch := {
  fpStatus : option RunStatus; fpCheckpoint : option jsval; fpError : option (option jstr);
  fpErrorCode : option (option jstr); fpStarted : bool; fpCompleted : bool; fpRelease : bool;
  fpSettleInFlight : option jstr; fpAttempt : option AttemptStatus }.

Record ReclaimOptions := { roReason : jstr; roRecordAttempt : option bool }.

Inductive AcquireMode := claim | reclaim (options : ReclaimOptions) | adopt (previousOwner : jstr).

Definition availabilityGuard (mode : AcquireMode) (now : Z) (row : RunRow) : bool :=
  match mode with
  | claim =>
      bool_decide (rwStatus row = queued) && bool_decide (lcOwner (rwLease row) = None)
      && bool_decide (lcExpiresAt (rwLease row) = None)
  | reclaim _ =>
      isExecuting (rwStatus row) && bool_decide (lcOwner (rwLease row) ≠ None)
      && leaseExpired (rwLease row) now
  | adopt previousOwner =>
      isExecuting (rwStatus row) && bool_decide (lcOwner (rwLease row) = Some previousOwner)
      && leaseLive (rwLease row) now
  end.

(** [mode !== "reclaim" || options?.recordAttempt !== false]. *)
Definition recordsAttempt (mode : AcquireMode) : bool :=
  match mode with
  | reclaim options => default true (roRecordAttempt options)
  | _ => true
  end.

(** The row [claimed] returns. *)
Definition acquiredRow (mode : AcquireMode) (owner : jstr) (now : Z) (row : RunRow) : RunRow :=
  let isClaim := match mode with claim => true | _ => false end in
  {| rwSpace := rwSpace row; rwThread := rwThread row;
     rwStatus := if isClaim then running else rwStatus row;
     rwLease := {| lcOwner := Some owner; lcFence := lcFence (rwLease row) + 1;
                   lcExpiresAt := Some (now + RUN_LEASE_TTL_SECONDS * SECOND)%Z |};
     rwLiveness := {| lvHeartbeatAt := Some now; lvProgressAt := Some now;
                      lvStep := Some starting; lvStepTool := None; lvStalledAt := None |};
     rwOutcome :=
       if isClaim then
         {| ocError := ocError (rwOutcome row); ocErrorCode := ocErrorCode (rwOutcome row);
            ocCheckpoint := ocCheckpoint (rwOutcome row);
            ocStartedAt := Some (default now (ocStartedAt (rwOutcome row)));
            ocCompletedAt := ocCompletedAt (rwOutcome row) |}
       else rwOutcome row;
     rwStopRequestedAt := rwStopRequestedAt row; rwNotifiedAt := rwNotifiedAt row;
     rwUpdatedAt := now |}.

(** [abandoned] and [settled], the reconciliation a reclaim's statement carries. *)
Definition reconcile (mode : AcquireMode) (spaceId runId : jstr) (expectedFence now : Z)
    (db : Database) : Database :=
  match mode with
  | reclaim options =>
      withEffects
        (withAttempts db
           (closeAttempt runId expectedFence at_abandoned (Some (roReason options)) now
              (attemptRows db)))
        (settleEffects spaceId runId (roReason options) (effectRows db))
  | _ => db
  end.

(** The inserted attempt of the new fence; the unique index may refuse it. *)
Definition record (mode : AcquireMode) (runId : jstr) (newFence now : Z) (db : Database) :
    option Database :=
  if recordsAttempt mode then
    match attemptRows db !! (runId, newFence) with
    | Some _ => None
    | None =>
        Some (withAttempts db
          (<[(runId, newFence) := {| atStatus := at_running; atError := None;
                                     atStartedAt := now; atFinishedAt := None |}]>
             (attemptRows db)))
    end
  else Some db.

Definition acquireRun (spaceId runId : jstr) (expectedFence : Z) (owner : jstr)
    (mode : AcquireMode) : statement Database (result StoreError (option RunRow)) :=
  λ now db,
  match runRows db !! runId with
  | None => (Ok None, db)
  | Some row =>
      if bool_decide (rwSpace row = spaceId) && (lcFence (rwLease row) =? expectedFence)%Z
         && availabilityGuard mode now row
      then
        let next := acquiredRow mode owner now row in
        if (INTEGER_MAX <? lcFence (rwLease next))%Z then (Err DatabaseFailure, db)
        else match record mode runId (lcFence (rwLease next)) now (withRunRow db runId next) with
             | None => (Err DatabaseFailure, db)
             | Some db' => (Ok (Some next), reconcile mode spaceId runId expectedFence now db')
             end
      else (Ok None, db)
  end.

Definition claimRun (spaceId runId : jstr) (expectedFence : Z) (owner : jstr) :=
  acquireRun spaceId runId expectedFence owner claim.

Definition reclaimRun (spaceId runId : jstr) (expectedFence : Z) (owner : jstr)
    (options : ReclaimOptions) :=
  acquireRun spaceId runId expectedFence owner (reclaim options).

Definition adoptRun (spaceId runId : jstr) (expectedFence : Z) (owner previousOwner : jstr) :=
  acquireRun spaceId runId expectedFence owner (adopt previousOwner).

(** The guard every fenced write shares. *)
Definition holdsLease (spaceId : jstr) (lease : RunLease) (now : Z) (row : RunRow) : bool :=
  bool_decide (rwSpace row = spaceId) && bool_decide (lcOwner (rwLease row) = Some (rlOwner lease))
  && (lcFence (rwLease row) =? rlFence lease)%Z && isExecuting (rwStatus row)
  && leaseLive (rwLease row) now.

Definition heartbeatRow (progress : RunProgressStamp) (now : Z) (row : RunRow) : RunRow :=
  {| rwSpace := rwSpace row; rwThread := rwThread row; rwStatus := rwStatus row;
     rwLease := {| lcOwner := lcOwner (rwLease row); lcFence := lcFence (rwLease row);
                   lcExpiresAt := Some (now + RUN_LEASE_TTL_SECONDS * SECOND)%Z |};
     rwLiveness :=
       {| lvHeartbeatAt := Some now;
          lvProgressAt :=
            if psProgressed progress then Some (now - psIdleSeconds progress * SECOND)%Z
            else match lvProgressAt (rwLiveness row) with None => Some now | at_ => at_ end;
          lvStep := stepKind <$> psStep progress;
          lvStepTool := psStep progress ≫= stepTool;
          lvStalledAt := if psProgressed progress then None else lvStalledAt (rwLiveness row) |};
     rwOutcome := rwOutcome row; rwStopRequestedAt := rwStopRequestedAt row;
     rwNotifiedAt := rwNotifiedAt row; rwUpdatedAt := now |}.

Definition heartbeatRun (spaceId runId : jstr) (lease : RunLease) (progress : RunProgressStamp) :
    statement Database (result StoreError RunRow) :=
  λ now db,
  match runRows db !! runId with
  | Some row =>
      if holdsLease spaceId lease now row then
        let next := heartbeatRow progress now row in
        if stepToolAllowed (lvStep (rwLiveness next)) (lvStepTool (rwLiveness next))
        then (Ok next, withRunRow db runId next)
        else (Err DatabaseFailure, db)
      else (Err (LeaseLostError runId), db)
  | None => (Err (LeaseLostError runId), db)
  end.

(** The status a fenced write may leave, and what it may move to. *)
Definition statusTransitionGuard (next : option RunStatus) (current : RunStatus) : bool :=
  match next with
  | None => true
  | Some running => bool_decide (current = waiting_approval)
  | Some waiting_approval | Some completed => bool_decide (current = running)
  | Some failed | Some cancelled => isExecuting current
  | Some queued => false
  end.

Definition patchedRow (patch : FencedRunPatch) (now : Z) (row : RunRow) : RunRow :=
  let ended := match fpStatus patch with Some s => isTerminalStatus s | None => false end in
  let oc := rwOutcome row in
  {| rwSpace := rwSpace row; rwThread := rwThread row;
     rwStatus := default (rwStatus row) (fpStatus patch);
     rwLease :=
       if fpRelease patch
       then {| lcOwner := None; lcFence := lcFence (rwLease row); lcExpiresAt := None |}
       else rwLease row;
     rwLiveness :=
       if ended
       then {| lvHeartbeatAt := lvHeartbeatAt (rwLiveness row);
               lvProgressAt := lvProgressAt (rwLiveness row);
               lvStep := None; lvStepTool := None; lvStalledAt := None |}
       else rwLiveness row;
     rwOutcome :=
       {| ocError := default (ocError oc) (fpError patch);
          ocErrorCode := default (ocErrorCode oc) (fpErrorCode patch);
          ocCheckpoint := default (ocCheckpoint oc) (fpCheckpoint patch);
          ocStartedAt := if fpStarted patch then Some (default now (ocStartedAt oc))
                         else ocStartedAt oc;
          ocCompletedAt := if fpCompleted patch then Some now else ocCompletedAt oc |};
     rwStopRequestedAt := rwStopRequestedAt row; rwNotifiedAt := rwNotifiedAt row;
     rwUpdatedAt := now |}.

(** The statement's other two updates: the attempt of the lease's fence and the
    effects the run leaves in flight. *)
Definition settleAttempt (patch : FencedRunPatch) (runId : jstr) (fence now : Z) (db : Database) :
    Database :=
  match fpAttempt patch with
  | None => db
  | Some s =>
      withAttempts db (closeAttempt runId fence s (default None (fpError patch)) now (attemptRows db))
  end.

Definition settlePatchEffects (patch : FencedRunPatch) (spaceId runId : jstr) (db : Database) :
    Database :=
  match fpSettleInFlight patch with
  | None => db
  | Some why => withEffects db (settleEffects spaceId runId why (effectRows db))
  end.

(** The fenced write of a patch the columns store ([FencedRunPatch]). *)
Definition updateClaimedRun (spaceId runId : jstr) (lease : RunLease) (patch : FencedRunPatch) :
    statement Database (result StoreError RunRow) :=
  λ now db,
  match runRows db !! runId with
  | Some row =>
      if holdsLease spaceId lease now row && statusTransitionGuard (fpStatus patch) (rwStatus row)
      then
        let next := patchedRow patch now row in
        (Ok next,
         settlePatchEffects patch spaceId runId
           (settleAttempt patch runId (rlFence lease) now (withRunRow db runId next)))
      else (Err (LeaseLostError runId), db)
  | None => (Err (LeaseLostError runId), db)
  end.

Definition abandonAttempt (spaceId runId : jstr) (fence : Z) (reason : jstr) :
    statement Database bool :=
  λ now db,
  match attemptRows db !! (runId, fence), runRows db !! runId with
  | Some a, Some row =>
      if bool_decide (atStatus a = at_running) && bool_decide (rwSpace row = spaceId)
      then (true, withAttempts db
                    (closeAttempt runId fence at_abandoned (Some reason) now (attemptRows db)))
      else (false, db)
  | _, _ => (false, db)
  end.

(** ** Stalls, the terminal notification and the operator's stop *)

(** What [findStalledRuns] scans for and [markRunStalled] guards. *)
Definition stallCandidate (thresholdSeconds now : Z) (row : RunRow) : bool :=
  bool_decide (rwStatus row = running) && bool_decide (lcOwner (rwLease row) ≠ None)
  && leaseLive (rwLease row) now && bool_decide (rwStopRequestedAt row = None)
  && bool_decide (lvStalledAt (rwLiveness row) = None)
  && bool_decide (lvStep (rwLiveness row) ≠ Some waiting)
  && match lvProgressAt (rwLiveness row) with
     | Some at_ => (at_ <? now - thresholdSeconds * SECOND)%Z
     | None => false
     end.

Definition stalledRow (now : Z) (row : RunRow) : RunRow :=
  {| rwSpace := rwSpace row; rwThread := rwThread row; rwStatus := rwStatus row;
     rwLease := rwLease row;
     rwLiveness := {| lvHeartbeatAt := lvHeartbeatAt (rwLiveness row);
                      lvProgressAt := lvProgressAt (rwLiveness row);
                      lvStep := lvStep (rwLiveness row);
                      lvStepTool := lvStepTool (rwLiveness row); lvStalledAt := Some now |};
     rwOutcome := rwOutcome row; rwStopRequestedAt := rwStopRequestedAt row;
     rwNotifiedAt := rwNotifiedAt row; rwUpdatedAt := now |}.

Definition markRunStalled (spaceId runId : jstr) (thresholdSeconds : Z) :
    statement Database (option RunRow) :=
  λ now db,
  match runRows db !! runId with
  | Some row =>
      if bool_decide (rwSpace row = spaceId) && stallCandidate thresholdSeconds now row
      then (Some (stalledRow now row), withRunRow db runId (stalledRow now row))
      else (None, db)
  | None => (None, db)
  end.

Definition notifiedRow (now : Z) (row : RunRow) : RunRow :=
  {| rwSpace := rwSpace row; rwThread := rwThread row; rwStatus := rwStatus row;
     rwLease := rwLease row; rwLiveness := rwLiveness row; rwOutcome := rwOutcome row;
     rwStopRequestedAt := rwStopRequestedAt row; rwNotifiedAt := Some now; rwUpdatedAt := now |}.

Definition claimRunNotification (spaceId runId : jstr) : statement Database bool :=
  λ now db,
  match runRows db !! runId with
  | Some row =>
      if bool_decide (rwSpace row = spaceId) && bool_decide (rwNotifiedAt row = None)
         && (bool_decide (rwStatus row = completed) || bool_decide (rwStatus row = failed))
      then (true, withRunRow db runId (notifiedRow now row))
      else (false, db)
  | None => (false, db)
  end.

Definition stoppingRow (now : Z) (row : RunRow) : RunRow :=
  {| rwSpace := rwSpace row; rwThread := rwThread row; rwStatus := rwStatus row;
     rwLease := rwLease row; rwLiveness := rwLiveness row; rwOutcome := rwOutcome row;
     rwStopRequestedAt := Some (default now (rwStopRequestedAt row));
     rwNotifiedAt := rwNotifiedAt row; rwUpdatedAt := now |}.

Definition stopStatement (spaceId runId : jstr) : statement Database (option RunRow) :=
  λ now db,
  match runRows db !! runId with
  | Some row =>
      if bool_decide (rwSpace row = spaceId) && bool_decide (rwStatus row ∈ ACTIVE_RUN_STATUSES)
      then (Some (stoppingRow now row), withRunRow db runId (stoppingRow now row))
      else (None, db)
  | None => (None, db)
  end.

(** The scoped read every repository does. *)
Definition readRun (spaceId runId : jstr) : statement Database (option RunRow) :=
  λ _ db,
  (match runRows db !! runId with
   | Some row => if bool_decide (rwSpace row = spaceId) then Some row else None
   | None => None
   end, db).

Definition requestRunStop (spaceId runId : jstr) :
    program Database (result StoreError RunRow) :=
  Query (stopStatement spaceId runId) (λ updated,
  match updated with
  | Some row => Done (Ok row)
  | None =>
      Query (readRun spaceId runId) (λ existing,
      match existing with
      | Some row => Done (Ok row)
      | None => Done (Err (NotFoundError (u "run") runId))
      end)
  end).

(** The reason a reclaim records, from the deadline its reader saw. *)
Definition expiredLeaseReason (expiresAt : option Z) : jstr :=
  match expiresAt with
  | None => u "the previous owner's lease expired and no heartbeat renewed it"
  | Some at_ =>
      u "the previous owner's lease expired at " ++ toISOString at_ ++
      u " and no heartbeat renewed it"
  end.

(** The watchdog's scan: addressing only, oldest expiry first. *)
Record ExpiredLease := { exRunId : jstr; exSpaceId : jstr; exFence : Z; exExpiresAt : Z }.

Definition isExpiredLease (now : Z) (row : RunRow) : bool :=
  isExecuting (rwStatus row) && bool_decide (lcOwner (rwLease row) ≠ None)
  && leaseExpired (rwLease row) now.

Definition leExpired (a b : ExpiredLease) : Prop :=
  if (exExpiresAt a =? exExpiresAt b)%Z then leString (exRunId a) (exRunId b) = true
  else (exExpiresAt a < exExpiresAt b)%Z.

#[export] Instance leExpired_dec a b : Decision (leExpired a b).
Proof. unfold leExpired. destruct (_ =? _)%Z; apply _. Defined.

Definition findExpiredLeases (limit : nat) : statement Database (list ExpiredLease) :=
  λ now db,
  (take limit (merge_sort leExpired (omap (λ '(id, row),
     if isExpiredLease now row then
       Some {| exRunId := id; exSpaceId := rwSpace row; exFence := lcFence (rwLease row);
               exExpiresAt := default 0%Z (lcExpiresAt (rwLease row)) |}
     else None) (map_to_list (runRows db)))), db).

(** The command that starts a run, as the row it inserts: the id is fresh. *)
Definition insertRun (spaceId threadId runId : jstr) : statement Database (option RunRow) :=
  λ now db,
  match runRows db !! runId with
  | Some _ => (None, db)
  | None =>
      (Some (createdRun spaceId threadId now), withRunRow db runId (createdRun spaceId threadId now))
  end.
