(* ===== verification/Json.v ===== *)
(** Values on their way through a [jsonb] column: [JSON.stringify], what the
    column accepts of its text, and the equality of two stored values. *)

From S2P Require Import Prelude JsText JsValue Redaction.

(** What [JSON.stringify(v)] does: throw, answer [undefined], or write a text,
    given as the value that text denotes. *)
Inductive stringified := Throws | NoText | Text (v : jsval).

(** The elements of an array: one with no text is written [null]. *)
Fixpoint arrayItems (f : jsval → stringified) (items : list jsval) : option (list jsval) :=
  match items with
  | [] => Some []
  | v :: items' =>
      match f v with
      | Throws => None
      | NoText => (λ vs, JNull :: vs) <$> arrayItems f items'
      | Text w => (λ vs, w :: vs) <$> arrayItems f items'
      end
  end.

(** The properties of an object: one with no text is left out. *)
Fixpoint objectFields (f : jsval → stringified) (fields : jobject) : option jobject :=
  match fields with
  | [] => Some []
  | (k, v) :: fields' =>
      match f v with
      | Throws => None
      | NoText => objectFields f fields'
      | Text w => (λ vs, (k, w) :: vs) <$> objectFields f fields'
      end
  end.

Fixpoint stringify (v : jsval) : stringified :=
  match v with
  | JUndefined | JSymbol | JFunction => NoText
  | JBigInt _ => Throws
  | JNumber NNaN | JNumber (NInfinity _) => Text JNull
  | JNull | JBool _ | JNumber _ | JString _ => Text v
  | JArray items =>
      match arrayItems stringify items with Some vs => Text (JArray vs) | None => Throws end
  | JObject fields =>
      match objectFields stringify fields with Some vs => Text (JObject vs) | None => Throws end
  end.

(** ** The column *)

Definition isHighSurrogate (c : N) : bool := ((55296 <=? c) && (c <=? 56319))%N.
Definition isLowSurrogate (c : N) : bool := ((56320 <=? c) && (c <=? 57343))%N.

(** A text the column can hold: no NUL and no unpaired surrogate. *)
Fixpoint storableText (s : jstr) : bool :=
  match s with
  | [] => true
  | c :: s' =>
      if (c =? 0)%N || isLowSurrogate c then false
      else if isHighSurrogate c then
        match s' with d :: s'' => isLowSurrogate d && storableText s'' | [] => false end
      else storableText s'
  end.

(** [$n::jsonb] accepts the text of the value. *)
Fixpoint storable (v : jsval) : bool :=
  match v with
  | JString s => storableText s
  | JArray items => forallb storable items
  | JObject fields => forallb (λ kv, storableText kv.1 && storable kv.2) fields
  | _ => true
  end.

(** A string as a [text] parameter: rejected with a NUL, and otherwise encoded in
    UTF-8, which writes U+FFFD for an unpaired surrogate. *)
Fixpoint encodeText (s : jstr) : jstr :=
  match s with
  | [] => []
  | c :: s' =>
      if isLowSurrogate c then 65533%N :: encodeText s'
      else if isHighSurrogate c then
        match s' with
        | d :: s'' => if isLowSurrogate d then c :: d :: encodeText s'' else 65533%N :: encodeText s'
        | [] => [65533%N]
        end
      else c :: encodeText s'
  end.

Definition textParameter (s : jstr) : option jstr :=
  if includes [0%N] s then None else Some (encodeText s).

(** [$n::jsonb] of a text: rejected, or the value. *)
Definition jsonbParameter (v : jsval) : option jsval := if storable v then Some v else None.

(** Equality of two stored values: the order of an object's keys is not kept. *)
Fixpoint jsonbEq (v w : jsval) : bool :=
  match v, w with
  | JNull, JNull => true
  | JBool a, JBool b => Bool.eqb a b
  | JNumber a, JNumber b => bool_decide (a = b)
  | JString a, JString b => bool_decide (a = b)
  | JArray xs, JArray ys =>
      (fix items (xs ys : list jsval) : bool :=
         match xs, ys with
         | [], [] => true
         | x :: xs', y :: ys' => jsonbEq x y && items xs' ys'
         | _, _ => false
         end) xs ys
  | JObject fs, JObject gs =>
      (length fs =? length gs)%nat
      && forallb (λ kv, match lookupKey fst kv.1 gs with
                        | Some (_, w) => jsonbEq kv.2 w
                        | None => false
                        end) fs
  | _, _ => false
  end.

(** A JSON value: no key twice, and nothing JSON has no text for. *)
Fixpoint isJson (v : jsval) : bool :=
  match v with
  | JNull | JBool _ | JNumber (NInt _) | JNumber (NFrac _ _) | JString _ => true
  | JArray items => forallb isJson items
  | JObject fields => bool_decide (NoDup fields.*1) && forallb (λ kv, isJson kv.2) fields
  | _ => false
  end.

(** ** Lemmas *)

Lemma jsonbEq_refl v : isJson v = true → jsonbEq v v = true.
Proof.
  induction v as [items IH|fields IH|v Hi Hf] using jsval_nested_ind; intros H; cbn in H.
  - cbn [jsonbEq]. induction IH as [|x items Hx _ IHl]; [done|].
    cbn in H. bools. by rewrite Hx, IHl.
  - bools. cbn [jsonbEq]. rewrite Nat.eqb_refl. cbn [andb]. apply forallb_forall.
    intros [k x] Hx%list_elem_of_In. cbn [fst snd].
    match goal with Hn : NoDup fields.*1 |- _ => rewrite (lookupKey_elem fst k fields (k, x)) by done end.
    rewrite Forall_forall in IH. apply (IH _ Hx).
    match goal with Hj : forallb _ _ = true |- _ => rewrite forallb_forall in Hj;
      apply (Hj (k, x)) end. by apply list_elem_of_In.
  - destruct v as [| |b|n| |s| | |items|fields]; try done.
    + by destruct b.
    + by apply bool_decide_true.
    + by apply bool_decide_true.
    + by destruct (Hi items).
    + by destruct (Hf fields).
Qed.

(** Of a value without a BigInt and without a repeated key, the text is JSON. *)
Lemma arrayItems_isJson items :
  Forall (λ v, stringify v ≠ Throws ∧ ∀ w, stringify v = Text w → isJson w = true) items →
  ∃ vs, arrayItems stringify items = Some vs ∧ forallb isJson vs = true.
Proof.
  induction 1 as [|v items [Hn Hv] _ (vs & Hvs & Hj)]; [by exists []|].
  cbn [arrayItems]. destruct (stringify v) as [| |w]; [done|..]; rewrite Hvs.
  - by exists (JNull :: vs).
  - exists (w :: vs). cbn. by rewrite (Hv w eq_refl).
Qed.

Lemma objectFields_isJson (fields : jobject) :
  NoDup fields.*1 →
  Forall (λ kv, stringify kv.2 ≠ Throws ∧ ∀ w, stringify kv.2 = Text w → isJson w = true) fields →
  ∃ vs, objectFields stringify fields = Some vs ∧ NoDup vs.*1 ∧ (∀ k, k ∈ vs.*1 → k ∈ fields.*1) ∧
    forallb (λ kv, isJson kv.2) vs = true.
Proof.
  intros Hnd. induction 1 as [|[k v] fields [Hn Hv] _ IH]; [by exists []; repeat constructor|].
  rewrite fmap_cons in Hnd. apply NoDup_cons in Hnd as [Hk Hnd].
  destruct (IH Hnd) as (vs & Hvs & Hnv & Hin & Hj). cbn in Hn, Hv. cbn [objectFields].
  destruct (stringify v) as [| |w]; [done|..]; rewrite Hvs.
  - exists vs. split_and!; [done..| |done]. intros k' Hk'. right. by apply Hin.
  - exists ((k, w) :: vs). split_and!; [done|..].
    + rewrite fmap_cons. constructor; [by intros ?%Hin|done].
    + intros k'. rewrite !fmap_cons, !elem_of_cons. naive_solver.
    + cbn. by rewrite (Hv w eq_refl).
Qed.

Lemma stringify_clean v :
  clean v = true → stringify v ≠ Throws ∧ ∀ w, stringify v = Text w → isJson w = true.
Proof.
  induction v as [items IH|fields IH|v Hi Hf] using jsval_nested_ind; intros Hc; cbn [clean] in Hc.
  - destruct (arrayItems_isJson items) as (vs & Hvs & Hj).
    { rewrite Forall_forall in IH |- *. intros v Hv. apply IH; [done|].
      rewrite forallb_forall in Hc. apply Hc. by apply list_elem_of_In. }
    cbn [stringify]. rewrite Hvs. split; [done|]. by intros w [= <-].
  - bools. destruct (objectFields_isJson fields) as (vs & Hvs & Hn & _ & Hj); [done|..].
    { rewrite Forall_forall in IH |- *. intros kv Hkv. apply (IH kv); [done|].
      match goal with H : forallb _ _ = true |- _ => rewrite forallb_forall in H; apply H end.
      by apply list_elem_of_In. }
    cbn [stringify]. rewrite Hvs. split; [done|]. intros w [= <-]. cbn [isJson].
    by rewrite Hj, bool_decide_true.
  - destruct v as [| |b|[]|z| | | |items|fields]; try done;
      try (split; [done|intros w [= <-]; done]);
      [by destruct (Hi items)|by destruct (Hf fields)].
Qed.
