(* ===== verification/ToolCallLedger.v ===== *)
(** The durable half of tool dispatch, packages/db/src/tool-call-ledger.ts, over
    the [external_effect] rows: the claim, the two settlements and the read of a
    settled result. *)

From S2P Require Import Prelude JsText JsValue Redaction Json RunState Statements RunTables.

Record ToolCall := { callRunId : jstr; callId : jstr; callTool : jstr; callArguments : jsval }.

Inductive ToolCallAdmission :=
| Started
| AlreadyCompleted (result : option jsval)
| AlreadyFailed (error : jstr)
| StillInFlight
| CallIdReused.

Inductive ToolOutcome := CompletedWith (result : jsval) | FailedWith (error : jstr).

Definition unrecordableResultMessage : jstr := u "the tool result could not be recorded".

(** [storedError]: the recorded sentence, or a fixed one. *)
Definition storedError (result : option jsval) : jstr :=
  match default JNull result with
  | JObject fields =>
      match getField (u "error") fields with
      | JString error => if bool_decide (error = []) then u "the tool call failed" else error
      | _ => u "the tool call failed"
      end
  | _ => u "the tool call failed"
  end.

(** [value ?? null]. *)
Definition orNull (value : jsval) : jsval := match value with JUndefined => JNull | v => v end.

(** [JSON.stringify(result ?? null) ?? "null"]; [None] where it throws. *)
Definition serializeResult (result : jsval) : option jsval :=
  match stringify (orNull result) with
  | Throws => None
  | NoText => Some JNull
  | Text v => Some v
  end.

(** [JSON.stringify(redact(call.arguments ?? null)) ?? "null"]. *)
Definition argumentsJson (call : ToolCall) : option jsval :=
  match stringify (redact (orNull (callArguments call))) with
  | Throws => None
  | NoText => Some JNull
  | Text v => Some v
  end.

(** The claiming insert: [true] when this statement inserted the row. *)
Definition insertEffect (spaceId : jstr) (call : ToolCall) (request : jsval) :
    statement Database (result StoreError bool) :=
  λ _ db,
  if negb (storable request) then (Err DatabaseFailure, db)
  else
    match runRows db !! callRunId call with
    | Some row =>
        if bool_decide (rwSpace row = spaceId) then
          match effectRows db !! (callRunId call, callId call) with
          | Some _ => (Ok false, db)
          | None =>
              (Ok true,
               withEffects db
                 (<[(callRunId call, callId call) :=
                     {| efSpace := spaceId; efKind := callTool call; efStatus := ef_running;
                        efRequest := request; efResult := None |}]> (effectRows db)))
          end
        else (Ok false, db)
    | None => (Ok false, db)
    end.

(** The scoped read of a call's row. *)
Definition readEffect (spaceId : jstr) (call : ToolCall) :
    statement Database (option EffectRow) :=
  λ _ db,
  (match effectRows db !! (callRunId call, callId call) with
   | Some e => if bool_decide (efSpace e = spaceId) then Some e else None
   | None => None
   end, db).

Definition admit_existing (call : ToolCall) (request : jsval) (e : EffectRow) : ToolCallAdmission :=
  if negb (bool_decide (efKind e = callTool call)) || negb (jsonbEq (efRequest e) request)
  then CallIdReused
  else match efStatus e with
       | ef_completed => AlreadyCompleted (efResult e)
       | ef_failed => AlreadyFailed (storedError (efResult e))
       | _ => StillInFlight
       end.

(** [None] where [argumentsJson] throws before any statement. *)
Definition begin (spaceId : jstr) (call : ToolCall) :
    option (program Database (result StoreError ToolCallAdmission)) :=
  request ← argumentsJson call;
  Some (Query (insertEffect spaceId call request) (λ inserted,
    match inserted with
    | Err e => Done (Err e)
    | Ok true => Done (Ok Started)
    | Ok false =>
        Query (readEffect spaceId call) (λ existing,
        match existing with
        | None => Done (Err (NotFoundError (u "run") (callRunId call)))
        | Some e => Done (Ok (admit_existing call request e))
        end)
    end)).
(** The settling update: a claim that is still running takes the outcome. *)
Definition settleEffect (spaceId : jstr) (call : ToolCall) (status : EffectStatus)
    (parameter : option jsval) : statement Database (result StoreError bool) :=
  λ _ db,
  match parameter with
  | None => (Err DatabaseFailure, db)
  | Some stored =>
    match effectRows db !! (callRunId call, callId call) with
    | Some e =>
        if bool_decide (efSpace e = spaceId) && bool_decide (efStatus e = ef_running) then
          (Ok true,
           withEffects db
             (<[(callRunId call, callId call) :=
                 {| efSpace := efSpace e; efKind := efKind e; efStatus := status;
                    efRequest := efRequest e; efResult := Some stored |}]> (effectRows db)))
        else (Ok false, db)
    | None => (Ok false, db)
    end
  end.

(** [settled]: no row settled is a failure, never a silent success. *)
Definition settled (rows : result StoreError bool) (outcome : ToolOutcome) :
    result StoreError ToolOutcome :=
  match rows with
  | Err e => Err e
  | Ok false => Err ClaimLostError
  | Ok true => Ok outcome
  end.

Definition failClaim (spaceId : jstr) (call : ToolCall) (error : jstr) :
    program Database (result StoreError ToolOutcome) :=
  Query (settleEffect spaceId call ef_failed (errorResult <$> textParameter error)) (λ rows,
  Done (settled rows (FailedWith error))).

Definition complete (spaceId : jstr) (call : ToolCall) (value : jsval) :
    program Database (result StoreError ToolOutcome) :=
  match serializeResult value with
  | None => failClaim spaceId call unrecordableResultMessage
  | Some stored =>
      Query (settleEffect spaceId call ef_completed (jsonbParameter stored)) (λ rows,
      Done (settled rows (CompletedWith value)))
  end.

Definition fail (spaceId : jstr) (call : ToolCall) (error : jstr) :
    program Database (result StoreError ToolOutcome) := failClaim spaceId call error.

(** The reader behind an artifact pointer. *)
Definition readToolResult (spaceId threadId runId callId : jstr) :
    statement Database (option (jstr * option jsval)) :=
  λ _ db,
  (match effectRows db !! (runId, callId), runRows db !! runId with
   | Some e, Some row =>
       if bool_decide (efSpace e = spaceId) && bool_decide (rwSpace row = spaceId)
          && bool_decide (rwThread row = threadId) && bool_decide (efStatus e = ef_completed)
       then Some (efKind e, efResult e) else None
   | _, _ => None
   end, db).

Definition createToolResultReader (spaceId threadId runId callId : jstr) :
    program Database (result StoreError (jstr * option jsval)) :=
  Query (readToolResult spaceId threadId runId callId) (λ row,
  match row with
  | Some r => Done (Ok r)
  | None => Done (Err (NotFoundError (u "tool result") callId))
  end).

(** ** Lemmas *)

(** Redacted arguments always have a JSON text. *)
Lemma argumentsJson_isJson call : ∃ v, argumentsJson call = Some v ∧ isJson v = true.
Proof.
  unfold argumentsJson. set (value := orNull (callArguments call)).
  destruct (stringify_clean (redact value)) as [Hn Hj]; [apply convert_clean|].
  destruct (stringify (redact value)) as [| |w]; [done|by exists JNull|].
  exists w. split; [done|by apply Hj].
Qed.

Definition withArguments (call : ToolCall) (arguments : jsval) : ToolCall :=
  {| callRunId := callRunId call; callId := callId call; callTool := callTool call;
     callArguments := arguments |}.

Lemma argumentsJson_indistinguishable call arguments :
  indistinguishable 0 (callArguments call) arguments →
  argumentsJson (withArguments call arguments) = argumentsJson call.
Proof.
  intros H. unfold argumentsJson. cbn [callArguments withArguments].
  enough (redact (orNull arguments) = redact (orNull (callArguments call))) as -> by done.
  revert H. generalize (callArguments call). intros v H. symmetry.
  destruct v; [inversion H; by subst|..]; destruct arguments;
    try (by inversion H); by apply convert_indistinguishable.
Qed.

(** The ledger is blind to secrets: two calls under one id whose arguments differ
    only where redaction hides (under a sensitive name, below the depth limit, in a
    string too long to scan) are the same call to [begin], whatever statements it
    issues and whatever they answer. *)
Theorem begin_blind_to_secrets s call arguments :
  indistinguishable 0 (callArguments call) arguments →
  begin s (withArguments call arguments) = begin s call.
Proof.
  intros H. unfold begin. rewrite argumentsJson_indistinguishable by done. by destruct call.
Qed.

Lemma begin_blind_to_secrets_witness :
  let call := {| callRunId := u "r"; callId := u "c"; callTool := u "fetch";
                 callArguments := sampleSecret (u "one") |} in
  begin (u "space") (withArguments call (sampleSecret (u "two"))) = begin (u "space") call.
Proof. intros call. apply (begin_blind_to_secrets _ call), sampleSecret_indistinguishable. Defined.
