(* ===== verification/ApprovalStore.v ===== *)
(** The durable half of the approval gate, packages/db/src/approval-store.ts: the
    run opens a gate and settles its deadline, the operator votes. *)

From S2P Require Import Prelude JsText JsValue Json RunState Approvals Statements RunTables.

Record ApprovalRequest := {
  reqRunId : jstr; reqCallId : jstr; reqTool : jstr; reqArguments : jsval; reqExpiresAt : Z }.

Record ApprovalVoteInput := {
  voteRunId : jstr; voteCallId : jstr; vote : ApprovalVote; voteReason : option jstr }.

Record ApprovalVoteResult := { voteRecord : ApprovalRow; applied : bool }.

(** [JSON.stringify(request.arguments ?? {})]: throws, or the [jsonb] parameter;
    a value without a text is a null, which the column refuses. *)
Definition openArguments (arguments : jsval) : option (option jsval) :=
  let value := match arguments with JUndefined | JNull => JObject [] | v => v end in
  match stringify value with
  | Throws => None
  | NoText => Some None
  | Text v => Some (jsonbParameter v)
  end.

Definition findApproval (spaceId runId callId : jstr) : statement Database (option ApprovalRow) :=
  λ _ db,
  (match approvalRows db !! (runId, callId) with
   | Some a => if bool_decide (arSpace a = spaceId) then Some a else None
   | None => None
   end, db).

Definition insertApproval (spaceId : jstr) (r : ApprovalRequest) (parameter : option jsval) :
    statement Database (result StoreError (option ApprovalRow)) :=
  λ _ db,
  match parameter with
  | None => (Err DatabaseFailure, db)
  | Some arguments =>
      match runRows db !! reqRunId r with
      | Some row =>
          if bool_decide (rwSpace row = spaceId) then
            match approvalRows db !! (reqRunId r, reqCallId r) with
            | Some _ => (Ok None, db)
            | None =>
                let a := {| arSpace := spaceId; arTool := reqTool r; arArguments := arguments;
                            arStatus := pending; arExpiresAt := reqExpiresAt r;
                            arDecidedBy := None; arDecidedAt := None; arReason := None |} in
                (Ok (Some a), withApprovals db (<[(reqRunId r, reqCallId r) := a]> (approvalRows db)))
            end
          else (Ok None, db)
      | None => (Ok None, db)
      end
  end.

(** [None] where the arguments' serialization throws before any statement. *)
Definition open (spaceId : jstr) (r : ApprovalRequest) :
    option (program Database (result StoreError ApprovalRow)) :=
  parameter ← openArguments (reqArguments r);
  Some (Query (insertApproval spaceId r parameter) (λ inserted,
    match inserted with
    | Err e => Done (Err e)
    | Ok (Some a) => Done (Ok a)
    | Ok None =>
        Query (findApproval spaceId (reqRunId r) (reqCallId r)) (λ existing,
        match existing with
        | None => Done (Err (NotFoundError (u "run") (reqRunId r)))
        | Some a => Done (Ok a)
        end)
    end)).

(** A guarded resolution of a pending row. *)
Definition resolveWhere (spaceId runId callId : jstr) (due : Z → ApprovalRow → bool)
    (resolution : Z → ApprovalRow → ApprovalRow) : statement Database (option ApprovalRow) :=
  λ now db,
  match approvalRows db !! (runId, callId) with
  | Some a =>
      if bool_decide (arSpace a = spaceId) && isPendingApproval (arStatus a) && due now a
      then (Some (resolution now a),
            withApprovals db (<[(runId, callId) := resolution now a]> (approvalRows db)))
      else (None, db)
  | None => (None, db)
  end.

Definition timedOutRow (now : Z) (a : ApprovalRow) : ApprovalRow :=
  {| arSpace := arSpace a; arTool := arTool a; arArguments := arArguments a;
     arStatus := resolved timed_out; arExpiresAt := arExpiresAt a;
     arDecidedBy := arDecidedBy a; arDecidedAt := Some now; arReason := arReason a |}.

Definition timeoutApproval (spaceId runId callId : jstr) : statement Database (option ApprovalRow) :=
  resolveWhere spaceId runId callId (λ now a, (arExpiresAt a <=? now)%Z) timedOutRow.

Definition resolveTimeout (spaceId runId callId : jstr) :
    program Database (result StoreError ApprovalRow) :=
  Query (timeoutApproval spaceId runId callId) (λ timedOut,
  match timedOut with
  | Some a => Done (Ok a)
  | None =>
      Query (findApproval spaceId runId callId) (λ existing,
      match existing with
      | None => Done (Err (NotFoundError (u "approval") callId))
      | Some a => Done (Ok a)
      end)
  end).

(** The decision a vote records, and the reason only a denial carries. *)
Definition votedStatus (v : ApprovalVote) : ApprovalDecision :=
  match v with approve => approved | deny => denied end.

Definition votedReason (input : ApprovalVoteInput) : option jstr :=
  match vote input, voteReason input with
  | deny, Some reason => if bool_decide (reason = []) then None else Some reason
  | _, _ => None
  end.

Definition votedRow (userId : jstr) (input : ApprovalVoteInput) (now : Z) (a : ApprovalRow) :
    ApprovalRow :=
  {| arSpace := arSpace a; arTool := arTool a; arArguments := arArguments a;
     arStatus := resolved (votedStatus (vote input)); arExpiresAt := arExpiresAt a;
     arDecidedBy := Some userId; arDecidedAt := Some now; arReason := votedReason input |}.

Definition voteApproval (spaceId userId : jstr) (input : ApprovalVoteInput) :
    statement Database (option ApprovalRow) :=
  resolveWhere spaceId (voteRunId input) (voteCallId input)
    (λ now a, (now <? arExpiresAt a)%Z) (votedRow userId input).

Definition decide_ (spaceId userId : jstr) (input : ApprovalVoteInput) :
    program Database (result StoreError ApprovalVoteResult) :=
  let notApplied a := Ok {| voteRecord := a; applied := false |} in
  Query (voteApproval spaceId userId input) (λ voted,
  match voted with
  | Some a => Done (Ok {| voteRecord := a; applied := true |})
  | None =>
      Query (findApproval spaceId (voteRunId input) (voteCallId input)) (λ existing,
      match existing with
      | None => Done (Err (NotFoundError (u "approval") (voteCallId input)))
      | Some a =>
          if isPendingApproval (arStatus a) then
            Query (timeoutApproval spaceId (voteRunId input) (voteCallId input)) (λ timedOut,
            match timedOut with
            | Some a => Done (notApplied a)
            | None =>
                Query (findApproval spaceId (voteRunId input) (voteCallId input)) (λ again,
                match again with
                | None => Done (Err (NotFoundError (u "approval") (voteCallId input)))
                | Some a => Done (notApplied a)
                end)
            end)
          else Done (notApplied a)
      end)
  end).
