(* ===== verification/RunInterleaving.v ===== *)
(** Every statement over the run tables as a step, and what any interleaving of
    them keeps: rows only evolve the way their owners promise, whatever the clocks
    say. *)

From S2P Require Import Prelude JsText JsValue Json RunState Approvals RunLiveness Statements.
From S2P Require Import RunTables RunLeases ToolCallLedger ApprovalStore.

(** ** Steps *)

(** One statement of any caller, under any clock, in a history in which no bot is
    deleted: deleting a bot takes its runs, attempts, effects and approvals with it, and
    is not one of the steps. *)
Inductive dbStep (db : Database) : Database → Prop :=
| step_insertRun s t id now : dbStep db (insertRun s t id now db).2
| step_acquireRun s id f o mode now : dbStep db (acquireRun s id f o mode now db).2
| step_heartbeatRun s id lease p now : dbStep db (heartbeatRun s id lease p now db).2
| step_updateClaimedRun s id lease patch now : dbStep db (updateClaimedRun s id lease patch now db).2
| step_abandonAttempt s id f why now : dbStep db (abandonAttempt s id f why now db).2
| step_markRunStalled s id n now : dbStep db (markRunStalled s id n now db).2
| step_claimRunNotification s id now : dbStep db (claimRunNotification s id now db).2
| step_stopStatement s id now : dbStep db (stopStatement s id now db).2
| step_insertEffect s call v now : dbStep db (insertEffect s call v now db).2
| step_settleEffect s call st v now :
    st = ef_completed ∨ st = ef_failed → dbStep db (settleEffect s call st v now db).2
| step_insertApproval s r v now : dbStep db (insertApproval s r v now db).2
| step_voteApproval s who input now : dbStep db (voteApproval s who input now db).2
| step_timeoutApproval s id c now : dbStep db (timeoutApproval s id c now db).2.

(** ** How rows evolve *)

(** A terminal row: only the notification's claim may still touch it. *)
Definition frozen (r r' : RunRow) : Prop :=
  rwStatus r' = rwStatus r ∧ rwLease r' = rwLease r ∧ rwLiveness r' = rwLiveness r ∧
  rwOutcome r' = rwOutcome r ∧ rwStopRequestedAt r' = rwStopRequestedAt r.

Record runEvolves (r r' : RunRow) : Prop := {
  re_space : rwSpace r' = rwSpace r;
  re_thread : rwThread r' = rwThread r;
  re_status : rtc run_step (rwStatus r) (rwStatus r');
  re_fence : (lcFence (rwLease r) ≤ lcFence (rwLease r'))%Z;
  re_owner : lcFence (rwLease r') = lcFence (rwLease r) →
    lcOwner (rwLease r') = lcOwner (rwLease r) ∨ lcOwner (rwLease r') = None;
  re_frozen : isTerminalStatus (rwStatus r) = true → frozen r r';
  re_notified : rwNotifiedAt r ≠ None → rwNotifiedAt r' = rwNotifiedAt r;
  re_stop : rwStopRequestedAt r ≠ None → rwStopRequestedAt r' = rwStopRequestedAt r }.

Record attemptEvolves (a a' : AttemptRow) : Prop := {
  ae_started : atStartedAt a' = atStartedAt a;
  ae_closed : atStatus a ≠ at_running → a' = a }.

Record effectEvolves (e e' : EffectRow) : Prop := {
  ee_space : efSpace e' = efSpace e;
  ee_kind : efKind e' = efKind e;
  ee_request : efRequest e' = efRequest e;
  ee_settled : isInFlight (efStatus e) = false → e' = e }.

Record approvalEvolves (a a' : ApprovalRow) : Prop := {
  pe_space : arSpace a' = arSpace a;
  pe_tool : arTool a' = arTool a;
  pe_arguments : arArguments a' = arArguments a;
  pe_deadline : arExpiresAt a' = arExpiresAt a;
  pe_resolved : arStatus a ≠ pending → a' = a }.

(** No row is lost, and each evolves. *)
Definition mapEvolves `{Countable K} {A} (R : relation A) (m m' : gmap K A) : Prop :=
  ∀ k a, m !! k = Some a → ∃ a', m' !! k = Some a' ∧ R a a'.

Record dbEvolves (db db' : Database) : Prop := {
  de_runs : mapEvolves runEvolves (runRows db) (runRows db');
  de_attempts : mapEvolves attemptEvolves (attemptRows db) (attemptRows db');
  de_effects : mapEvolves effectEvolves (effectRows db) (effectRows db');
  de_approvals : mapEvolves approvalEvolves (approvalRows db) (approvalRows db') }.

#[export] Instance frozen_preorder : PreOrder frozen.
Proof.
  split; [done|]. intros r1 r2 r3 (? & ? & ? & ? & ?) (? & ? & ? & ? & ?).
  unfold frozen. split_and!; congruence.
Qed.

#[export] Instance runEvolves_preorder : PreOrder runEvolves.
Proof.
  split; [intros r; split; (done || by left)|].
  intros r1 r2 r3 [] []. split; try congruence.
  - by etrans.
  - lia.
  - intros Hf. destruct re_owner0 as [Ho|Hn]; [lia| |];
      (destruct re_owner1 as [Ho'|?]; [lia| |by right]); [left|right]; congruence.
  - intros Ht. etrans; [by apply re_frozen0|]. apply re_frozen1.
    destruct (re_frozen0 Ht) as [-> _]. done.
  - intros Hn. rewrite re_notified1; [auto|]. by rewrite re_notified0.
  - intros Hn. rewrite re_stop1; [auto|]. by rewrite re_stop0.
Qed.

#[export] Instance attemptEvolves_preorder : PreOrder attemptEvolves.
Proof.
  split; [by split|]. intros a b c [] []. split; [congruence|].
  intros H. specialize (ae_closed0 H). subst. auto.
Qed.

#[export] Instance effectEvolves_preorder : PreOrder effectEvolves.
Proof.
  split; [by split|]. intros a b c [] []. split; [congruence..|].
  intros H. specialize (ee_settled0 H). subst. auto.
Qed.

#[export] Instance approvalEvolves_preorder : PreOrder approvalEvolves.
Proof.
  split; [by split|]. intros a b c [] []. split; [congruence..|].
  intros H. specialize (pe_resolved0 H). subst. auto.
Qed.

#[export] Instance mapEvolves_preorder `{Countable K} {A} (R : relation A) `{!PreOrder R} :
  PreOrder (mapEvolves (K:=K) R).
Proof.
  split; [intros m k a Ha; by exists a|]. intros m1 m2 m3 H12 H23 k a Ha.
  destruct (H12 k a Ha) as (b & Hb & Hab). destruct (H23 k b Hb) as (c & Hc & Hbc).
  exists c. split; [done|]. by etrans.
Qed.

#[export] Instance dbEvolves_preorder : PreOrder dbEvolves.
Proof. split; [done|]. intros d1 d2 d3 [] []. split; by etrans. Qed.

(** ** Each table's writes evolve it *)

Lemma mapEvolves_insert `{Countable K} {A} (R : relation A) `{!PreOrder R} (m : gmap K A) k a :
  (∀ a0, m !! k = Some a0 → R a0 a) → mapEvolves R m (<[k := a]> m).
Proof.
  intros Ha k' b Hb. destruct (decide (k = k')) as [->|Hne].
  - exists a. rewrite lookup_insert_eq. auto.
  - exists b. by rewrite lookup_insert_ne.
Qed.

Lemma closeAttempt_evolves id f st e now m :
  mapEvolves attemptEvolves m (closeAttempt id f st e now m).
Proof.
  intros k a Ha. rewrite lookup_closeAttempt, Ha.
  destruct (bool_decide (k = _)); cbn [andb]; [|by exists a].
  destruct (decide (atStatus a = at_running)) as [Hr|Hr];
    [rewrite bool_decide_true by done|rewrite bool_decide_false by done; by exists a].
  eexists. split; [done|]. by split.
Qed.

Lemma settleEffects_evolves s id why m : mapEvolves effectEvolves m (settleEffects s id why m).
Proof.
  intros k e He. rewrite lookup_settleEffects, He. eexists. split; [done|].
  destruct (bool_decide _ && bool_decide _); cbn [andb]; [|done].
  destruct (isInFlight (efStatus e)) eqn:Hf; [|done]. split; (done || congruence).
Qed.

Lemma withRunRow_evolves db id r :
  (∀ r0, runRows db !! id = Some r0 → runEvolves r0 r) → dbEvolves db (withRunRow db id r).
Proof. intros H. split; cbn; [by apply mapEvolves_insert; [apply _|]|done..]. Qed.

Lemma withAttempts_evolves db m :
  mapEvolves attemptEvolves (attemptRows db) m → dbEvolves db (withAttempts db m).
Proof. by split. Qed.

Lemma withEffects_evolves db m :
  mapEvolves effectEvolves (effectRows db) m → dbEvolves db (withEffects db m).
Proof. by split. Qed.

Lemma withApprovals_evolves db m :
  mapEvolves approvalEvolves (approvalRows db) m → dbEvolves db (withApprovals db m).
Proof. by split. Qed.

(** ** The rows the statements write *)

Lemma executing_not_terminal s : isExecuting s = true → isTerminalStatus s = false.
Proof. by destruct s. Qed.

Lemma availability_executing mode now r :
  availabilityGuard mode now r = true →
  match mode with claim => rwStatus r = queued | _ => isExecuting (rwStatus r) = true end.
Proof. destruct mode; cbn [availabilityGuard]; intros H; bools; done. Qed.

Lemma acquiredRow_evolves mode o now r :
  availabilityGuard mode now r = true → runEvolves r (acquiredRow mode o now r).
Proof.
  intros Hg%availability_executing. split; cbn; try (done || lia).
  - destruct mode; [|done|done]. rewrite Hg. apply rtc_once, run_step_elem. compute_done.
  - intros Ht. exfalso. destruct mode;
      [by rewrite Hg in Ht|apply executing_not_terminal in Hg; congruence..].
Qed.

Lemma holdsLease_spec s l now r :
  holdsLease s l now r = true ↔
  rwSpace r = s ∧ lcOwner (rwLease r) = Some (rlOwner l) ∧ lcFence (rwLease r) = rlFence l ∧
  isExecuting (rwStatus r) = true ∧ leaseLive (rwLease r) now = true.
Proof.
  unfold holdsLease. rewrite !andb_true_iff, !bool_decide_eq_true, Z.eqb_eq. tauto.
Qed.

Lemma heartbeatRow_evolves s l p now r :
  holdsLease s l now r = true → runEvolves r (heartbeatRow p now r).
Proof.
  intros (_ & _ & _ & He & _)%holdsLease_spec. split; cbn; try (done || by left).
  intros Ht. apply executing_not_terminal in He. congruence.
Qed.

Lemma transitionGuard_step next s :
  isExecuting s = true → statusTransitionGuard next s = true →
  rtc run_step s (default s next).
Proof.
  intros He Hg. destruct next as [t|]; [|done]. cbn [default]. apply rtc_once, run_step_elem.
  destruct s, t; vm_compute in He, Hg; try done; compute_done.
Qed.

Lemma patchedRow_evolves s l patch now r :
  holdsLease s l now r = true → statusTransitionGuard (fpStatus patch) (rwStatus r) = true →
  runEvolves r (patchedRow patch now r).
Proof.
  intros (_ & _ & _ & He & _)%holdsLease_spec Hg. split; cbn; try done.
  - by apply transitionGuard_step.
  - destruct (fpRelease patch); cbn; lia.
  - destruct (fpRelease patch); cbn; auto.
  - intros Ht. apply executing_not_terminal in He. congruence.
Qed.

Lemma stalledRow_evolves n now r :
  stallCandidate n now r = true → runEvolves r (stalledRow now r).
Proof.
  unfold stallCandidate. intros H. bools. split; cbn; try (done || by left).
  intros Ht. match goal with Hr : rwStatus r = running |- _ => by rewrite Hr in Ht end.
Qed.

Lemma notifiedRow_evolves now r : rwNotifiedAt r = None → runEvolves r (notifiedRow now r).
Proof. intros H. split; cbn; (done || by left). Qed.

Lemma active_not_terminal s : s ∈ ACTIVE_RUN_STATUSES → isTerminalStatus s = false.
Proof.
  intros [_ H]%list_elem_of_In%List.filter_In. by apply negb_true_iff in H.
Qed.

Lemma stoppingRow_evolves now r :
  rwStatus r ∈ ACTIVE_RUN_STATUSES → runEvolves r (stoppingRow now r).
Proof.
  intros Ha%active_not_terminal. split; cbn; try (done || by left); [congruence|].
  by destruct (rwStopRequestedAt r).
Qed.

(** ** The statements *)

Lemma record_evolves mode id f now db db' : record mode id f now db = Some db' → dbEvolves db db'.
Proof.
  unfold record. destruct (recordsAttempt mode); [|by intros [= <-]].
  destruct (attemptRows db !! (id, f)) as [a|] eqn:E; [done|]. intros [= <-].
  apply withAttempts_evolves, mapEvolves_insert; [apply _|]. intros a0. by rewrite E.
Qed.

Lemma reconcile_evolves mode s id f now db : dbEvolves db (reconcile mode s id f now db).
Proof.
  destruct mode; cbn [reconcile]; [done| |done].
  etrans; [apply withAttempts_evolves, closeAttempt_evolves|].
  apply withEffects_evolves, settleEffects_evolves.
Qed.

Lemma acquireRun_evolves s id f o mode now db : dbEvolves db (acquireRun s id f o mode now db).2.
Proof.
  unfold acquireRun. destruct (runRows db !! id) as [r|] eqn:Er; [|done].
  destruct (bool_decide _ && _ && _) eqn:Hg; [|done]. bools.
  destruct (INTEGER_MAX <? _)%Z; [done|].
  destruct (record _ _ _ _ _) as [db'|] eqn:Erec; [|done]. cbn [snd].
  etrans; [|apply reconcile_evolves]. etrans; [|by eapply record_evolves].
  apply withRunRow_evolves. intros r0 Hr0. rewrite Er in Hr0. injection Hr0 as <-.
  by apply acquiredRow_evolves.
Qed.

(** A statement that rewrites the one row it found. *)
Lemma rewrite_row_evolves db id r r' :
  runRows db !! id = Some r → runEvolves r r' → dbEvolves db (withRunRow db id r').
Proof. intros Hr He. apply withRunRow_evolves. intros r0 Hr0. congruence. Qed.

Lemma heartbeatRun_evolves s id l p now db : dbEvolves db (heartbeatRun s id l p now db).2.
Proof.
  unfold heartbeatRun. destruct (runRows db !! id) as [r|] eqn:Er; [|done].
  destruct (holdsLease s l now r) eqn:Hh; [|done]. destruct (stepToolAllowed _ _); [|done].
  eapply rewrite_row_evolves; [done|]. by eapply heartbeatRow_evolves.
Qed.

Lemma updateClaimedRun_evolves s id l patch now db :
  dbEvolves db (updateClaimedRun s id l patch now db).2.
Proof.
  unfold updateClaimedRun. destruct (runRows db !! id) as [r|] eqn:Er; [|done].
  destruct (holdsLease s l now r && _) eqn:Hh; [|done]. bools. cbn [snd].
  trans (withRunRow db id (patchedRow patch now r)).
  { eapply rewrite_row_evolves; [done|]. by eapply patchedRow_evolves. }
  unfold settlePatchEffects, settleAttempt.
  destruct (fpAttempt patch), (fpSettleInFlight patch);
    repeat (etrans; [|apply withEffects_evolves, settleEffects_evolves]);
    repeat (etrans; [|apply withAttempts_evolves, closeAttempt_evolves]); done.
Qed.

Lemma abandonAttempt_evolves s id f why now db :
  dbEvolves db (abandonAttempt s id f why now db).2.
Proof.
  unfold abandonAttempt. destruct (attemptRows db !! (id, f)) as [a|]; [|done].
  destruct (runRows db !! id) as [r|]; [|done]. destruct (_ && _); [|done].
  apply withAttempts_evolves, closeAttempt_evolves.
Qed.

Lemma mark_statements_evolve db :
  (∀ s id n now, dbEvolves db (markRunStalled s id n now db).2) ∧
  (∀ s id now, dbEvolves db (claimRunNotification s id now db).2) ∧
  (∀ s id now, dbEvolves db (stopStatement s id now db).2).
Proof.
  split_and!; intros.
  - unfold markRunStalled. destruct (runRows db !! id) as [r|] eqn:Er; [|done].
    destruct (_ && _) eqn:Hg; [|done]. bools. eapply rewrite_row_evolves; [done|].
    by eapply stalledRow_evolves.
  - unfold claimRunNotification. destruct (runRows db !! id) as [r|] eqn:Er; [|done].
    destruct (_ && _ && _) eqn:Hg; [|done]. bools. eapply rewrite_row_evolves; [done|].
    by apply notifiedRow_evolves.
  - unfold stopStatement. destruct (runRows db !! id) as [r|] eqn:Er; [|done].
    destruct (_ && _) eqn:Hg; [|done]. bools. eapply rewrite_row_evolves; [done|].
    by apply stoppingRow_evolves.
Qed.

Lemma insertRun_evolves s t id now db : dbEvolves db (insertRun s t id now db).2.
Proof.
  unfold insertRun. destruct (runRows db !! id) eqn:E; [done|].
  apply withRunRow_evolves. by rewrite E.
Qed.

Lemma effect_statements_evolve db :
  (∀ s call v now, dbEvolves db (insertEffect s call v now db).2) ∧
  (∀ s call st v now, dbEvolves db (settleEffect s call st v now db).2).
Proof.
  split; intros.
  - unfold insertEffect. destruct (negb _); [done|].
    destruct (runRows db !! _) as [r|]; [|done]. destruct (bool_decide _); [|done].
    destruct (effectRows db !! _) eqn:E; [done|].
    apply withEffects_evolves, mapEvolves_insert; [apply _|]. by rewrite E.
  - unfold settleEffect. destruct v as [v|]; [|done].
    destruct (effectRows db !! _) as [e|] eqn:E; [|done]. destruct (_ && _) eqn:Hg; [|done].
    bools. apply withEffects_evolves, mapEvolves_insert; [apply _|]. intros e0 He0.
    rewrite E in He0. injection He0 as <-. split; cbn; try done.
    match goal with Hs : efStatus e = ef_running |- _ => by rewrite Hs end.
Qed.

Lemma resolveWhere_evolves s id c due res now db :
  (∀ now a, arStatus a = pending → approvalEvolves a (res now a)) →
  dbEvolves db (resolveWhere s id c due res now db).2.
Proof.
  intros Hres. unfold resolveWhere. destruct (approvalRows db !! _) as [a|] eqn:E; [|done].
  destruct (_ && _ && _) eqn:Hg; [|done]. unfold isPendingApproval in Hg. bools.
  apply withApprovals_evolves, mapEvolves_insert; [apply _|]. intros a0 Ha0.
  rewrite E in Ha0. injection Ha0 as <-. by apply Hres.
Qed.

Lemma approval_statements_evolve db :
  (∀ s r v now, dbEvolves db (insertApproval s r v now db).2) ∧
  (∀ s who input now, dbEvolves db (voteApproval s who input now db).2) ∧
  (∀ s id c now, dbEvolves db (timeoutApproval s id c now db).2).
Proof.
  split_and!; intros.
  - unfold insertApproval. destruct v as [v|]; [|done].
    destruct (runRows db !! _) as [row|]; [|done]. destruct (bool_decide _); [|done].
    destruct (approvalRows db !! _) eqn:E; [done|].
    apply withApprovals_evolves, mapEvolves_insert; [apply _|]. by rewrite E.
  - apply resolveWhere_evolves. intros now' a Ha. split; (done || congruence).
  - apply resolveWhere_evolves. intros now' a Ha. split; (done || congruence).
Qed.

Lemma dbStep_evolves db db' : dbStep db db' → dbEvolves db db'.
Proof.
  destruct (mark_statements_evolve db) as (H1 & H2 & H3).
  destruct (effect_statements_evolve db) as (H4 & H5).
  destruct (approval_statements_evolve db) as (H6 & H7 & H8).
  intros []; auto using insertRun_evolves, acquireRun_evolves, heartbeatRun_evolves,
    updateClaimedRun_evolves, abandonAttempt_evolves.
Qed.

Lemma dbSteps_evolve db db' : rtc dbStep db db' → dbEvolves db db'.
Proof. induction 1 as [|d1 d2 d3 H _ IH]; [done|]. etrans; [by apply dbStep_evolves|done]. Qed.

(** ** The invariant *)

Definition runOk (r : RunRow) : Prop :=
  (0 ≤ lcFence (rwLease r))%Z ∧
  (lcOwner (rwLease r) = None ↔ lcExpiresAt (rwLease r) = None) ∧
  (rwStatus r = queued ↔ lcFence (rwLease r) = 0%Z) ∧
  (rwStatus r = queued → lcOwner (rwLease r) = None) ∧
  (rwStatus r ≠ queued → lvHeartbeatAt (rwLiveness r) ≠ None ∧ lvProgressAt (rwLiveness r) ≠ None).

(** A claim has no outcome yet, a settled effect has one. *)
Definition effectOk (e : EffectRow) : Prop :=
  match efStatus e with
  | ef_running => efResult e = None
  | ef_completed | ef_failed => efResult e ≠ None
  | ef_pending | ef_cancelled => False
  end.

(** A resolution agrees with the deadline and with who made it. *)
Definition approvalOk (a : ApprovalRow) : Prop :=
  match arStatus a with
  | pending => arDecidedBy a = None ∧ arDecidedAt a = None ∧ arReason a = None
  | resolved timed_out =>
      arDecidedBy a = None ∧ arReason a = None ∧
      ∃ t, arDecidedAt a = Some t ∧ (arExpiresAt a ≤ t)%Z
  | resolved d =>
      arDecidedBy a ≠ None ∧ (d = approved → arReason a = None) ∧
      ∃ t, arDecidedAt a = Some t ∧ (t < arExpiresAt a)%Z
  end.

Definition hasRun (db : Database) (id s : jstr) : Prop :=
  ∃ r, runRows db !! id = Some r ∧ rwSpace r = s.

Definition fencedBy (db : Database) (id : jstr) (f : Z) : Prop :=
  ∃ r, runRows db !! id = Some r ∧ (1 ≤ f ≤ lcFence (rwLease r))%Z.

Record dbWf (db : Database) : Prop := {
  wf_run id r : runRows db !! id = Some r → runOk r;
  wf_attempt id f a : attemptRows db !! (id, f) = Some a → fencedBy db id f;
  wf_effect id k e : effectRows db !! (id, k) = Some e → hasRun db id (efSpace e) ∧ effectOk e;
  wf_approval id c a :
    approvalRows db !! (id, c) = Some a → hasRun db id (arSpace a) ∧ approvalOk a }.

Lemma hasRun_evolves db db' id s : dbEvolves db db' → hasRun db id s → hasRun db' id s.
Proof.
  intros He (r & Hr & <-). destruct (de_runs _ _ He id r Hr) as (r' & Hr' & Hev).
  exists r'. split; [done|]. apply Hev.
Qed.

Lemma fencedBy_evolves db db' id f : dbEvolves db db' → fencedBy db id f → fencedBy db' id f.
Proof.
  intros He (r & Hr & Hf). destruct (de_runs _ _ He id r Hr) as (r' & Hr' & Hev).
  exists r'. split; [done|]. pose proof (re_fence _ _ Hev). lia.
Qed.

(** What a statement has to show of the rows it wrote. *)
Lemma dbWf_build db db' :
  dbWf db → dbEvolves db db' →
  (∀ id r, runRows db' !! id = Some r → runRows db !! id = Some r ∨ runOk r) →
  (∀ id f a, attemptRows db' !! (id, f) = Some a →
     is_Some (attemptRows db !! (id, f)) ∨ fencedBy db' id f) →
  (∀ id k e, effectRows db' !! (id, k) = Some e →
     effectRows db !! (id, k) = Some e ∨ (hasRun db' id (efSpace e) ∧ effectOk e)) →
  (∀ id c a, approvalRows db' !! (id, c) = Some a →
     approvalRows db !! (id, c) = Some a ∨ (hasRun db' id (arSpace a) ∧ approvalOk a)) →
  dbWf db'.
Proof.
  intros Hwf He Hr Ha Hef Hap. split.
  - intros id r H. destruct (Hr id r H) as [H0|?]; [by eapply wf_run|done].
  - intros id f a H. destruct (Ha id f a H) as [[a0 H0]|?]; [|done].
    eapply fencedBy_evolves; [done|]. by eapply wf_attempt.
  - intros id k e H. destruct (Hef id k e H) as [H0|?]; [|done].
    destruct (wf_effect _ Hwf _ _ _ H0). split; [by eapply hasRun_evolves|done].
  - intros id c a H. destruct (Hap id c a H) as [H0|?]; [|done].
    destruct (wf_approval _ Hwf _ _ _ H0). split; [by eapply hasRun_evolves|done].
Qed.

Lemma withRunRow_lookup db id r id' r' :
  runRows (withRunRow db id r) !! id' = Some r' →
  (id' = id ∧ r' = r) ∨ runRows db !! id' = Some r'.
Proof. cbn. rewrite lookup_insert_Some. naive_solver. Qed.

(** Writing one well-formed run row keeps the rest. *)
Lemma withRunRow_wf db id r :
  dbWf db → dbEvolves db (withRunRow db id r) → runOk r → dbWf (withRunRow db id r).
Proof.
  intros Hwf He Hr. eapply dbWf_build; [done|done|..]; cbn; eauto.
  intros id' r' [[-> ->]|?]%withRunRow_lookup; auto.
Qed.

Lemma withAttempts_close_wf db id f st e now :
  dbWf db → dbWf (withAttempts db (closeAttempt id f st e now (attemptRows db))).
Proof.
  intros Hwf. eapply dbWf_build; [done|apply withAttempts_evolves, closeAttempt_evolves|..];
    cbn; eauto.
  intros id' f' a. rewrite lookup_closeAttempt. destruct (attemptRows db !! _); [by left|done].
Qed.

Lemma withEffects_settle_wf db s id why :
  dbWf db → dbWf (withEffects db (settleEffects s id why (effectRows db))).
Proof.
  intros Hwf. pose proof (withEffects_evolves db _ (settleEffects_evolves s id why _)) as He.
  eapply dbWf_build; [done|exact He|..]; cbn; eauto.
  intros id' k e'. rewrite lookup_settleEffects.
  destruct (effectRows db !! (id', k)) as [e|] eqn:E; [|done]. cbn [fmap option_fmap option_map].
  intros [= <-]. destruct (_ && _ && _); [|by left]. right.
  destruct (wf_effect _ Hwf _ _ _ E) as [Hh _]. split; [|done]. by eapply hasRun_evolves.
Qed.

Lemma availability_fence_pos mode now r f :
  runOk r → availabilityGuard mode now r = true → lcFence (rwLease r) = f → (0 ≤ f)%Z.
Proof. intros (? & _) _ <-. done. Qed.

Lemma acquiredRow_ok mode o now r :
  runOk r → availabilityGuard mode now r = true → runOk (acquiredRow mode o now r).
Proof.
  intros (Hf & _ & Hq & _ & _) Hg%availability_executing. unfold runOk. cbn.
  assert ((if match mode with claim => true | _ => false end then running else rwStatus r)
    ≠ queued) as Hs.
  { destruct mode; [done|..]; by intros Hs; rewrite Hs in Hg. }
  split_and!; [lia|done| |by intros ?|done]. split; [by intros ?|lia].
Qed.

Lemma record_wf mode id r now db db' :
  dbWf (withRunRow db id r) → (1 ≤ lcFence (rwLease r))%Z →
  record mode id (lcFence (rwLease r)) now (withRunRow db id r) = Some db' → dbWf db'.
Proof.
  intros Hwf Hf Hr. pose proof (record_evolves _ _ _ _ _ _ Hr) as He. unfold record in Hr.
  destruct (recordsAttempt mode); [|by injection Hr as <-].
  destruct (attemptRows (withRunRow db id r) !! _); [done|]. injection Hr as <-.
  eapply dbWf_build; [done|done|..]; cbn; eauto.
  intros id' f' a [[[= <- <-] _]|[_ ?]]%lookup_insert_Some; [right|left; eauto].
  exists r. cbn. rewrite lookup_insert_eq. split; [done|lia].
Qed.

Lemma acquireRun_wf s id f o mode now db : dbWf db → dbWf (acquireRun s id f o mode now db).2.
Proof.
  intros Hwf. unfold acquireRun. destruct (runRows db !! id) as [r|] eqn:Er; [|done].
  destruct (bool_decide _ && _ && _) eqn:Hg; [|done]. bools.
  destruct (INTEGER_MAX <? _)%Z; [done|].
  destruct (record _ _ _ _ _) as [db'|] eqn:Erec; [|done]. cbn [snd].
  pose proof (wf_run _ Hwf _ _ Er) as Hok. assert (dbWf db') as Hwf'.
  { eapply (record_wf mode id (acquiredRow mode o now r)); [|cbn; destruct Hok; lia|done]. apply withRunRow_wf; [done| |].
    - eapply rewrite_row_evolves; [done|]. by apply acquiredRow_evolves.
    - by apply acquiredRow_ok. }
  destruct mode; cbn [reconcile]; [done| |done].
  rewrite (eq_refl : effectRows db' =
    effectRows (withAttempts db' (closeAttempt id f at_abandoned (Some (roReason options)) now
      (attemptRows db')))).
  by apply withEffects_settle_wf, withAttempts_close_wf.
Qed.

Lemma executing_not_queued s : isExecuting s = true → s ≠ queued.
Proof. by intros H ->. Qed.

Lemma heartbeatRun_wf s id l p now db : dbWf db → dbWf (heartbeatRun s id l p now db).2.
Proof.
  intros Hwf. pose proof (heartbeatRun_evolves s id l p now db) as He. revert He.
  unfold heartbeatRun. destruct (runRows db !! id) as [r|] eqn:Er; [|done].
  destruct (holdsLease s l now r) eqn:Hh; [|done]. destruct (stepToolAllowed _ _); [|done].
  intros He. apply withRunRow_wf; [done|done|].
  apply holdsLease_spec in Hh as (_ & Ho & _ & Hx & _).
  destruct (wf_run _ Hwf _ _ Er) as (H1 & H2 & H3 & H4 & H5). unfold runOk. cbn.
  rewrite Ho. split_and!; [done|by split|done|intros Hq; by rewrite Hq in Hx|].
  intros Hq. destruct (H5 Hq) as [_ Hp]. split; [done|]. destruct (psProgressed p); [done|].
  by destruct (lvProgressAt (rwLiveness r)).
Qed.

Lemma patchedRow_ok s l patch now r :
  runOk r → holdsLease s l now r = true →
  statusTransitionGuard (fpStatus patch) (rwStatus r) = true → runOk (patchedRow patch now r).
Proof.
  intros (H1 & H2 & H3 & H4 & H5) (_ & _ & _ & Hx & _)%holdsLease_spec Hg.
  pose proof (executing_not_queued _ Hx) as Hnq.
  assert (default (rwStatus r) (fpStatus patch) ≠ queued) as Hnq'.
  { destruct (fpStatus patch) as [[]|]; done. }
  assert (lcFence (rwLease r) ≠ 0%Z) as Hf by tauto.
  assert (lvHeartbeatAt (rwLiveness (patchedRow patch now r)) ≠ None ∧
    lvProgressAt (rwLiveness (patchedRow patch now r)) ≠ None) as Hlv.
  { cbn. destruct (match fpStatus patch with Some s => isTerminalStatus s | None => false end); auto. }
  unfold runOk. destruct (fpRelease patch) eqn:Hrel; cbn; rewrite Hrel; cbn in *; tauto.
Qed.

Lemma updateClaimedRun_wf s id l patch now db :
  dbWf db → dbWf (updateClaimedRun s id l patch now db).2.
Proof.
  intros Hwf. unfold updateClaimedRun. destruct (runRows db !! id) as [r|] eqn:Er; [|done].
  destruct (holdsLease s l now r && _) eqn:Hh; [|done]. bools. cbn [snd].
  assert (dbWf (withRunRow db id (patchedRow patch now r))) as Hw.
  { apply withRunRow_wf; [done| |].
    - eapply rewrite_row_evolves; [done|]. by eapply patchedRow_evolves.
    - eapply patchedRow_ok; [|done..]. by eapply wf_run. }
  revert Hw. generalize (withRunRow db id (patchedRow patch now r)). intros db1 Hw.
  unfold settlePatchEffects, settleAttempt.
  destruct (fpAttempt patch), (fpSettleInFlight patch); try done.
  - by apply (withEffects_settle_wf (withAttempts db1 _)), withAttempts_close_wf.
  - by apply withAttempts_close_wf.
  - by apply withEffects_settle_wf.
Qed.

Lemma mark_statements_wf db :
  dbWf db →
  (∀ s id n now, dbWf (markRunStalled s id n now db).2) ∧
  (∀ s id now, dbWf (claimRunNotification s id now db).2) ∧
  (∀ s id now, dbWf (stopStatement s id now db).2).
Proof.
  intros Hwf. destruct (mark_statements_evolve db) as (E1 & E2 & E3). split_and!; intros.
  - specialize (E1 s id n now). revert E1. unfold markRunStalled.
    destruct (runRows db !! id) as [r|] eqn:Er; [|done]. destruct (_ && _); [|done].
    intros He. apply withRunRow_wf; [done|done|]. apply (wf_run _ Hwf _ _ Er).
  - specialize (E2 s id now). revert E2. unfold claimRunNotification.
    destruct (runRows db !! id) as [r|] eqn:Er; [|done]. destruct (_ && _); [|done].
    intros He. apply withRunRow_wf; [done|done|]. apply (wf_run _ Hwf _ _ Er).
  - specialize (E3 s id now). revert E3. unfold stopStatement.
    destruct (runRows db !! id) as [r|] eqn:Er; [|done]. destruct (_ && _); [|done].
    intros He. apply withRunRow_wf; [done|done|]. apply (wf_run _ Hwf _ _ Er).
Qed.

Lemma insertRun_wf s t id now db : dbWf db → dbWf (insertRun s t id now db).2.
Proof.
  intros Hwf. pose proof (insertRun_evolves s t id now db) as He. revert He. unfold insertRun.
  destruct (runRows db !! id); [done|]. intros He. by apply withRunRow_wf.
Qed.

Lemma effect_statements_wf db :
  dbWf db →
  (∀ s call v now, dbWf (insertEffect s call v now db).2) ∧
  (∀ s call st v now, st = ef_completed ∨ st = ef_failed →
     dbWf (settleEffect s call st v now db).2).
Proof.
  intros Hwf. destruct (effect_statements_evolve db) as (E1 & E2). split; intros s call.
  - intros v now. specialize (E1 s call v now). revert E1. unfold insertEffect.
    destruct (negb _); [done|]. destruct (runRows db !! _) as [r|] eqn:Er; [|done].
    destruct (bool_decide _) eqn:Hs; [|done]. bools. destruct (effectRows db !! _); [done|].
    intros He. eapply dbWf_build; [done|exact He|..]; cbn; eauto.
    intros id k e [[[= <- <-] <-]|[_ ?]]%lookup_insert_Some; [right|by left].
    split; [by exists r|done].
  - intros st v now Hst. specialize (E2 s call st v now). revert E2. unfold settleEffect.
    destruct v as [v|]; [|done]. destruct (effectRows db !! _) as [e0|] eqn:E; [|done].
    destruct (_ && _); [|done]. intros He. eapply dbWf_build; [done|exact He|..]; cbn; eauto.
    intros id k e [[[= <- <-] <-]|[_ ?]]%lookup_insert_Some; [right|by left]. split.
    + destruct (wf_effect _ Hwf _ _ _ E) as [Hh _]. eapply hasRun_evolves; [exact He|done].
    + unfold effectOk. cbn. by destruct Hst as [-> | ->].
Qed.

Lemma resolveWhere_wf s id c due res now db :
  (∀ now a, arStatus a = pending → approvalEvolves a (res now a)) →
  (∀ now a, arStatus a = pending → approvalOk a → due now a = true → approvalOk (res now a)) →
  dbWf db → dbWf (resolveWhere s id c due res now db).2.
Proof.
  intros Hev Hok Hwf. pose proof (resolveWhere_evolves s id c due res now db Hev) as He.
  revert He. unfold resolveWhere. destruct (approvalRows db !! _) as [a0|] eqn:E; [|done].
  destruct (_ && _ && _) eqn:Hg; [|done]. unfold isPendingApproval in Hg. bools. intros He.
  destruct (wf_approval _ Hwf _ _ _ E) as [Hh Ha].
  eapply dbWf_build; [done|exact He|..]; cbn; eauto.
  intros id' c' a [[[= <- <-] <-]|[_ ?]]%lookup_insert_Some; [right|by left]. split.
  - eapply hasRun_evolves; [exact He|].
    match goal with Hp : arStatus a0 = pending |- _ => by rewrite (pe_space _ _ (Hev now _ Hp)) end.
  - by apply Hok.
Qed.

Lemma timedOutRow_evolves now a : arStatus a = pending → approvalEvolves a (timedOutRow now a).
Proof. intros Ha. split; (done || congruence). Qed.

Lemma votedRow_evolves who input now a :
  arStatus a = pending → approvalEvolves a (votedRow who input now a).
Proof. intros Ha. split; (done || congruence). Qed.

Lemma approval_statements_wf db :
  dbWf db →
  (∀ s r v now, dbWf (insertApproval s r v now db).2) ∧
  (∀ s who input now, dbWf (voteApproval s who input now db).2) ∧
  (∀ s id c now, dbWf (timeoutApproval s id c now db).2).
Proof.
  intros Hwf. destruct (approval_statements_evolve db) as (E1 & _ & _). split_and!.
  - intros s r v now. specialize (E1 s r v now). revert E1. unfold insertApproval.
    destruct v as [v|]; [|done]. destruct (runRows db !! _) as [row|] eqn:Er; [|done].
    destruct (bool_decide _) eqn:Hs; [|done]. bools. destruct (approvalRows db !! _); [done|].
    intros He. eapply dbWf_build; [done|exact He|..]; cbn; eauto.
    intros id c a [[[= <- <-] <-]|[_ ?]]%lookup_insert_Some; [right|by left].
    split; [by exists row|done].
  - intros. apply resolveWhere_wf; [auto using votedRow_evolves| |done].
    intros now' a Ha Hok Hdue%Z.ltb_lt. unfold approvalOk. cbn. unfold votedReason.
    destruct (vote input); cbn; split_and!; (done || by eexists).
  - intros. apply resolveWhere_wf; [auto using timedOutRow_evolves| |done].
    intros now' a Ha Hok Hdue%Z.leb_le. unfold approvalOk in Hok. rewrite Ha in Hok.
    destruct Hok as (? & ? & ?). unfold approvalOk. cbn. split_and!; [done..|by eexists].
Qed.

Lemma dbStep_wf db db' : dbWf db → dbStep db db' → dbWf db'.
Proof.
  intros Hwf. destruct (mark_statements_wf db Hwf) as (H1 & H2 & H3).
  destruct (effect_statements_wf db Hwf) as (H4 & H5).
  destruct (approval_statements_wf db Hwf) as (H6 & H7 & H8).
  intros []; auto using insertRun_wf, acquireRun_wf, heartbeatRun_wf, updateClaimedRun_wf.
  unfold abandonAttempt. destruct (attemptRows db !! _) as [a|]; [|done].
  destruct (runRows db !! id) as [r|]; [|done]. destruct (_ && _); [|done].
  by apply withAttempts_close_wf.
Qed.

Lemma dbSteps_wf db db' : dbWf db → rtc dbStep db db' → dbWf db'.
Proof. induction 2; eauto using dbStep_wf. Qed.

(** ** Small databases the witnesses share *)
#[local] Open Scope Z_scope.

Definition emptyDatabase : Database :=
  {| runRows := ∅; attemptRows := ∅; effectRows := ∅; approvalRows := ∅ |}.

Definition r1 : jstr := u "r1".
Definition oneRun : Database := (insertRun (u "space") (u "thread") r1 0 emptyDatabase).2.
Definition claimed : Database := (claimRun (u "space") r1 0 (u "a") 0 oneRun).2.

Lemma empty_wf : dbWf emptyDatabase.
Proof. by split. Qed.

Lemma claimed_wf : dbWf claimed.
Proof. by apply acquireRun_wf, insertRun_wf, empty_wf. Qed.
