(* ===== verification/RunFencing.v ===== *)
(** What the lease and fence of packages/db/src/run-leases.ts guarantee among any
    number of workers, watchdogs and operators. *)

From S2P Require Import Prelude JsText JsValue Json RunState Approvals RunLiveness Statements.
From S2P Require Import RunTables RunLeases ToolCallLedger ApprovalStore RunInterleaving.

(** ** Leases that have lost *)

(** The lease can no longer write the row. *)
Definition lost (lease : RunLease) (r : RunRow) : Prop :=
  (rlFence lease < lcFence (rwLease r))%Z ∨
  (rlFence lease = lcFence (rwLease r) ∧ lcOwner (rwLease r) ≠ Some (rlOwner lease)) ∨
  isTerminalStatus (rwStatus r) = true.

Lemma lost_evolves lease r r' : runEvolves r r' → lost lease r → lost lease r'.
Proof.
  intros Hev [Hf|[[Hf Ho]|Ht]]; pose proof (re_fence _ _ Hev) as Hle.
  - left. lia.
  - destruct (decide (lcFence (rwLease r') = lcFence (rwLease r))) as [He|Hne].
    + right; left. split; [lia|]. destruct (re_owner _ _ Hev He) as [-> | ->]; done.
    + left. lia.
  - right; right. destruct (re_frozen _ _ Hev Ht) as [-> _]. done.
Qed.

Lemma lost_not_held s lease now r : lost lease r → holdsLease s lease now r = false.
Proof.
  intros Hl. apply not_true_iff_false. intros (_ & Ho & Hf & Hx & _)%holdsLease_spec.
  apply executing_not_terminal in Hx. destruct Hl as [?|[[_ ?]|?]]; [lia|done|congruence].
Qed.

(** Neither write of a lost lease changes anything. *)
Definition powerless (db : Database) (id : jstr) (lease : RunLease) : Prop :=
  ∀ s now,
    (∀ p, heartbeatRun s id lease p now db = (Err (LeaseLostError id), db)) ∧
    (∀ patch, updateClaimedRun s id lease patch now db = (Err (LeaseLostError id), db)).

Lemma lost_powerless db id r lease :
  runRows db !! id = Some r → lost lease r → powerless db id lease.
Proof.
  intros Hr Hl s now. pose proof (lost_not_held s lease now r Hl) as Hh. split; intros x.
  - unfold heartbeatRun. by rewrite Hr, Hh.
  - unfold updateClaimedRun. by rewrite Hr, Hh.
Qed.

Lemma lost_forever db db' id r lease :
  runRows db !! id = Some r → lost lease r → rtc dbStep db db' → powerless db' id lease.
Proof.
  intros Hr Hl Hs. destruct (de_runs _ _ (dbSteps_evolve _ _ Hs) id r Hr) as (r' & Hr' & Hev).
  eapply lost_powerless; [done|]. by eapply lost_evolves.
Qed.

(** ** Acquisition *)

Lemma acquireRun_ok s id f o mode now db row db1 :
  acquireRun s id f o mode now db = (Ok (Some row), db1) →
  ∃ r, runRows db !! id = Some r ∧ rwSpace r = s ∧ lcFence (rwLease r) = f ∧
    availabilityGuard mode now r = true ∧ row = acquiredRow mode o now r ∧
    (f + 1 ≤ INTEGER_MAX)%Z ∧
    ∃ db', record mode id (f + 1) now (withRunRow db id row) = Some db' ∧
           db1 = reconcile mode s id f now db'.
Proof.
  unfold acquireRun. destruct (runRows db !! id) as [r|]; [|done].
  destruct (bool_decide _ && _ && _) eqn:Hg; [|done]. bools. subst f.
  destruct (INTEGER_MAX <? _)%Z eqn:Hm; [done|]. apply Z.ltb_ge in Hm.
  destruct (record _ _ _ _ _) as [db'|] eqn:Erec; [|done].
  intros [= <- <-]. exists r. split_and!; try done. by exists db'.
Qed.

Lemma record_runs mode id f now db db' :
  record mode id f now db = Some db' →
  runRows db' = runRows db ∧ effectRows db' = effectRows db ∧ approvalRows db' = approvalRows db.
Proof. unfold record. dms; naive_solver. Qed.

Lemma reconcile_runs mode s id f now db :
  runRows (reconcile mode s id f now db) = runRows db ∧
  approvalRows (reconcile mode s id f now db) = approvalRows db.
Proof. by destruct mode. Qed.

Lemma acquireRun_row s id f o mode now db row db1 :
  acquireRun s id f o mode now db = (Ok (Some row), db1) →
  runRows db1 !! id = Some row ∧ lcFence (rwLease row) = (f + 1)%Z ∧
  lcOwner (rwLease row) = Some o.
Proof.
  intros (r & Hr & _ & Hf & _ & -> & _ & db' & Hrec & ->)%acquireRun_ok.
  apply record_runs in Hrec as (Hruns & _ & _).
  rewrite (proj1 (reconcile_runs _ _ _ _ _ _)), Hruns. cbn. rewrite lookup_insert_eq, Hf. done.
Qed.

Lemma acquireRun_moved s id f o mode now db r :
  runRows db !! id = Some r → lcFence (rwLease r) ≠ f →
  acquireRun s id f o mode now db = (Ok None, db).
Proof.
  intros Hr Hne. unfold acquireRun. rewrite Hr, (proj2 (Z.eqb_neq _ _) Hne).
  by rewrite andb_false_r.
Qed.

(** The unique index of attempts never refuses an acquisition. *)
Lemma record_total mode id f now db :
  dbWf db → (∀ r, runRows db !! id = Some r → (lcFence (rwLease r) < f)%Z) →
  ∀ row, is_Some (record mode id f now (withRunRow db id row)).
Proof.
  intros Hwf Hf row. unfold record. destruct (recordsAttempt mode); [|done].
  cbn. destruct (attemptRows db !! (id, f)) as [a|] eqn:E; [|done]. exfalso.
  destruct (wf_attempt _ Hwf _ _ _ E) as (r & Hr & Hle). specialize (Hf r Hr). lia.
Qed.

(** What an acquisition leaves beside the row. *)
Definition acquired (mode : AcquireMode) (id : jstr) (f now : Z) (db1 : Database) : Prop :=
  (recordsAttempt mode = true →
     attemptRows db1 !! (id, f + 1)%Z =
       Some {| atStatus := at_running; atError := None; atStartedAt := now; atFinishedAt := None |}) ∧
  (∀ options, mode = reclaim options →
     (∀ a, attemptRows db1 !! (id, f) = Some a → atStatus a ≠ at_running) ∧
     (∀ k e, effectRows db1 !! (id, k) = Some e → isInFlight (efStatus e) = false)).

Lemma record_attempt mode id f now db db' :
  record mode id f now db = Some db' → recordsAttempt mode = true →
  attemptRows db' !! (id, f) =
    Some {| atStatus := at_running; atError := None; atStartedAt := now; atFinishedAt := None |}.
Proof.
  unfold record. intros Hr Hm. rewrite Hm in Hr.
  destruct (attemptRows db !! (id, f)); [done|]. injection Hr as <-. apply lookup_insert_eq.
Qed.

Lemma acquireRun_acquired s id f o mode now db row db1 :
  dbWf db → acquireRun s id f o mode now db = (Ok (Some row), db1) → acquired mode id f now db1.
Proof.
  intros Hwf (r & Hr & Hs & Hf & _ & -> & _ & db' & Hrec & ->)%acquireRun_ok.
  pose proof (record_attempt _ _ _ _ _ _ Hrec) as Hatt.
  pose proof (record_runs _ _ _ _ _ _ Hrec) as (_ & Heff & _). split.
  - intros Hm. specialize (Hatt Hm). destruct mode as [|options|]; cbn [reconcile]; [done| |done].
    cbn. rewrite lookup_closeAttempt, Hatt, bool_decide_false; [done|]. intros [=]. lia.
  - intros options ->. cbn [reconcile]. cbn. split.
    + intros a. rewrite lookup_closeAttempt. destruct (attemptRows db' !! (id, f)) as [a0|]; [|done].
      rewrite bool_decide_true by done. cbn [andb].
      destruct (bool_decide (atStatus a0 = at_running)) eqn:Hs'; bools; by intros [= <-].
    + intros k e. rewrite lookup_settleEffects, Heff. cbn.
      destruct (effectRows db !! (id, k)) as [e0|] eqn:Ee; [|done]. cbn.
      destruct (wf_effect _ Hwf _ _ _ Ee) as [(r0 & Hr0 & Hsp) _].
      rewrite Hr in Hr0. injection Hr0 as <-.
      rewrite !bool_decide_true by congruence. cbn [andb].
      destruct (isInFlight (efStatus e0)) eqn:Hi; by intros [= <-].
Qed.

(** ** Liveness and the row *)

(** The row as [assessRunLiveness] reads it: the driver's [Date]s are milliseconds. *)
Definition livenessOf (r : RunRow) : RunLivenessSnapshot :=
  {| rowStatus := rwStatus r; leaseOwner := lcOwner (rwLease r);
     stopRequestedAt := columnDate <$> rwStopRequestedAt r;
     lastHeartbeatAt := columnDate <$> lvHeartbeatAt (rwLiveness r);
     rowLastProgressAt := columnDate <$> lvProgressAt (rwLiveness r);
     currentStep := lvStep (rwLiveness r); currentStepTool := lvStepTool (rwLiveness r) |}.

Definition assessedStuck (r : RunRow) (nowMs threshold : Z) : Prop :=
  ∃ l, assessRunLiveness (livenessOf r) nowMs threshold = Some l ∧ livenessState l = stuck.

(** The assessment of a running, live, unstopped row that is not waiting. *)
Lemma assessedStuck_iff r nowMs threshold progress :
  (0 ≤ threshold)%Z → rwStatus r = running → lcOwner (rwLease r) ≠ None → lvHeartbeatAt (rwLiveness r) ≠ None →
  lvProgressAt (rwLiveness r) = Some progress → rwStopRequestedAt r = None →
  lvStep (rwLiveness r) ≠ Some waiting →
  assessedStuck r nowMs threshold ↔ (threshold * 1000 < nowMs - progress / 1000)%Z.
Proof.
  intros H0 Hs Ho Hb Hp Hstop Hw. unfold assessedStuck, assessRunLiveness. cbn.
  rewrite Hs, Hp, Hstop. cbn [bool_decide andb fmap option_fmap option_map].
  destruct (lcOwner (rwLease r)); [|done]. destruct (lvHeartbeatAt (rwLiveness r)); [|done]. cbn.
  rewrite (bool_decide_false (lvStep _ = Some waiting)) by done. cbn [orb].
  unfold elapsedMs, columnDate. destruct (Z.ltb_spec (threshold * 1000) (Z.max 0 (nowMs - progress / 1000))).
  - split; [lia|]. intros _. by eexists.
  - split; [by intros (x & [= <-] & ?)|]. lia.
Qed.

(** The tracker's steps satisfy the row's constraint. *)
Lemma note_step_allowed p e now :
  (λ st, stepToolAllowed (Some (stepKind st)) (stepTool st)) <$> step p ≠ Some false →
  (λ st, stepToolAllowed (Some (stepKind st)) (stepTool st)) <$> step (note p e now) ≠ Some false.
Proof.
  intros _. destruct e as [| | |callId ?|callId d ?| | | | | |]; cbn; try done;
    try destruct (inFlightTool p callId); try destruct d; done.
Qed.

Lemma track_step_allowed start ops :
  (λ st, stepToolAllowed (Some (stepKind st)) (stepTool st)) <$> step (track start ops) ≠ Some false.
Proof.
  induction ops as [|op ops IH] using rev_ind; [done|]. unfold track. rewrite foldl_snoc.
  destruct op as [e now|now]; cbn [trackerStep].
  - by apply note_step_allowed.
  - done.
Qed.

Definition stampOf (snap : RunProgressSnapshot) : RunProgressStamp :=
  {| psProgressed := snapProgressed snap; psIdleSeconds := snapIdleSeconds snap;
     psStep := snapStep snap |}.

(** ** Properties *)

(** The rows follow the run state machine: under any interleaving of every caller's
    statements a run is never lost, its status moves only along legal transitions,
    its fence never decreases, a terminal run keeps its status, lease, outcome and
    stop mark for good, and a notification or a stop request, once recorded, keeps
    its instant. *)
Theorem run_rows_follow_machine db db' id r :
  rtc dbStep db db' → runRows db !! id = Some r →
  ∃ r', runRows db' !! id = Some r' ∧
    rtc run_step (rwStatus r) (rwStatus r') ∧ rwSpace r' = rwSpace r ∧
    (lcFence (rwLease r) ≤ lcFence (rwLease r'))%Z ∧
    (isTerminalStatus (rwStatus r) = true → frozen r r') ∧
    (rwNotifiedAt r ≠ None → rwNotifiedAt r' = rwNotifiedAt r) ∧
    (rwStopRequestedAt r ≠ None → rwStopRequestedAt r' = rwStopRequestedAt r).
Proof.
  intros Hs Hr. destruct (de_runs _ _ (dbSteps_evolve _ _ Hs) id r Hr) as (r' & Hr' & []).
  exists r'. split_and!; done.
Qed.

(** C1. Fencing: once an acquisition succeeds, every other lease of the run up to its
    fence is powerless for ever — a heartbeat and a fenced write both report the
    lease lost and change nothing, whatever happens in between and whatever the
    clocks say — and no later acquisition can start from the fence it left or from
    an older one. *)
Theorem acquire_fences_out s id f o mode now db row db1 db' :
  acquireRun s id f o mode now db = (Ok (Some row), db1) → rtc dbStep db1 db' →
  (∀ lease, (rlFence lease ≤ f + 1)%Z → lease ≠ {| rlOwner := o; rlFence := f + 1 |} →
     powerless db' id lease) ∧
  (∀ f' s' o' mode' now', (f' ≤ f)%Z → acquireRun s' id f' o' mode' now' db' = (Ok None, db')).
Proof.
  intros Ha Hs. destruct (acquireRun_row _ _ _ _ _ _ _ _ _ Ha) as (Hr & Hf & Ho). split.
  - intros [lo lf] Hle Hne. cbn in Hle. eapply lost_forever; [exact Hr| |exact Hs].
    destruct (decide (lf = f + 1)%Z) as [->|]; [|left; cbn; lia].
    right; left. cbn. split; [done|]. rewrite Ho. congruence.
  - intros f' s' o' mode' now' Hle.
    destruct (de_runs _ _ (dbSteps_evolve _ _ Hs) id row Hr) as (r' & Hr' & Hev).
    eapply acquireRun_moved; [done|]. pose proof (re_fence _ _ Hev). lia.
Qed.

(** Acquisition, exactly: in any reachable database a claim, a reclaim or an
    adoption succeeds just when the row is in the actor's space at the expected
    fence and its guard holds — the attempts' unique index never refuses it, only
    the end of the fence column can — the new fence has its running attempt, and a
    reclaim leaves the previous attempt closed and nothing of the run in flight.
    Otherwise nothing changes. *)
Theorem acquireRun_exact s id f o mode now db :
  dbWf db →
  match runRows db !! id with
  | Some r =>
      if bool_decide (rwSpace r = s) && (lcFence (rwLease r) =? f)%Z && availabilityGuard mode now r
      then
        if (INTEGER_MAX <? f + 1)%Z then acquireRun s id f o mode now db = (Err DatabaseFailure, db)
        else ∃ db1, acquireRun s id f o mode now db = (Ok (Some (acquiredRow mode o now r)), db1) ∧
               runRows db1 = <[id := acquiredRow mode o now r]> (runRows db) ∧
               acquired mode id f now db1 ∧ dbWf db1 ∧ dbEvolves db db1
      else acquireRun s id f o mode now db = (Ok None, db)
  | None => acquireRun s id f o mode now db = (Ok None, db)
  end.
Proof.
  intros Hwf. destruct (runRows db !! id) as [r|] eqn:Er; [|by unfold acquireRun; rewrite Er].
  pose proof (acquireRun_acquired s id f o mode now db (acquiredRow mode o now r)) as Hacq.
  pose proof (acquireRun_wf s id f o mode now db Hwf) as Hw.
  pose proof (acquireRun_evolves s id f o mode now db) as He.
  destruct (bool_decide _ && _ && _) eqn:Hg; unfold acquireRun in *; rewrite Er, Hg in *; [|done].
  bools. subst f. cbn in *. destruct (INTEGER_MAX <? _)%Z; [done|].
  destruct (record_total mode id (lcFence (rwLease r) + 1) now db Hwf
    ltac:(intros r0 Hr0; rewrite Er in Hr0; injection Hr0 as <-; lia)
    (acquiredRow mode o now r)) as [db' Hrec]. rewrite Hrec in *.
  eexists. split; [done|]. split.
  { rewrite (proj1 (reconcile_runs _ _ _ _ _ _)).
    by destruct (record_runs _ _ _ _ _ _ Hrec) as (-> & _). }
  split; [by eapply Hacq|done].
Qed.

(** Heartbeats: a beat stamped with the tracker's snapshot, whatever events it has
    seen, never violates the row's constraint — it renews exactly when the lease
    holds and otherwise reports it lost — and a renewed row is live for the whole
    time to live, keeps its fence, owner and status, moves its progress instant only
    when there was progress, and only then clears a stall. *)
Theorem heartbeat_renews s id lease start ops nowMs now db :
  let snap := (snapshot (track start ops) nowMs).1 in
  match heartbeatRun s id lease (stampOf snap) now db with
  | (Ok row, db1) =>
      ∃ r, runRows db !! id = Some r ∧ holdsLease s lease now r = true ∧
        db1 = withRunRow db id row ∧ rwStatus row = rwStatus r ∧
        lcFence (rwLease row) = lcFence (rwLease r) ∧ lcOwner (rwLease row) = lcOwner (rwLease r) ∧
        (∀ t, (now ≤ t < now + RUN_LEASE_TTL_SECONDS * SECOND)%Z → leaseLive (rwLease row) t = true) ∧
        (snapProgressed snap = false →
           lvStalledAt (rwLiveness row) = lvStalledAt (rwLiveness r) ∧
           (lvProgressAt (rwLiveness r) ≠ None →
              lvProgressAt (rwLiveness row) = lvProgressAt (rwLiveness r))) ∧
        (snapProgressed snap = true →
           lvStalledAt (rwLiveness row) = None ∧
           lvProgressAt (rwLiveness row) = Some (now - snapIdleSeconds snap * SECOND)%Z)
  | (Err e, db1) =>
      e = LeaseLostError id ∧ db1 = db ∧
      ∀ r, runRows db !! id = Some r → holdsLease s lease now r = false
  end.
Proof.
  intros snap. unfold heartbeatRun.
  destruct (runRows db !! id) as [r|] eqn:Er; [|by split_and!; intros].
  destruct (holdsLease s lease now r) eqn:Hh; [|split_and!; [done..|]; by intros r' [= <-]].
  assert (stepToolAllowed (lvStep (rwLiveness (heartbeatRow (stampOf snap) now r)))
            (lvStepTool (rwLiveness (heartbeatRow (stampOf snap) now r))) = true) as Hok.
  { pose proof (track_step_allowed start ops) as Ht. cbn. subst snap. cbn.
    destruct (step (track start ops)) as [st|]; [|done]. cbn in *.
    by destruct (stepToolAllowed _ _). }
  rewrite Hok. exists r. cbn. split_and!; try done.
  - intros t Ht. unfold leaseLive. cbn. apply Z.ltb_lt. lia.
  - intros ->. split; [done|]. by destruct (lvProgressAt (rwLiveness r)).
  - by intros ->.
Qed.

(** The watchdog's scan and the assessment name the same runs: a row the scan (and
    the mark that re-checks it) calls stalled is assessed stuck from the next
    millisecond on, and a row assessed stuck is a candidate of the scan unless its
    lease has expired — a reclaim's business — or its episode is already marked. *)
Theorem stall_scan_agrees db id r threshold now :
  dbWf db → runRows db !! id = Some r → (0 ≤ threshold)%Z →
  (∀ nowMs, (now / 1000 < nowMs)%Z → stallCandidate threshold now r = true →
     assessedStuck r nowMs threshold) ∧
  (assessedStuck r (now / 1000)%Z threshold → leaseLive (rwLease r) now = true →
     lvStalledAt (rwLiveness r) = None → stallCandidate threshold now r = true).
Proof.
  intros Hwf Hr H0. destruct (wf_run _ Hwf _ _ Hr) as (_ & _ & _ & _ & Hlv). split.
  - intros nowMs Hms. unfold stallCandidate. intros H. bools.
    destruct (lvProgressAt (rwLiveness r)) as [p|] eqn:Hp; [|done]. bools.
    match goal with Hs : rwStatus r = running |- _ => rename Hs into Hrun end.
    rewrite Hrun in Hlv. destruct Hlv as [Hb _]; [done|].
    apply (assessedStuck_iff r nowMs threshold p); try done. unfold SECOND in *.
    pose proof (Z.div_mod now 1000). pose proof (Z.mod_pos_bound now 1000).
    pose proof (Z.div_mod p 1000). pose proof (Z.mod_pos_bound p 1000). lia.
  - intros Hst Hlive Hn.
    assert (rwStatus r = running ∧ lcOwner (rwLease r) ≠ None ∧ rwStopRequestedAt r = None ∧
      lvStep (rwLiveness r) ≠ Some waiting) as (Hrun & Ho & Hstop & Hw).
    { destruct Hst as (l & Hl & Hst). unfold assessRunLiveness in Hl. cbn in Hl.
      destruct (bool_decide _ && _) eqn:H1; [done|].
      destruct (lcOwner (rwLease r)); [|done]. destruct (lvHeartbeatAt _); [|done]. cbn in Hl.
      destruct (lvProgressAt _); [|done]. cbn in Hl.
      destruct (bool_decide _) eqn:H2 in Hl; [by injection Hl as <-|].
      destruct (bool_decide _ || _) eqn:H3 in Hl; [by injection Hl as <-|]. bools.
      split_and!; [|done| |done]; [by destruct H1; bools; apply dec_stable|].
      destruct (rwStopRequestedAt r); [|done]. by apply dec_stable in H2. }
    rewrite Hrun in Hlv. destruct Hlv as [Hb Hpn]; [done|].
    destruct (lvProgressAt (rwLiveness r)) as [p|] eqn:Hp; [|done].
    apply (assessedStuck_iff r _ threshold p) in Hst; try done.
    unfold stallCandidate. rewrite Hlive, Hn, Hp, Hrun, Hstop.
    rewrite !bool_decide_true by done. cbn [andb]. apply Z.ltb_lt. unfold SECOND.
    pose proof (Z.div_mod now 1000). pose proof (Z.mod_pos_bound now 1000).
    pose proof (Z.div_mod p 1000). pose proof (Z.mod_pos_bound p 1000). lia.
Qed.

(** ** Witnesses *)
#[local] Open Scope Z_scope.

(** The deadline of the claim has passed. *)
Definition late : Z := (RUN_LEASE_TTL_SECONDS * SECOND)%Z.

Definition takeover : ReclaimOptions := {| roReason := u "expired"; roRecordAttempt := None |}.
Definition reclaimed : Database := (reclaimRun (u "space") r1 1 (u "b") takeover late claimed).2.

Lemma run_rows_follow_machine_witness :
  ∃ r', runRows reclaimed !! r1 = Some r' ∧ rtc run_step running (rwStatus r').
Proof.
  assert (rtc dbStep claimed reclaimed) as Hs
    by (apply rtc_once, (step_acquireRun claimed (u "space") r1 1 (u "b") (reclaim takeover) late)).
  assert (∃ r, runRows claimed !! r1 = Some r ∧ rwStatus r = running) as (r & Hr & Hst)
    by (eexists; split; vm_compute; reflexivity).
  destruct (run_rows_follow_machine claimed reclaimed r1 r Hs Hr) as (r' & Hr' & Hp & _).
  exists r'. split; [exact Hr'|]. rewrite <- Hst. exact Hp.
Defined.

Lemma acquire_fences_out_witness :
  powerless reclaimed r1 {| rlOwner := u "a"; rlFence := 1 |} ∧
  acquireRun (u "space") r1 1 (u "c") (reclaim takeover) (late + late) reclaimed = (Ok None, reclaimed).
Proof.
  assert (∃ row, acquireRun (u "space") r1 1 (u "b") (reclaim takeover) late claimed =
    (Ok (Some row), reclaimed)) as [row Ha] by (eexists; vm_compute; reflexivity).
  destruct (acquire_fences_out _ _ _ _ _ _ _ _ _ reclaimed Ha (rtc_refl _ _)) as [H1 H2].
  split; [apply H1; [vm_compute; discriminate|discriminate]|apply H2; vm_compute; discriminate].
Defined.

Lemma acquireRun_exact_witness :
  ∃ db1, acquireRun (u "space") r1 0 (u "a") claim 0 oneRun =
    (Ok (Some (acquiredRow claim (u "a") 0 (createdRun (u "space") (u "thread") 0))), db1).
Proof.
  assert (dbWf oneRun) as Hwf by (apply insertRun_wf, empty_wf).
  pose proof (acquireRun_exact (u "space") r1 0 (u "a") claim 0 oneRun Hwf) as H.
  assert (runRows oneRun !! r1 = Some (createdRun (u "space") (u "thread") 0)) as Hr
    by (vm_compute; reflexivity).
  rewrite Hr in H. cbn in H. destruct H as (db1 & H & _). exists db1. exact H.
Defined.

Definition quiet : Z := 100 * SECOND.

Lemma stall_scan_agrees_witness :
  ∃ r, runRows claimed !! r1 = Some r ∧ stallCandidate 60 quiet r = true ∧ assessedStuck r 100001 60.
Proof.
  assert (∃ r, runRows claimed !! r1 = Some r ∧ stallCandidate 60 quiet r = true) as (r & Hr & Hc)
    by (eexists; split; [vm_compute; reflexivity|vm_compute; reflexivity]).
  exists r. split; [exact Hr|]. split; [exact Hc|].
  assert (0 ≤ 60) as Hle by lia. assert (quiet / 1000 < 100001) as Hlt by (vm_compute; reflexivity).
  destruct (stall_scan_agrees claimed r1 r 60 quiet claimed_wf Hr Hle) as [H _].
  exact (H 100001 Hlt Hc).
Defined.
