(* ===== verification/RunOnce.v ===== *)
(** What happens once: a tool call is admitted and settled once
    (packages/db/src/tool-call-ledger.ts), a gate is resolved once
    (packages/db/src/approval-store.ts). *)

From S2P Require Import Prelude JsText JsValue Json RunState Approvals Statements RunTables.
From S2P Require Import RunLeases ToolCallLedger ApprovalStore RunInterleaving.

Lemma effect_kept db db' key e :
  rtc dbStep db db' → effectRows db !! key = Some e →
  ∃ e', effectRows db' !! key = Some e' ∧ effectEvolves e e'.
Proof. intros Hs He. apply (de_effects _ _ (dbSteps_evolve _ _ Hs) key e He). Qed.

Lemma approval_kept db db' key a :
  rtc dbStep db db' → approvalRows db !! key = Some a →
  ∃ a', approvalRows db' !! key = Some a' ∧ approvalEvolves a a'.
Proof. intros Hs Ha. apply (de_approvals _ _ (dbSteps_evolve _ _ Hs) key a Ha). Qed.

(** ** The ledger *)

Abbreviation keyOf call := (callRunId call, callId call).

Lemma insertEffect_true s call v now db db1 :
  insertEffect s call v now db = (Ok true, db1) →
  storable v = true ∧ effectRows db1 !! keyOf call =
    Some {| efSpace := s; efKind := callTool call; efStatus := ef_running; efRequest := v;
            efResult := None |}.
Proof.
  unfold insertEffect. destruct (storable v); cbn [negb]; [|done].
  destruct (runRows db !! _) as [r|]; [|done]. destruct (bool_decide _); [|done].
  destruct (effectRows db !! _); [done|]. intros [= <-]. split; [done|]. apply lookup_insert_eq.
Qed.

(** With a row under the key the insert claims nothing. *)
Lemma insertEffect_taken s call v now db e :
  effectRows db !! keyOf call = Some e →
  (insertEffect s call v now db).2 = db ∧ (insertEffect s call v now db).1 ≠ Ok true ∧
  (storable v = true → (insertEffect s call v now db).1 = Ok false).
Proof.
  intros He. unfold insertEffect. destruct (storable v); cbn [negb]; [|done].
  destruct (runRows db !! _) as [r|]; [|done]. destruct (bool_decide _); [|done].
  by rewrite He.
Qed.

Lemma begin_issues s call p : begin s call = Some p → issues (isStep dbStep) p.
Proof.
  unfold begin. destruct (argumentsJson call) as [v|]; [|done]. intros [= <-].
  cbn [issues]. split; [intros now db; apply rtc_once, step_insertEffect|].
  intros [[|]|]; cbn [issues]; [done| |done]. split; [by intros now db|]. by intros [e|].
Qed.

(** A [begin] that meets a row: it never starts, and in the row's own space it
    answers for the row as it stands at its last statement. *)
Lemma begin_taken s call p now db a db' e :
  begin s call = Some p → effectRows db !! keyOf call = Some e →
  runs dbStep p now db a db' →
  a ≠ Ok Started ∧
  ∃ e', effectRows db' !! keyOf call = Some e' ∧ effectEvolves e e' ∧
    ∀ v, argumentsJson call = Some v → storable v = true → efSpace e = s →
      a = Ok (admit_existing call v e').
Proof.
  intros Hb He. unfold begin in Hb. destruct (argumentsJson call) as [v|]; [|done].
  injection Hb as <-. cbn [runs]. intros (n1 & d1 & _ & H1 & Hr).
  destruct (effect_kept _ _ _ _ H1 He) as (e1 & He1 & Hev1).
  destruct (insertEffect_taken s call v n1 d1 e1 He1) as (Hdb & Hne & Hst).
  destruct (insertEffect s call v n1 d1) as [x d1']. cbn [fst snd] in *. subst d1'.
  destruct x as [[|]|err]; cbn [runs] in Hr; [done| |].
  - destruct Hr as (n2 & d2 & _ & H2 & Hr). destruct (effect_kept _ _ _ _ H2 He1) as (e2 & He2 & Hev2).
    assert (effectEvolves e e2) as Hev by (by etrans).
    unfold readEffect in Hr. rewrite He2 in Hr. cbn [fst snd] in Hr.
    destruct (bool_decide (efSpace e2 = s)) eqn:Hs; cbn [runs] in Hr; destruct Hr as [-> ->].
    + split; [|exists e2; split_and!; [done..|]; by intros v' [= <-]].
      unfold admit_existing. destruct (_ || _); [done|]. by destruct (efStatus e2).
    + split; [done|]. exists e2. split_and!; [done..|]. intros ? _ _ Hs'. bools.
      destruct Hs. rewrite (ee_space _ _ Hev). done.
  - destruct Hr as [-> ->]. split; [done|]. exists e1. split_and!; [done..|].
    intros v' [= <-] Hv. by specialize (Hst Hv).
Qed.

Lemma begin_started s call p now db db1 :
  begin s call = Some p → runs dbStep p now db (Ok Started) db1 →
  ∃ v, argumentsJson call = Some v ∧ storable v = true ∧
    effectRows db1 !! keyOf call =
      Some {| efSpace := s; efKind := callTool call; efStatus := ef_running; efRequest := v;
              efResult := None |}.
Proof.
  unfold begin. destruct (argumentsJson call) as [v|]; [|done]. intros [= <-]. cbn [runs].
  intros (n1 & d1 & _ & H1 & Hr). exists v. split; [done|].
  destruct (insertEffect s call v n1 d1) as [x d2] eqn:Hi. cbn [fst snd] in Hr.
  destruct x as [[|]|err]; cbn [runs] in Hr.
  - destruct Hr as [_ ->]. by apply insertEffect_true in Hi.
  - destruct Hr as (n2 & d3 & _ & H2 & Hr). unfold readEffect in Hr. cbn [fst snd] in Hr.
    destruct (effectRows d3 !! _) as [e|]; [|cbn [runs] in Hr; by destruct Hr].
    destruct (bool_decide (efSpace e = s)); cbn [runs] in Hr; destruct Hr as [Hr _]; [|done].
    unfold admit_existing in Hr. destruct (_ || _); [done|]. by destruct (efStatus e).
  - by destruct Hr.
Qed.

(** What a retry of an admitted call is told. *)
Definition replayed (e : EffectRow) : ToolCallAdmission :=
  match efStatus e with
  | ef_completed => AlreadyCompleted (efResult e)
  | ef_failed => AlreadyFailed (storedError (efResult e))
  | _ => StillInFlight
  end.

Lemma admit_same call v e :
  efKind e = callTool call → efRequest e = v → isJson v = true →
  admit_existing call v e = replayed e.
Proof.
  intros Hk Hr Hj. unfold admit_existing, replayed. rewrite Hk, Hr, bool_decide_true, jsonbEq_refl by done.
  by destruct (efStatus e).
Qed.

(** The settling update of an admitted call. *)
Lemma settleEffect_spec s call st par now db :
  let '(x, db1) := settleEffect s call st par now db in
  match x with
  | Ok true => ∃ v e, par = Some v ∧ effectRows db !! keyOf call = Some e ∧
      efStatus e = ef_running ∧ effectRows db1 !! keyOf call =
        Some {| efSpace := efSpace e; efKind := efKind e; efStatus := st;
                efRequest := efRequest e; efResult := Some v |}
  | _ => db1 = db
  end.
Proof.
  unfold settleEffect. destruct par as [v|]; [|done].
  destruct (effectRows db !! keyOf call) as [e|] eqn:E; [|done].
  destruct (_ && _) eqn:Hg; [|done]. bools. exists v, e. split_and!; try done. apply lookup_insert_eq.
Qed.

Lemma settleEffect_settled s call st par now db e :
  effectRows db !! keyOf call = Some e → isInFlight (efStatus e) = false →
  (settleEffect s call st par now db).2 = db ∧ (settleEffect s call st par now db).1 ≠ Ok true.
Proof.
  intros He Hf. unfold settleEffect. destruct par; [|done]. rewrite He.
  destruct (_ && _) eqn:Hg; [|done]. bools.
  match goal with Hs : efStatus e = ef_running |- _ => by rewrite Hs in Hf end.
Qed.

(** [complete] and [fail] as the one update they issue. *)
Lemma settlement_program s call value error p :
  p = complete s call value ∨ p = fail s call error →
  ∃ st par out, (st = ef_completed ∨ st = ef_failed) ∧
    p = Query (settleEffect s call st par) (λ rows, Done (settled rows out)) ∧
    match out with
    | CompletedWith v => st = ef_completed ∧ v = value ∧
        par = serializeResult value ≫= jsonbParameter
    | FailedWith why => st = ef_failed ∧ par = errorResult <$> textParameter why
    end.
Proof.
  intros [-> | ->].
  - unfold complete. destruct (serializeResult value) as [v|].
    + exists ef_completed, (jsonbParameter v), (CompletedWith value). auto.
    + exists ef_failed, (errorResult <$> textParameter unrecordableResultMessage),
        (FailedWith unrecordableResultMessage). unfold failClaim. auto.
  - exists ef_failed, (errorResult <$> textParameter error), (FailedWith error).
    unfold fail, failClaim. auto.
Qed.

(** The row a settlement that answered left. *)
Lemma settlement_row s call value error p now db out db1 :
  p = complete s call value ∨ p = fail s call error → runs dbStep p now db (Ok out) db1 →
  ∃ e, effectRows db1 !! keyOf call = Some e ∧ isInFlight (efStatus e) = false ∧
    match out with
    | CompletedWith v => v = value ∧ efStatus e = ef_completed ∧ efResult e = serializeResult value
    | FailedWith why => efStatus e = ef_failed ∧ efResult e = errorResult <$> textParameter why
    end.
Proof.
  intros Hp Hr. destruct (settlement_program _ _ _ _ _ Hp) as (st & par & o & Hst & -> & Ho).
  cbn [runs] in Hr. destruct Hr as (n1 & d1 & _ & H1 & Ha & ->).
  pose proof (settleEffect_spec s call st par n1 d1) as Hs.
  destruct (settleEffect s call st par n1 d1) as [x d2]. cbn [fst snd] in *.
  destruct x as [[|]|err]; cbn [settled] in Ha; try done. injection Ha as ->.
  destruct Hs as (v & e0 & Hpar & He0 & Hrun & He). eexists. split; [exact He|]. cbn.
  split; [by destruct Hst as [-> | ->]|]. destruct o as [w|why].
  - destruct Ho as (-> & -> & Hq). rewrite Hpar in Hq. split_and!; [done..|].
    destruct (serializeResult value) as [w'|]; [|done]. cbn in Hq. unfold jsonbParameter in Hq.
    by destruct (storable w').
  - destruct Ho as (-> & Hq). rewrite Hpar in Hq. done.
Qed.

(** What an answer of [begin] other than a start says of the row. *)
Lemma begin_answer s call p now db a db1 :
  begin s call = Some p → runs dbStep p now db (Ok a) db1 →
  match a with
  | AlreadyCompleted v => ∃ e, effectRows db1 !! keyOf call = Some e ∧ efStatus e = ef_completed ∧
      efResult e = v
  | AlreadyFailed why => ∃ e, effectRows db1 !! keyOf call = Some e ∧ efStatus e = ef_failed ∧
      storedError (efResult e) = why
  | _ => True
  end.
Proof.
  unfold begin. destruct (argumentsJson call) as [v|]; [|done]. intros [= <-]. cbn [runs].
  intros (n1 & d1 & _ & H1 & Hr). destruct (insertEffect s call v n1 d1) as [x d2]. cbn [fst snd] in Hr.
  destruct x as [[|]|err]; cbn [runs] in Hr; [by destruct Hr as [[= ->] _]| |by destruct Hr].
  destruct Hr as (n2 & d3 & _ & H2 & Hr). unfold readEffect in Hr. cbn [fst snd] in Hr.
  destruct (effectRows d3 !! keyOf call) as [e|] eqn:E; [|cbn [runs] in Hr; by destruct Hr].
  destruct (bool_decide (efSpace e = s)); cbn [runs] in Hr; destruct Hr as [Ha ->]; [|done].
  injection Ha as ->. unfold admit_existing. destruct (_ || _); [done|].
  destruct (efStatus e) eqn:Es; eauto.
Qed.

(** ** Properties of the ledger *)

(** C8. At most one admission: once [begin] has answered that a call started, no
    [begin] for the same run and call id ever starts again — in any space, for any
    tool and arguments, under any interleaving — and the same call retried is told
    how its row stands at that moment: its recorded result, its recorded error, or
    that it is still in flight. *)
Theorem tool_call_admitted_once s call p now db db1 :
  begin s call = Some p → runs dbStep p now db (Ok Started) db1 →
  ∀ db2, rtc dbStep db1 db2 →
  (∀ s' call' p' now' a db3,
     keyOf call' = keyOf call → begin s' call' = Some p' →
     runs dbStep p' now' db2 a db3 → a ≠ Ok Started) ∧
  (∀ now' a db3,
     runs dbStep p now' db2 a db3 →
     ∃ e, effectRows db3 !! keyOf call = Some e ∧ a = Ok (replayed e)).
Proof.
  intros Hb Hr db2 H12. destruct (begin_started _ _ _ _ _ _ Hb Hr) as (v & Hv & Hst & He1).
  destruct (effect_kept _ _ _ _ H12 He1) as (e2 & He2 & Hev). split.
  - intros s' call' p' now' a db3 Hk Hb' Hr'.
    eapply begin_taken; [exact Hb'| |exact Hr']. by rewrite Hk.
  - intros now' a db3 Hr'. destruct (argumentsJson_isJson call) as (v' & Hv' & Hj).
    rewrite Hv in Hv'. injection Hv' as <-.
    destruct (begin_taken _ _ _ _ _ _ _ _ Hb He2 Hr') as (_ & e3 & He3 & Hev3 & Ha).
    exists e3. split; [done|]. rewrite (Ha v Hv Hst (ee_space _ _ Hev)). f_equal.
    apply admit_same; [|by rewrite (ee_request _ _ Hev3), (ee_request _ _ Hev)|done].
    by rewrite (ee_kind _ _ Hev3), (ee_kind _ _ Hev).
Qed.

(** One settlement: when [complete] or [fail] answers, the row holds exactly that
    outcome, and it holds it for good — every later settlement of the call reports
    a lost claim or a rejected value and changes nothing, and a retried call is
    answered with the recorded outcome. *)
Theorem tool_call_settles_once s call value error p now db out db1 :
  p = complete s call value ∨ p = fail s call error → runs dbStep p now db (Ok out) db1 →
  ∃ e, effectRows db1 !! keyOf call = Some e ∧
    match out with
    | CompletedWith v => v = value ∧ efStatus e = ef_completed ∧ efResult e = serializeResult value
    | FailedWith why => efStatus e = ef_failed ∧ efResult e = errorResult <$> textParameter why
    end ∧
    ∀ db2, rtc dbStep db1 db2 →
      effectRows db2 !! keyOf call = Some e ∧
      ∀ s' value' error' p' now' a db3,
        p' = complete s' call value' ∨ p' = fail s' call error' → runs dbStep p' now' db2 a db3 →
        (a = Err ClaimLostError ∨ a = Err DatabaseFailure) ∧ effectRows db3 !! keyOf call = Some e.
Proof.
  intros Hp Hr. destruct (settlement_row _ _ _ _ _ _ _ _ _ Hp Hr) as (e & He & Hnf & Hout).
  exists e. split_and!; [done..|].
  intros db2 H2. destruct (effect_kept _ _ _ _ H2 He) as (e2 & He2 & Hev).
  rewrite (ee_settled _ _ Hev Hnf) in He2. split; [done|].
  intros s' value' error' p' now' a db3 Hp' Hr'.
  destruct (settlement_program _ _ _ _ _ Hp') as (st' & par' & o' & _ & -> & _).
  cbn [runs] in Hr'. destruct Hr' as (n3 & d3 & _ & H3 & -> & ->).
  destruct (effect_kept _ _ _ _ H3 He2) as (e3 & He3 & Hev3).
  rewrite (ee_settled _ _ Hev3 Hnf) in He3.
  destruct (settleEffect_settled s' call st' par' n3 d3 _ He3 Hnf) as (-> & Hne).
  split; [|done]. revert Hne. unfold settleEffect. destruct par'; [|by right].
  rewrite He3. destruct (_ && _); [done|by left].
Qed.

(** ** The gate *)

Lemma resolveWhere_some s id c due res now db a db1 :
  resolveWhere s id c due res now db = (Some a, db1) →
  ∃ a0, approvalRows db !! (id, c) = Some a0 ∧ arSpace a0 = s ∧ arStatus a0 = pending ∧
    due now a0 = true ∧ a = res now a0 ∧ approvalRows db1 !! (id, c) = Some a.
Proof.
  unfold resolveWhere. destruct (approvalRows db !! _) as [a0|]; [|done].
  destruct (_ && _ && _) eqn:Hg; [|done]. unfold isPendingApproval in Hg. bools.
  intros [= <- <-]. exists a0. split_and!; try done. apply lookup_insert_eq.
Qed.

Lemma resolveWhere_none s id c due res now db db1 a0 :
  resolveWhere s id c due res now db = (None, db1) →
  db1 = db ∧ (approvalRows db !! (id, c) = Some a0 →
    arSpace a0 ≠ s ∨ arStatus a0 ≠ pending ∨ due now a0 = false).
Proof.
  unfold resolveWhere. destruct (approvalRows db !! _) as [a1|]; [|by intros [= <-]].
  destruct (_ && _ && _) eqn:Hg; [done|]. intros [= <-]. split; [done|]. intros [= <-].
  unfold isPendingApproval in Hg. bools. destruct Hg as [Hg|Hg]; [|auto].
  bools. destruct Hg; bools; auto.
Qed.

Lemma findApproval_some s id c now db a db1 :
  findApproval s id c now db = (Some a, db1) →
  approvalRows db !! (id, c) = Some a ∧ arSpace a = s ∧ db1 = db.
Proof.
  unfold findApproval. destruct (approvalRows db !! _) as [a0|]; [|done].
  destruct (bool_decide _) eqn:Hs; [|done]. bools. by intros [= <- <-].
Qed.

(** A resolved row is the row for good. *)
Lemma resolved_final db db' key a :
  rtc dbStep db db' → approvalRows db !! key = Some a → arStatus a ≠ pending →
  approvalRows db' !! key = Some a.
Proof.
  intros Hs Ha Hr. destruct (approval_kept _ _ _ _ Hs Ha) as (a' & Ha' & Hev).
  by rewrite (pe_resolved _ _ Hev Hr) in Ha'.
Qed.

Abbreviation gateOf input := (voteRunId input, voteCallId input).

(** The statements after a vote that matched nothing. *)
Lemma notApplied_row s who input now db res db1 :
  runs dbStep (decide_ s who input) now db (Ok res) db1 → applied res = false →
  approvalRows db1 !! gateOf input = Some (voteRecord res) ∧
  (arStatus (voteRecord res) = pending → approvalRows db !! gateOf input = None).
Proof.
  unfold decide_. cbn [runs]. intros (n1 & d1 & _ & H1 & Hr) Happ.
  destruct (voteApproval s who input n1 d1) as [x1 d1'] eqn:E1. cbn [fst snd] in Hr.
  destruct x1 as [a1|]; cbn [runs] in Hr; [destruct Hr as [[= ->] _]; done|].
  destruct Hr as (n2 & d2 & Hn2 & H2 & Hr).
  destruct (findApproval _ _ _ n2 d2) as [x2 d2'] eqn:E2. cbn [fst snd] in Hr.
  destruct x2 as [a2|]; cbn [runs] in Hr; [|by destruct Hr].
  apply findApproval_some in E2 as (Ha2 & Hs2 & ->).
  destruct (isPendingApproval (arStatus a2)) eqn:Hp; cbn [runs] in Hr.
  2: { destruct Hr as [[= ->] ->]. split; [done|]. cbn. intros Hq. by rewrite Hq in Hp. }
  destruct Hr as (n3 & d3 & Hn3 & H3 & Hr).
  destruct (timeoutApproval _ _ _ n3 d3) as [x3 d3'] eqn:E3. cbn [fst snd] in Hr.
  destruct x3 as [a3|]; cbn [runs] in Hr.
  { destruct Hr as [[= ->] ->]. apply resolveWhere_some in E3 as (a & _ & _ & _ & _ & -> & Hrow).
    by split. }
  destruct Hr as (n4 & d4 & Hn4 & H4 & Hr).
  destruct (findApproval _ _ _ n4 d4) as [x4 d4'] eqn:E4. cbn [fst snd] in Hr.
  destruct x4 as [a4|]; cbn [runs] in Hr; [|by destruct Hr]. destruct Hr as [[= ->] ->].
  apply findApproval_some in E4 as (Ha4 & Hs4 & ->). split; [done|]. cbn. intros Hpend.
  destruct (approvalRows db !! gateOf input) as [a0|] eqn:E0; [exfalso|done].
  destruct (approval_kept _ _ _ _ H1 E0) as (b1 & Hb1 & _).
  destruct (resolveWhere_none _ _ _ _ _ _ _ _ b1 E1) as [-> Hwhy1]. specialize (Hwhy1 Hb1).
  destruct (approval_kept _ _ _ _ H2 Hb1) as (b2 & Hb2 & Hev2). rewrite Ha2 in Hb2.
  injection Hb2 as <-. destruct (approval_kept _ _ _ _ H3 Ha2) as (b3 & Hb3 & Hev3).
  destruct (resolveWhere_none _ _ _ _ _ _ _ _ b3 E3) as [-> Hwhy3]. specialize (Hwhy3 Hb3).
  destruct (approval_kept _ _ _ _ H4 Hb3) as (b4 & Hb4 & Hev4). rewrite Ha4 in Hb4.
  injection Hb4 as <-.
  assert (arStatus b3 = pending) as Hp3.
  { destruct (decide (arStatus b3 = pending)) as [|Hne]; [done|].
    pose proof (pe_resolved _ _ Hev4 Hne). congruence. }
  destruct Hwhy3 as [Hsp|[?|Hdue3]]; [by rewrite (pe_space _ _ Hev3) in Hsp|done|].
  apply Z.leb_gt in Hdue3. rewrite (pe_deadline _ _ Hev3), (pe_deadline _ _ Hev2) in Hdue3.
  destruct Hwhy1 as [Hsp|[Hne|Hdue1]].
  - by rewrite (pe_space _ _ Hev2) in Hs2.
  - pose proof (pe_resolved _ _ Hev2 Hne) as ->. unfold isPendingApproval in Hp. by bools.
  - apply Z.ltb_ge in Hdue1. lia.
Qed.

Lemma decide_issues s who input : issues (isStep dbStep) (decide_ s who input).
Proof.
  unfold decide_. cbn [issues]. split; [intros n d; apply rtc_once, step_voteApproval|].
  intros [a|]; cbn [issues]; [done|]. split; [by intros n d|].
  intros [a|]; cbn [issues]; [|done]. destruct (isPendingApproval _); cbn [issues]; [|done].
  split; [intros n d; apply rtc_once, step_timeoutApproval|].
  intros [b|]; cbn [issues]; [done|]. split; [by intros n d|]. by intros [b|].
Qed.

(** Only the vote's own statement answers that it was applied. *)
Lemma applied_row s who input now db res db1 :
  runs dbStep (decide_ s who input) now db (Ok res) db1 → applied res = true →
  ∃ n a, voteRecord res = votedRow who input n a ∧
    approvalRows db1 !! gateOf input = Some (voteRecord res).
Proof.
  unfold decide_. cbn [runs]. intros (n1 & d1 & _ & H1 & Hr) Ha.
  destruct (voteApproval s who input n1 d1) as [[a1|] d1'] eqn:E1; cbn [fst snd runs] in Hr.
  { destruct Hr as [[= ->] ->]. apply resolveWhere_some in E1 as (a & _ & _ & _ & _ & -> & Hrow).
    by exists n1, a. }
  exfalso. destruct Hr as (n2 & d2 & _ & H2 & Hr).
  destruct (findApproval _ _ _ n2 d2).1 as [a2|]; cbn [runs] in Hr; [|by destruct Hr].
  destruct (isPendingApproval _); cbn [runs] in Hr; [|by destruct Hr as [[= ->] _]].
  destruct Hr as (n3 & d3 & _ & H3 & Hr).
  destruct (timeoutApproval _ _ _ n3 d3).1 as [a3|]; cbn [runs] in Hr;
    [by destruct Hr as [[= ->] _]|].
  destruct Hr as (n4 & d4 & _ & H4 & Hr).
  destruct (findApproval _ _ _ n4 d4).1 as [a4|]; cbn [runs] in Hr; by destruct Hr as [[= ->] _].
Qed.

(** A gate is resolved once, by the deadline's side it belongs to: when a vote
    answers that it was applied, the row carries exactly that vote, its voter and an
    instant before the deadline; when it answers that it was not, it returns the row
    as it stands, and that row is resolved unless the gate was opened during the
    vote.  Either way a resolved answer is the gate's row for ever, and a row of a
    reachable database never contradicts its deadline. *)
Theorem gate_resolved_once s who input now db res db1 :
  dbWf db → runs dbStep (decide_ s who input) now db (Ok res) db1 →
  approvalRows db1 !! gateOf input = Some (voteRecord res) ∧ approvalOk (voteRecord res) ∧
  (applied res = true →
     arStatus (voteRecord res) = resolved (votedStatus (vote input)) ∧
     arDecidedBy (voteRecord res) = Some who ∧ arReason (voteRecord res) = votedReason input) ∧
  (applied res = false → arStatus (voteRecord res) = pending → approvalRows db !! gateOf input = None) ∧
  (arStatus (voteRecord res) ≠ pending →
     ∀ db2, rtc dbStep db1 db2 → approvalRows db2 !! gateOf input = Some (voteRecord res)).
Proof.
  intros Hwf Hr. pose proof (runs_steps _ _ _ _ _ _ (decide_issues s who input) Hr) as Hsteps.
  assert (approvalRows db1 !! gateOf input = Some (voteRecord res)) as Hrow.
  { destruct (applied res) eqn:Ha; [|by eapply notApplied_row].
    by destruct (applied_row _ _ _ _ _ _ _ Hr Ha) as (n & a & _ & ?). }
  split; [done|]. split; [apply (wf_approval db1 (dbSteps_wf _ _ Hwf Hsteps) _ _ _ Hrow)|].
  split; [|split].
  - intros Ha. by destruct (applied_row _ _ _ _ _ _ _ Hr Ha) as (n & a & -> & _).
  - intros Ha Hp. destruct (notApplied_row _ _ _ _ _ _ _ Hr Ha) as [_ Hn]. auto.
  - intros Hp db2 H2. by eapply resolved_final.
Qed.

(** ** Opening again *)

Lemma open_row s r p now db a db1 :
  open s r = Some p → runs dbStep p now db (Ok a) db1 →
  approvalRows db1 !! (reqRunId r, reqCallId r) = Some a.
Proof.
  unfold open. destruct (openArguments (reqArguments r)) as [par|]; [|done]. intros [= <-].
  cbn [runs]. intros (n1 & d1 & _ & H1 & Hr).
  destruct (insertApproval s r par n1 d1) as [x d2] eqn:Ei. cbn [fst snd] in Hr.
  destruct x as [[a1|]|err]; cbn [runs] in Hr; [| |by destruct Hr].
  - destruct Hr as [[= ->] ->]. unfold insertApproval in Ei. destruct par as [v|]; [|done].
    destruct (runRows d1 !! _) as [row|]; [|done]. destruct (bool_decide _); [|done].
    destruct (approvalRows d1 !! _); [done|]. injection Ei as <- <-. apply lookup_insert_eq.
  - destruct Hr as (n2 & d3 & _ & H2 & Hr).
    destruct (findApproval _ _ _ n2 d3) as [[a2|] d4] eqn:Ef; cbn [fst snd runs] in Hr;
      [|by destruct Hr].
    destruct Hr as [[= ->] ->]. by apply findApproval_some in Ef as (Ha & _ & ->).
Qed.

(** Opening a gate is idempotent: whoever opens the same call again, with whatever
    deadline, tool or arguments and however much later, is answered with the
    original gate — the same deadline, tool and arguments — and with its resolution
    if it has one. *)
Theorem gate_opened_once s r p now db a db1 db2 s' r' p' now' a' db3 :
  open s r = Some p → runs dbStep p now db (Ok a) db1 → rtc dbStep db1 db2 →
  reqRunId r' = reqRunId r → reqCallId r' = reqCallId r →
  open s' r' = Some p' → runs dbStep p' now' db2 (Ok a') db3 →
  approvalEvolves a a' ∧ approvalRows db3 !! (reqRunId r, reqCallId r) = Some a'.
Proof.
  intros Hp Hr H12 Hid Hc Hp' Hr'. pose proof (open_row _ _ _ _ _ _ _ Hp Hr) as Ha.
  pose proof (open_row _ _ _ _ _ _ _ Hp' Hr') as Ha'. rewrite Hid, Hc in Ha'. split; [|done].
  assert (rtc dbStep db2 db3) as H23.
  { eapply runs_steps; [|exact Hr']. unfold open in Hp'.
    destruct (openArguments (reqArguments r')) as [par|]; [|done]. injection Hp' as <-.
    cbn [issues]. split; [intros n d; apply rtc_once, step_insertApproval|].
    intros [[b|]|]; cbn [issues]; [done| |done]. split; [by intros n d|]. by intros [b|]. }
  destruct (approval_kept db1 db3 _ _ ltac:(by etrans) Ha) as (b & Hb & Hev).
  rewrite Ha' in Hb. by injection Hb as <-.
Qed.

(** ** Witnesses *)
#[local] Open Scope Z_scope.

Definition sampleCall : ToolCall :=
  {| callRunId := r1; callId := u "c1"; callTool := u "send_email";
     callArguments := JObject [(u "to", JString (u "a"))] |}.

Definition sampleBegin : program Database (result StoreError ToolCallAdmission) :=
  default (Done (Err DatabaseFailure)) (begin (u "space") sampleCall).

Definition begun : Database := (runAlone sampleBegin 0 claimed).2.

Lemma tool_call_admitted_once_witness :
  ∃ a, a = (runAlone sampleBegin 1 begun).1 ∧ a ≠ Ok Started ∧
    ∃ e, effectRows (runAlone sampleBegin 1 begun).2 !! keyOf sampleCall = Some e ∧
         a = Ok (replayed e).
Proof.
  assert (begin (u "space") sampleCall = Some sampleBegin) as Hb by reflexivity.
  pose proof (runAlone_runs dbStep sampleBegin 0 claimed) as Hr.
  assert ((runAlone sampleBegin 0 claimed).1 = Ok Started) as Hok by (vm_compute; reflexivity).
  rewrite Hok in Hr.
  destruct (tool_call_admitted_once (u "space") sampleCall sampleBegin 0 claimed begun Hb Hr
    begun (rtc_refl _ _)) as [H1 H2].
  pose proof (runAlone_runs dbStep sampleBegin 1 begun) as Hr2.
  eexists. split; [reflexivity|]. split; [exact (H1 _ _ _ _ _ _ eq_refl Hb Hr2)|].
  apply (H2 1 _ _ Hr2).
Defined.

Definition sampleComplete : program Database (result StoreError ToolOutcome) :=
  complete (u "space") sampleCall (JString (u "sent")).

Definition completedDb : Database := (runAlone sampleComplete 1 begun).2.

Lemma tool_call_settles_once_witness :
  ∃ e, effectRows completedDb !! keyOf sampleCall = Some e ∧ efStatus e = ef_completed ∧
    efResult e = Some (JString (u "sent")).
Proof.
  pose proof (runAlone_runs dbStep sampleComplete 1 begun) as Hr.
  assert ((runAlone sampleComplete 1 begun).1 = Ok (CompletedWith (JString (u "sent")))) as Hok
    by (vm_compute; reflexivity).
  rewrite Hok in Hr.
  destruct (tool_call_settles_once (u "space") sampleCall (JString (u "sent")) [] sampleComplete 1
    begun _ completedDb (or_introl eq_refl) Hr) as (e & He & (_ & Hst & Hres) & _).
  exists e. split; [exact He|]. split; [exact Hst|]. rewrite Hres. vm_compute. reflexivity.
Defined.

(** A result with a NUL in it has a JSON text the column rejects: the settlement
    throws after the side effect, and the claim stays in flight. *)
Example unstorable_result_stays_claimed :
  let p := complete (u "space") sampleCall (JString [0%N]) in
  (runAlone p 1 begun).1 = Err DatabaseFailure ∧
  (runAlone sampleBegin 2 (runAlone p 1 begun).2).1 = Ok StillInFlight.
Proof. split; vm_compute; reflexivity. Qed.

Definition sampleRequest : ApprovalRequest :=
  {| reqRunId := r1; reqCallId := u "c1"; reqTool := u "send_email"; reqArguments := JObject [];
     reqExpiresAt := 600 * SECOND |}.

Definition sampleOpen : program Database (result StoreError ApprovalRow) :=
  default (Done (Err DatabaseFailure)) (open (u "space") sampleRequest).

Definition opened : Database := (runAlone sampleOpen 0 claimed).2.

Definition sampleVote : ApprovalVoteInput :=
  {| voteRunId := r1; voteCallId := u "c1"; vote := deny; voteReason := Some (u "no") |}.

Lemma gate_opened_once_witness :
  ∃ a a', (runAlone sampleOpen 0 claimed).1 = Ok a ∧ (runAlone sampleOpen 9 opened).1 = Ok a' ∧
    approvalEvolves a a'.
Proof.
  assert (open (u "space") sampleRequest = Some sampleOpen) as Hp by reflexivity.
  pose proof (runAlone_runs dbStep sampleOpen 0 claimed) as Hr.
  pose proof (runAlone_runs dbStep sampleOpen 9 opened) as Hr'.
  assert (∃ a, (runAlone sampleOpen 0 claimed).1 = Ok a) as [a Ha]
    by (eexists; vm_compute; reflexivity).
  assert (∃ a', (runAlone sampleOpen 9 opened).1 = Ok a') as [a' Ha']
    by (eexists; vm_compute; reflexivity).
  rewrite Ha in Hr. rewrite Ha' in Hr'. exists a, a'. split; [exact Ha|]. split; [exact Ha'|].
  exact (proj1 (gate_opened_once (u "space") sampleRequest sampleOpen 0 claimed a opened opened
    (u "space") sampleRequest sampleOpen 9 a' _ Hp Hr (rtc_refl _ _) eq_refl eq_refl Hp Hr')).
Defined.

Definition voteProgram := decide_ (u "space") (u "user") sampleVote.

Lemma gate_resolved_once_witness :
  ∃ res, (runAlone voteProgram 5 opened).1 = Ok res ∧ applied res = true ∧
    arStatus (voteRecord res) = resolved denied.
Proof.
  pose proof (runAlone_runs dbStep voteProgram 5 opened) as Hr.
  assert (dbWf opened) as Hwf.
  { apply (dbSteps_wf claimed); [apply claimed_wf|]. eapply rtc_once.
    exact (step_insertApproval claimed (u "space") sampleRequest (Some (JObject [])) 0). }
  assert (∃ res, (runAlone voteProgram 5 opened).1 = Ok res ∧ applied res = true) as (res & Hres & Ha)
    by (eexists; split; vm_compute; reflexivity).
  rewrite Hres in Hr.
  destruct (gate_resolved_once (u "space") (u "user") sampleVote 5 opened res _ Hwf Hr)
    as (_ & _ & Happ & _).
  exists res. split; [exact Hres|]. split; [exact Ha|]. exact (proj1 (Happ Ha)).
Defined.
