(* ===== verification/RunRecovery.v ===== *)
(** Recovery and settlement in the worker: apps/worker/src/run-execution.ts (the
    settling patches), apps/worker/src/jobs/lease-watchdog.ts (one candidate of a
    pass) and apps/worker/src/jobs/run-execute.ts (one delivery).  Notifications,
    logging and the execution itself are left out; a queued job and the start of an
    execution are part of the answer. *)

From S2P Require Import Prelude JsText JsValue Json RunState Approvals RunLiveness Statements.
From S2P Require Import RunTables RunLeases ToolCallLedger ApprovalStore RunInterleaving.
From S2P Require Import RunFencing.

(** ** Settling patches *)

Inductive RunSessionOutcome :=
| session_completed | session_cancelled | session_failed (error : jstr) (code : option jstr).

Definition settlement (outcome : RunSessionOutcome) : FencedRunPatch :=
  match outcome with
  | session_completed =>
      {| fpStatus := Some completed; fpCheckpoint := None; fpError := None; fpErrorCode := None;
         fpStarted := false; fpCompleted := true; fpRelease := true; fpSettleInFlight := None;
         fpAttempt := Some at_completed |}
  | session_cancelled =>
      {| fpStatus := Some cancelled; fpCheckpoint := None; fpError := None;
         fpErrorCode := Some (Some (u "cancelled")); fpStarted := false; fpCompleted := true;
         fpRelease := true;
         fpSettleInFlight := Some (u "the run was cancelled before this tool call settled");
         fpAttempt := Some at_cancelled |}
  | session_failed error code =>
      {| fpStatus := Some failed; fpCheckpoint := None; fpError := Some (Some error);
         fpErrorCode := Some code; fpStarted := false; fpCompleted := true; fpRelease := true;
         fpSettleInFlight := Some (u "the run failed before this tool call settled");
         fpAttempt := Some at_failed |}
  end.

(** The patch of work that threw. *)
Definition workFailure (message : jstr) : FencedRunPatch :=
  {| fpStatus := Some failed; fpCheckpoint := None; fpError := Some (Some message);
     fpErrorCode := None; fpStarted := false; fpCompleted := true; fpRelease := true;
     fpSettleInFlight := None; fpAttempt := Some at_failed |}.

Definition reclaimFailureName (reason : RunReclaimFailure) : jstr :=
  match reason with
  | checkpoint_absent => u "checkpoint_absent"
  | checkpoint_unreadable => u "checkpoint_unreadable"
  end.

(** The patch of a reclaimed run with nothing to resume: the watchdog's, and the
    executor's, which also settles the attempt its acquisition recorded. *)
Definition reclaimFailurePatch (reason : RunReclaimFailure) (attempt : option AttemptStatus) :
    FencedRunPatch :=
  {| fpStatus := Some failed; fpCheckpoint := None;
     fpError := Some (Some (reclaimFailureMessage reason));
     fpErrorCode := Some (Some (reclaimFailureName reason)); fpStarted := false;
     fpCompleted := true; fpRelease := false; fpSettleInFlight := None; fpAttempt := attempt |}.

(** ** One candidate of a watchdog pass *)

Record RunExecutePayload := {
  plRunId : jstr; plSpaceId : jstr; plFence : Z; plOwner : option jstr }.

Inductive CandidateOutcome :=
| Resumed (queued : RunExecutePayload)
| FailedCandidate (reason : RunReclaimFailure)
| Skipped.

(** [isExpired], on the host's own clock. *)
Definition isExpired (hostNow : Z) (run : RunRow) : bool :=
  isActiveStatus (rwStatus run) && bool_decide (lcOwner (rwLease run) ≠ None)
  && match columnDate <$> lcExpiresAt (rwLease run) with Some e => (e <=? hostNow)%Z | None => false end.

Definition leaseOf (owner : jstr) (run : RunRow) : RunLease :=
  {| rlOwner := owner; rlFence := lcFence (rwLease run) |}.

Definition failRun (spaceId runId : jstr) (claimed : RunRow) (reason : RunReclaimFailure) :
    program Database (result StoreError CandidateOutcome) :=
  match lcOwner (rwLease claimed) with
  | None => Done (Err DatabaseFailure)
  | Some owner =>
      Query (updateClaimedRun spaceId runId (leaseOf owner claimed) (reclaimFailurePatch reason None))
        (λ updated,
        match updated with
        | Ok _ => Done (Ok (FailedCandidate reason))
        | Err e => Done (Err e)
        end)
  end.

Definition reclaimCandidate (spaceId runId jobId : jstr) (hostNow : Z) :
    program Database (result StoreError CandidateOutcome) :=
  Query (readRun spaceId runId) (λ found,
  match found with
  | None => Done (Ok Skipped)
  | Some run =>
      if negb (isExpired hostNow run) then Done (Ok Skipped)
      else
        Query (reclaimRun spaceId runId (lcFence (rwLease run)) jobId
                 {| roReason := expiredLeaseReason (columnDate <$> lcExpiresAt (rwLease run));
                    roRecordAttempt := Some false |}) (λ reclaimed,
        match reclaimed with
        | Err e => Done (Err e)
        | Ok None => Done (Ok Skipped)
        | Ok (Some claimed) =>
            match decideReclaim (ocCheckpoint (rwOutcome claimed)) with
            | FailReclaim reason => failRun spaceId runId claimed reason
            | Resume =>
                Done (Ok (Resumed {| plRunId := runId; plSpaceId := spaceId;
                                     plFence := lcFence (rwLease claimed);
                                     plOwner := Some jobId |}))
            end
        end)
  end).

(** ** One delivery *)

Inductive DeliveryOutcome :=
| Execute (run : RunRow) (resumed : bool)
| NothingToResume (reason : RunReclaimFailure)
| DeliverySkipped.

Definition resumeRun (spaceId runId : jstr) (run : RunRow) :
    program Database (result StoreError DeliveryOutcome) :=
  match decideReclaim (ocCheckpoint (rwOutcome run)) with
  | Resume => Done (Ok (Execute run true))
  | FailReclaim reason =>
      match lcOwner (rwLease run) with
      | None => Done (Err DatabaseFailure)
      | Some owner =>
          Query (updateClaimedRun spaceId runId (leaseOf owner run)
                   (reclaimFailurePatch reason (Some at_failed))) (λ updated,
          match updated with
          | Ok _ => Done (Ok (NothingToResume reason))
          | Err e => Done (Err e)
          end)
      end
  end.

(** The last resort of a delivery: a reclaim of the fence it addresses. *)
Definition reclaimDelivery (payload : RunExecutePayload) (run : RunRow) (jobId : jstr) :
    program Database (result StoreError DeliveryOutcome) :=
  Query (reclaimRun (plSpaceId payload) (plRunId payload) (plFence payload) jobId
           {| roReason := expiredLeaseReason (columnDate <$> lcExpiresAt (rwLease run)); roRecordAttempt := None |})
    (λ reclaimed,
    match reclaimed with
    | Err e => Done (Err e)
    | Ok None => Done (Ok DeliverySkipped)
    | Ok (Some row) => resumeRun (plSpaceId payload) (plRunId payload) row
    end).

Definition handleDelivery (payload : RunExecutePayload) (jobId : jstr) :
    program Database (result StoreError DeliveryOutcome) :=
  Query (readRun (plSpaceId payload) (plRunId payload)) (λ found,
  match found with
  | None => Done (Ok DeliverySkipped)
  | Some run =>
      if negb (lcFence (rwLease run) =? plFence payload)%Z then Done (Ok DeliverySkipped)
      else
        Query (claimRun (plSpaceId payload) (plRunId payload) (plFence payload) jobId) (λ claimed,
        match claimed with
        | Err e => Done (Err e)
        | Ok (Some row) => Done (Ok (Execute row false))
        | Ok None =>
            match plOwner payload with
            | None => reclaimDelivery payload run jobId
            | Some owner =>
                Query (adoptRun (plSpaceId payload) (plRunId payload) (plFence payload) jobId owner)
                  (λ adopted,
                  match adopted with
                  | Err e => Done (Err e)
                  | Ok (Some row) => resumeRun (plSpaceId payload) (plRunId payload) row
                  | Ok None => reclaimDelivery payload run jobId
                  end)
            end
        end)
  end).
(** ** Lemmas *)

Lemma updateClaimedRun_ok s id lease patch now db row db1 :
  updateClaimedRun s id lease patch now db = (Ok row, db1) →
  ∃ r, runRows db !! id = Some r ∧ holdsLease s lease now r = true ∧
    statusTransitionGuard (fpStatus patch) (rwStatus r) = true ∧ row = patchedRow patch now r ∧
    db1 = settlePatchEffects patch s id
            (settleAttempt patch id (rlFence lease) now (withRunRow db id row)).
Proof.
  unfold updateClaimedRun. destruct (runRows db !! id) as [r|]; [|done].
  destruct (_ && _) eqn:Hg; [|done]. bools. intros [= <- <-]. by exists r.
Qed.

Lemma settle_runs patch s id f now db :
  runRows (settlePatchEffects patch s id (settleAttempt patch id f now db)) = runRows db.
Proof.
  unfold settlePatchEffects, settleAttempt. by destruct (fpAttempt patch), (fpSettleInFlight patch).
Qed.

Lemma updateClaimedRun_row s id lease patch now db row db1 :
  updateClaimedRun s id lease patch now db = (Ok row, db1) → runRows db1 !! id = Some row.
Proof.
  intros (r & _ & _ & _ & -> & ->)%updateClaimedRun_ok. rewrite settle_runs. apply lookup_insert_eq.
Qed.

(** The attempt a patch settles is closed. *)
Lemma updateClaimedRun_attempt s id lease patch now db row db1 st :
  updateClaimedRun s id lease patch now db = (Ok row, db1) → fpAttempt patch = Some st →
  st ≠ at_running → ∀ a, attemptRows db1 !! (id, rlFence lease) = Some a → atStatus a ≠ at_running.
Proof.
  intros (r & _ & _ & _ & -> & ->)%updateClaimedRun_ok Hst Hne a.
  unfold settlePatchEffects, settleAttempt. rewrite Hst.
  assert (∀ m, closeAttempt id (rlFence lease) st (default None (fpError patch)) now m !!
    (id, rlFence lease) = Some a → atStatus a ≠ at_running) as Hc.
  { intros m. rewrite lookup_closeAttempt. destruct (m !! _) as [a0|]; [|done].
    rewrite bool_decide_true by done. cbn [andb].
    destruct (bool_decide (atStatus a0 = at_running)) eqn:Hs; bools; by intros [= <-]. }
  destruct (fpSettleInFlight patch); cbn; apply Hc.
Qed.

(** The effects a patch settles are all of the run's. *)
Lemma updateClaimedRun_effects s id lease patch now db row db1 why :
  dbWf db → updateClaimedRun s id lease patch now db = (Ok row, db1) →
  fpSettleInFlight patch = Some why →
  ∀ k e, effectRows db1 !! (id, k) = Some e → isInFlight (efStatus e) = false.
Proof.
  intros Hwf (r & Hr & Hh & _ & -> & ->)%updateClaimedRun_ok Hwhy k e.
  apply holdsLease_spec in Hh as (Hs & _). unfold settlePatchEffects, settleAttempt. rewrite Hwhy.
  assert (∀ d, effectRows d = effectRows db →
    effectRows (withEffects d (settleEffects s id why (effectRows d))) !! (id, k) = Some e →
    isInFlight (efStatus e) = false) as He.
  { intros d Hd. cbn. rewrite lookup_settleEffects, Hd.
    destruct (effectRows db !! (id, k)) as [e0|] eqn:Ee; [|done]. cbn.
    destruct (wf_effect _ Hwf _ _ _ Ee) as [(r0 & Hr0 & Hsp) _].
    rewrite Hr in Hr0. injection Hr0 as <-. rewrite !bool_decide_true by congruence. cbn [andb].
    destruct (isInFlight (efStatus e0)) eqn:Hi; by intros [= <-]. }
  destruct (fpAttempt patch); by apply He.
Qed.

Lemma terminal_unavailable mode now r :
  isTerminalStatus (rwStatus r) = true → availabilityGuard mode now r = false.
Proof.
  intros Ht. apply not_true_iff_false. intros Hg%availability_executing.
  destruct mode; [by rewrite Hg in Ht|apply executing_not_terminal in Hg; congruence..].
Qed.

(** A terminal run is closed to every writer for good. *)
Lemma terminal_closed db db' id r :
  runRows db !! id = Some r → isTerminalStatus (rwStatus r) = true → rtc dbStep db db' →
  (∀ lease, powerless db' id lease) ∧
  (∀ s f o mode now, acquireRun s id f o mode now db' = (Ok None, db')) ∧
  ∃ r', runRows db' !! id = Some r' ∧ frozen r r'.
Proof.
  intros Hr Ht Hs. destruct (de_runs _ _ (dbSteps_evolve _ _ Hs) id r Hr) as (r' & Hr' & Hev).
  pose proof (re_frozen _ _ Hev Ht) as Hf. split_and!.
  - intros lease. eapply lost_forever; [exact Hr|by right; right|exact Hs].
  - intros s f o mode now. unfold acquireRun. rewrite Hr', terminal_unavailable; [by rewrite andb_false_r|].
    by destruct Hf as [-> _].
  - by exists r'.
Qed.

Lemma reclaim_checkpoint mode o now r :
  ocCheckpoint (rwOutcome (acquiredRow mode o now r)) = ocCheckpoint (rwOutcome r).
Proof. by destruct mode. Qed.

Lemma resumeRun_execute s id run now db row b db1 :
  runs dbStep (resumeRun s id run) now db (Ok (Execute row b)) db1 →
  row = run ∧ b = true ∧ db1 = db ∧ decideReclaim (ocCheckpoint (rwOutcome run)) = Resume.
Proof.
  unfold resumeRun. destruct (decideReclaim _) as [|why]; cbn [runs].
  - by intros [[= -> ->] ->].
  - destruct (lcOwner _); cbn [runs]; [|by intros [? _]]. intros (n & d & _ & _ & Hr).
    by destruct (updateClaimedRun _ _ _ _ n d).1; cbn [runs] in Hr; destruct Hr.
Qed.

Lemma reclaimDelivery_execute payload run job now db row b db1 :
  runs dbStep (reclaimDelivery payload run job) now db (Ok (Execute row b)) db1 →
  b = true ∧ decideReclaim (ocCheckpoint (rwOutcome row)) = Resume ∧
  ∃ mode n d, acquireRun (plSpaceId payload) (plRunId payload) (plFence payload) job mode n d =
    (Ok (Some row), db1).
Proof.
  unfold reclaimDelivery. cbn [runs]. intros (n & d & _ & _ & Hr). unfold reclaimRun in Hr.
  destruct (acquireRun _ _ _ _ _ n d) as [x d1] eqn:E. cbn [fst snd] in Hr.
  destruct x as [[row'|]|]; cbn [runs] in Hr; [|by destruct Hr..].
  apply resumeRun_execute in Hr as (-> & -> & -> & Hres). eauto 6.
Qed.

(** A delivery that executes acquired the run from the fence it addresses. *)
Lemma handleDelivery_execute payload job now db row b db1 :
  runs dbStep (handleDelivery payload job) now db (Ok (Execute row b)) db1 →
  (b = true → decideReclaim (ocCheckpoint (rwOutcome row)) = Resume) ∧
  ∃ mode n d, acquireRun (plSpaceId payload) (plRunId payload) (plFence payload) job mode n d =
    (Ok (Some row), db1).
Proof.
  unfold handleDelivery. cbn [runs]. intros (n1 & d1 & _ & _ & Hr).
  destruct (readRun _ _ n1 d1).1 as [run|]; cbn [runs] in Hr; [|by destruct Hr].
  destruct (negb _); cbn [runs] in Hr; [by destruct Hr|].
  destruct Hr as (n2 & d2 & _ & _ & Hr). unfold claimRun in Hr.
  destruct (acquireRun _ _ _ _ claim n2 d2) as [x d2'] eqn:E. cbn [fst snd] in Hr.
  destruct x as [[row'|]|]; cbn [runs] in Hr; [| |by destruct Hr].
  { destruct Hr as [[= -> ->] ->]. split; [done|]. by exists claim, n2, d2. }
  destruct (plOwner payload) as [owner|]; cbn [runs] in Hr.
  2: { apply reclaimDelivery_execute in Hr as (-> & Hres & Ha). auto. }
  destruct Hr as (n3 & d3 & _ & _ & Hr). unfold adoptRun in Hr.
  destruct (acquireRun _ _ _ _ (adopt owner) n3 d3) as [y d3'] eqn:E3. cbn [fst snd] in Hr.
  destruct y as [[row'|]|]; cbn [runs] in Hr; [| |by destruct Hr].
  - apply resumeRun_execute in Hr as (-> & -> & -> & Hres). split; [done|]. by exists (adopt owner), n3, d3.
  - apply reclaimDelivery_execute in Hr as (-> & Hres & Ha). auto.
Qed.

(** A delivery that finds the fence moved on skips. *)
Lemma handleDelivery_moved payload job now db r x db1 :
  runRows db !! plRunId payload = Some r → (plFence payload < lcFence (rwLease r))%Z →
  runs dbStep (handleDelivery payload job) now db x db1 → x = Ok DeliverySkipped.
Proof.
  intros Hr Hf. unfold handleDelivery. cbn [runs]. intros (n1 & d1 & _ & H1 & Hx).
  destruct (de_runs _ _ (dbSteps_evolve _ _ H1) _ r Hr) as (r' & Hr' & Hev).
  pose proof (re_fence _ _ Hev). unfold readRun in Hx. rewrite Hr' in Hx. cbn [fst snd] in Hx.
  destruct (bool_decide _); cbn [runs] in Hx; [|by destruct Hx].
  rewrite (proj2 (Z.eqb_neq _ _)) in Hx by lia. by destruct Hx.
Qed.

(** ** Properties *)

(** A settled run is nobody's: the settlement of a session that ended leaves a
    terminal row without an owner or a deadline, its attempt closed and, unless the
    session completed, no tool call in flight; from then on no lease can write the
    run, no acquisition can take it, and its status and outcome never change. *)
Theorem settlement_final s id lease outcome now db row db1 :
  dbWf db → updateClaimedRun s id lease (settlement outcome) now db = (Ok row, db1) →
  isTerminalStatus (rwStatus row) = true ∧ lcOwner (rwLease row) = None ∧
  lcExpiresAt (rwLease row) = None ∧ runRows db1 !! id = Some row ∧
  (∀ a, attemptRows db1 !! (id, rlFence lease) = Some a → atStatus a ≠ at_running) ∧
  (outcome ≠ session_completed →
     ∀ k e, effectRows db1 !! (id, k) = Some e → isInFlight (efStatus e) = false) ∧
  ∀ db2, rtc dbStep db1 db2 →
    (∀ l, powerless db2 id l) ∧
    (∀ s' f o mode n, acquireRun s' id f o mode n db2 = (Ok None, db2)) ∧
    ∃ row2, runRows db2 !! id = Some row2 ∧ frozen row row2.
Proof.
  intros Hwf Hu. pose proof (updateClaimedRun_row _ _ _ _ _ _ _ _ Hu) as Hrow.
  assert (isTerminalStatus (rwStatus row) = true ∧ lcOwner (rwLease row) = None ∧
    lcExpiresAt (rwLease row) = None) as (Ht & Ho & He).
  { apply updateClaimedRun_ok in Hu as (r & _ & _ & _ & -> & _). by destruct outcome. }
  split_and!; try done.
  - destruct outcome; eapply updateClaimedRun_attempt; done.
  - intros Hne. destruct outcome; [done|..]; eapply updateClaimedRun_effects; done.
  - intros db2 Hs. by eapply terminal_closed.
Qed.

(** C20. A delivery executes a run once: whoever answers with an execution holds the next
    fence under its own name, resuming only from a checkpoint with state in it, and
    every other delivery of the same payload that starts later, by whatever job, skips. *)
Theorem delivery_executes_once payload job now db row resumed db1 :
  runs dbStep (handleDelivery payload job) now db (Ok (Execute row resumed)) db1 →
  runRows db1 !! plRunId payload = Some row ∧
  lcFence (rwLease row) = (plFence payload + 1)%Z ∧ lcOwner (rwLease row) = Some job ∧
  (resumed = true → isResumableCheckpoint (ocCheckpoint (rwOutcome row)) = true) ∧
  ∀ db2 job' now' x db3,
    rtc dbStep db1 db2 → runs dbStep (handleDelivery payload job') now' db2 x db3 →
    x = Ok DeliverySkipped.
Proof.
  intros (Hres & mode & n & d & Ha)%handleDelivery_execute.
  destruct (acquireRun_row _ _ _ _ _ _ _ _ _ Ha) as (Hr & Hf & Ho). split_and!; try done.
  - intros Hb. specialize (Hres Hb). unfold decideReclaim in Hres.
    destruct (isResumableCheckpoint _); [done|]. by destruct (asRecord _).
  - intros db2 job' now' x db3 Hs Hx.
    destruct (de_runs _ _ (dbSteps_evolve _ _ Hs) _ row Hr) as (r' & Hr' & Hev).
    eapply handleDelivery_moved; [exact Hr'| |exact Hx]. pose proof (re_fence _ _ Hev). lia.
Qed.

(** C24. The watchdog recovers without restarting: a candidate it hands on is held at
    the payload's fence by the pass itself, has state to resume from, and at that
    moment has its previous attempt closed and no tool call in flight; a candidate
    it fails had nothing to resume when it reclaimed it, records why, and stays failed for good; and any
    error is a lost lease or the database's. *)
Theorem reclaimCandidate_recovers s id job hostNow now db x db' :
  dbWf db → runs dbStep (reclaimCandidate s id job hostNow) now db x db' →
  match x with
  | Ok (Resumed payload) =>
      ∃ row, runRows db' !! id = Some row ∧
        payload = {| plRunId := id; plSpaceId := s; plFence := lcFence (rwLease row);
                     plOwner := Some job |} ∧
        lcOwner (rwLease row) = Some job ∧
        isResumableCheckpoint (ocCheckpoint (rwOutcome row)) = true ∧
        (∀ a, attemptRows db' !! (id, lcFence (rwLease row) - 1)%Z = Some a →
           atStatus a ≠ at_running) ∧
        ∀ k e, effectRows db' !! (id, k) = Some e → isInFlight (efStatus e) = false
  | Ok (FailedCandidate reason) =>
      ∃ row, runRows db' !! id = Some row ∧ rwStatus row = failed ∧
        ocErrorCode (rwOutcome row) = Some (reclaimFailureName reason) ∧
        (∃ claimed, runEvolves claimed row ∧
           lcOwner (rwLease claimed) = Some job ∧ lcFence (rwLease row) = lcFence (rwLease claimed) ∧
           decideReclaim (ocCheckpoint (rwOutcome claimed)) = FailReclaim reason) ∧
        ∀ db2, rtc dbStep db' db2 → ∃ row2, runRows db2 !! id = Some row2 ∧ frozen row row2
  | Ok Skipped => True
  | Err e => e = LeaseLostError id ∨ e = DatabaseFailure
  end.
Proof.
  intros Hwf. unfold reclaimCandidate. cbn [runs]. intros (n1 & d1 & _ & H1 & Hr).
  destruct (readRun _ _ n1 d1) as [[run|] d1'] eqn:Er; cbn [fst snd runs] in Hr; [|by destruct Hr as [-> _]].
  assert (d1' = d1) as -> by (by unfold readRun in Er; injection Er).
  destruct (negb _); cbn [runs] in Hr; [by destruct Hr as [-> _]|].
  destruct Hr as (n2 & d2 & _ & H2 & Hr). unfold reclaimRun in Hr.
  set (options := {| roReason := _; roRecordAttempt := _ |}) in Hr.
  destruct (acquireRun s id _ job (reclaim options) n2 d2) as [y d3] eqn:Ea. cbn [fst snd] in Hr.
  destruct y as [[claimed|]|e]; cbn [runs] in Hr; [|by destruct Hr as [-> _]|].
  2: { destruct Hr as [-> _]. unfold acquireRun in Ea. clear - Ea. dms; auto. }
  assert (dbWf d2) as Hwf2 by (eapply dbSteps_wf; [exact Hwf|by etrans]).
  destruct (acquireRun_row _ _ _ _ _ _ _ _ _ Ea) as (Hrow & Hf & Ho).
  destruct (acquireRun_acquired _ _ _ _ _ _ _ _ _ Hwf2 Ea) as [_ Hacq].
  destruct (Hacq options eq_refl) as [Hatt Heff].
  destruct (decideReclaim _) as [|reason] eqn:Ed; cbn [runs] in Hr.
  - destruct Hr as [-> ->]. exists claimed. split_and!; try done.
    + unfold decideReclaim in Ed. destruct (isResumableCheckpoint _); [done|]. by destruct (asRecord _).
    + rewrite Hf. by replace (lcFence (rwLease run) + 1 - 1)%Z with (lcFence (rwLease run)) by lia.
  - unfold failRun in Hr. rewrite Ho in Hr. cbn [runs] in Hr. destruct Hr as (n4 & d4 & _ & H4 & Hr).
    destruct (updateClaimedRun _ _ _ _ n4 d4) as [z d5] eqn:Eu. cbn [fst snd] in Hr.
    destruct z as [row|e]; cbn [runs] in Hr; destruct Hr as [-> ->].
    2: { left. unfold updateClaimedRun in Eu. clear - Eu. dms. }
    pose proof (updateClaimedRun_row _ _ _ _ _ _ _ _ Eu) as Hrow5.
    assert (dbEvolves d3 d5) as Hev.
    { etrans; [by apply dbSteps_evolve|].
      pose proof (updateClaimedRun_evolves s id (leaseOf job claimed)
        (reclaimFailurePatch reason None) n4 d4) as Hu. by rewrite Eu in Hu. }
    destruct (de_runs _ _ Hev _ _ Hrow) as (row' & Hrow' & Hrev). rewrite Hrow5 in Hrow'.
    injection Hrow' as <-.
    apply updateClaimedRun_ok in Eu as (r4 & Hr4 & (_ & _ & Hfence & _)%holdsLease_spec & _ & -> & _).
    eexists. split; [exact Hrow5|]. split_and!; try done.
    + exists claimed. split_and!; done.
    + intros db2 Hs. by eapply terminal_closed.
Qed.

(** ** Witnesses *)
#[local] Open Scope Z_scope.

Definition sampleReason (at_ : option Z) : jstr := u "expired".

Definition withCheckpoint (db : Database) : Database :=
  (updateClaimedRun (u "space") r1 {| rlOwner := u "a"; rlFence := 1 |}
     {| fpStatus := None; fpCheckpoint := Some (JObject [(u "turn", JNumber (NInt 1))]);
        fpError := None; fpErrorCode := None; fpStarted := false; fpCompleted := false;
        fpRelease := false; fpSettleInFlight := None; fpAttempt := None |} 1 db).2.

Definition sampleSettled : Database :=
  (updateClaimedRun (u "space") r1 {| rlOwner := u "a"; rlFence := 1 |}
     (settlement session_cancelled) 1 claimed).2.

Lemma settlement_final_witness :
  (∀ l, powerless sampleSettled r1 l) ∧
  acquireRun (u "space") r1 1 (u "b") (reclaim takeover) late sampleSettled = (Ok None, sampleSettled).
Proof.
  assert (∃ row, updateClaimedRun (u "space") r1 {| rlOwner := u "a"; rlFence := 1 |}
     (settlement session_cancelled) 1 claimed = (Ok row, sampleSettled)) as [row Hu]
    by (eexists; vm_compute; reflexivity).
  destruct (settlement_final _ _ _ _ _ _ _ _ claimed_wf Hu) as (_ & _ & _ & _ & _ & _ & H).
  destruct (H sampleSettled (rtc_refl _ _)) as (H1 & H2 & _). split; [exact H1|apply H2].
Defined.

Definition sampleDelivery : program Database (result StoreError DeliveryOutcome) :=
  handleDelivery
    {| plRunId := r1; plSpaceId := u "space"; plFence := 0; plOwner := None |} (u "a").

Lemma delivery_executes_once_witness :
  (runAlone sampleDelivery 1 (runAlone sampleDelivery 0 oneRun).2).1 = Ok DeliverySkipped.
Proof.
  pose proof (runAlone_runs dbStep sampleDelivery 0 oneRun) as Hr.
  assert (∃ row, (runAlone sampleDelivery 0 oneRun).1 = Ok (Execute row false)) as [row Hx]
    by (eexists; vm_compute; reflexivity).
  rewrite Hx in Hr.
  destruct (delivery_executes_once _ _ _ _ _ _ _ Hr) as (_ & _ & _ & _ & H).
  eapply (H _ (u "a") 1); [apply rtc_refl|apply (runAlone_runs dbStep sampleDelivery 1)].
Defined.

Definition samplePass : program Database (result StoreError CandidateOutcome) :=
  reclaimCandidate (u "space") r1 (u "w") (columnDate late).

Lemma reclaimCandidate_recovers_witness :
  ∃ row payload, (runAlone samplePass late (withCheckpoint claimed)).1 = Ok (Resumed payload) ∧
    runRows (runAlone samplePass late (withCheckpoint claimed)).2 !! r1 = Some row ∧
    plFence payload = 2.
Proof.
  assert (dbWf (withCheckpoint claimed)) as Hwf by apply updateClaimedRun_wf, claimed_wf.
  pose proof (runAlone_runs dbStep samplePass late (withCheckpoint claimed)) as Hr.
  assert (∃ payload, (runAlone samplePass late (withCheckpoint claimed)).1 = Ok (Resumed payload) ∧
    plFence payload = 2) as (payload & Hx & Hf) by (eexists; split; vm_compute; reflexivity).
  rewrite Hx in Hr.
  destruct (reclaimCandidate_recovers _ _ _ _ _ _ _ _ Hwf Hr) as (row & Hrow & _).
  exists row, payload. split; [exact Hx|]. split; [exact Hrow|exact Hf].
Defined.

(** A candidate without a checkpoint is failed, and the terminal row keeps the
    pass as its owner and its deadline. *)
Example watchdog_failure_keeps_lease :
  (runAlone samplePass late claimed).1 = Ok (FailedCandidate checkpoint_absent) ∧
  (λ r, (rwStatus r, rwLease r)) <$> runRows (runAlone samplePass late claimed).2 !! r1 =
    Some (failed, {| lcOwner := Some (u "w"); lcFence := 2; lcExpiresAt := Some (late + late) |}).
Proof. split; vm_compute; reflexivity. Qed.

(** Work that throws mid-call settles the run and leaves the call's claim running. *)
Example work_failure_leaves_effects :
  let call := {| callRunId := r1; callId := u "c1"; callTool := u "t"; callArguments := JNull |} in
  let db := (insertEffect (u "space") call JNull 1 claimed).2 in
  let lease := {| rlOwner := u "a"; rlFence := 1 |} in
  let after patch := (updateClaimedRun (u "space") r1 lease patch 2 db).2 in
  efStatus <$> effectRows (after (workFailure (u "boom"))) !! (r1, u "c1") = Some ef_running ∧
  efStatus <$> effectRows (after (settlement (session_failed (u "boom") None))) !! (r1, u "c1") =
    Some ef_failed.
Proof. split; vm_compute; reflexivity. Qed.
