(* ===== verification/ToolDispatcher.v ===== *)
(** The tool dispatch seam, packages/effect/src/tool-dispatcher.ts: the registry
    built once and checked, the claim, the heartbeat, the handler and the
    settlement of one call.  The ledger is the interface the dispatcher is written
    against; packages/db implements it. *)

From S2P Require Import Prelude JsText JsValue Json Statements Threads RunTables.
From S2P Require Import ToolCallLedger ApprovalStore RunInterleaving.
From stdpp Require Import pretty.

(** The database, with a log of the handlers entered, by run and call id. *)
Abbreviation callKey := (jstr * jstr)%type.
Abbreviation World := (logged Database callKey).

Definition callKeyOf (call : ToolCall) : callKey := (callRunId call, callId call).

(** ** The ledger and the handlers *)

Record ToolCallLedger := {
  ledgerBegin : ToolCall → program World (result StoreError ToolCallAdmission);
  ledgerComplete : ToolCall → jsval → program World (result StoreError ToolOutcome);
  ledgerFail : ToolCall → jstr → program World (result StoreError ToolOutcome) }.

(** [createExternalEffectLedger] of packages/db/src/tool-call-ledger.ts. *)
Definition createExternalEffectLedger (spaceId : jstr) : ToolCallLedger :=
  {| ledgerBegin call :=
       match begin spaceId call with
       | Some p => onRealProgram p
       | None => Done (Err DatabaseFailure)
       end;
     ledgerComplete call value := onRealProgram (complete spaceId call value);
     ledgerFail call error := onRealProgram (fail spaceId call error) |}.

(** The failure of a handler: the lost lease, the dispatcher's own budget, Effect's
    wrapper around a thrown value, or a value. *)
Inductive HandlerFailure :=
| FailedLeaseLost (runId : jstr)
| ToolDurationExceeded
| UnknownException (cause : jsval)
| FailedValue (value : jsval).

(** How a handler ends: [CauseOther] is a cause with no failure in it. *)
Inductive HandlerExit :=
| Returned (value : jsval)
| Failed (failure : HandlerFailure)
| CauseOther
| CauseInterrupted.

Record ToolRegistration := {
  regName : jstr; regDescription : jstr; regParameters : jsval; regMaxDurationMs : jsnum;
  regExecute : ToolCall → program World HandlerExit }.

(** What an effect of the dispatcher ends with. *)
Inductive exit (E A : Type) :=
| Success (a : A)
| Failure (e : E)
| Interrupted.
Arguments Success {E A} a.
Arguments Failure {E A} e.
Arguments Interrupted {E A}.

Inductive callField := field_runId | field_callId | field_tool.
Inductive conflictReason := conflict_in_flight | conflict_call_id_reused.
Inductive ledgerOperation := op_begin | op_complete | op_fail.

Inductive ToolDispatchError :=
| InvalidToolCallError (field : callField)
| UnknownToolError (tool : jstr)
| ToolCallConflictError (runId callId : jstr) (reason : conflictReason)
| ToolLedgerError (operation : ledgerOperation)
| DispatchNotFound (what id : jstr)
| DispatchLeaseLost (runId : jstr).

(** ** The registry *)

Inductive ToolRegistrationErrorReason :=
| invalid_lease_ttl | empty_name | untrimmed_name | duplicate_name | empty_description
| invalid_parameters | invalid_duration | duration_exceeds_lease.

Record ToolRegistrationError := { reason : ToolRegistrationErrorReason; errorTool : jstr }.

Definition isPositiveSafe (n : jsnum) : option Z :=
  match safeInteger n with Some z => if (0 <? z)%Z then Some z else None | None => None end.

(** The checks of one registration, in order; [None] when it passes. *)
Definition validateRegistration (r : ToolRegistration) (leaseTtlMs : Z)
    (registry : gmap jstr ToolRegistration) : option ToolRegistrationError :=
  let refuse why := Some {| reason := why; errorTool := regName r |} in
  if bool_decide (trim (regName r) = []) then refuse empty_name
  else if negb (bool_decide (regName r = trim (regName r))) then refuse untrimmed_name
  else if bool_decide (is_Some (registry !! regName r)) then refuse duplicate_name
  else if bool_decide (trim (regDescription r) = []) then refuse empty_description
  else if bool_decide (asRecord (regParameters r) = None) then refuse invalid_parameters
  else match isPositiveSafe (regMaxDurationMs r) with
       | None => refuse invalid_duration
       | Some duration => if (leaseTtlMs <? duration)%Z then refuse duration_exceeds_lease else None
       end.

Fixpoint buildRegistry (registrations : list ToolRegistration) (leaseTtlMs : Z)
    (registry : gmap jstr ToolRegistration) : result ToolRegistrationError (gmap jstr ToolRegistration) :=
  match registrations with
  | [] => Ok registry
  | r :: rest =>
      match validateRegistration r leaseTtlMs registry with
      | Some e => Err e
      | None => buildRegistry rest leaseTtlMs (<[regName r := r]> registry)
      end
  end.

Record ModelToolDefinition := { toolName : jstr; toolDescription : jstr; toolParameters : jsval }.

Definition definitionOf (r : ToolRegistration) : ModelToolDefinition :=
  {| toolName := regName r; toolDescription := regDescription r; toolParameters := regParameters r |}.

(** ** One call *)

(** [text.trim() === ""] of the fields, in order. *)
Definition missingField (call : ToolCall) : option callField :=
  if isBlank (callRunId call) then Some field_runId
  else if isBlank (callId call) then Some field_callId
  else if isBlank (callTool call) then Some field_tool
  else None.

(** [ledgerCall]: a scoped not-found stays typed, anything else is the ledger's. *)
Definition ledgerCall {A} (operation : ledgerOperation) (p : program World (result StoreError A)) :
    program World (exit ToolDispatchError A) :=
  andThen p (λ r, Done match r with
    | Ok a => Success a
    | Err (NotFoundError what id) => Failure (DispatchNotFound what id)
    | Err _ => Failure (ToolLedgerError operation)
    end).

Definition PROVIDER_FAILURE_KINDS : list jstr :=
  [u "gone"; u "not_found"; u "rate_limited"; u "timed_out"; u "auth_failed"].

(** The kind and detail of a classified failure. *)
Definition isProviderFailure (value : jsval) : option (jstr * option jstr) :=
  match value with
  | JObject fields =>
      match getField (u "kind") fields, getField (u "detail") fields with
      | JString kind, JUndefined => if isMember kind PROVIDER_FAILURE_KINDS then Some (kind, None) else None
      | JString kind, JString detail =>
          if isMember kind PROVIDER_FAILURE_KINDS then Some (kind, Some detail) else None
      | _, _ => None
      end
  | _ => None
  end.

Definition genericFailure (tool : jstr) : jstr := u "tool " ++ quoted tool ++ u " failed".

Definition failureMessage (failure : option HandlerFailure) (r : ToolRegistration) : jstr :=
  let tool := regName r in
  let classified value :=
    match isProviderFailure value with
    | Some (kind, detail) =>
        let text := genericFailure tool ++ u " (" ++ kind ++ u ")" in
        match detail with
        | None | Some [] => text
        | Some detail => text ++ u ": " ++ detail
        end
    | None => genericFailure tool
    end in
  match failure with
  | None | Some (FailedLeaseLost _) => genericFailure tool
  | Some ToolDurationExceeded =>
      u "tool " ++ quoted tool ++ u " exceeded its " ++
      u (pretty (default 0%Z (safeInteger (regMaxDurationMs r)))) ++ u "ms budget"
  | Some (UnknownException cause) => classified cause
  | Some (FailedValue value) => classified value
  end.

(** The outcome of a handler, or the failure that stops the run. *)
Definition handlerOutcome (r : ToolRegistration) (ended : HandlerExit) :
    exit ToolDispatchError ToolOutcome :=
  match ended with
  | Returned value => Success (CompletedWith value)
  | CauseInterrupted => Interrupted
  | Failed (FailedLeaseLost runId) => Failure (DispatchLeaseLost runId)
  | Failed failure => Success (FailedWith (failureMessage (Some failure) r))
  | CauseOther => Success (FailedWith (failureMessage None r))
  end.

Section dispatch.
Context (ledger : ToolCallLedger) (heartbeat : program World (result jstr unit))
  (registry : gmap jstr ToolRegistration).

(** The handler under its budget: [budget] statements of it run before the budget
    is over, [None] when it ends in time. *)
Definition withinBudget (budget : option nat) (p : program World HandlerExit) :
    program World HandlerExit :=
  match budget with Some n => cutAfter n (Failed ToolDurationExceeded) p | None => p end.

(** Past a [started] admission. *)
Definition runHandler (budget : option nat) (r : ToolRegistration) (call : ToolCall) :
    program World (exit ToolDispatchError ToolOutcome) :=
  andThen heartbeat (λ beat,
  match beat with
  | Err runId => Done (Failure (DispatchLeaseLost runId))
  | Ok _ =>
      Query (enter (callKeyOf call)) (λ _,
      andThen (withinBudget budget (regExecute r call)) (λ ended,
      match handlerOutcome r ended with
      | Success (CompletedWith value) => ledgerCall op_complete (ledgerComplete ledger call value)
      | Success (FailedWith error) => ledgerCall op_fail (ledgerFail ledger call error)
      | Failure e => Done (Failure e)
      | Interrupted => Done Interrupted
      end))
  end).

Definition executeTool (budget : option nat) (call : ToolCall) :
    program World (exit ToolDispatchError ToolOutcome) :=
  match missingField call with
  | Some field => Done (Failure (InvalidToolCallError field))
  | None =>
      match registry !! callTool call with
      | None => Done (Failure (UnknownToolError (callTool call)))
      | Some r =>
          andThen (ledgerCall op_begin (ledgerBegin ledger call)) (λ admission,
          match admission with
          | Failure e => Done (Failure e)
          | Interrupted => Done Interrupted
          | Success (AlreadyCompleted value) => Done (Success (CompletedWith (default JNull value)))
          | Success (AlreadyFailed error) => Done (Success (FailedWith error))
          | Success StillInFlight =>
              Done (Failure (ToolCallConflictError (callRunId call) (callId call) conflict_in_flight))
          | Success CallIdReused =>
              Done (Failure (ToolCallConflictError (callRunId call) (callId call)
                               conflict_call_id_reused))
          | Success Started => runHandler budget r call
          end)
      end
  end.
End dispatch.

Record ToolDispatcher := {
  canHandle : jstr → bool;
  definitions : list ModelToolDefinition;
  execute : option nat → ToolCall → program World (exit ToolDispatchError ToolOutcome) }.

Definition createToolDispatcher (registrations : list ToolRegistration) (ledger : ToolCallLedger)
    (leaseTtlMs : jsnum) (heartbeat : program World (result jstr unit)) :
    result ToolRegistrationError ToolDispatcher :=
  match isPositiveSafe leaseTtlMs with
  | None => Err {| reason := invalid_lease_ttl; errorTool := [] |}
  | Some ttl =>
      registry ← buildRegistry registrations ttl ∅;
      Ok {| canHandle tool := bool_decide (is_Some (registry !! tool));
            definitions := definitionOf <$> registrations;
            execute := executeTool ledger heartbeat registry |}
  end.
