(* ===== verification/ToolExecution.v ===== *)
(** What the tool dispatcher promises: the offered list and the running code agree,
    a handler is entered at most once for a call id under every interleaving of
    every dispatcher, and the outcome returned is the one recorded. *)

From S2P Require Import Prelude JsText JsValue Json Statements Threads RunTables.
From S2P Require Import ToolCallLedger ApprovalStore RunInterleaving RunOnce ToolDispatcher.

(** ** The registry *)

Definition registrationOk (leaseTtlMs : Z) (r : ToolRegistration) : Prop :=
  trim (regName r) ≠ [] ∧ regName r = trim (regName r) ∧ trim (regDescription r) ≠ [] ∧
  asRecord (regParameters r) ≠ None ∧
  ∃ duration, isPositiveSafe (regMaxDurationMs r) = Some duration ∧ (duration ≤ leaseTtlMs)%Z.

Lemma validateRegistration_none r ttl registry :
  validateRegistration r ttl registry = None ↔
  registrationOk ttl r ∧ registry !! regName r = None.
Proof.
  unfold validateRegistration, registrationOk. unfold is_Some.
  repeat case_bool_decide; cbn [negb]; try naive_solver.
  assert (registry !! regName r = None) as Hn by (apply eq_None_not_Some; unfold is_Some; naive_solver).
  destruct (isPositiveSafe (regMaxDurationMs r)) as [d|].
  - destruct (Z.ltb_spec ttl d); split; try done.
    + intros [(_ & _ & _ & _ & d' & [= <-] & ?) _]. lia.
    + intros _. split_and!; try done. exists d. split; [done|lia].
  - split; [done|]. by intros [(_ & _ & _ & _ & d' & ? & _) _].
Qed.

Lemma buildRegistry_ok registrations ttl registry0 registry :
  buildRegistry registrations ttl registry0 = Ok registry →
  Forall (registrationOk ttl) registrations ∧ NoDup (regName <$> registrations) ∧
  (∀ r, r ∈ registrations → registry0 !! regName r = None) ∧
  ∀ n r, registry !! n = Some r ↔
    registry0 !! n = Some r ∨ (r ∈ registrations ∧ regName r = n).
Proof.
  revert registry0. induction registrations as [|r rest IH]; intros registry0; cbn [buildRegistry].
  - intros [= <-]. split_and!; [constructor..|by intros r ?%elem_of_nil|].
    intros n r. rewrite elem_of_nil. naive_solver.
  - destruct (validateRegistration r ttl registry0) eqn:Hv; [done|].
    apply validateRegistration_none in Hv as [Hok Hn]. intros (Hf & Hnd & H0 & Hl)%IH.
    assert (∀ r', r' ∈ rest → regName r' ≠ regName r ∧ registry0 !! regName r' = None) as Hne.
    { intros r' Hr'. specialize (H0 r' Hr'). by apply lookup_insert_None in H0 as [? ?]. }
    split_and!.
    + by constructor.
    + rewrite fmap_cons. constructor; [|done]. intros (r' & Heq & Hr')%list_elem_of_fmap.
      by destruct (Hne r' Hr') as [[] _].
    + intros r' [->|Hr']%elem_of_cons; [done|by apply Hne].
    + intros n r'. rewrite Hl, elem_of_cons, lookup_insert_Some. naive_solver.
Qed.

Lemma buildRegistry_builds registrations ttl registry0 :
  Forall (registrationOk ttl) registrations → NoDup (regName <$> registrations) →
  (∀ r, r ∈ registrations → registry0 !! regName r = None) →
  ∃ registry, buildRegistry registrations ttl registry0 = Ok registry.
Proof.
  intros Hf. revert registry0. induction Hf as [|r rest Hr _ IH]; intros registry0 Hnd H0; [by eexists|].
  rewrite fmap_cons in Hnd. apply NoDup_cons in Hnd as [Hn Hnd]. cbn [buildRegistry].
  assert (validateRegistration r ttl registry0 = None) as ->.
  { apply validateRegistration_none. split; [done|]. apply H0. left. }
  apply IH; [done|]. intros r' Hr'. rewrite lookup_insert_ne; [by apply H0; right|].
  intros Heq. apply Hn, list_elem_of_fmap. by exists r'.
Qed.

(** A dispatcher is built exactly when every registration is well formed, fits the
    lease and has a name of its own; the tools it offers, in the registrations'
    order, are then exactly the names it handles, and a call of any other name is
    refused before anything is claimed. *)
Theorem createToolDispatcher_exact registrations ledger ttl heartbeat :
  (is_ok (createToolDispatcher registrations ledger ttl heartbeat) = true ↔
   ∃ t, isPositiveSafe ttl = Some t ∧ Forall (registrationOk t) registrations ∧
        NoDup (regName <$> registrations)) ∧
  ∀ d, createToolDispatcher registrations ledger ttl heartbeat = Ok d →
    definitions d = definitionOf <$> registrations ∧
    (∀ tool, canHandle d tool = true ↔ tool ∈ toolName <$> definitions d) ∧
    ∀ budget call, missingField call = None → canHandle d (callTool call) = false →
      execute d budget call = Done (Failure (UnknownToolError (callTool call))).
Proof.
  unfold createToolDispatcher. split.
  - destruct (isPositiveSafe ttl) as [t|]; [|naive_solver]. split.
    + destruct (buildRegistry registrations t ∅) as [registry|] eqn:E; [|done]. intros _.
      apply buildRegistry_ok in E as (? & ? & _). by exists t.
    + intros (t' & [= <-] & Hf & Hnd). destruct (buildRegistry_builds _ t ∅ Hf Hnd) as [registry ->]; [|done].
      intros r _. apply lookup_empty.
  - intros d. destruct (isPositiveSafe ttl) as [t|]; [|done].
    destruct (buildRegistry registrations t ∅) as [registry|] eqn:E; [|done]. intros [= <-].
    apply buildRegistry_ok in E as (_ & _ & _ & Hl). cbn [definitions canHandle execute].
    split_and!; [done| |].
    + intros tool. rewrite bool_decide_eq_true, <- list_fmap_compose, list_elem_of_fmap. unfold is_Some.
      setoid_rewrite Hl. setoid_rewrite lookup_empty. cbn. naive_solver.
    + intros budget call Hm Hc%bool_decide_eq_false. unfold executeTool. rewrite Hm.
      by apply eq_None_not_Some in Hc as ->.
Qed.

(** ** Entering once *)

(** A call's row exists. *)
Definition claimedCall (db : Database) (key : callKey) : Prop := is_Some (effectRows db !! key).

Lemma claimedCall_kept db db' key : dbStep db db' → claimedCall db key → claimedCall db' key.
Proof.
  intros Hs [e He]. destruct (effect_kept db db' key e (rtc_once _ _ Hs) He) as (e' & He' & _). by exists e'.
Qed.

(** What the dispatcher needs of a ledger: whoever is answered [Started] took the
    claim itself, and settling makes no entry. *)
Class LedgerOnce (ledger : ToolCallLedger) : Prop := {
  begin_takes call : disciplined dbStep claimedCall (callKeyOf call) false (ledgerBegin ledger call)
    (λ h a, a = Ok Started → h = true);
  complete_quiet call value : issues (quiet dbStep) (ledgerComplete ledger call value);
  fail_quiet call error : issues (quiet dbStep) (ledgerFail ledger call error) }.

Lemma settlement_issues s call value :
  issues (isStep dbStep) (complete s call value) ∧ ∀ error, issues (isStep dbStep) (fail s call error).
Proof.
  split; [|intros error].
  - destruct (settlement_program s call value [] _ (or_introl eq_refl)) as (st & par & out & Hst & -> & _).
    cbn [issues]. split; [|done]. intros now db. by apply rtc_once, step_settleEffect.
  - destruct (settlement_program s call JNull error _ (or_intror eq_refl)) as (st & par & out & Hst & -> & _).
    cbn [issues]. split; [|done]. intros now db. by apply rtc_once, step_settleEffect.
Qed.

(** The insert of a claim takes it or leaves the tables alone. *)
Lemma insertEffect_move s call v now (w : World) :
  let w' := (onReal (insertEffect s call v) now w).2 in
  match (onReal (insertEffect s call v) now w).1 with
  | Ok true => tokenMove dbStep claimedCall (callKeyOf call) false w w' true
  | _ => tokenMove dbStep claimedCall (callKeyOf call) false w w' false
  end.
Proof.
  unfold onReal. pose proof (step_insertEffect (real w) s call v now) as Hstep.
  destruct (insertEffect s call v now (real w)) as [x db1] eqn:E. cbn [fst snd] in *.
  destruct x as [[|]|err]; [|by apply move_quiet; [apply rtc_once|]..].
  apply move_take; [by apply rtc_once|..|done]; cbn.
  - unfold insertEffect in E. intros [e He]. unfold callKeyOf in He. rewrite He in E.
    clear -E. dms.
  - apply insertEffect_true in E as [_ E]. by eexists.
Qed.

#[export] Instance createExternalEffectLedger_once s : LedgerOnce (createExternalEffectLedger s).
Proof.
  split.
  - intros call. cbn [ledgerBegin createExternalEffectLedger]. unfold begin.
    destruct (argumentsJson call) as [v|]; [|done]. cbn [mbind option_bind onRealProgram disciplined].
    intros now w. pose proof (insertEffect_move s call v now w) as Hm.
    destruct (onReal (insertEffect s call v) now w) as [x w']. cbn [fst snd] in *.
    destruct x as [[|]|err]; [by exists true| |by exists false].
    exists false. split; [done|]. cbn [onRealProgram disciplined]. intros now' w1. exists false.
    split; [by apply move_quiet|]. destruct (onReal (readEffect s call) now' w1) as [[e|] w2]; cbn; [|done].
    intros [= Ha]. unfold admit_existing in Ha. destruct (_ || _); [done|]. by destruct (efStatus e).
  - intros call value. apply onRealProgram_quiet, settlement_issues.
  - intros call error. apply onRealProgram_quiet. by apply (settlement_issues s call JNull).
Qed.

(** Handlers and heartbeats issue statements of their own, and enter nothing. *)
Definition handlersQuiet (registry : gmap jstr ToolRegistration) : Prop :=
  ∀ n r call, registry !! n = Some r → issues (quiet dbStep) (regExecute r call).

Lemma ledgerCall_mono {A} key h op (p : program World (result StoreError A)) Q :
  disciplined dbStep claimedCall key h p
    (λ h' r, ∀ a, (∀ v, a = Success v → r = Ok v) → a ≠ Interrupted → Q h' a) →
  disciplined dbStep claimedCall key h (ledgerCall op p) Q.
Proof.
  intros Hp. apply disciplined_andThen. eapply disciplined_mono; [exact Hp|]. intros h' r Hq. cbn.
  apply Hq; destruct r as [v|[]]; try done; by intros ? [= ->].
Qed.

Lemma executeTool_disciplined ledger heartbeat registry budget call :
  LedgerOnce ledger → issues (quiet dbStep) heartbeat → handlersQuiet registry →
  disciplined dbStep claimedCall (callKeyOf call) false
    (executeTool ledger heartbeat registry budget call) (λ _ _, True).
Proof.
  intros Hl Hb Hr. unfold executeTool. destruct (missingField call); [done|].
  destruct (registry !! callTool call) as [r|] eqn:Er; [|done].
  apply disciplined_andThen, ledgerCall_mono. eapply disciplined_mono; [apply begin_takes|].
  intros h x Hx a Ha _. destruct a as [[]| |]; try done. rewrite (Hx (Ha _ eq_refl)). clear x Hx Ha h.
  unfold runHandler. apply disciplined_andThen. eapply disciplined_mono; [by apply quiet_disciplined|].
  intros h [_|id] ->; [|done]. cbn [disciplined]. intros now w. exists false. split; [by apply move_enter|].
  apply disciplined_andThen. eapply disciplined_mono.
  { apply quiet_disciplined. unfold withinBudget. specialize (Hr _ _ call Er).
    destruct budget; [by apply issues_cutAfter|done]. }
  intros h ended ->. destruct (handlerOutcome r ended) as [[value|error]|e|]; try done;
    apply ledgerCall_mono; (eapply disciplined_mono; [apply quiet_disciplined|done]);
    [apply complete_quiet|apply fail_quiet].
Qed.

(** The threads that dispatch a call, each with its own space, tools, heartbeat and
    budget. *)
Definition dispatches (key : callKey) (p : program World (exit ToolDispatchError ToolOutcome)) : Prop :=
  ∃ ledger heartbeat registry budget call,
    LedgerOnce ledger ∧ issues (quiet dbStep) heartbeat ∧ handlersQuiet registry ∧
    key = callKeyOf call ∧ p = executeTool ledger heartbeat registry budget call.

(** C6. However many dispatchers of however many workers run, crash and start again,
    interleaved with every other statement on the tables, the handler of a call id
    is entered at most once, and only behind the call's durable row. *)
Theorem handler_enters_once db ps w :
  rtc (poolStep dbStep dispatches) ([], {| real := db; entries := [] |}) (ps, w) →
  NoDup (entries w) ∧ ∀ key, key ∈ entries w → is_Some (effectRows (real w) !! key).
Proof.
  intros Hs. eapply (pool_enters_once dbStep claimedCall claimedCall_kept dispatches); [|exact Hs].
  clear Hs.
  intros key p (ledger & heartbeat & registry & budget & call & Hl & Hb & Hr & -> & ->).
  by apply executeTool_disciplined.
Qed.

(** ** The outcome *)

(** The outcome a settled row stands for. *)
Definition recordedOutcome (e : EffectRow) : ToolOutcome :=
  match efStatus e with
  | ef_completed => CompletedWith (default JNull (efResult e))
  | _ => FailedWith (storedError (efResult e))
  end.

Lemma ledgerCall_runs {A} step op (p : program World (result StoreError A)) now w x w' :
  runs step (ledgerCall op p) now w x w' →
  ∃ r, runs step p now w r w' ∧ x ≠ Interrupted ∧ (∀ a, x = Success a → r = Ok a).
Proof.
  intros (r & n1 & w1 & _ & Hp & Hk)%runs_andThen. cbn [runs] in Hk. destruct Hk as [-> ->].
  exists r. destruct r as [a|[]]; split_and!; try done; by intros ? [= ->].
Qed.

Lemma begin_runs s call now w r w' :
  runs (loggedStep dbStep) (ledgerBegin (createExternalEffectLedger s) call) now w (Ok r) w' →
  ∃ p, begin s call = Some p ∧ runs dbStep p now (real w) (Ok r) (real w').
Proof.
  cbn [ledgerBegin createExternalEffectLedger]. destruct (begin s call) as [p|]; [|by intros [? _]].
  intros Hr%runs_onReal. by exists p.
Qed.

(** Whatever outcome a dispatched call answers with, the call's row holds it,
    settled, and holds it for good: the value as it is stored, or the sentence. *)
Theorem dispatched_outcome_recorded s heartbeat registry budget call now w out w' :
  runs (loggedStep dbStep)
    (executeTool (createExternalEffectLedger s) heartbeat registry budget call) now w (Success out) w' →
  ∃ e, effectRows (real w') !! callKeyOf call = Some e ∧ isInFlight (efStatus e) = false ∧
    (out = recordedOutcome e ∨
     match out with
     | CompletedWith v => efStatus e = ef_completed ∧ efResult e = serializeResult v
     | FailedWith why => efStatus e = ef_failed ∧ efResult e = errorResult <$> textParameter why
     end) ∧
    ∀ w2, rtc (loggedStep dbStep) w' w2 → effectRows (real w2) !! callKeyOf call = Some e.
Proof.
  unfold executeTool. destruct (missingField call); [by intros [? _]|].
  destruct (registry !! callTool call) as [r|]; [|by intros [? _]].
  intros (adm & n1 & w1 & _ & (b & Hb & _ & Hadm)%ledgerCall_runs & Hk)%runs_andThen.
  enough (∃ e, effectRows (real w') !! callKeyOf call = Some e ∧ isInFlight (efStatus e) = false ∧
    (out = recordedOutcome e ∨ match out with
     | CompletedWith v => efStatus e = ef_completed ∧ efResult e = serializeResult v
     | FailedWith why => efStatus e = ef_failed ∧ efResult e = errorResult <$> textParameter why
     end)) as (e & He & Hf & Ho).
  { exists e. split_and!; [done..|]. intros w2 H2%loggedSteps_real.
    destruct (effect_kept _ _ _ _ H2 He) as (e2 & He2 & Hev). by rewrite (ee_settled _ _ Hev Hf) in He2. }
  destruct adm as [a| |]; cbn [runs] in Hk; [|by destruct Hk..].
  rewrite (Hadm _ eq_refl) in Hb. apply begin_runs in Hb as (p & Hp & Hb).
  pose proof (begin_answer _ _ _ _ _ _ _ Hp Hb) as Hans.
  destruct a as [|v|why| |]; cbn [runs] in Hk; [|destruct Hk as [[= ->] ->]..|by destruct Hk|by destruct Hk].
  - apply runs_andThen in Hk as ([[]|] & n2 & w2 & _ & _ & Hk); cbn [runs] in Hk; [|by destruct Hk].
    destruct Hk as (n3 & w3 & _ & _ & Hk). apply runs_andThen in Hk as (ended & n4 & w4 & _ & _ & Hk).
    assert (∃ q o, (q = complete s call o.1 ∨ q = fail s call o.2) ∧
      ∃ n d5, runs dbStep q n d5 (Ok out) (real w')) as (q & o & Hq & n & d5 & Hr).
    { destruct (handlerOutcome r ended) as [[v|why]|e|]; cbn [runs] in Hk; [| |by destruct Hk..];
        apply ledgerCall_runs in Hk as (x & Hx & _ & Ho); rewrite (Ho _ eq_refl) in Hx;
        apply runs_onReal in Hx; eexists; [exists (v, [])|exists (JNull, why)]; eauto. }
    destruct (settlement_row _ _ _ _ _ _ _ _ _ Hq Hr) as (e & He & Hf & Ho). exists e.
    split_and!; [done..|right]. destruct out; naive_solver.
  - destruct Hans as (e & He & Hs & <-). exists e. unfold recordedOutcome. rewrite Hs.
    split_and!; [done..|by left].
  - destruct Hans as (e & He & Hs & <-). exists e. unfold recordedOutcome. rewrite Hs.
    split_and!; [done..|by left].
Qed.

(** A settled call is replayed: under any interleaving of others the same call, by
    any dispatcher of the space that has the tool, answers with the recorded outcome
    and enters no handler. *)
Theorem settled_call_replays s heartbeat registry budget call r now w x w' e :
  missingField call = None → registry !! callTool call = Some r →
  effectRows (real w) !! callKeyOf call = Some e →
  efStatus e = ef_completed ∨ efStatus e = ef_failed → efSpace e = s → efKind e = callTool call →
  argumentsJson call = Some (efRequest e) → storable (efRequest e) = true →
  runs (othersStep dbStep)
    (executeTool (createExternalEffectLedger s) heartbeat registry budget call) now w x w' →
  x = Success (recordedOutcome e) ∧ entries w' = entries w.
Proof.
  intros Hm Hr He Hst Hs Hk Ha Hstore. unfold executeTool. rewrite Hm, Hr.
  intros (adm & n1 & w1 & _ & (b & n2 & w2 & _ & Hb & Had)%runs_andThen & Hrun)%runs_andThen.
  cbn [runs] in Had. destruct Had as [-> ->]. cbn [ledgerBegin createExternalEffectLedger] in Hb.
  destruct (begin s call) as [p|] eqn:Hp; [|unfold begin in Hp; by rewrite Ha in Hp].
  assert (isInFlight (efStatus e) = false) as Hnf by (by destruct Hst as [-> | ->]).
  pose proof (runs_onReal_entries _ _ _ _ _ _ Hb) as Hent.
  assert (runs dbStep p now (real w) b (real w2)) as Hb'.
  { apply runs_onReal. eapply runs_weaken; [|exact Hb]. by intros ?? [? _]. }
  destruct (begin_taken _ _ _ _ _ _ _ _ Hp He Hb') as (_ & e' & He' & Hev & Hans).
  rewrite (ee_settled _ _ Hev Hnf) in *. rewrite (Hans _ Ha Hstore Hs) in Hrun.
  destruct (argumentsJson_isJson call) as (v & Hv & Hj). rewrite Ha in Hv. injection Hv as <-.
  rewrite admit_same in Hrun by done. unfold replayed, recordedOutcome in *.
  destruct Hst as [Hst|Hst]; rewrite Hst in *; cbn [runs] in Hrun; by destruct Hrun as [-> ->].
Qed.

(** ** Witnesses *)

Definition sampleTool : ToolRegistration :=
  {| regName := u "send_email"; regDescription := u "Sends an email."; regParameters := JObject [];
     regMaxDurationMs := NInt 1000; regExecute _ := Done (Returned (JString (u "sent"))) |}.

Definition sampleRegistry : gmap jstr ToolRegistration := {[ u "send_email" := sampleTool ]}.

Definition sampleExecute : program World (exit ToolDispatchError ToolOutcome) :=
  executeTool (createExternalEffectLedger (u "space")) (Done (Ok tt)) sampleRegistry None sampleCall.

Definition claimedWorld : World := {| real := claimed; entries := [] |}.

Lemma sampleExecute_dispatches : dispatches (callKeyOf sampleCall) sampleExecute.
Proof.
  exists (createExternalEffectLedger (u "space")), (Done (Ok tt)), sampleRegistry, None, sampleCall.
  split; [apply _|]. split; [done|]. split; [|done].
  intros n r call Hr. unfold sampleRegistry in Hr. by apply lookup_singleton_Some in Hr as [_ <-].
Qed.

(** Two workers dispatch the call at once, their statements alternating. *)
Definition samplePool :=
  runPool [0; 1; 0; 1; 0; 1; 0; 1]%nat 1
    [(callKeyOf sampleCall, sampleExecute); (callKeyOf sampleCall, sampleExecute)] claimedWorld.

Lemma handler_enters_once_witness :
  entries samplePool.2 = [callKeyOf sampleCall] ∧ NoDup (entries samplePool.2) ∧
  (λ p, match p.2 with Done a => Some a | _ => None end) <$> samplePool.1 =
    [Some (Success (CompletedWith (JString (u "sent"))));
     Some (Failure (ToolCallConflictError r1 (u "c1") conflict_in_flight))].
Proof.
  split; [vm_compute; reflexivity|]. split; [|vm_compute; reflexivity].
  apply (handler_enters_once claimed samplePool.1 samplePool.2).
  eapply rtc_l; [apply pool_start, sampleExecute_dispatches|].
  eapply rtc_l; [apply pool_start, sampleExecute_dispatches|].
  rewrite <- surjective_pairing. apply runPool_steps.
Defined.

Definition dispatchedWorld : World := (runAlone sampleExecute 1 claimedWorld).2.

Lemma dispatched_outcome_recorded_witness :
  ∃ e, effectRows (real dispatchedWorld) !! callKeyOf sampleCall = Some e ∧
       efStatus e = ef_completed.
Proof.
  pose proof (runAlone_runs (loggedStep dbStep) sampleExecute 1 claimedWorld) as Hr.
  assert ((runAlone sampleExecute 1 claimedWorld).1 = Success (CompletedWith (JString (u "sent"))))
    as Hx by (vm_compute; reflexivity).
  rewrite Hx in Hr.
  destruct (dispatched_outcome_recorded _ _ _ _ _ _ _ _ _ Hr) as (e & He & _ & Hout & _).
  exists e. split; [exact He|]. destruct Hout as [Hout|[Hs _]]; [|exact Hs].
  unfold recordedOutcome in Hout. destruct (efStatus e); [discriminate|discriminate|reflexivity|discriminate..].
Defined.

Lemma settled_call_replays_witness :
  (runAlone sampleExecute 2 dispatchedWorld).1 = Success (CompletedWith (JString (u "sent"))) ∧
  entries (runAlone sampleExecute 2 dispatchedWorld).2 = entries dispatchedWorld.
Proof.
  pose proof (runAlone_runs (othersStep dbStep) sampleExecute 2 dispatchedWorld) as Hr.
  assert (∃ e, effectRows (real dispatchedWorld) !! callKeyOf sampleCall = Some e ∧
    e = {| efSpace := u "space"; efKind := u "send_email"; efStatus := ef_completed;
           efRequest := callArguments sampleCall; efResult := Some (JString (u "sent")) |})
    as (e & He & Hq) by (eexists; split; [vm_compute; reflexivity|reflexivity]).
  subst e.
  destruct (settled_call_replays (u "space") (Done (Ok tt)) sampleRegistry None sampleCall sampleTool 2
    dispatchedWorld _ _ _ eq_refl eq_refl He (or_introl eq_refl) eq_refl eq_refl
    ltac:(vm_compute; reflexivity) ltac:(vm_compute; reflexivity) Hr) as [Hx Hent].
  split; [exact Hx|exact Hent].
Defined.
