(* ===== verification/ApprovalGate.v ===== *)
(** The durable approval gate, packages/effect/src/approval-gate.ts: opening the row
    and polling it until it is resolved.  The store is the interface the gate is
    written against; packages/db implements it.  A wait is a loop without a bound:
    here it is given the host clock's readings, one for each poll, and answers
    [StillWaiting] when they are used up. *)

From S2P Require Import Prelude JsText JsValue Redaction Json RunState Approvals Statements.
From S2P Require Import Threads RunTables RunLeases ToolCallLedger ApprovalStore RunInterleaving RunOnce.

(** ** The store *)

Record ApprovalStore := {
  storeOpen : ApprovalRequest → program Database (result StoreError ApprovalRow);
  storeFind : jstr → jstr → program Database (result StoreError (option ApprovalRow));
  storeResolveTimeout : jstr → jstr → program Database (result StoreError ApprovalRow) }.

(** [systemApprovalStore] of packages/db/src/approval-store.ts. *)
Definition systemApprovalStore (spaceId : jstr) : ApprovalStore :=
  {| storeOpen request := default (Done (Err DatabaseFailure)) (open spaceId request);
     storeFind runId callId := Query (findApproval spaceId runId callId) (λ a, Done (Ok a));
     storeResolveTimeout := resolveTimeout spaceId |}.

Inductive gateOperation := gate_open | gate_read | gate_time_out.
Inductive gateField := gate_callId | gate_tool.

Inductive ApprovalGateError :=
| ApprovalStoreError (operation : gateOperation)
| GateNotFound (what id : jstr)
| GateInvalidToolCall (field : gateField)
| GateTimeoutError (callId : jstr).

(** [storeCall]: the scoped not-found stays typed, anything else is the store's. *)
Definition storeCall {A} (operation : gateOperation) (p : program Database (result StoreError A)) :
    program Database (result ApprovalGateError A) :=
  andThen p (λ r, Done match r with
    | Ok a => Ok a
    | Err (NotFoundError what id) => Err (GateNotFound what id)
    | Err _ => Err (ApprovalStoreError operation)
    end).

(** ** The gate *)

Record GateInput := { giCallId : jstr; giTool : jstr; giArguments : jsval }.

Definition blankField (input : GateInput) : option gateField :=
  if isBlank (giCallId input) then Some gate_callId
  else if isBlank (giTool input) then Some gate_tool
  else None.

(** [new Date(ms)] as a [timestamptz] parameter: outside the range of [Date] it is
    an invalid date, which the column refuses. *)
Definition dateParameter (ms : Z) : option Z :=
  if (Z.abs ms <=? 8640000000000000)%Z then Some (ms * 1000)%Z else None.

Definition gateOpen (store : ApprovalStore) (runId : jstr) (timeoutMs hostNow : Z) (input : GateInput) :
    program Database (result ApprovalGateError ApprovalRow) :=
  match blankField input with
  | Some field => Done (Err (GateInvalidToolCall field))
  | None =>
      storeCall gate_open
        match dateParameter (hostNow + timeoutMs) with
        | None => Done (Err DatabaseFailure)
        | Some expiresAt =>
            storeOpen store {| reqRunId := runId; reqCallId := giCallId input;
                               reqTool := giTool input; reqArguments := redact (giArguments input);
                               reqExpiresAt := expiresAt |}
        end
  end.

Inductive waitOutcome :=
| Settled (record : ApprovalRow)
| WaitFailed (error : ApprovalGateError)
| StillWaiting.

(** What a resolved status answers; [None] while it is pending. *)
Definition settledOutcome (callId : jstr) (a : ApprovalRow) : option waitOutcome :=
  match arStatus a with
  | resolved approved | resolved denied => Some (Settled a)
  | resolved timed_out => Some (WaitFailed (GateTimeoutError callId))
  | pending => None
  end.

Fixpoint waitFor (store : ApprovalStore) (readings : list Z) (runId callId : jstr) :
    program Database waitOutcome :=
  match readings with
  | [] => Done StillWaiting
  | now :: readings' =>
      andThen (storeCall gate_read (storeFind store runId callId)) (λ read,
      match read with
      | Err e => Done (WaitFailed e)
      | Ok None => Done (WaitFailed (GateNotFound (u "approval") callId))
      | Ok (Some current) =>
          match settledOutcome callId current with
          | Some outcome => Done outcome
          | None =>
              if (columnDate (arExpiresAt current) <=? now)%Z then
                andThen (storeCall gate_time_out (storeResolveTimeout store runId callId)) (λ timedOut,
                match timedOut with
                | Err e => Done (WaitFailed e)
                | Ok settled =>
                    match settledOutcome callId settled with
                    | Some outcome => Done outcome
                    | None => waitFor store readings' runId callId
                    end
                end)
              else waitFor store readings' runId callId
          end
      end)
  end.

(** [createApprovalGate]: [None] for the [RangeError] of a bad timeout or interval.
    The interval only spaces the polls. *)
Record ApprovalGate := {
  openRequest : Z → GateInput → program Database (result ApprovalGateError ApprovalRow);
  awaitDecision : list Z → jstr → jstr → program Database waitOutcome }.

Definition positiveInteger (n : jsnum) : option Z :=
  match safeInteger n with Some z => if (0 <? z)%Z then Some z else None | None => None end.

Definition createApprovalGate (store : ApprovalStore) (runId : jstr) (timeoutMs pollIntervalMs : jsnum) :
    option ApprovalGate :=
  match positiveInteger timeoutMs, positiveInteger pollIntervalMs with
  | Some timeout, Some _ =>
      Some {| openRequest := gateOpen store runId timeout; awaitDecision := waitFor store |}
  | _, _ => None
  end.

(** ** One poll of the durable store *)

(** A row whose outcome is known, for good. *)
Definition resolvedTo (db : Database) (runId callId : jstr) (a : ApprovalRow) : Prop :=
  ∀ db2, rtc dbStep db db2 → approvalRows db2 !! (runId, callId) = Some a.

Lemma resolvedTo_row db runId callId a :
  approvalRows db !! (runId, callId) = Some a → arStatus a ≠ pending → resolvedTo db runId callId a.
Proof. intros Ha Hp db2 Hs. by eapply resolved_final. Qed.

Lemma storeCall_runs {A} op (p : program Database (result StoreError A)) now db x db' :
  runs dbStep (storeCall op p) now db x db' →
  ∃ r, runs dbStep p now db r db' ∧
    x = match r with
        | Ok a => Ok a
        | Err (NotFoundError what id) => Err (GateNotFound what id)
        | Err _ => Err (ApprovalStoreError op)
        end.
Proof.
  intros (r & n1 & d1 & _ & Hp & Hk)%runs_andThen. cbn [runs] in Hk. destruct Hk as [-> ->]. by exists r.
Qed.

Lemma find_runs s id c now db x db' :
  runs dbStep (storeCall gate_read (storeFind (systemApprovalStore s) id c)) now db x db' →
  ∃ n, (now ≤ n)%Z ∧ rtc dbStep db db' ∧ x = Ok (findApproval s id c n db').1.
Proof.
  intros (r & Hr & ->)%storeCall_runs. cbn [storeFind systemApprovalStore runs] in Hr.
  destruct Hr as (n & d & Hn & Hs & -> & ->). exists n. by split_and!.
Qed.

(** Settling a deadline answers with the row, pending only before it. *)
Lemma resolveTimeout_runs s id c now db x db' a0 :
  approvalRows db !! (id, c) = Some a0 → arSpace a0 = s →
  runs dbStep (storeCall gate_time_out (storeResolveTimeout (systemApprovalStore s) id c)) now db x db' →
  ∃ a, x = Ok a ∧ approvalRows db' !! (id, c) = Some a ∧ approvalEvolves a0 a ∧ rtc dbStep db db' ∧
    (arStatus a = pending → (now < arExpiresAt a)%Z).
Proof.
  intros Ha0 Hsp (r & Hr & ->)%storeCall_runs. cbn [storeResolveTimeout systemApprovalStore] in Hr.
  unfold resolveTimeout in Hr. cbn [runs] in Hr. destruct Hr as (n1 & d1 & Hn1 & H1 & Hr).
  destruct (approval_kept _ _ _ _ H1 Ha0) as (a1 & Ha1 & Hev1).
  pose proof (step_timeoutApproval d1 s id c n1) as Hstep.
  destruct (timeoutApproval s id c n1 d1) as [[a|] d2] eqn:E; cbn [fst snd runs] in Hr, Hstep.
  - destruct Hr as [-> ->]. assert (rtc dbStep db d2) as Hsteps by (eapply rtc_r; eauto).
    apply resolveWhere_some in E as (a' & _ & _ & _ & _ & Heq & Hrow). exists a.
    destruct (approval_kept _ _ _ _ Hsteps Ha0) as (a2 & Ha2 & Hev). rewrite Hrow in Ha2.
    injection Ha2 as <-. split_and!; try done. intros Hp. by rewrite Heq in Hp.
  - destruct Hr as (n2 & d3 & Hn2 & H2 & Hr).
    destruct (resolveWhere_none _ _ _ _ _ _ _ _ a1 E) as [-> Hwhy]. specialize (Hwhy Ha1).
    destruct (approval_kept _ _ _ _ H2 Ha1) as (a3 & Ha3 & Hev3).
    unfold findApproval in Hr. rewrite Ha3 in Hr. cbn [fst snd] in Hr.
    assert (approvalEvolves a0 a3) as Hev by (by etrans).
    rewrite bool_decide_true in Hr by (by rewrite (pe_space _ _ Hev)). cbn [runs] in Hr.
    destruct Hr as [-> ->]. exists a3. split_and!; try done; [by etrans|]. intros Hp.
    destruct Hwhy as [Hs|[Hne|Hdue]].
    + by rewrite (pe_space _ _ Hev1) in Hs.
    + rewrite (pe_resolved _ _ Hev3 Hne) in Hp. done.
    + apply Z.leb_gt in Hdue. rewrite (pe_deadline _ _ Hev3). lia.
Qed.

Lemma settledOutcome_resolved callId a o :
  settledOutcome callId a = Some o →
  arStatus a ≠ pending ∧
  match o with
  | Settled a' => a' = a ∧ (arStatus a = resolved approved ∨ arStatus a = resolved denied)
  | WaitFailed e => e = GateTimeoutError callId ∧ arStatus a = resolved timed_out
  | StillWaiting => False
  end.
Proof. unfold settledOutcome. intros H. destruct (arStatus a) as [|[]] eqn:E; simplify_eq; naive_solver. Qed.

(** What one poll sees of a row that exists, and where the wait goes from there. *)
Lemma poll_runs s reading readings id c now db x db' a0 :
  approvalRows db !! (id, c) = Some a0 → arSpace a0 = s →
  runs dbStep (waitFor (systemApprovalStore s) (reading :: readings) id c) now db x db' →
  ∃ n d a, (now ≤ n)%Z ∧ rtc dbStep db d ∧ approvalRows d !! (id, c) = Some a ∧ approvalEvolves a0 a ∧
    match settledOutcome c a with
    | Some o => x = o ∧ db' = d
    | None => runs dbStep (waitFor (systemApprovalStore s) readings id c) n d x db' ∧
              ((columnDate (arExpiresAt a0) ≤ reading)%Z → (now < arExpiresAt a0)%Z)
    end.
Proof.
  intros Ha0 Hsp. cbn [waitFor]. intros (r & n1 & d1 & Hn1 & Hf & Hk)%runs_andThen.
  apply find_runs in Hf as (n & Hn & H1 & ->). destruct (approval_kept _ _ _ _ H1 Ha0) as (a1 & Ha1 & Hev1).
  unfold findApproval in Hk. rewrite Ha1, bool_decide_true in Hk by (by rewrite (pe_space _ _ Hev1)).
  cbn [fst] in Hk. destruct (settledOutcome c a1) as [o|] eqn:Eo.
  { cbn [runs] in Hk. destruct Hk as [-> ->]. exists n1, d1, a1. rewrite Eo. by split_and!. }
  destruct (Z.leb_spec (columnDate (arExpiresAt a1)) reading) as [Hle|Hlt];
    rewrite (pe_deadline _ _ Hev1) in *.
  2: { exists n1, d1, a1. rewrite Eo. split_and!; try done; lia. }
  apply runs_andThen in Hk as (r2 & n2 & d2 & Hn2 & Hr2 & Hk).
  apply (resolveTimeout_runs s id c n1 d1 r2 d2 a1) in Hr2 as (a2 & -> & Ha2 & Hev2 & H2 & Hp);
    [|done|by rewrite (pe_space _ _ Hev1)].
  assert (approvalEvolves a0 a2) as Hev by (by etrans).
  exists n2, d2, a2. split_and!; [lia|by etrans|done..|].
  destruct (settledOutcome c a2) as [o|] eqn:Eo2; cbn [runs] in Hk; [by destruct Hk|].
  split; [done|]. intros _. rewrite (pe_deadline _ _ Hev) in Hp. enough (n1 < arExpiresAt a0)%Z by lia.
  apply Hp. unfold settledOutcome in Eo2. by destruct (arStatus a2) as [|[]].
Qed.

(** The answer of a wait. *)
Lemma approval_wait_spec s readings id c now db x db' a0 :
  dbWf db → approvalRows db !! (id, c) = Some a0 → arSpace a0 = s →
  runs dbStep (waitFor (systemApprovalStore s) readings id c) now db x db' →
  match x with
  | Settled a =>
      (arStatus a = resolved approved ∨ arStatus a = resolved denied) ∧ approvalEvolves a0 a ∧
      arDecidedBy a ≠ None ∧ (∃ t, arDecidedAt a = Some t ∧ (t < arExpiresAt a)%Z) ∧
      resolvedTo db' id c a
  | WaitFailed e =>
      e = GateTimeoutError c ∧ ∃ a, arStatus a = resolved timed_out ∧ resolvedTo db' id c a
  | StillWaiting => True
  end.
Proof.
  intros Hwf Ha0 Hsp. revert now db a0 Hwf Ha0 Hsp.
  induction readings as [|reading readings IH]; intros now db a0 Hwf Ha0 Hsp Hr.
  { cbn [waitFor runs] in Hr. by destruct Hr as [-> _]. }
  destruct (poll_runs _ _ _ _ _ _ _ _ _ _ Ha0 Hsp Hr) as (n & d & a & _ & Hs & Ha & Hev & Hx).
  destruct (settledOutcome c a) as [o|] eqn:Eo.
  - destruct Hx as [-> ->]. apply settledOutcome_resolved in Eo as [Hp Ho].
    assert (approvalOk a) as Hok by (by eapply wf_approval, Ha; eapply dbSteps_wf).
    pose proof (resolvedTo_row _ _ _ _ Ha Hp) as Hfinal. unfold approvalOk in Hok.
    destruct o as [a'|e|]; [|destruct Ho as [-> Ht]; split; [done|by exists a]|done].
    destruct Ho as [-> [Hst|Hst]]; rewrite Hst in Hok; destruct Hok as (? & _ & ?); auto 10.
  - destruct Hx as [Hx _]. assert (dbWf d) as Hwf2 by (by eapply dbSteps_wf).
    specialize (IH n d a Hwf2 Ha (eq_trans (pe_space _ _ Hev) Hsp) Hx).
    destruct x; try done. destruct IH as (? & Hev2 & ?). split; [done|]. split; [by etrans|done].
Qed.

(** A wait answers with the row: an operator's decision or the timed-out failure only
    once the store holds that resolution, and then for good; the decision names its
    operator and was made before the deadline; and a wait on a row of the space
    fails in no other way. *)
Theorem approval_wait_sound s readings id c now db x db' a0 :
  dbWf db → approvalRows db !! (id, c) = Some a0 → arSpace a0 = s →
  runs dbStep (waitFor (systemApprovalStore s) readings id c) now db x db' →
  match x with
  | Settled a =>
      (arStatus a = resolved approved ∨ arStatus a = resolved denied) ∧ approvalEvolves a0 a ∧
      arDecidedBy a ≠ None ∧ (∃ t, arDecidedAt a = Some t ∧ (t < arExpiresAt a)%Z) ∧
      resolvedTo db' id c a
  | WaitFailed e =>
      e = GateTimeoutError c ∧ ∃ a, arStatus a = resolved timed_out ∧ resolvedTo db' id c a
  | StillWaiting => True
  end.
Proof. apply approval_wait_spec. Qed.

(** C40. A wait never hangs: a poll taken at or past the deadline on both clocks ends it,
    whatever else runs in between. *)
Theorem approval_wait_ends s reading readings id c now db x db' a0 :
  approvalRows db !! (id, c) = Some a0 → arSpace a0 = s → (arExpiresAt a0 ≤ now)%Z →
  (columnDate (arExpiresAt a0) ≤ reading)%Z →
  runs dbStep (waitFor (systemApprovalStore s) (reading :: readings) id c) now db x db' →
  x ≠ StillWaiting ∧ ∃ a, approvalRows db' !! (id, c) = Some a ∧ arStatus a ≠ pending.
Proof.
  intros Ha0 Hsp Hnow Hread Hr.
  destruct (poll_runs _ _ _ _ _ _ _ _ _ _ Ha0 Hsp Hr) as (n & d & a & _ & _ & Ha & _ & Hx).
  destruct (settledOutcome c a) as [o|] eqn:Eo; [|destruct Hx as [_ Hx]; specialize (Hx Hread); lia].
  destruct Hx as [-> ->]. apply settledOutcome_resolved in Eo as [Hp Ho].
  split; [by intros ->|by exists a].
Qed.

(** ** Witnesses *)
#[local] Open Scope Z_scope.

Definition sampleGate : ApprovalRequest :=
  {| reqRunId := r1; reqCallId := u "c1"; reqTool := u "send_email"; reqArguments := JObject [];
     reqExpiresAt := 600 * SECOND |}.

Definition gateDb : Database := (runAlone (storeOpen (systemApprovalStore (u "space")) sampleGate) 0 claimed).2.

Lemma gateDb_wf : dbWf gateDb.
Proof.
  eapply dbSteps_wf; [apply claimed_wf|]. apply rtc_once.
  apply (step_insertApproval claimed (u "space") sampleGate (Some (JObject [])) 0).
Qed.

(** The operator approves between two polls. *)
Definition approvedDb : Database :=
  (voteApproval (u "space") (u "operator")
     {| voteRunId := r1; voteCallId := u "c1"; vote := approve; voteReason := None |} SECOND gateDb).2.

Definition sampleWait := waitFor (systemApprovalStore (u "space")) [600000] r1 (u "c1").

Lemma approval_wait_sound_witness :
  ∃ a, (runAlone sampleWait (2 * SECOND) approvedDb).1 = Settled a ∧ arStatus a = resolved approved ∧
       arDecidedBy a ≠ None.
Proof.
  pose proof (runAlone_runs dbStep sampleWait (2 * SECOND) approvedDb) as Hr.
  assert (∃ a, (runAlone sampleWait (2 * SECOND) approvedDb).1 = Settled a ∧ arStatus a = resolved approved)
    as (a & Hx & Hst) by (eexists; split; [vm_compute; reflexivity|vm_compute; reflexivity]).
  rewrite Hx in Hr.
  assert (∃ a0, approvalRows approvedDb !! (r1, u "c1") = Some a0 ∧ arSpace a0 = u "space")
    as (a0 & Ha0 & Hs) by (eexists; split; [vm_compute; reflexivity|vm_compute; reflexivity]).
  assert (dbWf approvedDb) as Hwf.
  { eapply dbSteps_wf; [apply gateDb_wf|]. apply rtc_once. apply step_voteApproval. }
  destruct (approval_wait_sound _ _ _ _ _ _ _ _ _ Hwf Ha0 Hs Hr) as (_ & _ & Hby & _).
  exists a. split; [exact Hx|]. split; [exact Hst|exact Hby].
Defined.

Lemma approval_wait_ends_witness :
  (runAlone sampleWait (600 * SECOND) gateDb).1 ≠ StillWaiting.
Proof.
  pose proof (runAlone_runs dbStep sampleWait (600 * SECOND) gateDb) as Hr.
  assert (∃ a0, approvalRows gateDb !! (r1, u "c1") = Some a0 ∧ arSpace a0 = u "space" ∧
    arExpiresAt a0 = 600 * SECOND)
    as (a0 & Ha0 & Hs & He) by (eexists; split; [vm_compute; reflexivity|split; vm_compute; reflexivity]).
  assert (arExpiresAt a0 ≤ 600 * SECOND) as Hle by (rewrite He; lia).
  assert (columnDate (arExpiresAt a0) ≤ 600000) as Hd by (rewrite He; vm_compute; discriminate).
  exact (proj1 (approval_wait_ends (u "space") 600000 [] r1 (u "c1") _ _ _ _ _ Ha0 Hs Hle Hd Hr)).
Defined.
