(* ===== verification/DangerGuard.v ===== *)
(** The dangerous-action guard, packages/effect/src/danger-guard.ts: the register's
    classification, and for a flagged call the durable gate and the wait on it. *)

From S2P Require Import Prelude JsText JsValue Json RunState Approvals Statements Threads RunTables.
From S2P Require Import ToolCallLedger ApprovalStore RunInterleaving RunOnce ApprovalGate.
From S2P Require Import Url Files EgressPolicy DangerousActions.

Record DangerousActionGuardOptions := {
  guardStore : option ApprovalStore; guardHome : jstr; guardAllowlist : EgressAllowlist;
  guardTimeoutMs : jsnum; guardPollIntervalMs : jsnum }.

Inductive ActionAuthorization :=
| AuthAllowed
| AuthRefusedUrl
| AuthUnavailable (action : DangerousAction)
| AuthApproved (action : DangerousAction) (approval : ApprovalRow)
| AuthDenied (action : DangerousAction) (approval : ApprovalRow)
| AuthTimedOut (action : DangerousAction).

(** How [authorize] ends: a defect is an exception of the classification or of the
    gate's construction. *)
Inductive guardExit :=
| Authorized (authorization : ActionAuthorization)
| GuardFailed (error : ApprovalGateError)
| GuardDefect
| GuardWaiting.

Section guard.
Context `{UrlPlatform}.

Definition requestOf (options : DangerousActionGuardOptions) (call : ToolCall)
    (classes : option (list DangerousActionClass)) : DangerousActionRequest :=
  {| tool := callTool call; arguments := callArguments call; home := guardHome options;
     allowlist := guardAllowlist options; declared := classes |}.

(** [waitFor(requested)] with its map and its [catchIf]. *)
Definition authorizeWait (action : DangerousAction) (outcome : waitOutcome) : guardExit :=
  match outcome with
  | Settled record =>
      if bool_decide (arStatus record = resolved approved)
      then Authorized (AuthApproved action record) else Authorized (AuthDenied action record)
  | WaitFailed (GateTimeoutError _) => Authorized (AuthTimedOut action)
  | WaitFailed e => GuardFailed e
  | StillWaiting => GuardWaiting
  end.

Definition authorize (options : DangerousActionGuardOptions) (call : ToolCall)
    (classes : option (list DangerousActionClass)) (hostNow : Z) (readings : list Z) :
    program Database guardExit :=
  match classifyDangerousAction (requestOf options call classes) with
  | Err _ => Done GuardDefect
  | Ok Safe => Done (Authorized AuthAllowed)
  | Ok RefusedCall => Done (Authorized AuthRefusedUrl)
  | Ok (Dangerous action) =>
      match guardStore options with
      | None => Done (Authorized (AuthUnavailable action))
      | Some store =>
          match createApprovalGate store (callRunId call)
                  (guardTimeoutMs options) (guardPollIntervalMs options) with
          | None => Done GuardDefect
          | Some gate =>
              andThen (openRequest gate hostNow
                         {| giCallId := callId call; giTool := callTool call;
                            giArguments := callArguments call |}) (λ requested,
              match requested with
              | Err e => Done (GuardFailed e)
              | Ok _ =>
                  andThen (awaitDecision gate readings (callRunId call) (callId call)) (λ outcome,
                  Done (authorizeWait action outcome))
              end)
          end
      end
  end.

(** The result the model reads for a call that was not let through. *)
Definition actionRefusalResult (authorization : ActionAuthorization) : option jsval :=
  let refusal why action message more :=
    Some (JObject ([(u "ok", JBool false); (u "reason", JString why);
                    (u "class", JString (classText (action_class action)));
                    (u "message", JString message)] ++ more)) in
  match authorization with
  | AuthAllowed | AuthApproved _ _ => None
  | AuthRefusedUrl =>
      Some (JObject [(u "ok", JBool false); (u "reason", JString (u "invalid_url"));
                     (u "message", JString (u "the URL is not a valid destination"))])
  | AuthUnavailable action =>
      refusal (u "approval_unavailable") action
        (u "this run has no approval gate, so " ++ summary action ++ u " was refused") []
  | AuthTimedOut action =>
      refusal (u "approval_timed_out") action
        (u "no one answered the approval request to " ++ summary action ++ u " before the deadline") []
  | AuthDenied action approval =>
      refusal (u "approval_denied") action (u "the operator denied a request to " ++ summary action)
        (optField (u "operatorReason") (JString <$> arReason approval))
  end.

(** ** Lemmas *)

(** The row an [open] answers with, and what it leaves in the table. *)
Lemma storeOpen_runs s request now db x db' :
  runs dbStep (storeCall gate_open (storeOpen (systemApprovalStore s) request)) now db x db' →
  match x with
  | Ok a => approvalRows db' !! (reqRunId request, reqCallId request) = Some a ∧ arSpace a = s ∧
            rtc dbStep db db'
  | Err e => e = ApprovalStoreError gate_open ∨ e = GateNotFound (u "run") (reqRunId request)
  end.
Proof.
  intros (r & Hr & ->)%storeCall_runs. cbn [storeOpen systemApprovalStore] in Hr. unfold open in Hr.
  destruct (openArguments _) as [parameter|]; [|cbn [default runs] in Hr; destruct Hr as [-> _]; by left].
  cbn [mbind option_bind default runs] in Hr. destruct Hr as (n1 & d1 & _ & H1 & Hr).
  pose proof (step_insertApproval d1 s request parameter n1) as Hstep.
  destruct (insertApproval s request parameter n1 d1) as [y d2] eqn:E. cbn [fst snd] in Hr, Hstep.
  destruct y as [[a|]|e]; cbn [runs] in Hr.
  - destruct Hr as [-> ->]. unfold insertApproval in E. clear - E H1 Hstep.
    dms; split_and!; try (apply lookup_insert_eq); try done; by eapply rtc_r.
  - destruct Hr as (n2 & d3 & _ & H2 & Hr). unfold findApproval in Hr. cbn [fst snd] in Hr.
    assert (rtc dbStep db d3) as Hs by (etrans; [exact H1|]; by eapply rtc_l).
    destruct (approvalRows d3 !! _) as [a|] eqn:Ea; cbn [runs] in Hr; [|destruct Hr as [-> _]; by right].
    destruct (bool_decide (arSpace a = s)) eqn:Es; cbn [runs] in Hr; destruct Hr as [-> ->]; [|by right].
    by bools.
  - destruct Hr as [-> _]. unfold insertApproval in E. clear - E. dms; by left.
Qed.

(** What the guard may answer, by what the register says of the call. *)
Definition answersFor (s : jstr) (db : Database) (options : DangerousActionGuardOptions)
    (call : ToolCall) (classified : result ClassifyError DangerousActionClassification)
    (answer : guardExit) : Prop :=
  let row := resolvedTo db (callRunId call) (callId call) in
  match answer with
  | Authorized AuthAllowed => classified = Ok Safe
  | Authorized AuthRefusedUrl => classified = Ok RefusedCall
  | Authorized (AuthUnavailable action) => classified = Ok (Dangerous action) ∧ guardStore options = None
  | Authorized (AuthApproved action a) =>
      classified = Ok (Dangerous action) ∧ arStatus a = resolved approved ∧ arDecidedBy a ≠ None ∧
      (∃ t, arDecidedAt a = Some t ∧ (t < arExpiresAt a)%Z) ∧ row a
  | Authorized (AuthDenied action a) =>
      classified = Ok (Dangerous action) ∧ arStatus a = resolved denied ∧ arDecidedBy a ≠ None ∧ row a
  | Authorized (AuthTimedOut action) =>
      classified = Ok (Dangerous action) ∧ ∃ a, arStatus a = resolved timed_out ∧ row a
  | GuardFailed _ | GuardWaiting =>
      guardStore options ≠ None ∧ ∃ action, classified = Ok (Dangerous action)
  | GuardDefect => is_ok classified = false ∨ ∃ action, classified = Ok (Dangerous action)
  end.
End guard.

Lemma authorizeWait_answers `{UrlPlatform} s options call action outcome db1 now readings db db' a0 :
  guardStore options ≠ None → dbWf db →
  approvalRows db !! (callRunId call, callId call) = Some a0 → arSpace a0 = s →
  runs dbStep (waitFor (systemApprovalStore s) readings (callRunId call) (callId call)) now db outcome db1 →
  db' = db1 →
  answersFor s db' options call (Ok (Dangerous action)) (authorizeWait action outcome).
Proof.
  intros Hst Hwf Ha Hs Hr ->.
  pose proof (approval_wait_spec _ _ _ _ _ _ _ _ _ Hwf Ha Hs Hr) as Hw.
  destruct outcome as [a|e|]; cbn [authorizeWait].
  - destruct Hw as (Ho & _ & Hby & Ht & Hrow). case_bool_decide as Hd; cbn; [by split_and!|].
    destruct Ho as [Ho|Ho]; [done|]. by split_and!.
  - destruct Hw as [-> (a & Ha' & Hrow)]. cbn. split; [done|]. by exists a.
  - cbn. split; [done|]. by exists action.
Qed.

(** C18. A dangerous call goes ahead only on an operator's word: the guard answers allowed
    exactly for a call the register calls safe, refuses without a vote only what has
    no host or no gate to ask, and answers approved only when the call's durable row
    holds an approval that names its operator, was made before the deadline and is
    final; a denial and a timeout are the row's as well.  Waiting, a store failure
    and a defect let nothing through. *)
Theorem guard_needs_operator `{UrlPlatform} s options call classes hostNow readings now db x db' :
  dbWf db → guardStore options = None ∨ guardStore options = Some (systemApprovalStore s) →
  runs dbStep (authorize options call classes hostNow readings) now db x db' →
  answersFor s db' options call (classifyDangerousAction (requestOf options call classes)) x.
Proof.
  intros Hwf Hstore. unfold authorize.
  destruct (classifyDangerousAction _) as [[| |action]|e]; [by intros [-> _]..| |intros [-> _]; by left].
  destruct (guardStore options) as [store|] eqn:Eg; [|intros [-> _]; by split].
  destruct Hstore as [?|[= ->]]; [done|]. unfold createApprovalGate.
  destruct (positiveInteger (guardTimeoutMs options)) as [timeout|]; [|intros [-> _]; right; by eexists].
  destruct (positiveInteger _); [|intros [-> _]; right; by eexists]. cbn [openRequest awaitDecision].
  assert (guardStore options ≠ None) as Hst by by rewrite Eg.
  intros (r & n1 & d1 & _ & Ho & Hk)%runs_andThen. unfold gateOpen in Ho. cbn [giCallId giTool giArguments] in Ho.
  destruct r as [a|e]; [|cbn [runs] in Hk; destruct Hk as [-> _]; split; [done|by eexists]].
  destruct (blankField _); [by destruct Ho|].
  destruct (dateParameter _) as [expiresAt|]; [|by apply storeCall_runs in Ho as (r & [-> _] & Ho)].
  apply storeOpen_runs in Ho as (Ha & Hs & Hsteps). cbn [reqRunId reqCallId] in Ha.
  apply runs_andThen in Hk as (o & n2 & d2 & _ & Hw & Hk). cbn [runs] in Hk. destruct Hk as [-> ->].
  eapply authorizeWait_answers; [done| |exact Ha|done|exact Hw|done]. by eapply dbSteps_wf.
Qed.

(** ** Witnesses *)

Definition sampleOptions : DangerousActionGuardOptions :=
  {| guardStore := Some (systemApprovalStore (u "space")); guardHome := COMPUTER_HOME_DIRECTORY;
     guardAllowlist := EMPTY_EGRESS_ALLOWLIST; guardTimeoutMs := NInt 600000;
     guardPollIntervalMs := NInt 1000 |}.

Definition sampleGuarded : ToolCall :=
  {| callRunId := r1; callId := u "c1"; callTool := u "send_email"; callArguments := JObject [] |}.

Definition sampleAuthorize : program Database guardExit :=
  authorize sampleOptions sampleGuarded (Some [send]) 0 [0%Z; 600000%Z].

Lemma guard_needs_operator_witness :
  ∃ action a, (runAlone sampleAuthorize (2 * SECOND) approvedDb).1 = Authorized (AuthApproved action a) ∧
    arStatus a = resolved approved ∧ arDecidedBy a ≠ None.
Proof.
  pose proof (runAlone_runs dbStep sampleAuthorize (2 * SECOND) approvedDb) as Hr.
  assert (∃ action a, (runAlone sampleAuthorize (2 * SECOND) approvedDb).1 =
    Authorized (AuthApproved action a)) as (action & a & Hx) by (do 2 eexists; vm_compute; reflexivity).
  rewrite Hx in Hr.
  assert (dbWf approvedDb) as Hwf.
  { eapply dbSteps_wf; [apply gateDb_wf|]. apply rtc_once. apply step_voteApproval. }
  destruct (guard_needs_operator (u "space") sampleOptions _ _ _ _ _ _ _ _ Hwf (or_intror eq_refl) Hr)
    as (_ & Hst & Hby & _).
  exists action, a. split; [exact Hx|]. split; [exact Hst|exact Hby].
Defined.

(** Nobody answers: the wait settles the deadline and the call is denied. *)
Example unanswered_call_times_out :
  (runAlone sampleAuthorize (600 * SECOND) gateDb).1 =
    match (runAlone sampleAuthorize (600 * SECOND) gateDb).1 with
    | Authorized (AuthTimedOut action) => Authorized (AuthTimedOut action)
    | _ => GuardDefect
    end.
Proof. vm_compute. reflexivity. Qed.
