(* ===== verification/Addresses.v ===== *)
(** Which addresses a server may dial, the first half of
    packages/effect/src/url-safety.ts: the refused ranges, the reading of an IPv6
    address for the IPv4 address it carries, and the decision on one textual
    address.  [isIP] and [BlockList] are the platform's: an address is the text
    forms of RFC 4291 and a subnet is a prefix of the 128-bit number, an IPv4
    address being its mapped form. *)

From stdpp Require Import pretty.
From S2P Require Import Prelude JsText.

(** ** Numbers in an address *)

Definition isHexDigit (c : N) : bool :=
  isDigit c || ((97 <=? c) && (c <=? 102))%N || ((65 <=? c) && (c <=? 70))%N.

Definition hexDigit (c : N) : Z :=
  if isDigit c then (Z.of_N c - 48)%Z else if isLowerAscii c then (Z.of_N c - 87)%Z else (Z.of_N c - 55)%Z.

(** [Number.parseInt(token, 16)] on hexadecimal digits. *)
Definition parseHex (token : jstr) : Z := foldl (λ n c, (n * 16 + hexDigit c)%Z) 0%Z token.

(** [/^[0-9a-f]{1,4}$/i]. *)
Definition isHexGroup (token : jstr) : bool :=
  (1 <=? length token)%nat && (length token <=? 4)%nat && forallb isHexDigit token.

(** [Number(text)] on blank text and decimal digits; the other numerals do not occur
    in the text [isIP] has vouched for. *)
Definition toNumber (text : jstr) : option Z :=
  if isBlank text then Some 0%Z
  else if isDigits (trim text) then Some (numberOf (trim text)) else None.

Definition hasDot (token : jstr) : bool := includes [46%N] token.

(** The two groups four octets make. *)
Definition pairGroups (octets : list Z) : option (list Z) :=
  match octets with
  | [a; b; c; d] => Some [Z.lor (Z.shiftl a 8) b; Z.lor (Z.shiftl c 8) d]
  | _ => None
  end.

(** ** The platform: [isIP] and [BlockList] of node:net *)

Definition readOctet (part : jstr) : option Z :=
  if isDigits part && (length part <=? 3)%nat && (numberOf part <=? 255)%Z
     && (bool_decide (length part = 1) || negb (startsWith [48%N] part))
  then Some (numberOf part) else None.

Definition readIpv4 (text : jstr) : option (list Z) :=
  octets ← mapM readOctet (split 46 text);
  if (length octets =? 4)%nat then Some octets else None.

Definition readGroup (token : jstr) : option Z :=
  if isHexGroup token then Some (parseHex token) else None.

(** Groups of which the last may be a dotted quad. *)
Fixpoint readGroups (tokens : list jstr) : option (list Z) :=
  match tokens with
  | [] => Some []
  | token :: rest =>
      if hasDot token then
        match rest with [] => readIpv4 token ≫= pairGroups | _ => None end
      else g ← readGroup token; gs ← readGroups rest; Some (g :: gs)
  end.

(** The tokens before the first empty one, and those after it. *)
Fixpoint cutGap (tokens : list jstr) : list jstr * option (list jstr) :=
  match tokens with
  | [] => ([], None)
  | [] :: rest => ([], Some rest)
  | token :: rest => let (l, gap) := cutGap rest in (token :: l, gap)
  end.

(** The tokens right of [::], of which a leading and a trailing one leave an empty
    token more; [None] for a single colon at an end. *)
Definition afterGap (l r : list jstr) : option (list jstr) :=
  let r1 := match l, r with [], [] :: r' => Some r' | [], _ => None | _, _ => Some r end in
  match r1 with
  | None | Some [] => None
  | Some [[]] => Some []
  | Some r' => Some r'
  end.

Definition readIpv6 (text : jstr) : option (list Z) :=
  match cutGap (split 58 text) with
  | (l, None) => groups ← readGroups l; if (length groups =? 8)%nat then Some groups else None
  | (l, Some r) =>
      r' ← afterGap l r; head ← mapM readGroup l; tail ← readGroups r';
      if (length head + length tail <=? 7)%nat
      then Some (head ++ replicate (8 - (length head + length tail)) 0%Z ++ tail) else None
  end.

Definition isZoneChar (c : N) : bool :=
  isDigit c || isLowerAscii c || isUpperAscii c || (c =? 45)%N || (c =? 46)%N || (c =? 58)%N.

(** [isIP]: 4, 6 or 0; an IPv6 address may name a zone. *)
Definition isIP (text : jstr) : Z :=
  if bool_decide (is_Some (readIpv4 text)) then 4%Z
  else match indexOf 37 text with
  | None => if bool_decide (is_Some (readIpv6 text)) then 6%Z else 0%Z
  | Some i =>
      if bool_decide (is_Some (readIpv6 (take i text))) && (i + 1 <? length text)%nat
         && forallb isZoneChar (drop (i + 1) text)
      then 6%Z else 0%Z
  end.

Definition groupsNumber (groups : list Z) : Z := foldl (λ n g, (n * 65536 + g)%Z) 0%Z groups.
Definition octetsNumber (octets : list Z) : Z := foldl (λ n o, (n * 256 + o)%Z) 0%Z octets.

(** The mapped form of an IPv4 address. *)
Definition mapped (n : Z) : Z := (65535 * 2 ^ 32 + n)%Z.

Inductive family := ipv4 | ipv6.
#[export] Instance family_dec : EqDecision family. Proof. solve_decision. Defined.

(** [new SocketAddress({ address, family })] as its 128-bit number. *)
Definition socketAddress (address : jstr) (f : family) : option Z :=
  match f with
  | ipv4 => mapped ∘ octetsNumber <$> readIpv4 address
  | ipv6 => groupsNumber <$> readIpv6 address
  end.

Record Subnet := { subnetBase : Z; subnetPrefix : Z }.
Abbreviation BlockList := (list Subnet).

(** [blockList.addSubnet(network, prefix, type)]; [None] when it throws. *)
Definition addSubnet (network : jstr) (prefix : Z) (f : family) : option Subnet :=
  let bits := match f with ipv4 => 32%Z | ipv6 => 128%Z end in
  base ← socketAddress network f;
  if ((0 <=? prefix) && (prefix <=? bits))%Z
  then Some {| subnetBase := base; subnetPrefix := 128 - bits + prefix |} else None.

Definition inSubnet (n : Z) (s : Subnet) : bool :=
  (Z.shiftr n (128 - subnetPrefix s) =? Z.shiftr (subnetBase s) (128 - subnetPrefix s))%Z.

(** [blockList.check(address, type)]; [None] when it throws. *)
Definition check (blockList : BlockList) (address : jstr) (f : family) : option bool :=
  n ← socketAddress address f; Some (existsb (inSubnet n) blockList).

(** ** The rules *)

Record BlockedAddressRule := { ruleFamily : family; cidr : jstr }.

Definition rule4 (text : string) : BlockedAddressRule := {| ruleFamily := ipv4; cidr := u text |}.
Definition rule6 (text : string) : BlockedAddressRule := {| ruleFamily := ipv6; cidr := u text |}.

Definition BLOCKED_ADDRESS_RULES : list BlockedAddressRule :=
  [rule4 "0.0.0.0/8"; rule4 "10.0.0.0/8"; rule4 "100.64.0.0/10"; rule4 "127.0.0.0/8";
   rule4 "169.254.0.0/16"; rule4 "172.16.0.0/12"; rule4 "192.0.0.0/24"; rule4 "192.0.2.0/24";
   rule4 "192.88.99.0/24"; rule4 "192.168.0.0/16"; rule4 "198.18.0.0/15"; rule4 "198.51.100.0/24";
   rule4 "203.0.113.0/24"; rule4 "224.0.0.0/4"; rule4 "240.0.0.0/4";
   rule6 "::/96"; rule6 "100::/64"; rule6 "2001::/32"; rule6 "2001:20::/28"; rule6 "2001:db8::/32";
   rule6 "3fff::/20"; rule6 "fc00::/7"; rule6 "fe80::/10"; rule6 "fec0::/10"; rule6 "ff00::/8"].

(** One rule as a subnet: the text up to the slash, and the number after it. *)
Definition compileRule (rule : BlockedAddressRule) : option Subnet :=
  slash ← indexOf 47 (cidr rule);
  prefix ← toNumber (drop (slash + 1) (cidr rule));
  addSubnet (take slash (cidr rule)) prefix (ruleFamily rule).

(** [blockListFor], without its cache; [None] when a rule does not compile. *)
Definition blockListFor (rules : list BlockedAddressRule) : option BlockList := mapM compileRule rules.

(** ** The decision *)

Definition normalizeAddress (address : jstr) : option (jstr * family) :=
  let bare := match indexOf 37 address with None => address | Some zone => take zone address end in
  if (isIP bare =? 4)%Z then Some (bare, ipv4)
  else if (isIP bare =? 6)%Z then Some (bare, ipv6) else None.

(** [parseGroups] on its tokens. *)
Fixpoint parseTokens (tokens : list jstr) : option (list Z) :=
  match tokens with
  | [] => Some []
  | token :: rest =>
      if hasDot token then
        match rest with
        | [] =>
            octets ← mapM toNumber (split 46 token);
            if (length octets =? 4)%nat && forallb (λ o, (0 <=? o) && (o <=? 255))%Z octets
            then pairGroups octets else None
        | _ => None
        end
      else if isHexGroup token then cons (parseHex token) <$> parseTokens rest
      else None
  end.

Definition parseGroups (text : jstr) : option (list Z) :=
  match text with [] => Some [] | _ => parseTokens (split 58 text) end.

Definition gapText : jstr := u "::".

Definition ipv6Groups (address : jstr) : option (list Z) :=
  let separator := indexOfText gapText address in
  let headText := match separator with None => address | Some i => take i address end in
  let tailText := match separator with None => [] | Some i => drop (i + 2) address end in
  head ← parseGroups headText;
  tail ← parseGroups tailText;
  match separator with
  | None => if (length head =? 8)%nat then Some head else None
  | Some _ =>
      let missing := (8 - Z.of_nat (length head) - Z.of_nat (length tail))%Z in
      if (missing <? 1)%Z then None else Some (head ++ replicate (Z.to_nat missing) 0%Z ++ tail)
  end.

(** The dotted quad of two groups. *)
Definition dottedQuad (high low : Z) : jstr :=
  u (pretty (Z.shiftr high 8)) ++ u "." ++ u (pretty (Z.land high 255)) ++ u "." ++
  u (pretty (Z.shiftr low 8)) ++ u "." ++ u (pretty (Z.land low 255)).

Definition embeddedIpv4 (address : jstr) : option jstr :=
  groups ← ipv6Groups address;
  let group (i : nat) := default 0%Z (groups !! i) in
  let first := group 0 in let second := group 1 in let third := group 2 in let fourth := group 3 in
  let fifth := group 4 in let sixth := group 5 in let seventh := group 6 in let eighth := group 7 in
  let isMapped := (first + second + third + fourth + fifth =? 0)%Z && (sixth =? 65535)%Z in
  let isNat64 :=
    (first =? 100)%Z && (second =? 65435)%Z && (third + fourth + fifth + sixth =? 0)%Z in
  let isNat64Local := (first =? 100)%Z && (second =? 65435)%Z && (third =? 1)%Z in
  let isSixToFour := (first =? 8194)%Z in
  if isMapped || isNat64 || isNat64Local || isSixToFour then
    Some (dottedQuad (if isSixToFour then second else seventh) (if isSixToFour then third else eighth))
  else None.

(** [isBlockedAddress]; [None] when a rule does not compile. *)
Definition isBlockedAddress (address : jstr) (rules : list BlockedAddressRule) : option bool :=
  match normalizeAddress address with
  | None => Some true
  | Some (bare, f) =>
      blockList ← blockListFor rules;
      let embedded := match f with ipv6 => embeddedIpv4 bare | ipv4 => None end in
      hit ← match embedded with Some quad => check blockList quad ipv4 | None => Some false end;
      if (hit : bool) then Some true else check blockList bare f
  end.

Example metadata_refused :
  (λ a, isBlockedAddress (u a) BLOCKED_ADDRESS_RULES) <$>
    ["169.254.169.254"; "::ffff:169.254.169.254"; "64:ff9b::a9fe:a9fe"; "64:ff9b:1::169.254.169.254";
     "2002:a9fe:a9fe::1"; "fd00:ec2::254"; "fe80::1%eth0"; "01.2.3.4"; "93.184.216.34"; "2606:4700::1111";
     "2002:5db8:d822::1"; "::"; ""]%string
  = Some <$> [true; true; true; true; true; true; true; true; false; false; false; true; true].
Proof. vm_compute. reflexivity. Qed.

(** ** The reader of this module against the platform's *)

(** Case analysis on every comparison of a code unit. *)
Ltac unitRange :=
  repeat match goal with
  | |- context [(?a <=? ?b)%N] => destruct (N.leb_spec a b)
  | H : context [(?a <=? ?b)%N] |- _ => destruct (N.leb_spec a b)
  end; cbn in *; try done; lia.

Lemma forallb_Forall {A} (p : A → bool) l : forallb p l = true → Forall (λ x, p x = true) l.
Proof. rewrite forallb_forall, Forall_forall. intros H x Hx. by apply H, list_elem_of_In. Qed.

Lemma mapM_Forall {A B} (f : A → option B) (P : B → Prop) l k :
  (∀ x y, f x = Some y → P y) → mapM f l = Some k → Forall P k ∧ length k = length l.
Proof.
  intros Hf H%mapM_Some. induction H as [|x y l k Hxy _ [IH Hl]]; [done|].
  split; [constructor; eauto|by cbn; rewrite Hl].
Qed.

Lemma digitsNumber_bounds base (f : N → Z) (text : jstr) n0 :
  (0 ≤ n0)%Z → (1 ≤ base)%Z → Forall (λ c, (0 ≤ f c < base)%Z) text →
  (0 ≤ foldl (λ n c, n * base + f c) n0 text < (n0 + 1) * base ^ Z.of_nat (length text))%Z.
Proof.
  intros H0 Hb H. revert n0 H0. induction H as [|c text Hc _ IH]; intros n0 H0; cbn [foldl length].
  - rewrite Z.pow_0_r. lia.
  - destruct (IH (n0 * base + f c)%Z) as [IH1 IH2]; [nia|]. split; [done|].
    rewrite Nat2Z.inj_succ, Z.pow_succ_r by lia. eapply Z.lt_le_trans; [exact IH2|].
    rewrite (Z.mul_assoc (n0 + 1)). apply Z.mul_le_mono_nonneg_r; [apply Z.pow_nonneg; lia|]. lia.
Qed.

Lemma hexDigit_bounds c : isHexDigit c = true → (0 ≤ hexDigit c < 16)%Z.
Proof. unfold isHexDigit, hexDigit, isDigit, isLowerAscii. unitRange. Qed.

Lemma parseHex_bounds token : isHexGroup token = true → (0 ≤ parseHex token < 65536)%Z.
Proof.
  unfold isHexGroup. intros [[_ Hl%Nat.leb_le]%andb_true_iff Hh%forallb_Forall]%andb_true_iff.
  destruct (digitsNumber_bounds 16 hexDigit token 0) as [H1 H2]; [lia..| |].
  - eapply Forall_impl; [exact Hh|apply hexDigit_bounds].
  - split; [exact H1|]. eapply Z.lt_le_trans; [exact H2|].
    change 65536%Z with (16 ^ 4)%Z. rewrite Z.mul_1_l. apply Z.pow_le_mono_r; lia.
Qed.

Definition isGroupValue (g : Z) : Prop := (0 ≤ g < 65536)%Z.
Definition isOctetValue (o : Z) : Prop := (0 ≤ o < 256)%Z.

Lemma readOctet_some part o :
  readOctet part = Some o → isDigits part = true ∧ o = numberOf part ∧ isOctetValue o.
Proof.
  unfold readOctet. intros H. destruct (isDigits part && _ && _ && _) eqn:E; [|done]. injection H as <-.
  apply andb_true_iff in E as [[[Hd _]%andb_true_iff Hn%Z.leb_le]%andb_true_iff _].
  split_and!; try done. split; [|lia].
  apply (digitsNumber_bounds 10 (λ c, Z.of_N c - 48)%Z part 0); [lia..|].
  apply andb_true_iff in Hd as [_ Hd%forallb_Forall]. eapply Forall_impl; [exact Hd|].
  intros c. unfold isDigit. unitRange.
Qed.

Lemma readIpv4_some text os :
  readIpv4 text = Some os → length os = 4 ∧ Forall isOctetValue os ∧ mapM readOctet (split 46 text) = Some os.
Proof.
  unfold readIpv4. intros H. destruct (mapM _ _) as [k|] eqn:E; [|done]. cbn in H.
  destruct (length k =? 4)%nat eqn:El; [|done]. injection H as ->. apply Nat.eqb_eq in El.
  split_and!; try done. eapply mapM_Forall; [|exact E]. by intros x y (?&?&?)%readOctet_some.
Qed.

Lemma digit_not_space c : isDigit c = true → isSpace c = false.
Proof.
  intros H. unfold isSpace. apply orb_false_iff. split.
  - apply bool_decide_eq_false. intros Hc.
    repeat (apply elem_of_cons in Hc as [->|Hc]; [done|]). by apply elem_of_nil in Hc.
  - revert H. unfold isDigit. unitRange.
Qed.

Lemma digits_not_blank text : isDigits text = true → trim text = text ∧ isBlank text = false.
Proof.
  unfold isDigits. intros [Hn Hd%forallb_Forall]%andb_true_iff.
  assert (Forall (λ c, isSpace c = false) text) as Hs.
  { eapply Forall_impl; [exact Hd|apply digit_not_space]. }
  assert (trim text = text) as Ht.
  { unfold trim. rewrite (dropSpaces_id text), (dropSpaces_id (rev text)); [apply rev_involutive| |].
    - destruct (rev text) as [|c t] eqn:E; [done|]. cbn. rewrite Forall_forall in Hs. apply Hs.
      apply list_elem_of_In, in_rev. rewrite E. by left.
    - destruct text; [done|]. by apply Forall_cons in Hs as [??]. }
  split; [done|]. apply isBlank_false. rewrite Ht. by destruct text.
Qed.

Lemma toNumber_octet part o : readOctet part = Some o → toNumber part = Some o ∧ isOctetValue o.
Proof.
  intros (Hd & -> & Ho)%readOctet_some. destruct (digits_not_blank _ Hd) as [Ht Hb].
  unfold toNumber. by rewrite Hb, Ht, Hd.
Qed.

Lemma lor_shift x y : (0 ≤ y < 256)%Z → Z.lor (Z.shiftl x 8) y = (x * 256 + y)%Z.
Proof.
  intros Hy. pose proof (Z.add_lor_land (Z.shiftl x 8) y) as H. rewrite Z.shiftl_mul_pow2 in * by lia.
  assert (Z.land y (Z.ones 8) = y) as Hy8 by (rewrite Z.land_ones by lia; by apply Z.mod_small).
  rewrite <- Hy8, (Z.land_comm y), Z.land_assoc, Z.land_ones, Z.mod_mul, Z.land_0_l, Z.land_comm, Hy8 in H
    by lia. lia.
Qed.

Lemma pairGroups_values os gs : Forall isOctetValue os → pairGroups os = Some gs → Forall isGroupValue gs.
Proof.
  intros H. destruct os as [|a [|b [|c [|d [|]]]]]; try done. intros [= <-].
  decompose_Forall_hyps. unfold isOctetValue in *.
  repeat constructor; unfold isGroupValue; rewrite lor_shift by lia; lia.
Qed.

Lemma readGroup_some token g : readGroup token = Some g → isHexGroup token = true ∧ g = parseHex token.
Proof. unfold readGroup. destruct (isHexGroup token); [|done]. by intros [= <-]. Qed.

Lemma readGroup_value token g : readGroup token = Some g → isGroupValue g.
Proof. intros [H ->]%readGroup_some. by apply parseHex_bounds. Qed.

Lemma readGroups_values tokens gs : readGroups tokens = Some gs → Forall isGroupValue gs.
Proof.
  revert gs. induction tokens as [|token rest IH]; intros gs; cbn [readGroups]; [by intros [= <-]|].
  destruct (hasDot token).
  - destruct rest; [|done]. destruct (readIpv4 token) as [os|] eqn:E; [|done].
    apply readIpv4_some in E as (_ & Ho & _). by apply pairGroups_values.
  - destruct (readGroup token) as [g|] eqn:E; [|done]. destruct (readGroups rest) as [k|]; [|done].
    intros [= <-]. constructor; [by eapply readGroup_value|by apply IH].
Qed.

(** A hexadecimal group has neither a dot nor a colon and is not empty. *)
Lemma hexGroup_plain token :
  isHexGroup token = true → token ≠ [] ∧ hasDot token = false.
Proof.
  unfold isHexGroup. intros [[Hn%Nat.leb_le _]%andb_true_iff Hh%forallb_Forall]%andb_true_iff.
  split; [by intros ->; cbn in Hn; lia|]. unfold hasDot. apply not_true_is_false.
  intros H%includes_unit. rewrite Forall_forall in Hh. by specialize (Hh _ H).
Qed.

Lemma cutGap_spec tokens l gap :
  cutGap tokens = (l, gap) →
  Forall (λ t, t ≠ []) l ∧ tokens = match gap with None => l | Some r => l ++ [] :: r end.
Proof.
  revert l gap. induction tokens as [|token rest IH]; intros l gap; cbn [cutGap].
  - by intros [= <- <-].
  - destruct token as [|c t]; [by intros [= <- <-]|].
    destruct (cutGap rest) as [l' gap'] eqn:E. intros [= <- <-].
    destruct (IH l' gap' eq_refl) as [Hl ->]. split; [by constructor|]. by destruct gap'.
Qed.

(** Where the source finds the gap of an address. *)
Lemma indexOfText_skip c t : (c =? 58)%N = false → indexOfText gapText (c :: t) = S <$> indexOfText gapText t.
Proof.
  intros H. rewrite N.eqb_sym in H.
  change (indexOfText gapText (c :: t)) with
    (if (58 =? c)%N && startsWith [58%N] t then Some 0 else S <$> indexOfText gapText t). by rewrite H.
Qed.

Abbreviation colonFree := (Forall (λ d : N, (58 =? d)%N = false)).

Lemma indexOfText_word w t :
  colonFree w → indexOfText gapText (w ++ t) = Nat.add (length w) <$> indexOfText gapText t.
Proof.
  induction 1 as [|c w Hc _ IH]; [cbn [app length]; by destruct (indexOfText gapText t)|].
  change ((c :: w) ++ t) with (c :: (w ++ t)). rewrite indexOfText_skip, IH by by rewrite N.eqb_sym.
  by destruct (indexOfText gapText t).
Qed.

Lemma indexOfText_lone d t :
  (d =? 58)%N = false →
  indexOfText gapText (58%N :: d :: t) = S <$> indexOfText gapText (d :: t).
Proof.
  intros H. rewrite N.eqb_sym in H.
  change (indexOfText gapText (58%N :: d :: t)) with
    (if (58 =? 58)%N && ((58 =? d)%N && true) then Some 0 else S <$> indexOfText gapText (d :: t)).
  by rewrite H.
Qed.

Lemma gap_none l :
  Forall (λ t, t ≠ []) l → Forall colonFree l → indexOfText gapText (join [58%N] l) = None.
Proof.
  intros Hne. induction Hne as [|w l Hw Hne IH]; intros Hc; [done|].
  apply Forall_cons in Hc as [Hcw Hcl]. destruct l as [|v l].
  - cbn [join]. rewrite <- (app_nil_r w), indexOfText_word by done. done.
  - rewrite join_cons, indexOfText_word by done. specialize (IH Hcl).
    destruct v as [|d v]; [by inversion Hne|].
    assert (∃ t, join [58%N] ((d :: v) :: l) = d :: t) as [t Ht] by (destruct l; by eexists).
    rewrite Ht in *. rewrite indexOfText_lone, IH; [done|].
    apply Forall_cons in Hcl as [Hd _]. apply Forall_cons in Hd as [Hd _]. by rewrite N.eqb_sym.
Qed.

Lemma gap_some l t :
  Forall (λ t, t ≠ []) l → Forall colonFree l →
  indexOfText gapText (join [58%N] l ++ gapText ++ t) = Some (length (join [58%N] l)).
Proof.
  intros Hne. induction Hne as [|w l Hw Hne IH]; intros Hc; [done|].
  apply Forall_cons in Hc as [Hcw Hcl]. destruct l as [|v l].
  - cbn [join]. rewrite indexOfText_word by done. rewrite (indexOfText_here gapText _ t) by done. cbn. f_equal. lia.
  - rewrite join_cons, <- app_assoc, indexOfText_word by done. specialize (IH Hcl).
    destruct v as [|d v]; [by inversion Hne|].
    assert (∃ t, join [58%N] ((d :: v) :: l) = d :: t) as [t' Ht] by (destruct l; by eexists).
    rewrite Ht in *. cbn [app] in *. rewrite indexOfText_lone, IH.
    + cbn. f_equal. rewrite length_app. cbn. lia.
    + apply Forall_cons in Hcl as [Hd _]. apply Forall_cons in Hd as [Hd _]. by rewrite N.eqb_sym.
Qed.

Lemma parseTokens_groups tokens gs : readGroups tokens = Some gs → parseTokens tokens = Some gs.
Proof.
  revert gs. induction tokens as [|token rest IH]; intros gs; cbn [readGroups parseTokens]; [done|].
  destruct (hasDot token) eqn:Ed.
  - destruct rest; [|done]. destruct (readIpv4 token) as [os|] eqn:E; [|done]. intros Hp.
    apply readIpv4_some in E as (Hl & Ho & Hm).
    assert (mapM toNumber (split 46 token) = Some os) as ->.
    { apply mapM_Some. apply mapM_Some in Hm. eapply Forall2_impl; [exact Hm|].
      by intros ?? [? _]%toNumber_octet. }
    cbn [mbind option_bind]. rewrite Hl. cbn [Nat.eqb andb].
    assert (forallb (λ o, (0 <=? o)%Z && (o <=? 255)%Z) os = true) as ->; [|done].
    apply forallb_forall. intros o Ho'%list_elem_of_In. rewrite Forall_forall in Ho.
    specialize (Ho _ Ho'). unfold isOctetValue in Ho. apply andb_true_iff. split; apply Z.leb_le; lia.
  - destruct (readGroup token) as [g|] eqn:E; [|done]. apply readGroup_some in E as [-> ->].
    destruct (readGroups rest) as [k|]; [|done]. intros [= <-]. by rewrite (IH k).
Qed.

Lemma mapM_readGroups tokens gs : mapM readGroup tokens = Some gs → readGroups tokens = Some gs.
Proof.
  rewrite mapM_Some. induction 1 as [|token g tokens gs Hg _ IH]; [done|]. cbn [readGroups].
  destruct (readGroup_some _ _ Hg) as [Hh _]. destruct (hexGroup_plain _ Hh) as [_ ->].
  by rewrite Hg, IH.
Qed.

Lemma readGroups_head token rest gs : readGroups (token :: rest) = Some gs → token ≠ [].
Proof. by intros H ->. Qed.

Lemma parseGroups_join tokens gs :
  Forall colonFree tokens → readGroups tokens = Some gs → parseGroups (join [58%N] tokens) = Some gs.
Proof.
  intros Hc Hr. destruct tokens as [|token rest]; [done|]. pose proof (readGroups_head _ _ _ Hr) as Hne.
  assert (∃ c t, join [58%N] (token :: rest) = c :: t) as (c & t & Ht).
  { destruct token as [|c t]; [done|]. destruct rest; by eexists _, _. }
  unfold parseGroups. rewrite Ht. rewrite <- Ht, split_join by done. by apply parseTokens_groups.
Qed.

(** The gap of an address and the tokens right of it. *)
Lemma afterGap_text l r r' :
  afterGap l r = Some r' → join [58%N] (l ++ [] :: r) = join [58%N] l ++ gapText ++ join [58%N] r'.
Proof.
  unfold afterGap. intros H. destruct l as [|w l].
  - destruct r as [|[|] r]; [done| |done]. cbn [app].
    destruct r as [|v r]; [done|]. rewrite !join_cons by done.
    destruct v, r; by injection H as <-.
  - rewrite join_app by done. f_equal. destruct r as [|v r]; [done|].
    rewrite join_cons by done. destruct v, r; by injection H as <-.
Qed.

Lemma afterGap_Forall (P : jstr → Prop) l r r' : afterGap l r = Some r' → Forall P r → Forall P r'.
Proof.
  unfold afterGap. intros H Hr. destruct l as [|w l]; destruct r as [|v r]; try done.
  - destruct v; [|done]. apply Forall_cons in Hr as [_ Hr]. by destruct r as [|[|] []]; simplify_eq.
  - by destruct v, r; simplify_eq.
Qed.

(** Whatever the platform reads as an IPv6 address, this module reads the same. *)
Lemma ipv6Groups_agrees text gs : readIpv6 text = Some gs → ipv6Groups text = Some gs.
Proof.
  pose proof (join_split 58 text) as Htext. pose proof (split_words 58 text) as Hw.
  unfold readIpv6. destruct (cutGap (split 58 text)) as [l [r|]] eqn:E; apply cutGap_spec in E as [Hne Ht].
  - destruct (afterGap l r) as [r'|] eqn:Ea; [|done]. cbn [mbind option_bind].
    destruct (mapM readGroup l) as [head|] eqn:Eh; [|done].
    destruct (readGroups r') as [tail|] eqn:Et; [|done]. cbn [mbind option_bind]. intros H.
    rewrite Ht, (afterGap_text _ _ _ Ea) in Htext. rewrite Ht in Hw. apply Forall_app in Hw as [Hl Hr].
    apply Forall_cons in Hr as [_ Hr]. apply mapM_readGroups in Eh.
    unfold ipv6Groups. rewrite <- Htext, gap_some, take_app_length by done.
    rewrite app_assoc, drop_app_length' by (rewrite length_app; done).
    rewrite (parseGroups_join l head), (parseGroups_join r' tail) by (try done; by eapply afterGap_Forall).
    cbn [mbind option_bind]. destruct (Nat.leb_spec (length head + length tail) 7) as [Hn|]; [|done].
    injection H as <-. destruct (Z.ltb_spec (8 - Z.of_nat (length head) - Z.of_nat (length tail)) 1); [lia|].
    do 4 f_equal. lia.
  - destruct (readGroups l) as [head|] eqn:Eh; [|done]. cbn [mbind option_bind]. intros H.
    rewrite Ht in Htext, Hw. unfold ipv6Groups. rewrite <- Htext, gap_none by done.
    rewrite (parseGroups_join l head) by done. cbn [mbind option_bind parseGroups]. done.
Qed.

Lemma readIpv6_values text gs : readIpv6 text = Some gs → length gs = 8 ∧ Forall isGroupValue gs.
Proof.
  unfold readIpv6. destruct (cutGap _) as [l [r|]].
  - destruct (afterGap l r) as [r'|]; [|done]. cbn [mbind option_bind].
    destruct (mapM readGroup l) as [head|] eqn:Eh; [|done].
    destruct (readGroups r') as [tail|] eqn:Et; [|done]. cbn [mbind option_bind].
    destruct (Nat.leb_spec (length head + length tail) 7) as [Hn|]; [|done]. intros [= <-]. split.
    + rewrite !length_app, length_replicate. lia.
    + apply readGroups_values in Et. apply mapM_readGroups, readGroups_values in Eh.
      rewrite !Forall_app. split_and!; try done. apply Forall_replicate. unfold isGroupValue. lia.
  - destruct (readGroups l) as [gs'|] eqn:E; [|done]. cbn [mbind option_bind].
    destruct (Nat.eqb_spec (length gs') 8); [|done]. intros [= <-]. by apply readGroups_values in E.
Qed.

(** ** The IPv4 address an IPv6 address carries, as numbers *)

(** In the mapped form [::ffff:0:0/96], NAT64 [64:ff9b::/96] and [64:ff9b:1::/48] it is
    the last 32 bits, in 6to4 [2002::/16] the 32 bits after the prefix. *)
Definition carried (n : Z) : option Z :=
  if (n / 2 ^ 32 =? 0xffff)%Z || (n / 2 ^ 32 =? 0x64ff9b * 2 ^ 64)%Z || (n / 2 ^ 80 =? 0x64ff9b0001)%Z
  then Some (n mod 2 ^ 32)%Z
  else if (n / 2 ^ 112 =? 0x2002)%Z then Some ((n / 2 ^ 80) mod 2 ^ 32)%Z else None.

Lemma octet_text n :
  (0 ≤ n < 256)%Z → readOctet (u (pretty n)) = Some n ∧ Forall (λ d, (46 =? d)%N = false) (u (pretty n)).
Proof.
  intros Hn. assert (forallb (λ n, bool_decide (readOctet (u (pretty n)) = Some n) &&
    forallb (λ d, negb (46 =? d)%N) (u (pretty n))) (seqZ 0 256) = true) as H by by vm_compute.
  apply forallb_Forall in H. rewrite Forall_forall in H. specialize (H n).
  rewrite elem_of_seqZ in H. specialize (H ltac:(lia)). cbv beta in H.
  apply andb_true_iff in H as [H1%bool_decide_eq_true H2%forallb_Forall]. split; [done|].
  eapply Forall_impl; [exact H2|]. cbv beta. by intros x ?%negb_true_iff.
Qed.

Lemma dottedQuad_reads high low :
  isGroupValue high → isGroupValue low →
  socketAddress (dottedQuad high low) ipv4 = Some (mapped (high * 65536 + low)).
Proof.
  unfold isGroupValue. intros Hh Hl.
  assert (∀ x, (0 ≤ x < 65536)%Z → (0 ≤ Z.shiftr x 8 < 256)%Z ∧ (0 ≤ Z.land x 255 < 256)%Z ∧
    x = (Z.shiftr x 8 * 256 + Z.land x 255)%Z) as Hx.
  { intros x Hx. change 255%Z with (Z.ones 8). rewrite Z.land_ones, Z.shiftr_div_pow2 by lia.
    change (2 ^ 8)%Z with 256%Z. pose proof (Z.div_mod x 256 ltac:(lia)).
    pose proof (Z.mod_pos_bound x 256 ltac:(lia)). lia. }
  destruct (Hx high Hh) as (Ha & Hb & Eh), (Hx low Hl) as (Hc & Hd & El).
  change (dottedQuad high low) with (join [46%N]
    [u (pretty (Z.shiftr high 8)); u (pretty (Z.land high 255)); u (pretty (Z.shiftr low 8));
     u (pretty (Z.land low 255))]).
  destruct (octet_text _ Ha) as [Ra Da], (octet_text _ Hb) as [Rb Db],
    (octet_text _ Hc) as [Rc Dc], (octet_text _ Hd) as [Rd Dd].
  unfold socketAddress, readIpv4. rewrite split_join by (repeat constructor; done).
  cbn [mapM mbind option_bind]. rewrite Ra, Rb, Rc, Rd. cbn. f_equal. unfold mapped, octetsNumber. cbn. lia.
Qed.

Lemma divide_by n x y d :
  n = (x * d + y)%Z → (0 ≤ y < d)%Z → (n / d = x)%Z ∧ (n mod d = y)%Z.
Proof.
  intros -> Hy. split; symmetry; [apply (Z.div_unique_pos _ _ _ y)|apply (Z.mod_unique_pos _ _ x)]; lia.
Qed.

Lemma groups_divide gs :
  length gs = 8 → Forall isGroupValue gs →
  ∃ a b c d e f g h,
    gs = [a; b; c; d; e; f; g; h] ∧
    (groupsNumber gs / 2 ^ 32 = ((((a * 65536 + b) * 65536 + c) * 65536 + d) * 65536 + e) * 65536 + f)%Z ∧
    (groupsNumber gs mod 2 ^ 32 = g * 65536 + h)%Z ∧
    (groupsNumber gs / 2 ^ 80 = (a * 65536 + b) * 65536 + c)%Z ∧
    ((groupsNumber gs / 2 ^ 80) mod 2 ^ 32 = b * 65536 + c)%Z ∧
    (groupsNumber gs / 2 ^ 112 = a)%Z.
Proof.
  intros Hl Hv. destruct gs as [|a [|b [|c [|d [|e [|f [|g [|h [|]]]]]]]]]; try done.
  decompose_Forall_hyps. unfold isGroupValue in *. exists a, b, c, d, e, f, g, h. split; [done|].
  set (n := groupsNumber _).
  destruct (divide_by n ((((((a * 65536 + b) * 65536 + c) * 65536 + d) * 65536 + e) * 65536 + f))%Z
    (g * 65536 + h)%Z (2 ^ 32)%Z) as [-> ->]; [unfold n, groupsNumber; cbn [foldl]; lia|lia|].
  destruct (divide_by n ((a * 65536 + b) * 65536 + c)%Z
    ((((d * 65536 + e) * 65536 + f) * 65536 + g) * 65536 + h)%Z (2 ^ 80)%Z) as [-> _];
    [unfold n, groupsNumber; cbn [foldl]; lia|lia|].
  destruct (divide_by n a ((((((b * 65536 + c) * 65536 + d) * 65536 + e) * 65536 + f) * 65536 + g) * 65536 + h)%Z
    (2 ^ 112)%Z) as [-> _]; [unfold n, groupsNumber; cbn [foldl]; lia|lia|].
  destruct (divide_by ((a * 65536 + b) * 65536 + c)%Z a (b * 65536 + c)%Z (2 ^ 32)%Z) as [_ ->]; [lia..|].
  by split_and!.
Qed.

(** What the source extracts is what the address carries. *)
Lemma embeddedIpv4_carried text gs :
  readIpv6 text = Some gs →
  match embeddedIpv4 text with
  | Some quad => ∃ v, carried (groupsNumber gs) = Some v ∧ socketAddress quad ipv4 = Some (mapped v)
  | None => carried (groupsNumber gs) = None
  end.
Proof.
  intros H. destruct (readIpv6_values _ _ H) as [Hl Hv]. apply ipv6Groups_agrees in H.
  unfold embeddedIpv4. rewrite H. cbn [mbind option_bind].
  destruct (groups_divide gs Hl Hv) as (a & b & c & d & e & f & g & h & -> & H1 & H2 & H3 & H4 & H5).
  unfold carried. rewrite H1, H2, H4, H3, H5. clear H H1 H2 H3 H4 H5 Hl.
  cbn [lookup list_lookup default]. decompose_Forall_hyps.
  assert (isGroupValue a) as Ha by done. unfold isGroupValue in *.
  set (m := ((a + b + c + d + e =? 0)%Z && (f =? 65535)%Z)).
  set (n := ((a =? 100)%Z && (b =? 65435)%Z && (c + d + e + f =? 0)%Z)).
  set (l := ((a =? 100)%Z && (b =? 65435)%Z && (c =? 1)%Z)).
  set (hi := (((((a * 65536 + b) * 65536 + c) * 65536 + d) * 65536 + e) * 65536 + f)%Z).
  assert ((hi =? 0xffff)%Z = m) as -> by (unfold hi, m; lia).
  assert ((hi =? 0x64ff9b * 2 ^ 64)%Z = n) as -> by (unfold hi, n; lia).
  assert (((a * 65536 + b) * 65536 + c =? 0x64ff9b0001)%Z = l) as -> by (unfold l; lia).
  change 0x2002%Z with 8194%Z. destruct (Z.eqb_spec a 8194) as [->|Hne].
  - assert (m || n || l = false) as -> by (unfold m, n, l; lia). cbn [orb].
    eexists. split; [done|]. by apply dottedQuad_reads.
  - rewrite orb_false_r. destruct (m || n || l); [|done].
    eexists. split; [done|]. by apply dottedQuad_reads.
Qed.

(** ** The decision as ranges of numbers *)

(** The numbers a connection to an address may end at: its own, and the one of the
    IPv4 address it carries; none for what is not an address. *)
Definition destinations (bare : jstr) : list Z :=
  match readIpv4 bare with
  | Some octets => [mapped (octetsNumber octets)]
  | None =>
      match readIpv6 bare with
      | Some groups =>
          groupsNumber groups ::
          match carried (groupsNumber groups) with Some v => [mapped v] | None => [] end
      | None => []
      end
  end.

Definition inRange (n : Z) (s : Subnet) : Prop :=
  let size := (2 ^ (128 - subnetPrefix s))%Z in
  (subnetBase s / size * size ≤ n < subnetBase s / size * size + size)%Z.

Definition withoutZone (address : jstr) : jstr :=
  match indexOf 37 address with None => address | Some zone => take zone address end.

Lemma indexOf_take c s i : indexOf c s = Some i → indexOf c (take i s) = None.
Proof.
  revert i. induction s as [|d s IH]; intros i; cbn [indexOf]; [done|].
  destruct (N.eqb_spec c d) as [->|Hne]; [by intros [= <-]|].
  destruct (indexOf c s) as [j|]; [|done]. intros [= <-]. cbn [take indexOf].
  rewrite (proj2 (N.eqb_neq _ _)), IH; done.
Qed.

Lemma withoutZone_plain address : indexOf 37 (withoutZone address) = None.
Proof. unfold withoutZone. destruct (indexOf 37 address) eqn:E; [by eapply indexOf_take|done]. Qed.

Lemma isIP_plain bare :
  indexOf 37 bare = None →
  isIP bare = match readIpv4 bare with
              | Some _ => 4%Z
              | None => match readIpv6 bare with Some _ => 6%Z | None => 0%Z end
              end.
Proof.
  intros H. unfold isIP. rewrite H. destruct (readIpv4 bare).
  - by rewrite bool_decide_true.
  - rewrite (bool_decide_false (is_Some None)) by apply is_Some_None.
    destruct (readIpv6 bare); [by rewrite bool_decide_true|].
    by rewrite bool_decide_false by apply is_Some_None.
Qed.

Lemma inSubnet_range n s : (0 ≤ subnetPrefix s ≤ 128)%Z → inSubnet n s = true ↔ inRange n s.
Proof.
  intros Hp. unfold inSubnet, inRange. rewrite Z.eqb_eq, !Z.shiftr_div_pow2 by lia.
  assert (0 < 2 ^ (128 - subnetPrefix s))%Z as Hs by (apply Z.pow_pos_nonneg; lia).
  set (size := (2 ^ (128 - subnetPrefix s))%Z) in *.
  pose proof (Z.div_mod n size ltac:(lia)) as Hn. pose proof (Z.mod_pos_bound n size Hs) as Hm.
  split; [intros <-; lia|]. intros [H1 H2]. symmetry.
  apply (Z.div_unique_pos n size _ (n - subnetBase s / size * size)); lia.
Qed.

Lemma blockListFor_prefixes rules subnets :
  blockListFor rules = Some subnets → Forall (λ s, (0 ≤ subnetPrefix s ≤ 128)%Z) subnets.
Proof.
  intros H. eapply (mapM_Forall compileRule); [|exact H]. intros rule s. unfold compileRule, addSubnet.
  destruct (indexOf 47 (cidr rule)) as [i|]; [|done]. cbn [mbind option_bind].
  destruct (toNumber _) as [p|]; [|done]. cbn [mbind option_bind].
  destruct (socketAddress _ _) as [b|]; [|done]. cbn [mbind option_bind].
  destruct (Z.leb_spec 0 p) as [Hp|]; [|done]. cbn [andb].
  destruct (ruleFamily rule); (destruct (Z.leb_spec p 32) || idtac); (destruct (Z.leb_spec p 128) || idtac);
    try done; intros [= <-]; cbn [subnetPrefix]; lia.
Qed.

Lemma outside_all n subnets :
  Forall (λ s, (0 ≤ subnetPrefix s ≤ 128)%Z) subnets →
  existsb (inSubnet n) subnets = false ↔ Forall (λ s, ¬ inRange n s) subnets.
Proof.
  intros Hp. rewrite existsb_false, !Forall_forall. rewrite Forall_forall in Hp.
  apply forall_proper. intros s. split; intros H Hs; specialize (H Hs); specialize (Hp s Hs).
  - by rewrite <- inSubnet_range, H.
  - rewrite <- inSubnet_range in H by done. by apply not_true_is_false.
Qed.

Lemma check_at subnets address f n :
  socketAddress address f = Some n → check subnets address f = Some (existsb (inSubnet n) subnets).
Proof. unfold check. by intros ->. Qed.

(** An address may be dialed exactly when it reads as one and neither its own number
    nor the IPv4 address it carries (mapped, NAT64, 6to4) is in a refused range;
    text that is no address is refused, and with rules that compile the check never
    throws. *)
Theorem isBlockedAddress_exact address rules subnets :
  blockListFor rules = Some subnets →
  ∃ b, isBlockedAddress address rules = Some b ∧
    (b = false ↔ destinations (withoutZone address) ≠ [] ∧
                 Forall (λ d, Forall (λ s, ¬ inRange d s) subnets) (destinations (withoutZone address))).
Proof.
  intros Hb. pose proof (blockListFor_prefixes _ _ Hb) as Hp.
  unfold isBlockedAddress, normalizeAddress. fold (withoutZone address).
  pose proof (isIP_plain _ (withoutZone_plain address)) as ->. unfold destinations.
  destruct (readIpv4 (withoutZone address)) as [os|] eqn:E4; cbn [Z.eqb Pos.eqb].
  - rewrite Hb. cbn [mbind option_bind]. rewrite (check_at _ _ ipv4 (mapped (octetsNumber os))) by (cbn; by rewrite E4).
    eexists. split; [done|]. rewrite outside_all, Forall_singleton by done. naive_solver.
  - destruct (readIpv6 (withoutZone address)) as [gs|] eqn:E6; cbn [Z.eqb Pos.eqb]; [|by exists true; split; [|naive_solver]].
    rewrite Hb. cbn [mbind option_bind]. pose proof (embeddedIpv4_carried _ _ E6) as He.
    rewrite (check_at _ _ ipv6 (groupsNumber gs)) by (cbn; by rewrite E6).
    destruct (embeddedIpv4 _) as [quad|].
    + destruct He as (v & -> & Hq). rewrite (check_at _ _ ipv4 _ Hq). cbn [mbind option_bind].
      destruct (existsb (inSubnet (mapped v)) subnets) eqn:Ev; eexists; (split; [done|]);
        rewrite Forall_cons, Forall_singleton, <- !outside_all, Ev by done; naive_solver.
    + rewrite He. cbn [mbind option_bind]. eexists. split; [done|].
      rewrite Forall_singleton, <- outside_all by done. naive_solver.
Qed.

Lemma isBlockedAddress_exact_witness :
  ∃ subnets, blockListFor BLOCKED_ADDRESS_RULES = Some subnets ∧
    ∃ b, isBlockedAddress (u "64:ff9b::8.8.8.8") BLOCKED_ADDRESS_RULES = Some b ∧
      (b = false ↔ destinations (withoutZone (u "64:ff9b::8.8.8.8")) ≠ [] ∧
         Forall (λ d, Forall (λ s, ¬ inRange d s) subnets) (destinations (withoutZone (u "64:ff9b::8.8.8.8")))).
Proof.
  destruct (blockListFor BLOCKED_ADDRESS_RULES) as [subnets|] eqn:E; [|by vm_compute in E].
  exists subnets. split; [done|]. by apply isBlockedAddress_exact.
Defined.
