(* ===== verification/UrlSafety.v ===== *)
(** Server-side fetches of user-supplied URLs, the second half of
    packages/effect/src/url-safety.ts: the pre-flight, the lookup a connection dials
    through, and the redirect loop.  The network is the list of what comes back, one
    reply per request; header names and methods are HTTP tokens, hence ASCII. *)

From S2P Require Import Prelude JsText Url Addresses.

(** ** The pre-flight *)

Inductive BlockedUrlReason := invalid_url | insecure_scheme | embedded_credentials | blocked_address.

Record BlockedUrlError := {
  blockedReason : BlockedUrlReason; blockedHost : option jstr; blockedAddress : option jstr }.

Inductive fetchInput := InputText (text : jstr) | InputUrl (url : URL).

(** Under the shipped rules, which compile, the check never throws. *)
Definition isBlocked (address : jstr) : bool :=
  default true (isBlockedAddress address BLOCKED_ADDRESS_RULES).

(** A host without the brackets of an IPv6 literal. *)
Definition literalOf (host : jstr) : jstr :=
  if startsWith [91%N] host && endsWith [93%N] host then take (length host - 2) (drop 1 host) else host.

(** [new URL(location, base)]. *)
Class UrlResolver := resolveURL : jstr → URL → option URL.

Definition admitUrl (url : URL) : result BlockedUrlError URL :=
  let refuse why host address :=
    Err {| blockedReason := why; blockedHost := host; blockedAddress := address |} in
  if negb (bool_decide (protocol url = u "https:")) then refuse insecure_scheme (Some (hostname url)) None
  else if negb (bool_decide (username url = [])) || negb (bool_decide (password url = []))
  then refuse embedded_credentials (Some (hostname url)) None
  else
    let literal := literalOf (hostname url) in
    if negb (isIP literal =? 0)%Z && isBlocked literal
    then refuse blocked_address (Some (hostname url)) (Some literal)
    else Ok url.

Definition assertAllowedUrl `{UrlPlatform} (input : fetchInput) : result BlockedUrlError URL :=
  match match input with InputText text => parseURL text | InputUrl url => parseURL (href url) end with
  | None => Err {| blockedReason := invalid_url; blockedHost := None; blockedAddress := None |}
  | Some url => admitUrl url
  end.

(** ** The lookup a socket dials through *)

Record ResolvedAddress := { address : jstr; resolvedFamily : Z }.

Inductive lookupAnswer :=
| LookupBlocked (e : BlockedUrlError)
| LookupFailed
| LookupAll (addresses : list ResolvedAddress)
| LookupOne (dialed : ResolvedAddress).

Definition normalizeFamily (answer : ResolvedAddress) : ResolvedAddress :=
  {| address := address answer;
     resolvedFamily := if (resolvedFamily answer =? 6)%Z then 6 else 4 |}.

(** [resolved.find(...)]; the outer [None] when a check throws. *)
Fixpoint findBlocked (rules : list BlockedAddressRule) (resolved : list ResolvedAddress) :
    option (option ResolvedAddress) :=
  match resolved with
  | [] => Some None
  | answer :: rest =>
      blocked ← isBlockedAddress (address answer) rules;
      if (blocked : bool) then Some (Some answer) else findBlocked rules rest
  end.

(** One call of the lookup on what the resolver answered, [None] standing for its
    rejection; the result is what the callback is given, [None] when a check throws
    and it is never called. *)
Definition guardedLookup (rules : list BlockedAddressRule) (host : jstr) (all : bool)
    (answers : option (list ResolvedAddress)) : option lookupAnswer :=
  let refuse blocked :=
    LookupBlocked {| blockedReason := blocked_address; blockedHost := Some host; blockedAddress := blocked |} in
  match answers with
  | None => Some LookupFailed
  | Some answers =>
      let resolved := normalizeFamily <$> answers in
      blocked ← findBlocked rules resolved;
      match blocked with
      | Some answer => Some (refuse (Some (address answer)))
      | None =>
          match resolved with
          | [] => Some (refuse None)
          | first :: _ => Some (if all then LookupAll resolved else LookupOne first)
          end
      end
  end.

(** ** Requests and replies *)

(** The pairs of a [Headers] object, names in lower case. *)
Abbreviation Headers := (list (jstr * jstr)).

Inductive SafeFetchBody :=
| BodyText (text : jstr)
| BodyBytes (bytes : list N)
| BodyStream (stream : N).

Inductive redirectMode := follow | error | manual.
#[export] Instance redirectMode_dec : EqDecision redirectMode. Proof. solve_decision. Defined.

Record SafeFetchInit := {
  initMethod : option jstr; initHeaders : option Headers; initBody : option SafeFetchBody;
  initSignal : option N; initRedirect : option redirectMode }.

(** [new Headers(headers)], and one name removed from it. *)
Definition newHeaders (headers : Headers) : Headers := (λ h, (toLowerCase h.1, h.2)) <$> headers.
Definition deleteHeaders (names : list jstr) (headers : Headers) : Headers :=
  List.filter (λ h, negb (isMember h.1 names)) headers.

Definition sensitiveHeaders : list jstr := [u "authorization"; u "cookie"; u "proxy-authorization"].
Definition bodyHeaders : list jstr := [u "content-length"; u "content-type"; u "transfer-encoding"].

Definition stripSensitiveHeaders (headers : option Headers) : option Headers :=
  deleteHeaders sensitiveHeaders ∘ newHeaders <$> headers.
Definition stripBodyHeaders (headers : option Headers) : option Headers :=
  deleteHeaders bodyHeaders ∘ newHeaders <$> headers.

(** [headers.get(name)]: the values of the name joined. *)
Definition getHeader (name : jstr) (headers : Headers) : option jstr :=
  match (List.filter (λ h, bool_decide (h.1 = name)) headers).*2 with
  | [] => None
  | values => Some (join (u ", ") values)
  end.

(** The record the request is given: one entry per name, of which [set-cookie] keeps
    the last value only, as iterating a [Headers] object yields it. *)
Definition nodeHeader (headers : Headers) (record : gmap jstr jstr) (name : jstr) : gmap jstr jstr :=
  let values := (List.filter (λ h, bool_decide (h.1 = name)) headers).*2 in
  <[name := if bool_decide (name = u "set-cookie") then default [] (last values)
            else join (u ", ") values]> record.

Definition nodeHeaders (headers : option Headers) : option (gmap jstr jstr) :=
  (λ h, let normalized := newHeaders h in foldl (nodeHeader normalized) ∅ normalized.*1) <$> headers.

(** What one request puts on the wire: the arguments of [https.request] and the body. *)
Record Sent := {
  sentUrl : URL; sentMethod : jstr; sentHeaders : option (gmap jstr jstr); sentSignal : option N;
  sentBody : option SafeFetchBody }.

Definition requestOnce (target : URL) (init : SafeFetchInit) : Sent :=
  {| sentUrl := target; sentMethod := default (u "GET") (initMethod init);
     sentHeaders := nodeHeaders (initHeaders init); sentSignal := initSignal init;
     sentBody := initBody init |}.

(** What comes back: a connection error, or an incoming message. *)
Record IncomingMessage := { statusCode : option Z; incomingHeaders : Headers }.
Inductive Reply := RequestError | Incoming (message : IncomingMessage).

Record Response := {
  status : Z; responseHeaders : Headers; hasBody : bool; responseUrl : URL; redirected : bool }.

(** [new Response(body, { status })] throws outside 200 to 599, and for a body under
    a null-body status. *)
Definition responseAllowed (status : Z) (body : bool) : bool :=
  (200 <=? status)%Z && (status <=? 599)%Z
  && negb (body && existsb (Z.eqb status) [204; 205; 304]%Z).

Definition toResponse (incoming : IncomingMessage) (url : URL) (method : jstr) (hops : Z) :
    option Response :=
  let status := default 500%Z (statusCode incoming) in
  let body := negb (bool_decide (method = u "HEAD")) && negb (status =? 204)%Z
              && negb (status =? 304)%Z && (200 <=? status)%Z in
  if responseAllowed status body then
    Some {| status := status; responseHeaders := newHeaders (incomingHeaders incoming);
            hasBody := body; responseUrl := url; redirected := (0 <? hops)%Z |}
  else None.

(** ** Redirects *)

Definition isRedirectStatus (status : Z) : bool := existsb (Z.eqb status) [301; 302; 303; 307; 308]%Z.

Definition maxRedirects : Z := 20.

Definition isReplayableBody (body : SafeFetchBody) : bool :=
  match body with BodyText _ | BodyBytes _ => true | BodyStream _ => false end.

(** [method.toUpperCase()] of a token. *)
Definition toUpperCase (s : jstr) : jstr := (λ c, if isLowerAscii c then (c - 32)%N else c) <$> s.

Definition dropsBodyOnRedirect (status : Z) (method : jstr) : bool :=
  (status =? 303)%Z
  || (((status =? 301)%Z || (status =? 302)%Z) && bool_decide (toUpperCase method = u "POST")).

Definition redirectInit (init : SafeFetchInit) (status : Z) (from to : URL) : SafeFetchInit :=
  let method := default (u "GET") (initMethod init) in
  let dropBody := dropsBodyOnRedirect status method in
  let sameOrigin := if bool_decide (origin from = origin to) then initHeaders init
                    else stripSensitiveHeaders (initHeaders init) in
  {| initRedirect := Some (default follow (initRedirect init));
     initSignal := initSignal init;
     initHeaders := if dropBody then stripBodyHeaders sameOrigin else sameOrigin;
     initMethod := Some (if dropBody then u "GET" else method);
     initBody := if dropBody then None else initBody init |}.

(** How a fetch ends.  [FetchUncaught]: an exception in the listener of the response,
    which neither resolves nor rejects the promise; [FetchPending]: no reply yet. *)
Inductive fetchOutcome :=
| Fetched (response : Response)
| FetchBlocked (e : BlockedUrlError)
| StreamingBodyRedirect
| RedirectRefused
| TooManyRedirects
| InvalidRedirectUrl
| FetchNetworkError
| FetchUncaught
| FetchPending.

Section fetch.
Context `{UrlPlatform} `{UrlResolver}.

Fixpoint fetchWithRedirects (replies : list Reply) (limit hops : Z) (target : URL)
    (init : SafeFetchInit) : list Sent * fetchOutcome :=
  let sent := requestOnce target init in
  let stop outcome := ([sent], outcome) in
  match replies with
  | [] => stop FetchPending
  | RequestError :: _ => stop FetchNetworkError
  | Incoming incoming :: replies' =>
      let method := default (u "GET") (initMethod init) in
      match toResponse incoming target method hops with
      | None => stop FetchUncaught
      | Some response =>
          match getHeader (u "location") (responseHeaders response) with
          | Some location =>
              let mode := default follow (initRedirect init) in
              if negb (isRedirectStatus (status response)) then stop (Fetched response)
              else if bool_decide (mode = manual) then stop (Fetched response)
              else if bool_decide (mode = follow)
                      && match initBody init with Some body => negb (isReplayableBody body) | None => false end
                      && negb (dropsBodyOnRedirect (status response) method)
              then stop StreamingBodyRedirect
              else if bool_decide (mode = error) then stop RedirectRefused
              else if (limit <=? hops)%Z then stop TooManyRedirects
              else match resolveURL location target with
                   | None => stop InvalidRedirectUrl
                   | Some url =>
                       match assertAllowedUrl (InputUrl url) with
                       | Err e => stop (FetchBlocked e)
                       | Ok next =>
                           let '(sents, outcome) :=
                             fetchWithRedirects replies' limit (hops + 1) next
                               (redirectInit init (status response) target next) in
                           (sent :: sents, outcome)
                       end
                   end
          | None => stop (Fetched response)
          end
      end
  end.

(** [createSafeFetch] with its [maxRedirects]; [safeFetch] is it with the default. *)
Definition createSafeFetch (limit : option Z) (replies : list Reply) (url : fetchInput)
    (init : SafeFetchInit) : list Sent * fetchOutcome :=
  match assertAllowedUrl url with
  | Err e => ([], FetchBlocked e)
  | Ok target => fetchWithRedirects replies (default maxRedirects limit) 0 target init
  end.

Definition safeFetch := createSafeFetch None.
End fetch.

(** ** What is dialed *)

(** A URL the pre-flight lets through. *)
Definition admitted (url : URL) : Prop :=
  protocol url = u "https:" ∧ username url = [] ∧ password url = [] ∧
  (isIP (literalOf (hostname url)) ≠ 0%Z →
   isBlockedAddress (literalOf (hostname url)) BLOCKED_ADDRESS_RULES = Some false).

Lemma admitUrl_ok url next : admitUrl url = Ok next ↔ next = url ∧ admitted url.
Proof.
  unfold admitUrl, admitted, isBlocked. split.
  - intros H. destruct (bool_decide_reflect (protocol url = u "https:")); [|done].
    destruct (bool_decide_reflect (username url = [])); [|done].
    destruct (bool_decide_reflect (password url = [])); [|done]. cbn [negb orb] in H.
    destruct (Z.eqb_spec (isIP (literalOf (hostname url))) 0); cbn [negb andb] in H;
      [injection H as <-; by split_and!|].
    destruct (isBlockedAddress _ _) as [[]|]; cbn in H; try done. injection H as <-. by split_and!.
  - intros (-> & -> & -> & -> & Hb). cbn. destruct (Z.eqb_spec (isIP (literalOf (hostname url))) 0); [done|].
    by rewrite Hb.
Qed.

Lemma assertAllowedUrl_ok `{UrlPlatform} input next :
  assertAllowedUrl input = Ok next → admitted next.
Proof. unfold assertAllowedUrl. destruct input; case_match; try done; by intros [-> ?]%admitUrl_ok. Qed.

(** What the lookup hands to the socket: the resolver's addresses, all of them clear.
    One blocked address, or none at all, refuses the whole answer. *)
Theorem guardedLookup_exact rules subnets host all answers :
  blockListFor rules = Some subnets →
  ∃ r, guardedLookup rules host all answers = Some r ∧
    let clear a := isBlockedAddress (address a) rules = Some false in
    match r with
    | LookupOne a => ∃ more, answers = Some more ∧ head (normalizeFamily <$> more) = Some a ∧
                             all = false ∧ Forall clear more
    | LookupAll l => ∃ more, answers = Some more ∧ l = normalizeFamily <$> more ∧ l ≠ [] ∧
                             all = true ∧ Forall clear more
    | LookupBlocked e => blockedHost e = Some host ∧ ∃ more, answers = Some more ∧
        match blockedAddress e with
        | Some text => ∃ a, a ∈ more ∧ address a = text ∧ isBlockedAddress text rules = Some true
        | None => more = []
        end
    | LookupFailed => answers = None
    end.
Proof.
  intros Hr. destruct answers as [more|]; [|by exists LookupFailed]. unfold guardedLookup.
  assert (∃ b, findBlocked rules (normalizeFamily <$> more) = Some b ∧
    match b with
    | Some a => ∃ a', a' ∈ more ∧ address a' = address a ∧ isBlockedAddress (address a) rules = Some true
    | None => Forall (λ a, isBlockedAddress (address a) rules = Some false) more
    end) as (b & -> & Hb).
  { induction more as [|a more (b & Hf & IH)]; [by exists None|]. cbn [fmap list_fmap findBlocked].
    destruct (isBlockedAddress_exact (address a) rules subnets Hr) as (x & Hx & _).
    change (address (normalizeFamily a)) with (address a). rewrite Hx. cbn [mbind option_bind].
    destruct x; [eexists; split; [done|]; exists a; split_and!; [left|done..]|].
    rewrite Hf. eexists. split; [done|]. destruct b as [a'|]; [|by constructor].
    destruct IH as (c & Hc & ? & ?). exists c. split_and!; [by right|done..]. }
  cbn [mbind option_bind]. destruct b as [a|].
  - eexists. split; [done|]. cbn. split; [done|]. exists more. split; [done|].
    destruct Hb as (a' & ? & ? & ?). by exists a'.
  - destruct more as [|a more]; [eexists; split; [done|]; cbn; split; [done|]; by exists []|].
    destruct all; eexists; (split; [done|]); cbn; by exists (a :: more).
Qed.

(** ** Header names across a redirect *)

Lemma toLowerCase_idem s : toLowerCase (toLowerCase s) = toLowerCase s.
Proof.
  induction s as [|c s IH]; [done|].
  rewrite (toLowerCase_cons c s), toLowerCase_app, IH. f_equal.
  unfold toLowerCase at 2 3. cbn [mbind list_bind]. rewrite app_nil_r.
  destruct (isUpperAscii c) eqn:Eu.
  - unfold isUpperAscii in Eu. apply andb_true_iff in Eu as [H1%N.leb_le H2%N.leb_le].
    unfold toLowerCase. cbn [mbind list_bind]. unfold isUpperAscii.
    rewrite (proj2 (N.leb_gt (c + 32) 90)), andb_false_r by lia.
    by rewrite !(proj2 (N.eqb_neq _ _)) by lia.
  - destruct (N.eqb_spec c 304) as [->|H1]; [done|]. destruct (N.eqb_spec c 8490) as [->|H2]; [done|].
    unfold toLowerCase. cbn [mbind list_bind]. by rewrite Eu, !(proj2 (N.eqb_neq _ _)) by done.
Qed.

(** The names a request carries. *)
Definition headerNames (headers : option Headers) : list jstr :=
  match headers with Some h => (newHeaders h).*1 | None => [] end.

Lemma strip_names names headers name :
  name ∈ headerNames (deleteHeaders names ∘ newHeaders <$> headers) →
  name ∈ headerNames headers ∧ name ∉ names.
Proof.
  destruct headers as [h|]; [|by intros ?%elem_of_nil]. cbn [fmap option_fmap option_map headerNames compose].
  intros ([n v] & -> & Hin)%list_elem_of_fmap. cbn.
  unfold newHeaders in Hin. apply list_elem_of_fmap in Hin as ([n' v'] & [= -> ->] & Hin).
  unfold deleteHeaders in Hin. apply list_elem_of_In, filter_In in Hin as [Hin Hn].
  apply list_elem_of_In in Hin. cbn in Hn.
  assert (toLowerCase n' = n') as ->.
  { apply list_elem_of_fmap in Hin as ([n2 v2] & [= -> ->] & _). apply toLowerCase_idem. }
  split; [by apply (list_elem_of_fmap_2' fst) with (x := (n', v'))|].
  apply negb_true_iff in Hn. by intros H%isMember_true; rewrite H in Hn.
Qed.

Lemma redirect_names init st from to name :
  name ∈ headerNames (initHeaders (redirectInit init st from to)) →
  name ∈ headerNames (initHeaders init) ∧ (name ∈ sensitiveHeaders → origin from = origin to).
Proof.
  unfold redirectInit. cbn [initHeaders]. set (kept := if bool_decide _ then _ else _).
  assert (name ∈ headerNames kept →
    name ∈ headerNames (initHeaders init) ∧ (name ∈ sensitiveHeaders → origin from = origin to)) as Hk.
  { unfold kept. case_bool_decide; [done|]. intros [? ?]%strip_names. by split. }
  destruct (dropsBodyOnRedirect _ _); [|done]. intros [H _]%strip_names. by apply Hk.
Qed.

Definition credentialed (s : Sent) : Prop :=
  ∃ record name, sentHeaders s = Some record ∧ name ∈ sensitiveHeaders ∧ is_Some (record !! name).

Lemma foldl_nodeHeader norm l record name :
  is_Some (foldl (nodeHeader norm) record l !! name) ↔ name ∈ l ∨ is_Some (record !! name).
Proof.
  revert record. induction l as [|n l IH]; intros record; cbn [foldl].
  - rewrite elem_of_nil. naive_solver.
  - rewrite IH, elem_of_cons. unfold nodeHeader. rewrite lookup_insert_is_Some.
    destruct (decide (n = name)); naive_solver.
Qed.

Lemma credentialed_names target init :
  credentialed (requestOnce target init) ↔
  ∃ name, name ∈ sensitiveHeaders ∧ name ∈ headerNames (initHeaders init).
Proof.
  unfold credentialed, requestOnce, nodeHeaders. cbn [sentHeaders].
  destruct (initHeaders init) as [h|]; cbn [fmap option_fmap option_map headerNames].
  - split.
    + intros (record & name & [= <-] & Hn & Hs). apply foldl_nodeHeader in Hs as [Hs|[? Hs]]; [|done].
      by exists name.
    + intros (name & Hn & Hs). eexists _, name. split; [done|]. split; [done|].
      apply foldl_nodeHeader. by left.
  - split; [by intros (? & ? & ? & _)|]. by intros (? & _ & ?%elem_of_nil).
Qed.

(** ** The redirect loop *)

Definition streamed (init : SafeFetchInit) : bool :=
  match initBody init with Some body => negb (isReplayableBody body) | None => false end.

Section loop.
Context `{UrlPlatform} `{UrlResolver}.

(** One hop: the loop stops here, or a redirect with hops left goes on to an admitted
    URL, a streaming body being dropped. *)
Lemma fetch_step replies limit hops target init sents outcome :
  fetchWithRedirects replies limit hops target init = (sents, outcome) →
  let sent := requestOnce target init in
  (sents = [sent] ∧ (outcome = FetchPending → replies = [])) ∨
  ∃ reply rest st next more,
    replies = reply :: rest ∧ (hops < limit)%Z ∧ admitted next ∧
    streamed (redirectInit init st target next) = false ∧ sents = sent :: more ∧
    fetchWithRedirects rest limit (hops + 1) next (redirectInit init st target next) = (more, outcome).
Proof.
  intros Hf sent. destruct replies as [|[|incoming] rest]; cbn [fetchWithRedirects] in Hf;
    [injection Hf as <- <-; left; split; [done|]; done..|]. fold sent in Hf.
  assert (∀ out, out ≠ FetchPending → ([sent], out) = (sents, outcome) →
    sents = [sent] ∧ (outcome = FetchPending → Incoming incoming :: rest = [])) as Hs.
  { intros out Ho [= <- <-]. split; [done|]. by intros ->. }
  destruct (toResponse _ _ _ _) as [response|]; [|by left; eapply Hs; [|exact Hf]].
  destruct (getHeader _ _) as [location|]; [|by left; eapply Hs; [|exact Hf]].
  destruct (negb _); [by left; eapply Hs; [|exact Hf]|].
  case_bool_decide as Hm; [by left; eapply Hs; [|exact Hf]|].
  destruct (bool_decide (_ = follow) && _ && _) eqn:Est; [by left; eapply Hs; [|exact Hf]|].
  case_bool_decide as He; [by left; eapply Hs; [|exact Hf]|].
  destruct (Z.leb_spec limit hops) as [|Hl]; [by left; eapply Hs; [|exact Hf]|].
  destruct (resolveURL location target) as [url|]; [|by left; eapply Hs; [|exact Hf]].
  destruct (assertAllowedUrl (InputUrl url)) as [next|e] eqn:Ea; [|by left; eapply Hs; [|exact Hf]].
  apply assertAllowedUrl_ok in Ea.
  destruct (fetchWithRedirects rest _ _ _ _) as [more out] eqn:Er. injection Hf as <- <-.
  right. exists (Incoming incoming), rest, (status response), next, more. split_and!; try done.
  rewrite bool_decide_true in Est by by destruct (default follow (initRedirect init)).
  unfold streamed, redirectInit. cbn [initBody andb] in *.
  destruct (dropsBodyOnRedirect _ _); [done|]. cbn [negb] in Est. by rewrite andb_true_r in Est.
Qed.

(** What holds of the requests from a hop on: each goes to an admitted URL, the hops
    left bound their number, one that carries a credential has every request before
    it at its origin, and only the first may stream its body. *)
Definition hopsSafe (budget : Z) (sents : list Sent) : Prop :=
  Forall (λ s, admitted (sentUrl s)) sents ∧
  (Z.of_nat (length sents) ≤ 1 + Z.max 0 budget)%Z ∧
  (∀ i j s s', j ≤ i → sents !! i = Some s → sents !! j = Some s' → credentialed s →
    credentialed s' ∧ origin (sentUrl s') = origin (sentUrl s)) ∧
  ∀ i s k, sents !! i = Some s → sentBody s = Some (BodyStream k) → i = 0.

Lemma hops_first budget target init :
  admitted target → hopsSafe budget [requestOnce target init].
Proof.
  intros Ht. split_and!; [by constructor|cbn; lia| |].
  - by intros i j s s' _ [-> <-]%list_lookup_singleton_Some [-> <-]%list_lookup_singleton_Some Hc.
  - by intros i s k [-> _]%list_lookup_singleton_Some _.
Qed.

Lemma hops_next budget target init st next more :
  admitted target → (0 < budget)%Z → hopsSafe (budget - 1) more →
  streamed (redirectInit init st target next) = false →
  head more = Some (requestOnce next (redirectInit init st target next)) →
  hopsSafe budget (requestOnce target init :: more).
Proof.
  intros Ht Hb (Hall & Hlen & Hcred & Hbody) Hst Hhead. split_and!.
  - by constructor.
  - cbn [length]. lia.
  - intros i j s s' Hji Hi Hj Hc. destruct j as [|j]; [|destruct i; [lia|]; apply (Hcred i j s s'); [lia|done..]].
    cbn in Hj. injection Hj as <-. destruct i as [|i]; cbn in Hi; [by injection Hi as <-|].
    rewrite head_lookup in Hhead. destruct (Hcred i 0 s _ ltac:(lia) Hi Hhead Hc) as [Hn Ho].
    apply credentialed_names in Hn as (name & Hs & Hn). apply redirect_names in Hn as [Hn Hor].
    split; [apply credentialed_names; by exists name|]. cbn [sentUrl requestOnce] in *.
    by rewrite (Hor Hs), Ho.
  - intros i s k Hi Hk. destruct i as [|i]; [done|]. cbn in Hi.
    pose proof (Hbody i s k Hi Hk) as ->. destruct more as [|m more]; [done|].
    cbn in Hi, Hhead. injection Hi as ->. injection Hhead as ->.
    unfold streamed in Hst. cbn [sentBody requestOnce] in Hk. by rewrite Hk in Hst.
Qed.

Lemma fetch_hops replies limit hops target init sents outcome :
  admitted target → fetchWithRedirects replies limit hops target init = (sents, outcome) →
  hopsSafe (limit - hops) sents ∧ head sents = Some (requestOnce target init).
Proof.
  revert hops target init sents outcome. induction replies as [|reply rest IH];
    intros hops target init sents outcome Ht Hf; apply fetch_step in Hf as
      [[-> _]|(reply' & rest' & st & next & more & Hr & Hl & Hn & Hst & -> & Hf)];
    [split; [by apply hops_first|done]|done|split; [by apply hops_first|done]|].
  injection Hr as <- <-. destruct (IH _ _ _ _ _ Hn Hf) as [Hsafe Hhead]. split; [|done].
  eapply hops_next; eauto; [lia|]. by replace (limit - hops - 1)%Z with (limit - (hops + 1))%Z by lia.
Qed.

(** C10. Every request a fetch sends, through any redirects a server answers with, goes to
    an https URL without credentials whose literal address is not refused; there is
    at most one more than the redirect limit. *)
Theorem safeFetch_requests_admitted limit replies url init sents outcome :
  createSafeFetch limit replies url init = (sents, outcome) →
  Forall (λ s, admitted (sentUrl s)) sents ∧
  (Z.of_nat (length sents) ≤ 1 + Z.max 0 (default maxRedirects limit))%Z.
Proof.
  unfold createSafeFetch. destruct (assertAllowedUrl url) as [target|e] eqn:Ea; [|intros [= <- <-]].
  - apply assertAllowedUrl_ok in Ea. intros Hf. apply fetch_hops in Hf as [(Ha & Hn & _) _]; [|done].
    split; [done|]. lia.
  - split; [constructor|]. cbn. lia.
Qed.

(** A credential header leaves only for the origin it was given for: a request that
    carries one follows requests to its own origin alone, whatever the server
    redirects to.  A body that can be read once is sent once. *)
Theorem safeFetch_keeps_credentials limit replies url init sents outcome :
  createSafeFetch limit replies url init = (sents, outcome) →
  (∀ i j s s', j ≤ i → sents !! i = Some s → sents !! j = Some s' → credentialed s →
    origin (sentUrl s') = origin (sentUrl s)) ∧
  ∀ i j s s' k k', sents !! i = Some s → sents !! j = Some s' →
    sentBody s = Some (BodyStream k) → sentBody s' = Some (BodyStream k') → i = j.
Proof.
  unfold createSafeFetch. destruct (assertAllowedUrl url) as [target|e] eqn:Ea; [|by intros [= <- <-]].
  apply assertAllowedUrl_ok in Ea. intros Hf. apply fetch_hops in Hf as [(_ & _ & Hc & Hb) _]; [|done]. split.
  - intros i j s s' Hji Hi Hj Hs. by apply (Hc i j s s').
  - intros i j s s' k k' Hi Hj Hk Hk'. by rewrite (Hb _ _ _ Hi Hk), (Hb _ _ _ Hj Hk').
Qed.

(** A fetch ends: one reply more than the redirect limit is enough, whatever they say. *)
Theorem safeFetch_ends limit replies url init :
  (Z.max 0 (default maxRedirects limit) < Z.of_nat (length replies))%Z →
  (createSafeFetch limit replies url init).2 ≠ FetchPending.
Proof.
  unfold createSafeFetch. destruct (assertAllowedUrl url) as [target|e]; [|done].
  generalize (default maxRedirects limit) as l. intros l Hn. rewrite <- (Z.sub_0_r l) in Hn.
  revert Hn. generalize 0%Z at 2 3 as hops. revert target init.
  induction replies as [|reply rest IH]; intros target init hops Hn; [cbn in Hn; lia|].
  destruct (fetchWithRedirects _ _ _ _ _) as [sents outcome] eqn:Hf. cbn [snd]. apply fetch_step in Hf as
    [[-> Hp]|(reply' & rest' & st & next & more & Hr & Hl & Hnx & Hst & -> & Hf)]; [naive_solver|].
  injection Hr as <- <-. specialize (IH next (redirectInit init st target next) (hops + 1)%Z).
  rewrite Hf in IH. apply IH. cbn [length] in Hn. lia.
Qed.
End loop.

(** ** Examples and witnesses *)

(** Absolute locations only. *)
#[export] Instance absoluteResolver : UrlResolver := λ location _, parseURL location.

Definition sampleInit : SafeFetchInit :=
  {| initMethod := Some (u "POST"); initHeaders := Some [(u "Authorization", u "Bearer token"); (u "Accept", u "*/*")];
     initBody := Some (BodyStream 1); initSignal := None; initRedirect := None |}.

Definition redirectTo (status : Z) (url : string) : Reply :=
  Incoming {| statusCode := Some status; incomingHeaders := [(u "location", u url)] |}.

Definition sampleReplies : list Reply :=
  [redirectTo 302 "https://api.example.com/"; redirectTo 302 "https://evil.test/";
   redirectTo 302 "https://api.example.com/"; Incoming {| statusCode := Some 200%Z; incomingHeaders := [] |}].

Definition sampleFetch : list Sent * fetchOutcome :=
  safeFetch sampleReplies (InputText (u "https://api.example.com/")) sampleInit.

(** The credential goes along to the same origin and stays away once the fetch has
    left it, even when it comes back. *)
Example credential_stays :
  (λ s, (hostname (sentUrl s), sentMethod s, sentHeaders s ≫= lookup (u "authorization"), sentBody s))
    <$> sampleFetch.1 =
  [(u "api.example.com", u "POST", Some (u "Bearer token"), Some (BodyStream 1));
   (u "api.example.com", u "GET", Some (u "Bearer token"), None);
   (u "evil.test", u "GET", None, None);
   (u "api.example.com", u "GET", None, None)].
Proof. vm_compute. reflexivity. Qed.

(** A server that answers 205, or a status past 599, makes [new Response] throw in the
    listener: the promise is never settled. *)
Example reset_content_uncaught :
  (λ code, (safeFetch [Incoming {| statusCode := Some code; incomingHeaders := [] |}]
              (InputText (u "https://api.example.com/")) sampleInit).2) <$> [205; 600; 999]%Z
  = [FetchUncaught; FetchUncaught; FetchUncaught].
Proof. vm_compute. reflexivity. Qed.

Lemma guardedLookup_exact_witness :
  ∃ subnets, blockListFor BLOCKED_ADDRESS_RULES = Some subnets ∧
    ∃ r, guardedLookup BLOCKED_ADDRESS_RULES (u "rebind.test") false
           (Some [{| address := u "93.184.216.34"; resolvedFamily := 4 |};
                  {| address := u "169.254.169.254"; resolvedFamily := 4 |}]) = Some r ∧
         ∃ e, r = LookupBlocked e.
Proof.
  destruct (blockListFor BLOCKED_ADDRESS_RULES) as [subnets|] eqn:E; [|by vm_compute in E].
  exists subnets. split; [done|].
  destruct (guardedLookup_exact BLOCKED_ADDRESS_RULES subnets (u "rebind.test") false
    (Some [{| address := u "93.184.216.34"; resolvedFamily := 4 |};
           {| address := u "169.254.169.254"; resolvedFamily := 4 |}]) E) as (r & Hr & _).
  exists r. split; [exact Hr|]. eexists. vm_compute in Hr. injection Hr as <-. reflexivity.
Defined.

Lemma safeFetch_requests_admitted_witness :
  length sampleFetch.1 = 4 ∧ Forall (λ s, admitted (sentUrl s)) sampleFetch.1 ∧
  (Z.of_nat (length sampleFetch.1) ≤ 1 + Z.max 0 (default maxRedirects None))%Z.
Proof.
  split; [vm_compute; reflexivity|].
  exact (safeFetch_requests_admitted None sampleReplies (InputText (u "https://api.example.com/")) sampleInit
    sampleFetch.1 sampleFetch.2 (surjective_pairing _)).
Defined.

Lemma safeFetch_keeps_credentials_witness :
  ∃ s s', sampleFetch.1 !! 1 = Some s ∧ sampleFetch.1 !! 0 = Some s' ∧
    origin (sentUrl s') = origin (sentUrl s).
Proof.
  destruct (sampleFetch.1 !! 1) as [s|] eqn:Es; [|by vm_compute in Es].
  destruct (sampleFetch.1 !! 0) as [s'|] eqn:Es'; [|by vm_compute in Es'].
  exists s, s'. split; [done|]. split; [done|].
  apply (proj1 (safeFetch_keeps_credentials None sampleReplies (InputText (u "https://api.example.com/")) sampleInit
    sampleFetch.1 sampleFetch.2 (surjective_pairing _)) 1 0 s s'); [lia|exact Es|exact Es'|].
  vm_compute in Es. injection Es as <-. eexists _, (u "authorization"). split; [reflexivity|].
  split; [vm_compute; left|]. by eexists.
Defined.

Lemma safeFetch_ends_witness :
  (Z.max 0 (default maxRedirects (Some 1%Z)) < Z.of_nat (length sampleReplies))%Z ∧
  (createSafeFetch (Some 1%Z) sampleReplies (InputText (u "https://api.example.com/")) sampleInit).2 ≠ FetchPending.
Proof. split; [done|]. by apply safeFetch_ends. Defined.
