(* ===== verification/Transactions.v ===== *)
(** Database transactions (packages/db/src/transaction.ts) at READ COMMITTED: a
    statement sees the committed tables under the transaction's own writes, the
    transactions of others commit between two statements unless they need a lock this
    one holds, and the writes are published at the commit.  A statement that has to
    wait for a lock runs when the holder has committed or rolled back, and [now()] is
    the start of the transaction.  The answer of a commit may be lost, before or
    after it took effect. *)

From S2P Require Import Prelude.

Section transactions.
Context {Db W L E : Type} (applyWrite : W → Db → Db) (lost : E).

(** A statement's answer, its writes and the locks it takes. *)
Definition txStatement (X : Type) : Type := Z → Db → X * list W * list L.

(** The body of [withTransaction]: returning commits, throwing rolls back. *)
Inductive txn (A : Type) : Type :=
| Return (a : A)
| Throw (e : E)
| Ask (X : Type) (stmt : txStatement X) (k : X → txn A).

(** What a caller of transactions does: one after the other, then an answer. *)
Inductive script (A : Type) : Type :=
| Finish (a : A)
| Transact (B : Type) (t : txn B) (k : result E B → script A).
End transactions.

Arguments txn Db W L E A : clear implicits.
Arguments script Db W L E A : clear implicits.
Arguments Return {Db W L E A} a.
Arguments Throw {Db W L E A} e.
Arguments Ask {Db W L E A X} stmt k.
Arguments Finish {Db W L E A} a.
Arguments Transact {Db W L E A B} t k.

Section combinators.
Context {Db W L E : Type}.

#[export] Instance txn_ret : MRet (txn Db W L E) := λ A a, Return a.
#[export] Instance txn_bind : MBind (txn Db W L E) :=
  fix bind A B f (t : txn Db W L E A) :=
    match t with
    | Return a => f a
    | Throw e => Throw e
    | Ask stmt k => Ask stmt (λ x, bind A B f (k x))
    end.

(** A statement that may throw, and one that only reads. *)
Definition demand {X} (stmt : txStatement (result E X)) : txn Db W L E X :=
  Ask stmt (λ r, match r with Ok x => Return x | Err e => Throw e end).
Definition read {X} (f : Db → X) : txn Db W L E X :=
  Ask (λ _ db, (f db, [], [])) (λ x, Return x).

(** The answer of a script, read on. *)
Fixpoint script_map {A B} (s : script Db W L E A) (f : A → B) : script Db W L E B :=
  match s with
  | Finish a => Finish (f a)
  | Transact t k => Transact t (λ r, script_map (k r) f)
  end.

Fixpoint script_bind {A B} (s : script Db W L E A) (f : A → script Db W L E B) : script Db W L E B :=
  match s with
  | Finish a => f a
  | Transact t k => Transact t (λ r, script_bind (k r) f)
  end.

(** One transaction and nothing else. *)
Definition alone {A} (t : txn Db W L E A) : script Db W L E (result E A) := Transact t (λ r, Finish r).
End combinators.

Section semantics.
Context {Db W L E : Type} (applyWrite : W → Db → Db) (lost : E).

Definition overlay (ws : list W) (db : Db) : Db := foldl (λ d w, applyWrite w d) db ws.

(** The transactions of others, each with the locks it held when it committed. *)
Context (commits : list L → Db → Db → Prop).

Definition others (held : list L) (db db' : Db) : Prop :=
  ∃ ks, commits ks db db' ∧ Forall (λ k, k ∉ held) ks.

(** [ends t now ws held db o ws' held' db']: with the writes [ws] and the locks
    [held] so far, on the committed tables [db], the body comes to its end [o]: about
    to commit [ws'] over [db'], or rolling back. *)
Fixpoint ends {A} (t : txn Db W L E A) (now : Z) (ws : list W) (held : list L) (db : Db)
    (o : result E A) (ws' : list W) (held' : list L) (db' : Db) : Prop :=
  match t with
  | Return a => rtc (others held) db db' ∧ o = Ok a ∧ ws' = ws ∧ held' = held
  | Throw e => db' = db ∧ o = Err e ∧ ws' = [] ∧ held' = held
  | Ask stmt k =>
      ∃ db1, rtc (others held) db db1 ∧
        let '(x, w, l) := stmt now (overlay ws db1) in
        ends (k x) now (ws ++ w) (held ++ l) db1 o ws' held' db'
  end.

Definition anyCommit (db db' : Db) : Prop := ∃ ks, commits ks db db'.

(** A transaction started on [db]: it commits, rolls back, or the connection is lost. *)
Definition txRuns {A} (t : txn Db W L E A) (now : Z) (db : Db) (r : result E A) (db' : Db) : Prop :=
  (∃ a ws held db1, ends t now [] [] db (Ok a) ws held db1 ∧
     ((r = Ok a ∧ db' = overlay ws db1) ∨ (r = Err lost ∧ (db' = db1 ∨ db' = overlay ws db1)))) ∨
  (∃ e ws held, ends t now [] [] db (Err e) ws held db' ∧ r = Err e) ∨
  (r = Err lost ∧ rtc anyCommit db db').

Fixpoint scriptRuns {A} (s : script Db W L E A) (db : Db) (a : A) (db' : Db) : Prop :=
  match s with
  | Finish a' => a = a' ∧ db' = db
  | Transact t k =>
      ∃ now db1 r db2, rtc anyCommit db db1 ∧ txRuns t now db1 r db2 ∧ scriptRuns (k r) db2 a db'
  end.

(** A transaction with nobody else, and a script of them at one instant. *)
Fixpoint txAlone {A} (t : txn Db W L E A) (now : Z) (ws : list W) (db : Db) : result E A * Db :=
  match t with
  | Return a => (Ok a, overlay ws db)
  | Throw e => (Err e, db)
  | Ask stmt k => let '(x, w, _) := stmt now (overlay ws db) in txAlone (k x) now (ws ++ w) db
  end.

Fixpoint scriptAlone {A} (s : script Db W L E A) (now : Z) (db : Db) : A * Db :=
  match s with
  | Finish a => (a, db)
  | Transact t k => let '(r, db') := txAlone t now [] db in scriptAlone (k r) now db'
  end.

(** ** Lemmas *)

Lemma overlay_app ws ws' db : overlay (ws ++ ws') db = overlay ws' (overlay ws db).
Proof. unfold overlay. by rewrite foldl_app. Qed.

Lemma others_any held db db' : others held db db' → anyCommit db db'.
Proof. intros (ks & H & _). by exists ks. Qed.

Lemma others_steps held db db' : rtc (others held) db db' → rtc anyCommit db db'.
Proof. apply rtc_subrel. intros x y. apply others_any. Qed.

Lemma others_mono held held' db db' :
  (∀ k, k ∈ held → k ∈ held') → rtc (others held') db db' → rtc (others held) db db'.
Proof.
  intros Hk. apply rtc_subrel. intros x y (ks & Hc & Hf). exists ks. split; [done|].
  eapply Forall_impl; [exact Hf|]. cbv beta. eauto.
Qed.

Lemma ends_steps {A} (t : txn Db W L E A) now ws held db o ws' held' db' :
  ends t now ws held db o ws' held' db' → rtc anyCommit db db'.
Proof.
  revert now ws held db. induction t as [a|e|X stmt k IH]; intros now ws held db; cbn [ends].
  - intros (H & _). by eapply others_steps.
  - by intros (-> & _).
  - intros (db1 & H1 & H). etrans; [by eapply others_steps|].
    destruct (stmt now (overlay ws db1)) as [[x w] l]. by eapply IH.
Qed.

(** A transaction whose commits are steps of the relation moves the tables by it. *)
Lemma txRuns_steps {A} (t : txn Db W L E A) now db r db' :
  (∀ a ws held db1, ends t now [] [] db (Ok a) ws held db1 → rtc anyCommit db1 (overlay ws db1)) →
  txRuns t now db r db' → rtc anyCommit db db'.
Proof.
  intros Ht [(a & ws & held & db1 & He & Hr)|[(e & ws & held & He & _)|[_ H]]]; [|by eapply ends_steps|done].
  pose proof (ends_steps _ _ _ _ _ _ _ _ _ He) as H1.
  destruct Hr as [[_ ->]|[_ [-> | ->]]]; [|done|]; (etrans; [exact H1|by eapply Ht]).
Qed.

Lemma txAlone_ends {A} (t : txn Db W L E A) now ws held db :
  match txAlone t now ws db with
  | (Ok a, db') => ∃ ws' held', ends t now ws held db (Ok a) ws' held' db ∧ db' = overlay ws' db
  | (Err e, db') => ∃ ws' held', ends t now ws held db (Err e) ws' held' db' ∧ db' = db
  end.
Proof.
  revert ws held. induction t as [a|e|X stmt k IH]; intros ws held; cbn [txAlone ends].
  - by exists ws, held.
  - by exists [], held.
  - destruct (stmt now (overlay ws db)) as [[x w] l] eqn:Es. specialize (IH x (ws ++ w) (held ++ l)).
    destruct (txAlone (k x) now (ws ++ w) db) as [[a|e] db']; destruct IH as (ws' & held' & He & ->);
      exists ws', held'; (split; [|done]); exists db; (split; [done|]); by rewrite Es.
Qed.

Lemma txAlone_runs {A} (t : txn Db W L E A) now db :
  txRuns t now db (txAlone t now [] db).1 (txAlone t now [] db).2.
Proof.
  pose proof (txAlone_ends t now [] [] db) as H. destruct (txAlone t now [] db) as [[a|e] db'];
    destruct H as (ws & held & He & ->); cbn [fst snd].
  - left. exists a, ws, held, db. split; [done|]. by left.
  - right. left. by exists e, ws, held.
Qed.

Lemma script_bind_runs {A B} (s : script Db W L E A) (f : A → script Db W L E B) db b db' :
  scriptRuns (script_bind s f) db b db' ↔ ∃ a d, scriptRuns s db a d ∧ scriptRuns (f a) d b db'.
Proof.
  revert db. induction s as [a|C t k IH]; intros db; cbn [script_bind scriptRuns].
  - split; [by exists a, db|by intros (? & ? & [-> ->] & ?)].
  - split.
    + intros (now & d1 & r & d2 & S1 & Ht & (a & d & Ha & Hb)%IH). exists a, d. split; [|done]. by exists now, d1, r, d2.
    + intros (a & d & (now & d1 & r & d2 & S1 & Ht & Ha) & Hb). exists now, d1, r, d2. split_and!; [done..|].
      apply IH. by exists a, d.
Qed.

Lemma script_bind_alone {A B} (s : script Db W L E A) (f : A → script Db W L E B) now db :
  scriptAlone (script_bind s f) now db = scriptAlone (f (scriptAlone s now db).1) now (scriptAlone s now db).2.
Proof.
  revert db. induction s as [a|C t k IH]; intros db; cbn [script_bind scriptAlone]; [done|].
  destruct (txAlone t now [] db) as [r d]. apply IH.
Qed.

Lemma scriptAlone_runs {A} (s : script Db W L E A) now db :
  scriptRuns s db (scriptAlone s now db).1 (scriptAlone s now db).2.
Proof.
  revert db. induction s as [a|B t k IH]; intros db; cbn [scriptRuns scriptAlone]; [done|].
  destruct (txAlone t now [] db) as [r db'] eqn:Et. exists now, db, r, db'. split; [done|].
  split; [|apply IH]. pose proof (txAlone_runs t now db) as H. by rewrite Et in H.
Qed.
End semantics.

(** ** A body that comes to its commit, statement by statement *)

Section commit.
Context {Db W L E : Type} (applyWrite : W → Db → Db) (commits : list L → Db → Db → Prop).
Abbreviation ends := (ends applyWrite commits (E := E)).

Lemma ends_demand {X A} (stmt : txStatement (result E X)) (f : X → txn Db W L E A) now ws held db a ws' held' db' :
  ends (demand stmt ≫= f) now ws held db (Ok a) ws' held' db' →
  ∃ d x w l, rtc (others commits held) db d ∧ stmt now (overlay applyWrite ws d) = (Ok x, w, l) ∧
    ends (f x) now (ws ++ w) (held ++ l) d (Ok a) ws' held' db'.
Proof.
  intros (d & Hs & H). destruct (stmt now (overlay applyWrite ws d)) as [[[x|e] w] l] eqn:Es.
  - by exists d, x, w, l.
  - by destruct H as (_ & ? & _).
Qed.

Lemma ends_ask {X A} (stmt : txStatement (result E X)) (f : X → txn Db W L E A) now ws held db d x w l o ws' held' db' :
  rtc (others commits held) db d → stmt now (overlay applyWrite ws d) = (Ok x, w, l) →
  ends (f x) now (ws ++ w) (held ++ l) d o ws' held' db' → ends (demand stmt ≫= f) now ws held db o ws' held' db'.
Proof. intros Hs Hst He. exists d. split; [done|]. by rewrite Hst. Qed.

Lemma ends_last {X} (stmt : txStatement (result E X)) now ws held db a ws' held' db' :
  ends (demand stmt) now ws held db (Ok a) ws' held' db' →
  ∃ d w l, rtc (others commits held) db d ∧ stmt now (overlay applyWrite ws d) = (Ok a, w, l) ∧
    ws' = ws ++ w ∧ held' = held ++ l ∧ rtc (others commits held') d db'.
Proof.
  intros (d & Hs & H). destruct (stmt now (overlay applyWrite ws d)) as [[[x|e] w] l] eqn:Es.
  - destruct H as (Hs' & [= ->] & -> & ->). by exists d, w, l.
  - by destruct H as (_ & ? & _).
Qed.

Lemma ends_read {X A} (g : Db → X) (f : X → txn Db W L E A) now ws held db a ws' held' db' :
  ends (read g ≫= f) now ws held db (Ok a) ws' held' db' →
  ∃ d, rtc (others commits held) db d ∧ ends (f (g (overlay applyWrite ws d))) now ws held d (Ok a) ws' held' db'.
Proof. intros (d & Hs & H). cbn in H. rewrite !app_nil_r in H. by exists d. Qed.

Lemma ends_return {A} (x a : A) now ws held db ws' held' db' :
  ends (Return x) now ws held db (Ok a) ws' held' db' →
  rtc (others commits held) db db' ∧ a = x ∧ ws' = ws ∧ held' = held.
Proof. intros (Hs & [= ->] & -> & ->). by split_and!. Qed.

Lemma ends_assoc {A B C} (t : txn Db W L E A) (f : A → txn Db W L E B) (g : B → txn Db W L E C)
    now ws held db o ws' held' db' :
  ends ((t ≫= f) ≫= g) now ws held db o ws' held' db' →
  ends (t ≫= λ a, f a ≫= g) now ws held db o ws' held' db'.
Proof.
  revert ws held db. induction t as [a|e|X stmt k IH]; intros ws held db; [done..|].
  intros (d & Hs & H). exists d. split; [done|]. destruct (stmt now (overlay applyWrite ws d)) as [[x w] l].
  by apply IH.
Qed.

Lemma ends_throw {A} (e : E) (a : A) now ws held db ws' held' db' :
  ends (Throw e) now ws held db (Ok a) ws' held' db' → False.
Proof. by intros (_ & ? & _). Qed.

(** A transaction whose answer is that of a body that returned has committed it. *)
Lemma txRuns_ok {A} (lost : E) (t : txn Db W L E A) now db a db' :
  txRuns applyWrite lost commits t now db (Ok a) db' →
  ∃ ws held db1, ends t now [] [] db (Ok a) ws held db1 ∧ db' = overlay applyWrite ws db1.
Proof.
  intros [(x & ws & held & db1 & He & [[[= ->] ->]|[? _]])|[(e & ws & held & _ & ?)|[? _]]]; try done.
  by exists ws, held, db1.
Qed.

(** A read sees one state between the start and the end of its transaction. *)
Lemma demand_runs {X} (lost : E) (stmt : txStatement (result E X)) now db x db' :
  (∀ now db, (stmt now db).1.2 = []) → txRuns applyWrite lost commits (demand stmt) now db (Ok x) db' →
  ∃ d, rtc (anyCommit commits) db d ∧ (stmt now d).1.1 = Ok x ∧ rtc (anyCommit commits) d db'.
Proof.
  intros Hw (ws & held & db1 & (d & w & l & S1 & Hs & -> & -> & S2)%ends_last & ->)%txRuns_ok.
  specialize (Hw now d). cbn [overlay foldl] in Hs. rewrite Hs in Hw. cbn in Hw. subst w.
  exists d. rewrite Hs. split_and!; [by eapply others_steps|done|by eapply others_steps].
Qed.

Lemma read_runs {X} (lost : E) (g : Db → X) now db x db' :
  txRuns applyWrite lost commits (read g) now db (Ok x) db' →
  ∃ d, rtc (anyCommit commits) db d ∧ x = g d ∧ rtc (anyCommit commits) d db'.
Proof.
  intros (ws & held & db1 & (d & S1 & S2 & [= ->] & -> & ->) & ->)%txRuns_ok.
  exists d. split_and!; [by eapply others_steps|done|by eapply others_steps].
Qed.

(** A transaction alone, statement by statement. *)
Lemma txAlone_demand {X A} (stmt : txStatement (result E X)) (f : X → txn Db W L E A) now ws db :
  txAlone applyWrite (demand stmt ≫= f) now ws db =
  match stmt now (overlay applyWrite ws db) with
  | (Ok x, w, _) => txAlone applyWrite (f x : txn Db W L E A) now (ws ++ w) db
  | (Err e, _, _) => (Err e, db)
  end.
Proof. cbn. by destruct (stmt now (overlay applyWrite ws db)) as [[[x|e] w] l]. Qed.

Lemma txAlone_last {X} (stmt : txStatement (result E X)) now ws db :
  txAlone applyWrite (demand stmt : txn Db W L E X) now ws db =
  match stmt now (overlay applyWrite ws db) with
  | (Ok x, w, _) => (Ok x, overlay applyWrite (ws ++ w) db)
  | (Err e, _, _) => (Err e, db)
  end.
Proof. cbn. by destruct (stmt now (overlay applyWrite ws db)) as [[[x|e] w] l]. Qed.
End commit.
