(* ===== verification/Conversations.v ===== *)
(** The tables of a conversation (packages/db/src/schema: threads, tasks, runs,
    messages, steering-messages, events, routines), the writes a transaction makes to
    them and the locks it takes.  A run is the columns run creation and the transcript
    use; its lease is RunTables'.  Ids are the texts of uuids, instants microseconds,
    and columns no modelled statement reads are left out. *)

From S2P Require Import Prelude JsText JsValue Json RunState Transactions.

(** ** Rows *)

Record ThreadRow := { thSpace : jstr; thBot : jstr; thUser : jstr; thNextEvent : Z; thNextMessage : Z }.

Record TaskRow := {
  tkSpace : jstr; tkBot : jstr; tkThread : jstr; tkUser : jstr; tkPrompt : jstr }.

Inductive RunTrigger := message_trigger | routine_trigger.
#[export] Instance RunTrigger_dec : EqDecision RunTrigger. Proof. solve_decision. Defined.

Record RunHead := {
  rhSpace : jstr; rhBot : jstr; rhThread : jstr; rhTask : jstr; rhUser : jstr;
  rhStatus : RunStatus; rhTrigger : RunTrigger; rhNonce : jstr; rhSource : option jstr;
  rhOwner : option jstr; rhFence : Z; rhCreatedAt : Z }.

Inductive MessageRole := role_user | role_assistant.

Record MessageRow := {
  msThread : jstr; msSeq : Z; msRole : MessageRole; msBlocks : jsval; msRun : option jstr;
  msNonce : jstr }.

Record SteeringRow := { srUser : jstr; srRun : option jstr; srClaimedAt : option Z }.

Record RoutineRow := {
  roSpace : jstr; roBot : jstr; roUser : jstr; roThread : jstr; roInstruction : jstr;
  roCron : jstr; roTimezone : jstr; roEnabled : bool; roNextRunAt : Z; roDeletedAt : option Z }.

Record OccurrenceRow := { ocId : jstr; ocRun : option jstr }.

Record EventRow := { evSpace : jstr; evType : jstr; evPayload : jsval; evRun : option jstr }.

(** A table is a map under its primary key, or the unique key its writers go by:
    (message, bot), (routine, slot) and (thread, seq). *)
Record Conversations := {
  bots : gmap jstr jstr;
  threads : gmap jstr ThreadRow;
  tasks : gmap jstr TaskRow;
  runs : gmap jstr RunHead;
  messages : gmap jstr MessageRow;
  steering : gmap (jstr * jstr) SteeringRow;
  routines : gmap jstr RoutineRow;
  occurrences : gmap (jstr * Z) OccurrenceRow;
  events : gmap (jstr * Z) EventRow }.

(** ** Writes *)

Inductive write :=
| PutThread (id : jstr) (row : ThreadRow)
| PutTask (id : jstr) (row : TaskRow)
| PutRun (id : jstr) (row : RunHead)
| PutMessage (id : jstr) (row : MessageRow)
| PutSteering (rows : gmap (jstr * jstr) SteeringRow)
| PutRoutine (id : jstr) (row : RoutineRow)
| PutOccurrence (routineId : jstr) (slot : Z) (row : OccurrenceRow)
| PutEvent (threadId : jstr) (seq : Z) (row : EventRow)
| DeleteEvents (spaceId threadId : jstr)
| DeleteMessages (threadId : jstr).

Definition withSource (r : RunHead) (source : option jstr) : RunHead :=
  {| rhSpace := rhSpace r; rhBot := rhBot r; rhThread := rhThread r; rhTask := rhTask r;
     rhUser := rhUser r; rhStatus := rhStatus r; rhTrigger := rhTrigger r; rhNonce := rhNonce r;
     rhSource := source; rhOwner := rhOwner r; rhFence := rhFence r; rhCreatedAt := rhCreatedAt r |}.

Definition inThread (threadId : jstr) (db : Conversations) (messageId : jstr) : Prop :=
  msThread <$> messages db !! messageId = Some threadId.

#[export] Instance inThread_dec threadId db messageId : Decision (inThread threadId db messageId).
Proof. unfold inThread. apply _. Defined.

(** [on delete set null] of a run's source message, when the thread's messages go. *)
Definition unlinked (threadId : jstr) (db : Conversations) (r : RunHead) : RunHead :=
  match rhSource r with
  | Some m => if decide (inThread threadId db m) then withSource r None else r
  | None => r
  end.

(** One write; a deleted message takes its steering rows with it. *)
Definition applyWrite (w : write) (db : Conversations) : Conversations :=
  {| bots := bots db;
     threads := match w with PutThread id row => <[id := row]> (threads db) | _ => threads db end;
     tasks := match w with PutTask id row => <[id := row]> (tasks db) | _ => tasks db end;
     runs := match w with
             | PutRun id row => <[id := row]> (runs db)
             | DeleteMessages t => unlinked t db <$> runs db
             | _ => runs db
             end;
     messages := match w with
                 | PutMessage id row => <[id := row]> (messages db)
                 | DeleteMessages t => filter (λ kv, msThread kv.2 ≠ t) (messages db)
                 | _ => messages db
                 end;
     steering := match w with
                 | PutSteering rows => rows ∪ steering db
                 | DeleteMessages t => filter (λ kv, ¬ inThread t db kv.1.1) (steering db)
                 | _ => steering db
                 end;
     routines := match w with PutRoutine id row => <[id := row]> (routines db) | _ => routines db end;
     occurrences := match w with
                    | PutOccurrence id slot row => <[(id, slot) := row]> (occurrences db)
                    | _ => occurrences db
                    end;
     events := match w with
               | PutEvent t seq row => <[(t, seq) := row]> (events db)
               | DeleteEvents space t => filter (λ kv, ¬ (kv.1.1 = t ∧ evSpace kv.2 = space)) (events db)
               | _ => events db
               end |}.

(** Row locks, and the key a run's insert reserves in the [(space_id, client_nonce)]
    index.  Every writer of a message or an event holds its thread's row, and every
    writer of an occurrence its routine's. *)
Inductive lock :=
| OfThread (id : jstr)
| OfTask (id : jstr)
| OfRun (id : jstr)
| OfMessage (id : jstr)
| OfRoutine (id : jstr)
| OfNonce (spaceId nonce : jstr).

(** ** What a command throws *)

Inductive ConversationError :=
| ConnectionLost
| DatabaseError
| UniqueViolation
| RowNotFound (what id : jstr)
| RunNotActiveError (runId : jstr) (status : RunStatus)
| SubmissionSettled
| TestRunSettled
| RoutineSlotSettled
| ReplayIncomplete (runId : jstr)
| RoutineMoved (routineId : jstr)
| InvalidSchedule (reason : jstr)
| ScheduleDefect.

Abbreviation tx := (txn Conversations write lock ConversationError).
Abbreviation call := (script Conversations write lock ConversationError).
Abbreviation sql X := (txStatement (Db := Conversations) (W := write) (L := lock) (result ConversationError X)).

(** A statement that changes nothing, with its answer or its error. *)
Definition nothing {X} (r : result ConversationError X) : result ConversationError X * list write * list lock :=
  (r, [], []).

Definition failed {X} (e : ConversationError) : result ConversationError X * list write * list lock :=
  nothing (Err e).

(** A [text] parameter of a statement. *)
Definition withText {X} (s : jstr) (f : jstr → result ConversationError X * list write * list lock) :
    result ConversationError X * list write * list lock :=
  match textParameter s with Some t => f t | None => failed DatabaseError end.

(** [requiredRow]. *)
Definition requiredRow {A} (row : option A) (what id : jstr) : tx A :=
  match row with Some a => Return a | None => Throw (RowNotFound what id) end.

(** ** Searching a table *)

Section find.
Context {K V : Type} `{Countable K}.

(** A row that satisfies the predicate, with its key. *)
Definition findRow (p : K → V → bool) (m : gmap K V) : option (K * V) :=
  List.find (λ kv, p kv.1 kv.2) (map_to_list m).

Lemma findRow_some p m k v : findRow p m = Some (k, v) → m !! k = Some v ∧ p k v = true.
Proof.
  intros [Hin Hp]%find_some. split; [|done]. by apply elem_of_map_to_list, list_elem_of_In.
Qed.

Lemma findRow_none p m : findRow p m = None ↔ ∀ k v, m !! k = Some v → p k v = false.
Proof.
  unfold findRow. split.
  - intros Hn k v Hk. eapply (find_none _ _ Hn (k, v)). by apply list_elem_of_In, elem_of_map_to_list.
  - intros Hp. destruct (List.find _ _) as [[k v]|] eqn:E; [|done].
    apply findRow_some in E as [Hk Hv]. by rewrite (Hp k v Hk) in Hv.
Qed.
End find.

(** [order by] of a key, ties in any order. *)
Fixpoint insertBy {A} (le : A → A → bool) (x : A) (l : list A) : list A :=
  match l with
  | [] => [x]
  | y :: l' => if le x y then x :: l else y :: insertBy le x l'
  end.

Definition orderBy {A} (le : A → A → bool) (l : list A) : list A := foldr (insertBy le) [] l.

Lemma insertBy_perm {A} (le : A → A → bool) x l : insertBy le x l ≡ₚ x :: l.
Proof.
  induction l as [|y l IH]; cbn [insertBy]; [done|]. destruct (le x y); [done|].
  rewrite IH. constructor.
Qed.

Lemma orderBy_perm {A} (le : A → A → bool) l : orderBy le l ≡ₚ l.
Proof. induction l as [|x l IH]; [done|]. cbn. by rewrite insertBy_perm, IH. Qed.

Definition runByNonce (spaceId nonce : jstr) (db : Conversations) : option (jstr * RunHead) :=
  findRow (λ _ r, bool_decide (rhSpace r = spaceId) && bool_decide (rhNonce r = nonce)) (runs db).

Definition messageByNonce (threadId nonce : jstr) (db : Conversations) : option (jstr * MessageRow) :=
  findRow (λ _ m, bool_decide (msThread m = threadId) && bool_decide (msNonce m = nonce)) (messages db).

Definition messageAt (threadId : jstr) (seq : Z) (db : Conversations) : option (jstr * MessageRow) :=
  findRow (λ _ m, bool_decide (msThread m = threadId) && (msSeq m =? seq)%Z) (messages db).

(** A thread of the space. *)
Definition threadIn (spaceId threadId : jstr) (db : Conversations) : option ThreadRow :=
  t ← threads db !! threadId; if bool_decide (thSpace t = spaceId) then Some t else None.

Definition runIn (spaceId runId : jstr) (db : Conversations) : option RunHead :=
  r ← runs db !! runId; if bool_decide (rhSpace r = spaceId) then Some r else None.

Definition withNextMessage (t : ThreadRow) (n : Z) : ThreadRow :=
  {| thSpace := thSpace t; thBot := thBot t; thUser := thUser t; thNextEvent := thNextEvent t;
     thNextMessage := n |}.

Definition withNextEvent (t : ThreadRow) (n : Z) : ThreadRow :=
  {| thSpace := thSpace t; thBot := thBot t; thUser := thUser t; thNextEvent := n;
     thNextMessage := thNextMessage t |}.
