(* ===== verification/MessageStore.v ===== *)
(** The message store (packages/db/src/messages.ts) and the run event sink
    (run-event-sink.ts) as transactions: the transcript's counters, the assistant's and
    the operator's messages, clearing, claiming, and the reads. *)

From S2P Require Import Prelude JsText JsValue Json RunState RunEvents Messaging Transactions.
From S2P Require Import RunTables Conversations.

Record UserActor := { uaSpace : jstr; uaUser : jstr }.

(** ** The insertion primitives *)

Record NewMessage := {
  nmThread : jstr; nmSeq : Z; nmRole : MessageRole; nmBlocks : list MessageBlock; nmNonce : jstr;
  nmRun : option jstr }.

(** [update thread set next_message_seq = next_message_seq + 1 ...], when the row
    satisfies the rest of the predicate. *)
Definition advanceMessages {X} (spaceId threadId : jstr) (guard : ThreadRow → Conversations → bool)
    (answer : ThreadRow → X) : sql (option X) :=
  λ _ db,
  match threadIn spaceId threadId db with
  | Some t =>
      if guard t db then
        if (INTEGER_MAX <? thNextMessage t + 1)%Z then failed DatabaseError
        else (Ok (Some (answer t)), [PutThread threadId (withNextMessage t (thNextMessage t + 1))],
              [OfThread threadId])
      else nothing (Ok None)
  | None => nothing (Ok None)
  end.

Definition allocateMessageSeq (spaceId threadId : jstr) : tx Z :=
  seq ← demand (advanceMessages spaceId threadId (λ _ _, true) thNextMessage);
  requiredRow seq (u "thread") threadId.

Definition insertMessageRow (id : jstr) (m : NewMessage) : sql (jstr * MessageRow) :=
  λ _ db,
  withText (nmNonce m) (λ nonce,
  match jsonbParameter (blocksValue (nmBlocks m)) with
  | None => failed DatabaseError
  | Some blocks =>
      if bool_decide (is_Some (messages db !! id))
         || bool_decide (is_Some (messageAt (nmThread m) (nmSeq m) db))
         || bool_decide (is_Some (messageByNonce (nmThread m) nonce db))
      then failed UniqueViolation
      else
        let row := {| msThread := nmThread m; msSeq := nmSeq m; msRole := nmRole m; msBlocks := blocks;
                      msRun := nmRun m; msNonce := nonce |} in
        (Ok (id, row), [PutMessage id row], [OfMessage id])
  end).

Definition insertMessage (id : jstr) (m : NewMessage) : tx (jstr * MessageRow) :=
  demand (insertMessageRow id m).

(** ** Reads *)

Record MessagePage := { pageLimit : nat; pageAfterSeq : Z }.

(** [order by seq asc], of rows whose positions differ. *)
Definition orderBySeq : list (jstr * MessageRow) → list (jstr * MessageRow) :=
  orderBy (λ m n, (msSeq m.2 <=? msSeq n.2)%Z).

Definition listForThread (spaceId threadId : jstr) (page : MessagePage) (db : Conversations) :
    list (jstr * MessageRow) :=
  match threadIn spaceId threadId db with
  | Some _ =>
      take (pageLimit page) (orderBySeq (List.filter
        (λ kv, bool_decide (msThread kv.2 = threadId) && (pageAfterSeq page <? msSeq kv.2)%Z)
        (map_to_list (messages db))))
  | None => []
  end.

Definition readByNonce (spaceId threadId nonce : jstr) : sql (option (jstr * MessageRow)) :=
  λ _ db,
  withText nonce (λ nonce, nothing (Ok (
    match threadIn spaceId threadId db with Some _ => messageByNonce threadId nonce db | None => None end))).

Definition findSourceForRun (spaceId runId : jstr) (db : Conversations) : option (jstr * MessageRow) :=
  r ← runIn spaceId runId db; m ← rhSource r; row ← messages db !! m; Some (m, row).

(** ** Assistant messages *)

(** [missingThreadOrRun], and [steerRefusal] over it. *)
Definition missingThreadOrRun (spaceId threadId runId : jstr) (db : Conversations) : ConversationError :=
  match threadIn spaceId threadId db with
  | None => RowNotFound (u "thread") threadId
  | Some _ => RowNotFound (u "run") runId
  end.

Definition runInThread (spaceId threadId runId : jstr) (db : Conversations) : option RunHead :=
  r ← runIn spaceId runId db; if bool_decide (rhThread r = threadId) then Some r else None.

(** A unique violation is answered with the row the nonce names; [None] when the
    nonce names none. *)
Definition orReplay (spaceId threadId nonce : jstr) (r : result ConversationError (jstr * MessageRow)) :
    call (result ConversationError (jstr * MessageRow)) :=
  match r with
  | Err UniqueViolation =>
      Transact (demand (readByNonce spaceId threadId nonce)) (λ existing,
      Finish match existing with
      | Ok (Some row) => Ok row
      | Ok None => Err UniqueViolation
      | Err e => Err e
      end)
  | _ => Finish r
  end.

Record NewAssistantMessage := {
  naThread : jstr; naRun : jstr; naNonce : jstr; naBlocks : list MessageBlock }.

Definition appendOnce (spaceId : jstr) (input : NewAssistantMessage) (id : jstr) : tx (jstr * MessageRow) :=
  allocated ← demand (advanceMessages spaceId (naThread input)
    (λ _ db, bool_decide (is_Some (runInThread spaceId (naThread input) (naRun input) db))) thNextMessage);
  match allocated with
  | None =>
      missing ← read (missingThreadOrRun spaceId (naThread input) (naRun input));
      Throw missing
  | Some seq =>
      insertMessage id {| nmThread := naThread input; nmSeq := seq; nmRole := role_assistant;
                          nmBlocks := naBlocks input; nmNonce := naNonce input; nmRun := Some (naRun input) |}
  end.

Definition append (spaceId : jstr) (input : NewAssistantMessage) (id : jstr) :
    call (result ConversationError (jstr * MessageRow)) :=
  Transact (appendOnce spaceId input id) (orReplay spaceId (naThread input) (naNonce input)).

(** ** Steering *)

Record NewSteeringMessage := {
  nsThread : jstr; nsNonce : jstr; nsBlocks : list MessageBlock; nsRun : jstr }.

(** A live run of the thread, of the thread's bot. *)
Definition liveRun (spaceId threadId runId : jstr) (t : ThreadRow) (db : Conversations) : bool :=
  match runInThread spaceId threadId runId db with
  | Some r => bool_decide (rhBot r = thBot t) && bool_decide (rhStatus r ∈ ACTIVE_RUN_STATUSES)
  | None => false
  end.

Definition steerRefusal (spaceId threadId runId : jstr) : tx (jstr * MessageRow) :=
  missing ← read (missingThreadOrRun spaceId threadId runId);
  match missing with
  | RowNotFound what _ =>
      if bool_decide (what = u "thread") then Throw missing
      else
        row ← read (runInThread spaceId threadId runId);
        match row with
        | Some r => Throw (RunNotActiveError runId (rhStatus r))
        | None => Throw missing
        end
  | _ => Throw missing
  end.

Definition insertSteering (messageId botId : jstr) (row : SteeringRow) : sql unit :=
  λ _ db,
  if bool_decide (is_Some (steering db !! (messageId, botId))) then failed UniqueViolation
  else (Ok (), [PutSteering {[ (messageId, botId) := row ]}], []).

Definition steerOnce (actor : UserActor) (input : NewSteeringMessage) (id : jstr) : tx (jstr * MessageRow) :=
  allocated ← demand (advanceMessages (uaSpace actor) (nsThread input)
    (liveRun (uaSpace actor) (nsThread input) (nsRun input)) (λ t, (thNextMessage t, thBot t)));
  match allocated with
  | None => steerRefusal (uaSpace actor) (nsThread input) (nsRun input)
  | Some (seq, botId) =>
      message ← insertMessage id
        {| nmThread := nsThread input; nmSeq := seq; nmRole := role_user; nmBlocks := nsBlocks input;
           nmNonce := nsNonce input; nmRun := Some (nsRun input) |};
      _ ← demand (insertSteering message.1 botId
        {| srUser := uaUser actor; srRun := Some (nsRun input); srClaimedAt := None |});
      Return message
  end.

Definition steer (actor : UserActor) (input : NewSteeringMessage) (id : jstr) :
    call (result ConversationError (jstr * MessageRow)) :=
  Transact (steerOnce actor input id) (orReplay (uaSpace actor) (nsThread input) (nsNonce input)).

(** Every unclaimed steer of a live run, claimed and read in transcript order. *)
Definition claimable (runId : jstr) (row : SteeringRow) : Prop :=
  srRun row = Some runId ∧ srClaimedAt row = None.

#[export] Instance claimable_dec runId row : Decision (claimable runId row).
Proof. unfold claimable. apply _. Defined.

Definition claimedRow (now : Z) (row : SteeringRow) : SteeringRow :=
  {| srUser := srUser row; srRun := srRun row; srClaimedAt := Some now |}.

(** The messages of the rows, by their positions. *)
Definition steersOf (db : Conversations) (rows : gmap (jstr * jstr) SteeringRow) : list (jstr * MessageRow) :=
  orderBySeq (omap (λ kv, (λ m, (kv.1.1, m)) <$> messages db !! kv.1.1) (map_to_list rows)).

Definition claimSteeringMessages (spaceId runId : jstr) : sql (list (jstr * jstr)) :=
  λ now db,
  match runIn spaceId runId db with
  | Some r =>
      if bool_decide (rhStatus r ∈ ACTIVE_RUN_STATUSES) then
        let claimed := filter (λ kv, claimable runId kv.2) (steering db) in
        (Ok ((λ m, (m.1, default [] (messageText (msBlocks m.2)))) <$> steersOf db claimed),
         [PutSteering (claimedRow now <$> claimed)],
         (λ kv, OfMessage kv.1.1) <$> map_to_list claimed)
      else nothing (Ok [])
  | None => nothing (Ok [])
  end.

(** ** Clearing *)

Definition resetThread (t : ThreadRow) : ThreadRow := withNextEvent (withNextMessage t 0) 0.

(** The runs whose source message goes with the thread's transcript. *)
Definition linkedTo (threadId : jstr) (db : Conversations) (r : RunHead) : bool :=
  match rhSource r with Some m => bool_decide (inThread threadId db m) | None => false end.

Definition linkedRuns (threadId : jstr) (db : Conversations) : list jstr :=
  (List.filter (λ kv, linkedTo threadId db kv.2) (map_to_list (runs db))).*1.

(** The messages that go with it, each locked with its steering rows. *)
Definition messagesOf (threadId : jstr) (db : Conversations) : list jstr :=
  (List.filter (λ kv, bool_decide (msThread kv.2 = threadId)) (map_to_list (messages db))).*1.

Definition clearThread (spaceId threadId : jstr) : tx ThreadRow :=
  row ← demand (λ _ db, match threadIn spaceId threadId db with
    | Some t => (Ok (Some (resetThread t)), [PutThread threadId (resetThread t)], [OfThread threadId])
    | None => nothing (Ok None)
    end);
  thread ← requiredRow row (u "thread") threadId;
  _ ← demand (λ _ db, (Ok (), [DeleteEvents spaceId threadId], []));
  _ ← demand (λ _ db, (Ok (), [DeleteMessages threadId],
    (OfMessage <$> messagesOf threadId db) ++ (OfRun <$> linkedRuns threadId db)));
  Return thread.

(** ** The event log *)

(** The JSON text of the event minus its base fields, which [storedRunEvent] puts back. *)
Definition payloadJson (e : RunEvent) : stringified := stringify (JObject (bodyFields (body e))).

(** [greatest(next_event_seq, seq + 1)], and the row at the event's own position. *)
Definition appendEvent (spaceId : jstr) (e : RunEvent) : sql (option unit) :=
  λ _ db,
  let '(t, s, r) := (threadId (base e), seq (base e), runId (base e)) in
  match threadIn spaceId t db, runInThread spaceId t r db with
  | Some row, Some _ =>
      match (match payloadJson e with Text v => jsonbParameter v | _ => None end) with
      | None => failed DatabaseError
      | Some payload =>
          if (INTEGER_MAX <? s + 1)%Z then failed DatabaseError
          else if bool_decide (is_Some (events db !! (t, s))) then failed UniqueViolation
          else (Ok (Some ()),
                [PutThread t (withNextEvent row (Z.max (thNextEvent row) (s + 1)));
                 PutEvent t s {| evSpace := spaceId; evType := eventTypeName (eventType (body e)); evPayload := payload;
                                 evRun := Some r |}],
                [OfThread t])
      end
  | _, _ => nothing (Ok None)
  end.

(** [createRunEventSink.append]: two calls, the second only to say what was missing. *)
Definition sinkAppend (spaceId : jstr) (e : RunEvent) : call (result ConversationError unit) :=
  Transact (demand (appendEvent spaceId e)) (λ r,
  match r with
  | Ok (Some _) => Finish (Ok ())
  | Err e => Finish (Err e)
  | Ok None =>
      Transact (read (missingThreadOrRun spaceId (threadId (base e)) (runId (base e)))) (λ missing,
      Finish match missing with Ok m => Err m | Err x => Err x end)
  end).

(** [createRunEventReader.listAfter], as the rows the events are made of. *)
Definition eventRow (threadId : jstr) (seq : Z) (row : EventRow) : StoredEventRow :=
  {| payload := evPayload row; rowSeq := NInt seq; rowThreadId := threadId; rowRunId := evRun row;
     rowType := evType row |}.

Definition listEventsAfter (spaceId threadId : jstr) (afterSeq : Z) (limit : nat) (db : Conversations) :
    list (result RunEventError RunEvent) :=
  match threadIn spaceId threadId db with
  | Some _ =>
      let rows := omap (λ kv, if bool_decide (kv.1.1 = threadId) && (afterSeq <? kv.1.2)%Z
                              then Some (kv.1.2, kv.2) else None) (map_to_list (events db)) in
      (λ e, storedRunEvent (eventRow threadId e.1 e.2)) <$> take limit (orderBy (λ e f : Z * EventRow, (e.1 <=? f.1)%Z) rows)
  | None => []
  end.
