(* ===== verification/RunCreation.v ===== *)
(** The three commands that begin a run (packages/db/src/run-creation.ts): a message,
    a due routine slot, an operator's test run.  The ids the database generates are
    arguments. *)

From stdpp Require Import pretty.
From S2P Require Import Prelude JsText JsValue Json RunState Messaging Transactions RunTables.
From S2P Require Import Conversations MessageStore.

(** ** The inserts *)

Record TaskSeed := { tsBot : jstr; tsThread : jstr; tsUser : jstr; tsPrompt : jstr }.

Definition insertTaskRow {X} (spaceId taskId : jstr) (seed : TaskSeed) (answer : TaskRow → X)
    (db : Conversations) : result ConversationError X * list write * list lock :=
  withText (tsPrompt seed) (λ prompt,
  if bool_decide (is_Some (tasks db !! taskId)) then failed UniqueViolation
  else
    let row := {| tkSpace := spaceId; tkBot := tsBot seed; tkThread := tsThread seed; tkUser := tsUser seed;
                  tkPrompt := prompt |} in
    (Ok (answer row), [PutTask taskId row], [OfTask taskId])).

(** [insert into run ... on conflict (space_id, client_nonce) do nothing returning ...]. *)
Definition insertRunRow (runId : jstr) (run : Z → RunHead) : sql (option RunHead) :=
  λ now db,
  withText (rhNonce (run now)) (λ nonce,
  let row := {| rhSpace := rhSpace (run now); rhBot := rhBot (run now); rhThread := rhThread (run now);
                rhTask := rhTask (run now); rhUser := rhUser (run now); rhStatus := rhStatus (run now);
                rhTrigger := rhTrigger (run now); rhNonce := nonce; rhSource := None; rhOwner := None;
                rhFence := 0; rhCreatedAt := now |} in
  if bool_decide (is_Some (runByNonce (rhSpace row) nonce db)) then nothing (Ok None)
  else if bool_decide (is_Some (runs db !! runId)) then failed UniqueViolation
  else (Ok (Some row), [PutRun runId row], [OfRun runId; OfNonce (rhSpace row) nonce])).

Definition newRun (spaceId taskId : jstr) (task : TaskRow) (userId : jstr) (trigger : RunTrigger)
    (nonce : jstr) (now : Z) : RunHead :=
  {| rhSpace := spaceId; rhBot := tkBot task; rhThread := tkThread task; rhTask := taskId;
     rhUser := userId; rhStatus := INITIAL_RUN_STATUS; rhTrigger := trigger; rhNonce := nonce;
     rhSource := None; rhOwner := None; rhFence := 0; rhCreatedAt := now |}.

(** ** The message-triggered command *)

Record NewRunAndTask := {
  nrThread : jstr; nrNonce : jstr; nrPrompt : jstr; nrBlocks : list MessageBlock }.

Record CreatedRunAndTask := {
  crRun : jstr * RunHead; crTask : jstr * TaskRow; crMessage : jstr * MessageRow }.

Record SubmissionIds := { newTaskId : jstr; newRunId : jstr; newMessageId : jstr }.

Definition insertTaskFromThread (actor : UserActor) (input : NewRunAndTask) (taskId : jstr) :
    sql (option TaskRow) :=
  λ _ db,
  match threadIn (uaSpace actor) (nrThread input) db with
  | Some t =>
      insertTaskRow (uaSpace actor) taskId
        {| tsBot := thBot t; tsThread := nrThread input; tsUser := uaUser actor; tsPrompt := nrPrompt input |}
        Some db
  | None => nothing (Ok None)
  end.

(** [update run set source_message_id = $1 ...], then [insertedRow]. *)
Definition linkSource (spaceId runId messageId : jstr) : sql RunHead :=
  λ _ db,
  match runIn spaceId runId db with
  | Some r => (Ok (withSource r (Some messageId)), [PutRun runId (withSource r (Some messageId))], [OfRun runId])
  | None => failed DatabaseError
  end.

Definition createOnce (actor : UserActor) (input : NewRunAndTask) (ids : SubmissionIds) : tx CreatedRunAndTask :=
  taskRow ← demand (insertTaskFromThread actor input (newTaskId ids));
  task ← requiredRow taskRow (u "thread") (nrThread input);
  runRow ← demand (insertRunRow (newRunId ids)
    (newRun (uaSpace actor) (newTaskId ids) task (uaUser actor) message_trigger (nrNonce input)));
  match runRow with
  | None => Throw SubmissionSettled
  | Some _ =>
      seq ← allocateMessageSeq (uaSpace actor) (nrThread input);
      message ← insertMessage (newMessageId ids)
        {| nmThread := nrThread input; nmSeq := seq; nmRole := role_user; nmBlocks := nrBlocks input;
           nmNonce := nrNonce input; nmRun := Some (newRunId ids) |};
      linked ← demand (linkSource (uaSpace actor) (newRunId ids) message.1);
      Return {| crRun := (newRunId ids, linked); crTask := (newTaskId ids, task); crMessage := message |}
  end.

(** [readByNonce]: the first result of a nonce, over three reads. *)
Definition findRunByNonce (spaceId nonce : jstr) : sql (option (jstr * RunHead)) :=
  λ _ db, withText nonce (λ nonce, nothing (Ok (runByNonce spaceId nonce db))).

Definition taskIn (spaceId taskId : jstr) (db : Conversations) : option TaskRow :=
  t ← tasks db !! taskId; if bool_decide (tkSpace t = spaceId) then Some t else None.

Definition messageIn (threadId messageId : jstr) (db : Conversations) : option MessageRow :=
  m ← messages db !! messageId; if bool_decide (msThread m = threadId) then Some m else None.

Definition replayByNonce (spaceId nonce : jstr) : call (result ConversationError (option CreatedRunAndTask)) :=
  Transact (demand (findRunByNonce spaceId nonce)) (λ found,
  match found with
  | Err e => Finish (Err e)
  | Ok None => Finish (Ok None)
  | Ok (Some (runId, run)) =>
      match rhSource run with
      | None => Finish (Err (ReplayIncomplete runId))
      | Some messageId =>
          Transact (read (taskIn spaceId (rhTask run))) (λ task,
          Transact (read (messageIn (rhThread run) messageId)) (λ message,
          Finish match task, message with
          | Ok (Some task), Ok (Some message) =>
              Ok (Some {| crRun := (runId, run); crTask := (rhTask run, task); crMessage := (messageId, message) |})
          | Err e, _ | _, Err e => Err e
          | _, _ => Err (ReplayIncomplete runId)
          end))
      end
  end).

Definition createRunAndTask (actor : UserActor) (input : NewRunAndTask) (ids : SubmissionIds) :
    call (result ConversationError CreatedRunAndTask) :=
  Transact (createOnce actor input ids) (λ created,
  match created with
  | Ok c => Finish (Ok c)
  | Err SubmissionSettled =>
      script_map (replayByNonce (uaSpace actor) (nrNonce input)) (λ existing,
      match existing with
      | Ok (Some c) => Ok c
      | Ok None => Err (RowNotFound (u "thread") (nrThread input))
      | Err e => Err e
      end)
  | Err e => Finish (Err e)
  end).

(** ** Routines *)

(** [routine:<id>:<slot>] and [routine-test:<id>:<nonce>]; a slot is milliseconds. *)
Definition routineRunNonce (routineId : jstr) (scheduledFor : Z) : jstr :=
  u "routine:" ++ routineId ++ u ":" ++ u (pretty scheduledFor).

Definition routineTestRunNonce (routineId clientNonce : jstr) : jstr :=
  u "routine-test:" ++ routineId ++ u ":" ++ clientNonce.

(** A routine of the space that is not deleted. *)
Definition liveRoutine (spaceId routineId : jstr) (db : Conversations) : option RoutineRow :=
  r ← routines db !! routineId;
  if bool_decide (roSpace r = spaceId) && bool_decide (roDeletedAt r = None) then Some r else None.

(** An enabled routine whose cursor is at the slot, to the millisecond. *)
Definition routineAt (spaceId routineId : jstr) (scheduledFor : Z) (db : Conversations) : option RoutineRow :=
  r ← liveRoutine spaceId routineId db;
  if roEnabled r && (columnDate (roNextRunAt r) =? scheduledFor)%Z then Some r else None.

Lemma liveRoutine_some spaceId id db r :
  liveRoutine spaceId id db = Some r → routines db !! id = Some r ∧ roSpace r = spaceId ∧ roDeletedAt r = None.
Proof.
  unfold liveRoutine. destruct (routines db !! id) as [r'|]; [|done]. cbn [mbind option_bind].
  destruct (bool_decide_reflect (roSpace r' = spaceId)); [|done].
  destruct (bool_decide_reflect (roDeletedAt r' = None)); [|done]. by intros [= <-].
Qed.

Lemma routineAt_some spaceId id slot db r :
  routineAt spaceId id slot db = Some r →
  liveRoutine spaceId id db = Some r ∧ roEnabled r = true ∧ columnDate (roNextRunAt r) = slot.
Proof.
  unfold routineAt. destruct (liveRoutine spaceId id db) as [r'|]; [|done]. cbn [mbind option_bind].
  destruct (roEnabled r') eqn:Ee; [|done]. cbn [andb].
  destruct (Z.eqb_spec (columnDate (roNextRunAt r')) slot); [|done]. by intros [= <-].
Qed.

Definition insertRoutineTask (spaceId taskId : jstr) (r : RoutineRow) : sql TaskRow :=
  λ _ db,
  insertTaskRow spaceId taskId
    {| tsBot := roBot r; tsThread := roThread r; tsUser := roUser r; tsPrompt := roInstruction r |}
    (λ row, row) db.

Definition testRoutineOnce (spaceId routineId clientNonce taskId runId : jstr) : tx (jstr * RunHead) :=
  routine ← read (liveRoutine spaceId routineId);
  r ← requiredRow routine (u "routine") routineId;
  task ← demand (insertRoutineTask spaceId taskId r);
  runRow ← demand (insertRunRow runId
    (newRun spaceId taskId task (roUser r) routine_trigger (routineTestRunNonce routineId clientNonce)));
  match runRow with
  | Some run => Return (runId, run)
  | None => Throw TestRunSettled
  end.

Definition createRoutineTestRun (spaceId routineId clientNonce taskId runId : jstr) :
    call (result ConversationError (jstr * RunHead)) :=
  Transact (testRoutineOnce spaceId routineId clientNonce taskId runId) (λ created,
  match created with
  | Ok c => Finish (Ok c)
  | Err TestRunSettled =>
      Transact (demand (findRunByNonce spaceId (routineTestRunNonce routineId clientNonce))) (λ existing,
      Finish match existing with
      | Ok (Some run) => Ok run
      | Ok None => Err (RowNotFound (u "routine") routineId)
      | Err e => Err e
      end)
  | Err e => Finish (Err e)
  end).

(** One slot of a routine and the next one; both instants are [Date]s. *)
Record SlotInput := { siRoutine : jstr; siScheduledFor : Z; siNextRunAt : Z }.

Record CreatedRoutineRun := { rrRun : jstr * RunHead; rrOccurrence : jstr }.

Record FireIds := { fireOccurrence : jstr; fireTask : jstr; fireRun : jstr }.

(** [select ... for update]. *)
Definition lockRoutineAt (spaceId : jstr) (input : SlotInput) : sql (option RoutineRow) :=
  λ _ db,
  match routineAt spaceId (siRoutine input) (siScheduledFor input) db with
  | Some r => (Ok (Some r), [], [OfRoutine (siRoutine input)])
  | None => nothing (Ok None)
  end.

(** The slot as the column holds it. *)
Definition slotOf (input : SlotInput) : Z := (siScheduledFor input * 1000)%Z.

Definition insertOccurrence (input : SlotInput) (id : jstr) : sql (option OccurrenceRow) :=
  λ _ db,
  match occurrences db !! (siRoutine input, slotOf input) with
  | Some _ => nothing (Ok None)
  | None =>
      let row := {| ocId := id; ocRun := None |} in
      (Ok (Some row), [PutOccurrence (siRoutine input) (slotOf input) row], [])
  end.

Definition linkOccurrence (input : SlotInput) (runId : jstr) : sql unit :=
  λ _ db,
  match occurrences db !! (siRoutine input, slotOf input) with
  | Some o =>
      (Ok (), [PutOccurrence (siRoutine input) (slotOf input) {| ocId := ocId o; ocRun := Some runId |}], [])
  | None => nothing (Ok ())
  end.

Definition withNextRun (r : RoutineRow) (at_ : Z) : RoutineRow :=
  {| roSpace := roSpace r; roBot := roBot r; roUser := roUser r; roThread := roThread r;
     roInstruction := roInstruction r; roCron := roCron r; roTimezone := roTimezone r;
     roEnabled := roEnabled r; roNextRunAt := at_; roDeletedAt := roDeletedAt r |}.

(** The compare-and-swap on the cursor. *)
Definition advanceRoutine (spaceId : jstr) (input : SlotInput) : sql bool :=
  λ _ db,
  match routines db !! siRoutine input with
  | Some r =>
      if bool_decide (roSpace r = spaceId) && (columnDate (roNextRunAt r) =? siScheduledFor input)%Z
      then (Ok true, [PutRoutine (siRoutine input) (withNextRun r (siNextRunAt input * 1000))],
            [OfRoutine (siRoutine input)])
      else nothing (Ok false)
  | None => nothing (Ok false)
  end.

Definition fireRoutineOnce (spaceId : jstr) (input : SlotInput) (ids : FireIds) : tx (option CreatedRoutineRun) :=
  firing ← demand (lockRoutineAt spaceId input);
  match firing with
  | None => Return None
  | Some r =>
      occurrence ← demand (insertOccurrence input (fireOccurrence ids));
      match occurrence with
      | None => Return None
      | Some o =>
          task ← demand (insertRoutineTask spaceId (fireTask ids) r);
          runRow ← demand (insertRunRow (fireRun ids)
            (newRun spaceId (fireTask ids) task (roUser r) routine_trigger
               (routineRunNonce (siRoutine input) (siScheduledFor input))));
          match runRow with
          | None => Throw RoutineSlotSettled
          | Some run =>
              _ ← demand (linkOccurrence input (fireRun ids));
              advanced ← demand (advanceRoutine spaceId input);
              if (advanced : bool) then Return (Some {| rrRun := (fireRun ids, run); rrOccurrence := ocId o |})
              else Throw (RoutineMoved (siRoutine input))
          end
      end
  end.

Definition createRoutineRun (spaceId : jstr) (input : SlotInput) (ids : FireIds) :
    call (result ConversationError (option CreatedRoutineRun)) :=
  Transact (fireRoutineOnce spaceId input ids) (λ fired,
  Finish match fired with Err RoutineSlotSettled => Ok None | r => r end).
