(* ===== verification/RoutineStore.v ===== *)
(** Routines in the database (packages/db/src/routines.ts): an operator's commands,
    the settlement of a slot as missed, and the reads of outcomes, due routines and
    stranded runs. A slot is fired in RunCreation; the pass over the due routines is
    RoutineScheduler. *)

From S2P Require Import Prelude JsText JsValue Json RunState Calendar RoutineSchedule Transactions.
From S2P Require Import RunTables Conversations MessageStore RunCreation.

Definition ROUTINE_SCHEDULER_BATCH_LIMIT : nat := 50.
Definition ROUTINE_OUTCOME_DEFAULT_LIMIT : Z := 20.
Definition ROUTINE_OUTCOME_MAX_LIMIT : Z := 200.
Definition ROUTINE_PREVIEW_DEFAULT_COUNT : Z := 5.
Definition ROUTINE_PREVIEW_MAX_COUNT : Z := 10.
Definition ROUTINE_DISPATCH_GRACE_SECONDS : Z := 60.

(** ** Bounds on a caller's number *)

(** [Math.trunc(n)] of a finite number. *)
Definition truncated (n : jsnum) : option Z :=
  match n with
  | NInt z => Some z
  | NFrac m k => Some (Z.quot m (2 ^ Z.pos k))
  | NNaN | NInfinity _ => None
  end.

Definition boundedRequest (default max : Z) (requested : option jsnum) : Z :=
  match requested ≫= truncated with
  | None => default
  | Some n => Z.min (Z.max n 1) max
  end.

Definition outcomeLimit : option jsnum → Z :=
  boundedRequest ROUTINE_OUTCOME_DEFAULT_LIMIT ROUTINE_OUTCOME_MAX_LIMIT.
Definition previewCount : option jsnum → Z :=
  boundedRequest ROUTINE_PREVIEW_DEFAULT_COUNT ROUTINE_PREVIEW_MAX_COUNT.

(** ** Schedules at the boundary *)

Definition asInvalidRoutineSchedule (e : RoutineScheduleError) : ConversationError :=
  match e with
  | InvalidRoutineCron _ _ => InvalidSchedule (u "invalid_cron")
  | InvalidRoutineTimezone _ => InvalidSchedule (u "invalid_timezone")
  | UnreachableRoutineSchedule _ _ => InvalidSchedule (u "unreachable")
  | InvalidSearchDate | ClockMovedTooFar _ => ScheduleDefect
  end.

Definition scheduleBoundary {A} (r : result RoutineScheduleError A) : result ConversationError A :=
  result_map_err asInvalidRoutineSchedule r.

(** A computation that may throw, in the middle of a transaction. *)
Definition orThrow {A} (r : result ConversationError A) : tx A :=
  match r with Ok a => Return a | Err e => Throw e end.

(** [select now() as now]. *)
Definition readClock : tx Z := Ask (λ now _, (columnDate now, [], [])) (λ now, Return now).

Section store.
Context `{Timezones}.

Definition assertRoutineTimezone (timezone : jstr) : result ConversationError unit :=
  if isRoutineTimezone timezone then Ok ()
  else Err (asInvalidRoutineSchedule (InvalidRoutineTimezone timezone)).

(** The preview: each fire searched from the one before. *)
Fixpoint fireTimes (count : nat) (cron : RoutineCron) (timezone : jstr) (after : Z) :
    result ConversationError (list Z) :=
  match count with
  | O => Ok []
  | S count' =>
      next ← scheduleBoundary (nextRoutineFire cron timezone (Some after));
      more ← fireTimes count' cron timezone next;
      Ok (next :: more)
  end.

Definition previewRoutineSchedule (cronText timezone : jstr) (count : option jsnum) :
    call (result ConversationError (list Z)) :=
  match (cron ← scheduleBoundary (parseRoutineCron cronText); _ ← assertRoutineTimezone timezone; Ok cron) with
  | Err e => Finish (Err e)
  | Ok cron =>
      alone (now ← readClock; orThrow (fireTimes (Z.to_nat (previewCount count)) cron timezone now))
  end.

(** ** An operator's commands *)

Record NewRoutine := { nuBot : jstr; nuInstruction : jstr; nuCron : jstr; nuTimezone : jstr }.

(** [insert into thread ... select from bot]. *)
Definition insertThread (actor : UserActor) (botId threadId : jstr) : sql (option jstr) :=
  λ _ db,
  if bool_decide (bots db !! botId = Some (uaSpace actor)) then
    if bool_decide (is_Some (threads db !! threadId)) then failed UniqueViolation
    else (Ok (Some threadId),
          [PutThread threadId {| thSpace := uaSpace actor; thBot := botId; thUser := uaUser actor;
                                 thNextEvent := 0; thNextMessage := 0 |}], [OfThread threadId])
  else nothing (Ok None).

(** [length(btrim(text)) > 0]: only spaces are trimmed. *)
Definition notBlankColumn (text : jstr) : bool := existsb (λ c, negb (c =? 32)%N) text.

Definition identifiersCheck (r : RoutineRow) : bool :=
  notBlankColumn (roInstruction r) && notBlankColumn (roCron r) && notBlankColumn (roTimezone r).

Definition insertRoutine (id : jstr) (r : RoutineRow) : sql RoutineRow :=
  λ _ db,
  withText (roInstruction r) (λ instruction, withText (roCron r) (λ cron, withText (roTimezone r) (λ timezone,
  let row := {| roSpace := roSpace r; roBot := roBot r; roUser := roUser r; roThread := roThread r;
                roInstruction := instruction; roCron := cron; roTimezone := timezone;
                roEnabled := roEnabled r; roNextRunAt := roNextRunAt r; roDeletedAt := roDeletedAt r |} in
  if bool_decide (is_Some (routines db !! id)) then failed UniqueViolation
  else if negb (identifiersCheck row) then failed DatabaseError
  else (Ok row, [PutRoutine id row], [OfRoutine id])))).

Definition createRoutineOnce (actor : UserActor) (input : NewRoutine) (cron : RoutineCron)
    (threadId routineId : jstr) : tx (jstr * RoutineRow) :=
  now ← readClock;
  created ← demand (insertThread actor (nuBot input) threadId);
  thread ← requiredRow created (u "bot") (nuBot input);
  next ← orThrow (scheduleBoundary (nextRoutineFire cron (nuTimezone input) (Some now)));
  row ← demand (insertRoutine routineId
    {| roSpace := uaSpace actor; roBot := nuBot input; roUser := uaUser actor; roThread := thread;
       roInstruction := nuInstruction input; roCron := nuCron input; roTimezone := nuTimezone input;
       roEnabled := true; roNextRunAt := (next * 1000)%Z; roDeletedAt := None |});
  Return (routineId, row).

Definition createRoutine (actor : UserActor) (input : NewRoutine) (threadId routineId : jstr) :
    call (result ConversationError (jstr * RoutineRow)) :=
  match (cron ← scheduleBoundary (parseRoutineCron (nuCron input));
         _ ← assertRoutineTimezone (nuTimezone input); Ok cron) with
  | Err e => Finish (Err e)
  | Ok cron => alone (createRoutineOnce actor input cron threadId routineId)
  end.

Record RoutinePatch := {
  rpInstruction : option jstr; rpCron : option jstr; rpTimezone : option jstr; rpEnabled : option bool }.

Definition findRoutine (spaceId id : jstr) : tx RoutineRow :=
  row ← read (liveRoutine spaceId id);
  requiredRow row (u "routine") id.

(** The row the assignments make of the stored one. *)
Definition patchedRoutine (r : RoutineRow) (instruction cron timezone : option jstr) (enabled : option bool)
    (nextRunAt : option Z) : RoutineRow :=
  {| roSpace := roSpace r; roBot := roBot r; roUser := roUser r; roThread := roThread r;
     roInstruction := default (roInstruction r) instruction; roCron := default (roCron r) cron;
     roTimezone := default (roTimezone r) timezone; roEnabled := default (roEnabled r) enabled;
     roNextRunAt := match nextRunAt with Some ms => (ms * 1000)%Z | None => roNextRunAt r end;
     roDeletedAt := roDeletedAt r |}.

Definition textColumn (s : option jstr) : option (option jstr) :=
  match s with None => Some None | Some s => Some <$> textParameter s end.

Definition updateRoutineRow (spaceId id : jstr) (patch : RoutinePatch) (nextRunAt : option Z) :
    sql (option RoutineRow) :=
  λ _ db,
  match textColumn (rpInstruction patch), textColumn (rpCron patch), textColumn (rpTimezone patch) with
  | Some instruction, Some cron, Some timezone =>
      match liveRoutine spaceId id db with
      | None => nothing (Ok None)
      | Some r =>
          let row := patchedRoutine r instruction cron timezone (rpEnabled patch) nextRunAt in
          if negb (identifiersCheck row) then failed DatabaseError
          else (Ok (Some row), [PutRoutine id row], [OfRoutine id])
      end
  | _, _, _ => failed DatabaseError
  end.

Definition changes (value : option jstr) (stored : jstr) : bool :=
  match value with Some v => negb (bool_decide (v = stored)) | None => false end.

(** The new cursor of an edit, from the database's clock; nothing when neither the
    schedule changes nor the routine is re-enabled. *)
Definition rescheduled (current : RoutineRow) (patch : RoutinePatch) :
    option (result ConversationError (RoutineCron * jstr)) :=
  let scheduleChanged := changes (rpCron patch) (roCron current) || changes (rpTimezone patch) (roTimezone current) in
  let reenabled := bool_decide (rpEnabled patch = Some true) && negb (roEnabled current) in
  if scheduleChanged || reenabled then
    let timezone := default (roTimezone current) (rpTimezone patch) in
    Some (parsed ← scheduleBoundary (parseRoutineCron (default (roCron current) (rpCron patch)));
          _ ← assertRoutineTimezone timezone; Ok (parsed, timezone))
  else None.

Definition writePatch (spaceId id : jstr) (patch : RoutinePatch) (nextRunAt : option Z) :
    call (result ConversationError RoutineRow) :=
  alone (row ← demand (updateRoutineRow spaceId id patch nextRunAt); requiredRow row (u "routine") id).

Definition updateRoutine (spaceId id : jstr) (patch : RoutinePatch) : call (result ConversationError RoutineRow) :=
  Transact (findRoutine spaceId id) (λ found,
  match found with
  | Err e => Finish (Err e)
  | Ok current =>
      match rescheduled current patch with
      | None => writePatch spaceId id patch None
      | Some (Err e) => Finish (Err e)
      | Some (Ok (cron, timezone)) =>
          Transact readClock (λ clock,
          match (now ← clock; scheduleBoundary (nextRoutineFire cron timezone (Some now))) with
          | Err e => Finish (Err e)
          | Ok next => writePatch spaceId id patch (Some next)
          end)
      end
  end).
End store.

Definition removedRoutine (r : RoutineRow) (now : Z) : RoutineRow :=
  {| roSpace := roSpace r; roBot := roBot r; roUser := roUser r; roThread := roThread r;
     roInstruction := roInstruction r; roCron := roCron r; roTimezone := roTimezone r;
     roEnabled := false; roNextRunAt := roNextRunAt r; roDeletedAt := Some now |}.

Definition removeRoutine (spaceId id : jstr) : call (result ConversationError RoutineRow) :=
  alone (row ← demand (λ now db,
           match liveRoutine spaceId id db with
           | Some r => (Ok (Some (removedRoutine r now)), [PutRoutine id (removedRoutine r now)], [OfRoutine id])
           | None => nothing (Ok None)
           end);
         requiredRow row (u "routine") id).

(** ** The scheduler's commands *)

Definition recordMissedOnce (spaceId : jstr) (input : SlotInput) (occurrenceId : jstr) : tx (option OccurrenceRow) :=
  locked ← demand (lockRoutineAt spaceId input);
  match locked with
  | None => Return None
  | Some _ =>
      occurrence ← demand (insertOccurrence input occurrenceId);
      match occurrence with
      | None => Return None
      | Some o =>
          advanced ← demand (advanceRoutine spaceId input);
          if (advanced : bool) then Return (Some o) else Throw (RoutineMoved (siRoutine input))
      end
  end.

Definition recordMissedOccurrence (spaceId : jstr) (input : SlotInput) (occurrenceId : jstr) :
    call (result ConversationError (option OccurrenceRow)) :=
  alone (recordMissedOnce spaceId input occurrenceId).

Record DueRoutine := {
  drId : jstr; drSpace : jstr; drCron : jstr; drTimezone : jstr; drNextRunAt : Z; drNow : Z }.

(** [order by next_run_at asc, id asc limit $1]; uuids order as their texts. *)
Definition dueBefore (a b : jstr * RoutineRow) : bool :=
  (roNextRunAt a.2 <? roNextRunAt b.2)%Z || ((roNextRunAt a.2 =? roNextRunAt b.2)%Z && leString a.1 b.1).

Definition listDueRoutines (limit : nat) : txStatement (Db := Conversations) (W := write) (L := lock) (list DueRoutine) :=
  λ now db,
  let due := List.filter (λ kv, roEnabled kv.2 && bool_decide (roDeletedAt kv.2 = None)
                                && (roNextRunAt kv.2 <=? now)%Z) (map_to_list (routines db)) in
  ((λ kv, {| drId := kv.1; drSpace := roSpace kv.2; drCron := roCron kv.2; drTimezone := roTimezone kv.2;
             drNextRunAt := columnDate (roNextRunAt kv.2); drNow := columnDate now |})
     <$> take limit (orderBy dueBefore due), [], []).

Record Delivery := { deRun : jstr; deFence : Z; deSpace : jstr }.

Definition queuedBefore (a b : jstr * RunHead) : bool :=
  (rhCreatedAt a.2 <? rhCreatedAt b.2)%Z || ((rhCreatedAt a.2 =? rhCreatedAt b.2)%Z && leString a.1 b.1).

Definition findQueuedRoutineRuns (limit : nat) (graceSeconds : Z) :
    txStatement (Db := Conversations) (W := write) (L := lock) (list Delivery) :=
  λ now db,
  let queued := List.filter (λ kv, bool_decide (rhTrigger kv.2 = routine_trigger)
      && bool_decide (rhStatus kv.2 = queued) && bool_decide (rhOwner kv.2 = None)
      && (rhCreatedAt kv.2 <=? now - graceSeconds * SECOND)%Z) (map_to_list (runs db)) in
  ((λ kv, {| deRun := kv.1; deFence := rhFence kv.2; deSpace := rhSpace kv.2 |})
     <$> take limit (orderBy queuedBefore queued), [], []).

(** ** The outcome history *)

Inductive RoutineOutcomeStatus := outcome_success | outcome_failure | outcome_cancelled | outcome_missed | outcome_running.

Record RoutineOutcomeRecord := {
  ouOccurrence : jstr; ouScheduledFor : Z; ouRun : option jstr; ouStatus : RoutineOutcomeStatus }.

(** The [case] of the read; a run that is gone leaves its status null. *)
Definition outcomeStatus (db : Conversations) (o : OccurrenceRow) : RoutineOutcomeStatus :=
  match ocRun o with
  | None => outcome_missed
  | Some r =>
      match rhStatus <$> runs db !! r with
      | Some completed => outcome_success
      | Some RunState.failed => outcome_failure
      | Some cancelled => outcome_cancelled
      | _ => outcome_running
      end
  end.

Definition outcomesOf (routineId : jstr) (limit : nat) (db : Conversations) : list RoutineOutcomeRecord :=
  take limit (orderBy (λ a b, (ouScheduledFor b <=? ouScheduledFor a)%Z)
    (omap (λ kv, if bool_decide (kv.1.1 = routineId)
                 then Some {| ouOccurrence := ocId kv.2; ouScheduledFor := columnDate kv.1.2;
                              ouRun := ocRun kv.2; ouStatus := outcomeStatus db kv.2 |}
                 else None) (map_to_list (occurrences db)))).

Definition listOutcomes (spaceId routineId : jstr) (limit : option jsnum) :
    call (result ConversationError (list RoutineOutcomeRecord)) :=
  Transact (findRoutine spaceId routineId) (λ found,
  match found with
  | Err e => Finish (Err e)
  | Ok _ => alone (read (outcomesOf routineId (Z.to_nat (outcomeLimit limit))))
  end).
