(* ===== verification/ConversationSteps.v ===== *)
(** What the transactions of the conversation tables do when they commit: one rule
    per command, with the rows it relies on as they are at the commit, and what every
    commit keeps. *)

From S2P Require Import Prelude JsText JsValue Json RunState Transactions RunTables.
From S2P Require Import Conversations MessageStore RunCreation.

(** A run keeps who it is; its source message may go, its status moves. *)
Record sameRun (r r' : RunHead) : Prop := {
  same_space : rhSpace r' = rhSpace r; same_bot : rhBot r' = rhBot r; same_thread : rhThread r' = rhThread r;
  same_task : rhTask r' = rhTask r; same_user : rhUser r' = rhUser r; same_trigger : rhTrigger r' = rhTrigger r;
  same_nonce : rhNonce r' = rhNonce r; same_source : rhSource r' = rhSource r ∨ rhSource r' = None }.

Record sameThread (t t' : ThreadRow) : Prop := {
  thread_space : thSpace t' = thSpace t; thread_bot : thBot t' = thBot t; thread_user : thUser t' = thUser t }.

Record sameRoutine (r r' : RoutineRow) : Prop := {
  routine_space : roSpace r' = roSpace r; routine_bot : roBot r' = roBot r;
  routine_user : roUser r' = roUser r; routine_thread : roThread r' = roThread r }.

(** A run of the task, created with it. *)
Definition runOf (runId taskId : jstr) (task : TaskRow) (run : RunHead) : Prop :=
  rhSpace run = tkSpace task ∧ rhBot run = tkBot task ∧ rhThread run = tkThread task ∧
  rhTask run = taskId ∧ rhSource run = None.

(** The next message of a thread, free under both unique keys. *)
Definition nextMessage (db : Conversations) (t : ThreadRow) (id : jstr) (m : MessageRow) : Prop :=
  messages db !! id = None ∧ msSeq m = thNextMessage t ∧ messageByNonce (msThread m) (msNonce m) db = None ∧
  messageAt (msThread m) (msSeq m) db = None.

Definition bump (threadId : jstr) (t : ThreadRow) : write :=
  PutThread threadId (withNextMessage t (thNextMessage t + 1)).

Definition newTaskAndRun (db : Conversations) (taskId runId : jstr) (task : TaskRow) (run : RunHead) : Prop :=
  tasks db !! taskId = None ∧ runs db !! runId = None ∧ runByNonce (rhSpace run) (rhNonce run) db = None ∧
  runOf runId taskId task run.

(** One commit of any caller, in a history in which no bot, space or user is deleted:
    such a deletion takes threads, tasks, runs and messages with it, and with the runs
    the nonces they held, and is not one of the rules. *)
Inductive commits : list lock → Conversations → Conversations → Prop :=
| commit_nothing ks db : commits ks db db
| commit_thread db id t :
    threads db !! id = None → thNextMessage t = 0%Z → thNextEvent t = 0%Z →
    commits [OfThread id] db (overlay applyWrite [PutThread id t] db)
| commit_submission db ks th t taskId task runId run mid m :
    OfThread th ∈ ks → OfTask taskId ∈ ks → OfRun runId ∈ ks → OfMessage mid ∈ ks →
    OfNonce (rhSpace run) (rhNonce run) ∈ ks →
    threads db !! th = Some t → tkThread task = th → msThread m = th → msRun m = Some runId →
    msNonce m = rhNonce run → rhTrigger run = message_trigger →
    newTaskAndRun db taskId runId task run → nextMessage db t mid m →
    commits ks db (overlay applyWrite
      [PutTask taskId task; PutRun runId run; bump th t; PutMessage mid m;
       PutRun runId (withSource run (Some mid))] db)
| commit_message db ks th t mid m r run :
    OfThread th ∈ ks → OfMessage mid ∈ ks →
    threads db !! th = Some t → msThread m = th → msRun m = Some r → runs db !! r = Some run →
    rhThread run = th → nextMessage db t mid m →
    commits ks db (overlay applyWrite [bump th t; PutMessage mid m] db)
| commit_steer db ks th t mid m r run row :
    OfThread th ∈ ks → OfMessage mid ∈ ks →
    threads db !! th = Some t → msThread m = th → msRun m = Some r → runs db !! r = Some run →
    rhThread run = th → nextMessage db t mid m → srRun row = Some r → srClaimedAt row = None →
    commits ks db (overlay applyWrite
      [bump th t; PutMessage mid m; PutSteering {[ (mid, thBot t) := row ]}] db)
| commit_clear db ks th t :
    OfThread th ∈ ks → (∀ r run, runs db !! r = Some run → linkedTo th db run = true → OfRun r ∈ ks) →
    (∀ id m, messages db !! id = Some m → msThread m = th → OfMessage id ∈ ks) →
    threads db !! th = Some t →
    commits ks db (overlay applyWrite
      [PutThread th (resetThread t); DeleteEvents (thSpace t) th; DeleteMessages th] db)
| commit_claim db ks claimed now :
    (∀ k row, claimed !! k = Some row →
       OfMessage k.1 ∈ ks ∧ steering db !! k = Some row ∧ srClaimedAt row = None) →
    commits ks db (overlay applyWrite [PutSteering (claimedRow now <$> claimed)] db)
| commit_event db ks th t seq row :
    OfThread th ∈ ks → threads db !! th = Some t → evSpace row = thSpace t → events db !! (th, seq) = None →
    commits ks db (overlay applyWrite
      [PutThread th (withNextEvent t (Z.max (thNextEvent t) (seq + 1))); PutEvent th seq row] db)
| commit_routine db ks th t id r :
    OfThread th ∈ ks → OfRoutine id ∈ ks →
    threads db !! th = None → thNextMessage t = 0%Z → thNextEvent t = 0%Z → routines db !! id = None →
    commits ks db (overlay applyWrite [PutThread th t; PutRoutine id r] db)
| commit_routine_edit db ks id r r' :
    OfRoutine id ∈ ks → routines db !! id = Some r → sameRoutine r r' →
    commits ks db (overlay applyWrite [PutRoutine id r'] db)
| commit_test_run db ks taskId task runId run :
    OfTask taskId ∈ ks → OfRun runId ∈ ks → OfNonce (rhSpace run) (rhNonce run) ∈ ks →
    rhTrigger run = routine_trigger → newTaskAndRun db taskId runId task run →
    commits ks db (overlay applyWrite [PutTask taskId task; PutRun runId run] db)
| commit_fire db ks input r occurrenceId taskId task runId run :
    OfRoutine (siRoutine input) ∈ ks → OfTask taskId ∈ ks → OfRun runId ∈ ks →
    OfNonce (rhSpace run) (rhNonce run) ∈ ks →
    routineAt (rhSpace run) (siRoutine input) (siScheduledFor input) db = Some r →
    occurrences db !! (siRoutine input, slotOf input) = None →
    rhTrigger run = routine_trigger → newTaskAndRun db taskId runId task run →
    rhNonce run = encodeText (routineRunNonce (siRoutine input) (siScheduledFor input)) →
    commits ks db (overlay applyWrite
      [PutOccurrence (siRoutine input) (slotOf input) {| ocId := occurrenceId; ocRun := None |};
       PutTask taskId task; PutRun runId run;
       PutOccurrence (siRoutine input) (slotOf input) {| ocId := occurrenceId; ocRun := Some runId |};
       PutRoutine (siRoutine input) (withNextRun r (siNextRunAt input * 1000))] db)
| commit_missed db ks spaceId input r occurrenceId :
    OfRoutine (siRoutine input) ∈ ks →
    routineAt spaceId (siRoutine input) (siScheduledFor input) db = Some r →
    occurrences db !! (siRoutine input, slotOf input) = None →
    commits ks db (overlay applyWrite
      [PutOccurrence (siRoutine input) (slotOf input) {| ocId := occurrenceId; ocRun := None |};
       PutRoutine (siRoutine input) (withNextRun r (siNextRunAt input * 1000))] db)
| commit_run_moves db ks id r r' :
    OfRun id ∈ ks → runs db !! id = Some r → sameRun r r' → rhSource r' = rhSource r →
    commits ks db (overlay applyWrite [PutRun id r'] db).

(** Inversion of a commit, the tables read off its writes. *)
Ltac commitCases H :=
  inversion H; subst; clear H;
  cbn [overlay foldl applyWrite app bump bots threads tasks runs messages steering routines occurrences events] in *.

(** Case analysis on the key of an insert. *)
Ltac keyCases :=
  repeat match goal with
  | |- context [<[?k := _]> _ !! ?k'] =>
      first [rewrite (lookup_insert_ne _ k k') by congruence
            |destruct (decide (k = k')); [simplify_eq; rewrite lookup_insert_eq|rewrite (lookup_insert_ne _ k k') by done]]
  | H : context [<[?k := _]> _ !! ?k'] |- _ =>
      first [rewrite (lookup_insert_ne _ k k') in H by congruence
            |destruct (decide (k = k')); [simplify_eq; rewrite lookup_insert_eq in H|rewrite (lookup_insert_ne _ k k') in H by done]]
  end.

(** ** What every commit keeps *)

#[export] Instance sameThread_preorder : PreOrder sameThread.
Proof. split; [by split|]. intros a b c [] []. split; congruence. Qed.

#[export] Instance sameRoutine_preorder : PreOrder sameRoutine.
Proof. split; [by split|]. intros a b c [] []. split; congruence. Qed.

#[export] Instance sameRun_preorder : PreOrder sameRun.
Proof.
  split; [intros a; split; auto|]. intros a b c [] []. split; try congruence.
  destruct same_source1 as [->| ->]; auto.
Qed.

Lemma sameRun_source r s : s = rhSource r ∨ s = None → sameRun r (withSource r s).
Proof. by split. Qed.

Lemma unlinked_same t db r : sameRun r (unlinked t db r).
Proof.
  unfold unlinked. destruct (rhSource r) as [m|] eqn:E; [|reflexivity].
  destruct (decide _); [|reflexivity]. apply sameRun_source. by right.
Qed.

Section kept.
Context (ks : list lock) (db db' : Conversations) (Hc : commits ks db db').

Lemma kept_thread t row :
  threads db !! t = Some row → ∃ row', threads db' !! t = Some row' ∧ sameThread row row'.
Proof using Hc.
  intros Ht. commitCases Hc; keyCases; simplify_eq; try (by eexists; split; [done|]; split); by eexists.
Qed.

Lemma kept_task t row : tasks db !! t = Some row → tasks db' !! t = Some row.
Proof using Hc.
  intros Ht. commitCases Hc; unfold newTaskAndRun in *; destruct_and?; keyCases; congruence.
Qed.

Lemma kept_run r row : runs db !! r = Some row → ∃ row', runs db' !! r = Some row' ∧ sameRun row row'.
Proof using Hc.
  intros Hr. commitCases Hc; unfold newTaskAndRun in *; destruct_and?; keyCases; simplify_eq;
    try (by eexists); try (by eexists; split; [done|]; auto).
  rewrite lookup_fmap, Hr. eexists. split; [done|]. apply unlinked_same.
Qed.

Lemma kept_routine id row :
  routines db !! id = Some row → ∃ row', routines db' !! id = Some row' ∧ sameRoutine row row'.
Proof using Hc.
  intros Hr. commitCases Hc; keyCases; simplify_eq; try (by eexists); try (by eexists; split; [done|]; auto).
  all: match goal with H : routineAt _ _ _ _ = Some _ |- _ =>
    apply routineAt_some in H as [[H _]%liveRoutine_some _] end.
  all: simplify_eq; eexists; split; [done|]; by split.
Qed.

Lemma kept_occurrence k o : occurrences db !! k = Some o → occurrences db' !! k = Some o.
Proof using Hc. intros Ho. commitCases Hc; keyCases; congruence. Qed.

(** The row of a thread nobody else locked, and the messages and events in it. *)
Lemma kept_locked_thread t : OfThread t ∉ ks → threads db' !! t = threads db !! t.
Proof using Hc. intros Ht. commitCases Hc; keyCases; try done; set_solver. Qed.

Lemma kept_locked_messages t id m :
  OfThread t ∉ ks → msThread m = t → messages db' !! id = Some m ↔ messages db !! id = Some m.
Proof using Hc.
  intros Ht Hm. commitCases Hc; unfold nextMessage in *; destruct_and?; keyCases; try done.
  all: try (split; [intros [= ->]; destruct Ht; congruence|congruence]).
  rewrite map_lookup_filter_Some. cbn. split; [by intros []|]. intros; split; [done|]. set_solver.
Qed.

Lemma kept_locked_events t seq : OfThread t ∉ ks → events db' !! (t, seq) = events db !! (t, seq).
Proof using Hc.
  intros Ht. commitCases Hc; keyCases; try done; try set_solver.
  apply option_eq. intros e. rewrite map_lookup_filter_Some. cbn. split; [by intros []|].
  intros; split; [done|]. set_solver.
Qed.

(** Ids and keys that were free and nobody else locked. *)
Lemma kept_free_task t : OfTask t ∉ ks → tasks db !! t = None → tasks db' !! t = None.
Proof using Hc. intros Ht Hn. commitCases Hc; keyCases; try done; set_solver. Qed.

Lemma kept_free_run r : OfRun r ∉ ks → runs db !! r = None → runs db' !! r = None.
Proof using Hc.
  intros Ht Hn. commitCases Hc; keyCases; try done; try set_solver. by rewrite lookup_fmap, Hn.
Qed.

Lemma kept_free_message id : OfMessage id ∉ ks → messages db !! id = None → messages db' !! id = None.
Proof using Hc.
  intros Ht Hn. commitCases Hc; keyCases; try done; try set_solver.
  apply map_lookup_filter_None. by left.
Qed.

Lemma kept_routine_row id : OfRoutine id ∉ ks → routines db' !! id = routines db !! id.
Proof using Hc. intros Ht. commitCases Hc; keyCases; try done; set_solver. Qed.

Lemma kept_steering k : OfMessage k.1 ∉ ks → steering db' !! k = steering db !! k.
Proof using Hc.
  intros Hk. commitCases Hc; try done; try (by rewrite lookup_union_r; [done|];
    match goal with |- {[ ?j := _ ]} !! _ = None => apply lookup_singleton_ne; intros <-; set_solver end).
  - apply option_eq. intros row. rewrite map_lookup_filter_Some. cbn. split; [by intros []|].
    intros Hr; split; [done|]. unfold inThread. intros (m & ? & ?)%fmap_Some. set_solver.
  - rewrite lookup_union_r; [done|]. rewrite lookup_fmap. destruct (claimed !! k) as [row|] eqn:E; [|done].
    edestruct H as [? _]; [exact E|done].
Qed.

Lemma kept_locked_inThread t id : OfThread t ∉ ks → inThread t db' id ↔ inThread t db id.
Proof using Hc.
  intros Ht. unfold inThread. rewrite !fmap_Some.
  split; intros (m & Hm & ->); exists m; (split; [|done]); by apply (kept_locked_messages (msThread m)).
Qed.

(** No run becomes linked to a message of a locked thread. *)
Lemma kept_links t r run' :
  OfThread t ∉ ks → runs db' !! r = Some run' → linkedTo t db' run' = true →
  ∃ run, runs db !! r = Some run ∧ linkedTo t db run = true.
Proof using Hc.
  intros Ht Hr Hl. pose proof (λ id, kept_locked_inThread t id Ht) as Hin.
  assert (∀ run, linkedTo t db' run = linkedTo t db run) as Hsame.
  { intros run. unfold linkedTo. destruct (rhSource run); [|done]. apply bool_decide_ext, Hin. }
  rewrite Hsame in Hl. clear Hsame. commitCases Hc; try by eauto.
  all: unfold newTaskAndRun, runOf, nextMessage in *; destruct_and?; keyCases; try by eauto.
  all: unfold linkedTo in *.
  - simplify_eq. cbn in Hl. bools. unfold inThread in Hl. by match goal with H : messages _ !! _ = None |- _ => rewrite H in Hl end.
  - rewrite lookup_fmap in Hr. apply fmap_Some in Hr as (run & -> & ->). exists run. split; [done|].
    match type of Hl with context [unlinked ?a ?b run] =>
      destruct (unlinked_same a b run) as [_ _ _ _ _ _ _ [E|E]] end; by rewrite E in Hl.
  - simplify_eq. by match goal with H : rhSource _ = None |- _ => rewrite H in Hl end.
  - simplify_eq. by match goal with H : rhSource _ = None |- _ => rewrite H in Hl end.
  - simplify_eq. match goal with H : rhSource _ = rhSource _ |- _ => rewrite H in Hl end. by eauto.
Qed.

Lemma kept_routine_slots id slot : OfRoutine id ∉ ks → occurrences db' !! (id, slot) = occurrences db !! (id, slot).
Proof using Hc. intros Ht. commitCases Hc; keyCases; try done; set_solver. Qed.
End kept.

Lemma runByNonce_none s n db :
  runByNonce s n db = None ↔ ∀ r run, runs db !! r = Some run → rhSpace run = s → rhNonce run = n → False.
Proof.
  unfold runByNonce. rewrite findRow_none. apply forall_proper; intros r. apply forall_proper; intros run.
  destruct (bool_decide_reflect (rhSpace run = s)), (bool_decide_reflect (rhNonce run = n)); naive_solver.
Qed.

Lemma runByNonce_some s n db r run :
  runByNonce s n db = Some (r, run) → runs db !! r = Some run ∧ rhSpace run = s ∧ rhNonce run = n.
Proof. intros [? ?]%findRow_some. by bools. Qed.

Lemma messageByNonce_none t n db :
  messageByNonce t n db = None ↔ ∀ id m, messages db !! id = Some m → msThread m = t → msNonce m = n → False.
Proof.
  unfold messageByNonce. rewrite findRow_none. apply forall_proper; intros r. apply forall_proper; intros m.
  destruct (bool_decide_reflect (msThread m = t)), (bool_decide_reflect (msNonce m = n)); naive_solver.
Qed.

Lemma messageByNonce_some t n db id m :
  messageByNonce t n db = Some (id, m) → messages db !! id = Some m ∧ msThread m = t ∧ msNonce m = n.
Proof. intros [? ?]%findRow_some. by bools. Qed.

Lemma messageAt_none t q db :
  messageAt t q db = None ↔ ∀ id m, messages db !! id = Some m → msThread m = t → msSeq m = q → False.
Proof.
  unfold messageAt. rewrite findRow_none. apply forall_proper; intros r. apply forall_proper; intros m.
  destruct (bool_decide_reflect (msThread m = t)), (Z.eqb_spec (msSeq m) q); naive_solver.
Qed.

Lemma kept_free_nonce ks db db' s n :
  commits ks db db' → OfNonce s n ∉ ks → runByNonce s n db = None → runByNonce s n db' = None.
Proof.
  rewrite !runByNonce_none. intros Hc Hk Hn r run Hr Hs Ho. subst s n.
  pose proof (Hn r) as Hnr. destruct (runs db !! r) as [run0|] eqn:E.
  - destruct (kept_run _ _ _ Hc _ _ E) as (run' & Hr' & []). rewrite Hr in Hr'. injection Hr' as <-.
    eapply Hnr; [done| |]; congruence.
  - commitCases Hc; unfold newTaskAndRun in *; destruct_and?;
      repeat match goal with H : <[?k := _]> _ !! ?k' = Some _ |- _ =>
        destruct (decide (k = k')); [subst; rewrite lookup_insert_eq in H; injection H as <-
                                    |rewrite lookup_insert_ne in H by done] end; try congruence; try done.
    rewrite lookup_fmap, E in Hr. done.
Qed.

(** ** While a lock is held *)

Section held.
Context (held : list lock).

Lemma held_keeps (P : Conversations → Prop) db db' :
  (∀ ks a b, commits ks a b → Forall (λ k, k ∉ held) ks → P a → P b) →
  rtc (others commits held) db db' → P db → P db'.
Proof. intros Hp Hs. induction Hs as [|a b c (ks & Hc & Hk) _ IH]; [done|]. intros Ha. eauto. Qed.

Context (db db' : Conversations) (Hs : rtc (others commits held) db db').

Lemma held_free (k : lock) ks : Forall (λ k, k ∉ held) ks → k ∈ held → k ∉ ks.
Proof. rewrite Forall_forall. intros H Hk Hks. by apply (H k). Qed.

Hint Resolve held_free : core.

Lemma held_thread t : OfThread t ∈ held → threads db' !! t = threads db !! t.
Proof using Hs.
  intros Ht. apply (held_keeps (λ d, threads d !! t = threads db !! t) db db'); [|done..].
  intros ks a b Hc Hk <-. eapply kept_locked_thread; eauto.
Qed.

Lemma held_messages t id m :
  OfThread t ∈ held → msThread m = t → messages db' !! id = Some m ↔ messages db !! id = Some m.
Proof using Hs.
  intros Ht Hm. apply (held_keeps (λ d, messages d !! id = Some m ↔ messages db !! id = Some m) db db'); [|done..].
  intros ks a b Hc Hk <-. eapply kept_locked_messages; eauto.
Qed.

Lemma held_message_keys t n q :
  OfThread t ∈ held → messageByNonce t n db = None → messageAt t q db = None →
  messageByNonce t n db' = None ∧ messageAt t q db' = None.
Proof using Hs.
  rewrite !messageByNonce_none, !messageAt_none. intros Ht Hn Hq.
  split; intros id m Hm Hth; apply (held_messages t) in Hm; eauto.
Qed.

Lemma held_events t seq : OfThread t ∈ held → events db' !! (t, seq) = events db !! (t, seq).
Proof using Hs.
  intros Ht. apply (held_keeps (λ d, events d !! (t, seq) = events db !! (t, seq)) db db'); [|done..].
  intros ks a b Hc Hk <-. eapply kept_locked_events; eauto.
Qed.

Lemma held_task t : OfTask t ∈ held → tasks db !! t = None → tasks db' !! t = None.
Proof using Hs.
  intros Ht. apply (held_keeps (λ d, tasks d !! t = None)); [|done].
  intros ks a b Hc Hk. eapply kept_free_task; eauto.
Qed.

Lemma held_run r : OfRun r ∈ held → runs db !! r = None → runs db' !! r = None.
Proof using Hs.
  intros Ht. apply (held_keeps (λ d, runs d !! r = None)); [|done].
  intros ks a b Hc Hk. eapply kept_free_run; eauto.
Qed.

Lemma held_message id : OfMessage id ∈ held → messages db !! id = None → messages db' !! id = None.
Proof using Hs.
  intros Ht. apply (held_keeps (λ d, messages d !! id = None)); [|done].
  intros ks a b Hc Hk. eapply kept_free_message; eauto.
Qed.

Lemma held_nonce s n : OfNonce s n ∈ held → runByNonce s n db = None → runByNonce s n db' = None.
Proof using Hs.
  intros Ht. apply (held_keeps (λ d, runByNonce s n d = None)); [|done].
  intros ks a b Hc Hk. eapply kept_free_nonce; eauto.
Qed.

Lemma held_routine id : OfRoutine id ∈ held → routines db' !! id = routines db !! id.
Proof using Hs.
  intros Ht. apply (held_keeps (λ d, routines d !! id = routines db !! id) db db'); [|done..].
  intros ks a b Hc Hk <-. eapply kept_routine_row; eauto.
Qed.

Lemma held_slots id slot : OfRoutine id ∈ held → occurrences db' !! (id, slot) = occurrences db !! (id, slot).
Proof using Hs.
  intros Ht. apply (held_keeps (λ d, occurrences d !! (id, slot) = occurrences db !! (id, slot)) db db'); [|done..].
  intros ks a b Hc Hk <-. eapply kept_routine_slots; eauto.
Qed.

Lemma held_steering k : OfMessage k.1 ∈ held → steering db' !! k = steering db !! k.
Proof using Hs.
  intros Hk. apply (held_keeps (λ d, steering d !! k = steering db !! k) db db'); [|done..].
  intros ks a b Hc Hf <-. eapply kept_steering; eauto.
Qed.

Lemma held_links t r run' :
  OfThread t ∈ held → runs db' !! r = Some run' → linkedTo t db' run' = true →
  ∃ run, runs db !! r = Some run ∧ linkedTo t db run = true.
Proof using Hs.
  intros Ht. revert r run'. apply (held_keeps (λ d, ∀ r run', runs d !! r = Some run' → linkedTo t d run' = true →
    ∃ run, runs db !! r = Some run ∧ linkedTo t db run = true) db db'); [|done|by eauto].
  intros ks a b Hc Hf IH r run' Hr Hl.
  destruct (kept_links ks a b Hc t r run') as (run & ? & ?); eauto.
Qed.

Lemma held_routineAt s id slot : OfRoutine id ∈ held → routineAt s id slot db' = routineAt s id slot db.
Proof using Hs. intros Hr. unfold routineAt, liveRoutine. by rewrite held_routine. Qed.
End held.

(** ** Along any commits *)

Abbreviation steps := (rtc (anyCommit commits)).

Lemma steps_keep {A} (get : Conversations → option A) (R : A → A → Prop) `{!PreOrder R} db db' x :
  (∀ ks a b y, commits ks a b → get a = Some y → ∃ z, get b = Some z ∧ R y z) →
  steps db db' → get db = Some x → ∃ y, get db' = Some y ∧ R x y.
Proof.
  intros Hk Hs. revert x. induction Hs as [d|a b c (ks & Hc) _ IH]; intros x Hx; [by exists x|].
  destruct (Hk _ _ _ _ Hc Hx) as (y & Hy & Rxy). destruct (IH _ Hy) as (z & Hz & Ryz).
  exists z. split; [done|]. by etrans.
Qed.

Lemma steps_thread db db' t row :
  steps db db' → threads db !! t = Some row → ∃ row', threads db' !! t = Some row' ∧ sameThread row row'.
Proof.
  intros Hs. apply (steps_keep (λ d, threads d !! t) sameThread); [|done]. intros ks a b y Hc. by eapply kept_thread.
Qed.

Lemma steps_run db db' r row :
  steps db db' → runs db !! r = Some row → ∃ row', runs db' !! r = Some row' ∧ sameRun row row'.
Proof.
  intros Hs. apply (steps_keep (λ d, runs d !! r) sameRun); [|done]. intros ks a b y Hc. by eapply kept_run.
Qed.

Lemma steps_occurrence db db' k o : steps db db' → occurrences db !! k = Some o → occurrences db' !! k = Some o.
Proof.
  intros Hs Ho. destruct (steps_keep (λ d, occurrences d !! k) eq db db' o) as (o' & ? & <-); try done.
  intros ks a b y Hc Hy. exists y. split; [by eapply kept_occurrence|done].
Qed.
