(* ===== verification/ConversationCommands.v ===== *)
(** The commands on the conversation tables refine the commit rules: whatever commits
    of others come between their statements, a body that gets to its commit makes the
    step its rule describes, on the tables as they are then. *)

From S2P Require Import Prelude JsText JsValue Json RunState RunEvents Messaging Transactions RunTables.
From S2P Require Import Conversations MessageStore RunCreation RoutineSchedule RoutineStore ConversationSteps.

(** ** What a statement that succeeded has seen and written *)

Ltac sqlCases H :=
  repeat match type of H with
  | context [match ?x with _ => _ end] =>
      lazymatch x with context [match _ with _ => _ end] => fail | _ => destruct x eqn:? end
  end; unfold failed, nothing in *; simplify_eq/=; try done.

Lemma threadIn_some s t db row :
  threadIn s t db = Some row → threads db !! t = Some row ∧ thSpace row = s.
Proof.
  unfold threadIn. destruct (threads db !! t) as [r|]; [|done]. cbn [mbind option_bind].
  destruct (bool_decide_reflect (thSpace r = s)); [|done]. by intros [= <-].
Qed.

Lemma runIn_some s r db row : runIn s r db = Some row → runs db !! r = Some row ∧ rhSpace row = s.
Proof.
  unfold runIn. destruct (runs db !! r) as [r'|]; [|done]. cbn [mbind option_bind].
  destruct (bool_decide_reflect (rhSpace r' = s)); [|done]. by intros [= <-].
Qed.

Lemma runInThread_some s t r db row :
  runInThread s t r db = Some row → runs db !! r = Some row ∧ rhSpace row = s ∧ rhThread row = t.
Proof.
  unfold runInThread. destruct (runIn s r db) as [r'|] eqn:E; [|done]. cbn [mbind option_bind].
  destruct (bool_decide_reflect (rhThread r' = t)); [|done]. intros [= <-].
  by apply runIn_some in E as [? ?].
Qed.

Lemma not_some {A} (o : option A) : bool_decide (is_Some o) = false → o = None.
Proof. intros H%bool_decide_eq_false. by apply eq_None_not_Some. Qed.

Lemma insertTaskRow_ok {X} s id seed (answer : TaskRow → X) db x w l :
  insertTaskRow s id seed answer db = (Ok x, w, l) →
  ∃ row, x = answer row ∧ w = [PutTask id row] ∧ l = [OfTask id] ∧ tasks db !! id = None ∧
    tkSpace row = s ∧ tkBot row = tsBot seed ∧ tkThread row = tsThread seed ∧ tkUser row = tsUser seed.
Proof.
  unfold insertTaskRow, withText. intros H. sqlCases H.
  match goal with H : bool_decide _ = false |- _ => apply not_some in H end. eexists. by split_and!.
Qed.

Lemma insertRunRow_ok id run now db row w l :
  insertRunRow id run now db = (Ok (Some row), w, l) →
  w = [PutRun id row] ∧ l = [OfRun id; OfNonce (rhSpace row) (rhNonce row)] ∧
  runs db !! id = None ∧ runByNonce (rhSpace row) (rhNonce row) db = None ∧
  textParameter (rhNonce (run now)) = Some (rhNonce row) ∧
  sameRun (run now) {| rhSpace := rhSpace row; rhBot := rhBot row; rhThread := rhThread row;
    rhTask := rhTask row; rhUser := rhUser row; rhStatus := rhStatus row; rhTrigger := rhTrigger row;
    rhNonce := rhNonce (run now); rhSource := None; rhOwner := None; rhFence := 0; rhCreatedAt := now |} ∧
  rhSource row = None ∧ rhStatus row = rhStatus (run now).
Proof.
  unfold insertRunRow, withText. intros H. sqlCases H.
  repeat match goal with H : bool_decide _ = false |- _ => apply not_some in H end. split_and!; try done.
  split; auto.
Qed.

Lemma advanceMessages_ok {X} s th guard (answer : ThreadRow → X) now db x w l :
  advanceMessages s th guard answer now db = (Ok (Some x), w, l) →
  ∃ t, threads db !! th = Some t ∧ thSpace t = s ∧ guard t db = true ∧ x = answer t ∧
    w = [bump th t] ∧ l = [OfThread th] ∧ (thNextMessage t < INTEGER_MAX)%Z.
Proof.
  unfold advanceMessages. intros H. sqlCases H.
  match goal with H : threadIn _ _ _ = Some _ |- _ => apply threadIn_some in H as [??] end.
  eexists. split_and!; try done. match goal with H : (_ <? _)%Z = false |- _ => apply Z.ltb_ge in H end. lia.
Qed.

Lemma insertMessageRow_ok id nm now db r w l :
  insertMessageRow id nm now db = (Ok r, w, l) →
  ∃ m, r = (id, m) ∧ w = [PutMessage id m] ∧ l = [OfMessage id] ∧ messages db !! id = None ∧
    messageAt (msThread m) (msSeq m) db = None ∧ messageByNonce (msThread m) (msNonce m) db = None ∧
    msThread m = nmThread nm ∧ msSeq m = nmSeq nm ∧ msRun m = nmRun nm ∧ msRole m = nmRole nm ∧
    jsonbParameter (blocksValue (nmBlocks nm)) = Some (msBlocks m) ∧
    textParameter (nmNonce nm) = Some (msNonce m).
Proof.
  unfold insertMessageRow, withText. intros H. sqlCases H. bools.
  repeat match goal with H : ¬ is_Some _ |- _ => apply eq_None_not_Some in H end.
  eexists. by split_and!.
Qed.

Lemma linkSource_ok s r m now db row w l :
  linkSource s r m now db = (Ok row, w, l) →
  ∃ run, runs db !! r = Some run ∧ row = withSource run (Some m) ∧ w = [PutRun r row] ∧ l = [OfRun r].
Proof.
  unfold linkSource. intros H. sqlCases H.
  match goal with H : runIn _ _ _ = Some _ |- _ => apply runIn_some in H as [??] end. eexists. by split_and!.
Qed.

Lemma insertTaskFromThread_ok actor input id now db row w l :
  insertTaskFromThread actor input id now db = (Ok (Some row), w, l) →
  w = [PutTask id row] ∧ l = [OfTask id] ∧ tasks db !! id = None ∧ tkThread row = nrThread input ∧
  tkSpace row = uaSpace actor ∧ tkUser row = uaUser actor ∧
  ∃ t, threads db !! nrThread input = Some t ∧ thSpace t = uaSpace actor ∧ tkBot row = thBot t.
Proof.
  unfold insertTaskFromThread. intros H. destruct (threadIn _ _ _) as [t|] eqn:E; [|done].
  apply threadIn_some in E as [? ?]. apply insertTaskRow_ok in H as (row' & [= <-] & ? & ? & ? & ? & ? & ? & ?).
  split_and!; try done. by exists t.
Qed.

(** ** The bodies *)

(** The tables read off a transaction's own writes. *)
Ltac readOwn :=
  cbn [overlay foldl applyWrite app bump bots threads tasks runs messages steering routines occurrences events] in *.

Abbreviation commitsOf := (ends applyWrite commits).

Ltac nextDemand H :=
  apply ends_demand in H as (? & ? & ? & ? & ? & ? & H); readOwn.

Lemma requiredRow_ok {A B} (row : option A) what id (f : A → tx B) now ws held db b ws' held' db' :
  commitsOf (requiredRow row what id ≫= f) now ws held db (Ok b) ws' held' db' →
  ∃ a, row = Some a ∧ commitsOf (f a) now ws held db (Ok b) ws' held' db'.
Proof. destruct row as [a|]; [by exists a|]. by intros ?%ends_throw. Qed.

(** Locks among those held. *)
Ltac inLocks := repeat first [apply list_elem_of_here|apply list_elem_of_further].
Ltac subLocks := intros ?; rewrite ?elem_of_cons, ?elem_of_nil; tauto.

(** The commits between two statements, all of which respect a lock held since the first. *)
Ltac chain :=
  first [eassumption
        |eapply rtc_trans; [eapply others_mono; [|eassumption]; subLocks|chain]
        |apply rtc_refl].

Lemma createOnce_commits actor input ids now db c ws held db1 :
  commitsOf (createOnce actor input ids) now [] [] db (Ok c) ws held db1 →
  commits held db1 (overlay applyWrite ws db1) ∧
  runs (overlay applyWrite ws db1) !! (crRun c).1 = Some (crRun c).2 ∧
  rhSpace (crRun c).2 = uaSpace actor ∧ textParameter (nrNonce input) = Some (rhNonce (crRun c).2) ∧
  (crRun c).1 = newRunId ids ∧ rhTask (crRun c).2 = (crTask c).1 ∧
  msThread (crMessage c).2 = rhThread (crRun c).2.
Proof.
  unfold createOnce. intros H.
  apply ends_demand in H as (d1 & taskRow & w1 & l1 & _ & Htask & H).
  apply requiredRow_ok in H as (task & -> & H). cbn [overlay foldl] in Htask.
  apply insertTaskFromThread_ok in Htask as (-> & -> & Hnt & Hth & Hsp & Hu & t0 & Ht0 & Ht0s & Hbot).
  apply ends_demand in H as (d2 & runRow & w2 & l2 & S2 & Hrun & H).
  destruct runRow as [run|]; [|by apply ends_throw in H].
  apply insertRunRow_ok in Hrun as (-> & -> & Hnr & Hnn & Hnonce & [Es Eb Et Ek _ Eg _ _] & Hsrc & Hst). readOwn.
  apply ends_assoc, ends_demand in H as (d3 & seq & w3 & l3 & S3 & Hseq & H).
  apply requiredRow_ok in H as (q & -> & H).
  apply advanceMessages_ok in Hseq as (t & Ht & Hts & _ & -> & -> & -> & Hmax). readOwn.
  apply ends_demand in H as (d4 & [mid m] & w4 & l4 & S4 & Hm & H).
  apply insertMessageRow_ok in Hm as (m' & [= -> <-] & -> & -> & Hnm & Hat & Hby & Hmt & Hms & Hmr & Hrole & Hbl & Hmn).
  readOwn. apply ends_demand in H as (d5 & linked & w5 & l5 & S5 & Hl & H).
  apply linkSource_ok in Hl as (run' & Hr' & -> & -> & ->). readOwn.
  rewrite lookup_insert_eq in Hr'. injection Hr' as <-.
  apply ends_return in H as (S6 & -> & -> & ->). cbn [app crRun fst snd] in *.
  assert (rtc (others commits [OfTask (newTaskId ids)]) d1 db1) as C1 by chain.
  assert (rtc (others commits [OfRun (newRunId ids); OfNonce (rhSpace run) (rhNonce run)]) d2 db1) as C2 by chain.
  assert (rtc (others commits [OfThread (nrThread input)]) d3 db1) as C3 by chain.
  assert (rtc (others commits [OfThread (nrThread input); OfMessage (newMessageId ids)]) d4 db1) as C4 by chain.
  destruct (held_message_keys _ _ _ C4 (nrThread input) (msNonce m) (msSeq m)) as [Hby' Hat'];
    [inLocks|by rewrite Hmt in Hby|by rewrite Hmt in Hat|].
  cbn in Es, Eb, Et, Ek, Eg, Hmt, Hms, Hmr, Hmn, Hnonce.
  split_and!; [|by readOwn; rewrite lookup_insert_eq|cbn; congruence|exact Hnonce|done|cbn; congruence|cbn; congruence].
  apply commit_submission; try (inLocks; fail); try done; try congruence.
  - by rewrite (held_thread _ _ _ C3) by inLocks.
  - apply (held_task _ _ _ C1) in Hnt; [|inLocks]. apply (held_run _ _ _ C2) in Hnr; [|inLocks].
    apply (held_nonce _ _ _ C2) in Hnn; [|inLocks]. split_and!; try done. split_and!; try done; congruence.
  - apply (held_message _ _ _ C4) in Hnm; [|inLocks]. split_and!; try done; by rewrite Hmt.
Qed.

(** A body whose commits are steps. *)
Definition refines {A} (t : tx A) : Prop :=
  ∀ now db a ws held db1, commitsOf t now [] [] db (Ok a) ws held db1 →
    commits held db1 (overlay applyWrite ws db1).

Lemma steps_others held db db' : rtc (others commits held) db db' → steps db db'.
Proof. apply others_steps. Qed.

Lemma insertMessage_next db1 d th t id m held :
  rtc (others commits held) d db1 → messages d !! id = None → messageAt (msThread m) (msSeq m) d = None →
  messageByNonce (msThread m) (msNonce m) d = None → msThread m = th → msSeq m = thNextMessage t →
  OfThread th ∈ held → OfMessage id ∈ held → nextMessage db1 t id m.
Proof.
  intros C Hn Hat Hby <- Hq Hth Hid.
  destruct (held_message_keys _ _ _ C (msThread m) (msNonce m) (msSeq m)) as [Hby' Hat']; [done..|].
  split_and!; [by apply (held_message _ _ _ C)|done..].
Qed.

Lemma appendOnce_refines s input id : refines (appendOnce s input id).
Proof.
  intros now db a ws held db1 H. unfold appendOnce in H.
  apply ends_demand in H as (d1 & q & w1 & l1 & _ & Hseq & H).
  destruct q as [q|]; [|by apply ends_read in H as (? & _ & H); apply ends_throw in H].
  apply advanceMessages_ok in Hseq as (t & Ht & _ & Hg & -> & -> & -> & _). readOwn.
  destruct (runInThread _ _ _ _) as [run|] eqn:Hr; [|by bools]. apply runInThread_some in Hr as (Hr & _ & Hrt).
  apply ends_last in H as (d2 & w2 & l2 & S2 & Hm & -> & -> & S3).
  apply insertMessageRow_ok in Hm as (m & -> & -> & -> & Hn & Hat & Hby & Hmt & Hms & Hmr & _). readOwn.
  assert (rtc (others commits [OfThread (naThread input)]) d1 db1) as C1 by chain.
  destruct (steps_run d1 db1 _ _ (steps_others _ _ _ C1) Hr) as (run' & Hr' & []).
  apply commit_message with (r := naRun input) (run := run'); try (inLocks; fail); try done; try congruence.
  - by rewrite (held_thread _ _ _ C1) by inLocks.
  - apply (insertMessage_next _ _ _ _ _ _ _ S3 Hn Hat Hby Hmt Hms); inLocks.
Qed.

Lemma steerRefusal_throws s th r now ws held db a ws' held' db' :
  ¬ commitsOf (steerRefusal s th r) now ws held db (Ok a) ws' held' db'.
Proof.
  unfold steerRefusal. intros (d & _ & H)%ends_read. destruct (missingThreadOrRun _ _ _ _); try by apply ends_throw in H.
  case_bool_decide; [by apply ends_throw in H|]. apply ends_read in H as (d' & _ & H).
  by destruct (runInThread _ _ _ _); apply ends_throw in H.
Qed.

Lemma insertSteering_ok id bot row now db w l x :
  insertSteering id bot row now db = (Ok x, w, l) → w = [PutSteering {[ (id, bot) := row ]}] ∧ l = [].
Proof. unfold insertSteering. intros H. by sqlCases H. Qed.

Lemma steerOnce_refines actor input id : refines (steerOnce actor input id).
Proof.
  intros now db a ws held db1 H. unfold steerOnce in H.
  apply ends_demand in H as (d1 & q & w1 & l1 & _ & Hseq & H).
  destruct q as [[q bot]|]; [|by apply steerRefusal_throws in H].
  apply advanceMessages_ok in Hseq as (t & Ht & _ & Hg & [= -> ->] & -> & -> & _). readOwn.
  unfold liveRun in Hg. destruct (runInThread _ _ _ _) as [run|] eqn:Hr; [|done].
  apply runInThread_some in Hr as (Hr & _ & Hrt).
  apply ends_demand in H as (d2 & [mid m] & w2 & l2 & S2 & Hm & H).
  apply insertMessageRow_ok in Hm as (m' & [= -> <-] & -> & -> & Hn & Hat & Hby & Hmt & Hms & Hmr & _). readOwn.
  apply ends_demand in H as (d3 & [] & w3 & l3 & S3 & [-> ->]%insertSteering_ok & H).
  apply ends_return in H as (S4 & -> & -> & ->). readOwn.
  assert (rtc (others commits [OfThread (nsThread input)]) d1 db1) as C1 by chain.
  assert (rtc (others commits [OfThread (nsThread input); OfMessage id]) d2 db1) as C2 by chain.
  destruct (steps_run d1 db1 _ _ (steps_others _ _ _ C1) Hr) as (run' & Hr' & []).
  apply commit_steer with (r := nsRun input) (run := run'); try (inLocks; fail); try done; try congruence.
  - by rewrite (held_thread _ _ _ C1) by inLocks.
  - apply (insertMessage_next _ _ _ _ _ _ _ C2 Hn Hat Hby Hmt Hms); inLocks.
Qed.

Lemma messagesOf_in th db id m : messages db !! id = Some m → msThread m = th → id ∈ messagesOf th db.
Proof.
  intros Hm Ht. unfold messagesOf. apply list_elem_of_fmap. exists (id, m). split; [done|].
  rewrite list_elem_of_In. apply filter_In. split; [|by rewrite bool_decide_eq_true].
  by apply list_elem_of_In, elem_of_map_to_list.
Qed.

Lemma linkedRuns_in th db r run : runs db !! r = Some run → linkedTo th db run = true → r ∈ linkedRuns th db.
Proof.
  intros Hm Ht. unfold linkedRuns. apply list_elem_of_fmap. exists (r, run). split; [done|].
  rewrite list_elem_of_In. apply filter_In. split; [|done].
  by apply list_elem_of_In, elem_of_map_to_list.
Qed.

Lemma clearThread_refines s th : refines (clearThread s th).
Proof.
  intros now db a ws held db1 H. unfold clearThread in H.
  apply ends_demand in H as (d1 & row & w1 & l1 & _ & Ht & H). apply requiredRow_ok in H as (t' & -> & H).
  cbn [overlay foldl] in Ht. destruct (threadIn s th d1) as [t|] eqn:E; [|done]. injection Ht as <- <- <-.
  apply threadIn_some in E as [Ht <-].
  apply ends_demand in H as (d2 & [] & w2 & l2 & S2 & [= <- <-] & H).
  apply ends_demand in H as (d3 & [] & w3 & l3 & S3 & [= <- <-] & H).
  apply ends_return in H as (S4 & -> & -> & ->). cbn [app] in *.
  assert (rtc (others commits [OfThread th]) d1 db1) as C1 by chain.
  match type of S4 with context [rtc (others commits ?held)] => assert (rtc (others commits held) d3 db1) as C3 by done end.
  assert (OfThread th ∈ OfThread th :: (OfMessage <$> messagesOf th d3) ++ (OfRun <$> linkedRuns th d3)) as Hth by inLocks.
  apply commit_clear; [exact Hth|..].
  - intros r run Hr Hl. destruct (held_links _ _ _ C3 th r run Hth Hr Hl) as (run0 & Hr0 & Hl0).
    apply list_elem_of_further, elem_of_app. right. apply list_elem_of_fmap_2. by eapply linkedRuns_in.
  - intros id m Hm Hmt. apply (held_messages _ _ _ C3 th) in Hm; [|done..].
    apply list_elem_of_further, elem_of_app. left. apply list_elem_of_fmap_2. by eapply messagesOf_in.
  - by rewrite (held_thread _ _ _ C1) by inLocks.
Qed.

Lemma claimSteeringMessages_refines s r : refines (demand (claimSteeringMessages s r)).
Proof.
  intros now db a ws held db1 H. apply ends_last in H as (d1 & w & l & _ & Hc & -> & -> & S1).
  unfold claimSteeringMessages in Hc. readOwn. cbn [app] in *.
  destruct (runIn s r d1) as [run|]; [|injection Hc as <- <- <-; constructor].
  destruct (bool_decide _); [|injection Hc as <- <- <-; constructor]. injection Hc as _ <- <-.
  apply commit_claim. intros k row Hk.
  match goal with |- OfMessage k.1 ∈ ?locks ∧ _ => assert (OfMessage k.1 ∈ locks) as Hl end.
  { apply list_elem_of_fmap. exists (k, row). split; [done|]. by apply elem_of_map_to_list. }
  split; [done|]. rewrite (held_steering _ _ _ S1) by done.
  by apply map_lookup_filter_Some in Hk as [? [_ ?]].
Qed.

Lemma appendEvent_refines s e : refines (demand (appendEvent s e)).
Proof.
  intros now db a ws held db1 H. apply ends_last in H as (d1 & w & l & _ & Hc & -> & -> & S1).
  unfold appendEvent in Hc. cbn [overlay foldl app] in *. destruct (threadIn _ _ _) as [t|] eqn:Et; sqlCases Hc; try apply commit_nothing.
  apply threadIn_some in Et as [Ht <-]. bools.
  match goal with H : ¬ is_Some _ |- _ => apply eq_None_not_Some in H; rename H into Hn end.
  apply commit_event; [inLocks|by rewrite (held_thread _ _ _ S1) by inLocks|done|by rewrite (held_events _ _ _ S1) by inLocks].
Qed.

Lemma lockRoutineAt_ok s input now db r w l :
  lockRoutineAt s input now db = (Ok (Some r), w, l) →
  w = [] ∧ l = [OfRoutine (siRoutine input)] ∧ routineAt s (siRoutine input) (siScheduledFor input) db = Some r.
Proof. unfold lockRoutineAt. intros H. by sqlCases H. Qed.

Lemma lockRoutineAt_none s input now db w l : lockRoutineAt s input now db = (Ok None, w, l) → w = [].
Proof. unfold lockRoutineAt. intros H. by sqlCases H. Qed.

Lemma insertOccurrence_ok input id now db o w l :
  insertOccurrence input id now db = (Ok o, w, l) →
  l = [] ∧ match o with
  | None => w = []
  | Some o => o = {| ocId := id; ocRun := None |} ∧ w = [PutOccurrence (siRoutine input) (slotOf input) o] ∧
              occurrences db !! (siRoutine input, slotOf input) = None
  end.
Proof. unfold insertOccurrence. intros H. by sqlCases H. Qed.

Lemma advanceRoutine_ok s input now db w l :
  advanceRoutine s input now db = (Ok true, w, l) →
  ∃ r, routines db !! siRoutine input = Some r ∧ l = [OfRoutine (siRoutine input)] ∧
    w = [PutRoutine (siRoutine input) (withNextRun r (siNextRunAt input * 1000))].
Proof. unfold advanceRoutine. intros H. sqlCases H. by eexists. Qed.

Lemma linkOccurrence_ok input run now db o w l x :
  occurrences db !! (siRoutine input, slotOf input) = Some o → linkOccurrence input run now db = (Ok x, w, l) →
  l = [] ∧ w = [PutOccurrence (siRoutine input) (slotOf input) {| ocId := ocId o; ocRun := Some run |}].
Proof. unfold linkOccurrence. intros ->. by intros [= _ <- <-]. Qed.

Lemma insertRoutineTask_ok s id r now db task w l :
  insertRoutineTask s id r now db = (Ok task, w, l) →
  w = [PutTask id task] ∧ l = [OfTask id] ∧ tasks db !! id = None ∧ tkSpace task = s ∧
  tkBot task = roBot r ∧ tkThread task = roThread r ∧ tkUser task = roUser r.
Proof. intros (row & -> & ? & ? & ? & ? & ? & ? & ?)%insertTaskRow_ok. by split_and!. Qed.

Lemma textParameter_some s t : textParameter s = Some t → t = encodeText s.
Proof. unfold textParameter. destruct (includes _ _); [done|]. by intros [= <-]. Qed.

Lemma testRoutineOnce_refines s id nonce taskId runId : refines (testRoutineOnce s id nonce taskId runId).
Proof.
  intros now db a ws held db1 H. unfold testRoutineOnce in H.
  apply ends_read in H as (d1 & _ & H). apply requiredRow_ok in H as (r & _ & H).
  apply ends_demand in H as (d2 & task & w2 & l2 & _ & Htask & H).
  apply insertRoutineTask_ok in Htask as (-> & -> & Hnt & Hsp & Hbot & Hth & Hu). readOwn.
  apply ends_demand in H as (d3 & runRow & w3 & l3 & S3 & Hrun & H).
  destruct runRow as [run|]; [|by apply ends_throw in H].
  apply insertRunRow_ok in Hrun as (-> & -> & Hnr & Hnn & Hnonce & [Es Eb Et Ek _ Eg _ _] & Hsrc & _). readOwn.
  apply ends_return in H as (S4 & -> & -> & ->). readOwn.
  assert (rtc (others commits [OfTask taskId]) d2 db1) as C2 by chain.
  cbn in Es, Eb, Et, Ek, Eg.
  apply commit_test_run; try (inLocks; fail); [done|].
  split_and!; [apply (held_task _ _ _ C2); [inLocks|done]|apply (held_run _ _ _ S4); [inLocks|done]
              |apply (held_nonce _ _ _ S4); [inLocks|done]|]. split_and!; congruence.
Qed.

(** The ledger has the occurrence a settlement answers with. *)
Definition settled (input : SlotInput) (o : option OccurrenceRow) (db : Conversations) : Prop :=
  match o with Some o => occurrences db !! (siRoutine input, slotOf input) = Some o | None => True end.

Definition firedOccurrence (c : CreatedRoutineRun) : OccurrenceRow :=
  {| ocId := rrOccurrence c; ocRun := Some (rrRun c).1 |}.

Lemma fireRoutineOnce_commits s input ids now db a ws held db1 :
  commitsOf (fireRoutineOnce s input ids) now [] [] db (Ok a) ws held db1 →
  commits held db1 (overlay applyWrite ws db1) ∧ settled input (firedOccurrence <$> a) (overlay applyWrite ws db1) ∧
  (∀ c, a = Some c → (rrRun c).1 = fireRun ids ∧ runs (overlay applyWrite ws db1) !! fireRun ids = Some (rrRun c).2 ∧
     rhSpace (rrRun c).2 = s ∧ rhTrigger (rrRun c).2 = routine_trigger).
Proof.
  intros H. unfold fireRoutineOnce in H.
  apply ends_demand in H as (d1 & firing & w1 & l1 & _ & Hf & H).
  destruct firing as [r|].
  2: { apply lockRoutineAt_none in Hf as ->. apply ends_return in H as (_ & -> & -> & _). by split_and!; [constructor|..]. }
  apply lockRoutineAt_ok in Hf as (-> & -> & Hr). readOwn.
  apply ends_demand in H as (d2 & occ & w2 & l2 & S2 & [-> Ho]%insertOccurrence_ok & H). readOwn.
  destruct occ as [o|]; [|subst w2; by apply ends_return in H as (_ & -> & -> & _); split_and!; [constructor|..]].
  destruct Ho as (-> & -> & Hno). readOwn.
  apply ends_demand in H as (d3 & task & w3 & l3 & S3 & Htask & H).
  apply insertRoutineTask_ok in Htask as (-> & -> & Hnt & Hsp & Hbot & Hth & Hu). readOwn.
  apply ends_demand in H as (d4 & runRow & w4 & l4 & S4 & Hrun & H).
  destruct runRow as [run|]; [|by apply ends_throw in H].
  apply insertRunRow_ok in Hrun as (-> & -> & Hnr & Hnn & Hnonce & [Es Eb Et Ek _ Eg _ _] & Hsrc & _). readOwn.
  apply ends_demand in H as (d5 & [] & w5 & l5 & S5 & Hl & H).
  apply (linkOccurrence_ok _ _ _ _ {| ocId := fireOccurrence ids; ocRun := None |}) in Hl as (-> & ->);
    [|by readOwn; rewrite lookup_insert_eq]. readOwn.
  apply ends_demand in H as (d6 & adv & w6 & l6 & S6 & Ha & H).
  destruct adv; [|by apply ends_throw in H].
  apply advanceRoutine_ok in Ha as (r' & Hr' & -> & ->). readOwn.
  apply ends_return in H as (S7 & -> & -> & ->). readOwn.
  assert (rtc (others commits [OfRoutine (siRoutine input)]) d1 d6) as C16 by chain.
  assert (rtc (others commits [OfRoutine (siRoutine input)]) d1 db1) as C1 by chain.
  assert (rtc (others commits [OfRoutine (siRoutine input)]) d2 db1) as C2 by chain.
  assert (rtc (others commits [OfTask (fireTask ids)]) d3 db1) as C3 by chain.
  assert (rtc (others commits [OfRun (fireRun ids); OfNonce (rhSpace run) (rhNonce run)]) d4 db1) as C4 by chain.
  apply routineAt_some in Hr as Hr''. destruct Hr'' as [[Hr2 _]%liveRoutine_some _].
  rewrite (held_routine _ _ _ C16) in Hr' by inLocks. rewrite Hr2 in Hr'. injection Hr' as <-.
  cbn in Es, Eb, Et, Ek, Eg, Hnonce. cbn [ocId].
  split_and!; [|by cbn; rewrite lookup_insert_eq
                |intros ? [= <-]; cbn; rewrite lookup_insert_eq; split_and!; congruence]. apply commit_fire; try (inLocks; fail); [|by rewrite (held_slots _ _ _ C2) by inLocks|done| |by apply textParameter_some].
  - rewrite (held_routineAt _ _ _ C1) by inLocks. by rewrite Es.
  - split_and!; [apply (held_task _ _ _ C3); [inLocks|done]|apply (held_run _ _ _ C4); [inLocks|done]
                |apply (held_nonce _ _ _ C4); [inLocks|done]|]. split_and!; congruence.
Qed.

Lemma recordMissedOnce_commits s input id now db a ws held db1 :
  commitsOf (recordMissedOnce s input id) now [] [] db (Ok a) ws held db1 →
  commits held db1 (overlay applyWrite ws db1) ∧ settled input a (overlay applyWrite ws db1) ∧
  (∀ o, a = Some o → ocRun o = None).
Proof.
  intros H. unfold recordMissedOnce in H.
  apply ends_demand in H as (d1 & firing & w1 & l1 & _ & Hf & H).
  destruct firing as [r|].
  2: { apply lockRoutineAt_none in Hf as ->. apply ends_return in H as (_ & -> & -> & _). by split_and!; [constructor|..]. }
  apply lockRoutineAt_ok in Hf as (-> & -> & Hr). readOwn.
  apply ends_demand in H as (d2 & occ & w2 & l2 & S2 & [-> Ho]%insertOccurrence_ok & H). readOwn.
  destruct occ as [o|]; [|subst w2; by apply ends_return in H as (_ & -> & -> & _); split_and!; [constructor|..]].
  destruct Ho as (-> & -> & Hno). readOwn.
  apply ends_demand in H as (d6 & adv & w6 & l6 & S6 & Ha & H).
  destruct adv; [|by apply ends_throw in H].
  apply advanceRoutine_ok in Ha as (r' & Hr' & -> & ->). readOwn.
  apply ends_return in H as (S7 & -> & -> & ->). readOwn.
  assert (rtc (others commits [OfRoutine (siRoutine input)]) d1 d6) as C16 by chain.
  assert (rtc (others commits [OfRoutine (siRoutine input)]) d1 db1) as C1 by chain.
  assert (rtc (others commits [OfRoutine (siRoutine input)]) d2 db1) as C2 by chain.
  apply routineAt_some in Hr as Hr''. destruct Hr'' as [[Hr2 _]%liveRoutine_some _].
  rewrite (held_routine _ _ _ C16) in Hr' by inLocks. rewrite Hr2 in Hr'. injection Hr' as <-.
  split_and!; [|by cbn; rewrite lookup_insert_eq|by intros ? [= <-]]. apply commit_missed with (spaceId := s); [inLocks|by rewrite (held_routineAt _ _ _ C1) by inLocks
                          |by rewrite (held_slots _ _ _ C2) by inLocks].
Qed.

Lemma fireRoutineOnce_refines s input ids : refines (fireRoutineOnce s input ids).
Proof. intros now db a ws held db1 He. by apply fireRoutineOnce_commits in He as [? _]. Qed.

Lemma recordMissedOnce_refines s input id : refines (recordMissedOnce s input id).
Proof. intros now db a ws held db1 He. by apply recordMissedOnce_commits in He as [? _]. Qed.

(** ** Routines at the operator's hand *)

Lemma removeRoutine_refines s id :
  refines (row ← demand (λ now db,
             match liveRoutine s id db with
             | Some r => (Ok (Some (removedRoutine r now)), [PutRoutine id (removedRoutine r now)], [OfRoutine id])
             | None => nothing (Ok None)
             end);
           requiredRow row (u "routine") id).
Proof.
  intros now db a ws held db1 H. apply ends_demand in H as (d1 & row & w & l & _ & Hc & H).
  destruct (liveRoutine s id _) as [r|] eqn:Er; [|by injection Hc as <- <- <-; apply ends_throw in H].
  injection Hc as <- <- <-. apply ends_return in H as (S1 & -> & -> & ->). readOwn.
  apply liveRoutine_some in Er as [Hr _].
  apply commit_routine_edit with (r := r); [inLocks|by rewrite (held_routine _ _ _ S1) by inLocks|by split].
Qed.

Lemma updateRoutineRow_refines s id patch next :
  refines (row ← demand (updateRoutineRow s id patch next); requiredRow row (u "routine") id).
Proof.
  intros now db a ws held db1 H. apply ends_demand in H as (d1 & row & w & l & _ & Hc & H).
  unfold updateRoutineRow in Hc. sqlCases Hc; [|by destruct H as (_ & ? & _)].
  destruct H as (S1 & [= ->] & -> & ->). readOwn.
  match goal with H : liveRoutine _ _ _ = Some _ |- _ => apply liveRoutine_some in H as [Hr _] end.
  eapply commit_routine_edit; [inLocks|by rewrite (held_routine _ _ _ S1) by inLocks|by split].
Qed.

Lemma insertThread_ok actor bot id now db x w l :
  insertThread actor bot id now db = (Ok (Some x), w, l) →
  x = id ∧ l = [OfThread id] ∧ threads db !! id = None ∧
  ∃ t, w = [PutThread id t] ∧ thNextMessage t = 0%Z ∧ thNextEvent t = 0%Z.
Proof.
  unfold insertThread. intros H. sqlCases H.
  match goal with H : bool_decide (is_Some _) = false |- _ => apply not_some in H end.
  split_and!; try done. by eexists.
Qed.

Lemma insertRoutine_ok id r now db x w l :
  insertRoutine id r now db = (Ok x, w, l) →
  w = [PutRoutine id x] ∧ l = [OfRoutine id] ∧ routines db !! id = None.
Proof.
  unfold insertRoutine, withText. intros H. sqlCases H.
  match goal with H : bool_decide (is_Some _) = false |- _ => apply not_some in H end. done.
Qed.

Section routines.
Context `{Timezones}.

Lemma createRoutineOnce_refines actor input cron threadId routineId :
  refines (createRoutineOnce actor input cron threadId routineId).
Proof.
  intros now db a ws held db1 Hb. unfold createRoutineOnce, readClock in Hb.
  destruct Hb as (d0 & _ & Hb). apply ends_demand in Hb as (d1 & created & w1 & l1 & _ & Ht & Hb).
  apply requiredRow_ok in Hb as (x & -> & Hb).
  apply insertThread_ok in Ht as (-> & -> & Hnt & t & -> & Hm & He). readOwn.
  destruct (scheduleBoundary _) as [next|]; [|by apply ends_throw in Hb].
  apply ends_demand in Hb as (d2 & row & w2 & l2 & S2 & Hr & Hb).
  apply insertRoutine_ok in Hr as (-> & -> & Hnr). readOwn.
  apply ends_return in Hb as (S3 & -> & -> & ->). readOwn.
  assert (rtc (others commits [OfThread threadId]) d1 db1) as C1 by chain.
  apply commit_routine; try (inLocks; fail); try done.
  - by rewrite (held_thread _ _ _ C1) by inLocks.
  - by rewrite (held_routine _ _ _ S3) by inLocks.
Qed.

(** ** Bodies that only read *)

Fixpoint readsOnly {A} (t : tx A) : Prop :=
  match t with
  | Ask stmt k => (∀ now db, (stmt now db).1.2 = []) ∧ ∀ x, readsOnly (k x)
  | _ => True
  end.

Lemma readsOnly_ends {A} (t : tx A) now ws held db a ws' held' db' :
  readsOnly t → commitsOf t now ws held db (Ok a) ws' held' db' → ws' = ws.
Proof.
  revert ws held db. induction t as [x|e|X stmt k IH]; intros ws held db; cbn [readsOnly ends].
  - by intros _ (_ & _ & -> & _).
  - by intros _ (_ & ? & _).
  - intros [Hs Hk] (d & _ & H'). specialize (Hs now (overlay applyWrite ws d)).
    destruct (stmt now (overlay applyWrite ws d)) as [[x w] l]. cbn in Hs. subst w.
    apply IH in H'; [|done]. by rewrite app_nil_r in H'.
Qed.

Lemma readsOnly_refines {A} (t : tx A) : readsOnly t → refines t.
Proof. intros Ht now db a ws held db1 He. apply readsOnly_ends in He as ->; [constructor|done]. Qed.

Lemma readsOnly_bind {A B} (t : tx A) (f : A → tx B) :
  readsOnly t → (∀ a, readsOnly (f a)) → readsOnly (t ≫= f).
Proof.
  intros Ht Hf. induction t as [x|e|X stmt k IH]; [apply Hf|done|]. destruct Ht as [Hs Hk].
  split; [done|]. intros x. by apply IH.
Qed.

(** ** A command, transaction by transaction *)

Fixpoint scriptRefines {A} (s : call A) : Prop :=
  match s with
  | Finish _ => True
  | Transact t k => refines t ∧ ∀ r, scriptRefines (k r)
  end.

Lemma scriptRefines_steps {A} (s : call A) db a db' :
  scriptRefines s → scriptRuns applyWrite ConnectionLost commits s db a db' → steps db db'.
Proof.
  revert db. induction s as [x|B t k IH]; intros db.
  - by intros _ [_ ->].
  - intros [Ht Hk] (now & db1 & r & db2 & S1 & Hr & H'). etrans; [exact S1|].
    apply IH in H'; [|done]. etrans; [|exact H']. eapply txRuns_steps; [|exact Hr].
    intros x ws held d He. eapply rtc_once. eexists. by eapply Ht.
Qed.

Lemma scriptRefines_map {A B} (s : call A) (f : A → B) : scriptRefines s → scriptRefines (script_map s f).
Proof. induction s as [x|C t k IH]; [done|]. intros [Ht Hk]. split; [done|]. intros r. by apply IH. Qed.
End routines.
