(* ===== verification/ConversationInvariants.v ===== *)
(** What the conversation tables satisfy after any commits of any callers: transcripts
    without gaps, runs and tasks in pairs, nonces that name one row, links that lead
    somewhere; and the commands, all of which refine the commit rules. *)

From S2P Require Import Prelude JsText JsValue Json RunState Messaging Transactions RunTables RoutineSchedule.
From S2P Require Import Conversations MessageStore RunCreation RoutineStore ConversationSteps.

(** The transcript of a thread: one message per position below its counter. *)
Definition gapless (db : Conversations) : Prop :=
  ∀ t row, threads db !! t = Some row → (0 ≤ thNextMessage row)%Z ∧
    ∀ q, (0 ≤ q < thNextMessage row)%Z → ∃ id m, messages db !! id = Some m ∧ msThread m = t ∧ msSeq m = q.

Definition positioned (db : Conversations) : Prop :=
  ∀ id m, messages db !! id = Some m →
    ∃ row, threads db !! msThread m = Some row ∧ (0 ≤ msSeq m < thNextMessage row)%Z.

Definition onePosition (db : Conversations) : Prop :=
  ∀ id id' m m', messages db !! id = Some m → messages db !! id' = Some m' →
    msThread m = msThread m' → msSeq m = msSeq m' ∨ msNonce m = msNonce m' → id = id'.

Definition messageRuns (db : Conversations) : Prop :=
  ∀ id m r, messages db !! id = Some m → msRun m = Some r →
    ∃ run, runs db !! r = Some run ∧ rhThread run = msThread m.

(** A run and its task are one pair. *)
Definition runTasks (db : Conversations) : Prop :=
  ∀ r run, runs db !! r = Some run →
    ∃ task, tasks db !! rhTask run = Some task ∧
      tkSpace task = rhSpace run ∧ tkBot task = rhBot run ∧ tkThread task = rhThread run.

Definition taskRuns (db : Conversations) : Prop :=
  ∀ t task, tasks db !! t = Some task → ∃ r run, runs db !! r = Some run ∧ rhTask run = t.

Definition oneRun (db : Conversations) : Prop :=
  ∀ r r' run run', runs db !! r = Some run → runs db !! r' = Some run' →
    rhTask run = rhTask run' ∨ (rhSpace run = rhSpace run' ∧ rhNonce run = rhNonce run') → r = r'.

Definition sources (db : Conversations) : Prop :=
  ∀ r run m, runs db !! r = Some run → rhSource run = Some m →
    ∃ row, messages db !! m = Some row ∧ msThread row = rhThread run ∧ msRun row = Some r ∧
      msNonce row = rhNonce run.

Definition steers (db : Conversations) : Prop :=
  ∀ k row, steering db !! k = Some row →
    ∃ m t, messages db !! k.1 = Some m ∧ msRun m = srRun row ∧ is_Some (srRun row) ∧
      threads db !! msThread m = Some t ∧ thBot t = k.2.

Definition fires (db : Conversations) : Prop :=
  ∀ id slot o r, occurrences db !! (id, slot) = Some o → ocRun o = Some r →
    ∃ run, runs db !! r = Some run ∧ rhTrigger run = routine_trigger ∧
      rhNonce run = encodeText (routineRunNonce id (columnDate slot)).

Definition eventCounters (db : Conversations) : Prop :=
  ∀ t s ev, events db !! (t, s) = Some ev →
    ∃ row, threads db !! t = Some row ∧ thSpace row = evSpace ev ∧ (s < thNextEvent row)%Z.

Record wf (db : Conversations) : Prop := {
  wf_gapless : gapless db; wf_positioned : positioned db; wf_onePosition : onePosition db;
  wf_messageRuns : messageRuns db; wf_runTasks : runTasks db; wf_taskRuns : taskRuns db;
  wf_oneRun : oneRun db; wf_sources : sources db; wf_steers : steers db; wf_fires : fires db;
  wf_eventCounters : eventCounters db }.

Ltac rows :=
  repeat match goal with H : sameRun _ _ |- _ => destruct H end.

(** ** What a commit does to the transcripts, and to the runs *)

Inductive transcriptStep (db db' : Conversations) : Prop :=
| transcript_same :
    messages db' = messages db →
    (∀ t row', threads db' !! t = Some row' →
       (∃ row, threads db !! t = Some row ∧ thNextMessage row = thNextMessage row') ∨
       (threads db !! t = None ∧ thNextMessage row' = 0%Z)) →
    transcriptStep db db'
| transcript_said t mid m r run :
    msRun m = Some r → runs db' !! r = Some run → rhThread run = msThread m →
    threads db !! msThread m = Some t → nextMessage db t mid m →
    threads db' = <[msThread m := withNextMessage t (thNextMessage t + 1)]> (threads db) →
    messages db' = <[mid := m]> (messages db) → transcriptStep db db'
| transcript_cleared th t :
    threads db !! th = Some t → threads db' = <[th := resetThread t]> (threads db) →
    messages db' = filter (λ kv, msThread kv.2 ≠ th) (messages db) → transcriptStep db db'.

Lemma commits_transcript ks db db' : commits ks db db' → transcriptStep db db'.
Proof.
  intros Hc. commitCases Hc.
  all: try by (eapply transcript_said; cbn; try reflexivity; eauto; congruence).
  all: try by eapply transcript_cleared.
  3: { eapply (transcript_said _ _ t mid m); cbn; [eassumption|apply lookup_insert_eq|..]; try congruence.
       unfold newTaskAndRun, runOf in *. destruct_and?. cbn. congruence. }
  all: apply transcript_same; [done|]; cbn; intros th' row' Hr; keyCases; simplify_eq; eauto.
Qed.

Inductive runsStep (db db' : Conversations) : Prop :=
| runs_same :
    tasks db' = tasks db →
    (∀ r run', runs db' !! r = Some run' → ∃ run, runs db !! r = Some run ∧ sameRun run run') →
    runsStep db db'
| runs_new taskId runId task run source :
    newTaskAndRun db taskId runId task run →
    tasks db' = <[taskId := task]> (tasks db) →
    runs db' = <[runId := withSource run source]> (runs db) → runsStep db db'.

Lemma withSource_id run : withSource run (rhSource run) = run.
Proof. by destruct run. Qed.

Lemma commits_runs ks db db' : commits ks db db' → runsStep db db'.
Proof.
  intros Hc. commitCases Hc.
  all: try by (eapply runs_new; [eassumption|done|cbn; rewrite ?insert_insert_eq; first [done|by rewrite withSource_id]]).
  all: try by (apply runs_same; [done|]; intros id' row' Hr; exists row'; split; [exact Hr|reflexivity]).
  - apply runs_same; [done|]. cbn. intros r run'. rewrite lookup_fmap. intros (run & -> & ->)%fmap_Some.
    exists run. split; [done|]. apply unlinked_same.
  - apply runs_same; [done|]. cbn. intros id' run' Hr. keyCases; simplify_eq; eauto. by exists run'.
Qed.

Lemma lookup_insert_fresh {A} (m : gmap jstr A) k x k' y :
  m !! k = None → m !! k' = Some y → <[k := x]> m !! k' = Some y.
Proof. intros ? ?. rewrite lookup_insert_ne; congruence. Qed.

(** A position below its thread's counter, which only grows. *)
Lemma covered_insert (m : gmap jstr ThreadRow) k t' th sp s :
  (∃ row, m !! th = Some row ∧ thSpace row = sp ∧ (s < thNextEvent row)%Z) →
  (∀ t, m !! k = Some t → thSpace t' = thSpace t ∧ (thNextEvent t <= thNextEvent t')%Z) →
  ∃ row, <[k := t']> m !! th = Some row ∧ thSpace row = sp ∧ (s < thNextEvent row)%Z.
Proof.
  intros (row & Hr & <- & Hs) Hk. destruct (decide (k = th)) as [->|]; [|exists row; by rewrite lookup_insert_ne].
  destruct (Hk _ Hr) as [<- ?]. exists t'. rewrite lookup_insert_eq. split_and!; [done..|lia].
Qed.

(** The positions of a thread, read off a commit's effect. *)
Section preserved.
Context (ks : list lock) (db db' : Conversations) (Hc : commits ks db db') (Hw : wf db).

Lemma gapless_kept : gapless db'.
Proof using Hc Hw.
  intros th row Ht. pose proof (wf_gapless _ Hw) as Hg.
  destruct (commits_transcript _ _ _ Hc) as [Em Eth|t mid m ? ? _ _ _ Et Hn Eth Em|tc t Et Eth Em].
  - destruct (Eth _ _ Ht) as [(row0 & Ht0 & <-)|[_ ->]]; [|split; [lia|intros; lia]].
    rewrite Em. by apply Hg.
  - destruct (Hg _ _ Et) as [H0 Hq]. destruct Hn as (Hfree & Hseq & _). rewrite Eth in Ht. rewrite Em. keyCases.
    + simplify_eq. cbn. split; [lia|]. intros q Hlt. destruct (decide (q = thNextMessage t)) as [->|].
      * exists mid, m. by rewrite lookup_insert_eq.
      * destruct (Hq q) as (id & m' & Hm & ? & ?); [lia|]. exists id, m'. split; [|done].
        rewrite lookup_insert_ne; congruence.
    + destruct (Hg _ _ Ht) as [? Hq']. split; [done|]. intros q Hlt.
      destruct (Hq' q Hlt) as (id & m' & Hm & ? & ?). exists id, m'. split; [|done].
      rewrite lookup_insert_ne; congruence.
  - rewrite Eth in Ht. keyCases; [by simplify_eq; cbn; split; [lia|intros; lia]|].
    destruct (Hg _ _ Ht) as [? Hq]. split; [done|]. intros q Hlt.
    destruct (Hq q Hlt) as (id & m & Hm & ? & ?). exists id, m. split; [|done].
    rewrite Em, map_lookup_filter_Some. split; [done|]. cbn. congruence.
Qed.

Lemma positioned_kept : positioned db'.
Proof using Hc Hw.
  intros id m' Hm. pose proof (wf_positioned _ Hw) as Hp.
  destruct (commits_transcript _ _ _ Hc) as [Em Eth|t mid m ? ? _ _ _ Et Hn Eth Em|tc t Et Eth Em]; rewrite Em in Hm.
  - destruct (Hp _ _ Hm) as (row & Hr & Hb). destruct (kept_thread _ _ _ Hc _ _ Hr) as (row' & Hr' & _).
    exists row'. split; [done|]. destruct (Eth _ _ Hr') as [(? & ? & ?)|[? _]]; simplify_eq. by rewrite <- H0.
  - destruct Hn as (_ & Hs & _). destruct (wf_gapless _ Hw _ _ Et) as [? _]. rewrite Eth.
    apply lookup_insert_Some in Hm as [[<- <-]|[_ Hm]].
    + eexists. split; [apply lookup_insert_eq|]. cbn. lia.
    + destruct (Hp _ _ Hm) as (row & Hr & Hb). destruct (decide (msThread m = msThread m')) as [E|].
      * rewrite E, lookup_insert_eq. eexists. split; [done|]. cbn. rewrite <- E in Hr. simplify_eq. lia.
      * exists row. by rewrite lookup_insert_ne.
  - apply map_lookup_filter_Some in Hm as [Hm Hne]. cbn in Hne. destruct (Hp _ _ Hm) as (row & Hr & Hb).
    exists row. split; [|done]. rewrite Eth, lookup_insert_ne; congruence.
Qed.

Lemma onePosition_kept : onePosition db'.
Proof using Hc Hw.
  intros id id' m m'. pose proof (wf_onePosition _ Hw) as Ho.
  destruct (commits_transcript _ _ _ Hc) as [Em _|t mid n ? ? _ _ _ Et Hn _ Em|tc t _ _ Em]; rewrite Em.
  - apply Ho.
  - destruct Hn as (_ & _ & Hby & Hat). rewrite messageByNonce_none in Hby. rewrite messageAt_none in Hat. intros Hm Hm' Et' Hs.
    apply lookup_insert_Some in Hm as [[<- <-]|[_ Hm]], Hm' as [[<- <-]|[_ Hm']]; [done|..|by eapply Ho];
      exfalso; destruct Hs; eauto.
  - intros [Hm _]%map_lookup_filter_Some [Hm' _]%map_lookup_filter_Some. by apply Ho.
Qed.

Lemma runTasks_kept : runTasks db'.
Proof using Hc Hw.
  intros r run' Hr. destruct (commits_runs _ _ _ Hc) as [Et Er|k id task run source Hn Et Er].
  - destruct (Er _ _ Hr) as (run & Hr0 & []). destruct (wf_runTasks _ Hw _ _ Hr0) as (task & Ht & ? & ? & ?).
    exists task. rewrite Et. split_and!; congruence.
  - destruct Hn as (Hk & Hid & _ & Hs & Hb & Hth & Hkt & _). rewrite Er in Hr. rewrite Et.
    apply lookup_insert_Some in Hr as [[<- <-]|[_ Hr]].
    + exists task. rewrite <- Hkt. cbn. rewrite Hkt. split; [apply lookup_insert_eq|done].
    + destruct (wf_runTasks _ Hw _ _ Hr) as (task' & Ht & ?). exists task'. split; [|done].
      rewrite lookup_insert_ne; congruence.
Qed.

Lemma taskRuns_kept : taskRuns db'.
Proof using Hc Hw.
  intros k task Hk. destruct (commits_runs _ _ _ Hc) as [Et Er|k' id task' run source Hn Et Er]; rewrite Et in Hk.
  - destruct (wf_taskRuns _ Hw _ _ Hk) as (r & run & Hr & <-).
    destruct (kept_run _ _ _ Hc _ _ Hr) as (run' & Hr' & []). by exists r, run'.
  - destruct Hn as (_ & _ & _ & _ & _ & _ & Hkt & _).
    apply lookup_insert_Some in Hk as [[<- <-]|[_ Hk]].
    + exists id, (withSource run source). by rewrite Er, lookup_insert_eq.
    + destruct (wf_taskRuns _ Hw _ _ Hk) as (r & run0 & Hr & <-).
      destruct (kept_run _ _ _ Hc _ _ Hr) as (run' & Hr' & []). by exists r, run'.
Qed.

Lemma oneRun_kept : oneRun db'.
Proof using Hc Hw.
  intros r1 r2 run1 run2 H1 H2 Hor. pose proof (wf_oneRun _ Hw) as Ho.
  destruct (commits_runs _ _ _ Hc) as [_ Er|k id task run source Hn _ Er].
  - destruct (Er _ _ H1) as (? & ? & []), (Er _ _ H2) as (? & ? & []).
    eapply Ho; [done..|]. destruct Hor as [|[]]; [left|right; split]; congruence.
  - destruct Hn as (Hk & Hid & Hby & Hs & Hb & Hth & Hkt & _). rewrite runByNonce_none in Hby.
    assert (∀ r run0, runs db !! r = Some run0 →
      rhTask run0 = rhTask run ∨ (rhSpace run0 = rhSpace run ∧ rhNonce run0 = rhNonce run) → False) as Hfree.
    { intros r run0 Hr [E|[]]; [|by eapply Hby]. destruct (wf_runTasks _ Hw _ _ Hr) as (? & ? & _). congruence. }
    rewrite Er in H1, H2.
    apply lookup_insert_Some in H1 as [[<- <-]|[_ H1]], H2 as [[<- <-]|[_ H2]]; [done|..|by eapply Ho]; exfalso.
    + apply (Hfree _ _ H2). destruct Hor as [|[]]; auto.
    + apply (Hfree _ _ H1). destruct Hor as [|[]]; auto.
Qed.

Lemma messageRuns_kept : messageRuns db'.
Proof using Hc Hw.
  intros id m r Hm Hr. assert (∀ id, messages db !! id = Some m →
    ∃ run, runs db' !! r = Some run ∧ rhThread run = msThread m) as Hold.
  { intros i Hi. destruct (wf_messageRuns _ Hw _ _ _ Hi Hr) as (run & Hrun & <-).
    destruct (kept_run _ _ _ Hc _ _ Hrun) as (run' & Hr' & []). by exists run'. }
  destruct (commits_transcript _ _ _ Hc) as [Em _|t mid n q run Hq Hrun Ht _ _ _ Em|tc t _ _ Em]; rewrite Em in Hm.
  - by eapply Hold.
  - apply lookup_insert_Some in Hm as [[<- <-]|[_ Hm]]; [|by eapply Hold]. simplify_eq. by exists run.
  - apply map_lookup_filter_Some in Hm as [Hm _]. by eapply Hold.
Qed.

(** A message stays as it is unless its thread is cleared. *)
Lemma kept_message id m : messages db !! id = Some m → messages db' !! id = Some m ∨ messages db' !! id = None.
Proof using Hc.
  intros Hm. destruct (commits_transcript _ _ _ Hc) as [Em _|t mid n ? ? _ _ _ _ (Hf & _) _ Em|tc t _ _ Em]; rewrite Em.
  - by left.
  - left. rewrite lookup_insert_ne; congruence.
  - destruct (filter _ _ !! id) as [m'|] eqn:E; [left|by right].
    apply map_lookup_filter_Some in E as [? _]. congruence.
Qed.

Lemma sources_kept : sources db'.
Proof using Hc Hw.
  intros r run' m Hr Hs. pose proof (wf_sources _ Hw) as Hso. unfold sources in Hso.
  commitCases Hc; unfold newTaskAndRun, nextMessage, runOf in *; destruct_and?; try (by eapply Hso).
  - rewrite insert_insert_eq in Hr. apply lookup_insert_Some in Hr as [[<- <-]|[_ Hr]].
    + injection Hs as <-. eexists. split; [apply lookup_insert_eq|]. cbn. split_and!; congruence.
    + destruct (Hso _ _ _ Hr Hs) as (row & Hm & ?). exists row. split; [by apply lookup_insert_fresh|done].
  - destruct (Hso _ _ _ Hr Hs) as (row & Hm & ?). exists row. split; [by apply lookup_insert_fresh|done].
  - destruct (Hso _ _ _ Hr Hs) as (row' & Hm & ?). exists row'. split; [by apply lookup_insert_fresh|done].
  - rewrite lookup_fmap in Hr. apply fmap_Some in Hr as (run & Hr & ->). unfold unlinked in Hs |- *.
    destruct (rhSource run) as [m'|] eqn:E; [|congruence]. destruct (decide _) as [|Hin]; [done|].
    rewrite E in Hs. injection Hs as ->. destruct (Hso _ _ _ Hr E) as (row & Hm & ?). exists row. split; [|done].
    apply map_lookup_filter_Some. split; [done|]. cbn. intros <-. apply Hin. unfold inThread. cbn. by rewrite Hm.
  - apply lookup_insert_Some in Hr as [[<- <-]|[_ Hr]]; [congruence|by eapply Hso].
  - apply lookup_insert_Some in Hr as [[<- <-]|[_ Hr]]; [congruence|by eapply Hso].
  - apply lookup_insert_Some in Hr as [[<- <-]|[_ Hr]]; [|by eapply Hso]. rows.
    edestruct Hso as (row & ? & ? & ? & ?); [eassumption|by rewrite <- Hs|]. exists row. split_and!; congruence.
Qed.

Lemma steers_kept : steers db'.
Proof using Hc Hw.
  intros k row Hk. assert (∀ row0, steering db !! k = Some row0 → srRun row0 = srRun row →
    (∀ m, messages db !! k.1 = Some m → messages db' !! k.1 = Some m) →
    ∃ m t, messages db' !! k.1 = Some m ∧ msRun m = srRun row ∧ is_Some (srRun row) ∧
      threads db' !! msThread m = Some t ∧ thBot t = k.2) as Hold.
  { intros row0 Hk0 Hr Hm. destruct (wf_steers _ Hw _ _ Hk0) as (m & t & Hm0 & ? & ? & Ht & Hb).
    destruct (kept_thread _ _ _ Hc _ _ Ht) as (t' & Ht' & []). exists m, t'.
    split_and!; [by apply Hm|congruence|by rewrite <- Hr|done|congruence]. }
  commitCases Hc; unfold nextMessage in *; destruct_and?; try (by eapply Hold).
  - eapply Hold; [exact Hk|done|]. intros n Hn. by apply lookup_insert_fresh.
  - eapply Hold; [exact Hk|done|]. intros n Hn. by apply lookup_insert_fresh.
  - apply lookup_union_Some_raw in Hk as [[<- <-]%lookup_singleton_Some|[_ Hk]].
    + cbn. exists m, (withNextMessage t (thNextMessage t + 1)). rewrite !lookup_insert_eq.
      split_and!; [done|congruence|by eexists|done..].
    + eapply Hold; [exact Hk|done|]. intros n Hn. by apply lookup_insert_fresh.
  - apply map_lookup_filter_Some in Hk as [Hk Hin]. eapply Hold; [exact Hk|done|]. intros n Hn.
    apply map_lookup_filter_Some. split; [done|]. cbn in *. intros <-. apply Hin. unfold inThread. cbn. by rewrite Hn.
  - apply lookup_union_Some_raw in Hk as [Hk|[_ Hk]]; [|by eapply Hold].
    rewrite lookup_fmap in Hk. apply fmap_Some in Hk as (row0 & Hk & ->).
    edestruct H as (_ & Hs & _); [exact Hk|]. by eapply Hold.
Qed.

(** A claimed steer stays claimed while its message is in the transcript. *)
Definition isClaimed (d : Conversations) (k : jstr * jstr) : Prop :=
  ∃ row, steering d !! k = Some row ∧ is_Some (srClaimedAt row).

Lemma kept_claimed k : is_Some (messages db' !! k.1) → isClaimed db k → isClaimed db' k.
Proof using Hc Hw.
  intros [m' Hm'] (row & Hr & Hcl). destruct (wf_steers _ Hw _ _ Hr) as (m & t & Hm & _).
  commitCases Hc; unfold nextMessage in *; destruct_and?; try (by exists row).
  - exists row. split; [|done]. cbn. rewrite lookup_union_r; [done|]. apply lookup_singleton_ne. intros <-. cbn in Hm. congruence.
  - exists row. split; [|done]. cbn. apply map_lookup_filter_Some. split; [done|]. cbn in *.
    apply map_lookup_filter_Some in Hm' as [Hm' Hne]. cbn in Hne. unfold inThread. cbn. rewrite Hm'. cbn. congruence.
  - exists row. split; [|done]. cbn. rewrite lookup_union_r; [done|]. rewrite lookup_fmap.
    destruct (claimed !! k) as [row'|] eqn:E; [|done]. edestruct H as (_ & ? & Hn); [exact E|].
    destruct Hcl. congruence.
Qed.

Lemma fires_kept : fires db'.
Proof using Hc Hw.
  intros id slot o r Ho Hr. assert (∀ o, occurrences db !! (id, slot) = Some o → ocRun o = Some r →
    ∃ run, runs db' !! r = Some run ∧ rhTrigger run = routine_trigger ∧
      rhNonce run = encodeText (routineRunNonce id (columnDate slot))) as Hold.
  { intros o0 Ho0 Hr0. destruct (wf_fires _ Hw _ _ _ _ Ho0 Hr0) as (run & Hrun & ? & ?).
    destruct (kept_run _ _ _ Hc _ _ Hrun) as (run' & Hr' & []). exists run'. split_and!; congruence. }
  commitCases Hc; try (by eapply Hold).
  - rewrite insert_insert_eq in Ho. apply lookup_insert_Some in Ho as [[E <-]|[_ Ho]]; [|by eapply Hold].
    cbn in Hr. simplify_eq. exists run. split; [apply lookup_insert_eq|]. split; [done|].
    unfold columnDate, slotOf. by rewrite Z.div_mul.
  - apply lookup_insert_Some in Ho as [[_ <-]|[_ Ho]]; [done|by eapply Hold].
Qed.

Lemma eventCounters_kept : eventCounters db'.
Proof using Hc Hw.
  intros th s ev He. pose proof (wf_eventCounters _ Hw th s ev) as Hev.
  commitCases Hc; try (by apply Hev).
  all: try (apply covered_insert; [by apply Hev|]; cbn; intros; first [congruence|simplify_eq; split; [done|lia]]).
  - apply map_lookup_filter_Some in He as [He Hne]. cbn in Hne. destruct (Hev He) as (row & Hr & Hs & ?).
    exists row. rewrite lookup_insert_ne; [done|]. intros <-. apply Hne. split; [done|]. by simplify_eq.
  - apply lookup_insert_Some in He as [[[= <- <-] <-]|[_ He]].
    + eexists. split; [apply lookup_insert_eq|]. cbn. split; [congruence|lia].
    + apply covered_insert; [by apply Hev|]. cbn. intros. simplify_eq. split; [done|lia].
Qed.

Lemma wf_kept : wf db'.
Proof using Hc Hw.
  split; [apply gapless_kept|apply positioned_kept|apply onePosition_kept|apply messageRuns_kept|apply runTasks_kept
         |apply taskRuns_kept|apply oneRun_kept|apply sources_kept|apply steers_kept|apply fires_kept
         |apply eventCounters_kept].
Qed.
End preserved.

Lemma steps_wf db db' : steps db db' → wf db → wf db'.
Proof. intros Hs Hw. induction Hs as [|a b c (ks & Hc) _ IH]; [done|]. apply IH. by eapply wf_kept. Qed.

(** ** Reachable tables *)

(** Bots and nothing else yet. *)
Definition pristine (db : Conversations) : Prop :=
  threads db = ∅ ∧ tasks db = ∅ ∧ runs db = ∅ ∧ messages db = ∅ ∧ steering db = ∅ ∧ occurrences db = ∅ ∧ events db = ∅.

Definition reachable (db : Conversations) : Prop := ∃ db0, pristine db0 ∧ steps db0 db.

Lemma pristine_wf db : pristine db → wf db.
Proof.
  intros (Ht & Hk & Hr & Hm & Hs & Ho & He). split; intros ?; intros *; rewrite ?Ht, ?Hk, ?Hr, ?Hm, ?Hs, ?Ho, ?He;
    by intros ?%lookup_empty_Some.
Qed.

Lemma reachable_wf db : reachable db → wf db.
Proof. intros (db0 & Hp & Hs). eapply steps_wf; [exact Hs|by apply pristine_wf]. Qed.

Lemma reachable_steps db db' : reachable db → steps db db' → reachable db'.
Proof. intros (db0 & Hp & Hs) Hs'. exists db0. split; [done|]. by etrans. Qed.
