(* ===== verification/ConversationSystem.v ===== *)
(** The commands on the conversation tables as one system: every command of every
    caller moves the tables by the commit rules, whatever the others do and wherever a
    connection is lost; what the answers promise. *)

From S2P Require Import Prelude JsText JsValue Json RunState RunEvents Messaging Transactions RunTables.
From S2P Require Import Conversations MessageStore RunCreation RoutineSchedule RoutineStore.
From S2P Require Import ConversationSteps ConversationCommands ConversationInvariants.

(** A call against the tables everyone shares. *)
Abbreviation runsTo := (scriptRuns applyWrite ConnectionLost commits).

Section system.
Context `{Timezones}.

Inductive command :=
| CreateRunAndTask (actor : UserActor) (input : NewRunAndTask) (ids : SubmissionIds)
| Append (spaceId : jstr) (input : NewAssistantMessage) (id : jstr)
| Steer (actor : UserActor) (input : NewSteeringMessage) (id : jstr)
| ClaimSteering (spaceId runId : jstr)
| ClearThread (spaceId threadId : jstr)
| AppendRunEvent (spaceId : jstr) (e : RunEvent)
| CreateRoutine (actor : UserActor) (input : NewRoutine) (threadId routineId : jstr)
| UpdateRoutine (spaceId id : jstr) (patch : RoutinePatch)
| RemoveRoutine (spaceId id : jstr)
| TestRoutine (spaceId routineId clientNonce taskId runId : jstr)
| FireRoutine (spaceId : jstr) (input : SlotInput) (ids : FireIds)
| MissRoutine (spaceId : jstr) (input : SlotInput) (occurrenceId : jstr)
| PreviewRoutine (cron timezone : jstr) (count : option jsnum)
| ListOutcomes (spaceId routineId : jstr) (limit : option jsnum).

Definition answer (c : command) : Type :=
  result ConversationError
    match c with
    | CreateRunAndTask _ _ _ => CreatedRunAndTask
    | Append _ _ _ | Steer _ _ _ => jstr * MessageRow
    | ClaimSteering _ _ => list (jstr * jstr)
    | ClearThread _ _ => ThreadRow
    | AppendRunEvent _ _ => unit
    | CreateRoutine _ _ _ _ => jstr * RoutineRow
    | UpdateRoutine _ _ _ | RemoveRoutine _ _ => RoutineRow
    | TestRoutine _ _ _ _ _ => jstr * RunHead
    | FireRoutine _ _ _ => option CreatedRoutineRun
    | MissRoutine _ _ _ => option OccurrenceRow
    | PreviewRoutine _ _ _ => list Z
    | ListOutcomes _ _ _ => list RoutineOutcomeRecord
    end.

Definition perform (c : command) : call (answer c) :=
  match c with
  | CreateRunAndTask actor input ids => createRunAndTask actor input ids
  | Append s input id => append s input id
  | Steer actor input id => steer actor input id
  | ClaimSteering s r => alone (demand (claimSteeringMessages s r))
  | ClearThread s t => alone (clearThread s t)
  | AppendRunEvent s e => sinkAppend s e
  | CreateRoutine actor input t id => createRoutine actor input t id
  | UpdateRoutine s id patch => updateRoutine s id patch
  | RemoveRoutine s id => removeRoutine s id
  | TestRoutine s id nonce taskId runId => createRoutineTestRun s id nonce taskId runId
  | FireRoutine s input ids => createRoutineRun s input ids
  | MissRoutine s input id => recordMissedOccurrence s input id
  | PreviewRoutine cron timezone count => previewRoutineSchedule cron timezone count
  | ListOutcomes s id limit => listOutcomes s id limit
  end.

(** ** Each command, transaction by transaction *)

Lemma alone_refines {A} (t : tx A) : refines t → scriptRefines (alone t).
Proof. by intros Ht. Qed.

Lemma read_refines {X} (f : Conversations → X) : refines (read f).
Proof. by apply readsOnly_refines. Qed.

Lemma demand_refines {X} (stmt : sql X) : (∀ now db, (stmt now db).1.2 = []) → refines (demand stmt).
Proof. intros Hs. apply readsOnly_refines. split; [done|]. by intros []. Qed.

Lemma withText_reads {X} s (f : jstr → result ConversationError X) :
  (withText s (λ t, nothing (f t))).1.2 = [].
Proof. unfold withText. by destruct (textParameter s). Qed.

Lemma requiredRow_reads {A} (row : option A) what id : readsOnly (requiredRow row what id).
Proof. by destruct row. Qed.

Lemma orThrow_reads {A} (r : result ConversationError A) : readsOnly (orThrow r).
Proof. by destruct r. Qed.

Lemma replay_refines s nonce : scriptRefines (replayByNonce s nonce).
Proof.
  split; [apply demand_refines; intros; apply withText_reads|]. intros [[[r run]|]|e]; [|done..].
  destruct (rhSource run) as [m|]; [|done].
  split; [apply read_refines|]. intros. split; [apply read_refines|done].
Qed.

Lemma createOnce_refines actor input ids : refines (createOnce actor input ids).
Proof. intros now db c ws held db1 He. by apply createOnce_commits in He as [? _]. Qed.

Lemma orReplay_refines s th nonce r : scriptRefines (orReplay s th nonce r).
Proof. destruct r as [row|[]]; try done. split; [apply demand_refines; intros; apply withText_reads|done]. Qed.

Lemma findRoutine_refines s id : refines (findRoutine s id).
Proof. apply readsOnly_refines, readsOnly_bind; [done|]. intros. apply requiredRow_reads. Qed.

Lemma perform_refines (c : command) : scriptRefines (perform c).
Proof.
  destruct c; cbn [perform].
  - split; [apply createOnce_refines|]. intros [c|[]]; try done. apply scriptRefines_map, replay_refines.
  - split; [apply appendOnce_refines|]. intros. apply orReplay_refines.
  - split; [apply steerOnce_refines|]. intros. apply orReplay_refines.
  - apply alone_refines, claimSteeringMessages_refines.
  - apply alone_refines, clearThread_refines.
  - split; [apply appendEvent_refines|]. intros [[[]|]|]; [done| |done]. split; [apply read_refines|done].
  - unfold createRoutine. destruct (mbind _ _); [|done]. apply alone_refines, createRoutineOnce_refines.
  - split; [apply findRoutine_refines|]. intros [r|]; [|done].
    destruct (rescheduled r patch) as [[[cron timezone]|]|];
      [|done|apply alone_refines, updateRoutineRow_refines].
    split; [by apply readsOnly_refines|]. intros clock.
    destruct (mbind _ _); [apply alone_refines, updateRoutineRow_refines|done].
  - apply alone_refines, removeRoutine_refines.
  - split; [apply testRoutineOnce_refines|]. intros [c|[]]; try done.
    split; [apply demand_refines; intros; apply withText_reads|done].
  - split; [apply fireRoutineOnce_refines|done].
  - apply alone_refines, recordMissedOnce_refines.
  - unfold previewRoutineSchedule. destruct (mbind _ _); [|done].
    apply alone_refines, readsOnly_refines, readsOnly_bind; [done|]. intros. apply orThrow_reads.
  - split; [apply findRoutine_refines|]. intros [r|]; [|done]. apply alone_refines, read_refines.
Qed.

Lemma perform_steps (c : command) db a db' : runsTo (perform c) db a db' → steps db db'.
Proof. intros Hr. eapply scriptRefines_steps; [apply perform_refines|exact Hr]. Qed.

(** C3. The commands refine the commit rules: whatever the transactions of others do
    between the statements of a command, however its own end (committed, rolled back,
    the answer of a commit lost, a retry that replays), the tables move from where it
    started to where it ended by commits of the rules alone, so everything the rules
    keep is kept. *)
Theorem commands_refine (c : command) db a db' :
  runsTo (perform c) db a db' → steps db db' ∧ (reachable db → wf db').
Proof.
  intros Hr. pose proof (perform_steps _ _ _ _ Hr) as Hs. split; [done|]. intros Hd. eapply reachable_wf, reachable_steps; eauto.
Qed.
End system.
