(* ===== verification/ConversationAnswers.v ===== *)
(** What the answers of the conversation commands promise: pages of a transcript
    without gaps, a submission that creates one run however often it is sent, a slot
    settled once, a steer claimed once. *)

From stdpp Require Import sorting.
From S2P Require Import Prelude JsText JsValue Json RunState RunEvents Messaging Transactions RunTables.
From S2P Require Import Conversations MessageStore RunCreation RoutineSchedule RoutineStore.
From S2P Require Import ConversationSteps ConversationCommands ConversationInvariants ConversationSystem.

(** ** Pages of a transcript *)

Section order.
Context {A} (f : A → Z).

Lemma insertBy_sorted x l :
  StronglySorted Z.le (f <$> l) → StronglySorted Z.le (f <$> insertBy (λ a b, f a <=? f b)%Z x l).
Proof.
  induction l as [|y l IH]; intros Hs; cbn [insertBy]; [by repeat constructor|].
  inversion Hs as [|? ? Hl Hy]; subst. destruct (Z.leb_spec (f x) (f y)).
  - cbn. constructor; [done|]. constructor; [done|]. eapply Forall_impl; [exact Hy|]. cbv beta. lia.
  - cbn. constructor; [by apply IH|]. rewrite insertBy_perm. cbn. constructor; [lia|done].
Qed.

Lemma orderBy_sorted l : StronglySorted Z.le (f <$> orderBy (λ a b, f a <=? f b)%Z l).
Proof. induction l as [|x l IH]; [constructor|]. by apply insertBy_sorted. Qed.
End order.

Lemma StronglySorted_seqZ a n : StronglySorted Z.le (seqZ a n).
Proof.
  destruct (decide (0 ≤ n)%Z) as [Hn|]; [|rewrite seqZ_nil by lia; constructor]. revert a.
  pattern n. apply natlike_ind; [intros; constructor| |done]. clear. intros n Hn IH a.
  rewrite seqZ_cons by lia. rewrite Z.pred_succ. constructor; [done|].
  apply Forall_forall. intros q ?%elem_of_seqZ. lia.
Qed.

(** The positions a page asks for, from the first one after the cursor. *)
Definition pagePositions (row : ThreadRow) (page : MessagePage) : list Z :=
  let from := Z.max 0 (pageAfterSeq page + 1) in
  take (pageLimit page) (seqZ from (thNextMessage row - from)).

Section pages.
Context (db : Conversations) (t : jstr) (after : Z).

Definition pageRows : list (jstr * MessageRow) :=
  List.filter (λ kv, bool_decide (msThread kv.2 = t) && (after <? msSeq kv.2)%Z) (map_to_list (messages db)).

Lemma elem_of_pageRows id m :
  (id, m) ∈ pageRows ↔ messages db !! id = Some m ∧ msThread m = t ∧ (after < msSeq m)%Z.
Proof.
  unfold pageRows. rewrite list_elem_of_In, filter_In, <- list_elem_of_In, elem_of_map_to_list. cbn.
  rewrite andb_true_iff, bool_decide_eq_true, Z.ltb_lt. tauto.
Qed.

Lemma NoDup_filter_list {A} (p : A → bool) (l : list A) : NoDup l → NoDup (List.filter p l).
Proof.
  induction 1 as [|x l Hx _ IH]; cbn; [constructor|]. destruct (p x); [|done]. constructor; [|done].
  rewrite list_elem_of_In, filter_In, <- list_elem_of_In. tauto.
Qed.

Lemma pageRows_positions row :
  wf db → threads db !! t = Some row →
  (λ kv, msSeq kv.2) <$> pageRows ≡ₚ
    seqZ (Z.max 0 (after + 1)) (thNextMessage row - Z.max 0 (after + 1)).
Proof.
  intros Hw Ht. apply NoDup_Permutation; [|apply NoDup_seqZ|].
  - apply NoDup_fmap_2_strong; [|apply NoDup_filter_list, NoDup_map_to_list].
    intros [id m] [id' m'] [Hm Hmt]%elem_of_pageRows [Hm' Hmt']%elem_of_pageRows E. cbn in E.
    assert (id = id') as <- by (eapply (wf_onePosition _ Hw); [exact Hm|exact Hm'|intuition congruence|by left]).
    by simplify_eq.
  - intros q. rewrite elem_of_seqZ. split.
    + intros ([id m] & -> & (Hm & Hmt & Ha)%elem_of_pageRows)%list_elem_of_fmap. cbn.
      destruct (wf_positioned _ Hw _ _ Hm) as (row' & Hr & ?). rewrite Hmt in Hr. simplify_eq. lia.
    + intros Hq. destruct (wf_gapless _ Hw _ _ Ht) as [_ Hg]. destruct (Hg q) as (id & m & Hm & Hmt & <-); [lia|].
      apply list_elem_of_fmap. exists (id, m). split; [done|]. apply elem_of_pageRows. split_and!; [done..|lia].
Qed.
End pages.

Lemma listForThread_rows s t page db row :
  threadIn s t db = Some row →
  listForThread s t page db = take (pageLimit page) (orderBySeq (pageRows db t (pageAfterSeq page))).
Proof. unfold listForThread. by intros ->. Qed.

(** A transcript has no gaps. In every state the database can reach by commits of
    any commands, in any order, a page of a thread holds exactly the positions that
    follow its cursor, one after the other, up to the page's limit and the thread's
    counter, and each of them is a message of the thread. *)
Theorem transcript_page s t page db row :
  reachable db → threadIn s t db = Some row →
  (λ kv, msSeq kv.2) <$> listForThread s t page db = pagePositions row page ∧
  Forall (λ kv, messages db !! kv.1 = Some kv.2 ∧ msThread kv.2 = t) (listForThread s t page db).
Proof.
  intros Hw%reachable_wf Ht. rewrite (listForThread_rows _ _ _ _ _ Ht). apply threadIn_some in Ht as [Ht _]. split.
  - rewrite fmap_take. unfold pagePositions. f_equal. apply (StronglySorted_unique Z.le).
    + apply (orderBy_sorted (λ kv : jstr * MessageRow, msSeq kv.2)).
    + apply StronglySorted_seqZ.
    + unfold orderBySeq. rewrite orderBy_perm. by apply pageRows_positions.
  - apply Forall_take, Forall_forall. intros [id m]. unfold orderBySeq. rewrite orderBy_perm.
    by intros (? & ? & _)%elem_of_pageRows.
Qed.

(** ** Submissions *)

(** The run and the task a nonce of the space names. *)
Definition names (spaceId nonce runId taskId : jstr) (db : Conversations) : Prop :=
  ∃ run, runs db !! runId = Some run ∧ rhSpace run = spaceId ∧ rhNonce run = encodeText nonce ∧ rhTask run = taskId.

Lemma names_steps s n r k db db' : steps db db' → names s n r k db → names s n r k db'.
Proof.
  intros Hs (run & Hr & <- & Hn & <-). destruct (steps_run _ _ _ _ Hs Hr) as (run' & Hr' & []).
  exists run'. split_and!; congruence.
Qed.

Lemma names_unique s n r k r' k' db : wf db → names s n r k db → names s n r' k' db → r = r' ∧ k = k'.
Proof.
  intros Hw (run & Hr & Hs & Hn & <-) (run' & Hr' & Hs' & Hn' & <-).
  assert (r = r') as <- by (eapply (wf_oneRun _ Hw); [exact Hr|exact Hr'|right; split; congruence]).
  by simplify_eq.
Qed.

Lemma transact_runs {A B} (t : tx B) (k : result ConversationError B → call A) db a db' :
  runsTo (Transact t k) db a db' →
  ∃ now db1 r db2, steps db db1 ∧ txRuns applyWrite ConnectionLost commits t now db1 r db2 ∧ runsTo (k r) db2 a db'.
Proof. done. Qed.

Lemma script_map_runs {A B} (s : call A) (f : A → B) db b db' :
  runsTo (script_map s f) db b db' → ∃ a, b = f a ∧ runsTo s db a db'.
Proof.
  revert db. induction s as [a|C t k IH]; intros db.
  - intros [-> ->]. by exists a.
  - intros (now & db1 & r & db2 & S1 & Ht & (a & -> & Hk)%IH). exists a. split; [done|]. by exists now, db1, r, db2.
Qed.

Lemma findRunByNonce_ok s n now db x :
  (findRunByNonce s n now db).1.1 = Ok (Some x) → runByNonce s (encodeText n) db = Some x.
Proof.
  unfold findRunByNonce, withText. destruct (textParameter n) as [t|] eqn:E; [|done].
  apply textParameter_some in E as ->. by intros [= ->].
Qed.

Lemma findRunByNonce_runs s n now db x db' :
  txRuns applyWrite ConnectionLost commits (demand (findRunByNonce s n)) now db (Ok (Some x)) db' →
  names s n x.1 (rhTask x.2) db'.
Proof.
  intros (d & _ & Hf%findRunByNonce_ok & S2)%demand_runs; [|intros; apply withText_reads].
  destruct x as [r run]. apply runByNonce_some in Hf as (Hr & Hs & Hn). eapply names_steps; [exact S2|]. by exists run.
Qed.

Lemma replayByNonce_names s n db c db' :
  runsTo (replayByNonce s n) db (Ok (Some c)) db' → names s n (crRun c).1 (crTask c).1 db'.
Proof.
  unfold replayByNonce. intros (now & d1 & found & d2 & _ & Hf & Hk).
  destruct found as [[[r run]|]|e]; [|by destruct Hk..].
  apply findRunByNonce_runs in Hf. cbn [fst snd] in Hf.
  destruct (rhSource run) as [m|] eqn:E; [|by destruct Hk].
  assert (steps d2 db') as S.
  { eapply scriptRefines_steps; [|exact Hk]. split; [apply read_refines|]. intros. split; [apply read_refines|done]. }
  destruct Hk as (n2 & d3 & task & d4 & _ & _ & n3 & d5 & message & d6 & _ & _ & Ha & ->).
  destruct task as [[task|]|], message as [[message|]|]; try done. injection Ha as ->.
  by eapply names_steps.
Qed.

(** A submission answered with a run: the nonce names it from then on. *)
Lemma createRunAndTask_names actor input ids db c db' :
  runsTo (createRunAndTask actor input ids) db (Ok c) db' →
  names (uaSpace actor) (nrNonce input) (crRun c).1 (crTask c).1 db'.
Proof.
  unfold createRunAndTask. intros (now & d1 & created & d2 & _ & Ht & Hk).
  destruct created as [c'|[]]; try by destruct Hk.
  - destruct Hk as [[= ->] ->]. apply txRuns_ok in Ht as (ws & held & d & He & ->).
    apply createOnce_commits in He as (_ & Hr & Hs & Hn%textParameter_some & _ & Hk & _). by exists (crRun c').2.
  - apply script_map_runs in Hk as (r & Ha & Hr). destruct r as [[c'|]|]; [|done..]. injection Ha as ->.
    by eapply replayByNonce_names.
Qed.

(** C4. One nonce, one run, as long as no bot is deleted: the deletion of the run's bot
    takes the run with it and frees its nonce. In such a history two submissions under the same nonce of a space, each
    interleaved with any commits of others, aborted or answered after a lost commit,
    name the same run and task whenever both answer, however much later; and no other
    run of the database has that task or that nonce. *)
Theorem submission_creates_one_run actor actor' input input' ids ids' d1 d1' d2 d2' c c' db :
  runsTo (createRunAndTask actor input ids) d1 (Ok c) d1' →
  runsTo (createRunAndTask actor' input' ids') d2 (Ok c') d2' →
  uaSpace actor = uaSpace actor' → nrNonce input = nrNonce input' →
  reachable db → steps d1' db → steps d2' db →
  (crRun c).1 = (crRun c').1 ∧ (crTask c).1 = (crTask c').1 ∧
  ∀ r run, runs db !! r = Some run → rhTask run = (crTask c).1 ∨
    (rhSpace run = uaSpace actor ∧ rhNonce run = encodeText (nrNonce input)) → r = (crRun c).1.
Proof.
  intros H1%createRunAndTask_names H2%createRunAndTask_names Hs Hn Hw%reachable_wf S1 S2.
  rewrite <- Hs, <- Hn in H2. apply (names_steps _ _ _ _ _ _ S1) in H1. apply (names_steps _ _ _ _ _ _ S2) in H2.
  destruct (names_unique _ _ _ _ _ _ _ Hw H1 H2) as [<- <-]. split_and!; [done..|].
  destruct H1 as (run1 & Hr1 & Hs1 & Hn1 & Hk1). intros r run Hr Hor.
  eapply (wf_oneRun _ Hw); [exact Hr|exact Hr1|]. rewrite Hs1, Hn1, Hk1. done.
Qed.

(** ** A submission sent again *)

Lemma taskIn_run db r run :
  wf db → runs db !! r = Some run → is_Some (taskIn (rhSpace run) (rhTask run) db).
Proof.
  intros Hw Hr. destruct (wf_runTasks _ Hw _ _ Hr) as (task & Ht & Hs & _).
  unfold taskIn. rewrite Ht. cbn. rewrite bool_decide_true by done. by eexists.
Qed.

Lemma messageIn_source db r run m :
  wf db → runs db !! r = Some run → rhSource run = Some m → is_Some (messageIn (rhThread run) m db).
Proof.
  intros Hw Hr Hm. destruct (wf_sources _ Hw _ _ _ Hr Hm) as (row & Hrow & Ht & _).
  unfold messageIn. rewrite Hrow. cbn. rewrite bool_decide_true by done. by eexists.
Qed.

Lemma insertRunRow_taken id run now db n x :
  textParameter (rhNonce (run now)) = Some n → runByNonce (rhSpace (run now)) n db = Some x →
  insertRunRow id run now db = (Ok None, [], []).
Proof. unfold insertRunRow, withText. intros -> Hr. cbn [rhSpace]. by rewrite Hr. Qed.

(** What the store answers for a nonce in use. *)
Definition replayed (s : jstr) (db : Conversations) (r : jstr) (run : RunHead) :
    result ConversationError CreatedRunAndTask :=
  match rhSource run with
  | None => Err (ReplayIncomplete r)
  | Some m =>
      match taskIn s (rhTask run) db, messageIn (rhThread run) m db with
      | Some task, Some message => Ok {| crRun := (r, run); crTask := (rhTask run, task); crMessage := (m, message) |}
      | _, _ => Err (ReplayIncomplete r)
      end
  end.

(** A submission under a nonce in use writes nothing. It answers with the first
    run, its task and its source message while that message exists, and fails with an
    incomplete replay once the run has lost it (a cleared thread). *)
Theorem resubmission_exact actor input ids now db t prompt r run :
  reachable db → threadIn (uaSpace actor) (nrThread input) db = Some t →
  textParameter (nrPrompt input) = Some prompt → tasks db !! newTaskId ids = None →
  is_Some (textParameter (nrNonce input)) →
  runByNonce (uaSpace actor) (encodeText (nrNonce input)) db = Some (r, run) →
  scriptAlone applyWrite (createRunAndTask actor input ids) now db = (replayed (uaSpace actor) db r run, db) ∧
  match rhSource run with
  | Some m => ∃ c, replayed (uaSpace actor) db r run = Ok c ∧ crRun c = (r, run) ∧ (crMessage c).1 = m
  | None => replayed (uaSpace actor) db r run = Err (ReplayIncomplete r)
  end.
Proof.
  intros Hw%reachable_wf Ht Hp Hk [nonce Hnonce] Hr.
  pose proof (textParameter_some _ _ Hnonce) as En. rewrite <- En in Hr.
  destruct (runByNonce_some _ _ _ _ _ Hr) as (Hrun & Hs & _). split.
  - assert (txAlone applyWrite (createOnce actor input ids) now [] db = (Err SubmissionSettled, db)) as Ha.
    { unfold createOnce. rewrite txAlone_demand. cbn [overlay foldl]. unfold insertTaskFromThread. rewrite Ht.
      unfold insertTaskRow, withText. cbn [tsPrompt]. rewrite Hp, Hk. cbn [requiredRow]. cbn -[txAlone demand insertRunRow].
      rewrite txAlone_demand. by erewrite insertRunRow_taken by (exact Hnonce || exact Hr). }
    unfold createRunAndTask. cbn [scriptAlone]. rewrite Ha.
    unfold replayByNonce. cbn -[runByNonce taskIn messageIn findRunByNonce].
    unfold findRunByNonce, withText. rewrite Hnonce. cbn -[runByNonce taskIn messageIn]. rewrite Hr.
    unfold replayed. destruct (rhSource run) as [m|]; cbn -[taskIn messageIn]; [|done].
    by destruct (taskIn (uaSpace actor) (rhTask run) db), (messageIn (rhThread run) m db).
  - unfold replayed. destruct (rhSource run) as [m|] eqn:E; [|done].
    destruct (messageIn_source _ _ _ _ Hw Hrun E) as [message ->].
    rewrite <- Hs. destruct (taskIn_run _ _ _ Hw Hrun) as [task ->]. by eexists.
Qed.

(** ** Slots *)

(** The two commands that settle a slot, and the occurrence they answer with. *)
Inductive settlement := FiredBy (ids : FireIds) | MissedBy (occurrenceId : jstr).

Definition settle (s : jstr) (input : SlotInput) (how : settlement) :
    call (result ConversationError (option OccurrenceRow)) :=
  match how with
  | FiredBy ids => script_map (createRoutineRun s input ids) (λ r,
      match r with Ok c => Ok (firedOccurrence <$> c) | Err e => Err e end)
  | MissedBy id => recordMissedOccurrence s input id
  end.

Lemma settle_settled s input how db o db' :
  runsTo (settle s input how) db (Ok (Some o)) db' →
  occurrences db' !! (siRoutine input, slotOf input) = Some o ∧
  (ocRun o = match how with FiredBy ids => Some (fireRun ids) | MissedBy _ => None end).
Proof.
  destruct how as [ids|id]; cbn [settle].
  - intros ([[c|]|e] & Ha & (now & d & r & d2 & _ & Ht & Hk & ->))%script_map_runs; [|done..].
    injection Ha as ->. destruct r as [r|[]]; simplify_eq. apply txRuns_ok in Ht as (ws & held & d1 & He & ->).
    apply fireRoutineOnce_commits in He as (_ & Ho & Hr). split; [exact Ho|]. cbn. by destruct (Hr c) as [-> _].
  - intros (now & d & r & d2 & _ & Ht & [= <-] & ->). apply txRuns_ok in Ht as (ws & held & d1 & He & ->).
    apply recordMissedOnce_commits in He as (_ & Ho & Hr). split; [done|by apply Hr].
Qed.

(** C12. A slot is settled once. Two passes that both report the slot of a routine as
    settled, each interleaved with any commits, name the same occurrence; both fired it
    with the same run or both recorded it missed; and a fired slot's run is a routine
    run under the slot's own nonce. *)
Theorem routine_slot_settled_once s s' input input' how how' d1 d1' d2 d2' o o' db :
  runsTo (settle s input how) d1 (Ok (Some o)) d1' → runsTo (settle s' input' how') d2 (Ok (Some o')) d2' →
  siRoutine input = siRoutine input' → siScheduledFor input = siScheduledFor input' →
  reachable db → steps d1' db → steps d2' db →
  o = o' ∧ match how, how' with FiredBy ids, FiredBy ids' => fireRun ids = fireRun ids' | MissedBy _, MissedBy _ => True | _, _ => False end ∧
  ∀ r, ocRun o = Some r → ∃ run, runs db !! r = Some run ∧ rhTrigger run = routine_trigger ∧
    rhNonce run = encodeText (routineRunNonce (siRoutine input) (siScheduledFor input)).
Proof.
  intros [Ho Hr]%settle_settled [Ho' Hr']%settle_settled Ei Es Hw%reachable_wf S1 S2.
  apply (steps_occurrence _ _ _ _ S1) in Ho. apply (steps_occurrence _ _ _ _ S2) in Ho'.
  assert (slotOf input = slotOf input') as E by (unfold slotOf; congruence).
  rewrite <- Ei, <- E, Ho in Ho'. injection Ho' as <-. split; [done|]. split.
  - rewrite Hr in Hr'. by destruct how, how'; simplify_eq.
  - intros r Hor. destruct (wf_fires _ Hw _ _ _ _ Ho Hor) as (run & ? & ? & Hn). exists run. split_and!; [done..|].
    rewrite Hn. unfold columnDate, slotOf. by rewrite Z.div_mul.
Qed.

(** ** Claims *)

Lemma steersOf_elem db rows id m :
  (id, m) ∈ steersOf db rows → messages db !! id = Some m ∧ ∃ bot row, rows !! (id, bot) = Some row.
Proof.
  unfold steersOf, orderBySeq. rewrite orderBy_perm.
  intros ([[i bot] row] & Hin & Hm)%list_elem_of_omap. cbn in Hm.
  apply fmap_Some in Hm as (m' & Hm' & [= -> ->]). split; [done|]. exists bot, row. by apply elem_of_map_to_list.
Qed.

(** A claim marks what it answers, and answers nothing that is marked. *)
Lemma claim_ok s r now db l ws ks id :
  claimSteeringMessages s r now db = (Ok l, ws, ks) → id ∈ l.*1 →
  is_Some (messages db !! id) ∧
  ∃ bot row claimed, steering db !! (id, bot) = Some row ∧ srClaimedAt row = None ∧ ws = [PutSteering claimed] ∧
    claimed !! (id, bot) = Some (claimedRow now row).
Proof.
  unfold claimSteeringMessages. destruct (runIn s r db) as [run|]; [|by intros [= <- _ _] Hin; inversion Hin].
  destruct (bool_decide _); [|by intros [= <- _ _] Hin; inversion Hin]. intros [= <- <- _].
  rewrite <- list_fmap_compose.
  intros ([i m] & -> & (Hm & bot & row & Hf)%steersOf_elem)%list_elem_of_fmap.
  cbn. split; [by eexists|]. exists bot, row. eexists.
  pose proof Hf as [Hrow [_ Hn]]%map_lookup_filter_Some. split_and!; [done..|]. by rewrite lookup_fmap, Hf.
Qed.

(** Commits of anyone, with the message still in the transcript after each. *)
Definition keeping (id : jstr) (a b : Conversations) : Prop := anyCommit commits a b ∧ is_Some (messages b !! id).

Lemma keeping_claimed id bot a b : rtc (keeping id) a b → wf a → isClaimed a (id, bot) → wf b ∧ isClaimed b (id, bot).
Proof.
  intros Hs Hw. revert Hw. induction Hs as [d|a b c [(ks & Hc) Hm] _ IH]; [done|].
  intros Hw Hcl. apply IH; [by eapply wf_kept|by eapply kept_claimed].
Qed.

(** A steering message a claim has answered with is in no later claim's answer,
    whoever claims and for whichever run, as long as the message is in the transcript:
    a cleared thread takes the delivery row with the message. *)
Theorem steer_claimed_once s r now db0 db l ws ks s' r' now' db2 l' ws' ks' id :
  reachable db0 → claimSteeringMessages s r now db0 = (Ok l, ws, ks) → rtc (others commits ks) db0 db →
  rtc (keeping id) (overlay applyWrite ws db) db2 →
  claimSteeringMessages s' r' now' db2 = (Ok l', ws', ks') → id ∈ l.*1 → id ∉ l'.*1.
Proof.
  intros Hw%reachable_wf Hc Ho Hk Hc' Hid Hid'.
  destruct (claim_ok _ _ _ _ _ _ _ _ Hc Hid) as (_ & bot & row & claimed & Hr & Hn & -> & Hcl).
  assert (commits ks db (overlay applyWrite [PutSteering claimed] db)) as Hcommit.
  { eapply (claimSteeringMessages_refines s r now db0 l). exists db0. split; [done|]. cbn [overlay foldl]. by rewrite Hc. }
  assert (wf (overlay applyWrite [PutSteering claimed] db)) as Hw1.
  { eapply wf_kept; [exact Hcommit|]. eapply steps_wf; [|exact Hw]. by eapply others_steps. }
  destruct (keeping_claimed id bot _ _ Hk Hw1) as [Hw2 (row2 & Hr2 & [at2 Hat2])].
  { exists (claimedRow now row). split; [|by eexists]. cbn. by apply lookup_union_Some_l. }
  destruct (claim_ok _ _ _ _ _ _ _ _ Hc' Hid') as (_ & bot' & row' & claimed' & Hr' & Hn' & _).
  destruct (wf_steers _ Hw2 _ _ Hr2) as (m & t & Hm & _ & _ & Ht & Hb).
  destruct (wf_steers _ Hw2 _ _ Hr') as (m' & t' & Hm' & _ & _ & Ht' & Hb'). cbn in *. simplify_eq.
Qed.
