(* ===== verification/ConversationExamples.v ===== *)
(** The conversation commands on concrete tables: the theorems at work, and three
    behaviours at their edges. *)

From S2P Require Import Prelude JsText JsValue Json RunState RunEvents Messaging Transactions RunTables.
From S2P Require Import Conversations MessageStore RunCreation RoutineSchedule RoutineStore.
From S2P Require Import ConversationSteps ConversationCommands ConversationInvariants ConversationSystem ConversationAnswers.

(** A call with nobody else, at the first instant. *)
Definition answered {A} (s : call A) (db : Conversations) : A * Conversations := scriptAlone applyWrite s 0 db.

Lemma answered_runs {A} (s : call A) db : runsTo s db (answered s db).1 (answered s db).2.
Proof. apply scriptAlone_runs. Qed.

Definition demoEmpty : Conversations :=
  {| bots := {[ u "bot" := u "space" ]}; threads := ∅; tasks := ∅; runs := ∅; messages := ∅; steering := ∅;
     routines := ∅; occurrences := ∅; events := ∅ |}.

Definition demoThread : ThreadRow :=
  {| thSpace := u "space"; thBot := u "bot"; thUser := u "user"; thNextEvent := 0; thNextMessage := 0 |}.

Definition demoRoutine : RoutineRow :=
  {| roSpace := u "space"; roBot := u "bot"; roUser := u "user"; roThread := u "routine-thread";
     roInstruction := u "report"; roCron := u "* * * * *"; roTimezone := u "UTC"; roEnabled := true;
     roNextRunAt := 60000000; roDeletedAt := None |}.

(** A thread, and a routine with a thread of its own, due at the first minute. *)
Definition demoDb : Conversations :=
  overlay applyWrite [PutThread (u "routine-thread") demoThread; PutRoutine (u "routine") demoRoutine]
    (overlay applyWrite [PutThread (u "thread") demoThread] demoEmpty).

Lemma demo_reachable : reachable demoDb.
Proof.
  exists demoEmpty. split; [by unfold pristine; split_and!|]. eapply rtc_l; [|eapply rtc_once].
  - exists [OfThread (u "thread")]. by apply (commit_thread demoEmpty (u "thread") demoThread).
  - exists [OfThread (u "routine-thread"); OfRoutine (u "routine")]. unfold demoDb.
    by apply commit_routine; [inLocks..| | | |].
Qed.

Definition demoActor : UserActor := {| uaSpace := u "space"; uaUser := u "user" |}.

Definition demoInput (nonce : jstr) : NewRunAndTask :=
  {| nrThread := u "thread"; nrNonce := nonce; nrPrompt := u "hello"; nrBlocks := [TextBlock (u "hello")] |}.

Definition demoIds (n : jstr) : SubmissionIds :=
  {| newTaskId := u "task-" ++ n; newRunId := u "run-" ++ n; newMessageId := u "message-" ++ n |}.

Definition demoSubmit (nonce n : jstr) : call (result ConversationError CreatedRunAndTask) :=
  createRunAndTask demoActor (demoInput nonce) (demoIds n).

Lemma submit_steps nonce n db : steps db (answered (demoSubmit nonce n) db).2.
Proof.
  eapply scriptRefines_steps; [|apply answered_runs].
  split; [apply createOnce_refines|]. intros [c|[]]; try done. apply scriptRefines_map, replay_refines.
Qed.

Lemma submission_creates_one_run_witness :
  let d1 := (answered (demoSubmit (u "n") (u "1")) demoDb).2 in
  match (answered (demoSubmit (u "n") (u "1")) demoDb).1, (answered (demoSubmit (u "n") (u "2")) d1).1 with
  | Ok c, Ok c' => (crRun c).1 = (crRun c').1
  | _, _ => False
  end.
Proof.
  intros d1. pose proof (answered_runs (demoSubmit (u "n") (u "1")) demoDb) as H1.
  pose proof (answered_runs (demoSubmit (u "n") (u "2")) d1) as H2.
  pose proof (submit_steps (u "n") (u "1") demoDb) as S1. pose proof (submit_steps (u "n") (u "2") d1) as S2.
  destruct (answered (demoSubmit (u "n") (u "1")) demoDb).1 as [c|] eqn:E1; [|by vm_compute in E1].
  destruct (answered (demoSubmit (u "n") (u "2")) d1).1 as [c'|] eqn:E2; [|by vm_compute in E2].
  eapply (submission_creates_one_run _ _ _ _ _ _ _ _ _ _ c c' _ H1 H2); [done..| |exact S2|done].
  eapply reachable_steps; [|exact S2]. eapply reachable_steps; [apply demo_reachable|exact S1].
Defined.

Lemma commands_refine_witness :
  wf (answered (@perform newYork (CreateRunAndTask demoActor (demoInput (u "n")) (demoIds (u "1")))) demoDb).2.
Proof.
  eapply (@commands_refine newYork (CreateRunAndTask demoActor (demoInput (u "n")) (demoIds (u "1")))).
  - apply answered_runs.
  - apply demo_reachable.
Defined.

(** ** A submission sent again, before and after the thread was cleared *)

Definition demoClear : call (result ConversationError ThreadRow) := alone (clearThread (u "space") (u "thread")).

Lemma clear_steps db : steps db (answered demoClear db).2.
Proof. eapply scriptRefines_steps; [|apply answered_runs]. apply alone_refines, clearThread_refines. Qed.

Definition demoSubmitted : Conversations := (answered (demoSubmit (u "n") (u "1")) demoDb).2.
Definition demoCleared : Conversations := (answered demoClear demoSubmitted).2.

Lemma submitted_reachable : reachable demoSubmitted.
Proof. eapply reachable_steps; [apply demo_reachable|apply submit_steps]. Qed.

Lemma cleared_reachable : reachable demoCleared.
Proof. eapply reachable_steps; [apply submitted_reachable|apply clear_steps]. Qed.

(** The nonce of a cleared conversation answers with an incomplete replay for good. *)
Lemma resubmission_exact_witness :
  (answered (demoSubmit (u "n") (u "2")) demoCleared) = (Err (ReplayIncomplete (u "run-1")), demoCleared).
Proof.
  destruct (runByNonce (u "space") (encodeText (u "n")) demoCleared) as [[r run]|] eqn:E; [|by vm_compute in E].
  assert (r = u "run-1") as -> by (vm_compute in E; injection E as <- _; reflexivity).
  assert (rhSource run = None) as Hs by (vm_compute in E; injection E as <-; reflexivity).
  destruct (threadIn (u "space") (u "thread") demoCleared) as [t|] eqn:Et; [|by vm_compute in Et].
  destruct (resubmission_exact demoActor (demoInput (u "n")) (demoIds (u "2")) 0 demoCleared t (u "hello") (u "run-1") run)
    as [Ha Hr]; [apply cleared_reachable|exact Et|vm_compute; reflexivity|vm_compute; reflexivity|by eexists|exact E|].
  rewrite Hs in Hr. unfold answered, demoSubmit. rewrite Ha, Hr. done.
Defined.

Example cleared_nonce_incomplete :
  (answered (demoSubmit (u "n") (u "2")) demoCleared).1 = Err (ReplayIncomplete (u "run-1")).
Proof. vm_compute. reflexivity. Qed.

(** ** A page *)

Definition demoAppend (nonce id : jstr) : call (result ConversationError (jstr * MessageRow)) :=
  append (u "space") {| naThread := u "thread"; naRun := u "run-1"; naNonce := nonce; naBlocks := [TextBlock (u "hi")] |} id.

Lemma transcript_page_witness :
  let db := (answered (demoAppend (u "a") (u "message-2")) demoSubmitted).2 in
  (λ kv, msSeq kv.2) <$> listForThread (u "space") (u "thread") {| pageLimit := 5; pageAfterSeq := 0 |} db = [1%Z].
Proof.
  intros db. destruct (threadIn (u "space") (u "thread") db) as [t|] eqn:Et; [|by vm_compute in Et].
  destruct (transcript_page (u "space") (u "thread") {| pageLimit := 5; pageAfterSeq := 0 |} db t) as [Hp _]; [|exact Et|].
  - eapply reachable_steps; [apply submitted_reachable|]. eapply scriptRefines_steps; [|apply answered_runs].
    split; [apply appendOnce_refines|]. intros. apply orReplay_refines.
  - rewrite Hp. vm_compute in Et. injection Et as <-. vm_compute. reflexivity.
Defined.

(** ** A slot *)

Definition demoSlot : SlotInput :=
  {| siRoutine := u "routine"; siScheduledFor := 60000; siNextRunAt := 120000 |}.

Definition demoFireIds : FireIds :=
  {| fireOccurrence := u "occurrence-1"; fireTask := u "task-1"; fireRun := u "run-1" |}.

Definition demoFire : call (result ConversationError (option OccurrenceRow)) :=
  settle (u "space") demoSlot (FiredBy demoFireIds).

Lemma fire_steps db : steps db (answered demoFire db).2.
Proof.
  eapply scriptRefines_steps; [|apply answered_runs]. apply scriptRefines_map.
  split; [apply fireRoutineOnce_refines|done].
Qed.

Lemma routine_slot_settled_once_witness :
  match (answered demoFire demoDb).1 with
  | Ok (Some o) => o = {| ocId := u "occurrence-1"; ocRun := Some (u "run-1") |} ∧
      ∃ run, runs (answered demoFire demoDb).2 !! u "run-1" = Some run ∧ rhTrigger run = routine_trigger
  | _ => False
  end.
Proof.
  pose proof (answered_runs demoFire demoDb) as Hr.
  destruct (answered demoFire demoDb).1 as [[o|]|] eqn:E; [|by vm_compute in E..].
  assert (o = {| ocId := u "occurrence-1"; ocRun := Some (u "run-1") |}) as Ho
    by (vm_compute in E; injection E as <-; reflexivity).
  split; [exact Ho|]. destruct (routine_slot_settled_once _ _ _ _ _ _ _ _ _ _ o o _ Hr Hr eq_refl eq_refl
    (reachable_steps _ _ demo_reachable (fire_steps _)) (rtc_refl _ _) (rtc_refl _ _)) as (_ & _ & H).
  destruct (H (u "run-1")) as (run & ? & ? & _); [by rewrite Ho|]. by exists run.
Defined.

(** Settled again, by another pass with other ids: nothing to settle. *)
Example slot_settled_already :
  (answered (settle (u "space") demoSlot (MissedBy (u "occurrence-2"))) (answered demoFire demoDb).2).1 = Ok None.
Proof. vm_compute. reflexivity. Qed.

(** A message under the nonce a slot will use takes the slot's run away: the fire
    answers as if the slot were settled, and the routine does not move. *)
Example nonce_takes_slot :
  let db := (answered (demoSubmit (u "routine:routine:60000") (u "9")) demoDb).2 in
  let fired := answered demoFire db in
  fired.1 = Ok None ∧ occurrences fired.2 = ∅ ∧ roNextRunAt <$> routines fired.2 !! u "routine" = Some 60000000%Z.
Proof. vm_compute. done. Qed.

(** ** Steering *)

Definition demoSteerInput : NewSteeringMessage :=
  {| nsThread := u "thread"; nsNonce := u "s"; nsBlocks := [TextBlock (u "faster")]; nsRun := u "run-1" |}.

Definition demoSteered : Conversations := (answered (steer demoActor demoSteerInput (u "message-2")) demoSubmitted).2.

Lemma steered_reachable : reachable demoSteered.
Proof.
  eapply reachable_steps; [apply submitted_reachable|]. eapply scriptRefines_steps; [|apply answered_runs].
  split; [apply steerOnce_refines|]. intros. apply orReplay_refines.
Qed.

Lemma steer_claimed_once_witness :
  match claimSteeringMessages (u "space") (u "run-1") 5%Z demoSteered with
  | (Ok l, ws, _) =>
      l = [(u "message-2", u "faster")] ∧
      match claimSteeringMessages (u "space") (u "run-1") 6%Z (overlay applyWrite ws demoSteered) with
      | (Ok l', _, _) => u "message-2" ∉ l'.*1
      | _ => False
      end
  | _ => False
  end.
Proof.
  destruct (claimSteeringMessages (u "space") (u "run-1") 5%Z demoSteered) as [[[l|] ws] ks] eqn:E; [|by vm_compute in E].
  assert (l = [(u "message-2", u "faster")]) as Hl by (vm_compute in E; injection E as <- _ _; reflexivity).
  split; [exact Hl|].
  destruct (claimSteeringMessages (u "space") (u "run-1") 6%Z (overlay applyWrite ws demoSteered)) as [[[l'|] ws'] ks'] eqn:E'.
  - eapply (steer_claimed_once _ _ _ _ _ _ _ _ _ _ _ _ _ _ _ _ steered_reachable E (rtc_refl _ _) (rtc_refl _ _) E').
    rewrite Hl. apply list_elem_of_here.
  - vm_compute in E. injection E as _ <- _. by vm_compute in E'.
Defined.

(** The run's end may come between the check that it is live and the commit of the
    steer, which then names a run nobody will read it for. *)
Definition finished (r : RunHead) : RunHead :=
  {| rhSpace := rhSpace r; rhBot := rhBot r; rhThread := rhThread r; rhTask := rhTask r; rhUser := rhUser r;
     rhStatus := completed; rhTrigger := rhTrigger r; rhNonce := rhNonce r; rhSource := rhSource r;
     rhOwner := None; rhFence := rhFence r; rhCreatedAt := rhCreatedAt r |}.

Lemma steer_misses_end :
  ∃ m db, runsTo (steer demoActor demoSteerInput (u "message-2")) demoSubmitted (Ok m) db ∧
    rhStatus <$> runs db !! u "run-1" = Some completed ∧ messages db !! m.1 = Some m.2.
Proof.
  destruct (runs demoSubmitted !! u "run-1") as [r|] eqn:Hr; [|by vm_compute in Hr].
  assert (rtc (others commits [OfThread (u "thread")]) demoSubmitted
    (overlay applyWrite [PutRun (u "run-1") (finished r)] demoSubmitted)) as Hend.
  { apply rtc_once. exists [OfRun (u "run-1")]. split; [|by apply Forall_singleton; intros ?%list_elem_of_singleton].
    by eapply commit_run_moves; [inLocks|exact Hr|split; auto|]. }
  vm_compute in Hr. injection Hr as <-.
  do 2 eexists. split; [|].
  - exists 0%Z, demoSubmitted. do 2 eexists. split; [done|]. split; [left|].
    + do 4 eexists. split; [|by left]. unfold steerOnce.
      eapply ends_ask; [done|vm_compute; reflexivity|]. cbn -[overlay demoSubmitted insertMessage].
      eapply ends_ask; [exact Hend|vm_compute; reflexivity|].
      eapply ends_ask; [done|vm_compute; reflexivity|]. by split_and!.
    + done.
  - split; vm_compute; reflexivity.
Qed.
