(* ===== verification/EventSink.v ===== *)
(** The event log as its sink and its reader agree on it: an event appended under its
    own position reads back as itself and keeps its position. *)

From S2P Require Import Prelude JsText JsValue Json RunState RunEvents Messaging Transactions RunTables.
From S2P Require Import Conversations MessageStore RunCreation ConversationSteps ConversationCommands.
From S2P Require Import ConversationInvariants ConversationAnswers ConversationExamples.

(** ** A parse reads fields, not their order *)

Definition fieldValue (f : jstr) (r : jobject) : option jsval := snd <$> lookupKey fst f r.

Lemma getField_value f r : getField f r = default JUndefined (fieldValue f r).
Proof. unfold getField, fieldValue. by destruct (lookupKey fst f r) as [[]|]. Qed.

Lemma hasOwn_value f r : hasOwn f r = bool_decide (is_Some (fieldValue f r)).
Proof.
  unfold hasOwn, fieldValue, lookupKey. destruct (List.find (keyIs fst f) r) as [kv|] eqn:E.
  - rewrite bool_decide_true by by eexists. apply existsb_true. exists kv. by apply find_some_elem.
  - rewrite bool_decide_false by by intros []. by apply find_none_existsb.
Qed.

Lemma fieldValue_cons f g v r : fieldValue f ((g, v) :: r) = if decide (f = g) then Some v else fieldValue f r.
Proof.
  unfold fieldValue, lookupKey, keyIs. cbn. destruct (decide (f = g)) as [->|].
  - by rewrite bool_decide_true.
  - by rewrite bool_decide_false by congruence.
Qed.

Lemma fieldValue_set f g v r : fieldValue f (setField g v r) = if decide (f = g) then Some v else fieldValue f r.
Proof. unfold fieldValue, setField. rewrite lookupKey_upsert by done. by case_decide. Qed.

Section same.
Context (r r' : jobject) (Hf : ∀ f, fieldValue f r = fieldValue f r').

Lemma same_getField f : getField f r = getField f r'.
Proof using Hf. by rewrite !getField_value, Hf. Qed.

Lemma same_hasOwn f : hasOwn f r = hasOwn f r'.
Proof using Hf. by rewrite !hasOwn_value, Hf. Qed.

Lemma same_requireString f b : requireString r f b = requireString r' f b.
Proof using Hf. unfold requireString. by rewrite same_getField. Qed.

Lemma same_optionalString f : optionalString r f = optionalString r' f.
Proof using Hf. unfold optionalString. by rewrite same_getField, same_requireString. Qed.

Lemma same_natural f : requireNonNegativeInteger r f = requireNonNegativeInteger r' f.
Proof using Hf. unfold requireNonNegativeInteger. by rewrite same_getField. Qed.

Lemma same_optionalNatural f : optionalNonNegativeInteger r f = optionalNonNegativeInteger r' f.
Proof using Hf. unfold optionalNonNegativeInteger. by rewrite same_getField, same_natural. Qed.

Lemma same_artifact : optionalResultArtifact r = optionalResultArtifact r'.
Proof using Hf. unfold optionalResultArtifact. by rewrite same_getField. Qed.

Lemma same_present f : requirePresent r f = requirePresent r' f.
Proof using Hf. unfold requirePresent. by rewrite same_hasOwn, same_getField. Qed.

Lemma same_timestamp f : requireTimestamp r f = requireTimestamp r' f.
Proof using Hf. unfold requireTimestamp. by rewrite same_getField. Qed.

Lemma same_parse : parseRunEvent (JObject r) = parseRunEvent (JObject r').
Proof using Hf.
  unfold parseRunEvent, parseBase. cbn [asRecord]. rewrite !same_getField, !same_requireString.
  destruct (isSupportedVersion _); [|done]. destruct (asRunEventType _) as [t|]; [|done]. cbn [negb].
  match goal with |- (mbind _ ?b) = _ => destruct b as [b'|]; [|done] end. cbn [mbind result_bind].
  destruct t; cbn [parseBody]; unfold parseRunStarted, parseTokenDelta, parseToolRequested, parseApprovalRequested,
      parseApprovalResolved, parseToolCompleted, parseToolFailed, parseRunCompleted, parseRunFailed, parseRunCancelled,
      parseRunSteered;
    by rewrite ?same_getField, ?same_requireString, ?same_optionalString, ?same_optionalNatural, ?same_artifact,
      ?same_present, ?same_timestamp.
Qed.
End same.

(** The row the sink writes for an event, read back. *)
Lemma storedRunEvent_sink e row :
  wfEvent e = true → evPayload row = JObject (bodyFields (body e)) → evRun row = Some (runId (base e)) →
  evType row = eventTypeName (eventType (body e)) →
  storedRunEvent (eventRow (threadId (base e)) (seq (base e)) row) = Ok e.
Proof.
  intros Hwf Hp Hr Ht. rewrite <- (parseRunEvent_object e Hwf). unfold storedRunEvent, eventRow. cbn [rowRunId]. rewrite Hr.
  apply same_parse. intros f. cbn [rowType rowThreadId rowSeq payload]. rewrite Hp, Ht. cbn [payloadFields].
  rewrite !fieldValue_set. cbn [app]. rewrite !fieldValue_cons. repeat (case_decide; try subst f); first [reflexivity|discriminate|congruence].
Qed.

(** ** The log of a thread *)

Section log.
Context (t : jstr) (after : Z) (db : Conversations).

Definition logRows : list (Z * EventRow) :=
  omap (λ kv, if bool_decide (kv.1.1 = t) && (after <? kv.1.2)%Z then Some (kv.1.2, kv.2) else None)
       (map_to_list (events db)).

Lemma elem_of_logRows q row : (q, row) ∈ logRows ↔ events db !! (t, q) = Some row ∧ (after < q)%Z.
Proof.
  unfold logRows. rewrite list_elem_of_omap. split.
  - intros ([[t' q'] row'] & Hin & Hm). cbn in Hm. destruct (bool_decide_reflect (t' = t)) as [->|]; [|done].
    destruct (Z.ltb_spec after q'); [|done]. injection Hm as -> ->. split; [by apply elem_of_map_to_list|done].
  - intros [Hq Ha]. exists ((t, q), row). split; [by apply elem_of_map_to_list|]. cbn.
    rewrite bool_decide_true by done. cbn. by destruct (Z.ltb_spec after q); [|lia].
Qed.
End log.

Lemma listEventsAfter_rows s t after limit db row :
  threadIn s t db = Some row →
  listEventsAfter s t after limit db =
  (λ e, storedRunEvent (eventRow t e.1 e.2)) <$>
    take limit (orderBy (λ e f : Z * EventRow, (e.1 <=? f.1)%Z) (logRows t after db)).
Proof. unfold listEventsAfter. by intros ->. Qed.

(** The event's own JSON: what [JSON.stringify] keeps of its payload is all of it. *)
Definition jsonEvent (e : RunEvent) : Prop := payloadJson e = Text (JObject (bodyFields (body e))).

Lemma appendEvent_ok s e now db ws ks :
  jsonEvent e → appendEvent s e now db = (Ok (Some ()), ws, ks) →
  ∃ t row, threads db !! threadId (base e) = Some t ∧ thSpace t = s ∧
    events db !! (threadId (base e), seq (base e)) = None ∧ ks = [OfThread (threadId (base e))] ∧
    ws = [PutThread (threadId (base e)) (withNextEvent t (Z.max (thNextEvent t) (seq (base e) + 1)));
          PutEvent (threadId (base e)) (seq (base e)) row] ∧
    evPayload row = JObject (bodyFields (body e)) ∧ evRun row = Some (runId (base e)) ∧
    evType row = eventTypeName (eventType (body e)) ∧
    (seq (base e) < INTEGER_MAX)%Z ∧ storable (JObject (bodyFields (body e))) = true ∧
    is_Some (runInThread s (threadId (base e)) (runId (base e)) db).
Proof.
  unfold jsonEvent, appendEvent. intros ->. intros H.
  destruct (threadIn _ _ _) as [t|] eqn:Et; [|done]. apply threadIn_some in Et as [Ht <-].
  destruct (runInThread _ _ _ _) eqn:Er; [|done]. unfold jsonbParameter in H. destruct (storable _) eqn:Es; [|done].
  destruct (_ <? _)%Z eqn:El; [done|]. apply Z.ltb_ge in El. destruct (bool_decide _) eqn:En; [done|]. apply not_some in En. injection H as <- <-.
  do 2 eexists. split_and!; try done. lia.
Qed.

Lemma omap_length {A B} (f : A → option B) l : length (omap f l) ≤ length l.
Proof. induction l as [|x l IH]; [done|]. cbn. destruct (f x); cbn; lia. Qed.

Lemma logRows_length t after db : length (logRows t after db) ≤ size (events db).
Proof. unfold logRows. etrans; [apply omap_length|]. by rewrite length_map_to_list. Qed.

(** [appendEvent] where the position is taken: it never succeeds and never writes. *)
Lemma appendEvent_taken s e now db :
  is_Some (events db !! (threadId (base e), seq (base e))) →
  (appendEvent s e now db).1.1 ≠ Ok (Some ()) ∧ (appendEvent s e now db).1.2 = [].
Proof.
  intros Htaken. unfold appendEvent. destruct (threadIn _ _ _); [|done]. destruct (runInThread _ _ _ _); [|done].
  destruct (match payloadJson e with Text v => jsonbParameter v | _ => None end); [|done].
  destruct (_ <? _)%Z; [done|]. by rewrite bool_decide_true.
Qed.

Lemma appendEvent_violation s e now db :
  is_Some (threadIn s (threadId (base e)) db) → is_Some (runInThread s (threadId (base e)) (runId (base e)) db) →
  jsonEvent e → storable (JObject (bodyFields (body e))) = true → (seq (base e) < INTEGER_MAX)%Z →
  is_Some (events db !! (threadId (base e), seq (base e))) →
  (appendEvent s e now db).1.1 = Err UniqueViolation.
Proof.
  intros [t Ht] [r Hr] Hj Hst Hmax Htaken. unfold appendEvent. rewrite Ht, Hr, Hj. unfold jsonbParameter. rewrite Hst.
  destruct (Z.ltb_spec INTEGER_MAX (seq (base e) + 1)); [lia|]. by rewrite bool_decide_true.
Qed.


(** A token of the demo run, appended to the demo thread. *)
Definition demoEvent : RunEvent :=
  {| base := {| seq := 7; threadId := u "thread"; runId := u "run-1" |};
     body := TokenDelta (u "message-2") (u "hi") |}.

(** Another event at the same position. *)
Definition rivalEvent : RunEvent :=
  {| base := {| seq := 7; threadId := u "thread"; runId := u "run-1" |};
     body := TokenDelta (u "message-2") (u "ho") |}.

