(* ===== verification/RoutineScheduler.v ===== *)
(** The routine scheduler (apps/worker/src/jobs/routine-schedule.ts): the minute job
    that settles each due slot and hands the runs to the queue.  The queue is an
    argument: whether it takes a delivery.  The ids of a pass are fresh ones the
    database generates, one set per candidate. *)

From S2P Require Import Prelude JsText JsValue Json RunState Transactions RunTables.
From S2P Require Import Conversations MessageStore RunCreation RoutineSchedule RoutineStore.
From S2P Require Import ConversationSteps ConversationCommands ConversationInvariants ConversationSystem ConversationAnswers ConversationExamples.

(** [parseRoutineTickPayload]: an object with nothing but the [_cron] marker; the error
    names the first other key, in the order the object lists them. *)
Inductive TickPayloadError := NotAnObject | CarriesKey (key : jstr).

Definition parseRoutineTickPayload (payload : jsval) : result TickPayloadError unit :=
  match asRecord payload with
  | None => Err NotAnObject
  | Some fields =>
      match List.find (λ key, negb (bool_decide (key = u "_cron"))) (fst <$> fields) with
      | Some key => Err (CarriesKey key)
      | None => Ok ()
      end
  end.

Inductive SlotOutcome := slot_fired | slot_missed | slot_skipped | slot_invalid | slot_failed.
#[export] Instance SlotOutcome_dec : EqDecision SlotOutcome. Proof. solve_decision. Defined.

(** What a pass reports: the outcome of each candidate, and the deliveries the queue took. *)
Record TickReport := { trOutcomes : list SlotOutcome; trSettled : list Delivery; trDispatched : list Delivery }.

Section scheduler.
Context `{Timezones} (takes : Delivery → bool).

(** A [RoutineScheduleError] is a schedule the routine cannot have; anything else is thrown. *)
Definition isScheduleError (e : RoutineScheduleError) : bool :=
  match e with InvalidSearchDate | ClockMovedTooFar _ => false | _ => true end.

Definition decideCandidate (c : DueRoutine) : result RoutineScheduleError RoutineDueDecision :=
  cron ← parseRoutineCron (drCron c);
  decideRoutineDue cron (drTimezone c) (drNextRunAt c) (drNow c).

Definition deliveryOf (run : jstr * RunHead) : Delivery :=
  {| deRun := run.1; deFence := rhFence run.2; deSpace := rhSpace run.2 |}.

Definition slotInput (c : DueRoutine) (scheduledFor nextRunAt : Z) : SlotInput :=
  {| siRoutine := drId c; siScheduledFor := scheduledFor; siNextRunAt := nextRunAt |}.

(** [settleSlot] inside [settleSafely]: an error is the outcome [failed], with the
    slot as it was unless the error was the queue's. *)
Definition settleSlot (c : DueRoutine) (ids : FireIds) : call (SlotOutcome * list Delivery) :=
  match decideCandidate c with
  | Err e => Finish (if isScheduleError e then slot_invalid else slot_failed, [])
  | Ok (Wait _) => Finish (slot_skipped, [])
  | Ok (Miss scheduledFor nextRunAt _) =>
      script_map (recordMissedOccurrence (drSpace c) (slotInput c scheduledFor nextRunAt) (fireOccurrence ids)) (λ r,
        match r with
        | Err _ => (slot_failed, [])
        | Ok None => (slot_skipped, [])
        | Ok (Some _) => (slot_missed, [])
        end)
  | Ok (Fire scheduledFor nextRunAt _) =>
      script_map (createRoutineRun (drSpace c) (slotInput c scheduledFor nextRunAt) ids) (λ r,
        match r with
        | Err _ => (slot_failed, [])
        | Ok None => (slot_skipped, [])
        | Ok (Some fired) =>
            if takes (deliveryOf (rrRun fired)) then (slot_fired, [deliveryOf (rrRun fired)]) else (slot_failed, [])
        end)
  end.

(** The candidates one after the other. *)
Fixpoint settleEach (due : list DueRoutine) (ids : nat → FireIds) (n : nat) : call (list (SlotOutcome * list Delivery)) :=
  match due with
  | [] => Finish []
  | c :: due' =>
      script_bind (settleSlot c (ids n)) (λ o, script_map (settleEach due' ids (S n)) (λ os, o :: os))
  end.

(** A scan outside of a transaction. *)
Definition scan {X} (stmt : txStatement (Db := Conversations) (W := write) (L := lock) X) : tx X :=
  Ask stmt (λ x, Return x).

(** The stranded runs, one after the other: the first delivery the queue refuses ends the pass. *)
Fixpoint dispatchEach (stranded : list Delivery) : option (list Delivery) :=
  match stranded with
  | [] => Some []
  | d :: stranded' => if takes d then (λ ds, d :: ds) <$> dispatchEach stranded' else None
  end.

(** [None]: the queue's error, which the job passes on. *)
Definition routineTick (ids : nat → FireIds) (batchLimit : nat) :
    call (result ConversationError (option TickReport)) :=
  Transact (scan (listDueRoutines batchLimit)) (λ due,
  match due with
  | Err e => Finish (Err e)
  | Ok due =>
      script_bind (settleEach due ids 0) (λ settled,
      Transact (scan (findQueuedRoutineRuns batchLimit ROUTINE_DISPATCH_GRACE_SECONDS)) (λ stranded,
      Finish match stranded with
      | Err e => Err e
      | Ok stranded =>
          Ok ((λ ds, {| trOutcomes := settled.*1; trSettled := concat settled.*2; trDispatched := ds |})
                <$> dispatchEach stranded)
      end))
  end).
End scheduler.

(** ** A slot settled with nobody else *)

Lemma insertTaskRow_fresh {X} s id seed (answer : TaskRow → X) db prompt :
  textParameter (tsPrompt seed) = Some prompt → tasks db !! id = None →
  let row := {| tkSpace := s; tkBot := tsBot seed; tkThread := tsThread seed; tkUser := tsUser seed; tkPrompt := prompt |} in
  insertTaskRow s id seed answer db = (Ok (answer row), [PutTask id row], [OfTask id]).
Proof. intros Hp Hn. unfold insertTaskRow, withText. by rewrite Hp, Hn. Qed.

Lemma insertRunRow_fresh id run now db n :
  textParameter (rhNonce (run now)) = Some n → runByNonce (rhSpace (run now)) n db = None → runs db !! id = None →
  let row := {| rhSpace := rhSpace (run now); rhBot := rhBot (run now); rhThread := rhThread (run now);
                rhTask := rhTask (run now); rhUser := rhUser (run now); rhStatus := rhStatus (run now);
                rhTrigger := rhTrigger (run now); rhNonce := n; rhSource := None; rhOwner := None;
                rhFence := 0; rhCreatedAt := now |} in
  insertRunRow id run now db = (Ok (Some row), [PutRun id row], [OfRun id; OfNonce (rhSpace (run now)) n]).
Proof.
  intros Hp Hn Hr row. unfold insertRunRow, withText. rewrite Hp. cbn [rhSpace].
  by rewrite !bool_decide_false by (rewrite ?Hn, ?Hr; by intros []).
Qed.

Lemma linkOccurrence_found input run now db o :
  occurrences db !! (siRoutine input, slotOf input) = Some o →
  linkOccurrence input run now db =
    (Ok (), [PutOccurrence (siRoutine input) (slotOf input) {| ocId := ocId o; ocRun := Some run |}], []).
Proof. unfold linkOccurrence. by intros ->. Qed.

Lemma advanceRoutine_found s input now db r :
  routines db !! siRoutine input = Some r → roSpace r = s → columnDate (roNextRunAt r) = siScheduledFor input →
  advanceRoutine s input now db =
    (Ok true, [PutRoutine (siRoutine input) (withNextRun r (siNextRunAt input * 1000))], [OfRoutine (siRoutine input)]).
Proof. unfold advanceRoutine. intros -> -> ->. by rewrite bool_decide_true, Z.eqb_refl. Qed.

(** What firing a slot needs to find: the routine at the slot, the slot and its nonce
    free, and ids nobody has. *)
Record fireable (s : jstr) (input : SlotInput) (ids : FireIds) (r : RoutineRow) (prompt nonce : jstr)
    (db : Conversations) : Prop := {
  fireable_at : routineAt s (siRoutine input) (siScheduledFor input) db = Some r;
  fireable_slot : occurrences db !! (siRoutine input, slotOf input) = None;
  fireable_prompt : textParameter (roInstruction r) = Some prompt;
  fireable_nonce : textParameter (routineRunNonce (siRoutine input) (siScheduledFor input)) = Some nonce;
  fireable_free : runByNonce s nonce db = None;
  fireable_task : tasks db !! fireTask ids = None;
  fireable_run : runs db !! fireRun ids = None }.

Definition firedTask (s : jstr) (r : RoutineRow) (prompt : jstr) : TaskRow :=
  {| tkSpace := s; tkBot := roBot r; tkThread := roThread r; tkUser := roUser r; tkPrompt := prompt |}.

Definition firedRun (s : jstr) (ids : FireIds) (r : RoutineRow) (nonce : jstr) (now : Z) : RunHead :=
  {| rhSpace := s; rhBot := roBot r; rhThread := roThread r; rhTask := fireTask ids; rhUser := roUser r;
     rhStatus := INITIAL_RUN_STATUS; rhTrigger := routine_trigger; rhNonce := nonce; rhSource := None;
     rhOwner := None; rhFence := 0; rhCreatedAt := now |}.

Lemma fireRoutineOnce_alone s input ids r prompt nonce now db :
  fireable s input ids r prompt nonce db →
  txAlone applyWrite (fireRoutineOnce s input ids) now [] db =
  (Ok (Some {| rrRun := (fireRun ids, firedRun s ids r nonce now); rrOccurrence := fireOccurrence ids |}),
   overlay applyWrite
     [PutOccurrence (siRoutine input) (slotOf input) {| ocId := fireOccurrence ids; ocRun := None |};
      PutTask (fireTask ids) (firedTask s r prompt); PutRun (fireRun ids) (firedRun s ids r nonce now);
      PutOccurrence (siRoutine input) (slotOf input) {| ocId := fireOccurrence ids; ocRun := Some (fireRun ids) |};
      PutRoutine (siRoutine input) (withNextRun r (siNextRunAt input * 1000))] db).
Proof.
  intros [Hat Hslot Hp Hn Hfree Ht Hr]. apply routineAt_some in Hat as Hlive.
  destruct Hlive as ((Hrow & Hs & _)%liveRoutine_some & _ & Hdate).
  unfold fireRoutineOnce. rewrite txAlone_demand. unfold lockRoutineAt at 1. cbn [overlay foldl]. rewrite Hat.
  cbn [app]. rewrite txAlone_demand. unfold insertOccurrence at 1. cbn [overlay foldl]. rewrite Hslot.
  cbn [app]. rewrite txAlone_demand. unfold insertRoutineTask at 1. erewrite insertTaskRow_fresh by (exact Hp || exact Ht).
  cbn [app]. rewrite txAlone_demand. erewrite insertRunRow_fresh by (exact Hn || exact Hfree || exact Hr).
  cbn [app]. rewrite txAlone_demand.
  erewrite linkOccurrence_found by (readOwn; by rewrite lookup_insert_eq).
  cbn [app]. rewrite txAlone_demand. erewrite advanceRoutine_found by (readOwn; done). done.
Qed.

Lemma recordMissedOnce_alone s input id r now db :
  routineAt s (siRoutine input) (siScheduledFor input) db = Some r →
  occurrences db !! (siRoutine input, slotOf input) = None →
  txAlone applyWrite (recordMissedOnce s input id) now [] db =
  (Ok (Some {| ocId := id; ocRun := None |}),
   overlay applyWrite
     [PutOccurrence (siRoutine input) (slotOf input) {| ocId := id; ocRun := None |};
      PutRoutine (siRoutine input) (withNextRun r (siNextRunAt input * 1000))] db).
Proof.
  intros Hat Hslot. apply routineAt_some in Hat as Hlive. destruct Hlive as ((Hrow & Hs & _)%liveRoutine_some & _ & Hdate).
  unfold recordMissedOnce. rewrite txAlone_demand. unfold lockRoutineAt at 1. cbn [overlay foldl]. rewrite Hat.
  cbn [app]. rewrite txAlone_demand. unfold insertOccurrence at 1. cbn [overlay foldl]. rewrite Hslot.
  cbn [app]. rewrite txAlone_demand. by erewrite advanceRoutine_found by (readOwn; done).
Qed.

Lemma script_map_alone {A B} (s : call A) (f : A → B) now db :
  scriptAlone applyWrite (script_map s f) now db = (f (scriptAlone applyWrite s now db).1, (scriptAlone applyWrite s now db).2).
Proof.
  revert db. induction s as [a|C t k IH]; intros db; cbn [script_map scriptAlone]; [done|].
  destruct (txAlone applyWrite t now [] db) as [r d]. apply IH.
Qed.

Section exact.
Context `{Timezones} (takes : Delivery → bool).

(** The routine's cursor, in the milliseconds the schedule counts. *)
Definition cursorOf (id : jstr) (db : Conversations) : option Z := (columnDate ∘ roNextRunAt) <$> routines db !! id.

(** What one candidate of a pass does on every decision: a later slot is skipped,
    a due one is fired (run, task and occurrence inserted, the run handed to the queue,
    the cursor moved past the slot), one later than the grace is recorded missed with no
    run, and a schedule that cannot be read changes nothing. A queue that refuses the
    run leaves the slot fired and reports it failed. *)
Theorem settleSlot_exact c ids r prompt nonce now db :
  (∀ next, fireable (drSpace c) (slotInput c (drNextRunAt c) next) ids r prompt nonce db) →
  let '(answer, db') := scriptAlone applyWrite (settleSlot takes c ids) now db in
  let slot := (drId c, drNextRunAt c * 1000)%Z in
  match decideCandidate c with
  | Ok (Wait next) => (drNow c < next)%Z ∧ answer = (slot_skipped, []) ∧ db' = db
  | Ok (Fire _ next _) =>
      let d := {| deRun := fireRun ids; deFence := 0; deSpace := drSpace c |} in
      answer = (if takes d then (slot_fired, [d]) else (slot_failed, [])) ∧
      occurrences db' !! slot = Some {| ocId := fireOccurrence ids; ocRun := Some (fireRun ids) |} ∧
      runs db' !! fireRun ids = Some (firedRun (drSpace c) ids r nonce now) ∧
      tasks db' !! fireTask ids = Some (firedTask (drSpace c) r prompt) ∧
      cursorOf (drId c) db' = Some next ∧ (drNextRunAt c < next)%Z ∧ (drNow c - drNextRunAt c ≤ ROUTINE_MISS_GRACE_MS)%Z
  | Ok (Miss _ next _) =>
      answer = (slot_missed, []) ∧ runs db' = runs db ∧
      occurrences db' !! slot = Some {| ocId := fireOccurrence ids; ocRun := None |} ∧
      cursorOf (drId c) db' = Some next ∧ (drNow c < next)%Z ∧ (ROUTINE_MISS_GRACE_MS < drNow c - drNextRunAt c)%Z
  | Err e => answer = (if isScheduleError e then slot_invalid else slot_failed, []) ∧ db' = db
  end.
Proof.
  intros Hf. unfold settleSlot. destruct (decideCandidate c) as [[s next late|s next late|next]|e] eqn:Ed; [..|done].
  all: unfold decideCandidate in Ed; destruct (parseRoutineCron (drCron c)) as [cron|]; [|done]; cbn [mbind result_bind] in Ed.
  all: pose proof (decideRoutineDue_advances cron (drTimezone c) (drNextRunAt c) (drNow c)) as Hd; rewrite Ed in Hd.
  - destruct Hd as (-> & -> & Hlate & Hnext & _). rewrite script_map_alone. unfold createRoutineRun. cbn [scriptAlone].
    rewrite (fireRoutineOnce_alone _ _ _ _ _ _ _ _ (Hf next)). cbn [fst snd rrRun deliveryOf].
    unfold cursorOf. readOwn. unfold slotOf. cbn [siRoutine siScheduledFor siNextRunAt slotInput].
    rewrite !lookup_insert_eq. split_and!; try done; [|lia]. cbn. unfold columnDate. by rewrite Z.div_mul.
  - destruct Hd as (-> & -> & Hlate & Hnext & _). rewrite script_map_alone. unfold recordMissedOccurrence, alone. cbn [scriptAlone].
    destruct (Hf next) as [Hat Hslot _ _ _ _ _]. rewrite (recordMissedOnce_alone _ _ _ _ _ _ Hat Hslot). cbn [fst snd].
    unfold cursorOf. readOwn. unfold slotOf. cbn [siRoutine siScheduledFor siNextRunAt slotInput].
    rewrite !lookup_insert_eq. split_and!; try done. cbn. unfold columnDate. by rewrite Z.div_mul.
  - destruct Hd as [-> Hlt]. by split_and!.
Qed.
End exact.

(** ** A pass among everyone else's commits *)

Section pass.
Context `{Timezones} (takes : Delivery → bool).

(** The queue took it, and it addresses the run of a settled slot. *)
Definition delivered (d : Delivery) (db : Conversations) : Prop :=
  takes d = true ∧
  (∃ run, runs db !! deRun d = Some run ∧ rhSpace run = deSpace d ∧ rhTrigger run = routine_trigger) ∧
  ∃ k o, occurrences db !! k = Some o ∧ ocRun o = Some (deRun d).

Lemma delivered_steps d db db' : steps db db' → delivered d db → delivered d db'.
Proof.
  intros Hs (Ht & (run & Hr & ? & ?) & k & o & Ho & ?). destruct (steps_run _ _ _ _ Hs Hr) as (run' & Hr' & []).
  split_and!; [done|exists run'; split_and!; congruence|]. exists k, o. split; [by eapply steps_occurrence|done].
Qed.

Lemma settleSlot_refines c ids : scriptRefines (settleSlot takes c ids).
Proof.
  unfold settleSlot. destruct (decideCandidate c) as [[]|]; try done; apply scriptRefines_map.
  - split; [apply fireRoutineOnce_refines|done].
  - split; [apply recordMissedOnce_refines|done].
Qed.

Lemma settleSlot_delivers c ids db o ds db' :
  runsTo (settleSlot takes c ids) db (o, ds) db' →
  Forall (λ d, delivered d db') ds ∧ length ds = if decide (o = slot_fired) then 1 else 0.
Proof.
  unfold settleSlot. destruct (decideCandidate c) as [[s next late|s next late|next]|e].
  - intros (r & Ha & (now & d1 & f & d2 & _ & Ht & Hk))%script_map_runs. destruct Hk as [-> ->].
    destruct f as [[fired|]|[]]; simplify_eq; try by split; [constructor|].
    destruct (takes _) eqn:Et; simplify_eq; [|by split; [constructor|]].
    apply txRuns_ok in Ht as (ws & held & d3 & He & ->). apply fireRoutineOnce_commits in He as (_ & Ho & Hr).
    destruct (Hr fired eq_refl) as (Hid & Hrun & Hs & Htr). split; [|done]. apply Forall_singleton. split; [done|].
    split; [exists (rrRun fired).2; cbn; rewrite Hid; done|]. eexists _, _. split; [exact Ho|done].
  - intros (r & Ha & (now & d1 & f & d2 & _ & Ht & Hk))%script_map_runs. destruct Hk as [-> ->].
    destruct f as [[?|]|?]; simplify_eq; by split; [constructor|].
  - intros [[= -> ->] ->]. by split; [constructor|].
  - intros [[= -> ->] ->]. by destruct (isScheduleError e); split; [constructor| |constructor|].
Qed.

Lemma script_bind_refines {A B} (s : call A) (f : A → call B) :
  scriptRefines s → (∀ a, scriptRefines (f a)) → scriptRefines (script_bind s f).
Proof. intros Hs Hf. induction s as [a|C t k IH]; [apply Hf|]. destruct Hs as [Ht Hk]. split; [done|]. intros r. by apply IH. Qed.

Lemma settleEach_refines due ids n : scriptRefines (settleEach takes due ids n).
Proof.
  revert n. induction due as [|c due IH]; intros n; cbn [settleEach]; [done|].
  apply script_bind_refines; [apply settleSlot_refines|]. intros. by apply scriptRefines_map.
Qed.

Definition countFired (os : list SlotOutcome) : nat := length (filter (λ o, o = slot_fired) os).

Lemma settleEach_delivers due ids n db os db' :
  runsTo (settleEach takes due ids n) db os db' →
  Forall (λ d, delivered d db') (concat os.*2) ∧ length os = length due ∧ length (concat os.*2) = countFired os.*1.
Proof.
  revert n db os. induction due as [|c due IH]; intros n db os; cbn [settleEach].
  - intros [-> ->]. by split; [constructor|].
  - intros ([o ds] & d & Hslot & Hrest)%script_bind_runs. apply script_map_runs in Hrest as (os' & -> & Hrest).
    assert (steps d db') as Hs by (eapply scriptRefines_steps; [apply settleEach_refines|exact Hrest]).
    apply settleSlot_delivers in Hslot as [Hds Hn]. apply IH in Hrest as (Hall & Hlen & Hcount).
    cbn [fmap list_fmap fst snd concat]. split_and!; [|cbn; congruence|].
    + apply Forall_app. split; [|done]. eapply Forall_impl; [exact Hds|]. intros x. by apply delivered_steps.
    + unfold countFired in *. rewrite length_app, Hn, Hcount, filter_cons. by case_decide.
Qed.

Lemma scan_runs {X} (stmt : txStatement X) now db x db' :
  (∀ now db, (stmt now db).1.2 = []) → txRuns applyWrite ConnectionLost commits (scan stmt) now db (Ok x) db' →
  ∃ d, steps db d ∧ x = (stmt now d).1.1 ∧ steps d db'.
Proof.
  intros Hw (ws & held & d1 & (d & S1 & He) & ->)%txRuns_ok. cbn [overlay foldl] in He. specialize (Hw now d).
  destruct (stmt now d) as [[y w] l] eqn:E. cbn in Hw. subst w. destruct He as (S2 & [= ->] & -> & _).
  exists d. rewrite E. split_and!; [by eapply others_steps|done|by eapply others_steps].
Qed.

(** A routine run the queue may never have heard of. *)
Definition stranded (now : Z) (run : RunHead) : bool :=
  bool_decide (rhTrigger run = routine_trigger) && bool_decide (rhStatus run = queued) && bool_decide (rhOwner run = None)
  && (rhCreatedAt run <=? now - ROUTINE_DISPATCH_GRACE_SECONDS * SECOND)%Z.

Definition strandedRuns (now : Z) (db : Conversations) : list (jstr * RunHead) :=
  List.filter (λ kv, stranded now kv.2) (map_to_list (runs db)).

Lemma findQueued_elem limit now db d :
  d ∈ (findQueuedRoutineRuns limit ROUTINE_DISPATCH_GRACE_SECONDS now db).1.1 →
  ∃ run, runs db !! deRun d = Some run ∧ d = deliveryOf (deRun d, run) ∧ stranded now run = true.
Proof.
  cbn. intros ([r run] & -> & Hin%elem_of_take)%list_elem_of_fmap. destruct Hin as (i & Hin%list_elem_of_lookup_2 & _).
  rewrite orderBy_perm in Hin. apply list_elem_of_In, filter_In in Hin as [Hin Hs].
  apply list_elem_of_In, elem_of_map_to_list in Hin. by exists run.
Qed.

Lemma findQueued_all limit now db r run :
  runs db !! r = Some run → stranded now run = true → length (strandedRuns now db) ≤ limit →
  deliveryOf (r, run) ∈ (findQueuedRoutineRuns limit ROUTINE_DISPATCH_GRACE_SECONDS now db).1.1.
Proof.
  intros Hr Hs Hlen. cbn. apply list_elem_of_fmap. exists (r, run). split; [done|].
  rewrite take_ge; [|by rewrite orderBy_perm]. rewrite orderBy_perm. apply list_elem_of_In, filter_In.
  split; [|done]. by apply list_elem_of_In, elem_of_map_to_list.
Qed.

Lemma dispatchEach_all l ds : dispatchEach takes l = Some ds → ds = l ∧ Forall (λ d, takes d = true) l.
Proof.
  revert ds. induction l as [|d l IH]; intros ds; cbn [dispatchEach]; [intros [= <-]; by split; [|constructor]|].
  destruct (takes d) eqn:E; [|done]. destruct (dispatchEach takes l) as [ds'|]; [|done]. intros [= <-].
  destruct (IH ds' eq_refl) as [-> ?]. split; [done|by constructor].
Qed.

(** A pass hands the queue what it should, whatever others commit while it runs:
    at most its batch of slots, a run for each slot it reports fired and for no other,
    and of the stranded routine runs only real ones, every one of them when the batch
    can hold them all. *)
Theorem routine_tick_delivers ids limit db report db' :
  runsTo (routineTick takes ids limit) db (Ok (Some report)) db' →
  length (trOutcomes report) ≤ limit ∧
  Forall (λ d, delivered d db') (trSettled report) ∧ length (trSettled report) = countFired (trOutcomes report) ∧
  ∃ now d, steps db d ∧ steps d db' ∧
    (∀ x, x ∈ trDispatched report → takes x = true ∧
       ∃ run, runs d !! deRun x = Some run ∧ x = deliveryOf (deRun x, run) ∧ stranded now run = true) ∧
    (length (strandedRuns now d) ≤ limit → ∀ r run, runs d !! r = Some run → stranded now run = true →
       deliveryOf (r, run) ∈ trDispatched report).
Proof.
  intros (now & d1 & due & d2 & S1 & Hdue & Hrest). destruct due as [due|]; [|by destruct Hrest].
  apply scan_runs in Hdue as (d3 & S3 & Hdue & S2); [|done].
  apply script_bind_runs in Hrest as (settled & d4 & Hset & (now' & d5 & found & d6 & S5 & Hfound & Ha & ->)).
  destruct found as [found|]; [|done]. apply scan_runs in Hfound as (d7 & S7 & Hfound & S6); [|done].
  destruct (dispatchEach takes found) as [ds|] eqn:Ed; [|done]. injection Ha as ->. cbn [trOutcomes trSettled trDispatched].
  apply dispatchEach_all in Ed as [-> Htakes]. rewrite Forall_forall in Htakes.
  assert (steps d2 d4) as S4 by (eapply scriptRefines_steps; [apply settleEach_refines|exact Hset]).
  apply settleEach_delivers in Hset as (Hall & Hlen & Hcount). split_and!.
  - rewrite length_fmap, Hlen, Hdue. cbn. rewrite length_fmap, length_take. lia.
  - eapply Forall_impl; [exact Hall|]. intros x. apply delivered_steps. etrans; [exact S5|]. by etrans.
  - done.
  - exists now', d7. split_and!; [|done|..].
    + do 2 (etrans; [eassumption|]). etrans; [exact S2|]. etrans; [exact S4|]. by etrans.
    + intros x Hx. split; [by apply Htakes|]. rewrite Hfound in Hx. by eapply findQueued_elem.
    + intros Hl r run Hr Hs. rewrite Hfound. by apply findQueued_all.
Qed.
End pass.

(** ** On the demo tables *)

Definition demoCandidate : DueRoutine :=
  {| drId := u "routine"; drSpace := u "space"; drCron := u "* * * * *"; drTimezone := u "UTC";
     drNextRunAt := 60000; drNow := 61000 |}.

Definition demoDelivery : Delivery := {| deRun := u "run-1"; deFence := 0; deSpace := u "space" |}.

Lemma settleSlot_exact_witness :
  let '(answer, db') := scriptAlone applyWrite (@settleSlot newYork (λ _, true) demoCandidate demoFireIds) 61000000 demoDb in
  answer = (slot_fired, [demoDelivery]) ∧ cursorOf (u "routine") db' = Some 120000%Z.
Proof.
  pose proof (@settleSlot_exact newYork (λ _, true) demoCandidate demoFireIds demoRoutine (u "report")
    (u "routine:routine:60000") 61000000 demoDb) as H.
  destruct (scriptAlone applyWrite (@settleSlot newYork (λ _, true) demoCandidate demoFireIds) 61000000 demoDb) as [answer db'] eqn:E.
  destruct (@decideCandidate newYork demoCandidate) as [[s next late|s next late|next]|e] eqn:Ed; [|by vm_compute in Ed..].
  destruct H as (-> & _ & _ & _ & Hc & _); [intros next'; by split; vm_compute|].
  split; [done|]. etrans; [exact Hc|]. vm_compute in Ed. by injection Ed as _ <- _.
Defined.

Lemma routine_tick_delivers_witness :
  let after := scriptAlone applyWrite (@routineTick newYork (λ _, true) (λ _, demoFireIds) 50) 61000000 demoDb in
  match after.1 with
  | Ok (Some report) => trSettled report = [demoDelivery] ∧
      ∃ run, runs after.2 !! u "run-1" = Some run ∧ rhTrigger run = routine_trigger
  | _ => False
  end.
Proof.
  intros after. pose proof (scriptAlone_runs applyWrite ConnectionLost commits
    (@routineTick newYork (λ _, true) (λ _, demoFireIds) 50) 61000000 demoDb : runsTo _ demoDb after.1 after.2) as Hr.
  destruct after.1 as [[report|]|] eqn:E; [|by vm_compute in E..].
  assert (trSettled report = [demoDelivery]) as Hs by (vm_compute in E; by injection E as <-).
  split; [exact Hs|]. clear E. clearbody after.
  destruct (@routine_tick_delivers newYork (λ _, true) _ _ _ _ _ Hr) as (_ & Hall & _).
  rewrite Hs in Hall. apply Forall_singleton in Hall as (_ & (run & Hrun & _ & Ht) & _).
  exists run. split; [exact Hrun|exact Ht].
Defined.
