(* ===== verification/ThreadsService.v ===== *)
(** The thread service (apps/api/src/services/threads.ts): one decision per send over
    what the store says of the nonce and of the thread's live run, and the read of the
    attachments it names (packages/db/src/file-store.ts).  Nothing modelled here writes
    an attachment, so the attachment table is an argument; ids are uuids in the text
    the database gives them. *)

From S2P Require Import Prelude JsText JsValue Json RunState Files Messaging Transactions RunTables.
From S2P Require Import Conversations MessageStore RunCreation.
From S2P Require Import ConversationSteps ConversationCommands ConversationInvariants ConversationSystem ConversationAnswers ConversationExamples.

(** ** Attachments *)

Record AttachmentRow := {
  atSpace : jstr; atThread : jstr; atFilename : jstr; atContentType : jstr; atSizeBytes : Z }.

(** The distinct ids, at their first positions. *)
Fixpoint distinct (ids : list jstr) : list jstr :=
  match ids with
  | [] => []
  | id :: ids' => id :: List.filter (λ x, negb (bool_decide (x = id))) (distinct ids')
  end.

Definition attachmentOf (table : gmap jstr AttachmentRow) (spaceId threadId id : jstr) : option (jstr * AttachmentRow) :=
  row ← table !! id;
  if bool_decide (atSpace row = spaceId) && bool_decide (atThread row = threadId) then Some (id, row) else None.

(** [readAttachments]: one row per distinct id, in the caller's order. *)
Definition readAttachments (table : gmap jstr AttachmentRow) (spaceId threadId : jstr) (ids : list jstr) :
    result ConversationError (list (jstr * AttachmentRow)) :=
  match ids with
  | [] => Ok []
  | first :: _ =>
      let rows := omap (attachmentOf table spaceId threadId) (distinct ids) in
      if bool_decide (length rows ≠ length (distinct ids)) then
        let missing := List.find (λ id, negb (isMember id rows.*1)) ids in
        Err (RowNotFound (u "attachment") (default first missing))
      else Ok rows
  end.

Definition fileOf (a : jstr * AttachmentRow) : FileMessageBlock :=
  {| fmAttachmentId := a.1; fmFilename := atFilename a.2; fmContentType := atContentType a.2;
     fmSizeBytes := atSizeBytes a.2 |}.

(** ** The send *)

Inductive NonceReuse := reused_text | reused_attachments | another_thread.

Inductive SendError :=
| StoreError (e : ConversationError)
| MessageNonceReused (messageId : jstr) (reason : NonceReuse)
| InvalidMessage (reason : jstr)
| SendDefect.

Definition refusedSend (e : MessageRuleError) : SendError :=
  match e with
  | ClientNonceReused m different_text => MessageNonceReused m reused_text
  | ClientNonceReused m different_attachments => MessageNonceReused m reused_attachments
  | TooManyAttachments _ => InvalidMessage (u "too_many_attachments")
  | EmptyMessage => InvalidMessage (u "empty")
  | MessageTooLong _ => InvalidMessage (u "too_long")
  | MissingClientNonce => InvalidMessage (u "missing_nonce")
  | ClientNonceTooLong _ => InvalidMessage (u "nonce_too_long")
  end.

Inductive SendAction := sent_run | sent_steer | sent_replay.

Record SendAnswer := { saAction : SendAction; saMessage : jstr * MessageRow; saRun : option jstr }.

Record SendInput := { siThread : jstr; siText : jstr; siNonce : jstr; siAttachments : list jstr }.

(** [findActiveForThread]: [order by created_at desc, id desc limit 1]. *)
Definition laterRun (a b : jstr * RunHead) : bool :=
  (rhCreatedAt b.2 <? rhCreatedAt a.2)%Z || ((rhCreatedAt a.2 =? rhCreatedAt b.2)%Z && leString b.1 a.1).

Definition findActiveForThread (spaceId threadId : jstr) (db : Conversations) : option (jstr * RunHead) :=
  head (orderBy laterRun (List.filter (λ kv, bool_decide (rhSpace kv.2 = spaceId) && bool_decide (rhThread kv.2 = threadId)
                                             && bool_decide (rhStatus kv.2 ∈ ACTIVE_RUN_STATUSES)) (map_to_list (runs db)))).

Definition requestOf (input : SendInput) : SendMessageRequest :=
  {| sendText := siText input; clientNonce := siNonce input; attachmentIds := Some (siAttachments input) |}.

Definition existingOf (nonce : jstr) (existing : option (jstr * MessageRow)) : option ExistingSend :=
  (λ m, {| exMessageId := m.1; exRunId := msRun m.2;
           exRequest := {| sendText := default [] (messageText (msBlocks m.2)); clientNonce := nonce;
                           attachmentIds := Some (fmAttachmentId <$> default [] (messageFiles (msBlocks m.2))) |} |}) <$> existing.

Definition contextOf (nonce : jstr) (existing : option (jstr * MessageRow)) (active : option (jstr * RunHead)) : MessageContext :=
  {| activeRun := (λ r, {| Messaging.arRunId := r.1; Messaging.arStatus := runStatusName (rhStatus r.2) |}) <$> active;
     existingSend := existingOf nonce existing |}.

Section send.
Context (table : gmap jstr AttachmentRow).

(** The action of a decision, with the store's idempotency behind it. *)
Definition performSend (actor : UserActor) (input : SendInput) (ids : SubmissionIds)
    (existing : option (jstr * MessageRow)) (action : MessageAction) : call (result SendError SendAnswer) :=
  match action with
  | replay _ run =>
      Finish match existing with
      | Some m => Ok {| saAction := sent_replay; saMessage := m; saRun := run |}
      | None => Err SendDefect
      end
  | _ =>
      match readAttachments table (uaSpace actor) (siThread input) (siAttachments input) with
      | Err e => Finish (Err (StoreError e))
      | Ok attachments =>
          let blocks := messageBlocksForSend (siText input) (fileOf <$> attachments) in
          match action with
          | Messaging.steer run =>
              script_map (MessageStore.steer actor
                {| nsThread := siThread input; nsNonce := siNonce input; nsBlocks := blocks; nsRun := run |} (newMessageId ids)) (λ r,
              match r with
              | Ok m => Ok {| saAction := sent_steer; saMessage := m; saRun := Some run |}
              | Err e => Err (StoreError e)
              end)
          | _ =>
              script_map (createRunAndTask actor
                {| nrThread := siThread input; nrNonce := siNonce input;
                   nrPrompt := messagePromptWithAttachments (siText input) (blocksValue blocks); nrBlocks := blocks |} ids) (λ r,
              match r with
              | Ok c =>
                  if bool_decide (rhThread (crRun c).2 = siThread input)
                  then Ok {| saAction := sent_run; saMessage := crMessage c; saRun := Some (crRun c).1 |}
                  else Err (MessageNonceReused (crMessage c).1 another_thread)
              | Err e => Err (StoreError e)
              end)
          end
      end
  end.

Definition send (actor : UserActor) (input : SendInput) (ids : SubmissionIds) : call (result SendError SendAnswer) :=
  Transact (read (threadIn (uaSpace actor) (siThread input))) (λ thread,
  match thread with
  | Err e => Finish (Err (StoreError e))
  | Ok None => Finish (Err (StoreError (RowNotFound (u "thread") (siThread input))))
  | Ok (Some _) =>
      Transact (demand (readByNonce (uaSpace actor) (siThread input) (siNonce input))) (λ existing,
      match existing with
      | Err e => Finish (Err (StoreError e))
      | Ok existing =>
          Transact (read (findActiveForThread (uaSpace actor) (siThread input))) (λ active,
          match active with
          | Err e => Finish (Err (StoreError e))
          | Ok active =>
              match decideMessageSend (requestOf input) (contextOf (siNonce input) existing active) with
              | Err e => Finish (Err (refusedSend e))
              | Ok action => performSend actor input ids existing action
              end
          end)
      end)
  end).
End send.

(** ** What an answer names *)

Lemma messageByNonce_reads s t nonce now db x :
  (readByNonce s t nonce now db).1.1 = Ok (Some x) → msThread x.2 = t ∧ msNonce x.2 = encodeText nonce.
Proof.
  unfold readByNonce, withText. destruct (textParameter nonce) as [n|] eqn:E; [|done].
  apply textParameter_some in E as ->. destruct (threadIn s t db); [|done]. intros [= H].
  destruct x as [id m]. by apply messageByNonce_some in H as (_ & ? & ?).
Qed.

Lemma readByNonce_runs s t nonce now db x db' :
  txRuns applyWrite ConnectionLost commits (demand (readByNonce s t nonce)) now db (Ok (Some x)) db' →
  msThread x.2 = t ∧ msNonce x.2 = encodeText nonce.
Proof.
  intros (d & _ & Hr & _)%demand_runs; [by apply messageByNonce_reads in Hr|].
  intros. unfold readByNonce, withText. by destruct (textParameter nonce).
Qed.

Lemma insertMessage_answer id nm now db r w l :
  insertMessageRow id nm now db = (Ok r, w, l) → msThread r.2 = nmThread nm ∧ msNonce r.2 = encodeText (nmNonce nm).
Proof.
  intros (m & -> & _ & _ & _ & _ & _ & ? & _ & _ & _ & _ & Hn%textParameter_some)%insertMessageRow_ok. done.
Qed.

Lemma steer_answer actor input id db m db' :
  runsTo (MessageStore.steer actor input id) db (Ok m) db' →
  msThread m.2 = nsThread input ∧ msNonce m.2 = encodeText (nsNonce input).
Proof.
  intros (now & d1 & r & d2 & _ & Ht & Hk). destruct r as [m'|e].
  - destruct Hk as [[= ->] ->]. apply txRuns_ok in Ht as (ws & held & d3 & He & _). unfold steerOnce in He.
    apply ends_demand in He as (d4 & q & w1 & l1 & _ & _ & He). destruct q as [[q bot]|]; [|by apply steerRefusal_throws in He].
    apply ends_demand in He as (d5 & m1 & w2 & l2 & _ & Hm & He). apply insertMessage_answer in Hm.
    apply ends_demand in He as (d6 & [] & w3 & l3 & _ & _ & He). by apply ends_return in He as (_ & -> & _).
  - destruct e; try by destruct Hk.
    destruct Hk as (now' & d3 & x & d4 & _ & Hx & Ha & _). destruct x as [[x|]|]; [|done..]. injection Ha as ->.
    by apply readByNonce_runs in Hx.
Qed.

Lemma createRunAndTask_thread actor input ids db c db' :
  runsTo (createRunAndTask actor input ids) db (Ok c) db' → msThread (crMessage c).2 = rhThread (crRun c).2.
Proof.
  unfold createRunAndTask. intros (now & d1 & created & d2 & _ & Ht & Hk).
  destruct created as [c'|[]]; try by destruct Hk.
  - destruct Hk as [[= ->] ->]. apply txRuns_ok in Ht as (ws & held & d & He & ->).
    by apply createOnce_commits in He as (_ & _ & _ & _ & _ & _ & ?).
  - apply script_map_runs in Hk as (r & Ha & Hr). destruct r as [[c'|]|]; [|done..]. injection Ha as ->.
    destruct Hr as (n1 & d3 & found & d4 & _ & _ & Hk). destruct found as [[[r run]|]|]; [|by destruct Hk..].
    destruct (rhSource run) as [m|]; [|by destruct Hk].
    destruct Hk as (n2 & d5 & task & d6 & _ & _ & n3 & d7 & message & d8 & _ & Hm & Ha & _).
    destruct task as [[task|]|], message as [[message|]|]; try done. injection Ha as ->. cbn.
    apply read_runs in Hm as (d9 & _ & Hm & _). symmetry in Hm. unfold messageIn in Hm.
    destruct (messages d9 !! m) as [row|]; [|done]. cbn in Hm.
    destruct (bool_decide_reflect (msThread row = rhThread run)); [|done]. by injection Hm as <-.
Qed.

(** A send answers with its own message: the message is in the thread it was sent
    to, under its own nonce when it steered or replayed, and the run it names is the run
    of the nonce when it started one. *)
Theorem send_answers_own_nonce table actor input ids db answer db' :
  runsTo (send table actor input ids) db (Ok answer) db' →
  msThread (saMessage answer).2 = siThread input ∧
  match saAction answer with
  | sent_replay => msNonce (saMessage answer).2 = encodeText (siNonce input) ∧ saRun answer = msRun (saMessage answer).2
  | sent_steer => msNonce (saMessage answer).2 = encodeText (siNonce input)
  | sent_run => ∃ r k, saRun answer = Some r ∧ names (uaSpace actor) (siNonce input) r k db'
  end.
Proof.
  intros (n1 & d1 & thread & d2 & _ & _ & Hk). destruct thread as [[t|]|]; [|by destruct Hk..].
  destruct Hk as (n2 & d3 & existing & d4 & _ & Hx & Hk). destruct existing as [existing|]; [|by destruct Hk].
  destruct Hk as (n3 & d5 & active & d6 & _ & _ & Hk). destruct active as [active|]; [|by destruct Hk].
  destruct (decideMessageSend _ _) as [action|] eqn:Ed; [|by destruct Hk].
  destruct action as [|run|mid run]; unfold performSend in Hk.
  - destruct (readAttachments _ _ _ _) as [files|]; [|by destruct Hk].
    apply script_map_runs in Hk as ([c|] & Ha & Hc); [|done]. case_bool_decide as Et; [|done]. injection Ha as ->.
    cbn. split; [by rewrite (createRunAndTask_thread _ _ _ _ _ _ Hc)|].
    apply createRunAndTask_names in Hc. eauto.
  - destruct (readAttachments _ _ _ _) as [files|]; [|by destruct Hk].
    apply script_map_runs in Hk as ([m|] & Ha & Hm); [|done]. injection Ha as ->. by apply steer_answer in Hm.
  - destruct Hk as [Ha _]. pose proof (decideMessageSend_exact (requestOf input) (contextOf (siNonce input) existing active)) as He.
    rewrite Ed in He. destruct He as (_ & x & Hex & _ & -> & _).
    destruct existing as [m|]; [|done]. injection Ha as ->. injection Hex as <-. by apply readByNonce_runs in Hx as [? ?].
Qed.

(** ** A send sent again *)

(** The same send again, with the message stored and no one else writing, writes
    nothing and replays the stored message and its run exactly when it names the
    attachments the message stores, in order; with other attachments (a repeated one
    included) it is refused. *)
Theorem send_resubmitted table actor input ids now db t nonce m row files :
  threadIn (uaSpace actor) (siThread input) db = Some t →
  textParameter (siNonce input) = Some nonce → messageByNonce (siThread input) nonce db = Some (m, row) →
  msBlocks row = blocksValue (messageBlocksForSend (siText input) files) → Forall wfFile files →
  validateRequest (requestOf input) = None →
  scriptAlone applyWrite (send table actor input ids) now db =
  (if decide (siAttachments input = fmAttachmentId <$> files)
   then Ok {| saAction := sent_replay; saMessage := (m, row); saRun := msRun row |}
   else Err (MessageNonceReused m reused_attachments), db).
Proof.
  intros Ht Hn Hm Hb Hf Hv.
  destruct (stored_send_replays (siText input) files (siNonce input) m (msRun row) None Hf) as (Htext & Hfiles & _).
  assert (decideMessageSend (requestOf input)
    (contextOf (siNonce input) (Some (m, row)) (findActiveForThread (uaSpace actor) (siThread input) db)) =
    if decide (siAttachments input = fmAttachmentId <$> files) then Ok (replay m (msRun row))
    else Err (ClientNonceReused m different_attachments)) as Hd.
  { unfold decideMessageSend. rewrite Hv. cbn [existingSend contextOf existingOf fmap option_fmap option_map fst snd exRequest sendText].
    rewrite Hb, Htext, Hfiles. cbn [default requestOf sendText attachmentIds exMessageId exRunId id]. rewrite bool_decide_true by done.
    cbn [negb]. pose proof (sameAttachmentIds_true (Some (fmAttachmentId <$> files)) (Some (siAttachments input))) as Hs.
    cbn [default id] in Hs. destruct (sameAttachmentIds _ _); cbn [negb]; case_decide as E; try done.
    - destruct E. symmetry. by apply Hs.
    - symmetry in E. by apply Hs in E. }
  unfold send. cbn -[decideMessageSend contextOf threadIn findActiveForThread readByNonce performSend].
  rewrite Ht. cbn -[decideMessageSend contextOf threadIn findActiveForThread readByNonce performSend].
  unfold readByNonce, withText. rewrite Hn, Ht. cbn -[decideMessageSend contextOf findActiveForThread performSend messageByNonce].
  rewrite Hm, Hd. by case_decide.
Qed.

(** ** On the demo tables *)

Definition demoFiles : gmap jstr AttachmentRow :=
  {[ u "a" := {| atSpace := u "space"; atThread := u "thread"; atFilename := u "notes.txt";
                 atContentType := u "text/plain"; atSizeBytes := 12 |} ]}.

Definition demoSend (attachments : list jstr) (n : jstr) : call (result SendError SendAnswer) :=
  send demoFiles demoActor
    {| siThread := u "thread"; siText := u "hello"; siNonce := u "n"; siAttachments := attachments |} (demoIds n).

Lemma send_answers_own_nonce_witness :
  match (answered (demoSend [u "a"] (u "1")) demoDb).1 with
  | Ok answer => msThread (saMessage answer).2 = u "thread"
  | Err _ => False
  end.
Proof.
  pose proof (answered_runs (demoSend [u "a"] (u "1")) demoDb) as Hr.
  destruct (answered (demoSend [u "a"] (u "1")) demoDb).1 as [answer|] eqn:E; [clear E|by vm_compute in E].
  revert Hr. generalize (answered (demoSend [u "a"] (u "1")) demoDb).2. intros db' Hr.
  destruct (send_answers_own_nonce _ _ _ _ _ _ _ Hr) as [Ht _]. exact Ht.
Defined.

Definition demoFile : FileMessageBlock :=
  {| fmAttachmentId := u "a"; fmFilename := u "notes.txt"; fmContentType := u "text/plain"; fmSizeBytes := 12 |}.

Definition demoSent : Conversations := (answered (demoSend [u "a"] (u "1")) demoDb).2.

Lemma send_resubmitted_witness :
  match (answered (demoSend [u "a"] (u "2")) demoSent).1 with
  | Ok answer => saAction answer = sent_replay ∧ (saMessage answer).1 = u "message-1"
  | Err _ => False
  end.
Proof.
  assert (∃ t, threadIn (u "space") (u "thread") demoSent = Some t) as [t Et] by (eexists; vm_compute; reflexivity).
  assert (∃ row, messageByNonce (u "thread") (u "n") demoSent = Some (u "message-1", row) ∧
    msBlocks row = blocksValue (messageBlocksForSend (u "hello") [demoFile])) as (row & Em & Hb)
    by (eexists; split; [vm_compute; reflexivity|vm_compute; reflexivity]).
  revert Et Em. generalize demoSent. intros sent Et Em. unfold answered, demoSend.
  rewrite (send_resubmitted demoFiles demoActor
    {| siThread := u "thread"; siText := u "hello"; siNonce := u "n"; siAttachments := [u "a"] |} (demoIds (u "2")) 0
    sent t (u "n") (u "message-1") row [demoFile]);
    [|exact Et|reflexivity|exact Em|exact Hb|by apply Forall_singleton|reflexivity].
  by rewrite decide_True.
Defined.

(** An attachment named twice is stored once, so the same send again is refused as
    another one. *)
Example repeated_attachment_conflicts :
  let sent := answered (demoSend [u "a"; u "a"] (u "1")) demoDb in
  is_ok sent.1 = true ∧
  (answered (demoSend [u "a"; u "a"] (u "2")) sent.2).1 = Err (MessageNonceReused (u "message-1") reused_attachments).
Proof. vm_compute. done. Qed.
