(* ===== verification/Bytes.v ===== *)
(** Byte strings as [Buffer] holds them, and the encodings the sources move text
    through: UTF-8, base64 in both alphabets, and hexadecimal.  Encoders and the
    UTF-8 decoder are the standards'; [Buffer.from(text, "base64")], which is lenient
    beyond the standard, is a class with the law the sources rely on.  At the end, the
    platform's cryptography behind the stored secrets. *)

From S2P Require Import Prelude JsText JsValue Redaction Json.
From Stdlib Require Import ZifyN ZifyNat ZifyBool.

Abbreviation bytes := (list N).

Definition isByte (b : N) : bool := (b <? 256)%N.

(** Arithmetic on code units, with divisions by constants. *)
Ltac digits := zify; Z.to_euclidean_division_equations; lia.

(** ** UTF-8 *)

Definition replacement : jstr := [65533%N].

(** The bytes of one scalar value. *)
Definition encodeScalar (c : N) : bytes :=
  if (c <? 128)%N then [c]
  else if (c <? 2048)%N then [192 + c / 64; 128 + c mod 64]%N
  else if (c <? 65536)%N then [224 + c / 4096; 128 + (c / 64) mod 64; 128 + c mod 64]%N
  else [240 + c / 262144; 128 + (c / 4096) mod 64; 128 + (c / 64) mod 64; 128 + c mod 64]%N.

Definition pairScalar (high low : N) : N := (65536 + (high - 55296) * 1024 + (low - 56320))%N.

(** [Buffer.from(s, "utf8")]: an unpaired surrogate is written as U+FFFD. *)
Fixpoint utf8 (s : jstr) : bytes :=
  match s with
  | [] => []
  | c :: s' =>
      if isLowSurrogate c then encodeScalar 65533 ++ utf8 s'
      else if isHighSurrogate c then
        match s' with
        | d :: s'' => if isLowSurrogate d then encodeScalar (pairScalar c d) ++ utf8 s''
                      else encodeScalar 65533 ++ utf8 s'
        | [] => encodeScalar 65533
        end
      else encodeScalar c ++ utf8 s'
  end.

Definition isContinuation (b : N) : bool := ((128 <=? b) && (b <=? 191))%N.

(** The second byte of a three-byte and of a four-byte sequence: neither an overlong
    form, nor a surrogate, nor beyond U+10FFFF. *)
Definition isSecondOf3 (a b : N) : bool :=
  isContinuation b && (if (a =? 224)%N then (160 <=? b)%N else true) && (if (a =? 237)%N then (b <=? 159)%N else true).

Definition isSecondOf4 (a b : N) : bool :=
  isContinuation b && (if (a =? 240)%N then (144 <=? b)%N else true) && (if (a =? 244)%N then (b <=? 143)%N else true).

(** A scalar value as UTF-16 code units. *)
Definition scalarUnits (c : N) : jstr :=
  if (c <? 65536)%N then [c] else [55296 + (c - 65536) / 1024; 56320 + (c - 65536) mod 1024]%N.

(** [buffer.toString("utf8")]: every maximal ill-formed part becomes one U+FFFD. *)
Fixpoint fromUtf8 (bs : bytes) : jstr :=
  match bs with
  | [] => []
  | a :: r1 =>
      if (a <? 128)%N then a :: fromUtf8 r1
      else if ((194 <=? a) && (a <=? 223))%N then
        match r1 with
        | b :: r2 => if isContinuation b then scalarUnits ((a - 192) * 64 + (b - 128)) ++ fromUtf8 r2
                     else replacement ++ fromUtf8 r1
        | [] => replacement
        end
      else if ((224 <=? a) && (a <=? 239))%N then
        match r1 with
        | b :: r2 =>
            if isSecondOf3 a b then
              match r2 with
              | c :: r3 => if isContinuation c
                           then scalarUnits ((a - 224) * 4096 + (b - 128) * 64 + (c - 128)) ++ fromUtf8 r3
                           else replacement ++ fromUtf8 r2
              | [] => replacement
              end
            else replacement ++ fromUtf8 r1
        | [] => replacement
        end
      else if ((240 <=? a) && (a <=? 244))%N then
        match r1 with
        | b :: r2 =>
            if isSecondOf4 a b then
              match r2 with
              | c :: r3 =>
                  if isContinuation c then
                    match r3 with
                    | d :: r4 =>
                        if isContinuation d
                        then scalarUnits ((a - 240) * 262144 + (b - 128) * 4096 + (c - 128) * 64 + (d - 128)) ++ fromUtf8 r4
                        else replacement ++ fromUtf8 r3
                    | [] => replacement
                    end
                  else replacement ++ fromUtf8 r2
              | [] => replacement
              end
            else replacement ++ fromUtf8 r1
        | [] => replacement
        end
      else replacement ++ fromUtf8 r1
  end.

(** ** Base64 *)

Definition base64Char (url : bool) (v : N) : N :=
  if (v <? 26)%N then (65 + v)%N
  else if (v <? 52)%N then (71 + v)%N
  else if (v <? 62)%N then (v - 4)%N
  else if (v =? 62)%N then (if url then 45 else 43)%N
  else (if url then 95 else 47)%N.

Fixpoint base64Digits (bs : bytes) : list N :=
  match bs with
  | [] => []
  | [a] => [a / 4; (a mod 4) * 16]%N
  | [a; b] => [a / 4; (a mod 4) * 16 + b / 16; (b mod 16) * 4]%N
  | a :: b :: c :: bs' =>
      ([a / 4; (a mod 4) * 16 + b / 16; (b mod 16) * 4 + c / 64; c mod 64] ++ base64Digits bs')%N
  end.

(** [buffer.toString("base64url")] and [buffer.toString("base64")]. *)
Definition base64url (bs : bytes) : jstr := base64Char true <$> base64Digits bs.

Definition padding (n : nat) : jstr :=
  match n mod 3 with 1 => [61; 61]%N | 2 => [61%N] | _ => [] end.

Definition base64 (bs : bytes) : jstr := (base64Char false <$> base64Digits bs) ++ padding (length bs).

(** [Buffer.from(text, "base64")] and [Buffer.from(text, "base64url")], which accept
    each other's alphabet and read back what either encoder wrote. *)
Class Base64Platform := fromBase64 : jstr → bytes.

Class Base64Laws (P : Base64Platform) := {
  from_base64url bs : forallb isByte bs = true → fromBase64 (base64url bs) = bs;
  from_base64 bs : forallb isByte bs = true → fromBase64 (base64 bs) = bs;
  from_base64_bytes s : forallb isByte (fromBase64 s) = true }.

(** ** Hexadecimal *)

Definition hexChar (lower : bool) (v : N) : N :=
  if (v <? 10)%N then (48 + v)%N else if lower then (87 + v)%N else (55 + v)%N.

(** [buffer.toString("hex")]. *)
Definition hex (bs : bytes) : jstr := bs ≫= λ b, [hexChar true (b / 16); hexChar true (b mod 16)]%N.

Definition hexValue (c : N) : option N :=
  if isDigit c then Some (c - 48)%N
  else if ((97 <=? c) && (c <=? 102))%N then Some (c - 87)%N
  else if ((65 <=? c) && (c <=? 70))%N then Some (c - 55)%N
  else None.

(** [Buffer.from(text, "hex")]: as far as pairs of digits go. *)
Fixpoint fromHex (s : jstr) : bytes :=
  match s with
  | a :: b :: s' =>
      match hexValue a, hexValue b with
      | Some h, Some l => (h * 16 + l)%N :: fromHex s'
      | _, _ => []
      end
  | _ => []
  end.

(** ** Lemmas *)

Ltac nbools :=
  bools;
  repeat match goal with
  | H : (_ <? _)%N = true |- _ => apply N.ltb_lt in H
  | H : (_ <? _)%N = false |- _ => apply N.ltb_ge in H
  | H : (_ <=? _)%N = true |- _ => apply N.leb_le in H
  | H : (_ <=? _)%N = false |- _ => apply N.leb_gt in H
  | H : (_ =? _)%N = true |- _ => apply N.eqb_eq in H
  | H : (_ =? _)%N = false |- _ => apply N.eqb_neq in H
  end.

(** A comparison decided by arithmetic. *)
Ltac decideN :=
  repeat match goal with
  | |- context [(?a <? ?b)%N] =>
      first [rewrite (proj2 (N.ltb_lt a b)) by digits | rewrite (proj2 (N.ltb_ge a b)) by digits]
  | |- context [(?a <=? ?b)%N] =>
      first [rewrite (proj2 (N.leb_le a b)) by digits | rewrite (proj2 (N.leb_gt a b)) by digits]
  | |- context [(?a =? ?b)%N] =>
      first [rewrite (proj2 (N.eqb_eq a b)) by digits | rewrite (proj2 (N.eqb_neq a b)) by digits]
  end.

Lemma encodeScalar_bytes c : (c < 1114112)%N → forallb isByte (encodeScalar c) = true.
Proof.
  intros Hc. unfold encodeScalar, isByte. repeat case_match; nbools; cbn [forallb]; by decideN.
Qed.

Lemma surrogate_pair c d :
  isHighSurrogate c = true → isLowSurrogate d = true →
  (65536 ≤ pairScalar c d < 1114112)%N ∧ scalarUnits (pairScalar c d) = [c; d].
Proof.
  unfold isHighSurrogate, isLowSurrogate, pairScalar, scalarUnits. intros Hc Hd. nbools.
  decideN. split; [lia|]. repeat f_equal; digits.
Qed.

(** The digits of a scalar value in base 64. *)
Lemma base64_digits c :
  (c = c / 64 * 64 + c mod 64 ∧ c / 64 = c / 4096 * 64 + (c / 64) mod 64 ∧
   c / 4096 = c / 262144 * 64 + (c / 4096) mod 64 ∧
   c mod 64 < 64 ∧ (c / 64) mod 64 < 64 ∧ (c / 4096) mod 64 < 64)%N.
Proof.
  assert (∀ n, n = n / 64 * 64 + n mod 64 ∧ n mod 64 < 64)%N as D by (intros n; digits).
  assert (c / 4096 = c / 64 / 64)%N as -> by (by rewrite N.Div0.div_div).
  assert (c / 262144 = c / 64 / 64 / 64)%N as -> by (by rewrite !N.Div0.div_div).
  pose proof (D c). pose proof (D (c / 64)%N). pose proof (D (c / 64 / 64)%N). tauto.
Qed.

(** A comparison decided by linear arithmetic. *)
Ltac decideLinear :=
  repeat match goal with
  | |- context [(?a <? ?b)%N] =>
      first [rewrite (proj2 (N.ltb_lt a b)) by lia | rewrite (proj2 (N.ltb_ge a b)) by lia]
  | |- context [(?a <=? ?b)%N] =>
      first [rewrite (proj2 (N.leb_le a b)) by lia | rewrite (proj2 (N.leb_gt a b)) by lia]
  | |- context [(?a =? ?b)%N] =>
      first [rewrite (proj2 (N.eqb_eq a b)) by lia | rewrite (proj2 (N.eqb_neq a b)) by lia]
  end.

(** One sequence of each width. *)
Lemma fromUtf8_1 a bs : (a < 128)%N → fromUtf8 (a :: bs) = a :: fromUtf8 bs.
Proof. intros Ha. cbn [fromUtf8]. by rewrite (proj2 (N.ltb_lt _ _) Ha). Qed.

Lemma fromUtf8_2 a b bs :
  (194 ≤ a ≤ 223)%N → isContinuation b = true →
  fromUtf8 (a :: b :: bs) = scalarUnits ((a - 192) * 64 + (b - 128)) ++ fromUtf8 bs.
Proof.
  intros Ha Hb. assert (a <? 128 = false)%N as E1 by lia.
  assert ((194 <=? a) && (a <=? 223) = true)%N as E2 by lia. cbn [fromUtf8]. by rewrite E1, E2, Hb.
Qed.

Lemma fromUtf8_3 a b c bs :
  (224 ≤ a ≤ 239)%N → isSecondOf3 a b = true → isContinuation c = true →
  fromUtf8 (a :: b :: c :: bs) = scalarUnits ((a - 224) * 4096 + (b - 128) * 64 + (c - 128)) ++ fromUtf8 bs.
Proof.
  intros Ha Hb Hc. assert (a <? 128 = false)%N as E1 by lia.
  assert ((194 <=? a) && (a <=? 223) = false)%N as E2 by lia.
  assert ((224 <=? a) && (a <=? 239) = true)%N as E3 by lia. cbn [fromUtf8]. by rewrite E1, E2, E3, Hb, Hc.
Qed.

Lemma fromUtf8_4 a b c d bs :
  (240 ≤ a ≤ 244)%N → isSecondOf4 a b = true → isContinuation c = true → isContinuation d = true →
  fromUtf8 (a :: b :: c :: d :: bs) =
  scalarUnits ((a - 240) * 262144 + (b - 128) * 4096 + (c - 128) * 64 + (d - 128)) ++ fromUtf8 bs.
Proof.
  intros Ha Hb Hc Hd. assert (a <? 128 = false)%N as E1 by lia.
  assert ((194 <=? a) && (a <=? 223) = false)%N as E2 by lia.
  assert ((224 <=? a) && (a <=? 239) = false)%N as E3 by lia.
  assert ((240 <=? a) && (a <=? 244) = true)%N as E4 by lia. cbn [fromUtf8]. by rewrite E1, E2, E3, E4, Hb, Hc, Hd.
Qed.

(** A scalar value decodes to its code units, whatever follows. *)
Lemma fromUtf8_scalar c bs :
  (c < 1114112)%N → isHighSurrogate c || isLowSurrogate c = false →
  fromUtf8 (encodeScalar c ++ bs) = scalarUnits c ++ fromUtf8 bs.
Proof.
  unfold isHighSurrogate, isLowSurrogate. intros Hc Hs.
  assert (¬ (55296 <= c <= 57343)%N) as Hn by lia. clear Hs.
  destruct (base64_digits c) as (E1 & E2 & E3 & L1 & L2 & L3). unfold encodeScalar.
  generalize dependent ((c / 4096) mod 64)%N. generalize dependent ((c / 64) mod 64)%N. generalize dependent (c mod 64)%N.
  generalize dependent (c / 262144)%N. generalize dependent (c / 4096)%N. generalize dependent (c / 64)%N.
  intros c1 c2 c3 d1 E1 L1 d2 E2 L2 d3 E3 L3.
  destruct (N.ltb_spec c 128) as [H1|H1]; [|destruct (N.ltb_spec c 2048) as [H2|H2];
    [|destruct (N.ltb_spec c 65536) as [H3|H3]]]; cbn [app].
  - rewrite fromUtf8_1 by done. unfold scalarUnits. by decideLinear.
  - rewrite fromUtf8_2 by (unfold isContinuation; lia). do 2 f_equal. lia.
  - rewrite fromUtf8_3 by (unfold isSecondOf3, isContinuation; repeat case_match; lia). do 2 f_equal. lia.
  - rewrite fromUtf8_4 by (unfold isSecondOf4, isContinuation; repeat case_match; lia). do 2 f_equal. lia.
Qed.

(** Code units. *)
Definition isText (s : jstr) : bool := forallb (λ c, c <? 65536)%N s.

Lemma isText_cons c s : isText (c :: s) = true ↔ (c < 65536)%N ∧ isText s = true.
Proof. cbn. rewrite andb_true_iff, N.ltb_lt. done. Qed.

Lemma isText_app s t : isText (s ++ t) = isText s && isText t.
Proof. apply forallb_app. Qed.

(** Induction on a text from scalar value to scalar value. *)
Lemma text_ind (P : jstr → Prop) :
  P [] →
  (∀ c s, isHighSurrogate c || isLowSurrogate c = false → P s → P (c :: s)) →
  (∀ c d s, isHighSurrogate c = true → isLowSurrogate d = true → P s → P (c :: d :: s)) →
  (∀ c s, isLowSurrogate c = true ∨ isHighSurrogate c = true ∧ (∀ d s', s = d :: s' → isLowSurrogate d = false) →
     P s → P (c :: s)) →
  ∀ s, P s.
Proof.
  intros Hnil Hone Hpair Hlone s. induction s as [s IH] using (induction_ltof1 _ (@length N)). unfold ltof in IH.
  destruct s as [|c s]; [done|].
  destruct (isLowSurrogate c) eqn:El; [by apply Hlone; [left|apply IH; cbn; lia]|].
  destruct (isHighSurrogate c) eqn:Eh; [|by apply Hone; [by rewrite Eh|apply IH; cbn; lia]].
  destruct s as [|d s]; [by apply Hlone; [right|done]|].
  destruct (isLowSurrogate d) eqn:Ed.
  - by apply Hpair; [| |apply IH; cbn; lia].
  - apply Hlone; [right; by split; [|intros ?? [= <- _]]|apply IH; cbn; lia].
Qed.

Lemma low_not_high c : isLowSurrogate c = true → isHighSurrogate c = false.
Proof. unfold isLowSurrogate, isHighSurrogate. lia. Qed.

(** One step of the encoder for each kind of code unit. *)
Lemma utf8_one c s : isHighSurrogate c || isLowSurrogate c = false → utf8 (c :: s) = encodeScalar c ++ utf8 s.
Proof. intros [Eh El]%orb_false_iff. cbn [utf8]. by rewrite El, Eh. Qed.

Lemma utf8_pair c d s :
  isHighSurrogate c = true → isLowSurrogate d = true →
  utf8 (c :: d :: s) = encodeScalar (pairScalar c d) ++ utf8 s.
Proof.
  intros Hc Hd. cbn [utf8]. destruct (isLowSurrogate c) eqn:E; [by apply low_not_high in E; congruence|].
  by rewrite Hc, Hd.
Qed.

Lemma utf8_lone c s :
  isLowSurrogate c = true ∨ isHighSurrogate c = true ∧ (∀ d s', s = d :: s' → isLowSurrogate d = false) →
  utf8 (c :: s) = encodeScalar 65533 ++ utf8 s ∧ encodeText (c :: s) = 65533%N :: encodeText s.
Proof.
  intros [El|[Eh Hs]]; cbn [utf8 encodeText]; [by rewrite El|].
  destruct (isLowSurrogate c) eqn:El; [done|]. rewrite Eh. destruct s as [|d s]; [by rewrite app_nil_r|].
  by rewrite (Hs d s eq_refl).
Qed.

Lemma fromUtf8_utf8 s : isText s = true → fromUtf8 (utf8 s) = encodeText s.
Proof.
  induction s as [|c s Hc IH|c d s Hc Hd IH|c s Hl IH] using text_ind; intros Ht; [done|..];
    apply isText_cons in Ht as [Hb Ht].
  - rewrite utf8_one, fromUtf8_scalar by (done || lia). rewrite IH by done.
    apply orb_false_iff in Hc as [Eh El]. cbn [encodeText]. rewrite El, Eh. unfold scalarUnits. by decideLinear.
  - apply isText_cons in Ht as [_ Ht]. destruct (surrogate_pair c d Hc Hd) as [Hp Hu].
    rewrite utf8_pair by done. rewrite fromUtf8_scalar, Hu, IH by
      (done || lia || (unfold isHighSurrogate, isLowSurrogate; lia)).
    cbn [encodeText app]. destruct (isLowSurrogate c) eqn:E; [by apply low_not_high in E; congruence|]. by rewrite Hc, Hd.
  - destruct (utf8_lone c s Hl) as [-> ->]. rewrite fromUtf8_scalar by done. by rewrite IH.
Qed.

Lemma utf8_bytes s : isText s = true → forallb isByte (utf8 s) = true.
Proof.
  induction s as [|c s Hc IH|c d s Hc Hd IH|c s Hl IH] using text_ind; intros Ht; [done|..];
    apply isText_cons in Ht as [Hb Ht].
  - rewrite utf8_one, forallb_app, IH by done. rewrite encodeScalar_bytes by lia. done.
  - apply isText_cons in Ht as [_ Ht]. destruct (surrogate_pair c d Hc Hd) as [Hp _].
    rewrite utf8_pair, forallb_app, IH, encodeScalar_bytes by (done || lia). done.
  - destruct (utf8_lone c s Hl) as [-> _]. rewrite forallb_app, IH by done. done.
Qed.

(** ASCII text is its own encoding. *)
Definition isAscii (s : jstr) : bool := forallb (λ c, c <? 128)%N s.

Lemma utf8_ascii s : isAscii s = true → utf8 s = s.
Proof.
  induction s as [|c s IH]; [done|]. cbn. intros [Hc Hs]%andb_true_iff.
  unfold isLowSurrogate, isHighSurrogate. replace ((56320 <=? c) && (c <=? 57343))%N with false by lia.
  replace ((55296 <=? c) && (c <=? 56319))%N with false by lia. rewrite IH by done.
  unfold encodeScalar. by rewrite Hc.
Qed.

Lemma isAscii_text s : isAscii s = true → isText s = true.
Proof. unfold isAscii, isText. rewrite !forallb_forall. intros H x Hx. specialize (H x Hx). lia. Qed.

Lemma encodeText_wellFormed s : storableText s = true → encodeText s = s.
Proof.
  induction s as [|c s Hc IH|c d s Hc Hd IH|c s Hl IH] using text_ind; [done|..]; cbn [storableText encodeText].
  - apply orb_false_iff in Hc as [-> ->]. rewrite orb_false_r. case_match; [done|]. intros Hs. by rewrite IH.
  - destruct (isLowSurrogate c) eqn:E; [by apply low_not_high in E; congruence|]. rewrite orb_false_r, Hc, Hd.
    case_match; [done|]. cbn. intros Hs. by rewrite IH.
  - destruct Hl as [->|[Hh Hn]]; [by rewrite orb_true_r|]. destruct (isLowSurrogate c); [by rewrite orb_true_r|].
    rewrite orb_false_r, Hh. case_match; [done|]. destruct s as [|d s]; [done|]. by rewrite (Hn d s eq_refl).
Qed.

(** ** Base64, encoded and read back *)

Lemma list_ind3 {A} (P : list A → Prop) :
  P [] → (∀ a, P [a]) → (∀ a b, P [a; b]) → (∀ a b c l, P l → P (a :: b :: c :: l)) → ∀ l, P l.
Proof.
  intros H0 H1 H2 H3 l. induction l as [l IH] using (induction_ltof1 _ (@length A)). unfold ltof in IH.
  destruct l as [|a [|b [|c l]]]; [done..|]. apply H3, IH. cbn. lia.
Qed.

Definition isBase64Url (c : N) : bool :=
  ((65 <=? c) && (c <=? 90) || (97 <=? c) && (c <=? 122) || (48 <=? c) && (c <=? 57) || (c =? 45) || (c =? 95))%N.

Lemma base64Char_url v : (v < 64)%N → isBase64Url (base64Char true v) = true.
Proof. intros Hv. unfold base64Char, isBase64Url. repeat case_match; lia. Qed.

Lemma base64Digits_range bs : forallb isByte bs = true → Forall (λ v, v < 64)%N (base64Digits bs).
Proof.
  induction bs as [|a|a b|a b c bs IH] using list_ind3; cbn [forallb base64Digits]; unfold isByte; intros H; bools;
    nbools; repeat constructor; try digits. by apply IH.
Qed.

Lemma base64Digits_length bs : length (base64Digits bs) = (4 * length bs + 2) / 3.
Proof.
  induction bs as [|a|a b|a b c bs IH] using list_ind3; [done..|]. cbn [base64Digits app length]. rewrite IH. digits.
Qed.

Lemma base64url_length bs : length (base64url bs) = (4 * length bs + 2) / 3.
Proof. unfold base64url. by rewrite length_fmap, base64Digits_length. Qed.

Lemma base64url_chars bs : forallb isByte bs = true → forallb isBase64Url (base64url bs) = true.
Proof.
  intros H%base64Digits_range. unfold base64url. apply forallb_forall. intros x Hx%list_elem_of_In.
  apply list_elem_of_fmap in Hx as (v & -> & Hv). rewrite Forall_forall in H. by apply base64Char_url, H.
Qed.

Lemma base64url_ascii s : forallb isBase64Url s = true → isAscii s = true.
Proof. unfold isAscii. rewrite !forallb_forall. intros H x Hx. specialize (H x Hx). unfold isBase64Url in H. lia. Qed.

Lemma base64url_nonempty bs : bs ≠ [] → base64url bs ≠ [].
Proof. destruct bs as [|a [|b [|c bs]]]; done. Qed.

(** A decoder that passes over whatever is in neither alphabet. *)
Definition base64Value (c : N) : option N :=
  if ((65 <=? c) && (c <=? 90))%N then Some (c - 65)%N
  else if ((97 <=? c) && (c <=? 122))%N then Some (c - 71)%N
  else if ((48 <=? c) && (c <=? 57))%N then Some (c + 4)%N
  else if ((c =? 45) || (c =? 43))%N then Some 62%N
  else if ((c =? 95) || (c =? 47))%N then Some 63%N
  else None.

Fixpoint fromDigits (ds : list N) : bytes :=
  match ds with
  | a :: b :: c :: d :: ds' => ([a * 4 + b / 16; (b mod 16) * 16 + c / 4; (c mod 4) * 64 + d] ++ fromDigits ds')%N
  | [a; b; c] => [a * 4 + b / 16; (b mod 16) * 16 + c / 4]%N
  | [a; b] => [a * 4 + b / 16]%N
  | _ => []
  end.

#[export] Instance lenientBase64 : Base64Platform := λ s, fromDigits (omap base64Value s).

Lemma base64Value_char url v : (v < 64)%N → base64Value (base64Char url v) = Some v.
Proof. intros Hv. unfold base64Char, base64Value. destruct url; repeat case_match; f_equal; lia. Qed.

Lemma base64Value_range c v : base64Value c = Some v → (v < 64)%N.
Proof. unfold base64Value. repeat case_match; intros; simplify_eq; lia. Qed.

Lemma omap_base64Value url ds : Forall (λ v, v < 64)%N ds → omap base64Value (base64Char url <$> ds) = ds.
Proof. induction 1 as [|v ds Hv _ IH]; [done|]. cbn. by rewrite base64Value_char, IH. Qed.

Lemma fromDigits_digits bs : forallb isByte bs = true → fromDigits (base64Digits bs) = bs.
Proof.
  induction bs as [|a|a b|a b c bs IH] using list_ind3; cbn [forallb base64Digits fromDigits app]; unfold isByte; intros H;
    [done|bools; nbools; repeat f_equal; try digits..]. by apply IH.
Qed.

Lemma fromDigits_bytes ds : Forall (λ v, v < 64)%N ds → forallb isByte (fromDigits ds) = true.
Proof.
  induction ds as [ds IH] using (induction_ltof1 _ (@length N)). unfold ltof in IH.
  destruct ds as [|a [|b [|c [|d ds]]]]; [done..| | |]; rewrite ?Forall_cons; intros H; destruct_and? H;
    cbn [fromDigits app forallb]; rewrite ?andb_true_r, ?andb_true_iff; unfold isByte; rewrite ?N.ltb_lt;
    repeat split; try digits. apply IH; [cbn; lia|done].
Qed.

#[export] Instance lenientBase64_laws : Base64Laws lenientBase64.
Proof.
  unfold lenientBase64. split; unfold fromBase64.
  - intros bs Hb. unfold base64url. rewrite omap_base64Value by by apply base64Digits_range. by apply fromDigits_digits.
  - intros bs Hb. unfold base64. rewrite omap_app, omap_base64Value by by apply base64Digits_range.
    replace (omap base64Value (padding (length bs))) with (@nil N)
      by (unfold padding; by destruct (length bs mod 3) as [|[|[]]]).
    rewrite app_nil_r. by apply fromDigits_digits.
  - intros s. apply fromDigits_bytes, Forall_forall. intros v (c & _ & Hc)%list_elem_of_omap. by eapply base64Value_range.
Qed.

(** ** Hexadecimal, encoded and read back *)

Lemma hexValue_char lower v : (v < 16)%N → hexValue (hexChar lower v) = Some v.
Proof. intros Hv. unfold hexChar, hexValue, isDigit. destruct lower; repeat case_match; f_equal; lia. Qed.

Lemma hex_cons b bs : hex (b :: bs) = [hexChar true (b / 16); hexChar true (b mod 16)]%N ++ hex bs.
Proof. done. Qed.

Lemma fromHex_hex bs : forallb isByte bs = true → fromHex (hex bs) = bs.
Proof.
  induction bs as [|b bs IH]; [done|]. cbn [forallb]. intros [Hb Hbs]%andb_true_iff. unfold isByte in Hb.
  rewrite hex_cons. cbn [app fromHex]. rewrite !hexValue_char by digits. rewrite IH by done. f_equal. digits.
Qed.

Lemma hex_length bs : length (hex bs) = 2 * length bs.
Proof. induction bs as [|b bs IH]; [done|]. rewrite hex_cons, length_app, IH. cbn. lia. Qed.

(** Bytes that decode to ASCII are that ASCII. *)
Lemma fromUtf8_high a bs : (128 ≤ a)%N → isAscii (fromUtf8 (a :: bs)) = false.
Proof.
  intros Ha. assert (Hu : ∀ c s, (128 ≤ c)%N → isAscii (scalarUnits c ++ s) = false).
  { intros c s Hc. unfold scalarUnits. destruct (N.ltb_spec c 65536); cbn [app isAscii forallb].
    - by rewrite (proj2 (N.ltb_ge c 128)).
    - replace (55296 + (c - 65536) / 1024 <? 128)%N with false by lia. done. }
  assert (Hr : ∀ s, isAscii (replacement ++ s) = false) by done.
  cbn [fromUtf8]. rewrite (proj2 (N.ltb_ge a 128)) by done.
  unfold isSecondOf3, isSecondOf4, isContinuation.
  repeat case_match; bools; try apply Hr; try done; apply Hu; lia.
Qed.

Lemma fromUtf8_ascii bs : isAscii (fromUtf8 bs) = true → fromUtf8 bs = bs.
Proof.
  induction bs as [|a bs IH]; [done|]. destruct (N.lt_ge_cases a 128) as [Ha|Ha].
  - rewrite fromUtf8_1 by done. cbn [isAscii forallb]. intros [_ H]%andb_true_iff. f_equal. by apply IH.
  - by rewrite fromUtf8_high.
Qed.

(** ** Sealing *)

(** AES-256-GCM with its tag (node:crypto's cipher and decipher with [setAAD],
    [getAuthTag], [setAuthTag]), HKDF and scrypt, as classes with their documented
    functional behaviour.  No secrecy is assumed; a theorem that needs unforgeability
    says what a collision would be. *)

(** Tags [setAuthTag] takes for GCM: 4, 8 and 12 to 16 bytes; it throws for others. *)
Definition isTagLength (n : nat) : bool := bool_decide (n ∈ [4; 8; 12; 13; 14; 15; 16]).

Class AeadPlatform := {
  (** The ciphertext and the tag, given key, IV, additional data and plaintext. *)
  gcmSeal : bytes → bytes → bytes → bytes → bytes * bytes;
  (** [None] for the error of [final] when the tag does not authenticate. *)
  gcmOpen : bytes → bytes → bytes → bytes → bytes → option bytes;
  (** Master key, salt, info and length. *)
  hkdfSha256 : bytes → bytes → bytes → nat → bytes }.

Class AeadLaws (P : AeadPlatform) := {
  seal_bytes k iv aad pt :
    forallb isByte pt = true → forallb isByte (gcmSeal k iv aad pt).1 = true ∧ forallb isByte (gcmSeal k iv aad pt).2 = true;
  seal_length k iv aad pt :
    length (gcmSeal k iv aad pt).1 = length pt ∧ length (gcmSeal k iv aad pt).2 = 16;
  (** Opening inverts sealing, and a tag authenticates when it is what sealing gives,
      cut to its own length. *)
  open_seal k iv aad ct tag pt :
    isTagLength (length tag) = true →
    gcmOpen k iv aad ct tag = Some pt ↔
      (gcmSeal k iv aad pt).1 = ct ∧ take (length tag) (gcmSeal k iv aad pt).2 = tag }.

(** ** An instance: the text itself, with a checksum *)

Definition checksum (bs : bytes) : N := foldl (λ h b, (h * 31 + b) mod 65521)%N 7%N bs.

Definition framed (parts : list bytes) : bytes := parts ≫= λ p, N.of_nat (length p) :: p.

Definition checksumTag (k iv aad pt : bytes) : bytes :=
  let sum := checksum (framed [k; iv; aad; pt]) in
  (λ i : nat, (sum + N.of_nat i) mod 256)%N <$> seq 0 16.

#[export] Instance checksumAead : AeadPlatform := {
  gcmSeal k iv aad pt := (pt, checksumTag k iv aad pt);
  gcmOpen k iv aad ct tag := if bool_decide (take (length tag) (checksumTag k iv aad ct) = tag) then Some ct else None;
  hkdfSha256 master salt info n := (λ i : nat, (checksum (framed [master; salt; info]) + N.of_nat i) mod 256)%N <$> seq 0 n }.

#[export] Instance checksumAead_laws : AeadLaws checksumAead.
Proof.
  split; cbn [gcmSeal gcmOpen checksumAead fst snd].
  - intros k iv aad pt Hb. split; [done|]. apply forallb_forall.
    intros x (i & -> & _)%list_elem_of_In%list_elem_of_fmap. unfold isByte. digits.
  - intros k iv aad pt. split; [done|]. unfold checksumTag. by rewrite length_fmap, length_seq.
  - intros k iv aad ct tag pt _. case_bool_decide; naive_solver.
Qed.

Section sealing.
Context `{AeadLaws}.

Lemma open_own k iv aad pt : gcmOpen k iv aad (gcmSeal k iv aad pt).1 (gcmSeal k iv aad pt).2 = Some pt.
Proof.
  destruct (seal_length k iv aad pt) as [_ Ht]. apply open_seal; [by rewrite Ht|]. split; [done|]. by apply take_ge.
Qed.

(** A full tag opens exactly what was sealed. *)
Lemma open_full k iv aad ct tag pt :
  length tag = 16 → gcmOpen k iv aad ct tag = Some pt ↔ gcmSeal k iv aad pt = (ct, tag).
Proof.
  intros Ht. rewrite open_seal by by rewrite Ht. destruct (seal_length k iv aad pt) as [_ Hl].
  rewrite take_ge by lia. destruct (gcmSeal k iv aad pt). cbn. naive_solver.
Qed.
End sealing.
