(* ===== verification/JsonText.v ===== *)
(** JSON as text: what [JSON.stringify] writes of the values the sources build
    themselves (strings, integers, lists and records of them), and [JSON.parse] of any
    text, numbers rounded to doubles. *)

From stdpp Require Import pretty.
From S2P Require Import Prelude JsText JsValue Redaction Json Bytes.
From Stdlib Require Import ZifyN ZifyNat ZifyBool.

(** ** Writing *)

(** The values the sources write.  An integer is one below 2^53, whose text is its
    decimal. *)
Inductive written :=
| WString (s : jstr)
| WInt (z : Z)
| WList (items : list written)
| WRecord (fields : list (jstr * written)).

Section written_rect.
Context (P : written → Prop)
  (Hstring : ∀ s, P (WString s)) (Hint : ∀ z, P (WInt z))
  (Hlist : ∀ items, Forall P items → P (WList items))
  (Hrecord : ∀ fields : list (jstr * written), Forall (λ kv, P kv.2) fields → P (WRecord fields)).

Fixpoint written_nested_ind (w : written) : P w.
Proof.
  destruct w as [s|z|items|fields]; [apply Hstring|apply Hint|apply Hlist|apply Hrecord].
  - induction items as [|x items IH]; constructor; [apply written_nested_ind|exact IH].
  - induction fields as [|[k x] fields IH]; constructor; [apply written_nested_ind|exact IH].
Qed.
End written_rect.

Fixpoint valueOf (w : written) : jsval :=
  match w with
  | WString s => JString s
  | WInt z => JNumber (NInt z)
  | WList items => JArray (valueOf <$> items)
  | WRecord fields => JObject ((λ kv, (kv.1, valueOf kv.2)) <$> fields)
  end.

(** An integer in decimal. *)
Abbreviation decimal z := (u (pretty (z : Z))).

(** [\uXXXX]. *)
Definition unicodeEscape (c : N) : jstr :=
  u "\u" ++ [hexChar true (c / 4096); hexChar true ((c / 256) mod 16);
             hexChar true ((c / 16) mod 16); hexChar true (c mod 16)]%N.

Definition escapeChar (c : N) : jstr :=
  if (c =? 34)%N then [92; 34]%N
  else if (c =? 92)%N then [92; 92]%N
  else if (c =? 8)%N then u "\b"
  else if (c =? 9)%N then u "\t"
  else if (c =? 10)%N then u "\n"
  else if (c =? 12)%N then u "\f"
  else if (c =? 13)%N then u "\r"
  else if (c <? 32)%N then unicodeEscape c
  else [c].

(** The characters of a string: an unpaired surrogate is written as an escape. *)
Fixpoint escapeText (s : jstr) : jstr :=
  match s with
  | [] => []
  | c :: s' =>
      if isLowSurrogate c then unicodeEscape c ++ escapeText s'
      else if isHighSurrogate c then
        match s' with
        | d :: s'' => if isLowSurrogate d then c :: d :: escapeText s'' else unicodeEscape c ++ escapeText s'
        | [] => unicodeEscape c
        end
      else escapeChar c ++ escapeText s'
  end.

Definition quoteText (s : jstr) : jstr := [34%N] ++ escapeText s ++ [34%N].

Fixpoint jsonText (w : written) : jstr :=
  match w with
  | WString s => quoteText s
  | WInt z => decimal z
  | WList items => [91%N] ++ join [44%N] (jsonText <$> items) ++ [93%N]
  | WRecord fields =>
      [123%N] ++ join [44%N] ((λ kv, quoteText kv.1 ++ [58%N] ++ jsonText kv.2) <$> fields) ++ [125%N]
  end.

(** ** Doubles *)

(** The quotient rounded to an integer, a tie to the even one. *)
Definition roundHalfEven (p q : Z) : Z :=
  let n := (p / q)%Z in let r := (p mod q)%Z in
  if (2 * r <? q)%Z then n
  else if (q <? 2 * r)%Z then (n + 1)%Z
  else if Z.even n then n else (n + 1)%Z.

(** [m / 2^k] in lowest terms. *)
Fixpoint reduceDyadic (m : Z) (k : nat) : jsnum :=
  match k with
  | O => NInt m
  | S k' => if Z.even m then reduceDyadic (m / 2) k' else NFrac m (Pos.of_succ_nat k')
  end.

(** The double nearest to [p / q], for positive [p] and [q]. *)
Definition nearestDouble (p q : Z) : jsnum :=
  let k := (Z.log2 p - Z.log2 q)%Z in
  let scale := if (p * 2 ^ Z.max 0 (- k) <? q * 2 ^ Z.max 0 k)%Z then (k - 1)%Z else k in
  let e := Z.max (scale - 52) (-1074) in
  let m := roundHalfEven (p * 2 ^ Z.max 0 (- e)) (q * 2 ^ Z.max 0 e) in
  if (2 ^ 1024 <=? m * 2 ^ Z.max 0 e)%Z then NInfinity false
  else if (0 <=? e)%Z then NInt (m * 2 ^ e)
  else reduceDyadic m (Z.to_nat (- e)).

Definition negateNumber (n : jsnum) : jsnum :=
  match n with
  | NInt z => NInt (- z)
  | NFrac m k => NFrac (- m) k
  | NNaN => NNaN
  | NInfinity b => NInfinity (negb b)
  end.

(** The value of [digits] shifted by the power of ten. *)
Definition decimalNumber (negative : bool) (m e : Z) : jsnum :=
  let n := if (m =? 0)%Z then NInt 0
           else nearestDouble (m * 10 ^ Z.max 0 e) (10 ^ Z.max 0 (- e)) in
  if negative then negateNumber n else n.

(** ** Parsing *)

Definition isJsonSpace (c : N) : bool := bool_decide (c ∈ [9; 10; 13; 32]%N).

Fixpoint skipSpace (s : jstr) : jstr :=
  match s with
  | c :: s' => if isJsonSpace c then skipSpace s' else s
  | [] => []
  end.

(** The digits a text starts with, and what follows them. *)
Fixpoint spanDigits (s : jstr) : jstr * jstr :=
  match s with
  | c :: s' => if isDigit c then let '(ds, r) := spanDigits s' in (c :: ds, r) else ([], s)
  | [] => ([], [])
  end.

(** [(\.\d+)?]: the digits, or [None] for a point with none. *)
Definition parseFraction (s : jstr) : option (jstr * jstr) :=
  match s with
  | 46%N :: s' => match spanDigits s' with ([], _) => None | (ds, r) => Some (ds, r) end
  | _ => Some ([], s)
  end.

(** [[+-]?] and [-?]: the sign, and what follows it. *)
Definition exponentSign (s : jstr) : Z * jstr :=
  match s with 43%N :: r => (1%Z, r) | 45%N :: r => ((-1)%Z, r) | _ => (1%Z, s) end.

Definition minusSign (s : jstr) : bool * jstr :=
  match s with 45%N :: r => (true, r) | _ => (false, s) end.

(** [([eE][+-]?\d+)?]. *)
Definition parseExponent (s : jstr) : option (Z * jstr) :=
  match s with
  | c :: s' =>
      if ((c =? 101) || (c =? 69))%N then
        let '(sign, s'') := exponentSign s' in
        match spanDigits s'' with ([], _) => None | (ds, r) => Some ((sign * numberOf ds)%Z, r) end
      else Some (0%Z, s)
  | [] => Some (0%Z, s)
  end.

(** The digits of an integer part: no zero before another digit. *)
Definition parseInteger (s : jstr) : option (jstr * jstr) :=
  match spanDigits s with
  | ([], _) => None
  | (48%N :: _ :: _, _) => None
  | (ds, r) => Some (ds, r)
  end.

Definition parseNumber (s : jstr) : option (jsnum * jstr) :=
  let '(negative, s1) := minusSign s in
  '(whole, s2) ← parseInteger s1;
  '(fraction, s3) ← parseFraction s2;
  '(e, s4) ← parseExponent s3;
  Some (decimalNumber negative (numberOf (whole ++ fraction)) (e - strlen fraction), s4).

Definition parseHex4 (a b c d : N) : option N :=
  h1 ← hexValue a; h2 ← hexValue b; h3 ← hexValue c; h4 ← hexValue d;
  Some (h1 * 4096 + h2 * 256 + h3 * 16 + h4)%N.

Definition simpleEscape (c : N) : option N :=
  if bool_decide (c ∈ [34; 92; 47]%N) then Some c
  else if (c =? 98)%N then Some 8%N
  else if (c =? 102)%N then Some 12%N
  else if (c =? 110)%N then Some 10%N
  else if (c =? 114)%N then Some 13%N
  else if (c =? 116)%N then Some 9%N
  else None.

(** A string after its opening quotation mark. *)
Fixpoint parseString (s : jstr) : option (jstr * jstr) :=
  match s with
  | [] => None
  | c :: s' =>
      if (c =? 34)%N then Some ([], s')
      else if (c =? 92)%N then
        match s' with
        | e :: s'' =>
            if (e =? 117)%N then
              match s'' with
              | a :: b :: d :: f :: r =>
                  v ← parseHex4 a b d f; '(t, r') ← parseString r; Some (v :: t, r')
              | _ => None
              end
            else v ← simpleEscape e; '(t, r) ← parseString s''; Some (v :: t, r)
        | [] => None
        end
      else if (c <? 32)%N then None
      else '(t, r) ← parseString s'; Some (c :: t, r)
  end.

(** The name of a property and its colon. *)
Definition parseKey (s : jstr) : option (jstr * jstr) :=
  match skipSpace s with
  | [] => None
  | c :: r =>
      if (c =? 34)%N then
        '(k, r1) ← parseString r;
        match skipSpace r1 with
        | c' :: r2 => if (c' =? 58)%N then Some (k, r2) else None
        | [] => None
        end
      else None
  end.

(** A value, the elements after an opening bracket, the properties after an opening
    brace; two levels of calls read a code unit. *)
Fixpoint parseValue (fuel : nat) (s : jstr) : option (jsval * jstr) :=
  match fuel with
  | O => None
  | S fuel' =>
      match skipSpace s with
      | [] => None
      | c :: r =>
          if (c =? 34)%N then '(t, r') ← parseString r; Some (JString t, r')
          else if (c =? 91)%N then
            if startsWith [93%N] (skipSpace r) then Some (JArray [], drop 1 (skipSpace r))
            else '(items, r') ← parseItems fuel' r; Some (JArray items, r')
          else if (c =? 123)%N then
            if startsWith [125%N] (skipSpace r) then Some (JObject [], drop 1 (skipSpace r))
            else '(fields, r') ← parseFields fuel' [] r; Some (JObject fields, r')
          else if startsWith (u "true") (c :: r) then Some (JBool true, drop 3 r)
          else if startsWith (u "false") (c :: r) then Some (JBool false, drop 4 r)
          else if startsWith (u "null") (c :: r) then Some (JNull, drop 3 r)
          else '(n, r') ← parseNumber (c :: r); Some (JNumber n, r')
      end
  end
with parseItems (fuel : nat) (s : jstr) : option (list jsval * jstr) :=
  match fuel with
  | O => None
  | S fuel' =>
      '(v, r) ← parseValue fuel' s;
      match skipSpace r with
      | [] => None
      | c :: r' =>
          if (c =? 44)%N then '(items, r'') ← parseItems fuel' r'; Some (v :: items, r'')
          else if (c =? 93)%N then Some ([v], r')
          else None
      end
  end
with parseFields (fuel : nat) (fields : jobject) (s : jstr) : option (jobject * jstr) :=
  match fuel with
  | O => None
  | S fuel' =>
      '(k, r1) ← parseKey s;
      '(v, r2) ← parseValue fuel' r1;
      match skipSpace r2 with
      | [] => None
      | c :: r3 =>
          if (c =? 44)%N then parseFields fuel' (setField k v fields) r3
          else if (c =? 125)%N then Some (setField k v fields, r3)
          else None
      end
  end.

(** [JSON.parse(text)]: [None] for the SyntaxError. *)
Definition parseJson (text : jstr) : option jsval :=
  match parseValue (S (2 * length text)) text with
  | Some (v, r) => match skipSpace r with [] => Some v | _ => None end
  | None => None
  end.

(** ** Decimals *)

Lemma u_string c s : u (String c s) = N_of_ascii c :: u s.
Proof. done. Qed.

Lemma pretty_digit n : (n < 10)%N → N_of_ascii (pretty_N_char n) = (48 + n)%N.
Proof.
  intros Hn. assert (∃ k, n = N.of_nat k ∧ k < 10) as (k & -> & Hk) by (exists (N.to_nat n); lia).
  do 10 (destruct k as [|k]; [done|]). lia.
Qed.

(** The decimal of a natural: digits, the first one not zero, that read as it. *)
Lemma decimal_go x t :
  (0 < x)%N → ∃ d ds, u (pretty_N_go x t) = d :: ds ++ u t ∧ isDigit d = true ∧ d ≠ 48%N ∧
    forallb isDigit ds = true ∧ numberOf (d :: ds) = Z.of_N x.
Proof.
  revert t; induction x as [x IH] using (well_founded_induction N.lt_wf_0); intros t. intros Hx. rewrite pretty_N_go_step by done.
  assert (x mod 10 < 10)%N as Hm by digits. pose proof (pretty_digit _ Hm) as Hc.
  destruct (N.ltb_spec x 10) as [Hs|Hs].
  - replace (x / 10)%N with 0%N by digits. rewrite pretty_N_go_0, u_string, Hc.
    exists (48 + x mod 10)%N, []. unfold isDigit, numberOf. cbn. split_and!; [done|..]; digits.
  - destruct (IH (x / 10)%N ltac:(digits) (String (pretty_N_char (x mod 10)) t) ltac:(digits))
      as (d & ds & E & Hd & Hz & Hds & Hn).
    exists d, (ds ++ [48 + x mod 10]%N). rewrite E, u_string, Hc. split_and!; [by rewrite <- app_assoc|done..| |].
    + rewrite forallb_app, Hds. cbn. unfold isDigit. lia.
    + unfold numberOf in *. rewrite app_comm_cons, foldl_app, Hn. cbn [foldl]. digits.
Qed.

Definition plainDecimal (n : N) (s : jstr) : Prop :=
  ∃ d ds, s = d :: ds ∧ isDigit d = true ∧ (d = 48%N → ds = []) ∧ forallb isDigit ds = true ∧ numberOf s = Z.of_N n.

Lemma decimal_N n : plainDecimal n (u (pretty n)).
Proof.
  destruct (decide (n = 0%N)) as [->|Hn]; [by exists 48%N, []|].
  replace (u (pretty n)) with (u (pretty_N_go n "")).
  2: { unfold pretty, pretty_N. by rewrite decide_False. }
  destruct (decimal_go n "" ltac:(lia)) as (d & ds & -> & Hd & Hz & Hds & Hv). rewrite app_nil_r.
  exists d, ds. by split_and!.
Qed.

Lemma decimal_Z z : decimal z = (if (z <? 0)%Z then [45%N] else []) ++ u (pretty (Z.abs_N z)).
Proof. by destruct z. Qed.

(** [trim] keeps a numeral. *)
Lemma digits_no_space s : forallb isDigit s = true → Forall (λ c, isSpace c = false) s.
Proof.
  rewrite forallb_forall. intros H. apply Forall_forall. intros c Hc%list_elem_of_In%H. unfold isDigit in Hc.
  unfold isSpace. rewrite bool_decide_false by (rewrite !elem_of_cons, elem_of_nil; lia). lia.
Qed.

Lemma trim_no_space s : Forall (λ c, isSpace c = false) s → trim s = s.
Proof.
  intros Hs. assert (∀ s, Forall (λ c, isSpace c = false) s → dropSpaces s = s) as D.
  { intros r. destruct 1 as [|c r Hc _]; [done|]. cbn. by rewrite Hc. }
  unfold trim. rewrite (D s) by done. rewrite D; [apply rev_involutive|]. by apply Forall_rev.
Qed.

(** ** Numbers, written and read back *)

Lemma spanDigits_app ds r :
  forallb isDigit ds = true → match r with c :: _ => isDigit c = false | [] => True end →
  spanDigits (ds ++ r) = (ds, r).
Proof.
  intros Hd Hr. induction ds as [|d ds IH].
  - destruct r as [|c r]; [done|]. cbn. by rewrite Hr.
  - cbn in Hd. bools. cbn [app spanDigits]. match goal with H : isDigit d = true |- _ => rewrite H end. by rewrite IH.
Qed.

(** What may follow a number. *)
Definition endsNumber (r : jstr) : bool :=
  match r with c :: _ => negb (isDigit c || (c =? 46) || (c =? 101) || (c =? 69))%N | [] => true end.

Lemma roundHalfEven_1 p : roundHalfEven p 1 = p.
Proof. unfold roundHalfEven. by rewrite Z.div_1_r, Z.mod_1_r. Qed.

Lemma reduceDyadic_shifted m k : reduceDyadic (m * 2 ^ Z.of_nat k) k = NInt m.
Proof.
  induction k as [|k IH]; [cbn; by rewrite Z.mul_1_r|].
  assert (m * 2 ^ Z.of_nat (S k) = m * 2 ^ Z.of_nat k * 2)%Z as -> by (rewrite Nat2Z.inj_succ, Z.pow_succ_r; lia).
  cbn [reduceDyadic]. rewrite Z.even_mul, orb_true_r, Z.div_mul by done. apply IH.
Qed.

Lemma nearestDouble_integer m : (0 < m ≤ MAX_SAFE_INTEGER)%Z → nearestDouble m 1 = NInt m.
Proof.
  intros [Hm HM]. unfold nearestDouble. change (Z.log2 1) with 0%Z. rewrite Z.sub_0_r.
  assert (0 ≤ Z.log2 m ≤ 52)%Z as Hl.
  { split; [apply Z.log2_nonneg|]. apply Z.lt_succ_r, Z.log2_lt_pow2; [done|]. unfold MAX_SAFE_INTEGER in HM. lia. }
  pose proof (Z.log2_spec m Hm) as [Hlo _].
  replace (Z.max 0 (- Z.log2 m)) with 0%Z by lia. replace (Z.max 0 (Z.log2 m)) with (Z.log2 m) by lia.
  rewrite Z.mul_1_r, Z.mul_1_l. replace (m <? 2 ^ Z.log2 m)%Z with false by lia. cbv zeta.
  replace (Z.max (Z.log2 m - 52) (-1074))%Z with (- (52 - Z.log2 m))%Z by lia.
  assert (∃ k : nat, (52 - Z.log2 m)%Z = Z.of_nat k) as [k Hk] by (exists (Z.to_nat (52 - Z.log2 m)); lia). rewrite Hk.
  replace (Z.max 0 (- - Z.of_nat k)) with (Z.of_nat k) by lia.
  replace (Z.max 0 (- Z.of_nat k)) with 0%Z by lia. rewrite !Z.mul_1_r.
  change (2 ^ 0)%Z with 1%Z. rewrite roundHalfEven_1.
  assert (m * 2 ^ Z.of_nat k < 2 ^ 1024)%Z as Hb.
  { eapply Z.le_lt_trans; [apply Z.mul_le_mono_nonneg; [lia|exact HM|by apply Z.pow_nonneg|apply (Z.pow_le_mono_r 2 _ 52); lia]|done]. }
  rewrite (proj2 (Z.leb_gt _ _) Hb). case_match eqn:E.
  - assert (k = 0) as -> by lia. cbn; f_equal; lia.
  - rewrite Z.opp_involutive, Nat2Z.id. apply reduceDyadic_shifted.
Qed.

Lemma decimalNumber_integer negative m :
  (0 ≤ m ≤ MAX_SAFE_INTEGER)%Z →
  decimalNumber negative m 0 = NInt (if negative then - m else m).
Proof.
  intros Hm. unfold decimalNumber. change (Z.max 0 0) with 0%Z. change (10 ^ 0)%Z with 1%Z.
  change (10 ^ Z.max 0 (- 0))%Z with 1%Z. rewrite Z.mul_1_r.
  destruct (Z.eqb_spec m 0) as [->|Hz]; [by destruct negative|].
  rewrite nearestDouble_integer by lia. by destruct negative.
Qed.

Lemma digit_not c d : isDigit c = true → isDigit d = false → c ≠ d.
Proof. intros Hc Hd ->. congruence. Qed.

Lemma parseInteger_plain n s r :
  plainDecimal n s → match r with c :: _ => isDigit c = false | [] => True end → parseInteger (s ++ r) = Some (s, r).
Proof.
  intros (d & ds & -> & Hd & Hz & Hds & _) Hr. unfold parseInteger.
  rewrite spanDigits_app by (done || (cbn; by rewrite Hd, Hds)).
  destruct (N.eq_dec d 48%N) as [->|Hn]; [by rewrite Hz|].
  destruct d as [|p]; [done|]. do 6 (destruct p as [p|p|]; try done).
Qed.

Lemma parse_no_fraction r : endsNumber r = true → parseFraction r = Some ([], r) ∧ parseExponent r = Some (0%Z, r).
Proof.
  unfold endsNumber. destruct r as [|c r]; [done|]. intros H. split.
  - unfold parseFraction. destruct (N.eq_dec c 46%N) as [->|Hc]; [done|].
    destruct c as [|p]; [done|]. do 6 (destruct p as [p|p|]; try done).
  - unfold parseExponent. by replace ((c =? 101) || (c =? 69))%N with false by lia.
Qed.

Lemma parseNumber_decimal z r :
  isSafeZ z = true → endsNumber r = true → parseNumber (decimal z ++ r) = Some (NInt z, r).
Proof.
  intros Hz Hr. destruct (parse_no_fraction r Hr) as [Hf He].
  pose proof (decimal_N (Z.abs_N z)) as Hp. rewrite decimal_Z, <- app_assoc.
  assert (parseInteger (u (pretty (Z.abs_N z)) ++ r) = Some (u (pretty (Z.abs_N z)), r)) as Hi.
  { eapply parseInteger_plain; [done|]. unfold endsNumber in Hr. destruct r as [|c r]; [done|]. lia. }
  destruct Hp as (d & ds & E & Hd & _ & _ & Hv). unfold isSafeZ in Hz.
  destruct (Z.ltb_spec z 0) as [Hn|Hn]; cbn [app].
  - unfold parseNumber. cbn [minusSign]. rewrite Hi. cbn [mbind option_bind]. rewrite Hf. cbn [mbind option_bind]. rewrite He. cbn [mbind option_bind].
    change (0 - strlen [])%Z with 0%Z.
    rewrite app_nil_r, Hv, decimalNumber_integer by lia. do 3 f_equal. lia.
  - assert (minusSign (u (pretty (Z.abs_N z)) ++ r) = (false, u (pretty (Z.abs_N z)) ++ r)) as Hm.
    { rewrite E. cbn [app]. destruct (N.eq_dec d 45%N) as [->|Hne]; [done|].
      destruct d as [|p]; [done|]. do 6 (destruct p as [p|p|]; try done). }
    unfold parseNumber. rewrite Hm, Hi. cbn [mbind option_bind]. rewrite Hf. cbn [mbind option_bind]. rewrite He. cbn [mbind option_bind].
    change (0 - strlen [])%Z with 0%Z.
    rewrite app_nil_r, Hv, decimalNumber_integer by lia. do 3 f_equal. lia.
Qed.

Example parse_tenth : parseNumber (u "0.1") = Some (NFrac 3602879701896397 55, []).
Proof. vm_compute. reflexivity. Qed.

Example parse_beyond : parseNumber (u "-1.8e308,") = Some (NInfinity true, u ",").
Proof. vm_compute. reflexivity. Qed.

Example parse_rounded : parseNumber (u "9007199254740993") = Some (NInt 9007199254740992, []).
Proof. vm_compute. reflexivity. Qed.

(** ** Strings, written and read back *)

Lemma parseHex4_escape c :
  (c < 65536)%N →
  parseHex4 (hexChar true (c / 4096)) (hexChar true ((c / 256) mod 16))
    (hexChar true ((c / 16) mod 16)) (hexChar true (c mod 16)) = Some c.
Proof.
  intros Hc. unfold parseHex4. rewrite !hexValue_char by digits. cbn [mbind option_bind]. f_equal.
  assert (∀ n, n = n / 16 * 16 + n mod 16)%N as D by (intros n; digits).
  assert (c / 256 = c / 16 / 16)%N as E1 by (by rewrite N.Div0.div_div).
  assert (c / 4096 = c / 16 / 16 / 16)%N as E2 by (by rewrite !N.Div0.div_div).
  rewrite E1, E2. pose proof (D c). pose proof (D (c / 16)%N). pose proof (D (c / 16 / 16)%N). lia.
Qed.

Lemma parseString_unicode c r :
  (c < 65536)%N → parseString (unicodeEscape c ++ r) = '(t, r') ← parseString r; Some (c :: t, r').
Proof.
  intros Hc. unfold unicodeEscape. change (u "\u") with [92; 117]%N. cbn [app parseString].
  by rewrite parseHex4_escape.
Qed.

Lemma parseString_plain c r :
  c ≠ 34%N → c ≠ 92%N → (32 ≤ c)%N → parseString (c :: r) = '(t, r') ← parseString r; Some (c :: t, r').
Proof.
  intros H1 H2 H3. cbn [parseString]. replace (c =? 34)%N with false by lia.
  replace (c =? 92)%N with false by lia. by replace (c <? 32)%N with false by lia.
Qed.

Lemma parseString_char c r :
  (c < 65536)%N → parseString (escapeChar c ++ r) = '(t, r') ← parseString r; Some (c :: t, r').
Proof.
  intros Hc. unfold escapeChar. repeat case_match; nbools; subst; try done.
  - by apply parseString_unicode.
  - by apply parseString_plain.
Qed.

(** The characters of any text, read up to the closing quotation mark. *)
Lemma parseString_escaped s r :
  isText s = true → parseString (escapeText s ++ 34%N :: r) = Some (s, r).
Proof.
  induction s as [|c s Hc IH|c d s Hc Hd IH|c s Hl IH] using text_ind; intros Ht; [done|..];
    apply isText_cons in Ht as [Hb Ht].
  - apply orb_false_iff in Hc as [Eh El]. cbn [escapeText]. rewrite El, Eh, <- app_assoc.
    by rewrite parseString_char, IH.
  - apply isText_cons in Ht as [_ Ht]. cbn [escapeText].
    destruct (isLowSurrogate c) eqn:E; [by apply low_not_high in E; congruence|]. rewrite Hc, Hd. cbn [app].
    unfold isHighSurrogate, isLowSurrogate in Hc, Hd. rewrite parseString_plain by lia.
    rewrite parseString_plain by lia. by rewrite IH.
  - assert (escapeText (c :: s) = unicodeEscape c ++ escapeText s) as ->.
    { cbn [escapeText]. destruct Hl as [->|[Hh Hn]]; [done|]. destruct (isLowSurrogate c); [done|]. rewrite Hh.
      destruct s as [|d s]; [by rewrite app_nil_r|]. by rewrite (Hn d s eq_refl). }
    rewrite <- app_assoc, parseString_unicode by done. by rewrite IH.
Qed.

Lemma parseString_shorter s t r : parseString s = Some (t, r) → length r < length s.
Proof.
  revert t r. induction s as [s IH] using (induction_ltof1 _ (@length N)). unfold ltof in IH. intros t r H.
  destruct s as [|c s]; [done|]. cbn [parseString] in H. dms; cbn; try lia.
  all: match goal with H : _ ≫= _ = Some _ |- _ => idtac | _ => idtac end.
  all: repeat match goal with
       | H : _ ≫= _ = Some _ |- _ => apply bind_Some in H as (? & ? & ?)
       | x : jstr * jstr |- _ => destruct x
       end; simplify_eq/=.
  all: match goal with H : parseString ?x = Some _ |- _ => apply IH in H; [cbn in *; lia|cbn; lia] end.
Qed.

(** ** Values, written and read back *)

(** Texts of code units, integers below 2^53, no property twice. *)
Fixpoint writable (w : written) : bool :=
  match w with
  | WString s => isText s
  | WInt z => isSafeZ z
  | WList items => forallb writable items
  | WRecord fields =>
      bool_decide (NoDup fields.*1) && forallb (λ kv, isText kv.1 && writable kv.2) fields
  end.

(** The first code unit of a value. *)
Definition startsValue (c : N) : Prop := c ∈ [34; 91; 123; 45; 48; 49; 50; 51; 52; 53; 54; 55; 56; 57]%N.

Lemma jsonText_head w : ∃ c s, jsonText w = c :: s ∧ startsValue c.
Proof.
  destruct w as [s|z|items|fields]; cbn [jsonText].
  - exists 34%N. eexists. split; [done|left].
  - rewrite decimal_Z. destruct (decimal_N (Z.abs_N z)) as (d & ds & -> & Hd & _).
    destruct (z <? 0)%Z; [exists 45%N; eexists; split; [done|by do 3 right; left]|]. exists d, ds. split; [done|].
    unfold startsValue. assert (d = 48 ∨ d = 49 ∨ d = 50 ∨ d = 51 ∨ d = 52 ∨ d = 53 ∨ d = 54 ∨ d = 55 ∨ d = 56 ∨ d = 57)%N
      as Hor by (unfold isDigit in Hd; lia). set_solver.
  - exists 91%N. eexists. split; [done|by right; left].
  - exists 123%N. eexists. split; [done|by do 2 right; left].
Qed.

Ltac valueStarts H :=
  unfold startsValue in H; repeat (apply elem_of_cons in H as [->|H]); [..|by apply elem_of_nil in H].

Lemma parseValue_number f c s :
  (isDigit c || (c =? 45))%N = true →
  parseValue (S f) (c :: s) = '(n, r) ← parseNumber (c :: s); Some (JNumber n, r).
Proof.
  intros Hc. assert (c = 45 ∨ c = 48 ∨ c = 49 ∨ c = 50 ∨ c = 51 ∨ c = 52 ∨ c = 53 ∨ c = 54 ∨ c = 55 ∨ c = 56 ∨ c = 57)%N
    as Hor by (unfold isDigit in Hc; lia).
  repeat (destruct Hor as [->|Hor]; [reflexivity|]). by subst c.
Qed.

(** [parseValue] on what opens a list or a record with something in it. *)
Lemma parseValue_list f c s :
  startsValue c → parseValue (S f) (91%N :: c :: s) = '(items, r) ← parseItems f (c :: s); Some (JArray items, r).
Proof. intros H. valueStarts H; reflexivity. Qed.

Lemma parseValue_record f s :
  parseValue (S f) (123%N :: 34%N :: s) = '(fields, r) ← parseFields f [] (34%N :: s); Some (JObject fields, r).
Proof. reflexivity. Qed.

Definition readsBack (w : written) : Prop :=
  ∀ fuel r, 2 * length (jsonText w) < fuel → endsNumber r = true →
    parseValue fuel (jsonText w ++ r) = Some (valueOf w, r).

Lemma parseItems_written items r fuel :
  items ≠ [] → Forall readsBack items → 2 * length (join [44%N] (jsonText <$> items)) + 1 < fuel →
  parseItems fuel (join [44%N] (jsonText <$> items) ++ 93%N :: r) = Some (valueOf <$> items, r).
Proof.
  intros Hn Hf. revert fuel. induction Hf as [|w items Hw Hf IH]; intros fuel Hl; [done|].
  destruct fuel as [|fuel]; [lia|]. destruct items as [|w' items].
  - cbn [fmap list_fmap join] in *. cbn [parseItems]. rewrite Hw by (done || lia). done.
  - rewrite fmap_cons, join_cons in Hl |- * by done. rewrite length_app in Hl. cbn [length] in Hl.
    rewrite <- app_assoc. cbn [parseItems app]. rewrite Hw by (done || lia). cbn [mbind option_bind].
    change (skipSpace (44%N :: ?s)) with (44%N :: s). cbn [N.eqb Pos.eqb]. rewrite IH by (done || lia). done.
Qed.

Lemma setField_fresh k v (fields : jobject) : k ∉ fields.*1 → setField k v fields = fields ++ [(k, v)].
Proof.
  intros Hk. unfold setField, upsert. replace (existsb _ _) with false; [done|]. symmetry.
  by apply find_none_existsb, lookupKey_none.
Qed.

Definition fieldText (kv : jstr * written) : jstr := quoteText kv.1 ++ [58%N] ++ jsonText kv.2.
Definition fieldValue' (kv : jstr * written) : jstr * jsval := (kv.1, valueOf kv.2).

Lemma parseFields_written (fields : list (jstr * written)) acc r fuel :
  fields ≠ [] → Forall (λ kv, isText kv.1 = true ∧ readsBack kv.2) fields → NoDup (acc.*1 ++ fields.*1) →
  2 * length (join [44%N] (fieldText <$> fields)) + 1 < fuel →
  parseFields fuel acc (join [44%N] (fieldText <$> fields) ++ 125%N :: r) = Some (acc ++ (fieldValue' <$> fields), r).
Proof.
  intros Hn Hf. revert acc fuel. induction Hf as [|[k w] fields [Hk Hw] Hf IH]; intros acc fuel Hd Hl; [done|].
  cbn in Hk, Hw. destruct fuel as [|fuel]; [lia|].
  assert (k ∉ acc.*1) as Hfresh.
  { rewrite fmap_cons in Hd. apply NoDup_app in Hd as (_ & Hd & _). intros Hin. apply (Hd k Hin). left. }
  assert (NoDup ((acc ++ [(k, valueOf w)]).*1 ++ fields.*1)) as Hd'.
  { rewrite fmap_app, <- app_assoc. by rewrite fmap_cons in Hd. }
  assert (∀ tail, parseKey (fieldText (k, w) ++ tail) = Some (k, jsonText w ++ tail)) as Step.
  { intros tail. unfold fieldText, quoteText. cbn [fst snd]. rewrite <- !app_assoc. cbn [app]. unfold parseKey.
    change (skipSpace (34%N :: ?s)) with (34%N :: s). cbn [N.eqb Pos.eqb]. by rewrite parseString_escaped. }
  destruct fields as [|kv fields].
  - cbn [fmap list_fmap join] in *. cbn [parseFields]. rewrite Step. cbn [mbind option_bind].
    unfold fieldText in Hl. rewrite !length_app in Hl. cbn [length snd] in Hl. rewrite Hw by (done || lia). cbn [mbind option_bind].
    change (skipSpace (125%N :: ?s)) with (125%N :: s). cbn [N.eqb Pos.eqb]. by rewrite setField_fresh.
  - rewrite fmap_cons, join_cons in Hl |- * by done. cbn [parseFields]. rewrite <- app_assoc, Step. cbn [mbind option_bind].
    rewrite length_app in Hl. unfold fieldText in Hl at 1. rewrite !length_app in Hl. cbn [length snd] in Hl.
    cbn [app]. rewrite Hw by (done || lia). cbn [mbind option_bind]. change (skipSpace (44%N :: ?s)) with (44%N :: s). cbn [N.eqb Pos.eqb].
    rewrite setField_fresh, IH by (done || lia). by rewrite fmap_cons, <- app_assoc.
Qed.

Lemma parse_written w : writable w = true → readsBack w.
Proof.
  induction w as [s|z|items IH|fields IH] using written_nested_ind; intros Hw fuel r Hl Hr; cbn in Hw;
    (destruct fuel as [|fuel]; [lia|]); cbn [valueOf].
  - cbn [jsonText]. unfold quoteText. rewrite <- !app_assoc. cbn [app parseValue].
    change (skipSpace (34%N :: ?s)) with (34%N :: s). cbn [N.eqb Pos.eqb]. by rewrite parseString_escaped.
  - pose proof (parseNumber_decimal z r Hw Hr) as Hp. cbn [jsonText].
    assert (∃ c s, decimal z = c :: s ∧ (isDigit c || (c =? 45))%N = true) as (c & s & E & Hc).
    { rewrite decimal_Z. destruct (decimal_N (Z.abs_N z)) as (d & ds & -> & Hd & _).
      destruct (z <? 0)%Z; [by exists 45%N; eexists|]. exists d, ds. by rewrite Hd. }
    rewrite E in *. cbn [app] in *. by rewrite parseValue_number, Hp.
  - assert (Forall readsBack items) as Hf.
    { rewrite Forall_forall in IH |- *. intros x Hx. apply IH; [done|]. rewrite forallb_forall in Hw.
      apply Hw. by apply list_elem_of_In. }
    cbn [jsonText] in *. rewrite !length_app in Hl. cbn [length] in Hl. rewrite <- !app_assoc. cbn [app].
    destruct items as [|w items]; [done|].
    pose proof (parseItems_written (w :: items) r fuel ltac:(done) Hf ltac:(lia)) as Hp.
    destruct (jsonText_head w) as (c & s & E & Hc).
    assert (∃ s', join [44%N] (jsonText <$> w :: items) = c :: s') as [s' Es].
    { rewrite fmap_cons. destruct items as [|w' items]; [cbn; rewrite E; eauto|].
      rewrite join_cons by done. rewrite E. eauto. }
    rewrite Es in *. cbn [app] in *. by rewrite parseValue_list, Hp.
  - bools. assert (Forall (λ kv, isText kv.1 = true ∧ readsBack kv.2) fields) as Hf.
    { rewrite Forall_forall in IH |- *. intros x Hx.
      match goal with H : forallb _ _ = true |- _ => rewrite forallb_forall in H; specialize (H x) end.
      assert (isText x.1 && writable x.2 = true) as [? ?]%andb_true_iff by (by apply H0, list_elem_of_In). auto. }
    cbn [jsonText] in *. rewrite !length_app in Hl. cbn [length] in Hl. rewrite <- !app_assoc. cbn [app].
    destruct fields as [|[k w] fields]; [done|].
    pose proof (parseFields_written ((k, w) :: fields) [] r fuel ltac:(done) Hf ltac:(done)) as Hp.
    specialize (Hp ltac:(unfold fieldText; lia)).
    assert (∃ s', join [44%N] (fieldText <$> (k, w) :: fields) = 34%N :: s') as [s' Es].
    { rewrite fmap_cons. destruct fields as [|kv fields]; [cbn; eauto|]. rewrite join_cons by done. cbn. eauto. }
    change (join [44%N] (_ <$> (k, w) :: fields)) with (join [44%N] (fieldText <$> (k, w) :: fields)).
    rewrite Es in *. cbn [app] in *. by rewrite parseValue_record, Hp.
Qed.

(** [JSON.parse(JSON.stringify(v))] is [v]. *)
Lemma parseJson_written w : writable w = true → parseJson (jsonText w) = Some (valueOf w).
Proof.
  intros Hw. unfold parseJson. pose proof (parse_written w Hw (S (2 * length (jsonText w))) [] ltac:(lia) eq_refl) as Hp.
  rewrite app_nil_r in Hp. by rewrite Hp.
Qed.

(** ** The fuel is enough *)

Lemma skipSpace_length s : length (skipSpace s) ≤ length s.
Proof. induction s as [|c s IH]; cbn; [done|]. case_match; cbn; lia. Qed.

Lemma spanDigits_length s ds r : spanDigits s = (ds, r) → length s = length ds + length r.
Proof.
  revert ds r. induction s as [|c s IH]; intros ds r H; cbn in H; [by simplify_eq|].
  destruct (isDigit c); [|by simplify_eq]. destruct (spanDigits s) as [ds' r']. simplify_eq. cbn. by rewrite (IH _ _ eq_refl).
Qed.

Ltac binds :=
  repeat match goal with
  | H : _ ≫= _ = Some _ |- _ => apply bind_Some in H as (? & ? & ?)
  | x : (_ * _)%type |- _ => destruct x
  end; simplify_eq/=.

Lemma parseInteger_shorter s ds r : parseInteger s = Some (ds, r) → length r < length s.
Proof.
  unfold parseInteger. destruct (spanDigits s) as [[|d ds'] r'] eqn:E; [done|]. apply spanDigits_length in E.
  intros H. cbn in E. dms; lia.
Qed.

Lemma parseFraction_length s ds r : parseFraction s = Some (ds, r) → length r ≤ length s.
Proof.
  unfold parseFraction. intros H. dms; try lia.
  all: match goal with E : spanDigits _ = _ |- _ => apply spanDigits_length in E; cbn in *; lia end.
Qed.

Lemma signs_shrink s : length (exponentSign s).2 ≤ length s ∧ length (minusSign s).2 ≤ length s.
Proof. unfold exponentSign, minusSign. split; repeat case_match; cbn; lia. Qed.

Lemma parseExponent_length s e r : parseExponent s = Some (e, r) → length r ≤ length s.
Proof.
  unfold parseExponent. intros H. destruct s as [|c s]; [by simplify_eq|]. case_match; [|by simplify_eq].
  destruct (signs_shrink s) as [Hp _]. destruct (exponentSign s) as [sign s'']. cbn in Hp.
  destruct (spanDigits s'') as [[|d ds] r'] eqn:E; [done|].
  apply spanDigits_length in E. simplify_eq. cbn. lia.
Qed.

Lemma parseNumber_shorter s n r : parseNumber s = Some (n, r) → length r < length s.
Proof.
  unfold parseNumber. intros H. destruct (signs_shrink s) as [_ Hp]. destruct (minusSign s) as [neg s1]. cbn in Hp.
  binds. match goal with H : parseInteger _ = _ |- _ => apply parseInteger_shorter in H end.
  match goal with H : parseFraction _ = _ |- _ => apply parseFraction_length in H end.
  match goal with H : parseExponent _ = _ |- _ => apply parseExponent_length in H end. lia.
Qed.

Lemma startsWith_length p s : startsWith p s = true → length p ≤ length s.
Proof. intros (t & ->)%startsWith_spec. rewrite length_app. lia. Qed.

Lemma parseKey_shorter s k r : parseKey s = Some (k, r) → length r + 2 ≤ length s.
Proof.
  unfold parseKey. intros H. pose proof (skipSpace_length s). destruct (skipSpace s) as [|c s'] eqn:E; [done|].
  destruct (c =? 34)%N; [|done]. apply bind_Some in H as ([t r1] & Ht & H). apply parseString_shorter in Ht.
  pose proof (skipSpace_length r1). destruct (skipSpace r1) as [|c' r2]; [done|].
  destruct (c' =? 58)%N; [|done]. simplify_eq/=. lia.
Qed.

(** What is left after a parse is shorter than what was given. *)
Lemma parse_shorter fuel :
  (∀ s v r, parseValue fuel s = Some (v, r) → length r < length s) ∧
  (∀ s items r, parseItems fuel s = Some (items, r) → length r < length s) ∧
  (∀ fields s fields' r, parseFields fuel fields s = Some (fields', r) → length r < length s).
Proof.
  induction fuel as [|fuel (IHv & IHi & IHf)]; [done|]. split_and!.
  - intros s v r H. cbn [parseValue] in H. pose proof (skipSpace_length s) as Hs.
    destruct (skipSpace s) as [|c s'] eqn:E; [done|]. pose proof (skipSpace_length s') as Hs'. cbn in Hs.
    repeat case_match; try (injection H as <- <-; rewrite length_drop; lia); binds.
    all: repeat match goal with
         | H : parseString _ = _ |- _ => apply parseString_shorter in H
         | H : parseNumber _ = _ |- _ => apply parseNumber_shorter in H
         | H : parseItems _ _ = _ |- _ => apply IHi in H
         | H : parseFields _ _ _ = _ |- _ => apply IHf in H
         end; cbn in *; lia.
  - intros s items r H. cbn [parseItems] in H. apply bind_Some in H as ([v r1] & Hv & H). apply IHv in Hv.
    pose proof (skipSpace_length r1). destruct (skipSpace r1) as [|c r']; [done|]. cbn in *.
    repeat case_match; binds; [|lia]. match goal with H : parseItems _ _ = _ |- _ => apply IHi in H end. lia.
  - intros fields s fields' r H. cbn [parseFields] in H. apply bind_Some in H as ([k r1] & Hk & H).
    apply bind_Some in H as ([v r2] & Hv & H). apply parseKey_shorter in Hk. apply IHv in Hv.
    pose proof (skipSpace_length r2). destruct (skipSpace r2) as [|c r3]; [done|]. cbn in *.
    repeat case_match; simplify_eq; [|lia]. apply IHf in H. lia.
Qed.

Lemma bind_ext_some {A B} (m : option A) (f g : A → option B) : (∀ x, m = Some x → f x = g x) → m ≫= f = m ≫= g.
Proof. intros H. destruct m; [by apply H|done]. Qed.

(** More fuel than two for each code unit changes nothing. *)
Lemma parse_fuel n :
  (∀ s f g, length s ≤ n → 2 * length s < f → 2 * length s < g → parseValue f s = parseValue g s) ∧
  (∀ s f g, length s ≤ n → 2 * length s + 1 < f → 2 * length s + 1 < g → parseItems f s = parseItems g s) ∧
  (∀ fields s f g, length s ≤ n → 2 * length s + 1 < f → 2 * length s + 1 < g →
     parseFields f fields s = parseFields g fields s).
Proof.
  induction (lt_wf n) as [n _ IH].
  assert (∀ s f g, length s ≤ n → 2 * length s < f → 2 * length s < g → parseValue f s = parseValue g s) as Hv.
  { intros s f g Hs Hf Hg. destruct f as [|f], g as [|g]; [lia..|]. cbn [parseValue].
    pose proof (skipSpace_length s). destruct (skipSpace s) as [|c r]; [done|]. cbn in *.
    destruct (IH (length r) ltac:(lia)) as (_ & IHi & IHf). rewrite (IHi r f g), (IHf [] r f g) by lia. done. }
  split_and!; [done|..].
  - intros s f g Hs Hf Hg. destruct f as [|f], g as [|g]; [lia..|]. cbn [parseItems].
    rewrite (Hv s f g) by lia. apply bind_ext_some. intros [v r] H. apply parse_shorter in H.
    pose proof (skipSpace_length r). destruct (skipSpace r) as [|c r']; [done|]. cbn in *.
    destruct (IH (length r') ltac:(lia)) as (_ & IHi & _). by rewrite (IHi r' f g) by lia.
  - intros fields s f g Hs Hf Hg. destruct f as [|f], g as [|g]; [lia..|]. cbn [parseFields].
    apply bind_ext_some. intros [k r1] Hk. apply parseKey_shorter in Hk. rewrite (Hv r1 f g) by lia.
    apply bind_ext_some. intros [v r2] H. apply parse_shorter in H.
    pose proof (skipSpace_length r2). destruct (skipSpace r2) as [|c r3]; [done|]. cbn in *.
    destruct (IH (length r3) ltac:(lia)) as (_ & _ & IHf). by rewrite (IHf _ r3 f g) by lia.
Qed.

(** So [parseJson] is the parser with no bound. *)
Lemma parseJson_unbounded text fuel :
  2 * length text < fuel →
  parseJson text =
  match parseValue fuel text with
  | Some (v, r) => match skipSpace r with [] => Some v | _ => None end
  | None => None
  end.
Proof.
  intros Hf. unfold parseJson. destruct (parse_fuel (length text)) as [Hv _].
  by rewrite (Hv text (S (2 * length text)) fuel) by lia.
Qed.

Example parse_nested :
  parseJson (u "{ " ++ quoted (u "a") ++ u ":[1, -2.5e0,true], " ++ quoted (u "a") ++ u " : {}," ++
    quoted (u "b\u0041") ++ u ":" ++ quoted (u "x\n") ++ u " }") =
  Some (JObject [(u "a", JObject []); (u "bA", JString [120; 10]%N)]).
Proof. vm_compute. reflexivity. Qed.
