(* ===== verification/SignedTokens.v ===== *)
(** What the three bearer tokens of the program share: a payload written as JSON in
    base64url, and an HMAC over that text.  HMAC-SHA256 is a class; nothing about its
    secrecy is assumed, so the theorems that need it say what a forgery would be. *)

From stdpp Require Import pretty.
From S2P Require Import Prelude JsText JsValue Redaction Json Bytes JsonText.
From Stdlib Require Import ZifyN ZifyNat ZifyBool.

(** [createHmac("sha256", key).update(message).digest()]. *)
Class HmacPlatform := hmacSha256 : bytes → bytes → bytes.

Class HmacLaws (P : HmacPlatform) := {
  hmac_bytes key message : forallb isByte (hmacSha256 key message) = true;
  hmac_length key message : length (hmacSha256 key message) = 32 }.

(** A checksum in place of the hash. *)
#[export] Instance checksumHmac : HmacPlatform := λ key message,
  let sum := foldl (λ h b, (h * 31 + b) mod 251)%N 7%N (key ++ [0%N] ++ message) in
  (λ i : nat, (sum + N.of_nat i) mod 256)%N <$> seq 0 32.

#[export] Instance checksumHmac_laws : HmacLaws checksumHmac.
Proof.
  split; intros key message; unfold hmacSha256, checksumHmac.
  - apply forallb_forall. intros x (i & -> & _)%list_elem_of_In%list_elem_of_fmap. unfold isByte. digits.
  - by rewrite length_fmap, length_seq.
Qed.

(** A secret given as text or as bytes; [None] for the error an empty one raises. *)
Definition secretBytes (secret : jstr + bytes) : option bytes :=
  let key := match secret with inl s => utf8 s | inr bs => bs end in
  if (length key =? 0)%nat then None else Some key.

(** ** Payloads *)

Definition payloadText `{Base64Platform} (w : written) : jstr := base64url (utf8 (jsonText w)).

(** [JSON.parse(Buffer.from(payload, "base64url").toString("utf8"))]. *)
Definition readPayload `{Base64Platform} (payload : jstr) : option jsval :=
  parseJson (fromUtf8 (fromBase64 payload)).

Definition macText `{HmacPlatform} (key : bytes) (payload : jstr) : jstr := base64url (hmacSha256 key (utf8 payload)).

(** ** The text of a written value is well formed *)

(** A text no encoding changes. *)
Definition wellFormedText (s : jstr) : Prop := isText s = true ∧ ∀ t, encodeText (s ++ t) = s ++ encodeText t.

Lemma wellFormed_app s t : wellFormedText s → wellFormedText t → wellFormedText (s ++ t).
Proof.
  intros [Hs Es] [Ht Et]. split; [by rewrite isText_app, Hs, Ht|].
  intros r. by rewrite <- !app_assoc, Es, Et.
Qed.

Lemma wellFormed_ascii s : isAscii s = true → wellFormedText s.
Proof.
  intros Ha. split; [by apply isAscii_text|]. intros t. induction s as [|c s IH]; [done|].
  cbn in Ha. bools. cbn [app encodeText]. unfold isLowSurrogate, isHighSurrogate in *. nbools.
  replace ((56320 <=? c) && (c <=? 57343))%N with false by lia.
  replace ((55296 <=? c) && (c <=? 56319))%N with false by lia. by rewrite IH.
Qed.

Lemma wellFormed_encode s : wellFormedText s → encodeText s = s.
Proof. intros [_ H]. specialize (H []). rewrite !app_nil_r in H. done. Qed.

Lemma hexChar_ascii v : (v < 16)%N → (hexChar true v <? 128)%N = true.
Proof. unfold hexChar. intros H. repeat case_match; lia. Qed.

Lemma unicodeEscape_ascii c : (c < 65536)%N → isAscii (unicodeEscape c) = true.
Proof.
  intros Hc. unfold unicodeEscape. change (u "\u") with [92; 117]%N. cbn [app]. unfold isAscii. cbn [forallb].
  by rewrite !hexChar_ascii by digits.
Qed.

Lemma escapeText_wellFormed s : isText s = true → wellFormedText (escapeText s).
Proof.
  induction s as [|c s Hc IH|c d s Hc Hd IH|c s Hl IH] using text_ind; intros Ht; [done|..];
    apply isText_cons in Ht as [Hb Ht].
  - pose proof Hc as [Eh El]%orb_false_iff. cbn [escapeText]. rewrite El, Eh. apply wellFormed_app; [|by apply IH].
    unfold escapeChar. repeat case_match; try by apply wellFormed_ascii.
    + by apply wellFormed_ascii, unicodeEscape_ascii.
    + split; [by cbn; rewrite (proj2 (N.ltb_lt _ _) Hb)|]. intros t. cbn [app encodeText]. by rewrite El, Eh.
  - apply isText_cons in Ht as [Hb' Ht]. cbn [escapeText].
    destruct (isLowSurrogate c) eqn:E; [by apply low_not_high in E; congruence|]. rewrite Hc, Hd.
    apply (wellFormed_app [c; d]); [|by apply IH]. split.
    + cbn. by rewrite (proj2 (N.ltb_lt _ _) Hb), (proj2 (N.ltb_lt _ _) Hb').
    + intros t. cbn [app encodeText]. by rewrite E, Hc, Hd.
  - assert (escapeText (c :: s) = unicodeEscape c ++ escapeText s) as ->.
    { cbn [escapeText]. destruct Hl as [->|[Hh Hn]]; [done|]. destruct (isLowSurrogate c); [done|]. rewrite Hh.
      destruct s as [|d s]; [by rewrite app_nil_r|]. by rewrite (Hn d s eq_refl). }
    apply wellFormed_app; [|by apply IH]. by apply wellFormed_ascii, unicodeEscape_ascii.
Qed.

Lemma wellFormed_join sep ws : wellFormedText sep → Forall wellFormedText ws → wellFormedText (join sep ws).
Proof.
  intros Hs. induction 1 as [|w ws Hw Hws IH]; [by apply wellFormed_ascii|].
  destruct ws as [|w' ws]; [done|]. change (wellFormedText (w ++ sep ++ join sep (w' :: ws))).
  by repeat apply wellFormed_app.
Qed.

Lemma decimal_ascii z : isAscii (decimal z) = true.
Proof.
  rewrite decimal_Z. destruct (decimal_N (Z.abs_N z)) as (d & ds & -> & Hd & _ & Hds & _).
  assert (isAscii (d :: ds) = true) as Ha.
  { unfold isAscii. apply (forallb_forall _ (d :: ds)). intros x [<-|Hx]; unfold isDigit in *; [lia|].
    rewrite forallb_forall in Hds. specialize (Hds x Hx). lia. }
  by destruct (z <? 0)%Z.
Qed.

Lemma quoteText_wellFormed s : isText s = true → wellFormedText (quoteText s).
Proof.
  intros Hs. apply wellFormed_app; [by apply wellFormed_ascii|].
  apply wellFormed_app; [by apply escapeText_wellFormed|by apply wellFormed_ascii].
Qed.

Lemma jsonText_wellFormed w : writable w = true → wellFormedText (jsonText w).
Proof.
  induction w as [s|z|items IH|fields IH] using written_nested_ind; intros Hw; cbn in Hw; cbn [jsonText].
  - by apply quoteText_wellFormed.
  - apply wellFormed_ascii, decimal_ascii.
  - apply wellFormed_app; [by apply wellFormed_ascii|]. apply wellFormed_app; [|by apply wellFormed_ascii].
    apply wellFormed_join; [by apply wellFormed_ascii|]. apply Forall_fmap. rewrite Forall_forall in IH |- *.
    intros x Hx. apply IH; [done|]. rewrite forallb_forall in Hw. apply Hw. by apply list_elem_of_In.
  - bools. apply wellFormed_app; [by apply wellFormed_ascii|]. apply wellFormed_app; [|by apply wellFormed_ascii].
    apply wellFormed_join; [by apply wellFormed_ascii|]. apply Forall_fmap. rewrite Forall_forall in IH |- *.
    intros [k x] Hx. match goal with H : forallb _ _ = true |- _ => rewrite forallb_forall in H; specialize (H (k, x)) end.
    assert (isText k && writable x = true) as [? ?]%andb_true_iff by (by apply H0, list_elem_of_In).
    apply wellFormed_app; [by apply quoteText_wellFormed|]. apply wellFormed_app; [by apply wellFormed_ascii|].
    by apply (IH (k, x)).
Qed.

Lemma readUtf8_jsonText w : writable w = true → parseJson (fromUtf8 (utf8 (jsonText w))) = Some (valueOf w).
Proof.
  intros Hw. destruct (jsonText_wellFormed w Hw) as [Ht He]. rewrite fromUtf8_utf8 by done.
  rewrite wellFormed_encode by done. by apply parseJson_written.
Qed.

Section tokens.
Context `{HmacLaws} `{Base64Laws}.

Lemma readPayload_written w : writable w = true → readPayload (payloadText w) = Some (valueOf w).
Proof.
  intros Hw. unfold readPayload, payloadText. destruct (jsonText_wellFormed w Hw) as [Ht _].
  rewrite from_base64url by by apply utf8_bytes. by apply readUtf8_jsonText.
Qed.

Lemma payloadText_chars w : writable w = true → forallb isBase64Url (payloadText w) = true.
Proof. intros Hw. apply base64url_chars, utf8_bytes. by apply jsonText_wellFormed. Qed.

Lemma payloadText_nonempty w : writable w = true → payloadText w ≠ [].
Proof.
  intros Hw. apply base64url_nonempty. destruct (jsonText_head w) as (c & s & -> & Hc).
  assert (c < 128)%N as Hb by (valueStarts Hc; done).
  cbn [utf8]. unfold isLowSurrogate, isHighSurrogate.
  replace ((56320 <=? c) && (c <=? 57343))%N with false by lia.
  replace ((55296 <=? c) && (c <=? 56319))%N with false by lia. unfold encodeScalar.
  by replace (c <? 128)%N with true by lia.
Qed.

Lemma payloadText_inj w w' : writable w = true → writable w' = true → payloadText w = payloadText w' → valueOf w = valueOf w'.
Proof.
  intros Hw Hw' E. pose proof (readPayload_written w Hw) as E1. rewrite E, readPayload_written in E1 by done. congruence.
Qed.

Lemma macText_chars key payload : forallb isBase64Url (macText key payload) = true.
Proof. apply base64url_chars, hmac_bytes. Qed.

Lemma macText_length key payload : length (macText key payload) = 43.
Proof. unfold macText. by rewrite base64url_length, hmac_length. Qed.

Lemma macText_read key payload : fromBase64 (macText key payload) = hmacSha256 key (utf8 payload).
Proof. apply from_base64url, hmac_bytes. Qed.
End tokens.

(** A text of the base64url alphabet holds no separator. *)
Lemma base64url_no_dot s : forallb isBase64Url s = true → Forall (λ c, (46 =? c)%N = false) s.
Proof.
  rewrite forallb_forall. intros H. apply Forall_forall. intros c Hc%list_elem_of_In%H. unfold isBase64Url in Hc. lia.
Qed.

Lemma indexOf_after p c s : Forall (λ d, (c =? d)%N = false) p → indexOf c (p ++ c :: s) = Some (length p).
Proof.
  induction 1 as [|d p Hd Hp IH]; cbn [app indexOf]; [by rewrite N.eqb_refl|].
  rewrite Hd, IH. done.
Qed.

Lemma indexOf_split c s n : indexOf c s = Some n → s = take n s ++ [c] ++ drop (S n) s.
Proof.
  revert n. induction s as [|d s IH]; intros n; cbn [indexOf]; [done|]. destruct (N.eqb_spec c d) as [<-|].
  - intros [= <-]. done.
  - intros (k & Hk & ->)%fmap_Some. cbn. f_equal. by apply IH.
Qed.

(** ** The size of a payload *)

(** Characters JSON writes as they are. *)
Definition plainChar (c : N) : bool := ((32 <=? c) && (c <? 128) && negb ((c =? 34) || (c =? 92)))%N.
Definition plainText (s : jstr) : bool := forallb plainChar s.

Lemma escapeText_plain s : plainText s = true → escapeText s = s.
Proof.
  induction s as [|c s IH]; [done|]. cbn. unfold plainChar. intros [Hc Hs]%andb_true_iff.
  unfold isLowSurrogate, isHighSurrogate.
  replace ((56320 <=? c) && (c <=? 57343))%N with false by lia.
  replace ((55296 <=? c) && (c <=? 56319))%N with false by lia. rewrite IH by done.
  unfold escapeChar.
  repeat match goal with |- context [(c =? ?k)%N] => replace (c =? k)%N with false by lia end.
  by replace (c <? 32)%N with false by lia.
Qed.

Lemma plainText_ascii s : plainText s = true → isAscii s = true.
Proof. unfold plainText, isAscii. rewrite !forallb_forall. intros H x Hx%H. unfold plainChar in Hx. lia. Qed.

Lemma quoteText_plain s : plainText s = true → isAscii (quoteText s) = true ∧ length (quoteText s) = length s + 2.
Proof.
  intros Hs. unfold quoteText. rewrite escapeText_plain by done. split.
  - unfold isAscii. rewrite !forallb_app. pose proof (plainText_ascii _ Hs) as Ha. unfold isAscii in Ha. by rewrite Ha.
  - rewrite !length_app. cbn. lia.
Qed.

(** A decimal is short. *)
Lemma decimal_length n k : (Z.of_N n < 10 ^ Z.of_nat k)%Z → 0 < k → length (u (pretty n)) ≤ k.
Proof.
  intros Hn Hk. destruct (decimal_N n) as (d & ds & E & Hd & Hz & Hds & Hv). rewrite E in *.
  assert (∀ s acc, forallb isDigit s = true → (0 ≤ acc)%Z →
    (acc * 10 ^ Z.of_nat (length s) ≤ foldl (λ n c, n * 10 + (Z.of_N c - 48)) acc s)%Z) as Hlow.
  { intros s. induction s as [|c s IH]; intros acc Hs Ha; [cbn; lia|].
    cbn [forallb] in Hs. apply andb_true_iff in Hs as [Hc Hs]. unfold isDigit in Hc. cbn [foldl length].
    etrans; [|apply IH; [done|lia]]. rewrite Nat2Z.inj_succ, Z.pow_succ_r by lia.
    assert (0 < 10 ^ Z.of_nat (length s))%Z by (apply Z.pow_pos_nonneg; lia). nia. }
  cbn [length]. destruct (decide (d = 48%N)) as [->|Hne]; [rewrite Hz by done; cbn; lia|].
  assert (S (length ds) ≤ k) as ->; [|done]. destruct (Nat.leb_spec (S (length ds)) k); [lia|exfalso].
  unfold numberOf in Hv. cbn [foldl] in Hv. unfold isDigit in Hd.
  specialize (Hlow ds (0 * 10 + (Z.of_N d - 48))%Z Hds ltac:(lia)). rewrite Hv in Hlow.
  assert (10 ^ Z.of_nat k ≤ 10 ^ Z.of_nat (length ds))%Z by (apply Z.pow_le_mono_r; lia).
  assert (1 ≤ Z.of_N d - 48)%Z by lia. nia.
Qed.

Lemma decimal_short z : (0 ≤ z)%Z → isSafeZ z = true → length (decimal z) ≤ 16.
Proof.
  intros Hz Hs. rewrite decimal_Z. replace (z <? 0)%Z with false by lia. cbn [app].
  apply decimal_length; [|lia]. unfold isSafeZ in Hs.
  assert (MAX_SAFE_INTEGER < 10 ^ Z.of_nat 16)%Z by by vm_compute.
  generalize dependent (10 ^ Z.of_nat 16)%Z. intros p Hp. lia.
Qed.

(** A bound on the text of a value: plain strings and keys, naturals below 2^53. *)
Fixpoint plainWritten (w : written) : bool :=
  match w with
  | WString s => plainText s
  | WInt z => (0 <=? z)%Z && isSafeZ z
  | WList items => forallb plainWritten items
  | WRecord fields => forallb (λ kv, plainText kv.1 && plainWritten kv.2) fields
  end.

Fixpoint textBound (w : written) : nat :=
  match w with
  | WString s => length s + 2
  | WInt _ => 16
  | WList items => 2 + sum_list_with (λ w, S (textBound w)) items
  | WRecord fields => 2 + sum_list_with (λ kv, S (length kv.1 + textBound kv.2 + 3)) fields
  end.

Lemma join_bound {A} (f : A → jstr) (bound : A → nat) items :
  Forall (λ x, isAscii (f x) = true ∧ length (f x) ≤ bound x) items →
  isAscii (join [44%N] (f <$> items)) = true ∧
  length (join [44%N] (f <$> items)) ≤ sum_list_with (λ x, S (bound x)) items.
Proof.
  induction 1 as [|x items [Ha Hl] Hf [IHa IHl]]; [done|]. destruct items as [|y items].
  - cbn. split; [done|lia].
  - rewrite fmap_cons, join_cons by done. split.
    + unfold isAscii in *. rewrite forallb_app, Ha. done.
    + rewrite length_app. cbn [length sum_list_with] in *. lia.
Qed.

Lemma jsonText_bound w : plainWritten w = true → isAscii (jsonText w) = true ∧ length (jsonText w) ≤ textBound w.
Proof.
  induction w as [s|z|items IH|fields IH] using written_nested_ind; intros Hw; cbn in Hw; cbn [jsonText textBound].
  - destruct (quoteText_plain s Hw) as [? ->]. done.
  - bools. split; [apply decimal_ascii|]. by apply decimal_short.
  - assert (Forall (λ w, isAscii (jsonText w) = true ∧ length (jsonText w) ≤ textBound w) items) as Hf.
    { rewrite Forall_forall in IH |- *. intros x Hx. apply IH; [done|]. rewrite forallb_forall in Hw.
      apply Hw. by apply list_elem_of_In. }
    apply (join_bound jsonText textBound) in Hf as [Ha Hl]. split.
    + unfold isAscii in *. by rewrite !forallb_app, Ha.
    + rewrite !length_app. cbn [length]. lia.
  - assert (Forall (λ kv, isAscii (quoteText kv.1 ++ [58%N] ++ jsonText kv.2) = true ∧
      length (quoteText kv.1 ++ [58%N] ++ jsonText kv.2) ≤ length kv.1 + textBound kv.2 + 3) fields) as Hf.
    { rewrite Forall_forall in IH |- *. intros x Hx. rewrite forallb_forall in Hw.
      assert (plainText x.1 && plainWritten x.2 = true) as [Hk Hv]%andb_true_iff by (by apply Hw, list_elem_of_In).
      destruct (IH x Hx Hv) as [Ha Hl], (quoteText_plain _ Hk) as [Ak Lk]. split.
      - unfold isAscii in *. by rewrite !forallb_app, Ak, Ha.
      - rewrite !length_app, Lk. cbn [length]. lia. }
    apply (join_bound _ (λ kv, length kv.1 + textBound kv.2 + 3)) in Hf as [Ha Hl]. split.
    + unfold isAscii in *. by rewrite !forallb_app, Ha.
    + rewrite !length_app. cbn [length]. lia.
Qed.

(** The length of a token over such a payload. *)
Lemma token_length `{HmacLaws} `{Base64Laws} key w :
  plainWritten w = true →
  (strlen (payloadText w ++ [46%N] ++ macText key (payloadText w)) ≤ (4 * Z.of_nat (textBound w) + 2) / 3 + 44)%Z.
Proof.
  intros [Ha Hl]%jsonText_bound. unfold strlen. rewrite !length_app, macText_length. unfold payloadText.
  rewrite base64url_length, utf8_ascii by done. cbn [length].
  assert ((4 * length (jsonText w) + 2) / 3 ≤ (4 * textBound w + 2) / 3) by (apply Nat.Div0.div_le_mono; lia).
  rewrite !Nat2Z.inj_add, Nat2Z.inj_div in *. lia.
Qed.

(** The lengths of literals. *)
Ltac literalLengths :=
  repeat match goal with
  | |- context [length (u ?s)] => let n := eval vm_compute in (length (u s)) in change (length (u s)) with n
  end.
