(* ===== verification/Cursors.v ===== *)
(** The resume cursor of a thread's event stream: apps/api/src/cursors.ts. *)

From stdpp Require Import pretty.
From S2P Require Import Prelude JsText JsValue Redaction Json Bytes JsonText SignedTokens.
From Stdlib Require Import ZifyN ZifyNat ZifyBool.

Record CursorBinding := { cbSpace : jstr; cbThread : jstr; cbUser : jstr }.

#[export] Instance CursorBinding_eq_dec : EqDecision CursorBinding.
Proof. solve_decision. Defined.

Record CursorPosition := { cpBinding : CursorBinding; cpSeq : Z }.

Inductive CursorRejection := cursor_malformed | cursor_forged | cursor_binding.

Definition CURSOR_VERSION : Z := 1.
Definition SIGNATURE_BYTES : nat := 32.
Definition MAX_CURSOR_LENGTH : Z := 512.

Record CursorPayload := { pcSpace : jstr; pcThread : jstr; pcUser : jstr; pcSeq : Z }.

Section codec.
Context `{HmacPlatform} `{Base64Platform}.

(** The key: drawn at random when none is given; [None] for the error an empty one
    raises. *)
Definition normalizeSecret (random : bytes) (secret : option (jstr + bytes)) : option bytes :=
  match secret with None => Some random | Some secret => secretBytes secret end.

Definition cursorPayload (position : CursorPosition) : written :=
  WRecord [(u "v", WInt CURSOR_VERSION); (u "s", WString (cbSpace (cpBinding position)));
           (u "t", WString (cbThread (cpBinding position))); (u "u", WString (cbUser (cpBinding position)));
           (u "q", WInt (cpSeq position))].

Definition signatureFor (key : bytes) (payload : jstr) : jstr := macText key payload.

Definition signatureMatches (key : bytes) (payload signature : jstr) : bool :=
  bool_decide (fromBase64 signature = hmacSha256 key (utf8 payload)).

Definition sign (key : bytes) (position : CursorPosition) : jstr :=
  let payload := payloadText (cursorPayload position) in
  payload ++ [46%N] ++ signatureFor key payload.

(** An array has none of the properties, so it is malformed as well. *)
Definition decodePayload (payload : jstr) : result CursorRejection CursorPayload :=
  match readPayload payload with
  | Some (JObject record) =>
      match getField (u "v") record, getField (u "s") record, getField (u "t") record,
            getField (u "u") record, getField (u "q") record with
      | JNumber v, JString s, JString t, JString user, JNumber q =>
          if negb (bool_decide (v = NInt CURSOR_VERSION)) then Err cursor_malformed
          else match safeInteger q with
               | Some seq =>
                   if (seq <? 0)%Z then Err cursor_malformed
                   else Ok {| pcSpace := s; pcThread := t; pcUser := user; pcSeq := seq |}
               | None => Err cursor_malformed
               end
      | _, _, _, _, _ => Err cursor_malformed
      end
  | _ => Err cursor_malformed
  end.

Definition verify (key : bytes) (cursor : jstr) (binding : CursorBinding) : result CursorRejection Z :=
  if (strlen cursor =? 0)%Z || (MAX_CURSOR_LENGTH <? strlen cursor)%Z then Err cursor_malformed
  else
    match split 46 cursor with
    | [payload; signature] =>
        if (strlen payload =? 0)%Z || (strlen signature =? 0)%Z || negb (signatureMatches key payload signature)
        then Err cursor_forged
        else
          decoded ← decodePayload payload;
          if negb (bool_decide (pcSpace decoded = cbSpace binding))
             || negb (bool_decide (pcThread decoded = cbThread binding))
             || negb (bool_decide (pcUser decoded = cbUser binding))
          then Err cursor_binding
          else Ok (pcSeq decoded)
    | _ => Err cursor_malformed
    end.
End codec.

(** A position of the event log. *)
Definition isPosition (p : CursorPosition) : bool :=
  isText (cbSpace (cpBinding p)) && isText (cbThread (cpBinding p)) && isText (cbUser (cpBinding p)) &&
  (0 <=? cpSeq p)%Z && isSafeZ (cpSeq p).

(** ** Lemmas *)

Section laws.
Context `{HmacLaws} `{Base64Laws}.

Lemma cursorPayload_writable p : isPosition p = true → writable (cursorPayload p) = true.
Proof.
  unfold isPosition. intros Hp. bools. cbn [writable cursorPayload forallb fst snd].
  repeat match goal with H : _ = true |- _ => rewrite H end. by vm_compute.
Qed.

Lemma cursorPayload_decodes p :
  isPosition p = true →
  decodePayload (payloadText (cursorPayload p)) =
  Ok {| pcSpace := cbSpace (cpBinding p); pcThread := cbThread (cpBinding p);
        pcUser := cbUser (cpBinding p); pcSeq := cpSeq p |}.
Proof.
  intros Hp. unfold decodePayload. rewrite readPayload_written by by apply cursorPayload_writable.
  unfold isPosition in Hp. bools. cbn [valueOf cursorPayload].
  change (getField (u "v") _) with (JNumber (NInt CURSOR_VERSION)).
  change (getField (u "s") _) with (JString (cbSpace (cpBinding p))).
  change (getField (u "t") _) with (JString (cbThread (cpBinding p))).
  change (getField (u "u") _) with (JString (cbUser (cpBinding p))).
  change (getField (u "q") _) with (JNumber (NInt (cpSeq p))). cbv iota. rewrite bool_decide_true by done.
  unfold safeInteger. match goal with H : isSafeZ _ = true |- _ => rewrite H end. cbn [negb].
  by replace (cpSeq p <? 0)%Z with false by lia.
Qed.

Lemma split_token payload signature :
  forallb isBase64Url payload = true → forallb isBase64Url signature = true →
  split 46 (payload ++ [46%N] ++ signature) = [payload; signature].
Proof.
  intros Hp%base64url_no_dot Hs%base64url_no_dot. unfold split. cbn [app].
  by rewrite splitOn_app_sep, splitOn_word.
Qed.

Lemma cursor_signature_own key payload : signatureMatches key payload (signatureFor key payload) = true.
Proof. apply bool_decide_eq_true. apply macText_read. Qed.

(** What a cursor that verifies is: one payload, its own signature, and a position of
    the binding. *)
Lemma verify_ok key cursor b q :
  verify key cursor b = Ok q →
  ∃ payload signature decoded, split 46 cursor = [payload; signature] ∧
    signatureMatches key payload signature = true ∧ decodePayload payload = Ok decoded ∧
    b = {| cbSpace := pcSpace decoded; cbThread := pcThread decoded; cbUser := pcUser decoded |} ∧ q = pcSeq decoded.
Proof.
  unfold verify. intros Hv. case_match; [done|].
  destruct (split 46 cursor) as [|payload [|signature [|]]]; try done.
  destruct (_ || _ || _) eqn:E in Hv; [done|]. bools.
  destruct (decodePayload payload) as [decoded|] eqn:Ed; [|done]. cbn in Hv.
  destruct (_ || _ || _) eqn:E' in Hv; [done|]. bools. injection Hv as <-. exists payload, signature, decoded.
  split_and!; try done. destruct b; cbn in *. by subst.
Qed.

Lemma verify_signed key p b :
  isPosition p = true →
  verify key (sign key p) b =
  if (MAX_CURSOR_LENGTH <? strlen (sign key p))%Z then Err cursor_malformed
  else if decide (b = cpBinding p) then Ok (cpSeq p) else Err cursor_binding.
Proof.
  intros Hp. pose proof (cursorPayload_writable _ Hp) as Hw. unfold verify.
  assert (payloadText (cursorPayload p) ≠ []) as Hne by by apply payloadText_nonempty.
  replace (strlen (sign key p) =? 0)%Z with false; [cbn [orb]|].
  2: { unfold sign, strlen. rewrite !length_app. cbn. lia. }
  case_match; [done|]. unfold sign at 1.
  rewrite split_token by first [by apply payloadText_chars|apply macText_chars].
  replace (strlen _ =? 0)%Z with false by (unfold strlen; destruct (payloadText (cursorPayload p)); [done|cbn; lia]).
  replace (strlen _ =? 0)%Z with false by (unfold strlen, signatureFor; rewrite macText_length; done).
  rewrite cursor_signature_own, cursorPayload_decodes by done. cbn [negb orb mbind result_bind pcSpace pcThread pcUser pcSeq].
  destruct b as [s t v], p as [[s' t' v'] q]. cbn. case_decide as E.
  - injection E as -> -> ->. by rewrite !bool_decide_true.
  - destruct (decide (s' = s)) as [->|]; [|by rewrite bool_decide_false]. rewrite (bool_decide_true (s = s)) by done.
    destruct (decide (t' = t)) as [->|]; [|by rewrite bool_decide_false]. rewrite (bool_decide_true (t = t)) by done.
    destruct (decide (v' = v)) as [->|]; [done|]. by rewrite bool_decide_false.
Qed.

Lemma cursor_length key p :
  isPosition p = true → plainText (cbSpace (cpBinding p)) && plainText (cbThread (cpBinding p)) && plainText (cbUser (cpBinding p)) = true →
  length (cbSpace (cpBinding p)) + length (cbThread (cpBinding p)) + length (cbUser (cpBinding p)) ≤ 286 →
  (strlen (sign key p) ≤ MAX_CURSOR_LENGTH)%Z.
Proof.
  unfold isPosition. intros Hp Ht Hl. bools.
  assert (plainWritten (cursorPayload p) = true) as Hw.
  { cbn [plainWritten cursorPayload forallb fst snd]. repeat match goal with H : _ = true |- _ => rewrite H end.
    replace (0 <=? cpSeq p)%Z with true by lia. by vm_compute. }
  etrans; [by apply (token_length key)|]. cbn [textBound cursorPayload sum_list_with fst snd].
  literalLengths. unfold MAX_CURSOR_LENGTH. lia.
Qed.

(** A cursor resumes where it was minted. The cursor of a position whose ids are
    plain text, 286 characters at most together, is never too long: it verifies for
    its own actor, space and thread with its own position, and for any other binding
    it is refused as bound elsewhere. *)
Theorem cursor_resumes key p b :
  isPosition p = true → plainText (cbSpace (cpBinding p)) && plainText (cbThread (cpBinding p)) && plainText (cbUser (cpBinding p)) = true →
  length (cbSpace (cpBinding p)) + length (cbThread (cpBinding p)) + length (cbUser (cpBinding p)) ≤ 286 →
  verify key (sign key p) b = if decide (b = cpBinding p) then Ok (cpSeq p) else Err cursor_binding.
Proof.
  intros Hp Ht Hl. rewrite verify_signed by done. pose proof (cursor_length key p Hp Ht Hl).
  by replace (MAX_CURSOR_LENGTH <? strlen (sign key p))%Z with false by lia.
Qed.

(** A cursor that verifies was minted here or is a forgery. Whatever positions the
    codec has signed, a cursor that verifies for a binding either names the position of
    a signed one with exactly that binding, or carries the MAC of a payload that was
    never signed. *)
Theorem cursor_authentic key signed cursor b q :
  Forall (λ p, isPosition p = true) signed → verify key cursor b = Ok q →
  (∃ p, p ∈ signed ∧ cpBinding p = b ∧ cpSeq p = q) ∨
  ∃ payload signature, split 46 cursor = [payload; signature] ∧
    fromBase64 signature = hmacSha256 key (utf8 payload) ∧
    payload ∉ (λ p, payloadText (cursorPayload p)) <$> signed.
Proof.
  intros Hs (payload & signature & decoded & Esplit & Hm & Hd & -> & ->)%verify_ok.
  apply bool_decide_eq_true in Hm.
  destruct (decide (payload ∈ (λ p, payloadText (cursorPayload p)) <$> signed)) as [Hin|Hout].
  - left. apply list_elem_of_fmap in Hin as (p & -> & Hp). exists p. rewrite Forall_forall in Hs.
    rewrite cursorPayload_decodes in Hd by by apply Hs. injection Hd as <-. split_and!; [done| |done].
    by destruct (cpBinding p).
  - right. eauto.
Qed.
End laws.

(** ** Witnesses *)

Definition sampleKey : bytes := u "a signing key".
Definition samplePosition : CursorPosition :=
  {| cpBinding := {| cbSpace := u "space-1"; cbThread := u "thread-1"; cbUser := u "user-1" |}; cpSeq := 41 |}.
Definition otherBinding : CursorBinding := {| cbSpace := u "space-1"; cbThread := u "thread-2"; cbUser := u "user-1" |}.

Lemma cursor_resumes_witness :
  verify sampleKey (sign sampleKey samplePosition) (cpBinding samplePosition) = Ok 41%Z ∧
  verify sampleKey (sign sampleKey samplePosition) otherBinding = Err cursor_binding.
Proof.
  split.
  - exact (cursor_resumes sampleKey samplePosition (cpBinding samplePosition) eq_refl eq_refl ltac:(vm_compute; lia)).
  - exact (cursor_resumes sampleKey samplePosition otherBinding eq_refl eq_refl ltac:(vm_compute; lia)).
Defined.

Lemma cursor_authentic_witness :
  (∃ p, p ∈ [samplePosition] ∧ cpBinding p = cpBinding samplePosition ∧ cpSeq p = 41%Z) ∨
  ∃ payload signature, split 46 (sign sampleKey samplePosition) = [payload; signature] ∧
    fromBase64 signature = hmacSha256 sampleKey (utf8 payload) ∧
    payload ∉ (λ p, payloadText (cursorPayload p)) <$> [samplePosition].
Proof.
  apply (cursor_authentic sampleKey [samplePosition] (sign sampleKey samplePosition) (cpBinding samplePosition) 41);
    [by repeat constructor|vm_compute; reflexivity].
Defined.

(** The lenient decoder reads a signature with padding as the same bytes: a cursor is
    accepted in more than one spelling. *)
Example padded_cursor_verifies :
  verify sampleKey (sign sampleKey samplePosition ++ u "=") (cpBinding samplePosition) = Ok 41%Z.
Proof. vm_compute. reflexivity. Qed.
