(* ===== verification/Capabilities.v ===== *)
(** The short-lived bearer capabilities: packages/effect/src/proxy-capability.ts and
    screen-capability.ts.  The two files are one codec over different coordinates, so
    the codec is written once over a class of what they differ in. *)

From stdpp Require Import pretty.
From S2P Require Import Prelude JsText JsValue Redaction Json Bytes JsonText SignedTokens Calendar.
From Stdlib Require Import ZifyN ZifyNat ZifyBool.

Inductive CapabilityRejection := cap_malformed | cap_forged | cap_expired | cap_binding.

(** The verdict; [CapThrows] is the RangeError of a deadline no [Date] holds. *)
Inductive CapabilityCheck (B : Type) :=
| CapValid (binding : B) (expiresAt : jstr)
| CapRefused (reason : CapabilityRejection)
| CapThrows.
Arguments CapValid {B}. Arguments CapRefused {B}. Arguments CapThrows {B}.

Definition CAPABILITY_VERSION : Z := 1.

(** The largest instant of a [Date], in milliseconds. *)
Definition MAX_DATE_MS : Z := 8640000000000000.

(** What a kind of capability is bound to, in [B], and what its verifier can check, in
    [X]: its lifetimes and its payload, written and read. *)
Class CapabilityKind (B X : Type) := {
  defaultTtlSeconds : Z;
  maxTtlSeconds : Z;
  maxCapabilityLength : Z;
  capabilityPayload : B → Z → written;
  readCapability : jobject → option (B * Z);
  admits : X → B → bool }.

(** A coordinate of the payload: a string that is not empty. *)
Definition readCoordinate (field : jstr) (record : jobject) : option jstr :=
  match getField field record with
  | JString s => if (strlen s =? 0)%Z then None else Some s
  | _ => None
  end.

(** The version and the deadline. *)
Definition readDeadline (record : jobject) : option Z :=
  match getField (u "v") record, getField (u "x") record with
  | JNumber v, JNumber n =>
      if bool_decide (v = NInt CAPABILITY_VERSION) then x ← safeInteger n; if (x <=? 0)%Z then None else Some x
      else None
  | _, _ => None
  end.

(** A coordinate is checked when the verifier supplies it. *)
Definition expects (expected : option jstr) (actual : jstr) : bool :=
  match expected with Some e => bool_decide (actual = e) | None => true end.

Section codec.
Context `{HmacPlatform} `{Base64Platform} {B X : Type} `{CapabilityKind B X}.

Definition normalizeKey (secret : jstr + bytes) : option bytes := secretBytes secret.

Definition signatureFor (key : bytes) (payload : jstr) : jstr := macText key payload.

Definition signatureMatches (key : bytes) (payload signature : jstr) : bool :=
  bool_decide (fromBase64 (signatureFor key payload) = fromBase64 signature).

Definition decodePayload (payload : jstr) : option (B * Z) :=
  match readPayload payload with Some (JObject record) => readCapability record | _ => None end.

(** [None] for the RangeError of a lifetime that is no positive whole number. *)
Definition mint (key : bytes) (nowSeconds : Z) (binding : B) (ttlSeconds : option jsnum) : option jstr :=
  requested ← match ttlSeconds with None => Some defaultTtlSeconds | Some n => safeInteger n end;
  if (requested <=? 0)%Z then None
  else
    let ttl := Z.min requested maxTtlSeconds in
    let payload := payloadText (capabilityPayload binding (nowSeconds + ttl)) in
    Some (payload ++ [46%N] ++ signatureFor key payload).

Definition verify (key : bytes) (nowSeconds : Z) (token : jstr) (expected : X) : CapabilityCheck B :=
  if (strlen token =? 0)%Z || (maxCapabilityLength <? strlen token)%Z then CapRefused cap_malformed
  else
    match indexOf 46 token with
    | None => CapRefused cap_malformed
    | Some separator =>
        if (separator =? 0)%nat || (separator =? length token - 1)%nat then CapRefused cap_malformed
        else
          let payload := take separator token in
          let signature := drop (S separator) token in
          if negb (signatureMatches key payload signature) then CapRefused cap_forged
          else
            match decodePayload payload with
            | None => CapRefused cap_malformed
            | Some (binding, x) =>
                if negb (admits expected binding) then CapRefused cap_binding
                else if (x <=? nowSeconds)%Z then CapRefused cap_expired
                else if (MAX_DATE_MS <? x * 1000)%Z then CapThrows
                else CapValid binding (toISOString (x * 1000))
            end
    end.
End codec.

(** ** The credential proxy's *)

Record ProxyCapabilityBinding := { pcRunId : jstr; pcComputerId : jstr; pcBotId : jstr }.
Record ProxyCapabilityExpectation := { peRunId : option jstr; peComputerId : option jstr; peBotId : option jstr }.

Definition DEFAULT_PROXY_CAPABILITY_TTL_SECONDS : Z := 300.
Definition MAX_PROXY_CAPABILITY_TTL_SECONDS : Z := 900.
Definition MAX_PROXY_CAPABILITY_LENGTH : Z := 1024.

Definition proxyPayload (binding : ProxyCapabilityBinding) (x : Z) : written :=
  WRecord [(u "v", WInt CAPABILITY_VERSION); (u "r", WString (pcRunId binding));
           (u "c", WString (pcComputerId binding)); (u "b", WString (pcBotId binding)); (u "x", WInt x)].

Definition readProxyPayload (record : jobject) : option (ProxyCapabilityBinding * Z) :=
  r ← readCoordinate (u "r") record; c ← readCoordinate (u "c") record; b ← readCoordinate (u "b") record;
  x ← readDeadline record;
  Some ({| pcRunId := r; pcComputerId := c; pcBotId := b |}, x).

Definition proxyAdmits (expected : ProxyCapabilityExpectation) (binding : ProxyCapabilityBinding) : bool :=
  expects (peRunId expected) (pcRunId binding) && expects (peComputerId expected) (pcComputerId binding)
  && expects (peBotId expected) (pcBotId binding).

#[export] Instance proxyCapability : CapabilityKind ProxyCapabilityBinding ProxyCapabilityExpectation := {
  defaultTtlSeconds := DEFAULT_PROXY_CAPABILITY_TTL_SECONDS;
  maxTtlSeconds := MAX_PROXY_CAPABILITY_TTL_SECONDS;
  maxCapabilityLength := MAX_PROXY_CAPABILITY_LENGTH;
  capabilityPayload := proxyPayload;
  readCapability := readProxyPayload;
  admits := proxyAdmits }.

(** ** The screen's *)

Record ScreenCapabilityBinding := { scComputerId : jstr; scBotId : jstr; scSpaceId : jstr; scUserId : jstr }.
Record ScreenCapabilityExpectation := {
  seComputerId : option jstr; seBotId : option jstr; seSpaceId : option jstr; seUserId : option jstr }.

Definition DEFAULT_SCREEN_CAPABILITY_TTL_SECONDS : Z := 60.
Definition MAX_SCREEN_CAPABILITY_TTL_SECONDS : Z := 300.
Definition MAX_SCREEN_CAPABILITY_LENGTH : Z := 1024.

Definition screenPayload (binding : ScreenCapabilityBinding) (x : Z) : written :=
  WRecord [(u "v", WInt CAPABILITY_VERSION); (u "c", WString (scComputerId binding));
           (u "b", WString (scBotId binding)); (u "s", WString (scSpaceId binding));
           (u "u", WString (scUserId binding)); (u "x", WInt x)].

Definition readScreenPayload (record : jobject) : option (ScreenCapabilityBinding * Z) :=
  c ← readCoordinate (u "c") record; b ← readCoordinate (u "b") record;
  s ← readCoordinate (u "s") record; v ← readCoordinate (u "u") record;
  x ← readDeadline record;
  Some ({| scComputerId := c; scBotId := b; scSpaceId := s; scUserId := v |}, x).

Definition screenAdmits (expected : ScreenCapabilityExpectation) (binding : ScreenCapabilityBinding) : bool :=
  expects (seComputerId expected) (scComputerId binding) && expects (seBotId expected) (scBotId binding)
  && expects (seSpaceId expected) (scSpaceId binding) && expects (seUserId expected) (scUserId binding).

#[export] Instance screenCapability : CapabilityKind ScreenCapabilityBinding ScreenCapabilityExpectation := {
  defaultTtlSeconds := DEFAULT_SCREEN_CAPABILITY_TTL_SECONDS;
  maxTtlSeconds := MAX_SCREEN_CAPABILITY_TTL_SECONDS;
  maxCapabilityLength := MAX_SCREEN_CAPABILITY_LENGTH;
  capabilityPayload := screenPayload;
  readCapability := readScreenPayload;
  admits := screenAdmits }.

(** ** What a kind owes the codec *)

(** A deadline the clock of a mint can give. *)
Definition isDeadline (x : Z) : bool := (0 <? x)%Z && (x * 1000 <=? MAX_DATE_MS)%Z.

Class CapabilityLaws (B X : Type) `{CapabilityKind B X} := {
  isCoordinates : B → bool;
  capability_writable b x : isCoordinates b = true → isDeadline x = true → writable (capabilityPayload b x) = true;
  capability_read b x :
    isCoordinates b = true → isDeadline x = true →
    match valueOf (capabilityPayload b x) with JObject record => readCapability record = Some (b, x) | _ => False end;
  capability_ttl : (0 < defaultTtlSeconds ≤ maxTtlSeconds)%Z }.

Definition isCoordinate (s : jstr) : bool := isText s && negb (strlen s =? 0)%Z.

Lemma isDeadline_safe x : isDeadline x = true → isSafeZ x = true ∧ (0 < x)%Z.
Proof. unfold isDeadline, isSafeZ, MAX_DATE_MS, MAX_SAFE_INTEGER. lia. Qed.

Lemma readCoordinate_get f s r : getField f r = JString s → isCoordinate s = true → readCoordinate f r = Some s.
Proof. unfold isCoordinate, readCoordinate. intros -> [_ ->%negb_true_iff]%andb_true_iff. done. Qed.

Lemma readDeadline_get r x :
  getField (u "v") r = JNumber (NInt CAPABILITY_VERSION) → getField (u "x") r = JNumber (NInt x) →
  isDeadline x = true → readDeadline r = Some x.
Proof.
  unfold readDeadline. intros -> -> [Hs Hx]%isDeadline_safe. rewrite bool_decide_true by done.
  unfold safeInteger. rewrite Hs. cbn. by replace (x <=? 0)%Z with false by lia.
Qed.

Ltac readCapabilityFields :=
  repeat (erewrite readCoordinate_get by (reflexivity || assumption); cbn [mbind option_bind]);
  erewrite readDeadline_get by (reflexivity || assumption); cbn [mbind option_bind].

Ltac writableFields :=
  cbn [writable forallb fst snd];
  repeat match goal with
  | H : isCoordinate _ = true |- _ => apply andb_true_iff in H as [H _]; rewrite H
  | H : isDeadline _ = true |- _ => apply isDeadline_safe in H as [H _]; rewrite H
  end; by vm_compute.

#[export] Instance proxyCapability_laws : CapabilityLaws ProxyCapabilityBinding ProxyCapabilityExpectation.
Proof.
  refine {| isCoordinates b := isCoordinate (pcRunId b) && isCoordinate (pcComputerId b) && isCoordinate (pcBotId b) |}.
  - intros [r c b] x Hb Hx. cbn in Hb. bools. cbn [capabilityPayload proxyCapability]. unfold proxyPayload. cbn [pcRunId pcComputerId pcBotId].
    writableFields.
  - intros [r c b] x Hb Hx. cbn in Hb. bools.
    cbn [capabilityPayload readCapability proxyCapability]. unfold proxyPayload. cbn [valueOf pcRunId pcComputerId pcBotId].
    unfold readProxyPayload. by readCapabilityFields.
  - done.
Defined.

#[export] Instance screenCapability_laws : CapabilityLaws ScreenCapabilityBinding ScreenCapabilityExpectation.
Proof.
  refine {| isCoordinates b := isCoordinate (scComputerId b) && isCoordinate (scBotId b) &&
                               isCoordinate (scSpaceId b) && isCoordinate (scUserId b) |}.
  - intros [c b s v] x Hb Hx. cbn in Hb. bools. cbn [capabilityPayload screenCapability]. unfold screenPayload. cbn [scComputerId scBotId scSpaceId scUserId].
    writableFields.
  - intros [c b s v] x Hb Hx. cbn in Hb. bools.
    cbn [capabilityPayload readCapability screenCapability]. unfold screenPayload. cbn [valueOf scComputerId scBotId scSpaceId scUserId].
    unfold readScreenPayload. by readCapabilityFields.
  - done.
Defined.

Section theorems.
Context `{HmacLaws} `{Base64Laws} {B X : Type} `{CapabilityLaws B X}.

Lemma capabilityPayload_decodes b x :
  isCoordinates b = true → isDeadline x = true → decodePayload (payloadText (capabilityPayload b x)) = Some (b, x).
Proof.
  intros Hb Hx. unfold decodePayload. rewrite readPayload_written by by apply capability_writable.
  pose proof (capability_read b x Hb Hx) as Hr. by destruct (valueOf _).
Qed.

Lemma capability_signature_own key payload : signatureMatches key payload (signatureFor key payload) = true.
Proof. by apply bool_decide_eq_true. Qed.

(** A token over any payload of the right kind, verified. *)
Lemma verify_token key now b x e :
  isCoordinates b = true → isDeadline x = true →
  let payload := payloadText (capabilityPayload b x) in
  let token := payload ++ [46%N] ++ signatureFor key payload in
  verify key now token e =
  if (maxCapabilityLength <? strlen token)%Z then CapRefused cap_malformed
  else if negb (admits e b) then CapRefused cap_binding
  else if (x <=? now)%Z then CapRefused cap_expired
  else CapValid b (toISOString (x * 1000)).
Proof.
  intros Hb Hx payload token. pose proof (capability_writable b x Hb Hx) as Hw. unfold verify.
  assert (payload ≠ []) as Hne by by apply payloadText_nonempty.
  assert (length payload ≠ 0) as Hl by by destruct payload.
  assert (length (signatureFor key payload) = 43) as Hs by apply macText_length.
  assert (length token = length payload + 44) as Ht by (unfold token; rewrite !length_app, Hs; cbn; lia).
  replace (strlen token =? 0)%Z with false by (unfold strlen; lia). cbn [orb]. case_match; [done|].
  assert (indexOf 46 token = Some (length payload)) as ->.
  { apply indexOf_after. apply base64url_no_dot. by apply payloadText_chars. }
  replace (_ || _) with false by lia.
  assert (take (length payload) token = payload) as -> by apply take_app_length.
  assert (drop (S (length payload)) token = signatureFor key payload) as ->.
  { unfold token. rewrite (app_assoc payload), drop_app_length'; [done|]. rewrite length_app. cbn. lia. }
  rewrite capability_signature_own. cbn [negb].
  assert (decodePayload payload = Some (b, x)) as -> by by apply capabilityPayload_decodes.
  destruct (negb (admits e b)); [done|]. destruct (x <=? now)%Z; [done|].
  replace (MAX_DATE_MS <? x * 1000)%Z with false; [done|]. unfold isDeadline in Hx. lia.
Qed.

(** What a mint answers with. *)
Lemma mint_ok key now b ttl token :
  mint key now b ttl = Some token →
  ∃ requested, (0 < requested)%Z ∧ requested = match ttl with None => defaultTtlSeconds | Some n => default 0%Z (safeInteger n) end ∧
    let payload := payloadText (capabilityPayload b (now + Z.min requested maxTtlSeconds)) in
    token = payload ++ [46%N] ++ signatureFor key payload.
Proof.
  unfold mint. destruct ttl as [n|].
  - destruct (safeInteger n) as [r|]; [|done]. cbn [mbind option_bind default]. case_match eqn:E; [done|].
    intros [= <-]. exists r. split_and!; [lia|done..].
  - cbn [mbind option_bind]. case_match eqn:E; [done|]. intros [= <-]. eexists. split_and!; [|done..]. lia.
Qed.

Definition isValid (c : CapabilityCheck B) : bool := match c with CapValid _ _ => true | _ => false end.

(** The lifetime a mint was asked for. *)
Definition requestedTtl (ttl : option jsnum) : Z :=
  match ttl with None => defaultTtlSeconds | Some n => default 0%Z (safeInteger n) end.

(** What a capability is good for. A token minted for coordinates none of which is
    empty verifies, as long as it is not too long, exactly when what the verifier
    checks matches and the deadline is ahead; the deadline is the requested lifetime
    past the mint and never beyond the kind's ceiling, so a token that verifies is
    younger than the ceiling whatever its minter asked for. *)
Theorem capability_exact key t0 b ttl token now e :
  isCoordinates b = true → (0 ≤ t0)%Z → ((t0 + maxTtlSeconds) * 1000 ≤ MAX_DATE_MS)%Z →
  mint key t0 b ttl = Some token → (strlen token ≤ maxCapabilityLength)%Z →
  let x := (t0 + Z.min (requestedTtl ttl) maxTtlSeconds)%Z in
  (0 < requestedTtl ttl)%Z ∧
  verify key now token e =
    (if negb (admits e b) then CapRefused cap_binding
     else if (x <=? now)%Z then CapRefused cap_expired
     else CapValid b (toISOString (x * 1000))) ∧
  (isValid (verify key now token e) = true → (now < t0 + maxTtlSeconds)%Z).
Proof.
  intros Hb Ht0 Hd (r & Hr & Er & ->)%mint_ok Hl x. fold (requestedTtl ttl) in Er. subst r.
  pose proof capability_ttl as Httl.
  assert (isDeadline x = true) as Hx by (unfold isDeadline, x; lia).
  split; [done|]. pose proof (verify_token key now b x e Hb Hx) as Hv. cbv zeta in Hv. fold x in Hl |- *. rewrite Hv.
  replace (maxCapabilityLength <? _)%Z with false by lia. split; [done|].
  destruct (negb (admits e b)); [done|]. destruct (x <=? now)%Z eqn:E; [done|]. lia.
Qed.

(** What a token that verifies carries: the coordinates of a signed payload, all that
    the verifier supplied among them, before their deadline. *)
Lemma verify_valid key now token e b at_ :
  verify key now token e = CapValid b at_ →
  ∃ separator x, indexOf 46 token = Some separator ∧
    signatureMatches key (take separator token) (drop (S separator) token) = true ∧
    decodePayload (take separator token) = Some (b, x) ∧ admits e b = true ∧ (now < x)%Z ∧ at_ = toISOString (x * 1000).
Proof.
  unfold verify. intros Hv. case_match; [done|]. destruct (indexOf 46 token) as [separator|] eqn:Ei; [|done].
  case_match; [done|]. cbv zeta in Hv. destruct (signatureMatches _ _ _) eqn:Es; [|done]. cbn [negb] in Hv.
  destruct (decodePayload _) as [[b' x]|] eqn:Ed; [|done]. destruct (admits e b') eqn:Ea; [|done]. cbn [negb] in Hv.
  destruct (x <=? now)%Z eqn:Ex; [done|]. case_match; [done|]. injection Hv as -> <-. exists separator, x. split_and!; try done. lia.
Qed.

(** A capability that verifies was minted or is a forgery. Whatever payloads have been
    signed, a token that verifies either names coordinates that were signed with a
    deadline still ahead, or carries the MAC of a payload that was never signed. *)
Theorem capability_authentic key (signed : list (B * Z)) token now e b at_ :
  Forall (λ s, isCoordinates s.1 = true ∧ isDeadline s.2 = true) signed → verify key now token e = CapValid b at_ →
  admits e b = true ∧
  ((∃ x, (b, x) ∈ signed ∧ (now < x)%Z ∧ at_ = toISOString (x * 1000)) ∨
   ∃ payload signature, token = payload ++ [46%N] ++ signature ∧
     fromBase64 signature = hmacSha256 key (utf8 payload) ∧
     payload ∉ (λ s, payloadText (capabilityPayload s.1 s.2)) <$> signed).
Proof.
  intros Hs (n & x & Hi & Hm & Hd & Ha & Hx & ->)%verify_valid. split; [done|].
  apply bool_decide_eq_true in Hm. unfold signatureFor in Hm. rewrite macText_read in Hm.
  destruct (decide (take n token ∈ (λ s, payloadText (capabilityPayload s.1 s.2)) <$> signed)) as [Hin|Hout].
  - left. apply list_elem_of_fmap in Hin as ([b' x'] & Ep & Hp). rewrite Forall_forall in Hs.
    destruct (Hs _ Hp) as [Hc Hx']. cbn in Ep, Hc, Hx'. rewrite Ep, capabilityPayload_decodes in Hd by done.
    injection Hd as -> ->. eauto.
  - right. exists (take n token), (drop (S n) token). split_and!; [|done..]. by apply indexOf_split.
Qed.
End theorems.

(** ** Witnesses *)

Definition proxyKey : bytes := u "the proxy key".
Definition runBinding : ProxyCapabilityBinding :=
  {| pcRunId := u "run-1"; pcComputerId := u "computer-1"; pcBotId := u "bot-1" |}.
Definition anyRun : ProxyCapabilityExpectation :=
  {| peRunId := None; peComputerId := Some (u "computer-1"); peBotId := None |}.
Definition otherComputer : ProxyCapabilityExpectation :=
  {| peRunId := None; peComputerId := Some (u "computer-2"); peBotId := None |}.

(** An hour was asked for; a quarter of one is given. *)
Definition runToken : jstr := default [] (mint (X := ProxyCapabilityExpectation) proxyKey 1800000000 runBinding (Some (NInt 3600))).

Lemma capability_exact_witness :
  mint (X := ProxyCapabilityExpectation) proxyKey 1800000000 runBinding (Some (NInt 3600)) = Some runToken ∧
  verify proxyKey 1800000899 runToken anyRun = CapValid runBinding (toISOString 1800000900000) ∧
  verify proxyKey 1800000900 runToken anyRun = CapRefused cap_expired ∧
  verify proxyKey 1800000000 runToken otherComputer = CapRefused cap_binding.
Proof.
  assert (mint (X := ProxyCapabilityExpectation) proxyKey 1800000000 runBinding (Some (NInt 3600)) = Some runToken) as Hm
    by (vm_compute; reflexivity).
  pose proof (λ now e, capability_exact proxyKey 1800000000 runBinding (Some (NInt 3600)) runToken now e
    eq_refl ltac:(lia) ltac:(vm_compute; discriminate) Hm ltac:(vm_compute; discriminate)) as Hv.
  split; [exact Hm|]. split; [apply (Hv 1800000899%Z anyRun)|]. split; [apply (Hv 1800000900%Z anyRun)|].
  apply (Hv 1800000000%Z otherComputer).
Defined.

Definition viewer : ScreenCapabilityBinding :=
  {| scComputerId := u "computer-1"; scBotId := u "bot-1"; scSpaceId := u "space-1"; scUserId := u "user-1" |}.
Definition thisComputer : ScreenCapabilityExpectation :=
  {| seComputerId := Some (u "computer-1"); seBotId := None; seSpaceId := None; seUserId := None |}.
Definition viewerToken : jstr := default [] (mint (X := ScreenCapabilityExpectation) proxyKey 1800000000 viewer None).

Lemma capability_authentic_witness :
  admits thisComputer viewer = true ∧
  ((∃ x, (viewer, x) ∈ [(viewer, 1800000060%Z)] ∧ (1800000059 < x)%Z ∧ toISOString 1800000060000 = toISOString (x * 1000)) ∨
   ∃ payload signature, viewerToken = payload ++ [46%N] ++ signature ∧
     fromBase64 signature = hmacSha256 proxyKey (utf8 payload) ∧
     payload ∉ (λ s : ScreenCapabilityBinding * Z, payloadText (capabilityPayload s.1 s.2)) <$> [(viewer, 1800000060%Z)]).
Proof.
  apply (capability_authentic proxyKey [(viewer, 1800000060%Z)] viewerToken 1800000059 thisComputer viewer);
    [by repeat constructor|vm_compute; reflexivity].
Defined.

(** A coordinate that is empty is minted, and never verifies. *)
Example empty_coordinate_malformed :
  match mint (X := ProxyCapabilityExpectation) proxyKey 1800000000
          {| pcRunId := []; pcComputerId := u "computer-1"; pcBotId := u "bot-1" |} None with
  | Some token => verify proxyKey 1800000000 token anyRun = CapRefused cap_malformed
  | None => False
  end.
Proof. vm_compute. reflexivity. Qed.
