(* ===== verification/WebhookSignature.v ===== *)
(** Inbound webhooks: packages/effect/src/webhook-signature.ts. *)

From stdpp Require Import pretty.
From S2P Require Import Prelude JsText JsValue Redaction Json Bytes JsonText SignedTokens.
From Stdlib Require Import ZifyN ZifyNat ZifyBool.

Definition defaultSignatureToleranceSeconds : Z := 300.
Definition maxDigestHexLength : Z := 128.

Record ParsedWebhookSignature := { pwTimestamp : Z; pwDigest : bytes }.

Inductive WebhookSignatureFailure := sig_missing | sig_malformed | sig_stale | sig_future | sig_mismatch.

Inductive WebhookSignatureCheck :=
| SignatureValid (timestampSeconds : Z)
| SignatureRefused (reason : WebhookSignatureFailure).

(** A body as text or as bytes, and the bytes that are signed. *)
Abbreviation webhookBody := (jstr + bytes)%type.

Definition bodyBytes (body : webhookBody) : bytes := match body with inl s => utf8 s | inr bs => bs end.

(** [`${timestampSeconds}.`] and the body. *)
Definition signedMessage (timestampSeconds : Z) (body : webhookBody) : bytes :=
  utf8 (decimal timestampSeconds ++ [46%N]) ++ bodyBytes body.

(** [/^\d{1,12}$/] and the number. *)
Definition readTimestamp (value : jstr) : option Z :=
  if isDigits value && (strlen value <=? 12)%Z then Some (numberOf value) else None.

Definition readDigest (value : jstr) : option bytes :=
  if (strlen value =? 0)%Z || negb (Z.even (strlen value)) || (maxDigestHexLength <? strlen value)%Z
     || negb (forallb (λ c, bool_decide (is_Some (hexValue c))) value)
  then None
  else Some (fromHex value).

(** The name and the value of a part; [None] without an equals sign. *)
Definition partOf (rawPart : jstr) : option (jstr * jstr) :=
  separator ← indexOf 61 rawPart; Some (trim (take separator rawPart), trim (drop (S separator) rawPart)).

Fixpoint parseParts (parts : list jstr) (timestampSeconds : option Z) (digest : option bytes) :
    option ParsedWebhookSignature :=
  match parts with
  | [] => t ← timestampSeconds; d ← digest; Some {| pwTimestamp := t; pwDigest := d |}
  | rawPart :: parts' =>
      match partOf rawPart with
      | None => parseParts parts' timestampSeconds digest
      | Some (name, value) =>
          if bool_decide (name = u "t") then
            match timestampSeconds, readTimestamp value with
            | None, Some t => parseParts parts' (Some t) digest
            | _, _ => None
            end
          else if bool_decide (name = u "v1") then
            match digest, readDigest value with
            | None, Some d => parseParts parts' timestampSeconds (Some d)
            | _, _ => None
            end
          else parseParts parts' timestampSeconds digest
      end
  end.

Definition parseWebhookSignature (header : option jstr) : option ParsedWebhookSignature :=
  header ← header; parseParts (split 44 header) None None.

Definition timingSafeEqualBytes (left right : bytes) : bool := bool_decide (left = right).

Section signatures.
Context `{HmacPlatform}.

Definition signWebhookBody (secret : jstr) (timestampSeconds : Z) (body : webhookBody) : jstr :=
  u "t=" ++ decimal timestampSeconds ++ u ",v1=" ++ hex (hmacSha256 (utf8 secret) (signedMessage timestampSeconds body)).

Definition verifyWebhookSignature (secret : jstr) (signature : option jstr) (body : webhookBody)
    (nowSeconds : Z) (toleranceSeconds : option Z) : WebhookSignatureCheck :=
  match parseWebhookSignature signature with
  | None => SignatureRefused (match signature with None => sig_missing | Some _ => sig_malformed end)
  | Some parsed =>
      let tolerance := default defaultSignatureToleranceSeconds toleranceSeconds in
      if (tolerance <? nowSeconds - pwTimestamp parsed)%Z then SignatureRefused sig_stale
      else if (tolerance <? pwTimestamp parsed - nowSeconds)%Z then SignatureRefused sig_future
      else if negb (timingSafeEqualBytes (pwDigest parsed)
                      (hmacSha256 (utf8 secret) (signedMessage (pwTimestamp parsed) body)))
      then SignatureRefused sig_mismatch
      else SignatureValid (pwTimestamp parsed)
  end.
End signatures.

(** ** The header as a set of parts *)

(** The values of the parts of a name. *)
Definition valuesOf (name : jstr) (parts : list jstr) : list jstr :=
  omap (λ part, '(n, value) ← partOf part; if bool_decide (n = name) then Some value else None) parts.

(** The only reading of the only value. *)
Definition onlyOne {A} (readings : list (option A)) : option A :=
  match readings with [Some a] => Some a | _ => None end.

Definition stored {A} (o : option A) : list (option A) := match o with Some a => [Some a] | None => [] end.

Lemma onlyOne_second {A} (a : A) x l : onlyOne (Some a :: x :: l) = None.
Proof. done. Qed.

Lemma onlyOne_stored {A} (o : option A) : onlyOne (stored o ++ []) = o.
Proof. by destruct o. Qed.

Lemma parseParts_values parts t d :
  parseParts parts t d =
  (t' ← onlyOne (stored t ++ (readTimestamp <$> valuesOf (u "t") parts));
   d' ← onlyOne (stored d ++ (readDigest <$> valuesOf (u "v1") parts));
   Some {| pwTimestamp := t'; pwDigest := d' |}).
Proof.
  revert t d. induction parts as [|part parts IH]; intros t d; cbn [parseParts valuesOf omap list_omap].
  - cbn [fmap list_fmap]. by rewrite !onlyOne_stored.
  - fold (valuesOf (u "t") parts) (valuesOf (u "v1") parts).
    destruct (partOf part) as [[name value]|]; cbn [mbind option_bind]; [|apply IH].
    destruct (decide (name = u "t")) as [->|Ht].
    + rewrite bool_decide_true by done. rewrite (bool_decide_false (u "t" = u "v1")) by done.
      cbn [fmap list_fmap]. destruct t as [t|]; [done|]. cbn [stored app].
      destruct (readTimestamp value) as [t'|] eqn:Er; [|done]. by rewrite IH.
    + rewrite (bool_decide_false (name = u "t")) by done. destruct (decide (name = u "v1")) as [->|Hv].
      * rewrite bool_decide_true by done. cbn [fmap list_fmap].
        destruct d as [d|]; [cbn [stored app]; rewrite onlyOne_second|cbn [stored app];
          destruct (readDigest value) as [d'|] eqn:Er; [by rewrite IH|]];
          by destruct (onlyOne (stored t ++ _)).
      * rewrite (bool_decide_false (name = u "v1")) by done. apply IH.
Qed.

(** ** A signature, written and read back *)

(** The digits [hex] writes. *)
Definition isHexText (c : N) : bool := isDigit c || ((97 <=? c) && (c <=? 102))%N.

Lemma hex_chars bs : forallb isByte bs = true → forallb isHexText (hex bs) = true.
Proof.
  induction bs as [|b bs IH]; [done|]. cbn [forallb]. intros [Hb Hbs]%andb_true_iff. unfold isByte in Hb.
  assert (∀ v, (v < 16)%N → isHexText (hexChar true v) = true) as Hc.
  { intros v Hv. unfold isHexText, hexChar, isDigit. case_match; lia. }
  rewrite hex_cons. cbn [app forallb]. by rewrite !Hc, IH by (done || digits).
Qed.

Lemma hexText_facts s :
  forallb isHexText s = true →
  Forall (λ c, isSpace c = false) s ∧ Forall (λ c, (44 =? c)%N = false) s ∧
  forallb (λ c, bool_decide (is_Some (hexValue c))) s = true.
Proof.
  rewrite forallb_forall. intros H. split_and!; [apply Forall_forall|apply Forall_forall|apply forallb_forall];
    intros c Hc; [apply list_elem_of_In in Hc..|]; apply H in Hc; unfold isHexText, isDigit in Hc.
  - unfold isSpace. rewrite bool_decide_false by (rewrite !elem_of_cons, elem_of_nil; lia). lia.
  - lia.
  - apply bool_decide_eq_true. unfold hexValue, isDigit. repeat (case_match; [by econstructor|]). exfalso. lia.
Qed.

Lemma readTimestamp_decimal t : (0 ≤ t < 1000000000000)%Z → readTimestamp (decimal t) = Some t ∧ forallb isDigit (decimal t) = true.
Proof.
  intros Ht. rewrite decimal_Z. replace (t <? 0)%Z with false by lia. cbn [app].
  pose proof (decimal_length (Z.abs_N t) 12 ltac:(change (10 ^ Z.of_nat 12)%Z with 1000000000000%Z; lia) ltac:(lia)) as Hl.
  destruct (decimal_N (Z.abs_N t)) as (d & ds & E & Hd & _ & Hds & Hv). rewrite E in *.
  assert (forallb isDigit (d :: ds) = true) as Hf by (cbn; by rewrite Hd, Hds). split; [|done].
  unfold readTimestamp, isDigits. rewrite Hf, Hv. unfold strlen in *.
  replace (0 <? _)%Z with true by (cbn; lia). replace (_ <=? 12)%Z with true by lia. cbn. f_equal. lia.
Qed.

Lemma readTimestamp_nonneg v t : readTimestamp v = Some t → (0 ≤ t)%Z.
Proof.
  unfold readTimestamp, isDigits. intros Ht. destruct (_ && forallb isDigit v) eqn:E; [|done]. cbn [andb] in Ht.
  destruct (strlen v <=? 12)%Z; [|done]. injection Ht as <-. apply andb_true_iff in E as [_ E]. unfold numberOf.
  assert (∀ s acc, forallb isDigit s = true → (0 ≤ acc)%Z → (0 ≤ foldl (λ n c, n * 10 + (Z.of_N c - 48)) acc s)%Z) as F.
  { intros s. induction s as [|c s IH]; intros acc Hs Ha; [done|]. cbn [forallb foldl] in *.
    apply andb_true_iff in Hs as [Hc Hs]. unfold isDigit in Hc. apply IH; [done|lia]. }
  by apply F.
Qed.

Section theorems.
Context `{HmacLaws}.

Lemma parse_signed secret t body :
  (0 ≤ t < 1000000000000)%Z →
  parseWebhookSignature (Some (signWebhookBody secret t body)) =
  Some {| pwTimestamp := t; pwDigest := hmacSha256 (utf8 secret) (signedMessage t body) |}.
Proof.
  intros Ht. destruct (readTimestamp_decimal t Ht) as [Hr Hd].
  set (mac := hmacSha256 (utf8 secret) (signedMessage t body)).
  assert (forallb isByte mac = true) as Hb by apply hmac_bytes.
  assert (length mac = 32) as Hlen by apply hmac_length.
  destruct (hexText_facts (hex mac)) as (Hsp & Hcm & Hhx); [by apply hex_chars|].
  unfold parseWebhookSignature, signWebhookBody. cbn [mbind option_bind]. fold mac.
  assert (split 44 (u "t=" ++ decimal t ++ u ",v1=" ++ hex mac) = [u "t=" ++ decimal t; u "v1=" ++ hex mac]) as ->.
  { change (u ",v1=" ++ hex mac) with (44%N :: u "v1=" ++ hex mac). rewrite app_assoc. unfold split.
    rewrite splitOn_app_sep; [|apply Forall_app; split; [by repeat constructor|]|done].
    - rewrite splitOn_word; [done|]. apply Forall_app. split; [by repeat constructor|done].
    - rewrite forallb_forall in Hd. apply Forall_forall. intros c Hc%list_elem_of_In%Hd. unfold isDigit in Hc. lia. }
  assert (partOf (u "t=" ++ decimal t) = Some (u "t", decimal t)) as P1.
  { change (partOf (u "t=" ++ decimal t)) with (Some (u "t", trim (decimal t))).
    by rewrite trim_no_space by by apply digits_no_space. }
  assert (partOf (u "v1=" ++ hex mac) = Some (u "v1", hex mac)) as P2.
  { change (partOf (u "v1=" ++ hex mac)) with (Some (u "v1", trim (hex mac))). by rewrite trim_no_space. }
  cbn [parseParts]. rewrite P1, bool_decide_true, Hr by done. rewrite P2.
  rewrite (bool_decide_false (u "v1" = u "t")), bool_decide_true by done.
  assert (readDigest (hex mac) = Some mac) as ->; [|done].
  unfold readDigest. rewrite Hhx, fromHex_hex by done. unfold strlen. rewrite hex_length, Hlen. done.
Qed.

(** ** The messages that are signed *)

Lemma decimal_no_dot t : (0 ≤ t)%Z → Forall (λ c, (46 =? c)%N = false) (decimal t).
Proof.
  intros Ht. rewrite decimal_Z. replace (t <? 0)%Z with false by lia. cbn [app].
  destruct (decimal_N (Z.abs_N t)) as (d & ds & -> & Hd & _ & Hds & _).
  assert (forallb isDigit (d :: ds) = true) as Hf by (cbn; by rewrite Hd, Hds).
  rewrite forallb_forall in Hf. apply Forall_forall. intros c Hc%list_elem_of_In%Hf. unfold isDigit in Hc. lia.
Qed.

Lemma decimal_inj t t' : (0 ≤ t)%Z → (0 ≤ t')%Z → decimal t = decimal t' → t = t'.
Proof.
  intros Ht Ht'. rewrite !decimal_Z. replace (t <? 0)%Z with false by lia. replace (t' <? 0)%Z with false by lia. cbn [app].
  destruct (decimal_N (Z.abs_N t)) as (d & ds & E & _ & _ & _ & Hv), (decimal_N (Z.abs_N t')) as (d' & ds' & E' & _ & _ & _ & Hv').
  intros Eq. rewrite Eq in Hv. lia.
Qed.

(** A timestamp and a body are read off the message that is signed for them. *)
Lemma signedMessage_inj t body t' body' :
  (0 ≤ t)%Z → (0 ≤ t')%Z → signedMessage t body = signedMessage t' body' → t = t' ∧ bodyBytes body = bodyBytes body'.
Proof.
  intros Ht Ht' E. unfold signedMessage in E.
  assert (∀ z, utf8 (decimal z ++ [46%N]) = decimal z ++ [46%N]) as U.
  { intros z. apply utf8_ascii. unfold isAscii. rewrite forallb_app. pose proof (decimal_ascii z) as Ha.
    unfold isAscii in Ha. by rewrite Ha. }
  rewrite !U, <- !app_assoc in E. cbn [app] in E.
  assert (indexOf 46 (decimal t ++ 46%N :: bodyBytes body) = Some (length (decimal t))) as I by by apply indexOf_after, decimal_no_dot.
  assert (indexOf 46 (decimal t' ++ 46%N :: bodyBytes body') = Some (length (decimal t'))) as I' by by apply indexOf_after, decimal_no_dot.
  rewrite E, I' in I. injection I as Hl. apply app_inj_1 in E as [Ed Eb]; [|done].
  split; [by apply decimal_inj|by injection Eb].
Qed.
(** The verdict on a signed webhook. The header [signWebhookBody] writes verifies over
    the same secret and body exactly inside the freshness window, on both sides of it,
    and over another body or secret exactly when the MACs collide. *)
Theorem webhook_verdict secret secret' t body body' now tolerance :
  (0 ≤ t < 1000000000000)%Z →
  let window := default defaultSignatureToleranceSeconds tolerance in
  verifyWebhookSignature secret' (Some (signWebhookBody secret t body)) body' now tolerance =
  if (window <? now - t)%Z then SignatureRefused sig_stale
  else if (window <? t - now)%Z then SignatureRefused sig_future
  else if bool_decide (hmacSha256 (utf8 secret) (signedMessage t body) = hmacSha256 (utf8 secret') (signedMessage t body'))
  then SignatureValid t
  else SignatureRefused sig_mismatch.
Proof.
  intros Ht window. unfold verifyWebhookSignature. rewrite parse_signed by done. cbn [pwTimestamp pwDigest].
  fold window. repeat case_match; try done; unfold timingSafeEqualBytes in *; bools; by simplify_eq.
Qed.

Lemma parsed_timestamp header parsed : parseWebhookSignature header = Some parsed → (0 ≤ pwTimestamp parsed)%Z.
Proof.
  unfold parseWebhookSignature. destruct header as [header|]; [|done]. cbn [mbind option_bind].
  rewrite parseParts_values. cbn [stored app]. intros Hp.
  apply bind_Some in Hp as (t & Ht & Hp). apply bind_Some in Hp as (d & _ & [= <-]). cbn.
  destruct (valuesOf (u "t") (split 44 header)) as [|v [|v' vs]]; [done| |].
  - cbn [fmap list_fmap onlyOne] in Ht.
    destruct (readTimestamp v) as [t'|] eqn:E; [|done]. injection Ht as <-. by eapply readTimestamp_nonneg.
  - cbn [fmap list_fmap onlyOne] in Ht. by destruct (readTimestamp v).
Qed.

(** A webhook that verifies was signed or is a forgery. Whatever timestamps and bodies
    the holder of the secret has signed, a request that verifies is fresh and either
    carries the bytes of a signed body with its own timestamp, or a MAC of a message
    that was never signed. *)
Theorem webhook_authentic secret (signed : list (Z * webhookBody)) header body now tolerance t :
  Forall (λ s, 0 ≤ s.1)%Z signed →
  verifyWebhookSignature secret header body now tolerance = SignatureValid t →
  (Z.abs (now - t) ≤ default defaultSignatureToleranceSeconds tolerance)%Z ∧
  ((∃ s, s ∈ signed ∧ s.1 = t ∧ bodyBytes s.2 = bodyBytes body) ∨
   ∃ digest, parseWebhookSignature header = Some {| pwTimestamp := t; pwDigest := digest |} ∧
     digest = hmacSha256 (utf8 secret) (signedMessage t body) ∧
     signedMessage t body ∉ (λ s, signedMessage s.1 s.2) <$> signed).
Proof.
  intros Hs Hv. unfold verifyWebhookSignature in Hv.
  destruct (parseWebhookSignature header) as [parsed|] eqn:Ep; [|done].
  repeat case_match; try done. injection Hv as <-. unfold timingSafeEqualBytes in *. bools. split; [lia|].
  pose proof (parsed_timestamp header parsed Ep) as Ht.
  destruct (decide (signedMessage (pwTimestamp parsed) body ∈ (λ s, signedMessage s.1 s.2) <$> signed)) as [Hin|Hout].
  - left. apply list_elem_of_fmap in Hin as (s & E & Hin). exists s. rewrite Forall_forall in Hs.
    apply signedMessage_inj in E as [E1 E2]; [|done|by apply Hs]. by split_and!.
  - right. exists (pwDigest parsed). split_and!; [by destruct parsed|done..].
Qed.
End theorems.

(** A header is read as a set of parts. Whatever else it lists, it is accepted exactly
    when one part is a timestamp, one a digest, and both can be read; a second of
    either, readable or not, refuses it. *)
Theorem webhook_header_exact header :
  parseWebhookSignature (Some header) =
  (t ← onlyOne (readTimestamp <$> valuesOf (u "t") (split 44 header));
   d ← onlyOne (readDigest <$> valuesOf (u "v1") (split 44 header));
   Some {| pwTimestamp := t; pwDigest := d |}).
Proof. unfold parseWebhookSignature. cbn [mbind option_bind]. by rewrite parseParts_values. Qed.

(** ** Witnesses *)

Definition hookSecret : jstr := u "whsec".
Definition hookBody : webhookBody := inl (u "{}").
Definition hookHeader : jstr := signWebhookBody hookSecret 1800000000 hookBody.

Lemma webhook_verdict_witness :
  verifyWebhookSignature hookSecret (Some hookHeader) hookBody 1800000300 None = SignatureValid 1800000000 ∧
  verifyWebhookSignature hookSecret (Some hookHeader) hookBody 1800000301 None = SignatureRefused sig_stale ∧
  verifyWebhookSignature hookSecret (Some hookHeader) hookBody 1799999699 None = SignatureRefused sig_future ∧
  verifyWebhookSignature hookSecret (Some hookHeader) (inl (u "[]")) 1800000000 None = SignatureRefused sig_mismatch.
Proof.
  pose proof (λ body now, webhook_verdict hookSecret hookSecret 1800000000 hookBody body now None ltac:(lia)) as H.
  split; [exact (H hookBody 1800000300%Z)|]. split; [exact (H hookBody 1800000301%Z)|].
  split; [exact (H hookBody 1799999699%Z)|]. refine (eq_trans (H (inl (u "[]")) 1800000000%Z) _). vm_compute. reflexivity.
Defined.

Lemma webhook_authentic_witness :
  (Z.abs (1800000010 - 1800000000) ≤ 300)%Z ∧
  ((∃ s, s ∈ [(1800000000%Z, hookBody)] ∧ s.1 = 1800000000%Z ∧ bodyBytes s.2 = bodyBytes hookBody) ∨
   ∃ digest, parseWebhookSignature (Some hookHeader) = Some {| pwTimestamp := 1800000000; pwDigest := digest |} ∧
     digest = hmacSha256 (utf8 hookSecret) (signedMessage 1800000000 hookBody) ∧
     signedMessage 1800000000 hookBody ∉ (λ s : Z * webhookBody, signedMessage s.1 s.2) <$> [(1800000000%Z, hookBody)]).
Proof.
  apply (webhook_authentic hookSecret [(1800000000%Z, hookBody)] (Some hookHeader) hookBody 1800000010 None);
    [by repeat constructor|vm_compute; reflexivity].
Defined.

(** Two digests refuse the header, even the same one. *)
Example two_digests_malformed :
  verifyWebhookSignature hookSecret (Some (hookHeader ++ u ",v1=00")) hookBody 1800000000 None = SignatureRefused sig_malformed.
Proof. vm_compute. reflexivity. Qed.
