(* ===== verification/CredentialCipher.v ===== *)
(** The credential keyring and envelope: packages/db/src/credential-cipher.ts. *)

From stdpp Require Import pretty.
From S2P Require Import Prelude JsText JsValue Redaction Json Bytes JsonText SignedTokens.
From Stdlib Require Import ZifyN ZifyNat ZifyBool.

Definition envelopeVersion : jstr := u "v1".
Definition keyBytes : nat := 32.
Definition saltBytes : nat := 16.
Definition ivBytes : nat := 12.
Definition authTagBytes : nat := 16.
Definition derivationInfo : jstr := u "porkbot.credential.v1".

(** ** The keyring *)

(** The keys of a Map, in insertion order, no id twice. *)
Record CredentialKeyring := { activeKeyId : jstr; keys : list (jstr * bytes) }.

Record CredentialKeyringEntry := { entryId : jstr; entryKey : jstr }.

Inductive KeyringError :=
| BadKeyId (id : jstr)
| DuplicateKeyId (id : jstr)
| BadKeyMaterial (id : jstr) (decoded : nat)
| NoKeys
| ActiveKeyMissing (id : jstr)
| KeysNotSet
| ActiveKeyNotSet
| BadKeyList.

(** [/^[A-Za-z0-9_-]{1,32}$/]. *)
Definition isKeyId (id : jstr) : bool :=
  forallb isBase64Url id && (1 <=? strlen id)%Z && (strlen id <=? 32)%Z.

Definition keyOf (id : jstr) (keys : list (jstr * bytes)) : option bytes := snd <$> lookupKey fst id keys.

(** The two replacements of the base64url alphabet by the base64 one. *)
Definition normalizeKeyText (encoded : jstr) : jstr :=
  (λ c, if (c =? 45)%N then 43%N else if (c =? 95)%N then 47%N else c) <$> trim encoded.

Section keyring.
Context `{Base64Platform}.

Definition decodeKeyMaterial (id encoded : jstr) : result KeyringError bytes :=
  let key := fromBase64 (normalizeKeyText encoded) in
  if (length key =? keyBytes)%nat then Ok key else Err (BadKeyMaterial id (length key)).

Fixpoint addKeys (keys : list (jstr * bytes)) (entries : list CredentialKeyringEntry) : result KeyringError (list (jstr * bytes)) :=
  match entries with
  | [] => Ok keys
  | entry :: entries' =>
      if negb (isKeyId (entryId entry)) then Err (BadKeyId (entryId entry))
      else if bool_decide (is_Some (keyOf (entryId entry) keys)) then Err (DuplicateKeyId (entryId entry))
      else
        key ← decodeKeyMaterial (entryId entry) (entryKey entry);
        addKeys (keys ++ [(entryId entry, key)]) entries'
  end.

Definition createCredentialKeyring (active : jstr) (entries : list CredentialKeyringEntry) : result KeyringError CredentialKeyring :=
  keys ← addKeys [] entries;
  if (length keys =? 0)%nat then Err NoKeys
  else if bool_decide (is_Some (keyOf active keys)) then Ok {| activeKeyId := active; keys := keys |}
  else Err (ActiveKeyMissing active).

(** One [id:key] of the list. *)
Definition parseKeyEntry (entry : jstr) : option CredentialKeyringEntry :=
  let '(id, key) := match indexOf 58 entry with
                    | None => (trim entry, [])
                    | Some separator => (trim (take separator entry), trim (drop (S separator) entry))
                    end in
  if (strlen id =? 0)%Z || (strlen key =? 0)%Z || includes [58%N] key then None
  else Some {| entryId := id; entryKey := key |}.

Definition keyListEntries (encodedKeys : jstr) : option (list CredentialKeyringEntry) := mapM parseKeyEntry (split 44 encodedKeys).

Definition notBlank (s : jstr) : option jstr := if (strlen s =? 0)%Z then None else Some s.

Definition credentialKeyringFromEnvironment (env : jstr → option jstr) : result KeyringError CredentialKeyring :=
  match (trim <$> env (u "PORKBOT_CREDENTIAL_KEYS")) ≫= notBlank,
        (trim <$> env (u "PORKBOT_CREDENTIAL_ACTIVE_KEY")) ≫= notBlank with
  | None, _ => Err KeysNotSet
  | _, None => Err ActiveKeyNotSet
  | Some encodedKeys, Some active =>
      match keyListEntries encodedKeys with
      | None => Err BadKeyList
      | Some entries => createCredentialKeyring active entries
      end
  end.
End keyring.

(** ** The envelope *)

Record CredentialBinding := { cdSpace : jstr; cdBot : option jstr; cdName : jstr }.

#[export] Instance CredentialBinding_eq_dec : EqDecision CredentialBinding.
Proof. solve_decision. Defined.

Inductive CredentialStoreError := UnknownKey (id : jstr) | Corrupt.

(** The parts the additional data authenticates, as JSON. *)
Definition credentialParts (binding : CredentialBinding) : written :=
  WList (WString <$> match cdBot binding with
                     | None => [derivationInfo; cdSpace binding; cdName binding]
                     | Some bot => [derivationInfo; cdSpace binding; bot; cdName binding]
                     end).

Definition credentialAad (binding : CredentialBinding) : bytes := utf8 (jsonText (credentialParts binding)).

Record ParsedEnvelope := { peKeyId : jstr; peSalt : bytes; peIv : bytes; peAuthTag : bytes; peCiphertext : bytes }.

Section envelope.
Context `{AeadPlatform} `{Base64Platform}.

Definition deriveKey (masterKey salt : bytes) : bytes := hkdfSha256 masterKey salt (utf8 derivationInfo) keyBytes.

Definition parseEnvelope (envelope : jstr) : result CredentialStoreError ParsedEnvelope :=
  match split 58 envelope with
  | [version; keyId; salt; iv; authTag; ciphertext] =>
      if negb (bool_decide (version = envelopeVersion)) then Err Corrupt
      else
        let parsed := {| peKeyId := keyId; peSalt := fromBase64 salt; peIv := fromBase64 iv;
                         peAuthTag := fromBase64 authTag; peCiphertext := fromBase64 ciphertext |} in
        if negb (isKeyId keyId) || negb (length (peSalt parsed) =? saltBytes)%nat
           || negb (length (peIv parsed) =? ivBytes)%nat || negb (length (peAuthTag parsed) =? authTagBytes)%nat
        then Err Corrupt
        else Ok parsed
  | _ => Err Corrupt
  end.

Definition credentialEnvelopeKeyId (envelope : jstr) : result CredentialStoreError jstr := peKeyId <$> parseEnvelope envelope.

(** The text of an envelope. *)
Definition envelopeText (keyId : jstr) (salt iv authTag ciphertext : bytes) : jstr :=
  join [58%N] [envelopeVersion; keyId; base64url salt; base64url iv; base64url authTag; base64url ciphertext].

(** The salt and the IV are drawn at random for every call. *)
Definition encryptCredentialValue (keyring : CredentialKeyring) (binding : CredentialBinding) (value : jstr)
    (salt iv : bytes) : result CredentialStoreError jstr :=
  match keyOf (activeKeyId keyring) (keys keyring) with
  | None => Err (UnknownKey (activeKeyId keyring))
  | Some masterKey =>
      let '(ciphertext, authTag) := gcmSeal (deriveKey masterKey salt) iv (credentialAad binding) (utf8 value) in
      Ok (envelopeText (activeKeyId keyring) salt iv authTag ciphertext)
  end.

Definition decryptCredentialValue (keyring : CredentialKeyring) (binding : CredentialBinding) (envelope : jstr) :
    result CredentialStoreError jstr :=
  parsed ← parseEnvelope envelope;
  match keyOf (peKeyId parsed) (keys keyring) with
  | None => Err (UnknownKey (peKeyId parsed))
  | Some masterKey =>
      match gcmOpen (deriveKey masterKey (peSalt parsed)) (peIv parsed) (credentialAad binding)
              (peCiphertext parsed) (peAuthTag parsed) with
      | Some plaintext => Ok (fromUtf8 plaintext)
      | None => Err Corrupt
      end
  end.
End envelope.

(** Four bullets, then the last four characters of a value long enough. *)
Definition maskCredentialValue (value : jstr) : jstr :=
  replicate 4 8226%N ++ (if (8 <=? strlen value)%Z then drop (length value - 4) value else []).

(** ** Lemmas *)

Lemma keyOf_some id ks key : keyOf id ks = Some key → (id, key) ∈ ks.
Proof.
  unfold keyOf. intros ([id' key'] & Hl & ->)%fmap_Some. apply lookupKey_some in Hl as [Hin E]. cbn in *. by subst.
Qed.

Lemma keyOf_none id (ks : list (jstr * bytes)) : keyOf id ks = None ↔ id ∉ ks.*1.
Proof. unfold keyOf. rewrite fmap_None. apply lookupKey_none. Qed.

Lemma keyOf_in id (ks : list (jstr * bytes)) : is_Some (keyOf id ks) ↔ id ∈ ks.*1.
Proof.
  rewrite <- not_eq_None_Some, keyOf_none. split; [intros H; by destruct (decide (id ∈ ks.*1))|auto].
Qed.

Section keyring_laws.
Context `{Base64Platform}.

(** What one entry adds. *)
Definition entryPair (e : CredentialKeyringEntry) : jstr * bytes := (entryId e, fromBase64 (normalizeKeyText (entryKey e))).

Definition goodEntry (e : CredentialKeyringEntry) : Prop :=
  isKeyId (entryId e) = true ∧ length (entryPair e).2 = keyBytes.

Lemma addKeys_exact ks entries ks' :
  NoDup ks.*1 →
  addKeys ks entries = Ok ks' ↔
  Forall goodEntry entries ∧ NoDup (ks.*1 ++ (entryId <$> entries)) ∧ ks' = ks ++ (entryPair <$> entries).
Proof.
  revert ks. induction entries as [|e entries IH]; intros ks Hks; cbn [addKeys].
  - cbn [fmap list_fmap]. rewrite !app_nil_r. naive_solver.
  - unfold goodEntry at 1. rewrite Forall_cons.
    destruct (isKeyId (entryId e)) eqn:Ei; cbn [negb]; [|split; [done|by intros [[[] _] _]]].
    destruct (decide (entryId e ∈ ks.*1)) as [Hin|Hout].
    { rewrite bool_decide_true by by apply keyOf_in. split; [done|]. intros (_ & Hd & _).
      apply NoDup_app in Hd as (_ & Hd & _). destruct (Hd (entryId e) Hin). left. }
    rewrite bool_decide_false by by rewrite keyOf_in. unfold decodeKeyMaterial, entryPair at 1. cbn [snd].
    destruct (Nat.eqb_spec (length (fromBase64 (normalizeKeyText (entryKey e)))) keyBytes) as [El|El]; cbn [mbind result_bind].
    2: { split; [done|]. by intros [[[_ ?] _] _]. }
    rewrite IH.
    2: { rewrite fmap_app. apply NoDup_app. split_and!; [done| |apply NoDup_singleton].
         intros x Hx ->%list_elem_of_singleton. done. }
    rewrite fmap_app, !fmap_cons, <- !app_assoc. cbn [fmap list_fmap fst app]. unfold entryPair. naive_solver.
Qed.

Lemma createCredentialKeyring_iff active entries keyring :
  createCredentialKeyring active entries = Ok keyring ↔
  Forall goodEntry entries ∧ NoDup (entryId <$> entries) ∧ active ∈ entryId <$> entries ∧
  keyring = {| activeKeyId := active; keys := entryPair <$> entries |}.
Proof.
  unfold createCredentialKeyring. pose proof (addKeys_exact [] entries) as Ha. cbn [fmap list_fmap app] in Ha.
  assert ((entryPair <$> entries).*1 = entryId <$> entries) as E by (by rewrite <- list_fmap_compose).
  destruct (addKeys [] entries) as [ks|e] eqn:Ek; cbn [mbind result_bind].
  - destruct (proj1 (Ha ks ltac:(constructor)) eq_refl) as (Hg & Hd & ->).
    rewrite length_fmap. destruct entries as [|e entries]; [split; [done|]; by intros (_ & _ & ?%elem_of_nil & _)|].
    cbn [length Nat.eqb]. destruct (decide (active ∈ entryId <$> e :: entries)) as [Hin|Hout].
    + rewrite bool_decide_true by by rewrite keyOf_in, E. naive_solver.
    + rewrite bool_decide_false by by rewrite keyOf_in, E. naive_solver.
  - split; [done|]. intros (Hg & Hd & _). specialize (Ha (entryPair <$> entries) ltac:(constructor)). naive_solver.
Qed.

(** The keyrings that can be made. A keyring is accepted exactly when there is an entry
    with the active id, every id can stand in an envelope, no id comes twice and every
    key decodes to 32 bytes; it then holds the decoded keys in the order given. *)
Theorem createCredentialKeyring_exact active entries keyring :
  createCredentialKeyring active entries = Ok keyring ↔
  Forall goodEntry entries ∧ NoDup (entryId <$> entries) ∧ active ∈ entryId <$> entries ∧
  keyring = {| activeKeyId := active; keys := entryPair <$> entries |}.
Proof. apply createCredentialKeyring_iff. Qed.
End keyring_laws.

Section laws.
Context `{AeadLaws} `{Base64Laws}.

Lemma isKeyId_words id : isKeyId id = true → Forall (λ c, (58 =? c)%N = false) id.
Proof.
  unfold isKeyId. intros Hi. bools. match goal with H : forallb _ _ = true |- _ => rewrite forallb_forall in H; rename H into Hf end.
  apply Forall_forall. intros c Hc%list_elem_of_In%Hf. unfold isBase64Url in Hc. lia.
Qed.

Lemma base64url_word bs : forallb isByte bs = true → Forall (λ c, (58 =? c)%N = false) (base64url bs).
Proof.
  intros Hb%base64url_chars. rewrite forallb_forall in Hb. apply Forall_forall.
  intros c Hc%list_elem_of_In%Hb. unfold isBase64Url in Hc. lia.
Qed.

Lemma parseEnvelope_text id salt iv tag ct :
  isKeyId id = true → forallb isByte salt && forallb isByte iv && forallb isByte tag && forallb isByte ct = true →
  length salt = saltBytes → length iv = ivBytes → length tag = authTagBytes →
  parseEnvelope (envelopeText id salt iv tag ct) =
  Ok {| peKeyId := id; peSalt := salt; peIv := iv; peAuthTag := tag; peCiphertext := ct |}.
Proof.
  intros Hi Hb Ls Li Lt. bools. unfold parseEnvelope, envelopeText. rewrite split_join;
    [|done|rewrite !Forall_cons; split_and!;
      [by repeat constructor|by apply isKeyId_words|by apply base64url_word..|constructor]].
  rewrite bool_decide_true by done. cbn [negb]. rewrite !from_base64url by done. cbn [peSalt peIv peAuthTag].
  by rewrite Hi, Ls, Li, Lt.
Qed.

(** The additional data names its binding. *)
Lemma credentialParts_writable b :
  isText (cdSpace b) && isText (cdName b) && isText (default [] (cdBot b)) = true → writable (credentialParts b) = true.
Proof.
  intros Hb. bools. unfold credentialParts.
  destruct b as [s [bot|] n]; unfold default, id in *; cbn [cdSpace cdBot cdName default fmap list_fmap writable forallb] in *;
    repeat match goal with H : isText _ = true |- _ => rewrite H; clear H end; by vm_compute.
Qed.

Lemma credentialAad_inj b b' :
  isText (cdSpace b) && isText (cdName b) && isText (default [] (cdBot b)) = true →
  isText (cdSpace b') && isText (cdName b') && isText (default [] (cdBot b')) = true →
  credentialAad b = credentialAad b' → b = b'.
Proof.
  intros Hb%credentialParts_writable Hb'%credentialParts_writable E. unfold credentialAad in E.
  pose proof (readUtf8_jsonText _ Hb) as R. rewrite E, readUtf8_jsonText in R by done. injection R as R.
  unfold credentialParts in R. destruct b as [s [bot|] n], b' as [s' [bot'|] n']; cbn in R; by simplify_eq.
Qed.

(** What is stored reads back. A value encrypted under a keyring decrypts, under any
    keyring that still holds that key whichever is active, to the value itself (with
    U+FFFD for an unpaired surrogate), and its envelope names the key. *)
Theorem credential_roundtrip keyring keyring' b value salt iv envelope :
  isKeyId (activeKeyId keyring) = true → isText value = true →
  forallb isByte salt && forallb isByte iv = true → length salt = saltBytes → length iv = ivBytes →
  encryptCredentialValue keyring b value salt iv = Ok envelope →
  keyOf (activeKeyId keyring) (keys keyring') = keyOf (activeKeyId keyring) (keys keyring) →
  decryptCredentialValue keyring' b envelope = Ok (encodeText value) ∧
  credentialEnvelopeKeyId envelope = Ok (activeKeyId keyring).
Proof.
  intros Hi Hv Hb Ls Li He Hk. unfold encryptCredentialValue in He.
  destruct (keyOf _ (keys keyring)) as [master|] eqn:Em; [|done].
  destruct (seal_length (deriveKey master salt) iv (credentialAad b) (utf8 value)) as [_ Lt].
  destruct (seal_bytes (deriveKey master salt) iv (credentialAad b) (utf8 value)) as [Bc Bt]; [by apply utf8_bytes|].
  pose proof (open_own (deriveKey master salt) iv (credentialAad b) (utf8 value)) as Ho.
  destruct (gcmSeal _ _ _ _) as [ct tag]. cbn [fst snd] in *. injection He as <-.
  assert (parseEnvelope (envelopeText (activeKeyId keyring) salt iv tag ct) = Ok {| peKeyId := activeKeyId keyring;
    peSalt := salt; peIv := iv; peAuthTag := tag; peCiphertext := ct |}) as Hp.
  { apply parseEnvelope_text; try done. by rewrite Hb, Bt, Bc. }
  unfold decryptCredentialValue, credentialEnvelopeKeyId. rewrite Hp. cbn [mbind result_bind peKeyId peSalt peIv peCiphertext peAuthTag].
  by rewrite Hk, Ho, fromUtf8_utf8.
Qed.

(** A credential belongs to its row. An envelope sealed for one space, bot and name
    that decrypts for another exhibits two different sealings of one key and IV with the
    same ciphertext and tag; without such a collision the row is the one it was sealed
    for and the value the one that was sealed. *)
Theorem credential_bound keyring keyring' b b' value value' salt iv envelope :
  isKeyId (activeKeyId keyring) = true → isText value = true →
  forallb isByte salt && forallb isByte iv = true → length salt = saltBytes → length iv = ivBytes →
  isText (cdSpace b) && isText (cdName b) && isText (default [] (cdBot b)) = true →
  isText (cdSpace b') && isText (cdName b') && isText (default [] (cdBot b')) = true →
  encryptCredentialValue keyring b value salt iv = Ok envelope →
  keyOf (activeKeyId keyring) (keys keyring') = keyOf (activeKeyId keyring) (keys keyring) →
  decryptCredentialValue keyring' b' envelope = Ok value' →
  b' = b ∧ value' = encodeText value ∨
  ∃ k plaintext, credentialAad b' ≠ credentialAad b ∧
    gcmSeal k iv (credentialAad b') plaintext = gcmSeal k iv (credentialAad b) (utf8 value).
Proof.
  intros Hi Hv Hb Ls Li Tb Tb' He Hk Hd. unfold encryptCredentialValue in He.
  destruct (keyOf _ (keys keyring)) as [master|] eqn:Em; [|done].
  destruct (seal_length (deriveKey master salt) iv (credentialAad b) (utf8 value)) as [_ Lt].
  destruct (seal_bytes (deriveKey master salt) iv (credentialAad b) (utf8 value)) as [Bc Bt]; [by apply utf8_bytes|].
  pose proof (open_own (deriveKey master salt) iv (credentialAad b) (utf8 value)) as Ho.
  destruct (gcmSeal _ _ _ _) as [ct tag] eqn:Es. cbn [fst snd] in *. injection He as <-.
  unfold decryptCredentialValue in Hd. rewrite parseEnvelope_text in Hd by (try done; by rewrite Hb, Bt, Bc).
  cbn [mbind result_bind peKeyId peSalt peIv peCiphertext peAuthTag] in Hd. rewrite Hk in Hd.
  destruct (gcmOpen _ _ (credentialAad b') _ _) as [pt|] eqn:Eo; [|done]. injection Hd as <-.
  destruct (decide (credentialAad b' = credentialAad b)) as [Ea|Ea].
  - left. rewrite Ea, Ho in Eo. injection Eo as <-. split; [by apply credentialAad_inj|by apply fromUtf8_utf8].
  - right. exists (deriveKey master salt), pt. split; [done|]. rewrite Es. by apply open_full.
Qed.
End laws.

(** ** Witnesses *)

Definition k1 : CredentialKeyringEntry := {| entryId := u "k1"; entryKey := base64 (repeat 1%N 32) |}.
Definition k2 : CredentialKeyringEntry := {| entryId := u "k2"; entryKey := base64url (repeat 251%N 32) |}.
Definition firstRing : CredentialKeyring := {| activeKeyId := u "k1"; keys := [(u "k1", repeat 1%N 32)] |}.
Definition rotatedRing : CredentialKeyring :=
  {| activeKeyId := u "k2"; keys := [(u "k2", repeat 251%N 32); (u "k1", repeat 1%N 32)] |}.
Definition spaceToken : CredentialBinding := {| cdSpace := u "space-1"; cdBot := None; cdName := u "token" |}.
Definition botToken : CredentialBinding := {| cdSpace := u "space-1"; cdBot := Some (u "bot-1"); cdName := u "token" |}.
Definition storedToken : jstr :=
  match encryptCredentialValue firstRing spaceToken (u "s3cret") (repeat 9%N 16) (repeat 7%N 12) with Ok e => e | Err _ => [] end.

Lemma credential_roundtrip_witness :
  decryptCredentialValue rotatedRing spaceToken storedToken = Ok (u "s3cret") ∧
  credentialEnvelopeKeyId storedToken = Ok (u "k1").
Proof.
  apply (credential_roundtrip firstRing rotatedRing spaceToken (u "s3cret") (repeat 9%N 16) (repeat 7%N 12) storedToken);
    vm_compute; reflexivity.
Defined.

Lemma credential_bound_witness :
  spaceToken = spaceToken ∧ u "s3cret" = encodeText (u "s3cret") ∨
  ∃ k plaintext, credentialAad spaceToken ≠ credentialAad spaceToken ∧
    gcmSeal k (repeat 7%N 12) (credentialAad spaceToken) plaintext =
    gcmSeal k (repeat 7%N 12) (credentialAad spaceToken) (utf8 (u "s3cret")).
Proof.
  apply (credential_bound firstRing rotatedRing spaceToken spaceToken (u "s3cret") (u "s3cret") (repeat 9%N 16) (repeat 7%N 12)
    storedToken); vm_compute; reflexivity.
Defined.

(** Another row's copy does not open under the checksum either. *)
Example copied_envelope_corrupt : decryptCredentialValue rotatedRing botToken storedToken = Err Corrupt.
Proof. vm_compute. reflexivity. Qed.

(** The two alphabets, a rotation, and what is refused. *)
Example keyring_made :
  createCredentialKeyring (u "k2") [k2; k1] = Ok rotatedRing ∧
  createCredentialKeyring (u "k3") [k2; k1] = Err (ActiveKeyMissing (u "k3")) ∧
  createCredentialKeyring (u "k1") [k1; k1] = Err (DuplicateKeyId (u "k1")).
Proof. vm_compute. auto. Qed.

(** The mask of a value shows its last four characters, and those are a whole half of
    the shortest value it shows any of. *)
Example mask_samples :
  maskCredentialValue (u "12345678") = replicate 4 8226%N ++ u "5678" ∧ maskCredentialValue (u "1234567") = replicate 4 8226%N.
Proof. vm_compute. auto. Qed.
