(* ===== verification/LimitsConfig.v ===== *)
(** The limits the API enforces, the first half of apps/api/src/limits.ts: the
    register of routes and the family each draws its budget from, the limits with
    their defaults and overrides, their reading from the environment, and the body
    caps the installer mounts.  Which paths a mounted pattern covers is the HTTP
    framework's: the class [PatternPlatform] states what the caps rely on. *)

From stdpp Require Import pretty.
From S2P Require Import Prelude JsText JsValue JsonText Addresses Files.

(** ** The register of routes *)

Inductive RouteFamily := probe | rpc | webhook | upload | fallback.

#[export] Instance RouteFamily_eq_dec : EqDecision RouteFamily.
Proof. solve_decision. Defined.

Record RouteRule := { method : jstr; path : jstr; family : RouteFamily }.

Definition healthPath : jstr := u "/healthz".
Definition healthStreamPath : jstr := u "/healthz/stream".
Definition livenessPath : jstr := u "/livez".
Definition readinessPath : jstr := u "/readyz".
Definition webhookRulePath : jstr := u "/webhooks/*".
Definition mcpCallbackPath : jstr := u "/oauth/mcp/callback".
Definition attachmentUploadRoutePath : jstr := u "/threads/:threadId/attachments".
Definition fileDownloadRoutePath : jstr := u "/files/:fileId".

Definition routeRules (rpcPath : jstr) : list RouteRule :=
  [{| method := u "GET"; path := healthPath; family := probe |};
   {| method := u "GET"; path := healthStreamPath; family := probe |};
   {| method := u "GET"; path := livenessPath; family := probe |};
   {| method := u "GET"; path := readinessPath; family := probe |};
   {| method := u "ALL"; path := rpcPath ++ u "/*"; family := rpc |};
   {| method := u "POST"; path := webhookRulePath; family := webhook |};
   {| method := u "GET"; path := mcpCallbackPath; family := webhook |};
   {| method := u "POST"; path := attachmentUploadRoutePath; family := upload |};
   {| method := u "GET"; path := fileDownloadRoutePath; family := rpc |}].

(** [pattern.every((segment, index) => ...)] of the two lists of segments. *)
Fixpoint segmentsMatch (pattern concrete : list jstr) : bool :=
  match pattern with
  | [] => true
  | segment :: pattern' =>
      (if startsWith (u ":") segment then negb (bool_decide (default [] (head concrete) = []))
       else bool_decide (head concrete = Some segment))
      && segmentsMatch pattern' (tail concrete)
  end.

(** The path half of [matches]. *)
Definition pathMatches (pattern concrete : jstr) : bool :=
  if endsWith (u "/*") pattern then
    let prefix := removelast pattern in
    bool_decide (concrete = removelast prefix) || startsWith prefix concrete
  else if negb (length (split 47 pattern) =? length (split 47 concrete))%nat then false
  else segmentsMatch (split 47 pattern) (split 47 concrete).

Definition matches (rule : RouteRule) (method' path' : jstr) : bool :=
  if negb (bool_decide (method rule = u "ALL")) && negb (bool_decide (method rule = method')) then false
  else pathMatches (path rule) path'.

Definition routeRuleFor (rules : list RouteRule) (method' path' : jstr) : option RouteRule :=
  List.find (λ rule, matches rule method' path') rules.

(** [routeRuleFor(...)?.family ?? "fallback"]. *)
Definition familyFor (rules : list RouteRule) (method' path' : jstr) : RouteFamily :=
  default fallback (family <$> routeRuleFor rules method' path').

(** ** The limits *)

Record PrincipalBudget := { requestsPerMinute : Z; maxConcurrentStreams : Z; maxBodyBytes : Z }.

Record IngressBudget := { ingressPerMinute : Z; ingressBodyBytes : Z }.

Record LimitsConfig := {
  authenticated : PrincipalBudget;
  anonymous : PrincipalBudget;
  webhooks : IngressBudget;
  uploads : IngressBudget;
  probes : Z;
}.

Definition defaultLimits : LimitsConfig := {|
  authenticated := {| requestsPerMinute := 300; maxConcurrentStreams := 4; maxBodyBytes := 1048576 |};
  anonymous := {| requestsPerMinute := 60; maxConcurrentStreams := 1; maxBodyBytes := 65536 |};
  webhooks := {| ingressPerMinute := 120; ingressBodyBytes := 262144 |};
  uploads := {| ingressPerMinute := 60; ingressBodyBytes := MAX_ATTACHMENT_BYTES |};
  probes := 600;
|}.

Record PrincipalOverrides := { oRequests : option Z; oStreams : option Z; oBody : option Z }.
Record IngressOverrides := { oIngress : option Z; oIngressBody : option Z }.

Record LimitsOverrides := {
  oAuthenticated : PrincipalOverrides;
  oAnonymous : PrincipalOverrides;
  oWebhook : IngressOverrides;
  oUpload : IngressOverrides;
  oProbe : option Z;
}.

Definition overridePrincipal (base : PrincipalBudget) (o : PrincipalOverrides) : PrincipalBudget :=
  {| requestsPerMinute := default (requestsPerMinute base) (oRequests o);
     maxConcurrentStreams := default (maxConcurrentStreams base) (oStreams o);
     maxBodyBytes := default (maxBodyBytes base) (oBody o) |}.

Definition overrideIngress (base : IngressBudget) (o : IngressOverrides) : IngressBudget :=
  {| ingressPerMinute := default (ingressPerMinute base) (oIngress o);
     ingressBodyBytes := default (ingressBodyBytes base) (oIngressBody o) |}.

Definition resolveLimits (overrides : LimitsOverrides) : LimitsConfig := {|
  authenticated := overridePrincipal (authenticated defaultLimits) (oAuthenticated overrides);
  anonymous := overridePrincipal (anonymous defaultLimits) (oAnonymous overrides);
  webhooks := overrideIngress (webhooks defaultLimits) (oWebhook overrides);
  uploads := overrideIngress (uploads defaultLimits) (oUpload overrides);
  probes := default (probes defaultLimits) (oProbe overrides);
|}.

(** ** The environment *)

(** [Number(text)] on trimmed, non-empty text: a numeral with a radix prefix has no
    sign, a decimal one may have a sign, a point and an exponent. *)
Definition radixDigits (isDigitOf : N → bool) (base : Z) (ds : jstr) : jsnum :=
  if negb (strlen ds =? 0)%Z && forallb isDigitOf ds then
    let n := foldl (λ n c, (n * base + hexDigit c)%Z) 0%Z ds in
    if (n =? 0)%Z then NInt 0 else nearestDouble n 1
  else NNaN.

Definition numberSign (s : jstr) : bool * jstr :=
  match s with 43%N :: r => (false, r) | 45%N :: r => (true, r) | _ => (false, s) end.

(** The digits after a point, none needed. *)
Definition fractionDigits (s : jstr) : jstr * jstr :=
  match s with 46%N :: r => spanDigits r | _ => ([], s) end.

Definition decimalLiteral (s : jstr) : jsnum :=
  let '(negative, r) := numberSign s in
  if bool_decide (r = u "Infinity") then NInfinity negative
  else
    let '(whole, r1) := spanDigits r in
    let '(fraction, r2) := fractionDigits r1 in
    match whole ++ fraction, parseExponent r2 with
    | _ :: _, Some (e, []) => decimalNumber negative (numberOf (whole ++ fraction)) (e - strlen fraction)
    | _, _ => NNaN
    end.

Definition numberOfText (s : jstr) : jsnum :=
  match s with
  | 48%N :: c :: ds =>
      if ((c =? 120) || (c =? 88))%N then radixDigits isHexDigit 16 ds
      else if ((c =? 111) || (c =? 79))%N then radixDigits (λ d, (48 <=? d) && (d <=? 55))%N 8 ds
      else if ((c =? 98) || (c =? 66))%N then radixDigits (λ d, (48 <=? d) && (d <=? 49))%N 2 ds
      else decimalLiteral s
  | _ => decimalLiteral s
  end.

(** The startup failure names the variable and the text it holds. *)
Record LimitError := { leName : jstr; leRaw : jstr }.

Definition limitFromEnvironment (env : jstr → option jstr) (name : jstr) (fallback : Z) : result LimitError Z :=
  match trim <$> env name with
  | None | Some [] => Ok fallback
  | Some raw =>
      match safeInteger (numberOfText raw) with
      | Some value => if (value <? 1)%Z then Err {| leName := name; leRaw := raw |} else Ok value
      | None => Err {| leName := name; leRaw := raw |}
      end
  end.

Definition limitsFromEnvironment (env : jstr → option jstr) : result LimitError LimitsConfig :=
  let limit := limitFromEnvironment env in
  a1 ← limit (u "PORKBOT_LIMIT_AUTHENTICATED_PER_MINUTE") (requestsPerMinute (authenticated defaultLimits));
  a2 ← limit (u "PORKBOT_LIMIT_MAX_STREAMS_PER_ACTOR") (maxConcurrentStreams (authenticated defaultLimits));
  a3 ← limit (u "PORKBOT_LIMIT_MAX_BODY_BYTES") (maxBodyBytes (authenticated defaultLimits));
  n1 ← limit (u "PORKBOT_LIMIT_ANONYMOUS_PER_MINUTE") (requestsPerMinute (anonymous defaultLimits));
  n3 ← limit (u "PORKBOT_LIMIT_MAX_BODY_BYTES") (maxBodyBytes (anonymous defaultLimits));
  w1 ← limit (u "PORKBOT_LIMIT_WEBHOOK_PER_MINUTE") (ingressPerMinute (webhooks defaultLimits));
  w2 ← limit (u "PORKBOT_LIMIT_MAX_WEBHOOK_BODY_BYTES") (ingressBodyBytes (webhooks defaultLimits));
  p1 ← limit (u "PORKBOT_LIMIT_UPLOAD_PER_MINUTE") (ingressPerMinute (uploads defaultLimits));
  p2 ← limit (u "PORKBOT_LIMIT_MAX_UPLOAD_BYTES") (ingressBodyBytes (uploads defaultLimits));
  h ← limit (u "PORKBOT_LIMIT_PROBE_PER_MINUTE") (probes defaultLimits);
  Ok {| authenticated := {| requestsPerMinute := a1; maxConcurrentStreams := a2; maxBodyBytes := a3 |};
        anonymous := {| requestsPerMinute := n1;
                        maxConcurrentStreams := maxConcurrentStreams (anonymous defaultLimits);
                        maxBodyBytes := n3 |};
        webhooks := {| ingressPerMinute := w1; ingressBodyBytes := w2 |};
        uploads := {| ingressPerMinute := p1; ingressBodyBytes := p2 |};
        probes := h |}.

(** ** Body caps *)

Definition bodyCapBytes (config : LimitsConfig) (family : RouteFamily) : Z :=
  match family with
  | rpc => Z.max (maxBodyBytes (authenticated config)) (maxBodyBytes (anonymous config))
  | webhook => ingressBodyBytes (webhooks config)
  | upload => ingressBodyBytes (uploads config)
  | probe | fallback => maxBodyBytes (anonymous config)
  end.

(** [Math.max(...caps.values())]. *)
Definition largestCap (config : LimitsConfig) : Z :=
  foldr Z.max (bodyCapBytes config fallback) (bodyCapBytes config <$> [probe; rpc; webhook; upload]).

(** The caps [installLimits] mounts: the pattern of each, and the cap. *)
Definition installedCaps (config : LimitsConfig) (rules : list RouteRule) : list (jstr * Z) :=
  (rules ≫= λ rule,
     let cap := bodyCapBytes config (family rule) in
     if (cap <? largestCap config)%Z then [(path rule, cap)] else [])
  ++ [(u "*", largestCap config)].

(** Which concrete paths a pattern handed to [app.use] covers. *)
Class PatternPlatform := covers : jstr → jstr → bool.

(** A mounted pattern covers the paths its rule matches, and [*] covers all. *)
Class PatternLaws (P : PatternPlatform) (rules : list RouteRule) := {
  covers_rule : ∀ rule method' path', rule ∈ rules → matches rule method' path' = true → covers (path rule) path' = true;
  covers_all : ∀ path', covers (u "*") path' = true;
}.

(** A body a request carries passes every cap mounted over its path. *)
Definition bodyAdmitted `{PatternPlatform} (config : LimitsConfig) (rules : list RouteRule)
    (path' : jstr) (bytes : Z) : bool :=
  forallb (λ mount, negb (covers mount.1 path') || (bytes <=? mount.2)%Z) (installedCaps config rules).

(** ** Matching a rule *)

Definition isSegment (s : jstr) : Prop := s ≠ [] ∧ Forall (λ d, (47 =? d)%N = false) s.

Definition under (prefix path' : jstr) : Prop := path' = prefix ∨ ∃ rest, path' = prefix ++ u "/" ++ rest.

Definition segmentFits (segment actual : jstr) : Prop :=
  if startsWith (u ":") segment then actual ≠ [] else actual = segment.

Lemma segmentsMatch_Forall2 pattern concrete :
  length pattern = length concrete →
  segmentsMatch pattern concrete = true ↔ Forall2 segmentFits pattern concrete.
Proof.
  revert concrete. induction pattern as [|s pattern IH]; intros [|c concrete] Hl; try done.
  cbn [segmentsMatch head tail default]. injection Hl as Hl.
  rewrite Forall2_cons, andb_true_iff. unfold segmentFits at 1. rewrite IH by done.
  destruct (startsWith (u ":") s).
  - rewrite negb_true_iff, bool_decide_eq_false. done.
  - rewrite bool_decide_eq_true. naive_solver.
Qed.

Lemma pathMatches_segments pattern path' :
  endsWith (u "/*") pattern = false →
  pathMatches pattern path' = true ↔ Forall2 segmentFits (split 47 pattern) (split 47 path').
Proof.
  intros Hp. unfold pathMatches. rewrite Hp.
  destruct (Nat.eqb_spec (length (split 47 pattern)) (length (split 47 path'))) as [Hl|Hl]; simpl.
  - by apply segmentsMatch_Forall2.
  - split; [done|]. by intros ?%Forall2_length.
Qed.

Lemma pathMatches_prefix prefix path' :
  pathMatches (prefix ++ u "/*") path' = true ↔ under prefix path'.
Proof.
  unfold pathMatches. rewrite (proj2 (endsWith_spec (u "/*") (prefix ++ u "/*"))) by (by exists prefix).
  replace (removelast (prefix ++ u "/*")) with (prefix ++ u "/")
    by (change (u "/*") with (u "/" ++ [42%N]); rewrite app_assoc; symmetry; apply removelast_last).
  change (u "/") with [47%N]. rewrite removelast_last. unfold under.
  rewrite orb_true_iff, bool_decide_eq_true, startsWith_spec.
  setoid_rewrite <- app_assoc. done.
Qed.

Lemma literal_segments ws vs :
  Forall (λ w, startsWith (u ":") w = false) ws → Forall2 segmentFits ws vs ↔ vs = ws.
Proof.
  intros H. split.
  - intros Hf. revert H. induction Hf as [|w v ws vs Hw _ IH]; [done|].
    intros [Hc Hr]%Forall_cons. unfold segmentFits in Hw. rewrite Hc in Hw. subst v. f_equal. by apply IH.
  - intros ->. induction H as [|w ws Hw _ IH]; constructor; [|done]. unfold segmentFits. by rewrite Hw.
Qed.

(** A pattern with no parameter matches the one path it spells. *)
Lemma pathMatches_literal pattern path' :
  endsWith (u "/*") pattern = false → Forall (λ w, startsWith (u ":") w = false) (split 47 pattern) →
  pathMatches pattern path' = true ↔ path' = pattern.
Proof.
  intros Hp Hw. rewrite pathMatches_segments, literal_segments by done. split; [|by intros ->].
  intros H. rewrite <- (join_split 47 path'), H. apply join_split.
Qed.

(** A pattern whose one parameter stands between literal segments. *)
Lemma pathMatches_parameter pre post parameter path' :
  endsWith (u "/*") (join (u "/") (pre ++ parameter :: post)) = false →
  startsWith (u ":") parameter = true → Forall (λ w, startsWith (u ":") w = false) (pre ++ post) →
  Forall (Forall (λ d, (47 =? d)%N = false)) (pre ++ parameter :: post) →
  pathMatches (join (u "/") (pre ++ parameter :: post)) path' = true ↔
  ∃ id, isSegment id ∧ path' = join (u "/") (pre ++ id :: post).
Proof.
  intros He Hparam [Hpre Hpost]%Forall_app Hsep. rewrite pathMatches_segments by done.
  change (u "/") with [47%N]. rewrite split_join by (done || by destruct pre).
  apply Forall_app in Hsep as [Hs1 [_ Hs2]%Forall_cons]. split.
  - intros (vs1 & vs2 & H1 & (id & vs3 & Hid & H3 & ->)%Forall2_cons_inv_l & Hvs)%Forall2_app_inv_l.
    apply literal_segments in H1 as ->; [|done]. apply literal_segments in H3 as ->; [|done].
    unfold segmentFits in Hid. rewrite Hparam in Hid.
    pose proof (split_words 47 path') as Hw. rewrite Hvs in Hw. exists id.
    apply Forall_app in Hw as [_ [Hw _]%Forall_cons]. split; [done|].
    by rewrite <- Hvs, join_split.
  - intros (id & [Hne Hid] & ->). rewrite split_join.
    + apply Forall2_app; [by apply literal_segments|].
      constructor; [unfold segmentFits; by rewrite Hparam|by apply literal_segments].
    + by destruct pre.
    + apply Forall_app; split; [done|]. by constructor.
Qed.

Lemma matches_rule rule method' path' :
  matches rule method' path' = true ↔
  (method rule = u "ALL" ∨ method' = method rule) ∧ pathMatches (path rule) path' = true.
Proof.
  unfold matches. case_bool_decide as Ha; case_bool_decide as Hm; simpl; naive_solver.
Qed.

(** ** The families of the API's routes *)

Definition apiRules : list RouteRule := routeRules (u "/rpc").

Definition isProbePath (path' : jstr) : Prop := path' ∈ [healthPath; healthStreamPath; livenessPath; readinessPath].
Definition isUploadPath (path' : jstr) : Prop := ∃ id, isSegment id ∧ path' = u "/threads/" ++ id ++ u "/attachments".
Definition isDownloadPath (path' : jstr) : Prop := ∃ id, isSegment id ∧ path' = u "/files/" ++ id.

Lemma rule_upload path' : pathMatches attachmentUploadRoutePath path' = true ↔ isUploadPath path'.
Proof.
  rewrite (pathMatches_parameter [[]; u "threads"] [u "attachments"] (u ":threadId") path');
    [|done|done|by repeat constructor|by repeat constructor].
  split; intros (id & Hid & ->); by exists id.
Qed.

Lemma rule_webhook path' : pathMatches webhookRulePath path' = true ↔ under (u "/webhooks") path'.
Proof. apply (pathMatches_prefix (u "/webhooks")). Qed.

Lemma rule_download path' : pathMatches fileDownloadRoutePath path' = true ↔ isDownloadPath path'.
Proof.
  rewrite (pathMatches_parameter [[]; u "files"] [] (u ":fileId") path');
    [|done|done|by repeat constructor|by repeat constructor].
  split; intros (id & Hid & ->); by exists id.
Qed.

(** [find] over a list of rules takes the family of the first that matches. *)
Lemma familyFor_cons rule rules method' path' :
  familyFor (rule :: rules) method' path' =
  if matches rule method' path' then family rule else familyFor rules method' path'.
Proof. unfold familyFor, routeRuleFor. simpl. by destruct (matches rule method' path'). Qed.

Lemma familyFor_elim (P : RouteFamily → Prop) rule rules method' path' :
  (matches rule method' path' = true → P (family rule)) →
  (matches rule method' path' ≠ true → P (familyFor rules method' path')) →
  P (familyFor (rule :: rules) method' path').
Proof. intros H1 H2. rewrite familyFor_cons. destruct (matches rule method' path'); auto. Qed.

(** What the register says, as one predicate per family. *)
Definition ownedBy (family : RouteFamily) (method' path' : jstr) : Prop :=
  match family with
  | probe => method' = u "GET" ∧ isProbePath path'
  | rpc => under (u "/rpc") path' ∨ (method' = u "GET" ∧ isDownloadPath path')
  | webhook => (method' = u "POST" ∧ under (u "/webhooks") path') ∨ (method' = u "GET" ∧ path' = mcpCallbackPath)
  | upload => method' = u "POST" ∧ isUploadPath path'
  | fallback => False
  end.

Ltac ruleFacts :=
  rewrite matches_rule; cbn [method path family];
  first [rewrite pathMatches_prefix | rewrite rule_upload | rewrite rule_download | rewrite rule_webhook
        |rewrite pathMatches_literal by (done || (vm_compute; repeat constructor))].

Definition assigned (method' path' : jstr) (f : RouteFamily) : Prop :=
  ownedBy f method' path' ∨ (f = fallback ∧ ∀ g, ¬ ownedBy g method' path').

Lemma familyFor_assigned method' path' : assigned method' path' (familyFor apiRules method' path').
Proof.
  unfold apiRules, routeRules.
  do 9 (apply familyFor_elim;
        [ruleFacts; unfold assigned, ownedBy, isProbePath; set_solver|ruleFacts; intros ?]).
  right. split; [done|]. intros g Ho. destruct g; unfold ownedBy, isProbePath in Ho; set_solver.
Qed.

(** The first three characters of a path name its family. *)
Definition starts (family : RouteFamily) : list jstr :=
  match family with
  | probe => [u "/he"; u "/li"; u "/re"]
  | rpc => [u "/rp"; u "/fi"]
  | webhook => [u "/we"; u "/oa"]
  | upload => [u "/th"]
  | fallback => []
  end.

Lemma ownedBy_start family method' path' : ownedBy family method' path' → take 3 path' ∈ starts family.
Proof.
  unfold ownedBy, isProbePath, under. intros H.
  destruct family; repeat match goal with
    | H : _ ∨ _ |- _ => destruct H | H : _ ∧ _ |- _ => destruct H | H : isUploadPath _ |- _ => destruct H
    | H : isDownloadPath _ |- _ => destruct H | H : ∃ _, _ |- _ => destruct H
    | H : _ ∈ _ :: _ |- _ => apply elem_of_cons in H end; subst; try set_solver.
Qed.

Lemma ownedBy_unique f g method' path' : ownedBy f method' path' → ownedBy g method' path' → f = g.
Proof.
  intros Hf%ownedBy_start Hg%ownedBy_start.
  apply list_elem_of_In in Hf, Hg. generalize dependent (take 3 path'). intros start Hf Hg.
  destruct f, g; try done; exfalso; cbn [starts In] in Hf, Hg; intuition (subst; discriminate).
Qed.

(** The register gives every request the one family that owns its method and path,
    and the anonymous fallback when none does: a health path read with GET, the
    whole RPC subtree with every method, a GET of one file, a POST below the
    webhook prefix, the OAuth callback, and a POST of a thread's attachments. *)
Theorem family_exact method' path' :
  (∀ family, family ≠ fallback → familyFor apiRules method' path' = family ↔ ownedBy family method' path') ∧
  (familyFor apiRules method' path' = fallback ↔ ∀ family, ¬ ownedBy family method' path').
Proof.
  destruct (familyFor_assigned method' path') as [Ho|[Hf Hn]].
  - split; [intros family Hne; split; [by intros <-|intros H; by eapply ownedBy_unique]|].
    split; [intros Hf; by rewrite Hf in Ho|by intros Hn; destruct (Hn _ Ho)].
  - rewrite Hf. split; [|done]. intros family Hne. split; [by intros <-|by intros ?%Hn].
Qed.

Lemma familyFor_rpc method' path' :
  familyFor apiRules method' path' = rpc ↔ under (u "/rpc") path' ∨ (method' = u "GET" ∧ isDownloadPath path').
Proof.
  destruct (familyFor_assigned method' path') as [Ho|[Hf Hn]].
  - split; [intros Hr; by rewrite Hr in Ho|]. intros H. by apply (ownedBy_unique _ rpc _ _ Ho).
  - split; [intros Hr; congruence|]. intros H. by destruct (Hn rpc).
Qed.

Lemma under_not_download path' : under (u "/rpc") path' → ¬ isDownloadPath path'.
Proof.
  intros [->|[rest ->]] (id & _ & H); discriminate.
Qed.

(** ** Limits and caps *)

Definition isLimit (z : Z) : Prop := (1 ≤ z)%Z ∧ isSafeZ z = true.

Definition usable (config : LimitsConfig) : Prop :=
  isLimit (requestsPerMinute (authenticated config)) ∧ isLimit (maxConcurrentStreams (authenticated config)) ∧
  isLimit (maxBodyBytes (authenticated config)) ∧ isLimit (requestsPerMinute (anonymous config)) ∧
  isLimit (maxConcurrentStreams (anonymous config)) ∧ isLimit (maxBodyBytes (anonymous config)) ∧
  isLimit (ingressPerMinute (webhooks config)) ∧ isLimit (ingressBodyBytes (webhooks config)) ∧
  isLimit (ingressPerMinute (uploads config)) ∧ isLimit (ingressBodyBytes (uploads config)) ∧
  isLimit (probes config).

Definition limitNames : list jstr :=
  [u "PORKBOT_LIMIT_AUTHENTICATED_PER_MINUTE"; u "PORKBOT_LIMIT_MAX_STREAMS_PER_ACTOR";
   u "PORKBOT_LIMIT_MAX_BODY_BYTES"; u "PORKBOT_LIMIT_ANONYMOUS_PER_MINUTE"; u "PORKBOT_LIMIT_WEBHOOK_PER_MINUTE";
   u "PORKBOT_LIMIT_MAX_WEBHOOK_BODY_BYTES"; u "PORKBOT_LIMIT_UPLOAD_PER_MINUTE";
   u "PORKBOT_LIMIT_MAX_UPLOAD_BYTES"; u "PORKBOT_LIMIT_PROBE_PER_MINUTE"].

(** What a variable sets: nothing when it is unset or blank, else a positive safe
    integer, or no limit at all. *)
Definition setting (env : jstr → option jstr) (name : jstr) : option (option Z) :=
  raw ← trim <$> env name;
  if (strlen raw =? 0)%Z then None
  else Some (z ← safeInteger (numberOfText raw); if (1 <=? z)%Z then Some z else None).

Lemma safeInteger_safe n z : safeInteger n = Some z → isSafeZ z = true.
Proof. unfold safeInteger. intros H. repeat dmh; by simplify_eq. Qed.

Lemma limit_setting env name d :
  limitFromEnvironment env name d =
  match setting env name with
  | None => Ok d
  | Some (Some z) => Ok z
  | Some None => Err {| leName := name; leRaw := trim (default [] (env name)) |}
  end.
Proof.
  unfold limitFromEnvironment, setting. destruct (env name) as [raw|]; [|done].
  cbn [fmap option_fmap option_map mbind option_bind default].
  destruct (trim raw) as [|c r] eqn:E; [done|].
  rewrite (proj2 (Z.eqb_neq (strlen (c :: r)) 0)) by (unfold strlen; simpl; lia).
  destruct (safeInteger (numberOfText (c :: r))) as [z|] eqn:Hs; rewrite ?Hs; cbn [mbind option_bind];
    [|by rewrite <- E].
  destruct (Z.ltb_spec z 1), (Z.leb_spec 1 z); (lia || by rewrite <- ?E).
Qed.

Lemma setting_limit env name z : setting env name = Some (Some z) → isLimit z.
Proof.
  unfold setting. destruct (trim <$> env name) as [raw|]; [|done]. cbn.
  destruct (strlen raw =? 0)%Z; [done|]. intros [= H].
  destruct (safeInteger (numberOfText raw)) as [y|] eqn:Hs; [|done]. cbn in H.
  destruct (Z.leb_spec 1 y); simplify_eq. split; [done|]. by eapply safeInteger_safe.
Qed.

(** The digits of a positive number, set with any space around them, are that number. *)
Lemma numberOfText_decimal n : (1 ≤ n)%Z → isSafeZ n = true → numberOfText (decimal n) = NInt n.
Proof.
  intros Hn Hs. unfold isSafeZ in Hs.
  rewrite decimal_Z. replace (n <? 0)%Z with false by lia. cbn [app].
  destruct (decimal_N (Z.abs_N n)) as (d & ds & E & Hd & Hz & Hds & Hv). rewrite E in *.
  assert (d ≠ 48%N) as Hd0 by (intros ->; rewrite Hz in Hv by done; unfold numberOf in Hv; simpl in Hv; lia).
  assert (numberOfText (d :: ds) = decimalLiteral (d :: ds)) as ->.
  { unfold isDigit in Hd. destruct d as [|p]; [done|]. do 6 (destruct p as [p|p|]; try done). }
  assert (numberSign (d :: ds) = (false, d :: ds)) as Hsg.
  { unfold isDigit in Hd. destruct d as [|p]; [done|]. do 6 (destruct p as [p|p|]; try done). }
  unfold decimalLiteral. rewrite Hsg, bool_decide_false by (intros [= ->]; done).
  pose proof (spanDigits_app (d :: ds) [] ltac:(cbn; by rewrite Hd, Hds) I) as Hsp.
  rewrite app_nil_r in Hsp. rewrite Hsp. cbn [fractionDigits]. rewrite app_nil_r. cbn [parseExponent].
  change (0 - strlen [])%Z with 0%Z. rewrite Hv, decimalNumber_integer by lia. f_equal. lia.
Qed.

Lemma decimal_no_space n : (0 ≤ n)%Z → Forall (λ c, isSpace c = false) (decimal n).
Proof.
  intros Hn. rewrite decimal_Z. replace (n <? 0)%Z with false by lia. apply digits_no_space.
  destruct (decimal_N (Z.abs_N n)) as (d & ds & -> & Hd & _ & Hds & _). cbn. by rewrite Hd, Hds.
Qed.

Lemma setting_decimal env name n :
  (1 ≤ n)%Z → isSafeZ n = true → env name = Some (decimal n) → setting env name = Some (Some n).
Proof.
  intros Hn Hs He. unfold setting. rewrite He. cbn [fmap option_fmap option_map mbind option_bind].
  rewrite trim_no_space by (apply decimal_no_space; lia).
  destruct (strlen (decimal n) =? 0)%Z eqn:E.
  { exfalso. rewrite decimal_Z in E. replace (n <? 0)%Z with false in E by lia.
    destruct (decimal_N (Z.abs_N n)) as (d & ds & Hd & _). rewrite Hd in E. unfold strlen in E. simpl in E. lia. }
  rewrite numberOfText_decimal by done. unfold safeInteger. rewrite Hs. cbn.
  by rewrite (proj2 (Z.leb_le 1 n)).
Qed.

(** The limits the settings describe. *)
Definition set_or (env : jstr → option jstr) (name : jstr) (d : Z) : Z := default d (mjoin (setting env name)).

Definition configured (env : jstr → option jstr) : LimitsConfig := {|
  authenticated := {|
    requestsPerMinute := set_or env (u "PORKBOT_LIMIT_AUTHENTICATED_PER_MINUTE") 300;
    maxConcurrentStreams := set_or env (u "PORKBOT_LIMIT_MAX_STREAMS_PER_ACTOR") 4;
    maxBodyBytes := set_or env (u "PORKBOT_LIMIT_MAX_BODY_BYTES") 1048576 |};
  anonymous := {|
    requestsPerMinute := set_or env (u "PORKBOT_LIMIT_ANONYMOUS_PER_MINUTE") 60;
    maxConcurrentStreams := 1;
    maxBodyBytes := set_or env (u "PORKBOT_LIMIT_MAX_BODY_BYTES") 65536 |};
  webhooks := {| ingressPerMinute := set_or env (u "PORKBOT_LIMIT_WEBHOOK_PER_MINUTE") 120;
                 ingressBodyBytes := set_or env (u "PORKBOT_LIMIT_MAX_WEBHOOK_BODY_BYTES") 262144 |};
  uploads := {| ingressPerMinute := set_or env (u "PORKBOT_LIMIT_UPLOAD_PER_MINUTE") 60;
                ingressBodyBytes := set_or env (u "PORKBOT_LIMIT_MAX_UPLOAD_BYTES") (8 * 1024 * 1024) |};
  probes := set_or env (u "PORKBOT_LIMIT_PROBE_PER_MINUTE") 600;
|}.

Lemma limit_ok env name d z :
  limitFromEnvironment env name d = Ok z → setting env name ≠ Some None ∧ z = set_or env name d.
Proof. rewrite limit_setting. unfold set_or. by destruct (setting env name) as [[y|]|]; intros [= <-]. Qed.

Lemma limit_err env name d e :
  limitFromEnvironment env name d = Err e → leName e = name ∧ setting env name = Some None.
Proof. rewrite limit_setting. by destruct (setting env name) as [[y|]|]; intros [= <-]. Qed.

Lemma set_or_limit env name d : isLimit d → isLimit (set_or env name d).
Proof.
  unfold set_or. destruct (setting env name) as [[z|]|] eqn:E; [|done|done]. intros _. by eapply setting_limit.
Qed.

(** A number the environment sets is read as written, and startup fails unless every
    variable it sets holds a positive safe integer: then each limit is the number its
    variable holds or, unset or blank, its default, and all are positive. *)
Theorem environment_limits env :
  (∀ name n, (1 ≤ n)%Z → isSafeZ n = true → env name = Some (decimal n) → setting env name = Some (Some n)) ∧
  match limitsFromEnvironment env with
  | Ok config => config = configured env ∧ usable config ∧ ∀ name, name ∈ limitNames → setting env name ≠ Some None
  | Err e => leName e ∈ limitNames ∧ setting env (leName e) = Some None
  end.
Proof.
  split; [intros name n; apply setting_decimal|].
  assert (Hbind : ∀ name d (k : Z → result LimitError LimitsConfig) (Q : result LimitError LimitsConfig → Prop),
    (setting env name ≠ Some None → Q (k (set_or env name d))) →
    (∀ e, leName e = name → setting env name = Some None → Q (Err e)) →
    Q (z ← limitFromEnvironment env name d; k z)).
  { intros name d k Q H1 H2. destruct (limitFromEnvironment env name d) as [z|e] eqn:E; cbn.
    - apply limit_ok in E as [Hn ->]. auto.
    - apply limit_err in E as [Hn Hs]. auto. }
  unfold limitsFromEnvironment.
  do 10 (apply Hbind; [intros ?|intros e -> ->; split; [unfold limitNames; set_solver|done]]).
  split; [done|]. split; [by repeat split; try apply set_or_limit|].
  unfold limitNames. intros name Hn. repeat (apply elem_of_cons in Hn as [->|Hn]; [done|]). by apply elem_of_nil in Hn.
Qed.

(** ** Caps over a path *)

Lemma bodyAdmitted_iff `{PatternPlatform} config rules path' bytes :
  covers (u "*") path' = true →
  bodyAdmitted config rules path' bytes = true ↔
  (bytes ≤ largestCap config)%Z ∧
  ∀ rule, rule ∈ rules → covers (path rule) path' = true → (bytes ≤ bodyCapBytes config (family rule))%Z.
Proof.
  intros Hall. unfold bodyAdmitted. rewrite forallb_forall.
  assert (∀ f, bodyCapBytes config f ≤ largestCap config)%Z as Hmax
    by (intros []; unfold largestCap; cbn [foldr fmap list_fmap]; lia).
  unfold installedCaps. setoid_rewrite <- list_elem_of_In. setoid_rewrite elem_of_app.
  setoid_rewrite list_elem_of_bind. setoid_rewrite list_elem_of_singleton. split.
  - intros Ha. assert (bytes ≤ largestCap config)%Z as Hl.
    { specialize (Ha _ (or_intror eq_refl)). cbn [fst snd] in Ha. rewrite Hall in Ha. by apply Z.leb_le. }
    split; [done|]. intros rule Hr Hc.
    destruct (Z.ltb_spec (bodyCapBytes config (family rule)) (largestCap config)) as [Hlt|Hge]; [|lia].
    assert (negb (covers (path rule) path') || (bytes <=? bodyCapBytes config (family rule))%Z = true) as Hb.
    { apply (Ha (path rule, bodyCapBytes config (family rule))). left. exists rule. cbv zeta.
      rewrite (proj2 (Z.ltb_lt _ _) Hlt). split; [by left|done]. }
    rewrite Hc in Hb. simpl in Hb. lia.
  - intros [Hl Hr] [p cap] [(rule & Hin & Hm)|[= -> ->]]; cbn [fst snd].
    + cbv zeta in Hin. destruct (_ <? _)%Z; [|by apply elem_of_nil in Hin].
      apply list_elem_of_singleton in Hin as [= -> ->]. destruct (covers (path rule) path') eqn:Hc; [|done].
      simpl. apply Z.leb_le. by apply Hr.
    + apply orb_true_iff. right. by apply Z.leb_le.
Qed.

(** A body that reaches a route of the register fits the cap of that route's family,
    and no body exceeds the largest cap; over a path no rule covers, the largest cap
    is the only one mounted. *)
Theorem body_cap_enforced `{P : PatternPlatform} rules `{!PatternLaws P rules} config method' path' bytes :
  (bodyAdmitted config rules path' bytes = true →
   (bytes ≤ largestCap config)%Z ∧
   ∀ rule, routeRuleFor rules method' path' = Some rule → (bytes ≤ bodyCapBytes config (family rule))%Z) ∧
  ((∀ rule, rule ∈ rules → covers (path rule) path' = false) →
   bodyAdmitted config rules path' bytes = (bytes <=? largestCap config)%Z).
Proof.
  pose proof (bodyAdmitted_iff config rules path' bytes (covers_all path')) as Hiff. split.
  - intros [Hl Hr]%Hiff. split; [done|]. intros rule [Hin Hm]%find_some_elem.
    apply Hr; [done|]. by eapply covers_rule.
  - intros Hn. apply eq_true_iff_eq. rewrite Hiff, Z.leb_le. split; [by intros [? _]|].
    intros Hl. split; [done|]. intros rule Hin Hc. by rewrite Hn in Hc.
Qed.

(** The matcher of the register, as the framework's. *)
Definition ruleCovers : PatternPlatform := λ pattern path', bool_decide (pattern = u "*") || pathMatches pattern path'.

#[export] Instance ruleCovers_laws rules : PatternLaws ruleCovers rules.
Proof.
  split.
  - intros rule method' path' _ [_ H]%matches_rule. unfold covers, ruleCovers. by rewrite H, orb_true_r.
  - done.
Qed.

Lemma body_cap_enforced_witness :
  @bodyAdmitted ruleCovers defaultLimits apiRules (u "/healthz") 65536 = true ∧
  (65536 ≤ bodyCapBytes defaultLimits probe)%Z ∧
  @bodyAdmitted ruleCovers defaultLimits apiRules (u "/nowhere") MAX_ATTACHMENT_BYTES = true.
Proof.
  split; [vm_compute; reflexivity|]. split.
  - apply (proj1 (body_cap_enforced (P := ruleCovers) apiRules defaultLimits (u "GET") (u "/healthz") 65536)
             eq_refl) with (rule := {| method := u "GET"; path := healthPath; family := probe |}).
    vm_compute. reflexivity.
  - rewrite (proj2 (body_cap_enforced (P := ruleCovers) apiRules defaultLimits (u "GET") (u "/nowhere") MAX_ATTACHMENT_BYTES));
      [vm_compute; reflexivity|].
    apply Forall_forall. vm_compute. repeat constructor.
Defined.

(** The caps are per path: a GET of the upload path has the upload family's. *)
Example upload_family :
  familyFor apiRules (u "POST") (u "/threads/t1/attachments") = upload ∧
  familyFor apiRules (u "GET") (u "/threads/t1/attachments") = fallback ∧
  familyFor apiRules (u "POST") (u "/threads//attachments") = fallback ∧
  familyFor apiRules (u "PUT") (u "/rpc") = rpc.
Proof. vm_compute. done. Qed.

(** A number in another notation is the number it writes. *)
Example environment_numerals :
  limitFromEnvironment (λ _, Some (u " 1e3 ")) (u "N") 5 = Ok 1000%Z ∧
  limitFromEnvironment (λ _, Some (u "0x10")) (u "N") 5 = Ok 16%Z ∧
  is_ok (limitFromEnvironment (λ _, Some (u "-0x10")) (u "N") 5) = false ∧
  is_ok (limitFromEnvironment (λ _, Some (u "1.5")) (u "N") 5) = false.
Proof. vm_compute. done. Qed.
