(* ===== verification/RateLimits.v ===== *)
(** The accounting of apps/api/src/limits.ts: the fixed-window counter of
    [createRateLimiter], with its sweep of stale windows, and the connection slots
    of [createStreamSlots], whose releases are closures over a shared map.  A log is
    the sequence of checks a limiter has answered; [fixedWindow] is the answer a fixed
    window per bucket and key gives, computed from the log alone. *)

From stdpp Require Import gmap sorting.
From S2P Require Import Prelude JsText.

(** ** The limiter *)

Record Window := { count : Z; startedAt : Z }.

Record LimiterState := { windows : gmap jstr Window; checks : Z }.

Definition emptyLimiter : LimiterState := {| windows := ∅; checks := 0 |}.

Inductive RateLimitOutcome := Allowed | Limited (retryAfterSeconds : Z).

#[export] Instance RateLimitOutcome_eq_dec : EqDecision RateLimitOutcome.
Proof. solve_decision. Defined.

(** One call of [check], with the clock's reading. *)
Record Check := { ckBucket : jstr; ckKey : jstr; ckBudget : Z; ckAt : Z }.

Definition counterKey (bucket key : jstr) : jstr := bucket ++ [0%N] ++ key.

Definition keyOf (c : Check) : jstr := counterKey (ckBucket c) (ckKey c).

(** [Math.max(1, Math.ceil(ms / 1000))]. *)
Definition retryAfter (ms : Z) : Z := Z.max 1 (- (- ms / 1000)).

Section limiter.
Variable windowMs : Z.

Definition expired (at_ : Z) (w : Window) : bool := (windowMs <=? at_ - startedAt w)%Z.

Definition sweep (at_ : Z) (ws : gmap jstr Window) : gmap jstr Window :=
  filter (λ kw, expired at_ kw.2 = false) ws.

(** The answer to one more request of a key whose window is [w], and the window it
    leaves. *)
Definition windowStep (w : option Window) (budget at_ : Z) : RateLimitOutcome * option Window :=
  match w with
  | None => (Allowed, Some {| count := 1; startedAt := at_ |})
  | Some w =>
      if expired at_ w then (Allowed, Some {| count := 1; startedAt := at_ |})
      else if (count w <? budget)%Z then (Allowed, Some {| count := count w + 1; startedAt := startedAt w |})
      else (Limited (retryAfter (startedAt w + windowMs - at_)), Some w)
  end.

Definition check (st : LimiterState) (c : Check) : RateLimitOutcome * LimiterState :=
  let n := (checks st + 1)%Z in
  let ws := if (n mod 1000 =? 0)%Z then sweep (ckAt c) (windows st) else windows st in
  match ws !! keyOf c with
  | None =>
      (Allowed, {| windows := <[keyOf c := {| count := 1; startedAt := ckAt c |}]> ws; checks := n |})
  | Some w =>
      if expired (ckAt c) w then
        (Allowed, {| windows := <[keyOf c := {| count := 1; startedAt := ckAt c |}]> ws; checks := n |})
      else if (count w <? ckBudget c)%Z then
        (Allowed, {| windows := <[keyOf c := {| count := count w + 1; startedAt := startedAt w |}]> ws; checks := n |})
      else (Limited (retryAfter (startedAt w + windowMs - ckAt c)), {| windows := ws; checks := n |})
  end.

(** The limiter once it has answered a log, and its answer to one more check. *)
Definition after (log : list Check) : LimiterState := foldl (λ st c, (check st c).2) emptyLimiter log.

Definition answer (log : list Check) (c : Check) : RateLimitOutcome := (check (after log) c).1.

(** Every check of a log with its answer. *)
Fixpoint answers (st : LimiterState) (log : list Check) : list (Check * RateLimitOutcome) :=
  match log with
  | [] => []
  | c :: log' => (c, (check st c).1) :: answers (check st c).2 log'
  end.

(** When the checks of a key were allowed. *)
Definition admissions (k : jstr) (log : list Check) : list Z :=
  omap (λ p, if decide (keyOf p.1 = k ∧ p.2 = Allowed) then Some (ckAt p.1) else None) (answers emptyLimiter log).

(** How many instants of a list fall in the [windowMs] from [t]. *)
Definition within (t : Z) (instants : list Z) : Z :=
  Z.of_nat (length (filter (λ a, t ≤ a < t + windowMs)%Z instants)).

(** The window of one counter key, from that key's checks alone. *)
Definition windowAfter (k : jstr) (log : list Check) : option Window :=
  foldl (λ w c, (windowStep w (ckBudget c) (ckAt c)).2) None (filter (λ c, keyOf c = k) log).

Definition reference (log : list Check) (c : Check) : RateLimitOutcome :=
  (windowStep (windowAfter (keyOf c) log) (ckBudget c) (ckAt c)).1.
End limiter.

(** ** Stream slots *)

(** [held] is the shared map; a slot's [released] flag belongs to its closure. *)
Record SlotsState := { held : gmap jstr Z; slots : list (jstr * bool) }.

Definition noSlots : SlotsState := {| held := ∅; slots := [] |}.

Inductive StreamSlotOutcome := Opened (slot : nat) | Refused (retryAfterSeconds : Z).

Definition acquire (key : jstr) (max : Z) (st : SlotsState) : StreamSlotOutcome * SlotsState :=
  let n := default 0%Z (held st !! key) in
  if (max <=? n)%Z then (Refused 1, st)
  else (Opened (length (slots st)),
        {| held := <[key := (n + 1)%Z]> (held st); slots := slots st ++ [(key, false)] |}).

(** [slot.release()]: the flag of the closure is set first. *)
Definition release (slot : nat) (st : SlotsState) : SlotsState :=
  match slots st !! slot with
  | Some (key, false) =>
      let current := default 0%Z (held st !! key) in
      {| held := if (current <=? 1)%Z then delete key (held st) else <[key := (current - 1)%Z]> (held st);
         slots := <[slot := (key, true)]> (slots st) |}
  | _ => st
  end.

Section steps.
(** The cap each key is acquired with. *)
Variable limit : jstr → Z.

Inductive SlotStep : SlotsState → SlotsState → Prop :=
| step_acquire key st : SlotStep st (acquire key (limit key) st).2
| step_release slot st : SlotStep st (release slot st).
End steps.

(** The slots of a key that are still open. *)
Definition live (key : jstr) (st : SlotsState) : Z :=
  Z.of_nat (length (filter (λ s, s = (key, false)) (slots st))).


(** ** The limiter refines the reference *)

(** Bucket names hold no NUL, so a counter key names its bucket and its key. *)
Lemma counterKey_inj b k b' k' :
  0%N ∉ b → 0%N ∉ b' → counterKey b k = counterKey b' k' → b = b' ∧ k = k'.
Proof.
  unfold counterKey. revert b'. induction b as [|c b IH]; intros [|c' b'] Hb Hb' H; simplify_eq/=; [done|set_solver..|].
  destruct (IH b') as [-> ->]; [set_solver|set_solver|done|done].
Qed.

Section theorems.
Context (windowMs : Z) (Hwindow : (0 < windowMs)%Z).

(** The clock never goes back along the log. *)
Definition clocked (log : list Check) : Prop := StronglySorted Z.le (ckAt <$> log).

Lemma clocked_snoc log c : clocked (log ++ [c]) ↔ clocked log ∧ ∀ d, d ∈ log → (ckAt d ≤ ckAt c)%Z.
Proof.
  unfold clocked. rewrite fmap_app. induction log as [|d log IH]; simpl.
  - split; [intros _; split; [constructor|set_solver]|intros _; by repeat constructor].
  - split.
    + intros [Hs Hf]%StronglySorted_inv. apply IH in Hs as [Hs Hd]. apply Forall_app in Hf as [Hf Hc].
      split; [by constructor|]. intros e [->|He]%elem_of_cons; [|auto]. by apply Forall_cons in Hc as [? _].
    + intros [[Hs Hf]%StronglySorted_inv Hd]. constructor; [apply IH; split; [done|set_solver]|].
      apply Forall_app. split; [done|]. repeat constructor. set_solver.
Qed.

Lemma after_snoc log c : after windowMs (log ++ [c]) = (check windowMs (after windowMs log) c).2.
Proof. unfold after. by rewrite foldl_app. Qed.

Lemma windowAfter_snoc k log c :
  windowAfter windowMs k (log ++ [c]) =
  if decide (keyOf c = k) then (windowStep windowMs (windowAfter windowMs k log) (ckBudget c) (ckAt c)).2
  else windowAfter windowMs k log.
Proof.
  unfold windowAfter. rewrite filter_app, foldl_app. unfold filter at 2. simpl.
  by destruct (decide (keyOf c = k)).
Qed.

(** A window starts at one of its key's checks. *)
Lemma windowAfter_start k log w :
  windowAfter windowMs k log = Some w → ∃ d, d ∈ log ∧ keyOf d = k ∧ ckAt d = startedAt w.
Proof.
  revert w. induction log as [|c log IH] using rev_ind; [done|]. intros w. rewrite windowAfter_snoc.
  assert (Hold : ∀ v, windowAfter windowMs k log = Some v → ∃ d, d ∈ log ++ [c] ∧ keyOf d = k ∧ ckAt d = startedAt v)
    by (intros v (d & ? & ?)%IH; exists d; set_solver).
  destruct (decide (keyOf c = k)) as [Hk|Hk]; [|apply Hold].
  assert (Hnew : ∃ d, d ∈ log ++ [c] ∧ keyOf d = k ∧ ckAt d = ckAt c) by (exists c; set_solver).
  destruct (windowAfter windowMs k log) as [v|]; simpl; [|by intros [= <-]].
  destruct (expired windowMs (ckAt c) v); [by intros [= <-]|].
  destruct (count v <? ckBudget c)%Z; intros [= <-]; by apply (Hold v).
Qed.

(** What the map holds for a key is its window, which a sweep may have dropped once
    it had expired. *)
Definition tracks (now : Z) (ws : gmap jstr Window) (k : jstr) (w : option Window) : Prop :=
  ws !! k = w ∨ (ws !! k = None ∧ ∃ v, w = Some v ∧ expired windowMs now v = true).

Lemma expired_later a b w : (a ≤ b)%Z → expired windowMs a w = true → expired windowMs b w = true.
Proof. unfold expired. lia. Qed.

Lemma tracks_later a b ws k w : (a ≤ b)%Z → tracks a ws k w → tracks b ws k w.
Proof. intros Hab [H|(H & v & -> & He)]; [by left|right]. split; [done|]. exists v. eauto using expired_later. Qed.

Lemma tracks_sweep now ws k w : tracks now ws k w → tracks now (sweep windowMs now ws) k w.
Proof.
  unfold tracks, sweep. intros [H|(H & v & -> & He)].
  - destruct w as [v|].
    + destruct (expired windowMs now v) eqn:He.
      * right. split; [|by exists v]. apply map_lookup_filter_None. right. intros v'. rewrite H. intros [= <-]. simpl. congruence.
      * left. by apply map_lookup_filter_Some.
    + left. apply map_lookup_filter_None. by left.
  - right. split; [|by exists v]. apply map_lookup_filter_None. by left.
Qed.

(** One check, over the map it looks up in. *)
Definition swept (st : LimiterState) (c : Check) : gmap jstr Window :=
  if ((checks st + 1) mod 1000 =? 0)%Z then sweep windowMs (ckAt c) (windows st) else windows st.

Lemma check_step st c :
  let r := windowStep windowMs (swept st c !! keyOf c) (ckBudget c) (ckAt c) in
  (check windowMs st c).1 = r.1 ∧
  checks (check windowMs st c).2 = (checks st + 1)%Z ∧
  windows (check windowMs st c).2 = match r.2 with Some w => <[keyOf c := w]> (swept st c) | None => swept st c end.
Proof.
  unfold check, swept. cbv zeta. destruct (_ !! keyOf c) as [w|] eqn:E; simpl; [|done].
  destruct (expired windowMs (ckAt c) w); [done|]. destruct (count w <? ckBudget c)%Z; [done|]. simpl.
  by rewrite insert_id.
Qed.

Lemma windowStep_some w b t : is_Some (windowStep windowMs w b t).2.
Proof. unfold windowStep. repeat case_match; by eexists. Qed.

(** An expired window answers as no window does. *)
Lemma windowStep_expired v b t :
  expired windowMs t v = true → windowStep windowMs (Some v) b t = windowStep windowMs None b t.
Proof. unfold windowStep. by intros ->. Qed.

Lemma windowStep_tracks ws k w b t : tracks t ws k w → windowStep windowMs (ws !! k) b t = windowStep windowMs w b t.
Proof. intros [->|(-> & v & -> & He)]; [done|]. by rewrite windowStep_expired. Qed.

Lemma swept_tracks log c k :
  (∀ now, (∀ d, d ∈ log → (ckAt d ≤ now)%Z) → tracks now (windows (after windowMs log)) k (windowAfter windowMs k log)) →
  (∀ d, d ∈ log → (ckAt d ≤ ckAt c)%Z) →
  tracks (ckAt c) (swept (after windowMs log) c) k (windowAfter windowMs k log).
Proof. intros H Hc%H. unfold swept. case_match; [by apply tracks_sweep|done]. Qed.

Lemma after_tracks log k now :
  clocked log → (∀ d, d ∈ log → (ckAt d ≤ now)%Z) →
  tracks now (windows (after windowMs log)) k (windowAfter windowMs k log).
Proof.
  revert now. induction log as [|c log IH] using rev_ind; [by left|]. intros now [Hs Hc]%clocked_snoc Hnow.
  pose proof (swept_tracks log c k ltac:(eauto) Hc) as Ht.
  rewrite after_snoc, windowAfter_snoc. destruct (check_step (after windowMs log) c) as (_ & _ & ->).
  assert (ckAt c ≤ now)%Z as Hcn by (apply Hnow; set_solver).
  destruct (windowStep_some (swept (after windowMs log) c !! keyOf c) (ckBudget c) (ckAt c)) as [w Hw]. rewrite Hw.
  destruct (decide (keyOf c = k)) as [<-|Hk].
  - left. rewrite lookup_insert_eq, <- (windowStep_tracks _ _ _ _ _ Ht). done.
  - apply (tracks_later (ckAt c)); [done|]. unfold tracks in *. by rewrite lookup_insert_ne.
Qed.

Lemma answer_reference log c :
  clocked (log ++ [c]) → answer windowMs log c = reference windowMs log c.
Proof.
  intros [Hs Hc]%clocked_snoc. unfold answer, reference.
  destruct (check_step (after windowMs log) c) as (-> & _). f_equal. apply windowStep_tracks, swept_tracks; [|done].
  intros now Hnow. by apply after_tracks.
Qed.

(** ** The fixed windows a limiter promises, from the log alone *)

(** The checks of one bucket and key, in order. *)
Definition traffic (bucket key : jstr) (log : list Check) : list Check :=
  filter (λ d, ckBucket d = bucket ∧ ckKey d = key) log.

(** The window a request sequence stands in: a request opens a new one when the
    current one has lasted its whole length. *)
Definition currentWindow (l : list Check) : list Check :=
  foldl (λ win d,
    match win with
    | o :: _ => if (ckAt d <? ckAt o + windowMs)%Z then win ++ [d] else [d]
    | [] => [d]
    end) [] l.

(** How many requests of a window were served: the one that opened it, and every
    later one that found its own budget unspent. *)
Definition served (win : list Check) : Z :=
  match win with
  | [] => 0
  | _ :: rest => foldl (λ n d, if (n <? ckBudget d)%Z then (n + 1)%Z else n) 1%Z rest
  end.

(** The whole seconds, at least one, that cover [ms] milliseconds. *)
Definition secondsUntil (ms : Z) : Z := Z.max 1 ((ms + 999) / 1000).

Definition fixedWindow (log : list Check) (c : Check) : RateLimitOutcome :=
  let win := currentWindow (traffic (ckBucket c) (ckKey c) log) in
  match win with
  | [] => Allowed
  | o :: _ =>
      if (ckAt o + windowMs <=? ckAt c)%Z then Allowed
      else if (served win <? ckBudget c)%Z then Allowed
      else Limited (secondsUntil (ckAt o + windowMs - ckAt c))
  end.

(** No bucket name of the log holds a NUL; the API's are plain words. *)
Definition plainBuckets (log : list Check) : Prop := Forall (λ d, 0%N ∉ ckBucket d) log.

Lemma traffic_by_key bucket key log :
  0%N ∉ bucket → plainBuckets log →
  filter (λ d, keyOf d = counterKey bucket key) log = traffic bucket key log.
Proof.
  intros Hb Hlog. unfold traffic. induction Hlog as [|d log Hd _ IH]; [done|].
  rewrite !filter_cons, IH. destruct (decide (keyOf d = _)) as [E|E].
  - apply counterKey_inj in E; [|done..]. by rewrite decide_True.
  - rewrite decide_False; [done|]. intros [<- <-]. by apply E.
Qed.

Lemma currentWindow_snoc l d :
  currentWindow (l ++ [d]) =
  match currentWindow l with
  | o :: rest => if (ckAt d <? ckAt o + windowMs)%Z then o :: rest ++ [d] else [d]
  | [] => [d]
  end.
Proof. unfold currentWindow. rewrite foldl_app. simpl. by destruct (foldl _ [] l). Qed.

Lemma served_snoc o rest d :
  served (o :: rest ++ [d]) =
  if (served (o :: rest) <? ckBudget d)%Z then (served (o :: rest) + 1)%Z else served (o :: rest).
Proof. simpl. by rewrite foldl_app. Qed.

(** The counter a limiter keeps is the window's opening and its served requests. *)
Lemma counter_window l :
  foldl (λ w c, (windowStep windowMs w (ckBudget c) (ckAt c)).2) None l =
  match currentWindow l with
  | [] => None
  | o :: rest => Some {| count := served (o :: rest); startedAt := ckAt o |}
  end.
Proof using Hwindow.
  induction l as [|d l IH] using rev_ind; [done|]. rewrite foldl_app, currentWindow_snoc. cbn [foldl].
  rewrite IH. destruct (currentWindow l) as [|o rest]; [done|]. unfold windowStep, expired. cbn [startedAt count].
  destruct (Z.leb_spec windowMs (ckAt d - ckAt o)), (Z.ltb_spec (ckAt d) (ckAt o + windowMs)); try lia; [done|].
  rewrite served_snoc. by destruct (served (o :: rest) <? ckBudget d)%Z.
Qed.

Lemma retryAfter_seconds ms : retryAfter ms = secondsUntil ms.
Proof.
  unfold retryAfter, secondsUntil. f_equal.
  pose proof (Z.div_mod (- ms) 1000 ltac:(lia)). pose proof (Z.mod_pos_bound (- ms) 1000 ltac:(lia)).
  pose proof (Z.div_mod (ms + 999) 1000 ltac:(lia)). pose proof (Z.mod_pos_bound (ms + 999) 1000 ltac:(lia)). lia.
Qed.

(** C34. Under a clock that does not go back along the log, and with bucket names
    that hold no NUL, the limiter answers each check as the fixed window of its
    own bucket and key does: the checks of that bucket and key alone decide which
    request opened the current window, how many of it were served, and so
    whether one more is allowed or how many seconds it must wait; neither another
    bucket or key nor a sweep changes an answer. *)
Theorem limiter_refines_windows log c :
  clocked (log ++ [c]) → plainBuckets (log ++ [c]) → answer windowMs log c = fixedWindow log c.
Proof.
  intros Hc [Hlog [Hb _]%Forall_cons]%Forall_app. rewrite answer_reference by done.
  unfold reference, windowAfter, fixedWindow. change (keyOf c) with (counterKey (ckBucket c) (ckKey c)).
  rewrite (traffic_by_key _ _ log Hb Hlog), counter_window.
  destruct (currentWindow (traffic _ _ log)) as [|o rest]; [done|].
  unfold windowStep, expired. cbn [startedAt count].
  destruct (Z.leb_spec windowMs (ckAt c - ckAt o)), (Z.leb_spec (ckAt o + windowMs) (ckAt c)); try lia; [done|].
  destruct (served (o :: rest) <? ckBudget c)%Z; [done|]. by rewrite <- retryAfter_seconds.
Qed.

(** ** At most two budgets in a window's length *)

Lemma answers_snoc st log c :
  answers windowMs st (log ++ [c]) =
  answers windowMs st log ++ [(c, (check windowMs (foldl (λ st c, (check windowMs st c).2) st log) c).1)].
Proof. revert st. induction log as [|d log IH]; intros st; simpl; [done|]. by rewrite IH. Qed.

Lemma admissions_snoc k log c :
  clocked (log ++ [c]) →
  admissions windowMs k (log ++ [c]) =
  admissions windowMs k log ++
  (if decide (keyOf c = k ∧ reference windowMs log c = Allowed) then [ckAt c] else []).
Proof.
  intros Hc. unfold admissions. rewrite answers_snoc, omap_app. f_equal. simpl.
  pose proof (answer_reference log c Hc) as Ha. unfold answer, after in Ha. rewrite Ha.
  by destruct (decide (keyOf c = k ∧ reference windowMs log c = Allowed)).
Qed.

(** The instants from [t] on. *)
Definition from (t : Z) (instants : list Z) : Z := Z.of_nat (length (filter (λ a, t ≤ a)%Z instants)).

Lemma within_app t l1 l2 : within windowMs t (l1 ++ l2) = (within windowMs t l1 + within windowMs t l2)%Z.
Proof. unfold within. rewrite filter_app, length_app. lia. Qed.

Lemma from_app t l1 l2 : from t (l1 ++ l2) = (from t l1 + from t l2)%Z.
Proof. unfold from. rewrite filter_app, length_app. lia. Qed.

Lemma within_from t l : (within windowMs t l ≤ from t l)%Z.
Proof.
  unfold within, from. induction l as [|a l IH]; [done|]. rewrite !filter_cons.
  repeat case_decide; simpl; lia.
Qed.

Lemma within_length t l : (within windowMs t l ≤ Z.of_nat (length l))%Z.
Proof. unfold within. pose proof (length_filter (λ a, t ≤ a < t + windowMs)%Z l). lia. Qed.

Lemma from_length t l : (from t l ≤ Z.of_nat (length l))%Z.
Proof. unfold from. pose proof (length_filter (λ a, t ≤ a)%Z l). lia. Qed.

Lemma filter_none (Q : Z → Prop) `{!∀ a, Decision (Q a)} l : Forall (λ a, ¬ Q a) l → filter Q l = [].
Proof. induction 1 as [|a l Ha _ IH]; [done|]. by rewrite filter_cons, decide_False. Qed.

Lemma within_none t l : Forall (λ a, ¬ (t ≤ a < t + windowMs)%Z) l → within windowMs t l = 0%Z.
Proof. intros H. unfold within. by rewrite filter_none. Qed.

Lemma from_none t l : Forall (λ a, ¬ (t ≤ a)%Z) l → from t l = 0%Z.
Proof. intros H. unfold from. by rewrite filter_none. Qed.

(** The admissions a window of [b] stands over: those it counted since its start, and
    those before it, which any window's length meets at most [2 * b] of, and at most
    [b] of when it reaches the start. *)
Definition stands (b : Z) (A : list Z) (w : option Window) : Prop :=
  match w with
  | None => A = []
  | Some w =>
      ∃ P C, A = P ++ C ∧ Z.of_nat (length C) = count w ∧ (count w ≤ b)%Z ∧
        Forall (λ a, startedAt w ≤ a < startedAt w + windowMs)%Z C ∧ Forall (λ a, a < startedAt w)%Z P ∧
        (∀ t, within windowMs t P ≤ 2 * b)%Z ∧ (∀ t, startedAt w - windowMs < t → from t P ≤ b)%Z
  end.

Lemma stands_within b A w t : (0 ≤ b)%Z → stands b A w → (within windowMs t A ≤ 2 * b)%Z.
Proof.
  destruct w as [w|]; simpl; [|intros Hb ->; unfold within; simpl; lia].
  intros Hb (P & C & -> & Hl & Hc & HC & HP & Hw & Hf). rewrite within_app.
  destruct (Z.lt_ge_cases (startedAt w - windowMs) t) as [Ht|Ht].
  - specialize (Hf t Ht). pose proof (within_from t P). pose proof (within_length t C). lia.
  - rewrite (within_none t C); [specialize (Hw t); lia|]. eapply Forall_impl; [exact HC|]. simpl. lia.
Qed.

(** A new window over admissions whose last window is over. *)
Lemma stands_new b A w at_ :
  (1 ≤ b)%Z → stands b A w → (∀ v, w = Some v → expired windowMs at_ v = true) →
  stands b (A ++ [at_]) (Some {| count := 1; startedAt := at_ |}).
Proof.
  intros Hb Hs He. assert (∀ t, within windowMs t A ≤ 2 * b)%Z as Hw by (intros t; apply (stands_within b A w t); [lia|done]).
  exists A, [at_]. simpl. split_and!; [done|lia|lia|repeat constructor; lia| |done|].
  - destruct w as [w|]; [|rewrite Hs; constructor]. specialize (He w eq_refl). unfold expired in He.
    destruct Hs as (P & C & -> & _ & _ & HC & HP & _). apply Forall_app. split.
    + eapply Forall_impl; [exact HP|]. simpl. lia.
    + eapply Forall_impl; [exact HC|]. simpl. lia.
  - intros t Ht. destruct w as [w|]; [|rewrite Hs; unfold from; simpl; lia].
    specialize (He w eq_refl). unfold expired in He.
    destruct Hs as (P & C & -> & Hl & Hc & HC & HP & _). rewrite from_app, (from_none t P).
    + pose proof (from_length t C). lia.
    + eapply Forall_impl; [exact HP|]. simpl. lia.
Qed.

(** One more admission in a window that has room. *)
Lemma stands_more b A w at_ :
  stands b A (Some w) → expired windowMs at_ w = false → (startedAt w ≤ at_)%Z → (count w < b)%Z →
  stands b (A ++ [at_]) (Some {| count := count w + 1; startedAt := startedAt w |}).
Proof.
  intros (P & C & -> & Hl & Hc & HC & HP & Hw & Hf) He Hat Hlt. unfold expired in He.
  exists P, (C ++ [at_]). simpl. rewrite app_assoc, length_app. simpl. split_and!; try done; try lia.
  apply Forall_app. split; [done|]. repeat constructor; lia.
Qed.

Lemma admissions_stand k b log :
  (1 ≤ b)%Z → clocked log → (∀ c, c ∈ log → keyOf c = k → ckBudget c = b) →
  stands b (admissions windowMs k log) (windowAfter windowMs k log).
Proof.
  intros Hb. induction log as [|c log IH] using rev_ind; [done|]. intros Hs Hbud.
  rewrite admissions_snoc, windowAfter_snoc by done. apply clocked_snoc in Hs as [Hs Hc].
  specialize (IH Hs ltac:(set_solver)). unfold reference.
  destruct (decide (keyOf c = k)) as [<-|Hk]; [|rewrite decide_False by tauto; by rewrite app_nil_r].
  destruct (windowAfter windowMs (keyOf c) log) as [w|] eqn:Hw; simpl.
  - destruct (expired windowMs (ckAt c) w) eqn:He; simpl.
    + rewrite decide_True by done. eapply stands_new; [done|exact IH|]. by intros v [= <-].
    + rewrite (Hbud c ltac:(set_solver) eq_refl). destruct (Z.ltb_spec (count w) b) as [Hlt|Hge]; simpl.
      * rewrite decide_True by done. apply stands_more; [done..| |done].
        apply windowAfter_start in Hw as (d & Hd & _ & <-). by apply Hc.
      * rewrite decide_False by (by intros [_ ?]). by rewrite app_nil_r.
  - rewrite decide_True by done. by eapply stands_new.
Qed.

Lemma within_sublist t l k : l `sublist_of` k → (within windowMs t l ≤ within windowMs t k)%Z.
Proof.
  unfold within. induction 1 as [|a l k _ IH|a l k _ IH]; rewrite ?filter_cons; repeat case_decide; simpl; lia.
Qed.

Lemma admissions_stand_within k b log t :
  (1 ≤ b)%Z → clocked log → (∀ c, c ∈ log → keyOf c = k → ckBudget c = b) →
  (within windowMs t (admissions windowMs k log) ≤ 2 * b)%Z.
Proof. intros Hb Hs Hbud. eapply stands_within; [lia|]. by apply admissions_stand. Qed.

(** However the checks of other keys interleave, a key with a budget of [b] is
    admitted at most [2 * b] times in any span of one window's length. *)
Theorem admissions_bounded k b log t :
  (1 ≤ b)%Z → clocked log → (∀ c, c ∈ log → keyOf c = k → ckBudget c = b) →
  (within windowMs t (admissions windowMs k log) ≤ 2 * b)%Z.
Proof. apply admissions_stand_within. Qed.

(** ** The wait a refusal names *)

Lemma windowAfter_quiet k log middle :
  Forall (λ d, keyOf d ≠ k) middle → windowAfter windowMs k (log ++ middle) = windowAfter windowMs k log.
Proof.
  induction middle as [|d middle IH] using rev_ind; [by rewrite app_nil_r|].
  intros [Hm [Hd _]%Forall_cons]%Forall_app. rewrite app_assoc, windowAfter_snoc, decide_False by done. by apply IH.
Qed.

(** [retryAfter] is the least whole number of seconds that is long enough. *)
Lemma retryAfter_least ms :
  (0 < ms)%Z → (1 ≤ retryAfter ms ∧ 1000 * (retryAfter ms - 1) < ms ≤ 1000 * retryAfter ms)%Z.
Proof. intros H. unfold retryAfter. pose proof (Z.div_mod (- ms) 1000 ltac:(lia)). pose proof (Z.mod_pos_bound (- ms) 1000 ltac:(lia)). lia. Qed.

(** A refusal names the least whole number of seconds after which the key is admitted
    again, at most the window's length: until the window ends, a check of the key
    with the same budget is refused, and from then on the next one is allowed,
    whatever other keys have done. *)
Theorem refusal_names_the_wait log c r :
  clocked (log ++ [c]) → answer windowMs log c = Limited r →
  ∃ opens, (1 ≤ r ∧ 1000 * (r - 1) < opens - ckAt c ≤ 1000 * r ∧ opens ≤ ckAt c + windowMs)%Z ∧
    ∀ middle c', clocked ((log ++ [c]) ++ middle ++ [c']) → Forall (λ d, keyOf d ≠ keyOf c) middle →
      keyOf c' = keyOf c → ckBudget c' = ckBudget c →
      answer windowMs ((log ++ [c]) ++ middle) c' = Allowed ↔ (opens ≤ ckAt c')%Z.
Proof.
  intros Hlog. rewrite answer_reference by done. unfold reference.
  destruct (windowAfter windowMs (keyOf c) log) as [w|] eqn:Hw; simpl; [|done].
  destruct (expired windowMs (ckAt c) w) eqn:He; simpl; [done|].
  destruct (Z.ltb_spec (count w) (ckBudget c)) as [?|Hfull]; simpl; [done|]. intros [= <-].
  destruct (windowAfter_start _ _ _ Hw) as (d & Hd & _ & Hstart).
  assert (startedAt w ≤ ckAt c)%Z as Hst by (rewrite <- Hstart; by apply clocked_snoc in Hlog as [_ ?]; auto).
  pose proof He as Hopen. unfold expired in Hopen.
  exists (startedAt w + windowMs)%Z. split.
  - pose proof (retryAfter_least (startedAt w + windowMs - ckAt c) ltac:(lia)). lia.
  - intros middle c' Hall Hm Hk Hbud. rewrite answer_reference by by rewrite <- app_assoc. unfold reference.
    rewrite Hk, windowAfter_quiet, windowAfter_snoc, decide_True by done. rewrite Hw. simpl. rewrite He.
    rewrite (proj2 (Z.ltb_ge _ _) Hfull). simpl. rewrite Hbud, (proj2 (Z.ltb_ge _ _) Hfull).
    unfold expired. destruct (Z.leb_spec windowMs (ckAt c' - startedAt w)); simpl; split; intros; try done; lia.
Qed.

(** ** The map stays small *)

(** Every window of the map started at a check of its key. *)
Lemma windows_start log k w :
  clocked log → windows (after windowMs log) !! k = Some w → ∃ d, d ∈ log ∧ keyOf d = k ∧ ckAt d = startedAt w.
Proof.
  intros Hs Hw. destruct log as [|c log _] using rev_ind;
    [change (windows (after windowMs [])) with (∅ : gmap jstr Window) in Hw; by rewrite lookup_empty in Hw|].
  apply (windowAfter_start k). pose proof Hs as [_ Hc]%clocked_snoc.
  destruct (after_tracks (log ++ [c]) k (ckAt c) Hs) as [H|[H _]]; [|congruence|congruence].
  intros d [Hd|Hd%list_elem_of_singleton]%elem_of_app; [auto|by subst].
Qed.

Lemma checks_length log : checks (after windowMs log) = Z.of_nat (length log).
Proof.
  induction log as [|c log IH] using rev_ind; [done|]. rewrite after_snoc.
  destruct (check_step (after windowMs log) c) as (_ & -> & _). rewrite IH, length_app. simpl. lia.
Qed.

Lemma size_insert_le (ws : gmap jstr Window) k w : size (<[k := w]> ws) ≤ S (size ws).
Proof. destruct (ws !! k) eqn:E; [rewrite map_size_insert_Some by eauto|rewrite map_size_insert_None by done]; lia. Qed.

Lemma keys_size (ws : gmap jstr Window) (l : list jstr) : (∀ k, is_Some (ws !! k) → k ∈ l) → size ws ≤ length l.
Proof.
  intros H. rewrite <- (length_map_to_list ws), <- (length_fmap fst). apply submseteq_length.
  apply NoDup_submseteq; [apply NoDup_fst_map_to_list|].
  intros k [[k' w] [-> Hkw%elem_of_map_to_list]]%list_elem_of_fmap. apply H. by exists w.
Qed.

(** The checks of the span of one window's length that ends at [t]. *)
Definition recent (t : Z) (log : list Check) : list Check := filter (λ d, t - windowMs < ckAt d ≤ t)%Z log.

Lemma sweep_gap n : ((Z.of_nat n + 1) mod 1000)%Z ≠ 0%Z → (n + 1) mod 1000 = S (n mod 1000).
Proof.
  intros Hz. pose proof (Nat2Z.inj_mod (n + 1) 1000) as Hi. rewrite Nat2Z.inj_add in Hi. change (Z.of_nat 1) with 1%Z in Hi.
  change (Z.of_nat 1000) with 1000%Z in Hi. rewrite <- Hi in Hz.
  pose proof (Nat.div_mod_eq n 1000). pose proof (Nat.mod_upper_bound n 1000 ltac:(lia)).
  pose proof (Nat.div_mod_eq (n + 1) 1000). pose proof (Nat.mod_upper_bound (n + 1) 1000 ltac:(lia)).
  set (q := n / 1000) in *. set (q' := (n + 1) / 1000) in *. set (r := n mod 1000) in *. set (r' := (n + 1) mod 1000) in *.
  clearbody q q' r r'. assert (r' ≠ 0) by (intros ->; by apply Hz). assert (q = q') by nia. lia.
Qed.

(** After a log the map holds the windows a sweep left and at most one for each check
    since: the sweep runs every thousand checks. *)
Theorem limiter_size log R :
  clocked log → (∀ t, length (recent t log) ≤ R) →
  size (windows (after windowMs log)) ≤ R + length log mod 1000.
Proof.
  induction log as [|c log IH] using rev_ind; intros Hs HR.
  { change (windows (after windowMs [])) with (∅ : gmap jstr Window). rewrite map_size_empty. lia. }
  pose proof Hs as [Hsl Hc]%clocked_snoc.
  assert (Hprev : ∀ t, length (recent t log) ≤ R)
    by (intros t; specialize (HR t); unfold recent in *; rewrite filter_app, length_app in HR; lia).
  specialize (IH Hsl Hprev). rewrite after_snoc. destruct (check_step (after windowMs log) c) as (_ & _ & ->).
  destruct (windowStep_some (swept (after windowMs log) c !! keyOf c) (ckBudget c) (ckAt c)) as [w ->].
  rewrite length_app. change (length [c]) with 1. unfold swept. rewrite checks_length.
  destruct (Z.eqb_spec ((Z.of_nat (length log) + 1) mod 1000) 0) as [Hz|Hz].
  - etrans; [|apply Nat.le_add_r]. etrans; [|apply (HR (ckAt c))]. rewrite <- (length_fmap keyOf). apply keys_size.
    intros k [v Hv]. apply list_elem_of_fmap.
    destruct (decide (k = keyOf c)) as [->|Hk].
    + exists c. split; [done|]. apply list_elem_of_filter. split; [lia|set_solver].
    + rewrite lookup_insert_ne in Hv by done. apply map_lookup_filter_Some in Hv as [Hv He]. cbn [snd] in He.
      destruct (windows_start log k v Hsl Hv) as (d & Hd & <- & Hst). exists d. split; [done|].
      apply list_elem_of_filter. unfold expired in He. specialize (Hc d Hd). split; [lia|set_solver].
  - etrans; [apply size_insert_le|].
    rewrite (sweep_gap (length log)) by done. lia.
Qed.
End theorems.

(** ** The slots *)

(** The map counts the open slots of each key, and holds no key with none. *)
Definition countsOpen (st : SlotsState) : Prop :=
  ∀ key, held st !! key = if decide (live key st = 0%Z) then None else Some (live key st).

Lemma countsOpen_default st key : countsOpen st → default 0%Z (held st !! key) = live key st.
Proof. intros ->. case_decide as H; simpl; [by rewrite H|done]. Qed.

Lemma live_snoc key key' st h :
  live key {| held := h; slots := slots st ++ [(key', false)] |} = (live key st + if decide (key' = key) then 1 else 0)%Z.
Proof.
  unfold live. simpl. rewrite filter_app, length_app, filter_cons.
  repeat case_decide; simplify_eq; simpl; lia.
Qed.

Lemma live_release key key' slot st h :
  slots st !! slot = Some (key', false) →
  live key {| held := h; slots := <[slot := (key', true)]> (slots st) |} =
  (live key st - if decide (key' = key) then 1 else 0)%Z.
Proof.
  intros Hs. unfold live. simpl. rewrite insert_take_drop by (by eapply lookup_lt_Some).
  rewrite <- (take_drop_middle (slots st) slot (key', false) Hs) at 3.
  rewrite !filter_app, !filter_cons, !length_app. repeat case_decide; simplify_eq; simpl; lia.
Qed.

Lemma live_nonneg key st : (0 ≤ live key st)%Z.
Proof. unfold live. lia. Qed.

Lemma acquire_counts key max st : countsOpen st → countsOpen (acquire key max st).2.
Proof.
  intros Hi. unfold acquire. rewrite countsOpen_default by done. destruct (max <=? live key st)%Z; [done|].
  intros k. cbn [snd held]. rewrite live_snoc. pose proof (live_nonneg k st). destruct (decide (key = k)) as [<-|Hk].
  - rewrite lookup_insert_eq, decide_False by lia. done.
  - rewrite lookup_insert_ne, Hi, Z.add_0_r by done. done.
Qed.

Lemma release_counts slot st : countsOpen st → countsOpen (release slot st).
Proof.
  intros Hi. unfold release. destruct (slots st !! slot) as [[key []]|] eqn:Hs; try done.
  rewrite countsOpen_default by done. intros k. cbn [held]. rewrite (live_release _ _ _ _ _ Hs).
  assert (1 ≤ live key st)%Z as Hl.
  { unfold live. enough (0 < length (filter (λ s, s = (key, false)) (slots st))) by lia.
    apply list_elem_of_lookup_2 in Hs. destruct (filter _ _) eqn:E; [|simpl; lia].
    assert ((key, false) ∈ filter (λ s, s = (key, false)) (slots st)) as Hf by (by apply list_elem_of_filter).
    rewrite E in Hf. by apply elem_of_nil in Hf. }
  destruct (Z.leb_spec (live key st) 1); destruct (decide (key = k)) as [<-|Hk].
  - rewrite lookup_delete_eq, decide_True by lia. done.
  - rewrite lookup_delete_ne, Hi, Z.sub_0_r by done. done.
  - rewrite lookup_insert_eq, decide_False by lia. done.
  - rewrite lookup_insert_ne, Hi, Z.sub_0_r by done. done.
Qed.

Lemma release_twice slot st : release slot (release slot st) = release slot st.
Proof.
  unfold release at 2. destruct (slots st !! slot) as [[key []]|] eqn:Hs; unfold release; rewrite ?Hs; [done| |done].
  cbn [slots]. rewrite list_lookup_insert_eq by (by eapply lookup_lt_Some). done.
Qed.

(** However acquisitions and releases interleave, and however often a slot is
    released, the shared map counts exactly the open slots of each key; a key never
    holds more than its cap, and is refused exactly when it holds that many. *)
Theorem slots_bounded (limit : jstr → Z) st key :
  rtc (SlotStep limit) noSlots st →
  default 0%Z (held st !! key) = live key st ∧ (live key st ≤ Z.max 0 (limit key))%Z ∧
  ((acquire key (limit key) st).1 = Refused 1 ↔ (limit key ≤ live key st)%Z) ∧
  ∀ slot, release slot (release slot st) = release slot st ∧
    (slots st !! slot = Some (key, false) → live key (release slot st) = live key st - 1)%Z.
Proof.
  intros Hr.
  assert (countsOpen st ∧ ∀ k, (live k st ≤ Z.max 0 (limit k))%Z) as [Hi Hb].
  { revert st Hr. apply (rtc_ind_r (λ st, countsOpen st ∧ ∀ k, (live k st ≤ Z.max 0 (limit k))%Z));
      [split; [done|unfold live; simpl; lia]|].
    intros st st' _ Hstep [Hi Hb]. destruct Hstep as [k st|slot st].
    - split; [by apply acquire_counts|]. intros k'. unfold acquire. rewrite countsOpen_default by done.
      destruct (Z.leb_spec (limit k) (live k st)); [apply Hb|]. cbn [snd]. rewrite live_snoc.
      destruct (decide (k = k')) as [<-|]; [lia|]. specialize (Hb k'). lia.
    - split; [by apply release_counts|]. intros k'. unfold release.
      destruct (slots st !! slot) as [[k []]|] eqn:Hs; [apply Hb| |apply Hb].
      rewrite (live_release _ _ _ _ _ Hs). specialize (Hb k'). case_decide; lia. }
  split; [by apply countsOpen_default|]. split; [apply Hb|]. split.
  - unfold acquire. rewrite countsOpen_default by done. destruct (Z.leb_spec (limit key) (live key st)); [done|].
    split; [done|lia].
  - intros slot. split; [apply release_twice|]. intros Hs. unfold release. rewrite Hs, (live_release _ _ _ _ _ Hs).
    rewrite decide_True by done. lia.
Qed.

(** ** A sample log: two callers, a budget of two *)

Definition call (key : jstr) (at_ : Z) : Check := {| ckBucket := u "rpc"; ckKey := key; ckBudget := 2; ckAt := at_ |}.

Definition sampleLog : list Check := [call (u "a") 0; call (u "b") 5; call (u "a") 10].

Lemma sample_clocked t : (20 ≤ t)%Z → clocked (sampleLog ++ [call (u "a") 20] ++ [call (u "a") t]).
Proof. intros Ht. unfold clocked. cbn. repeat first [lia | constructor]. Qed.

Lemma sample_log_clocked : clocked (sampleLog ++ [call (u "a") 20]).
Proof. unfold clocked. cbn. repeat first [lia | constructor]. Qed.

(** The same key in two buckets: the budget spent in one leaves the other's. *)
Definition otherBucket : Check := {| ckBucket := u "webhook"; ckKey := u "a"; ckBudget := 2; ckAt := 20 |}.

Lemma other_bucket_conditions :
  clocked (sampleLog ++ [otherBucket]) ∧ plainBuckets (sampleLog ++ [otherBucket]) ∧
  plainBuckets (sampleLog ++ [call (u "a") 20]).
Proof.
  split; [unfold clocked; cbn; repeat first [lia | constructor]|].
  by split; apply Forall_forall; intros d Hd; repeat (apply elem_of_cons in Hd as [->|Hd]; [compute_done|]); apply elem_of_nil in Hd.
Qed.

Lemma limiter_refines_windows_witness :
  answer 60000 sampleLog (call (u "a") 20) = Limited 60 ∧
  answer 60000 sampleLog (call (u "a") 20) = fixedWindow 60000 sampleLog (call (u "a") 20) ∧
  answer 60000 sampleLog otherBucket = fixedWindow 60000 sampleLog otherBucket ∧
  fixedWindow 60000 sampleLog otherBucket = Allowed.
Proof.
  split; [vm_compute; reflexivity|]. destruct other_bucket_conditions as (Hc & Hp & Hp').
  split; [apply (limiter_refines_windows 60000 eq_refl); [exact sample_log_clocked|exact Hp']|].
  split; [|vm_compute; reflexivity]. by apply (limiter_refines_windows 60000 eq_refl).
Defined.

Lemma admissions_bounded_witness :
  (within 60000 0 (admissions 60000 (counterKey (u "rpc") (u "a")) sampleLog) ≤ 2 * 2)%Z ∧
  admissions 60000 (counterKey (u "rpc") (u "a")) sampleLog = [0; 10]%Z.
Proof.
  split; [|vm_compute; reflexivity].
  apply (admissions_bounded 60000); [lia|lia|unfold clocked; cbn; repeat first [lia | constructor]|].
  intros c Hc. unfold sampleLog in Hc. by repeat (apply elem_of_cons in Hc as [->|Hc]; [done|]); apply elem_of_nil in Hc.
Defined.

Lemma refusal_names_the_wait_witness :
  answer 60000 sampleLog (call (u "a") 20) = Limited 60 ∧
  ∃ opens, (1 ≤ 60 ∧ 1000 * (60 - 1) < opens - 20 ≤ 1000 * 60 ∧ opens ≤ 20 + 60000)%Z ∧
    (answer 60000 ((sampleLog ++ [call (u "a") 20]) ++ []) (call (u "a") 60020) = Allowed ↔ (opens ≤ 60020)%Z).
Proof.
  split; [vm_compute; reflexivity|].
  destruct (refusal_names_the_wait 60000 eq_refl sampleLog (call (u "a") 20) 60 sample_log_clocked) as (opens & Hb & Ha);
    [vm_compute; reflexivity|].
  exists opens. split; [exact Hb|]. apply (Ha [] (call (u "a") 60020)); [|constructor|reflexivity|reflexivity].
  rewrite <- app_assoc. by apply sample_clocked.
Defined.

Lemma limiter_size_witness :
  size (windows (after 60000 sampleLog)) ≤ 3 + length sampleLog mod 1000 ∧ size (windows (after 60000 sampleLog)) = 2.
Proof.
  split; [|vm_compute; reflexivity].
  apply (limiter_size 60000); [lia|unfold clocked; cbn; repeat first [lia | constructor]|].
  intros t. unfold recent. apply (length_filter _ sampleLog).
Defined.

Lemma slots_bounded_witness :
  rtc (SlotStep (λ _, 1%Z)) noSlots (acquire (u "a") 1 noSlots).2 ∧
  (acquire (u "a") 1 (acquire (u "a") 1 noSlots).2).1 = Refused 1 ∧
  (live (u "a") (release 0 (acquire (u "a") 1 noSlots).2) = 1 - 1)%Z.
Proof.
  assert (rtc (SlotStep (λ _, 1%Z)) noSlots (acquire (u "a") 1 noSlots).2) as Hr
    by (apply rtc_once; exact (step_acquire (λ _, 1%Z) (u "a") noSlots)).
  split; [exact Hr|].
  pose proof (slots_bounded (λ _, 1%Z) _ (u "a") Hr) as (_ & _ & Hrefused & Hrel).
  split; [apply Hrefused; vm_compute; discriminate|]. by apply (Hrel 0).
Defined.
