(* ===== verification/RequestLimits.v ===== *)
(** How the API spends its limits: [createRateLimits] and [installLimits] of
    apps/api/src/limits.ts, the gate of apps/api/src/gate.ts, and the routes of
    apps/api/src/app.ts that spend a budget themselves.  The HTTP framework, the
    session reader and the procedures are parameters: which handler a method and path
    reach ([Routing]), what a session resolves to, and what a handler answers with. *)

From stdpp Require Import gmap sorting.
From S2P Require Import Prelude JsText MessageStore LimitsConfig RateLimits.

(** ** The accounting object *)

#[export] Instance UserActor_eq_dec : EqDecision UserActor.
Proof. solve_decision. Defined.

Record LimitPrincipal := { principalKey : jstr; isActor : bool }.

Definition actorPrincipal (actor : UserActor) : LimitPrincipal :=
  {| principalKey := u "actor:" ++ uaSpace actor ++ u ":" ++ uaUser actor; isActor := true |}.

Definition clientPrincipal (address : jstr) : LimitPrincipal :=
  {| principalKey := u "client:" ++ address; isActor := false |}.

Definition windowMs : Z := 60000.

Record LimitsState := { limiter : LimiterState; streams : SlotsState }.

Definition startState : LimitsState := {| limiter := emptyLimiter; streams := noSlots |}.

Definition budgetOf (config : LimitsConfig) (principal : LimitPrincipal) : PrincipalBudget :=
  if isActor principal then authenticated config else anonymous config.

(** The check [enforceRpc] makes. *)
Definition rpcCheck (config : LimitsConfig) (principal : LimitPrincipal) (now : Z) : Check :=
  {| ckBucket := if isActor principal then u "authenticated" else u "anonymous";
     ckKey := principalKey principal;
     ckBudget := requestsPerMinute (budgetOf config principal);
     ckAt := now |}.

Definition familyName (family : RouteFamily) : jstr :=
  match family with
  | probe => u "probe" | rpc => u "rpc" | webhook => u "webhook" | upload => u "upload" | fallback => u "fallback"
  end.

(** The check [enforceRoute] makes. *)
Definition routeCheck (config : LimitsConfig) (family : RouteFamily) (clientKey : jstr) (now : Z) : Check :=
  {| ckBucket := familyName family;
     ckKey := u "client:" ++ clientKey;
     ckBudget := match family with
                 | probe => probes config
                 | webhook => ingressPerMinute (webhooks config)
                 | upload => ingressPerMinute (uploads config)
                 | rpc | fallback => requestsPerMinute (anonymous config)
                 end;
     ckAt := now |}.

Definition enforce (c : Check) (st : LimitsState) : RateLimitOutcome * LimitsState :=
  let '(outcome, l) := check windowMs (limiter st) c in (outcome, {| limiter := l; streams := streams st |}).

Definition enforceRpc (config : LimitsConfig) (principal : LimitPrincipal) (now : Z) (st : LimitsState) :=
  enforce (rpcCheck config principal now) st.

Definition enforceRoute (config : LimitsConfig) (family : RouteFamily) (clientKey : jstr) (now : Z) (st : LimitsState) :=
  enforce (routeCheck config family clientKey now) st.

Definition acquireStream (config : LimitsConfig) (principal : LimitPrincipal) (st : LimitsState) :
    StreamSlotOutcome * LimitsState :=
  let '(outcome, s) := acquire (principalKey principal) (maxConcurrentStreams (budgetOf config principal)) (streams st) in
  (outcome, {| limiter := limiter st; streams := s |}).

(** ** Requests *)

(** The two implementers of the contract, and a procedure registered through one. *)
Inductive Realm := authenticatedRealm | publicRealm.

#[export] Instance Realm_eq_dec : EqDecision Realm.
Proof. solve_decision. Defined.

Record Procedure := { implementer : Realm; access : Realm }.

(** The handlers of [createApiApp] that read a session, and the others. *)
Inductive Handler := HandleRpc | HandleDownload | HandleUpload | HandleOther.

#[export] Instance Handler_eq_dec : EqDecision Handler.
Proof. solve_decision. Defined.

(** A request as the pipeline sees it: its line, the client's address, the declared
    body length, what [resolveActor] makes of its headers ([None] when it throws),
    the clock, the procedure an RPC path names, and the content type its handler
    answers with. *)
Record Request := {
  rqMethod : jstr;
  rqPath : jstr;
  rqClient : jstr;
  rqLength : option Z;
  rqSession : option (option UserActor);
  rqNow : Z;
  rqProcedure : option Procedure;
  rqContentType : option jstr;
}.

Inductive Answer :=
| TooManyRequests (retryAfterSeconds : Z)
| PayloadTooLarge
| InternalError
| Unauthorized
| NotFound
| Served (by_ : Handler)
| Streaming (by_ : Handler) (slot : nat)
| TooManyStreams (retryAfterSeconds : Z) (rpcEnvelope : bool).

(** Which handler the framework gives a method and a path. *)
Class Routing := routed : jstr → jstr → Handler.

(** The RPC handler has its subtree, the download every GET of one file, and no
    other path reaches either. *)
Class RoutingLaws (R : Routing) := {
  routed_rpc : ∀ m p, routed m p = HandleRpc ↔ under (u "/rpc") p;
  routed_get : ∀ p, isDownloadPath p → routed (u "GET") p = HandleDownload;
  routed_download : ∀ m p, routed m p = HandleDownload → isDownloadPath p;
}.

(** The principal of an opened procedure context. *)
Definition principalOf (client : jstr) (actor : option UserActor) : LimitPrincipal :=
  match actor with Some actor => actorPrincipal actor | None => clientPrincipal client end.

(** [contentType?.split(";", 1)[0]?.trim().toLowerCase() === "text/event-stream"]. *)
Definition isEventStream (contentType : option jstr) : bool :=
  match contentType with
  | Some value => bool_decide (toLowerCase (trim (default [] (head (split 59 value)))) = u "text/event-stream")
  | None => false
  end.

Section pipeline.
Context `{Routing} `{PatternPlatform}.
Variable config : LimitsConfig.

(** The access middleware of [authenticated] and of [publicOnly]. *)
Definition accessGate (procedure : Procedure) (actor : option UserActor) : option Answer :=
  match implementer procedure with
  | authenticatedRealm =>
      if negb (bool_decide (access procedure = authenticatedRealm)) then Some InternalError
      else match actor with None => Some Unauthorized | Some _ => None end
  | publicRealm =>
      if negb (bool_decide (access procedure = publicRealm)) then Some InternalError else None
  end.

(** The gate: [limited], and then the access middleware. *)
Definition gate (procedure : Procedure) (principal : LimitPrincipal) (actor : option UserActor) (now : Z)
    (st : LimitsState) : Answer * LimitsState :=
  match enforceRpc config principal now st with
  | (Limited retry, st) => (TooManyRequests retry, st)
  | (Allowed, st) => (default (Served HandleRpc) (accessGate procedure actor), st)
  end.

(** The [app.use] of the RPC prefix: the answer, and the principal it leaves on the
    context. *)
Definition handleRpc (rq : Request) (st : LimitsState) : Answer * option LimitPrincipal * LimitsState :=
  match rqSession rq with
  | None => (InternalError, None, st)
  | Some actor =>
      let principal := principalOf (rqClient rq) actor in
      match rqProcedure rq with
      | Some procedure =>
          let '(answer, st) := gate procedure principal actor (rqNow rq) st in (answer, Some principal, st)
      | None =>
          match enforceRoute config fallback (rqClient rq) (rqNow rq) st with
          | (Limited retry, st) => (TooManyRequests retry, None, st)
          | (Allowed, st) => (NotFound, None, st)
          end
      end
  end.

(** The file download: the session first, then the actor's budget. *)
Definition handleDownload (rq : Request) (st : LimitsState) : Answer * LimitsState :=
  match rqSession rq with
  | None => (InternalError, st)
  | Some None => (Unauthorized, st)
  | Some (Some actor) =>
      match enforceRpc config (actorPrincipal actor) (rqNow rq) st with
      | (Limited retry, st) => (TooManyRequests retry, st)
      | (Allowed, st) => (Served HandleDownload, st)
      end
  end.

Definition handleUpload (rq : Request) : Answer :=
  match rqSession rq with
  | None => InternalError
  | Some None => Unauthorized
  | Some (Some _) => Served HandleUpload
  end.

(** [await next()]: the body caps, and then the handler the path reaches. *)
Definition next (rq : Request) (st : LimitsState) : Answer * option LimitPrincipal * LimitsState :=
  if negb (default true (bodyAdmitted config apiRules (rqPath rq) <$> rqLength rq)) then (PayloadTooLarge, None, st)
  else match routed (rqMethod rq) (rqPath rq) with
       | HandleRpc => handleRpc rq st
       | HandleDownload => let '(answer, st) := handleDownload rq st in (answer, None, st)
       | HandleUpload => (handleUpload rq, None, st)
       | HandleOther => (Served HandleOther, None, st)
       end.

Definition familyOf (rq : Request) : RouteFamily := familyFor apiRules (rqMethod rq) (rqPath rq).

(** What the middleware does with the response: an event stream takes a slot. *)
Definition holdStream (rq : Request) (answer : Answer) (principal : option LimitPrincipal) (st : LimitsState) :
    Answer * LimitsState :=
  match answer with
  | Served by_ =>
      if negb (isEventStream (rqContentType rq)) then (answer, st)
      else match acquireStream config (default (clientPrincipal (rqClient rq)) principal) st with
           | (Refused retry, st) => (TooManyStreams retry (bool_decide (familyOf rq = rpc)), st)
           | (Opened slot, st) => (Streaming by_ slot, st)
           end
  | _ => (answer, st)
  end.

(** The middleware [installLimits] wraps every route in. *)
Definition limited (rq : Request) (st : LimitsState) : Answer * LimitsState :=
  match (if bool_decide (familyOf rq = rpc) then (Allowed, st)
         else enforceRoute config (familyOf rq) (rqClient rq) (rqNow rq) st) with
  | (Limited retry, st) => (TooManyRequests retry, st)
  | (Allowed, st) => let '(answer, principal, st) := next rq st in holdStream rq answer principal st
  end.

(** The API over a sequence of requests. *)
Fixpoint serve (st : LimitsState) (rqs : list Request) : list (Request * Answer) * LimitsState :=
  match rqs with
  | [] => ([], st)
  | rq :: rqs =>
      let '(answer, st) := limited rq st in
      let '(answers, st) := serve st rqs in ((rq, answer) :: answers, st)
  end.
End pipeline.

(** ** A held response body *)

(** What its reader gives a pull, and the two ways a held body is driven. *)
Inductive PullOutcome := PulledChunk | PulledEnd | PullFailed.
Inductive BodyEvent := Pull (outcome : PullOutcome) | CancelBody.

(** The closure of [withReleasedBody]: its [released] flag and the slots behind it. *)
Record HeldBody := { bodySlot : nat; released : bool; behind : SlotsState }.

Definition releaseOnce (b : HeldBody) : HeldBody :=
  if released b then b
  else {| bodySlot := bodySlot b; released := true; behind := release (bodySlot b) (behind b) |}.

Definition bodyEvent (b : HeldBody) (e : BodyEvent) : HeldBody :=
  match e with
  | Pull PulledChunk => b
  | Pull PulledEnd | Pull PullFailed | CancelBody => releaseOnce b
  end.

(** [withReleasedBody]: a response with no body releases its slot at once. *)
Definition withReleasedBody (hasBody : bool) (slot : nat) (st : SlotsState) : HeldBody :=
  if hasBody then {| bodySlot := slot; released := false; behind := st |}
  else {| bodySlot := slot; released := true; behind := release slot st |}.

(** ** What a request spends *)

(** The checks of a list up to the first refusal: those made, the refusal, and the
    limiter they leave. *)
Fixpoint spend (cs : list Check) (l : LimiterState) : list Check * option Z * LimiterState :=
  match cs with
  | [] => ([], None, l)
  | c :: cs =>
      match check windowMs l c with
      | (Limited retry, l) => ([c], Some retry, l)
      | (Allowed, l) => let '(made, refusal, l) := spend cs l in (c :: made, refusal, l)
      end
  end.

Section spending.
Context `{Routing} `{PatternPlatform}.
Variable config : LimitsConfig.

Definition tooLarge (rq : Request) : bool :=
  negb (default true (bodyAdmitted config apiRules (rqPath rq) <$> rqLength rq)).

(** The budget a handler draws. *)
Definition handlerCharge (rq : Request) : list Check :=
  match routed (rqMethod rq) (rqPath rq), rqSession rq with
  | HandleRpc, Some actor =>
      match rqProcedure rq with
      | Some _ => [rpcCheck config (principalOf (rqClient rq) actor) (rqNow rq)]
      | None => [routeCheck config fallback (rqClient rq) (rqNow rq)]
      end
  | HandleDownload, Some (Some actor) => [rpcCheck config (actorPrincipal actor) (rqNow rq)]
  | _, _ => []
  end.

(** Every check a request is put to, in order. *)
Definition charges (rq : Request) : list Check :=
  (if bool_decide (familyOf rq = rpc) then [] else [routeCheck config (familyOf rq) (rqClient rq) (rqNow rq)])
  ++ (if tooLarge rq then [] else handlerCharge rq).

Definition madeBy (rq : Request) (st : LimitsState) : list Check := (spend (charges rq) (limiter st)).1.1.
Definition refusalOf (rq : Request) (st : LimitsState) : option Z := (spend (charges rq) (limiter st)).1.2.

Definition refused (answer : Answer) : option Z :=
  match answer with TooManyRequests retry => Some retry | _ => None end.

Lemma spend_app cs cs' l :
  spend (cs ++ cs') l =
  match spend cs l with
  | (made, Some retry, l') => (made, Some retry, l')
  | (made, None, l') => let '(made', refusal, l'') := spend cs' l' in (made ++ made', refusal, l'')
  end.
Proof.
  revert l. induction cs as [|c cs IH]; intros l; simpl; [by destruct (spend cs' l) as [[??]?]|].
  destruct (check windowMs l c) as [[|retry] l']; [|done].
  rewrite IH. destruct (spend cs l') as [[made [retry|]] l'']; [done|]. by destruct (spend cs' l'') as [[??]?].
Qed.

Lemma holdStream_spends rq answer principal st :
  refused (holdStream config rq answer principal st).1 = refused answer ∧
  limiter (holdStream config rq answer principal st).2 = limiter st.
Proof.
  unfold holdStream. destruct answer; try done. destruct (negb _); [done|].
  unfold acquireStream. by destruct (acquire _ _ _) as [[] ?].
Qed.

Lemma next_spends rq st :
  spend (if tooLarge rq then [] else handlerCharge rq) (limiter st) =
  ((spend (if tooLarge rq then [] else handlerCharge rq) (limiter st)).1.1,
   refused (next config rq st).1.1, limiter (next config rq st).2).
Proof.
  unfold next, tooLarge. destruct (negb _); [done|]. unfold handlerCharge.
  destruct (routed _ _) eqn:Hr.
  - unfold handleRpc. destruct (rqSession rq) as [actor|]; [|done].
    destruct (rqProcedure rq) as [p|]; unfold gate, enforceRpc, enforceRoute, enforce; simpl;
      destruct (check windowMs (limiter st) _) as [[|retry] l]; simpl; try done.
    unfold accessGate. by destruct p as [[] []]; simpl; destruct actor.
  - unfold handleDownload, enforceRpc, enforce. destruct (rqSession rq) as [[actor|]|]; simpl; [|done..].
    by destruct (check windowMs (limiter st) _) as [[|retry] l].
  - unfold handleUpload. by destruct (rqSession rq) as [[actor|]|].
  - done.
Qed.

(** A request makes its checks up to the first refusal, answers a refusal with its
    wait, and answers no other way to one. *)
Lemma limited_spends rq st :
  spend (charges rq) (limiter st) = (madeBy rq st, refused (limited config rq st).1, limiter (limited config rq st).2).
Proof.
  unfold madeBy, charges. rewrite spend_app. unfold limited.
  destruct (bool_decide (familyOf rq = rpc)).
  - cbn [spend]. rewrite next_spends. destruct (next config rq st) as [[answer principal] st']. cbn [fst snd app].
    destruct (holdStream_spends rq answer principal st') as [-> ->]. done.
  - cbn [spend]. unfold enforceRoute, enforce.
    destruct (check windowMs (limiter st) (routeCheck config (familyOf rq) (rqClient rq) (rqNow rq))) as [[|retry] l]; [|done].
    pose proof (next_spends rq {| limiter := l; streams := streams st |}) as Hn. cbn [limiter] in Hn. rewrite Hn.
    destruct (next config rq _) as [[answer principal] st']. cbn [fst snd app].
    destruct (holdStream_spends rq answer principal st') as [-> ->]. done.
Qed.
End spending.

Section counting.
Context `{R : Routing} `{!RoutingLaws R} `{PatternPlatform}.
Variable config : LimitsConfig.

Lemma familyOf_rpc rq :
  familyOf rq = rpc ↔ under (u "/rpc") (rqPath rq) ∨ (rqMethod rq = u "GET" ∧ isDownloadPath (rqPath rq)).
Proof. apply familyFor_rpc. Qed.

(** A path the RPC family owns reaches the RPC handler or the download. *)
Lemma rpc_routed rq :
  familyOf rq = rpc →
  routed (rqMethod rq) (rqPath rq) = HandleRpc ∨
  (routed (rqMethod rq) (rqPath rq) = HandleDownload ∧ isDownloadPath (rqPath rq)).
Proof.
  intros [Hu|[Hm Hd]]%familyOf_rpc; [left; by apply routed_rpc|right]. split; [|done]. rewrite Hm. by apply routed_get.
Qed.

Lemma routed_family rq :
  routed (rqMethod rq) (rqPath rq) = HandleRpc ∨
  (routed (rqMethod rq) (rqPath rq) = HandleDownload ∧ rqMethod rq = u "GET") →
  familyOf rq = rpc.
Proof.
  intros [Hr|[Hr Hm]]; apply familyOf_rpc; [left; by apply (proj1 (routed_rpc _ _)) in Hr|right].
  split; [done|]. by eapply routed_download.
Qed.

Lemma handlerCharge_length rq : length (handlerCharge config rq) ≤ 1.
Proof. unfold handlerCharge. repeat case_match; simpl; lia. Qed.

Lemma charges_nil rq :
  charges config rq = [] ↔
  familyOf rq = rpc ∧
  (tooLarge config rq = true ∨ rqSession rq = None ∨ (isDownloadPath (rqPath rq) ∧ rqSession rq = Some None)).
Proof.
  unfold charges. case_bool_decide as Hf; [|split; [done|by intros [? _]]]. cbn [app].
  destruct (tooLarge config rq); [split; [by intros _; auto|done]|].
  destruct (rpc_routed rq Hf) as [Hr|[Hr Hd]]; unfold handlerCharge; rewrite Hr.
  - assert (¬ isDownloadPath (rqPath rq)) as Hnd.
    { intros Hd. pose proof (proj1 (routed_rpc _ _) Hr) as Hu. by apply (under_not_download (rqPath rq)). }
    destruct (rqSession rq) as [actor|]; [|split; [by auto|done]].
    destruct (rqProcedure rq); split; try done; intros [_ [?|[?|[??]]]]; done.
  - destruct (rqSession rq) as [[actor|]|]; split; try done; try (by intros [_ [?|[?|[??]]]]); auto.
Qed.

Lemma charges_length rq :
  length (charges config rq) ≤ 2 ∧ (rqMethod rq = u "GET" → length (charges config rq) ≤ 1).
Proof.
  pose proof (handlerCharge_length rq) as Hl. unfold charges. rewrite length_app.
  case_bool_decide as Hf; simpl; [destruct (tooLarge config rq); simpl; lia|].
  split; [destruct (tooLarge config rq); simpl; lia|]. intros Hg. destruct (tooLarge config rq); [simpl; lia|].
  assert (handlerCharge config rq = []) as ->; [|simpl; lia].
  unfold handlerCharge. destruct (routed _ _) eqn:Hr; try done; destruct Hf; apply routed_family; auto.
Qed.

Lemma spend_after cs l :
  (spend cs l).2 = foldl (λ l c, (check windowMs l c).2) l (spend cs l).1.1 ∧
  (spend cs l).1.1 `prefix_of` cs ∧ ((spend cs l).1.2 = None → (spend cs l).1.1 = cs).
Proof.
  revert l. induction cs as [|c cs IH]; intros l; [done|]. simpl.
  destruct (check windowMs l c) as [[|retry] l'] eqn:Hc; simpl.
  - specialize (IH l'). destruct (spend cs l') as [[made refusal] l'']. simpl in *. rewrite Hc.
    destruct IH as (-> & Hp & Hn). split_and!; [done|by apply prefix_cons|by intros ->%Hn].
  - rewrite Hc. split_and!; [done|apply prefix_cons, prefix_nil|done].
Qed.

(** Every request is put to its checks in order up to the first refusal, which is what
    a 429 answers; one that is not refused made them all. A request makes at most two,
    a GET at most one, and it makes none exactly when it is in the RPC family and its
    body is refused, its session cannot be read, or it downloads a file with no
    session. *)
Theorem request_charged rq st :
  let made := madeBy config rq st in
  limiter (limited config rq st).2 = foldl (λ l c, (check windowMs l c).2) (limiter st) made ∧
  made `prefix_of` charges config rq ∧
  (refused (limited config rq st).1 = None → made = charges config rq) ∧
  length (charges config rq) ≤ 2 ∧ (rqMethod rq = u "GET" → length (charges config rq) ≤ 1) ∧
  (charges config rq = [] ↔
   familyOf rq = rpc ∧
   (tooLarge config rq = true ∨ rqSession rq = None ∨ (isDownloadPath (rqPath rq) ∧ rqSession rq = Some None))).
Proof.
  pose proof (limited_spends config rq st) as Hs. destruct (spend_after (charges config rq) (limiter st)) as (Hl & Hp & Hn).
  rewrite Hs in Hl, Hn. cbn [fst snd] in *. split_and!; try done; [apply charges_length..|apply charges_nil].
Qed.
End counting.

(** ** An actor's budget over a sequence of requests *)

Section actor.
Context `{Routing} `{PatternPlatform}.
Variable config : LimitsConfig.

(** The checks a sequence of requests makes. *)
Fixpoint executed (st : LimitsState) (rqs : list Request) : list Check :=
  match rqs with
  | [] => []
  | rq :: rqs => madeBy config rq st ++ executed (limited config rq st).2 rqs
  end.

(** What the gate of a procedure or the download lets through. *)
Definition passed (answer : Answer) : bool :=
  match answer with
  | Served (HandleRpc | HandleDownload) | Streaming (HandleRpc | HandleDownload) _ => true
  | _ => false
  end.

(** When an actor's calls and downloads were served. *)
Definition servedAt (actor : UserActor) (answers : list (Request * Answer)) : list Z :=
  omap (λ ra, if decide (rqSession ra.1 = Some (Some actor)) then
                if passed ra.2 then Some (rqNow ra.1) else None
              else None) answers.

Definition actorKey (actor : UserActor) : jstr := counterKey (u "authenticated") (principalKey (actorPrincipal actor)).

Definition admitted (k : jstr) (answers : list (Check * RateLimitOutcome)) : list Z :=
  omap (λ p, if decide (keyOf p.1 = k ∧ p.2 = Allowed) then Some (ckAt p.1) else None) answers.

Lemma answers_app l cs cs' :
  answers windowMs l (cs ++ cs') =
  answers windowMs l cs ++ answers windowMs (foldl (λ l c, (check windowMs l c).2) l cs) cs'.
Proof. revert l. induction cs as [|c cs IH]; intros l; simpl; [done|]. by rewrite IH. Qed.

(** An unrefused list of checks admits each of them. *)
Lemma spend_admits cs l c :
  (spend cs l).1.2 = None → c ∈ cs → ckAt c ∈ admitted (keyOf c) (answers windowMs l cs).
Proof.
  revert l. induction cs as [|d cs IH]; intros l; [set_solver|]. simpl.
  destruct (check windowMs l d) as [[|retry] l'] eqn:Hd; [|done].
  destruct (spend cs l') as [[made refusal] l''] eqn:Hs. cbn [fst snd]. intros Hr Hc.
  unfold admitted. cbn [omap list_omap fst snd].
  apply elem_of_cons in Hc as [->|Hc].
  - rewrite decide_True by done. left.
  - specialize (IH l'). rewrite Hs in IH. specialize (IH Hr Hc). unfold admitted in IH.
    case_match; [by right|done].
Qed.

Lemma passed_charge rq st actor :
  rqSession rq = Some (Some actor) → passed (limited config rq st).1 = true →
  rpcCheck config (actorPrincipal actor) (rqNow rq) ∈ charges config rq ∧ refused (limited config rq st).1 = None.
Proof.
  intros Hs Hp. split; [|by destruct (limited config rq st).1 as [| | | | |[]|[] ?|]].
  revert Hp. unfold limited, charges, tooLarge.
  destruct (if bool_decide _ then _ else _) as [[|retry] st']; [|done]. unfold next, handlerCharge.
  destruct (negb _); [done|]. rewrite Hs. destruct (routed _ _).
  - unfold handleRpc. rewrite Hs. destruct (rqProcedure rq) as [p|]; [set_solver|].
    by destruct (enforceRoute _ _ _ _ _) as [[] ?].
  - set_solver.
  - unfold handleUpload. rewrite Hs. unfold holdStream. destruct (negb _); [done|]. by destruct (acquireStream _ _ _) as [[] ?].
  - unfold holdStream. destruct (negb _); [done|]. by destruct (acquireStream _ _ _) as [[] ?].
Qed.

Lemma rpcCheck_key actor now : keyOf (rpcCheck config (actorPrincipal actor) now) = actorKey actor.
Proof. done. Qed.

Lemma served_admitted actor st rqs :
  servedAt actor (serve config st rqs).1 `sublist_of`
  admitted (actorKey actor) (answers windowMs (limiter st) (executed st rqs)).
Proof.
  revert st. induction rqs as [|rq rqs IH]; intros st; [done|]. cbn [serve executed].
  pose proof (limited_spends config rq st) as Hs.
  destruct (spend_after (charges config rq) (limiter st)) as (Hl & _ & Hn). rewrite Hs in Hl, Hn. cbn [fst snd] in Hl, Hn.
  destruct (limited config rq st) as [answer st'] eqn:Ha. cbn [fst snd] in *. specialize (IH st').
  destruct (serve config st' rqs) as [rest st'']. cbn [fst snd] in *.
  rewrite answers_app, <- Hl. unfold admitted. rewrite omap_app. fold (admitted (actorKey actor)).
  unfold servedAt. cbn [omap list_omap fst snd]. fold (servedAt actor).
  destruct (decide (rqSession rq = Some (Some actor))) as [Hses|]; [|by apply sublist_inserts_l].
  destruct (passed answer) eqn:Hp; [|by apply sublist_inserts_l].
  pose proof (passed_charge rq st actor Hses) as Hc. rewrite Ha in Hc. destruct (Hc Hp) as [Hin Href]. cbn [fst] in Href.
  specialize (Hn Href). rewrite Hn.
  assert (rqNow rq ∈ admitted (actorKey actor) (answers windowMs (limiter st) (charges config rq))) as Hadm.
  { rewrite <- (rpcCheck_key actor (rqNow rq)). apply (spend_admits _ _ (rpcCheck config (actorPrincipal actor) (rqNow rq))); [|done].
    by rewrite Hs. }
  apply list_elem_of_split in Hadm as (l1 & l2 & E). unfold admitted in E. rewrite E.
  rewrite <- app_assoc. apply sublist_inserts_l. simpl. apply sublist_skip, sublist_inserts_l, IH.
Qed.

Lemma absent (x : N) (l : list N) : negb (existsb (N.eqb x) l) = true → x ∉ l.
Proof.
  intros Hn Hx. apply negb_true_iff in Hn. rewrite existsb_false in Hn. specialize (Hn x Hx).
  by rewrite N.eqb_refl in Hn.
Qed.

Lemma charges_check rq c :
  c ∈ charges config rq →
  ckAt c = rqNow rq ∧ 0%N ∉ ckBucket c ∧
  (ckBucket c = u "authenticated" → ckBudget c = requestsPerMinute (authenticated config)).
Proof.
  assert (Hroute : ∀ family, let c := routeCheck config family (rqClient rq) (rqNow rq) in
    ckAt c = rqNow rq ∧ 0%N ∉ ckBucket c ∧
    (ckBucket c = u "authenticated" → ckBudget c = requestsPerMinute (authenticated config))).
  { intros family. cbv zeta. split_and!; [done| |by destruct family].
    cbn [ckBucket routeCheck]. apply absent. by destruct family. }
  assert (Hrpc : ∀ principal, let c := rpcCheck config principal (rqNow rq) in
    ckAt c = rqNow rq ∧ 0%N ∉ ckBucket c ∧
    (ckBucket c = u "authenticated" → ckBudget c = requestsPerMinute (authenticated config))).
  { intros [k []]; cbv zeta; split_and!; try done; by apply absent. }
  unfold charges, handlerCharge. intros [Hc|Hc]%elem_of_app.
  - case_bool_decide; [by apply elem_of_nil in Hc|]. apply list_elem_of_singleton in Hc as ->. apply Hroute.
  - repeat case_match; try (by apply elem_of_nil in Hc); apply list_elem_of_singleton in Hc as ->;
      first [apply Hroute | apply Hrpc].
Qed.

Lemma madeBy_charges rq st c : c ∈ madeBy config rq st → c ∈ charges config rq.
Proof.
  intros Hc. destruct (spend_after (charges config rq) (limiter st)) as (_ & [rest E] & _). rewrite E.
  apply elem_of_app. by left.
Qed.

Lemma executed_charges st rqs c : c ∈ executed st rqs → ∃ rq, rq ∈ rqs ∧ c ∈ charges config rq.
Proof.
  revert st. induction rqs as [|rq rqs IH]; intros st; [by intros ?%elem_of_nil|].
  intros [Hc%madeBy_charges|(rq' & ? & ?)%IH]%elem_of_app; [exists rq|exists rq']; split; (done || by constructor).
Qed.

Lemma executed_clocked st rqs : StronglySorted Z.le (rqNow <$> rqs) → clocked (executed st rqs).
Proof.
  unfold clocked. revert st. induction rqs as [|rq rqs IH]; intros st; [constructor|].
  intros [Hs Hf]%StronglySorted_inv. cbn [executed]. rewrite fmap_app.
  assert (Forall (λ c, ckAt c = rqNow rq) (madeBy config rq st)) as Hmade
    by (apply Forall_forall; intros c Hc%madeBy_charges%charges_check; tauto).
  specialize (IH (limited config rq st).2 Hs).
  assert (Hlater : ∀ z, z ∈ ckAt <$> executed (limited config rq st).2 rqs → (rqNow rq ≤ z)%Z).
  { intros z (c & -> & (rq' & Hrq & [-> _]%charges_check)%executed_charges)%list_elem_of_fmap.
    rewrite Forall_forall in Hf. apply Hf. by apply list_elem_of_fmap_2. }
  induction Hmade as [|c made Hc Hmade IHm]; [done|]. cbn. constructor; [done|]. rewrite Hc.
  apply Forall_app. split; [|by apply Forall_forall].
  apply Forall_fmap. eapply Forall_impl; [exact Hmade|]. cbn. intros d ->. lia.
Qed.

End actor.

(** ** The gate *)

(** A procedure runs exactly when its caller is within budget, it was registered
    through the implementer of its access marker, and, unless it is public, there is
    an actor; the budget is spent before the access decision, so a caller over it is
    told to wait and not whether it may call. *)
Theorem gate_exact config procedure principal actor now st :
  let outcome := (check windowMs (limiter st) (rpcCheck config principal now)).1 in
  let answer := (gate config procedure principal actor now st).1 in
  (answer = Served HandleRpc ↔
   outcome = Allowed ∧ implementer procedure = access procedure ∧
   (access procedure = authenticatedRealm → is_Some actor)) ∧
  (answer = Unauthorized ↔
   outcome = Allowed ∧ implementer procedure = authenticatedRealm ∧ access procedure = authenticatedRealm ∧ actor = None) ∧
  (∀ retry, answer = TooManyRequests retry ↔ outcome = Limited retry) ∧
  limiter (gate config procedure principal actor now st).2 = (check windowMs (limiter st) (rpcCheck config principal now)).2.
Proof.
  unfold gate, enforceRpc, enforce, accessGate. destruct (check _ _ _) as [[|retry] l]; cbn [fst snd limiter].
  - destruct procedure as [[] []]; destruct actor as [actor|]; cbn; split_and!; naive_solver.
  - split_and!; naive_solver.
Qed.

(** ** A held body frees its slot *)

Definition endsBody (e : BodyEvent) : bool := match e with Pull PulledChunk => false | _ => true end.

Lemma heldBody_events b events :
  let b' := foldl bodyEvent b events in
  bodySlot b' = bodySlot b ∧ released b' = released b || existsb endsBody events ∧
  behind b' = if negb (released b) && existsb endsBody events then release (bodySlot b) (behind b) else behind b.
Proof.
  revert b. induction events as [|e events IH]; intros b; simpl; [by rewrite orb_false_r, andb_false_r|].
  destruct (IH (bodyEvent b e)) as (-> & -> & ->).
  destruct b as [slot [] st], e as [[]|]; simpl; by rewrite ?orb_true_r.
Qed.

(** A response that holds a slot gives it back exactly once, when its body ends, fails
    or is cancelled, however many of these happen, and at once when it has no body;
    until then it holds it. *)
Theorem stream_slot_freed key slot hasBody events st :
  slots st !! slot = Some (key, false) →
  let b := foldl bodyEvent (withReleasedBody hasBody slot st) events in
  let ended := negb hasBody || existsb endsBody events in
  released b = ended ∧ behind b = (if ended then release slot st else st) ∧
  live key (behind b) = (live key st - if ended then 1 else 0)%Z.
Proof.
  intros Hs b ended.
  assert (released b = ended ∧ behind b = if ended then release slot st else st) as [-> ->].
  { unfold b. destruct (heldBody_events (withReleasedBody hasBody slot st) events) as (_ & -> & ->).
    unfold ended. by destruct hasBody. }
  split_and!; [done|done|]. destruct ended; [|lia]. unfold release. rewrite Hs, (live_release _ _ _ _ _ Hs).
  by rewrite decide_True.
Qed.

(** ** A sample service *)

(** The register's own patterns, as the framework's routing. *)
Definition ruleRouting : Routing := λ method' path',
  if bool_decide (path' = u "/rpc") || startsWith (u "/rpc/") path' then HandleRpc
  else if bool_decide (method' = u "GET") && pathMatches fileDownloadRoutePath path' then HandleDownload
  else if bool_decide (method' = u "POST") && pathMatches attachmentUploadRoutePath path' then HandleUpload
  else HandleOther.

#[export] Instance ruleRouting_laws : RoutingLaws ruleRouting.
Proof.
  assert (Hu : ∀ p, bool_decide (p = u "/rpc") || startsWith (u "/rpc/") p = true ↔ under (u "/rpc") p).
  { intros p. rewrite orb_true_iff, bool_decide_eq_true, startsWith_spec. unfold under. naive_solver. }
  split; unfold routed, ruleRouting.
  - intros m p. rewrite <- Hu. destruct (_ || _); [done|]. by repeat case_match.
  - intros p Hd. destruct (_ || _) eqn:E; [by apply Hu, under_not_download in E|].
    by rewrite (proj2 (rule_download p) Hd).
  - intros m p. destruct (_ || _); [done|]. destruct (bool_decide (m = u "GET")); simpl.
    + destruct (pathMatches fileDownloadRoutePath p) eqn:E; [by intros _; apply rule_download|].
      by destruct (_ && _).
    + by destruct (_ && _).
Qed.

Definition sampleActor : UserActor := {| uaSpace := u "s1"; uaUser := u "u1" |}.

Definition request (method' path' : jstr) (session : option (option UserActor)) (now : Z) : Request := {|
  rqMethod := method'; rqPath := path'; rqClient := u "10.0.0.1"; rqLength := None; rqSession := session;
  rqNow := now; rqProcedure := Some {| implementer := authenticatedRealm; access := authenticatedRealm |};
  rqContentType := None |}.

Definition oneCall : LimitsConfig := resolveLimits {|
  oAuthenticated := {| oRequests := Some 1%Z; oStreams := None; oBody := None |};
  oAnonymous := {| oRequests := None; oStreams := None; oBody := None |};
  oWebhook := {| oIngress := None; oIngressBody := None |};
  oUpload := {| oIngress := None; oIngressBody := None |};
  oProbe := None |}.


Lemma request_charged_witness :
  @charges ruleRouting ruleCovers oneCall (request (u "GET") (u "/files/f1") (Some None) 0) = [] ∧
  limiter (@limited ruleRouting ruleCovers oneCall (request (u "GET") (u "/files/f1") (Some None) 0) startState).2 = emptyLimiter.
Proof.
  pose proof (@request_charged ruleRouting _ ruleCovers oneCall (request (u "GET") (u "/files/f1") (Some None) 0) startState)
    as (Hl & _ & _ & _ & _ & Hnil).
  split; [apply Hnil; vm_compute|exact Hl].
  split; [reflexivity|]. right. right. split; [|reflexivity]. exists (u "f1"). split; [|reflexivity].
  split; [done|repeat constructor].
Defined.

Lemma stream_slot_freed_witness :
  slots (acquire (u "client:a") 1 noSlots).2 !! 0 = Some (u "client:a", false) ∧
  live (u "client:a") (behind (foldl bodyEvent (withReleasedBody true 0 (acquire (u "client:a") 1 noSlots).2)
    [Pull PulledChunk; Pull PulledEnd; CancelBody])) = 0%Z.
Proof.
  split; [vm_compute; reflexivity|].
  destruct (stream_slot_freed (u "client:a") 0 true [Pull PulledChunk; Pull PulledEnd; CancelBody]
              (acquire (u "client:a") 1 noSlots).2 eq_refl) as (_ & _ & ->).
  vm_compute. reflexivity.
Defined.
