(* ===== verification/BackupPolicy.v ===== *)
(** Backup cadence, retention, alerts and the key envelope's shape:
    packages/core/src/backup-policy.ts.  A [Date] is its time value, [None] when
    invalid; [Date.parse] is a parameter.  Differences of two instants are exact, as
    they are on doubles for any two dates less than 2^53 milliseconds apart. *)

From stdpp Require Import pretty.
From S2P Require Import Prelude JsText JsValue Bytes JsonText Calendar.
From Stdlib Require Import ZifyN ZifyNat ZifyBool.

(** ** Vocabularies and keys *)

Inductive BackupRunStatus := br_running | br_succeeded | br_failed.
Inductive BackupAlertKind := backup_missed | backup_failed | backup_stalled | drill_missed | drill_failed.

#[export] Instance BackupRunStatus_eq_dec : EqDecision BackupRunStatus.
Proof. solve_decision. Defined.
#[export] Instance BackupAlertKind_eq_dec : EqDecision BackupAlertKind.
Proof. solve_decision. Defined.

Definition BACKUP_OBJECT_PREFIX : jstr := u "backups".

Definition backupPostgresKey (runId : jstr) : jstr := BACKUP_OBJECT_PREFIX ++ u "/postgres/" ++ runId ++ u ".dump.enc".

Definition backupHomesKey (runId sourceKey : jstr) : jstr :=
  BACKUP_OBJECT_PREFIX ++ u "/homes/" ++ runId ++ u "/" ++ sourceKey ++ u ".enc".

(** [[0-9a-f-]]. *)
Definition isRunIdChar (c : N) : bool := isDigit c || ((97 <=? c) && (c <=? 102))%N || (c =? 45)%N.

(** [([0-9a-f-]{36})(?:\.|\/|$)]. *)
Definition matchRunId (rest : jstr) : option jstr :=
  let id := take 36 rest in
  if (length id =? 36)%nat && forallb isRunIdChar id then
    match drop 36 rest with
    | [] => Some id
    | c :: _ => if ((c =? 46) || (c =? 47))%N then Some id else None
    end
  else None.

Definition backupRunIdFromKey (key : jstr) : option jstr :=
  if startsWith (u "backups/postgres/") key then matchRunId (drop 17 key)
  else if startsWith (u "backups/homes/") key then matchRunId (drop 14 key)
  else None.

(** ** Due runs *)

(** What is thrown: a [RangeError] for an argument, by the argument it names. *)
Inductive BackupRangeError :=
| BadSchedule
| BadInstant (label : jstr)
| BadDrillInterval
| BadRetentionWindow
| BadLastModified (key : jstr)
| BadDuration (label : jstr)
| BadIsoDate.

Abbreviation date := (option Z).

Definition MAX_TIME : Z := 8640000000000000.

(** [TimeClip]. *)
Definition timeClip (ms : Z) : date := if (Z.abs ms <=? MAX_TIME)%Z then Some ms else None.

Record NightlyBackupSchedule := { hourUtc : jsnum; minuteUtc : jsnum }.

Definition DEFAULT_BACKUP_SCHEDULE : NightlyBackupSchedule := {| hourUtc := NInt 3; minuteUtc := NInt 0 |}.

Definition inRange (lo hi : Z) (n : jsnum) : option Z :=
  z ← integerOf n; if (lo <=? z)%Z && (z <=? hi)%Z then Some z else None.

Definition assertSchedule (schedule : NightlyBackupSchedule) : result BackupRangeError (Z * Z) :=
  match inRange 0 23 (hourUtc schedule), inRange 0 59 (minuteUtc schedule) with
  | Some h, Some m => Ok (h, m)
  | _, _ => Err BadSchedule
  end.

Definition assertInstant (instant : date) (label : jstr) : result BackupRangeError Z :=
  match instant with Some ms => Ok ms | None => Err (BadInstant label) end.

(** [Date.UTC] reads the years 0 to 99 as 1900 to 1999. *)
Definition fullYear (y : Z) : Z := if (0 <=? y)%Z && (y <=? 99)%Z then (1900 + y)%Z else y.

Definition nextBackupAt (after : date) (schedule : NightlyBackupSchedule) : result BackupRangeError date :=
  '(hour, minute) ← assertSchedule schedule;
  afterMs ← assertInstant after (u "the backup cursor");
  let '(year, month, day) := civilOfDay (afterMs / DAY_MS) in
  Ok (candidate ← timeClip (dateUTC (fullYear year) month day hour minute);
      timeClip (if (afterMs <? candidate)%Z then candidate else candidate + 24 * 60 * 60 * 1000)%Z).

Definition isBackupDue (now : date) (lastAttemptAt : option date) (schedule : NightlyBackupSchedule) :
    result BackupRangeError bool :=
  nowMs ← assertInstant now (u "the backup clock");
  match lastAttemptAt with
  | None => Ok true
  | Some last =>
      next ← nextBackupAt last schedule;
      Ok (match next with Some t => (t <=? nowMs)%Z | None => false end)
  end.

Record DrillDueInput := {
  ddNow : date; ddLastDrillAt : option date; ddLastBackupAt : option date; ddIntervalDays : option jsnum }.

Definition isDrillDue (input : DrillDueInput) : result BackupRangeError bool :=
  match integerOf (default (NInt 30) (ddIntervalDays input)) with
  | None => Err BadDrillInterval
  | Some days =>
      if (days <? 1)%Z then Err BadDrillInterval
      else match ddLastBackupAt input, ddLastDrillAt input with
           | None, _ => Ok false
           | Some _, None => Ok true
           | Some _, Some drill =>
               lastDrillMs ← assertInstant drill (u "the last drill");
               nowMs ← assertInstant (ddNow input) (u "the drill clock");
               Ok (days * 24 * 60 * 60 * 1000 <=? nowMs - lastDrillMs)%Z
           end
  end.

(** ** Retention *)

Record BackupObjectAge := { key : jstr; lastModified : jstr }.

Record RetentionInput := { riNow : date; retentionDays : jsnum; protect : option (list jstr) }.

Section retention.
Variable dateParse : jstr → date.

Fixpoint selectExpired (cutoffMs : Z) (protectedKeys : list jstr) (objects : list BackupObjectAge) :
    result BackupRangeError (list jstr) :=
  match objects with
  | [] => Ok []
  | object :: rest =>
      match dateParse (lastModified object) with
      | None => Err (BadLastModified (key object))
      | Some modifiedMs =>
          expired ← selectExpired cutoffMs protectedKeys rest;
          Ok (if (modifiedMs <? cutoffMs)%Z && negb (bool_decide (key object ∈ protectedKeys))
              then key object :: expired else expired)
      end
  end.

Definition selectExpiredBackupKeys (objects : list BackupObjectAge) (input : RetentionInput) :
    result BackupRangeError (list jstr) :=
  match integerOf (retentionDays input) with
  | None => Err BadRetentionWindow
  | Some days =>
      if (days <? 1)%Z then Err BadRetentionWindow
      else
        nowMs ← assertInstant (riNow input) (u "the retention clock");
        selectExpired (nowMs - days * 24 * 60 * 60 * 1000) (default [] (protect input)) objects
  end.
End retention.

(** ** Alerts *)

Record BackupAlertRun := { status : BackupRunStatus; startedAt : date }.

Record BackupAlertInput := {
  aiNow : date;
  lastRun : option BackupAlertRun;
  lastSuccessAt : option date;
  lastDrillAt : option date;
  lastDrillRun : option BackupAlertRun;
  stalenessMs : option jsnum;
  drillStalenessMs : option jsnum;
  runTimeoutMs : option jsnum;
}.

Record BackupAlert := { kind : BackupAlertKind; episode : jstr }.

Definition DEFAULT_STALENESS_MS : Z := 36 * 60 * 60 * 1000.
Definition DEFAULT_DRILL_STALENESS_MS : Z := 45 * 24 * 60 * 60 * 1000.
Definition DEFAULT_RUN_TIMEOUT_MS : Z := 6 * 60 * 60 * 1000.

(** [Number.isFinite(value) && value > 0]. *)
Definition isPositive (value : jsnum) : bool :=
  match value with NInt z => (0 <? z)%Z | NFrac m _ => (0 <? m)%Z | NNaN | NInfinity _ => false end.

Definition positive (value : jsnum) (label : jstr) : result BackupRangeError jsnum :=
  if isPositive value then Ok value else Err (BadDuration label).

(** [ms > value] for a duration. *)
Definition exceeds (ms : Z) (value : jsnum) : bool :=
  match value with
  | NInt z => (z <? ms)%Z
  | NFrac m k => (m <? ms * 2 ^ Zpos k)%Z
  | NInfinity negative => negative
  | NNaN => false
  end.

Definition isoOf (d : date) : result BackupRangeError jstr :=
  match d with Some ms => Ok (toISOString ms) | None => Err BadIsoDate end.

Definition openRunAlert (run : option BackupAlertRun) (kind : BackupAlertKind) (nowMs : Z) (timeoutMs : jsnum) :
    result BackupRangeError (list BackupAlert) :=
  match run with
  | None => Ok []
  | Some run =>
      if negb (bool_decide (status run = br_running)) then Ok []
      else
        started ← assertInstant (startedAt run) (u "the run's start");
        if negb (exceeds (nowMs - started) timeoutMs) then Ok []
        else iso ← isoOf (startedAt run); Ok [{| kind := kind; episode := iso |}]
  end.

(** The alert of a failed run, or else of one open too long. *)
Definition runAlert (run : option BackupAlertRun) (failed stalled : BackupAlertKind) (nowMs : Z) (timeoutMs : jsnum) :
    result BackupRangeError (list BackupAlert) :=
  match run with
  | Some r =>
      if bool_decide (status r = br_failed) then
        iso ← isoOf (startedAt r); Ok [{| kind := failed; episode := iso |}]
      else openRunAlert run stalled nowMs timeoutMs
  | None => openRunAlert run stalled nowMs timeoutMs
  end.

Definition instantOrNull (d : option date) (label : jstr) : result BackupRangeError (option Z) :=
  match d with None => Ok None | Some d => Some <$> assertInstant d label end.

Definition decideBackupAlerts (input : BackupAlertInput) : result BackupRangeError (list BackupAlert) :=
  nowMs ← assertInstant (aiNow input) (u "the alert clock");
  staleness ← positive (default (NInt DEFAULT_STALENESS_MS) (stalenessMs input)) (u "the staleness window");
  drillStaleness ← positive (default (NInt DEFAULT_DRILL_STALENESS_MS) (drillStalenessMs input))
                     (u "the drill staleness window");
  runTimeout ← positive (default (NInt DEFAULT_RUN_TIMEOUT_MS) (runTimeoutMs input)) (u "the run timeout");
  backup ← runAlert (lastRun input) backup_failed backup_stalled nowMs runTimeout;
  lastSuccessMs ← instantOrNull (lastSuccessAt input) (u "the last success");
  let missed := match lastSuccessMs with
                | None => [{| kind := backup_missed; episode := u "never" |}]
                | Some success =>
                    if exceeds (nowMs - success) staleness
                    then [{| kind := backup_missed; episode := toISOString success |}] else []
                end in
  lastDrillMs ← instantOrNull (lastDrillAt input) (u "the last drill");
  drill ← runAlert (lastDrillRun input) drill_failed drill_failed nowMs runTimeout;
  let drillMissed := match lastDrillMs, lastSuccessMs with
                     | None, Some success =>
                         if exceeds (nowMs - success) drillStaleness
                         then [{| kind := drill_missed; episode := toISOString success |}] else []
                     | None, None => []
                     | Some last, _ =>
                         if exceeds (nowMs - last) drillStaleness
                         then [{| kind := drill_missed; episode := toISOString last |}] else []
                     end in
  Ok (backup ++ missed ++ drill ++ drillMissed).

(** ** The key envelope *)

Definition BACKUP_ENVELOPE_VERSION : jstr := u "v1".

Record BackupEnvelopeKdf := { salt : jstr; n : Z; r : Z; p : Z; keyLength : Z }.

(** The fixed version, KDF name and cipher of [BackupKeyEnvelope] are not fields. *)
Record BackupKeyEnvelope := {
  kdf : BackupEnvelopeKdf; iv : jstr; authTag : jstr; ciphertext : jstr }.

Inductive BackupEnvelopeError :=
| env_not_object | env_version | env_kdf_not_object | env_kdf_name
| env_kdf_number (field : jstr) | env_key_length | env_cipher | env_base64 (field : jstr).

(** [/^[A-Za-z0-9_-]+$/]. *)
Definition base64urlText (value : jsval) (field : jstr) : result BackupEnvelopeError jstr :=
  match value with
  | JString s => if negb (strlen s =? 0)%Z && forallb isBase64Url s then Ok s else Err (env_base64 field)
  | _ => Err (env_base64 field)
  end.

Definition positiveWhole (value : jsval) (field : jstr) : result BackupEnvelopeError Z :=
  match asNumber value ≫= integerOf with
  | Some z => if (z <? 1)%Z then Err (env_kdf_number field) else Ok z
  | None => Err (env_kdf_number field)
  end.

Definition textIs (value : jsval) (s : jstr) : bool :=
  match value with JString t => bool_decide (t = s) | _ => false end.

Definition parseBackupKeyEnvelope (value : jsval) : result BackupEnvelopeError BackupKeyEnvelope :=
  match asRecord value with
  | None => Err env_not_object
  | Some record =>
      if negb (textIs (getField (u "version") record) BACKUP_ENVELOPE_VERSION) then Err env_version
      else match asRecord (getField (u "kdf") record) with
           | None => Err env_kdf_not_object
           | Some kdf =>
               if negb (textIs (getField (u "name") kdf) (u "scrypt")) then Err env_kdf_name
               else
                 n ← positiveWhole (getField (u "n") kdf) (u "n");
                 r ← positiveWhole (getField (u "r") kdf) (u "r");
                 p ← positiveWhole (getField (u "p") kdf) (u "p");
                 keyLength ← positiveWhole (getField (u "keyLength") kdf) (u "keyLength");
                 if negb (keyLength =? 32)%Z then Err env_key_length
                 else if negb (textIs (getField (u "cipher") record) (u "aes-256-gcm")) then Err env_cipher
                 else
                   salt ← base64urlText (getField (u "salt") kdf) (u "kdf.salt");
                   iv ← base64urlText (getField (u "iv") record) (u "iv");
                   authTag ← base64urlText (getField (u "authTag") record) (u "authTag");
                   ciphertext ← base64urlText (getField (u "ciphertext") record) (u "ciphertext");
                   Ok {| kdf := {| salt := salt; n := n; r := r; p := p; keyLength := 32 |};
                         iv := iv; authTag := authTag; ciphertext := ciphertext |}
           end
  end.

(** The object [JSON.stringify] writes, the ciphertext and the tag left out. *)
Definition kdfRecord (k : BackupEnvelopeKdf) : written :=
  WRecord [(u "name", WString (u "scrypt")); (u "salt", WString (salt k)); (u "n", WInt (n k)); (u "r", WInt (r k));
           (u "p", WInt (p k)); (u "keyLength", WInt (keyLength k))].

Definition aadRecord (envelope : BackupKeyEnvelope) : written :=
  WRecord [(u "version", WString BACKUP_ENVELOPE_VERSION); (u "kdf", kdfRecord (kdf envelope));
           (u "cipher", WString (u "aes-256-gcm")); (u "iv", WString (iv envelope))].

(** Costs below 10^21 are written in digits; scrypt refuses a larger one. *)
Definition backupEnvelopeAad (envelope : BackupKeyEnvelope) : jstr := jsonText (aadRecord envelope).

(** ** Object keys *)

Lemma startsWith_app p s : startsWith p (p ++ s) = true.
Proof. apply startsWith_spec. by exists s. Qed.

Lemma matchRunId_own id c rest :
  length id = 36 → forallb isRunIdChar id = true → (c = 46 ∨ c = 47)%N → matchRunId (id ++ c :: rest) = Some id.
Proof.
  intros Hl Hid Hc. unfold matchRunId. rewrite <- Hl, take_app_length, drop_app_length, Hl, Hid. simpl.
  by destruct Hc as [-> | ->].
Qed.

Lemma matchRunId_some rest id :
  matchRunId rest = Some id →
  length id = 36 ∧ forallb isRunIdChar id = true ∧
  ∃ tail, rest = id ++ tail ∧ (tail = [] ∨ ∃ c t, tail = c :: t ∧ (c = 46 ∨ c = 47)%N).
Proof.
  unfold matchRunId. destruct (_ && _) eqn:E; [|done]. apply andb_true_iff in E as [El Ef]. apply Nat.eqb_eq in El.
  intros H. assert (id = take 36 rest ∧ (drop 36 rest = [] ∨ ∃ c t, drop 36 rest = c :: t ∧ (c = 46 ∨ c = 47)%N)) as [-> Ht].
  { destruct (drop 36 rest) as [|c t]; [by injection H as <-; auto|].
    destruct ((c =? 46) || (c =? 47))%N eqn:Ec; [|done]. injection H as <-. split; [done|]. right. exists c, t. split; [done|]. lia. }
  split_and!; [done..|]. exists (drop 36 rest). by rewrite take_drop.
Qed.

(** A key names the run it was written for, and a key that names a run is under its
    prefix: the id is 36 characters of the alphabet, ended by the key's own end, a dot
    or a slash. *)
Theorem backup_key_roundtrip :
  (∀ id source, length id = 36 → forallb isRunIdChar id = true →
     backupRunIdFromKey (backupPostgresKey id) = Some id ∧ backupRunIdFromKey (backupHomesKey id source) = Some id) ∧
  (∀ k id, backupRunIdFromKey k = Some id →
     length id = 36 ∧ forallb isRunIdChar id = true ∧
     ∃ folder tail, (folder = u "postgres" ∨ folder = u "homes") ∧
       k = BACKUP_OBJECT_PREFIX ++ u "/" ++ folder ++ u "/" ++ id ++ tail ∧
       (tail = [] ∨ ∃ c t, tail = c :: t ∧ (c = 46 ∨ c = 47)%N)).
Proof.
  split.
  - intros id source Hl Hid. unfold backupRunIdFromKey. split.
    + change (backupPostgresKey id) with (u "backups/postgres/" ++ id ++ u ".dump.enc").
      rewrite startsWith_app. change (drop 17 _) with (id ++ u ".dump.enc"). apply matchRunId_own; auto.
    + change (backupHomesKey id source) with (u "backups/homes/" ++ id ++ u "/" ++ source ++ u ".enc").
      change (startsWith (u "backups/postgres/") _) with false. cbv iota. rewrite startsWith_app.
      change (drop 14 _) with (id ++ u "/" ++ source ++ u ".enc"). apply matchRunId_own; auto.
  - intros k id. unfold backupRunIdFromKey.
    destruct (startsWith (u "backups/postgres/") k) eqn:E1; [|destruct (startsWith (u "backups/homes/") k) eqn:E2; [|done]].
    + apply startsWith_spec in E1 as [s ->]. change (drop 17 _) with s. intros (? & ? & tail & -> & ?)%matchRunId_some.
      split_and!; [done..|]. exists (u "postgres"), tail. auto.
    + apply startsWith_spec in E2 as [s ->]. change (drop 14 _) with s. intros (? & ? & tail & -> & ?)%matchRunId_some.
      split_and!; [done..|]. exists (u "homes"), tail. auto.
Qed.

(** ** The first scheduled instant *)

(** An instant the schedule names: some day, at its hour and minute. *)
Definition isScheduled (hour minute t : Z) : Prop := ∃ day, t = (day * DAY_MS + hour * HOUR_MS + minute * MINUTE_MS)%Z.

(** Instants whose year [Date.UTC] reads as it is, a day inside the range of [Date]. *)
Definition plainInstant (ms : Z) : Prop :=
  let '(y, _, _) := civilOfDay (ms / DAY_MS) in ¬ (0 ≤ y ≤ 99)%Z ∧ (Z.abs ms + DAY_MS ≤ MAX_TIME)%Z.

Definition validSchedule (schedule : NightlyBackupSchedule) (hour minute : Z) : Prop :=
  hourUtc schedule = NInt hour ∧ minuteUtc schedule = NInt minute ∧ (0 ≤ hour ≤ 23)%Z ∧ (0 ≤ minute ≤ 59)%Z.

Lemma inRange_some lo hi x z : inRange lo hi x = Some z ↔ x = NInt z ∧ (lo ≤ z ≤ hi)%Z.
Proof.
  unfold inRange, integerOf. destruct x as [y| | |]; cbn [mbind option_bind]; try naive_solver.
  destruct ((lo <=? y)%Z && (y <=? hi)%Z) eqn:E.
  - split; [intros [= <-]; split; [done|lia]|by intros [[= ->] _]].
  - split; [done|intros [[= ->] ?]; lia].
Qed.

Lemma assertSchedule_ok schedule h m : validSchedule schedule h m → assertSchedule schedule = Ok (h, m).
Proof.
  intros (Hh & Hm & Hbh & Hbm). unfold assertSchedule.
  rewrite (proj2 (inRange_some 0 23 (hourUtc schedule) h)), (proj2 (inRange_some 0 59 (minuteUtc schedule) m)) by done. done.
Qed.

Lemma nextBackupAt_first after schedule h m :
  validSchedule schedule h m → plainInstant after →
  ∃ t, nextBackupAt (Some after) schedule = Ok (Some t) ∧ isScheduled h m t ∧ (after < t)%Z ∧
       ∀ t', isScheduled h m t' → (after < t')%Z → (t ≤ t')%Z.
Proof.
  intros Hs Hp. unfold nextBackupAt. rewrite (assertSchedule_ok schedule h m Hs). cbn [mbind result_bind assertInstant].
  destruct Hs as (_ & _ & Hh & Hm). unfold plainInstant in Hp.
  pose proof (dateUTC_civil (after / DAY_MS) h m) as Hd. destruct (civilOfDay (after / DAY_MS)) as [[y mo] d].
  destruct Hp as [Hy Hr]. unfold fullYear. replace ((0 <=? y)%Z && (y <=? 99)%Z) with false by lia. rewrite Hd.
  pose proof (Z.div_mod after DAY_MS ltac:(done)) as Hdm. pose proof (Z.mod_pos_bound after DAY_MS ltac:(done)) as Hmod.
  set (q := (after / DAY_MS)%Z) in *. set (s := (after mod DAY_MS)%Z) in *. clearbody q s. clear Hd.
  unfold isScheduled, timeClip in *. unfold DAY_MS, HOUR_MS, MINUTE_MS, MAX_TIME in *.
  replace (Z.abs _ <=? _)%Z with true by lia. cbn [mbind option_bind].
  destruct (Z.ltb_spec after (q * 86400000 + h * 3600000 + m * 60000)).
  - replace (Z.abs _ <=? _)%Z with true by lia. eexists. split; [done|]. split; [by exists q|]. split; [lia|].
    intros t' [q' ->]. lia.
  - replace (Z.abs _ <=? _)%Z with true by lia. eexists. split; [done|]. split; [exists (q + 1)%Z; lia|]. split; [lia|].
    intros t' [q' ->]. lia.
Qed.

(** A nightly run is due exactly when no run was ever attempted, or when the schedule
    names an instant after the last attempt and not after now: however long the
    process was down, one run answers every night it missed. *)
Theorem backup_due_exact schedule h m now last :
  validSchedule schedule h m → (∀ l, last = Some l → ∃ ms, l = Some ms ∧ plainInstant ms) →
  ∃ due, isBackupDue (Some now) last schedule = Ok due ∧
    (due = true ↔ last = None ∨ ∃ ms t, last = Some (Some ms) ∧ isScheduled h m t ∧ (ms < t ≤ now)%Z).
Proof.
  intros Hs Hl. destruct last as [l|]; [|exists true; split; [done|]; split; [by left|done]].
  destruct (Hl l eq_refl) as (ms & -> & Hp). destruct (nextBackupAt_first ms schedule h m Hs Hp) as (t & Hn & Ht & Hlt & Hmin).
  unfold isBackupDue. cbn [mbind result_bind assertInstant]. rewrite Hn. cbn [mbind result_bind].
  exists (t <=? now)%Z. split; [done|]. rewrite Z.leb_le. split.
  - intros Hle. right. by exists ms, t.
  - intros [?|(ms' & t' & [= <-] & Ht' & Hb)]; [done|]. specialize (Hmin t' Ht'). lia.
Qed.

(** ** What retention keeps *)
(** The listing's objects a pass deletes. *)
Definition isExpired (dateParse : jstr → date) (cutoffMs : Z) (protectedKeys : list jstr) (o : BackupObjectAge) : bool :=
  match dateParse (lastModified o) with
  | Some ms => (ms <? cutoffMs)%Z && negb (bool_decide (key o ∈ protectedKeys))
  | None => false
  end.

Lemma selectExpired_exact dateParse cutoffMs protectedKeys objects :
  match selectExpired dateParse cutoffMs protectedKeys objects with
  | Ok expired =>
      Forall (λ o, is_Some (dateParse (lastModified o))) objects ∧
      expired = key <$> List.filter (isExpired dateParse cutoffMs protectedKeys) objects
  | Err e => ∃ o, o ∈ objects ∧ dateParse (lastModified o) = None ∧ e = BadLastModified (key o)
  end.
Proof.
  induction objects as [|o objects IH]; cbn [selectExpired List.filter]; [by split|]. unfold isExpired at 1.
  destruct (dateParse (lastModified o)) as [ms|] eqn:Ho; [|by exists o; split_and!; [left|..]].
  destruct (selectExpired dateParse cutoffMs protectedKeys objects) as [expired|e]; cbn [mbind result_bind].
  - destruct IH as [Hf ->]. split; [by constructor|]. by destruct (_ && _).
  - destruct IH as (o' & Hin & ? & ?). exists o'. split; [by right|done].
Qed.

(** A retention pass over a readable listing deletes, in listing order, exactly the
    keys older than the window that are not protected; with a window or a clock that
    is no such thing, or an object whose age cannot be read, it deletes nothing. *)
Theorem retention_exact dateParse objects input expired :
  selectExpiredBackupKeys dateParse objects input = Ok expired →
  ∃ days now, retentionDays input = NInt days ∧ (1 ≤ days)%Z ∧ riNow input = Some now ∧
    Forall (λ o, is_Some (dateParse (lastModified o))) objects ∧
    expired = key <$> List.filter (isExpired dateParse (now - days * DAY_MS) (default [] (protect input))) objects ∧
    ∀ k, k ∈ default [] (protect input) → k ∉ expired.
Proof.
  unfold selectExpiredBackupKeys, integerOf. destruct (retentionDays input) as [days| | |]; try done.
  destruct (Z.ltb_spec days 1); [done|]. destruct (riNow input) as [now|]; [|done]. cbn [mbind result_bind assertInstant].
  replace (days * 24 * 60 * 60 * 1000)%Z with (days * DAY_MS)%Z by (unfold DAY_MS; lia). intros He.
  pose proof (selectExpired_exact dateParse (now - days * DAY_MS) (default [] (protect input)) objects) as Hx.
  rewrite He in Hx. destruct Hx as [Hf ->]. exists days, now. split_and!; try done.
  intros k Hk (o & -> & Ho)%list_elem_of_fmap. apply list_elem_of_In, filter_In in Ho as [_ Ho]. unfold isExpired in Ho.
  destruct (dateParse (lastModified o)); [|done]. apply andb_true_iff in Ho as [_ Ho]. by rewrite bool_decide_true in Ho.
Qed.

(** ** The alerts of an input *)

(** Alert kinds from the most specific news to the least. *)
Definition severity : list BackupAlertKind := [backup_failed; backup_stalled; backup_missed; drill_failed; drill_missed].

Definition runIs (st : BackupRunStatus) (run : option BackupAlertRun) : bool :=
  match run with Some r => bool_decide (status r = st) | None => false end.

(** A run still open after more than the timeout. *)
Definition openFor (now : Z) (timeout : jsnum) (run : option BackupAlertRun) : bool :=
  runIs br_running run &&
  match run ≫= startedAt with Some started => exceeds (now - started) timeout | None => false end.

Definition longAgo (now : Z) (window : jsnum) (instant : option date) : bool :=
  match mjoin instant with Some t => exceeds (now - t) window | None => false end.

(** The facts worth an alert, read off the ledger. *)
Definition raised (now : Z) (staleness drillStaleness timeout : jsnum) (input : BackupAlertInput) (k : BackupAlertKind) : bool :=
  match k with
  | backup_failed => runIs br_failed (lastRun input)
  | backup_stalled => openFor now timeout (lastRun input)
  | backup_missed => bool_decide (lastSuccessAt input = None) || longAgo now staleness (lastSuccessAt input)
  | drill_failed => runIs br_failed (lastDrillRun input) || openFor now timeout (lastDrillRun input)
  | drill_missed =>
      longAgo now drillStaleness (if bool_decide (lastDrillAt input = None) then lastSuccessAt input else lastDrillAt input)
  end.

(** The dates of a ledger are dates. *)
Definition validDates (input : BackupAlertInput) : Prop :=
  (∀ d, lastSuccessAt input = Some d → is_Some d) ∧ (∀ d, lastDrillAt input = Some d → is_Some d) ∧
  (∀ r, lastRun input = Some r → is_Some (startedAt r)) ∧ (∀ r, lastDrillRun input = Some r → is_Some (startedAt r)).

Lemma runAlert_kinds run failed stalled now timeout :
  (∀ r, run = Some r → is_Some (startedAt r)) →
  ∃ alerts, runAlert run failed stalled now timeout = Ok alerts ∧
    kind <$> alerts = (if runIs br_failed run then [failed] else []) ++ (if openFor now timeout run then [stalled] else []).
Proof.
  intros Hd. unfold openFor. destruct run as [r|]; [|by exists []]. destruct (Hd r eq_refl) as [ms Hms].
  unfold runAlert, openRunAlert, runIs, isoOf, assertInstant. cbn [mbind option_bind]. rewrite Hms.
  destruct (status r) eqn:Hst; cbn; [|by eexists..].
  destruct (exceeds (now - ms) timeout); cbn; by eexists.
Qed.

Lemma instantOrNull_ok d label :
  (∀ x, d = Some x → is_Some x) → instantOrNull d label = Ok (mjoin d) ∧ (d = None ↔ mjoin d = None).
Proof. intros H. destruct d as [[ms|]|]; [done| |done]. by destruct (H None eq_refl). Qed.

Lemma alerts_kinds input now staleness drillStaleness timeout :
  aiNow input = Some now → validDates input →
  default (NInt DEFAULT_STALENESS_MS) (stalenessMs input) = staleness → isPositive staleness = true →
  default (NInt DEFAULT_DRILL_STALENESS_MS) (drillStalenessMs input) = drillStaleness → isPositive drillStaleness = true →
  default (NInt DEFAULT_RUN_TIMEOUT_MS) (runTimeoutMs input) = timeout → isPositive timeout = true →
  ∃ alerts, decideBackupAlerts input = Ok alerts ∧
    kind <$> alerts = List.filter (raised now staleness drillStaleness timeout input) severity.
Proof.
  intros Hn (Hs & Hd & Hr & Hdr) Es Ps Ed Pd Et Pt. unfold decideBackupAlerts.
  rewrite Hn, Es, Ed, Et. unfold positive. rewrite Ps, Pd, Pt. cbn [mbind result_bind assertInstant].
  destruct (runAlert_kinds (lastRun input) backup_failed backup_stalled now timeout Hr) as (backup & -> & Hb).
  destruct (instantOrNull_ok (lastSuccessAt input) (u "the last success") Hs) as [-> Hsn].
  destruct (instantOrNull_ok (lastDrillAt input) (u "the last drill") Hd) as [-> Hdn].
  destruct (runAlert_kinds (lastDrillRun input) drill_failed drill_failed now timeout Hdr) as (drill & -> & Hdrill).
  cbn [mbind result_bind]. eexists. split; [done|]. rewrite !fmap_app, Hb, Hdrill. unfold severity, raised, longAgo.
  assert (Hex : runIs br_failed (lastDrillRun input) = true → openFor now timeout (lastDrillRun input) = false)
    by (unfold openFor, runIs; destruct (lastDrillRun input) as [r|]; [|done]; by destruct (status r)).
  rewrite (bool_decide_ext (lastSuccessAt input = None) (mjoin (lastSuccessAt input) = None)) by done.
  rewrite (bool_decide_ext (lastDrillAt input = None) (mjoin (lastDrillAt input) = None)) by done.
  destruct (lastSuccessAt input) as [[s|]|]; [|by destruct (Hs None eq_refl)|];
    (destruct (lastDrillAt input) as [[d|]|]; [|by destruct (Hd None eq_refl)|]);
    destruct (runIs br_failed (lastRun input)), (openFor now timeout (lastRun input)),
      (runIs br_failed (lastDrillRun input)); try rewrite (Hex eq_refl);
    try destruct (openFor now timeout (lastDrillRun input)); cbn;
    repeat match goal with |- context [exceeds ?a ?b] => destruct (exceeds a b) end; done.
Qed.

(** The alerts of a ledger are the facts worth one, each once, from the most specific
    news to the least, and none when there is none.  An overdue drill is measured from
    the last good drill or, before the first, from the last good backup: while backups
    succeed within the drill window, a deployment whose drills have never succeeded
    raises no overdue drill. *)
Theorem alerts_exact input now staleness drillStaleness timeout :
  aiNow input = Some now → validDates input →
  default (NInt DEFAULT_STALENESS_MS) (stalenessMs input) = staleness → isPositive staleness = true →
  default (NInt DEFAULT_DRILL_STALENESS_MS) (drillStalenessMs input) = drillStaleness → isPositive drillStaleness = true →
  default (NInt DEFAULT_RUN_TIMEOUT_MS) (runTimeoutMs input) = timeout → isPositive timeout = true →
  ∃ alerts, decideBackupAlerts input = Ok alerts ∧
    kind <$> alerts = List.filter (raised now staleness drillStaleness timeout input) severity.
Proof. apply alerts_kinds. Qed.

(** ** The envelope's shape *)

Definition envelopeRecord (e : BackupKeyEnvelope) : written :=
  WRecord [(u "version", WString BACKUP_ENVELOPE_VERSION); (u "kdf", kdfRecord (kdf e));
           (u "cipher", WString (u "aes-256-gcm")); (u "iv", WString (iv e)); (u "authTag", WString (authTag e));
           (u "ciphertext", WString (ciphertext e))].

Definition isBase64Text (s : jstr) : bool := negb (strlen s =? 0)%Z && forallb isBase64Url s.

Definition isEnvelope (e : BackupKeyEnvelope) : bool :=
  isBase64Text (salt (kdf e)) && isBase64Text (iv e) && isBase64Text (authTag e) && isBase64Text (ciphertext e) &&
  (1 <=? n (kdf e))%Z && (1 <=? r (kdf e))%Z && (1 <=? p (kdf e))%Z && (keyLength (kdf e) =? 32)%Z.

Lemma positiveWhole_ok v f z : positiveWhole v f = Ok z → (1 ≤ z)%Z.
Proof.
  unfold positiveWhole. destruct (asNumber v ≫= integerOf) as [y|]; [|done]. destruct (Z.ltb_spec y 1); [done|].
  by intros [= <-].
Qed.

Lemma base64urlText_ok v f s : base64urlText v f = Ok s → isBase64Text s = true.
Proof. unfold base64urlText, isBase64Text. destruct v; try done. by case_match; intros [= <-]. Qed.

(** Binding a result is [Ok] when both halves are. *)
Lemma bind_ok {E A B} (m : result E A) (k : A → result E B) b : m ≫= k = Ok b → ∃ a, m = Ok a ∧ k a = Ok b.
Proof. destruct m as [a|e]; [by exists a|done]. Qed.

Lemma parseBackupKeyEnvelope_ok v e : parseBackupKeyEnvelope v = Ok e → isEnvelope e = true.
Proof.
  unfold parseBackupKeyEnvelope. intros Hp. destruct (asRecord v) as [l|]; [|done].
  destruct (negb (textIs (getField (u "version") l) _)); [done|].
  destruct (asRecord (getField (u "kdf") l)) as [k|]; [|done].
  destruct (negb (textIs (getField (u "name") k) _)); [done|].
  apply bind_ok in Hp as (n' & Hn%positiveWhole_ok & Hp). apply bind_ok in Hp as (r' & Hr%positiveWhole_ok & Hp).
  apply bind_ok in Hp as (p' & Hq%positiveWhole_ok & Hp). apply bind_ok in Hp as (len & _ & Hp).
  destruct (negb (len =? 32)%Z); [done|]. destruct (negb (textIs _ _)); [done|].
  apply bind_ok in Hp as (s & Hs%base64urlText_ok & Hp). apply bind_ok in Hp as (i & Hi%base64urlText_ok & Hp).
  apply bind_ok in Hp as (t & Ht%base64urlText_ok & Hp). apply bind_ok in Hp as (c & Hc%base64urlText_ok & Hp).
  injection Hp as <-. unfold isEnvelope. cbn. rewrite Hs, Hi, Ht, Hc. cbn. lia.
Qed.

Lemma base64urlText_of s f : base64urlText (JString s) f = if isBase64Text s then Ok s else Err (env_base64 f).
Proof. done. Qed.

Lemma positiveWhole_of z f : positiveWhole (JNumber (NInt z)) f = if (z <? 1)%Z then Err (env_kdf_number f) else Ok z.
Proof. done. Qed.

Lemma parseBackupKeyEnvelope_record e : isEnvelope e = true → parseBackupKeyEnvelope (valueOf (envelopeRecord e)) = Ok e.
Proof.
  unfold isEnvelope. rewrite !andb_true_iff. intros [[[[[[[Hs Hi] Ht] Hc] Hn] Hr] Hp] Hl].
  destruct e as [[s n' r' p' len] i t c]. cbn in Hs, Hi, Ht, Hc, Hn, Hr, Hp, Hl.
  set (K := [(u "name", JString (u "scrypt")); (u "salt", JString s); (u "n", JNumber (NInt n'));
             (u "r", JNumber (NInt r')); (u "p", JNumber (NInt p')); (u "keyLength", JNumber (NInt len))]).
  set (L := [(u "version", JString BACKUP_ENVELOPE_VERSION); (u "kdf", JObject K); (u "cipher", JString (u "aes-256-gcm"));
             (u "iv", JString i); (u "authTag", JString t); (u "ciphertext", JString c)]).
  change (valueOf _) with (JObject L). unfold parseBackupKeyEnvelope. change (asRecord (JObject L)) with (Some L). cbv iota beta.
  change (getField (u "version") L) with (JString BACKUP_ENVELOPE_VERSION).
  change (getField (u "kdf") L) with (JObject K). change (asRecord (JObject K)) with (Some K). cbv iota beta.
  change (getField (u "name") K) with (JString (u "scrypt")). change (getField (u "n") K) with (JNumber (NInt n')).
  change (getField (u "r") K) with (JNumber (NInt r')). change (getField (u "p") K) with (JNumber (NInt p')).
  change (getField (u "keyLength") K) with (JNumber (NInt len)). change (getField (u "salt") K) with (JString s).
  change (getField (u "cipher") L) with (JString (u "aes-256-gcm")). change (getField (u "iv") L) with (JString i).
  change (getField (u "authTag") L) with (JString t). change (getField (u "ciphertext") L) with (JString c).
  clearbody K L. unfold textIs. rewrite !bool_decide_true by done. cbn [negb].
  apply Z.leb_le in Hn, Hr, Hp. apply Z.eqb_eq in Hl as ->.
  rewrite !positiveWhole_of, !base64urlText_of, Hs, Hi, Ht, Hc, !(proj2 (Z.ltb_ge _ _)) by lia. done.
Qed.

(** An envelope is accepted back from its own object exactly when its fields are of
    their shapes, the derived key is 32 bytes long and the costs are positive; and
    whatever object is accepted yields such an envelope. *)
Theorem envelope_roundtrip :
  (∀ e, parseBackupKeyEnvelope (valueOf (envelopeRecord e)) = Ok e ↔ isEnvelope e = true) ∧
  (∀ v e, parseBackupKeyEnvelope v = Ok e → isEnvelope e = true).
Proof.
  split; [|exact parseBackupKeyEnvelope_ok]. intros e.
  split; [apply parseBackupKeyEnvelope_ok|apply parseBackupKeyEnvelope_record].
Qed.

(** The costs are integers [JSON.stringify] writes and [JSON.parse] reads exactly. *)
Definition safeCosts (e : BackupKeyEnvelope) : bool :=
  isSafeZ (n (kdf e)) && isSafeZ (r (kdf e)) && isSafeZ (p (kdf e)) && isSafeZ (keyLength (kdf e)).

Lemma isBase64Text_text s : isBase64Text s = true → isText s = true.
Proof. intros [_ H]%andb_true_iff. by apply isAscii_text, base64url_ascii. Qed.

Lemma aadRecord_writable e : isEnvelope e = true → safeCosts e = true → writable (aadRecord e) = true.
Proof.
  unfold isEnvelope, safeCosts. rewrite !andb_true_iff.
  intros [[[[[[[Hs Hi] _] _] _] _] _] _] [[[Hn Hr] Hp] Hl].
  apply isBase64Text_text in Hs, Hi. destruct e as [[s n' r' p' len] i t c]. cbn -[isText] in Hs, Hi, Hn, Hr, Hp, Hl.
  unfold aadRecord, kdfRecord. cbn [kdf salt n r p keyLength iv]. cbn -[isSafeZ isText u].
  rewrite Hs, Hi, Hn, Hr, Hp, Hl. by vm_compute.
Qed.

(** The authenticated text names the costs, the salt and the IV. *)
Lemma backupEnvelopeAad_inj e e' :
  isEnvelope e = true → safeCosts e = true → isEnvelope e' = true → safeCosts e' = true →
  backupEnvelopeAad e = backupEnvelopeAad e' → kdf e = kdf e' ∧ iv e = iv e'.
Proof.
  intros H1 H2 H1' H2' E. apply (f_equal parseJson) in E. unfold backupEnvelopeAad in E.
  rewrite !parseJson_written in E by by apply aadRecord_writable. injection E as Es En Er Ep El Ei.
  destruct e as [[s n' r' p' len] i t c], e' as [[s' n'' r'' p'' len'] i' t' c']. cbn in *. by subst.
Qed.

(** ** Samples *)

Definition sampleRunId : jstr := u "0f8fad5b-d9cb-469f-a165-70867728950e".

Lemma backup_key_roundtrip_witness :
  backupRunIdFromKey (backupHomesKey sampleRunId (u "computer-snapshots/c1.tar")) = Some sampleRunId ∧
  length sampleRunId = 36.
Proof.
  split; [|reflexivity].
  apply (proj1 backup_key_roundtrip sampleRunId (u "computer-snapshots/c1.tar")); [reflexivity|vm_compute; reflexivity].
Defined.

(** 2026-09-18 12:00 UTC, and the last attempt at three in the morning. *)
Lemma backup_due_exact_witness :
  ∃ due, isBackupDue (Some 1789732800000%Z) (Some (Some 1789614000000%Z)) DEFAULT_BACKUP_SCHEDULE = Ok due ∧ due = true.
Proof.
  destruct (backup_due_exact DEFAULT_BACKUP_SCHEDULE 3 0 1789732800000 (Some (Some 1789614000000%Z))) as (due & Hd & Hiff).
  - split_and!; (reflexivity || lia).
  - intros l [= <-]. exists 1789614000000%Z. split; [reflexivity|]. vm_compute. split; [intros [? ?]; congruence|discriminate].
  - exists due. split; [exact Hd|]. apply Hiff. right. exists 1789614000000%Z, 1789700400000%Z.
    split; [reflexivity|]. split; [exists 20714%Z; reflexivity|lia].
Defined.

Definition sampleListing : list BackupObjectAge :=
  [{| key := u "backups/a"; lastModified := u "1000" |}; {| key := u "backups/b"; lastModified := u "1000" |};
   {| key := u "backups/c"; lastModified := u "99999999" |}].

Definition sampleParse : jstr → date := λ s, if isDigits s then Some (numberOf s) else None.

Lemma retention_exact_witness :
  selectExpiredBackupKeys sampleParse sampleListing
    {| riNow := Some 100000000%Z; retentionDays := NInt 1; protect := Some [u "backups/b"] |} = Ok [u "backups/a"] ∧
  u "backups/b" ∉ [u "backups/a"].
Proof.
  assert (Hs : selectExpiredBackupKeys sampleParse sampleListing
    {| riNow := Some 100000000%Z; retentionDays := NInt 1; protect := Some [u "backups/b"] |} = Ok [u "backups/a"])
    by (vm_compute; reflexivity).
  split; [exact Hs|].
  destruct (retention_exact _ _ _ _ Hs) as (_ & _ & _ & _ & _ & _ & _ & Hkeep). apply Hkeep. left.
Defined.

(** A hundred days of good backups and no good drill. *)
Definition undrilled : BackupAlertInput := {|
  aiNow := Some (100 * DAY_MS)%Z; lastRun := Some {| status := br_succeeded; startedAt := Some (100 * DAY_MS - 60000)%Z |};
  lastSuccessAt := Some (Some (100 * DAY_MS - 30000)%Z); lastDrillAt := None; lastDrillRun := None;
  stalenessMs := None; drillStalenessMs := None; runTimeoutMs := None |}.

Lemma alerts_exact_witness :
  ∃ alerts, decideBackupAlerts undrilled = Ok alerts ∧ kind <$> alerts = [].
Proof.
  destruct (alerts_exact undrilled (100 * DAY_MS) (NInt DEFAULT_STALENESS_MS) (NInt DEFAULT_DRILL_STALENESS_MS)
              (NInt DEFAULT_RUN_TIMEOUT_MS)) as (alerts & Ha & Hk);
    [reflexivity| |reflexivity..|].
  - split_and!; intros d [= <-]; by eexists.
  - exists alerts. split; [exact Ha|]. rewrite Hk. vm_compute. reflexivity.
Defined.

Lemma envelope_roundtrip_witness :
  parseBackupKeyEnvelope (valueOf (envelopeRecord
    {| kdf := {| salt := u "c2FsdA"; n := 32768; r := 8; p := 1; keyLength := 32 |};
       iv := u "aXY"; authTag := u "dGFn"; ciphertext := u "Y3Q" |})) =
  Ok {| kdf := {| salt := u "c2FsdA"; n := 32768; r := 8; p := 1; keyLength := 32 |};
        iv := u "aXY"; authTag := u "dGFn"; ciphertext := u "Y3Q" |}.
Proof. apply (proj1 envelope_roundtrip). vm_compute. reflexivity. Defined.
