(* ===== verification/BackupCipher.v ===== *)
(** The backup cipher, apps/backup/src/cipher.ts: the object format, a stream of
    64 KiB AES-256-GCM records behind a header, and the envelope that seals the
    keyring under a passphrase.  A source is the chunks it gives and the error it ends
    with, if any; a generator is the list it yields and how it ends. *)

From stdpp Require Import pretty.
From S2P Require Import Prelude JsText JsValue Redaction Json Bytes JsonText SignedTokens CredentialCipher BackupPolicy.
From Stdlib Require Import ZifyN ZifyNat ZifyBool.

(** ** The object format *)

Definition magic : bytes := u "PBBK".
Definition streamVersion : N := 1.
Definition saltBytes : nat := 16.
Definition noncePrefixBytes : nat := 8.
Definition counterBytes : nat := 4.
Definition tagBytes : nat := 16.
Definition chunkBytes : nat := N.to_nat 65536.
Definition derivationInfo : jstr := u "porkbot.backup.v1".

(** [writeUInt32BE], which throws a [RangeError] from 2^32 on, and [readUInt32BE]. *)
Definition uint32BE (n : N) : bytes := [n / 16777216; (n / 65536) mod 256; (n / 256) mod 256; n mod 256]%N.

Definition fitsUint32 (n : N) : bool := (n <? 4294967296)%N.

Definition readUint32BE (bs : bytes) : N := foldl (λ n b, n * 256 + b)%N 0%N bs.

(** What decryption throws as [BackupError("cipher_failed")], by its sentence. *)
Inductive CipherFailure :=
| ends_early | bad_magic | unknown_version | no_usable_key | bad_key_id | unknown_key (id : jstr)
| oversized_record | unauthentic | trailing_bytes | no_active_key.

(** How a generator ends: by returning, by that error, by the error of its source, or
    by the [RangeError] of a counter past 32 bits. *)
Inductive StreamEnd := Complete | Failed (failure : CipherFailure) | SourceThrew | CounterOverflow.

Record Source := { chunks : list bytes; throws : bool }.

Section format.
Context `{AeadPlatform}.

Definition dataKey (masterKey salt : bytes) : bytes := hkdfSha256 masterKey salt (utf8 derivationInfo) 32.

Definition recordAad (header : bytes) (counter : N) (final : bool) : bytes :=
  header ++ uint32BE counter ++ [if final then 1 else 0]%N.

Definition nonceFor (prefix : bytes) (counter : N) : bytes := prefix ++ uint32BE counter.

(** A record of a counter that fits: its length, its ciphertext and its tag. *)
Definition encryptRecord (cipherKey header prefix : bytes) (counter : N) (final : bool) (plaintext : bytes) : bytes :=
  let '(ciphertext, tag) := gcmSeal cipherKey (nonceFor prefix counter) (recordAad header counter final) plaintext in
  uint32BE (N.of_nat (length ciphertext)) ++ ciphertext ++ tag.

Definition streamHeader (keyId : jstr) (salt prefix : bytes) : bytes :=
  magic ++ [streamVersion; N.of_nat (length (utf8 keyId))] ++ utf8 keyId ++ salt ++ prefix.

(** [while (offset < bytes.length)]: the chunks one source chunk fills, and what stays
    in the buffer. *)
Fixpoint fillChunks (fuel : nat) (buffered bs : bytes) : list bytes * bytes :=
  match fuel with
  | O => ([], buffered)
  | S fuel =>
      match bs with
      | [] => ([], buffered)
      | _ =>
          let copied := Nat.min (chunkBytes - length buffered) (length bs) in
          let buffered := buffered ++ take copied bs in
          if (length buffered =? chunkBytes)%nat then
            let '(full, rest) := fillChunks fuel [] (drop copied bs) in (buffered :: full, rest)
          else fillChunks fuel buffered (drop copied bs)
      end
  end.

(** The plaintext of every record, in the order the source fills them. *)
Fixpoint chunked (buffered : bytes) (source : list bytes) : list bytes * bytes :=
  match source with
  | [] => ([], buffered)
  | bs :: source =>
      let '(full, rest) := fillChunks (S (length bs)) buffered bs in
      let '(more, last) := chunked rest source in (full ++ more, last)
  end.

(** The records of a list of plaintexts from a counter on, up to one whose counter does
    not fit. *)
Fixpoint encryptRecords (cipherKey header prefix : bytes) (counter : N) (plaintexts : list bytes) :
    list bytes * option N :=
  match plaintexts with
  | [] => ([], Some counter)
  | plaintext :: plaintexts =>
      if fitsUint32 counter then
        let '(records, next) := encryptRecords cipherKey header prefix (counter + 1) plaintexts in
        (encryptRecord cipherKey header prefix counter false plaintext :: records, next)
      else ([], None)
  end.

(** The salt and the nonce prefix are drawn at random for every object. *)
Definition encryptBackupStream (source : Source) (keyring : CredentialKeyring) (salt prefix : bytes) :
    list bytes * StreamEnd :=
  match keyOf (activeKeyId keyring) (keys keyring) with
  | None => ([], Failed no_active_key)
  | Some masterKey =>
      if negb (isKeyId (activeKeyId keyring)) then ([], Failed no_active_key)
      else
        let header := streamHeader (activeKeyId keyring) salt prefix in
        let cipherKey := dataKey masterKey salt in
        let '(full, last) := chunked [] (chunks source) in
        let plaintexts := if throws source then full else full ++ (if (length last =? 0)%nat then [] else [last]) in
        let '(records, next) := encryptRecords cipherKey header prefix 0 plaintexts in
        match next with
        | None => (header :: records, CounterOverflow)
        | Some counter =>
            if throws source then (header :: records, SourceThrew)
            else if fitsUint32 counter
                 then (header :: records ++ [encryptRecord cipherKey header prefix counter true []], Complete)
                 else (header :: records, CounterOverflow)
        end
  end.

(** [take(length)]: chunks are pulled until enough is pending. *)
Fixpoint takeBytes (n : nat) (pending : bytes) (source : list bytes) : option (bytes * (bytes * list bytes)) :=
  if (n <=? length pending)%nat then Some (take n pending, (drop n pending, source))
  else match source with
       | [] => None
       | chunk :: source => takeBytes n (pending ++ chunk) source
       end.

(** What an exhausted source ends a read with. *)
Definition exhausted (source : Source) : StreamEnd := if throws source then SourceThrew else Failed ends_early.

(** One record: the plaintext and what is left of the source, [None] for the final one. *)
Definition readRecord (cipherKey header prefix : bytes) (counter : N) (ended : StreamEnd) (state : bytes * list bytes) :
    StreamEnd + (option bytes * (bytes * list bytes)) :=
  match takeBytes 4 state.1 state.2 with
  | None => inl ended
  | Some (lengthBytes, state) =>
      let size := readUint32BE lengthBytes in
      if (65536 <? size)%N then inl (Failed oversized_record)
      else match takeBytes (N.to_nat size + tagBytes) state.1 state.2 with
           | None => inl ended
           | Some (body, state) =>
               if negb (fitsUint32 counter) then inl CounterOverflow
               else match gcmOpen cipherKey (nonceFor prefix counter) (recordAad header counter (size =? 0)%N)
                            (take (N.to_nat size) body) (drop (N.to_nat size) body) with
                    | None => inl (Failed unauthentic)
                    | Some plaintext => inr (if (size =? 0)%N then None else Some plaintext, state)
                    end
           end
  end.

Fixpoint readRecords (fuel : nat) (cipherKey header prefix : bytes) (counter : N) (threw : bool)
    (state : bytes * list bytes) : list bytes * StreamEnd :=
  match fuel with
  | O => ([], Failed ends_early)
  | S fuel =>
      match readRecord cipherKey header prefix counter (if threw then SourceThrew else Failed ends_early) state with
      | inl failure => ([], failure)
      | inr (Some plaintext, state) =>
          let '(yielded, ending) := readRecords fuel cipherKey header prefix (counter + 1) threw state in
          (plaintext :: yielded, ending)
      | inr (None, (pending, source)) =>
          ([], if threw then SourceThrew
               else if (length (pending ++ concat source) =? 0)%nat then Complete else Failed trailing_bytes)
      end
  end.

Definition decryptBackupStream (source : Source) (keyring : CredentialKeyring) : list bytes * StreamEnd :=
  let read n (state : bytes * list bytes) (k : bytes → bytes * list bytes → list bytes * StreamEnd) :=
    match takeBytes n state.1 state.2 with None => ([], exhausted source) | Some (bs, state) => k bs state end in
  read 6 ([], chunks source) (λ headerStart state,
    if negb (bool_decide (take 4 headerStart = magic)) then ([], Failed bad_magic)
    else if negb (bool_decide (headerStart !! 4 = Some streamVersion)) then ([], Failed unknown_version)
    else
      let keyIdLength := N.to_nat (default 0%N (headerStart !! 5)) in
      if (keyIdLength =? 0)%nat || (32 <? keyIdLength)%nat then ([], Failed no_usable_key)
      else read keyIdLength state (λ keyIdBytes state,
        let keyId := fromUtf8 keyIdBytes in
        if negb (isKeyId keyId) then ([], Failed bad_key_id)
        else match keyOf keyId (keys keyring) with
             | None => ([], Failed (unknown_key keyId))
             | Some masterKey =>
                 read saltBytes state (λ salt state,
                   read noncePrefixBytes state (λ prefix state,
                     let header := headerStart ++ keyIdBytes ++ salt ++ prefix in
                     readRecords (S (length (state.1 ++ concat state.2))) (dataKey masterKey salt) header prefix 0
                       (throws source) state))
             end)).
End format.

(** ** Integers and reads *)

Lemma uint32BE_length c : length (uint32BE c) = 4.
Proof. done. Qed.

Lemma readUint32BE_uint32BE c : fitsUint32 c = true → readUint32BE (uint32BE c) = c.
Proof. unfold fitsUint32, readUint32BE, uint32BE. cbn [foldl]. intros H. apply N.ltb_lt in H. lia. Qed.

Lemma uint32BE_readUint32BE bs : length bs = 4 → forallb isByte bs = true → uint32BE (readUint32BE bs) = bs.
Proof.
  destruct bs as [|a [|b [|c [|d []]]]]; try done. intros _. cbn [forallb]. rewrite !andb_true_iff. unfold isByte.
  intros (Ha & Hb & Hc & Hd & _). unfold readUint32BE, uint32BE. cbn [foldl].
  apply N.ltb_lt in Ha, Hb, Hc, Hd. repeat f_equal; lia.
Qed.

(** What is left of a source. *)
Definition rest (state : bytes * list bytes) : bytes := state.1 ++ concat state.2.

Lemma takeBytes_some n pending source :
  n ≤ length (rest (pending, source)) →
  ∃ state, takeBytes n pending source = Some (take n (rest (pending, source)), state) ∧
           rest state = drop n (rest (pending, source)).
Proof.
  unfold rest. cbn [fst snd]. revert pending. induction source as [|chunk source IH]; intros pending Hn; cbn [takeBytes concat] in *.
  - rewrite app_nil_r in *. rewrite (proj2 (Nat.leb_le _ _) Hn). exists (drop n pending, []). split; [done|]. cbn. by rewrite app_nil_r.
  - destruct (Nat.leb_spec n (length pending)) as [Hle|Hgt].
    + exists (drop n pending, chunk :: source). rewrite take_app_le, drop_app_le by done. done.
    + rewrite app_assoc in *. apply IH. done.
Qed.

Lemma takeBytes_none n pending source :
  length (rest (pending, source)) < n → takeBytes n pending source = None.
Proof.
  unfold rest. cbn [fst snd]. revert pending. induction source as [|chunk source IH]; intros pending Hn; cbn [takeBytes concat] in *.
  - rewrite app_nil_r in Hn. by rewrite (proj2 (Nat.leb_gt _ _) Hn).
  - rewrite (proj2 (Nat.leb_gt n (length pending))) by (rewrite length_app in Hn; lia).
    apply IH. by rewrite <- app_assoc.
Qed.

(** A read of [n] from a state that holds [s]: the reads differ only in how the rest is
    held. *)
Lemma takeBytes_cases n state :
  (length (rest state) < n ∧ takeBytes n state.1 state.2 = None) ∨
  (n ≤ length (rest state) ∧ ∃ state', takeBytes n state.1 state.2 = Some (take n (rest state), state') ∧
                                       rest state' = drop n (rest state)).
Proof.
  destruct state as [pending source]. destruct (Nat.lt_ge_cases (length (rest (pending, source))) n) as [H|H].
  - left. split; [done|]. by apply takeBytes_none.
  - right. split; [done|]. by apply takeBytes_some.
Qed.

Section records.
Context `{AeadPlatform}.

(** Reading a record from the bytes alone. *)
Definition recordOf (cipherKey header prefix : bytes) (counter : N) (ended : StreamEnd) (bs : bytes) :
    StreamEnd + (option bytes * bytes) :=
  if (length bs <? 4)%nat then inl ended
  else
    let size := readUint32BE (take 4 bs) in
    let body := take (N.to_nat size + tagBytes) (drop 4 bs) in
    if (65536 <? size)%N then inl (Failed oversized_record)
    else if (length (drop 4 bs) <? N.to_nat size + tagBytes)%nat then inl ended
    else if negb (fitsUint32 counter) then inl CounterOverflow
    else match gcmOpen cipherKey (nonceFor prefix counter) (recordAad header counter (size =? 0)%N)
                 (take (N.to_nat size) body) (drop (N.to_nat size) body) with
         | None => inl (Failed unauthentic)
         | Some plaintext =>
             inr (if (size =? 0)%N then None else Some plaintext, drop (N.to_nat size + tagBytes) (drop 4 bs))
         end.

Lemma readRecord_recordOf cipherKey header prefix counter ended state :
  match recordOf cipherKey header prefix counter ended (rest state) with
  | inl failure => readRecord cipherKey header prefix counter ended state = inl failure
  | inr (o, bs) => ∃ state', readRecord cipherKey header prefix counter ended state = inr (o, state') ∧ rest state' = bs
  end.
Proof.
  unfold readRecord, recordOf.
  destruct (takeBytes_cases 4 state) as [[Hl ->]|(Hl & st & -> & Hst)];
    [by rewrite (proj2 (Nat.ltb_lt _ _) Hl)|rewrite (proj2 (Nat.ltb_ge _ _) Hl)]. cbv zeta.
  set (size := readUint32BE _). destruct (65536 <? size)%N; [done|].
  destruct (takeBytes_cases (N.to_nat size + tagBytes) st) as [[Hb ->]|(Hb & st' & -> & Hst')]; rewrite Hst in Hb;
    [by rewrite (proj2 (Nat.ltb_lt _ _) Hb)|rewrite (proj2 (Nat.ltb_ge _ _) Hb)].
  destruct (fitsUint32 counter); [|done]. cbn [negb]. rewrite Hst.
  destruct (gcmOpen _ _ _ _ _); [|done]. exists st'. by rewrite Hst', Hst.
Qed.

(** The same loop over the bytes. *)
Fixpoint recordsOf (fuel : nat) (cipherKey header prefix : bytes) (counter : N) (threw : bool) (bs : bytes) :
    list bytes * StreamEnd :=
  match fuel with
  | O => ([], Failed ends_early)
  | S fuel =>
      match recordOf cipherKey header prefix counter (if threw then SourceThrew else Failed ends_early) bs with
      | inl failure => ([], failure)
      | inr (Some plaintext, bs) =>
          let '(yielded, ending) := recordsOf fuel cipherKey header prefix (counter + 1) threw bs in
          (plaintext :: yielded, ending)
      | inr (None, bs) =>
          ([], if threw then SourceThrew else if (length bs =? 0)%nat then Complete else Failed trailing_bytes)
      end
  end.

Lemma readRecords_recordsOf fuel cipherKey header prefix counter threw state :
  readRecords fuel cipherKey header prefix counter threw state =
  recordsOf fuel cipherKey header prefix counter threw (rest state).
Proof.
  revert counter state. induction fuel as [|fuel IH]; intros counter state; [done|]. cbn [readRecords recordsOf].
  pose proof (readRecord_recordOf cipherKey header prefix counter (if threw then SourceThrew else Failed ends_early) state) as Hr.
  destruct (recordOf _ _ _ _ _ _) as [failure|[[plaintext|] bs]].
  - by rewrite Hr.
  - destruct Hr as (state' & -> & Hrest). by rewrite IH, Hrest.
  - destruct Hr as ([pending source] & -> & <-). done.
Qed.

(** Decryption of the bytes of an object. *)
Definition headerLength (keyIdLength : nat) : nat := 6 + keyIdLength + saltBytes + noncePrefixBytes.

Definition decryptBytes (bs : bytes) (threw : bool) (keyring : CredentialKeyring) : list bytes * StreamEnd :=
  let ended := ([], if threw then SourceThrew else Failed ends_early) in
  let keyIdLength := N.to_nat (default 0%N (bs !! 5)) in
  let keyIdBytes := take keyIdLength (drop 6 bs) in
  if (length bs <? 6)%nat then ended
  else if negb (bool_decide (take 4 bs = magic)) then ([], Failed bad_magic)
  else if negb (bool_decide (bs !! 4 = Some streamVersion)) then ([], Failed unknown_version)
  else if (keyIdLength =? 0)%nat || (32 <? keyIdLength)%nat then ([], Failed no_usable_key)
  else if (length bs <? 6 + keyIdLength)%nat then ended
  else if negb (isKeyId (fromUtf8 keyIdBytes)) then ([], Failed bad_key_id)
  else match keyOf (fromUtf8 keyIdBytes) (keys keyring) with
       | None => ([], Failed (unknown_key (fromUtf8 keyIdBytes)))
       | Some masterKey =>
           if (length bs <? headerLength keyIdLength)%nat then ended
           else
             let salt := take saltBytes (drop (6 + keyIdLength) bs) in
             let prefix := take noncePrefixBytes (drop (6 + keyIdLength + saltBytes) bs) in
             recordsOf (S (length (drop (headerLength keyIdLength) bs))) (dataKey masterKey salt)
               (take (headerLength keyIdLength) bs) prefix 0 threw (drop (headerLength keyIdLength) bs)
       end.

Lemma take_take_drop {A} (n m : nat) (l : list A) : take (n + m) l = take n l ++ take m (drop n l).
Proof.
  revert n. induction l as [|x l IH]; intros n; [by rewrite !take_nil, drop_nil, take_nil|].
  destruct n as [|n]; [done|]. cbn. by rewrite IH.
Qed.

(** Only the bytes of the source matter, and whether it ends with an error: not how it
    cuts them. *)
Lemma decryptBackupStream_bytes source keyring :
  decryptBackupStream source keyring = decryptBytes (concat (chunks source)) (throws source) keyring.
Proof.
  unfold decryptBackupStream, decryptBytes, exhausted. set (bs := concat (chunks source)).
  set (klen := N.to_nat _).
  destruct (takeBytes_cases 6 ([], chunks source)) as [[Hl Ht]|(Hl & st1 & Ht & H1)]; cbn [fst snd] in *; rewrite Ht;
    change (rest ([], chunks source)) with bs in *;
    [by rewrite (proj2 (Nat.ltb_lt _ _) Hl)|rewrite (proj2 (Nat.ltb_ge _ _) Hl)].
  rewrite take_take, lookup_take_lt by lia. change (4 `min` 6) with 4.
  destruct (negb (bool_decide (take 4 bs = magic))); [done|].
  destruct (negb (bool_decide (bs !! 4 = Some streamVersion))); [done|].
  rewrite lookup_take_lt by lia. fold klen. cbv zeta.
  destruct ((klen =? 0)%nat || (32 <? klen)%nat); [done|].
  destruct (takeBytes_cases klen st1) as [[Hk Hkt]|(Hk & st2 & Hkt & H2)]; rewrite Hkt; rewrite H1, length_drop in Hk.
  { by rewrite (proj2 (Nat.ltb_lt _ _)) by lia. }
  rewrite (proj2 (Nat.ltb_ge (length bs) (6 + klen))) by lia. rewrite H1.
  destruct (negb (isKeyId (fromUtf8 (take klen (drop 6 bs))))); [done|].
  destruct (keyOf (fromUtf8 (take klen (drop 6 bs))) (keys keyring)) as [masterKey|]; [|done].
  rewrite H1, drop_drop in H2. unfold headerLength.
  destruct (takeBytes_cases saltBytes st2) as [[Hs Hst]|(Hs & st3 & Hst & H3)]; rewrite Hst; rewrite H2, length_drop in Hs.
  { by rewrite (proj2 (Nat.ltb_lt _ _)) by (unfold saltBytes, noncePrefixBytes in *; lia). }
  rewrite H2, drop_drop in H3.
  destruct (takeBytes_cases noncePrefixBytes st3) as [[Hp Hpt]|(Hp & st4 & Hpt & H4)]; rewrite Hpt; rewrite H3, length_drop in Hp.
  { by rewrite (proj2 (Nat.ltb_lt _ _)) by (unfold saltBytes, noncePrefixBytes in *; lia). }
  rewrite (proj2 (Nat.ltb_ge _ _)) by (unfold saltBytes, noncePrefixBytes in *; lia).
  rewrite readRecords_recordsOf. rewrite H3, drop_drop in H4. fold (rest st4). rewrite H4, H2, H3.
  f_equal. rewrite !take_take_drop, <- !app_assoc. done.
Qed.
End records.

(** ** Records of a source *)

Definition isChunk (bs : bytes) : Prop := 0 < length bs ≤ chunkBytes.

Lemma chunkBytes_pos : 0 < chunkBytes.
Proof. unfold chunkBytes. lia. Qed.

Lemma fillChunks_spec fuel buffered bs :
  length buffered < chunkBytes → length bs < fuel →
  let '(full, last) := fillChunks fuel buffered bs in
  concat full ++ last = buffered ++ bs ∧ Forall (λ c, length c = chunkBytes) full ∧ length last < chunkBytes.
Proof.
  revert buffered bs. induction fuel as [|fuel IH]; intros buffered bs Hb Hf; [lia|]. cbn [fillChunks].
  destruct bs as [|x bs]; [by rewrite app_nil_r|]. set (l := x :: bs) in *. assert (0 < length l) as Hpos by (cbn; lia).
  clearbody l. clear x bs. set (copied := Nat.min (chunkBytes - length buffered) (length l)).
  assert (0 < copied ≤ length l) as Hc by (unfold copied; lia).
  assert (length (buffered ++ take copied l) = length buffered + copied) as Hlen by (rewrite length_app, length_take; lia).
  assert (length (drop copied l) < fuel) as Hd by (rewrite length_drop; lia).
  destruct (Nat.eqb_spec (length (buffered ++ take copied l)) chunkBytes) as [He|He].
  - specialize (IH [] (drop copied l) chunkBytes_pos Hd). destruct (fillChunks fuel [] (drop copied l)) as [full last].
    destruct IH as (Hcat & Hall & Hl). split_and!; [|by constructor|done].
    cbn [concat]. rewrite <- !app_assoc, Hcat. cbn [app]. by rewrite take_drop.
  - specialize (IH (buffered ++ take copied l) (drop copied l) ltac:(unfold copied in *; lia) Hd).
    destruct (fillChunks fuel (buffered ++ take copied l) (drop copied l)) as [full last].
    by rewrite <- app_assoc, take_drop in IH.
Qed.

Lemma chunked_spec buffered source :
  length buffered < chunkBytes →
  let '(full, last) := chunked buffered source in
  concat full ++ last = buffered ++ concat source ∧ Forall (λ c, length c = chunkBytes) full ∧ length last < chunkBytes.
Proof.
  revert buffered. induction source as [|bs source IH]; intros buffered Hb; cbn [chunked]; [by rewrite app_nil_r|].
  pose proof (fillChunks_spec (S (length bs)) buffered bs Hb ltac:(lia)) as Hf.
  destruct (fillChunks (S (length bs)) buffered bs) as [full last']. destruct Hf as (Hcat & Hall & Hl).
  specialize (IH last' Hl). destruct (chunked last' source) as [more last]. destruct IH as (Hcat' & Hall' & Hl').
  split_and!; [|by apply Forall_app|done]. cbn [concat]. rewrite concat_app, <- app_assoc, Hcat', app_assoc, Hcat. by rewrite app_assoc.
Qed.

(** The plaintexts of a source that ends well. *)
Definition plaintextsOf (source : list bytes) : list bytes :=
  let '(full, last) := chunked [] source in full ++ (if (length last =? 0)%nat then [] else [last]).

Lemma plaintextsOf_spec source :
  concat (plaintextsOf source) = concat source ∧ Forall isChunk (plaintextsOf source) ∧
  (N.of_nat (length (plaintextsOf source)) * 65536 < N.of_nat (length (concat source)) + 65536)%N.
Proof.
  unfold plaintextsOf. pose proof (chunked_spec [] source chunkBytes_pos) as Hs.
  destruct (chunked [] source) as [full last]. destruct Hs as (Hcat & Hall & Hl). cbn [app] in Hcat. rewrite <- Hcat.
  assert (Forall isChunk full) as Hf.
  { eapply Forall_impl; [exact Hall|]. unfold isChunk. cbn. intros c ->. pose proof chunkBytes_pos. lia. }
  assert (length (concat full) = length full * chunkBytes) as Hlen.
  { clear -Hall. induction Hall as [|c full Hc _ IH]; [done|]. cbn. rewrite length_app. lia. }
  rewrite !length_app, Hlen. assert (N.of_nat chunkBytes = 65536%N) as Hcb by (unfold chunkBytes; lia).
  destruct (Nat.eqb_spec (length last) 0) as [He|He].
  - apply length_zero_iff_nil in He as ->. rewrite !app_nil_r. cbn [length]. split_and!; [done|done|lia].
  - rewrite concat_app. cbn [concat]. rewrite app_nil_r. cbn [length]. split_and!; [done| |lia].
    apply Forall_app. split; [done|]. constructor; [|constructor]. unfold isChunk. lia.
Qed.

Section laws.
Context `{AeadLaws}.

Lemma recordOf_short cipherKey header prefix counter ended final plaintext bs tail :
  length plaintext ≤ chunkBytes → bs `prefix_of` encryptRecord cipherKey header prefix counter final plaintext ++ tail →
  length bs < length (encryptRecord cipherKey header prefix counter final plaintext) →
  recordOf cipherKey header prefix counter ended bs = inl ended.
Proof.
  unfold encryptRecord, recordOf.
  destruct (seal_length cipherKey (nonceFor prefix counter) (recordAad header counter final) plaintext) as [Lc Lt].
  destruct (gcmSeal _ _ _ _) as [ct tag]. cbn [fst snd] in Lc, Lt. intros Hp [more Hpre].
  rewrite !length_app, uint32BE_length, Lc, Lt. intros Hl.
  destruct (Nat.ltb_spec (length bs) 4) as [|H4]; [done|]. cbv zeta.
  assert (fitsUint32 (N.of_nat (length ct)) = true) as Hfit by (rewrite Lc; unfold fitsUint32, chunkBytes in *; lia).
  assert (take 4 bs = uint32BE (N.of_nat (length ct))) as ->.
  { rewrite <- (take_app_le bs more 4) by done. by rewrite <- Hpre. }
  rewrite readUint32BE_uint32BE by done. rewrite Lc.
  replace (65536 <? N.of_nat (length plaintext))%N with false by (unfold chunkBytes in Hp; lia).
  rewrite (proj2 (Nat.ltb_lt _ _)); [done|]. rewrite length_drop. unfold tagBytes. lia.
Qed.

Lemma recordOf_own cipherKey header prefix counter ended plaintext tail :
  length plaintext ≤ chunkBytes → fitsUint32 counter = true →
  recordOf cipherKey header prefix counter ended
    (encryptRecord cipherKey header prefix counter (length plaintext =? 0)%nat plaintext ++ tail) =
  inr (if (length plaintext =? 0)%nat then None else Some plaintext, tail).
Proof.
  intros Hp Hc. unfold encryptRecord, recordOf. set (final := (length plaintext =? 0)%nat).
  destruct (seal_length cipherKey (nonceFor prefix counter) (recordAad header counter final) plaintext) as [Lc Lt].
  pose proof (open_own cipherKey (nonceFor prefix counter) (recordAad header counter final) plaintext) as Ho.
  destruct (gcmSeal _ _ _ _) as [ct tag]. cbn [fst snd] in Lc, Lt, Ho.
  rewrite <- !app_assoc. set (r := ct ++ tag ++ tail).
  assert (fitsUint32 (N.of_nat (length ct)) = true) as Hfit by (rewrite Lc; unfold fitsUint32, chunkBytes in *; lia).
  change (take 4 (uint32BE (N.of_nat (length ct)) ++ r)) with (uint32BE (N.of_nat (length ct))).
  change (drop 4 (uint32BE (N.of_nat (length ct)) ++ r)) with r.
  rewrite (proj2 (Nat.ltb_ge _ 4)) by (rewrite length_app, uint32BE_length; lia). cbv zeta.
  rewrite readUint32BE_uint32BE, Nat2N.id by done. unfold r.
  replace (65536 <? N.of_nat (length ct))%N with false by (rewrite Lc; unfold chunkBytes in Hp; lia).
  rewrite (proj2 (Nat.ltb_ge _ _)) by (rewrite !length_app; unfold tagBytes; lia). rewrite Hc. cbn [negb].
  replace (take (length ct + tagBytes) (ct ++ tag ++ tail)) with (ct ++ tag)
    by (rewrite app_assoc, take_app_length'; [done|rewrite length_app; unfold tagBytes; lia]).
  replace (drop (length ct + tagBytes) (ct ++ tag ++ tail)) with tail
    by (rewrite app_assoc, drop_app_length'; [done|rewrite length_app; unfold tagBytes; lia]).
  rewrite take_app_length, drop_app_length.
  replace (N.of_nat (length ct) =? 0)%N with final by (unfold final; rewrite Lc; lia). rewrite Ho. done.
Qed.

Lemma encryptRecord_length cipherKey header prefix counter final plaintext :
  length (encryptRecord cipherKey header prefix counter final plaintext) = 4 + length plaintext + 16.
Proof.
  unfold encryptRecord. destruct (seal_length cipherKey (nonceFor prefix counter) (recordAad header counter final) plaintext) as [Lc Lt].
  destruct (gcmSeal _ _ _ _) as [ct tag]. cbn [fst snd] in *. rewrite !length_app, uint32BE_length. lia.
Qed.

(** The records of a list of chunks and the final record, as one text. *)
Definition recordText (cipherKey header prefix : bytes) (counter : N) (plaintexts : list bytes) : bytes :=
  concat (encryptRecords cipherKey header prefix counter plaintexts).1
  ++ encryptRecord cipherKey header prefix (counter + N.of_nat (length plaintexts)) true [].

Lemma encryptRecords_fit cipherKey header prefix counter plaintexts :
  (counter + N.of_nat (length plaintexts) <= 4294967296)%N →
  (encryptRecords cipherKey header prefix counter plaintexts).2 = Some (counter + N.of_nat (length plaintexts))%N.
Proof.
  revert counter. induction plaintexts as [|p ps IH]; intros counter Hc; cbn [encryptRecords length]; [cbn [snd]; f_equal; lia|].
  cbn [length] in Hc. replace (fitsUint32 counter) with true by (unfold fitsUint32; lia).
  specialize (IH (counter + 1)%N ltac:(lia)). destruct (encryptRecords _ _ _ (counter + 1) ps) as [records next].
  cbn [snd] in *. rewrite IH. f_equal. lia.
Qed.

Lemma encryptRecords_length cipherKey header prefix counter plaintexts :
  (counter + N.of_nat (length plaintexts) <= 4294967296)%N →
  length plaintexts ≤ length (concat (encryptRecords cipherKey header prefix counter plaintexts).1).
Proof.
  revert counter. induction plaintexts as [|p ps IH]; intros c Hb; [cbn; lia|]. cbn [encryptRecords length] in *.
  replace (fitsUint32 c) with true by (unfold fitsUint32; lia). specialize (IH (c + 1)%N ltac:(lia)).
  destruct (encryptRecords _ _ _ (c + 1) ps) as [records next]. cbn [fst concat] in *.
  rewrite length_app, encryptRecord_length. lia.
Qed.

Lemma recordText_cons cipherKey header prefix counter p ps :
  fitsUint32 counter = true →
  recordText cipherKey header prefix counter (p :: ps) =
  encryptRecord cipherKey header prefix counter false p ++ recordText cipherKey header prefix (counter + 1) ps.
Proof.
  intros Hc. unfold recordText. cbn [encryptRecords length]. rewrite Hc.
  replace (counter + N.of_nat (S (length ps)))%N with (counter + 1 + N.of_nat (length ps))%N by lia.
  destruct (encryptRecords _ _ _ (counter + 1) ps) as [records next]. cbn [fst concat]. by rewrite app_assoc.
Qed.

(** Reading the text back, whole or cut short. *)
Lemma recordsOf_text fuel cipherKey header prefix counter plaintexts :
  Forall isChunk plaintexts → (counter + N.of_nat (length plaintexts) < 4294967296)%N →
  length plaintexts < fuel →
  recordsOf fuel cipherKey header prefix counter false (recordText cipherKey header prefix counter plaintexts) =
  (plaintexts, Complete).
Proof.
  intros Hall. revert fuel counter. induction Hall as [|p ps [Hp0 Hp] _ IH]; intros fuel counter Hc Hf;
    (destruct fuel as [|fuel]; [lia|]); cbn [recordsOf length] in *.
  - change (recordText _ _ _ _ _) with (encryptRecord cipherKey header prefix (counter + 0) true []).
    rewrite N.add_0_r. rewrite <- (app_nil_r (encryptRecord _ _ _ _ _ _)).
    rewrite (recordOf_own cipherKey header prefix counter _ [] []) by (unfold fitsUint32; cbn; lia). done.
  - rewrite recordText_cons by (unfold fitsUint32; lia).
    pose proof (recordOf_own cipherKey header prefix counter (Failed ends_early) p
      (recordText cipherKey header prefix (counter + 1) ps) Hp ltac:(unfold fitsUint32; lia)) as Hr.
    rewrite (proj2 (Nat.eqb_neq (length p) 0)) in Hr by lia. rewrite Hr.
    rewrite IH by lia. done.
Qed.

Lemma prefix_app_inv (a b s : bytes) :
  s `prefix_of` a ++ b → length a ≤ length s → ∃ s', s = a ++ s' ∧ s' `prefix_of` b.
Proof.
  intros [k Hk] Hl. exists (drop (length a) s). 
  assert (take (length a) s = a) as Ht.
  { apply (f_equal (take (length a))) in Hk. rewrite take_app_length, take_app_le in Hk by done. done. }
  split; [by rewrite <- Ht at 1; rewrite take_drop|]. exists k.
  apply (f_equal (drop (length a))) in Hk. by rewrite drop_app_length, drop_app_le in Hk by done.
Qed.

Lemma recordsOf_cut fuel cipherKey header prefix counter plaintexts s :
  Forall isChunk plaintexts → (counter + N.of_nat (length plaintexts) < 4294967296)%N →
  s `prefix_of` recordText cipherKey header prefix counter plaintexts →
  length s < length (recordText cipherKey header prefix counter plaintexts) →
  ∃ yielded, yielded `prefix_of` plaintexts ∧
    recordsOf fuel cipherKey header prefix counter false s = (yielded, Failed ends_early) ∧
    length (concat yielded) ≤ length s.
Proof.
  intros Hall. revert fuel counter s. induction Hall as [|p ps [Hp0 Hp] Hall IH]; intros fuel counter s Hc Hs Hl;
    (destruct fuel as [|fuel]; [exists []; split; [apply prefix_nil|split; [done|cbn; lia]]|]); cbn [recordsOf length] in *.
  - change (recordText _ _ _ _ _) with (encryptRecord cipherKey header prefix (counter + 0) true []) in Hs, Hl.
    rewrite N.add_0_r in Hs, Hl. exists []. split; [done|]. split; [|cbn; lia].
    rewrite <- (app_nil_r (encryptRecord _ _ _ _ _ _)) in Hs.
    rewrite (recordOf_short cipherKey header prefix counter _ true [] s []); [done|cbn; lia|done|done].
  - rewrite recordText_cons in Hs, Hl by (unfold fitsUint32; lia).
    destruct (Nat.lt_ge_cases (length s) (length (encryptRecord cipherKey header prefix counter false p))) as [Hlt|Hge].
    + exists []. split; [apply prefix_nil|]. split; [|cbn; lia].
      by rewrite (recordOf_short cipherKey header prefix counter _ false p s _ Hp Hs Hlt).
    + destruct (prefix_app_inv _ _ _ Hs Hge) as (s' & -> & Hs'). rewrite !length_app in Hl.
      pose proof (recordOf_own cipherKey header prefix counter (Failed ends_early) p s' Hp ltac:(unfold fitsUint32; lia)) as Hr.
      rewrite (proj2 (Nat.eqb_neq (length p) 0)) in Hr by lia. rewrite Hr.
      destruct (IH fuel (counter + 1)%N s' ltac:(lia) Hs' ltac:(lia)) as (yielded & Hy & -> & Hlen).
      exists (p :: yielded). split; [by apply prefix_cons|]. split; [done|].
      cbn [concat]. rewrite !length_app, encryptRecord_length. lia.
Qed.
End laws.

(** ** Whole objects *)

Section objects.
Context `{AeadLaws}.

Lemma isKeyId_utf8 kid : isKeyId kid = true → utf8 kid = kid ∧ fromUtf8 kid = kid ∧ 1 ≤ length kid ≤ 32.
Proof.
  unfold isKeyId. rewrite !andb_true_iff. intros [[Hf H1] H2]. apply base64url_ascii in Hf.
  split_and!; [by apply utf8_ascii| |unfold strlen in *; lia..].
  rewrite <- (utf8_ascii kid Hf) at 1. rewrite fromUtf8_utf8 by by apply isAscii_text.
  apply wellFormed_encode. by apply wellFormed_ascii.
Qed.

Lemma streamHeader_length kid salt prefix :
  isKeyId kid = true → length salt = saltBytes → length prefix = noncePrefixBytes →
  length (streamHeader kid salt prefix) = headerLength (length kid).
Proof.
  intros Hi Hs Hp. destruct (isKeyId_utf8 kid Hi) as (Hu & _). unfold streamHeader, headerLength. rewrite Hu, !length_app.
  change (length magic) with 4. cbn [length]. lia.
Qed.

(** An object cut inside its header ends early; past it, its records are read under
    the key and the header the writer used. *)
Lemma decryptBytes_header kid salt prefix master keyring threw s body :
  isKeyId kid = true → length salt = saltBytes → length prefix = noncePrefixBytes →
  keyOf kid (keys keyring) = Some master → s `prefix_of` streamHeader kid salt prefix ++ body →
  if (length s <? length (streamHeader kid salt prefix))%nat
  then decryptBytes s threw keyring = ([], if threw then SourceThrew else Failed ends_early)
  else ∃ s', s = streamHeader kid salt prefix ++ s' ∧ s' `prefix_of` body ∧
    decryptBytes s threw keyring =
    recordsOf (S (length s')) (dataKey master salt) (streamHeader kid salt prefix) prefix 0 threw s'.
Proof.
  intros Hi Hs Hp Hk Hpre. rewrite (streamHeader_length kid salt prefix) by done.
  destruct (isKeyId_utf8 kid Hi) as (Hu & Hfu & Hlen).
  unfold decryptBytes. destruct (Nat.ltb_spec (length s) 6) as [H6|H6].
  { by rewrite (proj2 (Nat.ltb_lt _ _)) by (unfold headerLength; lia). }
  assert (Hh : streamHeader kid salt prefix = (magic ++ [streamVersion; N.of_nat (length kid)]) ++ kid ++ salt ++ prefix)
    by (unfold streamHeader; by rewrite Hu, <- app_assoc).
  pose proof Hpre as Hpre'. rewrite Hh, <- app_assoc in Hpre'.
  destruct (prefix_app_inv _ _ _ Hpre' H6) as (s1 & Es & Hs1). clear Hpre'.
  assert (s !! 5 = Some (N.of_nat (length kid))) as H5 by by rewrite Es.
  assert (s !! 4 = Some streamVersion) as H4 by by rewrite Es.
  assert (take 4 s = magic) as Hm by by rewrite Es.
  assert (drop 6 s = s1) as Hd by by rewrite Es.
  rewrite H5, H4, Hm, !bool_decide_true by done. cbn [negb default]. unfold default, id. rewrite !Nat2N.id.
  replace ((length kid =? 0)%nat || (32 <? length kid)%nat) with false by lia. rewrite Hd.
  assert (length s = 6 + length s1) as Hls by (rewrite Es, length_app; done).
  destruct (Nat.ltb_spec (length s) (6 + length kid)) as [Hk6|Hk6].
  { by rewrite (proj2 (Nat.ltb_lt _ _)) by (unfold headerLength; lia). }
  rewrite <- app_assoc in Hs1. destruct (prefix_app_inv _ _ _ Hs1 ltac:(lia)) as (s2 & -> & Hs2).
  rewrite take_app_length, Hfu, Hi, Hk. cbn [negb].
  destruct (Nat.ltb_spec (length s) (headerLength (length kid))) as [Hhl|Hhl]; [done|].
  destruct (prefix_app_inv _ _ _ Hs2) as (s3 & -> & Hs3).
  { rewrite !length_app in *. unfold headerLength in Hhl. lia. }
  exists s3. assert (s = streamHeader kid salt prefix ++ s3) as Ef by (rewrite Es, Hh, <- !app_assoc; done).
  split; [done|]. split; [done|].
  assert (headerLength (length kid) = length (streamHeader kid salt prefix)) as Hhd by (symmetry; by apply streamHeader_length).
  rewrite Hhd, Ef, drop_app_length, take_app_length.
  assert (∀ n, drop (6 + length kid + n) (streamHeader kid salt prefix ++ s3) = drop n (salt ++ prefix ++ s3)) as Hdr.
  { intros n. rewrite Hh, <- !app_assoc, (app_assoc magic), (app_assoc _ kid), <- drop_drop. f_equal.
    apply drop_app_length'. rewrite length_app. done. }
  rewrite Hdr. replace (6 + length kid) with (6 + length kid + 0) by lia. rewrite Hdr.
  rewrite <- Hs. rewrite drop_app_length, drop_0, take_app_length. rewrite <- Hp. by rewrite take_app_length.
Qed.

Lemma encryptBackupStream_done keyring salt prefix source master :
  keyOf (activeKeyId keyring) (keys keyring) = Some master → isKeyId (activeKeyId keyring) = true →
  throws source = false → (N.of_nat (length (plaintextsOf (chunks source))) < 4294967296)%N →
  ∃ out, encryptBackupStream source keyring salt prefix = (out, Complete) ∧
    concat out = streamHeader (activeKeyId keyring) salt prefix ++
      recordText (dataKey master salt) (streamHeader (activeKeyId keyring) salt prefix) prefix 0 (plaintextsOf (chunks source)).
Proof.
  intros Hk Hi Ht Hn. unfold encryptBackupStream. rewrite Hk, Hi, Ht. cbn [negb].
  unfold plaintextsOf in Hn |- *. destruct (chunked [] (chunks source)) as [full last].
  set (ps := full ++ _) in *. clearbody ps.
  set (header := streamHeader _ _ _). pose proof (encryptRecords_fit (dataKey master salt) header prefix 0 ps ltac:(lia)) as Hf.
  unfold recordText. destruct (encryptRecords (dataKey master salt) header prefix 0 ps) as [records next]. cbn [fst snd] in *.
  subst next. rewrite N.add_0_l. unfold fitsUint32. rewrite (proj2 (N.ltb_lt _ _) Hn).
  eexists. split; [done|]. cbn [concat]. rewrite concat_app. cbn [concat]. by rewrite app_nil_r.
Qed.

(** C36. What is backed up restores. An object of at most 2^32 - 2 full records is encrypted
    whole, and its bytes, read in whatever chunks they arrive, decrypt under any
    keyring that still holds its key to exactly the bytes of the source, in records of
    1 to 65536 bytes. *)
Theorem backup_stream_roundtrip keyring keyring' salt prefix source pieces :
  is_Some (keyOf (activeKeyId keyring) (keys keyring)) → isKeyId (activeKeyId keyring) = true →
  keyOf (activeKeyId keyring) (keys keyring') = keyOf (activeKeyId keyring) (keys keyring) →
  length salt = saltBytes → length prefix = noncePrefixBytes →
  throws source = false → (N.of_nat (length (concat (chunks source))) <= 65536 * 4294967294)%N →
  ∃ out yielded, encryptBackupStream source keyring salt prefix = (out, Complete) ∧
    (concat pieces = concat out →
     decryptBackupStream {| chunks := pieces; throws := false |} keyring' = (yielded, Complete)) ∧
    concat yielded = concat (chunks source) ∧ Forall isChunk yielded.
Proof.
  intros [master Hk] Hi Hk' Ls Lp Ht Hn.
  destruct (plaintextsOf_spec (chunks source)) as (Hcat & Hall & Hlen).
  assert (N.of_nat (length (plaintextsOf (chunks source))) < 4294967296)%N as Hc by lia.
  destruct (encryptBackupStream_done keyring salt prefix source master Hk Hi Ht Hc) as (out & Hout & Hbytes).
  exists out, (plaintextsOf (chunks source)). split; [done|]. split; [|done]. intros Hp.
  rewrite decryptBackupStream_bytes. cbn [chunks throws]. rewrite Hp, Hbytes.
  set (header := streamHeader _ _ _). set (body := recordText _ _ _ _ _).
  pose proof (decryptBytes_header (activeKeyId keyring) salt prefix master keyring' false (header ++ body) body Hi Ls Lp
                ltac:(by rewrite Hk') ltac:(done)) as Hd. fold header in Hd.
  rewrite (proj2 (Nat.ltb_ge _ _)) in Hd by (rewrite length_app; lia).
  destruct Hd as (s' & Es & _ & ->). apply app_inv_head in Es as <-. apply recordsOf_text; [done|lia|].
  unfold body, recordText. rewrite length_app, encryptRecord_length. cbn [length].
  pose proof (encryptRecords_length (dataKey master salt) header prefix 0 (plaintextsOf (chunks source)) ltac:(lia)). lia.
Qed.

(** A cut object is refused: decrypting any proper prefix of an encrypted object, in
    whatever chunks, ends with the typed failure; but the records before the cut have
    been yielded by then, and are what the object held. *)
Theorem backup_truncation_refused keyring keyring' salt prefix source out pieces :
  isKeyId (activeKeyId keyring) = true →
  is_Some (keyOf (activeKeyId keyring) (keys keyring)) →
  keyOf (activeKeyId keyring) (keys keyring') = keyOf (activeKeyId keyring) (keys keyring) →
  length salt = saltBytes → length prefix = noncePrefixBytes →
  throws source = false → (N.of_nat (length (concat (chunks source))) <= 65536 * 4294967294)%N →
  encryptBackupStream source keyring salt prefix = (out, Complete) →
  concat pieces `prefix_of` concat out → length (concat pieces) < length (concat out) →
  ∃ yielded, decryptBackupStream {| chunks := pieces; throws := false |} keyring' = (yielded, Failed ends_early) ∧
    concat yielded `prefix_of` concat (chunks source).
Proof.
  intros Hi [master Hk] Hk' Ls Lp Ht Hn He Hpre Hlt.
  destruct (plaintextsOf_spec (chunks source)) as (Hcat & Hall & Hlen).
  assert (N.of_nat (length (plaintextsOf (chunks source))) < 4294967296)%N as Hc by lia.
  destruct (encryptBackupStream_done keyring salt prefix source master Hk Hi Ht Hc) as (out' & Hout & Hbytes).
  rewrite He in Hout. injection Hout as <-. rewrite Hbytes in Hpre, Hlt.
  rewrite decryptBackupStream_bytes. cbn [chunks throws].
  pose proof (decryptBytes_header (activeKeyId keyring) salt prefix master keyring' false (concat pieces) _ Hi Ls Lp
                ltac:(by rewrite Hk') Hpre) as Hd.
  destruct (Nat.ltb_spec (length (concat pieces)) (length (streamHeader (activeKeyId keyring) salt prefix))) as [Hs|Hs].
  - rewrite Hd. exists []. split; [done|]. apply prefix_nil.
  - destruct Hd as (s' & Es & Hs' & ->). rewrite Es, !length_app in Hlt.
    destruct (recordsOf_cut (S (length s')) (dataKey master salt) (streamHeader (activeKeyId keyring) salt prefix) prefix 0
                _ s' Hall ltac:(lia) Hs' ltac:(lia)) as (yielded & Hy & -> & _).
    exists yielded. split; [done|]. rewrite <- Hcat. destruct Hy as [more ->]. rewrite concat_app. by apply prefix_app_r.
Qed.

Lemma forallb_take_drop n bs : forallb isByte bs = true → forallb isByte (take n bs) = true ∧ forallb isByte (drop n bs) = true.
Proof. intros Hb. rewrite <- (take_drop n bs), forallb_app in Hb. by apply andb_true_iff in Hb. Qed.

(** A record that is accepted is the sealing of its plaintext at its place. *)
Lemma recordOf_inv cipherKey header prefix counter ended bs o tail :
  forallb isByte bs = true → recordOf cipherKey header prefix counter ended bs = inr (o, tail) →
  fitsUint32 counter = true ∧ ∃ plaintext, length plaintext ≤ chunkBytes ∧
    o = (if (length plaintext =? 0)%nat then None else Some plaintext) ∧
    bs = encryptRecord cipherKey header prefix counter (length plaintext =? 0)%nat plaintext ++ tail.
Proof.
  intros Hb. unfold recordOf. destruct (Nat.ltb_spec (length bs) 4) as [|H4]; [done|]. cbv zeta.
  destruct (forallb_take_drop 4 bs Hb) as [Hb4 _]. set (size := readUint32BE (take 4 bs)).
  destruct (65536 <? size)%N eqn:Hs; [done|].
  destruct (Nat.ltb_spec (length (drop 4 bs)) (N.to_nat size + tagBytes)) as [|Hl]; [done|].
  destruct (fitsUint32 counter) eqn:Hc; [|done]. cbn [negb]. set (r := drop 4 bs) in *.
  set (body := take (N.to_nat size + tagBytes) r).
  assert (length body = N.to_nat size + tagBytes) as Lb by (unfold body; rewrite length_take; lia).
  destruct (gcmOpen _ _ _ _ _) as [plaintext|] eqn:Ho; [|done]. intros [= <- <-]. split; [done|].
  assert (length (drop (N.to_nat size) body) = 16) as Lt by (rewrite length_drop, Lb; unfold tagBytes; lia).
  apply (open_full _ _ _ _ _ _ Lt) in Ho.
  destruct (seal_length cipherKey (nonceFor prefix counter) (recordAad header counter (size =? 0)%N) plaintext) as [Lc _].
  rewrite Ho in Lc. cbn [fst] in Lc. rewrite length_take, Lb in Lc.
  exists plaintext. assert (length plaintext = N.to_nat size) as Lp by lia.
  assert ((length plaintext =? 0)%nat = (size =? 0)%N) as -> by (rewrite Lp; lia).
  split; [unfold chunkBytes; lia|]. split; [done|].
  unfold encryptRecord. rewrite Ho, length_take, Lb, Nat.min_l, N2Nat.id by lia.
  unfold size. rewrite uint32BE_readUint32BE by (done || rewrite length_take; lia). fold size.
  rewrite <- !app_assoc, (app_assoc (take (N.to_nat size) body)), take_drop. unfold body. rewrite take_drop. unfold r.
  by rewrite take_drop.
Qed.

Lemma recordOf_failure cipherKey header prefix counter failure bs :
  recordOf cipherKey header prefix counter (Failed ends_early) bs = inl failure → failure ≠ Complete.
Proof.
  unfold recordOf. destruct (length bs <? 4)%nat; [by intros [= <-]|]. cbv zeta.
  destruct (65536 <? _)%N; [by intros [= <-]|]. destruct (_ <? _)%nat; [by intros [= <-]|].
  destruct (negb _); [by intros [= <-]|]. destruct (gcmOpen _ _ _ _ _); [done|]. by intros [= <-].
Qed.

Lemma recordsOf_complete fuel cipherKey header prefix counter bs yielded :
  forallb isByte bs = true → recordsOf fuel cipherKey header prefix counter false bs = (yielded, Complete) →
  bs = recordText cipherKey header prefix counter yielded ∧ Forall isChunk yielded.
Proof.
  revert counter bs yielded. induction fuel as [|fuel IH]; intros counter bs yielded Hb; [done|]. cbn [recordsOf].
  destruct (recordOf _ _ _ _ _ bs) as [failure|[o tail]] eqn:Hr; [by intros [= <- ->]; apply recordOf_failure in Hr|].
  apply recordOf_inv in Hr as (Hc & p & Hp & -> & ->); [|done].
  rewrite forallb_app in Hb. apply andb_true_iff in Hb as [_ Hb].
  destruct (Nat.eqb_spec (length p) 0) as [H0|H0].
  - apply length_zero_iff_nil in H0 as ->. destruct (Nat.eqb_spec (length tail) 0) as [Ht|]; [|done].
    apply length_zero_iff_nil in Ht as ->. intros [= <-]. split; [|done].
    unfold recordText. cbn. by rewrite app_nil_r, N.add_0_r.
  - specialize (IH (counter + 1)%N tail). destruct (recordsOf fuel _ _ _ _ _ tail) as [more ending].
    intros [= <- ->]. destruct (IH more Hb eq_refl) as [-> Hall]. split; [by rewrite recordText_cons|].
    constructor; [|done]. unfold isChunk. lia.
Qed.

(** C37. What restores is what was sealed. Bytes that decrypt to the end are, one for one,
    the header of a key the keyring holds and the sealings, under its data key and at
    their own places, of the records yielded, with the final record last and nothing
    after it. *)
Theorem backup_stream_authentic source keyring yielded :
  throws source = false → forallb isByte (concat (chunks source)) = true →
  decryptBackupStream source keyring = (yielded, Complete) →
  ∃ keyId master salt prefix, isKeyId keyId = true ∧ keyOf keyId (keys keyring) = Some master ∧
    length salt = saltBytes ∧ length prefix = noncePrefixBytes ∧ Forall isChunk yielded ∧
    concat (chunks source) =
    streamHeader keyId salt prefix ++ recordText (dataKey master salt) (streamHeader keyId salt prefix) prefix 0 yielded.
Proof.
  intros Ht Hb. rewrite decryptBackupStream_bytes, Ht. set (bs := concat (chunks source)) in *. clearbody bs.
  unfold decryptBytes. set (klen := N.to_nat _). cbv zeta.
  destruct (Nat.ltb_spec (length bs) 6) as [|H6]; [done|].
  case_bool_decide as Hm; [|done]. case_bool_decide as Hv; [|done]. cbn [negb].
  destruct ((klen =? 0)%nat || (32 <? klen)%nat); [done|].
  destruct (Nat.ltb_spec (length bs) (6 + klen)) as [|Hk]; [done|].
  set (kb := take klen (drop 6 bs)). destruct (isKeyId (fromUtf8 kb)) eqn:Hi; [|done]. cbn [negb].
  destruct (keyOf (fromUtf8 kb) (keys keyring)) as [master|] eqn:Hkey; [|done].
  destruct (Nat.ltb_spec (length bs) (headerLength klen)) as [|Hh]; [done|].
  set (salt := take saltBytes (drop (6 + klen) bs)). set (prefix := take noncePrefixBytes (drop (6 + klen + saltBytes) bs)).
  assert (fromUtf8 kb = kb) as Ekb.
  { apply fromUtf8_ascii. unfold isKeyId in Hi. rewrite !andb_true_iff in Hi. destruct Hi as [[Hi _] _]. by apply base64url_ascii. }
  rewrite Ekb in *. destruct (isKeyId_utf8 kb Hi) as (Hu & _ & _).
  assert (length kb = klen) as Lkb by (unfold kb; rewrite length_take, length_drop; lia).
  assert (take (headerLength klen) bs = streamHeader kb salt prefix) as Hhd.
  { unfold headerLength. rewrite !take_take_drop. unfold streamHeader. rewrite Hu, Lkb, <- !app_assoc.
    fold salt prefix kb. change (take 6 bs) with (take (4 + 2) bs). rewrite (take_take_drop 4 2 bs), Hm, <- app_assoc. f_equal.
    assert (take 2 (drop 4 bs) = [streamVersion; N.of_nat klen]) as ->; [|done].
    destruct (bs !! 5) as [x|] eqn:H5; [|apply lookup_ge_None in H5; lia].
    assert (klen = N.to_nat x) as Ek by done. rewrite Ek, N2Nat.id.
    apply list_eq. intros [|[|j]].
    - rewrite lookup_take_lt by lia. by rewrite lookup_drop.
    - rewrite lookup_take_lt by lia. by rewrite lookup_drop.
    - rewrite lookup_take_ge by lia. done. }
  intros Hr. rewrite Hhd in Hr. apply recordsOf_complete in Hr as [Hbs Hall]; [|by apply forallb_take_drop].
  exists kb, master, salt, prefix. split_and!; try done.
  - unfold salt. rewrite length_take, length_drop. unfold headerLength in Hh. unfold saltBytes, noncePrefixBytes in *. lia.
  - unfold prefix. rewrite length_take, length_drop. unfold headerLength in Hh. unfold saltBytes, noncePrefixBytes in *. lia.
  - rewrite <- Hhd, <- Hbs at 1. by rewrite take_drop.
Qed.
End objects.

(** ** The keyring from the environment *)

Inductive ConfigError := keys_not_set | active_not_set | keys_malformed | keyring_unusable (cause : KeyringError).

Definition backupKeyringFromEnvironment `{Base64Platform} (env : jstr → option jstr) : result ConfigError CredentialKeyring :=
  match (trim <$> env (u "PORKBOT_BACKUP_KEYS")) ≫= notBlank,
        (trim <$> env (u "PORKBOT_BACKUP_ACTIVE_KEY")) ≫= notBlank with
  | None, _ => Err keys_not_set
  | _, None => Err active_not_set
  | Some encodedKeys, Some active =>
      match keyListEntries encodedKeys with
      | None => Err keys_malformed
      | Some entries => result_map_err keyring_unusable (createCredentialKeyring active entries)
      end
  end.

Definition keyringKeyIds (keyring : CredentialKeyring) : list jstr :=
  activeKeyId keyring :: List.filter (λ id, negb (bool_decide (id = activeKeyId keyring))) (keys keyring).*1.

(** ** The key envelope *)

Definition envelopeScrypt (salt : bytes) : BackupEnvelopeKdf :=
  {| BackupPolicy.salt := base64url salt; n := 32768; r := 8; p := 1; keyLength := 32 |}.

Definition envelopeMaxmem : Z := 64 * 1024 * 1024.

(** [scryptSync] of the passphrase, the salt, the length, the costs and [maxmem];
    [None] when it throws for its parameters. *)
Class ScryptPlatform := scryptSync : jstr → bytes → Z → Z → Z → Z → Z → option bytes.

(** What [sealKeyEnvelope] and [openKeyEnvelope] throw: the typed
    [BackupError("envelope_failed")] by its sentence, or the platform's own error. *)
Inductive EnvelopeFailure :=
| empty_passphrase | bad_shape (cause : BackupEnvelopeError) | wrong_size | wrong_passphrase | not_json | not_keyring
| envelope_keyring (cause : option KeyringError) | platform_threw.

Section envelope.
Context `{AeadPlatform} `{Base64Platform} `{ScryptPlatform}.

Definition deriveSealingKey (passphrase : jstr) (salt : bytes) (k : BackupEnvelopeKdf) : option bytes :=
  scryptSync passphrase salt (keyLength k) (n k) (r k) (p k) envelopeMaxmem.

(** The sealed text: the active id and every key, in base64. *)
Definition keyringText (keyring : CredentialKeyring) : written :=
  WRecord [(u "activeKeyId", WString (activeKeyId keyring));
           (u "keys", WList ((λ ik, WRecord [(u "id", WString ik.1); (u "key", WString (base64 ik.2))]) <$> keys keyring))].

Definition sealKeyEnvelope (keyring : CredentialKeyring) (passphrase : jstr) (salt iv : bytes) :
    result EnvelopeFailure BackupKeyEnvelope :=
  if (strlen passphrase =? 0)%Z then Err empty_passphrase
  else
    let header := {| kdf := envelopeScrypt salt; BackupPolicy.iv := base64url iv; authTag := []; ciphertext := [] |} in
    match deriveSealingKey passphrase salt (kdf header) with
    | None => Err platform_threw
    | Some sealingKey =>
        let '(ct, tag) := gcmSeal sealingKey iv (utf8 (backupEnvelopeAad header)) (utf8 (jsonText (keyringText keyring))) in
        Ok {| kdf := kdf header; BackupPolicy.iv := BackupPolicy.iv header;
              authTag := base64url tag; ciphertext := base64url ct |}
    end.

(** One element of the parsed [keys]; the model reads ids and keys that are strings, as
    every sealed keyring has, and takes any other for unusable. *)
Definition readEntry (entry : jsval) : option CredentialKeyringEntry :=
  record ← asRecord entry;
  id ← asString (getField (u "id") record);
  key ← asString (getField (u "key") record);
  Some {| entryId := id; entryKey := key |}.

Definition openPlaintext (plaintext : bytes) : result EnvelopeFailure CredentialKeyring :=
  match parseJson (fromUtf8 plaintext) with
  | None => Err not_json
  | Some (JNull | JUndefined) => Err platform_threw
  | Some parsed =>
      match asRecord parsed with
      | None => Err not_keyring
      | Some record =>
          match getField (u "activeKeyId") record, getField (u "keys") record with
          | JString active, JArray entries =>
              match mapM readEntry entries with
              | None => Err (envelope_keyring None)
              | Some entries => result_map_err (λ e, envelope_keyring (Some e)) (createCredentialKeyring active entries)
              end
          | _, _ => Err not_keyring
          end
      end
  end.

Definition openKeyEnvelope (value : jsval) (passphrase : jstr) : result EnvelopeFailure CredentialKeyring :=
  match parseBackupKeyEnvelope value with
  | Err e => Err (bad_shape e)
  | Ok envelope =>
      let salt := fromBase64 (BackupPolicy.salt (kdf envelope)) in
      let iv := fromBase64 (BackupPolicy.iv envelope) in
      let tag := fromBase64 (authTag envelope) in
      if negb (length salt =? saltBytes)%nat || negb (length iv =? 12)%nat then Err wrong_size
      else match deriveSealingKey passphrase salt (kdf envelope) with
           | None => Err platform_threw
           | Some sealingKey =>
               if negb (isTagLength (length tag)) then Err platform_threw
               else match gcmOpen sealingKey iv (utf8 (backupEnvelopeAad envelope)) (fromBase64 (ciphertext envelope)) tag with
                    | None => Err wrong_passphrase
                    | Some plaintext => openPlaintext plaintext
                    end
           end
  end.
End envelope.

(** ** A sealed keyring opens *)

Lemma base64_chars bs :
  forallb isByte bs = true →
  Forall (λ c, isSpace c = false ∧ (c =? 45)%N = false ∧ (c =? 95)%N = false ∧ (c <? 128)%N = true) (base64 bs).
Proof.
  intros Hb. unfold base64. apply Forall_app. split.
  - apply Forall_fmap. eapply Forall_impl; [by apply base64Digits_range|]. cbn. intros v Hv. unfold base64Char.
    repeat case_match; unfold isSpace; (split_and!; [|lia..]);
      rewrite bool_decide_false by (rewrite !elem_of_cons, elem_of_nil; lia); lia.
  - unfold padding. repeat case_match; repeat constructor.
Qed.

Lemma normalizeKeyText_base64 bs : forallb isByte bs = true → normalizeKeyText (base64 bs) = base64 bs.
Proof.
  intros Hb%base64_chars. unfold normalizeKeyText. rewrite trim_no_space by (eapply Forall_impl; [exact Hb|]; by intros c [? _]).
  induction Hb as [|c s (_ & H1 & H2 & _) _ IH]; [done|]. cbn. by rewrite H1, H2, IH.
Qed.

Lemma base64_ascii bs : forallb isByte bs = true → isAscii (base64 bs) = true.
Proof.
  intros Hb%base64_chars. unfold isAscii. apply forallb_forall. intros c Hc%list_elem_of_In.
  rewrite Forall_forall in Hb. by destruct (Hb c Hc) as (_ & _ & _ & ?).
Qed.

(** A keyring [createCredentialKeyring] can have made. *)
Definition isKeyring (keyring : CredentialKeyring) : Prop :=
  Forall (λ ik, isKeyId ik.1 = true ∧ length ik.2 = keyBytes ∧ forallb isByte ik.2 = true) (keys keyring) ∧
  NoDup (keys keyring).*1 ∧ activeKeyId keyring ∈ (keys keyring).*1.

Lemma jsonText_ascii_head c s : startsValue c → ∃ r, utf8 (c :: s) = c :: r.
Proof.
  intros Hc. unfold startsValue in Hc. rewrite !elem_of_cons, elem_of_nil in Hc.
  exists (utf8 s). rewrite utf8_one.
  - unfold encodeScalar. by replace (c <? 128)%N with true by lia.
  - unfold isHighSurrogate, isLowSurrogate. lia.
Qed.

Section opens.
Context `{AeadLaws} `{Base64Laws} `{ScryptPlatform}.

Definition entryOf (ik : jstr * bytes) : CredentialKeyringEntry := {| entryId := ik.1; entryKey := base64 ik.2 |}.

Lemma isKeyId_text kid : isKeyId kid = true → isText kid = true.
Proof. unfold isKeyId. rewrite !andb_true_iff. intros [[Hf _] _]. by apply isAscii_text, base64url_ascii. Qed.

Lemma keyringText_writable keyring : isKeyring keyring → writable (keyringText keyring) = true.
Proof.
  intros (Hall & _ & Hact). unfold keyringText. cbn -[isText u].
  assert (isText (activeKeyId keyring) = true) as ->.
  { apply list_elem_of_fmap in Hact as (ik & -> & Hin). rewrite Forall_forall in Hall. by apply isKeyId_text, Hall. }
  assert (forallb writable ((λ ik, WRecord [(u "id", WString ik.1); (u "key", WString (base64 ik.2))]) <$> keys keyring) = true) as ->;
    [|by vm_compute].
  clear Hact. induction Hall as [|[kid key] ks (Hi & Hl & Hb) _ IH]; [done|].
  cbn -[isText u base64]. cbn -[isText u base64] in IH. rewrite IH.
  cbn [fst snd] in Hi, Hb. rewrite (isKeyId_text kid Hi), (isAscii_text (base64 key)) by by apply base64_ascii. by vm_compute.
Qed.

Lemma readEntry_own ik :
  readEntry (valueOf (WRecord [(u "id", WString ik.1); (u "key", WString (base64 ik.2))])) = Some (entryOf ik).
Proof. done. Qed.

Lemma openPlaintext_own keyring : isKeyring keyring → openPlaintext (utf8 (jsonText (keyringText keyring))) = Ok keyring.
Proof.
  intros Hk. pose proof Hk as (Hall & Hnd & Hact). unfold openPlaintext.
  rewrite readUtf8_jsonText by by apply keyringText_writable.
  set (entries := valueOf <$> ((λ ik, WRecord [(u "id", WString ik.1); (u "key", WString (base64 ik.2))]) <$> keys keyring)).
  change (valueOf (keyringText keyring)) with
    (JObject [(u "activeKeyId", JString (activeKeyId keyring)); (u "keys", JArray entries)]).
  assert (mapM readEntry entries = Some (entryOf <$> keys keyring)) as He.
  { unfold entries. rewrite <- list_fmap_compose. apply mapM_Some. apply Forall2_fmap, Forall_Forall2_diag, Forall_forall.
    intros ik _. by rewrite <- readEntry_own. }
  cbv iota beta. cbn [asRecord].
  change (getField (u "activeKeyId") _) with (JString (activeKeyId keyring)).
  change (getField (u "keys") _) with (JArray entries). cbv iota beta. rewrite He.
  assert (createCredentialKeyring (activeKeyId keyring) (entryOf <$> keys keyring) = Ok keyring) as ->; [|done].
  assert (entryPair <$> (entryOf <$> keys keyring) = keys keyring) as Ep.
  { rewrite <- list_fmap_compose. rewrite <- (list_fmap_id (keys keyring)) at 2. apply list_fmap_ext.
    intros i [kid key] Hin%list_elem_of_lookup_2. rewrite Forall_forall in Hall. destruct (Hall _ Hin) as (_ & _ & Hb).
    unfold entryPair, entryOf. cbn [compose entryId entryKey fst snd] in *.
    by rewrite normalizeKeyText_base64, from_base64. }
  assert ((entryId <$> (entryOf <$> keys keyring)) = (keys keyring).*1) as Ei by by rewrite <- list_fmap_compose.
  apply createCredentialKeyring_iff. rewrite Ei, Ep. split_and!; [|done|done|by destruct keyring].
  apply Forall_fmap. eapply Forall_impl; [exact Hall|]. intros [kid key] (Hi & Hl & Hb). cbn [fst snd] in *.
  unfold goodEntry, entryPair, entryOf. cbn [compose entryId entryKey fst snd].
  by rewrite normalizeKeyText_base64, from_base64.
Qed.

(** The envelope with its tag cut to [m] bytes. *)
Definition cutTag (m : nat) (e : BackupKeyEnvelope) : BackupKeyEnvelope :=
  {| kdf := kdf e; BackupPolicy.iv := BackupPolicy.iv e; authTag := base64url (take m (fromBase64 (authTag e)));
     ciphertext := ciphertext e |}.

Lemma base64Text_url bs : forallb isByte bs = true → bs ≠ [] → isBase64Text (base64url bs) = true.
Proof.
  intros Hb Hne. unfold isBase64Text. rewrite base64url_chars by done. apply base64url_nonempty in Hne.
  destruct (base64url bs) as [|c s]; [done|]. unfold strlen. cbn [length]. by rewrite (proj2 (Z.eqb_neq _ _)) by lia.
Qed.

Lemma nonempty_length {A} (l : list A) : 0 < length l → l ≠ [].
Proof. intros Hl ->. cbn in Hl. lia. Qed.

Lemma sealed_opens keyring passphrase salt iv envelope m :
  isKeyring keyring → length salt = saltBytes → length iv = 12 → forallb isByte salt && forallb isByte iv = true →
  sealKeyEnvelope keyring passphrase salt iv = Ok envelope → isTagLength m = true →
  openKeyEnvelope (valueOf (envelopeRecord (cutTag m envelope))) passphrase = Ok keyring ∧
  (m = 16 → cutTag m envelope = envelope).
Proof.
  intros Hk Ls Li Hb He Hm. apply andb_true_iff in Hb as [Hbs Hbi]. unfold sealKeyEnvelope in He.
  destruct (strlen passphrase =? 0)%Z; [done|].
  destruct (deriveSealingKey passphrase salt _) as [sealingKey|] eqn:Hd; [|done].
  set (header := {| kdf := envelopeScrypt salt; BackupPolicy.iv := base64url iv; authTag := []; ciphertext := [] |}) in *.
  set (pt := utf8 (jsonText (keyringText keyring))) in *. set (aad := utf8 (backupEnvelopeAad header)) in *.
  pose proof (keyringText_writable keyring Hk) as Hw.
  assert (forallb isByte pt = true) as Hpt by (apply utf8_bytes, jsonText_wellFormed, Hw).
  destruct (seal_length sealingKey iv aad pt) as [Lc Lt]. destruct (seal_bytes sealingKey iv aad pt Hpt) as [Bc Bt].
  destruct (gcmSeal sealingKey iv aad pt) as [ct tag] eqn:Es. cbn [fst snd] in *. injection He as <-.
  assert (0 < m ≤ 16) as Hm16.
  { unfold isTagLength in Hm. apply bool_decide_eq_true in Hm. rewrite !elem_of_cons, elem_of_nil in Hm. lia. }
  assert (forallb isByte (take m tag) = true) as Btm by by apply forallb_take_drop.
  assert (length (take m tag) = m) as Ltm by (rewrite length_take; lia).
  unfold cutTag. cbn [kdf BackupPolicy.iv authTag ciphertext]. rewrite (from_base64url tag) by done.
  split; [|intros ->; by rewrite take_ge by lia].
  assert (ct ≠ []) as Hct.
  { apply nonempty_length. rewrite Lc. unfold pt. destruct (jsonText_head (keyringText keyring)) as (c & s & E & Hc).
    rewrite E. destruct (jsonText_ascii_head c s Hc) as [r ->]. cbn. lia. }
  unfold openKeyEnvelope. rewrite parseBackupKeyEnvelope_record.
  2: { unfold isEnvelope, envelopeScrypt. cbn -[isBase64Text base64url].
       rewrite !base64Text_url by (done || apply nonempty_length; lia || (rewrite ?Ls, ?Li, ?Ltm; unfold saltBytes; lia)). done. }
  cbn [kdf BackupPolicy.iv BackupPolicy.salt authTag ciphertext envelopeScrypt]. rewrite !from_base64url by done.
  rewrite Ls, Li. cbn [negb orb Nat.eqb]. change (saltBytes =? saltBytes)%nat with true. cbn [negb orb].
  change (deriveSealingKey passphrase salt _) with (deriveSealingKey passphrase salt (kdf header)). rewrite Hd, Ltm, Hm. cbn [negb].
  change (utf8 (backupEnvelopeAad _)) with aad.
  assert (gcmOpen sealingKey iv aad ct (take m tag) = Some pt) as ->; [|by apply openPlaintext_own].
  apply open_seal; [by rewrite Ltm|]. by rewrite Es, Ltm.
Qed.

(** The keyring sealed under a passphrase opens under it, to the same keys in the same
    order with the same one active; and so does the envelope whose tag is cut to any
    length the platform takes, down to four bytes, which nothing refuses. *)
Theorem key_envelope_roundtrip keyring passphrase salt iv envelope :
  isKeyring keyring → length salt = saltBytes → length iv = 12 → forallb isByte salt && forallb isByte iv = true →
  sealKeyEnvelope keyring passphrase salt iv = Ok envelope →
  openKeyEnvelope (valueOf (envelopeRecord envelope)) passphrase = Ok keyring ∧
  ∀ m, isTagLength m = true → openKeyEnvelope (valueOf (envelopeRecord (cutTag m envelope))) passphrase = Ok keyring.
Proof.
  intros Hk Ls Li Hb He. split.
  - destruct (sealed_opens keyring passphrase salt iv envelope 16 Hk Ls Li Hb He eq_refl) as [Ho Hc].
    by rewrite Hc in Ho.
  - intros m Hm. by apply (sealed_opens keyring passphrase salt iv envelope m).
Qed.
End opens.

(** ** A sample object and a sample envelope *)

Definition backupRing : CredentialKeyring := {| activeKeyId := u "k1"; keys := [(u "k1", repeat 1%N 32); (u "k2", repeat 2%N 32)] |}.
Definition sampleSource : Source := {| chunks := [[1; 2]; [3]]%N; throws := false |}.
Definition sampleSalt : bytes := repeat 5%N 16.
Definition samplePrefix : bytes := repeat 6%N 8.

Lemma backup_stream_roundtrip_witness :
  ∃ out yielded, encryptBackupStream sampleSource backupRing sampleSalt samplePrefix = (out, Complete) ∧
    decryptBackupStream {| chunks := [take 7 (concat out); drop 7 (concat out)]; throws := false |} backupRing = (yielded, Complete) ∧
    concat yielded = [1; 2; 3]%N.
Proof.
  destruct (backup_stream_roundtrip backupRing backupRing sampleSalt samplePrefix sampleSource
    [take 7 (concat (encryptBackupStream sampleSource backupRing sampleSalt samplePrefix).1);
     drop 7 (concat (encryptBackupStream sampleSource backupRing sampleSalt samplePrefix).1)])
    as (out & yielded & Ho & Hd & Hc & _); [by eexists|reflexivity..|vm_compute; discriminate|].
  exists out, yielded. split; [exact Ho|]. rewrite Ho in Hd. cbn [fst] in Hd. split; [|exact Hc].
  apply Hd. cbn [concat]. by rewrite app_nil_r, take_drop.
Defined.

Lemma backup_truncation_refused_witness :
  ∃ yielded, decryptBackupStream
    {| chunks := [take 60 (concat (encryptBackupStream sampleSource backupRing sampleSalt samplePrefix).1)]; throws := false |}
    backupRing = (yielded, Failed ends_early) ∧ concat yielded `prefix_of` [1; 2; 3]%N ∧
  (decryptBackupStream
    {| chunks := [take 60 (concat (encryptBackupStream sampleSource backupRing sampleSalt samplePrefix).1)]; throws := false |}
    backupRing).1 = [[1; 2; 3]%N].
Proof.
  destruct (backup_truncation_refused backupRing backupRing sampleSalt samplePrefix sampleSource
    (encryptBackupStream sampleSource backupRing sampleSalt samplePrefix).1
    [take 60 (concat (encryptBackupStream sampleSource backupRing sampleSalt samplePrefix).1)])
    as (yielded & Hy & Hp); [reflexivity|by eexists|reflexivity..|vm_compute; discriminate|vm_compute; reflexivity| | |].
  - cbn [concat]. rewrite app_nil_r. apply prefix_take.
  - vm_compute. lia.
  - exists yielded. split; [exact Hy|]. split; [exact Hp|]. vm_compute. reflexivity.
Defined.

Lemma backup_stream_authentic_witness :
  (decryptBackupStream {| chunks := (encryptBackupStream sampleSource backupRing sampleSalt samplePrefix).1; throws := false |}
     backupRing) = ([[1; 2; 3]%N], Complete) ∧
  ∃ keyId master salt prefix, isKeyId keyId = true ∧ keyOf keyId (keys backupRing) = Some master ∧
    length salt = saltBytes ∧ length prefix = noncePrefixBytes ∧ Forall isChunk [[1; 2; 3]%N] ∧
    concat (encryptBackupStream sampleSource backupRing sampleSalt samplePrefix).1 =
    streamHeader keyId salt prefix ++ recordText (dataKey master salt) (streamHeader keyId salt prefix) prefix 0 [[1; 2; 3]%N].
Proof.
  assert (Hd : decryptBackupStream
      {| chunks := (encryptBackupStream sampleSource backupRing sampleSalt samplePrefix).1; throws := false |} backupRing
    = ([[1; 2; 3]%N], Complete)) by (vm_compute; reflexivity).
  split; [exact Hd|].
  refine (backup_stream_authentic _ backupRing [[1; 2; 3]%N] _ _ Hd); vm_compute; reflexivity.
Defined.

(** A key derivation that takes the documented costs. *)
Definition sampleScrypt : ScryptPlatform := λ passphrase salt len n r p maxmem,
  if (128 * n * r <? maxmem)%Z then Some (hkdfSha256 (utf8 passphrase) salt [] 32) else None.

Lemma key_envelope_roundtrip_witness :
  ∃ envelope, sealKeyEnvelope (H1 := sampleScrypt) backupRing (u "pass") sampleSalt (repeat 7%N 12) = Ok envelope ∧
    openKeyEnvelope (H1 := sampleScrypt) (valueOf (envelopeRecord envelope)) (u "pass") = Ok backupRing ∧
    openKeyEnvelope (H1 := sampleScrypt) (valueOf (envelopeRecord (cutTag 4 envelope))) (u "pass") = Ok backupRing ∧
    openKeyEnvelope (H1 := sampleScrypt) (valueOf (envelopeRecord envelope)) (u "word") = Err wrong_passphrase.
Proof.
  destruct (sealKeyEnvelope (H1 := sampleScrypt) backupRing (u "pass") sampleSalt (repeat 7%N 12)) as [envelope|] eqn:He;
    [|vm_compute in He; discriminate].
  exists envelope. split; [reflexivity|].
  destruct (key_envelope_roundtrip (H1 := sampleScrypt) backupRing (u "pass") sampleSalt (repeat 7%N 12) envelope) as [Ho Hc];
    [|reflexivity..|exact He|].
  - split_and!; [repeat constructor|apply (bool_decide_unpack _); vm_compute; reflexivity|left].
  - split; [exact Ho|]. split; [apply Hc; reflexivity|]. vm_compute in He. injection He as <-. vm_compute. reflexivity.
Defined.
