(* ===== verification/BackupRuns.v ===== *)
(** A nightly backup and its watchdog: the ledger of packages/db/src/backup-store.ts
    over the table it names, the run of apps/backup/src/run.ts with its retention pass
    and its drill, the due check of apps/backup/src/cli.ts, and the episode claims the
    worker's watchdog makes.  What pg_dump, the homes, storage and the scratch restore
    answer, and which ledger statements fail, is the run's environment; a statement
    that fails changes nothing. *)

From S2P Require Import Prelude JsText JsValue Calendar BackupPolicy.

(** ** The ledger's tables *)

(** The closed codes of [BackupError] a run records. *)
Inductive BackupErrorCode :=
| dump_failed | restore_failed | scratch_database_failed | canary_mismatch | storage_failed | cipher_failed
| envelope_failed | config_invalid | retention_failed | already_running | internal_error.

#[export] Instance BackupErrorCode_eq_dec : EqDecision BackupErrorCode.
Proof. solve_decision. Defined.

Record StoredBackupObject := { soKey : jstr; soSize : Z; soChecksum : jstr }.

Record CopiedHomes := { chCount : Z; chBytes : Z; chKeys : list jstr }.

Record BackupRunRecord := {
  brId : jstr;
  brStatus : BackupRunStatus;
  brStartedAt : Z;
  brFinishedAt : option Z;
  brCanaryToken : jstr;
  brPostgres : option StoredBackupObject;
  brHomes : Z * Z;
  brPruned : Z;
  brErrorCode : option BackupErrorCode;
  brDrillStatus : option BackupRunStatus;
  brDrillStartedAt : option Z;
  brDrillFinishedAt : option Z;
  brDrillCanaryVerified : bool;
  brDrillErrorCode : option BackupErrorCode;
}.

Record LedgerTables := { runRows : list BackupRunRecord; canaryToken : option jstr; alertEpisodes : list (BackupAlertKind * jstr) }.

(** A patch of [settleRun]; the columns a failure leaves alone are absent. *)
Inductive SettleBackupRun :=
| SettleSucceeded (dump : StoredBackupObject) (homes : CopiedHomes) (pruned : Z)
| SettleFailed (errorCode : BackupErrorCode).

Definition withRows (db : LedgerTables) (rows : list BackupRunRecord) : LedgerTables :=
  {| runRows := rows; canaryToken := canaryToken db; alertEpisodes := alertEpisodes db |}.

(** [insert into backup_run]. *)
Definition beginRun (id token : jstr) (now : Z) (db : LedgerTables) : BackupRunRecord * LedgerTables :=
  let row := {| brId := id; brStatus := br_running; brStartedAt := now; brFinishedAt := None; brCanaryToken := token;
                brPostgres := None; brHomes := (0, 0)%Z; brPruned := 0; brErrorCode := None; brDrillStatus := None;
                brDrillStartedAt := None; brDrillFinishedAt := None; brDrillCanaryVerified := false; brDrillErrorCode := None |} in
  (row, withRows db (runRows db ++ [row])).

Definition writeCanary (token : jstr) (db : LedgerTables) : LedgerTables :=
  {| runRows := runRows db; canaryToken := Some token; alertEpisodes := alertEpisodes db |}.

Definition settledRow (patch : SettleBackupRun) (now : Z) (row : BackupRunRecord) : BackupRunRecord :=
  match patch with
  | SettleSucceeded dump homes pruned =>
      {| brId := brId row; brStatus := br_succeeded; brStartedAt := brStartedAt row; brFinishedAt := Some now;
         brCanaryToken := brCanaryToken row; brPostgres := Some dump; brHomes := (chCount homes, chBytes homes);
         brPruned := pruned; brErrorCode := None; brDrillStatus := brDrillStatus row; brDrillStartedAt := brDrillStartedAt row;
         brDrillFinishedAt := brDrillFinishedAt row; brDrillCanaryVerified := brDrillCanaryVerified row;
         brDrillErrorCode := brDrillErrorCode row |}
  | SettleFailed code =>
      {| brId := brId row; brStatus := br_failed; brStartedAt := brStartedAt row; brFinishedAt := Some now;
         brCanaryToken := brCanaryToken row; brPostgres := brPostgres row; brHomes := brHomes row;
         brPruned := brPruned row; brErrorCode := Some code; brDrillStatus := brDrillStatus row;
         brDrillStartedAt := brDrillStartedAt row; brDrillFinishedAt := brDrillFinishedAt row;
         brDrillCanaryVerified := brDrillCanaryVerified row; brDrillErrorCode := brDrillErrorCode row |}
  end.

Definition drilledRow (status : BackupRunStatus) (started : option Z) (finished : option Z) (verified : bool)
    (code : option BackupErrorCode) (row : BackupRunRecord) : BackupRunRecord :=
  {| brId := brId row; brStatus := brStatus row; brStartedAt := brStartedAt row; brFinishedAt := brFinishedAt row;
     brCanaryToken := brCanaryToken row; brPostgres := brPostgres row; brHomes := brHomes row; brPruned := brPruned row;
     brErrorCode := brErrorCode row; brDrillStatus := Some status; brDrillStartedAt := started; brDrillFinishedAt := finished;
     brDrillCanaryVerified := verified; brDrillErrorCode := code |}.

(** One [update ... where id = $ and <guard> returning]: [None] when no row matches. *)
Definition updateRow (id : jstr) (guard : BackupRunRecord → bool) (f : BackupRunRecord → BackupRunRecord) (db : LedgerTables) :
    option (BackupRunRecord * LedgerTables) :=
  match lookupKey brId id (runRows db) with
  | Some row => if guard row then Some (f row, withRows db (replaceWhere (keyIs brId id) (f row) (runRows db))) else None
  | None => None
  end.

Definition settleRun (id : jstr) (patch : SettleBackupRun) (now : Z) := updateRow id (λ _, true) (settledRow patch now).

(** A row drilled before is refused by the table's checks: a running drill has neither
    a finish nor an error. *)
Definition beginDrill (id : jstr) (now : Z) (db : LedgerTables) : option (BackupRunRecord * LedgerTables) :=
  updateRow id
    (λ row, bool_decide (brStatus row = br_succeeded) && bool_decide (brDrillFinishedAt row = None)
            && bool_decide (brDrillErrorCode row = None))
    (λ row, drilledRow br_running (Some now) None false None row) db.

Definition settleDrill (id : jstr) (outcome : result BackupErrorCode ()) (now : Z) (db : LedgerTables) :
    option (BackupRunRecord * LedgerTables) :=
  updateRow id (λ row, bool_decide (brDrillStatus row = Some br_running))
    (λ row, match outcome with
            | Ok _ => drilledRow br_succeeded (brDrillStartedAt row) (Some now) true None row
            | Err code => drilledRow br_failed (brDrillStartedAt row) (Some now) false (Some code) row
            end) db.

(** [insert into backup_alert ... on conflict (kind) do update ... where episode is
    distinct]: true for the caller that moved the kind's episode. *)
Definition claimAlert (kind : BackupAlertKind) (episode : jstr) (claimed : list (BackupAlertKind * jstr)) :
    bool * list (BackupAlertKind * jstr) :=
  match lookupKey fst kind claimed with
  | None => (true, claimed ++ [(kind, episode)])
  | Some (_, current) =>
      if bool_decide (current = episode) then (false, claimed)
      else (true, replaceWhere (keyIs fst kind) (kind, episode) claimed)
  end.

(** ** A run *)

(** A home snapshot of the listing: gone by its read, or copied to its size. *)
Record HomeObject := { hoKey : jstr; hoCopied : option (result BackupErrorCode Z) }.

(** The ledger statements of a run. *)
Inductive LedgerStep := at_begin | at_canary | at_settle | at_begin_drill | at_settle_drill | at_fail_drill | at_settle_failed.

#[export] Instance LedgerStep_eq_dec : EqDecision LedgerStep.
Proof. solve_decision. Defined.

Record RunEnvironment := {
  reId : jstr;
  reToken : jstr;
  reTime : LedgerStep → Z;
  reFails : LedgerStep → bool;
  rePruneNow : date;
  reDrillNow : date;
  reStamp : jstr;
  reDump : result BackupErrorCode (Z * jstr);
  reHomes : result BackupErrorCode (list HomeObject);
  reListing : option BackupErrorCode;
  reRemoves : option nat;
  reRetentionDays : jsnum;
  reDrillIntervalDays : jsnum;
  reForceDrill : bool;
  reRestored : result BackupErrorCode (option jstr);
}.

(** ** Reading the ledger *)

(** [order by column desc, id desc limit 1] over the rows where it is set: the row that
    comes first of the best so far and the next. *)
Definition newer (column : BackupRunRecord → option Z) (best : option BackupRunRecord) (row : BackupRunRecord) :
    option BackupRunRecord :=
  match column row, best ≫= λ b, (λ tb, (tb, b)) <$> column b with
  | None, _ => best
  | Some _, None => Some row
  | Some t, Some (tb, b) =>
      if (tb <? t)%Z || ((tb =? t)%Z && negb (leString (brId row) (brId b))) then Some row else Some b
  end.

Definition newest (column : BackupRunRecord → option Z) (rows : list BackupRunRecord) : option BackupRunRecord :=
  foldl (newer column) None rows.

(** A column of the rows a predicate selects. *)
Definition among (p : BackupRunRecord → bool) (column : BackupRunRecord → option Z) (row : BackupRunRecord) : option Z :=
  if p row then column row else None.

Record BackupStatus := {
  stLastRun : option BackupRunRecord;
  stLastSuccess : option BackupRunRecord;
  stLastDrill : option BackupRunRecord;
  stLastDrillRun : option BackupRunRecord;
}.

Definition readStatus (db : LedgerTables) : BackupStatus := {|
  stLastRun := newest (λ row, Some (brStartedAt row)) (runRows db);
  stLastSuccess := newest (among (λ row, bool_decide (brStatus row = br_succeeded)) brFinishedAt) (runRows db);
  stLastDrill := newest (among (λ row, bool_decide (brDrillStatus row = Some br_succeeded)) brDrillFinishedAt) (runRows db);
  stLastDrillRun := newest (among (λ row, bool_decide (is_Some (brDrillStatus row))) brDrillStartedAt) (runRows db);
|}.

Section run.
Variable dateParse : jstr → date.
Variable env : RunEnvironment.

Abbreviation archive := (list BackupObjectAge).

(** [archive.put]: the object is replaced or added, stamped by the storage's clock. *)
Definition putObject (k : jstr) (objects : archive) : archive :=
  List.filter (λ o, negb (bool_decide (key o = k))) objects ++ [{| key := k; lastModified := reStamp env |}].

(** The copying loop of [copyHomes]. *)
Fixpoint copyHomes (runId : jstr) (homes : list HomeObject) (copied : CopiedHomes) (objects : archive) :
    result BackupErrorCode CopiedHomes * archive :=
  match homes with
  | [] => (Ok copied, objects)
  | home :: homes =>
      match hoCopied home with
      | None => copyHomes runId homes copied objects
      | Some (Err code) => (Err code, objects)
      | Some (Ok size) =>
          let k := backupHomesKey runId (hoKey home) in
          copyHomes runId homes
            {| chCount := chCount copied + 1; chBytes := chBytes copied + size; chKeys := chKeys copied ++ [k] |}
            (putObject k objects)
      end
  end.

Definition deleteKeys (ks : list jstr) (objects : archive) : archive :=
  List.filter (λ o, negb (bool_decide (key o ∈ ks))) objects.

(** [prune]: the listing under the prefix, and the expired keys deleted one by one, up
    to one that fails. *)
Definition prune (protected : list jstr) (objects : archive) : result BackupErrorCode Z * archive :=
  match reListing env with
  | Some code => (Err code, objects)
  | None =>
      match selectExpiredBackupKeys dateParse (List.filter (λ o, startsWith (BACKUP_OBJECT_PREFIX ++ u "/") (key o)) objects)
              {| riNow := rePruneNow env; retentionDays := reRetentionDays env; protect := Some protected |} with
      | Err _ => (Err internal_error, objects)
      | Ok [] => (Ok 0%Z, objects)
      | Ok expired =>
          match reRemoves env with
          | None => (Ok (Z.of_nat (length expired)), deleteKeys expired objects)
          | Some n => if (length expired <=? n)%nat then (Ok (Z.of_nat (length expired)), deleteKeys expired objects)
                      else (Err retention_failed, deleteKeys (take n expired) objects)
          end
      end
  end.

(** [performRestoreDrill]: the restored canary against the run's own. *)
Definition performRestoreDrill (run : BackupRunRecord) : result BackupErrorCode () :=
  match brPostgres run with
  | None => Err restore_failed
  | Some _ =>
      restored ← reRestored env;
      match restored with
      | None => Err canary_mismatch
      | Some token => if bool_decide (token = brCanaryToken run) then Ok () else Err canary_mismatch
      end
  end.

(** A ledger statement that may fail. *)
Definition statement {A} (step : LedgerStep) (f : LedgerTables → option (A * LedgerTables)) (db : LedgerTables) :
    option (A * LedgerTables) := if reFails env step then None else f db.

(** [drillIfDue]: [Err] when it throws; the ledger keeps what it wrote. *)
Definition drillIfDue (settled : BackupRunRecord) (lastDrill : option Z) (db : LedgerTables) :
    result BackupErrorCode (option BackupRunRecord) * LedgerTables :=
  match (if reForceDrill env then Ok true
         else isDrillDue {| ddNow := reDrillNow env; ddLastDrillAt := Some <$> lastDrill; ddLastBackupAt := Some <$> brFinishedAt settled;
                            ddIntervalDays := Some (reDrillIntervalDays env) |}) with
  | Err _ => (Err internal_error, db)
  | Ok false => (Ok None, db)
  | Ok true =>
      match statement at_begin_drill (beginDrill (brId settled) (reTime env at_begin_drill)) db with
      | None => (Err internal_error, db)
      | Some (drilled, db) =>
          match statement at_settle_drill
                  (settleDrill (brId settled) (performRestoreDrill drilled) (reTime env at_settle_drill)) db with
          | Some (row, db) => (Ok (Some row), db)
          | None =>
              (** A success whose settling throws is settled as a failure. *)
              match performRestoreDrill drilled with
              | Ok _ =>
                  match statement at_fail_drill
                          (settleDrill (brId settled) (Err internal_error) (reTime env at_fail_drill)) db with
                  | Some (row, db) => (Ok (Some row), db)
                  | None => (Err internal_error, db)
                  end
              | Err _ => (Err internal_error, db)
              end
          end
      end
  end.

(** The body of the [try]: what it returns or the code of what it throws. *)
Definition backUp (run : BackupRunRecord) (lastDrill : option Z) (db : LedgerTables) (objects : archive) :
    result BackupErrorCode BackupRunRecord * (LedgerTables * archive) :=
  if reFails env at_canary then (Err internal_error, (db, objects))
  else
    let db := writeCanary (reToken env) db in
    match reDump env with
    | Err code => (Err code, (db, objects))
    | Ok (size, checksum) =>
        let dump := {| soKey := backupPostgresKey (brId run); soSize := size; soChecksum := checksum |} in
        let objects := putObject (soKey dump) objects in
        match reHomes env with
        | Err code => (Err code, (db, objects))
        | Ok homes =>
            let '(copied, objects) := copyHomes (brId run) homes {| chCount := 0; chBytes := 0; chKeys := [] |} objects in
            match copied with
            | Err code => (Err code, (db, objects))
            | Ok copied =>
                let '(pruned, objects) := prune (soKey dump :: chKeys copied) objects in
                match pruned with
                | Err code => (Err code, (db, objects))
                | Ok pruned =>
                    match statement at_settle
                            (settleRun (brId run) (SettleSucceeded dump copied pruned) (reTime env at_settle)) db with
                    | None => (Err internal_error, (db, objects))
                    | Some (settled, db) =>
                        let '(drilled, db) := drillIfDue settled lastDrill db in
                        ((drilled ≫= λ row, Ok (default settled row)), (db, objects))
                    end
                end
            end
        end
    end.

(** [performBackupRun]: [None] when a failure to write the ledger escapes. *)
Definition performBackupRun (lastDrill : option Z) (db : LedgerTables) (objects : archive) :
    option BackupRunRecord * (LedgerTables * archive) :=
  if reFails env at_begin then (None, (db, objects))
  else
    let '(run, db) := beginRun (reId env) (reToken env) (reTime env at_begin) db in
    match backUp run lastDrill db objects with
    | (Ok row, state) => (Some row, state)
    | (Err code, (db, objects)) =>
        match statement at_settle_failed (settleRun (brId run) (SettleFailed code) (reTime env at_settle_failed)) db with
        | Some (row, db) => (Some row, (db, objects))
        | None => (None, (db, objects))
        end
    end.
End run.

(** ** The command and the watchdog *)

(** [run --if-due]: [None] for a skipped run. *)
Definition runIfDue (dateParse : jstr → date) (env : RunEnvironment) (ifDue : bool) (schedule : NightlyBackupSchedule)
    (now : date) (db : LedgerTables) (objects : list BackupObjectAge) :
    result BackupRangeError (option (option BackupRunRecord * (LedgerTables * list BackupObjectAge))) :=
  let previous := readStatus db in
  due ← (if ifDue then isBackupDue now ((λ row, Some (brStartedAt row)) <$> stLastRun previous) schedule else Ok true);
  if (due : bool)
  then Ok (Some (performBackupRun dateParse env (stLastDrill previous ≫= brDrillFinishedAt) db objects))
  else Ok None.

(** What the watchdog reads off the ledger. *)
Definition alertInput (now : date) (status : BackupStatus) : BackupAlertInput := {|
  aiNow := now;
  lastRun := (λ row, {| BackupPolicy.status := brStatus row; startedAt := Some (brStartedAt row) |}) <$> stLastRun status;
  lastSuccessAt := Some <$> (stLastSuccess status ≫= brFinishedAt);
  lastDrillAt := Some <$> (stLastDrill status ≫= brDrillFinishedAt);
  lastDrillRun := (λ row, {| BackupPolicy.status := default br_running (brDrillStatus row);
                             startedAt := Some (default (brStartedAt row) (brDrillStartedAt row)) |}) <$> stLastDrillRun status;
  stalenessMs := None; drillStalenessMs := None; runTimeoutMs := None |}.

(** The loop of the watchdog's handler: the alerts it announces. *)
Fixpoint claimAll (alerts : list BackupAlert) (claimed : list (BackupAlertKind * jstr)) :
    list BackupAlert * list (BackupAlertKind * jstr) :=
  match alerts with
  | [] => ([], claimed)
  | alert :: alerts =>
      let '(moved, claimed) := claimAlert (kind alert) (episode alert) claimed in
      let '(announced, claimed) := claimAll alerts claimed in
      ((if moved then alert :: announced else announced), claimed)
  end.

Definition watchdogPass (now : date) (db : LedgerTables) : result BackupRangeError (list BackupAlert * LedgerTables) :=
  alerts ← decideBackupAlerts (alertInput now (readStatus db));
  let '(announced, claimed) := claimAll alerts (alertEpisodes db) in
  Ok (announced, {| runRows := runRows db; canaryToken := canaryToken db; alertEpisodes := claimed |}).

(** ** Rows under their statements *)

Lemma updateRow_some id guard f db row db' :
  (∀ r, brId (f r) = brId r) → updateRow id guard f db = Some (row, db') →
  ∃ old, lookupKey brId id (runRows db) = Some old ∧ guard old = true ∧ row = f old ∧
    lookupKey brId id (runRows db') = Some row ∧
    (∀ id', id' ≠ id → lookupKey brId id' (runRows db') = lookupKey brId id' (runRows db)) ∧
    canaryToken db' = canaryToken db ∧ alertEpisodes db' = alertEpisodes db.
Proof.
  intros Hf. unfold updateRow. destruct (lookupKey brId id (runRows db)) as [old|] eqn:Hl; [|done].
  destruct (guard old) eqn:Hg; [|done]. intros [= <- <-]. exists old. split_and!; try done.
  - cbn [runRows withRows]. rewrite lookupKey_replace, decide_True, Hl; [done|done|].
    rewrite Hf. by apply lookupKey_some in Hl as [_ ?].
  - intros id' Hne. cbn [runRows withRows]. rewrite lookupKey_replace, decide_False; [done|done|].
    rewrite Hf. by apply lookupKey_some in Hl as [_ ?].
Qed.

(** The identity and the start of every row, which no update changes. *)
Definition stamp (row : BackupRunRecord) : jstr * Z := (brId row, brStartedAt row).

Lemma updateRow_stamps id guard f db row db' :
  (∀ r, stamp (f r) = stamp r) → NoDup (brId <$> runRows db) →
  updateRow id guard f db = Some (row, db') → stamp <$> runRows db' = stamp <$> runRows db.
Proof.
  intros Hf Hnd. unfold updateRow. destruct (lookupKey brId id (runRows db)) as [old|] eqn:Hl; [|done].
  destruct (guard old); [|done]. intros [= <- <-]. cbn [runRows withRows]. unfold replaceWhere. rewrite <- list_fmap_compose.
  apply list_fmap_ext. intros i r Hr. cbn [compose]. unfold keyIs. case_bool_decide as Hk; [|done]. rewrite Hf.
  assert (lookupKey brId id (runRows db) = Some r) as Hr'.
  { apply lookupKey_elem; [done| |done]. by apply list_elem_of_lookup_2 in Hr. }
  congruence.
Qed.

Lemma settleRun_ids patch now r : brId (settledRow patch now r) = brId r.
Proof. by destruct patch. Qed.
Lemma settleRun_stamp patch now r : stamp (settledRow patch now r) = stamp r.
Proof. by destruct patch. Qed.

Section settles.
Variable dateParse : jstr → date.
Variable env : RunEnvironment.

(** A run of the ledger that keeps every other row. *)
Definition keepsOthers (db db' : LedgerTables) : Prop :=
  (∀ id, id ≠ reId env → lookupKey brId id (runRows db') = lookupKey brId id (runRows db)).

Lemma statement_some {A} step (f : LedgerTables → option (A * LedgerTables)) db r :
  statement env step f db = Some r → f db = Some r.
Proof. unfold statement. by destruct (reFails env step). Qed.

(** What the drill leaves: the settled row with its drill columns. *)
Lemma drillIfDue_spec settled lastDrill db :
  lookupKey brId (brId settled) (runRows db) = Some settled → brId settled = reId env →
  let '(r, db') := drillIfDue env settled lastDrill db in
  keepsOthers db db' ∧ canaryToken db' = canaryToken db ∧
  ∃ row, lookupKey brId (reId env) (runRows db') = Some row ∧
    brStatus row = brStatus settled ∧ brFinishedAt row = brFinishedAt settled ∧ brPostgres row = brPostgres settled ∧
    brErrorCode row = brErrorCode settled ∧ stamp row = stamp settled ∧
    (∀ o, r = Ok o → default settled o = row).
Proof.
  intros Hs Hid. unfold drillIfDue.
  assert (Hsame : ∀ r : result BackupErrorCode (option BackupRunRecord), (∀ o, r = Ok o → o = None) →
    keepsOthers db db ∧ canaryToken db = canaryToken db ∧
    ∃ row, lookupKey brId (reId env) (runRows db) = Some row ∧
      brStatus row = brStatus settled ∧ brFinishedAt row = brFinishedAt settled ∧ brPostgres row = brPostgres settled ∧
      brErrorCode row = brErrorCode settled ∧ stamp row = stamp settled ∧ (∀ o, r = Ok o → default settled o = row)).
  { intros r Hr. split; [done|]. split; [done|]. exists settled. rewrite <- Hid. split_and!; try done.
    by intros o ->%Hr. }
  destruct (if reForceDrill env then _ else _) as [[]|e]; [|by apply Hsame; intros o [= <-]|by apply Hsame].
  destruct (statement env at_begin_drill _ db) as [[drilled db1]|] eqn:Hb; [|by apply Hsame].
  apply statement_some, updateRow_some in Hb as (old & Hold & _ & Hd & Hl1 & Ho1 & Hc1 & _); [|done].
  rewrite Hs in Hold. injection Hold as <-.
  assert (Hsettle : ∀ step outcome row db2,
    statement env step (settleDrill (brId settled) outcome (reTime env step)) db1 = Some (row, db2) →
    keepsOthers db db2 ∧ canaryToken db2 = canaryToken db ∧ lookupKey brId (reId env) (runRows db2) = Some row ∧
    brStatus row = brStatus settled ∧ brFinishedAt row = brFinishedAt settled ∧ brPostgres row = brPostgres settled ∧
    brErrorCode row = brErrorCode settled ∧ stamp row = stamp settled).
  { intros step outcome row db2 H. apply statement_some, updateRow_some in H as (o2 & Ho2' & _ & -> & Hl2 & Hn2 & Hc2 & _);
      [|by intros r; destruct outcome].
    rewrite Hl1 in Ho2'. injection Ho2' as <-. rewrite Hid in *.
    split_and!; [intros id Hne; by rewrite Hn2, Ho1|by rewrite Hc2|done|..]; subst drilled; by destruct outcome. }
  assert (Hrow : ∀ r : result BackupErrorCode (option BackupRunRecord), (∀ o, r = Ok o → False) →
    keepsOthers db db1 ∧ canaryToken db1 = canaryToken db ∧
    ∃ row, lookupKey brId (reId env) (runRows db1) = Some row ∧
      brStatus row = brStatus settled ∧ brFinishedAt row = brFinishedAt settled ∧ brPostgres row = brPostgres settled ∧
      brErrorCode row = brErrorCode settled ∧ stamp row = stamp settled ∧ (∀ o, r = Ok o → default settled o = row)).
  { intros r Hr. rewrite Hid in *. split; [intros id Hne; by rewrite Ho1|]. split; [done|]. exists drilled. subst drilled.
    split_and!; try done. intros o Ho. by destruct (Hr o). }
  destruct (statement env at_settle_drill _ db1) as [[row db2]|] eqn:H2.
  - destruct (Hsettle _ _ _ _ H2) as (? & ? & ? & ?). split; [done|]. split; [done|]. exists row.
    split_and!; try tauto. by intros o [= <-].
  - destruct (performRestoreDrill env drilled); [|by apply Hrow].
    destruct (statement env at_fail_drill _ db1) as [[row db2]|] eqn:H3; [|by apply Hrow].
    destruct (Hsettle _ _ _ _ H3) as (? & ? & ? & ?). split; [done|]. split; [done|]. exists row.
    split_and!; try tauto. by intros o [= <-].
Qed.

(** The dump a succeeded row names. *)
Definition dumpOf (row : BackupRunRecord) : Prop :=
  ∃ size checksum, reDump env = Ok (size, checksum) ∧
    brPostgres row = Some {| soKey := backupPostgresKey (reId env); soSize := size; soChecksum := checksum |}.

(** Why a drill's own error escapes it: its due check threw or a statement of its
    ledger failed. *)
Definition drillUnrecorded : Prop :=
  (reForceDrill env = false ∧ ∃ input e, ddIntervalDays input = Some (reDrillIntervalDays env) ∧ isDrillDue input = Err e) ∨
  reFails env at_begin_drill = true ∨ reFails env at_settle_drill = true.

Lemma statement_none {A} step (f : LedgerTables → option (A * LedgerTables)) db :
  statement env step f db = None → is_Some (f db) → reFails env step = true.
Proof. unfold statement. destruct (reFails env step); [done|]. intros ->. by intros []. Qed.

Lemma updateRow_is_some id guard f db row :
  lookupKey brId id (runRows db) = Some row → guard row = true → is_Some (updateRow id guard f db).
Proof. unfold updateRow. intros -> ->. by eexists. Qed.

Lemma drillIfDue_error settled lastDrill db code db' :
  lookupKey brId (brId settled) (runRows db) = Some settled → brStatus settled = br_succeeded →
  brDrillFinishedAt settled = None → brDrillErrorCode settled = None →
  drillIfDue env settled lastDrill db = (Err code, db') → code = internal_error ∧ drillUnrecorded.
Proof.
  intros Hl Hs Hf He. unfold drillIfDue, drillUnrecorded.
  destruct (if reForceDrill env then _ else _) as [[]|e] eqn:Hdue; [|done|].
  2: { intros [= <- _]. split; [done|]. left. destruct (reForceDrill env); [done|]. split; [done|]. eexists _, e.
       split; [|exact Hdue]. done. }
  destruct (statement env at_begin_drill _ _) as [[drilled db1]|] eqn:Hb.
  2: { intros [= <- _]. split; [done|]. right. left. eapply statement_none; [exact Hb|].
       eapply updateRow_is_some; [exact Hl|]. by rewrite Hs, Hf, He. }
  apply statement_some, updateRow_some in Hb as (old & Hold & _ & Hd & Hl1 & _); [|done].
  destruct (statement env at_settle_drill _ _) as [[row db2]|] eqn:Hset; [done|].
  assert (reFails env at_settle_drill = true) as Hno.
  { eapply statement_none; [exact Hset|]. eapply updateRow_is_some; [exact Hl1|]. by rewrite Hd. }
  destruct (performRestoreDrill env drilled).
  - destruct (statement env at_fail_drill _ _) as [[row db2]|]; [done|]. intros [= <- _]. split; [done|]. by right; right.
  - intros [= <- _]. split; [done|]. by right; right.
Qed.

(** The row of a run that has settled nothing. *)
Definition unsettled (row : BackupRunRecord) : Prop :=
  brStatus row = br_running ∧ brFinishedAt row = None ∧ brErrorCode row = None ∧ brPostgres row = None ∧
  brDrillFinishedAt row = None ∧ brDrillErrorCode row = None.

(** The row of a run settled as a success. *)
Definition succeededRow (row : BackupRunRecord) : Prop :=
  brStatus row = br_succeeded ∧ is_Some (brFinishedAt row) ∧ brErrorCode row = None ∧ dumpOf row.

Lemma backUp_spec run lastDrill db objects :
  lookupKey brId (reId env) (runRows db) = Some run → brId run = reId env → unsettled run →
  let '(r, (db', objects')) := backUp dateParse env run lastDrill db objects in
  keepsOthers db db' ∧
  ∃ row, lookupKey brId (reId env) (runRows db') = Some row ∧ stamp row = stamp run ∧
    (∀ o, r = Ok o → o = row ∧ succeededRow row ∧ canaryToken db' = Some (reToken env)) ∧
    (∀ code, r = Err code → row = run ∨ (succeededRow row ∧ code = internal_error ∧ drillUnrecorded)).
Proof.
  intros Hl Hid Hp. unfold backUp.
  assert (Hsame : ∀ db' code, runRows db' = runRows db →
    keepsOthers db db' ∧
    ∃ row, lookupKey brId (reId env) (runRows db') = Some row ∧ stamp row = stamp run ∧
    (∀ o, Err code = Ok o → o = row ∧ succeededRow row ∧ canaryToken db' = Some (reToken env)) ∧
    (∀ code', Err (A := BackupRunRecord) code = Err code' → row = run ∨ (succeededRow row ∧ code' = internal_error ∧ drillUnrecorded))).
  { intros db' code E. split; [intros id _; by rewrite E|]. exists run. rewrite E. split_and!; try done. by left. }
  destruct (reFails env at_canary); [by apply Hsame|]. cbv zeta.
  destruct (reDump env) as [[size checksum]|code] eqn:Hdump; [|by apply Hsame].
  destruct (reHomes env) as [homes|code]; [|by apply Hsame].
  destruct (copyHomes _ _ _ _ _) as [[copied|code] objects1]; [|by apply Hsame].
  destruct (prune _ _ _ _) as [[pruned|code] objects2]; [|by apply Hsame].
  destruct (statement env at_settle _ _) as [[settled db1]|] eqn:Hs; [|by apply Hsame].
  apply statement_some, updateRow_some in Hs as (old & Hold & _ & Hset & Hl1 & Ho1 & Hc1 & _); [|apply settleRun_ids].
  cbn [runRows writeCanary] in Hold, Ho1, Hc1. rewrite Hid, Hl in Hold. injection Hold as <-. rewrite Hid in Hl1, Ho1.
  assert (brId settled = reId env) as Hsid by (rewrite Hset; exact Hid).
  assert (lookupKey brId (brId settled) (runRows db1) = Some settled) as Hls by by rewrite Hsid.
  pose proof (drillIfDue_spec settled lastDrill db1 Hls Hsid) as Hd.
  pose proof (drillIfDue_error settled lastDrill db1) as He.
  destruct (drillIfDue env settled lastDrill db1) as [drilled db2].
  destruct Hd as (Ho2 & Hc2 & row & Hrow & Hst & Hfin & Hpg & Hec & Hstamp & Hok).
  assert (succeededRow row) as Hsucc.
  { split_and!; [by rewrite Hst, Hset|rewrite Hfin, Hset; by eexists|by rewrite Hec, Hset|].
    exists size, checksum; split; [done|]; rewrite Hpg, Hset, <- Hid; done. }
  split; [intros id Hne; by rewrite Ho2, Ho1|]. exists row. split; [done|].
  split; [rewrite Hstamp, Hset; apply settleRun_stamp|]. split.
  - intros o. destruct drilled as [o'|code]; [|done]. intros [= <-]. rewrite (Hok o' eq_refl).
    split_and!; [done..|]. by rewrite Hc2, Hc1.
  - intros code. destruct drilled as [o'|code']; [done|]. intros [= <-]. right. split; [done|].
    destruct Hp as (_ & _ & _ & _ & Hdf & Hde). eapply He; [done|by rewrite Hset|by rewrite Hset|by rewrite Hset|done].
Qed.
End settles.

(** C38. What an attempt leaves of its row. A run that returns a row returns its own,
    settled: a success holds its dump, and the canary then holds its token; a
    failure names its code, and one that holds a dump is a success whose drill threw,
    from its due check or a statement of its ledger, and whose code is the
    internal error.  No other row is touched.  A run returns none only when a
    statement of the ledger failed: the first one, and the tables are as they were, or the one
    that records the failure, and the run's row stays as the run left it, still
    running, or the success whose drill threw. *)
Theorem run_settles dateParse env lastDrill db objects :
  reId env ∉ brId <$> runRows db →
  match performBackupRun dateParse env lastDrill db objects with
  | (None, (db', _)) =>
      (reFails env at_begin = true ∧ db' = db) ∨
      (reFails env at_settle_failed = true ∧ keepsOthers env db db' ∧
       ∃ row, lookupKey brId (reId env) (runRows db') = Some row ∧ brStartedAt row = reTime env at_begin ∧
         (unsettled row ∨ (succeededRow env row ∧ drillUnrecorded env)))
  | (Some row, (db', _)) =>
      lookupKey brId (reId env) (runRows db') = Some row ∧ keepsOthers env db db' ∧
      is_Some (brFinishedAt row) ∧ brStartedAt row = reTime env at_begin ∧
      ((succeededRow env row ∧ canaryToken db' = Some (reToken env)) ∨
       (brStatus row = br_failed ∧ ∃ code, brErrorCode row = Some code ∧
          (brPostgres row = None ∨ (dumpOf env row ∧ code = internal_error ∧ drillUnrecorded env))))
  end.
Proof.
  intros Hid. unfold performBackupRun. destruct (reFails env at_begin) eqn:Hb; [by left|].
  destruct (beginRun (reId env) (reToken env) (reTime env at_begin) db) as [run db0] eqn:Hbegin.
  unfold beginRun in Hbegin. injection Hbegin as <- <-. set (run := Build_BackupRunRecord _ _ _ _ _ _ _ _ _ _ _ _ _ _).
  assert (Hl : lookupKey brId (reId env) (runRows (withRows db (runRows db ++ [run]))) = Some run).
  { cbn [runRows withRows]. unfold lookupKey. rewrite find_app. apply lookupKey_none in Hid. unfold lookupKey in Hid.
    rewrite Hid. cbn. unfold keyIs. by rewrite bool_decide_true. }
  assert (Hk : keepsOthers env db (withRows db (runRows db ++ [run]))).
  { intros id Hne. cbn [runRows withRows]. unfold lookupKey. rewrite find_app.
    destruct (List.find (keyIs brId id) (runRows db)); [done|]. cbn. unfold keyIs. by rewrite bool_decide_false. }
  assert (unsettled run) as Hrun by done.
  pose proof (backUp_spec dateParse env run lastDrill (withRows db (runRows db ++ [run])) objects Hl eq_refl Hrun) as Hspec.
  destruct (backUp dateParse env run lastDrill (withRows db (runRows db ++ [run])) objects) as [[o|code] [db' objects']].
  - destruct Hspec as (Ho & row & Hrow & Hst & Hok & _). destruct (Hok o eq_refl) as (-> & Hs & Hc).
    split_and!; [done|by intros id Hne; rewrite Ho, Hk|apply Hs|by injection Hst|]. by left.
  - destruct Hspec as (Ho & row & Hrow & Hst & _ & Herr). pose proof (Herr code eq_refl) as Hcase.
    destruct (statement env at_settle_failed _ db') as [[row' db'']|] eqn:Hs.
    + apply statement_some, updateRow_some in Hs as (old & Hold & _ & Hset & Hl1 & Ho1 & _); [|apply settleRun_ids].
      cbn [brId run] in Hold, Hl1, Ho1. rewrite Hrow in Hold. injection Hold as <-.
      subst row'. split_and!; [done|intros id Hne; by rewrite Ho1, Ho, Hk|by eexists|by injection Hst|].
      right. split; [done|]. exists code. split; [done|].
      destruct Hcase as [->|((_ & _ & _ & Hd) & -> & Hu)]; [by left|right]. done.
    + right. split; [eapply statement_none; [exact Hs|]; eapply updateRow_is_some; [exact Hrow|done]|].
      split; [intros id Hne; by rewrite Ho, Hk|]. exists row. split_and!; [done|by injection Hst|].
      destruct Hcase as [->|(? & _ & ?)]; [by left|by right].
Qed.

(** ** What a run leaves in the archive *)

Section kept.
Variable dateParse : jstr → date.
Variable env : RunEnvironment.

Lemma elem_filter (p : BackupObjectAge → bool) o l : o ∈ List.filter p l ↔ o ∈ l ∧ p o = true.
Proof. rewrite !list_elem_of_In. apply filter_In. Qed.

Lemma putObject_spec k objects :
  NoDup (key <$> objects) →
  NoDup (key <$> putObject env k objects) ∧
  (∀ o, o ∈ objects → o ∈ putObject env k objects ∨ key o = k) ∧
  (∀ k', k' = k ∨ k' ∈ key <$> objects → k' ∈ key <$> putObject env k objects).
Proof.
  intros Hnd. unfold putObject. rewrite fmap_app. cbn [fmap list_fmap].
  assert (Hin : ∀ k', k' ∈ key <$> List.filter (λ o, negb (bool_decide (key o = k))) objects ↔ k' ∈ key <$> objects ∧ k' ≠ k).
  { intros k'. rewrite !list_elem_of_fmap. setoid_rewrite elem_filter. split.
    - intros (o & -> & Ho & Hne). apply negb_true_iff, bool_decide_eq_false in Hne. eauto.
    - intros [(o & -> & Ho) Hne]. exists o. split_and!; [done..|]. by apply negb_true_iff, bool_decide_eq_false. }
  split; [|split].
  - apply NoDup_app. split_and!; [|intros k' [_ Hne]%Hin ->%list_elem_of_singleton; done|apply NoDup_singleton].
    clear Hin. induction objects as [|o objects IH]; [constructor|]. apply NoDup_cons in Hnd as [Hn Hnd]. cbn [List.filter].
    case_bool_decide; cbn [negb]; [auto|]. cbn. constructor; [|auto].
    intros (o' & E & [Ho' _]%elem_filter)%list_elem_of_fmap. apply Hn. rewrite E. by apply list_elem_of_fmap_2.
  - intros o Ho. destruct (decide (key o = k)) as [|Hne]; [by right|]. left. apply elem_of_app. left. apply elem_filter.
    split; [done|]. by apply negb_true_iff, bool_decide_eq_false.
  - intros k' Hk'. apply elem_of_app. destruct (decide (k' = k)) as [->|Hne]; [right; left|]. left. apply Hin. naive_solver.
Qed.

Lemma copyHomes_spec runId homes copied objects :
  NoDup (key <$> objects) →
  let '(r, objects') := copyHomes env runId homes copied objects in
  NoDup (key <$> objects') ∧
  (∀ o, o ∈ objects → o ∈ objects' ∨ ∃ source, key o = backupHomesKey runId source) ∧
  (∀ k, k ∈ key <$> objects → k ∈ key <$> objects') ∧
  (∀ copied', r = Ok copied' →
     (∀ k, k ∈ chKeys copied → k ∈ chKeys copied') ∧
     ∀ home size, home ∈ homes → hoCopied home = Some (Ok size) →
       backupHomesKey runId (hoKey home) ∈ chKeys copied' ∧ backupHomesKey runId (hoKey home) ∈ key <$> objects').
Proof.
  revert copied objects. induction homes as [|home homes IH]; intros copied objects Hnd; cbn [copyHomes].
  { split_and!; try done; [by left|]. intros copied' [= <-]. split; [done|]. by intros h size ?%elem_of_nil. }
  destruct (hoCopied home) as [[size|code]|] eqn:Hc.
  - set (k := backupHomesKey runId (hoKey home)). destruct (putObject_spec k objects Hnd) as (Hnd1 & Ho1 & Hk1).
    specialize (IH {| chCount := chCount copied + 1; chBytes := chBytes copied + size; chKeys := chKeys copied ++ [k] |}
                  (putObject env k objects) Hnd1).
    destruct (copyHomes env runId homes _ _) as [r objects']. destruct IH as (Hnd2 & Ho2 & Hk2 & Hr).
    split_and!; [done| |by intros k' Hk'; apply Hk2, Hk1; right|].
    + intros o Ho. destruct (Ho1 o Ho) as [H1|H1]; [by apply Ho2|]. right. by exists (hoKey home).
    + intros copied' E. destruct (Hr copied' E) as [Hkeys Hhomes]. cbn [chKeys] in Hkeys. split; [set_solver|].
      intros h sz [->|Hh]%elem_of_cons Hsz; [|by eapply Hhomes].
      split; [apply Hkeys; set_solver|]. apply Hk2, Hk1. by left.
  - split_and!; [done|by left|done|done].
  - specialize (IH copied objects Hnd). destruct (copyHomes env runId homes copied objects) as [r objects'].
    destruct IH as (? & ? & ? & Hr). split_and!; try done. intros copied' E. destruct (Hr copied' E) as [? Hhomes].
    split; [done|]. intros h sz [->|Hh]%elem_of_cons Hsz; [congruence|by eapply Hhomes].
Qed.

(** An object past the window the run retains. *)
Definition overdue (o : BackupObjectAge) : Prop :=
  ∃ days now ms, reRetentionDays env = NInt days ∧ (1 ≤ days)%Z ∧ rePruneNow env = Some now ∧
    dateParse (lastModified o) = Some ms ∧ (ms < now - days * DAY_MS)%Z.

Lemma key_unique (objects : list BackupObjectAge) o o' :
  NoDup (key <$> objects) → o ∈ objects → o' ∈ objects → key o = key o' → o = o'.
Proof.
  intros Hnd Ho Ho' E. pose proof (lookupKey_elem key (key o) objects o Hnd Ho eq_refl) as H1.
  pose proof (lookupKey_elem key (key o) objects o' Hnd Ho' (eq_sym E)) as H2. congruence.
Qed.

Lemma expired_overdue protected listing expired k :
  selectExpiredBackupKeys dateParse listing
    {| riNow := rePruneNow env; retentionDays := reRetentionDays env; protect := Some protected |} = Ok expired →
  k ∈ expired → k ∉ protected ∧ ∃ o, o ∈ listing ∧ key o = k ∧ overdue o.
Proof.
  unfold selectExpiredBackupKeys, integerOf. cbn [retentionDays riNow protect].
  destruct (reRetentionDays env) as [days| | |] eqn:Hd; try done.
  destruct (Z.ltb_spec days 1); [done|]. destruct (rePruneNow env) as [now|] eqn:Hn; [|done].
  cbn [mbind result_bind assertInstant from_option]. unfold default, id. intros He Hk.
  pose proof (selectExpired_exact dateParse (now - days * 24 * 60 * 60 * 1000) protected listing) as Hx. rewrite He in Hx.
  destruct Hx as [_ ->]. apply list_elem_of_fmap in Hk as (o & -> & [Ho Hexp]%elem_filter). unfold isExpired in Hexp.
  destruct (dateParse (lastModified o)) as [ms|] eqn:Hms; [|done].
  apply andb_true_iff in Hexp as [Hms' Hp]. apply negb_true_iff, bool_decide_eq_false in Hp. split; [done|].
  exists o. split_and!; [done..|]. exists days, now, ms. split_and!; try done. unfold DAY_MS. lia.
Qed.

Lemma prune_spec protected objects :
  NoDup (key <$> objects) →
  let '(_, objects') := prune dateParse env protected objects in
  (∀ o, o ∈ objects → o ∈ objects' ∨ (key o ∉ protected ∧ overdue o)).
Proof.
  intros Hnd. unfold prune. destruct (reListing env); [by left|].
  destruct (selectExpiredBackupKeys _ _ _) as [expired|] eqn:He; [|by left].
  assert (Hdel : ∀ ks, (∀ k, k ∈ ks → k ∈ expired) →
    ∀ o, o ∈ objects → o ∈ deleteKeys ks objects ∨ (key o ∉ protected ∧ overdue o)).
  { intros ks Hks o Ho. destruct (decide (key o ∈ ks)) as [Hin|Hout].
    - right. destruct (expired_overdue _ _ _ _ He (Hks _ Hin)) as (Hp & o' & [Ho' _]%elem_filter & Hk & Hov).
      split; [done|]. by rewrite (key_unique objects o o' Hnd Ho Ho' (eq_sym Hk)).
    - left. apply elem_filter. split; [done|]. by apply negb_true_iff, bool_decide_eq_false. }
  destruct expired as [|k expired]; [by left|]. destruct (reRemoves env) as [n|]; [|by apply Hdel].
  destruct (_ <=? _)%nat; apply Hdel; [done|]. intros k' Hk'. rewrite <- (take_drop n (k :: expired)). apply elem_of_app. by left.
Qed.

(** An object this run writes. *)
Definition writtenKey (k : jstr) : Prop :=
  k = backupPostgresKey (reId env) ∨ ∃ source, k = backupHomesKey (reId env) source.

Lemma backUp_keeps run lastDrill db objects :
  NoDup (key <$> objects) → brId run = reId env →
  let '(r, (_, objects')) := backUp dateParse env run lastDrill db objects in
  (∀ o, o ∈ objects → o ∈ objects' ∨ writtenKey (key o) ∨ overdue o) ∧
  (is_ok r = true →
     backupPostgresKey (reId env) ∈ key <$> objects' ∧
     ∃ homes, reHomes env = Ok homes ∧ ∀ home size, home ∈ homes → hoCopied home = Some (Ok size) →
       backupHomesKey (reId env) (hoKey home) ∈ key <$> objects').
Proof.
  intros Hnd Hid. unfold backUp. rewrite Hid.
  assert (Hsame : ∀ code : BackupErrorCode, (∀ o, o ∈ objects → o ∈ objects ∨ writtenKey (key o) ∨ overdue o) ∧
    (is_ok (Err (A := BackupRunRecord) code) = true → backupPostgresKey (reId env) ∈ key <$> objects ∧
     ∃ homes, reHomes env = Ok homes ∧ ∀ home size, home ∈ homes → hoCopied home = Some (Ok size) →
       backupHomesKey (reId env) (hoKey home) ∈ key <$> objects)) by (intros code; split; [by left|done]).
  destruct (reFails env at_canary); [by apply (Hsame internal_error)|]. cbv zeta.
  destruct (reDump env) as [[size checksum]|code]; [|by apply (Hsame code)]. cbn [soKey].
  set (dk := backupPostgresKey (reId env)).
  destruct (putObject_spec dk objects Hnd) as (Hnd1 & Ho1 & Hk1).
  assert (H1 : ∀ o, o ∈ objects → o ∈ putObject env dk objects ∨ writtenKey (key o) ∨ overdue o).
  { intros o Ho. destruct (Ho1 o Ho) as [|E]; [by left|right; left; by left]. }
  destruct (reHomes env) as [homes|code]; [|split; [done|done]].
  pose proof (copyHomes_spec (reId env) homes {| chCount := 0; chBytes := 0; chKeys := [] |} _ Hnd1) as Hcopy.
  destruct (copyHomes env (reId env) homes _ _) as [copied objects1]. destruct Hcopy as (Hnd2 & Ho2 & Hk2 & Hcp).
  assert (H2 : ∀ o, o ∈ objects → o ∈ objects1 ∨ writtenKey (key o) ∨ overdue o).
  { intros o Ho. destruct (H1 o Ho) as [Hin|]; [|by right]. destruct (Ho2 o Hin) as [|Hs]; [by left|right; left; by right]. }
  destruct copied as [copied|code]; [|split; [done|done]].
  pose proof (prune_spec (dk :: chKeys copied) objects1 Hnd2) as Hpr.
  destruct (prune dateParse env (dk :: chKeys copied) objects1) as [pruned objects2].
  assert (H3 : ∀ o, o ∈ objects → o ∈ objects2 ∨ writtenKey (key o) ∨ overdue o).
  { intros o Ho. destruct (H2 o Ho) as [Hin|]; [|by right]. destruct (Hpr o Hin) as [|[_ ?]]; [by left|right; by right]. }
  assert (H4 : ∀ k, k ∈ dk :: chKeys copied → k ∈ key <$> objects1 → k ∈ key <$> objects2).
  { intros k Hprot (o & -> & Ho)%list_elem_of_fmap. destruct (Hpr o Ho) as [Hin|[Hn _]]; [by apply list_elem_of_fmap_2|done]. }
  destruct pruned as [pruned|code]; [|split; [done|done]].
  destruct (statement env at_settle _ _) as [[settled db1]|]; [|split; [done|done]].
  destruct (drillIfDue env settled lastDrill db1) as [drilled db2].
  split; [done|]. intros _. split.
  - apply H4; [left|]. apply Hk2, Hk1. by left.
  - exists homes. split; [done|]. intros home sz Hh Hsz. destruct (Hcp copied eq_refl) as [_ Hhomes].
    destruct (Hhomes home sz Hh Hsz) as [Hkeys Hobj]. apply H4; [by right|done].
Qed.
End kept.

(** A run never costs the archive a backup it should keep: whatever fails, an object
    that was there is still there unless the run overwrote its own key or the object
    is older than the retention window; and a recorded success has its dump and every
    home it copied in the archive when it is done, after its own retention pass. *)
Theorem run_keeps_backups dateParse env lastDrill db objects :
  NoDup (key <$> objects) → reId env ∉ brId <$> runRows db →
  let '(r, (_, objects')) := performBackupRun dateParse env lastDrill db objects in
  (∀ o, o ∈ objects → o ∈ objects' ∨ writtenKey env (key o) ∨ overdue dateParse env o) ∧
  (∀ row, r = Some row → brStatus row = br_succeeded →
     backupPostgresKey (reId env) ∈ key <$> objects' ∧
     ∃ homes, reHomes env = Ok homes ∧ ∀ home size, home ∈ homes → hoCopied home = Some (Ok size) →
       backupHomesKey (reId env) (hoKey home) ∈ key <$> objects').
Proof.
  intros Hnd Hid. unfold performBackupRun. destruct (reFails env at_begin); [split; [by left|done]|].
  unfold beginRun. set (run := Build_BackupRunRecord _ _ _ _ _ _ _ _ _ _ _ _ _ _).
  pose proof (backUp_keeps dateParse env run lastDrill (withRows db (runRows db ++ [run])) objects Hnd eq_refl) as Hk.
  destruct (backUp dateParse env run lastDrill _ objects) as [[o|code] [db' objects']].
  - destruct Hk as [Hk Hok]. split; [done|]. intros row _ _. by apply Hok.
  - destruct Hk as [Hk _].
    destruct (statement env at_settle_failed _ db') as [[row db'']|] eqn:Hs; [|split; [done|done]].
    split; [done|]. intros row' [= <-] Hst. apply statement_some, updateRow_some in Hs as (old & _ & _ & -> & _);
      [done|apply settleRun_ids].
Qed.

(** ** What the watchdog announces *)

(** The episode last claimed for a kind. *)
Definition claimedEpisode (claimed : list (BackupAlertKind * jstr)) (k : BackupAlertKind) : option jstr :=
  snd <$> lookupKey fst k claimed.

Lemma claimedEpisode_snoc claimed k e k' :
  claimedEpisode claimed k = None →
  claimedEpisode (claimed ++ [(k, e)]) k' = if bool_decide (k' = k) then Some e else claimedEpisode claimed k'.
Proof.
  unfold claimedEpisode, lookupKey. rewrite find_app. intros Hk. case_bool_decide as E.
  - subst k'. destruct (List.find (keyIs fst k) claimed); [done|]. cbn. unfold keyIs. cbn. by rewrite bool_decide_true.
  - destruct (List.find (keyIs fst k') claimed); [done|]. cbn. unfold keyIs. cbn. by rewrite bool_decide_false.
Qed.

Lemma alertOf_cons alerts a k :
  lookupKey kind k (a :: alerts) = if bool_decide (kind a = k) then Some a else lookupKey kind k alerts.
Proof. done. Qed.

Lemma claimAlert_spec k e claimed :
  NoDup (fst <$> claimed) →
  let '(moved, claimed') := claimAlert k e claimed in
  NoDup (fst <$> claimed') ∧
  (moved = true ↔ claimedEpisode claimed k ≠ Some e) ∧
  ∀ k', claimedEpisode claimed' k' = if bool_decide (k' = k) then Some e else claimedEpisode claimed k'.
Proof.
  intros Hnd. unfold claimAlert, claimedEpisode. destruct (lookupKey fst k claimed) as [[k0 current]|] eqn:Hl.
  - pose proof (proj2 (lookupKey_some _ _ _ _ Hl)) as E. cbn in E. subst k0. case_bool_decide as He.
    + subst current. split; [done|]. split; [cbn; naive_solver|]. intros k'. case_bool_decide as Hk; [|done]. by rewrite Hk, Hl.
    + split; [|split].
      * replace (fst <$> replaceWhere (keyIs fst k) (k, e) claimed) with (fst <$> claimed); [done|].
        unfold replaceWhere. rewrite <- list_fmap_compose. apply list_fmap_ext. intros i x _. cbn. unfold keyIs.
        by case_bool_decide.
      * cbn. naive_solver.
      * intros k'. rewrite lookupKey_replace; [|done]. case_bool_decide as Hk; [by rewrite decide_True, Hl|by rewrite decide_False].
  - split; [|split].
    + rewrite fmap_app. apply NoDup_app. split_and!; [done| |apply NoDup_singleton].
      intros x Hx ->%list_elem_of_singleton. by apply lookupKey_none in Hl.
    + cbn. naive_solver.
    + intros k'. apply claimedEpisode_snoc. unfold claimedEpisode. by rewrite Hl.
Qed.

Lemma claimAll_spec alerts claimed :
  NoDup (fst <$> claimed) → NoDup (kind <$> alerts) →
  let '(announced, claimed') := claimAll alerts claimed in
  NoDup (fst <$> claimed') ∧
  announced = List.filter (λ a, negb (bool_decide (claimedEpisode claimed (kind a) = Some (episode a)))) alerts ∧
  ∀ k, claimedEpisode claimed' k =
    match lookupKey kind k alerts with Some a => Some (episode a) | None => claimedEpisode claimed k end.
Proof.
  revert claimed. induction alerts as [|a alerts IH]; intros claimed Hnd Hk; [done|]. apply NoDup_cons in Hk as [Hn Hk].
  cbn [claimAll]. pose proof (claimAlert_spec (kind a) (episode a) claimed Hnd) as Hc.
  destruct (claimAlert (kind a) (episode a) claimed) as [moved claimed1]. destruct Hc as (Hnd1 & Hm & He).
  specialize (IH claimed1 Hnd1 Hk). destruct (claimAll alerts claimed1) as [announced claimed2].
  destruct IH as (Hnd2 & -> & He2). split; [done|]. split.
  - cbn [List.filter].
    assert (moved = negb (bool_decide (claimedEpisode claimed (kind a) = Some (episode a)))) as <-
      by (destruct moved; case_bool_decide; naive_solver).
    replace (List.filter (λ b, negb (bool_decide (claimedEpisode claimed1 (kind b) = Some (episode b)))) alerts)
      with (List.filter (λ b, negb (bool_decide (claimedEpisode claimed (kind b) = Some (episode b)))) alerts); [done|].
    apply filter_ext_in. intros b Hb%list_elem_of_In. rewrite He, (bool_decide_false (kind b = kind a)); [done|].
    intros E. apply Hn. rewrite <- E. by apply list_elem_of_fmap_2.
  - intros k. rewrite He2, alertOf_cons, He. case_bool_decide as E.
    + subst k. apply lookupKey_none in Hn. by rewrite Hn, bool_decide_true.
    + rewrite bool_decide_false by congruence. by destruct (lookupKey kind k alerts).
Qed.

Lemma pass_alerts now status :
  ∃ alerts, decideBackupAlerts (alertInput (Some now) status) = Ok alerts ∧ NoDup (kind <$> alerts).
Proof.
  destruct (alerts_kinds (alertInput (Some now) status) now (NInt DEFAULT_STALENESS_MS) (NInt DEFAULT_DRILL_STALENESS_MS)
              (NInt DEFAULT_RUN_TIMEOUT_MS)) as (alerts & Ha & Hk); [done| |done..|].
  - unfold validDates, alertInput; cbn. split_and!; intros x; [destruct (stLastSuccess status ≫= brFinishedAt)|
      destruct (stLastDrill status ≫= brDrillFinishedAt)|destruct (stLastRun status)|destruct (stLastDrillRun status)];
      try intros [= <-]; try done; eexists; cbn; try done.
  - exists alerts. split; [done|]. rewrite Hk. apply NoDup_ListNoDup, List.NoDup_filter, NoDup_ListNoDup.
    refine (bool_decide_unpack _ _). by vm_compute.
Qed.

(** Every pass of the watchdog tells exactly the news: of the alerts the ledger
    raises, the ones whose episode is not the one last claimed for their kind, in
    order of severity, and claims them all; so a later pass
    over unchanged rows announces no episode this pass raised. *)
Theorem episodes_announced_once now db :
  NoDup (fst <$> alertEpisodes db) →
  ∃ alerts db', decideBackupAlerts (alertInput (Some now) (readStatus db)) = Ok alerts ∧
    watchdogPass (Some now) db =
      Ok (List.filter (λ a, negb (bool_decide (claimedEpisode (alertEpisodes db) (kind a) = Some (episode a)))) alerts, db') ∧
    runRows db' = runRows db ∧ canaryToken db' = canaryToken db ∧ NoDup (fst <$> alertEpisodes db') ∧
    ∀ later announced db'', watchdogPass (Some later) db' = Ok (announced, db'') →
      ∀ a b, a ∈ alerts → b ∈ announced → kind a = kind b → episode a ≠ episode b.
Proof.
  intros Hnd. destruct (pass_alerts now (readStatus db)) as (alerts & Ha & Hk). unfold watchdogPass. rewrite Ha.
  cbn [mbind result_bind]. pose proof (claimAll_spec alerts (alertEpisodes db) Hnd Hk) as Hc.
  destruct (claimAll alerts (alertEpisodes db)) as [announced claimed]. destruct Hc as (Hnd' & -> & He).
  eexists alerts, _. split; [done|]. split; [done|]. cbn [runRows canaryToken alertEpisodes]. split_and!; try done.
  intros later ann db''. destruct (pass_alerts later (readStatus db)) as (alerts' & Ha' & Hk'). intros Hpass a b Hin Hb Hkind E.
  change (readStatus {| runRows := runRows db; canaryToken := canaryToken db; alertEpisodes := claimed |}) with (readStatus db) in Hpass.
  rewrite Ha' in Hpass. cbn [mbind result_bind] in Hpass. pose proof (claimAll_spec alerts' claimed Hnd' Hk') as Hc'.
  destruct (claimAll alerts' claimed) as [ann' claimed']. destruct Hc' as (_ & -> & _). injection Hpass as <- _.
  apply list_elem_of_In, filter_In in Hb as [_ Hb]. apply negb_true_iff, bool_decide_eq_false in Hb. apply Hb.
  rewrite He, <- Hkind, (lookupKey_elem kind (kind a) alerts a) by done. by rewrite E.
Qed.

(** ** The nightly cadence *)

Definition leads (column : BackupRunRecord → option Z) (best row : option BackupRunRecord) : Prop :=
  ∀ t, row ≫= column = Some t → ∃ tb, best ≫= column = Some tb ∧ (t ≤ tb)%Z.

Lemma newer_spec column best row :
  (newer column best row = best ∨ newer column best row = Some row) ∧
  leads column (newer column best row) best ∧ leads column (newer column best row) (Some row).
Proof.
  unfold newer, leads. destruct best as [b|]; cbn [mbind option_bind]; destruct (column row) as [t|] eqn:Ht.
  - destruct (column b) as [tb|] eqn:Hb; cbn; [|split_and!; [by right|done|naive_solver]].
    destruct ((tb <? t)%Z || _) eqn:Hlt; cbn.
    + apply orb_true_iff in Hlt as [?%Z.ltb_lt|[?%Z.eqb_eq _]%andb_true_iff];
        (split_and!; [by right|intros t' [= <-]; exists t; split; [done|lia]|intros t' [= <-]; by exists t]).
    + apply orb_false_iff in Hlt as [?%Z.ltb_ge _]. rewrite Hb.
      split_and!; [by left|intros t' [= <-]; by exists tb|intros t' [= <-]; by exists tb].
  - cbn. split_and!; [by left| |done]. intros t Hb. by exists t.
  - split_and!; [by right|done|]. cbn. rewrite Ht. intros t' [= <-]. by exists t.
  - split_and!; [by left|done..].
Qed.

Lemma newest_spec column rows best :
  let r := foldl (newer column) best rows in
  (r = best ∨ ∃ b, r = Some b ∧ b ∈ rows) ∧ leads column r best ∧ ∀ row, row ∈ rows → leads column r (Some row).
Proof.
  revert best. induction rows as [|row rows IH]; intros best; cbn [foldl].
  { split_and!; [by left| |by intros ? ?%elem_of_nil]. intros t Ht. by exists t. }
  destruct (newer_spec column best row) as (Hor & Hb & Hr). destruct (IH (newer column best row)) as (Hin & Hl & Hall).
  assert (Htrans : ∀ x, leads column (newer column best row) x → leads column (foldl (newer column) (newer column best row) rows) x).
  { intros x Hx t (t1 & H1 & ?)%Hx. destruct (Hl t1 H1) as (t2 & H2 & ?). exists t2. split; [done|lia]. }
  split_and!; [|by apply Htrans|].
  - destruct Hin as [Hin|(b & ? & ?)]; [|right; exists b; split; [done|by right]].
    destruct Hor as [Hor|Hor]; [left; by rewrite Hin|right; exists row; split; [by rewrite Hin|left]].
  - intros r [->|Hr']%elem_of_cons; [by apply Htrans|by apply Hall].
Qed.

(** The latest attempt of a ledger, and that no row began after it. *)
Lemma last_attempt rows :
  match newest (λ row, Some (brStartedAt row)) rows with
  | None => rows = []
  | Some b => b ∈ rows ∧ ∀ row, row ∈ rows → (brStartedAt row ≤ brStartedAt b)%Z
  end.
Proof.
  destruct (newest_spec (λ row, Some (brStartedAt row)) rows None) as (Hin & _ & Hall). cbn zeta in *.
  fold (newest (λ row, Some (brStartedAt row)) rows) in *.
  destruct (newest _ rows) as [b|]; [destruct Hin as [|(b' & [= <-] & Hb)]; [done|]; split; [done|]|].
  - intros row Hr. by destruct (Hall row Hr _ eq_refl) as (? & [= <-] & ?).
  - destruct rows as [|row rows]; [done|]. by destruct (Hall row (list_elem_of_here _ _) _ eq_refl) as (? & ? & _).
Qed.

Lemma performBackupRun_row dateParse env lastDrill db objects :
  reFails env at_begin = false → reId env ∉ brId <$> runRows db →
  let '(_, (db', _)) := performBackupRun dateParse env lastDrill db objects in
  ∃ row, row ∈ runRows db' ∧ brStartedAt row = reTime env at_begin.
Proof.
  intros Hb Hid. unfold performBackupRun. rewrite Hb. unfold beginRun. set (run := Build_BackupRunRecord _ _ _ _ _ _ _ _ _ _ _ _ _ _).
  assert (Hl : lookupKey brId (reId env) (runRows (withRows db (runRows db ++ [run]))) = Some run).
  { cbn [runRows withRows]. unfold lookupKey. rewrite find_app. apply lookupKey_none in Hid. unfold lookupKey in Hid.
    rewrite Hid. cbn. unfold keyIs. by rewrite bool_decide_true. }
  pose proof (backUp_spec dateParse env run lastDrill (withRows db (runRows db ++ [run])) objects Hl eq_refl ltac:(done)) as Hspec.
  destruct (backUp dateParse env run lastDrill _ objects) as [r [db' objects']]. destruct Hspec as (_ & row & Hrow & Hst & _).
  injection Hst as Hrid Hst. assert (Hin := proj1 (lookupKey_some _ _ _ _ Hrow)).
  destruct r as [o|code]; [by exists row|].
  destruct (statement env at_settle_failed _ db') as [[row' db'']|] eqn:Hs; [|by exists row].
  apply statement_some, updateRow_some in Hs as (old & Hold & _ & Hset & Hl' & _); [|apply settleRun_ids].
  cbn [brId run] in Hold, Hl'. rewrite Hrow in Hold. injection Hold as <-. exists row'.
  split; [by apply lookupKey_some in Hl' as [? _]|]. by rewrite Hset.
Qed.

(** An instant the schedule names lies after every attempt of the ledger and not after
    the given one. *)
Definition nightPassed (hour minute now : Z) (rows : list BackupRunRecord) : Prop :=
  ∃ t, isScheduled hour minute t ∧ (t ≤ now)%Z ∧ ∀ row, row ∈ rows → (brStartedAt row < t)%Z.

Lemma runIfDue_cases dateParse env schedule h m now db objects :
  validSchedule schedule h m → (∀ row, row ∈ runRows db → plainInstant (brStartedAt row)) →
  ∃ r, runIfDue dateParse env true schedule (Some now) db objects = Ok r ∧
    ((r = None ∧ runRows db ≠ [] ∧ ¬ nightPassed h m now (runRows db)) ∨
     (r = Some (performBackupRun dateParse env (stLastDrill (readStatus db) ≫= brDrillFinishedAt) db objects) ∧
      (runRows db = [] ∨ nightPassed h m now (runRows db)))).
Proof.
  intros Hs Hp. unfold runIfDue. cbv zeta. pose proof (last_attempt (runRows db)) as Hl.
  change (newest _ _) with (stLastRun (readStatus db)) in Hl.
  destruct (stLastRun (readStatus db)) as [b|]; cbn [fmap option_fmap option_map].
  - destruct Hl as [Hin Hmax]. destruct (nextBackupAt_first _ schedule h m Hs (Hp b Hin)) as (t & Hn & Ht & Hlt & Hmin).
    unfold isBackupDue. cbn [mbind result_bind assertInstant]. rewrite Hn. cbn [mbind result_bind].
    destruct (Z.leb_spec t now) as [Hle|Hgt]; (eexists; split; [done|]).
    + right. split; [done|]. right. exists t. split_and!; [done..|]. intros row Hr. specialize (Hmax row Hr). lia.
    + left. split_and!; [done|by intros E; rewrite E in Hin; apply elem_of_nil in Hin|]. intros (t' & Ht' & ? & Hall).
      specialize (Hmin t' Ht'). specialize (Hall b Hin). lia.
  - eexists. split; [done|]. right. split; [done|]. by left.
Qed.

(** The nightly command runs exactly when no run was ever begun or a scheduled instant
    has passed since the last one began, so a scheduled instant separates any two
    runs; and a run that was begun settles its night whatever became of it: until the
    next scheduled instant the command skips, even when the run failed or its ledger
    could not be written. *)
Theorem nightly_runs_spaced dateParse env schedule h m now db objects :
  validSchedule schedule h m → (∀ row, row ∈ runRows db → plainInstant (brStartedAt row)) →
  reFails env at_begin = false → reId env ∉ brId <$> runRows db → (now ≤ reTime env at_begin)%Z →
  ∃ r, runIfDue dateParse env true schedule (Some now) db objects = Ok r ∧
    (is_Some r ↔ runRows db = [] ∨ nightPassed h m now (runRows db)) ∧
    ∀ row db' objects', r = Some (row, (db', objects')) →
      ∀ dateParse' env' later, (∀ row, row ∈ runRows db' → plainInstant (brStartedAt row)) →
        (∀ t, isScheduled h m t → (t ≤ reTime env at_begin)%Z ∨ (later < t)%Z) →
        runIfDue dateParse' env' true schedule (Some later) db' objects' = Ok None.
Proof.
  intros Hs Hp Hb Hid Hnow. destruct (runIfDue_cases dateParse env schedule h m now db objects Hs Hp) as (r & Hr & Hcases).
  exists r. split; [done|]. split.
  - destruct Hcases as [(-> & Hne & Hnp)|[-> Hd]]; [|by split]. split; [by intros [? ?]|]. by intros [?|?].
  - intros row db' objects' ->. destruct Hcases as [[? _]|[Heq _]]; [done|]. apply (inj Some) in Heq. intros dateParse' env' later Hp' Hnone.
    pose proof (performBackupRun_row dateParse env (stLastDrill (readStatus db) ≫= brDrillFinishedAt) db objects Hb Hid) as Hrow.
    rewrite <- Heq in Hrow. destruct Hrow as (own & Hin & Hown).
    destruct (runIfDue_cases dateParse' env' schedule h m later db' objects' Hs Hp') as (r' & Hr' & [(-> & _)|[_ [He|Hd]]]);
      [done|by rewrite He in Hin; apply elem_of_nil in Hin|].
    destruct Hd as (t & Ht & ? & Hall). specialize (Hall own Hin). destruct (Hnone t Ht); lia.
Qed.

(** ** Samples *)

Definition sampleEnv : RunEnvironment := {|
  reId := sampleRunId; reToken := u "tok";
  reTime := λ step, match step with at_begin => 1789700400000 | _ => 1789700401000 end%Z;
  reFails := λ step, bool_decide (step = at_fail_drill);
  rePruneNow := Some 100000000%Z; reDrillNow := Some 1789700401000%Z; reStamp := u "99999999";
  reDump := Ok (10%Z, u "sum"); reHomes := Ok [{| hoKey := u "c1"; hoCopied := Some (Ok 5%Z) |}];
  reListing := None; reRemoves := None; reRetentionDays := NInt 1; reDrillIntervalDays := NInt 7;
  reForceDrill := false; reRestored := Ok (Some (u "tok")) |}.

Definition emptyLedger : LedgerTables := {| runRows := []; canaryToken := None; alertEpisodes := [] |}.

(** A good run whose drill cannot be recorded is recorded as a failure. *)
Example drill_ledger_failure_fails_the_run :
  let env := {| reId := sampleRunId; reToken := u "tok"; reTime := reTime sampleEnv;
                reFails := λ step, bool_decide (step = at_begin_drill); rePruneNow := rePruneNow sampleEnv;
                reDrillNow := reDrillNow sampleEnv; reStamp := reStamp sampleEnv; reDump := reDump sampleEnv;
                reHomes := reHomes sampleEnv; reListing := None; reRemoves := None; reRetentionDays := NInt 1;
                reDrillIntervalDays := NInt 7; reForceDrill := false; reRestored := reRestored sampleEnv |} in
  match performBackupRun sampleParse env None emptyLedger [] with
  | (Some row, _) => brStatus row = br_failed ∧ brErrorCode row = Some internal_error ∧ is_Some (brPostgres row)
  | _ => False
  end.
Proof. cbv zeta. split_and!; [vm_compute; reflexivity..|]. vm_compute. by eexists. Qed.

(** A drill interval of zero days, which the due check refuses. *)
Definition zeroInterval : RunEnvironment :=
  {| reId := reId sampleEnv; reToken := reToken sampleEnv; reTime := reTime sampleEnv; reFails := reFails sampleEnv;
     rePruneNow := rePruneNow sampleEnv; reDrillNow := reDrillNow sampleEnv; reStamp := reStamp sampleEnv;
     reDump := reDump sampleEnv; reHomes := reHomes sampleEnv; reListing := reListing sampleEnv;
     reRemoves := reRemoves sampleEnv; reRetentionDays := reRetentionDays sampleEnv; reDrillIntervalDays := NInt 0;
     reForceDrill := false; reRestored := reRestored sampleEnv |}.

Lemma run_settles_witness :
  (∃ row db' objects', performBackupRun sampleParse sampleEnv None emptyLedger sampleListing = (Some row, (db', objects')) ∧
    succeededRow sampleEnv row ∧ lookupKey brId sampleRunId (runRows db') = Some row ∧ canaryToken db' = Some (u "tok")) ∧
  ∃ row db' objects', performBackupRun sampleParse zeroInterval None emptyLedger sampleListing = (Some row, (db', objects')) ∧
    brErrorCode row = Some internal_error ∧ dumpOf zeroInterval row ∧ drillUnrecorded zeroInterval.
Proof.
  split.
  - pose proof (run_settles sampleParse sampleEnv None emptyLedger sampleListing (not_elem_of_nil _)) as H.
    destruct (performBackupRun sampleParse sampleEnv None emptyLedger sampleListing) as [[row|] [db' objects']] eqn:E.
    + exists row, db', objects'. split; [reflexivity|]. destruct H as (Hrow & _ & _ & _ & Hcase).
      assert (Hs : brStatus row = br_succeeded) by (revert E; vm_compute; intros [= <- _ _]; reflexivity).
      destruct Hcase as [[Hsucc Hc]|(Hf & _)]; [|congruence]. split; [exact Hsucc|]. split; [exact Hrow|exact Hc].
    + exfalso. revert E. vm_compute. discriminate.
  - pose proof (run_settles sampleParse zeroInterval None emptyLedger sampleListing (not_elem_of_nil _)) as H.
    destruct (performBackupRun sampleParse zeroInterval None emptyLedger sampleListing) as [[row|] [db' objects']] eqn:E.
    + exists row, db', objects'. split; [reflexivity|]. destruct H as (_ & _ & _ & _ & Hcase).
      assert (Hf : brStatus row = br_failed ∧ brPostgres row ≠ None)
        by (revert E; vm_compute; intros [= <- _ _]; split; [reflexivity|discriminate]).
      destruct Hf as [Hf Hp]. destruct Hcase as [[[Hsucc _] _]|(_ & code & Hcode & [Hnone|(Hd & -> & Hu)])]; [congruence|done|].
      split; [exact Hcode|]. split; [exact Hd|exact Hu].
    + exfalso. revert E. vm_compute. discriminate.
Defined.

Lemma run_keeps_backups_witness :
  u "backups/a" ∉ key <$> (performBackupRun sampleParse sampleEnv None emptyLedger sampleListing).2.2 ∧
  backupPostgresKey sampleRunId ∈ key <$> (performBackupRun sampleParse sampleEnv None emptyLedger sampleListing).2.2.
Proof.
  split; [refine (bool_decide_unpack _ _); vm_compute; reflexivity|].
  pose proof (run_keeps_backups sampleParse sampleEnv None emptyLedger sampleListing) as H.
  destruct (performBackupRun sampleParse sampleEnv None emptyLedger sampleListing) as [[row|] [db' objects']] eqn:E.
  - destruct (H ltac:(refine (bool_decide_unpack _ _); vm_compute; reflexivity) (not_elem_of_nil _)) as [_ Hok].
    apply (Hok row eq_refl). revert E. vm_compute. intros [= <- _ _]. reflexivity.
  - exfalso. revert E. vm_compute. discriminate.
Defined.

Definition afterPass : LedgerTables :=
  match watchdogPass (Some (100 * DAY_MS)%Z) emptyLedger with Ok (_, db) => db | Err _ => emptyLedger end.

(** An empty ledger is told missing once: a pass a year later has no such news. *)
Lemma episodes_announced_once_witness :
  ∃ alerts, watchdogPass (Some (100 * DAY_MS)%Z) emptyLedger = Ok (alerts, afterPass) ∧ kind <$> alerts = [backup_missed] ∧
    runRows afterPass = runRows emptyLedger.
Proof.
  destruct (episodes_announced_once (100 * DAY_MS) emptyLedger NoDup_nil_2) as (alerts & db' & Ha & Hp & Hr & _).
  assert (E : db' = afterPass) by (unfold afterPass; rewrite Hp; reflexivity). subst db'.
  eexists. split; [exact Hp|]. split; [|exact Hr]. vm_compute in Ha. injection Ha as <-. vm_compute. reflexivity.
Defined.

Lemma nightly_runs_spaced_witness :
  ∃ r, runIfDue sampleParse sampleEnv true DEFAULT_BACKUP_SCHEDULE (Some 1789700400000%Z) emptyLedger [] = Ok r ∧ is_Some r.
Proof.
  destruct (nightly_runs_spaced sampleParse sampleEnv DEFAULT_BACKUP_SCHEDULE 3 0 1789700400000 emptyLedger []) as (r & Hr & Hiff & _).
  - split_and!; (reflexivity || lia).
  - intros row Hrow. by apply elem_of_nil in Hrow.
  - reflexivity.
  - apply not_elem_of_nil.
  - vm_compute. discriminate.
  - exists r. split; [exact Hr|]. apply Hiff. by left.
Defined.
