(* ===== verification/PiEvents.v ===== *)
(** The boundary to the agent loop, packages/adapters/src/pi-events.ts: the strict
    parser of its event records and the translator that turns a run of them into
    the events of the wire vocabulary. *)

From stdpp Require Import pretty.
From S2P Require Import Prelude JsText JsValue Approvals RunState RunEvents EventReducer EventInvariants JsonText.

(** ** The vocabulary *)

Inductive PiStopReason := pi_pending | pi_stop | pi_length | pi_toolUse | pi_error | pi_aborted | pi_deferred.

#[export] Instance PiStopReason_eq_dec : EqDecision PiStopReason.
Proof. solve_decision. Defined.

Definition PI_STOP_REASONS : list PiStopReason :=
  [pi_pending; pi_stop; pi_length; pi_toolUse; pi_error; pi_aborted; pi_deferred].

Definition stopReasonName (r : PiStopReason) : jstr :=
  match r with
  | pi_pending => u "pending" | pi_stop => u "stop" | pi_length => u "length" | pi_toolUse => u "toolUse"
  | pi_error => u "error" | pi_aborted => u "aborted" | pi_deferred => u "deferred"
  end.

Inductive PiAssistantMessageEventType :=
| am_start | am_text_start | am_text_delta | am_text_end | am_thinking_start | am_thinking_delta | am_thinking_end
| am_toolcall_start | am_toolcall_delta | am_toolcall_end | am_done | am_error.

#[export] Instance PiAssistantMessageEventType_eq_dec : EqDecision PiAssistantMessageEventType.
Proof. solve_decision. Defined.

Definition PI_ASSISTANT_MESSAGE_EVENT_TYPES : list PiAssistantMessageEventType :=
  [am_start; am_text_start; am_text_delta; am_text_end; am_thinking_start; am_thinking_delta; am_thinking_end;
   am_toolcall_start; am_toolcall_delta; am_toolcall_end; am_done; am_error].

Definition assistantMessageEventName (t : PiAssistantMessageEventType) : jstr :=
  match t with
  | am_start => u "start" | am_text_start => u "text_start" | am_text_delta => u "text_delta"
  | am_text_end => u "text_end" | am_thinking_start => u "thinking_start" | am_thinking_delta => u "thinking_delta"
  | am_thinking_end => u "thinking_end" | am_toolcall_start => u "toolcall_start"
  | am_toolcall_delta => u "toolcall_delta" | am_toolcall_end => u "toolcall_end" | am_done => u "done"
  | am_error => u "error"
  end.

Inductive PiEventType :=
| agent_start | agent_end | turn_start | turn_end | message_start | message_update | message_end
| tool_execution_start | tool_execution_update | tool_execution_end.

#[export] Instance PiEventType_eq_dec : EqDecision PiEventType.
Proof. solve_decision. Defined.

Definition piEventTypes : list PiEventType :=
  [agent_start; agent_end; turn_start; turn_end; message_start; message_update; message_end;
   tool_execution_start; tool_execution_update; tool_execution_end].

Definition piEventTypeName (t : PiEventType) : jstr :=
  match t with
  | agent_start => u "agent_start" | agent_end => u "agent_end" | turn_start => u "turn_start"
  | turn_end => u "turn_end" | message_start => u "message_start" | message_update => u "message_update"
  | message_end => u "message_end" | tool_execution_start => u "tool_execution_start"
  | tool_execution_update => u "tool_execution_update" | tool_execution_end => u "tool_execution_end"
  end.

(** [PI_EVENT_MAPPING]: what an event may emit, and whether it ends the run. *)
Record PiEventMapping := { emits : list RunEventType; terminalEvent : bool }.

Definition PI_EVENT_MAPPING (t : PiEventType) : PiEventMapping :=
  match t with
  | agent_start => {| emits := [run_started]; terminalEvent := false |}
  | agent_end => {| emits := [run_completed; run_failed; run_cancelled]; terminalEvent := true |}
  | message_update => {| emits := [token_delta]; terminalEvent := false |}
  | tool_execution_start => {| emits := [tool_requested]; terminalEvent := false |}
  | tool_execution_end => {| emits := [tool_completed; tool_failed]; terminalEvent := false |}
  | turn_start | turn_end | message_start | message_end | tool_execution_update =>
      {| emits := []; terminalEvent := false |}
  end.

(** [PI_EVENT_FIELDS]: the top-level fields an event may carry. *)
Definition PI_EVENT_FIELDS (t : PiEventType) : list jstr :=
  match t with
  | agent_start | turn_start => [u "type"]
  | agent_end => [u "type"; u "messages"]
  | turn_end => [u "type"; u "message"; u "toolResults"]
  | message_start | message_end => [u "type"; u "message"]
  | message_update => [u "type"; u "message"; u "assistantMessageEvent"]
  | tool_execution_start => [u "type"; u "toolCallId"; u "toolName"; u "args"]
  | tool_execution_update => [u "type"; u "toolCallId"; u "toolName"; u "args"; u "partialResult"]
  | tool_execution_end => [u "type"; u "toolCallId"; u "toolName"; u "result"; u "isError"]
  end.

(** The member of a vocabulary a value names. *)
Definition named {A} (name : A → jstr) (vocabulary : list A) (v : jsval) : option A :=
  match v with JString s => List.find (λ a, bool_decide (name a = s)) vocabulary | _ => None end.

(** ** Errors and parsed events *)

Inductive PiSequenceReason :=
| after_terminal (type : PiEventType) | agent_start_twice | non_terminal_stop (reason : PiStopReason).

Inductive PiEventError :=
| UnknownPiEventType (received : jsval)
| UnknownPiEventField (type : PiEventType) (field : jstr)
| UnknownPiMessageEventType (received : jsval)
| MalformedPiEvent (eventType reason : jstr) (received : jsval)
| PiEventSequenceError (reason : PiSequenceReason).

Record PiUsageReport := {
  usProvider : option jstr; usModel : option jstr; usInput : option Z; usOutput : option Z }.

Inductive ParsedPiEvent :=
| PiAgentStart
| PiAgentEnd (stopReason : PiStopReason) (errorMessage : option jstr)
| PiTurnStart
| PiTurnEnd
| PiMessageStart (role : jstr)
| PiMessageUpdate (role : jstr) (update : PiAssistantMessageEventType) (delta : option jstr)
| PiMessageEnd (role : jstr) (usageReport : option PiUsageReport)
| PiToolStart (toolCallId toolName : jstr) (args : jsval)
| PiToolUpdate (toolCallId : jstr)
| PiToolEnd (toolCallId toolName : jstr) (res : jsval) (isError : bool).

Definition parsedType (e : ParsedPiEvent) : PiEventType :=
  match e with
  | PiAgentStart => agent_start | PiAgentEnd _ _ => agent_end | PiTurnStart => turn_start | PiTurnEnd => turn_end
  | PiMessageStart _ => message_start | PiMessageUpdate _ _ _ => message_update | PiMessageEnd _ _ => message_end
  | PiToolStart _ _ _ => tool_execution_start | PiToolUpdate _ => tool_execution_update
  | PiToolEnd _ _ _ _ => tool_execution_end
  end.

(** ** Field readers *)

Definition piMalformed {A} (eventType reason : jstr) (received : jsval) : result PiEventError A :=
  Err (MalformedPiEvent eventType reason received).

Definition piRequireString (record : jobject) (eventType field : jstr) : result PiEventError jstr :=
  match getField field record with
  | JString s => if (strlen s =? 0)%Z then piMalformed eventType (field ++ u " must be a non-empty string") (JString s)
                 else Ok s
  | v => piMalformed eventType (field ++ u " must be a non-empty string") v
  end.

Definition piRequirePresent (record : jobject) (eventType field : jstr) : result PiEventError jsval :=
  if hasOwn field record then Ok (getField field record)
  else piMalformed eventType (field ++ u " must be present") JUndefined.

Definition parseMessageRole (record : jobject) (eventType : jstr) : result PiEventError jstr :=
  match getField (u "message") record with
  | JObject message =>
      match getField (u "role") message with
      | JString s => if (strlen s =? 0)%Z then piMalformed eventType (u "message.role must be a non-empty string") (JString s)
                     else Ok s
      | v => piMalformed eventType (u "message.role must be a non-empty string") v
      end
  | v => piMalformed eventType (u "message must be an object") v
  end.

Definition optionalName (v : jsval) : option jstr :=
  match v with JString s => if isBlank s then None else Some s | _ => None end.

Definition tokenCount (v : jsval) : option Z :=
  z ← asNumber v ≫= safeInteger; if (z <? 0)%Z then None else Some z.

(** ** Parsing *)

(** Usage is observability: a report that is missing, mistyped or all zeros is not
    reported. *)
Definition parseMessageUsage (message : jobject) : PiUsageReport :=
  let provider := optionalName (getField (u "provider") message) in
  let model := optionalName (getField (u "model") message) in
  let unreported := {| usProvider := provider; usModel := model; usInput := None; usOutput := None |} in
  match getField (u "usage") message with
  | JObject usage =>
      let input := tokenCount (getField (u "input") usage) in
      let output := tokenCount (getField (u "output") usage) in
      let cacheRead := tokenCount (getField (u "cacheRead") usage) in
      let cacheWrite := tokenCount (getField (u "cacheWrite") usage) in
      let total := tokenCount (getField (u "totalTokens") usage) in
      if forallb (λ o, (default 0 o =? 0)%Z) [input; output; cacheRead; cacheWrite; total] then unreported
      else {| usProvider := provider; usModel := model; usInput := input; usOutput := output |}
  | _ => unreported
  end.

Definition parseMessageEnd (record : jobject) : result PiEventError ParsedPiEvent :=
  role ← parseMessageRole record (u "message_end");
  if negb (bool_decide (role = u "assistant")) then Ok (PiMessageEnd role None)
  else Ok (PiMessageEnd role (Some (parseMessageUsage
             (match getField (u "message") record with JObject message => message | _ => [] end)))).

(** The loop of [parseAgentEnd]: the last reason and the last error message any
    assistant message names. *)
Fixpoint agentEndLoop (messages : list jsval) (stopReason : PiStopReason) (errorMessage : option jstr) :
    PiStopReason * option jstr :=
  match messages with
  | [] => (stopReason, errorMessage)
  | JObject message :: messages =>
      if isOneOf [u "assistant"] (getField (u "role") message) then
        agentEndLoop messages
          (default stopReason (named stopReasonName PI_STOP_REASONS (getField (u "stopReason") message)))
          (match getField (u "errorMessage") message with JString s => Some s | _ => errorMessage end)
      else agentEndLoop messages stopReason errorMessage
  | _ :: messages => agentEndLoop messages stopReason errorMessage
  end.

Definition parseAgentEnd (record : jobject) : result PiEventError ParsedPiEvent :=
  match getField (u "messages") record with
  | JArray messages =>
      let '(stopReason, errorMessage) := agentEndLoop messages pi_stop None in
      Ok (PiAgentEnd stopReason errorMessage)
  | v => piMalformed (u "agent_end") (u "messages must be an array") v
  end.

Definition parseMessageUpdate (record : jobject) : result PiEventError ParsedPiEvent :=
  role ← parseMessageRole record (u "message_update");
  match getField (u "assistantMessageEvent") record with
  | JObject update =>
      match named assistantMessageEventName PI_ASSISTANT_MESSAGE_EVENT_TYPES (getField (u "type") update) with
      | None => Err (UnknownPiMessageEventType (getField (u "type") update))
      | Some am_text_delta =>
          match getField (u "delta") update with
          | JString delta => Ok (PiMessageUpdate role am_text_delta (Some delta))
          | v => piMalformed (u "message_update") (u "assistantMessageEvent.delta must be a string for text_delta") v
          end
      | Some updateType => Ok (PiMessageUpdate role updateType None)
      end
  | v => piMalformed (u "message_update") (u "assistantMessageEvent must be an object") v
  end.

Definition parseToolStart (record : jobject) : result PiEventError ParsedPiEvent :=
  toolCallId ← piRequireString record (u "tool_execution_start") (u "toolCallId");
  toolName ← piRequireString record (u "tool_execution_start") (u "toolName");
  args ← piRequirePresent record (u "tool_execution_start") (u "args");
  Ok (PiToolStart toolCallId toolName args).

Definition parseToolEnd (record : jobject) : result PiEventError ParsedPiEvent :=
  toolCallId ← piRequireString record (u "tool_execution_end") (u "toolCallId");
  toolName ← piRequireString record (u "tool_execution_end") (u "toolName");
  res ← piRequirePresent record (u "tool_execution_end") (u "result");
  match getField (u "isError") record with
  | JBool isError => Ok (PiToolEnd toolCallId toolName res isError)
  | v => piMalformed (u "tool_execution_end") (u "isError must be a boolean") v
  end.

(** The [switch] over the canonical type. *)
Definition parseCanonical (t : PiEventType) (record : jobject) : result PiEventError ParsedPiEvent :=
  match t with
  | agent_start => Ok PiAgentStart
  | turn_start => Ok PiTurnStart
  | turn_end => Ok PiTurnEnd
  | agent_end => parseAgentEnd record
  | message_start => PiMessageStart <$> parseMessageRole record (u "message_start")
  | message_end => parseMessageEnd record
  | message_update => parseMessageUpdate record
  | tool_execution_start => parseToolStart record
  | tool_execution_update => PiToolUpdate <$> piRequireString record (u "tool_execution_update") (u "toolCallId")
  | tool_execution_end => parseToolEnd record
  end.

Definition parsePiEvent (value : jsval) : result PiEventError ParsedPiEvent :=
  match asRecord value with
  | None => piMalformed (u "event") (u "the event must be an object") value
  | Some record =>
      match named piEventTypeName piEventTypes (getField (u "type") record) with
      | None => Err (UnknownPiEventType (getField (u "type") record))
      | Some t =>
          match List.find (λ kv, negb (isMember kv.1 (PI_EVENT_FIELDS t))) record with
          | Some (field, _) => Err (UnknownPiEventField t field)
          | None => parseCanonical t record
          end
      end
  end.

(** ** The translator *)

(** The texts of the text parts of a failed tool's content. *)
Definition textParts (content : list jsval) : list jstr :=
  content ≫= λ part,
    match part with
    | JObject p =>
        match getField (u "type") p, getField (u "text") p with
        | JString t, JString text => if bool_decide (t = u "text") then [text] else []
        | _, _ => []
        end
    | _ => []
    end.

Definition toolErrorText (res : jsval) (toolName : jstr) : jstr :=
  let fallback := u "the Pi tool " ++ quoted toolName ++ u " failed" in
  match res with
  | JObject record =>
      match getField (u "content") record with
      | JArray content => match textParts content with [] => fallback | texts => join [10%N] texts end
      | _ => fallback
      end
  | _ => fallback
  end.

Record PiRunTranslator := {
  ptThread : jstr;
  ptRun : jstr;
  nextSeq : Z;
  assistantMessages : N;
  currentAssistantId : option jstr;
  terminalReached : bool;
  hasStarted : bool;
}.

Definition newTranslator (thread run : jstr) (startSeq : Z) : PiRunTranslator := {|
  ptThread := thread; ptRun := run; nextSeq := startSeq; assistantMessages := 0; currentAssistantId := None;
  terminalReached := false; hasStarted := false |}.

Definition frame (t : PiRunTranslator) (s : Z) (b : RunEventBody) : RunEvent :=
  {| base := {| seq := s; threadId := ptThread t; runId := ptRun t |}; body := b |}.

(** [this.nextSeq++]. *)
Definition allocateSeq (t : PiRunTranslator) : Z * PiRunTranslator :=
  (nextSeq t, {| ptThread := ptThread t; ptRun := ptRun t; nextSeq := nextSeq t + 1;
                 assistantMessages := assistantMessages t; currentAssistantId := currentAssistantId t;
                 terminalReached := terminalReached t; hasStarted := hasStarted t |}).

Definition beginAssistant (t : PiRunTranslator) : jstr * PiRunTranslator :=
  let n := (assistantMessages t + 1)%N in
  let id := u "assistant-" ++ decimal (Z.of_N n) in
  (id, {| ptThread := ptThread t; ptRun := ptRun t; nextSeq := nextSeq t; assistantMessages := n;
          currentAssistantId := Some id; terminalReached := terminalReached t; hasStarted := hasStarted t |}).

Definition started (t : PiRunTranslator) : PiRunTranslator := {|
  ptThread := ptThread t; ptRun := ptRun t; nextSeq := nextSeq t; assistantMessages := assistantMessages t;
  currentAssistantId := currentAssistantId t; terminalReached := terminalReached t; hasStarted := true |}.

Definition ended (t : PiRunTranslator) : PiRunTranslator := {|
  ptThread := ptThread t; ptRun := ptRun t; nextSeq := nextSeq t; assistantMessages := assistantMessages t;
  currentAssistantId := currentAssistantId t; terminalReached := true; hasStarted := hasStarted t |}.

Record PiTranslation := { trEvents : list RunEvent; trTerminal : bool; trUsage : option PiUsageReport }.

Definition quiet : PiTranslation := {| trEvents := []; trTerminal := false; trUsage := None |}.

Definition emit (t : PiRunTranslator) (b : RunEventBody) : PiTranslation * PiRunTranslator :=
  let '(s, t') := allocateSeq t in
  ({| trEvents := [frame t s b]; trTerminal := false; trUsage := None |}, t').

Definition endWith (t : PiRunTranslator) (b : RunEventBody) : PiTranslation * PiRunTranslator :=
  let '(s, t') := allocateSeq (ended t) in
  ({| trEvents := [frame t s b]; trTerminal := true; trUsage := None |}, t').

Definition endRun (t : PiRunTranslator) (stopReason : PiStopReason) (errorMessage : option jstr) :
    result PiEventError PiTranslation * PiRunTranslator :=
  let finish b := let '(r, t') := endWith t b in (Ok r, t') in
  match stopReason with
  | pi_error => finish (RunFailed (default (u "the Pi agent turn failed") errorMessage) None)
  | pi_aborted => finish (RunCancelled (Some (default (u "aborted") errorMessage)))
  | pi_stop | pi_length | pi_toolUse => finish (RunCompleted (currentAssistantId t))
  | pi_pending | pi_deferred => (Err (PiEventSequenceError (non_terminal_stop stopReason)), t)
  end.

(** [translate] once the event has parsed. *)
Definition translateParsed (t : PiRunTranslator) (event : ParsedPiEvent) :
    result PiEventError PiTranslation * PiRunTranslator :=
  let answer (r : PiTranslation * PiRunTranslator) := let '(r, t') := r in (Ok r, t') in
  if terminalReached t then (Err (PiEventSequenceError (after_terminal (parsedType event))), t)
  else
    match event with
    | PiAgentStart =>
        if hasStarted t then (Err (PiEventSequenceError agent_start_twice), t)
        else answer (emit (started t) RunStarted)
    | PiMessageStart role =>
        (Ok quiet, if bool_decide (role = u "assistant") then (beginAssistant t).2 else t)
    | PiMessageUpdate _ update delta =>
        if negb (bool_decide (update = am_text_delta)) then (Ok quiet, t)
        else
          let '(messageId, t) := match currentAssistantId t with Some id => (id, t) | None => beginAssistant t end in
          answer (emit t (TokenDelta messageId (default [] delta)))
    | PiToolStart toolCallId toolName args => answer (emit t (ToolRequested toolCallId toolName args))
    | PiToolEnd toolCallId toolName res isError =>
        if isError then answer (emit t (ToolFailed toolCallId (toolErrorText res toolName) None))
        else answer (emit t (ToolCompleted toolCallId res None None))
    | PiMessageEnd _ report => (Ok {| trEvents := []; trTerminal := false; trUsage := report |}, t)
    | PiAgentEnd stopReason errorMessage => endRun t stopReason errorMessage
    | PiTurnStart | PiTurnEnd | PiToolUpdate _ => (Ok quiet, t)
    end.

Definition translate (t : PiRunTranslator) (value : jsval) : result PiEventError PiTranslation * PiRunTranslator :=
  match parsePiEvent value with
  | Err e => (Err e, t)
  | Ok event => translateParsed t event
  end.

(** A session's values in order: what the translator makes of all of them, an answer
    that is an error emitting nothing. *)
Definition eventsOf (r : result PiEventError PiTranslation) : list RunEvent :=
  match r with Ok tr => trEvents tr | Err _ => [] end.

Fixpoint translateAll (t : PiRunTranslator) (values : list jsval) : list RunEvent * PiRunTranslator :=
  match values with
  | [] => ([], t)
  | v :: values =>
      let '(r, t) := translate t v in
      let '(events, t) := translateAll t values in (eventsOf r ++ events, t)
  end.

(** The session as the runtime drains it: the first error fails it. *)
Fixpoint translateRun (t : PiRunTranslator) (values : list jsval) : result PiEventError (list RunEvent * PiRunTranslator) :=
  match values with
  | [] => Ok ([], t)
  | v :: values =>
      match translate t v with
      | (Err e, _) => Err e
      | (Ok tr, t) => '(events, t) ← translateRun t values; Ok (trEvents tr ++ events, t)
      end
  end.

(** ** What a parsed event carries *)

Lemma piRequireString_ok record ty f s : piRequireString record ty f = Ok s → nonEmpty s = true.
Proof.
  unfold piRequireString, piMalformed, nonEmpty. destruct (getField f record); try done.
  destruct (strlen _ =? 0)%Z eqn:E; [done|]. intros [= <-]. pose proof (strlen_nonneg s0). lia.
Qed.

Definition carriesIds (e : ParsedPiEvent) : bool :=
  match e with
  | PiToolStart c n _ | PiToolEnd c n _ _ => nonEmpty c && nonEmpty n
  | PiToolUpdate c => nonEmpty c
  | _ => true
  end.

Lemma parseCanonical_ok t record e : parseCanonical t record = Ok e → parsedType e = t ∧ carriesIds e = true.
Proof.
  destruct t; cbn [parseCanonical]; unfold parseAgentEnd, parseMessageEnd, parseMessageUpdate, parseToolStart, parseToolEnd;
    try (by intros [= <-]).
  - destruct (getField _ record); try done. destruct (agentEndLoop _ _ _). by intros [= <-].
  - destruct (parseMessageRole _ _); [|done]. by intros [= <-].
  - destruct (parseMessageRole _ _); [|done]. cbn [mbind result_bind]. destruct (getField _ record); try done.
    destruct (named _ _ _) as [ty|]; [|done]. destruct ty; try (by intros [= <-]).
    destruct (getField (u "delta") _); try done. by intros [= <-].
  - destruct (parseMessageRole _ _); [|done]. cbn [mbind result_bind]. case_match; by intros [= <-].
  - destruct (piRequireString _ _ (u "toolCallId")) eqn:E1; [|done]. cbn [mbind result_bind].
    destruct (piRequireString _ _ (u "toolName")) eqn:E2; [|done]. cbn [mbind result_bind].
    destruct (piRequirePresent _ _ _); [|done]. intros [= <-]. cbn. by rewrite (piRequireString_ok _ _ _ _ E1), (piRequireString_ok _ _ _ _ E2).
  - destruct (piRequireString _ _ (u "toolCallId")) eqn:E1; [|done]. intros [= <-]. cbn. by rewrite (piRequireString_ok _ _ _ _ E1).
  - destruct (piRequireString _ _ (u "toolCallId")) eqn:E1; [|done]. cbn [mbind result_bind].
    destruct (piRequireString _ _ (u "toolName")) eqn:E2; [|done]. cbn [mbind result_bind].
    destruct (piRequirePresent _ _ _); [|done]. cbn [mbind result_bind]. destruct (getField _ record); try done.
    intros [= <-]. cbn. by rewrite (piRequireString_ok _ _ _ _ E1), (piRequireString_ok _ _ _ _ E2).
Qed.

Lemma parsePiEvent_ok v e : parsePiEvent v = Ok e → carriesIds e = true.
Proof.
  unfold parsePiEvent, piMalformed. destruct (asRecord v) as [record|]; [|done].
  destruct (named _ _ _) as [t|]; [|done]. destruct (List.find _ record) as [[]|]; [done|].
  by intros [_ ?]%parseCanonical_ok.
Qed.

(** ** One step of the translator *)

Definition isTerminalBody (b : RunEventBody) : bool :=
  match b with RunCompleted _ | RunFailed _ _ | RunCancelled _ => true | _ => false end.

(** The one body the vocabulary refuses. *)
Definition emptyReason (b : RunEventBody) : bool :=
  match b with RunCancelled (Some []) => true | _ => false end.

Definition wfTranslator (t : PiRunTranslator) : Prop := optAll nonEmpty (currentAssistantId t) = true.

(** How a step moves the translator: silently, or by one event at the next position. *)
Inductive moves (t : PiRunTranslator) : list RunEvent → PiRunTranslator → Prop :=
| moves_silent t' :
    nextSeq t' = nextSeq t → terminalReached t' = terminalReached t → hasStarted t' = hasStarted t →
    moves t [] t'
| moves_emit b t' :
    terminalReached t = false → nextSeq t' = (nextSeq t + 1)%Z → terminalReached t' = isTerminalBody b →
    (wfBody b || emptyReason b) = true → (b = RunStarted → hasStarted t = false) →
    (hasStarted t' = true ↔ hasStarted t = true ∨ b = RunStarted) →
    moves t [frame t (nextSeq t) b] t'.

Lemma beginAssistant_spec t :
  let '(id, t') := beginAssistant t in
  nonEmpty id = true ∧ currentAssistantId t' = Some id ∧ ptThread t' = ptThread t ∧ ptRun t' = ptRun t ∧
  nextSeq t' = nextSeq t ∧ terminalReached t' = terminalReached t ∧ hasStarted t' = hasStarted t.
Proof. done. Qed.

Lemma translateParsed_moves t e r t' :
  wfTranslator t → carriesIds e = true → translateParsed t e = (r, t') →
  wfTranslator t' ∧ ptThread t' = ptThread t ∧ ptRun t' = ptRun t ∧ moves t (eventsOf r) t'.
Proof.
  intros Hw He. unfold translateParsed.
  destruct (terminalReached t) eqn:Hterm; [intros [= <- <-]; split_and!; try done; by constructor|].
  destruct e as [|sr em| | |role|role up delta|role rep|c n a|c|c n res ie]; cbn [emit allocateSeq].
  - destruct (hasStarted t) eqn:Hs; [intros [= <- <-]; split_and!; try done; by constructor|].
    intros [= <- <-]. split_and!; try done. apply (moves_emit t RunStarted); cbn; try done. naive_solver.
  - unfold endRun, endWith. cbn [allocateSeq]. destruct sr; intros [= <- <-]; split_and!; try done; try (by constructor);
      match goal with |- moves _ (eventsOf (Ok {| trEvents := [frame _ _ ?b] |})) _ => apply (moves_emit t b) end;
      cbn; try done; try naive_solver.
    + by rewrite Hw.
    + by rewrite Hw.
    + by rewrite Hw.
    + by destruct em as [[|]|].
  - intros [= <- <-]. split_and!; try done. by constructor.
  - intros [= <- <-]. split_and!; try done. by constructor.
  - intros [= <- <-]. case_bool_decide; split_and!; try done; by constructor.
  - destruct (bool_decide (up = am_text_delta)); cbn [negb]; [|intros [= <- <-]; split_and!; try done; by constructor].
    destruct (currentAssistantId t) as [id|] eqn:Hid.
    + intros [= <- <-]. split_and!; try done.
      unfold wfTranslator in Hw. rewrite Hid in Hw. cbn in Hw.
      apply (moves_emit t (TokenDelta id (default [] delta))); cbn; try done; [by rewrite Hw|naive_solver].
    + cbn [beginAssistant]. intros [= <- <-]. split_and!; try done.
      eapply (moves_emit t (TokenDelta _ (default [] delta))); cbn; try done. naive_solver.
  - intros [= <- <-]. split_and!; try done. by constructor.
  - intros [= <- <-]. split_and!; try done. apply (moves_emit t (ToolRequested c n a)); cbn in *; try done; [by rewrite He|naive_solver].
  - intros [= <- <-]. split_and!; try done. by constructor.
  - cbn in He. apply andb_true_iff in He as [He _]. destruct ie; intros [= <- <-]; split_and!; try done;
      [apply (moves_emit t (ToolFailed c (toolErrorText res n) None))|apply (moves_emit t (ToolCompleted c res None None))];
      cbn; rewrite ?He; try done; naive_solver.
Qed.

Lemma translate_moves t v r t' :
  wfTranslator t → translate t v = (r, t') →
  wfTranslator t' ∧ ptThread t' = ptThread t ∧ ptRun t' = ptRun t ∧ moves t (eventsOf r) t'.
Proof.
  intros Hw. unfold translate. destruct (parsePiEvent v) as [e|e] eqn:E.
  - intros H. by eapply translateParsed_moves; [|eapply parsePiEvent_ok|].
  - intros [= <- <-]. split_and!; try done. by constructor.
Qed.

(** ** A session's events *)

Definition isStartBody (b : RunEventBody) : bool := match b with RunStarted => true | _ => false end.

(** The events of a session from a translator's position on. *)
Record soundFrom (t : PiRunTranslator) (events : list RunEvent) (t' : PiRunTranslator) : Prop := {
  sound_next : nextSeq t' = (nextSeq t + Z.of_nat (length events))%Z;
  sound_base i e : events !! i = Some e →
    base e = {| seq := nextSeq t + Z.of_nat i; threadId := ptThread t; runId := ptRun t |} ∧
    (wfBody (body e) || emptyReason (body e)) = true;
  sound_terminal i e : events !! i = Some e → isTerminalBody (body e) = true → S i = length events;
  sound_ended : terminalReached t = true → events = [];
  sound_started : length (List.filter (λ e, isStartBody (body e)) events) ≤ (if hasStarted t then 0 else 1);
}.

Lemma translateAll_sound t values :
  wfTranslator t → let '(events, t') := translateAll t values in soundFrom t events t'.
Proof.
  revert t. induction values as [|v values IH]; intros t Hw; cbn [translateAll].
  { split; cbn; try done; [lia|destruct (hasStarted t); lia]. }
  destruct (translate t v) as [r t1] eqn:Hv. destruct (translate_moves t v r t1 Hw Hv) as (Hw1 & Hth & Hru & Hm).
  specialize (IH t1 Hw1). destruct (translateAll t1 values) as [events t2]. destruct IH as [Hn Hb Ht He Hs].
  rewrite Hth, Hru in Hb. destruct Hm as [t1 Hq Hterm Hst|b t1 Hterm Hq Hterm' Hwf Hb1 Hst]; cbn [app].
  - rewrite Hq in *. rewrite Hterm in *. rewrite Hst in *. by split.
  - split.
    + rewrite Hn, Hq. cbn [length]. lia.
    + intros [|i] e; cbn [lookup list_lookup]; intros Hi; [injection Hi as <-; split; [cbn; f_equal; lia|done]|].
      destruct (Hb i e Hi) as [-> ?]. split; [f_equal; lia|done].
    + intros [|i] e; cbn [lookup list_lookup length]; intros Hi Hterminal.
      * injection Hi as <-. cbn in Hterminal. rewrite Hterminal in Hterm'. by rewrite (He Hterm').
      * by rewrite (Ht i e Hi Hterminal).
    + congruence.
    + cbn [List.filter]. cbn [frame body]. destruct (isStartBody b) eqn:Hsb.
      * destruct b; try done. rewrite (Hb1 eq_refl). cbn [length].
        assert (hasStarted t1 = true) as Hs1 by (apply Hst; by right). rewrite Hs1 in Hs. lia.
      * destruct (hasStarted t) eqn:Hs0; [|destruct (hasStarted t1); lia].
        assert (hasStarted t1 = true) as Hs1 by (apply Hst; by left). by rewrite Hs1 in Hs.
Qed.

Lemma translateAll_length t values :
  wfTranslator t → length (translateAll t values).1 ≤ length values.
Proof.
  revert t. induction values as [|v values IH]; intros t Hw; cbn [translateAll]; [done|].
  destruct (translate t v) as [r t1] eqn:Hv. destruct (translate_moves t v r t1 Hw Hv) as (Hw1 & _ & _ & Hm).
  specialize (IH t1 Hw1). destruct (translateAll t1 values) as [events t2]. cbn in *. rewrite length_app.
  destruct Hm; cbn; lia.
Qed.

Lemma parseRunEvent_fixed e : parseRunEvent (eventObject e) = Ok e ↔ wfEvent e = true.
Proof. split; [by intros [? _]%parseRunEvent_ok|apply parseRunEvent_object]. Qed.

Lemma emptyReason_refused e :
  wfBase (base e) = true → (wfBody (body e) || emptyReason (body e)) = true →
  (parseRunEvent (eventObject e) = Ok e ↔ emptyReason (body e) = false).
Proof.
  intros Hb Hwf. rewrite parseRunEvent_fixed. unfold wfEvent. rewrite Hb. cbn [andb].
  destruct (body e) as [| | | | | | | | |[[|]|]|]; cbn in *; try done; by rewrite ?orb_false_r in Hwf.
Qed.

(** C33. A session of any records, in any order, some refused, becomes a stream that the
    rest of the program can store and fold: contiguous positions from the first, one
    thread and run, at most one start, at most one terminal event and nothing after
    it; and every event is one the wire parser reads back, except a cancellation whose
    reason is the empty text. *)
Theorem pi_stream_sound thread run startSeq values :
  nonEmpty thread = true → nonEmpty run = true → (1 ≤ startSeq)%Z →
  (startSeq + Z.of_nat (length values) ≤ MAX_SAFE_INTEGER + 1)%Z →
  let '(events, t') := translateAll (newTranslator thread run startSeq) values in
  nextSeq t' = (startSeq + Z.of_nat (length events))%Z ∧
  length (List.filter (λ e, isStartBody (body e)) events) ≤ 1 ∧
  ∀ i e, events !! i = Some e →
    base e = {| seq := startSeq + Z.of_nat i; threadId := thread; runId := run |} ∧
    (isTerminalBody (body e) = true → S i = length events) ∧
    (parseRunEvent (eventObject e) = Ok e ↔ emptyReason (body e) = false).
Proof.
  intros Hth Hru Hs Hmax. pose proof (translateAll_sound (newTranslator thread run startSeq) values eq_refl) as H.
  pose proof (translateAll_length (newTranslator thread run startSeq) values eq_refl) as Hlen.
  destruct (translateAll _ values) as [events t']. destruct H as [Hn Hb Ht _ Hst]. cbn in *.
  split; [done|]. split; [done|]. intros i e Hi. destruct (Hb i e Hi) as [Hbase Hwf]. split; [done|].
  split; [by apply Ht|]. apply emptyReason_refused; [|done]. rewrite Hbase. unfold wfBase. cbn.
  rewrite Hth, Hru. apply lookup_lt_Some in Hi. unfold isSafeZ. rewrite !andb_true_r. apply andb_true_iff. lia.
Qed.

(** ** A session folded into the thread *)

(** The agent loop's own protocol for tool calls: every execution starts under an id of
    its own and ends once, after it started. *)
Definition callStep (open seen : list jstr) (e : ParsedPiEvent) : option (list jstr * list jstr) :=
  match e with
  | PiToolStart c _ _ => if isMember c seen then None else Some (c :: open, c :: seen)
  | PiToolEnd c _ _ _ =>
      if isMember c open then Some (List.filter (λ d, negb (bool_decide (d = c))) open, seen) else None
  | _ => Some (open, seen)
  end.

Fixpoint disciplined (open seen : list jstr) (values : list jsval) : bool :=
  match values with
  | [] => true
  | v :: values =>
      match parsePiEvent v with
      | Ok e => match callStep open seen e with Some (open, seen) => disciplined open seen values | None => false end
      | Err _ => false
      end
  end.

Definition runMessageText (s : ThreadSnapshot) (rid mid : jstr) : jstr := default [] (msgText <$> findMessage s rid mid).

(** The text the events speak in one message. *)
Definition spoken (mid : jstr) (events : list RunEvent) : jstr :=
  events ≫= λ e, match body e with TokenDelta id delta => if bool_decide (id = mid) then delta else [] | _ => [] end.

(** The status a run has after the events of a session that began. *)
Definition statusAfter (events : list RunEvent) : RunStatus :=
  match body <$> last events with
  | Some (RunCompleted _) => completed
  | Some (RunFailed _ _) => failed
  | Some (RunCancelled _) => cancelled
  | _ => running
  end.

Lemma reduce_next S e :
  tsPendingEvents S = [] → threadId (base e) = tsThreadId S → eventSeq e = (tsLastSeq S + 1)%Z → wfEvent e = true →
  reduceRunEvent S (eventObject e) = (applied ← applyEvent S e; Ok (withCursor applied (eventSeq e) [])).
Proof.
  intros Hp Ht Hs Hw. unfold reduceRunEvent. rewrite parseRunEvent_object by done. unfold reduceParsed.
  rewrite bool_decide_false by naive_solver. rewrite Hs, Hp.
  destruct (Z.leb_spec (tsLastSeq S + 1) (tsLastSeq S)); [lia|]. cbn [existsb].
  destruct (Z.ltb_spec (tsLastSeq S + 1) (tsLastSeq S + 1)); [lia|]. unfold applyAtCursor. rewrite Hp.
  destruct (applyEvent S e); [|done]. cbn [mbind result_bind List.filter]. by rewrite Hs.
Qed.

Definition tracksCalls (open seen : list jstr) (run : RunSnapshot) : Prop :=
  (∀ c, c ∈ seen ↔ is_Some (findCall c (rsToolCalls run))) ∧
  ∀ c, c ∈ open → ∃ call, findCall c (rsToolCalls run) = Some call ∧ tcStatus call = tc_requested ∧ tcApproval call = None.

(** The snapshot of a session in progress. *)
Record follows (rid : jstr) (open seen : list jstr) (S : ThreadSnapshot) : Prop := {
  follows_run : ∃ run, findRun S rid = Some run ∧ rsStatus run = running ∧ tracksCalls open seen run;
  follows_messages mid m : findMessage S rid mid = Some m → msgRole m = assistant;
}.

Lemma asRunning_running S rid run : findRun S rid = Some run → rsStatus run = running → asRunning S rid = Ok (S, run).
Proof. intros Hr Hst. unfold asRunning. rewrite Hr. cbn [runOrNew]. by rewrite bool_decide_true. Qed.

Lemma runMessageText_withMessage S rid m mid :
  msgRunId m = rid →
  runMessageText (withMessage S m) rid mid = if bool_decide (msgId m = mid) then msgText m else runMessageText S rid mid.
Proof.
  intros Hm. unfold runMessageText. rewrite findMessage_withMessage. unfold msgKey. rewrite Hm.
  case_bool_decide as E; [rewrite decide_True by congruence|rewrite decide_False by congruence]; done.
Qed.

Lemma follows_delta rid open seen S mid delta :
  follows rid open seen S →
  ∃ S', reduceTokenDelta S rid mid delta = Ok S' ∧ follows rid open seen S' ∧ tsThreadId S' = tsThreadId S ∧
    ∀ m, runMessageText S' rid m = runMessageText S rid m ++ (if bool_decide (mid = m) then delta else []).
Proof.
  intros [(run & Hrun & Hst & Hc) Hm]. unfold reduceTokenDelta. rewrite (asRunning_running _ _ _ Hrun Hst).
  cbn [mbind result_bind].
  assert (Hgo : ∀ m, msgId m = mid → msgRunId m = rid → msgRole m = assistant →
    msgText m = runMessageText S rid mid ++ delta →
    follows rid open seen (withMessage S m) ∧ tsThreadId (withMessage S m) = tsThreadId S ∧
    ∀ mid', runMessageText (withMessage S m) rid mid' = runMessageText S rid mid' ++ (if bool_decide (mid = mid') then delta else [])).
  { intros m Hid Hr Hro Htx. split_and!.
    - split; [exists run; by split_and!|]. intros mid' m'. rewrite findMessage_withMessage. case_decide; [by intros [= <-]|apply Hm].
    - done.
    - intros mid'. rewrite runMessageText_withMessage by done. rewrite Hid. case_bool_decide as E; [by subst|by rewrite app_nil_r]. }
  destruct (findMessage S rid mid) as [m|] eqn:Hf.
  - rewrite bool_decide_false by (intros Hn; apply Hn; by eapply Hm). eexists. split; [done|].
    pose proof (findMessage_key _ _ _ _ Hf) as Hk. unfold msgKey in Hk. injection Hk as Hk1 Hk2.
    apply Hgo; cbn; [done|done|by eapply Hm|]. unfold runMessageText. by rewrite Hf.
  - eexists. split; [done|]. apply Hgo; try done. unfold runMessageText. by rewrite Hf.
Qed.

Lemma findCall_app c calls call :
  findCall c (calls ++ [call]) =
  match findCall c calls with Some x => Some x | None => if bool_decide (tcCallId call = c) then Some call else None end.
Proof. unfold findCall. by rewrite find_app. Qed.

Lemma runMessageText_withRun S r rid mid : runMessageText (withRun S r) rid mid = runMessageText S rid mid.
Proof. done. Qed.

Lemma follows_request rid open seen S c tool args :
  follows rid open seen S → c ∉ seen →
  ∃ S', reduceToolRequested S rid c tool args = Ok S' ∧ follows rid (c :: open) (c :: seen) S' ∧ tsThreadId S' = tsThreadId S ∧
    ∀ m, runMessageText S' rid m = runMessageText S rid m.
Proof.
  intros [(run & Hrun & Hst & Hseen & Hopen) Hm] Hc. unfold reduceToolRequested. rewrite (asRunning_running _ _ _ Hrun Hst).
  cbn [mbind result_bind].
  assert (Hn : findCall c (rsToolCalls run) = None) by (apply eq_None_not_Some; by rewrite <- Hseen).
  rewrite (proj1 (find_none_existsb _ _)) by exact Hn. eexists. split; [done|].
  pose proof (findRun_id _ _ _ Hrun) as Hid. split_and!; try done. split; [|done].
  eexists. rewrite findRun_withRun. cbn [rsRunId withToolCalls]. rewrite decide_True by done. split; [done|]. split; [done|].
  unfold tracksCalls. cbn [rsToolCalls withToolCalls]. split.
  - intros d. rewrite findCall_app, elem_of_cons. cbn [tcCallId]. destruct (decide (d = c)) as [->|Hne].
    + rewrite Hn, bool_decide_true by done. split; [by eexists|by left].
    + rewrite (bool_decide_false (c = d)) by congruence. rewrite Hseen.
      destruct (findCall d (rsToolCalls run)); split; [by eexists|naive_solver|by intros [?|[? ?]]|by intros [? ?]].
  - intros d [->|Hd]%elem_of_cons.
    + rewrite findCall_app, Hn. cbn [tcCallId]. rewrite bool_decide_true by done. by eexists.
    + destruct (Hopen d Hd) as (call & Hcall & ? & ?). exists call. by rewrite findCall_app, Hcall.
Qed.

Lemma follows_resolution rid open seen S c r :
  follows rid open seen S → c ∈ open →
  ∃ S', reduceToolResolution S rid c r = Ok S' ∧
    follows rid (List.filter (λ d, negb (bool_decide (d = c))) open) seen S' ∧ tsThreadId S' = tsThreadId S ∧
    ∀ m, runMessageText S' rid m = runMessageText S rid m.
Proof.
  intros [(run & Hrun & Hst & Hseen & Hopen) Hm] Hc. unfold reduceToolResolution. rewrite Hrun.
  destruct (Hopen c Hc) as (call & Hcall & Hreq & Happ). rewrite Hcall, Hreq. rewrite bool_decide_false by (intros Hx; by apply Hx).
  unfold approvalIs. rewrite Happ. rewrite andb_false_r. eexists. split; [done|].
  pose proof (findRun_id _ _ _ Hrun) as Hid. split_and!; try done. split; [|done].
  eexists. rewrite findRun_withRun. cbn [rsRunId withToolCalls]. rewrite decide_True by done. split; [done|]. split; [done|].
  unfold tracksCalls. cbn [rsToolCalls withToolCalls].
  assert (Hkey : tcCallId (resolveCall call r) = c).
  { apply (lookupKey_some tcCallId) in Hcall as [_ <-]. by destruct r. }
  assert (Hlook : ∀ d, findCall d (replaceWhere (keyIs tcCallId c) (resolveCall call r) (rsToolCalls run)) =
    if decide (d = c) then Some (resolveCall call r) else findCall d (rsToolCalls run)).
  { intros d. pose proof (lookupKey_replace tcCallId c d (resolveCall call r) (rsToolCalls run) Hkey) as E.
    unfold lookupKey in E. unfold findCall in *. rewrite E. case_decide; [by rewrite Hcall|done]. }
  split.
  - intros d. rewrite Hlook, Hseen. case_decide as E; [subst d|done]. rewrite Hcall. split; by eexists.
  - intros d Hd. apply list_elem_of_In, filter_In in Hd as [Hd%list_elem_of_In Hne].
    apply negb_true_iff, bool_decide_eq_false in Hne. rewrite Hlook, decide_False by done. by apply Hopen.
Qed.

Lemma runMessageText_complete S rid rid' mid :
  runMessageText (withMessages S (completeMessage rid <$> tsMessages S)) rid' mid = runMessageText S rid' mid.
Proof.
  unfold runMessageText. rewrite findMessage_complete. destruct (findMessage S rid' mid) as [m|]; [|done].
  cbn. unfold completeMessage. by destruct (_ && _).
Qed.

Lemma completeRun_follows S rid mid run :
  findRun S rid = Some run → (∀ id m, findMessage S rid id = Some m → msgRole m = assistant) →
  ∃ S', completeRunMessages S rid mid = Ok S' ∧ tsThreadId S' = tsThreadId S ∧ findRun S' rid = Some run ∧
    ∀ m, runMessageText S' rid m = runMessageText S rid m.
Proof.
  intros Hr Hm. unfold completeRunMessages. destruct mid as [mid|]; cbn [mbind result_bind].
  - destruct (findMessage S rid mid) as [m|] eqn:Hf.
    + rewrite bool_decide_false by (intros Hn; apply Hn; by eapply Hm). cbn [mbind result_bind].
      eexists. split_and!; try done. intros m'. apply runMessageText_complete.
    + cbn [mbind result_bind]. eexists. split_and!; try done. intros m'. rewrite runMessageText_complete.
      rewrite runMessageText_withMessage by done. cbn [msgId msgText]. case_bool_decide as E; [|done]. subst m'.
      unfold runMessageText. by rewrite Hf.
  - eexists. split_and!; try done. intros m'. apply runMessageText_complete.
Qed.

(** The terminal status a body names. *)
Definition endsAs (b : RunEventBody) : RunStatus :=
  match b with RunCompleted _ => completed | RunFailed _ _ => failed | _ => cancelled end.

Lemma follows_terminal open seen S b0 b :
  follows (runId b0) open seen S → isTerminalBody b = true →
  ∃ S', applyEvent S {| base := b0; body := b |} = Ok S' ∧ tsThreadId S' = tsThreadId S ∧
    (∃ run, findRun S' (runId b0) = Some run ∧ rsStatus run = endsAs b) ∧
    ∀ m, runMessageText S' (runId b0) m = runMessageText S (runId b0) m.
Proof.
  intros [(run & Hrun & Hst & _) Hm] Hb. pose proof (findRun_id _ _ _ Hrun) as Hid.
  assert (Hterm : ∀ st, st ∈ RUN_TRANSITIONS running →
    asTerminal S (runId b0) st = Ok (withRun S (withStatus run st), withStatus run st)).
  { intros st Hin. unfold asTerminal. rewrite Hrun. cbn [runOrNew]. rewrite Hst.
    by rewrite (proj2 (transition_ok running st st)). }
  assert (Hfind : ∀ S0 r, rsRunId r = runId b0 → findRun (withRun S0 r) (runId b0) = Some r)
    by (intros S0 r E; rewrite findRun_withRun; by rewrite decide_True).
  destruct b as [| | | | | | |mid|error code|reason|]; try done; unfold applyEvent; cbn [body base];
    unfold reduceRunCompleted, reduceRunFailed, reduceRunCancelled;
    rewrite Hterm by (cbn; set_solver); cbn [mbind result_bind endsAs].
  - destruct (completeRun_follows (withRun S (withStatus run completed)) (runId b0) mid _ (Hfind S (withStatus run completed) Hid) Hm)
      as (S' & -> & Ht & Hr & Htx). exists S'. split_and!; try done. by eexists.
  - match goal with |- context [withRun (withRun S ?r0) ?r] =>
      destruct (completeRun_follows (withRun (withRun S r0) r) (runId b0) None r (Hfind (withRun S r0) r Hid) Hm) as (S' & -> & Ht & Hr & Htx) end.
    exists S'. split_and!; try done. by eexists.
  - match goal with |- context [withRun (withRun S ?r0) ?r] =>
      destruct (completeRun_follows (withRun (withRun S r0) r) (runId b0) None r (Hfind (withRun S r0) r Hid) Hm) as (S' & -> & Ht & Hr & Htx) end.
    exists S'. split_and!; try done. by eexists.
Qed.

(** What a parsed event does to the snapshot a session has reached. *)
Inductive stepsTo (t : PiRunTranslator) (open seen : list jstr) (S : ThreadSnapshot) :
    list RunEvent → PiRunTranslator → Prop :=
| steps_silent t1 :
    nextSeq t1 = nextSeq t → terminalReached t1 = false → hasStarted t1 = true → stepsTo t open seen S [] t1
| steps_along b t1 S1 :
    isTerminalBody b = false → nextSeq t1 = (nextSeq t + 1)%Z → terminalReached t1 = false → hasStarted t1 = true →
    applyEvent S (frame t (nextSeq t) b) = Ok S1 → follows (ptRun t) open seen S1 → tsThreadId S1 = tsThreadId S →
    (∀ m, runMessageText S1 (ptRun t) m = runMessageText S (ptRun t) m ++ spoken m [frame t (nextSeq t) b]) →
    stepsTo t open seen S [frame t (nextSeq t) b] t1
| steps_end b t1 S1 run :
    isTerminalBody b = true → terminalReached t1 = true →
    applyEvent S (frame t (nextSeq t) b) = Ok S1 → findRun S1 (ptRun t) = Some run → rsStatus run = endsAs b →
    tsThreadId S1 = tsThreadId S → (∀ m, runMessageText S1 (ptRun t) m = runMessageText S (ptRun t) m) →
    stepsTo t open seen S [frame t (nextSeq t) b] t1.

Lemma translateParsed_steps t e tr t1 open seen open' seen' S :
  hasStarted t = true → translateParsed t e = (Ok tr, t1) → callStep open seen e = Some (open', seen') →
  follows (ptRun t) open seen S →
  (trEvents tr = [] → open' = open ∧ seen' = seen) ∧ stepsTo t open' seen' S (trEvents tr) t1.
Proof.
  intros Hst. unfold translateParsed. destruct (terminalReached t) eqn:Hterm; [done|]. rewrite Hst.
  assert (Hdelta : ∀ id delta t0 t2, follows (ptRun t) open seen S →
    nextSeq t2 = (nextSeq t + 1)%Z → terminalReached t2 = false → hasStarted t2 = true →
    trEvents t0 = [frame t (nextSeq t) (TokenDelta id delta)] → stepsTo t open seen S (trEvents t0) t2).
  { intros id delta t0 t2 Hf ??? ->. destruct (follows_delta _ _ _ _ id delta Hf) as (S1 & Hs & Hf1 & Ht1 & Htx).
    apply (steps_along t open seen S (TokenDelta id delta) t2 S1); try done. intros m. rewrite Htx. unfold spoken. cbn.
    by rewrite app_nil_r. }
  destruct e as [|sr em| | |role|role up delta|role rep|c n a|c|c n res ie]; cbn [emit allocateSeq callStep]; try done.
  - intros Hend [= <- <-] Hf. revert Hend. unfold endRun, endWith. cbn [allocateSeq].
    destruct sr; try done; intros [= <- <-]; cbn [trEvents]; (split; [done|]);
      match goal with |- stepsTo _ _ _ _ [frame _ _ ?b] _ =>
        destruct (follows_terminal open seen S {| seq := nextSeq t; threadId := ptThread t; runId := ptRun t |} b Hf eq_refl)
          as (S1 & Hs & Ht1 & (run & Hr & Hrs) & Htx);
        by apply (steps_end t open seen S b _ S1 run) end.
  - intros [= <- <-] [= <- <-] Hf. split; [done|]. by constructor.
  - intros [= <- <-] [= <- <-] Hf. split; [done|]. by constructor.
  - intros [= <- <-] [= <- <-] Hf. split; [done|]. case_bool_decide; by constructor.
  - destruct (bool_decide (up = am_text_delta)); cbn [negb].
    + destruct (currentAssistantId t) as [id|]; [|cbn [beginAssistant]]; intros [= <- <-] [= <- <-] Hf;
        (split; [done|]); by eapply Hdelta.
    + intros [= <- <-] [= <- <-] Hf. split; [done|]. by constructor.
  - intros [= <- <-] [= <- <-] Hf. split; [done|]. by constructor.
  - intros [= <- <-]. destruct (isMember c seen) eqn:Hc; [done|]. intros [= <- <-] Hf. cbn [trEvents]. split; [done|].
    assert (Hc' : c ∉ seen) by (intros Hin%isMember_true; congruence).
    destruct (follows_request _ _ _ _ c n a Hf Hc') as (S1 & Hs & Hf1 & Ht1 & Htx).
    apply (steps_along t _ _ S (ToolRequested c n a) _ S1); try done. intros m. by rewrite Htx, app_nil_r.
  - intros [= <- <-] [= <- <-] Hf. split; [done|]. by constructor.
  - intros Htr. destruct (isMember c open) eqn:Hc; [|done]. intros [= <- <-] Hf. apply isMember_true in Hc.
    destruct ie; injection Htr as <- <-; cbn [trEvents]; (split; [done|]).
    + destruct (follows_resolution _ _ _ _ c (ResolveFailed (toolErrorText res n) None) Hf Hc) as (S1 & Hs & Hf1 & Ht1 & Htx).
      apply (steps_along t _ _ S (ToolFailed c (toolErrorText res n) None) _ S1); try done. intros m. by rewrite Htx, app_nil_r.
    + destruct (follows_resolution _ _ _ _ c (ResolveCompleted res None None) Hf Hc) as (S1 & Hs & Hf1 & Ht1 & Htx).
      apply (steps_along t _ _ S (ToolCompleted c res None None) _ S1); try done. intros m. by rewrite Htx, app_nil_r.
Qed.

Lemma statusAfter_along e events : isTerminalBody (body e) = false → statusAfter (e :: events) = statusAfter events.
Proof. unfold statusAfter. destruct events as [|e' events]; [cbn; by destruct (body e)|]. by rewrite last_cons_cons. Qed.

Lemma statusAfter_end e : isTerminalBody (body e) = true → statusAfter [e] = endsAs (body e).
Proof. unfold statusAfter. cbn. by destruct (body e). Qed.

Lemma spoken_app m es es' : spoken m (es ++ es') = spoken m es ++ spoken m es'.
Proof. apply bind_app. Qed.

Lemma spoken_cons m e es : spoken m (e :: es) = spoken m [e] ++ spoken m es.
Proof. apply (spoken_app m [e]). Qed.

(** The translator and the snapshot at the same position. *)
Definition aligned (t : PiRunTranslator) (S : ThreadSnapshot) : Prop :=
  tsThreadId S = ptThread t ∧ (tsLastSeq S + 1)%Z = nextSeq t ∧ tsPendingEvents S = [] ∧
  nonEmpty (ptThread t) = true ∧ nonEmpty (ptRun t) = true ∧ (1 ≤ nextSeq t)%Z.

Lemma reduce_frame t S b S1 :
  aligned t S → isSafeZ (nextSeq t) = true → (wfBody b || emptyReason b) = true → emptyReason b = false →
  applyEvent S (frame t (nextSeq t) b) = Ok S1 →
  reduceRunEvent S (eventObject (frame t (nextSeq t) b)) = Ok (withCursor S1 (nextSeq t) []).
Proof.
  intros (Ht & Hs & Hp & Hth & Hru & Hn) Hsafe Hwf He Ha. rewrite reduce_next; cbn [frame base body eventSeq seq threadId].
  - by rewrite Ha.
  - done.
  - done.
  - done.
  - unfold wfEvent, wfBase. cbn. rewrite Hth, Hru, Hsafe. rewrite He, orb_false_r in Hwf. rewrite Hwf.
    rewrite !andb_true_r. lia.
Qed.

Lemma session_follows t values S open seen events t' :
  wfTranslator t → hasStarted t = true → terminalReached t = false → aligned t S → follows (ptRun t) open seen S →
  (nextSeq t + Z.of_nat (length values) ≤ MAX_SAFE_INTEGER + 1)%Z →
  translateRun t values = Ok (events, t') → disciplined open seen values = true →
  Forall (λ e, emptyReason (body e) = false) events →
  ∃ S', reduceRunEvents S (eventObject <$> events) = Ok S' ∧
    tsLastSeq S' = (tsLastSeq S + Z.of_nat (length events))%Z ∧
    (∃ run, findRun S' (ptRun t) = Some run ∧ rsStatus run = statusAfter events) ∧
    ∀ m, runMessageText S' (ptRun t) m = runMessageText S (ptRun t) m ++ spoken m events.
Proof.
  revert t S open seen events. induction values as [|v values IH]; intros t S open seen events Hw Hst Hterm Hal Hf Hmax;
    cbn [translateRun disciplined].
  { intros [= <- <-] _ _. exists S. destruct Hf as [(run & Hr & Hrs & _) _].
    split_and!; [done|cbn; lia|by exists run|]. intros m. by rewrite app_nil_r. }
  unfold translate. destruct (parsePiEvent v) as [e|] eqn:Hv; [|done].
  destruct (translateParsed t e) as [[tr|] t1] eqn:Htr; [|done].
  destruct (translateRun t1 values) as [[events1 t2]|] eqn:Hrun; [|done]. cbn [mbind result_bind]. intros [= <- <-].
  destruct (callStep open seen e) as [[open' seen']|] eqn:Hc; [|done]. intros Hdis [Hne1 Hne2]%Forall_app.
  destruct (translateParsed_moves t e (Ok tr) t1 Hw (parsePiEvent_ok _ _ Hv) Htr) as (Hw1 & Hth & Hru & Hmv).
  destruct (translateParsed_steps t e tr t1 open seen open' seen' S Hst Htr Hc Hf) as [Hsame Hsteps].
  pose proof Hal as (Ht & Hs & Hp & Hnt & Hnr & Hpos). cbn [eventsOf] in Hmv.
  assert (Hsafe : isSafeZ (nextSeq t) = true) by (unfold isSafeZ; cbn [length] in Hmax; lia).
  destruct Hsteps as [t1 Hn1 Hterm1 Hst1|b t1 S1 Hb Hn1 Hterm1 Hst1 Ha Hf1 Ht1 Htx|b t1 S1 run Hb Hterm1 Ha Hr Hrs Ht1 Htx].
  - destruct (Hsame eq_refl) as [-> ->]. cbn [app]. rewrite <- Hru.
    assert (Hal1 : aligned t1 S) by (unfold aligned; by rewrite Hth, Hru, Hn1).
    rewrite <- Hru in Hf. apply (IH t1 S open seen events1); try done. rewrite Hn1. cbn [length] in Hmax. lia.
  - apply Forall_cons in Hne1 as [Hne _]. inversion Hmv as [|b' t1' _ _ _ Hwf _ _ Heq]. subst.
    rewrite fmap_app. cbn [fmap list_fmap app reduceRunEvents].
    rewrite (reduce_frame t S b S1 Hal Hsafe) by done. cbn [mbind result_bind].
    destruct (IH t1 (withCursor S1 (nextSeq t) []) open' seen' events1) as (S' & Hred & Hlast & Hfin & Htext); try done.
    + unfold aligned; cbn [withCursor tsThreadId tsLastSeq tsPendingEvents]. rewrite Hth, Hru, Hn1, Ht1, Ht. split_and!; try done; lia.
    + rewrite Hru. by destruct Hf1; split.
    + rewrite Hn1. cbn [length] in Hmax. lia.
    + rewrite Hru in Hfin, Htext. exists S'. split_and!; [done| | |].
      * rewrite Hlast. cbn [withCursor tsLastSeq length]. lia.
      * by rewrite statusAfter_along.
      * intros m. rewrite Htext. change (runMessageText (withCursor S1 _ _)) with (runMessageText S1).
        by rewrite Htx, (spoken_cons m _ events1), app_assoc.
  - apply Forall_cons in Hne1 as [Hne _]. inversion Hmv as [|b' t1' _ _ _ Hwf _ _ Heq]. subst.
    destruct values as [|v' values]; cbn [translateRun] in Hrun.
    + injection Hrun as <- <-. rewrite app_nil_r. cbn [fmap list_fmap reduceRunEvents].
      rewrite (reduce_frame t S b S1 Hal Hsafe) by done. cbn [mbind result_bind]. eexists. split; [done|].
      split; [cbn; lia|]. split; [exists run; split; [done|]; by rewrite statusAfter_end|].
      intros m. change (runMessageText (withCursor S1 _ _)) with (runMessageText S1). rewrite Htx. unfold spoken. cbn.
      destruct b; try done; by rewrite app_nil_r.
    + exfalso. unfold translate, translateParsed in Hrun. rewrite Hterm1 in Hrun.
      by destruct (parsePiEvent v').
Qed.

(** A thread in which a run can begin: its cursor just before the session's first
    position, nothing held back, the run new or queued and silent so far. *)
Record opensFor (thread run : jstr) (startSeq : Z) (S : ThreadSnapshot) : Prop := {
  opens_thread : tsThreadId S = thread;
  opens_cursor : (tsLastSeq S + 1)%Z = startSeq;
  opens_nothing_pending : tsPendingEvents S = [];
  opens_run r : findRun S run = Some r → rsStatus r = queued ∧ rsToolCalls r = [];
  opens_messages mid m : findMessage S run mid = Some m → msgRole m = assistant;
}.

Lemma follows_start thread run startSeq S :
  opensFor thread run startSeq S →
  ∃ S', reduceRunStarted S run = Ok S' ∧ follows run [] [] S' ∧ tsThreadId S' = tsThreadId S ∧
    ∀ m, runMessageText S' run m = runMessageText S run m.
Proof.
  intros [Ht _ _ Hr Hm]. unfold reduceRunStarted.
  assert (Hq : ∃ r, runOrNew (findRun S run) run = r ∧ rsRunId r = run ∧ rsStatus r = queued ∧ rsToolCalls r = []).
  { eexists. split; [done|]. destruct (findRun S run) as [r|] eqn:Hf; [|done]. cbn [runOrNew].
    split; [by eapply findRun_id|by apply Hr]. }
  destruct Hq as (r & -> & Hid & Hst & Hcalls). rewrite Hst. eexists. split; [done|]. split_and!; try done.
  split; [|done]. eexists. rewrite findRun_withRun. cbn [withStatus rsRunId]. rewrite decide_True by done.
  split; [done|]. split; [done|]. unfold tracksCalls. cbn [withStatus rsToolCalls]. rewrite Hcalls. split.
  - intros c. split; [by intros ?%elem_of_nil|by intros [? ?]].
  - by intros c ?%elem_of_nil.
Qed.

(** C30. The translator and the reducer agree on a whole session: one that opens with
    agent_start and keeps the agent loop's order of tool calls, translated without an
    error into events none of which carries an empty reason, folds into a thread ready for it without an error.  The thread's cursor
    moves by the number of events, the run ends in the status the last event names
    (running when it has not ended), and each message gains the text spoken in it. *)
Theorem session_folds thread run startSeq v values S events t' :
  nonEmpty thread = true → nonEmpty run = true → (1 ≤ startSeq)%Z →
  (startSeq + Z.of_nat (length (v :: values)) ≤ MAX_SAFE_INTEGER + 1)%Z →
  opensFor thread run startSeq S →
  parsePiEvent v = Ok PiAgentStart → disciplined [] [] values = true →
  translateRun (newTranslator thread run startSeq) (v :: values) = Ok (events, t') →
  Forall (λ e, emptyReason (body e) = false) events →
  ∃ S', reduceRunEvents S (eventObject <$> events) = Ok S' ∧
    tsLastSeq S' = (tsLastSeq S + Z.of_nat (length events))%Z ∧
    (∃ r, findRun S' run = Some r ∧ rsStatus r = statusAfter events) ∧
    ∀ m, runMessageText S' run m = runMessageText S run m ++ spoken m events.
Proof.
  intros Hth Hru Hpos Hmax Hopen Hv Hdis. cbn [translateRun]. unfold translate. rewrite Hv.
  cbn [translateParsed newTranslator terminalReached hasStarted emit allocateSeq].
  destruct (translateRun _ values) as [[events1 t2]|] eqn:Hrun; [|done]. cbn [mbind result_bind trEvents].
  intros [= <- <-] [_ Hne]%Forall_cons. destruct (follows_start _ _ _ _ Hopen) as (S1 & Hs & Hf & Ht1 & Htx).
  destruct Hopen as [Ht Hc Hp _ _]. cbn [length] in Hmax.
  cbn [fmap list_fmap app reduceRunEvents].
  change startSeq with (nextSeq (started (newTranslator thread run startSeq))) at 2.
  rewrite (reduce_frame (started (newTranslator thread run startSeq)) S RunStarted S1); [|by split_and!|unfold isSafeZ; cbn; lia|done|done|done].
  cbn [mbind result_bind].
  match type of Hrun with translateRun ?t _ = _ =>
    destruct (session_follows t values (withCursor S1 startSeq []) [] [] events1 t2) as (S' & Hred & Hlast & Hfin & Htext) end;
    try done; [split_and!; cbn; try done; [congruence|lia]|by destruct Hf; split|cbn; lia|].
  exists S'. split_and!; [done| | |].
  - rewrite Hlast. cbn. lia.
  - destruct Hfin as (r & Hr & Hrs). exists r. by rewrite statusAfter_along.
  - intros m. cbn [ptRun] in Htext. rewrite Htext, (spoken_cons m _ events1). cbn [app].
    change (runMessageText (withCursor S1 _ _)) with (runMessageText S1). by rewrite Htx.
Qed.

(** The classification table holds of the translator: an event emits only the types its
    row lists, and the answer is terminal exactly for the row that ends a run. *)
Theorem mapping_table_holds t v e tr t' :
  parsePiEvent v = Ok e → translate t v = (Ok tr, t') →
  (∀ ev, ev ∈ trEvents tr → eventType (body ev) ∈ emits (PI_EVENT_MAPPING (parsedType e))) ∧
  trTerminal tr = terminalEvent (PI_EVENT_MAPPING (parsedType e)) ∧
  (trTerminal tr = true → terminalReached t' = true).
Proof.
  intros Hv. unfold translate. rewrite Hv. unfold translateParsed. destruct (terminalReached t); [done|].
  destruct e as [|sr em| | |role|role up delta|role rep|c n a|c|c n res ie]; cbn [emit allocateSeq parsedType PI_EVENT_MAPPING emits].
  - destruct (hasStarted t); [done|]. intros [= <- <-]. split_and!; try done. intros ev ->%list_elem_of_singleton. cbn. set_solver.
  - unfold endRun, endWith. cbn [allocateSeq].
    destruct sr; intros [= <- <-]; (split_and!; try done); intros ev ->%list_elem_of_singleton; cbn; set_solver.
  - intros [= <- <-]. split_and!; try done. by intros ev ?%elem_of_nil.
  - intros [= <- <-]. split_and!; try done. by intros ev ?%elem_of_nil.
  - intros [= <- <-]. split_and!; try done. by intros ev ?%elem_of_nil.
  - destruct (bool_decide (up = am_text_delta)); cbn [negb];
      [|intros [= <- <-]; split_and!; try done; by intros ev ?%elem_of_nil].
    destruct (currentAssistantId t); cbn [beginAssistant]; intros [= <- <-]; (split_and!; try done);
      intros ev ->%list_elem_of_singleton; cbn; set_solver.
  - intros [= <- <-]. split_and!; try done. by intros ev ?%elem_of_nil.
  - intros [= <- <-]. split_and!; try done. intros ev ->%list_elem_of_singleton. cbn. set_solver.
  - intros [= <- <-]. split_and!; try done. by intros ev ?%elem_of_nil.
  - destruct ie; intros [= <- <-]; (split_and!; try done); intros ev ->%list_elem_of_singleton; cbn; set_solver.
Qed.

(** ** A concrete session *)

Definition piRecord (type : jstr) (fields : list (jstr * jsval)) : jsval := JObject ((u "type", JString type) :: fields).

Definition assistantMessage (fields : list (jstr * jsval)) : jsval :=
  JObject ((u "role", JString (u "assistant")) :: fields).

Definition delta (text : jstr) : jsval :=
  piRecord (u "message_update")
    [(u "message", assistantMessage []);
     (u "assistantMessageEvent", JObject [(u "type", JString (u "text_delta")); (u "delta", JString text)])].

(** Two deltas of one message around a tool call that fails, then the end. *)
Definition sampleSession : list jsval :=
  [piRecord (u "message_start") [(u "message", assistantMessage [])]; delta (u "Hel");
   piRecord (u "tool_execution_start") [(u "toolCallId", JString (u "c1")); (u "toolName", JString (u "read")); (u "args", JNull)];
   piRecord (u "tool_execution_end")
     [(u "toolCallId", JString (u "c1")); (u "toolName", JString (u "read")); (u "result", JNull); (u "isError", JBool true)];
   delta (u "lo");
   piRecord (u "agent_end") [(u "messages", JArray [assistantMessage [(u "stopReason", JString (u "stop"))]])]].

Definition sampleStart : jsval := piRecord (u "agent_start") [].

Definition sampleThread : ThreadSnapshot :=
  {| tsThreadId := u "t"; tsRuns := []; tsMessages := []; tsLastSeq := 6; tsPendingEvents := [] |}.

Definition accepted {E A} (r : result E A) : bool := match r with Ok _ => true | Err _ => false end.

Example sample_ends :
  let '(events, t') := translateAll (newTranslator (u "t") (u "r") 7) (sampleStart :: sampleSession) in
  (length events, nextSeq t', statusAfter events, spoken (u "assistant-1") events) = (6, 13%Z, completed, u "Hello").
Proof. by vm_compute. Qed.

(** An abort whose message is the empty text is emitted, and is the one event the wire
    parser does not read back. *)
Example empty_abort_refused :
  let '(events, _) := translateAll (newTranslator (u "t") (u "r") 1)
    [sampleStart; piRecord (u "agent_end")
       [(u "messages", JArray [assistantMessage [(u "stopReason", JString (u "aborted")); (u "errorMessage", JString [])]])]] in
  (λ e, accepted (parseRunEvent (eventObject e))) <$> events = [true; false].
Proof. by vm_compute. Qed.

(** Nothing makes a session open with agent_start: a delta before it is emitted, and
    the start that follows is one the reducer refuses. *)
Example late_start_refused :
  let '(events, _) := translateAll (newTranslator (u "t") (u "r") 7) [delta (u "x"); sampleStart] in
  accepted (reduceRunEvents sampleThread (eventObject <$> events)) = false.
Proof. by vm_compute. Qed.

(** ** Witnesses *)

Lemma pi_stream_sound_witness :
  let '(events, t') := translateAll (newTranslator (u "t") (u "r") 7) (sampleStart :: sampleSession) in
  nextSeq t' = (7 + Z.of_nat (length events))%Z.
Proof.
  pose proof (pi_stream_sound (u "t") (u "r") 7 (sampleStart :: sampleSession) eq_refl eq_refl ltac:(lia)
    ltac:(vm_compute; discriminate)) as H.
  destruct (translateAll _ _) as [events t']. exact (proj1 H).
Defined.

Lemma session_folds_witness :
  ∃ events t' S',
    translateRun (newTranslator (u "t") (u "r") 7) (sampleStart :: sampleSession) = Ok (events, t') ∧
    reduceRunEvents sampleThread (eventObject <$> events) = Ok S' ∧ tsLastSeq S' = 12%Z.
Proof.
  destruct (translateRun (newTranslator (u "t") (u "r") 7) (sampleStart :: sampleSession)) as [[events t']|] eqn:E;
    [|vm_compute in E; discriminate].
  destruct (session_folds (u "t") (u "r") 7 sampleStart sampleSession sampleThread events t') as (S' & H1 & H2 & _).
  - done.
  - done.
  - lia.
  - vm_compute. discriminate.
  - by split.
  - done.
  - by vm_compute.
  - exact E.
  - vm_compute in E. injection E as <- _. repeat constructor.
  - exists events, t', S'. split_and!; [done|done|]. rewrite H2. vm_compute in E. injection E as <- _. done.
Defined.

Lemma mapping_table_holds_witness :
  ∃ tr t', translate (newTranslator (u "t") (u "r") 7) sampleStart = (Ok tr, t') ∧ trTerminal tr = false.
Proof.
  destruct (translate (newTranslator (u "t") (u "r") 7) sampleStart) as [[tr|] t'] eqn:E; [|vm_compute in E; discriminate].
  exists tr, t'. split; [done|].
  destruct (mapping_table_holds (newTranslator (u "t") (u "r") 7) sampleStart PiAgentStart tr t' eq_refl E) as (_ & -> & _).
  done.
Defined.
