(* ===== verification/WebhookIngress.v ===== *)
(** The unauthenticated ingress: apps/api/src/webhooks.ts with its route in app.ts, over
    the delivery ledger and the OAuth states of packages/db/src/ingress.ts, as many
    requests at once on one database. *)

From stdpp Require Import pretty.
From S2P Require Import Prelude JsText JsValue Redaction Json Bytes JsonText SignedTokens WebhookSignature.
From Stdlib Require Import ZifyN ZifyNat ZifyBool.

(** ** What a request is checked for *)

Definition maxDeliveryIdLength : Z := 200.

(** A letter or a digit of a source name, and the interior dash. *)
Definition isSourceEdge (c : N) : bool := isLowerAscii c || isDigit c.
Definition isSourceUnit (c : N) : bool := isSourceEdge c || (c =? 45)%N.

(** [/^[a-z0-9](?:[a-z0-9-]{0,62}[a-z0-9])?$/]. *)
Definition isWebhookSource (source : jstr) : bool :=
  match source with
  | [] => false
  | first :: rest =>
      isSourceEdge first &&
      match last rest with
      | None => true
      | Some final => forallb isSourceUnit (removelast rest) && (length (removelast rest) <=? 62)%nat && isSourceEdge final
      end
  end.

(** [source.toUpperCase().replaceAll("-", "_")], on the characters of a source name. *)
Definition foldSource (c : N) : N :=
  if isLowerAscii c then (c - 32)%N else if (c =? 45)%N then 95%N else c.

Definition webhookSecretName (source : jstr) : jstr := u "PORKBOT_WEBHOOK_SECRET_" ++ (foldSource <$> source).

Record WebhookRequest := {
  wrSource : jstr; wrSignature : option jstr; wrDeliveryId : option jstr; wrBody : bytes }.

Record WebhookEvent := { weSource : jstr; weDeliveryId : jstr; weBody : bytes }.

#[export] Instance WebhookEvent_eq_dec : EqDecision WebhookEvent.
Proof. solve_decision. Defined.

Inductive WebhookRejection :=
| unknown_source | unconfigured_source | missing_delivery | invalid_delivery | missing_signature
| malformed_signature | stale_signature | future_signature | bad_signature.

#[export] Instance WebhookRejection_eq_dec : EqDecision WebhookRejection.
Proof. solve_decision. Defined.

Inductive WebhookOutcome := wh_accepted | wh_duplicate | wh_rejected (reason : WebhookRejection).

Definition signatureRejection (reason : WebhookSignatureFailure) : WebhookRejection :=
  match reason with
  | sig_missing => missing_signature
  | sig_malformed => malformed_signature
  | sig_stale => stale_signature
  | sig_future => future_signature
  | sig_mismatch => bad_signature
  end.

(** The status the route answers with; a handler's error is the error handler's 500. *)
Definition webhookResponse (outcome : WebhookOutcome) : Z :=
  match outcome with
  | wh_accepted => 202
  | wh_duplicate => 200
  | wh_rejected missing_delivery | wh_rejected invalid_delivery => 400
  | wh_rejected _ => 401
  end.

(** [refuseWebhooks]: the ingress of a process that registers no source. *)
Definition refuseWebhooks (request : WebhookRequest) : WebhookOutcome := wh_rejected unknown_source.

(** What a deployment brings: the registered sources and the stored secrets, where the
    store answers nothing for a name it does not hold and may fail. *)
Record Deployment := {
  registered : jstr → bool;
  resolveSecret : jstr → result unit (option jstr);
}.

Section admission.
Context `{HmacPlatform}.

(** [receive] up to the ledger: the event to record, or why there is none. The outer
    error is the credential store's. *)
Definition admitRequest (d : Deployment) (request : WebhookRequest) (nowMs : Z) : result unit (result WebhookRejection WebhookEvent) :=
  if negb (isWebhookSource (wrSource request)) then Ok (Err unknown_source)
  else if negb (registered d (wrSource request)) then Ok (Err unknown_source)
  else
    secret ← resolveSecret d (webhookSecretName (wrSource request));
    Ok match secret with
    | None => Err unconfigured_source
    | Some secret =>
        if isBlank secret then Err unconfigured_source
        else
          match verifyWebhookSignature secret (wrSignature request) (inr (wrBody request)) (nowMs / 1000) None with
          | SignatureRefused reason => Err (signatureRejection reason)
          | SignatureValid _ =>
              match trim <$> wrDeliveryId request with
              | None | Some [] => Err missing_delivery
              | Some deliveryId =>
                  if (maxDeliveryIdLength <? strlen deliveryId)%Z then Err invalid_delivery
                  else Ok {| weSource := wrSource request; weDeliveryId := deliveryId; weBody := wrBody request |}
              end
          end
    end.
End admission.

(** ** The delivery ledger *)

Definition webhookDeliveryTtlSeconds : Z := 86400.

Abbreviation DeliveryKey := (jstr * jstr)%type.

(** [webhook_delivery] by its unique index, each row with its expiry. *)
Abbreviation Deliveries := (gmap DeliveryKey Z).

(** The two statements of [record] and the one of [release]. *)
Definition sweepDeliveries (now : Z) (rows : Deliveries) : Deliveries :=
  filter (λ kv : DeliveryKey * Z, (now < kv.2)%Z) rows.

Definition insertDelivery (key : DeliveryKey) (now : Z) (ttlSeconds : option Z) (rows : Deliveries) : bool * Deliveries :=
  match rows !! key with
  | Some _ => (false, rows)
  | None => (true, <[key := (now + default webhookDeliveryTtlSeconds ttlSeconds * 1000)%Z]> rows)
  end.

Definition releaseDelivery (key : DeliveryKey) (rows : Deliveries) : Deliveries := delete key rows.

Definition keyOfEvent (event : WebhookEvent) : DeliveryKey := (weSource event, weDeliveryId event).

(** ** Requests being received *)

(** Where one call of [receive] stands, between two of its awaits. *)
Inductive Receipt :=
| Arrived (request : WebhookRequest)
| Sweeping (event : WebhookEvent)
| Inserting (event : WebhookEvent) (now : Z)
| Handling (event : WebhookEvent)
| Releasing (event : WebhookEvent)
| Answered (outcome : WebhookOutcome)
| Threw.

(** What the ledger was asked, in order.  A row recorded by a call that learns of it is
    dispatched; the answer of an insert may also be lost. *)
Inductive IngressEntry :=
| Swept (now : Z)
| Recorded (event : WebhookEvent) (now : Z) (dispatched : bool)
| Repeated (key : DeliveryKey)
| Released (key : DeliveryKey).

Record Ingress := { deliveries : Deliveries; receipts : gmap nat Receipt; history : list IngressEntry }.

Definition noRequests : Ingress := {| deliveries := ∅; receipts := ∅; history := [] |}.

Definition withReceipt (s : Ingress) (job : nat) (r : Receipt) : Ingress :=
  {| deliveries := deliveries s; receipts := <[job := r]> (receipts s); history := history s |}.

Definition afterStatement (s : Ingress) (rows : Deliveries) (entry : IngressEntry) (job : nat) (r : Receipt) : Ingress :=
  {| deliveries := rows; receipts := <[job := r]> (receipts s); history := history s ++ [entry] |}.

(** What happens next to one of them: it arrives, it goes on (with the clock it reads),
    its handler ends, or the await it stands at fails, its statement applied or not. *)
Inductive IngressMove :=
| Arrive (job : nat) (request : WebhookRequest)
| GoOn (job : nat) (now : Z)
| HandlerEnds (job : nat) (returned : bool)
| AwaitFails (job : nat) (applied : bool) (now : Z).

Section receive.
Context `{HmacPlatform} (d : Deployment).

(** The statement a call stands at, and where the call is when it is answered. *)
Definition statementAt (r : Receipt) (now : Z) (rows : Deliveries) : option (Deliveries * IngressEntry * Receipt) :=
  match r with
  | Sweeping event => Some (sweepDeliveries now rows, Swept now, Inserting event now)
  | Inserting event now =>
      let '(inserted, rows) := insertDelivery (keyOfEvent event) now None rows in
      Some (if inserted then (rows, Recorded event now true, Handling event)
            else (rows, Repeated (keyOfEvent event), Answered wh_duplicate))
  | Releasing event => Some (releaseDelivery (keyOfEvent event) rows, Released (keyOfEvent event), Threw)
  | Arrived _ | Handling _ | Answered _ | Threw => None
  end.

(** An entry whose call never learned of it. *)
Definition unheard (entry : IngressEntry) : IngressEntry :=
  match entry with Recorded event now _ => Recorded event now false | _ => entry end.

(** One move; [None] where the move is not possible. *)
Definition receive (move : IngressMove) (s : Ingress) : option Ingress :=
  match move with
  | Arrive job request =>
      match receipts s !! job with None => Some (withReceipt s job (Arrived request)) | Some _ => None end
  | GoOn job now =>
      r ← receipts s !! job;
      match r with
      | Arrived request =>
          Some (withReceipt s job
            match admitRequest d request now with
            | Err _ => Threw
            | Ok (Err reason) => Answered (wh_rejected reason)
            | Ok (Ok event) => Sweeping event
            end)
      | _ => '(rows, entry, next) ← statementAt r now (deliveries s); Some (afterStatement s rows entry job next)
      end
  | HandlerEnds job returned =>
      match receipts s !! job with
      | Some (Handling event) => Some (withReceipt s job (if returned then Answered wh_accepted else Releasing event))
      | _ => None
      end
  | AwaitFails job applied now =>
      r ← receipts s !! job;
      '(rows, entry, _) ← statementAt r now (deliveries s);
      Some (if applied then afterStatement s rows (unheard entry) job Threw else withReceipt s job Threw)
  end.

Fixpoint receiveAll (moves : list IngressMove) (s : Ingress) : option Ingress :=
  match moves with
  | [] => Some s
  | move :: moves => s ← receive move s; receiveAll moves s
  end.
End receive.

(** ** What a ledger must remember *)

(** The expiry a key has after an entry, read off the history alone. *)
Definition remember (key : DeliveryKey) (expiry : option Z) (entry : IngressEntry) : option Z :=
  match entry with
  | Swept now => e ← expiry; if (now <? e)%Z then Some e else None
  | Recorded event now _ => if bool_decide (keyOfEvent event = key) then Some (now + webhookDeliveryTtlSeconds * 1000)%Z else expiry
  | Repeated _ => expiry
  | Released key' => if bool_decide (key' = key) then None else expiry
  end.

Definition remembered (history : list IngressEntry) (key : DeliveryKey) : option Z := foldl (remember key) None history.

Lemma remembered_snoc h entry key : remembered (h ++ [entry]) key = remember key (remembered h key) entry.
Proof. unfold remembered. by rewrite foldl_snoc. Qed.

(** What holds of every entry when it is made. *)
Definition faithful (h : list IngressEntry) (entry : IngressEntry) : Prop :=
  match entry with
  | Recorded event _ _ => remembered h (keyOfEvent event) = None
  | Repeated key => is_Some (remembered h key)
  | _ => True
  end.

Definition history_faithful : list IngressEntry → Prop := atEvery faithful.

(** ** One statement *)

Section soundness.
Context `{HmacPlatform} (d : Deployment).

(** An event that some request was admitted with. *)
Definition admissible (event : WebhookEvent) : Prop := ∃ request now, admitRequest d request now = Ok (Ok event).

Definition carried (r : Receipt) : option WebhookEvent :=
  match r with
  | Sweeping event | Inserting event _ | Handling event | Releasing event => Some event
  | Arrived _ | Answered _ | Threw => None
  end.

Lemma statementAt_spec (r : Receipt) (now : Z) (rows rows' : Deliveries) (entry : IngressEntry) (next : Receipt) h :
  (∀ key, rows !! key = remembered h key) → statementAt r now rows = Some (rows', entry, next) →
  (∀ key, rows' !! key = remember key (remembered h key) entry) ∧ faithful h entry ∧
  (∀ event, carried next = Some event → carried r = Some event) ∧
  (∀ event now b, entry = Recorded event now b → carried r = Some event ∧ b = true ∧ next = Handling event).
Proof.
  intros Hrows. destruct r as [request|event|event t|event|event| |]; cbn [statementAt]; try done.
  - intros [= <- <- <-]. split_and!; try done. intros key. unfold sweepDeliveries. cbn [remember]. rewrite <- Hrows.
    rewrite map_lookup_filter. destruct (rows !! key) as [e|]; [|done]. cbn [mbind option_bind].
    destruct (Z.ltb_spec now e); cbn; [by rewrite option_guard_True|rewrite option_guard_False by (cbn; lia); done].
  - unfold insertDelivery. destruct (rows !! keyOfEvent event) as [e|] eqn:E; intros [= <- <- <-]; split_and!; try done.
    + cbn. rewrite <- Hrows, E. by eexists.
    + intros key. cbn [remember]. rewrite lookup_insert, <- Hrows. repeat case_decide; bools; done.
    + cbn. by rewrite <- Hrows.
    + by intros e' t' b [= <- <- <-].
  - intros [= <- <- <-]. split_and!; try done. intros key. unfold releaseDelivery. cbn [remember].
    rewrite lookup_delete, <- Hrows. repeat case_decide; bools; done.
Qed.

Lemma remember_unheard key e entry : remember key e (unheard entry) = remember key e entry.
Proof. by destruct entry. Qed.

Lemma faithful_unheard h entry : faithful h (unheard entry) ↔ faithful h entry.
Proof. by destruct entry. Qed.

Record ingressSound (s : Ingress) : Prop := {
  sound_ledger key : deliveries s !! key = remembered (history s) key;
  sound_history : history_faithful (history s);
  sound_receipts job r event : receipts s !! job = Some r → carried r = Some event → admissible event;
  sound_recorded event now b : Recorded event now b ∈ history s → admissible event;
}.

Lemma sound_start : ingressSound noRequests.
Proof. split; try done. by intros event now b ?%elem_of_nil. Qed.

Lemma sound_withReceipt (s : Ingress) (job : nat) (r : Receipt) :
  ingressSound s → (∀ event, carried r = Some event → admissible event) → ingressSound (withReceipt s job r).
Proof.
  intros [Hl Hh Hr Hd] Hc. split; try done. intros job' r' event. cbn [withReceipt receipts].
  destruct (decide (job' = job)) as [->|Hne]; [rewrite lookup_insert_eq; intros [= <-]; apply Hc|].
  rewrite lookup_insert_ne by done. apply Hr.
Qed.

Lemma sound_statement (s : Ingress) (job : nat) (rows : Deliveries) (entry : IngressEntry) (r : Receipt) :
  ingressSound s → (∀ key, rows !! key = remember key (remembered (history s) key) entry) →
  faithful (history s) entry → (∀ event, carried r = Some event → admissible event) →
  (∀ event now b, entry = Recorded event now b → admissible event) →
  ingressSound (afterStatement s rows entry job r).
Proof.
  intros Hs Hrows Hf Hc He. pose proof (sound_withReceipt s job r Hs Hc) as [_ _ Hr _]. destruct Hs as [Hl Hh _ Hd].
  split; cbn [afterStatement deliveries history].
  - intros key. by rewrite remembered_snoc.
  - by apply atEvery_snoc.
  - exact Hr.
  - intros event now b [Hin|Hin%list_elem_of_singleton]%elem_of_app; [by eapply Hd|by eapply He].
Qed.

Lemma receive_sound move s s' : receive d move s = Some s' → ingressSound s → ingressSound s'.
Proof.
  intros Hm Hs. destruct move as [job request|job now|job returned|job applied now]; cbn [receive] in Hm.
  - destruct (receipts s !! job); [done|]. injection Hm as <-. by apply sound_withReceipt.
  - destruct (receipts s !! job) as [r|] eqn:Hr; [|done]. cbn [mbind option_bind] in Hm.
    assert (Hstmt : ∀ rows entry next, statementAt r now (deliveries s) = Some (rows, entry, next) →
      ingressSound (afterStatement s rows entry job next)).
    { intros rows entry next Hq. destruct (statementAt_spec r now _ _ _ _ _ (sound_ledger s Hs) Hq) as (H1 & H2 & H3 & H4).
      apply sound_statement; try done; intros; eapply (sound_receipts s Hs job r); eauto; by eapply H4. }
    destruct r as [request| | | | | |]; try (by destruct (statementAt _ now _) as [[[rows entry] next]|] eqn:Hq;
      [injection Hm as <-; apply Hstmt|]).
    injection Hm as <-. apply sound_withReceipt; [done|]. intros event He.
    destruct (admitRequest d request now) as [[e|]|] eqn:Ha; try done. cbn in He. injection He as <-. by exists request, now.
  - destruct (receipts s !! job) as [[| | |event| | |]|] eqn:Hr; try done. injection Hm as <-.
    apply sound_withReceipt; [done|]. intros e He. apply (sound_receipts s Hs job (Handling event)); [done|]. by destruct returned.
  - destruct (receipts s !! job) as [r|] eqn:Hr; [|done]. cbn [mbind option_bind] in Hm.
    destruct (statementAt r now (deliveries s)) as [[[rows entry] next]|] eqn:Hq; [|done]. injection Hm as <-.
    destruct applied; [|by apply sound_withReceipt].
    destruct (statementAt_spec r now _ _ _ _ _ (sound_ledger s Hs) Hq) as (H1 & H2 & H3 & H4).
    apply sound_statement; try done.
    + intros key. by rewrite remember_unheard.
    + by apply faithful_unheard.
    + intros e t b He. eapply (sound_receipts s Hs job r); [done|].
      destruct entry as [|e' t' b'| |]; try done. injection He as <- <- <-. by eapply H4.
Qed.

Lemma receiveAll_sound moves s s' : receiveAll d moves s = Some s' → ingressSound s → ingressSound s'.
Proof.
  revert s. induction moves as [|move moves IH]; intros s; cbn [receiveAll]; [by intros [= <-]|].
  destruct (receive d move s) as [s1|] eqn:E; [|done]. cbn. intros Hm Hs. apply (IH s1); [done|]. by eapply receive_sound.
Qed.
End soundness.

(** ** What the history says of a delivery *)

(** The entries that make the ledger forget a row expiring at an instant. *)
Definition forgets (key : DeliveryKey) (expiry : Z) (entry : IngressEntry) : Prop :=
  match entry with
  | Swept now => (expiry ≤ now)%Z
  | Released key' => key' = key
  | Recorded _ _ _ | Repeated _ => False
  end.

(** A recorded delivery nothing after it has made the ledger forget. *)
Definition liveUntil (h : list IngressEntry) (key : DeliveryKey) (expiry : Z) : Prop :=
  ∃ i event now b, h !! i = Some (Recorded event now b) ∧ keyOfEvent event = key ∧
    expiry = (now + webhookDeliveryTtlSeconds * 1000)%Z ∧
    ∀ m entry, i < m → h !! m = Some entry → ¬ forgets key expiry entry.

Lemma liveUntil_snoc h entry key x :
  liveUntil (h ++ [entry]) key x ↔
  (liveUntil h key x ∧ ¬ forgets key x entry) ∨
  ∃ event now b, entry = Recorded event now b ∧ keyOfEvent event = key ∧ x = (now + webhookDeliveryTtlSeconds * 1000)%Z.
Proof.
  split.
  - intros (i & event & now & b & Hi & Hk & Hx & Hm). apply lookup_app_Some in Hi as [Hi|[Hge Hi]].
    + left. split.
      * exists i, event, now, b. split_and!; try done. intros m en Hlt Hl. apply (Hm m en Hlt). by apply lookup_app_l_Some.
      * apply (Hm (length h) entry); [by eapply lookup_lt_Some|]. by rewrite lookup_app_r, Nat.sub_diag by lia.
    + right. apply list_lookup_singleton_Some in Hi as [_ ->]. by exists event, now, b.
  - intros [[(i & event & now & b & Hi & Hk & Hx & Hm) Hf]|(event & now & b & -> & Hk & Hx)].
    + exists i, event, now, b. split_and!; try done; [by apply lookup_app_l_Some|]. intros m en Hlt [Hl|[_ Hl]]%lookup_app_Some; [by eapply Hm|].
      by apply list_lookup_singleton_Some in Hl as [_ <-].
    + exists (length h), event, now, b. split_and!; try done; [by rewrite lookup_app_r, Nat.sub_diag by lia|].
      intros m en Hlt Hl%lookup_lt_Some. rewrite length_app in Hl. cbn in Hl. lia.
Qed.

Lemma history_faithful_snoc h entry : history_faithful (h ++ [entry]) → history_faithful h ∧ faithful h entry.
Proof.
  intros Hh. split.
  - intros i e Hi. pose proof (lookup_lt_Some _ _ _ Hi). rewrite <- (take_app_le h [entry]) by lia.
    apply Hh. by apply lookup_app_l_Some.
  - specialize (Hh (length h) entry). rewrite lookup_app_r, Nat.sub_diag, take_app_length in Hh by lia. by apply Hh.
Qed.

(** A key is remembered exactly as long as a record of it is live. *)
Lemma remembered_live h key x : history_faithful h → remembered h key = Some x ↔ liveUntil h key x.
Proof.
  revert x. induction h as [|entry h IH] using rev_ind; intros x Hh; [by split; [|intros (i & ? & ? & ? & Hi & _); by rewrite lookup_nil in Hi]|].
  apply history_faithful_snoc in Hh as [Hh Hf]. rewrite remembered_snoc, liveUntil_snoc, <- (IH x Hh).
  destruct entry as [now|event now b|key'|key']; cbn [remember forgets].
  - destruct (remembered h key) as [e|]; cbn; [|naive_solver]. destruct (Z.ltb_spec now e); naive_solver lia.
  - case_bool_decide as E; [|naive_solver]. cbn in Hf. rewrite E in Hf. rewrite Hf. naive_solver.
  - naive_solver.
  - case_bool_decide as E; naive_solver.
Qed.

#[export] Instance forgets_dec key expiry entry : Decision (forgets key expiry entry).
Proof. destruct entry; cbn [forgets]; apply _. Defined.

(** A record that is live no more was forgotten by an entry after it. *)
Lemma forgotten_between h i j event now b :
  i < j → h !! i = Some (Recorded event now b) → (¬ ∃ x, liveUntil (take j h) (keyOfEvent event) x) →
  ∃ m entry, i < m < j ∧ h !! m = Some entry ∧
    forgets (keyOfEvent event) (now + webhookDeliveryTtlSeconds * 1000) entry.
Proof.
  intros Hij Hi Hn. set (x := (now + webhookDeliveryTtlSeconds * 1000)%Z) in *.
  destruct (decide (Exists (forgets (keyOfEvent event) x) (drop (S i) (take j h)))) as [He|He].
  - apply Exists_exists in He as (entry & [m Hm]%list_elem_of_lookup & Hf). rewrite lookup_drop in Hm.
    exists (S i + m), entry. pose proof (lookup_lt_Some _ _ _ Hm) as Hlt. rewrite length_take in Hlt.
    rewrite lookup_take_lt in Hm by lia. split_and!; [lia|lia|done..].
  - exfalso. apply Hn. exists x, i, event, now, b. rewrite lookup_take_lt by done. split_and!; try done.
    intros m entry Hlt Hm Hf. apply He, Exists_exists. exists entry. split; [|done].
    apply list_elem_of_lookup. exists (m - S i). rewrite lookup_drop. by replace (S i + (m - S i)) with m by lia.
Qed.

Section ingress_theorems.
Context `{HmacPlatform} (d : Deployment).

(** ** Handler calls *)

Definition jobOf (move : IngressMove) : nat :=
  match move with Arrive job _ | GoOn job _ | HandlerEnds job _ | AwaitFails job _ _ => job end.

(** The handler a move invokes: the one its call stands in after it, and did not
    stand in before. *)
Definition handlerEntered (s s' : Ingress) (job : nat) : option WebhookEvent :=
  match receipts s' !! job, receipts s !! job with
  | Some (Handling _), Some (Handling _) => None
  | Some (Handling event), _ => Some event
  | _, _ => None
  end.

(** The events handlers are invoked with along a run, in order. *)
Fixpoint handlerCalls (moves : list IngressMove) (s : Ingress) : list WebhookEvent :=
  match moves with
  | [] => []
  | move :: moves =>
      match receive d move s with
      | Some s' => option_list (handlerEntered s s' (jobOf move)) ++ handlerCalls moves s'
      | None => []
      end
  end.

(** The record that claimed a delivery for the call that made it. *)
Definition claimed (entry : IngressEntry) : option WebhookEvent :=
  match entry with Recorded event _ true => Some event | _ => None end.

(** What a move may bring its call to: its handler only by the record it just made
    of a delivery the ledger did not hold, the answer duplicate only where the
    ledger holds the delivery, and the answer accepted only from its handler. *)
Definition broughtTo (s : Ingress) (job : nat) (r : Receipt) : Prop :=
  match r with
  | Handling event => deliveries s !! keyOfEvent event = None
  | Answered wh_duplicate =>
      ∃ event now, receipts s !! job = Some (Inserting event now) ∧ is_Some (deliveries s !! keyOfEvent event)
  | Answered wh_accepted => ∃ event, receipts s !! job = Some (Handling event)
  | _ => True
  end.

Lemma receive_calls move s s' :
  receive d move s = Some s' →
  ∃ es, history s' = history s ++ es ∧ option_list (handlerEntered s s' (jobOf move)) = omap claimed es ∧
    ∀ r, receipts s' !! jobOf move = Some r → receipts s !! jobOf move ≠ Some r → broughtTo s (jobOf move) r.
Proof.
  intros Hm. destruct move as [job request|job now|job returned|job applied now]; cbn [receive jobOf] in *.
  - destruct (receipts s !! job) eqn:E; [done|]. injection Hm as <-. exists []. unfold handlerEntered. cbn [withReceipt history receipts].
    rewrite lookup_insert_eq, app_nil_r. split_and!; [done..|]. by intros r [= <-].
  - destruct (receipts s !! job) as [r|] eqn:E; [|done]. cbn [mbind option_bind] in Hm.
    destruct r as [request|event|event t|event|event|o|]; cbn [statementAt mbind option_bind] in Hm; try done;
      [injection Hm as <-| injection Hm as <-| |injection Hm as <-].
    1: exists []; unfold handlerEntered; cbn [withReceipt history receipts]; rewrite lookup_insert_eq, app_nil_r;
       destruct (admitRequest d request now) as [[e|]|]; (split_and!; [done..|]); by intros r [= <-].
    1, 3: eexists; split; [done|]; unfold handlerEntered; cbn [afterStatement receipts]; rewrite lookup_insert_eq;
       (split; [done|]); by intros r [= <-].
    unfold insertDelivery in Hm. destruct (deliveries s !! keyOfEvent event) as [x|] eqn:Hd; injection Hm as <-;
      (eexists; split; [done|]); unfold handlerEntered; cbn [afterStatement receipts]; rewrite lookup_insert_eq, ?E; (split; [done|]).
    + intros r [= <-] _. exists event, t. by rewrite Hd.
    + by intros r [= <-] _.
  - destruct (receipts s !! job) as [[| | |event| | |]|] eqn:E; try done. injection Hm as <-. exists []. unfold handlerEntered.
    cbn [withReceipt history receipts]. rewrite lookup_insert_eq, app_nil_r, ?E. split_and!; [done|by destruct returned|].
    intros r [= <-] _. destruct returned; [by exists event|done].
  - destruct (receipts s !! job) as [r|] eqn:E; [|done]. cbn [mbind option_bind] in Hm.
    destruct (statementAt r now (deliveries s)) as [[[rows entry] next]|] eqn:Hq; [|done]. injection Hm as <-.
    destruct applied; unfold handlerEntered; cbn [withReceipt afterStatement history receipts]; rewrite lookup_insert_eq.
    + eexists. split; [done|]. split; [by destruct entry|]. by intros r' [= <-].
    + exists []. rewrite app_nil_r. split_and!; [done..|]. by intros r' [= <-].
Qed.

Lemma receiveAll_calls moves s s' :
  receiveAll d moves s = Some s' → ∃ es, history s' = history s ++ es ∧ handlerCalls moves s = omap claimed es.
Proof.
  revert s. induction moves as [|move moves IH]; intros s; cbn [receiveAll handlerCalls];
    [intros [= <-]; exists []; by rewrite app_nil_r|].
  destruct (receive d move s) as [s1|] eqn:E; [|done]. cbn [mbind option_bind]. intros (es' & Hh' & Hc')%IH.
  apply receive_calls in E as (es & Hh & Hc & _). exists (es ++ es'). rewrite omap_app, Hc, Hc', Hh', Hh. split; [by rewrite app_assoc|done].
Qed.

(** C32. A delivery reaches its handler at most once while it is remembered, whatever
    requests arrive, in whatever order their awaits end or fail.  Handlers are
    invoked exactly for the records that claimed a delivery, in that order, one
    call each; a move brings its call into a handler only when the ledger does not
    hold the delivery, answers duplicate only when it does, and accepted only out of
    its handler.  Between two records of a delivery lies an entry that made the
    ledger forget the first: its release, or a sweep at or past the end of its lifetime; the ledger
    holds a key exactly while a record of it is live in that sense. *)
Theorem delivery_dispatched_once moves s :
  receiveAll d moves noRequests = Some s →
  handlerCalls moves noRequests = omap claimed (history s) ∧
  (∀ move s1 s2 r, receive d move s1 = Some s2 →
    receipts s2 !! jobOf move = Some r → receipts s1 !! jobOf move ≠ Some r → broughtTo s1 (jobOf move) r) ∧
  (∀ i j event event' now now' b b', i < j →
    history s !! i = Some (Recorded event now b) → history s !! j = Some (Recorded event' now' b') →
    keyOfEvent event' = keyOfEvent event →
    ∃ m entry, i < m < j ∧ history s !! m = Some entry ∧
      forgets (keyOfEvent event) (now + webhookDeliveryTtlSeconds * 1000) entry) ∧
  ∀ key x, deliveries s !! key = Some x ↔ liveUntil (history s) key x.
Proof.
  intros Hm. destruct (receiveAll_sound d moves _ _ Hm (sound_start d)) as [Hl Hh _ _].
  destruct (receiveAll_calls _ _ _ Hm) as (es & Hhist & Hcalls). split_and!.
  - by rewrite Hcalls, Hhist.
  - intros move s1 s2 r (es' & _ & _ & Hb)%receive_calls. apply Hb.
  - intros i j event event' now now' b b' Hij Hi Hj Hk. apply (forgotten_between _ _ _ _ _ b); [done..|].
    intros [x Hx%remembered_live]; [|by apply atEvery_take]. pose proof (Hh j _ Hj) as Hf. cbn in Hf. rewrite Hk in Hf. congruence.
  - intros key x. rewrite Hl. by apply remembered_live.
Qed.

(** Only a verified request reaches a handler.  Whatever is recorded, and so dispatched,
    was carried by a request of a canonical registered source whose stored secret the
    signature verifies over those very bytes, inside the freshness window of some
    reading of the clock, under its trimmed delivery id of at most 200 units. *)
Theorem dispatch_verified moves s event now b :
  receiveAll d moves noRequests = Some s → Recorded event now b ∈ history s →
  ∃ secret signature nowMs t deliveryId,
    isWebhookSource (weSource event) = true ∧ registered d (weSource event) = true ∧
    resolveSecret d (webhookSecretName (weSource event)) = Ok (Some secret) ∧ isBlank secret = false ∧
    verifyWebhookSignature secret signature (inr (weBody event)) (nowMs / 1000) None = SignatureValid t ∧
    weDeliveryId event = trim deliveryId ∧ weDeliveryId event ≠ [] ∧ (strlen (weDeliveryId event) ≤ 200)%Z.
Proof.
  intros Hm Hin. destruct (receiveAll_sound d moves _ _ Hm (sound_start d)) as [_ _ _ Hd].
  destruct (Hd event now b Hin) as (request & nowMs & Ha). unfold admitRequest in Ha.
  destruct (isWebhookSource _) eqn:Hs; [|done]. destruct (registered d _) eqn:Hr; [|done]. cbn [negb] in Ha.
  destruct (resolveSecret d _) as [[secret|]|] eqn:Hsec; try done. cbn [mbind result_bind] in Ha.
  destruct (isBlank secret) eqn:Hb; [done|]. destruct (verifyWebhookSignature _ _ _ _ _) as [t|] eqn:Hv; [|done].
  destruct (wrDeliveryId request) as [deliveryId|] eqn:Hid; [|done]. cbn [fmap option_fmap option_map] in Ha.
  destruct (trim deliveryId) as [|c rest] eqn:Ht; [done|].
  destruct (maxDeliveryIdLength <? strlen (c :: rest))%Z eqn:Hlen; [done|]. injection Ha as <-. cbn [weSource weBody weDeliveryId].
  exists secret, (wrSignature request), nowMs, t, deliveryId. unfold maxDeliveryIdLength in Hlen. split_and!; try done. lia.
Qed.
End ingress_theorems.

Lemma foldSource_inj c c' : isSourceUnit c = true → isSourceUnit c' = true → foldSource c = foldSource c' → c = c'.
Proof.
  unfold isSourceUnit, isSourceEdge, isLowerAscii, isDigit, foldSource, isLowerAscii. intros Hc Hc'.
  repeat case_match; nbools; lia.
Qed.

Lemma source_units source : isWebhookSource source = true → Forall (λ c, isSourceUnit c = true) source ∧ 1 ≤ length source ≤ 64.
Proof.
  assert (He : ∀ c, isSourceEdge c = true → isSourceUnit c = true) by (intros c Hc; unfold isSourceUnit; by rewrite Hc).
  destruct source as [|first rest]; [done|]. cbn [isWebhookSource]. intros [Hf Hr]%andb_true_iff.
  destruct rest as [|c rest] using rev_ind; [split; [by repeat constructor; auto|cbn; lia]|]. clear IHrest.
  rewrite last_snoc, removelast_last in Hr. apply andb_true_iff in Hr as [[Hu Hl]%andb_true_iff Hc]. split.
  - constructor; [by apply He|]. apply Forall_app. split; [|by repeat constructor; apply He].
    apply Forall_forall. intros x Hx%list_elem_of_In. rewrite forallb_forall in Hu. by apply Hu.
  - cbn [length]. rewrite length_app. cbn. apply Nat.leb_le in Hl. lia.
Qed.

(** Two sources never share a secret: their names are at most 64 characters and the
    credential names they fold to differ when they do. *)
Theorem webhookSecretName_injective source source' :
  isWebhookSource source = true → isWebhookSource source' = true →
  length source ≤ 64 ∧ (webhookSecretName source = webhookSecretName source' → source = source').
Proof.
  intros [Hu Hl]%source_units [Hu' _]%source_units. split; [lia|]. unfold webhookSecretName. intros E%app_inv_head.
  revert source' Hu' E. clear Hl. induction source as [|c source IH]; intros [|c' source'] Hu' E; try done.
  rewrite !fmap_cons in E. apply Forall_cons in Hu as [Hc Hu], Hu' as [Hc' Hu']. injection E as E1 E2.
  f_equal; [by apply foldSource_inj|by apply IH].
Qed.

Section redelivery.
Context `{HmacPlatform} (d : Deployment).

(** The same request under another delivery id. *)
Definition underId (request : WebhookRequest) (deliveryId : jstr) : WebhookRequest := {|
  wrSource := wrSource request; wrSignature := wrSignature request; wrDeliveryId := Some deliveryId; wrBody := wrBody request |}.

Lemma admit_underId request now event deliveryId :
  admitRequest d request now = Ok (Ok event) → trim deliveryId ≠ [] → (strlen (trim deliveryId) ≤ 200)%Z →
  admitRequest d (underId request deliveryId) now =
    Ok (Ok {| weSource := weSource event; weDeliveryId := trim deliveryId; weBody := weBody event |}).
Proof.
  intros Ha Hne Hlen. unfold admitRequest in *. cbn [underId wrSource wrSignature wrDeliveryId wrBody].
  destruct (isWebhookSource _); [|done]. destruct (registered d _); [|done]. cbn [negb] in *.
  destruct (resolveSecret d _) as [[secret|]|]; try done. cbn [mbind result_bind] in *.
  destruct (isBlank secret); [done|]. destruct (verifyWebhookSignature _ _ _ _ _); [|done].
  cbn [fmap option_fmap option_map]. destruct (trim deliveryId) as [|c rest] eqn:Ht; [done|].
  unfold maxDeliveryIdLength in *. destruct (Z.ltb_spec 200 (strlen (c :: rest))); [lia|].
  repeat case_match; try done. by injection Ha as <-.
Qed.

(** One request received without interference, its handler ending as given. *)
Definition alone (job : nat) (request : WebhookRequest) (now : Z) (returned : bool) : list IngressMove :=
  [Arrive job request; GoOn job now; GoOn job now; GoOn job now; HandlerEnds job returned] ++
  (if returned then [] else [GoOn job now]).

Lemma alone_run s job request now event returned :
  receipts s !! job = None → admitRequest d request now = Ok (Ok event) →
  deliveries s !! keyOfEvent event = None ∨ (∃ e, deliveries s !! keyOfEvent event = Some e ∧ (e ≤ now)%Z) →
  ∃ s', receiveAll d (alone job request now returned) s = Some s' ∧
    receipts s' !! job = Some (if returned then Answered wh_accepted else Threw) ∧
    history s' = history s ++ [Swept now; Recorded event now true] ++ (if returned then [] else [Released (keyOfEvent event)]) ∧
    (∀ job', job' ≠ job → receipts s' !! job' = receipts s !! job') ∧
    deliveries s' !! keyOfEvent event = if returned then Some (now + webhookDeliveryTtlSeconds * 1000)%Z else None.
Proof.
  intros Hj Ha Hk. assert (Hsw : sweepDeliveries now (deliveries s) !! keyOfEvent event = None).
  { unfold sweepDeliveries. rewrite map_lookup_filter. destruct Hk as [->|(e & -> & He)]; [done|].
    cbn. rewrite option_guard_False; [done|cbn; lia]. }
  unfold alone. cbn [app receiveAll receive]. rewrite Hj. cbn [mbind option_bind withReceipt receipts].
  rewrite lookup_insert_eq. cbn [mbind option_bind]. rewrite Ha. cbn [withReceipt receipts].
  rewrite !lookup_insert_eq. cbn [mbind option_bind statementAt deliveries withReceipt afterStatement receipts].
  rewrite !lookup_insert_eq. cbn [mbind option_bind statementAt deliveries]. unfold insertDelivery. rewrite Hsw.
  cbn [mbind option_bind afterStatement receipts history]. rewrite !lookup_insert_eq. cbn [mbind option_bind].
  destruct returned; cbn [receiveAll receive withReceipt receipts mbind option_bind].
  - eexists. split; [done|]. cbn [withReceipt afterStatement receipts history deliveries]. rewrite !lookup_insert_eq, <- app_assoc.
    split_and!; try done. intros job' Hne. by rewrite !lookup_insert_ne by done.
  - rewrite !lookup_insert_eq. cbn [mbind option_bind statementAt withReceipt deliveries afterStatement history receipts].
    eexists. split; [done|]. cbn [afterStatement withReceipt receipts history deliveries]. rewrite !lookup_insert_eq, <- !app_assoc.
    split_and!; try done; [intros job' Hne; by rewrite !lookup_insert_ne by done|]. unfold releaseDelivery. by rewrite lookup_delete_eq.
Qed.

(** A delivery whose handler failed reaches it again.  After the failure was released
    the same request, sent again while its signature is fresh, is dispatched again; so
    it is under any other delivery id the ledger does not hold, failure or not, since
    the signature does not cover the id. *)
Theorem redelivery_dispatched s job job' request now now' event deliveryId :
  receipts s !! job = None → receipts s !! job' = None → job ≠ job' →
  admitRequest d request now = Ok (Ok event) → deliveries s !! keyOfEvent event = None →
  admitRequest d request now' = Ok (Ok event) →
  (∃ s1 s2, receiveAll d (alone job request now false) s = Some s1 ∧ receiveAll d (alone job' request now' true) s1 = Some s2 ∧
    receipts s1 !! job = Some Threw ∧ receipts s2 !! job' = Some (Answered wh_accepted) ∧
    history s2 = history s ++ [Swept now; Recorded event now true; Released (keyOfEvent event); Swept now'; Recorded event now' true]) ∧
  (trim deliveryId ≠ [] → (strlen (trim deliveryId) ≤ 200)%Z → deliveries s !! (weSource event, trim deliveryId) = None →
    ∃ s1, receiveAll d (alone job (underId request deliveryId) now' true) s = Some s1 ∧
      history s1 = history s ++ [Swept now'; Recorded {| weSource := weSource event; weDeliveryId := trim deliveryId; weBody := weBody event |} now' true]).
Proof.
  intros Hj Hj' Hne Ha Hk Ha'. split.
  - destruct (alone_run s job request now event false Hj Ha (or_introl Hk)) as (s1 & H1 & Hr1 & Hh1 & Ho1 & Hd1).
    destruct (alone_run s1 job' request now' event true) as (s2 & H2 & Hr2 & Hh2 & _); [by rewrite Ho1|done|by left|].
    exists s1, s2. split_and!; try done. rewrite Hh2, Hh1. by rewrite <- !app_assoc.
  - intros Hid Hlen Hfree. destruct (alone_run s job (underId request deliveryId) now' _ true Hj
      (admit_underId _ _ _ _ Ha' Hid Hlen) (or_introl Hfree)) as (s1 & H1 & _ & Hh1 & _). by exists s1.
Qed.
End redelivery.

(** ** One-time OAuth states *)

Definition oauthStateTtlSeconds : Z := 600.

Record OAuthStateBinding := { oaSpace : jstr; oaUser : jstr }.

#[export] Instance OAuthStateBinding_eq_dec : EqDecision OAuthStateBinding.
Proof. solve_decision. Defined.

Record OAuthRow := { oaBinding : OAuthStateBinding; oaExpiresAt : Z; oaConsumedAt : option Z }.

(** [oauth_state] by its unique index, the hash of the state. *)
Abbreviation OAuthRows := (gmap jstr OAuthRow).

Definition sweepStates (now : Z) (rows : OAuthRows) : OAuthRows :=
  filter (λ kv : jstr * OAuthRow, (now < oaExpiresAt kv.2)%Z) rows.

Definition insertState (hash : jstr) (binding : OAuthStateBinding) (now : Z) (ttlSeconds : option Z) (rows : OAuthRows) :
    bool * OAuthRows :=
  match rows !! hash with
  | Some _ => (false, rows)
  | None => (true, <[hash := {| oaBinding := binding; oaExpiresAt := now + default oauthStateTtlSeconds ttlSeconds * 1000;
                                oaConsumedAt := None |}]> rows)
  end.

Definition consumeState (hash : jstr) (now : Z) (rows : OAuthRows) : option OAuthStateBinding * OAuthRows :=
  match rows !! hash with
  | Some row =>
      if bool_decide (oaConsumedAt row = None) && (now <? oaExpiresAt row)%Z then
        (Some (oaBinding row), <[hash := {| oaBinding := oaBinding row; oaExpiresAt := oaExpiresAt row; oaConsumedAt := Some now |}]> rows)
      else (None, rows)
  | None => (None, rows)
  end.

(** The SHA-256 hex digest of a text. *)
Class Sha256Platform := hashOAuthState : jstr → jstr.

Section oauth.
Context `{Sha256Platform}.

(** [issue], its two statements one after the other. *)
Definition issue (state : jstr) (binding : OAuthStateBinding) (now : Z) (ttlSeconds : option Z) (rows : OAuthRows) : bool * OAuthRows :=
  insertState (hashOAuthState state) binding now ttlSeconds (sweepStates now rows).

Definition consume (state : jstr) (now : Z) (rows : OAuthRows) : option OAuthStateBinding * OAuthRows :=
  consumeState (hashOAuthState state) now rows.

(** The statements of any number of callers in any order, and the rows a deleted user or
    space takes with it. *)
Inductive OAuthStatement :=
| SweepStates (now : Z)
| InsertState (state : jstr) (binding : OAuthStateBinding) (now ttlSeconds : Z)
| ConsumeState (state : jstr) (now : Z)
| CascadeStates (gone : OAuthStateBinding → bool).

Inductive OAuthAnswer :=
| StateIssued (state : jstr) (binding : OAuthStateBinding) (expiresAt : Z)
| StateConsumed (state : jstr) (binding : OAuthStateBinding) (now : Z)
| NothingChosen.

Definition runStatement (q : OAuthStatement) (rows : OAuthRows) : OAuthRows * OAuthAnswer :=
  match q with
  | SweepStates now => (sweepStates now rows, NothingChosen)
  | InsertState state binding now ttlSeconds =>
      let '(issued, rows) := insertState (hashOAuthState state) binding now (Some ttlSeconds) rows in
      (rows, if issued then StateIssued state binding (now + ttlSeconds * 1000) else NothingChosen)
  | ConsumeState state now =>
      let '(binding, rows) := consume state now rows in
      (rows, match binding with Some binding => StateConsumed state binding now | None => NothingChosen end)
  | CascadeStates gone => (filter (λ kv : jstr * OAuthRow, gone (oaBinding kv.2) = false) rows, NothingChosen)
  end.

Fixpoint runStatements (qs : list OAuthStatement) (rows : OAuthRows) : OAuthRows * list OAuthAnswer :=
  match qs with
  | [] => (rows, [])
  | q :: qs => let '(rows, a) := runStatement q rows in let '(rows, answers) := runStatements qs rows in (rows, a :: answers)
  end.

Definition consumes (hash : jstr) (a : OAuthAnswer) : Prop :=
  match a with StateConsumed state _ _ => hashOAuthState state = hash | _ => False end.

(** Where a row comes from: the last issue of its hash, consumed since only if it says so. *)
Definition issuedRow (answers : list OAuthAnswer) (hash : jstr) (row : OAuthRow) : Prop :=
  ∃ i state, answers !! i = Some (StateIssued state (oaBinding row) (oaExpiresAt row)) ∧ hashOAuthState state = hash ∧
    (oaConsumedAt row = None → ∀ m a, i < m → answers !! m = Some a → ¬ consumes hash a).

(** What a consume answers is an issue, within its lifetime and not consumed since. *)
Definition consumeJustified (answers : list OAuthAnswer) (a : OAuthAnswer) : Prop :=
  match a with
  | StateConsumed state binding now =>
      ∃ i state' expiresAt, answers !! i = Some (StateIssued state' binding expiresAt) ∧
        hashOAuthState state' = hashOAuthState state ∧ (now < expiresAt)%Z ∧
        ∀ m a', i < m → answers !! m = Some a' → ¬ consumes (hashOAuthState state) a'
  | _ => True
  end.

Lemma issuedRow_snoc answers hash row a :
  issuedRow answers hash row → (oaConsumedAt row = None → ¬ consumes hash a) → issuedRow (answers ++ [a]) hash row.
Proof.
  intros (i & state & Hi & Hs & Hm) Ha. exists i, state. split_and!; [by apply lookup_app_l_Some|done|].
  intros Hn m a' Hlt [Hl|[_ Hl]]%lookup_app_Some; [by eapply Hm|].
  apply list_lookup_singleton_Some in Hl as [_ <-]. by apply Ha.
Qed.

Lemma runStatement_justified (q : OAuthStatement) (rows rows' : OAuthRows) (a : OAuthAnswer) (answers : list OAuthAnswer) :
  runStatement q rows = (rows', a) → (∀ hash row, rows !! hash = Some row → issuedRow answers hash row) →
  consumeJustified answers a ∧ ∀ hash row, rows' !! hash = Some row → issuedRow (answers ++ [a]) hash row.
Proof.
  intros Hq Hrows.
  assert (Hkeep : ∀ hash row, rows !! hash = Some row → ¬ consumes hash a → issuedRow (answers ++ [a]) hash row)
    by (intros hash row Hr Ha; apply issuedRow_snoc; [by apply Hrows|done]).
  destruct q as [now|state binding now ttl|state now|gone]; cbn [runStatement] in Hq.
  - injection Hq as <- <-. split; [done|]. intros hash row [Hr _]%map_lookup_filter_Some. apply Hkeep; [done|]. cbn. tauto.
  - unfold insertState in Hq. destruct (rows !! hashOAuthState state) as [r|] eqn:E; injection Hq as <- <-.
    + split; [done|]. intros hash row Hr. apply Hkeep; [done|]. cbn. tauto.
    + split; [done|]. intros hash row [[<- <-]|[Hne Hr]]%lookup_insert_Some; [|apply Hkeep; [done|]; cbn; tauto].
      exists (length answers), state. split_and!; [by rewrite lookup_app_r, Nat.sub_diag by lia|done|].
      intros _ m a' Hlt Hl%lookup_lt_Some. rewrite length_app in Hl. cbn in Hl. lia.
  - unfold consume, consumeState in Hq. destruct (rows !! hashOAuthState state) as [r|] eqn:E;
      [|injection Hq as <- <-; split; [done|]; intros hash row Hr; apply Hkeep; [done|]; cbn; tauto].
    destruct (bool_decide (oaConsumedAt r = None) && (now <? oaExpiresAt r)%Z) eqn:Hc;
      injection Hq as <- <-; [|split; [done|]; intros hash row Hr; apply Hkeep; [done|]; cbn; tauto].
    apply andb_true_iff in Hc as [Hn%bool_decide_eq_true Hlt%Z.ltb_lt].
    destruct (Hrows _ _ E) as (i & state' & Hi & Hs & Hm). split; [exists i, state', (oaExpiresAt r); split_and!; [done..|by apply Hm]|].
    intros hash row [[<- <-]|[Hne Hr]]%lookup_insert_Some; [|by apply Hkeep].
    exists i, state'. split_and!; [by apply lookup_app_l_Some|done|done].
  - injection Hq as <- <-. split; [done|]. intros hash row [Hr _]%map_lookup_filter_Some. apply Hkeep; [done|]. cbn. tauto.
Qed.

Lemma runStatements_justified (qs : list OAuthStatement) (rows : OAuthRows) (before : list OAuthAnswer) :
  (∀ hash row, rows !! hash = Some row → issuedRow before hash row) →
  ∀ j a, (runStatements qs rows).2 !! j = Some a → consumeJustified (before ++ take j (runStatements qs rows).2) a.
Proof.
  revert rows before. induction qs as [|q qs IH]; intros rows before Hrows j a; cbn [runStatements]; [done|].
  destruct (runStatement q rows) as [rows1 a1] eqn:Hq. destruct (runStatement_justified q rows rows1 a1 before Hq Hrows) as [Ha Hr].
  specialize (IH rows1 (before ++ [a1]) Hr). destruct (runStatements qs rows1) as [rows2 answers]. cbn [snd] in *.
  destruct j as [|j]; cbn [take lookup]; [intros [= <-]; by rewrite app_nil_r|]. intros Hj. specialize (IH j a Hj).
  by rewrite <- app_assoc in IH.
Qed.

(** A state is consumed once, by whoever started the flow it was issued for.  However
    the statements of all callers interleave, a consume answers the binding of an issue
    of a state with its hash, before that issue expires, and no consume between the two
    answered; and a fresh state is consumed by its own text until it expires, not twice,
    and is not issued again while its row stands. *)
Theorem oauth_state_consumed_once qs j state binding now :
  ((runStatements qs ∅).2 !! j = Some (StateConsumed state binding now) →
   consumeJustified (take j (runStatements qs ∅).2) (StateConsumed state binding now)) ∧
  ∀ (rows : OAuthRows) state' binding' issuedAt ttl at1 at2 at3, rows !! hashOAuthState state' = None →
    let '(issued, rows1) := issue state' binding' issuedAt ttl rows in
    let '(answer, rows2) := consume state' at1 rows1 in
    issued = true ∧
    answer = (if (at1 <? issuedAt + default oauthStateTtlSeconds ttl * 1000)%Z then Some binding' else None) ∧
    (is_Some answer → (consume state' at2 rows2).1 = None) ∧
    ((at3 < issuedAt + default oauthStateTtlSeconds ttl * 1000)%Z → (issue state' binding at3 ttl rows2).1 = false).
Proof.
  split.
  - intros Hj. eapply (runStatements_justified qs ∅ []); [|exact Hj]. intros hash row Hr. by rewrite lookup_empty in Hr.
  - intros rows state' binding' issuedAt ttl at1 at2 at3 Hf. unfold issue, insertState.
    assert (sweepStates issuedAt rows !! hashOAuthState state' = None) as ->
      by (unfold sweepStates; by rewrite map_lookup_filter, Hf).
    unfold consume, consumeState. rewrite lookup_insert_eq. cbn [oaConsumedAt oaExpiresAt oaBinding].
    rewrite bool_decide_true by done. cbn [andb].
    assert (Hre : ∀ (row : OAuthRow) (rows' : OAuthRows), rows' !! hashOAuthState state' = Some row → (at3 < oaExpiresAt row)%Z →
      sweepStates at3 rows' !! hashOAuthState state' = Some row)
      by (intros row rows' Hr Hlt; unfold sweepStates; apply map_lookup_filter_Some; done).
    destruct (Z.ltb_spec at1 (issuedAt + default oauthStateTtlSeconds ttl * 1000)); (split_and!; try done).
    + intros _. by rewrite lookup_insert_eq.
    + intros Hlt. erewrite Hre; [done|by rewrite lookup_insert_eq|done].
    + intros Hlt. erewrite Hre; [done|by rewrite lookup_insert_eq|done].
Qed.
End oauth.

(** ** A concrete deployment *)

#[export] Instance checksumSha256 : Sha256Platform := λ s, hex (hmacSha256 [] (utf8 s)).

Definition sampleDeployment : Deployment := {|
  registered := λ source, bool_decide (source = u "stripe");
  resolveSecret := λ name, Ok (if bool_decide (name = u "PORKBOT_WEBHOOK_SECRET_STRIPE") then Some hookSecret else None) |}.

Definition sampleRequest : WebhookRequest := {|
  wrSource := u "stripe"; wrSignature := Some hookHeader; wrDeliveryId := Some (u " d-1 "); wrBody := bodyBytes hookBody |}.

Definition sampleEvent : WebhookEvent := {| weSource := u "stripe"; weDeliveryId := u "d-1"; weBody := bodyBytes hookBody |}.

Definition hookMs : Z := 1800000000000.

Lemma hook_bytes t : signedMessage t (inr (bodyBytes hookBody)) = signedMessage t hookBody.
Proof. done. Qed.

Example sample_admitted : admitRequest sampleDeployment sampleRequest hookMs = Ok (Ok sampleEvent).
Proof. by vm_compute. Qed.

(** Two requests of one delivery at once: one dispatch, one duplicate. *)
Definition sampleRace : list IngressMove :=
  [Arrive 0 sampleRequest; Arrive 1 sampleRequest; GoOn 0 hookMs; GoOn 1 hookMs; GoOn 0 hookMs; GoOn 1 hookMs;
   GoOn 1 hookMs; GoOn 0 hookMs; HandlerEnds 1 true].

Example sample_race_one_dispatch :
  history <$> receiveAll sampleDeployment sampleRace noRequests =
  Some [Swept hookMs; Swept hookMs; Recorded sampleEvent hookMs true; Repeated (u "stripe", u "d-1")].
Proof. by vm_compute. Qed.

Example sample_refusals :
  (λ r, match r with Ok (Err reason) => Some (reason, webhookResponse (wh_rejected reason)) | _ => None end) <$>
  [admitRequest sampleDeployment {| wrSource := u "Stripe"; wrSignature := None; wrDeliveryId := None; wrBody := [] |} hookMs;
   admitRequest sampleDeployment {| wrSource := u "stripe"; wrSignature := None; wrDeliveryId := None; wrBody := [] |} hookMs;
   admitRequest sampleDeployment sampleRequest (hookMs + 301000);
   admitRequest sampleDeployment {| wrSource := u "stripe"; wrSignature := Some hookHeader; wrDeliveryId := None; wrBody := bodyBytes hookBody |} hookMs]
  = [Some (unknown_source, 401%Z); Some (missing_signature, 401%Z); Some (stale_signature, 401%Z); Some (missing_delivery, 400%Z)].
Proof. by vm_compute. Qed.

(** ** Witnesses *)

Lemma delivery_dispatched_once_witness :
  ∃ s, receiveAll sampleDeployment sampleRace noRequests = Some s ∧
    handlerCalls sampleDeployment sampleRace noRequests = [sampleEvent] ∧
    handlerCalls sampleDeployment sampleRace noRequests = omap claimed (history s) ∧
    liveUntil (history s) (keyOfEvent sampleEvent) (hookMs + 86400000).
Proof.
  pose proof sample_race_one_dispatch as Hr.
  destruct (receiveAll sampleDeployment sampleRace noRequests) as [s|] eqn:E; [|discriminate Hr]. exists s. split; [reflexivity|].
  destruct (delivery_dispatched_once sampleDeployment sampleRace s E) as (Hcalls & _ & _ & H).
  split; [vm_compute; reflexivity|]. split; [exact Hcalls|]. apply H. clear H Hr.
  pose proof (f_equal (λ o, o ≫= λ s, deliveries s !! keyOfEvent sampleEvent) E) as Hd. cbn [mbind option_bind] in Hd.
  rewrite <- Hd. vm_compute. reflexivity.
Defined.

Lemma dispatch_verified_witness :
  ∃ s, receiveAll sampleDeployment sampleRace noRequests = Some s ∧ Recorded sampleEvent hookMs true ∈ history s ∧
    isWebhookSource (weSource sampleEvent) = true.
Proof.
  pose proof sample_race_one_dispatch as Hr.
  destruct (receiveAll sampleDeployment sampleRace noRequests) as [s|] eqn:E; [|discriminate Hr]. exists s. split; [reflexivity|].
  assert (Hin : Recorded sampleEvent hookMs true ∈ history s).
  { apply (list_elem_of_lookup_2 _ 2). injection Hr as ->. reflexivity. }
  split; [exact Hin|].
  destruct (dispatch_verified sampleDeployment sampleRace s sampleEvent hookMs true E Hin) as (secret & sg & n & t & i & H & _).
  exact H.
Defined.

Lemma webhookSecretName_injective_witness :
  webhookSecretName (u "a--b") ≠ webhookSecretName (u "a-b").
Proof.
  intros E. pose proof (proj2 (webhookSecretName_injective (u "a--b") (u "a-b") eq_refl eq_refl) E) as H. vm_compute in H. discriminate.
Defined.

Lemma redelivery_dispatched_witness :
  ∃ s1 s2, receiveAll sampleDeployment (alone 0 sampleRequest hookMs false) noRequests = Some s1 ∧
    receiveAll sampleDeployment (alone 1 sampleRequest (hookMs + 60000) true) s1 = Some s2 ∧
    receipts s2 !! 1 = Some (Answered wh_accepted).
Proof.
  destruct (redelivery_dispatched sampleDeployment noRequests 0 1 sampleRequest hookMs (hookMs + 60000) sampleEvent (u "d-2"))
    as [(s1 & s2 & H1 & H2 & _ & H3 & _) _]; [reflexivity|reflexivity|discriminate|vm_compute; reflexivity|reflexivity|vm_compute; reflexivity|].
  exists s1, s2. exact (conj H1 (conj H2 H3)).
Defined.

Lemma oauth_state_consumed_once_witness :
  (consume (u "x") 10 (issue (u "x") {| oaSpace := u "s"; oaUser := u "a" |} 0 None ∅).2).1 =
  Some {| oaSpace := u "s"; oaUser := u "a" |}.
Proof.
  destruct (oauth_state_consumed_once [] 0 (u "x") {| oaSpace := u "s"; oaUser := u "a" |} 0) as [_ H].
  specialize (H ∅ (u "x") {| oaSpace := u "s"; oaUser := u "a" |} 0%Z None 10%Z 11%Z 12%Z (lookup_empty _)).
  destruct (issue _ _ _ _ _) as [issued rows1]. cbn [snd]. destruct (consume (u "x") 10 rows1) as [answer rows2].
  exact (proj1 (proj2 H)).
Defined.
