(* ===== verification/ThreadEvents.v ===== *)
(** A thread's event stream: the subscription of apps/api/src/services/thread-events.ts
    as a machine between its awaits, over the event log and the cursor codec, and the
    reconnecting client of packages/contracts/src/stream.ts on the other end. *)

From stdpp Require Import pretty sorting.
From S2P Require Import Prelude JsText JsValue Json RunState RunEvents Messaging Transactions RunTables.
From S2P Require Import Conversations MessageStore RunCreation ConversationSteps ConversationCommands.
From S2P Require Import ConversationInvariants ConversationAnswers ConversationExamples EventSink.
From S2P Require Import Bytes JsonText SignedTokens Cursors.

(** ** The log of a thread *)

(** The rows of a thread in a space after a position, [readEvents.listAfter] before its
    order and limit. *)
Definition rowsAfter (spaceId threadId : jstr) (afterSeq : Z) (db : Conversations) : list (Z * EventRow) :=
  omap (λ kv : (jstr * Z) * EventRow,
    if bool_decide (kv.1.1 = threadId) && bool_decide (evSpace kv.2 = spaceId) && (afterSeq <? kv.1.2)%Z
    then Some (kv.1.2, kv.2) else None) (map_to_list (events db)).

Definition bySeq (e f : Z * EventRow) : bool := (e.1 <=? f.1)%Z.

(** [EventReader.listAfter]. *)
Definition listAfter (spaceId threadId : jstr) (afterSeq : Z) (limit : nat) (db : Conversations) : list (Z * EventRow) :=
  take limit (orderBy bySeq (rowsAfter spaceId threadId afterSeq db)).

(** ** The subscription *)

Definition defaultEventPageSize : nat := 100.

(** What the rest of the world is at one step of the stream: the database, whether the
    actor's membership is there and can be read, whether the event rows can, and whether
    the request was aborted. *)
Inductive Membership := membership_active | membership_revoked | membership_unreadable.

Record World := { wDb : Conversations; wMembership : Membership; wRowsReadable : bool; wAborted : bool }.

(** How a wait ended: [SignalWake]. *)
Inductive SignalWake := wake_signal (finished : bool) | wake_poll | wake_aborted.

Record ThreadEventFrame := { frEvent : RunEvent; frCursor : jstr }.

(** Where the generator stands.  A batch is left with the rows not framed yet and
    whether it was a full page. *)
Inductive Stream :=
| Polling (lastSeq : Z)
| Querying (lastSeq : Z)
| Framing (lastSeq : Z) (batch : list (Z * EventRow)) (full : bool)
| Waiting (lastSeq : Z)
| StreamEnded
| StreamFailed.

Inductive SubscribeError := subscribe_not_found | subscribe_bad_cursor (reason : CursorRejection) | subscribe_outage.

Section subscription.
Context `{HmacPlatform} `{Base64Platform} (key : bytes) (pageSize : nat) (b : CursorBinding).

(** [subscribe]: membership, then the thread, then the cursor. *)
Definition subscribe (w w' : World) (lastEventId : option jstr) : result SubscribeError Stream :=
  match wMembership w with
  | membership_revoked => Err subscribe_not_found
  | membership_unreadable => Err subscribe_outage
  | membership_active =>
      if negb (wRowsReadable w') then Err subscribe_outage
      else match threadIn (cbSpace b) (cbThread b) (wDb w') with
      | None => Err subscribe_not_found
      | Some _ =>
          match lastEventId with
          | None => Ok (Polling 0)
          | Some cursor =>
              match verify key cursor b with
              | Ok fromSeq => Ok (Polling fromSeq)
              | Err reason => Err (subscribe_bad_cursor reason)
              end
          end
      end
  end.

Definition frameOf (seq : Z) (event : RunEvent) : ThreadEventFrame :=
  {| frEvent := event; frCursor := sign key {| cpBinding := b; cpSeq := seq |} |}.

(** From one await of [replay] to the next, and the frame yielded on the way. *)
Definition replay (w : World) (wake : SignalWake) (st : Stream) : Stream * option ThreadEventFrame :=
  match st with
  | Polling lastSeq =>
      if wAborted w then (StreamEnded, None)
      else match wMembership w with
           | membership_active => (Querying lastSeq, None)
           | membership_revoked => (StreamEnded, None)
           | membership_unreadable => (StreamFailed, None)
           end
  | Querying lastSeq =>
      if wRowsReadable w then
        let batch := listAfter (cbSpace b) (cbThread b) lastSeq pageSize (wDb w) in
        (Framing lastSeq batch (bool_decide (length batch = pageSize)), None)
      else (StreamFailed, None)
  | Framing lastSeq [] full => (if full then Polling lastSeq else Waiting lastSeq, None)
  | Framing lastSeq ((seq, row) :: batch) full =>
      match wMembership w with
      | membership_active =>
          match storedRunEvent (eventRow (cbThread b) seq row) with
          | Ok event => (Framing seq batch full, Some (frameOf seq event))
          | Err _ => (StreamFailed, None)
          end
      | membership_revoked => (StreamEnded, None)
      | membership_unreadable => (StreamFailed, None)
      end
  | Waiting lastSeq =>
      match wake with
      | wake_aborted | wake_signal true => (StreamEnded, None)
      | wake_signal false | wake_poll => (Polling lastSeq, None)
      end
  | StreamEnded | StreamFailed => (st, None)
  end.

(** The frames of a stream through a course of worlds. *)
Fixpoint drive (course : list (World * SignalWake)) (st : Stream) : list ThreadEventFrame * Stream :=
  match course with
  | [] => ([], st)
  | (w, wake) :: course =>
      let '(st, frame) := replay w wake st in
      let '(frames, st) := drive course st in (option_list frame ++ frames, st)
  end.

(** ** The client *)

(** One connection: the worlds its subscribe and its stream meet, how many of its frames
    arrive before it ends, and whether it ends in a way the client retries. *)
Record Connection := {
  cnWorld : World;
  cnThread : World;
  cnCourse : list (World * SignalWake);
  cnArrived : nat;
  cnRetryable : bool;
}.

Inductive SubscriptionState := st_connecting | st_live | st_reconnecting | st_resumed.

Inductive ClientStep := ShowState (s : SubscriptionState) | Yielded (event : RunEvent) | Slept (attempt : nat).

Record Client := { clLastEventId : option jstr; clAttempt : nat; clDropped : bool }.

Definition newClient : Client := {| clLastEventId := None; clAttempt := 0; clDropped := false |}.

(** The frames of a connection that arrive, or the refusal of its subscribe. *)
Definition arrived (lastEventId : option jstr) (c : Connection) : result SubscribeError (list ThreadEventFrame) :=
  st ← subscribe (cnWorld c) (cnThread c) lastEventId; Ok (take (cnArrived c) (drive (cnCourse c) st).1).

(** A refusal the client does not retry: the typed 4xx answers. *)
Definition refusedForGood (e : SubscribeError) : bool :=
  match e with subscribe_not_found | subscribe_bad_cursor _ => true | subscribe_outage => false end.

(** One turn of the loop of [subscribeThreadEvents]; [false] where it throws. *)
Definition connect (cl : Client) (c : Connection) : list ClientStep * Client * bool :=
  let retry (cl : Client) :=
    ([ShowState st_reconnecting; Slept (S (clAttempt cl))],
     {| clLastEventId := clLastEventId cl; clAttempt := S (clAttempt cl); clDropped := true |}) in
  match arrived (clLastEventId cl) c with
  | Err e =>
      if refusedForGood e then ([ShowState st_connecting], cl, false)
      else let '(steps, cl) := retry cl in (ShowState st_connecting :: steps, cl, true)
  | Ok frames =>
      let shown := [ShowState st_connecting; ShowState (if clDropped cl then st_resumed else st_live)] ++
                   ((λ f, Yielded (frEvent f)) <$> frames) in
      let cl := match last frames with
                | Some f => {| clLastEventId := Some (frCursor f); clAttempt := 0; clDropped := clDropped cl |}
                | None => cl
                end in
      if cnRetryable c then let '(steps, cl) := retry cl in (shown ++ steps, cl, true) else (shown, cl, false)
  end.

(** The loop over the connections it makes. *)
Fixpoint subscribeThreadEvents (cs : list Connection) (cl : Client) : list ClientStep * Client :=
  match cs with
  | [] => ([], cl)
  | c :: cs =>
      let '(steps, cl, again) := connect cl c in
      if again then let '(steps', cl) := subscribeThreadEvents cs cl in (steps ++ steps', cl) else (steps, cl)
  end.
End subscription.

Definition yields (steps : list ClientStep) : list RunEvent :=
  omap (λ s, match s with Yielded e => Some e | _ => None end) steps.

(** ** Lists in the order of their positions *)

Definition before (e f : Z * EventRow) : Prop := (e.1 < f.1)%Z.

#[export] Instance before_trans : Transitive before.
Proof. unfold before. intros e f g. lia. Qed.

#[export] Instance before_antisymm : AntiSymm (=) before.
Proof. unfold before. intros e f ??. lia. Qed.

Definition ordered (l : list (Z * EventRow)) : Prop := StronglySorted before l.

Lemma ordered_of_keys l : StronglySorted Z.le l.*1 → NoDup l.*1 → ordered l.
Proof.
  induction l as [|e l IH]; intros Hs Hn; [constructor|]. rewrite fmap_cons in Hs, Hn.
  apply StronglySorted_inv in Hs as [Hs Hle]. apply NoDup_cons in Hn as [Hn Hnd]. constructor; [by apply IH|].
  apply Forall_forall. intros f Hf. rewrite Forall_forall in Hle. assert (f.1 ∈ l.*1) as Hin by by apply list_elem_of_fmap_2.
  specialize (Hle _ Hin). unfold before. assert (f.1 ≠ e.1) by (intros E; rewrite E in Hin; done). lia.
Qed.

Lemma ordered_perm l l' : ordered l → ordered l' → l ≡ₚ l' → l = l'.
Proof. apply StronglySorted_unique. apply _. Qed.

Lemma ordered_app l l' : ordered (l ++ l') → ordered l ∧ ordered l' ∧ ∀ e f, e ∈ l → f ∈ l' → before e f.
Proof.
  induction l as [|e l IH]; cbn [app]; intros Hs; [split_and!; [constructor|done|by intros e f ?%elem_of_nil]|].
  apply StronglySorted_inv in Hs as [Hs Hall]. destruct (IH Hs) as (Hl & Hl' & Hb). apply Forall_app in Hall as [Ha Ha'].
  split_and!; [by constructor|done|]. intros x f [->|Hx]%elem_of_cons Hf; [|by apply Hb].
  rewrite Forall_forall in Ha'. by apply Ha'.
Qed.

Lemma ordered_filter (p : Z * EventRow → bool) l : ordered l → ordered (List.filter p l).
Proof.
  induction 1 as [|e l Hs IH Hall]; cbn; [constructor|]. destruct (p e); [|done]. constructor; [done|].
  apply Forall_forall. intros f Hf%list_elem_of_In%filter_In. rewrite Forall_forall in Hall. apply Hall. apply list_elem_of_In. tauto.
Qed.

Lemma elem_of_kept {A} (p : A → bool) (l : list A) x : x ∈ List.filter p l ↔ x ∈ l ∧ p x = true.
Proof. by rewrite !list_elem_of_In, filter_In. Qed.

(** ** What the log holds *)

Section log.
Context (s t : jstr).

Lemma elem_of_rowsAfter after db q row :
  (q, row) ∈ rowsAfter s t after db ↔ events db !! (t, q) = Some row ∧ evSpace row = s ∧ (after < q)%Z.
Proof.
  unfold rowsAfter. rewrite list_elem_of_omap. split.
  - intros ([[t' q'] row'] & Hin & Hm). cbn in Hm.
    destruct (bool_decide_reflect (t' = t)) as [->|]; [|done]. destruct (bool_decide_reflect (evSpace row' = s)); [|done].
    destruct (Z.ltb_spec after q'); [|done]. injection Hm as -> ->. split_and!; [by apply elem_of_map_to_list|done|done].
  - intros (Hq & Hsp & Ha). exists ((t, q), row). split; [by apply elem_of_map_to_list|]. cbn.
    rewrite !bool_decide_true by done. cbn. by destruct (Z.ltb_spec after q); [|lia].
Qed.

Lemma NoDup_keys_omap (g : (jstr * Z) * EventRow → option (Z * EventRow)) l :
  (∀ kv e, g kv = Some e → kv.1 = (t, e.1)) → NoDup l.*1 → NoDup (omap g l).*1.
Proof.
  intros Hg. induction l as [|kv l IH]; cbn [fmap list_fmap]; intros Hn; [constructor|].
  apply NoDup_cons in Hn as [Hn Hnd]. cbn [omap list_omap]. destruct (g kv) as [e|] eqn:E; [|by apply IH].
  cbn [fmap list_fmap]. apply NoDup_cons. split; [|by apply IH]. intros (f & Ef & Hf)%list_elem_of_fmap.
  apply list_elem_of_omap in Hf as (kv' & Hin & Hf). apply Hn. rewrite (Hg kv e E), Ef, <- (Hg kv' f Hf).
  by apply list_elem_of_fmap_2.
Qed.

Lemma rowsAfter_keys after db : NoDup (rowsAfter s t after db).*1.
Proof.
  apply NoDup_keys_omap; [|apply NoDup_fst_map_to_list]. intros [[t' q] row] e. cbn.
  destruct (bool_decide_reflect (t' = t)) as [->|]; [|done]. destruct (_ && _); [by intros [= <-]|done].
Qed.

(** The log of a thread from its first position. *)
Definition threadLog (db : Conversations) : list (Z * EventRow) := orderBy bySeq (rowsAfter s t 0 db).

Lemma orderBy_ordered after db : ordered (orderBy bySeq (rowsAfter s t after db)).
Proof.
  apply ordered_of_keys; [apply (orderBy_sorted fst)|]. rewrite orderBy_perm. apply rowsAfter_keys.
Qed.

Lemma rowsAfter_NoDup after db : NoDup (rowsAfter s t after db).
Proof. eapply NoDup_fmap_1, rowsAfter_keys. Qed.

(** A page is a page of the log. *)
Lemma listAfter_log after limit db :
  (0 ≤ after)%Z → listAfter s t after limit db = take limit (List.filter (λ e, after <? e.1)%Z (threadLog db)).
Proof.
  intros Ha. unfold listAfter. f_equal. apply ordered_perm; [apply orderBy_ordered|apply ordered_filter, orderBy_ordered|].
  rewrite orderBy_perm. unfold threadLog. apply NoDup_Permutation; [apply rowsAfter_NoDup| |].
  - apply NoDup_filter_list. rewrite orderBy_perm. apply rowsAfter_NoDup.
  - intros [q row]. rewrite elem_of_kept, orderBy_perm, !elem_of_rowsAfter. cbn.
    rewrite Z.ltb_lt. intuition lia.
Qed.

Lemma threadLog_positive db : Forall (λ e, 0 < e.1)%Z (threadLog db).
Proof.
  apply Forall_forall. intros [q row]. unfold threadLog. rewrite orderBy_perm, elem_of_rowsAfter. cbn. tauto.
Qed.

(** An append past every position extends the log by its row. *)
Lemma append_extends_log e row db db' :
  threadId e = t → (∀ f, f ∈ threadLog db → f.1 < seq e)%Z → (0 < seq e)%Z → evSpace row = s →
  events db' = <[(t, seq e) := row]> (events db) →
  (events db !! (t, seq e) = None ∨ ∃ r, events db !! (t, seq e) = Some r ∧ evSpace r ≠ s) →
  threadLog db' = threadLog db ++ [(seq e, row)].
Proof.
  intros Ht Hlast Hpos Hsp Hev Hfree. unfold threadLog in *. apply ordered_perm; [apply orderBy_ordered| |].
  - apply ordered_of_keys.
    + rewrite fmap_app. cbn. pose proof (orderBy_sorted fst (rowsAfter s t 0 db)) as Hs. revert Hs Hlast. unfold bySeq.
      generalize (orderBy (λ a b : Z * EventRow, a.1 <=? b.1)%Z (rowsAfter s t 0 db)). intros l Hs Hl.
      induction l as [|x l IH]; cbn in *; [by repeat constructor|]. apply StronglySorted_inv in Hs as [Hs Hx].
      constructor; [apply IH; [done|]; intros f Hf; apply Hl; by right|]. apply Forall_app. split; [done|].
      repeat constructor. specialize (Hl x ltac:(by left)). lia.
    + rewrite fmap_app. apply NoDup_app. split_and!; [rewrite orderBy_perm; apply rowsAfter_keys| |by apply NoDup_singleton].
      intros q (f & -> & Hf)%list_elem_of_fmap. cbn. rewrite list_elem_of_singleton. intros E. specialize (Hlast f Hf). lia.
  - rewrite !orderBy_perm. apply NoDup_Permutation; [apply rowsAfter_NoDup| |].
    + apply NoDup_app. split_and!; [apply rowsAfter_NoDup| |by apply NoDup_singleton]. intros f Hf ->%list_elem_of_singleton.
      specialize (Hlast (seq e, row)). rewrite orderBy_perm in Hlast. specialize (Hlast Hf). cbn in Hlast. lia.
    + intros [q r]. rewrite elem_of_app, list_elem_of_singleton, !elem_of_rowsAfter, Hev, lookup_insert_Some. split.
      * intros ([[[= <-] <-]|[Hne Hr]] & Hs & Hq); [by right|by left].
      * intros [(Hr & Hs & Hq)|[= -> ->]]; [|by split_and!; [left|..]]. split_and!; [|done|done]. right. split; [|done].
        intros [= <-]. destruct Hfree as [Hn|(r' & Hr' & Hs')]; congruence.
Qed.
End log.

(** ** The stream over a growing log *)

(** The position after a number of rows of a log; a stream begins before the first. *)
Definition seqAfter (m : nat) (l : list (Z * EventRow)) : Z := default 0%Z (fst <$> last (take m l)).

Lemma kept_all {A} (p : A → bool) l : (∀ x, x ∈ l → p x = true) → List.filter p l = l.
Proof.
  induction l as [|x l IH]; intros Hp; [done|]. cbn. rewrite Hp by by left. f_equal. apply IH. intros y Hy. apply Hp. by right.
Qed.

Lemma kept_none {A} (p : A → bool) l : (∀ x, x ∈ l → p x = false) → List.filter p l = [].
Proof.
  induction l as [|x l IH]; intros Hp; [done|]. cbn. rewrite Hp by by left. apply IH. intros y Hy. apply Hp. by right.
Qed.

Lemma seqAfter_bounds m (l : list (Z * EventRow)) :
  ordered l → Forall (λ e, 0 < e.1)%Z l →
  (0 ≤ seqAfter m l)%Z ∧ (∀ e, e ∈ take m l → e.1 ≤ seqAfter m l)%Z ∧ (∀ e, e ∈ drop m l → seqAfter m l < e.1)%Z.
Proof.
  intros Ho Hp. rewrite <- (take_drop m l) in Ho. destruct (ordered_app _ _ Ho) as (Ht & _ & Hb).
  rewrite <- (take_drop m l) in Hp. apply Forall_app in Hp as [Hpt Hpd]. unfold seqAfter.
  destruct (take m l) as [|x xs] eqn:E using rev_ind.
  - cbn. split_and!; [done|by intros e ?%elem_of_nil|]. intros e He. rewrite Forall_forall in Hpd. by apply Hpd.
  - clear IHxs. rewrite last_snoc. cbn [default fmap option_fmap option_map]. apply Forall_app in Hpt as [_ [Hx _]%Forall_cons].
    destruct (ordered_app _ _ Ht) as (_ & _ & Hbx). split_and!; [cbn in Hx |- *; lia| |].
    + intros e [He| ->%list_elem_of_singleton]%elem_of_app; [|by cbn]. specialize (Hbx e x He ltac:(by left)). unfold before in Hbx. cbn. lia.
    + intros e He. apply (Hb x e); [|done]. apply elem_of_app. right. by left.
Qed.

(** What a log has after the position of [m] of its rows is the rest of it. *)
Lemma after_seqAfter m (l : list (Z * EventRow)) :
  ordered l → Forall (λ e, 0 < e.1)%Z l → List.filter (λ e, seqAfter m l <? e.1)%Z l = drop m l.
Proof.
  intros Ho Hp. destruct (seqAfter_bounds m l Ho Hp) as (_ & Hb & Ha). 
  transitivity (List.filter (λ e, seqAfter m l <? e.1)%Z (take m l ++ drop m l)); [by rewrite take_drop|]. rewrite List.filter_app.
  rewrite kept_none, kept_all; [done| |]; intros e He; [by apply Z.ltb_lt, Ha|apply Z.ltb_ge; by apply Hb].
Qed.

Lemma after_prefix m (l k : list (Z * EventRow)) :
  ordered l → Forall (λ e, 0 < e.1)%Z l → k `prefix_of` l → List.filter (λ e, seqAfter m l <? e.1)%Z k `prefix_of` drop m l.
Proof.
  intros Ho Hp [k' E]. rewrite <- (after_seqAfter m l Ho Hp).
  exists (List.filter (λ e, seqAfter m l <? e.1)%Z k'). by rewrite <- List.filter_app, <- E.
Qed.

Lemma seqAfter_next m (l : list (Z * EventRow)) e rest : drop m l = e :: rest → seqAfter (S m) l = e.1 ∧ drop (S m) l = rest ∧ m < length l.
Proof.
  intros E. assert (l !! m = Some e) as Hm by by rewrite <- (Nat.add_0_r m), <- lookup_drop, E.
  unfold seqAfter. rewrite (take_S_r _ _ _ Hm), last_snoc. split_and!; [done| |by eapply lookup_lt_Some].
  by rewrite <- Nat.add_1_r, <- drop_drop, E.
Qed.

Section stream.
Context `{HmacPlatform} `{Base64Platform} (key : bytes) (pageSize : nat) (b : CursorBinding).
Context (l : list (Z * EventRow)) (Ho : ordered l) (Hpos : Forall (λ e, 0 < e.1)%Z l).

Notation log w := (threadLog (cbSpace b) (cbThread b) (wDb w)).

(** The worlds of a log that only grows towards [l]. *)
Definition growing (w : World) : Prop := log w `prefix_of` l.

(** The stream has framed the first [m] rows. *)
Definition framed (m : nat) (st : Stream) : Prop :=
  match st with
  | Polling q | Querying q | Waiting q => q = seqAfter m l
  | Framing q batch _ => q = seqAfter m l ∧ batch `prefix_of` drop m l
  | StreamEnded | StreamFailed => True
  end.

(** A frame is its row's event under the cursor of its row's position. *)
Definition frames_row (e : Z * EventRow) (f : ThreadEventFrame) : Prop :=
  storedRunEvent (eventRow (cbThread b) e.1 e.2) = Ok (frEvent f) ∧
  frCursor f = sign key {| cpBinding := b; cpSeq := e.1 |}.

Lemma replay_framed w wake st st' frame m :
  growing w → framed m st → replay key pageSize b w wake st = (st', frame) →
  match frame with
  | None => framed m st'
  | Some f => (∃ e rest, drop m l = e :: rest ∧ frames_row e f) ∧ framed (S m) st' ∧ wMembership w = membership_active
  end.
Proof using Ho Hpos.
  intros Hw Hf Hr. destruct st as [q|q|q [|[q' row] batch] full|q| |]; cbn [replay framed] in *.
  - destruct (wAborted w); [by injection Hr as <- <-|]. by destruct (wMembership w); injection Hr as <- <-.
  - destruct (wRowsReadable w); injection Hr as <- <-; [|done]. split; [done|]. subst q.
    rewrite listAfter_log by apply (seqAfter_bounds m l Ho Hpos). etrans; [apply prefix_take|]. by apply after_prefix.
  - injection Hr as <- <-. by destruct full, Hf.
  - destruct Hf as [-> Hb]. destruct (wMembership w); try by injection Hr as <- <-.
    destruct (storedRunEvent _) as [event|] eqn:Es; injection Hr as <- <-; [|done]. destruct Hb as [rest E]. cbn [app] in E.
    destruct (seqAfter_next m l _ _ E) as (Hq & Hd & _). split; [by exists (q', row), (batch ++ rest)|].
    split; [|done]. split; [done|]. rewrite Hd. by eexists.
  - destruct wake as [[|]| |]; by injection Hr as <- <-.
  - by injection Hr as <- <-.
  - by injection Hr as <- <-.
Qed.

Lemma drive_framed course st frames st' m :
  Forall (λ c, growing c.1) course → framed m st → drive key pageSize b course st = (frames, st') →
  Forall2 frames_row (take (length frames) (drop m l)) frames ∧ framed (m + length frames) st'.
Proof using Ho Hpos.
  revert st frames m. induction course as [|[w wake] course IH]; intros st frames m Hc Hf; cbn [drive].
  { intros [= <- <-]. cbn. rewrite Nat.add_0_r. split; [constructor|done]. }
  apply Forall_cons in Hc as [Hw Hc]. destruct (replay key pageSize b w wake st) as [st1 frame] eqn:Hr.
  destruct (drive key pageSize b course st1) as [frames1 st2] eqn:Hd. intros [= <- <-].
  pose proof (replay_framed w wake st st1 frame m Hw Hf Hr) as Hs. destruct frame as [f|].
  - change (option_list (Some f) ++ frames1) with (f :: frames1). cbn [length].
    destruct Hs as ((e & rest & E & Hrow) & Hf1 & _). destruct (IH _ _ (S m) Hc Hf1 Hd) as [H1 H2].
    destruct (seqAfter_next m l e rest E) as (_ & Hdrop & _). rewrite E. cbn [take]. rewrite Hdrop in H1.
    split; [by constructor|]. by rewrite Nat.add_succ_r.
  - by apply (IH st1).
Qed.
End stream.

(** ** The stream catches up *)

Definition live (st : Stream) : bool := match st with StreamEnded | StreamFailed => false | _ => true end.

Section liveness.
Context `{HmacPlatform} `{Base64Platform} (key : bytes) (pageSize : nat) (b : CursorBinding).
Context (l : list (Z * EventRow)) (Ho : ordered l) (Hpos : Forall (λ e, 0 < e.1)%Z l).

(** A world at rest: the log as it is, the actor a member, the request not aborted. *)
Record settledWorld (w : World) : Prop := {
  settled_log : threadLog (cbSpace b) (cbThread b) (wDb w) = l;
  settled_member : wMembership w = membership_active;
  settled_rows : wRowsReadable w = true;
  settled_open : wAborted w = false;
}.

(** The rows of the log are events. *)
Definition readable (e : Z * EventRow) : Prop := ∃ event, storedRunEvent (eventRow (cbThread b) e.1 e.2) = Ok event.

Lemma drive_app c c' st :
  drive key pageSize b (c ++ c') st =
  let '(frames, st) := drive key pageSize b c st in let '(frames', st) := drive key pageSize b c' st in (frames ++ frames', st).
Proof.
  revert st. induction c as [|[w wake] c IH]; intros st; cbn [app drive]; [by destruct (drive _ _ _ c' st)|].
  destruct (replay key pageSize b w wake st) as [st1 frame]. rewrite IH. destruct (drive key pageSize b c st1) as [frames st2].
  destruct (drive key pageSize b c' st2). by rewrite app_assoc.
Qed.

Context (w : World) (Hw : settledWorld w) (Hl : Forall readable l) (Hpage : 0 < pageSize).

Notation rest k := (replicate k (w, wake_poll)).

(** The next row is framed within five steps of any stream still open. *)
Lemma next_frame st m :
  live st = true → framed l m st → m < length l →
  ∃ k f st', 1 ≤ k ≤ 5 ∧ drive key pageSize b (rest k) st = ([f], st') ∧ live st' = true.
Proof using Ho Hpos Hw Hl Hpage.
  destruct Hw as [Hlog Hm Hr Hab]. intros Hst Hf Hlt.
  destruct (drop m l) as [|e tail] eqn:Hd; [apply (f_equal length) in Hd; rewrite length_drop in Hd; cbn in Hd; lia|].
  assert (Hread : readable e).
  { rewrite Forall_forall in Hl. apply Hl. rewrite <- (take_drop m l), Hd. apply elem_of_app. right. by left. }
  assert (Hframe : ∀ q batch full, ∃ f st', drive key pageSize b (rest 1) (Framing q (e :: batch) full) = ([f], st') ∧ live st' = true).
  { intros q batch full. destruct e as [q' row], Hread as [event He]. cbn [replicate drive replay]. rewrite Hm.
    cbn in He. rewrite He. by do 2 eexists. }
  assert (Hquery : ∃ f st', drive key pageSize b (rest 2) (Querying (seqAfter m l)) = ([f], st') ∧ live st' = true).
  { assert (take pageSize (e :: tail) = e :: take (pageSize - 1) tail) as Etake
      by (replace pageSize with (S (pageSize - 1)) at 1 by lia; done).
    destruct (Hframe (seqAfter m l) (take (pageSize - 1) tail) (bool_decide (length (take pageSize (e :: tail)) = pageSize)))
      as (f & st' & Hd1 & Hl1).
    exists f, st'. split; [|done]. change (rest 2) with ([(w, wake_poll)] ++ rest 1). rewrite drive_app.
    cbn [drive replay]. rewrite Hr, listAfter_log by apply (seqAfter_bounds m l Ho Hpos).
    rewrite Hlog, after_seqAfter, Hd by done. rewrite Etake in Hd1 |- *. by rewrite Hd1. }
  destruct Hquery as (f & st' & Hq & Hl').
  assert (Hpoll : drive key pageSize b (rest 3) (Polling (seqAfter m l)) = ([f], st')).
  { change (rest 3) with ([(w, wake_poll)] ++ rest 2). rewrite drive_app. cbn [drive replay]. by rewrite Hab, Hm, Hq. }
  assert (Hwait : drive key pageSize b (rest 4) (Waiting (seqAfter m l)) = ([f], st')).
  { change (rest 4) with ([(w, wake_poll)] ++ rest 3). rewrite drive_app. cbn [drive replay]. by rewrite Hpoll. }
  destruct st as [q|q|q batch full|q| |]; try done; cbn [framed] in Hf.
  - subst q. exists 3, f, st'. split_and!; [lia|lia|done|done].
  - subst q. exists 2, f, st'. split_and!; [lia|lia|done|done].
  - destruct Hf as [-> Hb]. destruct batch as [|e' batch].
    + destruct full.
      * exists 4, f, st'. split_and!; [lia|lia| |done]. change (rest 4) with ([(w, wake_poll)] ++ rest 3). rewrite drive_app.
        cbn [drive replay]. by rewrite Hpoll.
      * exists 5, f, st'. split_and!; [lia|lia| |done]. change (rest 5) with ([(w, wake_poll)] ++ rest 4). rewrite drive_app.
        cbn [drive replay]. by rewrite Hwait.
    + destruct Hb as [tail' E]. rewrite Hd in E. injection E as <- _.
      destruct (Hframe (seqAfter m l) batch full) as (f1 & st1 & H1 & H2). exists 1, f1, st1. split_and!; [lia|lia|done|done].
  - subst q. exists 4, f, st'. split_and!; [lia|lia|done|done].
Qed.

Lemma settled_growing n : Forall (λ c, growing b l c.1) (rest n).
Proof using Hw. apply Forall_replicate. unfold growing. cbn. by rewrite (settled_log w Hw). Qed.

Lemma catches_up m st n :
  live st = true → framed l m st → m ≤ length l → 5 * (length l - m) ≤ n →
  Forall2 (frames_row key b) (drop m l) (drive key pageSize b (rest n) st).1.
Proof using Ho Hpos Hw Hl Hpage.
  intros Hst Hf Hm Hn. remember (length l - m) as r eqn:Er. revert m st n Hst Hf Hm Hn Er.
  induction r as [|r IH]; intros m st n Hst Hf Hm Hn Er.
  - destruct (drive key pageSize b (rest n) st) as [frames st'] eqn:Hd.
    destruct (drive_framed key pageSize b l Ho Hpos _ _ _ _ m (settled_growing _) Hf Hd) as [H1 _].
    rewrite drop_ge in H1 |- * by lia. rewrite take_nil in H1. done.
  - destruct (next_frame st m Hst Hf ltac:(lia)) as (k & f & st1 & Hk & Hd & Hst1).
    destruct (drive_framed key pageSize b l Ho Hpos _ _ _ _ m (settled_growing _) Hf Hd) as [H1 Hf1].
    replace n with (k + (n - k)) by lia. rewrite replicate_add, drive_app, Hd.
    specialize (IH (m + 1) st1 (n - k) Hst1 Hf1 ltac:(lia) ltac:(lia) ltac:(lia)).
    destruct (drive key pageSize b (rest (n - k)) st1) as [frames st2]. cbn [fst] in *. cbn [length] in H1.
    rewrite <- (take_drop 1 (drop m l)), drop_drop. by apply Forall2_app.
Qed.
End liveness.

(** ** The client over many connections *)

Lemma yields_app steps steps' : yields (steps ++ steps') = yields steps ++ yields steps'.
Proof. apply omap_app. Qed.

Lemma yields_frames (frames : list ThreadEventFrame) : yields ((λ f, Yielded (frEvent f)) <$> frames) = frEvent <$> frames.
Proof. induction frames as [|f frames IH]; [done|]. cbn. by f_equal. Qed.

Lemma yields_shown a steps : yields (ShowState a :: steps) = yields steps.
Proof. done. Qed.

Lemma yields_pause a n : yields [ShowState a; Slept n] = [].
Proof. done. Qed.

Section client.
Context `{HmacLaws} `{Base64Laws} (key : bytes) (pageSize : nat) (b : CursorBinding) (dbEnd : Conversations).

(** The log the worlds grow towards. *)
Notation l := (threadLog (cbSpace b) (cbThread b) dbEnd).

(** The ids of the binding fit a cursor: plain texts of 286 characters together, and
    positions a number holds exactly. *)
Definition fits : Prop :=
  plainText (cbSpace b) && plainText (cbThread b) && plainText (cbUser b) = true ∧
  length (cbSpace b) + length (cbThread b) + length (cbUser b) ≤ 286 ∧
  Forall (λ e : Z * EventRow, isPosition {| cpBinding := b; cpSeq := e.1 |} = true) l.

Definition eventOfRow (e : Z * EventRow) (event : RunEvent) : Prop :=
  storedRunEvent (eventRow (cbThread b) e.1 e.2) = Ok event.

(** A client that has been given the first [m] events. *)
Definition resumesAt (m : nat) (cl : Client) : Prop :=
  m ≤ length l ∧
  clLastEventId cl = if decide (m = 0) then None else Some (sign key {| cpBinding := b; cpSeq := seqAfter m l |}).

Context (Hfits : fits).

Local Lemma log_ordered : ordered l.
Proof. apply orderBy_ordered. Qed.

Local Lemma log_positive : Forall (λ e, 0 < e.1)%Z l.
Proof. apply threadLog_positive. Qed.

Lemma seqAfter_elem m : 0 < m ≤ length l → ∃ e, e ∈ l ∧ seqAfter m l = e.1.
Proof.
  intros Hm. destruct (lookup_lt_is_Some_2 l (m - 1) ltac:(lia)) as [e He]. exists e.
  split; [by eapply list_elem_of_lookup_2|]. unfold seqAfter. replace m with (S (m - 1)) by lia.
  by rewrite (take_S_r _ _ _ He), last_snoc.
Qed.

(** The cursor a client holds resumes its stream where it stopped. *)
Lemma subscribe_resumes w w' cl st m :
  resumesAt m cl → subscribe key b w w' (clLastEventId cl) = Ok st → st = Polling (seqAfter m l).
Proof.
  intros [Hm ->]. unfold subscribe. destruct (wMembership w); try done. destruct (wRowsReadable w'); [|done].
  cbn [negb]. destruct (threadIn _ _ _); [|done]. destruct (decide (m = 0)) as [->|Hne]; [by intros [= <-]|].
  destruct (seqAfter_elem m ltac:(lia)) as (e & He & ->). destruct Hfits as (Hp & Hl & Hpos). rewrite Forall_forall in Hpos.
  rewrite verify_signed by by apply Hpos. cbn [cpBinding cpSeq]. rewrite decide_True by done.
  pose proof (cursor_length key {| cpBinding := b; cpSeq := e.1 |} (Hpos e He) Hp Hl).
  replace (MAX_CURSOR_LENGTH <? _)%Z with false by lia. by intros [= <-].
Qed.

Lemma rows_to_events es fs : Forall2 (frames_row key b) es fs → Forall2 eventOfRow es (frEvent <$> fs).
Proof. intros Hf. apply Forall2_fmap_r. eapply Forall2_impl; [exact Hf|]. by intros e f [? _]. Qed.

Lemma arrived_resumes c cl fs m :
  Forall (λ x, growing b l x.1) (cnCourse c) → resumesAt m cl → arrived key pageSize b (clLastEventId cl) c = Ok fs →
  Forall2 (frames_row key b) (take (length fs) (drop m l)) fs ∧ m + length fs ≤ length l ∧
  (fs ≠ [] → ∃ f, last fs = Some f ∧ frCursor f = sign key {| cpBinding := b; cpSeq := seqAfter (m + length fs) l |}).
Proof.
  intros Hc Hres. unfold arrived. destruct (subscribe _ _ _ _ _) as [st|] eqn:Hsub; [|done]. cbn [mbind result_bind].
  rewrite (subscribe_resumes _ _ _ _ m Hres Hsub). intros [= <-].
  destruct (drive key pageSize b (cnCourse c) (Polling (seqAfter m l))) as [frames st'] eqn:Hd. cbn [fst].
  destruct (drive_framed key pageSize b l log_ordered log_positive _ (Polling (seqAfter m l)) _ _ m Hc eq_refl Hd) as [Hf _].
  assert (Hlen : length frames ≤ length l - m).
  { pose proof (Forall2_length _ _ _ Hf) as E. rewrite length_take, length_drop in E. lia. }
  assert (Hf' : Forall2 (frames_row key b) (take (length (take (cnArrived c) frames)) (drop m l)) (take (cnArrived c) frames)).
  { apply (Forall2_take _ _ _ (cnArrived c)) in Hf. rewrite take_take in Hf. by rewrite length_take. }
  assert (Hlen' : length (take (cnArrived c) frames) ≤ length frames) by (rewrite length_take; lia).
  destruct Hres as [Hm _]. split; [done|]. split; [lia|]. generalize dependent (take (cnArrived c) frames). intros fs Hf' Hlen' Hne.
  destruct fs as [|f fs _] using rev_ind; [done|]. exists f. split; [by rewrite last_snoc|]. rewrite length_app in *. cbn [length] in *.
  assert (Hlt : m + length fs < length l) by lia. destruct (lookup_lt_is_Some_2 l (m + length fs) Hlt) as [e He].
  assert (Hrow : frames_row key b e f).
  { eapply (Forall2_lookup_lr _ _ _ (length fs)); [exact Hf'| |by rewrite lookup_app_r, Nat.sub_diag by lia].
    rewrite lookup_take_lt by lia. by rewrite lookup_drop. }
  assert (seqAfter (m + (length fs + 1)) l = e.1) as ->; [|by destruct Hrow].
  unfold seqAfter. replace (m + (length fs + 1)) with (S (m + length fs)) by lia. by rewrite (take_S_r _ _ _ He), last_snoc.
Qed.

Lemma connect_resumes c cl steps cl' again m :
  Forall (λ x, growing b l x.1) (cnCourse c) → resumesAt m cl → connect key pageSize b cl c = (steps, cl', again) →
  ∃ k, Forall2 eventOfRow (take k (drop m l)) (yields steps) ∧ resumesAt (m + k) cl'.
Proof.
  intros Hc Hres. unfold connect. destruct (arrived _ _ _ _ _) as [fs|e] eqn:Ha.
  - destruct (arrived_resumes c cl fs m Hc Hres Ha) as (Hf & Hle & Hlast). intros Hq. exists (length fs).
    assert (Hcl : resumesAt (m + length fs) (match last fs with
      | Some f => {| clLastEventId := Some (frCursor f); clAttempt := 0; clDropped := clDropped cl |} | None => cl end)).
    { destruct fs as [|f0 fs0]; [by rewrite Nat.add_0_r|]. destruct (Hlast ltac:(done)) as (f & -> & ->).
      split; [done|]. cbn [clLastEventId]. by rewrite decide_False by (cbn; lia). }
    revert Hq Hcl. generalize (match last fs with
      | Some f => {| clLastEventId := Some (frCursor f); clAttempt := 0; clDropped := clDropped cl |} | None => cl end).
    intros cl1 Hq Hcl. destruct (cnRetryable c); injection Hq as <- <- <-; (split; [|done]);
      rewrite !yields_shown, ?yields_app, yields_frames, ?yields_pause, ?app_nil_r; by apply rows_to_events.
  - destruct (refusedForGood e); intros [= <- <- <-]; exists 0; rewrite Nat.add_0_r; (split; [by constructor|]); [done|].
    by destruct Hres.
Qed.

Lemma subscription_resumes cs cl steps cl' m :
  Forall (λ c, Forall (λ x, growing b l x.1) (cnCourse c)) cs → resumesAt m cl →
  subscribeThreadEvents key pageSize b cs cl = (steps, cl') →
  ∃ k, Forall2 eventOfRow (take k (drop m l)) (yields steps) ∧ resumesAt (m + k) cl'.
Proof.
  revert cl steps m. induction cs as [|c cs IH]; intros cl steps m Hcs Hres; cbn [subscribeThreadEvents].
  { intros [= <- <-]. exists 0. rewrite Nat.add_0_r. split; [constructor|done]. }
  apply Forall_cons in Hcs as [Hc Hcs]. destruct (connect key pageSize b cl c) as [[steps1 cl1] again] eqn:E.
  destruct (connect_resumes c cl steps1 cl1 again m Hc Hres E) as (k & Hk & Hres1). destruct again.
  - destruct (subscribeThreadEvents key pageSize b cs cl1) as [steps2 cl2] eqn:E2. intros [= <- <-].
    destruct (IH cl1 steps2 (m + k) Hcs Hres1 E2) as (k' & Hk' & Hres2). exists (k + k'). rewrite Nat.add_assoc. split; [|done].
    rewrite yields_app. pose proof (Forall2_app Hk Hk') as Happ. rewrite <- drop_drop in Happ.
    by rewrite take_take_drop in Happ.
  - intros [= <- <-]. by exists k.
Qed.

(** C31. A subscription loses and repeats nothing, as long as the thread is not cleared: every
    world the client meets holds a prefix of one log [l] ([growing]), and the ids and
    positions of that log fit a cursor ([fits]).  Over any number of connections, each cut
    after any number of frames, refused, or ended by an outage, what the client is given
    is the events of the first rows of the thread's log, in order, each once; its cursor
    is the one of the last of them; and after any such history one connection left alone
    over that log at rest, its rows readable and the thread and its membership still
    there, gives it all the others, within five awaits for each. *)
Theorem subscription_exactly_once cs steps cl :
  Forall (λ c, Forall (λ x, growing b l x.1) (cnCourse c)) cs →
  subscribeThreadEvents key pageSize b cs newClient = (steps, cl) →
  (∃ m, m ≤ length l ∧ Forall2 eventOfRow (take m l) (yields steps) ∧ resumesAt m cl) ∧
  ∀ c w n, settledWorld b l w → Forall (readable b) l → 0 < pageSize → threadIn (cbSpace b) (cbThread b) (wDb w) ≠ None →
    c = {| cnWorld := w; cnThread := w; cnCourse := replicate n (w, wake_poll); cnArrived := n; cnRetryable := true |} →
    5 * length l ≤ n →
    Forall2 eventOfRow l (yields steps ++ yields (connect key pageSize b cl c).1.1).
Proof.
  intros Hcs Hrun. assert (Hstart : resumesAt 0 newClient) by (split; [lia|done]).
  destruct (subscription_resumes cs newClient steps cl 0 Hcs Hstart Hrun) as (m & Hm & Hres). cbn [Nat.add drop] in *.
  pose proof Hres as [Hle _]. split; [exists m; by split_and!|]. intros c w n Hw Hread Hpage Hthread -> Hn.
  set (c := {| cnWorld := w |}).
  assert (Hsub : ∃ st, subscribe key b w w (clLastEventId cl) = Ok st).
  { pose proof (settled_member _ _ _ Hw) as Hmem. unfold subscribe. rewrite Hmem, (settled_rows _ _ _ Hw). cbn [negb].
    destruct (threadIn _ _ _); [|done]. destruct Hres as [_ ->]. destruct (decide (m = 0)); [by eexists|].
    destruct (seqAfter_elem m ltac:(lia)) as (e & He & ->). destruct Hfits as (Hp & Hl & Hpos). rewrite Forall_forall in Hpos.
    rewrite verify_signed by by apply Hpos. cbn [cpBinding]. rewrite decide_True by done.
    pose proof (cursor_length key {| cpBinding := b; cpSeq := e.1 |} (Hpos e He) Hp Hl).
    replace (MAX_CURSOR_LENGTH <? _)%Z with false by lia. by eexists. }
  destruct Hsub as [st Hsub]. pose proof (subscribe_resumes _ _ _ _ m Hres Hsub) as ->.
  pose proof (catches_up key pageSize b l log_ordered log_positive w Hw Hread Hpage m (Polling (seqAfter m l)) n eq_refl eq_refl Hle
    ltac:(lia)) as Hrest.
  rewrite <- (take_drop m l). apply Forall2_app; [done|]. unfold connect, arrived, c. cbn [cnWorld cnThread cnCourse cnArrived].
  rewrite Hsub. cbn [mbind result_bind]. destruct (drive _ _ _ _ _) as [frames st']. cbn [fst] in *. rewrite take_ge.
  - cbn [cnRetryable fst app]. rewrite !yields_shown, yields_app, yields_frames, yields_pause, app_nil_r. by apply rows_to_events.
  - apply Forall2_length in Hrest. rewrite length_drop in Hrest. lia.
Qed.
End client.

(** ** Access, appends and clears *)

Section access.
Context `{HmacPlatform} `{Base64Platform} (key : bytes) (pageSize : nat) (b : CursorBinding).

Definition gone (w : World) : Prop := wMembership w ≠ membership_active.

Lemma gone_silent course st :
  Forall (λ x, gone x.1) course → (drive key pageSize b course st).1 = [].
Proof.
  revert st. induction course as [|[w wake] course IH]; intros st Hg; [done|]. apply Forall_cons in Hg as [Hw Hg]. cbn [drive].
  destruct (replay key pageSize b w wake st) as [st1 frame] eqn:Hr.
  assert (frame = None) as ->.
  { unfold replay, gone in *. cbn in Hw. repeat case_match; naive_solver. }
  specialize (IH st1 Hg). by destruct (drive key pageSize b course st1).
Qed.

Lemma dead_stays course st : live st = false → live (drive key pageSize b course st).2 = false.
Proof.
  revert st. induction course as [|[w wake] course IH]; intros st Hd; [done|]. cbn [drive].
  destruct (replay key pageSize b w wake st) as [st1 frame] eqn:Hr. assert (st1 = st) as -> by (destruct st; try done; cbn in Hr; congruence).
  specialize (IH st Hd). by destruct (drive key pageSize b course st).
Qed.

(** How many awaits a stream is from reading the membership again. *)
Definition distance (st : Stream) : nat :=
  match st with
  | Polling _ => 1
  | Querying _ => 4
  | Framing _ [] false => 3
  | Framing _ [] true => 2
  | Framing _ _ _ => 1
  | Waiting _ => 2
  | StreamEnded | StreamFailed => 0
  end.

Lemma gone_step w wake st st' frame :
  gone w → replay key pageSize b w wake st = (st', frame) → live st = true → distance st' < distance st.
Proof.
  unfold gone. intros Hw Hr Hl. destruct st as [q|q|q [|[q' row] batch] full|q| |]; cbn [replay] in Hr; try done;
    repeat case_match; simplify_eq/=; repeat case_match; try lia; done.
Qed.

Lemma gone_ends course st :
  Forall (λ x, gone x.1) course → distance st ≤ length course → live (drive key pageSize b course st).2 = false.
Proof.
  revert st. induction course as [|[w wake] course IH]; intros st Hg Hd.
  - destruct st as [| |? [|] []| | |]; cbn in Hd; try done; lia.
  - destruct (live st) eqn:Hl; [|by apply dead_stays]. apply Forall_cons in Hg as [Hw Hg]. cbn [drive].
    destruct (replay key pageSize b w wake st) as [st1 frame] eqn:Hr. pose proof (gone_step _ _ _ _ _ Hw Hr Hl). cbn [length] in Hd.
    specialize (IH st1 Hg ltac:(lia)). by destruct (drive key pageSize b course st1).
Qed.

(** A stream cannot outlive access.  In whatever state it stands, with whatever rows
    already fetched, from the moment the membership cannot be read as active no frame is
    delivered, and within four awaits the stream is over. *)
Theorem stream_ends_with_membership course st :
  Forall (λ x, gone x.1) course →
  (drive key pageSize b course st).1 = [] ∧ (4 ≤ length course → live (drive key pageSize b course st).2 = false).
Proof.
  intros Hg. split; [by apply gone_silent|]. intros Hlen. apply gone_ends; [done|].
  destruct st as [| |? [|] []| | |]; cbn; lia.
Qed.

(** A log that is wholly at or before a position has nothing for a stream there. *)
Lemma nothing_before q course st :
  (0 ≤ q)%Z → Forall (λ x, Forall (λ e, e.1 ≤ q)%Z (threadLog (cbSpace b) (cbThread b) (wDb x.1))) course →
  match st with Polling p | Querying p | Waiting p => p = q | Framing p batch _ => p = q ∧ batch = [] | _ => True end →
  (drive key pageSize b course st).1 = [].
Proof.
  intros Hq. revert st. induction course as [|[w wake] course IH]; intros st Hc Hst; [done|]. apply Forall_cons in Hc as [Hw Hc].
  cbn [drive]. destruct (replay key pageSize b w wake st) as [st1 frame] eqn:Hr.
  assert (Hempty : listAfter (cbSpace b) (cbThread b) q pageSize (wDb w) = []).
  { rewrite listAfter_log by done. rewrite kept_none; [by rewrite take_nil|]. intros e He. cbn in Hw. rewrite Forall_forall in Hw.
    apply Z.ltb_ge. by apply Hw. }
  specialize (IH st1 Hc). destruct (drive key pageSize b course st1) as [frames st2]. cbn [fst] in *.
  destruct st as [p|p|p batch full|p| |]; cbn [replay] in Hr.
  - repeat case_match; simplify_eq; by rewrite IH.
  - subst p. rewrite Hempty in Hr. destruct (wRowsReadable w); injection Hr as <- <-; by rewrite IH.
  - destruct Hst as [-> ->]. destruct full; injection Hr as <- <-; by rewrite IH.
  - destruct wake as [[|]| |]; injection Hr as <- <-; by rewrite IH.
  - injection Hr as <- <-. by rewrite IH.
  - injection Hr as <- <-. by rewrite IH.
Qed.
End access.

(** What the sink appends past every position is the next row of the log, and is framed
    as itself. *)
Theorem sink_append_grows s e now db ws ks :
  wfEvent e = true → jsonEvent e → appendEvent s e now db = (Ok (Some ()), ws, ks) →
  (∀ f, f ∈ threadLog s (threadId (base e)) db → f.1 < seq (base e))%Z →
  ∃ row, threadLog s (threadId (base e)) (overlay applyWrite ws db) = threadLog s (threadId (base e)) db ++ [(seq (base e), row)] ∧
    storedRunEvent (eventRow (threadId (base e)) (seq (base e)) row) = Ok e.
Proof.
  intros Hwf Hj Ha Hlast. destruct (appendEvent_ok _ _ _ _ _ _ Hj Ha) as (t & row & Ht & Hts & Hn & -> & -> & Hp & Hr & Hty & _).
  assert (Hsp : evSpace row = s).
  { unfold appendEvent in Ha. rewrite Hj in Ha. destruct (threadIn _ _ _); [|done]. destruct (runInThread _ _ _ _); [|done].
    destruct (jsonbParameter _); [|done]. destruct (_ <? _)%Z; [done|]. destruct (bool_decide _); [done|].
    by simplify_eq/=. }
  exists row. split; [|by apply storedRunEvent_sink].
  apply (append_extends_log s (threadId (base e)) (base e) row); try done; [|by left].
  unfold wfEvent, wfBase in Hwf. bools. lia.
Qed.

(** ** A concrete thread *)

Definition appended (e : RunEvent) (db : Conversations) : Conversations :=
  match appendEvent (u "space") e 0%Z db with (Ok (Some _), ws, _) => overlay applyWrite ws db | _ => db end.

Definition demoNext : RunEvent :=
  {| base := {| seq := 8; threadId := u "thread"; runId := u "run-1" |}; body := TokenDelta (u "message-2") (u " there") |}.

(** The first event of the thread's stream after a clear. *)
Definition demoAfresh : RunEvent :=
  {| base := {| seq := 1; threadId := u "thread"; runId := u "run-1" |}; body := TokenDelta (u "message-9") (u "new") |}.

Definition demoFirst : Conversations := appended demoEvent demoSubmitted.
Definition demoBoth : Conversations := appended demoNext demoFirst.
Definition demoCleared : Conversations := appended demoAfresh (answered demoClear demoBoth).2.

Definition demoBinding : CursorBinding := {| cbSpace := u "space"; cbThread := u "thread"; cbUser := u "user" |}.

Definition quiet (db : Conversations) : World :=
  {| wDb := db; wMembership := membership_active; wRowsReadable := true; wAborted := false |}.

Definition connection (db : Conversations) (awaits count : nat) : Connection :=
  {| cnWorld := quiet db; cnThread := quiet db; cnCourse := replicate awaits (quiet db, wake_poll); cnArrived := count;
     cnRetryable := true |}.

(** Cut after the first frame, refused by an outage, cut before any frame, then left alone. *)
Definition demoConnections : list Connection :=
  [connection demoFirst 9 1;
   {| cnWorld := {| wDb := demoBoth; wMembership := membership_unreadable; wRowsReadable := true; wAborted := false |};
      cnThread := quiet demoBoth; cnCourse := []; cnArrived := 0; cnRetryable := true |};
   connection demoBoth 9 0].

Example demo_subscription :
  (subscribeThreadEvents sampleKey 1 demoBinding (demoConnections ++ [connection demoBoth 9 9]) newClient).1 =
  [ShowState st_connecting; ShowState st_live; Yielded demoEvent; ShowState st_reconnecting; Slept 1;
   ShowState st_connecting; ShowState st_reconnecting; Slept 2;
   ShowState st_connecting; ShowState st_resumed; ShowState st_reconnecting; Slept 3;
   ShowState st_connecting; ShowState st_resumed; Yielded demoNext; ShowState st_reconnecting; Slept 1].
Proof. by vm_compute. Qed.

(** After a clear the log starts over, and a client that resumes is not given it. *)
Example cleared_stream_starves :
  threadLog (u "space") (u "thread") demoCleared ≠ [] ∧
  yields (subscribeThreadEvents sampleKey 1 demoBinding [connection demoBoth 99 99; connection demoCleared 99 99] newClient).1 =
    [demoEvent; demoNext].
Proof. split; [by vm_compute|]. by vm_compute. Qed.

(** ** Witnesses *)

Lemma demo_fits : fits demoBinding demoBoth.
Proof.
  split_and!; [vm_compute; reflexivity|vm_compute; lia|]. apply Forall_forall. intros e He.
  assert (Hall : forallb (λ e : Z * EventRow, isPosition {| cpBinding := demoBinding; cpSeq := e.1 |})
    (threadLog (u "space") (u "thread") demoBoth) = true) by (vm_compute; reflexivity).
  rewrite forallb_forall in Hall. apply Hall. by apply list_elem_of_In.
Qed.

Lemma demo_growing awaits n db :
  threadLog (u "space") (u "thread") db = take n (threadLog (u "space") (u "thread") demoBoth) →
  Forall (λ x, growing demoBinding (threadLog (u "space") (u "thread") demoBoth) x.1) (replicate awaits (quiet db, wake_poll)).
Proof.
  intros E. apply Forall_replicate. unfold growing. cbn [fst quiet wDb cbSpace cbThread demoBinding]. rewrite E. apply prefix_take.
Qed.

Lemma subscription_exactly_once_witness :
  ∃ steps cl, subscribeThreadEvents sampleKey 1 demoBinding demoConnections newClient = (steps, cl) ∧
    Forall2 (eventOfRow demoBinding) (threadLog (u "space") (u "thread") demoBoth)
      (yields steps ++ yields (connect sampleKey 1 demoBinding cl (connection demoBoth 10 10)).1.1).
Proof.
  destruct (subscribeThreadEvents sampleKey 1 demoBinding demoConnections newClient) as [steps cl] eqn:E.
  exists steps, cl. split; [reflexivity|].
  destruct (subscription_exactly_once sampleKey 1 demoBinding demoBoth demo_fits demoConnections steps cl) as [_ H].
  - apply Forall_cons_2; [|apply Forall_cons_2; [apply Forall_nil_2|apply Forall_cons_2; [|apply Forall_nil_2]]].
    + apply (demo_growing 9 1 demoFirst). vm_compute. reflexivity.
    + apply (demo_growing 9 2 demoBoth). vm_compute. reflexivity.
  - exact E.
  - apply (H (connection demoBoth 10 10) (quiet demoBoth) 10).
    + split; reflexivity.
    + apply Forall_forall. intros e He. unfold readable.
      assert (Hall : forallb (λ e : Z * EventRow, match storedRunEvent (eventRow (u "thread") e.1 e.2) with Ok _ => true | Err _ => false end)
        (threadLog (u "space") (u "thread") demoBoth) = true) by (vm_compute; reflexivity).
      rewrite forallb_forall in Hall. specialize (Hall e (proj1 (list_elem_of_In _ _) He)). cbn [cbThread demoBinding].
      destruct (storedRunEvent _) as [event|]; [exists event; reflexivity|discriminate Hall].
    + lia.
    + vm_compute. discriminate.
    + reflexivity.
    + vm_compute. lia.
Defined.

Lemma stream_ends_with_membership_witness :
  let w := {| wDb := demoBoth; wMembership := membership_revoked; wRowsReadable := true; wAborted := false |} in
  (drive sampleKey 1 demoBinding (replicate 4 (w, wake_poll))
     (Framing 0 (threadLog (u "space") (u "thread") demoBoth) true)).1 = [].
Proof.
  intros w. apply (stream_ends_with_membership sampleKey 1 demoBinding (replicate 4 (w, wake_poll))).
  apply Forall_replicate. discriminate.
Defined.

Lemma sink_append_grows_witness :
  match appendEvent (u "space") demoNext 0%Z demoFirst with
  | (Ok (Some tt), ws, _) => length (threadLog (u "space") (u "thread") (overlay applyWrite ws demoFirst)) = 2
  | _ => False
  end.
Proof.
  destruct (appendEvent (u "space") demoNext 0%Z demoFirst) as [[[[[]|]|] ws] ks] eqn:E; [|by vm_compute in E..].
  destruct (sink_append_grows (u "space") demoNext 0%Z demoFirst ws ks) as (row & Hrow & _);
    [vm_compute; reflexivity|vm_compute; reflexivity|exact E| |].
  - intros f Hf. assert (Hall : forallb (λ e : Z * EventRow, e.1 <? 8)%Z (threadLog (u "space") (u "thread") demoFirst) = true)
      by (vm_compute; reflexivity).
    rewrite forallb_forall in Hall. apply Z.ltb_lt, Hall. by apply list_elem_of_In.
  - cbn [threadId base demoNext] in Hrow. rewrite Hrow. vm_compute. reflexivity.
Defined.
