(* ===== verification/Fanout.v ===== *)
(** The in-process realtime fanout of packages/adapters/src/realtime.ts: wake-ups for the
    subscriptions of a thread, with the sets its closures share modelled as a heap. *)

From S2P Require Import Prelude JsText.

(** ** State *)

Record ThreadSignal := { sgThread : jstr; sgLatestSeq : Z }.

#[export] Instance ThreadSignal_eq_dec : EqDecision ThreadSignal.
Proof. solve_decision. Defined.

(** The consumer of an iterator: between reads, parked on the promise of a [next], or
    resolved and not run yet. *)
Inductive Consumer := consumer_idle | consumer_parked | consumer_woken.

#[export] Instance Consumer_eq_dec : EqDecision Consumer.
Proof. solve_decision. Defined.

(** One subscription: what its closure holds, and what its consumer was handed. *)
Record Waiter := {
  waThread : jstr;
  waFromSeq : Z;
  waSet : nat;
  waQueue : list ThreadSignal;
  waConsumer : Consumer;
  waReleased : bool;
  waHanded : list ThreadSignal;
  waBirth : nat;
}.

(** Waiters and sets are objects, named by the order they were made in; the registry
    maps a thread to a set.  [published] is every signal so far. *)
Record Fanout := {
  waiters : list Waiter;
  sets : list (list nat);
  registry : gmap jstr nat;
  published : list ThreadSignal;
}.

Definition emptyFanout : Fanout := {| waiters := []; sets := []; registry := ∅; published := [] |}.

Definition withWaiter (w : Waiter) (queue : list ThreadSignal) (consumer : Consumer) (released : bool) (handed : list ThreadSignal) : Waiter :=
  {| waThread := waThread w; waFromSeq := waFromSeq w; waSet := waSet w; waQueue := queue; waConsumer := consumer;
     waReleased := released; waHanded := handed; waBirth := waBirth w |}.

(** Resolving the promise of a parked read. *)
Definition wake (c : Consumer) : Consumer := match c with consumer_parked => consumer_woken | _ => c end.

(** ** Operations *)

Definition accepts (w : Waiter) (signal : ThreadSignal) : bool := (waFromSeq w <? sgLatestSeq signal)%Z.

(** [deliver], behind the comparison [publish] makes. *)
Definition deliver (signal : ThreadSignal) (w : Waiter) : Waiter :=
  if accepts w signal then withWaiter w (waQueue w ++ [signal]) (wake (waConsumer w)) (waReleased w) (waHanded w) else w.

Definition publish (signal : ThreadSignal) (f : Fanout) : Fanout :=
  let members := default [] (registry f !! sgThread signal ≫= λ set, sets f !! set) in
  {| waiters := foldl (λ ws i, alter (deliver signal) i ws) (waiters f) members; sets := sets f; registry := registry f;
     published := published f ++ [signal] |}.

Definition subscribe (threadId : jstr) (fromSeq : Z) (f : Fanout) : Fanout :=
  let id := length (waiters f) in
  let set := default (length (sets f)) (registry f !! threadId) in
  let w := {| waThread := threadId; waFromSeq := fromSeq; waSet := set; waQueue := []; waConsumer := consumer_idle;
              waReleased := false; waHanded := []; waBirth := length (published f) |} in
  {| waiters := waiters f ++ [w];
     sets := match registry f !! threadId with
             | Some set => alter (λ ms, ms ++ [id]) set (sets f)
             | None => sets f ++ [[id]]
             end;
     registry := <[threadId := set]> (registry f);
     published := published f |}.

(** The body of [next] from its loop on: done, the next signal, or parked. *)
Definition read (w : Waiter) : Waiter :=
  if waReleased w then withWaiter w (waQueue w) consumer_idle true (waHanded w)
  else match waQueue w with
       | [] => withWaiter w [] consumer_parked false (waHanded w)
       | signal :: queue => withWaiter w queue consumer_idle false (waHanded w ++ [signal])
       end.

Definition onWaiter (id : nat) (g : Waiter → Waiter) (f : Fanout) : Fanout :=
  {| waiters := alter g id (waiters f); sets := sets f; registry := registry f; published := published f |}.

(** [return]: [unsubscribe], which consults the set its closure holds, whatever the
    registry maps the thread to by now. *)
Definition unsubscribe (id : nat) (f : Fanout) : Fanout :=
  match waiters f !! id with
  | None => f
  | Some w =>
      let members := List.filter (λ i, negb (bool_decide (i = id))) (default [] (sets f !! waSet w)) in
      {| waiters := <[id := withWaiter w [] (wake (waConsumer w)) true (waHanded w)]> (waiters f);
         sets := <[waSet w := members]> (sets f);
         registry := match members with [] => delete (waThread w) (registry f) | _ => registry f end;
         published := published f |}
  end.

(** What callers do: a consumer has one read outstanding, and returns its iterator. *)
Inductive FanoutOp :=
| Publish (signal : ThreadSignal) | Subscribe (threadId : jstr) (fromSeq : Z) | Next (id : nat) | Resume (id : nat) | Return (id : nat).

Definition runOp (op : FanoutOp) (f : Fanout) : Fanout :=
  match op with
  | Publish signal => publish signal f
  | Subscribe threadId fromSeq => subscribe threadId fromSeq f
  | Next id => onWaiter id (λ w, if bool_decide (waConsumer w = consumer_idle) then read w else w) f
  | Resume id => onWaiter id (λ w, if bool_decide (waConsumer w = consumer_woken) then read w else w) f
  | Return id => unsubscribe id f
  end.

Definition runOps (ops : list FanoutOp) (f : Fanout) : Fanout := foldl (λ f op, runOp op f) f ops.

(** An iterator is returned once. *)
Fixpoint returnsOnce (ops : list FanoutOp) (f : Fanout) : bool :=
  match ops with
  | [] => true
  | op :: ops =>
      match op with Return id => negb (from_option waReleased true (waiters f !! id)) | _ => true end && returnsOnce ops (runOp op f)
  end.

(** ** What a subscription is owed *)

(** The signals of its thread ahead of its cursor, from its subscription on. *)
Definition owed (f : Fanout) (w : Waiter) : list ThreadSignal :=
  List.filter (λ sg, bool_decide (sgThread sg = waThread w) && accepts w sg) (drop (waBirth w) (published f)).

(** Who is subscribed to a thread through a set. *)
Definition memberOf (f : Fanout) (t : jstr) (set id : nat) : Prop :=
  ∃ w, waiters f !! id = Some w ∧ waReleased w = false ∧ waThread w = t ∧ waSet w = set.

Record fanoutSound (f : Fanout) : Prop := {
  sound_registered id w : waiters f !! id = Some w → waReleased w = false → registry f !! waThread w = Some (waSet w);
  sound_registry t set : registry f !! t = Some set →
    ∃ ms, sets f !! set = Some ms ∧ ms ≠ [] ∧ NoDup ms ∧ ∀ id, id ∈ ms ↔ memberOf f t set id;
  sound_owed id w : waiters f !! id = Some w → waReleased w = false →
    waBirth w ≤ length (published f) ∧ waHanded w ++ waQueue w = owed f w;
  sound_parked id w : waiters f !! id = Some w → waConsumer w = consumer_parked → waQueue w = [] ∧ waReleased w = false;
}.

Lemma lookup_deliverAll signal (ms : list nat) (ws : list Waiter) (id : nat) :
  NoDup ms → foldl (λ ws i, alter (deliver signal) i ws) ws ms !! id =
  (if bool_decide (id ∈ ms) then deliver signal else λ w, w) <$> ws !! id.
Proof.
  revert ws. induction ms as [|m ms IH]; intros ws Hn; cbn [foldl].
  - rewrite bool_decide_false by apply not_elem_of_nil. by rewrite option_fmap_id.
  - apply NoDup_cons in Hn as [Hm Hn]. rewrite IH by done. destruct (decide (id = m)) as [->|Hne].
    + rewrite (bool_decide_false (m ∈ ms)), bool_decide_true by (done || by left). rewrite list_lookup_alter_eq. by rewrite option_fmap_id.
    + rewrite list_lookup_alter_ne by done. f_equal.
      destruct (decide (id ∈ ms)); [by rewrite !bool_decide_true by (done || by right)|].
      by rewrite !bool_decide_false by (done || by intros [?|?]%elem_of_cons).
Qed.

Lemma sound_empty : fanoutSound emptyFanout.
Proof. split; try done; intros *; rewrite ?lookup_nil; done. Qed.

Lemma owed_snoc f w signal f' :
  published f' = published f ++ [signal] → waBirth w ≤ length (published f) →
  owed f' w = owed f w ++ (if bool_decide (sgThread signal = waThread w) && accepts w signal then [signal] else []).
Proof. intros E Hb. unfold owed. rewrite E, drop_app_le, List.filter_app by done. done. Qed.

(** Two subscriptions of one thread share its set. *)
Lemma shared_set f id w set :
  fanoutSound f → waiters f !! id = Some w → waReleased w = false → registry f !! waThread w = Some set → memberOf f (waThread w) set id.
Proof.
  intros Hf Hw Hr Hreg. pose proof (sound_registered f Hf id w Hw Hr) as E. rewrite E in Hreg. injection Hreg as <-. by exists w.
Qed.

(** Changes that leave the registry, the sets and who is in them alone. *)
Lemma sound_pointwise f f' (g : nat → Waiter → Waiter) :
  fanoutSound f → registry f' = registry f → sets f' = sets f →
  (∀ id, waiters f' !! id = g id <$> waiters f !! id) →
  (∀ id w, waThread (g id w) = waThread w ∧ waSet (g id w) = waSet w ∧ waReleased (g id w) = waReleased w) →
  (∀ id w, waiters f !! id = Some w → waReleased w = false →
     waBirth (g id w) ≤ length (published f') ∧ waHanded (g id w) ++ waQueue (g id w) = owed f' (g id w)) →
  (∀ id w, waiters f !! id = Some w → waConsumer (g id w) = consumer_parked → waQueue (g id w) = [] ∧ waReleased w = false) →
  fanoutSound f'.
Proof.
  intros Hf Er Es Ew Hg Ho Hp.
  assert (Hm : ∀ t set id, memberOf f' t set id ↔ memberOf f t set id).
  { intros t set id. unfold memberOf. rewrite Ew. destruct (waiters f !! id) as [w|]; cbn; [|by split; intros (? & ? & _)].
    destruct (Hg id w) as (H1 & H2 & H3). split; intros (w' & [= <-] & Hrest); eexists; (split; [done|]);
      rewrite ?H1, ?H2, ?H3 in *; done. }
  split.
  - intros id w'. rewrite Ew. destruct (waiters f !! id) as [w|] eqn:E; [|done]. intros [= <-]. destruct (Hg id w) as (-> & -> & ->).
    rewrite Er. by apply (sound_registered f Hf id).
  - intros t set. rewrite Er, Es. intros Hreg. destruct (sound_registry f Hf t set Hreg) as (ms & H1 & H2 & H3 & H4).
    exists ms. split_and!; try done. intros id. by rewrite Hm.
  - intros id w'. rewrite Ew. destruct (waiters f !! id) as [w|] eqn:E; [|done]. intros [= <-].
    rewrite (proj2 (proj2 (Hg id w))). by apply Ho.
  - intros id w'. rewrite Ew. destruct (waiters f !! id) as [w|] eqn:E; [|done]. intros [= <-].
    rewrite (proj2 (proj2 (Hg id w))). by apply Hp.
Qed.

Lemma publish_sound signal f : fanoutSound f → fanoutSound (publish signal f).
Proof.
  intros Hf. set (ms := default [] (registry f !! sgThread signal ≫= λ set, sets f !! set)).
  assert (Hms : NoDup ms ∧ ∀ id w, waiters f !! id = Some w →
    (id ∈ ms → waReleased w = false) ∧ (waReleased w = false → (id ∈ ms ↔ waThread w = sgThread signal))).
  { unfold ms. destruct (registry f !! sgThread signal) as [set|] eqn:Er; cbn [mbind option_bind].
    - destruct (sound_registry f Hf _ _ Er) as (ms' & -> & _ & Hn & Hm). cbn [default]. split; [done|]. intros id w Hw.
      split; [intros Hin%Hm; destruct Hin as (w' & Hw' & Hr' & _); congruence|]. intros Hr. rewrite Hm. split.
      + intros (w' & Hw' & _ & Ht & _). congruence.
      + intros Ht. rewrite <- Ht in Er |- *. by apply shared_set.
    - cbn [default]. split; [constructor|]. intros id w Hw. split; [by intros ?%elem_of_nil|]. intros Hr.
      pose proof (sound_registered f Hf id w Hw Hr) as E. split; [by intros ?%elem_of_nil|]. intros Ht. rewrite Ht in E. congruence. }
  destruct Hms as [Hn Hms].
  apply (sound_pointwise f (publish signal f) (λ id, if bool_decide (id ∈ ms) then deliver signal else λ w, w) Hf eq_refl eq_refl).
  - intros id. by apply lookup_deliverAll.
  - intros id w. case_bool_decide; [|done]. unfold deliver. by case_match.
  - intros id w Hw Hr. destruct (sound_owed f Hf id w Hw Hr) as [Hb Ho]. cbn [publish published]. rewrite length_app.
    assert (Hsnoc := owed_snoc f w signal (publish signal f) eq_refl Hb). destruct (Hms id w Hw) as [_ Hiff]. specialize (Hiff Hr).
    destruct (decide (id ∈ ms)) as [Hin|Hout].
    + rewrite bool_decide_true by done. rewrite bool_decide_true in Hsnoc by (symmetry; by apply Hiff). cbn [andb] in Hsnoc.
      unfold deliver. destruct (accepts w signal); [|by rewrite Hsnoc, app_nil_r; split; [lia|]].
      change (owed _ (withWaiter _ _ _ _ _)) with (owed (publish signal f) w). rewrite Hsnoc.
      cbn [withWaiter waBirth waHanded waQueue]. rewrite app_assoc, Ho. split; [lia|done].
    + rewrite bool_decide_false by done. rewrite bool_decide_false in Hsnoc by (intros E; apply Hout, Hiff; done).
      rewrite Hsnoc, app_nil_r. split; [lia|done].
  - intros id w Hw. case_bool_decide; [|by apply (sound_parked f Hf id)]. unfold deliver.
    destruct (accepts w signal); [|by apply (sound_parked f Hf id)]. cbn. by destruct (waConsumer w).
Qed.

Lemma read_sound id f (p : Waiter → bool) : fanoutSound f → fanoutSound (onWaiter id (λ w, if p w then read w else w) f).
Proof.
  intros Hf. apply (sound_pointwise f (onWaiter id (λ w, if p w then read w else w) f) (λ i, if decide (i = id) then λ w, if p w then read w else w else λ w, w) Hf eq_refl eq_refl).
  - intros i. cbn [onWaiter waiters]. case_decide as E; [subst i; by rewrite list_lookup_alter_eq|].
    by rewrite list_lookup_alter_ne, option_fmap_id.
  - intros i w. case_decide; [|done]. destruct (p w); [|done]. unfold read. destruct (waReleased w) eqn:E; [done|]. by destruct (waQueue w).
  - intros i w Hw Hr. destruct (sound_owed f Hf i w Hw Hr) as [Hb Ho]. case_decide; [|done]. destruct (p w); [|done].
    unfold read. rewrite Hr. destruct (waQueue w) as [|sg queue] eqn:Eq; (split; [done|]); (transitivity (owed f w); [|done]);
      rewrite <- Ho; cbn [withWaiter waHanded waQueue]; by rewrite <- ?app_assoc.
  - intros i w Hw. case_decide; [|by apply (sound_parked f Hf i)]. destruct (p w); [|by apply (sound_parked f Hf i)].
    unfold read. destruct (waReleased w); [done|]. by destruct (waQueue w).
Qed.

Lemma subscribe_sound t from f : fanoutSound f → fanoutSound (subscribe t from f).
Proof.
  intros Hf. set (id := length (waiters f)).
  assert (Hold : ∀ i w, waiters (subscribe t from f) !! i = Some w → i ≠ id → waiters f !! i = Some w).
  { intros i w. cbn [subscribe waiters]. intros [Hw|[Hge Hw]]%lookup_app_Some Hne; [done|].
    apply list_lookup_singleton_Some in Hw as [Hi _]. unfold id in Hne. lia. }
  assert (Hkeep : ∀ i w, waiters f !! i = Some w → waiters (subscribe t from f) !! i = Some w ∧ i ≠ id).
  { intros i w Hw. split; [by apply lookup_app_l_Some|]. apply lookup_lt_Some in Hw. unfold id. lia. }
  assert (Hnew : ∃ w, waiters (subscribe t from f) !! id = Some w ∧ waThread w = t ∧ waReleased w = false ∧
    registry (subscribe t from f) !! t = Some (waSet w) ∧ waBirth w = length (published f) ∧ waHanded w = [] ∧ waQueue w = [] ∧
    waConsumer w = consumer_idle).
  { eexists. cbn [subscribe waiters registry]. rewrite lookup_app_r, Nat.sub_diag by done. split; [done|].
    rewrite lookup_insert_eq. by split_and!. }
  destruct Hnew as (w0 & Hw0 & Ht0 & Hr0 & Hreg0 & Hb0 & Hh0 & Hq0 & Hc0).
  assert (Hsame : ∀ t' set, t' ≠ t → registry (subscribe t from f) !! t' = Some set → registry f !! t' = Some set)
    by (intros t' set Hne; cbn [subscribe registry]; by rewrite lookup_insert_ne by done).
  split.
  - intros i w Hw Hr. destruct (decide (i = id)) as [->|Hne].
    + rewrite Hw0 in Hw. injection Hw as <-. by rewrite Ht0.
    + pose proof (sound_registered f Hf i w (Hold i w Hw Hne) Hr) as Hreg. cbn [subscribe registry].
      destruct (decide (waThread w = t)) as [E|Hnt]; [|by rewrite lookup_insert_ne].
      rewrite E in Hreg |- *. by rewrite lookup_insert_eq, Hreg.
  - intros t' set Hreg. destruct (decide (t' = t)) as [->|Hnt].
    + rewrite Hreg0 in Hreg. injection Hreg as Hset.
      assert (Hmem : ∀ i, memberOf (subscribe t from f) t set i ↔ memberOf f t set i ∨ i = id).
      { intros i. unfold memberOf. split.
        - intros (w & Hw & Hrest). destruct (decide (i = id)) as [->|Hne]; [by right|]. left. exists w. split; [by apply Hold|done].
        - intros [(w & Hw & Hrest)| ->]; [exists w; split; [by apply Hkeep|done]|]. exists w0. by split_and!. }
      unfold subscribe in Hreg0 |- *. cbn [registry sets] in Hreg0 |- *. rewrite lookup_insert_eq in Hreg0.
      assert (set = default (length (sets f)) (registry f !! t)) as -> by congruence.
      destruct (registry f !! t) as [set|] eqn:Er; cbn [default].
      * destruct (sound_registry f Hf t set Er) as (ms & Hs & _ & Hn & Hm). rewrite list_lookup_alter_eq, Hs. cbn.
        eexists. split; [done|]. split; [by destruct ms|]. split.
        -- apply NoDup_app. split_and!; [done| |by apply NoDup_singleton]. intros i Hi%Hm ->%list_elem_of_singleton.
           destruct Hi as (w & Hw & _). by destruct (Hkeep _ _ Hw).
        -- intros i. rewrite elem_of_app, list_elem_of_singleton, Hm. unfold subscribe in Hmem. rewrite Er in Hmem. symmetry. apply Hmem.
      * rewrite lookup_app_r, Nat.sub_diag by done. exists [id]. split_and!; [done|done|by apply NoDup_singleton|].
        intros i. unfold subscribe in Hmem. rewrite Er in Hmem. rewrite list_elem_of_singleton. rewrite (Hmem i). split; [by right|].
        intros [(w & Hw & Hr & Ht & _)|]; [|done]. pose proof (sound_registered f Hf i w Hw Hr) as E. rewrite Ht in E. congruence.
    + apply Hsame in Hreg; [|done]. destruct (sound_registry f Hf t' set Hreg) as (ms & Hs & Hne & Hn & Hm).
      exists ms. split; [|split_and!; [done..|]].
      * unfold subscribe. cbn [sets]. destruct (registry f !! t) as [set'|] eqn:Er; [|by apply lookup_app_l_Some].
        rewrite list_lookup_alter_ne; [done|]. intros ->.
        destruct (sound_registry f Hf t set Er) as (ms' & Hs' & _ & _ & Hm'). rewrite Hs in Hs'. injection Hs' as <-.
        destruct ms as [|i ms]; [done|]. destruct (proj1 (Hm i) ltac:(by left)) as (w & Hw & _ & Ht & _).
        destruct (proj1 (Hm' i) ltac:(by left)) as (w' & Hw' & _ & Ht' & _). congruence.
      * intros i. rewrite Hm. split.
        -- intros (w & Hw & Hrest). exists w. split; [by apply Hkeep|done].
        -- intros (w & Hw & Hr & Ht & Hset). exists w. split; [|done]. apply Hold; [done|]. intros ->. rewrite Hw0 in Hw. congruence.
  - intros i w Hw Hr. cbn [subscribe published]. destruct (decide (i = id)) as [->|Hne].
    + rewrite Hw0 in Hw. injection Hw as <-. split; [lia|]. unfold owed. cbn [subscribe published]. by rewrite Hh0, Hq0, Hb0, drop_all.
    + by apply (sound_owed f Hf i w), Hr; apply Hold.
  - intros i w Hw. destruct (decide (i = id)) as [->|Hne]; [rewrite Hw0 in Hw; injection Hw as <-; by rewrite Hc0|].
    by apply (sound_parked f Hf i w), Hold.
Qed.

Lemma unsubscribe_sound id f w :
  fanoutSound f → waiters f !! id = Some w → waReleased w = false → fanoutSound (unsubscribe id f).
Proof.
  intros Hf Hw Hr. pose proof (sound_registered f Hf id w Hw Hr) as Hreg.
  destruct (sound_registry f Hf _ _ Hreg) as (ms & Hs & Hne & Hn & Hm).
  unfold unsubscribe. rewrite Hw, Hs. change (default [] (Some ms)) with ms.
  set (ms' := List.filter (λ i, negb (bool_decide (i = id))) ms).
  assert (Hms' : ∀ i, i ∈ ms' ↔ i ∈ ms ∧ i ≠ id).
  { intros i. unfold ms'. rewrite list_elem_of_In, filter_In, <- list_elem_of_In, negb_true_iff, bool_decide_eq_false. done. }
  set (w' := withWaiter w [] (wake (waConsumer w)) true (waHanded w)).
  assert (Hlook : ∀ i v, <[id := w']> (waiters f) !! i = Some v → (i = id ∧ v = w') ∨ (i ≠ id ∧ waiters f !! i = Some v)).
  { intros i v. destruct (decide (i = id)) as [->|Hi].
    - rewrite list_lookup_insert_eq by by eapply lookup_lt_Some. intros [= <-]. by left.
    - rewrite list_lookup_insert_ne by done. by right. }
  assert (Hregs : ∀ t set, (match ms' with [] => delete (waThread w) (registry f) | _ => registry f end) !! t = Some set →
    registry f !! t = Some set ∧ (t = waThread w → ms' ≠ [])).
  { intros t set. destruct ms' as [|i ms1]; [intros [Hd Hg]%lookup_delete_Some; by split; [|intros ->]|by split]. }
  split.
  - intros i v Hv Hrv. cbn [waiters registry] in *. destruct (Hlook i v Hv) as [[-> ->]|[Hi Hv']]; [done|].
    pose proof (sound_registered f Hf i v Hv' Hrv) as Hregv. destruct ms' as [|j ms1] eqn:E; [|done].
    rewrite lookup_delete_ne; [done|]. intros Et. rewrite <- Et, Hreg in Hregv. injection Hregv as Hset.
    assert (i ∈ []) as H0%elem_of_nil; [|done]. apply Hms'. split; [|done]. apply Hm. exists v. by split_and!.
  - intros t set Hreg'. cbn [registry sets] in *. destruct (Hregs t set Hreg') as [Hregt Hcase].
    destruct (decide (t = waThread w)) as [->|Hnt].
    + rewrite Hreg in Hregt. injection Hregt as <-. rewrite list_lookup_insert_eq by by eapply lookup_lt_Some.
      exists ms'. split_and!; [done|by apply Hcase| |].
      * unfold ms'. apply NoDup_ListNoDup, List.NoDup_filter, NoDup_ListNoDup. done.
      * intros i. rewrite Hms', Hm. unfold memberOf. cbn [waiters]. split.
        -- intros [(v & Hv & Hrest) Hi]. exists v. by rewrite list_lookup_insert_ne.
        -- intros (v & Hv & Hrv & Ht & Hset). destruct (Hlook i v Hv) as [[-> ->]|[Hi Hv']]; [done|]. split; [|done]. by exists v.
    + destruct (sound_registry f Hf t set Hregt) as (ms2 & Hs2 & Hne2 & Hn2 & Hm2). exists ms2.
      assert (Hset : set ≠ waSet w).
      { intros ->. rewrite Hs in Hs2. injection Hs2 as <-. destruct ms as [|i ms1]; [done|].
        destruct (proj1 (Hm i) ltac:(by left)) as (v & Hv & _ & Ht & _). destruct (proj1 (Hm2 i) ltac:(by left)) as (v' & Hv' & _ & Ht' & _). congruence. }
      rewrite list_lookup_insert_ne by done. split_and!; try done. intros i. rewrite Hm2. unfold memberOf. cbn [waiters]. split.
      * intros (v & Hv & Hrv & Ht & Hsv). exists v. rewrite list_lookup_insert_ne; [done|]. intros ->. congruence.
      * intros (v & Hv & Hrv & Hrest). destruct (Hlook i v Hv) as [[-> ->]|[Hi Hv']]; [done|]. by exists v.
  - intros i v Hv Hrv. cbn [waiters published] in *. destruct (Hlook i v Hv) as [[-> ->]|[Hi Hv']]; [done|].
    by apply (sound_owed f Hf i v).
  - intros i v Hv Hp. cbn [waiters] in *. destruct (Hlook i v Hv) as [[-> ->]|[Hi Hv']]; [|by apply (sound_parked f Hf i v)].
    cbn in Hp. by destruct (waConsumer w).
Qed.

Lemma runOps_sound ops f : fanoutSound f → returnsOnce ops f = true → fanoutSound (runOps ops f).
Proof.
  revert f. induction ops as [|op ops IH]; intros f Hf; cbn [returnsOnce]; [done|]. intros [Hop Hops]%andb_true_iff.
  apply IH; [|done]. destruct op as [signal|t from|id|id|id]; cbn [runOp].
  - by apply publish_sound.
  - by apply subscribe_sound.
  - by apply read_sound.
  - by apply read_sound.
  - destruct (waiters f !! id) as [w|] eqn:Hw; [|done]. cbn in Hop. eapply unsubscribe_sound; [done|done|].
    by apply negb_true_iff.
Qed.

(** The fanout delivers what it accepts.  As long as each iterator is returned once, a
    subscription still open has been handed, in order and each once, the signals of its
    own thread ahead of its cursor published since it subscribed, but for those in its
    queue, which is empty when its consumer is parked; and the registry holds exactly the
    threads somebody is subscribed to. *)
Theorem fanout_delivers ops :
  returnsOnce ops emptyFanout = true →
  let f := runOps ops emptyFanout in
  (∀ id w, waiters f !! id = Some w → waReleased w = false →
     waHanded w ++ waQueue w = owed f w ∧ (waConsumer w = consumer_parked → waHanded w = owed f w)) ∧
  ∀ t, is_Some (registry f !! t) ↔ ∃ id w, waiters f !! id = Some w ∧ waReleased w = false ∧ waThread w = t.
Proof.
  intros Ho f. pose proof (runOps_sound ops emptyFanout sound_empty Ho) as Hf. fold f in Hf. split.
  - intros id w Hw Hr. destruct (sound_owed f Hf id w Hw Hr) as [_ E]. split; [done|]. intros Hp.
    destruct (sound_parked f Hf id w Hw Hp) as [Hq _]. by rewrite <- E, Hq, app_nil_r.
  - intros t. split.
    + intros [set Hreg]. destruct (sound_registry f Hf t set Hreg) as ([|id ms] & _ & Hne & _ & Hm); [done|].
      destruct (proj1 (Hm id) ltac:(by left)) as (w & Hw & Hr & Ht & _). by exists id, w.
    + intros (id & w & Hw & Hr & <-). rewrite (sound_registered f Hf id w Hw Hr). by eexists.
Qed.

(** ** Examples *)

Definition sig1 : ThreadSignal := {| sgThread := u "t"; sgLatestSeq := 5 |}.
Definition sig2 : ThreadSignal := {| sgThread := u "t"; sgLatestSeq := 6 |}.

Definition demoOps : list FanoutOp :=
  [Subscribe (u "t") 5; Subscribe (u "t") 0; Publish sig1; Next 0; Next 1; Publish sig2; Resume 0; Return 1; Publish sig1].

Example demo_fanout :
  (λ w, (waHanded w, waQueue w, waReleased w)) <$> waiters (runOps demoOps emptyFanout) =
  [([sig2], [], false); ([sig1], [], true)].
Proof. by vm_compute. Qed.

(** An iterator returned twice unregisters whoever subscribed in between: its signals
    are lost. *)
Example second_return_silences :
  let f := runOps [Subscribe (u "t") 0; Return 0; Subscribe (u "t") 0; Return 0; Publish sig1] emptyFanout in
  (λ w, waQueue w ++ waHanded w) <$> waiters f !! 1 = Some [] ∧ (owed f <$> waiters f !! 1) = Some [sig1].
Proof. by vm_compute. Qed.

Lemma fanout_delivers_witness :
  ∃ w, waiters (runOps demoOps emptyFanout) !! 0 = Some w ∧ waHanded w ++ waQueue w = owed (runOps demoOps emptyFanout) w.
Proof.
  destruct (waiters (runOps demoOps emptyFanout) !! 0) as [w|] eqn:Hw; [|vm_compute in Hw; discriminate].
  exists w. split; [reflexivity|]. destruct (fanout_delivers demoOps ltac:(vm_compute; reflexivity)) as [H _].
  apply (H 0 w Hw). vm_compute in Hw. injection Hw as <-. reflexivity.
Defined.
