(* ===== verification/ComputerLeases.v ===== *)
(** The lease above a bot's computer: packages/db/src/computer-leases.ts, with the sweep
    of apps/worker/src/jobs/lease-watchdog.ts.  The hold is the one statement here whose
    read and write see different states: it classifies on its snapshot and writes on the
    row its arbiter finds, so it is a program of two. *)

From stdpp Require Import sorting.
From S2P Require Import Prelude JsText JsValue Json Conversations ConversationAnswers RunState Approvals RunLiveness Statements Threads.
From S2P Require Import RunTables RunLeases ToolCallLedger ApprovalStore RunInterleaving RunFencing.

(** ** State *)

Definition COMPUTER_LEASE_TTL_SECONDS : Z := RUN_LEASE_TTL_SECONDS.
Definition COMPUTER_WATCHDOG_BATCH_LIMIT : nat := 50.

(** A [computer_lease] row without its bot, which is its unique key. *)
Record LeaseRow := { clSpace : jstr; clRun : jstr; clOwner : jstr; clFence : Z; clExpiresAt : Z }.

Record Machines := { mDb : Database; mLeases : gmap jstr LeaseRow }.

Definition withLeases (m : Machines) (leases : gmap jstr LeaseRow) : Machines :=
  {| mDb := mDb m; mLeases := leases |}.

Definition onDatabase {X} (stmt : statement Database X) : statement Machines X :=
  λ now m, let '(x, db) := stmt now (mDb m) in (x, {| mDb := db; mLeases := mLeases m |}).

Record ComputerLeaseHolder := { hdBot : jstr; hdRun : jstr; hdOwner : jstr; hdFence : Z }.

#[export] Instance ComputerLeaseHolder_eq_dec : EqDecision ComputerLeaseHolder.
Proof. solve_decision. Defined.

Definition runLeaseOf (h : ComputerLeaseHolder) : RunLease := {| rlOwner := hdOwner h; rlFence := hdFence h |}.

Definition bindingOf (bot : jstr) (l : LeaseRow) : ComputerLeaseHolder :=
  {| hdBot := bot; hdRun := clRun l; hdOwner := clOwner l; hdFence := clFence l |}.

(** The row is the holder's own. *)
Definition binds (h : ComputerLeaseHolder) (l : LeaseRow) : bool :=
  bool_decide (clRun l = hdRun h) && bool_decide (clOwner l = hdOwner h) && (clFence l =? hdFence h)%Z.

Record ComputerLease := { leHolder : ComputerLeaseHolder; leExpiresAt : Z }.

Inductive ComputerLeaseAcquisition := acq_held (lease : ComputerLease) | acq_busy (expiresAt : Z) | acq_run_lost.

Record HoldRow := { runHeld : bool; held : option ComputerLease; currentExpiresAt : option Z }.

(** The [bot_id] of a run: set by its insert and written by nothing else. *)
Section leases.
Context (botOf : jstr → jstr).

(** ** Statements *)

(** The [run_ok] of a hold. *)
Definition runOk (spaceId : jstr) (h : ComputerLeaseHolder) (now : Z) (m : Machines) : bool :=
  match runRows (mDb m) !! hdRun h with
  | Some row => holdsLease spaceId (runLeaseOf h) now row && bool_decide (botOf (hdRun h) = hdBot h)
  | None => false
  end.

(** What the hold reads of its snapshot: the instant, [run_ok], and the row it answers
    with when it wrote nothing. *)
Definition holdSnapshot (spaceId : jstr) (h : ComputerLeaseHolder) : statement Machines (Z * bool * option Z) :=
  λ now m, (now, runOk spaceId h now m, clExpiresAt <$> mLeases m !! hdBot h, m).

Definition leaseRowOf (spaceId : jstr) (h : ComputerLeaseHolder) (expiresAt : Z) : LeaseRow :=
  {| clSpace := spaceId; clRun := hdRun h; clOwner := hdOwner h; clFence := hdFence h; clExpiresAt := expiresAt |}.

(** The [held] of a hold: the upsert under the unique index, at the statement's instant. *)
Definition upsertLease (spaceId : jstr) (h : ComputerLeaseHolder) (at_ ttlSeconds : Z) :
    statement Machines (option ComputerLease) :=
  λ _ m,
  let expiresAt := (at_ + ttlSeconds * SECOND)%Z in
  let answer := Some {| leHolder := h; leExpiresAt := expiresAt |} in
  match mLeases m !! hdBot h with
  | None => (answer, withLeases m (<[hdBot h := leaseRowOf spaceId h expiresAt]> (mLeases m)))
  | Some l =>
      if (clExpiresAt l <=? at_)%Z || binds h l
      then (answer, withLeases m (<[hdBot h := leaseRowOf (clSpace l) h expiresAt]> (mLeases m)))
      else (None, m)
  end.

Definition holdOnce (spaceId : jstr) (h : ComputerLeaseHolder) (ttlSeconds : Z) : program Machines HoldRow :=
  Query (holdSnapshot spaceId h) (λ '(at_, ok, current),
    if ok then
      Query (upsertLease spaceId h at_ ttlSeconds) (λ lease,
        Done {| runHeld := true; held := lease; currentExpiresAt := current |})
    else Done {| runHeld := false; held := None; currentExpiresAt := current |}).

(** The loop of [holdComputerLease]; [None] where it throws. *)
Fixpoint holdAttempts (attempts : nat) (spaceId : jstr) (h : ComputerLeaseHolder) (ttlSeconds : Z) :
    program Machines (option ComputerLeaseAcquisition) :=
  match attempts with
  | O => Done None
  | S attempts =>
      andThen (holdOnce spaceId h ttlSeconds) (λ row,
        match held row with
        | Some lease => Done (Some (acq_held lease))
        | None =>
            if negb (runHeld row) then Done (Some acq_run_lost)
            else match currentExpiresAt row with
                 | Some expiresAt => Done (Some (acq_busy (columnDate expiresAt)))
                 | None => holdAttempts attempts spaceId h ttlSeconds
                 end
        end)
  end.

Definition holdComputerLease : jstr → ComputerLeaseHolder → Z → program Machines (option ComputerLeaseAcquisition) :=
  holdAttempts 2.

Definition releaseComputerLease (spaceId : jstr) (h : ComputerLeaseHolder) : statement Machines bool :=
  λ _ m,
  match mLeases m !! hdBot h with
  | Some l =>
      if bool_decide (clSpace l = spaceId) && binds h l then (true, withLeases m (delete (hdBot h) (mLeases m)))
      else (false, m)
  | None => (false, m)
  end.

(** The scan: every row whose time is over, the oldest expiry first. *)
Definition findExpiredComputerLeases (limit : nat) : statement Machines (list (jstr * LeaseRow)) :=
  λ now m,
  (take limit (orderBy (λ a b : jstr * LeaseRow, (clExpiresAt a.2 <=? clExpiresAt b.2)%Z)
     (map_to_list (filter (λ kv : jstr * LeaseRow, (clExpiresAt kv.2 <= now)%Z) (mLeases m)))), m).

(** The releases of one pass, and how many cleared a row. *)
Fixpoint releaseEach (expired : list (jstr * LeaseRow)) (released : nat) : program Machines nat :=
  match expired with
  | [] => Done released
  | (bot, l) :: expired =>
      Query (releaseComputerLease (clSpace l) (bindingOf bot l)) (λ cleared : bool,
        releaseEach expired (if cleared then S released else released))
  end.

Definition releaseStaleComputers (batchLimit : nat) : program Machines nat :=
  Query (findExpiredComputerLeases batchLimit) (λ expired, releaseEach expired 0).

(** ** Everybody's steps *)

(** One statement of any caller, in a history in which no bot is deleted: the deletion
    takes the bot's runs and its lease row with it, and is not one of the steps. *)
Inductive machineStep (m : Machines) : Machines → Prop :=
| machine_db db : dbStep (mDb m) db → machineStep m {| mDb := db; mLeases := mLeases m |}
| machine_upsert s h at_ ttl now : machineStep m (upsertLease s h at_ ttl now m).2
| machine_release s h now : machineStep m (releaseComputerLease s h now m).2.

Lemma upsertLease_db s h at_ ttl now m : mDb (upsertLease s h at_ ttl now m).2 = mDb m.
Proof. unfold upsertLease. destruct (mLeases m !! _); [|done]. by destruct (_ || _). Qed.

Lemma releaseComputerLease_db s h now m : mDb (releaseComputerLease s h now m).2 = mDb m.
Proof. unfold releaseComputerLease. destruct (mLeases m !! _); [|done]. by destruct (_ && _). Qed.

Lemma machineSteps_db m m' : rtc machineStep m m' → rtc dbStep (mDb m) (mDb m').
Proof.
  induction 1 as [|m1 m2 m3 Hs _ IH]; [done|]. etrans; [|exact IH].
  destruct Hs as [db Hs|s h at_ ttl now|s h now]; [by apply rtc_once|..];
    [by rewrite upsertLease_db|by rewrite releaseComputerLease_db].
Qed.

Lemma holdOnce_issues s h ttl : issues (isStep machineStep) (holdOnce s h ttl).
Proof.
  unfold holdOnce. cbn [issues]. split; [by intros now m|]. intros [[at_ ok] current]. destruct ok; [|done]. cbn [issues].
  split; [|done]. intros now m. by apply rtc_once, machine_upsert.
Qed.

Lemma holdComputerLease_issues s h ttl : issues (isStep machineStep) (holdComputerLease s h ttl).
Proof.
  unfold holdComputerLease. generalize 2. intros n. induction n as [|n IH]; [done|]. cbn [holdAttempts].
  apply issues_andThen; [apply holdOnce_issues|]. intros row. destruct (held row); [done|].
  destruct (negb _); [done|]. by destruct (currentExpiresAt row).
Qed.
End leases.

(** ** The history of a table *)

(** What somebody does: a hold's upsert at its instant, a release, or anything to the
    rows of the runs. *)
Inductive LeaseMove :=
| move_upsert (spaceId : jstr) (h : ComputerLeaseHolder) (at_ ttlSeconds : Z)
| move_release (spaceId : jstr) (h : ComputerLeaseHolder)
| move_rows (db : Database).

Inductive LeaseEntry := Granted (h : ComputerLeaseHolder) (at_ expiresAt : Z) | Cleared (h : ComputerLeaseHolder).

Definition entryHolder (x : LeaseEntry) : ComputerLeaseHolder :=
  match x with Granted h _ _ | Cleared h => h end.

Definition doMove (move : LeaseMove) (m : Machines) : Machines * list LeaseEntry :=
  match move with
  | move_upsert s h at_ ttl =>
      let '(lease, m) := upsertLease s h at_ ttl 0%Z m in
      (m, match lease with Some l => [Granted (leHolder l) at_ (leExpiresAt l)] | None => [] end)
  | move_release s h =>
      let '(cleared, m) := releaseComputerLease s h 0%Z m in (m, if cleared then [Cleared h] else [])
  | move_rows db => ({| mDb := db; mLeases := mLeases m |}, [])
  end.

Fixpoint doMoves (moves : list LeaseMove) (m : Machines) : Machines * list LeaseEntry :=
  match moves with
  | [] => (m, [])
  | move :: moves =>
      let '(m, entries) := doMove move m in
      let '(m, entries') := doMoves moves m in (m, entries ++ entries')
  end.

(** The grant of a bot that stands after an entry: the last one, unless it was cleared. *)
Definition stands (bot : jstr) (standing : option (ComputerLeaseHolder * Z)) (x : LeaseEntry) :
    option (ComputerLeaseHolder * Z) :=
  if decide (hdBot (entryHolder x) = bot) then
    match x with Granted h _ expiresAt => Some (h, expiresAt) | Cleared _ => None end
  else standing.

Definition standing (hist : list LeaseEntry) (bot : jstr) : option (ComputerLeaseHolder * Z) :=
  foldl (stands bot) None hist.

Lemma standing_snoc hist x bot : standing (hist ++ [x]) bot = stands bot (standing hist bot) x.
Proof. unfold standing. by rewrite foldl_snoc. Qed.

(** What holds of every entry when it is made. *)
Definition leaseEntryOk (hist : list LeaseEntry) (x : LeaseEntry) : Prop :=
  match x with
  | Granted h at_ _ => ∀ h' e, standing hist (hdBot h) = Some (h', e) → h' = h ∨ (e ≤ at_)%Z
  | Cleared h => ∃ e, standing hist (hdBot h) = Some (h, e)
  end.

Definition grantOf (bot : jstr) (l : LeaseRow) : ComputerLeaseHolder * Z := (bindingOf bot l, clExpiresAt l).

Record leasesSound (m : Machines) (hist : list LeaseEntry) : Prop := {
  ls_table bot : grantOf bot <$> mLeases m !! bot = standing hist bot;
  ls_entries : atEvery leaseEntryOk hist;
}.

Lemma binds_spec h l : binds h l = true ↔ bindingOf (hdBot h) l = h.
Proof.
  unfold binds, bindingOf. rewrite !andb_true_iff, !bool_decide_eq_true, Z.eqb_eq. destruct h as [b r o f], l as [s r' o' f' e]; cbn.
  split; [by intros [[-> ->] ->]|by intros [= -> -> ->]].
Qed.

Lemma leasesSound_entry m m' hist x :
  leasesSound m hist → leaseEntryOk hist x →
  (∀ bot, grantOf bot <$> mLeases m' !! bot = stands bot (grantOf bot <$> mLeases m !! bot) x) →
  leasesSound m' (hist ++ [x]).
Proof.
  intros [Ht He] Hx Hm. split; [intros bot; by rewrite standing_snoc, Hm, Ht|by apply atEvery_snoc].
Qed.

Lemma grantOf_insert leases h l bot :
  bindingOf (hdBot h) l = h →
  grantOf bot <$> <[hdBot h := l]> leases !! bot =
  (if decide (hdBot h = bot) then Some (h, clExpiresAt l) else grantOf bot <$> (leases : gmap jstr LeaseRow) !! bot).
Proof.
  intros Hl. case_decide as Hb; [subst bot; rewrite lookup_insert_eq; cbn; unfold grantOf; by rewrite Hl|by rewrite lookup_insert_ne].
Qed.

Lemma upsert_sound s h at_ ttl now m hist :
  leasesSound m hist →
  let '(lease, m') := upsertLease s h at_ ttl now m in
  leasesSound m' (hist ++ match lease with Some l => [Granted (leHolder l) at_ (leExpiresAt l)] | None => [] end).
Proof.
  intros Hs. pose proof (ls_table _ _ Hs (hdBot h)) as Ht. unfold upsertLease. destruct (mLeases m !! hdBot h) as [l|] eqn:El.
  - destruct (_ || _) eqn:Hok; cbn [leHolder leExpiresAt]; [|by rewrite app_nil_r].
    apply (leasesSound_entry m); [done| |].
    + cbn. intros h' e. rewrite <- Ht. cbn. intros [= <- <-]. apply orb_true_iff in Hok as [Hx|Hb]; [right; lia|left].
      by apply binds_spec.
    + intros bot. cbn [withLeases mLeases]. rewrite grantOf_insert by by destruct h. unfold stands. cbn [entryHolder]. by case_decide.
  - cbn [leHolder leExpiresAt]. apply (leasesSound_entry m); [done| |].
    + cbn. intros h' e. by rewrite <- Ht.
    + intros bot. cbn [withLeases mLeases]. rewrite grantOf_insert by by destruct h. unfold stands. cbn [entryHolder]. by case_decide.
Qed.

Lemma release_sound s h now m hist :
  leasesSound m hist →
  let '(cleared, m') := releaseComputerLease s h now m in leasesSound m' (hist ++ if cleared then [Cleared h] else []).
Proof.
  intros Hs. unfold releaseComputerLease. destruct (mLeases m !! hdBot h) as [l|] eqn:El; [|by rewrite app_nil_r].
  destruct (_ && _) eqn:Hok; [|by rewrite app_nil_r]. apply andb_true_iff in Hok as [_ Hb%binds_spec].
  apply (leasesSound_entry m); [done| |].
  - exists (clExpiresAt l). rewrite <- (ls_table _ _ Hs (hdBot h)), El. cbn. unfold grantOf. by rewrite Hb.
  - intros bot. unfold stands. cbn [entryHolder withLeases mLeases]. case_decide as Hd.
    + subst bot. by rewrite lookup_delete_eq.
    + by rewrite lookup_delete_ne.
Qed.

Lemma doMoves_sound moves m hist :
  leasesSound m hist → let '(m', entries) := doMoves moves m in leasesSound m' (hist ++ entries).
Proof.
  revert m hist. induction moves as [|move moves IH]; intros m hist Hs; [cbn [doMoves]; by rewrite app_nil_r|]. cbn [doMoves].
  destruct (doMove move m) as [m1 entries] eqn:Hm. assert (leasesSound m1 (hist ++ entries)) as H1.
  { destruct move as [s h at_ ttl|s h|db]; cbn [doMove] in Hm.
    - pose proof (upsert_sound s h at_ ttl 0%Z m hist Hs) as H. destruct (upsertLease _ _ _ _ _ _) as [lease m2]. by injection Hm as <- <-.
    - pose proof (release_sound s h 0%Z m hist Hs) as H. destruct (releaseComputerLease _ _ _ _) as [cleared m2]. by injection Hm as <- <-.
    - injection Hm as <- <-. rewrite app_nil_r. by destruct Hs; split. }
  specialize (IH m1 _ H1). destruct (doMoves moves m1) as [m2 entries']. by rewrite app_assoc.
Qed.

(** A grant stands until its holder is named again, or its time was over when another took
    the machine. *)
Lemma grant_stands hist i j h at_ e :
  atEvery leaseEntryOk hist →
  hist !! i = Some (Granted h at_ e) → i < j → j ≤ length hist →
  (∀ k x, i < k → k < j → hist !! k = Some x → entryHolder x ≠ h) →
  standing (take j hist) (hdBot h) = Some (h, e) ∨
  ∃ k h' at' e', i < k ∧ k < j ∧ hist !! k = Some (Granted h' at' e') ∧ hdBot h' = hdBot h ∧ (e ≤ at')%Z.
Proof.
  intros Hok Hi Hij. induction Hij as [|j Hij IH]; intros Hlen Hno.
  { left. rewrite (take_S_r _ _ _ Hi), standing_snoc. unfold stands. cbn [entryHolder]. by rewrite decide_True. }
  destruct IH as [Hst|(k & h' & at' & e' & ? & ? & ? & ? & ?)]; [lia|intros k x ???; apply (Hno k x); [done|lia|done]| |].
  2: { right. exists k, h', at', e'. split_and!; [done|lia|done..]. }
  destruct (lookup_lt_is_Some_2 hist j Hlen) as [x Hx]. pose proof (Hok j x Hx) as Hxok.
  assert (entryHolder x ≠ h) as Hne by (apply (Hno j x); [lia|lia|done]).
  rewrite (take_S_r _ _ _ Hx), standing_snoc, Hst. unfold stands. case_decide as Hb; [|by left].
  destruct x as [h' at' e'|h']; cbn [entryHolder leaseEntryOk] in *; rewrite Hb, Hst in Hxok.
  - right. exists j, h', at', e'. destruct (Hxok h e eq_refl) as [->|Hle]; [done|]. split_and!; [lia|lia|done..].
  - destruct Hxok as [e' [= <- _]]. done.
Qed.

(** C11. A machine has one holder at a time.  Whatever is held and released by anybody in any
    order, while no bot is deleted, the table holds for each bot the last grant that was not cleared, and a machine
    granted to one binding is granted to another only once the first grant's time was over,
    as long as its holder was not named since (it renewed or was cleared) and the instants
    of the machine's grants do not run backwards. *)
Theorem machine_has_one_holder db moves m hist :
  doMoves moves {| mDb := db; mLeases := ∅ |} = (m, hist) →
  (∀ bot, grantOf bot <$> mLeases m !! bot = standing hist bot) ∧
  ∀ i j h h' at_ at' e e',
    hist !! i = Some (Granted h at_ e) → hist !! j = Some (Granted h' at' e') → i < j → hdBot h' = hdBot h → h' ≠ h →
    (∀ k x, i < k → k < j → hist !! k = Some x → entryHolder x ≠ h) →
    (∀ k x a f, k < j → hist !! k = Some (Granted x a f) → hdBot x = hdBot h → (a ≤ at')%Z) →
    (e ≤ at')%Z.
Proof.
  intros Hm. assert (leasesSound {| mDb := db; mLeases := ∅ |} []) as H0 by by split.
  pose proof (doMoves_sound moves _ _ H0) as Hs. rewrite Hm in Hs. cbn [app] in Hs. destruct Hs as [Ht He]. split; [exact Ht|].
  intros i j h h' at_ at' e e' Hi Hj Hij Hb Hne Hno Hmono. pose proof (lookup_lt_Some _ _ _ Hj) as Hlen.
  destruct (grant_stands hist i j h at_ e He Hi Hij ltac:(lia) Hno) as [Hst|(k & x & a & f & Hk & Hkj & Hx & Hxb & Hle)].
  - pose proof (He j _ Hj) as Hx. cbn [leaseEntryOk] in Hx. rewrite Hb in Hx. destruct (Hx h e Hst) as [->|]; done.
  - etrans; [exact Hle|]. by apply (Hmono k x a f).
Qed.

(** ** What a hold answers *)

Section hold.
Context (botOf : jstr → jstr).

(** Alone, a hold answers on its own statement: the run must hold its lease, and the row
    must be free, over or its own; it writes exactly when it is answered the machine. *)
Definition holdAnswer (s : jstr) (h : ComputerLeaseHolder) (ttl now : Z) (m : Machines) : ComputerLeaseAcquisition * Machines :=
  if negb (runOk botOf s h now m) then (acq_run_lost, m)
  else
    let expiresAt := (now + ttl * SECOND)%Z in
    match mLeases m !! hdBot h with
    | Some l =>
        if (clExpiresAt l <=? now)%Z || binds h l
        then (acq_held {| leHolder := h; leExpiresAt := expiresAt |},
              withLeases m (<[hdBot h := leaseRowOf (clSpace l) h expiresAt]> (mLeases m)))
        else (acq_busy (columnDate (clExpiresAt l)), m)
    | None =>
        (acq_held {| leHolder := h; leExpiresAt := expiresAt |},
         withLeases m (<[hdBot h := leaseRowOf s h expiresAt]> (mLeases m)))
    end.

Lemma runAlone_andThen {St A B} (p : program St A) (k : A → program St B) now s :
  runAlone (andThen p k) now s = let '(a, s') := runAlone p now s in runAlone (k a) now s'.
Proof.
  revert s. induction p as [a|X stmt k' IH]; intros s; cbn [andThen runAlone]; [done|].
  destruct (stmt now s) as [x s']. apply IH.
Qed.

Lemma holdComputerLease_alone s h ttl now m :
  runAlone (holdComputerLease botOf s h ttl) now m = (Some (holdAnswer s h ttl now m).1, (holdAnswer s h ttl now m).2).
Proof.
  unfold holdComputerLease, holdAnswer. cbn [holdAttempts holdOnce andThen runAlone holdSnapshot].
  destruct (runOk botOf s h now m) eqn:Hok; cbn [negb andThen runAlone held runHeld]; [|done].
  unfold upsertLease. destruct (mLeases m !! hdBot h) as [l|] eqn:El; [|done].
  by destruct (_ || _).
Qed.

(** A run that lost its lease is not ok, and never is again. *)
Lemma lost_not_ok s h now m r :
  runRows (mDb m) !! hdRun h = Some r → lost (runLeaseOf h) r → runOk botOf s h now m = false.
Proof. intros Hr Hl. unfold runOk. by rewrite Hr, lost_not_held. Qed.

Lemma lost_later m m' h r :
  runRows (mDb m) !! hdRun h = Some r → lost (runLeaseOf h) r → rtc machineStep m m' →
  ∃ r', runRows (mDb m') !! hdRun h = Some r' ∧ lost (runLeaseOf h) r'.
Proof.
  intros Hr Hl Hs%machineSteps_db. destruct (de_runs _ _ (dbSteps_evolve _ _ Hs) _ _ Hr) as (r' & Hr' & Hev).
  exists r'. split; [done|]. by eapply lost_evolves.
Qed.

Lemma lost_holds_nothing s h ttl now m a m' r :
  runRows (mDb m) !! hdRun h = Some r → lost (runLeaseOf h) r →
  runs machineStep (holdComputerLease botOf s h ttl) now m a m' →
  a = Some acq_run_lost ∧ rtc machineStep m m'.
Proof.
  intros Hr Hl. unfold holdComputerLease. cbn [holdAttempts holdOnce andThen runs]. intros (n1 & m1 & _ & H1 & Hrun).
  destruct (lost_later _ _ _ _ Hr Hl H1) as (r1 & Hr1 & Hl1). unfold holdSnapshot in Hrun. cbn [fst snd] in Hrun.
  rewrite (lost_not_ok s h n1 m1 r1 Hr1 Hl1) in Hrun. cbn in Hrun. by destruct Hrun as [-> ->].
Qed.

(** Whoever is answered the machine held its run's lease at some moment of the hold. *)
Lemma held_was_ok n s h ttl now m lease m' :
  runs machineStep (holdAttempts botOf n s h ttl) now m (Some (acq_held lease)) m' →
  ∃ at_ m1, (now ≤ at_)%Z ∧ rtc machineStep m m1 ∧ runOk botOf s h at_ m1 = true ∧ rtc machineStep m1 m' ∧
    lease = {| leHolder := h; leExpiresAt := at_ + ttl * SECOND |}.
Proof.
  revert now m. induction n as [|n IH]; intros now m; [by intros [? _]|]. cbn [holdAttempts holdOnce andThen runs].
  intros (n1 & m1 & Hn1 & H1 & Hr). unfold holdSnapshot in Hr. cbn [fst snd] in Hr.
  destruct (runOk botOf s h n1 m1) eqn:Hok; cbn in Hr; [|by destruct Hr].
  destruct Hr as (n2 & m2 & Hn2 & H2 & Hr). assert (rtc machineStep m1 (upsertLease s h n1 ttl n2 m2).2) as H12
    by (etrans; [exact H2|apply rtc_once, machine_upsert]).
  destruct (upsertLease s h n1 ttl n2 m2) as [[l|] m3] eqn:Hu; cbn [fst snd] in *.
  - cbn in Hr. destruct Hr as [[= ->] ->]. exists n1, m1. split_and!; [done..|].
    unfold upsertLease in Hu. destruct (mLeases m2 !! _); [destruct (_ || _)|]; by simplify_eq.
  - cbn in Hr. destruct (clExpiresAt <$> _); [by destruct Hr|]. apply IH in Hr as (at_ & m4 & Hat & H4 & Hok4 & H5 & ->).
    exists at_, m4. split_and!; [lia| |done..]. etrans; [exact H1|]. by etrans.
Qed.

(** C17. A computer lease is fenced like a run write.  Under any interleaving, a hold that is
    answered the machine was made by a run that held its own lease, under that owner and
    fence and on its own bot, at a moment of the hold; and a run whose lease is lost (a
    newer fence, another owner, a terminal status) is answered run_lost by every later
    hold, which then writes nothing. *)
Theorem hold_fenced_by_run s h ttl now m a m' :
  runs machineStep (holdComputerLease botOf s h ttl) now m a m' →
  (∀ lease, a = Some (acq_held lease) → leHolder lease = h ∧
     ∃ at_ m1 r, rtc machineStep m m1 ∧ rtc machineStep m1 m' ∧ leExpiresAt lease = (at_ + ttl * SECOND)%Z ∧
       runRows (mDb m1) !! hdRun h = Some r ∧ holdsLease s (runLeaseOf h) at_ r = true ∧ botOf (hdRun h) = hdBot h) ∧
  (∀ r, runRows (mDb m) !! hdRun h = Some r → lost (runLeaseOf h) r →
     a = Some acq_run_lost ∧
     ∀ now' m2 a' m3, rtc machineStep m' m2 → runs (λ _ _, False) (holdComputerLease botOf s h ttl) now' m2 a' m3 →
       a' = Some acq_run_lost ∧ m3 = m2).
Proof.
  intros Hr. split.
  - intros lease ->. destruct (held_was_ok _ _ _ _ _ _ _ _ Hr) as (at_ & m1 & _ & H1 & Hok & H2 & ->). split; [done|].
    unfold runOk in Hok. destruct (runRows (mDb m1) !! hdRun h) as [r|] eqn:E; [|done]. bools. exists at_, m1, r. by split_and!.
  - intros r Hrow Hl. destruct (lost_holds_nothing _ _ _ _ _ _ _ _ Hrow Hl Hr) as [-> Hs]. split; [done|].
    intros now' m2 a' m3 H2 Hr'. assert (rtc machineStep m m2) as H02 by (by etrans). destruct (lost_later _ _ _ _ Hrow Hl H02) as (r2 & Hr2 & Hl2).
    unfold holdComputerLease in Hr'. cbn [holdAttempts holdOnce andThen runs] in Hr'. destruct Hr' as (n1 & m4 & _ & H4 & Hr').
    assert (m4 = m2) as -> by (destruct H4; [done|contradiction]). unfold holdSnapshot in Hr'. cbn [fst snd] in Hr'.
    rewrite (lost_not_ok s h n1 m2 r2 Hr2 Hl2) in Hr'. cbn in Hr'. by destruct Hr' as [-> ->].
Qed.
End hold.

(** ** The sweep *)

Definition expiredLeases (now : Z) (m : Machines) : gmap jstr LeaseRow :=
  filter (λ kv : jstr * LeaseRow, (clExpiresAt kv.2 <= now)%Z) (mLeases m).

(** The rows of one pass. *)
Definition sweepBatch (limit : nat) (now : Z) (m : Machines) : list (jstr * LeaseRow) :=
  (findExpiredComputerLeases limit now m).1.

Lemma sweepBatch_sub limit now m bot l :
  (bot, l) ∈ sweepBatch limit now m → mLeases m !! bot = Some l ∧ (clExpiresAt l ≤ now)%Z.
Proof.
  unfold sweepBatch, findExpiredComputerLeases. cbn [fst]. intros Hin%(subseteq_take _ _).
  rewrite orderBy_perm, elem_of_map_to_list, map_lookup_filter_Some in Hin. done.
Qed.

Lemma sweepBatch_keys limit now m : NoDup (sweepBatch limit now m).*1.
Proof.
  unfold sweepBatch, findExpiredComputerLeases. cbn [fst]. rewrite fmap_take.
  apply (sublist_NoDup _ ((orderBy (λ a b : jstr * LeaseRow, (clExpiresAt a.2 <=? clExpiresAt b.2)%Z) (map_to_list (expiredLeases now m))).*1)).
  - rewrite orderBy_perm. apply NoDup_fst_map_to_list.
  - apply sublist_take.
Qed.

Lemma releaseEach_alone batch released now m :
  NoDup batch.*1 → (∀ bot l, (bot, l) ∈ batch → mLeases m !! bot = Some l) →
  let '(n, m') := runAlone (releaseEach batch released) now m in
  n = released + length batch ∧ mDb m' = mDb m ∧
  ∀ bot, mLeases m' !! bot = if decide (bot ∈ batch.*1) then None else mLeases m !! bot.
Proof.
  revert released m. induction batch as [|[bot l] batch IH]; intros released m Hnd Hin; cbn [releaseEach runAlone].
  { split_and!; [cbn; lia|done|]. intros b. by rewrite decide_False by apply not_elem_of_nil. }
  apply NoDup_cons in Hnd as [Hnew Hnd]. unfold releaseComputerLease at 1. cbn [bindingOf hdBot].
  rewrite (Hin bot l) by by left. rewrite (bool_decide_true (clSpace l = clSpace l)) by done.
  rewrite (proj2 (binds_spec (bindingOf bot l) l)) by done. cbn [andb].
  specialize (IH (S released) (withLeases m (delete bot (mLeases m))) Hnd).
  destruct (runAlone _ _ _) as [n m']. destruct IH as (-> & Hdb & Hm).
  { intros b l' Hb. cbn [withLeases mLeases]. rewrite lookup_delete_ne; [apply Hin; by right|]. intros ->. apply Hnew.
    apply list_elem_of_fmap. by exists (b, l'). }
  split_and!; [cbn; lia|done|]. intros b. rewrite Hm. cbn [withLeases mLeases fmap list_fmap fst].
  destruct (decide (b ∈ batch.*1)) as [Hb|Hb].
  - rewrite decide_True by (by right). done.
  - destruct (decide (b = bot)) as [->|Hne]; [rewrite decide_True by (by left); apply lookup_delete_eq|].
    rewrite decide_False by (by intros [|]%elem_of_cons). by apply lookup_delete_ne.
Qed.

(** C23. The watchdog frees the machines of the dead.  A pass run alone, no other statement
    running between its scan and its last release, clears as many rows as
    are over, up to its batch, the oldest expiry first, and nothing else: every lease whose
    time is not over is kept, and what is left over when the batch is full is no older than
    what was cleared. *)
Theorem watchdog_frees_machines limit now m :
  let '(released, m') := runAlone (releaseStaleComputers limit) now m in
  released = limit `min` size (expiredLeases now m) ∧ mDb m' = mDb m ∧
  (∀ bot l, mLeases m !! bot = Some l → (now < clExpiresAt l)%Z → mLeases m' !! bot = Some l) ∧
  (∀ bot l, mLeases m' !! bot = Some l → mLeases m !! bot = Some l) ∧
  (size (expiredLeases now m) ≤ limit → ∀ bot l, mLeases m' !! bot = Some l → (now < clExpiresAt l)%Z) ∧
  (∀ bot l bot' l', mLeases m !! bot = Some l → mLeases m' !! bot = None → mLeases m' !! bot' = Some l' →
     (clExpiresAt l' ≤ now)%Z → (clExpiresAt l ≤ clExpiresAt l')%Z).
Proof.
  change (runAlone (releaseStaleComputers limit) now m) with (runAlone (releaseEach (sweepBatch limit now m) 0) now m).
  pose proof (releaseEach_alone (sweepBatch limit now m) 0 now m (sweepBatch_keys _ _ _)
    (λ bot l H, proj1 (sweepBatch_sub _ _ _ _ _ H))) as Hr.
  destruct (runAlone _ now m) as [released m']. destruct Hr as (-> & Hdb & Hm).
  set (sorted := orderBy (λ a b : jstr * LeaseRow, (clExpiresAt a.2 <=? clExpiresAt b.2)%Z) (map_to_list (expiredLeases now m))).
  assert (Hbatch : sweepBatch limit now m = take limit sorted) by done.
  assert (Hin : ∀ bot l, (bot, l) ∈ sorted ↔ mLeases m !! bot = Some l ∧ (clExpiresAt l ≤ now)%Z).
  { intros bot l. unfold sorted. rewrite orderBy_perm, elem_of_map_to_list. unfold expiredLeases. by rewrite map_lookup_filter_Some. }
  assert (Hsize : length sorted = size (expiredLeases now m)) by (unfold sorted; by rewrite orderBy_perm, length_map_to_list).
  assert (Hswept : ∀ bot, bot ∈ (sweepBatch limit now m).*1 ↔ ∃ l, (bot, l) ∈ take limit sorted).
  { intros bot. rewrite Hbatch, list_elem_of_fmap. split; [by intros ([b l] & -> & Hb); exists l|]. intros [l Hl]. by exists (bot, l). }
  split_and!; [rewrite Hbatch, length_take; lia|done|..].
  - intros bot l Hl Hlive. rewrite Hm, decide_False; [done|]. intros [l' Hl'%(subseteq_take _ _)%Hin]%Hswept.
    destruct Hl' as [Hl' ?]. rewrite Hl in Hl'. injection Hl' as <-. lia.
  - intros bot l. rewrite Hm. by case_decide.
  - intros Hlim bot l. rewrite Hm. case_decide as Hs; [done|]. intros Hl. destruct (decide (clExpiresAt l ≤ now)%Z); [|lia].
    destruct Hs. apply Hswept. exists l. rewrite take_ge by lia. by apply Hin.
  - intros bot l bot' l' Hl. rewrite !Hm. case_decide as Hs; [|by rewrite Hl]. intros _. case_decide as Hs'; [done|].
    intros Hl' Hx. apply Hswept in Hs as [l1 Hb]. pose proof (proj1 (Hin _ _) (subseteq_take _ _ _ Hb)) as [Hl1 _].
    rewrite Hl in Hl1. injection Hl1 as <-. assert ((bot', l') ∈ drop limit sorted) as Hd.
    { pose proof (proj2 (Hin bot' l') (conj Hl' Hx)) as Hi. rewrite <- (take_drop limit sorted) in Hi.
      apply elem_of_app in Hi as [Hi|Hi]; [|done]. destruct Hs'. apply Hswept. by exists l'. }
    pose proof (orderBy_sorted (λ kv : jstr * LeaseRow, clExpiresAt kv.2) (map_to_list (expiredLeases now m))) as Hsort.
    change (StronglySorted Z.le ((λ kv : jstr * LeaseRow, clExpiresAt kv.2) <$> sorted)) in Hsort.
    rewrite <- (take_drop limit sorted), fmap_app in Hsort.
    eapply StronglySorted_app_1_elem_of; [exact Hsort|..]; apply list_elem_of_fmap; by eexists (_, _).
Qed.

(** ** Two runs of one bot *)

Local Open Scope Z_scope.

Definition sampleBot (runId : jstr) : jstr := u "bot".
Definition r2 : jstr := u "r2".

(** Both claimed at the start; the first heartbeats at a minute. *)
Definition twoClaimed : Database :=
  (claimRun (u "space") r2 0 (u "b") 0 (insertRun (u "space") (u "thread") r2 0 claimed).2).2.

Definition machines : Machines := {| mDb := twoClaimed; mLeases := ∅ |}.
Definition holder1 : ComputerLeaseHolder := {| hdBot := u "bot"; hdRun := r1; hdOwner := u "a"; hdFence := 1 |}.
Definition holder2 : ComputerLeaseHolder := {| hdBot := u "bot"; hdRun := r2; hdOwner := u "b"; hdFence := 1 |}.

Definition seconds (n : Z) : Z := n * SECOND.

Definition holdAt (h : ComputerLeaseHolder) (now : Z) (m : Machines) : option ComputerLeaseAcquisition * Machines :=
  runAlone (holdComputerLease sampleBot (u "space") h COMPUTER_LEASE_TTL_SECONDS) now m.

Example busy_then_taken :
  let m1 := (holdAt holder1 0 machines).2 in
  (holdAt holder2 (seconds 60) m1).1 = Some (acq_busy (120 * 1000)) ∧
  (holdAt holder1 (seconds 60) m1).1 = Some (acq_held {| leHolder := holder1; leExpiresAt := seconds 180 |}) ∧
  (holdAt holder2 (seconds 120) m1).1 = Some acq_run_lost.
Proof. by vm_compute. Qed.

Definition beat (h : ComputerLeaseHolder) (now : Z) (m : Machines) : Machines :=
  (onDatabase (heartbeatRun (u "space") (hdRun h) (runLeaseOf h)
     {| psProgressed := false; psIdleSeconds := 0; psStep := None |}) now m).2.

(** The release names the binding and not the expiry: a holder that renews between the
    watchdog's scan and its release loses the machine it was just granted, and another
    run is granted it while that grant had two minutes left. *)
Example renewed_lease_swept :
  let m1 := beat holder2 (seconds 100) (beat holder1 (seconds 100) (holdAt holder1 0 machines).2) in
  let batch := sweepBatch COMPUTER_WATCHDOG_BATCH_LIMIT (seconds 121) m1 in
  let '(renewed, m2) := holdAt holder1 (seconds 121) m1 in
  let m3 := (runAlone (releaseEach batch 0%nat) (seconds 122) m2).2 in
  renewed = Some (acq_held {| leHolder := holder1; leExpiresAt := seconds 241 |}) ∧
  (holdAt holder2 (seconds 123) m3).1 = Some (acq_held {| leHolder := holder2; leExpiresAt := seconds 243 |}).
Proof. by vm_compute. Qed.

(** Two misses in a row need no writer to change the row twice inside one statement: one
    other run that holds, releases and holds again makes a live run's hold throw. *)
Example hold_unclassified :
  runs machineStep (holdComputerLease sampleBot (u "space") holder1 COMPUTER_LEASE_TTL_SECONDS) 0 machines None
    (upsertLease (u "space") holder2 0 120 0 machines).2.
Proof.
  set (taken := (upsertLease (u "space") holder2 0 120 0 machines).2).
  assert (rtc machineStep machines taken) as Htake by apply rtc_once, machine_upsert.
  assert (rtc machineStep taken machines) as Hfree.
  { apply rtc_once. replace machines with (releaseComputerLease (u "space") holder2 0 taken).2 by by vm_compute. apply machine_release. }
  unfold holdComputerLease. cbn [holdAttempts holdOnce andThen runs].
  exists 0%Z, machines. split_and!; [done..|]. change (holdSnapshot sampleBot (u "space") holder1 0 machines) with (0%Z, true, @None Z, machines).
  cbn [fst snd andThen runs]. exists 0%Z, taken. split_and!; [done..|].
  replace (upsertLease (u "space") holder1 0 COMPUTER_LEASE_TTL_SECONDS 0 taken) with (@None ComputerLease, taken) by by vm_compute.
  cbn [fst snd andThen held runHeld negb currentExpiresAt runs]. exists 0%Z, machines. split_and!; [done..|].
  change (holdSnapshot sampleBot (u "space") holder1 0 machines) with (0%Z, true, @None Z, machines).
  cbn [fst snd andThen runs]. exists 0%Z, taken. split_and!; [done..|].
  by replace (upsertLease (u "space") holder1 0 COMPUTER_LEASE_TTL_SECONDS 0 taken) with (@None ComputerLease, taken) by by vm_compute.
Qed.

(** ** Witnesses *)

Definition sampleMoves : list LeaseMove :=
  [move_upsert (u "space") holder1 0 120; move_upsert (u "space") holder2 (seconds 60) 120;
   move_upsert (u "space") holder2 (seconds 120) 120].

Lemma machine_has_one_holder_witness :
  (doMoves sampleMoves machines).2 = [Granted holder1 0 (seconds 120); Granted holder2 (seconds 120) (seconds 240)] ∧
  seconds 120 ≤ seconds 120.
Proof.
  assert ((doMoves sampleMoves machines).2 = [Granted holder1 0 (seconds 120); Granted holder2 (seconds 120) (seconds 240)])
    as Hh by (vm_compute; reflexivity).
  split; [exact Hh|]. destruct (doMoves sampleMoves machines) as [m hist] eqn:E. cbn [snd] in Hh. subst hist.
  refine (proj2 (machine_has_one_holder twoClaimed sampleMoves m _ E) 0%nat 1%nat holder1 holder2 0 (seconds 120)
    (seconds 120) (seconds 240) eq_refl eq_refl _ eq_refl _ _ _).
  - lia.
  - intros [=].
  - intros k x Hk Hk'. lia.
  - intros [|k] x a f Hk; [|lia]. intros [= _ <- _] _. vm_compute. discriminate.
Defined.

Lemma hold_fenced_by_run_witness :
  (∃ at_ m1 r, runRows (mDb m1) !! r1 = Some r ∧ holdsLease (u "space") (runLeaseOf holder1) at_ r = true) ∧
  (∀ r, runRows (mDb machines) !! r1 = Some r →
     lost {| rlOwner := u "z"; rlFence := 1 |} r).
Proof.
  split.
  - pose proof (runAlone_runs machineStep (holdComputerLease sampleBot (u "space") holder1 COMPUTER_LEASE_TTL_SECONDS) 0 machines) as Hr.
    destruct (proj1 (hold_fenced_by_run _ _ _ _ _ _ _ _ Hr) {| leHolder := holder1; leExpiresAt := seconds 120 |})
      as (_ & at_ & m1 & r & _ & _ & _ & Hrow & Hh & _); [vm_compute; reflexivity|].
    exists at_, m1, r. split; [exact Hrow|exact Hh].
  - intros r. vm_compute. intros [= <-]. right. left. split; [reflexivity|]. vm_compute. discriminate.
Defined.

(** A sweep at the end of a grant frees the machine, one a moment before keeps it. *)
Lemma watchdog_frees_machines_witness :
  let m := (holdAt holder1 0 machines).2 in
  (runAlone (releaseStaleComputers COMPUTER_WATCHDOG_BATCH_LIMIT) (seconds 120) m).1 = 1%nat ∧
  (∀ bot l, mLeases (runAlone (releaseStaleComputers COMPUTER_WATCHDOG_BATCH_LIMIT) (seconds 120) m).2 !! bot = Some l →
     seconds 120 < clExpiresAt l) ∧
  (∀ l, mLeases m !! hdBot holder1 = Some l →
     mLeases (runAlone (releaseStaleComputers COMPUTER_WATCHDOG_BATCH_LIMIT) (seconds 119) m).2 !! hdBot holder1 = Some l).
Proof.
  cbv zeta. set (m := (holdAt holder1 0 machines).2).
  pose proof (watchdog_frees_machines COMPUTER_WATCHDOG_BATCH_LIMIT (seconds 120) m) as H1.
  pose proof (watchdog_frees_machines COMPUTER_WATCHDOG_BATCH_LIMIT (seconds 119) m) as H2.
  destruct (runAlone _ (seconds 120) m) as [n1 m1], (runAlone _ (seconds 119) m) as [n2 m2]. cbn [fst snd].
  assert (size (expiredLeases (seconds 120) m) = 1%nat) as Hs by (vm_compute; reflexivity).
  destruct H1 as (-> & _ & _ & _ & Hover & _). rewrite Hs in *. split; [vm_compute; reflexivity|]. split.
  - apply Hover. vm_compute. lia.
  - intros l Hl. apply (proj1 (proj2 (proj2 H2))); [exact Hl|]. revert Hl. vm_compute. intros [= <-]. reflexivity.
Defined.
