(* ===== verification/ComputerCommands.v ===== *)
(** The commands of a run on its bot's computer: packages/effect/src/computer-commands.ts,
    on the ledger of tool calls and the computer lease, and the budget of the tools of
    packages/effect/src/computer-tools.ts that use it.  The provider, which serves a
    machine and not a run, is a parameter. *)

From stdpp Require Import pretty.
From S2P Require Import Prelude JsText JsValue Json RunState Approvals RunLiveness Statements.
From S2P Require Import RunTables RunLeases ToolCallLedger ApprovalStore RunInterleaving RunFencing RunOnce Threads.
From S2P Require Import ToolDispatcher ToolExecution ComputerLeases.

(** ** The lease above the tables of a command *)

(** The machines, with a log of the commands handed to the provider, by run and key. *)
Abbreviation CommandWorld := (logged Machines callKey).

Fixpoint onDatabaseProgram {A} (p : program Database A) : program Machines A :=
  match p with
  | Done a => Done a
  | Query stmt k => Query (onDatabase stmt) (λ x, onDatabaseProgram (k x))
  end.

Definition onLedger {A} (p : program Database A) : program CommandWorld A := onRealProgram (onDatabaseProgram p).

(** What [exec] throws is a lost lease, or a value with the message it has as an [Error]. *)
Record Thrown := { thValue : jsval; thMessage : option jstr }.

Inductive ProviderExit :=
| provider_returned (value : jsval)
| provider_lease_lost (runId : jstr)
| provider_threw (thrown : Thrown)
| provider_interrupted.

Inductive CommandError :=
| cmd_ledger (operation : ledgerOperation)
| cmd_failed (message : jstr)
| cmd_conflict (runId callId : jstr) (reason : conflictReason)
| cmd_lease_lost (runId : jstr)
| cmd_lease_held (retryAfterSeconds : Z)
| cmd_threw (thrown : Thrown).

Record ComputerCommandRequest := {
  cqComputer : jsval; cqRunId : jstr; cqCallId : jstr; cqTool : jstr; cqCommand : jstr; cqTimeoutMs : Z }.

Definition commandFailed : jstr := u "the computer command failed".

Definition leaseLostMessage (runId : jstr) : jstr := u "the lease on run " ++ runId ++ u " was lost to another worker".

Definition leaseHeldDetail (retryAfterSeconds : Z) : jstr :=
  u "another run holds this computer for up to " ++ u (pretty retryAfterSeconds) ++ u "s".

Definition orMessage (message : option jstr) : jstr :=
  match message with Some m => if isBlank m then commandFailed else m | None => commandFailed end.

Definition thrownMessage (t : Thrown) : jstr :=
  match thValue t with
  | JObject fields =>
      match getField (u "detail") fields with
      | JString detail => if isBlank detail then orMessage (thMessage t) else detail
      | _ => orMessage (thMessage t)
      end
  | _ => orMessage (thMessage t)
  end.

(** [failureMessage] of the errors a hold fails with. *)
Definition holdFailureMessage (e : CommandError) : jstr :=
  match e with
  | cmd_lease_lost runId => leaseLostMessage runId
  | cmd_lease_held retryAfter => leaseHeldDetail retryAfter
  | cmd_threw t => thrownMessage t
  | cmd_failed message => orMessage (Some message)
  | cmd_ledger _ | cmd_conflict _ _ _ => commandFailed
  end.

(** ** The lease's time *)

Inductive ComputerLeaseTtlError := ttl_run_not_positive | ttl_computer_not_positive | ttl_computer_exceeds_run.

Definition assertLeaseTtls (runLeaseTtlSeconds computerLeaseTtlSeconds : jsnum) : result ComputerLeaseTtlError Z :=
  match isPositiveSafe runLeaseTtlSeconds with
  | None => Err ttl_run_not_positive
  | Some runTtl =>
      match isPositiveSafe computerLeaseTtlSeconds with
      | None => Err ttl_computer_not_positive
      | Some ttl => if (runTtl <? ttl)%Z then Err ttl_computer_exceeds_run else Ok ttl
      end
  end.

(** ** One command *)

Section commands.
Context (sha256Hex : jstr → jstr) (hostClock : Z → Z) (botOf : jstr → jstr).
Context (provider : ComputerCommandRequest → program Machines ProviderExit).
Context (spaceId : jstr) (lease : ComputerLeaseHolder) (ttl : Z).

Definition commandKey (callId : jstr) : jstr :=
  u "computer-command:" ++ sha256Hex (u "computer-command" ++ [0%N] ++ callId).

Definition commandCall (request : ComputerCommandRequest) : ToolCall := {|
  callRunId := cqRunId request; callId := commandKey (cqCallId request); callTool := u "computer.command";
  callArguments := JObject [(u "tool", JString (cqTool request)); (u "command", JString (cqCommand request))] |}.

(** [ledgerCall]: whatever the ledger throws is its own failure. *)
Definition commandLedger {A} (operation : ledgerOperation) (p : program CommandWorld (result StoreError A)) :
    program CommandWorld (exit CommandError A) :=
  andThen p (λ r, Done match r with Ok a => Success a | Err _ => Failure (cmd_ledger operation) end).

Inductive holdPhase := before_command | after_command.

(** [hold]: the failure of a hold, or none. *)
Definition hold (phase : holdPhase) : program CommandWorld (option CommandError) :=
  andThen (onRealProgram (holdComputerLease botOf spaceId lease ttl)) (λ acquisition,
  match acquisition, phase with
  | Some (acq_held _), _ => Done None
  | Some (acq_busy expiresAt), before_command =>
      Query (λ now w, (hostClock now, w)) (λ now,
        Done (Some (cmd_lease_held (Z.max 1 (- ((now - expiresAt) / 1000))))))
  | Some (acq_busy _), after_command | Some acq_run_lost, _ | None, _ => Done (Some (cmd_lease_lost (hdRun lease)))
  end).

Definition settleFailure (call : ToolCall) (message : jstr) : program CommandWorld bool :=
  andThen (onLedger (fail spaceId call message)) (λ r,
    Done match r with Ok (FailedWith _) => true | _ => false end).

(** The commit gate. *)
Definition commit (call : ToolCall) (value : jsval) : program CommandWorld (exit CommandError jsval) :=
  andThen (hold after_command) (λ refused,
  match refused with
  | Some e => Done (Failure e)
  | None =>
      andThen (commandLedger op_complete (onLedger (complete spaceId call value))) (λ recorded,
        Done match recorded with
             | Success (CompletedWith _) => Success value
             | Success (FailedWith _) => Failure (cmd_ledger op_complete)
             | Failure e => Failure e
             | Interrupted => Interrupted
             end)
  end).

(** Past the provider. *)
Definition afterProvider (request : ComputerCommandRequest) (call : ToolCall) (ended : ProviderExit) :
    program CommandWorld (exit CommandError jsval) :=
  match ended with
  | provider_interrupted => Done Interrupted
  | provider_lease_lost runId => Done (Failure (cmd_lease_lost runId))
  | provider_threw thrown =>
      andThen (settleFailure call (thrownMessage thrown)) (λ settled : bool,
        Done (Failure (if settled then cmd_threw thrown else cmd_lease_lost (cqRunId request))))
  | provider_returned value => commit call value
  end.

(** Past a started admission. *)
Definition command (request : ComputerCommandRequest) (call : ToolCall) : program CommandWorld (exit CommandError jsval) :=
  andThen (hold before_command) (λ refused,
  match refused with
  | Some e => andThen (settleFailure call (holdFailureMessage e)) (λ _, Done (Failure e))
  | None =>
      Query (enter (callKeyOf call)) (λ _,
        andThen (onRealProgram (provider request)) (λ ended, afterProvider request call ended))
  end).

Definition ledgerBegins (call : ToolCall) : program CommandWorld (result StoreError ToolCallAdmission) :=
  match begin spaceId call with Some p => onLedger p | None => Done (Err DatabaseFailure) end.

Definition exec (request : ComputerCommandRequest) : program CommandWorld (exit CommandError jsval) :=
  let call := commandCall request in
  andThen (commandLedger op_begin (ledgerBegins call)) (λ admission,
  match admission with
  | Failure e => Done (Failure e)
  | Interrupted => Done Interrupted
  | Success (AlreadyCompleted value) => Done (Success (default JNull value))
  | Success (AlreadyFailed message) => Done (Failure (cmd_failed message))
  | Success StillInFlight => Done (Failure (cmd_conflict (cqRunId request) (cqCallId request) conflict_in_flight))
  | Success CallIdReused => Done (Failure (cmd_conflict (cqRunId request) (cqCallId request) conflict_call_id_reused))
  | Success Started => command request call
  end).
End commands.

(** [createFencedComputerCommands]: the runner, or why it is not built. *)
Definition createFencedComputerCommands (sha256Hex : jstr → jstr) (hostClock : Z → Z) (botOf : jstr → jstr)
    (provider : ComputerCommandRequest → program Machines ProviderExit) (spaceId : jstr) (lease : ComputerLeaseHolder)
    (runLeaseTtlSeconds computerLeaseTtlSeconds : jsnum) :
    result ComputerLeaseTtlError (ComputerCommandRequest → program CommandWorld (exit CommandError jsval)) :=
  ttl ← assertLeaseTtls runLeaseTtlSeconds computerLeaseTtlSeconds;
  Ok (exec sha256Hex hostClock botOf provider spaceId lease ttl).

(** ** The ledger on the machines *)

Definition commandClaimed (m : Machines) (key : callKey) : Prop := claimedCall (mDb m) key.

Lemma commandClaimed_kept m m' key : machineStep m m' → commandClaimed m key → commandClaimed m' key.
Proof.
  intros Hs. pose proof (machineSteps_db _ _ (rtc_once _ _ Hs)) as Hdb. unfold commandClaimed. induction Hdb as [|x y z Hxy _ IH]; [done|].
  intros Hx. by eapply IH, claimedCall_kept.
Qed.

Lemma machineSteps_lift db db' leases :
  rtc dbStep db db' → rtc machineStep {| mDb := db; mLeases := leases |} {| mDb := db'; mLeases := leases |}.
Proof.
  induction 1 as [|x y z Hxy _ IH]; [done|]. eapply rtc_l; [|exact IH]. by apply (machine_db {| mDb := x; mLeases := leases |}).
Qed.

(** The tables a world of commands runs its ledger on. *)
Definition tablesOf (w : CommandWorld) : World := {| real := mDb (real w); entries := entries w |}.

Lemma onLedger_statement {X} (stmt : statement Database X) now (w : CommandWorld) :
  (onReal (onDatabase stmt) now w).1 = (onReal stmt now (tablesOf w)).1 ∧
  tablesOf (onReal (onDatabase stmt) now w).2 = (onReal stmt now (tablesOf w)).2 ∧
  mLeases (real (onReal (onDatabase stmt) now w).2) = mLeases (real w).
Proof. unfold onReal, onDatabase, tablesOf. cbn. by destruct (stmt now (mDb (real w))). Qed.

Lemma tablesOf_steps (w w' : CommandWorld) :
  rtc dbStep (real (tablesOf w)) (real (tablesOf w')) → mLeases (real w') = mLeases (real w) →
  rtc machineStep (real w) (real w').
Proof.
  destruct w as [[db leases] es], w' as [[db' leases'] es']. cbn. intros Hs ->. by apply machineSteps_lift.
Qed.

Lemma tokenMove_lift key h h' (w w' : CommandWorld) :
  tokenMove dbStep claimedCall key h (tablesOf w) (tablesOf w') h' → mLeases (real w') = mLeases (real w) →
  tokenMove machineStep commandClaimed key h w w' h'.
Proof.
  intros Hm Hl. inversion Hm as [h0 w0 w1 Hs He|w0 w1 Hs Hn Ht He|w0 w1 Hs He]; subst;
    pose proof (tablesOf_steps _ _ Hs Hl) as Hs'; [by apply move_quiet|by apply move_take|by apply move_enter].
Qed.

Lemma disciplined_onLedger {A} key h (p : program Database A) Q :
  disciplined dbStep claimedCall key h (onRealProgram p) Q → disciplined machineStep commandClaimed key h (onLedger p) Q.
Proof.
  revert h. induction p as [a|X stmt k IH]; intros h Hp; [done|]. cbn [onLedger onDatabaseProgram onRealProgram disciplined] in *.
  intros now w. destruct (onLedger_statement stmt now w) as (H1 & H2 & H3). destruct (Hp now (tablesOf w)) as (h' & Hm & Hk).
  exists h'. split; [apply tokenMove_lift; [by rewrite H2|done]|]. rewrite H1. apply IH. exact Hk.
Qed.

Lemma issues_onDatabase {A} (p : program Database A) :
  issues (isStep dbStep) p → issues (isStep machineStep) (onDatabaseProgram p).
Proof.
  induction p as [a|X stmt k IH]; [done|]. cbn [issues onDatabaseProgram]. intros [Hs Hk]. split; [|intros x; by apply IH].
  intros now [db leases]. specialize (Hs now db). unfold onDatabase. cbn [mDb mLeases]. destruct (stmt now db) as [x db']. by apply machineSteps_lift.
Qed.

Lemma onLedger_quiet {A} (p : program Database A) :
  issues (isStep dbStep) p → issues (quiet machineStep) (onLedger p).
Proof. intros Hp. by apply onRealProgram_quiet, issues_onDatabase. Qed.

(** ** Entering the provider once *)

Section discipline.
Context (sha256Hex : jstr → jstr) (hostClock : Z → Z) (botOf : jstr → jstr).
Context (provider : ComputerCommandRequest → program Machines ProviderExit)
  (provider_steps : ∀ request, issues (isStep machineStep) (provider request)).
Context (spaceId : jstr) (lease : ComputerLeaseHolder) (ttl : Z).

Lemma commandLedger_issues {A} op (p : program CommandWorld (result StoreError A)) :
  issues (quiet machineStep) p → issues (quiet machineStep) (commandLedger op p).
Proof. intros Hp. by apply issues_andThen. Qed.

Lemma hold_quiet phase : issues (quiet machineStep) (hold hostClock botOf spaceId lease ttl phase).
Proof.
  apply issues_andThen; [apply onRealProgram_quiet, holdComputerLease_issues|].
  intros [[l|expiresAt|]|]; [done| |done..]. destruct phase; [|done]. cbn [issues]. split; [|done]. by intros now w.
Qed.

Lemma settleFailure_quiet call message : issues (quiet machineStep) (settleFailure spaceId call message).
Proof.
  apply issues_andThen; [|done]. apply onLedger_quiet. by apply (settlement_issues spaceId call JNull).
Qed.

Lemma afterProvider_quiet request call ended :
  issues (quiet machineStep) (afterProvider hostClock botOf spaceId lease ttl request call ended).
Proof.
  destruct ended as [value|runId|thrown|]; cbn [afterProvider]; [|done| |done].
  - apply issues_andThen; [apply hold_quiet|]. intros [e|]; [done|]. apply issues_andThen; [|by intros [[]|e|]].
    by apply commandLedger_issues, onLedger_quiet, settlement_issues.
  - apply issues_andThen; [apply settleFailure_quiet|]. done.
Qed.

Lemma ledgerBegins_takes call :
  disciplined machineStep commandClaimed (callKeyOf call) false (ledgerBegins spaceId call) (λ h a, a = Ok Started → h = true).
Proof.
  pose proof (begin_takes (LedgerOnce := createExternalEffectLedger_once spaceId) call) as Hb.
  unfold ledgerBegins. cbn [ledgerBegin createExternalEffectLedger] in Hb. destruct (begin spaceId call); [|done].
  by apply disciplined_onLedger.
Qed.

Lemma exec_disciplined request :
  disciplined machineStep commandClaimed (callKeyOf (commandCall sha256Hex request)) false
    (exec sha256Hex hostClock botOf provider spaceId lease ttl request) (λ _ _, True).
Proof using provider_steps.
  unfold exec. set (call := commandCall sha256Hex request). apply disciplined_andThen. unfold commandLedger. apply disciplined_andThen.
  eapply disciplined_mono; [apply ledgerBegins_takes|]. intros h r Hh. cbn [disciplined].
  destruct r as [[]|]; try done. rewrite (Hh eq_refl). clear h Hh. unfold command.
  apply disciplined_andThen. eapply disciplined_mono; [apply quiet_disciplined, hold_quiet|]. intros h [e|] ->.
  - apply disciplined_andThen. eapply disciplined_mono; [apply quiet_disciplined, settleFailure_quiet|]. done.
  - cbn [disciplined]. intros now w. exists false. split; [by apply move_enter|]. apply disciplined_andThen.
    eapply disciplined_mono; [by apply quiet_disciplined, onRealProgram_quiet|]. intros h ended ->.
    eapply disciplined_mono; [apply quiet_disciplined, afterProvider_quiet|]. done.
Qed.
End discipline.

(** The threads that run a command, each of its own worker and run. *)
Definition runsCommand (sha256Hex : jstr → jstr) (botOf : jstr → jstr) (key : callKey)
    (p : program CommandWorld (exit CommandError jsval)) : Prop :=
  ∃ hostClock provider spaceId lease ttl request,
    (∀ request, issues (isStep machineStep) (provider request)) ∧ key = callKeyOf (commandCall sha256Hex request) ∧
    p = exec sha256Hex hostClock botOf provider spaceId lease ttl request.

(** C7. A command runs once.  However many workers run, crash and start again on whatever
    commands, interleaved with every statement on the runs, the ledger and the computer
    leases, no command of a run is handed to the provider twice, and none is handed over
    before its claim is in the ledger. *)
Theorem commands_run_once sha256Hex botOf m ps w :
  rtc (poolStep machineStep (runsCommand sha256Hex botOf)) ([], {| real := m; entries := [] |}) (ps, w) →
  NoDup (entries w) ∧ ∀ key, key ∈ entries w → is_Some (effectRows (mDb (real w)) !! key).
Proof.
  intros Hs. eapply (pool_enters_once machineStep commandClaimed commandClaimed_kept (runsCommand sha256Hex botOf)); [|exact Hs].
  clear Hs. intros key p (hostClock & provider & spaceId & lease & ttl & request & Hp & -> & ->). by apply exec_disciplined.
Qed.

(** ** What a command commits *)

Lemma runs_onDatabase {A} (p : program Database A) now m a m' :
  runs machineStep (onDatabaseProgram p) now m a m' → runs dbStep p now (mDb m) a (mDb m').
Proof.
  revert now m. induction p as [a'|X stmt k IH]; intros now m; cbn [onDatabaseProgram runs]; [by intros [-> ->]|].
  intros (n1 & m1 & Hn & Hs & Hr). exists n1, (mDb m1). split_and!; [done|by apply machineSteps_db|].
  unfold onDatabase in Hr. destruct (stmt n1 (mDb m1)) as [x db]. by apply IH in Hr.
Qed.

Lemma others_logged (w w' : CommandWorld) : othersStep machineStep w w' → loggedStep machineStep w w'.
Proof. by intros [? _]. Qed.

Lemma quiet_runs {A} (p : program CommandWorld A) now w a w' :
  issues (quiet machineStep) p → runs (othersStep machineStep) p now w a w' →
  entries w' = entries w ∧ rtc machineStep (real w) (real w').
Proof.
  revert now w. induction p as [a'|X stmt k IH]; intros now w; cbn [issues runs]; [by intros _ [-> ->]|].
  intros [Hs Hk] (n1 & w1 & _ & H1 & Hr). apply IH in Hr as [He Hr]; [|done]. destruct (Hs n1 w1) as [H2 H3]. split.
  - rewrite He, H3. by eapply othersSteps_entries.
  - etrans; [|etrans; [exact H2|exact Hr]]. apply loggedSteps_real. clear - H1.
    induction H1 as [|x y z Hxy _ IH]; [done|]. eapply rtc_l; [by apply others_logged|done].
Qed.

Lemma onLedger_runs {A} (p : program Database A) now w a w' :
  runs (othersStep machineStep) (onLedger p) now w a w' → runs dbStep p now (mDb (real w)) a (mDb (real w')).
Proof. intros Hr. apply runs_onDatabase, runs_onReal. eapply runs_weaken; [|exact Hr]. apply others_logged. Qed.

Section commits.
Context (sha256Hex : jstr → jstr) (hostClock : Z → Z) (botOf : jstr → jstr).
Context (provider : ComputerCommandRequest → program Machines ProviderExit)
  (provider_steps : ∀ request, issues (isStep machineStep) (provider request)).
Context (spaceId : jstr) (lease : ComputerLeaseHolder) (ttl : Z).

(** The run of the lease holds it, in a state on the way. *)
Definition heldBetween (m m' : Machines) : Prop :=
  ∃ at_ m1 r, rtc machineStep m m1 ∧ rtc machineStep m1 m' ∧ runRows (mDb m1) !! hdRun lease = Some r ∧
    holdsLease spaceId (runLeaseOf lease) at_ r = true.

Lemma hold_runs phase now w w' :
  runs (othersStep machineStep) (hold hostClock botOf spaceId lease ttl phase) now w None w' →
  heldBetween (real w) (real w').
Proof.
  intros (acq & n1 & w1 & _ & Hh & Hk)%runs_andThen.
  assert (runs machineStep (holdComputerLease botOf spaceId lease ttl) now (real w) acq (real w1)) as Hr.
  { apply runs_onReal. eapply runs_weaken; [|exact Hh]. apply others_logged. }
  destruct acq as [[l|expiresAt|]|]; cbn [runs] in Hk; [|destruct phase; cbn [runs] in Hk|by destruct Hk..].
  2: { destruct Hk as (? & ? & _ & _ & [? _]). done. }
  2: { by destruct Hk. }
  destruct Hk as [_ ->]. destruct (held_was_ok _ _ _ _ _ _ _ _ _ Hr) as (at_ & m1 & _ & H1 & Hok & H2 & _).
  unfold runOk in Hok. destruct (runRows (mDb m1) !! hdRun lease) as [r|] eqn:E; [|done]. bools.
  exists at_, m1, r. by split_and!.
Qed.

Lemma lost_not_held_between m m' r :
  runRows (mDb m) !! hdRun lease = Some r → lost (runLeaseOf lease) r → heldBetween m m' → False.
Proof.
  intros Hr Hl (at_ & m1 & r1 & H1 & _ & Hr1 & Hh). destruct (lost_later _ _ _ _ Hr Hl H1) as (r2 & Hr2 & Hl2).
  rewrite Hr1 in Hr2. injection Hr2 as <-. by rewrite (lost_not_held spaceId _ at_ r1 Hl2) in Hh.
Qed.

(** A command that answered past its own claim. *)
Lemma commit_runs call v now w x w' :
  runs (othersStep machineStep) (commit hostClock botOf spaceId lease ttl call v) now w x w' →
  ∀ value, x = Success value → value = v ∧ heldBetween (real w) (real w') ∧
    ∃ e, effectRows (mDb (real w')) !! callKeyOf call = Some e ∧ efStatus e = ef_completed ∧ efResult e = serializeResult v.
Proof.
  intros (refused & n1 & w1 & _ & Hh & Hk)%runs_andThen value ->. destruct refused as [e|]; [by destruct Hk|].
  apply hold_runs in Hh. apply runs_andThen in Hk as (recorded & n2 & w2 & _ & Hc & Hk). cbn [runs] in Hk. destruct Hk as [Hk ->].
  apply runs_andThen in Hc as (r & n3 & w3 & _ & Hc & Hl). cbn [runs] in Hl. destruct Hl as [-> ->].
  destruct r as [[out|]|]; try done. injection Hk as ->. split; [done|].
  assert (rtc machineStep (real w1) (real w3)) as Hs by
    exact (proj2 (quiet_runs _ _ _ _ _ (onLedger_quiet _ (proj1 (settlement_issues spaceId call v))) Hc)).
  split.
  - destruct Hh as (at_ & m1 & r & H1 & H2 & Hr & Hx). exists at_, m1, r. split_and!; [done| |done..]. by etrans.
  - destruct (settlement_row _ _ _ (u "") _ _ _ _ _ (or_introl eq_refl) (onLedger_runs _ _ _ _ _ Hc)) as (e & He & _ & _ & Hst & Hres).
    by exists e.
Qed.

Lemma machineOthers_steps (w w' : CommandWorld) : rtc (othersStep machineStep) w w' → rtc machineStep (real w) (real w').
Proof.
  intros Hs. apply loggedSteps_real. induction Hs as [|x y z Hxy _ IH]; [done|]. eapply rtc_l; [by apply others_logged|done].
Qed.

(** The command handed over, once, and what came of it. *)
Definition handedOver (request : ComputerCommandRequest) (call : ToolCall) (w w' : CommandWorld) (v : jsval) : Prop :=
  (∃ e, effectRows (mDb (real w')) !! callKeyOf call = Some e ∧ efStatus e = ef_completed ∧ efResult e = serializeResult v) ∧
  ∃ now1 m0 m1, rtc machineStep (real w) m0 ∧ runs machineStep (provider request) now1 m0 (provider_returned v) m1 ∧
    heldBetween m1 (real w').

Lemma command_runs request call now w a w' :
  runs (othersStep machineStep) (command hostClock botOf provider spaceId lease ttl request call) now w a w' →
  (entries w' = entries w ∧ (∀ v, a ≠ Success v)) ∨
  (entries w' = callKeyOf call :: entries w ∧ heldBetween (real w) (real w') ∧
   ∀ v, a = Success v → handedOver request call w w' v).
Proof using provider_steps.
  intros (refused & n1 & w1 & _ & Hh & Hk)%runs_andThen.
  destruct (quiet_runs _ _ _ _ _ (hold_quiet _ _ _ _ _ _) Hh) as [He1 Hs1]. destruct refused as [e|].
  { left. apply runs_andThen in Hk as (x & n2 & w2 & _ & Hf & Hk). cbn [runs] in Hk. destruct Hk as [-> ->].
    destruct (quiet_runs _ _ _ _ _ (settleFailure_quiet _ _ _) Hf) as [He2 _]. split; [congruence|done]. }
  right. cbn [runs] in Hk. destruct Hk as (n2 & w2 & _ & H2 & Hk). cbn [fst snd enter] in Hk.
  pose proof (othersSteps_entries _ _ _ H2) as He2. apply machineOthers_steps in H2 as Hs2.
  apply runs_andThen in Hk as (ended & n3 & w3 & _ & Hp & Hk).
  destruct (quiet_runs _ _ _ _ _ (onRealProgram_quiet _ _ (provider_steps request)) Hp) as [He3 Hs3]. cbn [entries real] in He3, Hs3.
  destruct (quiet_runs _ _ _ _ _ (afterProvider_quiet _ _ _ _ _ _ _ _) Hk) as [He4 Hs4]. split; [congruence|]. split.
  - destruct (hold_runs _ _ _ _ Hh) as (at_ & m1 & r & H1 & H1' & Hr & Hx). exists at_, m1, r. split_and!; [done| |done..].
    etrans; [exact H1'|]. etrans; [exact Hs2|]. by etrans.
  - intros v ->. destruct ended as [value|runId|thrown|]; cbn [afterProvider] in Hk; try (by destruct Hk).
    + destruct (commit_runs _ _ _ _ _ _ Hk v eq_refl) as (-> & Hheld & Hrow). split; [done|].
      exists n2, (real w2), (real w3). split_and!; [by etrans| |done].
      apply (runs_onReal machineStep _ n2 {| real := real w2; entries := callKeyOf call :: entries w2 |}).
      eapply runs_weaken; [|exact Hp]. apply others_logged.
    + apply runs_andThen in Hk as (st & n4 & w4 & _ & _ & Hk). by destruct Hk.
Qed.

(** C13. A command commits under its run's fence.  Under any interleaving, what [exec] answers
    is either the recorded result of the call, with the provider left alone, or what the
    provider returned: then the call's row is completed with it, and at some moment after the
    provider had answered the run still held its own lease; the statement that completes the
    row is a later one and is not fenced itself, so the lease may be lost between the two.  A run whose lease is lost hands
    no command to the provider. *)
Theorem command_commits_under_fence request now w a w' :
  let call := commandCall sha256Hex request in
  runs (othersStep machineStep) (exec sha256Hex hostClock botOf provider spaceId lease ttl request) now w a w' →
  (∀ v, a = Success v →
     (entries w' = entries w ∧
      ∃ e, effectRows (mDb (real w')) !! callKeyOf call = Some e ∧ efStatus e = ef_completed ∧ v = default JNull (efResult e)) ∨
     (entries w' = callKeyOf call :: entries w ∧ ∃ w1, rtc machineStep (real w) (real w1) ∧ handedOver request call w1 w' v)) ∧
  (∀ r, runRows (mDb (real w)) !! hdRun lease = Some r → lost (runLeaseOf lease) r → entries w' = entries w).
Proof using provider_steps.
  intros call (adm & n1 & w1 & _ & (r & n2 & w2 & _ & Hb & Hadm)%runs_andThen & Hrun)%runs_andThen.
  cbn [runs] in Hadm. destruct Hadm as [-> ->]. fold call in Hb. unfold ledgerBegins in Hb.
  destruct (begin spaceId call) as [p|] eqn:Hp.
  2: { destruct Hb as [-> ->]. cbn in Hrun. destruct Hrun as [-> ->]. by split. }
  destruct (quiet_runs _ _ _ _ _ (onLedger_quiet _ (begin_issues _ _ _ Hp)) Hb) as [He1 Hs1].
  apply onLedger_runs in Hb. destruct r as [ans|err].
  2: { cbn in Hrun. destruct Hrun as [-> ->]. by split. }
  pose proof (begin_answer _ _ _ _ _ _ _ Hp Hb) as Hans.
  destruct ans as [|res|msg| |]; cbn [runs] in Hrun; [|destruct Hrun as [-> ->]; split; [|done]..]; try done.
  - fold call in Hrun. destruct (command_runs _ _ _ _ _ _ Hrun) as [[He Hno]|(He & Hheld & Hsome)].
    + split; [intros v ->; by destruct (Hno v)|]. intros. congruence.
    + split; [intros v ->; right; split; [congruence|]; exists w2; auto|]. intros r Hr Hl. exfalso.
      destruct (lost_later _ _ _ _ Hr Hl Hs1) as (r1 & Hr1 & Hl1). by eapply (lost_not_held_between _ _ r1 Hr1 Hl1).
  - intros v [= <-]. left. split; [done|]. destruct Hans as (e & He & Hs & <-). by exists e.
Qed.
End commits.

(** ** The budget of the tools *)

Definition defaultMaxDurationMs : Z := 60000.

Inductive ComputerBudgetError := budget_not_positive | budget_below_approval.

(** The budget [createComputerTools] settles on, or why it throws. *)
Definition computerToolBudget (maxDurationMs : option jsnum) (approvals : bool) (approvalTimeoutMs : option Z) :
    result ComputerBudgetError Z :=
  let approvalTimeoutMs := default DEFAULT_APPROVAL_TIMEOUT_MS approvalTimeoutMs in
  let maxDurationMs :=
    default (NInt (if approvals then approvalTimeoutMs + defaultMaxDurationMs else defaultMaxDurationMs)) maxDurationMs in
  match isPositiveSafe maxDurationMs with
  | None => Err budget_not_positive
  | Some d => if approvals && (d <=? approvalTimeoutMs)%Z then Err budget_below_approval else Ok d
  end.

Lemma computerToolBudget_ok n approvals T d :
  computerToolBudget n approvals T = Ok d →
  (0 < d)%Z ∧ (approvals = true → default DEFAULT_APPROVAL_TIMEOUT_MS T < d)%Z.
Proof.
  unfold computerToolBudget, isPositiveSafe. destruct (safeInteger _) as [z|]; [|done]. destruct (Z.ltb_spec 0 z); [|done].
  destruct approvals; cbn [andb]; [|intros [= <-]; by split]. destruct (Z.leb_spec z (default DEFAULT_APPROVAL_TIMEOUT_MS T)); [done|].
  intros [= <-]. by split.
Qed.

(** The budget of a gated computer tool and the run lease exclude each other: with an
    approval store and the default approval window, no budget [createComputerTools] accepts
    can be registered with a dispatcher under the deployment's run lease, while the default
    budget without a store can. *)
Theorem gated_budget_exceeds_lease maxDurationMs d r registry :
  computerToolBudget maxDurationMs true None = Ok d → regMaxDurationMs r = NInt d →
  is_Some (validateRegistration r (RUN_LEASE_TTL_SECONDS * 1000) registry) ∧
  computerToolBudget None false None = Ok defaultMaxDurationMs ∧ (defaultMaxDurationMs ≤ RUN_LEASE_TTL_SECONDS * 1000)%Z.
Proof.
  intros [Hpos Hd]%computerToolBudget_ok Hr. split; [|done]. specialize (Hd eq_refl). unfold validateRegistration.
  repeat (destruct (bool_decide _); [by eexists|]; cbn [negb]). destruct (negb _); [by eexists|].
  repeat (destruct (bool_decide _); [by eexists|]; cbn [negb]).
  rewrite Hr. destruct (isPositiveSafe (NInt d)) as [z|] eqn:E; [|by eexists].
  assert (z = d) as -> by (unfold isPositiveSafe in E; cbn in E; destruct (isSafeZ d); [|done]; destruct (0 <? d)%Z; congruence).
  destruct (Z.ltb_spec (RUN_LEASE_TTL_SECONDS * 1000) d) as [|Hle]; [by eexists|].
  change (600000 < d)%Z in Hd. change (d ≤ 120000)%Z in Hle. lia.
Qed.

(** ** A concrete machine *)

Definition sampleRequest : ComputerCommandRequest := {|
  cqComputer := JString (u "machine"); cqRunId := r1; cqCallId := u "c1"; cqTool := u "shell"; cqCommand := u "ls";
  cqTimeoutMs := 60000 |}.

Definition sampleProvider (request : ComputerCommandRequest) : program Machines ProviderExit :=
  Done (provider_returned (JString (cqCommand request))).

Definition sampleExec (holder : ComputerLeaseHolder) : program CommandWorld (exit CommandError jsval) :=
  exec (λ s, s) columnDate sampleBot sampleProvider (u "space") holder COMPUTER_LEASE_TTL_SECONDS sampleRequest.

Definition startWorld : CommandWorld := {| real := machines; entries := [] |}.

(** Another run of the bot holds the machine: the command is settled as failed, and its
    retry replays the refusal. *)
Example busy_machine_refused :
  let w := {| real := (holdAt holder2 0 machines).2; entries := [] |} in
  let '(first, w1) := runAlone (sampleExec holder1) 1 w in
  (first, (runAlone (sampleExec holder1) 2 w1).1, entries w1) =
  (Failure (cmd_lease_held 120), Failure (cmd_failed (u "another run holds this computer for up to 120s")), []).
Proof. by vm_compute. Qed.

Example lost_run_refused :
  let stale := {| hdBot := u "bot"; hdRun := r1; hdOwner := u "z"; hdFence := 1 |} in
  (runAlone (sampleExec stale) 1 startWorld).1 = Failure (cmd_lease_lost r1).
Proof. by vm_compute. Qed.

(** ** Witnesses *)

(** Two workers run one command at once, their statements alternating. *)
Definition commandPool :=
  runPool [0; 1; 0; 1; 0; 1; 0; 1; 0; 1; 0; 1]%nat 1
    [(callKeyOf (commandCall (λ s, s) sampleRequest), sampleExec holder1);
     (callKeyOf (commandCall (λ s, s) sampleRequest), sampleExec holder1)] startWorld.

Lemma sampleExec_runs : runsCommand (λ s, s) sampleBot (callKeyOf (commandCall (λ s, s) sampleRequest)) (sampleExec holder1).
Proof. by exists columnDate, sampleProvider, (u "space"), holder1, COMPUTER_LEASE_TTL_SECONDS, sampleRequest. Qed.

Lemma commands_run_once_witness :
  entries commandPool.2 = [callKeyOf (commandCall (λ s, s) sampleRequest)] ∧ NoDup (entries commandPool.2).
Proof.
  split; [vm_compute; reflexivity|].
  apply (commands_run_once (λ s, s) sampleBot machines commandPool.1 commandPool.2).
  eapply rtc_l; [apply pool_start, sampleExec_runs|]. eapply rtc_l; [apply pool_start, sampleExec_runs|].
  rewrite <- surjective_pairing. apply runPool_steps.
Defined.

Lemma command_commits_under_fence_witness :
  let w' := (runAlone (sampleExec holder1) 1 startWorld).2 in
  ∃ e, effectRows (mDb (real w')) !! callKeyOf (commandCall (λ s, s) sampleRequest) = Some e ∧ efStatus e = ef_completed.
Proof.
  pose proof (runAlone_runs (othersStep machineStep) (sampleExec holder1) 1 startWorld) as Hr.
  assert ((runAlone (sampleExec holder1) 1 startWorld).1 = Success (JString (u "ls"))) as Hx by (vm_compute; reflexivity).
  rewrite Hx in Hr.
  destruct (proj1 (command_commits_under_fence (λ s, s) columnDate sampleBot sampleProvider (λ _, I) (u "space") holder1
    COMPUTER_LEASE_TTL_SECONDS sampleRequest 1 startWorld _ _ Hr) _ eq_refl) as [(_ & e & He & Hs & _)|(_ & w1 & _ & (e & He & Hs & _) & _)];
    exists e; (split; [exact He|exact Hs]).
Defined.

Definition gatedShell : ToolRegistration :=
  {| regName := u "shell"; regDescription := u "Runs."; regParameters := JObject []; regMaxDurationMs := NInt 660000;
     regExecute := λ _, Done CauseOther |}.

Lemma gated_budget_exceeds_lease_witness :
  computerToolBudget None true None = Ok 660000%Z ∧ is_Some (validateRegistration gatedShell (RUN_LEASE_TTL_SECONDS * 1000) ∅).
Proof.
  split; [reflexivity|]. exact (proj1 (gated_budget_exceeds_lease None 660000 gatedShell ∅ eq_refl eq_refl)).
Defined.
