(* ===== verification/Workspace.v ===== *)
(** The operator's workspace: the repositories of packages/db/src/repositories.ts over
    bots, sections, threads and model connections, every one built from an actor.  A
    command is a program of statements; the ids the database draws are arguments. *)

From S2P Require Import Prelude JsText Conversations Statements Threads.

(** ** Tables *)

Record BotRow := {
  boSpace : jstr; boUser : jstr; boName : jstr; boTitle : jstr; boDescription : jstr; boInstructions : jstr;
  boColor : jstr; boPinned : bool; boPosition : Z; boSection : option jstr; boArchivedAt : option Z; boSpawnKey : jstr;
  boAvatarKey : option jstr; boComputerId : option jstr; boComputerProvider : option jstr; boConnection : option jstr;
  boModel : option jstr; boCreatedAt : Z; boUpdatedAt : Z }.

Record SectionRow := {
  seSpace : jstr; seUser : jstr; seName : jstr; sePosition : Z; seCreatedAt : Z; seUpdatedAt : Z }.

Record ConnectionRow := {
  coSpace : jstr; coLabel : jstr; coBaseUrl : jstr; coCredential : jstr; coModel : option jstr; coDefault : bool;
  coLastUsedAt : option Z; coCreatedAt : Z; coUpdatedAt : Z }.

(** A thread without its counters, which the message and event stores own. *)
Record WorkThreadRow := { wtSpace : jstr; wtBot : jstr; wtUser : jstr; wtCreatedAt : Z; wtUpdatedAt : Z }.

(** Each table under its primary key; [memberRows] is [space_member] by its unique index. *)
Record Workspace := {
  botRows : gmap jstr BotRow;
  sectionRows : gmap jstr SectionRow;
  connectionRows : gmap jstr ConnectionRow;
  threadRows : gmap jstr WorkThreadRow;
  memberRows : gset (jstr * jstr) }.

Definition withBots (w : Workspace) (m : gmap jstr BotRow) : Workspace :=
  {| botRows := m; sectionRows := sectionRows w; connectionRows := connectionRows w; threadRows := threadRows w;
     memberRows := memberRows w |}.
Definition withSections (w : Workspace) (m : gmap jstr SectionRow) : Workspace :=
  {| botRows := botRows w; sectionRows := m; connectionRows := connectionRows w; threadRows := threadRows w;
     memberRows := memberRows w |}.
Definition withConnections (w : Workspace) (m : gmap jstr ConnectionRow) : Workspace :=
  {| botRows := botRows w; sectionRows := sectionRows w; connectionRows := m; threadRows := threadRows w;
     memberRows := memberRows w |}.
Definition withThreads (w : Workspace) (m : gmap jstr WorkThreadRow) : Workspace :=
  {| botRows := botRows w; sectionRows := sectionRows w; connectionRows := connectionRows w; threadRows := m;
     memberRows := memberRows w |}.

(** The scope a repository is built from. *)
Record UserActor := { acSpace : jstr; acUser : jstr }.

Inductive Resource := res_bot | res_section | res_connection | res_thread | res_membership.

Inductive WorkspaceError :=
| WsNotFound (resource : Resource) (id : jstr)
| WsNameConflict (resource : Resource) (name : jstr)
| WsConstraint
| WsNoRow
| WsUnsettled.

(** ** Scopes and constraints *)

(** [space_id = $1]. *)
Definition botsIn (s : jstr) (w : Workspace) : gmap jstr BotRow := filter (λ kv : jstr * BotRow, boSpace kv.2 = s) (botRows w).
Definition sectionsIn (s : jstr) (w : Workspace) : gmap jstr SectionRow :=
  filter (λ kv : jstr * SectionRow, seSpace kv.2 = s) (sectionRows w).
Definition connectionsIn (s : jstr) (w : Workspace) : gmap jstr ConnectionRow :=
  filter (λ kv : jstr * ConnectionRow, coSpace kv.2 = s) (connectionRows w).
Definition threadsIn (s : jstr) (w : Workspace) : gmap jstr WorkThreadRow :=
  filter (λ kv : jstr * WorkThreadRow, wtSpace kv.2 = s) (threadRows w).

(** [space_id = $1 and user_id = $2]. *)
Definition sectionsOf (a : UserActor) (w : Workspace) : gmap jstr SectionRow :=
  filter (λ kv : jstr * SectionRow, seUser kv.2 = acUser a) (sectionsIn (acSpace a) w).

(** [length(btrim(column)) > 0], and its nullable form. *)
Definition notBlankColumn (s : jstr) : bool := existsb (λ c, negb (c =? 32)%N) s.
Definition nullOrNotBlank (o : option jstr) : bool := match o with Some s => notBlankColumn s | None => true end.

(** [base_url ~ '^https?://'] and [base_url !~ '://[^/?#]*@']. *)
Definition httpScheme (url : jstr) : bool :=
  bool_decide (u "http://" `prefix_of` url) || bool_decide (u "https://" `prefix_of` url).

Fixpoint authorityHasAt (url : jstr) : bool :=
  match url with
  | [] => false
  | c :: url => if (c =? 64)%N then true else if existsb (N.eqb c) (u "/?#") then false else authorityHasAt url
  end.

Fixpoint hasUserinfo (url : jstr) : bool :=
  match url with
  | [] => false
  | c :: rest => (bool_decide (u "://" `prefix_of` url) && authorityHasAt (drop 3 url)) || hasUserinfo rest
  end.

(** The check constraints of a [bot] and of a [model_connection]. *)
Definition botChecks (b : BotRow) : bool := nullOrNotBlank (boModel b) && nullOrNotBlank (boComputerProvider b).

Definition connectionChecks (c : ConnectionRow) : bool :=
  notBlankColumn (coLabel c) && notBlankColumn (coCredential c) && httpScheme (coBaseUrl c) &&
  negb (hasUserinfo (coBaseUrl c)) && nullOrNotBlank (coModel c).

(** The references a write names, null or in scope. *)
Definition sectionRefOk (a : UserActor) (ref : option jstr) (w : Workspace) : bool :=
  match ref with Some id => bool_decide (is_Some (sectionsOf a w !! id)) | None => true end.
Definition connectionRefOk (s : jstr) (ref : option jstr) (w : Workspace) : bool :=
  match ref with Some id => bool_decide (is_Some (connectionsIn s w !! id)) | None => true end.

(** [requiredRow]. *)
Definition requiredRow {A} (resource : Resource) (id : jstr) (row : option A) : result WorkspaceError A :=
  match row with Some r => Ok r | None => Err (WsNotFound resource id) end.

(** ** Orders *)

(** [order by pinned desc, position asc, created_at asc, id asc]. *)
Definition botBefore (x y : jstr * BotRow) : bool :=
  if negb (Bool.eqb (boPinned x.2) (boPinned y.2)) then boPinned x.2
  else if negb (boPosition x.2 =? boPosition y.2)%Z then (boPosition x.2 <? boPosition y.2)%Z
  else if negb (boCreatedAt x.2 =? boCreatedAt y.2)%Z then (boCreatedAt x.2 <? boCreatedAt y.2)%Z
  else leString x.1 y.1.

(** [order by position asc, created_at asc, id asc]. *)
Definition sectionBefore (x y : jstr * SectionRow) : bool :=
  if negb (sePosition x.2 =? sePosition y.2)%Z then (sePosition x.2 <? sePosition y.2)%Z
  else if negb (seCreatedAt x.2 =? seCreatedAt y.2)%Z then (seCreatedAt x.2 <? seCreatedAt y.2)%Z
  else leString x.1 y.1.

(** [order by is_default desc, label asc]; labels are unique in a space. *)
Definition connectionBefore (x y : jstr * ConnectionRow) : bool :=
  if negb (Bool.eqb (coDefault x.2) (coDefault y.2)) then coDefault x.2 else leString (coLabel x.2) (coLabel y.2).

(** [order by updated_at desc, id desc]. *)
Definition threadBefore (x y : jstr * WorkThreadRow) : bool :=
  if (wtUpdatedAt x.2 =? wtUpdatedAt y.2)%Z then leString y.1 x.1 else (wtUpdatedAt y.2 <? wtUpdatedAt x.2)%Z.

(** ** Inputs *)

Inductive BotListScope := list_active | list_archived | list_all.

Record NewBot := {
  nbName : jstr; nbColor : jstr; nbSpawnKey : jstr; nbTitle : option jstr; nbDescription : option jstr;
  nbInstructions : option jstr; nbPinned : option bool; nbPosition : option Z; nbSection : option jstr;
  nbComputerId : option jstr; nbComputerProvider : option jstr; nbConnection : option jstr; nbModel : option jstr }.

(** A field that is absent is left alone; a nullable one may be set to null. *)
Record BotPatch := {
  bpName : option jstr; bpTitle : option jstr; bpDescription : option jstr; bpInstructions : option jstr;
  bpColor : option jstr; bpPinned : option bool; bpPosition : option Z; bpSection : option (option jstr);
  bpComputerId : option (option jstr); bpComputerProvider : option (option jstr); bpConnection : option (option jstr);
  bpModel : option (option jstr) }.

Record NewConnection := { ncLabel : jstr; ncBaseUrl : jstr; ncCredential : jstr; ncModel : option jstr }.

Record ConnectionPatch := {
  cpLabel : option jstr; cpBaseUrl : option jstr; cpCredential : option jstr; cpDefaultModel : option (option jstr) }.

Record SectionPatch := { spName : option jstr; spPosition : option Z }.

(** The cursor is a [Date]: whole milliseconds. *)
Record ThreadPage := { tpLimit : nat; tpBefore : option (Z * jstr) }.

Record ModelSelection := { mlConnection : jstr; mlBaseUrl : jstr; mlCredential : jstr; mlModel : jstr }.

(** ** Statements *)

Section statements.
Context (a : UserActor).
Abbreviation s := (acSpace a).

Definition findBot (id : jstr) : statement Workspace (result WorkspaceError BotRow) :=
  λ _ w, (requiredRow res_bot id (botsIn s w !! id), w).

Definition inScope (scope : BotListScope) (b : BotRow) : bool :=
  match scope with
  | list_active => bool_decide (boArchivedAt b = None)
  | list_archived => bool_decide (boArchivedAt b ≠ None)
  | list_all => true
  end.

Definition listBots (scope : BotListScope) : statement Workspace (list (jstr * BotRow)) :=
  λ _ w, (orderBy botBefore (List.filter (λ kv, inScope scope kv.2) (map_to_list (botsIn s w))), w).

Definition listSections : statement Workspace (list (jstr * SectionRow)) :=
  λ _ w, (orderBy sectionBefore (map_to_list (sectionsOf a w)), w).

Definition findThread (id : jstr) : statement Workspace (result WorkspaceError WorkThreadRow) :=
  λ _ w, (requiredRow res_thread id (threadsIn s w !! id), w).

(** [(updated_at, id) < ($3, $4)]. *)
Definition pastCursor (before : option (Z * jstr)) (x : jstr * WorkThreadRow) : bool :=
  match before with
  | None => true
  | Some (ms, id) =>
      (wtUpdatedAt x.2 <? ms * 1000)%Z || ((wtUpdatedAt x.2 =? ms * 1000)%Z && negb (leString id x.1))
  end.

Definition listForBot (botId : jstr) (page : ThreadPage) : statement Workspace (list (jstr * WorkThreadRow)) :=
  λ _ w,
  (take (tpLimit page) (orderBy threadBefore
     (List.filter (λ x, bool_decide (wtBot x.2 = botId) && pastCursor (tpBefore page) x) (map_to_list (threadsIn s w)))), w).

(** [requireActive]. *)
Definition requireActive : statement Workspace (result WorkspaceError unit) :=
  λ _ w, (requiredRow res_membership (acUser a) (if bool_decide ((s, acUser a) ∈ memberRows w) then Some tt else None), w).

Definition findConnection (id : jstr) : statement Workspace (result WorkspaceError ConnectionRow) :=
  λ _ w, (requiredRow res_connection id (connectionsIn s w !! id), w).

Definition listConnections : statement Workspace (list (jstr * ConnectionRow)) :=
  λ _ w, (orderBy connectionBefore (map_to_list (connectionsIn s w)), w).

Definition sectionExists (id : jstr) : statement Workspace bool :=
  λ _ w, (bool_decide (is_Some (sectionsOf a w !! id)), w).
Definition connectionExists (id : jstr) : statement Workspace bool :=
  λ _ w, (bool_decide (is_Some (connectionsIn s w !! id)), w).

(** The row an insert proposes. *)
Definition newBot (input : NewBot) (now : Z) : BotRow := {|
  boSpace := s; boUser := acUser a; boName := nbName input; boTitle := default [] (nbTitle input);
  boDescription := default [] (nbDescription input); boInstructions := default [] (nbInstructions input);
  boColor := nbColor input; boPinned := default false (nbPinned input); boPosition := default 0%Z (nbPosition input);
  boSection := nbSection input; boArchivedAt := None; boSpawnKey := nbSpawnKey input; boAvatarKey := None;
  boComputerId := nbComputerId input; boComputerProvider := nbComputerProvider input; boConnection := nbConnection input;
  boModel := nbModel input; boCreatedAt := now; boUpdatedAt := now |}.

(** The insert of a bot: a reference out of scope selects no row, a row that fails a check
    is an error whatever it conflicts with, and a spawn key in use returns its row. *)
Definition insertBot (newId : jstr) (input : NewBot) :
    statement Workspace (result WorkspaceError (option (jstr * BotRow))) :=
  λ now w,
  if negb (sectionRefOk a (nbSection input) w && connectionRefOk s (nbConnection input) w) then (Ok None, w)
  else if negb (botChecks (newBot input now)) then (Err WsConstraint, w)
  else
    match findRow (λ _ b, bool_decide (boSpawnKey b = nbSpawnKey input)) (botsIn s w) with
    | Some kv => (Ok (Some kv), w)
    | None =>
        match botRows w !! newId with
        | Some _ => (Err WsConstraint, w)
        | None => (Ok (Some (newId, newBot input now)), withBots w (<[newId := newBot input now]> (botRows w)))
        end
    end.

Definition patchedBot (p : BotPatch) (now : Z) (b : BotRow) : BotRow := {|
  boSpace := boSpace b; boUser := boUser b; boName := default (boName b) (bpName p);
  boTitle := default (boTitle b) (bpTitle p); boDescription := default (boDescription b) (bpDescription p);
  boInstructions := default (boInstructions b) (bpInstructions p); boColor := default (boColor b) (bpColor p);
  boPinned := default (boPinned b) (bpPinned p); boPosition := default (boPosition b) (bpPosition p);
  boSection := default (boSection b) (bpSection p); boArchivedAt := boArchivedAt b; boSpawnKey := boSpawnKey b;
  boAvatarKey := boAvatarKey b; boComputerId := default (boComputerId b) (bpComputerId p);
  boComputerProvider := default (boComputerProvider b) (bpComputerProvider p);
  boConnection := default (boConnection b) (bpConnection p); boModel := default (boModel b) (bpModel p);
  boCreatedAt := boCreatedAt b; boUpdatedAt := now |}.

(** One update of a bot of the space, behind a guard of the same statement. *)
Definition updateBotRow (id : jstr) (guard : Workspace → bool) (f : Z → BotRow → BotRow) :
    statement Workspace (result WorkspaceError (option BotRow)) :=
  λ now w,
  match botsIn s w !! id with
  | Some b =>
      if negb (guard w) then (Ok None, w)
      else if negb (botChecks (f now b)) then (Err WsConstraint, w)
      else (Ok (Some (f now b)), withBots w (<[id := f now b]> (botRows w)))
  | None => (Ok None, w)
  end.

Definition patchGuard (p : BotPatch) (w : Workspace) : bool :=
  sectionRefOk a (default None (bpSection p)) w && connectionRefOk s (default None (bpConnection p)) w.

Definition archivedBot (now : Z) (b : BotRow) : BotRow := {|
  boSpace := boSpace b; boUser := boUser b; boName := boName b; boTitle := boTitle b; boDescription := boDescription b;
  boInstructions := boInstructions b; boColor := boColor b; boPinned := boPinned b; boPosition := boPosition b;
  boSection := boSection b; boArchivedAt := Some (default now (boArchivedAt b)); boSpawnKey := boSpawnKey b;
  boAvatarKey := boAvatarKey b; boComputerId := boComputerId b; boComputerProvider := boComputerProvider b;
  boConnection := boConnection b; boModel := boModel b; boCreatedAt := boCreatedAt b; boUpdatedAt := now |}.

Definition restoredBot (now : Z) (b : BotRow) : BotRow := {|
  boSpace := boSpace b; boUser := boUser b; boName := boName b; boTitle := boTitle b; boDescription := boDescription b;
  boInstructions := boInstructions b; boColor := boColor b; boPinned := boPinned b; boPosition := boPosition b;
  boSection := boSection b; boArchivedAt := None; boSpawnKey := boSpawnKey b;
  boAvatarKey := boAvatarKey b; boComputerId := boComputerId b; boComputerProvider := boComputerProvider b;
  boConnection := boConnection b; boModel := boModel b; boCreatedAt := boCreatedAt b; boUpdatedAt := now |}.

Definition withAvatar (avatarKey : option jstr) (now : Z) (b : BotRow) : BotRow := {|
  boSpace := boSpace b; boUser := boUser b; boName := boName b; boTitle := boTitle b; boDescription := boDescription b;
  boInstructions := boInstructions b; boColor := boColor b; boPinned := boPinned b; boPosition := boPosition b;
  boSection := boSection b; boArchivedAt := boArchivedAt b; boSpawnKey := boSpawnKey b;
  boAvatarKey := avatarKey; boComputerId := boComputerId b; boComputerProvider := boComputerProvider b;
  boConnection := boConnection b; boModel := boModel b; boCreatedAt := boCreatedAt b; boUpdatedAt := now |}.

(** The delete of a bot, and of the threads that dangle from it. *)
Definition deleteBotRow (id : jstr) : statement Workspace (option BotRow) :=
  λ _ w,
  match botsIn s w !! id with
  | Some b =>
      (Some b, withThreads (withBots w (delete id (botRows w)))
                 (filter (λ kv : jstr * WorkThreadRow, wtBot kv.2 ≠ id) (threadRows w)))
  | None => (None, w)
  end.

Definition insertThread (newId botId : jstr) : statement Workspace (result WorkspaceError (option (jstr * WorkThreadRow))) :=
  λ now w,
  match botsIn s w !! botId with
  | Some _ =>
      match threadRows w !! newId with
      | Some _ => (Err WsConstraint, w)
      | None =>
          let row := {| wtSpace := s; wtBot := botId; wtUser := acUser a; wtCreatedAt := now; wtUpdatedAt := now |} in
          (Ok (Some (newId, row)), withThreads w (<[newId := row]> (threadRows w)))
      end
  | None => (Ok None, w)
  end.

(** A section of the actor by its name, another than [id]. *)
Definition sectionNamed (name : jstr) (id : option jstr) (w : Workspace) : bool :=
  bool_decide (is_Some (findRow (λ k r, bool_decide (seName r = name) && negb (bool_decide (Some k = id))) (sectionsOf a w))).

Definition insertSection (newId name : jstr) (position : Z) :
    statement Workspace (result WorkspaceError (option (jstr * SectionRow))) :=
  λ now w,
  if sectionNamed name None w then (Ok None, w)
  else match sectionRows w !! newId with
  | Some _ => (Err WsConstraint, w)
  | None =>
      let row := {| seSpace := s; seUser := acUser a; seName := name; sePosition := position; seCreatedAt := now; seUpdatedAt := now |} in
      (Ok (Some (newId, row)), withSections w (<[newId := row]> (sectionRows w)))
  end.

(** [NameConflictError] is the unique index met by a new name. *)
Definition updateSectionRow (id : jstr) (p : SectionPatch) : statement Workspace (result WorkspaceError SectionRow) :=
  λ now w,
  match sectionsOf a w !! id with
  | Some r =>
      let row := {| seSpace := seSpace r; seUser := seUser r; seName := default (seName r) (spName p);
                    sePosition := default (sePosition r) (spPosition p); seCreatedAt := seCreatedAt r; seUpdatedAt := now |} in
      match spName p with
      | Some name =>
          if sectionNamed name (Some id) w then (Err (WsNameConflict res_section name), w)
          else (Ok row, withSections w (<[id := row]> (sectionRows w)))
      | None => (Ok row, withSections w (<[id := row]> (sectionRows w)))
      end
  | None => (Err (WsNotFound res_section id), w)
  end.

Definition unfiled (id : jstr) (b : BotRow) : BotRow :=
  if bool_decide (boSection b = Some id) then {|
    boSpace := boSpace b; boUser := boUser b; boName := boName b; boTitle := boTitle b; boDescription := boDescription b;
    boInstructions := boInstructions b; boColor := boColor b; boPinned := boPinned b; boPosition := boPosition b;
    boSection := None; boArchivedAt := boArchivedAt b; boSpawnKey := boSpawnKey b;
    boAvatarKey := boAvatarKey b; boComputerId := boComputerId b; boComputerProvider := boComputerProvider b;
    boConnection := boConnection b; boModel := boModel b; boCreatedAt := boCreatedAt b; boUpdatedAt := boUpdatedAt b |}
  else b.

(** The delete of a section, with the foreign key's [set null]. *)
Definition deleteSectionRow (id : jstr) : statement Workspace (result WorkspaceError SectionRow) :=
  λ _ w,
  match sectionsOf a w !! id with
  | Some r => (Ok r, withBots (withSections w (delete id (sectionRows w))) (unfiled id <$> botRows w))
  | None => (Err (WsNotFound res_section id), w)
  end.
End statements.

(** ** Model connections *)

Section connections.
Context (a : UserActor).
Abbreviation s := (acSpace a).

(** A connection of the space under a label, another than [id]. *)
Definition connectionLabelled (label : jstr) (id : option jstr) (w : Workspace) : bool :=
  bool_decide (is_Some (findRow (λ k r, bool_decide (coLabel r = label) && negb (bool_decide (Some k = id))) (connectionsIn s w))).

Definition newConnection (input : NewConnection) (now : Z) : ConnectionRow := {|
  coSpace := s; coLabel := ncLabel input; coBaseUrl := ncBaseUrl input; coCredential := ncCredential input;
  coModel := ncModel input; coDefault := false; coLastUsedAt := None; coCreatedAt := now; coUpdatedAt := now |}.

Definition insertConnection (newId : jstr) (input : NewConnection) :
    statement Workspace (result WorkspaceError (option (jstr * ConnectionRow))) :=
  λ now w,
  let row := newConnection input now in
  if negb (connectionChecks row) then (Err WsConstraint, w)
  else if connectionLabelled (ncLabel input) None w then (Ok None, w)
  else match connectionRows w !! newId with
       | Some _ => (Err WsConstraint, w)
       | None => (Ok (Some (newId, row)), withConnections w (<[newId := row]> (connectionRows w)))
       end.

Definition patchedConnection (p : ConnectionPatch) (now : Z) (c : ConnectionRow) : ConnectionRow := {|
  coSpace := coSpace c; coLabel := default (coLabel c) (cpLabel p); coBaseUrl := default (coBaseUrl c) (cpBaseUrl p);
  coCredential := default (coCredential c) (cpCredential p); coModel := default (coModel c) (cpDefaultModel p);
  coDefault := coDefault c; coLastUsedAt := coLastUsedAt c; coCreatedAt := coCreatedAt c; coUpdatedAt := now |}.

Definition updateConnectionRow (id : jstr) (p : ConnectionPatch) : statement Workspace (result WorkspaceError ConnectionRow) :=
  λ now w,
  match connectionsIn s w !! id with
  | Some c =>
      let row := patchedConnection p now c in
      if negb (connectionChecks row) then (Err WsConstraint, w)
      else match cpLabel p with
           | Some label =>
               if connectionLabelled label (Some id) w then (Err (WsNameConflict res_connection label), w)
               else (Ok row, withConnections w (<[id := row]> (connectionRows w)))
           | None => (Ok row, withConnections w (<[id := row]> (connectionRows w)))
           end
  | None => (Err (WsNotFound res_connection id), w)
  end.

Definition markedDefault (flag : bool) (now : Z) (c : ConnectionRow) : ConnectionRow := {|
  coSpace := coSpace c; coLabel := coLabel c; coBaseUrl := coBaseUrl c; coCredential := coCredential c;
  coModel := coModel c; coDefault := flag; coLastUsedAt := coLastUsedAt c; coCreatedAt := coCreatedAt c; coUpdatedAt := now |}.

(** The first update of a swap: every other default of the space is cleared. *)
Definition clearDefaults (id : jstr) : statement Workspace unit :=
  λ now w,
  (tt, withConnections w (map_imap (λ k c,
     Some (if bool_decide (coSpace c = s) && coDefault c && negb (bool_decide (k = id)) then markedDefault false now c else c))
     (connectionRows w))).

(** A default of the space other than [id]. *)
Definition otherDefault (id : jstr) (w : Workspace) : bool :=
  bool_decide (is_Some (findRow (λ k c, coDefault c && negb (bool_decide (k = id))) (connectionsIn s w))).

(** The second update reads its [not exists] on its snapshot, and its write meets the
    unique index as it stands. *)
Definition defaultSnapshot (id : jstr) : statement Workspace bool :=
  λ _ w, (bool_decide (is_Some (connectionsIn s w !! id)) && negb (otherDefault id w), w).

Definition writeDefault (id : jstr) : statement Workspace (result WorkspaceError (option ConnectionRow)) :=
  λ now w,
  match connectionsIn s w !! id with
  | Some c =>
      if otherDefault id w then (Err WsConstraint, w)
      else (Ok (Some (markedDefault true now c)), withConnections w (<[id := markedDefault true now c]> (connectionRows w)))
  | None => (Ok None, w)
  end.

Definition withoutConnection (id : jstr) (b : BotRow) : BotRow :=
  if bool_decide (boConnection b = Some id) then {|
    boSpace := boSpace b; boUser := boUser b; boName := boName b; boTitle := boTitle b; boDescription := boDescription b;
    boInstructions := boInstructions b; boColor := boColor b; boPinned := boPinned b; boPosition := boPosition b;
    boSection := boSection b; boArchivedAt := boArchivedAt b; boSpawnKey := boSpawnKey b;
    boAvatarKey := boAvatarKey b; boComputerId := boComputerId b; boComputerProvider := boComputerProvider b;
    boConnection := None; boModel := boModel b; boCreatedAt := boCreatedAt b; boUpdatedAt := boUpdatedAt b |}
  else b.

Definition deleteConnectionRow (id : jstr) : statement Workspace (result WorkspaceError ConnectionRow) :=
  λ _ w,
  match connectionsIn s w !! id with
  | Some c => (Ok c, withBots (withConnections w (delete id (connectionRows w))) (withoutConnection id <$> botRows w))
  | None => (Err (WsNotFound res_connection id), w)
  end.

Definition usedConnection (now : Z) (c : ConnectionRow) : ConnectionRow := {|
  coSpace := coSpace c; coLabel := coLabel c; coBaseUrl := coBaseUrl c; coCredential := coCredential c;
  coModel := coModel c; coDefault := coDefault c; coLastUsedAt := Some now; coCreatedAt := coCreatedAt c;
  coUpdatedAt := coUpdatedAt c |}.

Definition markUsed (id : jstr) : statement Workspace unit :=
  λ now w,
  match connectionsIn s w !! id with
  | Some c => (tt, withConnections w (<[id := usedConnection now c]> (connectionRows w)))
  | None => (tt, w)
  end.

(** The space's default. *)
Definition defaultConnection (w : Workspace) : option (jstr * ConnectionRow) :=
  findRow (λ _ c, coDefault c) (connectionsIn s w).

(** The join of [resolveModelSelection]. *)
Definition resolveForBot (botId : jstr) : statement Workspace (option ModelSelection) :=
  λ _ w,
  (b ← botsIn s w !! botId;
   id ← (match boConnection b with Some id => Some id | None => fst <$> defaultConnection w end);
   c ← connectionsIn s w !! id;
   model ← (match boModel b with Some m => Some m | None => coModel c end);
   Some {| mlConnection := id; mlBaseUrl := coBaseUrl c; mlCredential := coCredential c; mlModel := model |}, w).

(** ** Commands *)

Inductive Answer :=
| AnsBot (id : option jstr) (b : BotRow)
| AnsBots (l : list (jstr * BotRow))
| AnsSection (id : option jstr) (r : SectionRow)
| AnsSections (l : list (jstr * SectionRow))
| AnsThread (id : option jstr) (r : WorkThreadRow)
| AnsThreads (l : list (jstr * WorkThreadRow))
| AnsConnection (id : option jstr) (c : ConnectionRow)
| AnsConnections (l : list (jstr * ConnectionRow))
| AnsSelection (m : option ModelSelection)
| AnsDone.

Abbreviation command := (program Workspace (result WorkspaceError Answer)).

(** One statement and what is made of its answer. *)
Definition ask {X} (stmt : statement Workspace X) (k : X → result WorkspaceError Answer) : command :=
  Query stmt (λ x, Done (k x)).

(** The reads that name a missing reference after a write that matched nothing. *)
Definition nameMissing (section connection : option jstr) (otherwise : result WorkspaceError Answer) : command :=
  let connectionStep : command :=
    match connection with
    | None => Done otherwise
    | Some id => Query (connectionExists a id) (λ found : bool, Done (if found then otherwise else Err (WsNotFound res_connection id)))
    end in
  match section with
  | None => connectionStep
  | Some id => Query (sectionExists a id) (λ found : bool, if found then connectionStep else Done (Err (WsNotFound res_section id)))
  end.

Definition createBot (newId : jstr) (input : NewBot) : command :=
  Query (insertBot a newId input) (λ r,
    match r with
    | Err e => Done (Err e)
    | Ok (Some (id, b)) => Done (Ok (AnsBot (Some id) b))
    | Ok None => nameMissing (nbSection input) (nbConnection input) (Err WsNoRow)
    end).

Definition updateBot (id : jstr) (p : BotPatch) : command :=
  Query (updateBotRow a id (patchGuard a p) (patchedBot p)) (λ r,
    match r with
    | Err e => Done (Err e)
    | Ok (Some b) => Done (Ok (AnsBot None b))
    | Ok None => nameMissing (default None (bpSection p)) (default None (bpConnection p)) (Err (WsNotFound res_bot id))
    end).

(** The loop of [setDefaultModelConnection]. *)
Fixpoint settleDefault (attempts : nat) (id : jstr) : command :=
  match attempts with
  | O => Done (Err WsUnsettled)
  | S attempts =>
      Query (clearDefaults id) (λ _,
      Query (defaultSnapshot id) (λ free : bool,
        if free then
          Query (writeDefault id) (λ r,
            match r with
            | Err e => Done (Err e)
            | Ok (Some c) => Done (Ok (AnsConnection None c))
            | Ok None => settleDefault attempts id
            end)
        else settleDefault attempts id))
  end.

Definition setDefault (id : jstr) : command :=
  Query (connectionExists a id) (λ found : bool, if found then settleDefault 3 id else Done (Err (WsNotFound res_connection id))).

Inductive Command :=
| FindBot (id : jstr) | ListBots (scope : BotListScope) | CreateBot (newId : jstr) (input : NewBot)
| UpdateBot (id : jstr) (p : BotPatch) | ArchiveBot (id : jstr) | RestoreBot (id : jstr) | DeleteBot (id : jstr)
| SetBotAvatar (id : jstr) (avatarKey : option jstr)
| ListSections | CreateSection (newId name : jstr) (position : option Z) | UpdateSection (id : jstr) (p : SectionPatch)
| DeleteSection (id : jstr)
| FindThread (id : jstr) | ListForBot (botId : jstr) (page : ThreadPage) | CreateThread (newId botId : jstr)
| FindConnection (id : jstr) | ListConnections | CreateConnection (newId : jstr) (input : NewConnection)
| UpdateConnection (id : jstr) (p : ConnectionPatch) | SetDefault (id : jstr) | DeleteConnection (id : jstr) | MarkUsed (id : jstr)
| RequireActive | ResolveForBot (botId : jstr).

Definition answerBot (id : jstr) (r : result WorkspaceError (option BotRow)) : result WorkspaceError Answer :=
  b ← r; b ← requiredRow res_bot id b; Ok (AnsBot None b).

Definition unguarded (w : Workspace) : bool := true.

Definition perform (c : Command) : command :=
  match c with
  | FindBot id => ask (findBot a id) (λ r, b ← r; Ok (AnsBot None b))
  | ListBots scope => ask (listBots a scope) (λ l, Ok (AnsBots l))
  | CreateBot newId input => createBot newId input
  | UpdateBot id p => updateBot id p
  | ArchiveBot id => ask (updateBotRow a id unguarded archivedBot) (answerBot id)
  | RestoreBot id => ask (updateBotRow a id unguarded restoredBot) (answerBot id)
  | DeleteBot id => ask (deleteBotRow a id) (λ b, answerBot id (Ok b))
  | SetBotAvatar id avatarKey => ask (updateBotRow a id unguarded (withAvatar avatarKey)) (answerBot id)
  | ListSections => ask (listSections a) (λ l, Ok (AnsSections l))
  | CreateSection newId name position =>
      ask (insertSection a newId name (default 0%Z position)) (λ r, o ← r;
        match o with Some (id, row) => Ok (AnsSection (Some id) row) | None => Err (WsNameConflict res_section name) end)
  | UpdateSection id p => ask (updateSectionRow a id p) (λ r, row ← r; Ok (AnsSection None row))
  | DeleteSection id => ask (deleteSectionRow a id) (λ r, row ← r; Ok (AnsSection None row))
  | FindThread id => ask (findThread a id) (λ r, row ← r; Ok (AnsThread None row))
  | ListForBot botId page => ask (listForBot a botId page) (λ l, Ok (AnsThreads l))
  | CreateThread newId botId =>
      ask (insertThread a newId botId) (λ r, o ← r;
        match o with Some (id, row) => Ok (AnsThread (Some id) row) | None => Err (WsNotFound res_bot botId) end)
  | FindConnection id => ask (findConnection a id) (λ r, row ← r; Ok (AnsConnection None row))
  | ListConnections => ask (listConnections a) (λ l, Ok (AnsConnections l))
  | CreateConnection newId input =>
      ask (insertConnection newId input) (λ r, o ← r;
        match o with Some (id, row) => Ok (AnsConnection (Some id) row)
                   | None => Err (WsNameConflict res_connection (ncLabel input)) end)
  | UpdateConnection id p => ask (updateConnectionRow id p) (λ r, row ← r; Ok (AnsConnection None row))
  | SetDefault id => setDefault id
  | DeleteConnection id => ask (deleteConnectionRow id) (λ r, row ← r; Ok (AnsConnection None row))
  | MarkUsed id => ask (markUsed id) (λ _, Ok AnsDone)
  | RequireActive => ask (requireActive a) (λ r, _ ← r; Ok AnsDone)
  | ResolveForBot botId => ask (resolveForBot botId) (λ m, Ok (AnsSelection m))
  end.
End connections.

(** The id a command's insert draws. *)
Definition drawn (c : Command) : option jstr :=
  match c with
  | CreateBot newId _ | CreateSection newId _ _ | CreateThread newId _ | CreateConnection newId _ => Some newId
  | _ => None
  end.

(** ** Scoped lookups *)

Lemma botsIn_Some s id b w : botsIn s w !! id = Some b ↔ botRows w !! id = Some b ∧ boSpace b = s.
Proof. apply map_lookup_filter_Some. Qed.
Lemma connectionsIn_Some s id c w : connectionsIn s w !! id = Some c ↔ connectionRows w !! id = Some c ∧ coSpace c = s.
Proof. apply map_lookup_filter_Some. Qed.
Lemma sectionsOf_Some a id r w :
  sectionsOf a w !! id = Some r ↔ sectionRows w !! id = Some r ∧ seSpace r = acSpace a ∧ seUser r = acUser a.
Proof. unfold sectionsOf, sectionsIn. rewrite !map_lookup_filter_Some. cbn. tauto. Qed.

Lemma unfiled_space id b : boSpace (unfiled id b) = boSpace b.
Proof. unfold unfiled. by destruct (bool_decide _). Qed.
Lemma withoutConnection_space id b : boSpace (withoutConnection id b) = boSpace b.
Proof. unfold withoutConnection. by destruct (bool_decide _). Qed.

(** A row found by its key. *)
Lemma findRow_is_some {A} (p : jstr → A → bool) (m : gmap jstr A) :
  is_Some (findRow p m) ↔ ∃ k x, m !! k = Some x ∧ p k x = true.
Proof.
  split.
  - intros [[k x] Hf]. apply findRow_some in Hf. by exists k, x.
  - intros (k & x & Hx & Hp). destruct (findRow p m) eqn:E; [by eexists|].
    rewrite (proj1 (findRow_none p m) E k x Hx) in Hp. done.
Qed.

(** A command is made of the statements of its operation. *)
Lemma issues_ask (P : ∀ X, statement Workspace X → Prop) {X} (stmt : statement Workspace X) k : P X stmt → issues P (ask stmt k).
Proof. by intros H. Qed.

Lemma issues_nameMissing a (P : ∀ X, statement Workspace X → Prop) section connection otherwise :
  (∀ id, P bool (sectionExists a id)) → (∀ id, P bool (connectionExists a id)) →
  issues P (nameMissing a section connection otherwise).
Proof.
  intros Hs Hc. unfold nameMissing. destruct section as [id|].
  - cbn [issues]. split; [apply Hs|]. intros [|]; [|done]. destruct connection; [|done]. cbn [issues]. split; [apply Hc|done].
  - destruct connection; [|done]. cbn [issues]. split; [apply Hc|done].
Qed.

Lemma issues_settleDefault a (P : ∀ X, statement Workspace X → Prop) n id :
  P unit (clearDefaults a id) → P bool (defaultSnapshot a id) → P _ (writeDefault a id) → issues P (settleDefault a n id).
Proof.
  intros H1 H2 H3. induction n as [|n IH]; [done|]. cbn [settleDefault issues]. split; [done|]. intros _. split; [done|].
  intros [|]; [|done]. cbn [issues]. split; [done|]. by intros [[c|]|e].
Qed.

(** A read of nothing but the actor's scope. *)
Definition scopedRead (a : UserActor) {X} (f : Workspace → X) : Prop :=
  ∀ w w2, botsIn (acSpace a) w = botsIn (acSpace a) w2 → sectionsOf a w = sectionsOf a w2 →
    connectionsIn (acSpace a) w = connectionsIn (acSpace a) w2 → threadsIn (acSpace a) w = threadsIn (acSpace a) w2 →
    ((acSpace a, acUser a) ∈ memberRows w ↔ (acSpace a, acUser a) ∈ memberRows w2) → f w = f w2.

(** The statements a command issues, by the one property they are to have. *)
Lemma issues_perform a (P : ∀ X, statement Workspace X → Prop) (c : Command) :
  (∀ X (f : Workspace → X), scopedRead a f → P X (λ _ w, (f w, w))) →
  (∀ newId input, drawn c = Some newId → P _ (insertBot a newId input)) →
  (∀ id p, P _ (updateBotRow a id (patchGuard a p) (patchedBot p))) →
  (∀ id f, f = archivedBot ∨ f = restoredBot ∨ (∃ key, f = withAvatar key) → P _ (updateBotRow a id unguarded f)) →
  (∀ id, P _ (deleteBotRow a id)) →
  (∀ newId botId, drawn c = Some newId → P _ (insertThread a newId botId)) →
  (∀ newId name position, drawn c = Some newId → P _ (insertSection a newId name position)) →
  (∀ id p, P _ (updateSectionRow a id p)) → (∀ id, P _ (deleteSectionRow a id)) →
  (∀ newId input, drawn c = Some newId → P _ (insertConnection a newId input)) →
  (∀ id p, P _ (updateConnectionRow a id p)) → (∀ id, P _ (clearDefaults a id)) → (∀ id, P _ (writeDefault a id)) →
  (∀ id, P _ (deleteConnectionRow a id)) → (∀ id, P _ (markUsed a id)) →
  issues P (perform a c).
Proof.
  intros Hr H1 H2 H3 H4 H5 H6 H7 H8 H9 H10 H11 H12 H13 H14.
  assert (∀ id, P bool (sectionExists a id)) as Hse by (intros id; apply Hr; by intros w w2 _ ->).
  assert (∀ id, P bool (connectionExists a id)) as Hce by (intros id; apply Hr; by intros w w2 _ _ ->).
  destruct c; cbn [perform];
    try (apply issues_ask; first [apply Hr; by intros w w2 Hb Hs Hc Ht Hm; unfold defaultConnection; rewrite ?Hb, ?Hs, ?Hc, ?Ht
                                 |by apply H3; eauto|by eauto]).
  - cbn [createBot issues]. split; [by apply H1|]. intros [[[id b]|]|e]; [done| |done]. by apply issues_nameMissing.
  - cbn [updateBot issues]. split; [apply H2|]. intros [[b|]|e]; [done| |done]. by apply issues_nameMissing.
  - cbn [setDefault issues]. split; [apply Hce|]. intros [|]; [|done]. apply issues_settleDefault; [apply H11| |apply H12].
    apply Hr. intros w w2 _ _ Hc _ _. unfold otherDefault. by rewrite Hc.
  - apply issues_ask, Hr. intros w w2 _ _ _ _ Hm. by rewrite (bool_decide_ext _ _ Hm).
Qed.
