(* ===== verification/WorkspaceInvariants.v ===== *)
(** What every command of the workspace keeps: references stay in their space, each unique
    index holds, a space has at most one default connection, and every row passes its checks. *)

From S2P Require Import Prelude JsText Conversations Statements Threads Workspace.

(** ** Keys and references of a table *)

Section tables.
Context {A : Type}.
Implicit Types m : gmap jstr A.

(** No two rows have one key. *)
Definition uniqueBy {K} (key : A → option K) m : Prop :=
  ∀ i j x y k, m !! i = Some x → m !! j = Some y → key x = Some k → key y = Some k → i = j.

Lemma uniqueBy_insert {K} (key : A → option K) m i x :
  uniqueBy key m → (∀ j y k, m !! j = Some y → j ≠ i → key x = Some k → key y ≠ Some k) → uniqueBy key (<[i := x]> m).
Proof.
  intros Hu Hx j j' y y' k Hj Hj' Hk Hk'. destruct (decide (j = i)) as [->|Hi], (decide (j' = i)) as [->|Hi']; [done|..].
  - rewrite lookup_insert_eq in Hj. rewrite lookup_insert_ne in Hj' by done. injection Hj as <-. destruct (Hx j' y' k Hj' Hi' Hk Hk').
  - rewrite lookup_insert_eq in Hj'. rewrite lookup_insert_ne in Hj by done. injection Hj' as <-. destruct (Hx j y k Hj Hi Hk' Hk).
  - rewrite lookup_insert_ne in Hj, Hj' by done. by eapply Hu.
Qed.

Lemma uniqueBy_delete {K} (key : A → option K) m i : uniqueBy key m → uniqueBy key (delete i m).
Proof. intros Hu j j' y y' k [_ Hj]%lookup_delete_Some [_ Hj']%lookup_delete_Some. by apply Hu. Qed.

Lemma uniqueBy_imap {K} (key : A → option K) (f : jstr → A → A) m :
  (∀ i x k, key (f i x) = Some k → key x = Some k) → uniqueBy key m → uniqueBy key (map_imap (λ i x, Some (f i x)) m).
Proof.
  intros Hf Hu j j' y y' k. rewrite !map_lookup_imap. destruct (m !! j) eqn:E, (m !! j') eqn:E'; cbn; try done.
  intros [= <-] [= <-] ?%Hf ?%Hf. by eapply Hu.
Qed.

Lemma uniqueBy_fmap {K} (key : A → option K) (f : A → A) m :
  (∀ x, key (f x) = key x) → uniqueBy key m → uniqueBy key (f <$> m).
Proof.
  intros Hf Hu j j' y y' k. rewrite !lookup_fmap. destruct (m !! j) eqn:E, (m !! j') eqn:E'; cbn; try done.
  intros [= <-] [= <-]. rewrite !Hf. by apply (Hu j j' a a0 k).
Qed.
End tables.

(** Every reference of a table names a row of the same space. *)
Section references.
Context {A B : Type} (ref : A → option jstr) (spA : A → jstr) (spB : B → jstr).

Definition refsTo (m : gmap jstr A) (n : gmap jstr B) : Prop :=
  ∀ i x r, m !! i = Some x → ref x = Some r → ∃ y, n !! r = Some y ∧ spB y = spA x.

Lemma refsTo_insert_left m n i x :
  refsTo m n → (∀ r, ref x = Some r → ∃ y, n !! r = Some y ∧ spB y = spA x) → refsTo (<[i := x]> m) n.
Proof. intros Hr Hx j y r. rewrite lookup_insert. case_decide; [intros [= <-]; apply Hx|apply Hr]. Qed.

Lemma refsTo_insert_right m n i y :
  refsTo m n → (∀ y', n !! i = Some y' → spB y = spB y') → refsTo m (<[i := y]> n).
Proof.
  intros Hr Hy j x r Hj Hx. destruct (Hr j x r Hj Hx) as (y' & Hy' & Hs). rewrite lookup_insert. case_decide as Hd; [|by exists y'].
  subst r. exists y. split; [done|]. by rewrite (Hy y').
Qed.

Lemma refsTo_delete_left m n i : refsTo m n → refsTo (delete i m) n.
Proof. intros Hr j x r [_ Hj]%lookup_delete_Some. by apply (Hr j). Qed.

Lemma refsTo_filter_left (P : jstr * A → Prop) `{!∀ x, Decision (P x)} m n : refsTo m n → refsTo (filter P m) n.
Proof. intros Hr j x r [Hj _]%map_lookup_filter_Some. by apply (Hr j). Qed.

Lemma refsTo_delete_right m n i : refsTo m n → (∀ j x, m !! j = Some x → ref x ≠ Some i) → refsTo m (delete i n).
Proof.
  intros Hr Hi j x r Hj Hx. destruct (Hr j x r Hj Hx) as (y & Hy & Hs). exists y. split; [|done].
  apply lookup_delete_Some. split; [|done]. intros ->. by eapply Hi.
Qed.

Lemma refsTo_fmap_left (f : A → A) m n :
  (∀ x, spA (f x) = spA x) → (∀ x r, ref (f x) = Some r → ref x = Some r) → refsTo m n → refsTo (f <$> m) n.
Proof.
  intros Hs Hf Hr j x r. rewrite lookup_fmap. destruct (m !! j) as [x0|] eqn:E; [|done]. intros [= <-] Hx.
  rewrite Hs. apply (Hr j x0 r E). by apply Hf.
Qed.

Lemma refsTo_imap_right (f : jstr → B → B) m n :
  (∀ i y, spB (f i y) = spB y) → refsTo m n → refsTo m (map_imap (λ i y, Some (f i y)) n).
Proof.
  intros Hf Hr j x r Hj Hx. destruct (Hr j x r Hj Hx) as (y & Hy & Hs). exists (f r y). rewrite map_lookup_imap, Hy, Hf. done.
Qed.

Lemma refsTo_fmap_right (f : B → B) m n : (∀ y, spB (f y) = spB y) → refsTo m n → refsTo m (f <$> n).
Proof.
  intros Hf Hr j x r Hj Hx. destruct (Hr j x r Hj Hx) as (y & Hy & Hs). exists (f y). by rewrite lookup_fmap, Hy, Hf.
Qed.
End references.

(** ** The workspace *)

Record workspaceOk (w : Workspace) : Prop := {
  ok_sections : refsTo boSection boSpace seSpace (botRows w) (sectionRows w);
  ok_connections : refsTo boConnection boSpace coSpace (botRows w) (connectionRows w);
  ok_threads : refsTo (λ t, Some (wtBot t)) wtSpace boSpace (threadRows w) (botRows w);
  ok_spawn : uniqueBy (λ b, Some (boSpace b, boSpawnKey b)) (botRows w);
  ok_names : uniqueBy (λ r, Some (seSpace r, seUser r, seName r)) (sectionRows w);
  ok_labels : uniqueBy (λ c, Some (coSpace c, coLabel c)) (connectionRows w);
  ok_default : uniqueBy (λ c, if coDefault c then Some (coSpace c) else None) (connectionRows w);
  ok_bots : map_Forall (λ _ b, botChecks b = true) (botRows w);
  ok_checks : map_Forall (λ _ c, connectionChecks c = true) (connectionRows w) }.

(** A space's members, before any command. *)
Definition founded (members : gset (jstr * jstr)) : Workspace :=
  {| botRows := ∅; sectionRows := ∅; connectionRows := ∅; threadRows := ∅; memberRows := members |}.

Lemma founded_ok members : workspaceOk (founded members).
Proof. by split. Qed.

Definition keepsOk (X : Type) (stmt : statement Workspace X) : Prop := ∀ now w, workspaceOk w → workspaceOk (stmt now w).2.

Section commands.
Context (a : UserActor).
Abbreviation s := (acSpace a).

Lemma sectionRefOk_spec ref w :
  sectionRefOk a ref w = true ↔ ∀ r, ref = Some r → ∃ y, sectionRows w !! r = Some y ∧ seSpace y = s ∧ seUser y = acUser a.
Proof.
  unfold sectionRefOk. destruct ref as [id|]; [|done]. rewrite bool_decide_eq_true. split.
  - intros [y Hy%sectionsOf_Some] r [= <-]. by exists y.
  - intros Hr. destruct (Hr id eq_refl) as (y & Hy). exists y. by apply sectionsOf_Some.
Qed.

Lemma connectionRefOk_spec ref w :
  connectionRefOk s ref w = true ↔ ∀ r, ref = Some r → ∃ y, connectionRows w !! r = Some y ∧ coSpace y = s.
Proof.
  unfold connectionRefOk. destruct ref as [id|]; [|done]. rewrite bool_decide_eq_true. split.
  - intros [y Hy%connectionsIn_Some] r [= <-]. by exists y.
  - intros Hr. destruct (Hr id eq_refl) as (y & Hy). exists y. by apply connectionsIn_Some.
Qed.

(** A bot written under an id: its references are in its space, its spawn key is its own. *)
Lemma writeBot_ok id b w :
  workspaceOk w → (∀ b', botRows w !! id = Some b' → boSpace b' = boSpace b) →
  (∀ r, boSection b = Some r → ∃ y, sectionRows w !! r = Some y ∧ seSpace y = boSpace b) →
  (∀ r, boConnection b = Some r → ∃ y, connectionRows w !! r = Some y ∧ coSpace y = boSpace b) →
  (∀ j y, botRows w !! j = Some y → j ≠ id → boSpace y = boSpace b → boSpawnKey y ≠ boSpawnKey b) →
  botChecks b = true → workspaceOk (withBots w (<[id := b]> (botRows w))).
Proof.
  intros [H1 H2 H3 H4 H5 H6 H7 H8 H9] Hs Hse Hco Hsp Hc. split; cbn [withBots botRows sectionRows connectionRows threadRows]; try done.
  - by apply refsTo_insert_left.
  - by apply refsTo_insert_left.
  - apply refsTo_insert_right; [done|]. intros y' Hy'. symmetry. by apply Hs.
  - apply uniqueBy_insert; [done|]. intros j y k Hj Hne [= <-] [= E1 E2]. by apply (Hsp j y).
  - by apply map_Forall_insert_2.
Qed.

Lemma insertBot_ok newId input : keepsOk _ (insertBot a newId input).
Proof.
  intros now w Hw. unfold insertBot. destruct (sectionRefOk a _ w && connectionRefOk s _ w) eqn:Hr; cbn [negb]; [|done].
  apply andb_true_iff in Hr as [Hse Hco]. destruct (botChecks _) eqn:Hc; cbn [negb]; [|done].
  destruct (findRow _ _) as [kv|] eqn:Hf; [done|]. destruct (botRows w !! newId) eqn:Hn; [done|]. cbn [snd]. apply writeBot_ok; try done.
  - intros b'. by rewrite Hn.
  - intros r Hx. destruct (proj1 (sectionRefOk_spec _ _) Hse r Hx) as (y & ? & ? & _). by exists y.
  - intros r Hx. by apply (proj1 (connectionRefOk_spec _ _) Hco r Hx).
  - intros j y Hj _ Hs Hk. pose proof (proj1 (findRow_none _ _) Hf j y) as Hx. rewrite botsIn_Some in Hx.
    specialize (Hx (conj Hj Hs)). by rewrite bool_decide_eq_false in Hx.
Qed.

Lemma updateBotRow_ok id guard f :
  (∀ now b, boSpace (f now b) = boSpace b ∧ boSpawnKey (f now b) = boSpawnKey b) →
  (∀ w now b r, guard w = true → boSpace b = s → boSection (f now b) = Some r → boSection b = Some r ∨ ∃ y, sectionRows w !! r = Some y ∧ seSpace y = s) →
  (∀ w now b r, guard w = true → boSpace b = s → boConnection (f now b) = Some r → boConnection b = Some r ∨ ∃ y, connectionRows w !! r = Some y ∧ coSpace y = s) →
  keepsOk _ (updateBotRow a id guard f).
Proof.
  intros Hf Hse Hco now w Hw. unfold updateBotRow. destruct (botsIn s w !! id) as [b|] eqn:E; [|done].
  apply botsIn_Some in E as [Hb Hs]. destruct (guard w) eqn:Hg; cbn [negb]; [|done]. destruct (botChecks _) eqn:Hc; cbn [negb]; [|done].
  cbn [snd]. destruct (Hf now b) as [Hsp Hsk]. apply writeBot_ok; try done.
  - intros b'. rewrite Hb, Hsp. by intros [= <-].
  - intros r Hx. rewrite Hsp, Hs. destruct (Hse w now b r Hg Hs Hx) as [Hx'|?]; [|done].
    destruct (ok_sections _ Hw id b r Hb Hx') as (y & ? & Hy). exists y. by rewrite Hy.
  - intros r Hx. rewrite Hsp, Hs. destruct (Hco w now b r Hg Hs Hx) as [Hx'|?]; [|done].
    destruct (ok_connections _ Hw id b r Hb Hx') as (y & ? & Hy). exists y. by rewrite Hy.
  - intros j y Hj Hne. rewrite Hsp, Hsk. intros E Hk. apply Hne. eapply (ok_spawn _ Hw j id y b); try done. by rewrite E, Hk.
Qed.

Lemma patchedBot_ok id p : keepsOk _ (updateBotRow a id (patchGuard a p) (patchedBot p)).
Proof.
  apply updateBotRow_ok; [done|..]; intros w now b r [Hse Hco]%andb_true_iff Hs; cbn [patchedBot boSection boConnection].
  - destruct (bpSection p) as [o|]; cbn; [|by left]. unfold Datatypes.id. intros ->. right.
    destruct (proj1 (sectionRefOk_spec _ _) Hse r eq_refl) as (y & ? & ? & _). by exists y.
  - destruct (bpConnection p) as [o|]; cbn; [|by left]. unfold Datatypes.id. intros ->. right.
    by apply (proj1 (connectionRefOk_spec _ _) Hco r eq_refl).
Qed.

Lemma deleteBotRow_ok id : keepsOk _ (deleteBotRow a id).
Proof.
  intros now w [H1 H2 H3 H4 H5 H6 H7 H8 H9]. unfold deleteBotRow. destruct (botsIn s w !! id) as [b|]; [|by split].
  split; cbn [snd withThreads withBots botRows sectionRows connectionRows threadRows]; try done;
    [by apply refsTo_delete_left|by apply refsTo_delete_left| |by apply uniqueBy_delete|by apply map_Forall_delete].
  apply refsTo_delete_right; [by apply refsTo_filter_left|]. intros j x [_ Hx]%map_lookup_filter_Some [= E]. by destruct Hx.
Qed.

Lemma threadInsert_ok newId botId : keepsOk _ (insertThread a newId botId).
Proof.
  intros now w Hw. unfold insertThread. destruct (botsIn s w !! botId) as [b|] eqn:E; [|done]. apply botsIn_Some in E as [Hb Hs].
  destruct (threadRows w !! newId); [done|]. destruct Hw as [H1 H2 H3 H4 H5 H6 H7 H8 H9]. split; cbn; try done.
  apply refsTo_insert_left; [done|]. intros r [= <-]. by exists b.
Qed.

Lemma sectionNamed_false name id w :
  sectionNamed a name id w = false → ∀ k r, sectionRows w !! k = Some r → seSpace r = s → seUser r = acUser a → seName r = name → Some k = id.
Proof.
  intros Hn k r Hr Hs Hu He. apply bool_decide_eq_false in Hn. destruct (decide (Some k = id)) as [|Hk]; [done|]. destruct Hn.
  apply findRow_is_some. exists k, r. split; [by apply sectionsOf_Some|]. rewrite bool_decide_true by done. by rewrite bool_decide_false.
Qed.

(** A section written under an id. *)
Lemma writeSection_ok id r w :
  workspaceOk w → (∀ r', sectionRows w !! id = Some r' → seSpace r = seSpace r') →
  (∀ j y, sectionRows w !! j = Some y → j ≠ id → seSpace y = seSpace r → seUser y = seUser r → seName y ≠ seName r) →
  workspaceOk (withSections w (<[id := r]> (sectionRows w))).
Proof.
  intros [H1 H2 H3 H4 H5 H6 H7 H8 H9] Hs Hn. split; cbn [withSections botRows sectionRows connectionRows threadRows]; try done.
  - by apply refsTo_insert_right.
  - apply uniqueBy_insert; [done|]. intros j y k Hj Hne [= <-] [= E1 E2 E3]. by apply (Hn j y).
Qed.

Lemma insertSection_ok newId name position : keepsOk _ (insertSection a newId name position).
Proof.
  intros now w Hw. unfold insertSection. destruct (sectionNamed a name None w) eqn:Hn; [done|].
  destruct (sectionRows w !! newId) eqn:E; [done|]. cbn [snd]. apply writeSection_ok; [done|by intros r'; rewrite E|].
  intros j y Hj _ Hs Hu He. by pose proof (sectionNamed_false _ _ _ Hn j y Hj Hs Hu He).
Qed.

Lemma updateSectionRow_ok id p : keepsOk _ (updateSectionRow a id p).
Proof.
  intros now w Hw. unfold updateSectionRow. destruct (sectionsOf a w !! id) as [r|] eqn:E; [|done].
  apply sectionsOf_Some in E as (Hr & Hs & Hu). destruct (spName p) as [name|] eqn:Hp.
  - destruct (sectionNamed a name (Some id) w) eqn:Hn; [done|]. cbn [snd]. apply writeSection_ok; [done|rewrite Hr; by intros r' [= <-]|].
    cbn. intros j y Hj Hne Es Eu En. pose proof (sectionNamed_false _ _ _ Hn j y Hj ltac:(congruence) ltac:(congruence) En) as [= ->]. done.
  - cbn [snd]. apply writeSection_ok; [done|rewrite Hr; by intros r' [= <-]|]. cbn. intros j y Hj Hne Es Eu En.
    apply Hne. eapply (ok_names _ Hw j id y r); [done|done|done|]. by rewrite Es, Eu, En.
Qed.

Lemma unfiled_ok id b :
  boConnection (unfiled id b) = boConnection b ∧ boSpawnKey (unfiled id b) = boSpawnKey b ∧ botChecks (unfiled id b) = botChecks b ∧
  boSection (unfiled id b) ≠ Some id ∧ ∀ r, boSection (unfiled id b) = Some r → boSection b = Some r.
Proof. unfold unfiled. destruct (bool_decide_reflect (boSection b = Some id)); by split_and!. Qed.

Lemma withoutConnection_ok id b :
  boSection (withoutConnection id b) = boSection b ∧ boSpawnKey (withoutConnection id b) = boSpawnKey b ∧
  botChecks (withoutConnection id b) = botChecks b ∧
  boConnection (withoutConnection id b) ≠ Some id ∧ ∀ r, boConnection (withoutConnection id b) = Some r → boConnection b = Some r.
Proof. unfold withoutConnection. destruct (bool_decide_reflect (boConnection b = Some id)); by split_and!. Qed.

Lemma deleteSectionRow_ok id : keepsOk _ (deleteSectionRow a id).
Proof.
  intros now w [H1 H2 H3 H4 H5 H6 H7 H8 H9]. unfold deleteSectionRow. destruct (sectionsOf a w !! id) as [r|]; [|by split].
  split; cbn [snd withSections withBots botRows sectionRows connectionRows threadRows]; try done.
  - apply refsTo_delete_right.
    + apply refsTo_fmap_left; [apply unfiled_space|apply unfiled_ok|done].
    + intros j x Hj. rewrite lookup_fmap in Hj. destruct (botRows w !! j); [|done]. injection Hj as <-. apply unfiled_ok.
  - apply refsTo_fmap_left; [apply unfiled_space| |done]. intros x r'. by rewrite (proj1 (unfiled_ok id x)).
  - apply refsTo_fmap_right; [apply unfiled_space|done].
  - apply uniqueBy_fmap; [|done]. intros x. by rewrite unfiled_space, (proj1 (proj2 (unfiled_ok id x))).
  - by apply uniqueBy_delete.
  - intros j x. rewrite lookup_fmap. destruct (botRows w !! j) eqn:E; [|done]. intros [= <-].
    rewrite (proj1 (proj2 (proj2 (unfiled_ok id _)))). by apply (H8 j).
Qed.
End commands.

(** ** Connections *)

Section connections.
Context (a : UserActor).
Abbreviation s := (acSpace a).

Lemma writeConnection_ok id c w :
  workspaceOk w → (∀ c', connectionRows w !! id = Some c' → coSpace c = coSpace c') →
  (∀ j y, connectionRows w !! j = Some y → j ≠ id → coSpace y = coSpace c → coLabel y ≠ coLabel c) →
  (coDefault c = true → ∀ j y, connectionRows w !! j = Some y → j ≠ id → coSpace y = coSpace c → coDefault y = false) →
  connectionChecks c = true → workspaceOk (withConnections w (<[id := c]> (connectionRows w))).
Proof.
  intros [H1 H2 H3 H4 H5 H6 H7 H8 H9] Hs Hl Hd Hc. split; cbn [withConnections botRows sectionRows connectionRows threadRows]; try done.
  - by apply refsTo_insert_right.
  - apply uniqueBy_insert; [done|]. intros j y k Hj Hne [= <-] [= E1 E2]. by apply (Hl j y).
  - apply uniqueBy_insert; [done|]. intros j y k Hj Hne. destruct (coDefault c); [|done]. intros [= <-].
    destruct (coDefault y) eqn:Ey; [|done]. intros [= E]. by rewrite (Hd eq_refl j y Hj Hne E) in Ey.
  - by apply map_Forall_insert_2.
Qed.

Lemma connectionLabelled_false label id w :
  connectionLabelled a label id w = false → ∀ k c, connectionRows w !! k = Some c → coSpace c = s → coLabel c = label → Some k = id.
Proof.
  intros Hn k r Hr Hs He. apply bool_decide_eq_false in Hn. destruct (decide (Some k = id)) as [|Hk]; [done|]. destruct Hn.
  apply findRow_is_some. exists k, r. split; [by apply connectionsIn_Some|]. rewrite bool_decide_true by done. by rewrite bool_decide_false.
Qed.

Lemma otherDefault_false id w :
  otherDefault a id w = false → ∀ k c, connectionRows w !! k = Some c → coSpace c = s → k ≠ id → coDefault c = false.
Proof.
  intros Hn k c Hk Hs Hne. apply bool_decide_eq_false in Hn. destruct (coDefault c) eqn:Hd; [|done]. destruct Hn.
  apply findRow_is_some. exists k, c. split; [by apply connectionsIn_Some|]. rewrite Hd. by rewrite bool_decide_false.
Qed.

Lemma insertConnection_ok newId input : keepsOk _ (insertConnection a newId input).
Proof.
  intros now w Hw. unfold insertConnection. destruct (connectionChecks _) eqn:Hc; cbn [negb]; [|done].
  destruct (connectionLabelled _ _ _ w) eqn:Hn; [done|]. destruct (connectionRows w !! newId) eqn:E; [done|]. cbn [snd].
  apply writeConnection_ok; try done; [by intros c'; rewrite E|]. intros j y Hj _ Hs He.
  by pose proof (connectionLabelled_false _ _ _ Hn j y Hj Hs He).
Qed.

(** An update that moves neither the space, nor the label, nor the default. *)
Lemma writeSame_ok id c c' w :
  workspaceOk w → connectionRows w !! id = Some c → coSpace c' = coSpace c → coLabel c' = coLabel c → coDefault c' = coDefault c →
  connectionChecks c' = true → workspaceOk (withConnections w (<[id := c']> (connectionRows w))).
Proof.
  intros Hw Hc Hs Hl Hd Hok. apply writeConnection_ok; try done.
  - rewrite Hc. by intros ? [= <-].
  - intros j y Hj Hne. rewrite Hs, Hl. intros E1 E2. apply Hne. eapply (ok_labels _ Hw j id y c); [done|done|done|]. by rewrite E1, E2.
  - rewrite Hd. intros Ht j y Hj Hne. rewrite Hs. intros E. destruct (coDefault y) eqn:Ey; [|done]. destruct Hne.
    eapply (ok_default _ Hw j id y c); [done|done|by rewrite Ey|]. by rewrite Ht, E.
Qed.

Lemma updateConnectionRow_ok id p : keepsOk _ (updateConnectionRow a id p).
Proof.
  intros now w Hw. unfold updateConnectionRow. destruct (connectionsIn s w !! id) as [c|] eqn:E; [|done].
  apply connectionsIn_Some in E as [Hc Hs]. destruct (connectionChecks _) eqn:Hok; cbn [negb]; [|done].
  destruct (cpLabel p) as [label|] eqn:Hp.
  - destruct (connectionLabelled _ _ _ w) eqn:Hn; [done|]. cbn [snd]. apply writeConnection_ok; try done.
    + rewrite Hc. by intros ? [= <-].
    + cbn. rewrite Hp. cbn. unfold Datatypes.id. intros j y Hj Hne E1 E2.
      pose proof (connectionLabelled_false _ _ _ Hn j y Hj ltac:(congruence) E2) as [= ->]. done.
    + cbn. intros Ht j y Hj Hne E1. destruct (coDefault y) eqn:Ey; [|done]. destruct Hne.
      eapply (ok_default _ Hw j id y c); [done|done|by rewrite Ey|]. by rewrite Ht, E1.
  - cbn [snd]. apply (writeSame_ok id c); try done. cbn. by rewrite Hp.
Qed.

Lemma markedDefault_checks flag now c : connectionChecks (markedDefault flag now c) = connectionChecks c.
Proof. done. Qed.

Lemma clearDefaults_ok id : keepsOk _ (clearDefaults a id).
Proof.
  intros now w [H1 H2 H3 H4 H5 H6 H7 H8 H9].
  set (f := λ k c, if bool_decide (coSpace c = s) && coDefault c && negb (bool_decide (k = id)) then markedDefault false now c else c).
  assert (∀ k c, coSpace (f k c) = coSpace c ∧ coLabel (f k c) = coLabel c ∧ connectionChecks (f k c) = connectionChecks c ∧
    (coDefault (f k c) = true → coDefault c = true)) as Hf by (intros k c; unfold f; destruct (_ && _); by split_and!).
  split; cbn [clearDefaults snd withConnections botRows sectionRows connectionRows threadRows]; try done.
  - apply (refsTo_imap_right _ _ _ f); [|done]. intros k c. by destruct (Hf k c).
  - apply (uniqueBy_imap _ f); [|done]. intros k c x. destruct (Hf k c) as (-> & -> & _). done.
  - apply (uniqueBy_imap _ f); [|done]. intros k c x. destruct (Hf k c) as (-> & _ & _ & Hd).
    destruct (coDefault (f k c)); [|done]. by rewrite Hd.
  - intros k c. rewrite map_lookup_imap. destruct (connectionRows w !! k) as [c0|] eqn:E; [|done]. intros [= <-].
    change (connectionChecks (f k c0) = true). destruct (Hf k c0) as (_ & _ & -> & _). by apply (H9 k).
Qed.

Lemma writeDefault_ok id : keepsOk _ (writeDefault a id).
Proof.
  intros now w Hw. unfold writeDefault. destruct (connectionsIn s w !! id) as [c|] eqn:E; [|done].
  apply connectionsIn_Some in E as [Hc Hs]. destruct (otherDefault a id w) eqn:Ho; [done|]. cbn [snd]. apply writeConnection_ok; try done.
  - rewrite Hc. by intros ? [= <-].
  - cbn. intros j y Hj Hne E1 E2. apply Hne. eapply (ok_labels _ Hw j id y c); [done|done|done|]. by rewrite E1, E2.
  - cbn. intros _ j y Hj Hne E1. eapply (otherDefault_false id w); [done|done|congruence|done].
  - rewrite markedDefault_checks. by apply (ok_checks _ Hw id).
Qed.

Lemma deleteConnectionRow_ok id : keepsOk _ (deleteConnectionRow a id).
Proof.
  intros now w [H1 H2 H3 H4 H5 H6 H7 H8 H9]. unfold deleteConnectionRow. destruct (connectionsIn s w !! id) as [r|]; [|by split].
  split; cbn [snd withConnections withBots botRows sectionRows connectionRows threadRows]; try done.
  - apply refsTo_fmap_left; [apply withoutConnection_space| |done]. intros x r'. by rewrite (proj1 (withoutConnection_ok id x)).
  - apply refsTo_delete_right.
    + apply refsTo_fmap_left; [apply withoutConnection_space|apply withoutConnection_ok|done].
    + intros j x Hj. rewrite lookup_fmap in Hj. destruct (botRows w !! j); [|done]. injection Hj as <-. apply withoutConnection_ok.
  - apply refsTo_fmap_right; [apply withoutConnection_space|done].
  - apply uniqueBy_fmap; [|done]. intros x. by rewrite withoutConnection_space, (proj1 (proj2 (withoutConnection_ok id x))).
  - by apply uniqueBy_delete.
  - by apply uniqueBy_delete.
  - intros j x. rewrite lookup_fmap. destruct (botRows w !! j) eqn:E; [|done]. intros [= <-].
    rewrite (proj1 (proj2 (proj2 (withoutConnection_ok id _)))). by apply (H8 j).
  - by apply map_Forall_delete.
Qed.

Lemma markUsed_ok id : keepsOk _ (markUsed a id).
Proof.
  intros now w Hw. unfold markUsed. destruct (connectionsIn s w !! id) as [c|] eqn:E; [|done]. apply connectionsIn_Some in E as [Hc _].
  cbn [snd]. apply (writeSame_ok id c); try done. change (connectionChecks c = true). by apply (ok_checks _ Hw id).
Qed.
End connections.

(** ** Every command *)

Lemma perform_ok a c : issues keepsOk (perform a c).
Proof.
  apply issues_perform; intros.
  - by intros now w.
  - apply insertBot_ok.
  - apply patchedBot_ok.
  - apply updateBotRow_ok; destruct H as [-> |[-> |[key ->]]]; cbn; auto.
  - apply deleteBotRow_ok.
  - apply threadInsert_ok.
  - apply insertSection_ok.
  - apply updateSectionRow_ok.
  - apply deleteSectionRow_ok.
  - apply insertConnection_ok.
  - apply updateConnectionRow_ok.
  - apply clearDefaults_ok.
  - apply writeDefault_ok.
  - apply deleteConnectionRow_ok.
  - apply markUsed_ok.
Qed.

(** The statements a program may come to issue. *)
Inductive issued {St A} : program St A → ∀ X, statement St X → Prop :=
| issued_here X (stmt : statement St X) k : issued (Query stmt k) X stmt
| issued_later X Y (stmt : statement St X) (stmt' : statement St Y) k x : issued (k x) Y stmt' → issued (Query stmt k) Y stmt'.

Lemma issued_issues {St A} (P : ∀ X, statement St X → Prop) (p : program St A) X stmt : issued p X stmt → issues P p → P X stmt.
Proof. induction 1 as [|X Y stmt stmt' k x _ IH]; intros [Hp Hk]; [done|]. apply IH, Hk. Qed.

Lemma issues_issued {St A} (P : ∀ X, statement St X → Prop) (p : program St A) : (∀ X stmt, issued p X stmt → P X stmt) → issues P p.
Proof.
  induction p as [|X stmt k IH]; intros Hp; cbn [issues]; [done|]. split; [apply Hp, issued_here|]. intros x. apply IH.
  intros Y stmt' Hi. by eapply Hp, issued_later.
Qed.

(** One statement of any command of any actor, under any clock. *)
Definition workspaceStep (w w' : Workspace) : Prop :=
  ∃ a c X stmt now, issued (perform a c) X stmt ∧ w' = (stmt now w).2.

Lemma workspaceStep_ok w w' : workspaceStep w w' → workspaceOk w → workspaceOk w'.
Proof. intros (a & c & X & stmt & now & Hi & ->). apply (issued_issues keepsOk _ _ _ Hi), perform_ok. Qed.

Lemma workspaceSteps_ok w w' : rtc workspaceStep w w' → workspaceOk w → workspaceOk w'.
Proof. induction 1; eauto using workspaceStep_ok. Qed.

(** A command alone is a run of steps. *)
Lemma runAlone_steps a c now w : rtc workspaceStep w (runAlone (perform a c) now w).2.
Proof.
  apply (runs_steps _ (perform a c) now w (runAlone (perform a c) now w).1); [|apply runAlone_runs].
  apply issues_issued. intros X stmt Hi now' w'. apply rtc_once. by exists a, c, X, stmt, now'.
Qed.

(** C9. C1: whatever statements the commands of the members of any spaces interleave, every
    reference of a row is to a row of its own space, each unique index holds, no space has
    two default connections, and every row passes its checks. *)
Theorem workspace_invariant (members : gset (jstr * jstr)) (w : Workspace) :
  rtc workspaceStep (founded members) w → workspaceOk w.
Proof. intros H. apply (workspaceSteps_ok _ _ H), founded_ok. Qed.

(** A connection, a bot on it, and a thread of the bot; then the connection goes. *)
Definition owner : UserActor := {| acSpace := u "s"; acUser := u "me" |}.

Definition firstCommands : list Command := [
  CreateConnection (u "c") {| ncLabel := u "main"; ncBaseUrl := u "https://api.test/v1"; ncCredential := u "key"; ncModel := Some (u "m") |};
  CreateBot (u "b") {|
    nbName := u "Bot"; nbColor := u "red"; nbSpawnKey := u "k"; nbTitle := None; nbDescription := None; nbInstructions := None;
    nbPinned := None; nbPosition := None; nbSection := None; nbComputerId := None; nbComputerProvider := None;
    nbConnection := Some (u "c"); nbModel := None |};
  CreateThread (u "t") (u "b");
  DeleteConnection (u "c")].

Definition afterCommand (w : Workspace) (c : Command) : Workspace := (runAlone (perform owner c) 1%Z w).2.

Lemma workspace_invariant_witness :
  ∃ w, boConnection <$> botRows w !! u "b" = Some None ∧ size (connectionRows w) = 0 ∧ size (threadRows w) = 1 ∧ workspaceOk w.
Proof.
  exists (foldl afterCommand (founded ∅) firstCommands). do 3 (split; [by vm_compute|]). apply (workspace_invariant ∅).
  cbn [foldl firstCommands]. repeat (etrans; [|by apply runAlone_steps]). done.
Defined.
