(* ===== verification/WorkspaceIsolation.v ===== *)
(** The tenancy of the workspace: references stay inside a space, keys stay unique, and what
    one space does neither reads nor writes another's rows. *)

From S2P Require Import Prelude JsText Conversations Statements Threads Workspace WorkspaceInvariants.

(** ** What a space sees *)

Section keep.
Context {A : Type} (sp : A → jstr) (s : jstr) (o : option jstr).

(** The rows of a space, and the row under an id it may draw. *)
Definition keep (m : gmap jstr A) : gmap jstr A := filter (λ kv : jstr * A, sp kv.2 = s ∨ Some kv.1 = o) m.

Definition inSpace (m : gmap jstr A) : gmap jstr A := filter (λ kv : jstr * A, sp kv.2 = s) m.

(** The row under the drawn id, if there is one, is the space's. *)
Definition mine (m : gmap jstr A) : Prop := ∀ id x, o = Some id → m !! id = Some x → sp x = s.

Lemma inSpace_keep m : inSpace (keep m) = inSpace m.
Proof. unfold inSpace, keep. rewrite map_filter_filter. apply map_filter_ext. intros k x _. cbn. tauto. Qed.

Lemma inSpace_Some m id x : inSpace m !! id = Some x ↔ m !! id = Some x ∧ sp x = s.
Proof. apply map_lookup_filter_Some. Qed.

Lemma keep_insert m id x : sp x = s → keep (<[id := x]> m) = <[id := x]> (keep m).
Proof. intros Hx. apply map_filter_insert_True. by left. Qed.

Lemma keep_delete m id : keep (delete id m) = delete id (keep m).
Proof. apply map_filter_delete. Qed.

Lemma keep_drawn m id : o = Some id → keep m !! id = m !! id.
Proof.
  intros Ho. unfold keep. rewrite map_lookup_filter. destruct (m !! id) as [x|]; [|done]. cbn.
  rewrite option_guard_True; [done|by right].
Qed.

Lemma keep_fmap (f : A → A) m : (∀ x, sp (f x) = sp x) → keep (f <$> m) = f <$> keep m.
Proof.
  intros Hf. unfold keep. apply map_eq. intros id. rewrite map_lookup_filter, !lookup_fmap, map_lookup_filter.
  destruct (m !! id) as [x|]; [|done]. cbn. destruct (decide (sp x = s ∨ Some id = o)) as [Hx|Hx].
  - rewrite !option_guard_True; [done|done|cbn; by rewrite Hf].
  - rewrite !option_guard_False; [done|done|cbn; by rewrite Hf].
Qed.

(** A row of another space is not seen, whatever becomes of it. *)
Lemma keep_insert_other m id x :
  sp x ≠ s → Some id ≠ o → (∀ y, m !! id = Some y → sp y ≠ s) → keep (<[id := x]> m) = keep m.
Proof.
  intros Hx Ho Hy. unfold keep. rewrite map_filter_insert_False by (cbn; tauto). rewrite map_filter_delete.
  apply delete_id. apply map_lookup_filter_None. destruct (m !! id) as [y|] eqn:E; [right|by left].
  intros y' [= <-]. cbn. specialize (Hy y eq_refl). tauto.
Qed.

Lemma keep_delete_other m id : Some id ≠ o → (∀ y, m !! id = Some y → sp y ≠ s) → keep (delete id m) = keep m.
Proof.
  intros Ho Hy. rewrite keep_delete. apply delete_id. unfold keep. apply map_lookup_filter_None.
  destruct (m !! id) as [y|] eqn:E; [right|by left]. intros y' [= <-]. cbn. specialize (Hy y eq_refl). tauto.
Qed.

Lemma keep_ext m m' : (∀ id x, sp x = s ∨ Some id = o → m !! id = Some x ↔ m' !! id = Some x) → keep m = keep m'.
Proof.
  intros Hm. unfold keep. apply map_eq. intros id. apply option_eq. intros x. rewrite !map_lookup_filter_Some. cbn.
  split; intros [Hx Hp]; (split; [|done]); by apply (Hm id x Hp).
Qed.

Lemma mine_other m id : mine m → (∃ y, m !! id = Some y ∧ sp y ≠ s) → Some id ≠ o.
Proof. intros Hm (y & Hy & Hs) <-. by destruct Hs; eapply Hm. Qed.

(** What is mine is in what is kept. *)
Lemma mine_keep m : mine (keep m) ↔ mine m.
Proof.
  split; intros Hm id x Ho Hx; apply (Hm id x Ho).
  - by rewrite keep_drawn.
  - by rewrite keep_drawn in Hx.
Qed.

Lemma mine_insert m id x : sp x = s → mine m → mine (<[id := x]> m).
Proof. intros Hx Hm i y Ho. rewrite lookup_insert. case_decide; [by intros [= <-]|by apply Hm]. Qed.

Lemma mine_sub m m' : (∀ id x, m' !! id = Some x → ∃ y, m !! id = Some y ∧ sp y = sp x) → mine m → mine m'.
Proof. intros Hs Hm id x Ho Hx. destruct (Hs id x Hx) as (y & Hy & <-). by apply (Hm id). Qed.

Lemma mine_delete m id : mine m → mine (delete id m).
Proof. apply mine_sub. intros i x [_ Hx]%lookup_delete_Some. by exists x. Qed.

Lemma mine_filter (P : jstr * A → Prop) `{!∀ x, Decision (P x)} m : mine m → mine (filter P m).
Proof. apply mine_sub. intros i x [Hx _]%map_lookup_filter_Some. by exists x. Qed.

Lemma mine_fmap (f : A → A) m : (∀ x, sp (f x) = sp x) → mine m → mine (f <$> m).
Proof. intros Hf. apply mine_sub. intros i x. rewrite lookup_fmap. destruct (m !! i) as [y|]; [|done]. intros [= <-]. by exists y. Qed.

Lemma mine_imap (f : jstr → A → A) m : (∀ i x, sp (f i x) = sp x) → mine m → mine (map_imap (λ i x, Some (f i x)) m).
Proof. intros Hf. apply mine_sub. intros i x. rewrite map_lookup_imap. destruct (m !! i) as [y|]; [|done]. intros [= <-]. by exists y. Qed.
End keep.

Definition view (s : jstr) (o : option jstr) (w : Workspace) : Workspace :=
  {| botRows := keep boSpace s o (botRows w); sectionRows := keep seSpace s o (sectionRows w);
     connectionRows := keep coSpace s o (connectionRows w); threadRows := keep wtSpace s o (threadRows w);
     memberRows := filter (λ p : jstr * jstr, p.1 = s) (memberRows w) |}.

Record allMine (s : jstr) (o : option jstr) (w : Workspace) : Prop := {
  am_bots : mine boSpace s o (botRows w);
  am_sections : mine seSpace s o (sectionRows w);
  am_connections : mine coSpace s o (connectionRows w);
  am_threads : mine wtSpace s o (threadRows w) }.

(** ** A command of the space runs on what the space sees *)

Section own.
Context (a : UserActor) (o : option jstr).
Abbreviation s := (acSpace a).

Lemma botsIn_view w : botsIn s (view s o w) = botsIn s w.
Proof. apply inSpace_keep. Qed.
Lemma sectionsIn_view w : sectionsIn s (view s o w) = sectionsIn s w.
Proof. apply inSpace_keep. Qed.
Lemma connectionsIn_view w : connectionsIn s (view s o w) = connectionsIn s w.
Proof. apply inSpace_keep. Qed.
Lemma threadsIn_view w : threadsIn s (view s o w) = threadsIn s w.
Proof. apply inSpace_keep. Qed.
Lemma sectionsOf_view w : sectionsOf a (view s o w) = sectionsOf a w.
Proof. unfold sectionsOf. by rewrite sectionsIn_view. Qed.

Lemma sectionRefOk_view ref w : sectionRefOk a ref (view s o w) = sectionRefOk a ref w.
Proof. unfold sectionRefOk. by rewrite sectionsOf_view. Qed.
Lemma connectionRefOk_view ref w : connectionRefOk s ref (view s o w) = connectionRefOk s ref w.
Proof. unfold connectionRefOk. by rewrite connectionsIn_view. Qed.
Lemma sectionNamed_view name id w : sectionNamed a name id (view s o w) = sectionNamed a name id w.
Proof. unfold sectionNamed. by rewrite sectionsOf_view. Qed.
Lemma connectionLabelled_view label id w : connectionLabelled a label id (view s o w) = connectionLabelled a label id w.
Proof. unfold connectionLabelled. by rewrite connectionsIn_view. Qed.
Lemma otherDefault_view id w : otherDefault a id (view s o w) = otherDefault a id w.
Proof. unfold otherDefault. by rewrite connectionsIn_view. Qed.

(** A statement that runs on the view as it runs on the tables. *)
Definition ownStatement (X : Type) (stmt : statement Workspace X) : Prop :=
  ∀ now w, (stmt now (view s o w)).1 = (stmt now w).1 ∧ (stmt now (view s o w)).2 = view s o (stmt now w).2.

(** A read of the view. *)
Lemma ownRead {X} (f : Workspace → X) : (∀ w, f (view s o w) = f w) → ownStatement X (λ _ w, (f w, w)).
Proof. intros Hf now w. cbn. by rewrite Hf. Qed.

Lemma view_insertBot id b w : boSpace b = s → view s o (withBots w (<[id := b]> (botRows w))) = withBots (view s o w) (<[id := b]> (botRows (view s o w))).
Proof. intros Hb. unfold view, withBots. cbn. by rewrite keep_insert. Qed.
Lemma view_insertSection id r w : seSpace r = s → view s o (withSections w (<[id := r]> (sectionRows w))) = withSections (view s o w) (<[id := r]> (sectionRows (view s o w))).
Proof. intros Hb. unfold view, withSections. cbn. by rewrite keep_insert. Qed.
Lemma view_insertConnection id c w : coSpace c = s → view s o (withConnections w (<[id := c]> (connectionRows w))) = withConnections (view s o w) (<[id := c]> (connectionRows (view s o w))).
Proof. intros Hb. unfold view, withConnections. cbn. by rewrite keep_insert. Qed.
Lemma view_insertThread id t w : wtSpace t = s → view s o (withThreads w (<[id := t]> (threadRows w))) = withThreads (view s o w) (<[id := t]> (threadRows (view s o w))).
Proof. intros Hb. unfold view, withThreads. cbn. by rewrite keep_insert. Qed.

Lemma insertBot_own newId input : o = Some newId → ownStatement _ (insertBot a newId input).
Proof.
  intros Ho now w. unfold insertBot. rewrite sectionRefOk_view, connectionRefOk_view, botsIn_view.
  destruct (negb _); [done|]. destruct (negb _); [done|]. destruct (findRow _ _) as [kv|]; [done|].
  cbn [view botRows]. rewrite (keep_drawn boSpace s o (botRows w) newId Ho). destruct (botRows w !! newId); [done|].
  split; [done|]. cbn [snd]. by rewrite view_insertBot.
Qed.

Lemma updateBotRow_own id guard f :
  (∀ w, guard (view s o w) = guard w) → (∀ now b, boSpace (f now b) = boSpace b) → ownStatement _ (updateBotRow a id guard f).
Proof.
  intros Hg Hf now w. unfold updateBotRow. rewrite botsIn_view, Hg. destruct (botsIn s w !! id) as [b|] eqn:E; [|done].
  destruct (negb _); [done|]. destruct (negb _); [done|]. split; [done|]. cbn [snd]. rewrite view_insertBot; [done|].
  rewrite Hf. by apply botsIn_Some in E as [_ ?].
Qed.

Lemma deleteBotRow_own id : ownStatement _ (deleteBotRow a id).
Proof.
  intros now w. unfold deleteBotRow. rewrite botsIn_view. destruct (botsIn s w !! id) as [b|]; [|done]. split; [done|].
  cbn [snd]. unfold view, withThreads, withBots. cbn. rewrite keep_delete. f_equal. unfold keep.
  rewrite !map_filter_filter. apply map_filter_ext. intros k x _. cbn. tauto.
Qed.

Lemma insertThread_own newId botId : o = Some newId → ownStatement _ (insertThread a newId botId).
Proof.
  intros Ho now w. unfold insertThread. rewrite botsIn_view. destruct (botsIn s w !! botId); [|done].
  cbn [view threadRows]. rewrite (keep_drawn wtSpace s o (threadRows w) newId Ho). destruct (threadRows w !! newId); [done|].
  split; [done|]. cbn [snd]. by rewrite view_insertThread.
Qed.

Lemma insertSection_own newId name position : o = Some newId → ownStatement _ (insertSection a newId name position).
Proof.
  intros Ho now w. unfold insertSection. rewrite sectionNamed_view. destruct (sectionNamed a name None w); [done|].
  cbn [view sectionRows]. rewrite (keep_drawn seSpace s o (sectionRows w) newId Ho). destruct (sectionRows w !! newId); [done|].
  split; [done|]. cbn [snd]. by rewrite view_insertSection.
Qed.

Lemma updateSectionRow_own id p : ownStatement _ (updateSectionRow a id p).
Proof.
  intros now w. unfold updateSectionRow. rewrite sectionsOf_view. destruct (sectionsOf a w !! id) as [r|] eqn:E; [|done].
  apply sectionsOf_Some in E as (_ & Hs & _). destruct (spName p) as [name|].
  - rewrite sectionNamed_view. destruct (sectionNamed a name (Some id) w); [done|]. split; [done|]. cbn [snd]. by rewrite view_insertSection.
  - split; [done|]. cbn [snd]. by rewrite view_insertSection.
Qed.

Lemma deleteSectionRow_own id : ownStatement _ (deleteSectionRow a id).
Proof.
  intros now w. unfold deleteSectionRow. rewrite sectionsOf_view. destruct (sectionsOf a w !! id) as [r|]; [|done]. split; [done|].
  cbn [snd]. unfold view, withBots, withSections. cbn. rewrite keep_delete, keep_fmap; [done|apply unfiled_space].
Qed.

Lemma insertConnection_own newId input : o = Some newId → ownStatement _ (insertConnection a newId input).
Proof.
  intros Ho now w. unfold insertConnection. rewrite connectionLabelled_view. destruct (negb _); [done|].
  destruct (connectionLabelled _ _ _ _); [done|]. cbn [view connectionRows].
  rewrite (keep_drawn coSpace s o (connectionRows w) newId Ho). destruct (connectionRows w !! newId); [done|].
  split; [done|]. cbn [snd]. by rewrite view_insertConnection.
Qed.

Lemma updateConnectionRow_own id p : ownStatement _ (updateConnectionRow a id p).
Proof.
  intros now w. unfold updateConnectionRow. rewrite connectionsIn_view. destruct (connectionsIn s w !! id) as [c|] eqn:E; [|done].
  apply connectionsIn_Some in E as [_ Hs]. destruct (negb _); [done|]. destruct (cpLabel p) as [label|].
  - rewrite connectionLabelled_view. destruct (connectionLabelled _ _ _ _); [done|]. split; [done|]. cbn [snd]. by rewrite view_insertConnection.
  - split; [done|]. cbn [snd]. by rewrite view_insertConnection.
Qed.

Lemma clearDefaults_own id : ownStatement _ (clearDefaults a id).
Proof.
  intros now w. split; [done|]. unfold clearDefaults, view, withConnections. cbn. f_equal. unfold keep. apply map_eq. intros k.
  rewrite map_lookup_imap, !map_lookup_filter, map_lookup_imap. destruct (connectionRows w !! k) as [c|]; [|done]. cbn.
  assert (coSpace (if bool_decide (coSpace c = s) && coDefault c && negb (bool_decide (k = id)) then markedDefault false now c else c) = coSpace c)
    as Hs by by destruct (_ && _).
  destruct (decide (coSpace c = s ∨ Some k = o)) as [Hp|Hp].
  - rewrite !option_guard_True; [done|cbn; by rewrite Hs|done].
  - rewrite !option_guard_False; [done|cbn; by rewrite Hs|done].
Qed.

Lemma writeDefault_own id : ownStatement _ (writeDefault a id).
Proof.
  intros now w. unfold writeDefault. rewrite connectionsIn_view, otherDefault_view.
  destruct (connectionsIn s w !! id) as [c|] eqn:E; [|done]. apply connectionsIn_Some in E as [_ Hs].
  destruct (otherDefault a id w); [done|]. split; [done|]. cbn [snd]. by rewrite view_insertConnection.
Qed.

Lemma deleteConnectionRow_own id : ownStatement _ (deleteConnectionRow a id).
Proof.
  intros now w. unfold deleteConnectionRow. rewrite connectionsIn_view. destruct (connectionsIn s w !! id) as [c|]; [|done]. split; [done|].
  cbn [snd]. unfold view, withBots, withConnections. cbn. rewrite keep_delete, keep_fmap; [done|apply withoutConnection_space].
Qed.

Lemma markUsed_own id : ownStatement _ (markUsed a id).
Proof.
  intros now w. unfold markUsed. rewrite connectionsIn_view. destruct (connectionsIn s w !! id) as [c|] eqn:E; [|done].
  apply connectionsIn_Some in E as [_ Hs]. split; [done|]. cbn [snd]. by rewrite view_insertConnection.
Qed.
End own.

(** The statements of the space's own command. *)
Section ownCommand.
Context (a : UserActor) (o : option jstr).
Abbreviation s := (acSpace a).

Lemma scopedRead_own {X} (f : Workspace → X) : scopedRead a f → ownStatement a o X (λ _ w, (f w, w)).
Proof.
  intros Hf. apply ownRead. intros w. apply Hf.
  - apply botsIn_view.
  - apply sectionsOf_view.
  - apply connectionsIn_view.
  - apply threadsIn_view.
  - cbn [view memberRows]. set_solver.
Qed.

Lemma perform_own c : (∀ id, drawn c = Some id → o = Some id) → issues (ownStatement a o) (perform a c).
Proof.
  intros Ho. apply issues_perform; intros.
  - by apply scopedRead_own.
  - by apply insertBot_own, Ho.
  - apply updateBotRow_own; [|done]. intros w. unfold patchGuard. by rewrite sectionRefOk_view, connectionRefOk_view.
  - apply updateBotRow_own; [done|]. by destruct H as [-> |[-> |[key ->]]].
  - apply deleteBotRow_own.
  - by apply insertThread_own, Ho.
  - by apply insertSection_own, Ho.
  - apply updateSectionRow_own.
  - apply deleteSectionRow_own.
  - by apply insertConnection_own, Ho.
  - apply updateConnectionRow_own.
  - apply clearDefaults_own.
  - apply writeDefault_own.
  - apply deleteConnectionRow_own.
  - apply markUsed_own.
Qed.

(** It writes rows of its own. *)
Definition keepsMine (X : Type) (stmt : statement Workspace X) : Prop := ∀ now w, allMine s o w → allMine s o (stmt now w).2.

Lemma patched_mine id guard f : (∀ now b, boSpace (f now b) = boSpace b) → keepsMine _ (updateBotRow a id guard f).
Proof.
  intros Hf now w Hm. unfold updateBotRow. destruct (botsIn s w !! id) as [b|] eqn:E; [|done]. apply botsIn_Some in E as [_ Hs].
  destruct (negb _); [done|]. destruct (negb _); [done|]. destruct Hm. split; cbn; try done. apply mine_insert; [by rewrite Hf|done].
Qed.

Lemma perform_mine c : issues keepsMine (perform a c).
Proof.
  apply issues_perform; intros; [by intros now w| |by apply patched_mine| |..];
    [|apply patched_mine; by destruct H as [-> |[-> |[key ->]]]|..]; intros now w Hm.
  - unfold insertBot. repeat (case_match; [done|]; cbn [snd]). destruct Hm; split; cbn; try done. by apply mine_insert.
  - unfold deleteBotRow. case_match; [|done]. destruct Hm; split; cbn; auto using mine_delete, mine_filter.
  - unfold insertThread. case_match; [|done]. case_match; [done|]. destruct Hm; split; cbn; auto using mine_insert.
  - unfold insertSection. case_match; [done|]. case_match; [done|]. destruct Hm; split; cbn; auto using mine_insert.
  - unfold updateSectionRow. destruct (sectionsOf a w !! id) as [r|] eqn:E; [|done]. apply sectionsOf_Some in E as (_ & Hs & _).
    repeat (case_match; try done); destruct Hm; split; cbn; auto using mine_insert.
  - unfold deleteSectionRow. case_match; [|done]. destruct Hm; split; cbn; auto using mine_delete, mine_fmap, unfiled_space.
  - unfold insertConnection. repeat (case_match; [done|]). destruct Hm; split; cbn; auto using mine_insert.
  - unfold updateConnectionRow. destruct (connectionsIn s w !! id) as [c'|] eqn:E; [|done]. apply connectionsIn_Some in E as [_ Hs].
    repeat (case_match; try done); destruct Hm; split; cbn; auto using mine_insert.
  - destruct Hm; split; cbn; try done. apply mine_imap; [|done]. intros i x. by destruct (_ && _).
  - unfold writeDefault. destruct (connectionsIn s w !! id) as [c'|] eqn:E; [|done]. apply connectionsIn_Some in E as [_ Hs].
    case_match; [done|]. destruct Hm; split; cbn; auto using mine_insert.
  - unfold deleteConnectionRow. case_match; [|done]. destruct Hm; split; cbn; auto using mine_delete, mine_fmap, withoutConnection_space.
  - unfold markUsed. destruct (connectionsIn s w !! id) as [c'|] eqn:E; [|done]. apply connectionsIn_Some in E as [_ Hs].
    destruct Hm; split; cbn; auto using mine_insert.
Qed.
End ownCommand.

(** ** What another space does *)

Section foreign.
Context (a : UserActor) (s : jstr) (o : option jstr) (Hs : acSpace a ≠ s).
Abbreviation t := (acSpace a).

(** A statement that leaves the view as it was. *)
Definition unseen (X : Type) (stmt : statement Workspace X) : Prop :=
  ∀ now w, workspaceOk w → allMine s o w → view s o (stmt now w).2 = view s o w.

(** A row of the other actor's space: it is not under the drawn id. *)
Lemma not_drawn {A} (sp : A → jstr) m id x : mine sp s o m → m !! id = Some x → sp x = t → Some id ≠ o.
Proof. intros Hm Hx Hsp. apply (mine_other sp s o m id Hm). exists x. split; [done|]. by rewrite Hsp. Qed.

(** A row of theirs rewritten, made or removed. *)
Lemma keep_write {A} (sp : A → jstr) m id x x' :
  mine sp s o m → m !! id = Some x → sp x = t → sp x' = t → keep sp s o (<[id := x']> m) = keep sp s o m.
Proof.
  intros Hm Hx Hsp Hsp'. apply keep_insert_other; [by rewrite Hsp'|by eapply not_drawn|]. intros y. rewrite Hx. intros [= <-]. by rewrite Hsp.
Qed.

Lemma keep_make {A} (sp : A → jstr) m id x :
  Some id ≠ o → m !! id = None → sp x = t → keep sp s o (<[id := x]> m) = keep sp s o m.
Proof. intros Ho Hx Hsp. apply keep_insert_other; [by rewrite Hsp|done|]. intros y. by rewrite Hx. Qed.

Lemma keep_remove {A} (sp : A → jstr) m id x :
  mine sp s o m → m !! id = Some x → sp x = t → keep sp s o (delete id m) = keep sp s o m.
Proof.
  intros Hm Hx Hsp. apply keep_delete_other; [by eapply not_drawn|]. intros y. rewrite Hx. intros [= <-]. by rewrite Hsp.
Qed.

(** Rows of theirs filtered out or rewritten. *)
Lemma keep_filter {A} (sp : A → jstr) (P : jstr * A → Prop) `{!∀ x, Decision (P x)} m :
  mine sp s o m → (∀ k x, m !! k = Some x → ¬ P (k, x) → sp x = t) → keep sp s o (filter P m) = keep sp s o m.
Proof.
  intros Hm HP. apply keep_ext. intros k x Hk. rewrite map_lookup_filter_Some. split; [by intros [? _]|]. intros Hx. split; [done|].
  destruct (decide (P (k, x))) as [|Hn]; [done|]. pose proof (HP k x Hx Hn) as Ht. destruct Hk as [Hk|Hk]; [congruence|].
  by destruct (not_drawn sp m k x Hm Hx Ht).
Qed.

Lemma keep_imap {A} (sp : A → jstr) (f : jstr → A → A) m :
  mine sp s o m → (∀ k x, sp (f k x) = sp x) → (∀ k x, m !! k = Some x → sp x ≠ t → f k x = x) →
  keep sp s o (map_imap (λ k x, Some (f k x)) m) = keep sp s o m.
Proof.
  intros Hm Hsp Hf. apply keep_ext. intros k x Hk. rewrite map_lookup_imap. destruct (m !! k) as [y|] eqn:E; [|done]. cbn.
  assert (sp y = t → sp y ≠ s ∧ Some k ≠ o) as Hy by (intros Ht; split; [by rewrite Ht|by eapply not_drawn]).
  destruct (decide (sp y = t)) as [Ht|Ht].
  - destruct (Hy Ht). split; intros [= <-]; rewrite ?Hsp in Hk; tauto.
  - by rewrite (Hf k y E Ht).
Qed.

Lemma keep_fmap_other {A} (sp : A → jstr) (f : A → A) m :
  mine sp s o m → (∀ x, sp (f x) = sp x) → (∀ k x, m !! k = Some x → sp x ≠ t → f x = x) → keep sp s o (f <$> m) = keep sp s o m.
Proof.
  intros Hm Hsp Hf. rewrite <- (keep_imap sp (λ _, f) m) by done. f_equal. apply map_eq. intros k.
  by rewrite map_lookup_imap, lookup_fmap.
Qed.

Lemma view_eq w w' :
  keep boSpace s o (botRows w) = keep boSpace s o (botRows w') → keep seSpace s o (sectionRows w) = keep seSpace s o (sectionRows w') →
  keep coSpace s o (connectionRows w) = keep coSpace s o (connectionRows w') →
  keep wtSpace s o (threadRows w) = keep wtSpace s o (threadRows w') → memberRows w = memberRows w' → view s o w = view s o w'.
Proof. unfold view. by intros -> -> -> -> ->. Qed.

Lemma updateBotRow_unseen id guard f : (∀ now b, boSpace (f now b) = boSpace b) → unseen _ (updateBotRow a id guard f).
Proof.
  intros Hf now w Hw []. unfold updateBotRow. destruct (botsIn t w !! id) as [b|] eqn:E; [|done]. apply botsIn_Some in E as [Hb Ht].
  destruct (negb _); [done|]. destruct (negb _); [done|]. apply view_eq; try done. cbn. eapply keep_write; [done|done|done|]. by rewrite Hf.
Qed.

Lemma deleteBotRow_unseen id : unseen _ (deleteBotRow a id).
Proof.
  intros now w Hw []. unfold deleteBotRow. destruct (botsIn t w !! id) as [b|] eqn:E; [|done]. apply botsIn_Some in E as [Hb Ht].
  apply view_eq; try done; cbn; [by eapply keep_remove|]. apply keep_filter; [done|]. intros k x Hx Hn. cbn in Hn.
  destruct (decide (wtBot x = id)) as [He|He]; [|done]. destruct (ok_threads _ Hw k x id Hx (f_equal Some He)) as (y & Hy & <-). congruence.
Qed.

Lemma deleteSectionRow_unseen id : unseen _ (deleteSectionRow a id).
Proof.
  intros now w Hw []. unfold deleteSectionRow. destruct (sectionsOf a w !! id) as [r|] eqn:E; [|done].
  apply sectionsOf_Some in E as (Hr & Ht & _). apply view_eq; try done; cbn; [|by eapply keep_remove].
  apply keep_fmap_other; [done|apply unfiled_space|]. intros k b Hb Hn. unfold unfiled. rewrite bool_decide_false; [done|].
  intros He. destruct (ok_sections _ Hw k b id Hb He) as (y & Hy & Hsp). congruence.
Qed.

Lemma deleteConnectionRow_unseen id : unseen _ (deleteConnectionRow a id).
Proof.
  intros now w Hw []. unfold deleteConnectionRow. destruct (connectionsIn t w !! id) as [r|] eqn:E; [|done].
  apply connectionsIn_Some in E as [Hr Ht]. apply view_eq; try done; cbn; [|by eapply keep_remove].
  apply keep_fmap_other; [done|apply withoutConnection_space|]. intros k b Hb Hn. unfold withoutConnection. rewrite bool_decide_false; [done|].
  intros He. destruct (ok_connections _ Hw k b id Hb He) as (y & Hy & Hsp). congruence.
Qed.

Lemma perform_unseen c : (∀ id, drawn c = Some id → Some id ≠ o) → issues unseen (perform a c).
Proof.
  intros Ho. apply issues_perform; intros; try (by intros now w);
    first [by apply deleteSectionRow_unseen|by apply deleteConnectionRow_unseen|by apply deleteBotRow_unseen|by apply updateBotRow_unseen
          |by apply updateBotRow_unseen; destruct H as [-> |[-> |[key ->]]]|intros now w Hw []].
  - unfold insertBot. repeat (case_match; [done|]; cbn [snd]). apply view_eq; try done. cbn. apply keep_make; auto.
  - unfold insertThread. case_match; [|done]. case_match; [done|]. apply view_eq; try done. cbn. apply keep_make; auto.
  - unfold insertSection. case_match; [done|]. case_match; [done|]. apply view_eq; try done. cbn. apply keep_make; auto.
  - unfold updateSectionRow. destruct (sectionsOf a w !! id) as [r|] eqn:E; [|done]. apply sectionsOf_Some in E as (Hr & Ht & _).
    repeat (case_match; try done); apply view_eq; try done; cbn; by eapply keep_write.
  - unfold insertConnection. repeat (case_match; [done|]). apply view_eq; try done. cbn. apply keep_make; auto.
  - unfold updateConnectionRow. destruct (connectionsIn t w !! id) as [r|] eqn:E; [|done]. apply connectionsIn_Some in E as [Hr Ht].
    repeat (case_match; try done); apply view_eq; try done; cbn; by eapply keep_write.
  - apply view_eq; try done. cbn.
    apply (keep_imap coSpace (λ k c, if bool_decide (coSpace c = t) && coDefault c && negb (bool_decide (k = id)) then markedDefault false now c else c));
      [done|intros k x; by destruct (_ && _)|]. intros k x _ Hn. by rewrite bool_decide_false.
  - unfold writeDefault. destruct (connectionsIn t w !! id) as [r|] eqn:E; [|done]. apply connectionsIn_Some in E as [Hr Ht].
    case_match; [done|]. apply view_eq; try done. cbn. by eapply keep_write.
  - unfold markUsed. destruct (connectionsIn t w !! id) as [r|] eqn:E; [|done]. apply connectionsIn_Some in E as [Hr Ht].
    apply view_eq; try done. cbn. by eapply keep_write.
Qed.
End foreign.

Lemma allMine_view s o w : allMine s o (view s o w) ↔ allMine s o w.
Proof. split; intros []; split; by apply mine_keep. Qed.

(** ** Tenants *)

(** One statement of a command of another space, which draws other ids. *)
Definition foreignStep (s : jstr) (o : option jstr) (w w' : Workspace) : Prop :=
  ∃ a c X stmt now, acSpace a ≠ s ∧ (∀ id, drawn c = Some id → Some id ≠ o) ∧ issued (perform a c) X stmt ∧ w' = (stmt now w).2.

Lemma foreignSteps_unseen s o w w' :
  rtc (foreignStep s o) w w' → workspaceOk w → allMine s o w → workspaceOk w' ∧ allMine s o w' ∧ view s o w' = view s o w.
Proof.
  induction 1 as [|w w1 w' (a & c & X & stmt & now & Ha & Hc & Hi & ->) _ IH]; intros Hw Hm; [done|].
  pose proof (issued_issues _ _ _ _ Hi (perform_unseen a s o Ha c Hc) now w Hw Hm) as Hv.
  destruct IH as (Hw' & Hm' & Hv').
  - apply workspaceStep_ok with w; [|done]. by exists a, c, X, stmt, now.
  - apply (allMine_view s o). rewrite Hv. by apply allMine_view.
  - split_and!; [done..|]. by rewrite Hv'.
Qed.

(** A program of own statements runs on the view, whatever the others do meanwhile. *)
Lemma runs_view a o {A} (p : program Workspace A) now w x w' :
  issues (ownStatement a o) p → issues (keepsMine a o) p → issues keepsOk p → workspaceOk w → allMine (acSpace a) o w →
  runs (foreignStep (acSpace a) o) p now w x w' → runs (λ _ _, False) p now (view (acSpace a) o w) x (view (acSpace a) o w').
Proof.
  revert now w. induction p as [y|X stmt k IH]; intros now w Ho Hk Hok Hw Hm; cbn [issues runs] in *; [by intros [-> ->]|].
  destruct Ho as [Ho Ho'], Hk as [Hk Hk'], Hok as [Hok Hok']. intros (now' & s1 & Hn & H1 & Hr).
  destruct (foreignSteps_unseen _ _ _ _ H1 Hw Hm) as (Hw1 & Hm1 & Hv). exists now', (view (acSpace a) o w).
  split; [done|]. split; [done|]. rewrite <- Hv. destruct (Ho now' s1) as [E1 E2]. rewrite E1, E2. apply IH; auto.
Qed.

Lemma runAlone_unseen s o {A} (p : program Workspace A) now w :
  issues (unseen s o) p → issues keepsOk p → workspaceOk w → allMine s o w → view s o (runAlone p now w).2 = view s o w.
Proof.
  revert w. induction p as [y|X stmt k IH]; intros w Hu Hk Hw Hm; cbn [issues runAlone] in *; [done|].
  destruct Hu as [Hu Hu'], Hk as [Hk Hk']. pose proof (Hu now w Hw Hm) as Hv. specialize (Hk now w Hw).
  destruct (stmt now w) as [x w1]. cbn in *. rewrite <- Hv. apply IH; auto. apply (allMine_view s o). rewrite Hv. by apply allMine_view.
Qed.

(** C5. C1: one space's commands and another's do not meet.  A command of the workspace
    answers, and leaves the rows of its space, as it would had the tables held those rows
    alone, whatever statements the commands of other spaces interleave with its own (they
    draw other ids, and the id it draws is under no row of theirs); and it leaves every row
    of every other space, references and defaults included, as it was. *)
Theorem tenant_isolation (a : UserActor) (c : Command) (now : Z) (w : Workspace) :
  workspaceOk w → allMine (acSpace a) (drawn c) w →
  (∀ x w', runs (foreignStep (acSpace a) (drawn c)) (perform a c) now w x w' →
     runs (λ _ _, False) (perform a c) now (view (acSpace a) (drawn c) w) x (view (acSpace a) (drawn c) w')) ∧
  (∀ t, t ≠ acSpace a → view t None (runAlone (perform a c) now w).2 = view t None w).
Proof.
  intros Hw Hm. split.
  - intros x w'. apply runs_view; [by apply perform_own|apply perform_mine|apply perform_ok|done|done].
  - intros t Ht. apply runAlone_unseen; [|apply perform_ok|done|by split].
    apply perform_unseen; [done|]. by intros id _.
Qed.

(** ** Two tenants *)

Definition alice : UserActor := {| acSpace := u "home"; acUser := u "alice" |}.
Definition bob : UserActor := {| acSpace := u "work"; acUser := u "bob" |}.

Definition bobBot : Command := CreateBot (u "b1") {|
  nbName := u "Bob"; nbColor := u "red"; nbSpawnKey := u "k"; nbTitle := None; nbDescription := None; nbInstructions := None;
  nbPinned := None; nbPosition := None; nbSection := None; nbComputerId := None; nbComputerProvider := None;
  nbConnection := Some (u "c1"); nbModel := None |}.

Definition bobConnection : Command := CreateConnection (u "c1") {|
  ncLabel := u "main"; ncBaseUrl := u "https://api.test/v1"; ncCredential := u "key"; ncModel := Some (u "m") |}.

Definition aliceBot (connection : option jstr) : Command := CreateBot (u "a1") {|
  nbName := u "Al"; nbColor := u "blue"; nbSpawnKey := u "k"; nbTitle := None; nbDescription := None; nbInstructions := None;
  nbPinned := None; nbPosition := None; nbSection := None; nbComputerId := None; nbComputerProvider := None;
  nbConnection := connection; nbModel := None |}.

Definition bobsWorkspace : Workspace := (runAlone (perform bob bobConnection) 1%Z (founded ∅)).2.

Lemma bobsWorkspace_ok : workspaceOk bobsWorkspace.
Proof.
  apply (workspaceSteps_ok (founded ∅)); [apply runAlone_steps|apply founded_ok].
Qed.

(** Bob's connection is missing to Alice; her own spawn key is not his. *)
Example aliceBot_refused :
  (runAlone (perform alice (aliceBot (Some (u "c1")))) 2%Z bobsWorkspace).1 = Err (WsNotFound res_connection (u "c1")).
Proof. vm_compute. reflexivity. Qed.

Lemma tenant_isolation_witness :
  ∃ x w', is_Some (botRows w' !! u "a1") ∧ is_Some (botRows w' !! u "b1") ∧
  runs (λ _ _, False) (perform alice (aliceBot None)) 2%Z (view (u "home") (Some (u "a1")) bobsWorkspace) (Ok x)
    (view (u "home") (Some (u "a1")) w').
Proof.
  set (w1 := (runAlone (perform bob bobBot) 2%Z bobsWorkspace).2).
  set (r := runAlone (perform alice (aliceBot None)) 2%Z w1).
  assert (∃ x, r.1 = Ok x) as [x Hx] by (eexists; vm_compute; reflexivity). exists x, r.2.
  split; [by vm_compute; eexists|]. split; [by vm_compute; eexists|].
  apply (tenant_isolation alice (aliceBot None) 2%Z bobsWorkspace); [apply bobsWorkspace_ok| |].
  - split; intros id y [= <-]; vm_compute; discriminate.
  - cbn [perform createBot runs]. exists 2%Z, w1. split; [done|]. split.
    + apply rtc_once. exists bob, bobBot. do 3 eexists. split; [done|]. split; [by intros id [= <-]|]. split; [apply issued_here|]. reflexivity.
    + rewrite <- Hx. unfold r. vm_compute. split; reflexivity.
Defined.
