(* ===== verification/WorkspaceAnswers.v ===== *)
(** What the commands of the workspace answer: the swap of the default connection, the
    create that a spawn key replays, and the model a bot's next run is given. *)

From S2P Require Import Prelude JsText Conversations Statements Threads Workspace WorkspaceInvariants.

Lemma runAlone_query {St A X} (stmt : statement St X) (k : X → program St A) now w :
  runAlone (Query stmt k) now w = runAlone (k (stmt now w).1) now (stmt now w).2.
Proof. cbn [runAlone]. by destruct (stmt now w). Qed.

(** ** The swap of the default *)

Section default.
Context (a : UserActor).
Abbreviation s := (acSpace a).

Lemma otherDefault_true id w :
  otherDefault a id w = true → ∃ k c, connectionsIn s w !! k = Some c ∧ coDefault c = true ∧ k ≠ id.
Proof.
  intros Ho. apply bool_decide_eq_true, findRow_is_some in Ho as (k & c & Hk & Hp). apply andb_true_iff in Hp as [Hd Hn].
  exists k, c. split_and!; [done..|]. by apply negb_true_iff, bool_decide_eq_false in Hn.
Qed.

(** What a swap that ended answers. *)
Definition swapAnswer (id : jstr) (r : result WorkspaceError Answer) (w' : Workspace) : Prop :=
  match r with
  | Ok (AnsConnection None c) =>
      connectionsIn s w' !! id = Some c ∧ coDefault c = true ∧
      ∀ k c', connectionsIn s w' !! k = Some c' → coDefault c' = true → k = id
  | Ok _ => False
  | Err (WsNotFound res i) => res = res_connection ∧ i = id ∧ connectionsIn s w' !! id = None
  | Err WsConstraint => ∃ k c, connectionsIn s w' !! k = Some c ∧ coDefault c = true ∧ k ≠ id
  | Err WsUnsettled => True
  | Err _ => False
  end.

Lemma settleDefault_answers step n id now w r w' : runs step (settleDefault a n id) now w r w' → swapAnswer id r w'.
Proof.
  revert now w. induction n as [|n IH]; intros now w; cbn [settleDefault runs]; [by intros [-> _]|].
  intros (n1 & w1 & _ & _ & n2 & w2 & _ & _ & Hr). destruct (defaultSnapshot a id n2 w2).1; [|by eapply IH].
  cbn [runs] in Hr. destruct Hr as (n3 & w3 & _ & _ & Hr). unfold writeDefault in Hr.
  destruct (connectionsIn s w3 !! id) as [c|] eqn:E; [|by eapply IH]. destruct (otherDefault a id w3) eqn:Ho; cbn in Hr.
  - destruct Hr as [-> ->]. by apply otherDefault_true.
  - destruct Hr as [-> ->]. cbn. apply connectionsIn_Some in E as [Hc Hs]. split; [|split; [done|]].
    + apply connectionsIn_Some. cbn. by rewrite lookup_insert_eq.
    + intros k c' [Hk Hk']%connectionsIn_Some Hd. cbn in Hk. destruct (decide (k = id)) as [|Hne]; [done|].
      rewrite lookup_insert_ne in Hk by done. by rewrite (otherDefault_false a id w3 Ho k c' Hk Hk' Hne) in Hd.
Qed.

Lemma clearDefaults_spec id now w k :
  connectionsIn s (clearDefaults a id now w).2 !! k =
  (λ c, if coDefault c && negb (bool_decide (k = id)) then markedDefault false now c else c) <$> connectionsIn s w !! k.
Proof.
  apply option_eq. intros c. rewrite connectionsIn_Some. cbn. rewrite map_lookup_imap, fmap_Some. setoid_rewrite connectionsIn_Some.
  destruct (connectionRows w !! k) as [c0|]; cbn; [|naive_solver].
  destruct (bool_decide_reflect (coSpace c0 = s)) as [Hs|Hs]; cbn.
  - split; [intros [[= <-] _]; by exists c0|]. intros (x & [[= <-] _] & ->). split; [done|]. by destruct (_ && _).
  - split; [intros [[= <-] ?]; done|]. intros (x & [[= <-] ?] & _). done.
Qed.

(** Alone, the first attempt settles. *)
Lemma setDefault_alone id now w : is_Some (connectionsIn s w !! id) → ∃ c, (runAlone (setDefault a id) now w).1 = Ok (AnsConnection None c).
Proof.
  intros [c Hc]. unfold setDefault. rewrite runAlone_query. cbn [connectionExists fst snd]. rewrite bool_decide_true by (by eexists).
  cbn [settleDefault]. set (w1 := (clearDefaults a id now w).2).
  assert (connectionsIn s w1 !! id = Some c) as Hc1.
  { unfold w1. rewrite clearDefaults_spec, Hc. cbn. rewrite bool_decide_true by done. by rewrite andb_false_r. }
  assert (otherDefault a id w1 = false) as Ho.
  { apply bool_decide_eq_false. intros (k & x & Hk & Hx)%findRow_is_some. apply andb_true_iff in Hx as [Hd Hn].
    unfold w1 in Hk. rewrite clearDefaults_spec in Hk. apply fmap_Some in Hk as (x0 & Hx0 & ->). rewrite Hn in Hd.
    destruct (coDefault x0) eqn:E; cbn in Hd; congruence. }
  rewrite (runAlone_query (clearDefaults a id)). fold w1. rewrite runAlone_query. cbn [defaultSnapshot fst snd].
  rewrite Hc1, Ho, bool_decide_true by (by eexists). cbn [negb andb]. rewrite runAlone_query. unfold writeDefault. rewrite Hc1, Ho.
  by eexists.
Qed.

(** C21. C1: a space has one default, the one a swap names.  Whatever the other commands do
    meanwhile, a swap that answers a connection leaves it the space's only default; one
    that reports it missing found it so; one that meets the unique index met another
    default; and alone, a swap to a connection of the space answers it. *)
Theorem swap_names_the_default (id : jstr) (now : Z) (w : Workspace) :
  (∀ r w', runs workspaceStep (perform a (SetDefault id)) now w r w' → swapAnswer id r w') ∧
  (is_Some (connectionsIn s w !! id) → ∃ c, (runAlone (perform a (SetDefault id)) now w).1 = Ok (AnsConnection None c)).
Proof.
  split; [|apply setDefault_alone]. intros r w'. cbn [perform]. unfold setDefault. cbn [runs].
  intros (n1 & w1 & _ & _ & Hr). unfold connectionExists in Hr. destruct (bool_decide_reflect (is_Some (connectionsIn s w1 !! id))) as [Hc|Hc]; cbn in Hr.
  - eapply (settleDefault_answers _ 3). exact Hr.
  - destruct Hr as [-> ->]. cbn. split_and!; [done..|]. by apply eq_None_not_Some.
Qed.
End default.

(** ** Creates under a spawn key *)

(** A bot that stays keeps its space and its spawn key. *)
Definition keepsKey (X : Type) (stmt : statement Workspace X) : Prop :=
  ∀ now w id b b', botRows w !! id = Some b → botRows (stmt now w).2 !! id = Some b' →
    boSpace b' = boSpace b ∧ boSpawnKey b' = boSpawnKey b.

Lemma keepsKey_same {X} (stmt : statement Workspace X) : (∀ now w, botRows (stmt now w).2 = botRows w) → keepsKey X stmt.
Proof. intros Hs now w id b b' Hb. rewrite Hs, Hb. by intros [= <-]. Qed.

(** The row [Hb] found is the row found after. *)
Ltac kept Hb := cbn; rewrite Hb; by intros [= <-].

Lemma updateBotRow_key a id guard f :
  (∀ now b, boSpace (f now b) = boSpace b ∧ boSpawnKey (f now b) = boSpawnKey b) → keepsKey _ (updateBotRow a id guard f).
Proof.
  intros Hf now w i b b' Hb. unfold updateBotRow. destruct (botsIn (acSpace a) w !! id) as [x|] eqn:E; [|kept Hb].
  apply botsIn_Some in E as [Hx _]. destruct (negb _); [kept Hb|]. destruct (negb _); [kept Hb|].
  cbn. rewrite lookup_insert. case_decide as Hd; [|kept Hb]. subst i. rewrite Hb in Hx. injection Hx as ->. intros [= <-]. apply Hf.
Qed.

Lemma keepsKey_fmap (f : BotRow → BotRow) (m : gmap jstr BotRow) id b b' :
  (∀ b, boSpace (f b) = boSpace b ∧ boSpawnKey (f b) = boSpawnKey b) →
  m !! id = Some b → (f <$> m) !! id = Some b' → boSpace b' = boSpace b ∧ boSpawnKey b' = boSpawnKey b.
Proof. intros Hf Hb. rewrite lookup_fmap, Hb. intros [= <-]. apply Hf. Qed.

Lemma perform_key a c : issues keepsKey (perform a c).
Proof.
  apply issues_perform; intros;
    try (by apply updateBotRow_key); try (by apply updateBotRow_key; destruct H as [-> |[-> |[key ->]]]).
  - by apply keepsKey_same.
  - intros now w i b b' Hb. unfold insertBot. repeat (case_match; [kept Hb|]; cbn [snd]). cbn.
    rewrite lookup_insert_ne by congruence. kept Hb.
  - intros now w i b b' Hb. unfold deleteBotRow. case_match; [|kept Hb]. cbn.
    intros [_ Hx]%lookup_delete_Some. by simplify_eq.
  - apply keepsKey_same. intros now w. unfold insertThread. by repeat case_match.
  - apply keepsKey_same. intros now w. unfold insertSection. by repeat case_match.
  - apply keepsKey_same. intros now w. unfold updateSectionRow. by repeat case_match.
  - intros now w i b b' Hb. unfold deleteSectionRow. case_match; [|kept Hb]. cbn. apply keepsKey_fmap; [|done].
    intros x. split; [apply unfiled_space|apply unfiled_ok].
  - apply keepsKey_same. intros now w. unfold insertConnection. by repeat case_match.
  - apply keepsKey_same. intros now w. unfold updateConnectionRow. by repeat case_match.
  - by apply keepsKey_same.
  - apply keepsKey_same. intros now w. unfold writeDefault. by repeat case_match.
  - intros now w i b b' Hb. unfold deleteConnectionRow. case_match; [|kept Hb]. cbn. apply keepsKey_fmap; [|done].
    intros x. split; [apply withoutConnection_space|apply withoutConnection_ok].
  - apply keepsKey_same. intros now w. unfold markUsed. by repeat case_match.
Qed.

(** A statement of any command that does not remove the bot [id]. *)
Definition sparing (id : jstr) (w w' : Workspace) : Prop := workspaceStep w w' ∧ is_Some (botRows w' !! id).

(** The bot of the space under a spawn key. *)
Definition spawned (s key id : jstr) (w : Workspace) : Prop := ∃ b, botsIn s w !! id = Some b ∧ boSpawnKey b = key.

Lemma spawned_step s key id w w' : sparing id w w' → spawned s key id w → spawned s key id w'.
Proof.
  intros [(a & c & X & stmt & now & Hi & ->) [b' Hb']] (b & [Hb Hs]%botsIn_Some & Hk).
  destruct (issued_issues _ _ _ _ Hi (perform_key a c) now w id b b' Hb Hb') as [Es Ek].
  exists b'. rewrite botsIn_Some. split_and!; [done|congruence|congruence].
Qed.

Lemma sparing_steps s key id w w' :
  rtc (sparing id) w w' → workspaceOk w → spawned s key id w → workspaceOk w' ∧ spawned s key id w'.
Proof.
  induction 1 as [|w w1 w' H1 _ IH]; intros Hw Hs; [done|]. apply IH; [by eapply workspaceStep_ok, Hw; destruct H1|by eapply spawned_step].
Qed.

Lemma spawned_unique s key id id' w : workspaceOk w → spawned s key id w → spawned s key id' w → id = id'.
Proof.
  intros Hw (b & [Hb Hs]%botsIn_Some & Hk) (b' & [Hb' Hs']%botsIn_Some & Hk').
  eapply (ok_spawn _ Hw id id' b b'); [done|done|done|]. by rewrite Hs, Hs', Hk, Hk'.
Qed.

(** The insert under a key in use. *)
Lemma insertBot_replays a newId input now w id :
  workspaceOk w → spawned (acSpace a) (nbSpawnKey input) id w →
  (insertBot a newId input now w).2 = w ∧
  match (insertBot a newId input now w).1 with Ok (Some kv) => kv.1 = id | Ok None => True | Err e => e = WsConstraint end.
Proof.
  intros Hw Hs. unfold insertBot. destruct (negb _); [done|]. destruct (negb _); [done|].
  destruct (findRow _ _) as [[k x]|] eqn:E.
  - split; [done|]. cbn. apply findRow_some in E as [Hx Hp]. apply bool_decide_eq_true in Hp.
    eapply spawned_unique; [done| |exact Hs]. by exists x.
  - destruct Hs as (b & Hb & Hk). pose proof (proj1 (findRow_none _ _) E id b Hb) as Hp. by apply bool_decide_eq_false in Hp.
Qed.

(** A read of the missing references ends in an error. *)
Definition missingAnswer (r : result WorkspaceError Answer) : Prop :=
  r = Err WsNoRow ∨ ∃ res i, r = Err (WsNotFound res i).

Lemma nameMissing_answers a step section connection now w r w' :
  runs step (nameMissing a section connection (Err WsNoRow)) now w r w' → rtc step w w' ∧ missingAnswer r.
Proof.
  assert (∀ w1 i, runs step (Query (connectionExists a i) (λ found : bool, Done (if found then Err WsNoRow else Err (WsNotFound res_connection i)))) now w1 r w' →
    rtc step w1 w' ∧ missingAnswer r) as Hc.
  { intros w1 i (n2 & w2 & _ & H2 & -> & ->). split; [done|]. unfold missingAnswer. destruct (connectionExists _ _ _ _).1; eauto. }
  unfold nameMissing. destruct section as [i|].
  - intros (n1 & w1 & Hn & H1 & Hr). destruct (sectionExists a i n1 w1) as [[|] w2] eqn:E; injection E as _ <-; cbn [fst snd] in Hr.
    + destruct connection as [j|]; [|destruct Hr as [-> ->]; split; [done|by left]].
      destruct (Hc w1 j) as [H2 ?]; [|split; [by etrans|done]]. destruct Hr as (n2 & Hr). exists n2. destruct Hr as (w3 & ? & Hr). exists w3. split; [lia|done].
    + destruct Hr as [-> ->]. split; [done|]. right. by do 2 eexists.
  - destruct connection as [j|]; [apply Hc|]. intros [-> ->]. split; [done|by left].
Qed.

Lemma createBot_spawns a newId input now w id b w' :
  runs workspaceStep (perform a (CreateBot newId input)) now w (Ok (AnsBot (Some id) b)) w' → workspaceOk w →
  workspaceOk w' ∧ spawned (acSpace a) (nbSpawnKey input) id w'.
Proof.
  cbn [perform]. unfold createBot. cbn [runs]. intros (n1 & w1 & _ & H1 & Hr) Hw. assert (workspaceOk w1) as Hw1 by by eapply workspaceSteps_ok.
  pose proof (insertBot_ok a newId input n1 w1 Hw1) as Hw2. revert Hw2 Hr. unfold insertBot.
  destruct (negb _); [by intros _ [_ [Hr|(? & ? & Hr)]]%nameMissing_answers|]. destruct (negb _); [by intros _ [? _]|].
  destruct (findRow _ _) as [[k x]|] eqn:E; cbn.
  - intros _ [[= -> ->] ->]. split; [done|]. apply findRow_some in E as [Hx Hp]. apply bool_decide_eq_true in Hp. by exists x.
  - destruct (botRows w1 !! newId) eqn:En; cbn; [by intros _ [? _]|]. intros Hw2 [[= -> ->] ->]. split; [done|].
    eexists. rewrite botsIn_Some. cbn. rewrite lookup_insert_eq. by split_and!.
Qed.

(** C19. C1: a spawn key names one bot of its space.  Once a create under it has answered a bot,
    every create under it — by any member, with any other fields and id, whatever commands
    run meanwhile, as long as the bot is not deleted — answers that bot, or a missing
    reference or a check it failed, and in no case makes another: the bot of the space
    under the key is still the first. *)
Theorem spawn_key_creates_once (a a' : UserActor) (newId newId' : jstr) (input input' : NewBot) (now now' : Z) (w w1 w2 : Workspace)
    (id : jstr) (b : BotRow) (r : result WorkspaceError Answer) :
  workspaceOk w → acSpace a' = acSpace a → nbSpawnKey input' = nbSpawnKey input →
  runs workspaceStep (perform a (CreateBot newId input)) now w (Ok (AnsBot (Some id) b)) w1 →
  runs (sparing id) (perform a' (CreateBot newId' input')) now' w1 r w2 →
  (match r with
   | Ok ans => ∃ b', ans = AnsBot (Some id) b'
   | Err e => e = WsConstraint ∨ missingAnswer r
   end) ∧
  ∀ k, spawned (acSpace a) (nbSpawnKey input) k w2 ↔ k = id.
Proof.
  intros Hw Hs Hk H1 H2. destruct (createBot_spawns _ _ _ _ _ _ _ _ H1 Hw) as [Hw1 Hsp]. rewrite <- Hs, <- Hk in *.
  cbn [perform] in H2. unfold createBot in H2. cbn [runs] in H2. destruct H2 as (n2 & w3 & _ & H3 & Hr).
  destruct (sparing_steps _ _ _ _ _ H3 Hw1 Hsp) as [Hw3 Hsp3].
  destruct (insertBot_replays a' newId' input' n2 w3 id Hw3 Hsp3) as [E2 E1]. rewrite E2 in Hr.
  assert (rtc (sparing id) w3 w2 ∧ match r with Ok ans => ∃ b', ans = AnsBot (Some id) b' | Err e => e = WsConstraint ∨ missingAnswer r end) as [H4 Hans].
  { destruct (insertBot a' newId' input' n2 w3).1 as [[[k x]|]|e].
    - destruct Hr as [-> ->]. cbn in E1. subst k. split; [done|by eexists].
    - apply nameMissing_answers in Hr as [? Hm]. split; [done|]. destruct r as [ans|e]; [|by right].
      by destruct Hm as [?|(? & ? & ?)].
    - destruct Hr as [-> ->]. split; [done|by left]. }
  split; [done|]. destruct (sparing_steps _ _ _ _ _ H4 Hw3 Hsp3) as [Hw2 Hsp2]. intros k. split; [|by intros ->].
  intros Hk2. by eapply spawned_unique.
Qed.

(** ** The model of a bot's next run *)

(** The connection a bot runs on: its own, or the space's default when it has none. *)
Definition runsOn (a : UserActor) (w : Workspace) (b : BotRow) (id : jstr) (c : ConnectionRow) : Prop :=
  connectionsIn (acSpace a) w !! id = Some c ∧ (boConnection b = Some id ∨ (boConnection b = None ∧ coDefault c = true)).

Lemma defaultConnection_spec a w id c :
  workspaceOk w → connectionsIn (acSpace a) w !! id = Some c → coDefault c = true → fst <$> defaultConnection a w = Some id.
Proof.
  intros Hw Hc Hd. unfold defaultConnection. destruct (findRow _ _) as [[k x]|] eqn:E.
  - apply findRow_some in E as [Hx Hp]. apply connectionsIn_Some in Hc as [Hc Hs], Hx as [Hx Hs']. cbn. f_equal.
    eapply (ok_default _ Hw k id x c); [done|done|by rewrite Hp|]. by rewrite Hd, Hs, Hs'.
  - pose proof (proj1 (findRow_none _ _) E id c Hc). congruence.
Qed.

Lemma defaultConnection_some a w id : fst <$> defaultConnection a w = Some id → ∃ c, connectionsIn (acSpace a) w !! id = Some c ∧ coDefault c = true.
Proof.
  unfold defaultConnection. destruct (findRow _ _) as [[k x]|] eqn:E; [|done]. intros [= <-]. apply findRow_some in E as [Hx Hp]. by exists x.
Qed.

(** A bot's next run is given a connection of its space and no other: its own, or the
    space's default when it has none, with the bot's model before the connection's; it is
    given none exactly when there is no such connection or neither names a model; the URL
    it is given is http or https and names no user; and a connection deleted leaves the
    bots that ran on it to the default. *)
Theorem resolved_selection (a : UserActor) (botId : jstr) (now : Z) (w : Workspace) :
  workspaceOk w →
  (∀ m, (resolveForBot a botId now w).1 = Some m ↔
     ∃ b c, botsIn (acSpace a) w !! botId = Some b ∧ runsOn a w b (mlConnection m) c ∧
       mlBaseUrl m = coBaseUrl c ∧ mlCredential m = coCredential c ∧
       Some (mlModel m) = (match boModel b with Some model => Some model | None => coModel c end)) ∧
  (∀ m, (resolveForBot a botId now w).1 = Some m → httpScheme (mlBaseUrl m) = true ∧ hasUserinfo (mlBaseUrl m) = false) ∧
  (∀ id c b, (deleteConnectionRow a id now w).1 = Ok c → botsIn (acSpace a) w !! botId = Some b → boConnection b = Some id →
     ∃ b', botsIn (acSpace a) (deleteConnectionRow a id now w).2 !! botId = Some b' ∧ boConnection b' = None).
Proof.
  intros Hw.
  assert (∀ m, (resolveForBot a botId now w).1 = Some m ↔
     ∃ b c, botsIn (acSpace a) w !! botId = Some b ∧ runsOn a w b (mlConnection m) c ∧
       mlBaseUrl m = coBaseUrl c ∧ mlCredential m = coCredential c ∧
       Some (mlModel m) = (match boModel b with Some model => Some model | None => coModel c end)) as Hspec.
  { intros m. cbn [resolveForBot fst]. split.
    - intros (b & Hb & (id & Hid & (c & Hc & (model & Hm & [= <-])%bind_Some)%bind_Some)%bind_Some)%bind_Some. exists b, c. cbn.
      split_and!; [done| |done|done|done]. split; [done|]. destruct (boConnection b) as [k|]; [left; congruence|].
      right. split; [done|]. destruct (defaultConnection_some _ _ _ Hid) as (c' & Hc' & Hd). congruence.
    - intros (b & c & Hb & [Hc Hon] & Eu & Ec & Em). rewrite Hb. cbn.
      assert (match boConnection b with Some id => Some id | None => fst <$> defaultConnection a w end = Some (mlConnection m)) as ->.
      { destruct Hon as [->|[-> Hd]]; [done|]. by eapply defaultConnection_spec. }
      cbn. rewrite Hc. cbn. rewrite <- Em. cbn. destruct m; cbn in *. by subst. }
  split_and!; [exact Hspec| |].
  - intros m (b & c & _ & [Hc _] & -> & _)%Hspec. apply connectionsIn_Some in Hc as [Hc _].
    pose proof (ok_checks _ Hw _ c Hc) as Hok. cbn in Hok. unfold connectionChecks in Hok. rewrite !andb_true_iff in Hok.
    destruct Hok as [[[_ ?] Hu] _]. split; [done|]. by apply negb_true_iff.
  - intros id c b Hdel [Hb Hs]%botsIn_Some Hon. unfold deleteConnectionRow in *. destruct (connectionsIn _ w !! id); [|done].
    exists (withoutConnection id b). rewrite botsIn_Some. cbn. rewrite lookup_fmap, Hb, withoutConnection_space. split; [done|].
    unfold withoutConnection. by rewrite bool_decide_true.
Qed.

(** ** A workspace of two connections *)

Definition newConnectionNamed (label : jstr) : NewConnection :=
  {| ncLabel := label; ncBaseUrl := u "https://api.test/v1"; ncCredential := u "key"; ncModel := Some (u "m") |}.

Definition newBotOn (name : jstr) (connection : option jstr) : NewBot := {|
  nbName := name; nbColor := u "red"; nbSpawnKey := u "k"; nbTitle := None; nbDescription := None; nbInstructions := None;
  nbPinned := None; nbPosition := None; nbSection := None; nbComputerId := None; nbComputerProvider := None;
  nbConnection := connection; nbModel := None |}.

Definition twoConnections : Workspace :=
  foldl afterCommand (founded ∅)
    [CreateConnection (u "c1") (newConnectionNamed (u "one")); CreateConnection (u "c2") (newConnectionNamed (u "two"))].

Definition botOnOne : Workspace := afterCommand twoConnections (CreateBot (u "b") (newBotOn (u "Bot") (Some (u "c1")))).

(** One statement of the owner's command is a step. *)
Lemma ownerStep w c X (stmt : statement Workspace X) : issued (perform owner c) X stmt → workspaceStep w (stmt 1%Z w).2.
Proof. intros Hi. by exists owner, c, X, stmt, 1%Z. Qed.

Lemma twoConnections_ok : workspaceOk twoConnections.
Proof.
  apply (workspaceSteps_ok (founded ∅)); [|apply founded_ok].
  cbn [foldl]. etrans; apply runAlone_steps.
Qed.

Lemma botOnOne_ok : workspaceOk botOnOne.
Proof.
  apply (workspaceSteps_ok twoConnections); [apply runAlone_steps|apply twoConnections_ok].
Qed.

(** A second swap lands between the snapshot of the first and its write: the first meets
    the unique index. *)
Lemma swap_names_the_default_witness :
  ∃ w', runs workspaceStep (perform owner (SetDefault (u "c1"))) 1%Z twoConnections (Err WsConstraint) w' ∧
    swapAnswer owner (u "c1") (Err WsConstraint) w'.
Proof.
  set (w1 := (writeDefault owner (u "c2") 1%Z twoConnections).2). exists w1.
  assert (runs workspaceStep (perform owner (SetDefault (u "c1"))) 1%Z twoConnections (Err WsConstraint) w1) as Hr.
  { cbn [perform setDefault settleDefault runs]. exists 1%Z, twoConnections. split; [done|]. split; [done|].
    change (runs workspaceStep (settleDefault owner 3 (u "c1")) 1%Z twoConnections (Err WsConstraint) w1).
    cbn [settleDefault runs]. exists 1%Z, twoConnections. split; [done|]. split; [done|].
    assert ((clearDefaults owner (u "c1") 1%Z twoConnections).2 = twoConnections) as -> by by vm_compute.
    exists 1%Z, twoConnections. split; [done|]. split; [done|].
    assert ((defaultSnapshot owner (u "c1") 1%Z twoConnections) = (true, twoConnections)) as -> by by vm_compute.
    cbn [fst snd runs]. exists 1%Z, w1. split; [done|]. split.
    - apply rtc_once, (ownerStep _ (SetDefault (u "c2"))). cbn [perform setDefault].
      apply (issued_later _ _ _ _ _ true). cbn [settleDefault]. apply (issued_later _ _ _ _ _ tt), (issued_later _ _ _ _ _ true). apply issued_here.
    - assert (writeDefault owner (u "c1") 1%Z w1 = (Err WsConstraint, w1)) as -> by by vm_compute. by split. }
  split; [exact Hr|]. by apply (proj1 (swap_names_the_default owner (u "c1") 1%Z twoConnections)).
Defined.

(** A create resubmitted: answered by the bot of the first, with its fields. *)
Lemma spawn_key_creates_once_witness :
  ∃ r w2, runs (sparing (u "b")) (perform owner (CreateBot (u "b2") (newBotOn (u "Other") None))) 1%Z botOnOne r w2 ∧
    (∀ k, spawned (u "s") (u "k") k w2 ↔ k = u "b") ∧ (λ x, match x with AnsBot _ b => boName b | _ => [] end) <$> (match r with Ok x => Some x | Err _ => None end) = Some (u "Bot").
Proof.
  set (r := runAlone (perform owner (CreateBot (u "b2") (newBotOn (u "Other") None))) 1%Z botOnOne).
  pose proof (runAlone_runs (sparing (u "b")) (perform owner (CreateBot (u "b2") (newBotOn (u "Other") None))) 1%Z botOnOne) as H2. fold r in H2.
  exists r.1, r.2. split; [exact H2|]. split; [|by vm_compute].
  set (first := runAlone (perform owner (CreateBot (u "b") (newBotOn (u "Bot") (Some (u "c1"))))) 1%Z twoConnections).
  assert (∃ b, first.1 = Ok (AnsBot (Some (u "b")) b)) as [b Hb] by (eexists; vm_compute; reflexivity).
  apply (spawn_key_creates_once owner owner (u "b") (u "b2") (newBotOn (u "Bot") (Some (u "c1"))) (newBotOn (u "Other") None) 1%Z 1%Z
    twoConnections botOnOne r.2 (u "b") b r.1); [apply twoConnections_ok|done|done| |exact H2].
  rewrite <- Hb. apply runAlone_runs.
Defined.

(** The same create, resubmitted after its connection was deleted, finds it missing although
    the key names the bot. *)
Example replay_revalidates :
  (runAlone (perform owner (CreateBot (u "b2") (newBotOn (u "Bot") (Some (u "c1"))))) 2%Z
     (runAlone (perform owner (DeleteConnection (u "c1"))) 2%Z botOnOne).2).1 = Err (WsNotFound res_connection (u "c1")).
Proof. vm_compute. reflexivity. Qed.

Lemma resolved_selection_witness :
  ∃ b m, (resolveForBot owner (u "b") 1%Z botOnOne).1 = Some m ∧ mlConnection m = u "c1" ∧ httpScheme (mlBaseUrl m) = true ∧
    botsIn (u "s") (deleteConnectionRow owner (u "c1") 1%Z botOnOne).2 !! u "b" = Some b ∧ boConnection b = None.
Proof.
  destruct (resolved_selection owner (u "b") 1%Z botOnOne botOnOne_ok) as (_ & H2 & H3).
  assert (∃ m, (resolveForBot owner (u "b") 1%Z botOnOne).1 = Some m ∧ mlConnection m = u "c1") as (m & Hm & Hc) by (eexists; split; vm_compute; reflexivity).
  assert (∃ c, (deleteConnectionRow owner (u "c1") 1%Z botOnOne).1 = Ok c) as [c Hd] by (eexists; vm_compute; reflexivity).
  assert (∃ b0, botsIn (u "s") botOnOne !! u "b" = Some b0 ∧ boConnection b0 = Some (u "c1")) as (b0 & Hb0 & Hon) by (eexists; split; vm_compute; reflexivity).
  destruct (H3 (u "c1") c b0 Hd Hb0 Hon) as (b & Hb & Hn). exists b, m. split; [done|]. split; [done|]. split; [exact (proj1 (H2 m Hm))|]. split; assumption.
Defined.
