(* ===== verification/ThreadPages.v ===== *)
(** The pages of a bot's threads (apps/api/src/services/threads.ts): a page asks for one row
    more than it answers, and its cursor is the ordering key of its last row as a [Date]. *)

From S2P Require Import Prelude JsText Conversations Statements PromptComposition Threads Workspace WorkspaceInvariants.

Abbreviation thread := (jstr * WorkThreadRow)%type.

(** [updatedAt.toISOString()] of the driver's [Date]: the column's microseconds are dropped. *)
Definition cursorOf (x : thread) : Z * jstr := (wtUpdatedAt x.2 `div` 1000, x.1)%Z.

Definition pageOf (limit : nat) (rows : list thread) : list thread * option (Z * jstr) :=
  let threads := take limit rows in
  (threads, if (limit <? length rows)%nat then cursorOf <$> last threads else None).

(** [list] of the threads service. *)
Definition listThreads (a : UserActor) (botId : jstr) (limit : nat) (after : option (Z * jstr)) :
    program Workspace (result WorkspaceError (list thread * option (Z * jstr))) :=
  Query (findBot a botId) (λ r,
    match r with
    | Err e => Done (Err e)
    | Ok _ => Query (listForBot a botId {| tpLimit := S limit; tpBefore := after |}) (λ rows, Done (Ok (pageOf limit rows)))
    end).

(** A client that echoes each cursor back until there is none. *)
Fixpoint walk (a : UserActor) (botId : jstr) (limit fuel : nat) (after : option (Z * jstr)) (w : Workspace) : option (list thread) :=
  match fuel with
  | O => None
  | S fuel =>
      match (runAlone (listThreads a botId limit after) 0%Z w).1 with
      | Ok (threads, Some cursor) => rest ← walk a botId limit fuel (Some cursor) w; Some (threads ++ rest)
      | Ok (threads, None) => Some threads
      | Err _ => None
      end
  end.

(** Every thread of the bot, most recently active first. *)
Definition allThreads (a : UserActor) (botId : jstr) (w : Workspace) : list thread :=
  orderBy threadBefore (List.filter (λ x, bool_decide (wtBot x.2 = botId)) (map_to_list (threadsIn (acSpace a) w))).

(** ** Lists in an order *)

Section ordered.
Context {A : Type} (le : A → A → bool).
Abbreviation R := (λ x y, le x y = true).

Lemma insertBy_strong x l : (∀ y z, R y z ∨ R z y) → Transitive R → StronglySorted R l → StronglySorted R (insertBy le x l).
Proof.
  intros Ht Htr. induction l as [|y l IH]; intros Hs; cbn [insertBy]; [by repeat constructor|].
  inversion Hs as [|? ? Hl Hy]; subst. destruct (le x y) eqn:E.
  - constructor; [done|]. constructor; [done|]. eapply Forall_impl; [exact Hy|]. intros z Hz. by apply (Htr x y z).
  - constructor; [by apply IH|]. rewrite insertBy_perm. constructor; [|done]. by destruct (Ht x y); congruence.
Qed.

Lemma orderBy_strong l : (∀ y z, R y z ∨ R z y) → Transitive R → StronglySorted R (orderBy le l).
Proof. intros Ht Htr. induction l as [|x l IH]; [constructor|]. by apply insertBy_strong. Qed.

Lemma filter_strong (p : A → bool) l : StronglySorted R l → StronglySorted R (List.filter p l).
Proof.
  induction 1 as [|x l _ IH Hx]; cbn; [constructor|]. destruct (p x); [|done]. constructor; [done|].
  apply Forall_forall. intros y Hy. apply list_elem_of_In, filter_In in Hy as [Hy _]. rewrite Forall_forall in Hx.
  apply Hx. by apply list_elem_of_In.
Qed.

(** One order has one list. *)
Lemma strong_unique (l k : list A) : (∀ x y, x ∈ l → y ∈ l → R x y → R y x → x = y) → StronglySorted R l → StronglySorted R k → l ≡ₚ k → l = k.
Proof.
  revert k. induction l as [|x l IH]; intros k Ha Hl Hk Hp; [by apply Permutation_nil_l in Hp|].
  destruct k as [|y k]; [by apply Permutation_nil_r in Hp|].
  inversion Hl as [|? ? Hl' Hx]; subst. inversion Hk as [|? ? Hk' Hy]; subst.
  assert (x = y) as ->.
  { assert (y ∈ x :: l) as Hyin by (rewrite Hp; left). assert (x ∈ y :: k) as Hxin by (rewrite <- Hp; left).
    apply elem_of_cons in Hyin as [->|Hyin]; [done|]. apply elem_of_cons in Hxin as [->|Hxin]; [done|].
    rewrite Forall_forall in Hx, Hy. apply Ha; [left|by right|by apply Hx|by apply Hy]. }
  f_equal. apply IH; [|done|done|by apply (Permutation.Permutation_cons_inv Hp)].
  intros z z' Hz Hz'. apply Ha; by right.
Qed.
End ordered.

Lemma filter_filter {A} (p q : A → bool) l : List.filter p (List.filter q l) = List.filter (λ x, q x && p x) l.
Proof. induction l as [|x l IH]; cbn; [done|]. destruct (q x); cbn; [|done]. destruct (p x); by rewrite IH. Qed.

Lemma filter_perm {A} (p : A → bool) l k : l ≡ₚ k → List.filter p l ≡ₚ List.filter p k.
Proof.
  induction 1 as [|x l k _ IH|x y l|l k m _ IH1 _ IH2]; cbn; [done| | |by etrans].
  - destruct (p x); [by constructor|done].
  - destruct (p x), (p y); try done. constructor.
Qed.

Lemma filter_sub {A} (p : A → bool) l : List.filter p l `sublist_of` l.
Proof. induction l as [|x l IH]; cbn; [constructor|]. destruct (p x); by constructor. Qed.

Lemma filter_nothing {A} (p : A → bool) l : (∀ x, x ∈ l → p x = false) → List.filter p l = [].
Proof.
  induction l as [|x l IH]; intros Hp; cbn; [done|]. rewrite (Hp x) by left. apply IH. intros y Hy. apply Hp. by right.
Qed.

Lemma sublist_full {A} (l k : list A) : l `sublist_of` k → length k ≤ length l → l = k.
Proof.
  induction 1 as [|x l k _ IH|x l k Hs _]; cbn; intros Hl; [done|f_equal; apply IH; lia|].
  apply sublist_length in Hs. lia.
Qed.

(** ** The order of threads *)

(** [(updated_at, id) < (updated_at, id)]. *)
Definition keyBelow (x : thread) (us : Z) (id : jstr) : Prop :=
  (wtUpdatedAt x.2 < us)%Z ∨ (wtUpdatedAt x.2 = us ∧ ¬ compareStrings id x.1).

Lemma pastCursor_iff ms id x : pastCursor (Some (ms, id)) x = true ↔ keyBelow x (ms * 1000) id.
Proof.
  unfold pastCursor, keyBelow, compareStrings. rewrite orb_true_iff, andb_true_iff, Z.ltb_lt, Z.eqb_eq, negb_true_iff.
  by rewrite not_true_iff_false.
Qed.

Lemma threadBefore_iff x y : threadBefore x y = true ↔ ¬ keyBelow x (wtUpdatedAt y.2) y.1.
Proof.
  unfold threadBefore, keyBelow, compareStrings. destruct (Z.eqb_spec (wtUpdatedAt x.2) (wtUpdatedAt y.2)) as [E|E].
  - rewrite E. destruct (leString y.1 x.1); naive_solver lia.
  - rewrite Z.ltb_lt. naive_solver lia.
Qed.

Lemma keyBelow_total x us id : keyBelow x us id ∨ (us < wtUpdatedAt x.2)%Z ∨ (us = wtUpdatedAt x.2 ∧ compareStrings id x.1).
Proof.
  unfold keyBelow. destruct (Z.lt_trichotomy (wtUpdatedAt x.2) us) as [?|[<-|?]]; [tauto| |tauto].
  destruct (decide (compareStrings id x.1)); tauto.
Qed.

Lemma keyBelow_trans x us id us' id' : keyBelow x us id → (us < us')%Z ∨ (us = us' ∧ compareStrings id id') → keyBelow x us' id'.
Proof.
  unfold keyBelow. intros [?|[? Hn]] [?|[? Hc]]; try (left; lia). right. split; [lia|]. intros Hc'. apply Hn. by etrans.
Qed.

Lemma keyBelow_below x y us id : keyBelow y (wtUpdatedAt x.2) x.1 → keyBelow x us id → keyBelow y us id.
Proof.
  unfold keyBelow. intros [?|[? Hy]] [?|[? Hx]]; try (left; lia). right. split; [lia|]. intros Hc. apply Hx. etrans; [exact Hc|].
  by destruct (total compareStrings y.1 x.1).
Qed.

(** What its cursor names is the row, or a position of its millisecond past it. *)
Lemma cursorOf_below x y : keyBelow y ((cursorOf x).1 * 1000) x.1 → keyBelow y (wtUpdatedAt x.2) x.1.
Proof.
  intros Hp. eapply keyBelow_trans; [exact Hp|]. cbn. pose proof (Z.mul_div_le (wtUpdatedAt x.2) 1000 ltac:(lia)).
  destruct (Z.eq_dec (wtUpdatedAt x.2 `div` 1000 * 1000)%Z (wtUpdatedAt x.2)); [right|left; lia]. split; [lia|]. by destruct (total compareStrings x.1 x.1).
Qed.

(** A row the cursor of [x] passes over: it follows [x] within a millisecond the cursor cut. *)
Definition lost (x y : thread) : Prop :=
  x ≠ y ∧ threadBefore x y = true ∧ (wtUpdatedAt y.2 `div` 1000 = wtUpdatedAt x.2 `div` 1000)%Z ∧ (wtUpdatedAt x.2 `mod` 1000 ≠ 0)%Z.

Lemma not_past_lost x y : x.1 ≠ y.1 → threadBefore x y = true → pastCursor (Some (cursorOf x)) y = false → lost x y.
Proof.
  intros Hne Hb Hp. assert (¬ keyBelow y ((cursorOf x).1 * 1000) x.1) as Hn.
  { intros Hc. assert (pastCursor (Some (cursorOf x)) y = true) by by apply pastCursor_iff. congruence. }
  cbn in Hn. pose proof (Z.div_mod (wtUpdatedAt x.2) 1000 ltac:(lia)). pose proof (Z.mod_pos_bound (wtUpdatedAt x.2) 1000 ltac:(lia)).
  assert (keyBelow y (wtUpdatedAt x.2) x.1) as Hk.
  { destruct (keyBelow_total y (wtUpdatedAt x.2) x.1) as [?|Hk]; [done|]. apply threadBefore_iff in Hb. unfold keyBelow in Hb.
    destruct Hk as [?|[E Hc]]; [destruct Hb; by left|]. destruct (decide (compareStrings y.1 x.1)) as [Hc'|Hc']; [|destruct Hb; by right].
    destruct Hne. by apply (anti_symm compareStrings). }
  split; [congruence|]. split; [done|]. unfold keyBelow in *. destruct (keyBelow_total y (wtUpdatedAt x.2 `div` 1000 * 1000)%Z x.1) as [?|Hlow]; [done|].
  assert (wtUpdatedAt x.2 `div` 1000 * 1000 ≤ wtUpdatedAt y.2)%Z as Hge by (destruct Hlow as [?|[? _]]; lia).
  assert (wtUpdatedAt y.2 ≤ wtUpdatedAt x.2)%Z as Hle by (destruct Hk as [?|[? _]]; lia). split.
  - symmetry. apply (Z.div_unique_pos _ _ _ (wtUpdatedAt y.2 - wtUpdatedAt x.2 `div` 1000 * 1000)%Z); lia.
  - intros Hm. apply Hn. replace (wtUpdatedAt x.2 `div` 1000 * 1000)%Z with (wtUpdatedAt x.2) by lia. done.
Qed.

Lemma threadBefore_total x y : threadBefore x y = true ∨ threadBefore y x = true.
Proof.
  rewrite !threadBefore_iff. destruct (keyBelow_total x (wtUpdatedAt y.2) y.1) as [H|[H|[H Hc]]]; [right|left..].
  - intros [?|[? Hn]]; destruct H as [?|[? Hn']]; try lia. by destruct (total compareStrings x.1 y.1).
  - intros [?|[? _]]; lia.
  - intros [?|[_ Hn]]; [lia|done].
Qed.

Lemma threadBefore_trans x y z : threadBefore x y = true → threadBefore y z = true → threadBefore x z = true.
Proof.
  rewrite !threadBefore_iff. intros Hxy Hyz Hxz. apply Hxy.
  destruct (keyBelow_total y (wtUpdatedAt z.2) z.1) as [?|H]; [done|]. by eapply keyBelow_trans.
Qed.

Lemma threadBefore_antisym x y : threadBefore x y = true → threadBefore y x = true → x.1 = y.1.
Proof.
  unfold threadBefore. destruct (Z.eqb_spec (wtUpdatedAt x.2) (wtUpdatedAt y.2)) as [E|E].
  - rewrite E, Z.eqb_refl. intros H1 H2. by apply (anti_symm compareStrings).
  - rewrite (proj2 (Z.eqb_neq _ _)) by lia. rewrite !Z.ltb_lt. lia.
Qed.

(** ** The walk *)

Section walk.
Context (a : UserActor) (botId : jstr) (w : Workspace).
Abbreviation L := (allThreads a botId w).

Lemma allThreads_strong : StronglySorted (λ x y, threadBefore x y = true) L.
Proof. apply orderBy_strong; [apply threadBefore_total|]. intros x y z. apply threadBefore_trans. Qed.

Lemma allThreads_nodup : NoDup L.*1.
Proof.
  unfold allThreads. rewrite orderBy_perm. eapply sublist_NoDup; [apply (NoDup_fst_map_to_list (threadsIn (acSpace a) w))|].
  apply fmap_sublist, filter_sub.
Qed.

(** A page is of the whole list. *)
Lemma listForBot_page limit after now :
  (listForBot a botId {| tpLimit := limit; tpBefore := after |} now w).1 = take limit (List.filter (pastCursor after) L).
Proof.
  cbn [listForBot fst tpLimit tpBefore]. f_equal. apply (strong_unique threadBefore).
  - intros x y Hx Hy H1 H2. rewrite orderBy_perm in Hx, Hy. apply list_elem_of_In, filter_In in Hx as [Hx _], Hy as [Hy _].
    destruct x as [i x], y as [j y]. apply list_elem_of_In, elem_of_map_to_list in Hx, Hy.
    pose proof (threadBefore_antisym _ _ H1 H2) as E. cbn in *. subst j. congruence.
  - apply orderBy_strong; [apply threadBefore_total|]. intros x y z. apply threadBefore_trans.
  - apply filter_strong, allThreads_strong.
  - rewrite orderBy_perm. unfold allThreads. rewrite <- filter_filter.
    symmetry. apply filter_perm, orderBy_perm.
Qed.

(** What is left past a row of the list: the rows after it, but those of its millisecond. *)
Lemma left_past_row l1 x l2 y :
  StronglySorted (λ x y, threadBefore x y = true) (l1 ++ x :: l2) → NoDup (l1 ++ x :: l2).*1 → y ∈ l1 ++ x :: l2 →
  pastCursor (Some (cursorOf x)) y = true → y ∈ l2.
Proof.
  intros Hs Hn Hy Hk%pastCursor_iff%cursorOf_below.
  apply elem_of_app in Hy as [Hy|Hy].
  - assert (threadBefore y x = true) as Hyx; [|by apply threadBefore_iff in Hyx].
    clear -Hs Hy. induction l1 as [|z l1 IH]; [by apply elem_of_nil in Hy|]. cbn in Hs. inversion Hs as [|? ? Hs' Hz]; subst.
    apply elem_of_cons in Hy as [->|Hy]; [|by apply IH]. rewrite Forall_forall in Hz. apply Hz. apply elem_of_app. right. left.
  - apply elem_of_cons in Hy as [->|Hy]; [|done]. destruct Hk as [?|[_ Hk]]; [lia|]. destruct Hk. by destruct (total compareStrings x.1 x.1).
Qed.

Lemma past_row after r1 x r2 :
  List.filter (pastCursor after) L = r1 ++ x :: r2 →
  List.filter (pastCursor (Some (cursorOf x))) L = List.filter (pastCursor (Some (cursorOf x))) r2 ∧
  ∀ y, y ∈ r2 → pastCursor (Some (cursorOf x)) y = false → lost x y.
Proof.
  intros HR. pose proof (filter_strong threadBefore (pastCursor after) L allThreads_strong) as Hs.
  assert (NoDup (List.filter (pastCursor after) L).*1) as Hn by (eapply sublist_NoDup; [apply allThreads_nodup|apply fmap_sublist, filter_sub]).
  assert (pastCursor after x = true) as Hx.
  { assert (x ∈ List.filter (pastCursor after) L) as Hx by (rewrite HR; apply elem_of_app; right; left).
    apply list_elem_of_In, filter_In in Hx. tauto. }
  rewrite HR in Hs, Hn. assert (Hdisj : ∀ y, y ∈ r1 ++ [x] → y ∉ r2).
  { rewrite fmap_app, NoDup_app in Hn. destruct Hn as (_ & Hn1 & Hn2). cbn in Hn1, Hn2. apply NoDup_cons in Hn2 as [Hn2 _].
    intros y [Hy|Hy%list_elem_of_singleton]%elem_of_app Hy2.
    - apply (Hn1 y.1); [by apply (list_elem_of_fmap_2 fst)|right; by apply (list_elem_of_fmap_2 fst)].
    - subst y. apply Hn2. by apply (list_elem_of_fmap_2 fst). }
  split.
  - transitivity (List.filter (pastCursor (Some (cursorOf x))) (List.filter (pastCursor after) L)).
    + rewrite filter_filter. apply List.filter_ext. intros y. destruct (pastCursor (Some (cursorOf x)) y) eqn:Hp; [|by rewrite andb_false_r].
      rewrite andb_true_r. symmetry. destruct after as [[ms id]|]; [|done]. apply pastCursor_iff. apply pastCursor_iff in Hx, Hp.
      apply (keyBelow_below x); [apply cursorOf_below; exact Hp|exact Hx].
    + rewrite HR. replace (r1 ++ x :: r2) with ((r1 ++ [x]) ++ r2) in * by (by rewrite <- app_assoc). rewrite List.filter_app.
      replace (List.filter (pastCursor (Some (cursorOf x))) (r1 ++ [x])) with (@nil thread); [done|]. symmetry.
      apply filter_nothing. intros y Hy. apply not_true_iff_false. intros Hp. apply (Hdisj y Hy).
      rewrite <- app_assoc in Hs, Hn.
      apply (left_past_row r1 x r2 y Hs Hn); [|exact Hp]. apply elem_of_app in Hy as [Hy|Hy%list_elem_of_singleton]; apply elem_of_app; [by left|right; subst; left].
  - intros y Hy Hp. apply not_past_lost; [| |done].
    + intros E. rewrite fmap_app, NoDup_app in Hn. destruct Hn as (_ & _ & Hn2). cbn in Hn2. apply NoDup_cons in Hn2 as [Hn2 _].
      apply Hn2. rewrite E. by apply (list_elem_of_fmap_2 fst).
    + clear -Hs Hy. induction r1 as [|z r1 IH]; cbn in Hs; inversion Hs as [|? ? Hs' Hz]; subst; [|by apply IH].
      rewrite Forall_forall in Hz. by apply Hz.
Qed.

Lemma walk_spec limit fuel after :
  (0 < limit)%nat → is_Some (botsIn (acSpace a) w !! botId) → (length (List.filter (pastCursor after) L) < fuel)%nat →
  ∃ out, walk a botId limit fuel after w = Some out ∧ out `sublist_of` List.filter (pastCursor after) L ∧
    ∀ y, y ∈ List.filter (pastCursor after) L → y ∈ out ∨ ∃ x, x ∈ out ∧ lost x y.
Proof.
  intros Hlim Hbot. revert after. induction fuel as [|fuel IH]; intros after Hf; [lia|].
  set (R := List.filter (pastCursor after) L) in *.
  assert ((runAlone (listThreads a botId limit after) 0%Z w).1 = Ok (pageOf limit (take (S limit) R))) as Hpage.
  { destruct Hbot as [b Hb]. unfold listThreads. cbn [runAlone findBot]. rewrite Hb. cbn [requiredRow runAlone].
    pose proof (listForBot_page (S limit) after 0%Z) as Hl. fold R in Hl. rewrite <- Hl. by destruct (listForBot _ _ _ _ _). }
  cbn [walk]. rewrite Hpage. unfold pageOf. rewrite take_take, length_take, (Nat.min_l limit (S limit)) by lia.
  destruct (Nat.ltb_spec limit (S limit `min` length R)) as [Hlt|Hge].
  - assert (limit < length R)%nat as HR by lia. clear Hlt.
    destruct (last (take limit R)) as [x|] eqn:Hlast.
    2:{ apply last_None in Hlast. apply (f_equal length) in Hlast. rewrite length_take in Hlast. cbn in Hlast. lia. }
    apply last_Some in Hlast as [r1 Hr1]. cbn [fmap option_fmap option_map].
    assert (HRe : R = r1 ++ x :: drop limit R) by (rewrite <- (take_drop limit R) at 1; rewrite Hr1, <- app_assoc; done).
    set (r2 := drop limit R) in *. destruct (past_row after r1 x r2 HRe) as [HR' Hlost]. destruct (IH (Some (cursorOf x))) as (out & Hw & Hsub & Hall).
    + rewrite HR'. pose proof (sublist_length _ _ (filter_sub (pastCursor (Some (cursorOf x))) r2)). rewrite HRe, length_app in Hf. cbn in Hf. lia.
    + rewrite Hw. cbn. exists (take limit R ++ out). split; [done|]. rewrite HR' in Hsub, Hall. split.
      * rewrite <- (take_drop limit R) at 2. apply sublist_app; [done|]. etrans; [exact Hsub|apply filter_sub].
      * intros y Hy. rewrite <- (take_drop limit R) in Hy. fold r2 in Hy. apply elem_of_app in Hy as [Hy|Hy]; [left; apply elem_of_app; by left|].
        destruct (pastCursor (Some (cursorOf x)) y) eqn:Hp.
        -- destruct (Hall y) as [?|(z & ? & ?)]; [apply list_elem_of_In, filter_In; split; [by apply list_elem_of_In|done]|left|right].
           ++ apply elem_of_app. by right.
           ++ exists z. split; [apply elem_of_app; by right|done].
        -- right. exists x. split; [rewrite Hr1; rewrite !elem_of_app; left; right; left|by apply Hlost].
  - exists (take limit R). rewrite take_ge by lia. split; [done|]. split; [done|]. intros y Hy. by left.
Qed.

(** C15. C1: a client that echoes each cursor back ends, with the bot's threads in their order,
    none twice; one it was not given follows a row it was given within the millisecond that
    row's cursor cut, so over threads no two of which share a millisecond, or all touched at
    whole ones, it is given every thread. *)
Theorem thread_walk (limit : nat) :
  (0 < limit)%nat → is_Some (botsIn (acSpace a) w !! botId) →
  ∃ out, walk a botId limit (S (length L)) None w = Some out ∧ out `sublist_of` L ∧ NoDup out.*1 ∧
    (∀ y, y ∈ L → y ∈ out ∨ ∃ x, x ∈ out ∧ lost x y) ∧
    ((∀ x y, x ∈ L → y ∈ L → ¬ lost x y) → out = L).
Proof.
  intros Hlim Hbot. assert (List.filter (pastCursor None) L = L) as HL by (clear; induction L as [|x l IH]; cbn; [done|by rewrite IH]).
  destruct (walk_spec limit (S (length L)) None Hlim Hbot) as (out & Hw & Hs & Hall); [rewrite HL; lia|]. rewrite HL in Hs, Hall.
  exists out. split_and!; [done|done| |done|].
  - eapply sublist_NoDup; [apply allThreads_nodup|]. by apply fmap_sublist.
  - intros Hno. apply sublist_full; [done|]. apply submseteq_length, NoDup_submseteq.
    + eapply NoDup_fmap_1. apply allThreads_nodup.
    + intros y Hy. destruct (Hall y Hy) as [?|(x & Hx & Hl)]; [done|]. destruct (Hno x y); [|done|done].
      apply (elem_of_submseteq out); [done|by apply sublist_submseteq].
Qed.
End walk.

(** ** Two threads of one millisecond *)

Definition threadRowAt (us : Z) : WorkThreadRow :=
  {| wtSpace := u "s"; wtBot := u "b"; wtUser := u "me"; wtCreatedAt := 0; wtUpdatedAt := us |}.

Definition ownedBot : Workspace := (runAlone (perform owner (CreateBot (u "b") {|
  nbName := u "Bot"; nbColor := u "red"; nbSpawnKey := u "k"; nbTitle := None; nbDescription := None; nbInstructions := None;
  nbPinned := None; nbPosition := None; nbSection := None; nbComputerId := None; nbComputerProvider := None;
  nbConnection := None; nbModel := None |})) 0%Z (founded ∅)).2.

Definition threadsAt (l : list (jstr * Z)) : Workspace := withThreads ownedBot (list_to_map (prod_map id threadRowAt <$> l)).

Definition wholeMillis : Workspace := threadsAt [(u "t1", 3000%Z); (u "t2", 2000%Z); (u "t3", 2000%Z)].

(** Two threads created by one statement, or two touched within a millisecond. *)
Definition oneMilli : Workspace := threadsAt [(u "t1", 3500%Z); (u "t2", 3400%Z); (u "t3", 2000%Z)].

(** The second thread is on no page. *)
Example second_thread_lost : option_map (fmap fst) (walk owner (u "b") 1 4 None oneMilli) = Some [u "t1"; u "t3"].
Proof. vm_compute. reflexivity. Qed.

Lemma thread_walk_witness :
  option_map (fmap fst) (walk owner (u "b") 1 4 None wholeMillis) = Some [u "t1"; u "t3"; u "t2"] ∧
  walk owner (u "b") 1 4 None wholeMillis = Some (allThreads owner (u "b") wholeMillis) ∧
  ∃ x y, x ∈ allThreads owner (u "b") oneMilli ∧ lost x y ∧ (∀ out, walk owner (u "b") 1 4 None oneMilli = Some out → y ∉ out).
Proof.
  split; [vm_compute; reflexivity|]. split.
  - destruct (thread_walk owner (u "b") wholeMillis 1) as (out & Hw & _ & _ & _ & Hall); [lia|by vm_compute; eexists|].
    rewrite Hall in Hw; [exact Hw|]. intros x y Hx _ (_ & _ & _ & Hm). apply Hm.
    assert (Forall (λ x : thread, (wtUpdatedAt x.2 `mod` 1000 = 0)%Z) (allThreads owner (u "b") wholeMillis)) as HF
      by (vm_compute; repeat constructor). rewrite Forall_forall in HF. by apply HF.
  - exists (u "t1", threadRowAt 3500), (u "t2", threadRowAt 3400). split_and!.
    + vm_compute. left.
    + by split_and!; vm_compute.
    + intros out. assert (walk owner (u "b") 1 4 None oneMilli = Some [(u "t1", threadRowAt 3500); (u "t3", threadRowAt 2000)]) as -> by (vm_compute; reflexivity).
      intros [= <-] [?|[?|?%elem_of_nil]%elem_of_cons]%elem_of_cons; done.
Defined.
