(* ===== verification/CorePolicies.v ===== *)
(** Three policies of packages/core/src: the isolated network of a computer
    (computer-network.ts), the destination of a bot secret and the header it rides in
    (bot-secrets.ts, with the headers packages/adapters/src/credential-proxy.ts refuses),
    and the size of a stored tool result (tool-results.ts). *)

From S2P Require Import Prelude JsText JsValue RunEvents Redaction Json Bytes Url.
From Stdlib Require Import ZifyN ZifyNat ZifyBool.

(** ** The network of a computer *)

Record ComputerIdentity := { ciComputer : jstr; ciBot : jstr }.

Definition COMPUTER_NETWORK_PREFIX : jstr := u "porkbot-bot".
Definition RESERVED_NETWORK_NAMES : list jstr := [u "host"; u "bridge"; u "default"; u "none"].
Definition MAX_COMPUTER_NETWORK_NAME_LENGTH : Z := 63.
Definition MAX_BOT_SLUG_LENGTH : nat := 24.
Definition MAX_COMPUTER_SLUG_LENGTH : nat := 16.

Record ComputerNetworkPlan := {
  npName : jstr; npDriver : jstr; npInternal : bool; npGatewayMode : jstr; npHostNetwork : bool; npPublishPorts : bool }.

Inductive ComputerNetworkPlanProblem :=
| not_prefixed | reserved_name | name_too_long | external_route | reachable_gateway | host_network | published_ports.

(** One round of FNV-1a: [^=] works on 32-bit integers, and [Math.imul(..) >>> 0] leaves
    one without sign. *)
Definition fnvRound (hash c : N) : N := (N.lxor hash c * 16777619 mod 4294967296)%N.

Definition hashOf (input : jstr) : N := foldl fnvRound 2166136261%N input.

(** [hash.toString(16).padStart(8, "0")] of a 32-bit integer. *)
Definition hex32 (n : N) : jstr :=
  (λ shift, hexChar true (N.shiftr n shift mod 16)) <$> [28; 24; 20; 16; 12; 8; 4; 0]%N.

Definition identityHash (input : jstr) : jstr := hex32 (hashOf input).

Definition isSlugChar (c : N) : bool := isLowerAscii c || isDigit c.

(** [.replace(/[^a-z0-9]+/g, "-")]: a run of other characters is one dash. *)
Fixpoint dashed (inRun : bool) (s : jstr) : jstr :=
  match s with
  | [] => []
  | c :: s => if isSlugChar c then c :: dashed false s else if inRun then dashed true s else 45%N :: dashed true s
  end.

Fixpoint dropDashes (s : jstr) : jstr :=
  match s with c :: s' => if (c =? 45)%N then dropDashes s' else s | [] => [] end.

(** [.replace(/^-+|-+$/g, "")]. *)
Definition stripDashes (s : jstr) : jstr := rev (dropDashes (rev (dropDashes s))).

Definition slug (value : jstr) : jstr :=
  let normalized := stripDashes (dashed false (toLowerCase value)) in
  if bool_decide (normalized = []) then u "computer" else normalized.

(** [None] for the [RangeError]. *)
Definition planComputerNetwork (computer : ComputerIdentity) : option ComputerNetworkPlan :=
  if isBlank (ciComputer computer) || isBlank (ciBot computer) then None
  else
    let hash := identityHash (ciBot computer ++ [0%N] ++ ciComputer computer) in
    let botSlug := take MAX_BOT_SLUG_LENGTH (slug (ciBot computer)) in
    let computerSlug := take MAX_COMPUTER_SLUG_LENGTH (slug (ciComputer computer)) in
    Some {| npName := COMPUTER_NETWORK_PREFIX ++ u "-" ++ botSlug ++ u "-" ++ computerSlug ++ u "-" ++ hash;
            npDriver := u "bridge"; npInternal := true; npGatewayMode := u "isolated"; npHostNetwork := false;
            npPublishPorts := false |}.

Definition computerNetworkPlanProblems (plan : ComputerNetworkPlan) : list ComputerNetworkPlanProblem :=
  (if startsWith (COMPUTER_NETWORK_PREFIX ++ u "-") (npName plan) then [] else [not_prefixed]) ++
  (if bool_decide (npName plan ∈ RESERVED_NETWORK_NAMES) then [reserved_name] else []) ++
  (if (MAX_COMPUTER_NETWORK_NAME_LENGTH <? strlen (npName plan))%Z then [name_too_long] else []) ++
  (if negb (npInternal plan) || negb (bool_decide (npDriver plan = u "bridge")) then [external_route] else []) ++
  (if negb (bool_decide (npGatewayMode plan = u "isolated")) then [reachable_gateway] else []) ++
  (if npHostNetwork plan then [host_network] else []) ++
  (if npPublishPorts plan then [published_ports] else []).

Definition assertComputerNetworkPlan (plan : ComputerNetworkPlan) :
    result (list ComputerNetworkPlanProblem) ComputerNetworkPlan :=
  match computerNetworkPlanProblems plan with [] => Ok plan | problems => Err problems end.

(** ** Bot secrets *)

Definition MAX_BOT_SECRET_USERNAME_LENGTH : Z := 200.

Definition BOT_SECRET_STATUSES : list jstr := [u "stored"; u "forgotten"].
Definition isBotSecretStatus (value : jsval) : bool := isOneOf BOT_SECRET_STATUSES value.

Inductive BotSecretAuth := auth_bearer | auth_header (name : jstr) | auth_basic (username : jstr).

Record BotSecretDestination := { bdName : jstr; bdOrigin : jstr; bdAuth : BotSecretAuth }.

Inductive BotSecretDestinationRejection := invalid_name | invalid_origin | invalid_auth.

(** [BOT_SECRET_NAME_PATTERN]. *)
Definition isNameUnit (c : N) : bool := isLowerAscii c || isDigit c || (c =? 95)%N.
Definition isBotSecretName (name : jstr) : bool :=
  match name with c :: rest => isLowerAscii c && forallb isNameUnit rest && (strlen rest <=? 63)%Z | [] => false end.

(** [headerNamePattern]. *)
Definition isTokenChar (c : N) : bool :=
  isLowerAscii c || isUpperAscii c || isDigit c || existsb (N.eqb c) (u "!#$%&'*+.^_`|~-").
Definition isHeaderName (name : jstr) : bool :=
  forallb isTokenChar name && (1 <=? strlen name)%Z && (strlen name <=? 120)%Z.

Definition forbiddenHeaders : list jstr := [
  u "host"; u "connection"; u "content-length"; u "content-type"; u "transfer-encoding"; u "te"; u "trailer"; u "upgrade";
  u "cookie"; u "origin"; u "referer"; u "x-porkbot-proxy-token"].

(** [forbiddenHeaderPattern], on a header name: no line terminator for [.] to stop at. *)
Definition isForbiddenHeader (name : jstr) : bool :=
  let lowered := toLowerCase name in
  bool_decide (lowered ∈ forbiddenHeaders) || startsWith (u "proxy-") lowered || startsWith (u "sec-") lowered ||
  includes (u "forwarded") lowered.

Section secrets.
Context `{UrlPlatform}.

(** [isBotSecretOrigin], with the URL it parsed. *)
Definition secretOrigin (value : jstr) : option URL :=
  if (2048 <? strlen value)%Z then None
  else
    url ← parseURL value;
    if bool_decide (protocol url = u "https:") && bool_decide (username url = []) && bool_decide (password url = []) &&
       bool_decide (pathname url = u "/") && bool_decide (search url = []) && bool_decide (hash url = [])
    then Some url else None.

(** [/[:\r\n]/.test(username)]. *)
Definition unsafeUsername (name : jstr) : bool := existsb (λ c, existsb (N.eqb c) [58; 13; 10]%N) name.

Definition parseBotSecretAuth (value : jsval) : option BotSecretAuth :=
  record ← asRecord value;
  match getField (u "type") record with
  | JString kind =>
      if bool_decide (kind = u "bearer") then Some auth_bearer
      else if bool_decide (kind = u "header") then
        match getField (u "name") record with
        | JString name => if negb (isHeaderName name) || isForbiddenHeader name then None else Some (auth_header name)
        | _ => None
        end
      else if bool_decide (kind = u "basic") then
        match getField (u "username") record with
        | JString name =>
            if (strlen name =? 0)%Z || (MAX_BOT_SECRET_USERNAME_LENGTH <? strlen name)%Z || unsafeUsername name then None
            else Some (auth_basic name)
        | _ => None
        end
      else None
  | _ => None
  end.

Definition parseBotSecretDestination (value : jsval) : result BotSecretDestinationRejection BotSecretDestination :=
  match asRecord value with
  | None => Err invalid_name
  | Some record =>
      match getField (u "name") record with
      | JString name =>
          if negb (isBotSecretName name) then Err invalid_name
          else
            match getField (u "origin") record with
            | JString text =>
                match secretOrigin text with
                | None => Err invalid_origin
                | Some url =>
                    match parseBotSecretAuth (getField (u "auth") record) with
                    | None => Err invalid_auth
                    | Some auth => Ok {| bdName := name; bdOrigin := origin url; bdAuth := auth |}
                    end
                end
            | _ => Err invalid_origin
            end
      | _ => Err invalid_name
      end
  end.
End secrets.

Definition sameBotSecretDestination (left right : BotSecretDestination) : bool :=
  bool_decide (bdOrigin left = bdOrigin right) &&
  match bdAuth left, bdAuth right with
  | auth_bearer, auth_bearer => true
  | auth_header a, auth_header b | auth_basic a, auth_basic b => bool_decide (a = b)
  | _, _ => false
  end.

Definition base64Utf8 (value : jstr) : jstr := base64 (utf8 value).

Definition botSecretCredentialHeader (destination : BotSecretDestination) (value : jstr) : jstr * jstr :=
  match bdAuth destination with
  | auth_header name => (name, value)
  | auth_basic name => (u "authorization", u "Basic " ++ base64Utf8 (name ++ u ":" ++ value))
  | auth_bearer => (u "authorization", u "Bearer " ++ value)
  end.

(** The proxy's own list, and its check of a lower-case name. *)
Definition FORBIDDEN_GRANT_HEADERS : list jstr := [
  u "host"; u "connection"; u "content-length"; u "content-encoding"; u "transfer-encoding"; u "upgrade"; u "keep-alive";
  u "te"; u "trailer"; u "expect"; u "proxy-authorization"; u "proxy-connection"; u "cookie"; u "cookie2";
  u "x-porkbot-proxy-token"].

Definition hasLineBreak (s : jstr) : bool := existsb (λ c, (c =? 13) || (c =? 10))%N s.

Definition usableGrantHeader (name value : jstr) : bool :=
  negb (bool_decide (name = [])) && negb (bool_decide (name ∈ FORBIDDEN_GRANT_HEADERS)) && negb (hasLineBreak name) &&
  negb (hasLineBreak value).

(** ** Tool results *)

Record ToolResultLimits := { tlInline : jsnum; tlPreview : jsnum }.
Definition DEFAULT_TOOL_RESULT_LIMITS : ToolResultLimits := {| tlInline := NInt 65536; tlPreview := NInt 2048 |}.

Definition toolResultTruncationMarker : jstr := u "[truncated]".
Definition unserializableToolResultPreview : jstr := u "[unserializable tool result]".

Record ToolResultSummary := { tsResult : jsval; tsArtifact : option ToolResultArtifact }.

Inductive ToolResultRefusal := no_call_id | bad_limit.

(** [assertLimit]. *)
Definition assertLimit (value : jsnum) : result ToolResultRefusal Z :=
  match safeInteger value with Some z => if (z <=? 0)%Z then Err bad_limit else Ok z | None => Err bad_limit end.

(** [.replace(/\uFFFD$/, "")]. *)
Definition withoutReplacement (s : jstr) : jstr :=
  match rev s with c :: rest => if (c =? 65533)%N then rev rest else s | [] => [] end.

(** A prefix of the bytes, decoded: a JSON text starts with no byte order mark. *)
Definition preview (json : jstr) (previewBytes : Z) : jstr :=
  withoutReplacement (fromUtf8 (take (Z.to_nat previewBytes) (utf8 json))).

(** [json] is what [serialize] answers. *)
Definition summarizeToolResult (value : jsval) (json : option jstr) (callId : jstr) (limits : ToolResultLimits) :
    result ToolResultRefusal ToolResultSummary :=
  if isBlank callId then Err no_call_id
  else
    maxInlineBytes ← assertLimit (tlInline limits);
    previewBytes ← assertLimit (tlPreview limits);
    match json with
    | None =>
        Ok {| tsResult := JString unserializableToolResultPreview;
              tsArtifact := Some {| artifactCallId := callId; artifactBytes := 0 |} |}
    | Some text =>
        let bytes := Z.of_nat (length (utf8 text)) in
        if (bytes <=? maxInlineBytes)%Z then Ok {| tsResult := value; tsArtifact := None |}
        else Ok {| tsResult := JString (preview text previewBytes ++ u " " ++ toolResultTruncationMarker);
                   tsArtifact := Some {| artifactCallId := callId; artifactBytes := bytes |} |}
    end.

(** ** The network: proofs *)

Definition isNetworkChar (c : N) : bool := isSlugChar c || (c =? 45)%N.

Lemma forallb_of_Forall {A} (p : A → bool) l : Forall (λ x, p x = true) l → forallb p l = true.
Proof. induction 1 as [|x l Hx _ IH]; cbn; [done|]. by rewrite Hx. Qed.

Lemma dashed_chars b s : Forall (λ c, isNetworkChar c = true) (dashed b s).
Proof.
  revert b. induction s as [|c s IH]; intros b; cbn [dashed]; [constructor|]. destruct (isSlugChar c) eqn:E.
  - constructor; [unfold isNetworkChar; by rewrite E|done].
  - destruct b; [done|]. by constructor.
Qed.

Lemma dropDashes_suffix s : ∃ p, s = p ++ dropDashes s.
Proof.
  induction s as [|c s [p IH]]; [by exists []|]. cbn [dropDashes]. destruct (c =? 45)%N; [|by exists []].
  exists (c :: p). cbn. by rewrite <- IH.
Qed.

Lemma dropDashes_Forall (P : N → Prop) s : Forall P s → Forall P (dropDashes s).
Proof. destruct (dropDashes_suffix s) as [p Hp]. rewrite Hp at 1. by intros [_ ?]%Forall_app. Qed.

Lemma slug_chars value : Forall (λ c, isNetworkChar c = true) (slug value).
Proof.
  unfold slug. case_bool_decide; [vm_compute; repeat constructor|]. unfold stripDashes.
  apply Forall_rev, dropDashes_Forall, Forall_rev, dropDashes_Forall, dashed_chars.
Qed.

Lemma hex32_chars n : Forall (λ c, isNetworkChar c = true) (hex32 n) ∧ length (hex32 n) = 8.
Proof.
  split; [|done]. apply Forall_fmap, Forall_forall. intros k _. cbn. pose proof (N.mod_lt (N.shiftr n k) 16 ltac:(lia)).
  unfold isNetworkChar, isSlugChar, isLowerAscii, isDigit, hexChar. case_match; lia.
Qed.

Lemma hashOf_bound input : (hashOf input < 4294967296)%N.
Proof.
  unfold hashOf. assert (2166136261 < 4294967296)%N as H by lia. revert H. generalize 2166136261%N.
  induction input as [|c s IH]; intros h Hh; cbn [foldl]; [done|]. apply IH. unfold fnvRound. by apply N.mod_lt.
Qed.

Lemma hexChar_injective v w : (v < 16)%N → (w < 16)%N → hexChar true v = hexChar true w → v = w.
Proof. intros Hv Hw. unfold hexChar. repeat case_match; lia. Qed.

(** One more digit. *)
Lemma hexDigit_step k n m :
  (n / 2 ^ (k + 4) = m / 2 ^ (k + 4))%N → (n / 2 ^ k mod 16 = m / 2 ^ k mod 16)%N → (n / 2 ^ k = m / 2 ^ k)%N.
Proof.
  rewrite N.pow_add_r, <- !N.Div0.div_div. change (2 ^ 4)%N with 16%N. intros Hd Hm.
  rewrite (N.div_mod (n / 2 ^ k) 16), (N.div_mod (m / 2 ^ k) 16) by done. by rewrite Hd, Hm.
Qed.

(** The eight digits are the number. *)
Lemma hex32_injective n m : (n < 4294967296)%N → (m < 4294967296)%N → hex32 n = hex32 m → n = m.
Proof.
  intros Hn Hm. cbn [hex32 fmap list_fmap]. intros [= H1 H2 H3 H4 H5 H6 H7 H8].
  assert (∀ k v w, hexChar true (N.shiftr v k mod 16) = hexChar true (N.shiftr w k mod 16) → (v / 2 ^ k mod 16 = w / 2 ^ k mod 16)%N) as HD.
  { intros k v w. rewrite !N.shiftr_div_pow2. apply hexChar_injective; by apply N.mod_lt. }
  apply HD in H1, H2, H3, H4, H5, H6, H7, H8. clear HD.
  assert (n / 2 ^ 28 = m / 2 ^ 28)%N as E28.
  { rewrite (N.mod_small (n / 2 ^ 28)), (N.mod_small (m / 2 ^ 28)) in H1; [done|apply N.Div0.div_lt_upper_bound; lia..]. }
  pose proof (hexDigit_step 24 n m E28 H2) as E24. pose proof (hexDigit_step 20 n m E24 H3) as E20.
  pose proof (hexDigit_step 16 n m E20 H4) as E16. pose proof (hexDigit_step 12 n m E16 H5) as E12.
  pose proof (hexDigit_step 8 n m E12 H6) as E8. pose proof (hexDigit_step 4 n m E8 H7) as E4.
  pose proof (hexDigit_step 0 n m E4 H8) as E0. by rewrite !N.div_1_r in E0.
Qed.

(** C29. C1: a computer with a bot and an id gets a network and any other is refused; the
    network passes the guard a provider runs — its own prefix, never one of the engine's
    names, within the engine's length, internal, without gateway, host or ports — its name
    is letters, digits and dashes, and two computers share it only when the hashes of their
    identities agree. *)
Theorem computer_network_isolated (c : ComputerIdentity) :
  (planComputerNetwork c = None ↔ isBlank (ciComputer c) = true ∨ isBlank (ciBot c) = true) ∧
  ∀ p, planComputerNetwork c = Some p →
    assertComputerNetworkPlan p = Ok p ∧ forallb isNetworkChar (npName p) = true ∧
    ∀ c' p', planComputerNetwork c' = Some p' → npName p' = npName p →
      hashOf (ciBot c' ++ [0%N] ++ ciComputer c') = hashOf (ciBot c ++ [0%N] ++ ciComputer c).
Proof.
  unfold planComputerNetwork. split; [destruct (isBlank (ciComputer c)), (isBlank (ciBot c)); naive_solver|].
  intros p. destruct (_ || _); [done|]. intros <-%(inj Some).
  set (b := take MAX_BOT_SLUG_LENGTH (slug (ciBot c))). set (k := take MAX_COMPUTER_SLUG_LENGTH (slug (ciComputer c))).
  assert (length b ≤ 24 ∧ length k ≤ 16)%nat as [Hb Hk].
  { subst b k. rewrite !length_take. unfold MAX_BOT_SLUG_LENGTH, MAX_COMPUTER_SLUG_LENGTH. lia. }
  destruct (hex32_chars (hashOf (ciBot c ++ [0%N] ++ ciComputer c))) as [Hx Hl]. split_and!.
  - unfold assertComputerNetworkPlan, computerNetworkPlanProblems. cbn [npName npInternal npDriver npGatewayMode npHostNetwork npPublishPorts].
    match goal with |- context [strlen ?n] => set (name := n) end.
    assert (startsWith (COMPUTER_NETWORK_PREFIX ++ u "-") name = true) as ->.
    { apply startsWith_spec. eexists. unfold name. rewrite <- (assoc_L (++)). reflexivity. }
    assert (bool_decide (name ∈ RESERVED_NETWORK_NAMES) = false) as ->.
    { apply bool_decide_false. unfold name, RESERVED_NETWORK_NAMES. rewrite !elem_of_cons. by vm_compute; intros [?|[?|[?|[?|?%elem_of_nil]]]]. }
    assert ((MAX_COMPUTER_NETWORK_NAME_LENGTH <? strlen name)%Z = false) as ->; [|done].
    apply Z.ltb_ge. unfold name, strlen, identityHash, MAX_COMPUTER_NETWORK_NAME_LENGTH. rewrite !length_app, Hl.
    change (length COMPUTER_NETWORK_PREFIX) with 11. change (length (u "-")) with 1. lia.
  - cbn [npName]. rewrite !forallb_app. unfold identityHash. rewrite !andb_true_iff. split_and!; try done.
    + apply forallb_of_Forall. apply Forall_take, slug_chars.
    + apply forallb_of_Forall. apply Forall_take, slug_chars.
    + by apply forallb_of_Forall.
  - cbn [npName]. intros c' p'. destruct (_ || _); [done|]. intros <-%(inj Some). cbn [npName].
    rewrite !(assoc_L (++)). intros [_ E]%app_inj_2; [|by destruct (hex32_chars (hashOf (ciBot c' ++ [0%N] ++ ciComputer c')))].
    apply hex32_injective; [apply hashOf_bound..|]. rewrite !(assoc_L (++)) in *. done.
Qed.

Definition sampleComputer : ComputerIdentity := {| ciComputer := u "Box 7"; ciBot := u "My_Bot!" |}.

Lemma computer_network_isolated_witness :
  ∃ p, planComputerNetwork sampleComputer = Some p ∧ npName p = u "porkbot-bot-my-bot-box-7-df9fecec" ∧ assertComputerNetworkPlan p = Ok p.
Proof.
  destruct (planComputerNetwork sampleComputer) as [p|] eqn:E; [|by vm_compute in E]. exists p. split; [done|].
  split; [vm_compute in E; by injection E as <-|]. by destruct (proj2 (computer_network_isolated sampleComputer) p E).
Defined.

(** Two computers of one bot on one network: the hash is of 32 bits. *)
Example network_shared :
  npName <$> planComputerNetwork {| ciComputer := u "0190b3c4-8f2e-7a74-b001-000000000174"; ciBot := u "b" |} =
  npName <$> planComputerNetwork {| ciComputer := u "0190b3c4-8f2e-7a54-b063-000000006354"; ciBot := u "b" |}.
Proof. vm_compute. reflexivity. Qed.

(** ** Bot secrets: proofs *)

(** What the two lists of refused headers disagree on. *)
Definition grantOnlyHeaders : list jstr := [u "content-encoding"; u "keep-alive"; u "expect"; u "cookie2"].

Lemma grant_headers_disagree lowered :
  bool_decide (lowered ∈ forbiddenHeaders) = false → startsWith (u "proxy-") lowered = false →
  lowered ∈ FORBIDDEN_GRANT_HEADERS ↔ lowered ∈ grantOnlyHeaders.
Proof.
  intros Hf%bool_decide_eq_false Hp. split.
  - intros Hg. assert (Forall (λ h, h ∈ forbiddenHeaders ∨ startsWith (u "proxy-") h = true ∨ h ∈ grantOnlyHeaders) FORBIDDEN_GRANT_HEADERS) as HF.
    { refine (bool_decide_unpack _ _). by vm_compute. }
    rewrite Forall_forall in HF. destruct (HF _ Hg) as [?|[?|?]]; [done|congruence|done].
  - assert (Forall (λ h, h ∈ FORBIDDEN_GRANT_HEADERS) grantOnlyHeaders) as HF by (refine (bool_decide_unpack _ _); by vm_compute).
    rewrite Forall_forall in HF. apply HF.
Qed.

Lemma hasLineBreak_Forall s : Forall (λ c, c ≠ 13%N ∧ c ≠ 10%N) s → hasLineBreak s = false.
Proof. unfold hasLineBreak. induction 1 as [|c s [H1 H2] _ IH]; cbn; [done|]. rewrite IH. lia. Qed.

Lemma hasLineBreak_app s t : hasLineBreak (s ++ t) = hasLineBreak s || hasLineBreak t.
Proof. apply existsb_app. Qed.

Lemma base64_no_break bs : hasLineBreak (base64 bs) = false.
Proof.
  apply hasLineBreak_Forall. unfold base64. apply Forall_app. split.
  - apply Forall_fmap, Forall_forall. intros v _. cbn. unfold base64Char. repeat case_match; lia.
  - unfold padding. destruct (length bs mod 3) as [|[|[|k]]]; repeat constructor; done.
Qed.

Lemma token_lower name : isHeaderName name = true → toLowerCase name ≠ [] ∧ hasLineBreak (toLowerCase name) = false.
Proof.
  intros [[Ht Hl]%andb_true_iff _]%andb_true_iff. assert (Forall (λ c, c < 128 ∧ c ≠ 13 ∧ c ≠ 10)%N name) as HF.
  { rewrite forallb_forall in Ht. apply Forall_forall. intros c Hc%list_elem_of_In%Ht.
    apply orb_true_iff in Hc as [Hc|(d & Hd & ->%N.eqb_eq)%existsb_exists].
    - unfold isLowerAscii, isUpperAscii, isDigit in Hc. lia.
    - assert (Forall (λ d, d < 128 ∧ d ≠ 13 ∧ d ≠ 10)%N (u "!#$%&'*+.^_`|~-")) as HF by (refine (bool_decide_unpack _ _); by vm_compute).
      rewrite Forall_forall in HF. by apply HF, list_elem_of_In. }
  split.
  - destruct name as [|c name]; [by vm_compute in Hl|]. rewrite toLowerCase_cons. inversion HF; subst.
    unfold toLowerCase at 1. cbn. repeat case_match; done.
  - apply hasLineBreak_Forall. unfold toLowerCase. clear Ht Hl. induction HF as [|c name Hc _ IH]; [constructor|]. cbn.
    apply Forall_app. split; [|done]. unfold isUpperAscii. repeat case_match; repeat constructor; lia.
Qed.

Section secrets.
Context `{UrlPlatform}.

(** The name of a destination's header. *)
Lemma parseAuth_header value auth :
  parseBotSecretAuth value = Some auth →
  match auth with
  | auth_header name => isHeaderName name = true ∧ isForbiddenHeader name = false
  | auth_basic name => unsafeUsername name = false ∧ name ≠ []
  | auth_bearer => True
  end.
Proof.
  unfold parseBotSecretAuth. destruct (asRecord value) as [record|]; [|done]. cbn. destruct (getField _ record) as [| | | | |kind| | | |]; try done.
  case_bool_decide; [by intros [= <-]|]. case_bool_decide.
  - destruct (getField _ record) as [| | | | |name| | | |]; try done. destruct (isHeaderName name) eqn:E; [|done].
    destruct (isForbiddenHeader name) eqn:E'; [done|]. by intros [= <-].
  - case_bool_decide; [|done]. destruct (getField _ record) as [| | | | |name| | | |]; try done.
    destruct (strlen name =? 0)%Z eqn:E0; [done|]. destruct (_ <? _)%Z; [done|]. destruct (unsafeUsername name) eqn:E; [done|].
    intros [= <-]. split; [done|]. by intros ->.
Qed.

(** C27. C1: what an accepted destination puts on the wire.  The header is a token and none of
    the names the tool layer forbids, its origin is of an https URL with no more than an
    origin; and the credential proxy injects it unless its name is one of four the proxy
    refuses and the tool layer does not, or the value breaks the line — which a basic
    credential, being base64, never does. *)
Theorem accepted_secret_header (v : jsval) (d : BotSecretDestination) (value : jstr) :
  parseBotSecretDestination v = Ok d →
  (∃ text x, parseURL text = Some x ∧ bdOrigin d = origin x ∧ protocol x = u "https:" ∧ username x = [] ∧ password x = []) ∧
  isHeaderName (botSecretCredentialHeader d value).1 = true ∧ isForbiddenHeader (botSecretCredentialHeader d value).1 = false ∧
  (usableGrantHeader (toLowerCase (botSecretCredentialHeader d value).1) (botSecretCredentialHeader d value).2 = true ↔
     toLowerCase (botSecretCredentialHeader d value).1 ∉ grantOnlyHeaders ∧
     (hasLineBreak value = false ∨ ∃ name, bdAuth d = auth_basic name)).
Proof.
  unfold parseBotSecretDestination. destruct (asRecord v) as [record|]; [|done]. destruct (getField (u "name") record) as [| | | | |name| | | |]; try done.
  destruct (isBotSecretName name); [|done]. cbn [negb]. destruct (getField (u "origin") record) as [| | | | |text| | | |]; try done.
  destruct (secretOrigin text) as [x|] eqn:Ho; [|done]. destruct (parseBotSecretAuth _) as [auth|] eqn:Ha; [|done]. intros [= <-].
  apply parseAuth_header in Ha. split.
  { unfold secretOrigin in Ho. destruct (_ <? _)%Z; [done|]. destruct (parseURL text) as [x'|] eqn:Hp; [|done]. cbn in Ho.
    destruct (_ && _) eqn:Hc; [|done]. injection Ho as ->. rewrite !andb_true_iff, !bool_decide_eq_true in Hc. exists text, x. cbn. tauto. }
  assert (∀ h t, isHeaderName h = true → isForbiddenHeader h = false →
    (usableGrantHeader (toLowerCase h) t = true ↔ toLowerCase h ∉ grantOnlyHeaders ∧ hasLineBreak t = false)) as Hu.
  { intros h t Hn Hf. destruct (token_lower h Hn) as [H1 H2]. unfold isForbiddenHeader in Hf. rewrite !orb_false_iff in Hf.
    destruct Hf as [[[Hf Hp] _] _]. unfold usableGrantHeader. rewrite !andb_true_iff, !negb_true_iff, !bool_decide_eq_false, (grant_headers_disagree _ Hf Hp), H2.
    tauto. }
  unfold botSecretCredentialHeader. cbn [bdAuth]. destruct auth as [|h|un]; cbn [fst snd].
  - split_and!; [by vm_compute..|]. rewrite Hu by by vm_compute. rewrite hasLineBreak_app. cbn [orb]. change (hasLineBreak (u "Bearer ")) with false.
    cbn [orb]. naive_solver.
  - destruct Ha as [Ha1 Ha2]. split_and!; [done|done|]. rewrite Hu by done. naive_solver.
  - split_and!; [by vm_compute..|]. rewrite Hu by by vm_compute. rewrite hasLineBreak_app. unfold base64Utf8. rewrite base64_no_break.
    change (hasLineBreak (u "Basic ")) with false. naive_solver.
Qed.
End secrets.

Definition headerDestination (name : jstr) : jsval := JObject [
  (u "name", JString (u "weather")); (u "origin", JString (u "https://api.test/"));
  (u "auth", JObject [(u "type", JString (u "header")); (u "name", JString name)])].

(** The tool layer accepts a destination the proxy does not inject. *)
Lemma accepted_secret_header_witness :
  ∃ d d', parseBotSecretDestination (headerDestination (u "X-Api-Key")) = Ok d ∧
    usableGrantHeader (toLowerCase (botSecretCredentialHeader d (u "v")).1) (botSecretCredentialHeader d (u "v")).2 = true ∧
    parseBotSecretDestination (headerDestination (u "Keep-Alive")) = Ok d' ∧
    usableGrantHeader (toLowerCase (botSecretCredentialHeader d' (u "v")).1) (botSecretCredentialHeader d' (u "v")).2 = false.
Proof.
  destruct (parseBotSecretDestination (headerDestination (u "X-Api-Key"))) as [d|] eqn:E; [|by vm_compute in E].
  destruct (parseBotSecretDestination (headerDestination (u "Keep-Alive"))) as [d'|] eqn:E'; [|by vm_compute in E'].
  exists d, d'. split; [done|].
  destruct (accepted_secret_header _ d (u "v") E) as (_ & _ & _ & Hu).
  destruct (accepted_secret_header _ d' (u "v") E') as (_ & _ & _ & Hu').
  vm_compute in E, E'. injection E as <-. injection E' as <-. split; [apply Hu; split; [refine (bool_decide_unpack _ _); by vm_compute|by left]|].
  split; [done|]. apply not_true_iff_false. intros [Hn _]%Hu'. apply Hn. refine (bool_decide_unpack _ _). by vm_compute.
Defined.

(** ** Tool results: proofs *)

(** A text of whole scalar values, as [JSON.stringify] writes. *)
Definition wellFormed (s : jstr) : Prop := isText s = true ∧ encodeText s = s.

(** A scalar value cut short is one replacement character. *)
Lemma fromUtf8_cut c k :
  (c < 1114112)%N → isHighSurrogate c || isLowSurrogate c = false → 0 < k < length (encodeScalar c) →
  fromUtf8 (take k (encodeScalar c)) = replacement.
Proof.
  unfold isHighSurrogate, isLowSurrogate. intros Hc Hs.
  assert (¬ (55296 <= c <= 57343)%N) as Hn by lia. clear Hs.
  destruct (base64_digits c) as (E1 & E2 & E3 & L1 & L2 & L3). unfold encodeScalar.
  generalize dependent ((c / 4096) mod 64)%N. generalize dependent ((c / 64) mod 64)%N. generalize dependent (c mod 64)%N.
  generalize dependent (c / 262144)%N. generalize dependent (c / 4096)%N. generalize dependent (c / 64)%N.
  intros c1 c2 c3 d1 E1 L1 d2 E2 L2 d3 E3 L3.
  destruct (N.ltb_spec c 128) as [H1|H1]; [|destruct (N.ltb_spec c 2048) as [H2|H2];
    [|destruct (N.ltb_spec c 65536) as [H3|H3]]]; cbn [length]; intros Hk.
  - lia.
  - destruct k as [|[|k]]; [lia| |lia]. cbn [take fromUtf8]. by decideLinear.
  - destruct k as [|[|[|k]]]; [lia| | |lia]; cbn [take fromUtf8]; decideLinear; cbn [andb]; [done|].
    assert (isSecondOf3 (224 + c2) (128 + d2) = true) as -> by (unfold isSecondOf3, isContinuation; repeat case_match; lia). done.
  - destruct k as [|[|[|[|k]]]]; [lia| | | |lia]; cbn [take fromUtf8]; decideLinear; cbn [andb]; [done|..];
    assert (isSecondOf4 (240 + c3) (128 + d3) = true) as -> by (unfold isSecondOf4, isContinuation; repeat case_match; lia); [done|].
    assert (isContinuation (128 + d2) = true) as -> by (unfold isContinuation; lia). done.
Qed.

Lemma encodeScalar_length c : (1 ≤ length (encodeScalar c) ≤ 4)%nat.
Proof. unfold encodeScalar. repeat case_match; cbn; lia. Qed.

(** Where [n] bytes end in a text: the decoded bytes are a prefix, or one and a
    replacement for the scalar value cut there. *)
Definition cutAt (n : nat) (s : jstr) : Prop :=
  ∃ p q, s = p ++ q ∧
    ((fromUtf8 (take n (utf8 s)) = p ∧ length (utf8 p) = min n (length (utf8 s))) ∨
     (fromUtf8 (take n (utf8 s)) = p ++ replacement ∧ length (utf8 p) < n ≤ length (utf8 p) + 3 ∧ n < length (utf8 s))).

(** One scalar value more. *)
Lemma cutAt_scalar c s n :
  (c < 1114112)%N → isHighSurrogate c || isLowSurrogate c = false →
  (∀ t, utf8 (scalarUnits c ++ t) = encodeScalar c ++ utf8 t) → (∀ n, cutAt n s) → cutAt n (scalarUnits c ++ s).
Proof.
  intros Hc Hs Hu IH. pose proof (encodeScalar_length c) as Hl. destruct (decide (n = 0)) as [->|Hn].
  { exists [], (scalarUnits c ++ s). split; [done|]. by left. }
  destruct (decide (n < length (encodeScalar c))%nat) as [Hlt|Hge].
  - exists [], (scalarUnits c ++ s). split; [done|]. right. rewrite Hu, take_app_le by lia. split; [apply fromUtf8_cut; [done|done|lia]|].
    rewrite length_app. cbn. lia.
  - destruct (IH (n - length (encodeScalar c))) as (p & q & -> & Hcut). exists (scalarUnits c ++ p), q. split; [by rewrite (assoc_L (++))|].
    rewrite !Hu, take_app_ge by lia. rewrite fromUtf8_scalar by done. rewrite !length_app. destruct Hcut as [[-> Hp]|(-> & Hp & Hp')].
    + left. split; [done|]. lia.
    + right. split; [by rewrite (assoc_L (++))|]. lia.
Qed.

Lemma cutAt_text s n : wellFormed s → cutAt n s.
Proof.
  revert n. induction s as [|c s Hc IH|c d s Hc Hd IH|c s Hl IH] using text_ind; intros n [Ht He].
  - exists [], []. split; [done|]. left. cbn [utf8]. rewrite take_nil. cbn. split; [done|lia].
  - apply isText_cons in Ht as [Hb Ht]. apply orb_false_iff in Hc as [Eh El].
    assert (scalarUnits c = [c]) as Hsc by (unfold scalarUnits; by decideLinear).
    change (c :: s) with ([c] ++ s). rewrite <- Hsc. apply cutAt_scalar; [lia|by rewrite Eh, El| |].
    + intros t. rewrite Hsc. apply utf8_one. by rewrite Eh, El.
    + intros m. apply IH. split; [done|]. cbn [encodeText] in He. rewrite El, Eh in He. by injection He.
  - apply isText_cons in Ht as [_ [_ Ht]%isText_cons]. destruct (surrogate_pair c d Hc Hd) as [Hp Hsc].
    change (c :: d :: s) with ([c; d] ++ s). rewrite <- Hsc. apply cutAt_scalar; [lia|unfold isHighSurrogate, isLowSurrogate; lia| |].
    + intros t. rewrite Hsc. by apply utf8_pair.
    + intros m. apply IH. split; [done|]. cbn [encodeText] in He.
      rewrite Hc, Hd in He. destruct (isLowSurrogate c) eqn:E; [by apply low_not_high in E; congruence|]. by injection He.
  - destruct (utf8_lone c s Hl) as [_ Hx]. rewrite Hx in He. injection He as Hc _. subst c.
    destruct Hl as [Hl|[Hl _]]; by vm_compute in Hl.
Qed.

(** The encoding of a text splits at a character that is no surrogate. *)
Lemma utf8_snoc p c : isHighSurrogate c || isLowSurrogate c = false → length (utf8 (p ++ [c])) = length (utf8 p) + length (encodeScalar c).
Proof.
  intros Hc. induction p as [|b p Hb IH|b d p Hb Hd IH|b p Hl IH] using text_ind.
  - cbn [app]. rewrite utf8_one by done. rewrite app_nil_r. done.
  - cbn [app]. rewrite !utf8_one, !length_app, IH by done. lia.
  - cbn [app]. rewrite !utf8_pair, !length_app, IH by done. lia.
  - cbn [app]. assert (isLowSurrogate b = true ∨ isHighSurrogate b = true ∧ (∀ d s', p ++ [c] = d :: s' → isLowSurrogate d = false)) as Hl'.
    { destruct Hl as [?|[? Hp]]; [by left|right]. split; [done|]. intros d s'. destruct p as [|x p]; cbn.
      - intros [= <- _]. by apply orb_false_iff in Hc as [_ ?].
      - intros [= <- _]. by eapply Hp. }
    destruct (utf8_lone b p Hl) as [-> _], (utf8_lone b (p ++ [c]) Hl') as [-> _]. rewrite !length_app, IH. lia.
Qed.

Lemma preview_spec s n :
  wellFormed s → (0 ≤ n)%Z → ∃ q, s = preview s n ++ q ∧
    (Z.min n (Z.of_nat (length (utf8 s))) - 3 ≤ Z.of_nat (length (utf8 (preview s n))) ≤ n)%Z.
Proof.
  intros Hw Hn. destruct (cutAt_text s (Z.to_nat n) Hw) as (p & q & Hs & Hcut). unfold preview.
  destruct Hcut as [[-> Hp]|(-> & Hp & Hp')].
  - unfold withoutReplacement. destruct (rev p) as [|c r] eqn:E.
    { apply (f_equal (@rev N)) in E. rewrite rev_involutive in E. cbn in E. subst p. exists q. split; [done|]. cbn [utf8 length] in *. lia. }
    apply (f_equal (@rev N)) in E. rewrite rev_involutive in E. cbn in E. subst p.
    destruct (N.eqb_spec c 65533) as [->|]; [|exists q; split; [done|lia]].
    exists ([65533%N] ++ q). rewrite Hs at 1. split; [by rewrite <- (assoc_L (++))|].
    rewrite utf8_snoc in Hp by done. change (length (encodeScalar 65533)) with 3 in Hp. lia.
  - unfold withoutReplacement, replacement. rewrite rev_app_distr. cbn [rev app]. rewrite N.eqb_refl, rev_involutive.
    exists q. split; [done|]. lia.
Qed.

(** C25. C1: what is stored of a tool's result is bounded and says when it is not the result.
    A call id and two positive limits are required and enough; a result whose JSON is
    within the inline limit is stored as it is; of any other the record is a prefix of its
    JSON of at most the preview's bytes, cut short of them by no more than a character,
    behind the truncation marker, and its artifact counts the bytes of the whole. *)
Theorem tool_result_bounded (value : jsval) (json : jstr) (callId : jstr) (limits : ToolResultLimits) :
  wellFormed json →
  (is_Some (match summarizeToolResult value (Some json) callId limits with Ok s => Some s | Err _ => None end) ↔
     isBlank callId = false ∧ ∃ m n, safeInteger (tlInline limits) = Some m ∧ safeInteger (tlPreview limits) = Some n ∧ (0 < m)%Z ∧ (0 < n)%Z) ∧
  ∀ s, summarizeToolResult value (Some json) callId limits = Ok s →
    ∃ m n, safeInteger (tlInline limits) = Some m ∧ safeInteger (tlPreview limits) = Some n ∧
    if (Z.of_nat (length (utf8 json)) <=? m)%Z then tsResult s = value ∧ tsArtifact s = None
    else tsArtifact s = Some {| artifactCallId := callId; artifactBytes := Z.of_nat (length (utf8 json)) |} ∧
         ∃ p q, json = p ++ q ∧ tsResult s = JString (p ++ u " " ++ toolResultTruncationMarker) ∧
           (Z.min n (Z.of_nat (length (utf8 json))) - 3 ≤ Z.of_nat (length (utf8 p)) ≤ n)%Z.
Proof.
  intros Hw.
  assert (∀ x z, assertLimit x = Ok z ↔ safeInteger x = Some z ∧ (0 < z)%Z) as Hlim.
  { intros x z. unfold assertLimit. destruct (safeInteger x) as [y|]; [|naive_solver]. destruct (Z.leb_spec y 0); naive_solver lia. }
  unfold summarizeToolResult. destruct (isBlank callId); [split; [split; [by intros [? ?]|naive_solver]|done]|].
  destruct (assertLimit (tlInline limits)) as [m|] eqn:Em.
  2:{ split; [|done]. split; [by intros [? ?]|]. intros (_ & m & n & H1 & _ & H2 & _). cbn. pose proof (proj2 (Hlim (tlInline limits) m) (conj H1 H2)). congruence. }
  destruct (assertLimit (tlPreview limits)) as [n|] eqn:En.
  2:{ split; [|done]. split; [by intros [? ?]|]. intros (_ & k & n & _ & H1 & _ & H2). pose proof (proj2 (Hlim (tlPreview limits) n) (conj H1 H2)). congruence. }
  apply Hlim in Em as [Em Hm], En as [En Hn]. cbn [mbind result_bind]. split.
  - split; [|intros _; destruct (_ <=? _)%Z; by eexists]. intros _. split; [done|]. by exists m, n.
  - intros s. destruct (Z.leb_spec (Z.of_nat (length (utf8 json))) m) as [Hle|Hgt]; intros [= <-]; exists m, n; (split; [done|]); (split; [done|]);
      [by rewrite (proj2 (Z.leb_le _ _)) by done|]. rewrite (proj2 (Z.leb_gt _ _)) by done. split; [done|].
    destruct (preview_spec json n Hw ltac:(lia)) as (q & Hq & Hl). by exists (preview json n), q.
Qed.

Definition smallLimits : ToolResultLimits := {| tlInline := NInt 8; tlPreview := NInt 6 |}.

(** A pair of surrogates at the cut is left out whole. *)
Definition emojiJson : jstr := u "[1,2," ++ [55357; 56832]%N ++ u "]".

Lemma tool_result_bounded_witness :
  ∃ s, summarizeToolResult JNull (Some emojiJson) (u "call") smallLimits = Ok s ∧ tsResult s = JString (u "[1,2, [truncated]") ∧
    is_Some (tsArtifact s).
Proof.
  assert (wellFormed emojiJson) as Hw by (split; vm_compute; reflexivity).
  destruct (tool_result_bounded JNull emojiJson (u "call") smallLimits Hw) as [_ Hb].
  destruct (summarizeToolResult JNull (Some emojiJson) (u "call") smallLimits) as [s|] eqn:E; [|by vm_compute in E].
  destruct (Hb s eq_refl) as (m & n & [= <-] & [= <-] & Hr). exists s. split; [done|]. split; [vm_compute in E; by injection E as <-|].
  change (Z.of_nat (length (utf8 emojiJson)) <=? 8)%Z with false in Hr. destruct Hr as [-> _]. done.
Defined.
